(* ===== verification/_CoqProject ===== *)
-Q . S2P
Prelude.v
Text.v
Timeline.v
Packet.v
FrameOrder.v
Nal.v
Remux.v
Reader.v
ReaderFacts.v
ReaderPicture.v
ReaderOutage.v
ReaderThread.v
Registry.v
Packets.v
Muxing.v
Sql.v
Selector.v
Discovery.v
Schema.v
Wire.v
Json.v
Rows.v
Credentials.v
FilterParse.v
FilterFacts.v
FilterFuel.v
FilterMatch.v
FilterCompile.v
FilterPatterns.v
FilterAgree.v
FilterServed.v
Listing.v
Entities.v
Writer.v
WriterServed.v
Load.v
LoadServed.v
Surface.v
SetValues.v
Decode.v
Http.v
Screen.v
Dump.v
DumpFacts.v
Client.v
Exports.v
ExportFacts.v
Host.v
Auth.v
Api.v
Server.v
AuthFacts.v
Session.v
ServerServed.v
Disk.v
DiskFacts.v
Config.v
Files.v
FilesServer.v
FileFacts.v
FilesContained.v
FilesAtomic.v
FilesServed.v
ConfigValues.v
ConfigServer.v
ConfigRules.v
ConfigDatabase.v
ConfigServed.v
Migrations.v
MigrationRuns.v
Turso.v
TursoFacts.v
Store.v
Paths.v
Certificates.v
CertificateFacts.v
Service.v
Operate.v
Webrtc.v
Layers.v
