(* ===== verification/Prelude.v ===== *)
(** * Ceres: a verification development for the Rust core

    Ceres supervises instruments: components produce records (messages,
    particles, alerts, logs), a database keeps them, an HTTP server lists them
    and calls into the engine, and live video is remuxed from cameras to
    browsers. This development models the Rust workspace under [src/rust]: the
    media core, the whole life of a record (its schema, its wire form, the
    filters over it, the statements they compile to, how it is written, loaded,
    updated and read back, down to a backend's connections), the configuration,
    the migrations, the server with its authentication, served files and
    managed certificates, and the command line's table verbs, exports and
    following of records.
    Definitions keep the code's names where Rocq allows; [impl] methods of the
    same name are told apart by a prefix.

    ** Parts and files

    Shared: [Prelude] (this file: [i64] and [u64] with their wrap-around,
    [result] and its bind, tactics), [Text] (Rust's [str] operations), [Json]
    ([serde_json]'s values).

    Media ([ceres-media], and what of [ceres-webrtc] is not sockets):
    - [Timeline]: [TimeBase::rescale], [PacketTiming], [Timeline::place] and
      [reconnect]; [Packet]: packets, tracks, errors as FFmpeg reports them.
    - [FrameOrder]: [remux/order.rs]; [Nal]: [nal.rs] and the parameter sets
      put in front of keyframes.
    - [Remux]: options, backoff, notices and what a reader sends ([remux/mod.rs]);
      [Reader]: the shared state of [remux/reader.rs], one definition per
      critical section; [ReaderThread]: its thread as a step machine;
      [Registry]: [attach], the registry of shared readers and the whole system
      as a step relation. [ReaderFacts], [ReaderPicture], [ReaderOutage]: what
      a reader promises its streams.
    - [Packets]: [PacketStream] ([remux/packets.rs]); [Muxing]: [Subscriber]
      ([remux/subscriber.rs]), over any muxer. [Webrtc]: the pictures, delivery
      counts and candidates of [ceres-webrtc]'s sessions.

    Filters ([ceres-entities], [ceres-macros/src/filterable.rs],
    [ceres-database/src/filter.rs] and [selector.rs]):
    - [Schema]: the structs' fields, what the derive makes of them, each table's
      keys; [Entities]: the structs' data and the rows they bind.
    - [Wire]: scalars of the wire; [FilterParse]: the parser; [FilterFacts],
      [FilterFuel]: what a parsed filter is, and that parsing ends.
    - [FilterMatch]: matching a record in memory. [Sql]: SQL trees, the class
      of databases and the patterns of [GLOB] and [LIKE]; [FilterCompile]: the
      conditions and statements. [FilterPatterns], [FilterAgree],
      [FilterServed] with its concrete backend: compiled and in-memory filters
      agree.
    - [Selector]: addresses, selectors and their compiled condition;
      [Discovery]: [discover_branches] of [store.rs]; [Listing]: what the
      statements return.

    Writing and reading ([ceres-database]):
    - [Credentials]: [credentials.rs], email addresses included. [Writer],
      [WriterServed]: [writer.rs], the transaction of [backend.rs] and the wire
      form of what is written. [Load], [LoadServed]: [load.rs] and the loads of
      [store.rs]. [SetValues]: [set.rs]. [Decode]: the row decoding of
      [records.rs] and [entities.rs].
    - [Turso]: [turso.rs], connections and transactions over an engine that may
      fail any step, and the class of backends with the sqlx one beside it;
      [TursoFacts]: the promises both keep. [Store]: what the filters'
      operations of [store.rs] do on any backend that keeps them.

    Command line ([ceres-cli]):
    - [Rows]: [RenderRows] and CSV of [ceres-entities]; [Screen]: [highlight.rs]
      and the tables of [output.rs]; [Surface]: [commands/surface.rs], the
      arguments a verb declares and the wire pairs read off them.
    - [Dump], [DumpFacts]: [commands/dump.rs], a table verb's whole run over
      the store and the terminal, and [commands/follow.rs].
    - [Client]: [client.rs] over a world of answers; [Exports], [ExportFacts]:
      [commands/exports.rs].
    - [Operate]: [selector.rs], [commands/engine.rs], [commands/console.rs] and
      the component tree of [commands/offline.rs]; [Service]: [service.rs] with
      [commands/service.rs], [project.rs] and [runtime.rs], programs on a
      machine that answers each call as it will.

    Server ([ceres-server]):
    - [Http]: [error.rs], [cookie.rs], [body.rs]; [Host]: [host.rs] as the
      questions a handler asks, and handlers as programs whose runs log each
      question with its answer; [Auth]: [auth.rs] and the identity and actor of
      [app.rs].
    - [Api]: the handlers under [api/] and [scrub.rs]; [Server]: the
      host-dispatched routes, the pump of [streams.rs], the bodies of
      [served.rs] and the application of [app.rs].
    - [Layers]: [layers.rs] and [redirect.rs].
    - [AuthFacts], [Session], [ServerServed] with its concrete crates and host:
      what requests are answered, and what the engine is asked on their behalf.

    Served files ([api/files.rs] with [ceres-config/src/files.rs]):
    - [Disk]: a POSIX filesystem as a tree of nodes with links, permissions and
      open files, the system calls on it and programs of calls that may be
      refused at any point; [DiskFacts]: its laws and a program logic over
      them.
    - [Config]: the mount entries of the configuration; [Files]: mounts, paths,
      queries and listings; [FilesServer]: uploads, moves, deletions and the
      handlers. [FileFacts], [FilesContained], [FilesAtomic] and [FilesServed]
      with its concrete tree: what requests see and change.

    Configuration ([ceres-config]):
    - [ConfigValues]: [values.rs], [timedelta.rs], the time values, addresses
      and networks; [ConfigServer] ([server.rs]), [ConfigDatabase]
      ([database.rs], [logging.rs], [meta.rs]): the sections, the deserializer
      a parameter. [ConfigRules], [ConfigServed]: what loads and what is told.

    Migrations ([ceres-database/src/migrations.rs]):
    - [Migrations]: embedded and project revisions, the chain, and [migrate]
      and its driver as programs over a store; [MigrationRuns], with its
      concrete driver: the chain and interrupted runs.

    Certificates ([ceres-server/src/tls.rs], [tls/managed.rs], [trust.rs]):
    - [Paths]: [PathBuf], the state directory and temporary files over [Disk];
      [Certificates]: loading, judging, issuing and renewing, over any X.509
      crates. [CertificateFacts], with its concrete crates:
      what a check keeps, issues and tells.

    The components meet in typeclasses: a client's theorems are proved from the
    laws, and an instance discharges them. [SqlSemantics] is what statements
    rely on of a database, [SqlFunctions] the functions the conditions call,
    [DatabaseBackend] with [LawfulBackend] what the store relies on of a
    backend (discharged by the Turso and the sqlx one), [Codecs], [Crates],
    [RowReaders], [Models] and the like what the code relies on of its crates.

    ** What the theorems show

    - Media: packets placed on the output timeline decode in strictly
      increasing order across reconnects and never show before they decode,
      in a packet stream and in the muxer alike; queues stay within their
      backlog; a stream joining late gets the picture from its keyframe and one
      that fell behind resumes at a keyframe; outages and closing are told
      once; one open reader per key in every reachable state, and an idle one
      closes; a browser starts from the frames since the latest keyframe where
      they fit, and is told addresses that a socket receives at.
    - Filters: keys resolve as the table serves them; parsing ends, never
      panics, and gives well-formed filters; on SQLite and PostgreSQL the
      compiled conditions let a row through exactly when the in-memory match
      accepts the record it stores; compiling panics exactly when an instant
      leaves its range; listings over branches, counts, existence checks and
      page-narrowed writes agree with the plain listing.
    - Writing and reading: a flush leaves the last record of each ID; the row
      bound holds what the wire form says; loads land whole or change nothing;
      updates set what they name; rows read back as what was written.
    - Backends: whatever the engine refuses, a write on the Turso backend lands
      whole or changes nothing, and no statement reaches a connection before
      what configures it has run; an update through the store sets the rows its
      filter matches and no other.
    - Command line: a select prints the rows its filter matches as one
      rendering of them, however they are paged; only a writing verb
      changes the database, and an update or delete only after a yes, unless
      told not to ask; a CSV dump
      read back is what was dumped; an export that succeeds has started every
      exporter asked for and seen it end well; the span a load hands the
      exporters covers every row it loaded; the selectors admitted are those
      the store parses; an operation is posted only once the engine has listed
      a component it is for; where starting or stopping the service fails, the
      failure told is the last step's and nothing follows it, and where a start
      succeeds the manager has read the definition that was left.
    - Server: the engine is called only after a route's gate admitted the user
      the request's token names, and is told that very actor and path; a token
      answered identifies its user until it expires; every handle the host
      gives is released; scrubbing takes credentials away at every depth; which
      origins pass and which codec a response leaves with.
    - Served files: whatever the disk holds and whatever call is refused, an
      upload changes nothing outside its mount's directory, and lands whole or
      leaves the name as it was; what is served lies under the mount and
      outside its exclusions; a listing's pages partition the directory.
    - Configuration: which sections load and with which values, the problem
      told for each one that does not, and duration texts read back.
    - Migrations: which sets of scripts assemble, into the one chain they
      describe; an interrupted migration resumed reaches the state of an
      uninterrupted one, and where a backend keeps a part of a script.
    - Certificates: what is issued is kept by the next checks until its
      renewal window; a certificate answered is valid at the next check; what
      startup reports is what it does.
    Theorems that state where the code and its comments part ways are recorded
    as findings.

    ** Fuel and bounds

    Recursion that is not structural takes fuel, each with the theorem that
    enough exists: [nal_next] and [nal_collect] take the length of the data,
    [trim_start] that of the text, [chunks] the length of its list, a load's
    [walk] the number of rows and two, filter parsing a weight of its text
    ([parse_terminates]: some fuel suffices and more changes nothing), following
    an export the answers the engine has left and one, and reading a Turso
    cursor its rows and one. Patterns match by structural recursion on the
    text. A dump reads pages of the code's [CHUNK] rows,
    until one is not full. On disk,
    bounds are the system's: [MAXSYMLINKS] links in a path and [NUM_RETRIES]
    names of a temporary file, past which the calls answer errors as the
    system and the crate do; [WALK_DEPTH] bounds the depth of a deletion, well
    past what a path can name; [create_dir_all] recurses on the path. Machine
    integers keep their width: [i64] and [u64] wrap as release builds do, and
    the bounds theorems show where no wrap occurs.

    ** Not modelled

    FFmpeg, sqlx, the turso engine, chrono's formats, the YAML, CSV, hashing,
    X.509 and rustls crates, clap's matching of arguments, serde's reading of
    the configuration and the operating system's clock and interfaces appear as
    parameters. SQLite's REAL affinity and database constraints other than
    primary keys are outside [Sql]'s semantics. Of the backends, sqlx's pools
    and lifecycle hooks and the streaming of dynamic rows are not modelled; of
    the command line, opening a store, prompting for a password, running the
    engine and managing its database. The WebRTC and RTSP sockets, the HTTP
    listeners, the rendering of models, the macros other than the filterable
    derive and the Python extension are not modelled: they are I/O around
    libraries or generation of text. *)
From stdpp Require Export base tactics numbers list option gmap strings.
From Stdlib Require Export ZArith Lia.
From Stdlib Require Ascii String.
Export Stdlib.Strings.Ascii (ascii(..)).
Export (notations) Stdlib.Strings.Ascii.

(** ** Machine integers

    Rust's release profile wraps on overflow, so each arithmetic operation of
    the code on an [i64] or a [u64] is the mathematical one followed by the
    wrap of its type. *)

Declare Scope ceres_scope.
Delimit Scope ceres_scope with ceres.

Definition i64_min : Z := -9223372036854775808.
Definition i64_max : Z := 9223372036854775807.
Definition u64_max : Z := 18446744073709551615.

Definition in_i64 (x : Z) : Prop := (i64_min <= x <= i64_max)%Z.
Definition in_u64 (x : Z) : Prop := (0 <= x <= u64_max)%Z.

Definition i64 (x : Z) : Z :=
  ((x + 9223372036854775808) mod 18446744073709551616 - 9223372036854775808)%Z.
Definition u64 (x : Z) : Z := (x mod 18446744073709551616)%Z.

Arguments i64 : simpl never.
Arguments u64 : simpl never.

Notation "a +i b" := (i64 (a + b)) (at level 50, left associativity) : ceres_scope.
Notation "a -i b" := (i64 (a - b)) (at level 50, left associativity) : ceres_scope.
Notation "a +u b" := (u64 (a + b)) (at level 50, left associativity) : ceres_scope.
Notation "a -u b" := (u64 (a - b)) (at level 50, left associativity) : ceres_scope.

(** [u64::saturating_sub] and [u64::saturating_add]. *)
Definition u64_saturating_sub (a b : Z) : Z := Z.max 0 (a - b).
Definition u64_saturating_add (a b : Z) : Z := Z.min u64_max (a + b).

Lemma i64_small x : in_i64 x -> i64 x = x.
Proof. unfold in_i64, i64, i64_min, i64_max. intros. rewrite Z.mod_small; lia. Qed.

Lemma u64_small x : in_u64 x -> u64 x = x.
Proof. unfold in_u64, u64, u64_max. intros. rewrite Z.mod_small; lia. Qed.

Lemma i64_in x : in_i64 (i64 x).
Proof.
  unfold in_i64, i64, i64_min, i64_max.
  pose proof (Z.mod_pos_bound (x + 9223372036854775808) 18446744073709551616). lia.
Qed.

Lemma u64_in x : in_u64 (u64 x).
Proof.
  unfold in_u64, u64, u64_max.
  pose proof (Z.mod_pos_bound x 18446744073709551616). lia.
Qed.

Create HintDb ceres.
#[export] Hint Resolve i64_in u64_in : ceres.
Ltac unfold_ranges := unfold in_i64, in_u64, i64_min, i64_max, u64_max in *.

(** Removes the wraps whose operands are known to be in range, innermost
    first. *)
Ltac no_wrap :=
  unfold_ranges;
  repeat match goal with
  | |- context [i64 ?x] => rewrite (i64_small x) by (unfold_ranges; lia)
  | |- context [u64 ?x] => rewrite (u64_small x) by (unfold_ranges; lia)
  end.

(** ** Errors

    [Result<T, E>] of the code, with the [?] operator as its bind. *)
Inductive result (A E : Type) : Type :=
  | Ok (value : A)
  | Err (error : E).
Arguments Ok {A E} value.
Arguments Err {A E} error.

#[export] Instance result_eq_dec {A E} `{EqDecision A, EqDecision E} :
  EqDecision (result A E).
Proof. solve_decision. Defined.

Definition is_ok {A E} (r : result A E) : bool :=
  match r with Ok _ => true | Err _ => false end.

Definition res_bind {A B E} (r : result A E) (k : A -> result B E) : result B E :=
  match r with Ok a => k a | Err e => Err e end.

Notation "'let*' x ':=' r 'in' k" := (res_bind r (fun x => k))
  (at level 200, x pattern, r at level 100, k at level 200, right associativity) : ceres_scope.

(** [Iterator::try_for_each] and [collect::<Result<Vec<_>, _>>()]. *)
Fixpoint res_map {A B E} (f : A -> result B E) (l : list A) : result (list B) E :=
  match l with
  | [] => Ok []
  | a :: l' =>
      match f a with
      | Err e => Err e
      | Ok b => match res_map f l' with Err e => Err e | Ok bs => Ok (b :: bs) end
      end
  end.

Fixpoint res_fold {A S E} (f : S -> A -> result S E) (s : S) (l : list A) : result S E :=
  match l with
  | [] => Ok s
  | a :: l' => match f s a with Err e => Err e | Ok s' => res_fold f s' l' end
  end.

(** ** Automation *)

(** Splits every boolean test and option match of the goal or the context. *)
Ltac split_cases :=
  repeat (case_match; simplify_eq/=; try done).

Ltac to_prop :=
  repeat match goal with
  | H : (_ <? _)%Z = true |- _ => apply Z.ltb_lt in H
  | H : (_ <? _)%Z = false |- _ => apply Z.ltb_ge in H
  | H : (_ <=? _)%Z = true |- _ => apply Z.leb_le in H
  | H : (_ <=? _)%Z = false |- _ => apply Z.leb_gt in H
  | H : (_ =? _)%Z = true |- _ => apply Z.eqb_eq in H
  | H : (_ =? _)%Z = false |- _ => apply Z.eqb_neq in H
  | H : (_ && _)%bool = true |- _ => apply andb_true_iff in H; destruct H
  | H : (_ || _)%bool = false |- _ => apply orb_false_iff in H; destruct H
  end.
