(* ===== verification/Text.v ===== *)
(** * Rust's [str] operations

    The standard library's string operations the code uses, on UTF-8 byte
    strings. Every separator the code searches for is ASCII, so working on
    bytes finds what working on characters does. *)
From S2P Require Import Prelude.

(** [str::strip_prefix] and [str::starts_with]. *)
Fixpoint strip_prefix (prefix text : string) : option string :=
  match prefix, text with
  | EmptyString, _ => Some text
  | String a prefix, String b text =>
      if Strings.Ascii.eqb a b then strip_prefix prefix text else None
  | String _ _, EmptyString => None
  end.

Definition str_starts_with (prefix text : string) : bool :=
  match strip_prefix prefix text with Some _ => true | None => false end.

(** [str::contains] of a character and of a string. *)
Fixpoint contains_char (c : ascii) (text : string) : bool :=
  match text with
  | EmptyString => false
  | String a text => Strings.Ascii.eqb a c || contains_char c text
  end.

Fixpoint str_contains (pattern text : string) : bool :=
  str_starts_with pattern text ||
  match text with
  | EmptyString => false
  | String _ text => str_contains pattern text
  end.

(** [str::ends_with]. *)
Fixpoint str_ends_with (suffix text : string) : bool :=
  Strings.String.eqb suffix text ||
  match text with
  | EmptyString => false
  | String _ text => str_ends_with suffix text
  end.

(** [str::split_once] of a character: around its first occurrence. *)
Fixpoint split_once (c : ascii) (text : string) : option (string * string) :=
  match text with
  | EmptyString => None
  | String a text =>
      if Strings.Ascii.eqb a c then Some (EmptyString, text)
      else (fun '(before, after) => (String a before, after)) <$> split_once c text
  end.

(** [str::split] of a character, never empty. *)
Fixpoint str_split (c : ascii) (text : string) : list string :=
  match text with
  | EmptyString => [EmptyString]
  | String a text =>
      if Strings.Ascii.eqb a c then EmptyString :: str_split c text
      else match str_split c text with
           | [] => [String a EmptyString]
           | first :: rest => String a first :: rest
           end
  end.

(** [[_]::join] of a one-character separator. *)
Fixpoint str_join (c : ascii) (parts : list string) : string :=
  match parts with
  | [] => EmptyString
  | [part] => part
  | part :: parts => part +:+ String c (str_join c parts)
  end.

(** [str::replace] of a character by a string. *)
Fixpoint replace_char (c : ascii) (by_ text : string) : string :=
  match text with
  | EmptyString => EmptyString
  | String a text =>
      if Strings.Ascii.eqb a c then by_ +:+ replace_char c by_ text
      else String a (replace_char c by_ text)
  end.

(** [char::is_ascii_alphabetic] and friends on one byte. *)
Definition ascii_between (lo hi c : ascii) : bool :=
  (Strings.Ascii.nat_of_ascii lo <=? Strings.Ascii.nat_of_ascii c)%nat &&
  (Strings.Ascii.nat_of_ascii c <=? Strings.Ascii.nat_of_ascii hi)%nat.
Definition is_ascii_digit (c : ascii) : bool := ascii_between "0"%char "9"%char c.
Definition is_ascii_alphabetic (c : ascii) : bool :=
  ascii_between "a"%char "z"%char c || ascii_between "A"%char "Z"%char c.
Definition is_ascii_alphanumeric (c : ascii) : bool :=
  is_ascii_alphabetic c || is_ascii_digit c.

Fixpoint str_forall (test : ascii -> bool) (text : string) : bool :=
  match text with
  | EmptyString => true
  | String a text => test a && str_forall test text
  end.

(** ** Facts *)

Lemma str_app_cons (x : ascii) (a b : string) : String x a +:+ b = String x (a +:+ b).
Proof. done. Qed.

Lemma str_app_nil (b : string) : "" +:+ b = b.
Proof. done. Qed.

(** stdpp keeps [String.append] from reducing; this reduces it. *)
Ltac str_simpl :=
  repeat (rewrite ?str_app_cons, ?str_app_nil in *; simpl in * ).

Lemma str_app_assoc (a b c : string) : (a +:+ b) +:+ c = a +:+ (b +:+ c).
Proof. induction a as [|x a IH]; [done|]. rewrite !str_app_cons. by rewrite IH. Qed.

Lemma str_app_nil_r (a : string) : a +:+ "" = a.
Proof. induction a as [|x a IH]; [done|]. by rewrite str_app_cons, IH. Qed.

Lemma str_app_inj (a b c : string) : a +:+ b = a +:+ c -> b = c.
Proof. induction a; [done|]. rewrite !str_app_cons. intros [= ?]. auto. Qed.

Lemma strip_prefix_Some prefix text rest :
  strip_prefix prefix text = Some rest <-> text = prefix +:+ rest.
Proof.
  revert text. induction prefix as [|a prefix IH]; intros text; simpl.
  { rewrite str_app_nil. naive_solver. }
  rewrite str_app_cons. destruct text as [|b text]; [done|].
  destruct (Strings.Ascii.eqb_spec a b) as [->|]; [rewrite IH; naive_solver|naive_solver].
Qed.

Lemma str_starts_with_true prefix text :
  str_starts_with prefix text = true <-> exists rest, text = prefix +:+ rest.
Proof.
  unfold str_starts_with. destruct (strip_prefix prefix text) as [rest|] eqn:E.
  - apply strip_prefix_Some in E. naive_solver.
  - split; [done|]. intros [rest Hr%strip_prefix_Some]. congruence.
Qed.

Lemma contains_char_app c (a b : string) :
  contains_char c (a +:+ b) = contains_char c a || contains_char c b.
Proof.
  induction a as [|x a IH]; [done|]. rewrite str_app_cons. simpl. by rewrite IH, orb_assoc.
Qed.

Lemma split_once_Some c text before after :
  split_once c text = Some (before, after) <->
  text = before +:+ String c after /\ contains_char c before = false.
Proof.
  revert before. induction text as [|a text IH]; intros before.
  { split; [done|]. intros [Heq _]. destruct before; by rewrite ?str_app_cons in Heq. }
  simpl. destruct (Strings.Ascii.eqb_spec a c) as [->|Hne].
  - split; [by intros [= <- <-]|]. intros [Heq Hb]. destruct before as [|x before].
    + rewrite str_app_nil in Heq. by simplify_eq.
    + rewrite str_app_cons in Heq. simpl in Hb. simplify_eq.
      by rewrite Strings.Ascii.eqb_refl in Hb.
  - destruct before as [|x before].
    + split; [by destruct (split_once c text) as [[??]|]|].
      rewrite str_app_nil. naive_solver.
    + rewrite str_app_cons. simpl. specialize (IH before).
      assert (Hstep : (fun '(before, after) => (String a before, after)) <$> split_once c text
                = Some (String x before, after) <->
              x = a /\ split_once c text = Some (before, after))
        by (destruct (split_once c text) as [[??]|]; naive_solver).
      rewrite Hstep, IH, orb_false_iff, Strings.Ascii.eqb_neq. naive_solver.
Qed.

Lemma split_once_None c text : split_once c text = None <-> contains_char c text = false.
Proof.
  induction text as [|a text IH]; simpl; [done|].
  destruct (Strings.Ascii.eqb a c); simpl; [done|]. rewrite <-IH.
  by destruct (split_once c text) as [[??]|].
Qed.

(** Splitting off a part free of the separator is unambiguous. *)
Lemma app_char_inj c (a a' b b' : string) :
  contains_char c a = false -> contains_char c a' = false ->
  a +:+ String c b = a' +:+ String c b' -> a = a' /\ b = b'.
Proof.
  intros Ha Ha' Heq.
  assert (H1 : split_once c (a +:+ String c b) = Some (a, b)) by by apply split_once_Some.
  assert (H2 : split_once c (a' +:+ String c b') = Some (a', b')) by by apply split_once_Some.
  rewrite Heq in H1. by simplify_eq.
Qed.

Lemma str_split_nonempty c text : str_split c text <> [].
Proof. destruct text; simpl; repeat case_match; done. Qed.

(** Splitting and joining are inverse. *)
Lemma str_join_split c text : str_join c (str_split c text) = text.
Proof.
  induction text as [|a text IH]; [done|]. simpl.
  pose proof (str_split_nonempty c text).
  destruct (Strings.Ascii.eqb_spec a c) as [->|]; destruct (str_split c text) as [|p parts]; try done.
  - simpl in *. by rewrite IH.
  - simpl in *. destruct parts; simpl in *; by rewrite <-IH.
Qed.

Lemma str_split_no_char c text :
  Forall (fun part => contains_char c part = false) (str_split c text).
Proof.
  induction text as [|a text IH]; [by repeat constructor|]. simpl.
  destruct (Strings.Ascii.eqb a c) eqn:E; [by constructor|].
  destruct (str_split c text) as [|p parts]; [by constructor; simpl; rewrite ?E|].
  inversion_clear IH. constructor; [|done]. simpl. by rewrite E.
Qed.

Lemma str_split_app c a b :
  contains_char c a = false -> str_split c (a +:+ String c b) = a :: str_split c b.
Proof.
  induction a as [|x a IH]; simpl; [by rewrite Strings.Ascii.eqb_refl|].
  intros [Hx Ha]%orb_false_iff. by rewrite Hx, IH.
Qed.

Lemma str_split_single c a : contains_char c a = false -> str_split c a = [a].
Proof.
  induction a as [|x a IH]; simpl; [done|].
  intros [Hx Ha]%orb_false_iff. by rewrite Hx, IH.
Qed.

Lemma str_forall_app test (a b : string) :
  str_forall test (a +:+ b) = str_forall test a && str_forall test b.
Proof.
  induction a as [|x a IH]; [done|]. rewrite str_app_cons. simpl. by rewrite IH, andb_assoc.
Qed.

Lemma str_forall_no_char test c text :
  test c = false -> str_forall test text = true -> contains_char c text = false.
Proof.
  intros Hc. induction text as [|a text IH]; simpl; [done|].
  intros [Ha Ht]%andb_true_iff. rewrite IH by done.
  destruct (Strings.Ascii.eqb_spec a c); [congruence|done].
Qed.

Lemma str_split_concat c a b : str_split c (a +:+ String c b) = str_split c a ++ str_split c b.
Proof.
  induction a as [|x a IH]; cbn.
  { rewrite str_app_nil. cbn. by rewrite Strings.Ascii.eqb_refl. }
  rewrite str_app_cons. cbn. destruct (Strings.Ascii.eqb x c); [by rewrite IH|].
  rewrite IH. pose proof (str_split_nonempty c a). by destruct (str_split c a).
Qed.

Lemma str_forall_join test c parts :
  test c = true -> Forall (fun part => str_forall test part = true) parts ->
  str_forall test (str_join c parts) = true.
Proof.
  intros Hc. induction 1 as [|part parts Hp _ IH]; [done|].
  destruct parts; [done|]. cbn [str_join] in *. rewrite str_forall_app, Hp.
  cbn. by rewrite Hc, IH.
Qed.

Lemma str_forall_impl (f g : ascii -> bool) text :
  (forall c, f c = true -> g c = true) -> str_forall f text = true -> str_forall g text = true.
Proof.
  intros Hfg. induction text as [|c text IH]; [done|]. cbn.
  intros [Hc Ht]%andb_true_iff. by rewrite (Hfg _ Hc), (IH Ht).
Qed.

Lemma contains_char_true c (text : string) :
  contains_char c text = true <-> exists before after, text = before +:+ String c after.
Proof.
  split.
  - intros H. destruct (split_once c text) as [[before after]|] eqn:E.
    + apply split_once_Some in E as [-> _]. eauto.
    + apply split_once_None in E. congruence.
  - intros (before & after & ->). rewrite contains_char_app. cbn.
    by rewrite Strings.Ascii.eqb_refl, orb_true_r.
Qed.

Lemma text_compare_eq (a b : string) : Strings.String.compare a b = Eq <-> a = b.
Proof.
  split; [apply Strings.String.compare_eq_iff|]. intros ->.
  induction b as [|x b IH]; [done|]. cbn. unfold Strings.Ascii.compare.
  by rewrite N.compare_refl.
Qed.
