(* ===== verification/Timeline.v ===== *)
(** * Time bases, packet timing, and the output timeline

    [ceres-media/src/lib.rs] ([TimeBase]), [ceres-media/src/input.rs]
    ([PacketTiming]) and [ceres-media/src/remux/timeline.rs] ([Timeline]). *)
From Stdlib Require Import Sorting.Sorted.
From S2P Require Import Prelude.
Local Open Scope Z_scope.
Local Open Scope ceres_scope.

(** ** Time bases *)

(** Seconds per tick as a rational of two [i32]s. *)
Record TimeBase := { num : Z; den : Z }.

#[export] Instance time_base_eq_dec : EqDecision TimeBase.
Proof. solve_decision. Defined.

(** Every time base of the program is positive, as the code's own comment
    assumes; the code's divisions panic at zero. *)
Definition time_base_ok (base : TimeBase) : Prop :=
  0 < num base <= 2147483647 /\ 0 < den base <= 2147483647.

Definition rescale_numerator (from : TimeBase) (ticks : Z) (to : TimeBase) : Z :=
  ticks * num from * den to.

Definition rescale_denominator (from to : TimeBase) : Z := den from * num to.

(** [TimeBase::rescale]: the [i128] products of an [i64] and two [i32]s do not
    overflow, Rust's [/] truncates, and [i64::try_from] falls back to the end
    of the range the value left. *)
Definition rescale (from : TimeBase) (ticks : Z) (to : TimeBase) : Z :=
  if decide (from = to) then ticks
  else
    let numerator := rescale_numerator from ticks to in
    let denominator := rescale_denominator from to in
    let rounded :=
      Z.quot (numerator + Z.sgn numerator * Z.quot denominator 2) denominator in
    if decide (i64_min <= rounded <= i64_max) then rounded
    else if decide (rounded < 0) then i64_min + 1 else i64_max.

(** [TimeBase::duration], the wall-clock span of [ticks] in nanoseconds. *)
Definition time_base_duration (base : TimeBase) (ticks : Z) : Z :=
  let ticks := if decide (0 <= ticks) then ticks else 0 in
  let nanos := ticks * Z.abs (num base) * 1000000000 / Z.max (Z.abs (den base)) 1 in
  if decide (nanos <= u64_max) then nanos else u64_max.

(** ** Packet timing *)

Record PacketTiming := { pts : option Z; dts : option Z; duration : Z }.

#[export] Instance packet_timing_eq_dec : EqDecision PacketTiming.
Proof. solve_decision. Defined.

(** [PacketTiming::rescale]. *)
Definition timing_rescale (timing : PacketTiming) (from to : TimeBase) : PacketTiming :=
  {| pts := (fun ticks => rescale from ticks to) <$> pts timing;
     dts := (fun ticks => rescale from ticks to) <$> dts timing;
     duration := rescale from (duration timing) to |}.

(** [Option::or]. *)
Definition option_or {A} (a b : option A) : option A :=
  match a with Some _ => a | None => b end.

(** ** The timeline *)

Record Timeline := { tl_end : Z; last_dts : option Z; shift : option Z }.

(** [Timeline::default]. *)
Definition timeline_default : Timeline :=
  {| tl_end := 0; last_dts := None; shift := None |}.

(** [Timeline::reconnect]. *)
Definition reconnect (self : Timeline) : Timeline :=
  {| tl_end := tl_end self; last_dts := last_dts self; shift := None |}.

(** The first [match] of [Timeline::place]: the connection's shift, taken from
    the first timed packet, and the packet's place before clamping. *)
Definition locate (self : Timeline) (timing : PacketTiming) :
    option Z * (option Z * Z) :=
  match option_or (dts timing) (pts timing) with
  | Some source =>
      let shift := default (tl_end self -i source) (shift self) in
      (Some shift, ((fun p => p +i shift) <$> pts timing, source +i shift))
  | None =>
      match shift self, last_dts self with
      | Some _, Some last =>
          (shift self, (None, last +i Z.max (duration timing) 1))
      | _, _ => (shift self, (None, tl_end self))
      end
  end.

(** [Timeline::place]. *)
Definition place (self : Timeline) (timing : PacketTiming) : Timeline * PacketTiming :=
  let '(shift, (pts, dts)) := locate self timing in
  let dts :=
    match last_dts self with
    | Some last => if dts <=? last then last +i 1 else dts
    | None => dts
    end in
  let pts := match pts with None => dts | Some pts => Z.max pts dts end in
  ({| tl_end :=
        Z.max (Z.max (tl_end self) (pts +i Z.max (duration timing) 0)) (dts +i 1);
      last_dts := Some dts;
      shift := shift |},
   {| pts := Some pts; dts := Some dts; duration := duration timing |}).

(** What one stream's timeline goes through: connections and their packets. *)
Inductive TimelineEvent :=
  | Reconnect
  | Place (timing : PacketTiming).

(** Runs the events, collecting each placed packet in order. *)
Fixpoint run_timeline (self : Timeline) (events : list TimelineEvent) :
    Timeline * list PacketTiming :=
  match events with
  | [] => (self, [])
  | Reconnect :: events => run_timeline (reconnect self) events
  | Place timing :: events =>
      let '(self, placed) := place self timing in
      let '(self, rest) := run_timeline self events in
      (self, placed :: rest)
  end.

(** ** Rescaling rounds to the nearest tick *)

Lemma rescale_denominator_pos from to :
  time_base_ok from -> time_base_ok to -> 0 < rescale_denominator from to.
Proof. unfold time_base_ok, rescale_denominator. nia. Qed.

(** Truncated division of a numerator moved half a denominator away from zero
    is division rounded to nearest. *)
Lemma quot_round_nearest n d :
  0 < d ->
  2 * Z.abs (Z.quot (n + Z.sgn n * Z.quot d 2) d * d - n) <= d.
Proof.
  intros Hd.
  assert (Hhalf : 2 * Z.quot d 2 <= d < 2 * Z.quot d 2 + 2)
    by (rewrite Z.quot_div_nonneg by lia;
        pose proof (Z.div_mod d 2); pose proof (Z.mod_pos_bound d 2); lia).
  set (h := Z.quot d 2) in *. clearbody h.
  set (m := n + Z.sgn n * h).
  pose proof (Z.quot_rem m d ltac:(lia)) as Heq.
  assert (Hrem : Z.abs (Z.rem m d) < d)
    by (pose proof (Z.rem_bound_abs m d); lia).
  assert (Hsgn : Z.rem m d = 0 \/ Z.sgn (Z.rem m d) = Z.sgn m)
    by (destruct (Z.eq_dec (Z.rem m d) 0); [by left|right; apply Z.rem_sign_nz; lia]).
  assert (Hq : Z.quot m d * d = m - Z.rem m d) by lia. rewrite Hq.
  clear Hq Heq. set (r := Z.rem m d) in *. clearbody r.
  destruct (Z.sgn_spec n) as [[? Hs]|[[? Hs]|[? Hs]]];
    unfold m in *; rewrite Hs in *; lia.
Qed.

(** The nearest integer is unique when closer than half. *)
Lemma nearest_unique d n r t :
  0 < d -> 2 * Z.abs (r * d - n) <= d -> 2 * Z.abs (t * d - n) < d -> r = t.
Proof. intros. nia. Qed.

(** A rational within the range rounds within the range. *)
Lemma nearest_in_range d n r lo hi :
  0 < d -> lo * d <= n <= hi * d -> 2 * Z.abs (r * d - n) <= d -> lo <= r <= hi.
Proof. intros. nia. Qed.

Definition rescale_in_range (from : TimeBase) (ticks : Z) (to : TimeBase) : Prop :=
  i64_min * rescale_denominator from to <= rescale_numerator from ticks to
    <= i64_max * rescale_denominator from to.

Lemma rescale_spec from ticks to :
  time_base_ok from -> time_base_ok to -> rescale_in_range from ticks to ->
  2 * Z.abs (rescale from ticks to * rescale_denominator from to
             - rescale_numerator from ticks to)
    <= rescale_denominator from to.
Proof.
  intros Hf Ht Hrange. pose proof (rescale_denominator_pos _ _ Hf Ht) as Hd.
  unfold rescale. case_decide as Heq.
  - subst to. unfold rescale_numerator, rescale_denominator in *.
    replace (_ - _) with 0 by lia. lia.
  - pose proof (quot_round_nearest (rescale_numerator from ticks to) _ Hd) as Hn.
    rewrite decide_True; [done|].
    eapply nearest_in_range; [exact Hd|exact Hrange|exact Hn].
Qed.

Lemma rescale_in_i64 from ticks to : in_i64 ticks -> in_i64 (rescale from ticks to).
Proof.
  unfold in_i64, rescale, i64_min, i64_max. intros.
  repeat case_decide; lia.
Qed.

Lemma rescale_mono_in_range from to a b :
  time_base_ok from -> time_base_ok to ->
  rescale_in_range from a to -> rescale_in_range from b to ->
  a <= b -> rescale from a to <= rescale from b to.
Proof.
  intros Hf Ht Ha Hb Hab. pose proof (rescale_denominator_pos _ _ Hf Ht) as Hd.
  unfold rescale. case_decide; [done|].
  set (n := rescale_numerator from).
  assert (Hn : n a to <= n b to).
  { unfold n, rescale_numerator. destruct Hf as [Hf _], Ht as [_ Ht].
    apply Z.mul_le_mono_nonneg_r, Z.mul_le_mono_nonneg_r; lia. }
  pose proof (quot_round_nearest (n a to) _ Hd) as Ra.
  pose proof (quot_round_nearest (n b to) _ Hd) as Rb.
  rewrite !decide_True
    by first [exact (nearest_in_range _ _ _ _ _ Hd Ha Ra)
             |exact (nearest_in_range _ _ _ _ _ Hd Hb Rb)].
  apply Z.quot_le_mono; [done|].
  assert (0 <= Z.quot (rescale_denominator from to) 2)
    by (apply Z.quot_pos; lia).
  destruct (Z.sgn_spec (n a to)) as [[? ->]|[[? ->]|[? ->]]];
    destruct (Z.sgn_spec (n b to)) as [[? ->]|[[? ->]|[? ->]]]; nia.
Qed.

(** ** Placing one packet *)

(** Timestamps of magnitude at most [m]. *)
Definition timing_within (m : Z) (timing : PacketTiming) : Prop :=
  (forall p, pts timing = Some p -> - m <= p <= m) /\
  (forall d, dts timing = Some d -> - m <= d <= m) /\
  - m <= duration timing <= m.

(** The timeline of packets within [m], [e] bounding its end. *)
Definition timeline_within (m e : Z) (self : Timeline) : Prop :=
  0 <= tl_end self <= e /\
  (forall last, last_dts self = Some last -> 0 <= last < tl_end self) /\
  (last_dts self = None -> tl_end self = 0 /\ shift self = None) /\
  (forall s, shift self = Some s -> - (e + m) <= s <= e + m).

(** What [place] promises of one packet: it decodes strictly after the last,
    shows no earlier than it decodes, and the timeline ends past both. *)
Record placed_well (before after : Timeline) (timing placed : PacketTiming)
    (p d : Z) : Prop := {
  placed_fields :
    placed = {| pts := Some p; dts := Some d; duration := duration timing |};
  placed_last : last_dts after = Some d;
  placed_increasing : forall last, last_dts before = Some last -> last < d;
  placed_order : 0 <= d <= p;
  placed_end : p + Z.max (duration timing) 0 <= tl_end after /\ d < tl_end after;
  placed_monotone : tl_end before <= tl_end after
}.

Lemma locate_within m e self timing :
  1 <= m -> e + 3 * m + 1 <= i64_max ->
  timeline_within m e self -> timing_within m timing ->
  let '(s, (p, d)) := locate self timing in
  (forall v, s = Some v -> - (e + m) <= v <= e + m) /\
  (forall q, p = Some q -> - (e + 2 * m) <= q <= e + 2 * m) /\
  - (e + 2 * m) <= d <= e + 2 * m /\
  (last_dts self = None -> d = 0).
Proof.
  intros Hm He ((He0 & He1) & Hlast & Hnone & Hshift) (Hp & Hd & Hdur).
  assert (Hsource : forall v, option_or (dts timing) (pts timing) = Some v -> - m <= v <= m)
    by (intros v; destruct (dts timing) eqn:?; simpl; eauto).
  unfold locate. unfold i64_max in *.
  destruct (option_or _ _) as [source|] eqn:Hs.
  - specialize (Hsource _ eq_refl).
    assert (Hv : - (e + m) <= default (tl_end self -i source) (shift self) <= e + m).
    { destruct (shift self) as [s|] eqn:Hsh; simpl; [by apply Hshift|]. no_wrap. lia. }
    set (v := default _ _) in *.
    split; [|split; [|split]].
    + by intros ? [= <-].
    + intros q Hq. destruct (pts timing) as [p|] eqn:Hpts; [|done]. simplify_eq/=.
      specialize (Hp _ eq_refl). no_wrap. lia.
    + no_wrap. lia.
    + intros Hn. destruct (Hnone Hn) as [Hend Hsh].
      unfold v. rewrite Hsh, Hend. simpl. no_wrap. lia.
  - assert (Hend : last_dts self = None -> tl_end self = 0) by (intros; by apply Hnone).
    destruct (shift self) as [s|] eqn:Hsh, (last_dts self) as [last|] eqn:Hl;
      try specialize (Hlast _ eq_refl); try specialize (Hend eq_refl);
      (split; [|split; [|split]]); intros; simplify_eq; eauto; no_wrap; lia.
Qed.

Lemma place_within m e self timing :
  1 <= m -> e + 3 * m + 1 <= i64_max ->
  timeline_within m e self -> timing_within m timing ->
  let '(self', placed) := place self timing in
  timeline_within m (e + 3 * m + 1) self' /\
  exists p d, placed_well self self' timing placed p d.
Proof.
  intros Hm He Hself Htiming.
  pose proof (locate_within m e self timing Hm He Hself Htiming) as Hloc.
  unfold place. destruct (locate self timing) as [s [p d]].
  destruct Hloc as (Hs & Hp & Hd & Hd0).
  destruct Hself as ((He0 & He1) & Hlast & Hnone & Hshift).
  destruct Htiming as (_ & _ & Hdur). unfold i64_max in *.
  set (d' := match last_dts self with Some _ => _ | None => _ end).
  assert (Hd' : 0 <= d' <= e + 2 * m /\ (forall l, last_dts self = Some l -> l < d')).
  { unfold d'. destruct (last_dts self) as [l|] eqn:Hl.
    - specialize (Hlast _ eq_refl). split; [|intros ? [= <-]]; case_match; to_prop;
        no_wrap; lia.
    - rewrite Hd0 by done. split; [lia|done]. }
  set (p' := match p with None => _ | Some _ => _ end).
  assert (Hp' : d' <= p' <= e + 2 * m).
  { unfold p'. destruct p as [q|]; [specialize (Hp _ eq_refl)|]; lia. }
  destruct Hd' as [Hd' Hinc].
  assert (p' +i Z.max (duration timing) 0 = p' + Z.max (duration timing) 0) as ->
    by (no_wrap; lia).
  assert (d' +i 1 = d' + 1) as -> by (no_wrap; lia).
  split.
  - split; [simpl; lia|]. split; [intros ? [= <-]; simpl; lia|]. split; [done|].
    intros v Hv. specialize (Hs v Hv). lia.
  - exists p', d'. split; simpl; try done; lia.
Qed.

Lemma timeline_default_within m : 1 <= m -> timeline_within m 0 timeline_default.
Proof. split; [simpl; lia|done]. Qed.

Lemma reconnect_within m e self :
  timeline_within m e self -> timeline_within m e (reconnect self).
Proof.
  intros (? & ? & Hnone & ?). split; [done|]. split; [done|]. split; [|done].
  intros Hn. split; [|done]. by apply Hnone.
Qed.

Lemma timeline_within_weaken m e e' self :
  e <= e' -> timeline_within m e self -> timeline_within m e' self.
Proof.
  intros He (? & ? & ? & Hs). split; [lia|]. split; [done|]. split; [done|].
  intros s Hv. specialize (Hs s Hv). lia.
Qed.

(** ** Placing a whole stream *)

Definition event_within (m : Z) (event : TimelineEvent) : Prop :=
  match event with Reconnect => True | Place timing => timing_within m timing end.

Definition placed_dts (placed : list PacketTiming) : list Z := omap dts placed.

(** A packet as the muxer accepts it. *)
Definition muxable (timing : PacketTiming) : Prop :=
  exists p d, pts timing = Some p /\ dts timing = Some d /\ 0 <= d <= p.

(** The end's bound after [n] more packets. *)
Definition grown (m e : Z) (n : nat) : Z := e + Z.of_nat n * (3 * m + 1).

Lemma grown_succ m e n : grown m e (S n) = grown m (e + 3 * m + 1) n.
Proof. unfold grown. lia. Qed.

Lemma grown_ge m e n : 1 <= m -> e <= grown m e n.
Proof. unfold grown. nia. Qed.

Lemma run_timeline_within m e self events :
  1 <= m -> Forall (event_within m) events ->
  timeline_within m e self ->
  grown m e (length events) <= i64_max ->
  timeline_within m (grown m e (length events)) (fst (run_timeline self events)) /\
  let placed := snd (run_timeline self events) in
  Forall muxable placed /\
  (forall last, last_dts self = Some last -> Forall (Z.lt last) (placed_dts placed)) /\
  StronglySorted Z.lt (placed_dts placed).
Proof.
  intros Hm Hevents. revert e self.
  induction Hevents as [|event events Hev _ IH]; intros e self Hself Hbound.
  { split; [|by repeat constructor].
    eapply timeline_within_weaken; [by apply grown_ge|done]. }
  cbn [length] in *. rewrite grown_succ in *.
  pose proof (grown_ge m (e + 3 * m + 1) (length events) Hm).
  destruct event as [|timing]; cbn [run_timeline].
  - apply (IH (e + 3 * m + 1) (reconnect self)); [|done]. apply (timeline_within_weaken _ e); [lia|].
    by apply reconnect_within.
  - pose proof (place_within m e self timing Hm ltac:(lia) Hself Hev) as Hplace.
    destruct (place self timing) as [self' placed].
    destruct Hplace as (Hself' & p & d & [-> Hlast Hinc Hord _ _]).
    destruct (IH _ _ Hself' Hbound) as (Hin & Hmux & Hafter & Hsorted).
    destruct (run_timeline self' events) as [self'' rest]. cbn [fst snd] in *.
    specialize (Hafter _ Hlast).
    split; [done|]. split; [constructor; [|done]; by exists p, d|].
    split; [|by constructor].
    intros last Hl. specialize (Hinc _ Hl). constructor; [done|].
    eapply Forall_impl; [exact Hafter|]. simpl. lia.
Qed.

(** C1: whatever the connections a stream goes through and the timestamps
    their packets carry (missing, repeated, running backwards, or restarting),
    every placed packet has both timestamps, decode timestamps strictly
    increase over the whole stream and are never negative, and no packet shows
    before it decodes, which is what the muxer demands. Timestamps are of
    magnitude at most [m], and the stream short enough for its timeline to
    stay within an [i64]. *)
Theorem timeline_muxable (m : Z) (events : list TimelineEvent)
    (Hm : 1 <= m) (Hevents : Forall (event_within m) events)
    (Hbound : grown m 0 (length events) <= i64_max) :
  let placed := snd (run_timeline timeline_default events) in
  Forall muxable placed /\ StronglySorted Z.lt (placed_dts placed).
Proof.
  pose proof (run_timeline_within m 0 _ _ Hm Hevents (timeline_default_within m Hm))
    as Hrun.
  split; by apply Hrun.
Qed.

(** ** Reconnecting *)

Definition place_all (self : Timeline) (timings : list PacketTiming) :
    Timeline * list PacketTiming :=
  run_timeline self (Place <$> timings).

(** Packets timed like a well-behaved source's, [start] being the first one's
    decode timestamp: they decode in increasing order, each showing no earlier
    than it decodes. *)
Fixpoint well_timed (after : Z) (timings : list PacketTiming) : Prop :=
  match timings with
  | [] => True
  | timing :: rest =>
      (exists p d, pts timing = Some p /\ dts timing = Some d /\ after < d <= p) /\
      (forall d, dts timing = Some d -> well_timed d rest)
  end.

(** The same timing moved by [offset]. *)
Definition timing_shift (offset : Z) (timing : PacketTiming) : PacketTiming :=
  {| pts := (fun p => p + offset) <$> pts timing;
     dts := (fun d => d + offset) <$> dts timing;
     duration := duration timing |}.

(** While a connection's shift stands and its packets are well timed, placing
    them moves them all by that shift and nothing else. *)
Lemma place_all_shifted m e self s last timings :
  1 <= m -> Forall (timing_within m) timings ->
  timeline_within m e self ->
  grown m e (length timings) <= i64_max ->
  shift self = Some s -> last_dts self = Some (last + s) ->
  well_timed last timings ->
  snd (place_all self timings) = timing_shift s <$> timings.
Proof.
  intros Hm Hall. revert e self last.
  induction Hall as [|timing timings Ht _ IH]; intros e self last Hself Hb Hs Hl Hwell;
    [done|].
  cbn [length] in Hb. rewrite grown_succ in Hb.
  pose proof (grown_ge m (e + 3 * m + 1) (length timings) Hm).
  destruct Hwell as [(p & d & Hp & Hd & Hpd) Hrest].
  pose proof (place_within m e self timing Hm ltac:(lia) Hself Ht) as Hplace.
  destruct Hself as (He & _ & _ & Hsh). specialize (Hsh _ Hs).
  destruct Ht as (Htp & Htd & Hdur). specialize (Htp _ Hp). specialize (Htd _ Hd).
  assert (Hstep : snd (place self timing) = timing_shift s timing /\
      shift (fst (place self timing)) = Some s /\
      last_dts (fst (place self timing)) = Some (d + s)).
  { unfold place, locate. rewrite Hp, Hd, Hs, Hl. cbn.
    assert (p +i s = p + s) as -> by (no_wrap; lia).
    assert (d +i s = d + s) as -> by (no_wrap; lia).
    rewrite (proj2 (Z.leb_gt _ _)) by lia.
    split; [|by split].
    unfold timing_shift. rewrite Hp, Hd. cbn. do 2 f_equal. lia. }
  unfold place_all in *. cbn. destruct (place self timing) as [self' placed1].
  cbn [fst snd] in Hstep. destruct Hstep as (-> & Hs' & Hl'), Hplace as [Hself' _].
  specialize (IH _ self' d Hself' Hb Hs' Hl' (Hrest _ Hd)).
  destruct (run_timeline self' _) as [self'' placed]. cbn in *. by rewrite IH.
Qed.

(** A connection's first timed packet lands at the timeline's end. *)
Lemma place_first m e self timing p d :
  1 <= m -> e + 3 * m + 1 <= i64_max ->
  timeline_within m e self -> shift self = None -> timing_within m timing ->
  pts timing = Some p -> dts timing = Some d -> d <= p ->
  snd (place self timing) = timing_shift (tl_end self - d) timing /\
  shift (fst (place self timing)) = Some (tl_end self - d) /\
  last_dts (fst (place self timing)) = Some (d + (tl_end self - d)).
Proof.
  intros Hm He (Hend & Hlast & _) Hs (Htp & Htd & Hdur) Hp Hd Hpd.
  specialize (Htp _ Hp). specialize (Htd _ Hd).
  unfold place, locate. rewrite Hp, Hd, Hs. cbn.
  set (s := tl_end self - d).
  assert (i64 s = s) as -> by (unfold s; no_wrap; lia).
  assert (p +i s = p + s) as -> by (unfold s; no_wrap; lia).
  assert (d +i s = d + s) as -> by (unfold s; no_wrap; lia).
  assert (Hd' : match last_dts self with
                | Some last => if d + s <=? last then last +i 1 else d + s
                | None => d + s end = d + s).
  { destruct (last_dts self) as [l|] eqn:Hl; [|done].
    specialize (Hlast _ eq_refl). rewrite (proj2 (Z.leb_gt _ _)); [done|lia]. }
  rewrite Hd'. split; [|by split].
  unfold timing_shift. rewrite Hp, Hd. cbn. do 2 f_equal. lia.
Qed.

(** A reconnect continues the track where the previous connection ended:
    after any earlier traffic, a new connection's well-timed packets are all
    moved by one offset, the one that puts the first decode exactly at the
    timeline's end, so spacing and presentation delays survive. *)
Theorem reconnect_continues (m : Z) (events : list TimelineEvent)
    (first : PacketTiming) (p d : Z) (rest : list PacketTiming)
    (Hm : 1 <= m) (Hevents : Forall (event_within m) events)
    (Hfirst : timing_within m first) (Hrest : Forall (timing_within m) rest)
    (Hbound : grown m 0 (length events + S (length rest)) <= i64_max)
    (Hp : pts first = Some p) (Hd : dts first = Some d) (Hpd : d <= p)
    (Hwell : well_timed d rest) :
  let before := reconnect (fst (run_timeline timeline_default events)) in
  snd (place_all before (first :: rest)) =
    timing_shift (tl_end before - d) <$> (first :: rest).
Proof.
  intros before.
  set (e := grown m 0 (length events)).
  assert (Hb : grown m e (S (length rest)) <= i64_max) by (unfold e, grown in *; lia).
  assert (Hbefore : timeline_within m e before).
  { pose proof (grown_ge m e (S (length rest)) Hm).
    eapply reconnect_within, run_timeline_within;
      [done|done|by apply timeline_default_within|unfold e in *; lia]. }
  rewrite grown_succ in Hb.
  pose proof (grown_ge m (e + 3 * m + 1) (length rest) Hm).
  pose proof (place_within m e before first Hm ltac:(lia) Hbefore Hfirst) as Hplace.
  pose proof (place_first m e before first p d Hm ltac:(lia) Hbefore eq_refl Hfirst Hp Hd Hpd)
    as Hstep.
  unfold place_all. cbn. destruct (place before first) as [self' placed1].
  cbn [fst snd] in Hstep. destruct Hstep as (-> & Hs' & Hl'), Hplace as [Hself' _].
  pose proof (place_all_shifted m _ self' _ d rest Hm Hrest Hself' Hb Hs' Hl' Hwell) as IH.
  unfold place_all in IH.
  destruct (run_timeline self' _) as [self'' placed]. cbn in *. by rewrite IH.
Qed.

(** ** Rescaling *)

(** Rescaling a timestamp to a time base at least as fine and back gives it
    back exactly, so timing a track in RTP's clock loses nothing of a coarser
    source's timestamps. *)
Theorem rescale_roundtrip (from to : TimeBase) (ticks : Z)
    (Hfrom : time_base_ok from) (Hto : time_base_ok to) (Hticks : in_i64 ticks)
    (Hfine : num to * den from <= num from * den to)
    (Hrange : rescale_in_range from ticks to) :
  rescale to (rescale from ticks to) from = ticks.
Proof.
  destruct (decide (from = to)) as [->|Hne].
  { unfold rescale. by rewrite !decide_True by done. }
  pose proof (rescale_spec _ _ _ Hfrom Hto Hrange) as Hnear.
  pose proof (rescale_denominator_pos _ _ Hfrom Hto) as Hd.
  pose proof (rescale_denominator_pos _ _ Hto Hfrom) as Hd'.
  set (t := rescale from ticks to) in *.
  set (d := rescale_denominator from to) in *.
  set (d' := rescale_denominator to from) in *.
  assert (Hle : d <= d') by (unfold d, d', rescale_denominator; lia).
  assert (Hn : rescale_numerator from ticks to = ticks * d')
    by (unfold d', rescale_denominator, rescale_numerator; ring).
  assert (Hn' : rescale_numerator to t from = t * d)
    by (unfold d, rescale_denominator, rescale_numerator; ring).
  rewrite Hn in Hnear. unfold rescale. rewrite decide_False by congruence.
  fold d'. rewrite Hn'.
  pose proof (quot_round_nearest (t * d) d' Hd') as Hback.
  set (q := Z.quot _ _) in *.
  assert (q = ticks) as ->; [|by rewrite decide_True].
  destruct (Z.eq_dec d d') as [->|].
  - assert (t = ticks) as -> by nia. nia.
  - apply (nearest_unique d' (t * d)); lia.
Qed.

(** A rescaled timestamp is within half a tick of the exact one when the
    exact one fits an [i64], and whatever the input, it is an [i64]. *)
Theorem rescale_nearest (from to : TimeBase) (ticks : Z)
    (Hfrom : time_base_ok from) (Hto : time_base_ok to) (Hticks : in_i64 ticks) :
  in_i64 (rescale from ticks to) /\
  (rescale_in_range from ticks to ->
   2 * Z.abs (rescale from ticks to * rescale_denominator from to
              - rescale_numerator from ticks to)
     <= rescale_denominator from to).
Proof.
  split; [by apply rescale_in_i64|]. by apply rescale_spec.
Qed.

(** ** The tests the code ships with *)

Definition ten_ticks (stamp : option Z * option Z) : TimelineEvent :=
  Place {| pts := fst stamp; dts := snd stamp; duration := 10 |}.

Definition landed (events : list TimelineEvent) : list (option Z * option Z) :=
  (fun timing => (pts timing, dts timing)) <$> snd (run_timeline timeline_default events).

Example first_connection_starts_at_zero :
  landed [Reconnect; ten_ticks (Some 1000, Some 1000); ten_ticks (Some 1010, Some 1010)]
  = [(Some 0, Some 0); (Some 10, Some 10)].
Proof. vm_compute. reflexivity. Qed.

Example reordered_frames_keep_their_offset :
  landed [Reconnect; ten_ticks (Some 20, Some 0); ten_ticks (Some 10, Some 10);
          Reconnect; ten_ticks (Some 40, Some 20)]
  = [(Some 20, Some 0); (Some 10, Some 10); (Some 50, Some 30)].
Proof. vm_compute. reflexivity. Qed.

Example untimed_first_packet_leads_each_connection :
  landed [Reconnect; ten_ticks (None, None); ten_ticks (Some 1000, Some 1000);
          Reconnect; ten_ticks (None, None); ten_ticks (Some 500, Some 500)]
  = [(Some 0, Some 0); (Some 10, Some 10); (Some 20, Some 20); (Some 30, Some 30)].
Proof. vm_compute. reflexivity. Qed.

Lemma timeline_muxable_witness :
  StronglySorted Z.lt (placed_dts (snd (run_timeline timeline_default
    [Reconnect; ten_ticks (Some 5, None); ten_ticks (None, None); Reconnect;
     ten_ticks (Some 3, Some 2)]))).
Proof.
  refine (proj2 (timeline_muxable 10 _ _ _ _)); [lia| |by vm_compute].
  repeat (apply Forall_cons; split); simpl; try done;
    (split; [|split]); simpl; intros; simplify_eq; lia.
Defined.

Lemma reconnect_continues_witness :
  snd (place_all
         (reconnect (fst (run_timeline timeline_default [ten_ticks (Some 0, Some 0)])))
         [{| pts := Some 520; dts := Some 500; duration := 10 |};
          {| pts := Some 510; dts := Some 510; duration := 10 |}])
  = [{| pts := Some 30; dts := Some 10; duration := 10 |};
     {| pts := Some 20; dts := Some 20; duration := 10 |}].
Proof.
  apply (reconnect_continues 1000 [ten_ticks (Some 0, Some 0)]
           {| pts := Some 520; dts := Some 500; duration := 10 |} 520 500
           [{| pts := Some 510; dts := Some 510; duration := 10 |}]);
    try lia; try by vm_compute.
  - apply Forall_singleton. split; [|split]; simpl; intros; simplify_eq; lia.
  - split; [|split]; simpl; intros; simplify_eq; lia.
  - apply Forall_singleton. split; [|split]; simpl; intros; simplify_eq; lia.
  - split; [|done]. exists 510, 510. simpl. split_and!; [done|done|lia|lia].
Defined.

Definition millisecond : TimeBase := {| num := 1; den := 1000 |}.
Definition rtp_clock : TimeBase := {| num := 1; den := 90000 |}.

Lemma rescale_roundtrip_witness :
  rescale rtp_clock (rescale millisecond 1001 rtp_clock) millisecond = 1001.
Proof.
  apply rescale_roundtrip;
    unfold time_base_ok, in_i64, rescale_in_range; simpl; vm_compute; intuition discriminate.
Defined.

Lemma rescale_nearest_witness : in_i64 (rescale rtp_clock 44 millisecond).
Proof.
  apply rescale_nearest;
    unfold time_base_ok, in_i64; simpl; vm_compute; intuition discriminate.
Defined.
