(* ===== verification/Packet.v ===== *)
(** * Packets, tracks, and media errors

    The values the media components pass around: [MediaPacket] of
    [ceres-media/src/input.rs], [OwnedTrack] and [MediaCodec] of
    [ceres-media/src/output.rs], and [MediaError] of
    [ceres-media/src/error.rs]. FFmpeg itself is not modelled: a packet is the
    fields the C shim reads from it, a track the values it reports. *)
From S2P Require Import Prelude Timeline.
Local Open Scope Z_scope.
Local Open Scope ceres_scope.

Record MediaError := { code : Z; message : string }.

#[export] Instance media_error_eq_dec : EqDecision MediaError.
Proof. solve_decision. Defined.

Definition EINVAL : Z := -22.
Definition EIO : Z := -5.
Definition INPUT_CHANGED : Z := -1668179713.

(** [MediaError::invalid]. *)
Definition media_error_invalid (message : string) : MediaError :=
  {| code := EINVAL; message := message |}.

(** [MediaError::check], FFmpeg's description of a code being a parameter. *)
Definition media_error_check (describe : Z -> string) (code : Z) : result Z MediaError :=
  if code <? 0 then Err {| code := code; message := describe code |} else Ok code.

Inductive MediaCodec := H264 | H265 | Other.

#[export] Instance media_codec_eq_dec : EqDecision MediaCodec.
Proof. solve_decision. Defined.

(** [OwnedTrack::codec] over the shim's codec number. *)
Definition codec_of (shim : Z) : MediaCodec :=
  if shim =? 1 then H264 else if shim =? 2 then H265 else Other.

(** [OwnedTrack], [parameters] naming FFmpeg's own copy of the codec
    parameters, which only FFmpeg compares. *)
Record OwnedTrack := {
  parameters : Z;
  codec_number : Z;
  extradata : list Z;
  track_time_base : TimeBase
}.

#[export] Instance owned_track_eq_dec : EqDecision OwnedTrack.
Proof. solve_decision. Defined.

Definition track_codec (track : OwnedTrack) : MediaCodec := codec_of (codec_number track).

(** FFmpeg's [AV_NOPTS_VALUE]. *)
Definition NOPTS : Z := i64_min.

(** A packet buffer, its raw timing fields as the shim reads them. *)
Record MediaPacket := {
  raw_pts : Z;
  raw_dts : Z;
  raw_duration : Z;
  is_key : bool;
  stream : Z;
  data : list Z
}.

#[export] Instance media_packet_eq_dec : EqDecision MediaPacket.
Proof. solve_decision. Defined.

(** [MediaPacket::size]: the shim's [int], never negative for a live packet. *)
Definition size (packet : MediaPacket) : Z := Z.of_nat (length (data packet)).

(** [MediaPacket::timing]. *)
Definition timing (packet : MediaPacket) : PacketTiming :=
  let set value := if decide (value <> NOPTS) then Some value else None in
  {| pts := set (raw_pts packet);
     dts := set (raw_dts packet);
     duration := Z.max (raw_duration packet) 0 |}.

(** [MediaPacket::set_timing]. *)
Definition set_timing (packet : MediaPacket) (timing : PacketTiming) : MediaPacket :=
  {| raw_pts := default NOPTS (pts timing);
     raw_dts := default NOPTS (dts timing);
     raw_duration := duration timing;
     is_key := is_key packet;
     stream := stream packet;
     data := data packet |}.

(** [MediaPacket::shift]. *)
Definition packet_shift (packet : MediaPacket) (offset : Z) : MediaPacket :=
  let timing := timing packet in
  set_timing packet
    {| pts := (fun p => p +i offset) <$> pts timing;
       dts := (fun d => d +i offset) <$> dts timing;
       duration := duration timing |}.

(** A timing that fits a packet: no timestamp is the one FFmpeg reads as
    missing, and the duration is known not to be negative. *)
Definition timing_storable (timing : PacketTiming) : Prop :=
  pts timing <> Some NOPTS /\ dts timing <> Some NOPTS /\ 0 <= duration timing.

(** Setting a packet's timing and reading it back loses nothing. *)
Lemma timing_set_timing packet t :
  timing_storable t -> timing (set_timing packet t) = t.
Proof.
  intros (Hp & Hd & Hdur). destruct t as [p d dur]. unfold timing, set_timing. simpl in *.
  rewrite Z.max_l by done.
  destruct p, d; simpl in *; repeat case_decide; simplify_eq/=; congruence.
Qed.

Lemma set_timing_payload packet t :
  is_key (set_timing packet t) = is_key packet /\
  data (set_timing packet t) = data packet.
Proof. done. Qed.
