(* ===== verification/FrameOrder.v ===== *)
(** * Telling display order from reordering

    [ceres-media/src/remux/order.rs]. *)
From S2P Require Import Prelude Timeline.
Local Open Scope Z_scope.
Local Open Scope ceres_scope.

Inductive FrameOrder := Unknown | Display | Reordered.

#[export] Instance frame_order_eq_dec : EqDecision FrameOrder.
Proof. solve_decision. Defined.

(** The discriminant [order as u8] of the [#[repr(u8)]] enum. *)
Definition frame_order_u8 (order : FrameOrder) : Z :=
  match order with Unknown => 0 | Display => 1 | Reordered => 2 end.

(** [SharedFrameOrder], the atomic byte. *)
Record SharedFrameOrder := { shared_byte : Z }.

Definition shared_default : SharedFrameOrder := {| shared_byte := 0 |}.

Definition shared_get (self : SharedFrameOrder) : FrameOrder :=
  if shared_byte self =? 1 then Display
  else if shared_byte self =? 2 then Reordered
  else Unknown.

Definition shared_set (self : SharedFrameOrder) (order : FrameOrder) : SharedFrameOrder :=
  {| shared_byte := frame_order_u8 order |}.

Record FrameOrderCheck := {
  previous : option Z;
  keyed : bool;
  in_order : Z;
  reordered : bool
}.

#[export] Instance frame_order_check_eq_dec : EqDecision FrameOrderCheck.
Proof. solve_decision. Defined.

(** [FrameOrderCheck::default] and [reset]. *)
Definition order_check_default : FrameOrderCheck :=
  {| previous := None; keyed := false; in_order := 0; reordered := false |}.

Definition order_reset (self : FrameOrderCheck) : FrameOrderCheck := order_check_default.

Definition MAX_REORDER : Z := 90000.
Definition IN_ORDER_PACKETS : Z := 2.

(** [FrameOrderCheck::order]. *)
Definition order (self : FrameOrderCheck) : FrameOrder :=
  if reordered self then Reordered
  else if keyed self && (IN_ORDER_PACKETS <=? in_order self) then Display
  else Unknown.

Definition u32 (x : Z) : Z := x mod 4294967296.

(** The state [FrameOrderCheck::observe] leaves; its result is [order] of it. *)
Definition observe_state (self : FrameOrderCheck) (pts : option Z) (key : bool) :
    FrameOrderCheck :=
  let self :=
    if key then
      {| previous := previous self; keyed := true; in_order := 0;
         reordered := reordered self |}
    else self in
  match pts with
  | None => self
  | Some pts =>
      let step_back := match previous self with
                       | None => 0
                       | Some previous => previous -i pts
                       end in
      if (0 <? step_back) && (step_back <? MAX_REORDER) then
        {| previous := Some pts; keyed := keyed self; in_order := in_order self;
           reordered := true |}
      else if negb key && keyed self && bool_decide (is_Some (previous self))
              && (step_back <? 0) then
        {| previous := Some pts; keyed := keyed self;
           in_order := u32 (in_order self + 1); reordered := reordered self |}
      else
        {| previous := Some pts; keyed := keyed self; in_order := in_order self;
           reordered := reordered self |}
  end.

(** [FrameOrderCheck::observe]. *)
Definition observe (self : FrameOrderCheck) (pts : option Z) (key : bool) :
    FrameOrderCheck * FrameOrder :=
  let self := observe_state self pts key in (self, order self).

(** ** The specification, over the packets since the track began

    Newest first, each its presentation time and whether it is a keyframe. *)
Definition observed : Type := list (option Z * bool).

Definition check_of (history : observed) : FrameOrderCheck :=
  foldr (fun '(pts, key) self => observe_state self pts key) order_check_default history.

(** The presentation times that were known, newest first. *)
Definition timed (history : observed) : list Z := omap fst history.

Definition small_step_back (older newer : Z) : Prop := 0 < older - newer < MAX_REORDER.

(** Some packet showed less than a second before the timed packet sent ahead
    of it. *)
Inductive stepped_back : list Z -> Prop :=
  | stepped_here newer older rest :
      small_step_back older newer -> stepped_back (newer :: older :: rest)
  | stepped_before newer rest : stepped_back rest -> stepped_back (newer :: rest).

(** How many packets since the last keyframe each showed later than the timed
    packet before, and whether there was a keyframe. *)
Fixpoint later_since_key (history : observed) : option Z :=
  match history with
  | [] => None
  | (_, true) :: _ => Some 0
  | (pts, false) :: history =>
      (fun count =>
         match pts, head (timed history) with
         | Some newer, Some older => if older <? newer then count + 1 else count
         | _, _ => count
         end) <$> later_since_key history
  end.

(** Presentation times far enough inside an [i64] for their differences. *)
Definition pts_bounded (history : observed) : Prop :=
  Forall (fun pts => - 4611686018427387904 < pts < 4611686018427387904) (timed history).

Lemma timed_cons pts key history :
  timed ((pts, key) :: history) =
    match pts with Some pts => pts :: timed history | None => timed history end.
Proof. by destruct pts. Qed.

Lemma check_of_previous history : previous (check_of history) = head (timed history).
Proof.
  induction history as [|[pts key] history IH]; [done|].
  cbn [check_of foldr]. fold (check_of history). rewrite timed_cons.
  unfold observe_state. destruct pts as [pts|], key; simpl; by repeat case_match.
Qed.

Lemma pts_bounded_tail packet history :
  pts_bounded (packet :: history) -> pts_bounded history.
Proof.
  unfold pts_bounded. destruct packet as [pts key]. rewrite timed_cons.
  destruct pts; [|done]. by inversion 1.
Qed.

Lemma pts_bounded_step newer key history older :
  pts_bounded ((Some newer, key) :: history) -> head (timed history) = Some older ->
  older -i newer = older - newer.
Proof.
  unfold pts_bounded. rewrite timed_cons. intros Hb Hh.
  destruct (timed history) as [|o rest]; simplify_eq/=.
  inversion_clear Hb as [|?? Hn Hb']. inversion_clear Hb' as [|?? Ho _]. no_wrap. lia.
Qed.

Lemma stepped_back_cons newer rest :
  stepped_back (newer :: rest) <->
  stepped_back rest \/ exists older, head rest = Some older /\ small_step_back older newer.
Proof.
  split.
  - inversion 1; subst; [right; eauto|by left].
  - intros [?|(older & Hh & ?)]; [by constructor|].
    destruct rest; simplify_eq/=. by constructor.
Qed.

(** The check's state is the specification's, packet by packet. *)
Lemma check_of_spec history :
  pts_bounded history -> Z.of_nat (length history) < 4294967296 ->
  (reordered (check_of history) = true <-> stepped_back (timed history)) /\
  later_since_key history =
    (if keyed (check_of history) then Some (in_order (check_of history)) else None) /\
  0 <= in_order (check_of history) <= Z.of_nat (length history).
Proof.
  induction history as [|[pts key] history IH]; intros Hb Hlen.
  { cbn. split; [|done]. split; [done|inversion 1]. }
  cbn [length] in Hlen.
  destruct IH as (IHr & IHl & IHn); [by eapply pts_bounded_tail|lia|].
  cbn [check_of foldr]. fold (check_of history).
  pose proof (check_of_previous history) as Hprev.
  rewrite timed_cons. cbn [later_since_key length].
  destruct (check_of history) as [prev keyed in_order reordered]. cbn in *. subst prev.
  unfold observe_state.
  destruct pts as [newer|].
  - rewrite stepped_back_cons.
    destruct (head (timed history)) as [older|] eqn:Hhead.
    + assert ((exists o, Some older = Some o /\ small_step_back o newer)
              <-> small_step_back older newer) as -> by naive_solver.
      pose proof (pts_bounded_step newer key history older Hb Hhead) as Hstep.
      unfold small_step_back, u32.
      destruct key; cbn -[Z.sub i64 Z.modulo]; rewrite Hstep;
        destruct (Z.ltb_spec 0 (older - newer)) as [H1|H1],
          (Z.ltb_spec (older - newer) MAX_REORDER) as [H2|H2],
          (Z.ltb_spec (older - newer) 0) as [H3|H3], (Z.ltb_spec older newer) as [H4|H4],
          keyed; try lia; cbn -[Z.sub i64 Z.modulo]; rewrite ?IHl; cbn -[Z.modulo];
        rewrite ?Z.mod_small by lia;
        (split; [|split; [done|lia]]); rewrite ?IHr; intuition lia.
    + assert ((exists o, None = Some o /\ small_step_back o newer) <-> False) as ->
        by naive_solver.
      destruct key; cbn; rewrite ?andb_false_r; cbn; rewrite ?IHl;
        destruct keyed; cbn; repeat split; try tauto; lia.
  - destruct key; cbn; rewrite ?IHl; destruct keyed; cbn; repeat split; try tauto; lia.
Qed.

(** The order a track is reported in is the one its packets show. It is
    reordered exactly when some packet showed less than a second before the
    timed packet sent ahead of it, whenever that happened; otherwise it is in
    display order exactly when a keyframe arrived and at least two packets
    since the latest one each showed later than the packet before. *)
Theorem frame_order_correct (history : observed)
    (Hbounded : pts_bounded history)
    (Hlength : Z.of_nat (length history) < 4294967296) :
  (order (check_of history) = Reordered <-> stepped_back (timed history)) /\
  (order (check_of history) = Display <->
     ~ stepped_back (timed history) /\
     exists count, later_since_key history = Some count /\ 2 <= count).
Proof.
  destruct (check_of_spec history Hbounded Hlength) as (Hr & -> & _).
  rewrite <-Hr. unfold order, IN_ORDER_PACKETS.
  destruct (check_of history) as [prev keyed in_order reordered]. cbn.
  destruct reordered, keyed, (Z.leb_spec 2 in_order); cbn; split; split;
    try naive_solver lia; try done.
Qed.

(** A shared order reads back as it was set. *)
Lemma shared_get_set self order : shared_get (shared_set self order) = order.
Proof. by destruct order. Qed.

(** ** The tests the code ships with *)

Definition order_of (packets : list (Z * bool)) : FrameOrder :=
  order (check_of (rev ((fun '(pts, key) => (Some pts, key)) <$> packets))).

Example frames_sent_in_display_order :
  order_of [(0, true); (3600, false)] = Unknown /\
  order_of [(0, true); (3600, false); (7200, false)] = Display.
Proof. done. Qed.

Example one_frame_sent_ahead_of_its_turn :
  order_of [(0, true); (7200, false); (3600, false)] = Reordered.
Proof. done. Qed.

Example a_step_back_of_seconds :
  order_of [(180000, true); (183600, false); (0, true); (3600, false)] = Unknown /\
  order_of [(180000, true); (0, true); (3600, false); (7200, false)] = Display.
Proof. done. Qed.

Lemma frame_order_correct_witness :
  order (check_of [(Some 3600, false); (Some 7200, false); (Some 0, true)]) = Reordered.
Proof.
  apply (frame_order_correct [(Some 3600, false); (Some 7200, false); (Some 0, true)]).
  - repeat (apply Forall_cons; split; [lia|]). apply Forall_nil_2.
  - simpl. lia.
  - apply stepped_here. unfold small_step_back, MAX_REORDER. lia.
Defined.
