(* ===== verification/Nal.v ===== *)
(** * NAL units and parameter sets

    [ceres-media/src/nal.rs] (splitting an Annex B access unit and telling
    whether other frames reference it) and
    [ceres-webrtc/src/parameter_sets.rs] (a keyframe with its parameter sets
    in front). Bytes are integers from 0 to 255. *)
From S2P Require Import Prelude Timeline Packet.
Local Open Scope Z_scope.

Definition bytes : Type := list Z.

(** ** Splitting *)

(** [start_code]: the position of the first [0, 0, 1] window. *)
Fixpoint start_code (data : bytes) : option nat :=
  match data with
  | a :: rest =>
      match rest with
      | b :: c :: _ =>
          if (a =? 0) && (b =? 0) && (c =? 1) then Some 0%nat
          else S <$> start_code rest
      | _ => None
      end
  | [] => None
  end.

(** [rposition(|byte| *byte != 0).map_or(0, |last| last + 1)]. *)
Fixpoint trimmed_length (data : bytes) : nat :=
  match data with
  | [] => 0
  | byte :: rest =>
      match trimmed_length rest with
      | O => if byte =? 0 then 0 else 1
      | S n => S (S n)
      end
  end.

(** [NalUnits::next]: the next unit and what is left to read. Each turn of the
    loop drops at least a start code, so as much fuel as bytes is enough
    ([nal_next_fuel]). *)
Fixpoint nal_next (fuel : nat) (data : bytes) : option (bytes * bytes) :=
  match fuel with
  | O => None
  | S fuel =>
      match start_code data with
      | None => None
      | Some at_ =>
          let rest := drop (at_ + 3) data in
          let end_ := default (length rest) (start_code rest) in
          let remaining := drop end_ rest in
          let length := trimmed_length (take end_ rest) in
          if decide (0 < length)%nat then Some (take length rest, remaining)
          else nal_next fuel remaining
      end
  end.

(** The iterator run to its end, each unit shortening what is left. *)
Fixpoint nal_collect (fuel : nat) (data : bytes) : list bytes :=
  match fuel with
  | O => []
  | S fuel =>
      match nal_next (length data) data with
      | None => []
      | Some (unit, remaining) => unit :: nal_collect fuel remaining
      end
  end.

Definition NalUnits (data : bytes) : list bytes := nal_collect (length data) data.

(** ** Telling frames nothing references *)

(** The closure of [is_unreferenced] over a unit's header byte: [None] for a
    unit that is no slice, else whether the slice is a non-reference one. *)
Definition slice_unreferenced (codec : MediaCodec) (header : Z) : option bool :=
  match codec with
  | H264 =>
      let kind := Z.land header 31 in
      if (1 <=? kind) && (kind <=? 5) then
        Some (Z.land (Z.shiftr header 5) 3 =? 0)
      else None
  | H265 =>
      let kind := Z.land (Z.shiftr header 1) 63 in
      if kind <=? 31 then Some ((kind <=? 14) && (Z.rem kind 2 =? 0)) else None
  | Other => Some false
  end.

(** [is_unreferenced]. *)
Definition is_unreferenced (data : bytes) (codec : MediaCodec) : bool :=
  let slices := omap (slice_unreferenced codec) (omap head (NalUnits data)) in
  match slices with
  | [] => false
  | _ :: _ => forallb id slices
  end.

(** ** Parameter sets *)

(** [is_sequence_parameter_set]. *)
Definition is_sequence_parameter_set (codec : MediaCodec) (header : Z) : bool :=
  match codec with
  | H264 => Z.land header 31 =? 7
  | H265 => Z.land (Z.shiftr header 1) 63 =? 33
  | Other => false
  end.

(** [slice::starts_with]. *)
Definition starts_with (prefix data : bytes) : bool :=
  bool_decide (take (length prefix) data = prefix).

(** [with_parameter_sets]. *)
Definition with_parameter_sets (data extradata : bytes) (codec : MediaCodec) (key : bool) :
    bytes :=
  let carries_them :=
    existsb (fun unit => match head unit with
                         | Some header => is_sequence_parameter_set codec header
                         | None => false
                         end) (NalUnits data) in
  let annex_b := starts_with [0; 0; 1] extradata || starts_with [0; 0; 0; 1] extradata in
  if negb key || carries_them || negb annex_b then data else extradata ++ data.

(** ** Facts about start codes *)

Lemma start_code_cons a rest :
  start_code (a :: rest) =
    match rest with
    | b :: c :: _ =>
        if (a =? 0) && (b =? 0) && (c =? 1) then Some 0%nat else S <$> start_code rest
    | _ => None
    end.
Proof. done. Qed.

Lemma start_code_length data at_ :
  start_code data = Some at_ -> (at_ + 3 <= length data)%nat.
Proof.
  revert at_. induction data as [|a rest IH]; intros at_; [done|].
  rewrite start_code_cons. destruct rest as [|b [|c rest]]; try done.
  case_match; [intros [= <-]; simpl; lia|].
  destruct (start_code (b :: c :: rest)) as [n|]; [|done]. cbn. intros [= <-].
  specialize (IH n eq_refl). cbn [length] in *. lia.
Qed.

Lemma trimmed_length_le data : (trimmed_length data <= length data)%nat.
Proof. induction data; simpl; repeat case_match; lia. Qed.

(** Enough fuel is as good as any more. *)
Lemma nal_next_fuel fuel fuel' data :
  (length data <= fuel)%nat -> (length data <= fuel')%nat ->
  nal_next fuel data = nal_next fuel' data.
Proof.
  revert fuel' data. induction fuel as [|fuel IH]; intros [|fuel'] data H1 H2; try done.
  - assert (data = []) as -> by (by destruct data; simpl in *; [|lia]). done.
  - assert (data = []) as -> by (by destruct data; simpl in *; [|lia]). done.
  - cbn [nal_next]. destruct (start_code data) as [at_|] eqn:Hs; [|done].
    apply start_code_length in Hs. case_decide; [done|].
    apply IH; rewrite !length_drop; lia.
Qed.

Lemma nal_next_left fuel data unit left :
  nal_next fuel data = Some (unit, left) -> (length left + 3 <= length data)%nat.
Proof.
  revert data. induction fuel as [|fuel IH]; intros data; [done|]. cbn [nal_next].
  destruct (start_code data) as [at_|] eqn:Hs; [|done].
  apply start_code_length in Hs.
  case_decide; [intros [= _ <-]|intros ?%IH]; rewrite ?length_drop in *; lia.
Qed.

Lemma nal_collect_fuel fuel fuel' data :
  (length data <= fuel)%nat -> (length data <= fuel')%nat ->
  nal_collect fuel data = nal_collect fuel' data.
Proof.
  revert fuel' data. induction fuel as [|fuel IH]; intros [|fuel'] data H1 H2; try done.
  - assert (data = []) as -> by (by destruct data; simpl in *; [|lia]). done.
  - assert (data = []) as -> by (by destruct data; simpl in *; [|lia]). done.
  - cbn [nal_collect]. destruct (nal_next _ _) as [[unit left]|] eqn:Hn; [|done].
    apply nal_next_left in Hn. f_equal. apply IH; lia.
Qed.

(** ** Annex B access units *)

(** A NAL unit as the codecs write them: not empty, not ending in a zero byte
    (every unit ends in a stop bit), and holding no start code (the encoder's
    emulation prevention). *)
Definition unit_ok (unit : bytes) : Prop :=
  (exists body byte, unit = body ++ [byte] /\ byte <> 0) /\ start_code unit = None.

(** The access unit of [units], each after a start code of [3 + zeros]
    bytes. *)
Definition annex_b (units : list (nat * bytes)) : bytes :=
  mjoin ((fun '(zeros, unit) => replicate zeros 0 ++ [0; 0; 1] ++ unit) <$> units).

Lemma annex_b_cons zeros unit units :
  annex_b ((zeros, unit) :: units) =
    replicate zeros 0 ++ 0 :: 0 :: 1 :: unit ++ annex_b units.
Proof. unfold annex_b. simpl. by rewrite <-!app_assoc. Qed.

Lemma annex_b_app units units' : annex_b (units ++ units') = annex_b units ++ annex_b units'.
Proof. unfold annex_b. by rewrite fmap_app, join_app. Qed.

Lemma start_code_zeros zeros x : start_code (replicate zeros 0 ++ 0 :: 0 :: 1 :: x) = Some zeros.
Proof.
  induction zeros as [|n IH]; [done|].
  cbn [replicate app]. rewrite start_code_cons, IH.
  destruct n as [|[|n]]; done.
Qed.

Lemma start_code_unit body byte zeros x :
  byte <> 0 -> start_code (body ++ [byte]) = None ->
  start_code ((body ++ [byte]) ++ replicate zeros 0 ++ 0 :: 0 :: 1 :: x) =
    Some (length (body ++ [byte]) + zeros)%nat.
Proof.
  intros Hbyte. induction body as [|a body IH]; intros Hs.
  - cbn [app length]. rewrite start_code_cons, start_code_zeros.
    rewrite (proj2 (Z.eqb_neq _ _) Hbyte).
    destruct zeros as [|[|]]; done.
  - cbn [app length] in *. rewrite start_code_cons in Hs |- *.
    destruct body as [|b body]; cbn [app] in *.
    + rewrite IH by done. cbn [length app] in *.
      destruct zeros as [|zeros]; cbn [replicate app];
        rewrite andb_false_r; done.
    + destruct body as [|c body]; cbn [app] in *.
      all: destruct ((a =? 0) && (b =? 0) && _) eqn:?; [done|].
      all: rewrite IH by (by destruct (start_code (b :: _))); done.
Qed.

Lemma trimmed_length_zeros zeros : trimmed_length (replicate zeros 0) = 0%nat.
Proof. induction zeros as [|n IH]; [done|]. cbn. by rewrite IH. Qed.

Lemma trimmed_length_unit body byte zeros :
  byte <> 0 -> trimmed_length ((body ++ [byte]) ++ replicate zeros 0) = length (body ++ [byte]).
Proof.
  intros Hbyte. induction body as [|a body IH]; cbn [app length trimmed_length].
  - by rewrite trimmed_length_zeros, (proj2 (Z.eqb_neq _ _) Hbyte).
  - rewrite IH, length_app. simpl. by rewrite Nat.add_comm.
Qed.

(** Reading one unit off an access unit: the next one's extra zeros go with
    the unit read, and are trimmed. *)
Lemma nal_next_annex_b zeros unit units :
  unit_ok unit ->
  nal_next (length (annex_b ((zeros, unit) :: units))) (annex_b ((zeros, unit) :: units)) =
    Some (unit, match units with
                | [] => []
                | (_, unit') :: units => annex_b ((0%nat, unit') :: units)
                end).
Proof.
  intros [(body & byte & -> & Hbyte) Hs].
  set (unit := body ++ [byte]) in *.
  assert (Hlen : (0 < length unit)%nat) by (unfold unit; rewrite length_app; simpl; lia).
  rewrite annex_b_cons.
  set (data := replicate zeros 0 ++ _).
  assert (Hdata : exists fuel, length data = S fuel)
    by (unfold data; rewrite length_app; simpl; eauto with lia).
  destruct Hdata as [fuel ->]. cbn [nal_next].
  unfold data at 1. rewrite start_code_zeros.
  assert (drop (zeros + 3) data = unit ++ annex_b units) as ->.
  { unfold data. rewrite drop_app_ge by (rewrite length_replicate; lia).
    rewrite length_replicate. by replace (zeros + 3 - zeros)%nat with 3%nat by lia. }
  destruct units as [|[zeros' unit'] units].
  - change (annex_b []) with (@nil Z). rewrite app_nil_r, Hs. cbn [default].
    rewrite take_ge, drop_ge by done.
    pose proof (trimmed_length_unit body byte 0 Hbyte) as Ht.
    rewrite app_nil_r in Ht. fold unit in Ht. rewrite Ht.
    rewrite decide_True by done. by rewrite take_ge.
  - rewrite annex_b_cons.
    pose proof (start_code_unit body byte zeros' (unit' ++ annex_b units) Hbyte Hs) as Hc.
    pose proof (trimmed_length_unit body byte zeros' Hbyte) as Ht.
    fold unit in Hc, Ht. rewrite Hc. cbn [default].
    rewrite app_assoc.
    rewrite take_app_length', drop_app_length'
      by (rewrite length_app, length_replicate; done).
    rewrite Ht, decide_True by done. by rewrite <-app_assoc, take_app_length.
Qed.

Lemma nal_collect_annex_b fuel units :
  Forall unit_ok units.*2 -> (length (annex_b units) <= fuel)%nat ->
  nal_collect fuel (annex_b units) = units.*2.
Proof.
  revert units. induction fuel as [|fuel IH]; intros units Hok Hfuel.
  - destruct units as [|[zeros unit] units]; [done|].
    rewrite annex_b_cons in Hfuel. rewrite length_app in Hfuel. simpl in Hfuel. lia.
  - destruct units as [|[zeros unit] units]; [done|].
    inversion Hok as [|?? Hunit Hunits]; subst. cbn [nal_collect].
    pose proof (nal_next_annex_b zeros unit units Hunit) as Hnext. rewrite Hnext.
    apply nal_next_left in Hnext. cbn. f_equal.
    destruct units as [|[zeros' unit'] units]; [by destruct fuel|].
    apply (IH ((0%nat, unit') :: units)); [done|lia].
Qed.

Lemma NalUnits_annex_b units :
  Forall unit_ok units.*2 -> NalUnits (annex_b units) = units.*2.
Proof. intros. by apply nal_collect_annex_b. Qed.

(** Splitting an Annex B access unit gives back exactly the NAL units it
    was built from, whatever start code length precedes each. *)
Theorem nal_units_roundtrip (units : list (nat * bytes)) (Hok : Forall unit_ok units.*2) :
  NalUnits (annex_b units) = units.*2.
Proof. by apply NalUnits_annex_b. Qed.

Definition carries_set (codec : MediaCodec) (unit : bytes) : Prop :=
  exists header, head unit = Some header /\ is_sequence_parameter_set codec header = true.

Lemma carries_set_existsb codec units :
  existsb (fun unit => match head unit with
                       | Some header => is_sequence_parameter_set codec header
                       | None => false
                       end) units = true <-> Exists (carries_set codec) units.
Proof.
  rewrite existsb_exists, Exists_exists. unfold carries_set.
  split; intros (u & Hin & Hu); exists u;
    (split; [by apply list_elem_of_In|]); destruct (head u); naive_solver.
Qed.

Lemma annex_b_starts zeros unit units :
  (zeros <= 1)%nat ->
  starts_with [0; 0; 1] (annex_b ((zeros, unit) :: units)) ||
  starts_with [0; 0; 0; 1] (annex_b ((zeros, unit) :: units)) = true.
Proof. intros. rewrite annex_b_cons. destruct zeros as [|[|]]; [done..|lia]. Qed.

(** A browser can start at every keyframe it is sent: when the track's
    out-of-band header is Annex B with a sequence parameter set in it, every
    keyframe goes out carrying one, its own NAL units last and in order, and
    the header's units are put in front only when it carried none. *)
Theorem keyframe_decodable (codec : MediaCodec) (header : nat * bytes)
    (headers units : list (nat * bytes))
    (Hheader : (header.1 <= 1)%nat)
    (Hheaders : Forall unit_ok (header :: headers).*2)
    (Hunits : Forall unit_ok units.*2)
    (Hset : Exists (carries_set codec) (header :: headers).*2) :
  let sent := with_parameter_sets (annex_b units) (annex_b (header :: headers)) codec true in
  Exists (carries_set codec) (NalUnits sent) /\
  exists front, NalUnits sent = front ++ units.*2 /\
    (front = [] <-> Exists (carries_set codec) units.*2) /\
    (front <> [] -> front = (header :: headers).*2).
Proof.
  destruct header as [zeros unit]. cbn [fst] in Hheader. unfold with_parameter_sets.
  rewrite NalUnits_annex_b by done.
  rewrite annex_b_starts by done. rewrite orb_false_r. cbn [negb orb].
  destruct (existsb _ _) eqn:Hcarries.
  - apply carries_set_existsb in Hcarries. rewrite NalUnits_annex_b by done.
    split; [done|]. exists []. naive_solver.
  - assert (Hnone : ~ Exists (carries_set codec) units.*2)
      by (rewrite <-carries_set_existsb, Hcarries; done).
    rewrite <-annex_b_app, NalUnits_annex_b by (rewrite fmap_app; by apply Forall_app).
    rewrite fmap_app.
    split; [by apply Exists_app; left|].
    exists ((zeros, unit) :: headers).*2. naive_solver.
Qed.

(** A delta frame is sent as it is. *)
Lemma delta_frame_untouched data extradata codec :
  with_parameter_sets data extradata codec false = data.
Proof. done. Qed.

Definition slice_of (codec : MediaCodec) (unit : bytes) (unreferenced : bool) : Prop :=
  exists header, head unit = Some header /\ slice_unreferenced codec header = Some unreferenced.

(** A frame counts as unreferenced, and may be dropped, exactly when it has
    a slice and no slice of it is referenced, parameter sets and SEI counting
    for nothing. *)
Theorem is_unreferenced_correct (codec : MediaCodec) (units : list (nat * bytes))
    (Hok : Forall unit_ok units.*2) :
  is_unreferenced (annex_b units) codec = true <->
  Exists (fun unit => slice_of codec unit true) units.*2 /\
  ~ Exists (fun unit => slice_of codec unit false) units.*2.
Proof.
  unfold is_unreferenced. rewrite NalUnits_annex_b by done.
  generalize (units.*2). clear. intros units.
  set (slices := omap (slice_unreferenced codec) (omap head units)).
  assert (Hslices : forall b, b ∈ slices <-> Exists (fun unit => slice_of codec unit b) units).
  { intros b. unfold slices. rewrite Exists_exists. unfold slice_of.
    setoid_rewrite list_elem_of_omap. setoid_rewrite list_elem_of_omap. naive_solver. }
  rewrite <-!Hslices. clearbody slices. destruct slices as [|b slices].
  - set_solver.
  - rewrite forallb_forall. setoid_rewrite <-list_elem_of_In. split.
    + intros Hall. split; [|by intros ?%Hall].
      assert (b = true) as -> by (apply (Hall b); set_solver). set_solver.
    + intros [_ Hnone] [] Hb; [done|]. by destruct Hnone.
Qed.

(** ** The tests the code ships with *)

Definition four_byte (units : list bytes) : bytes := annex_b ((fun unit => (1%nat, unit)) <$> units).

Example splits_units_at_either_start_code :
  NalUnits ([0; 0; 0; 1; 103; 1; 2] ++ [0; 0; 1; 104; 3] ++ [0; 0; 0; 1; 101; 4; 5])
  = [[103; 1; 2]; [104; 3]; [101; 4; 5]].
Proof. vm_compute. reflexivity. Qed.

Example an_h264_frame_is_unreferenced_when_every_slice_is :
  is_unreferenced (four_byte [[6; 5]; [1; 7]]) H264 = true /\
  is_unreferenced (four_byte [[6; 5]; [1; 7]; [65; 7]]) H264 = false /\
  is_unreferenced (four_byte [[101; 4]]) H264 = false /\
  is_unreferenced (four_byte [[6; 5]]) H264 = false.
Proof. vm_compute. done. Qed.

Example an_h265_frame_is_unreferenced :
  is_unreferenced (four_byte [[78; 1; 5]; [0; 1; 7]]) H265 = true /\
  is_unreferenced (four_byte [[2; 1; 7]]) H265 = false /\
  is_unreferenced (four_byte [[38; 1; 4]]) H265 = false.
Proof. vm_compute. done. Qed.

Lemma unit_ok_intro body byte :
  byte <> 0 -> start_code (body ++ [byte]) = None -> unit_ok (body ++ [byte]).
Proof. intros. split; [by exists body, byte|done]. Qed.

Lemma nal_units_roundtrip_witness :
  NalUnits (annex_b [(0%nat, [103; 1; 2]); (3%nat, [101; 0; 5])]) = [[103; 1; 2]; [101; 0; 5]].
Proof.
  apply (nal_units_roundtrip [(0%nat, [103; 1; 2]); (3%nat, [101; 0; 5])]).
  repeat (apply Forall_cons; split); try apply Forall_nil_2.
  - by apply (unit_ok_intro [103; 1] 2).
  - by apply (unit_ok_intro [101; 0] 5).
Defined.

Lemma keyframe_decodable_witness :
  Exists (carries_set H264)
    (NalUnits (with_parameter_sets (four_byte [[101; 4; 5]])
                 (four_byte [[103; 1; 2]; [104; 3]]) H264 true)).
Proof.
  refine (proj1 (keyframe_decodable H264 (1%nat, [103; 1; 2]) [(1%nat, [104; 3])]
                   [(1%nat, [101; 4; 5])] _ _ _ _)).
  - simpl. lia.
  - repeat (apply Forall_cons; split); try apply Forall_nil_2.
    + by apply (unit_ok_intro [103; 1] 2).
    + by apply (unit_ok_intro [104] 3).
  - apply Forall_singleton. by apply (unit_ok_intro [101; 4] 5).
  - apply Exists_cons_hd. exists 103. done.
Defined.

Lemma is_unreferenced_correct_witness :
  is_unreferenced (annex_b [(1%nat, [6; 5]); (1%nat, [1; 7])]) H264 = true.
Proof.
  apply is_unreferenced_correct.
  - repeat (apply Forall_cons; split); try apply Forall_nil_2.
    + by apply (unit_ok_intro [6] 5).
    + by apply (unit_ok_intro [1] 7).
  - split.
    + apply Exists_cons_tl, Exists_cons_hd. by exists 1.
    + intros [(h & ? & ?)|[(h & ? & ?)|Hnil]%Exists_cons]%Exists_cons;
        [by simplify_eq/=..|]. by apply Exists_nil in Hnil.
Defined.
