(* ===== verification/Remux.v ===== *)
(** * Remux options, notices, and what a reader sends

    The data of [ceres-media/src/remux/mod.rs] and of the channel between a
    reader and its streams ([ceres-media/src/remux/reader.rs]). Spans are
    whole nanoseconds, as [std::time::Duration] counts them. *)
From S2P Require Import Prelude Text Timeline Packet.
Local Open Scope Z_scope.
Local Open Scope ceres_scope.

Definition milliseconds (n : Z) : Z := n * 1000000.
Definition seconds (n : Z) : Z := n * 1000000000.

(** The longest [Duration], [u64::MAX] seconds and all but one nanosecond of
    another. *)
Definition duration_max : Z := u64_max * 1000000000 + 999999999.

(** [Duration * u32] panics when the product is out of range: [None]. *)
Definition duration_mul (span factor : Z) : option Z :=
  if span * factor <=? duration_max then Some (span * factor) else None.

(** ** Backoff *)

Record RemuxBackoff := { initial : Z; cap : Z; healthy : Z }.

Definition backoff_default : RemuxBackoff :=
  {| initial := milliseconds 500; cap := seconds 10; healthy := seconds 5 |}.

(** [RemuxBackoff::next]. *)
Definition backoff_next (self : RemuxBackoff) (delay session : Z) : Z :=
  if healthy self <=? session then initial self else delay.

(** [RemuxBackoff::grow], [None] where doubling panics. *)
Definition backoff_grow (self : RemuxBackoff) (delay : Z) : option Z :=
  (fun doubled => Z.min doubled (cap self)) <$> duration_mul delay 2.

Record RemuxOptions := {
  copy : bool;
  fragment_duration : Z;
  dash : bool;
  opt_reconnect : bool;
  stall_timeout : option Z;
  backoff : RemuxBackoff;
  linger : Z
}.

Definition remux_options_default : RemuxOptions :=
  {| copy := true;
     fragment_duration := milliseconds 50;
     dash := true;
     opt_reconnect := true;
     stall_timeout := Some (seconds 10);
     backoff := backoff_default;
     linger := seconds 3 |}.

(** ** Live sources *)

Record LiveSource := {
  url : string;
  transport : string;
  live_copy : bool;
  live_reconnect : bool;
  live_stall_timeout : option Z
}.

(** [LiveSource::options]. *)
Definition live_options (self : LiveSource) : RemuxOptions :=
  {| copy := live_copy self;
     fragment_duration := fragment_duration remux_options_default;
     dash := dash remux_options_default;
     opt_reconnect := live_reconnect self;
     stall_timeout := live_stall_timeout self;
     backoff := backoff remux_options_default;
     linger := linger remux_options_default |}.

(** [Display] of a [bool]. *)
Definition bool_display (b : bool) : string := if b then "true" else "false".

Section live_key.
(** [Debug] of an [Option<Duration>], the standard library's. *)
Context (debug_timeout : option Z -> string).

(** [LiveSource::key], the fields joined by spaces, the URL last. *)
Definition live_key (self : LiveSource) : string :=
  transport self +:+ " " +:+ bool_display (live_copy self) +:+ " "
    +:+ debug_timeout (live_stall_timeout self) +:+ " " +:+ url self.
End live_key.

(** ** What a stream is told *)

Inductive StreamNotice :=
  | NoticeLost (reason : option string)
  | NoticeRetrying (delay : Z)
  | NoticeReconnected (attempts outage : Z)
  | NoticeEnded (reason : string).

(** [Feed], what a reader sends each stream. *)
Inductive Feed :=
  | FeedTrack (track : OwnedTrack)
  | FeedSnapshot (track : OwnedTrack) (packets : list MediaPacket)
  | FeedPacket (packet : MediaPacket)
  | FeedLost (error : option MediaError)
  | FeedNotice (notice : StreamNotice)
  | FeedEnd (error : option MediaError).

#[export] Instance stream_notice_eq_dec : EqDecision StreamNotice.
Proof. solve_decision. Defined.
#[export] Instance feed_eq_dec : EqDecision Feed.
Proof. solve_decision. Defined.

Definition is_packet (feed : Feed) : bool :=
  match feed with FeedPacket _ => true | _ => false end.

(** How many packets may wait for a stream, and how many bytes of packets are
    kept for one joining late. *)
Definition FEED_BACKLOG : Z := 256.
Definition GOP_CACHE_BYTES : Z := 16777216.

(** ** The delay between attempts *)

(** The delay before the [n]th reconnect, the sessions in between having
    lasted [sessions] (the latest last), [None] once doubling panicked. *)
Fixpoint delays (self : RemuxBackoff) (delay : Z) (sessions : list Z) : option (list Z) :=
  match sessions with
  | [] => Some []
  | session :: sessions =>
      let delay := backoff_next self delay session in
      match backoff_grow self delay with
      | None => None
      | Some grown => (fun rest => delay :: rest) <$> delays self grown sessions
      end
  end.

Definition backoff_ok (self : RemuxBackoff) : Prop :=
  0 <= initial self <= cap self /\ cap self * 2 <= duration_max.

Lemma backoff_grow_ok self delay :
  backoff_ok self -> 0 <= delay <= cap self ->
  backoff_grow self delay = Some (Z.min (delay * 2) (cap self)).
Proof.
  intros [? ?] ?. unfold backoff_grow, duration_mul.
  by rewrite (proj2 (Z.leb_le _ _)) by lia.
Qed.

(** The reader never waits longer than the cap between attempts, doubling
    its delay never overflows, each failed attempt doubles the next delay up
    to the cap, and a healthy session starts over from the initial delay. *)
Theorem reconnect_delays (self : RemuxBackoff) (sessions : list Z)
    (Hok : backoff_ok self) :
  exists waits, delays self (initial self) sessions = Some waits /\
    length waits = length sessions /\
    Forall (fun wait => 0 <= wait <= cap self) waits /\
    (forall i session wait, sessions !! i = Some session -> waits !! i = Some wait ->
       healthy self <= session -> wait = initial self) /\
    (forall i session before wait, sessions !! S i = Some session ->
       waits !! i = Some before -> waits !! S i = Some wait ->
       session < healthy self -> wait = Z.min (before * 2) (cap self)).
Proof.
  destruct Hok as [Hinit Hcap].
  enough (Hgen : forall delay, 0 <= delay <= cap self ->
    exists waits, delays self delay sessions = Some waits /\
      length waits = length sessions /\
      Forall (fun wait => 0 <= wait <= cap self) waits /\
      (forall session wait, head sessions = Some session -> head waits = Some wait ->
         session < healthy self -> wait = delay) /\
      (forall i session wait, sessions !! i = Some session -> waits !! i = Some wait ->
         healthy self <= session -> wait = initial self) /\
      (forall i session before wait, sessions !! S i = Some session ->
         waits !! i = Some before -> waits !! S i = Some wait ->
         session < healthy self -> wait = Z.min (before * 2) (cap self))).
  { destruct (Hgen (initial self) Hinit) as (waits & ? & ? & ? & _ & ? & ?). eauto 10. }
  induction sessions as [|session sessions IH]; intros delay Hdelay.
  { exists []. repeat split; try constructor; intros; simplify_eq/=. }
  cbn [delays]. set (wait := backoff_next self delay session).
  assert (Hwait : 0 <= wait <= cap self).
  { unfold wait, backoff_next. destruct (healthy self <=? session); lia. }
  rewrite backoff_grow_ok by done.
  destruct (IH (Z.min (wait * 2) (cap self)) ltac:(lia))
    as (waits & -> & Hlen & Hall & Hhead & Hreset & Hgrow).
  exists (wait :: waits). split; [done|]. split; [cbn; by rewrite Hlen|].
  split; [by constructor|]. unfold wait, backoff_next in *. split; [|split].
  - intros ? ? [= <-] [= <-] ?. by rewrite (proj2 (Z.leb_gt _ _)).
  - intros [|i] s w Hs Hw Hh; simplify_eq/=; [by rewrite (proj2 (Z.leb_le _ _))|eauto].
  - intros [|i] s b w Hs Hb Hw Hh; simplify_eq/=; [|eauto].
    apply Hhead with s; [|by destruct waits|done]. by destruct sessions.
Qed.

Lemma reconnect_delays_witness :
  exists waits, delays backoff_default (initial backoff_default)
    [0; 0; 0; 0; 0; 0; seconds 6; 0] = Some waits /\
  Forall (fun wait => 0 <= wait <= seconds 10) waits.
Proof.
  destruct (reconnect_delays backoff_default [0; 0; 0; 0; 0; 0; seconds 6; 0])
    as (waits & Hw & _ & Hall & _).
  - split; vm_compute; intuition discriminate.
  - exists waits. by split.
Defined.

Example default_delays :
  delays backoff_default (initial backoff_default) [0; 0; 0; 0; 0; 0; seconds 6; 0] =
  Some (milliseconds <$> [500; 1000; 2000; 4000; 8000; 10000; 500; 1000]).
Proof. vm_compute. reflexivity. Qed.

(** ** Sharing a source *)

Definition no_space (text : string) : Prop := contains_char " "%char text = false.

Section live_key_facts.
Context (debug_timeout : option Z -> string).
(** The standard library prints a span without spaces, and different spans
    differently. *)
Hypothesis debug_timeout_no_space : forall timeout, no_space (debug_timeout timeout).
Hypothesis debug_timeout_inj :
  forall t t', debug_timeout t = debug_timeout t' -> t = t'.

(** Two live sources join the same shared connection exactly when they
    agree on the URL, the transport, whether packets are copied, and the
    stall timeout; only [reconnect] may differ, as each stream applies that
    itself. *)
Theorem live_key_injective (a b : LiveSource)
    (Ha : no_space (transport a)) (Hb : no_space (transport b)) :
  live_key debug_timeout a = live_key debug_timeout b <->
  live_options a =
    {| copy := live_copy b;
       fragment_duration := fragment_duration (live_options b);
       dash := dash (live_options b);
       opt_reconnect := live_reconnect a;
       stall_timeout := live_stall_timeout b;
       backoff := backoff (live_options b);
       linger := linger (live_options b) |} /\
  url a = url b /\ transport a = transport b.
Proof.
  unfold live_key, live_options. destruct a as [ua ta ca ra sa], b as [ub tb cb rb sb].
  cbn in *. split; [|intros ([= -> ->] & -> & ->); done].
  intros Heq. apply app_char_inj in Heq as [-> Heq]; [|done..].
  apply app_char_inj in Heq as [Hcopy Heq]; [|by destruct ca|by destruct cb].
  apply app_char_inj in Heq as [Hdebug ->]; [|apply debug_timeout_no_space..].
  apply debug_timeout_inj in Hdebug as ->.
  assert (ca = cb) as -> by (by destruct ca, cb). done.
Qed.
End live_key_facts.

Lemma bool_display_no_space b : no_space (bool_display b).
Proof. by destruct b. Qed.

(** A printer of spans in unary, to witness the hypotheses. *)
Fixpoint tally (n : nat) : string :=
  match n with O => "" | S n => String "i" (tally n) end.

Definition debug_tally (timeout : option Z) : string :=
  match timeout with
  | None => "None"
  | Some span =>
      String "S" (String (if decide (0 <= span) then "p" else "n") (tally (Z.abs_nat span)))
  end.

Lemma tally_inj n m : tally n = tally m -> n = m.
Proof. revert m. induction n; intros []; simpl; try done. intros [= ?]. auto. Qed.

Lemma tally_no_space n : no_space (tally n).
Proof. unfold no_space. by induction n. Qed.

Lemma debug_tally_no_space timeout : no_space (debug_tally timeout).
Proof. unfold no_space. destruct timeout; [|done]. simpl. case_decide; apply tally_no_space. Qed.

Lemma debug_tally_inj t t' : debug_tally t = debug_tally t' -> t = t'.
Proof.
  destruct t as [s|], t' as [s'|]; simpl; try done.
  repeat case_decide; try done; intros [= Heq%tally_inj]; f_equal; lia.
Qed.

Lemma live_key_injective_witness :
  live_key debug_tally
    {| url := "rtsp://cam/a"; transport := "tcp"; live_copy := true;
       live_reconnect := true; live_stall_timeout := Some 10 |} =
  live_key debug_tally
    {| url := "rtsp://cam/a"; transport := "tcp"; live_copy := true;
       live_reconnect := false; live_stall_timeout := Some 10 |}.
Proof.
  apply (live_key_injective debug_tally debug_tally_no_space debug_tally_inj); done.
Defined.
