(* ===== verification/Reader.v ===== *)
(** * The reader: one source's packets fanned out to every stream

    [ceres-media/src/remux/reader.rs]. A reader's thread, the streams joining
    and leaving, and the streams' own threads share the state below. Every
    method holds the state's mutex throughout, so each is one step; a stream's
    thread touches only its own channel. Channels are a store keyed by stream,
    since the reader and the stream both hold the channel and its [pending]
    counter.

    Instants are nanoseconds. FFmpeg's reference counting ([try_clone]) is a
    parameter: it gives a packet equal to the original, or fails for want of
    memory. *)
From S2P Require Import Prelude Text Timeline Packet Remux.
Local Open Scope Z_scope.
Local Open Scope ceres_scope.

(** ** Channels *)

(** A stream's end and the reader's end of one channel: what was sent and not
    yet taken, the [pending] counter, whether the receiver still exists, and
    what the stream took whose [pending] it has not yet counted off. *)
Record Channel := {
  queue : list Feed;
  pending : Z;
  receiving : bool;
  in_hand : option Feed
}.

Definition closed_channel : Channel :=
  {| queue := []; pending := 0; receiving := false; in_hand := None |}.

Definition open_channel : Channel :=
  {| queue := []; pending := 0; receiving := true; in_hand := None |}.

(** [Sender::send], which fails once the receiver is gone. *)
Definition send (feed : Feed) (channel : Channel) : Channel * bool :=
  if receiving channel then
    ({| queue := queue channel ++ [feed]; pending := pending channel;
        receiving := true; in_hand := in_hand channel |}, true)
  else (channel, false).

(** [AtomicUsize::fetch_add] and [fetch_sub] of one. *)
Definition add_pending (amount : Z) (channel : Channel) : Channel :=
  {| queue := queue channel; pending := u64 (pending channel + amount);
     receiving := receiving channel; in_hand := in_hand channel |}.

(** ** State *)

Record Subscriber := { id : Z; waiting : bool; lost : bool }.

Record Outage := {
  since : Z;
  attempts : Z;
  outage_reason : option MediaError;
  scheduled : bool
}.

Record State := {
  subscribers : list Subscriber;
  next_id : Z;
  track : option OwnedTrack;
  gop : list MediaPacket;
  gop_bytes : Z;
  gop_valid : bool;
  outage : option Outage
}.

Record Reader := {
  key : option string;
  options : RemuxOptions;
  state : State;
  started : Z;
  touched : Z;
  empty_since : Z;
  closed : bool;
  channels : gmap Z Channel
}.

Definition with_state (self : Reader) (state : State) (channels : gmap Z Channel) : Reader :=
  {| key := key self; options := options self; state := state; started := started self;
     touched := touched self; empty_since := empty_since self; closed := closed self;
     channels := channels |}.

Definition with_subscribers (state : State) (subscribers : list Subscriber) : State :=
  {| subscribers := subscribers; next_id := next_id state; track := track state;
     gop := gop state; gop_bytes := gop_bytes state; gop_valid := gop_valid state;
     outage := outage state |}.

Definition with_gop (state : State) (gop : list MediaPacket) (bytes : Z) (valid : bool) : State :=
  {| subscribers := subscribers state; next_id := next_id state; track := track state;
     gop := gop; gop_bytes := bytes; gop_valid := valid; outage := outage state |}.

Definition with_outage (state : State) (outage : option Outage) : State :=
  {| subscribers := subscribers state; next_id := next_id state; track := track state;
     gop := gop state; gop_bytes := gop_bytes state; gop_valid := gop_valid state;
     outage := outage |}.

(** [Reader::new], at instant [now]. *)
Definition reader_new (key : option string) (options : RemuxOptions) (now : Z) : Reader :=
  {| key := key; options := options;
     state := {| subscribers := []; next_id := 0; track := None; gop := []; gop_bytes := 0;
                 gop_valid := false; outage := None |};
     started := now; touched := 0; empty_since := u64_max; closed := false;
     channels := ∅ |}.

(** [Reader::now], milliseconds since the reader started. *)
Definition reader_now (self : Reader) (now : Z) : Z :=
  let elapsed := (now - started self) / 1000000 in
  if elapsed <=? u64_max then elapsed else u64_max - 1.

Definition touch (self : Reader) (now : Z) : Reader :=
  {| key := key self; options := options self; state := state self; started := started self;
     touched := reader_now self now; empty_since := empty_since self; closed := closed self;
     channels := channels self |}.

Definition with_empty_since (self : Reader) (empty_since : Z) : Reader :=
  {| key := key self; options := options self; state := state self; started := started self;
     touched := touched self; empty_since := empty_since; closed := closed self;
     channels := channels self |}.

Definition with_closed (self : Reader) : Reader :=
  {| key := key self; options := options self; state := state self; started := started self;
     touched := touched self; empty_since := empty_since self; closed := true;
     channels := channels self |}.

(** [Reader::should_stop]. *)
Definition should_stop (self : Reader) (now : Z) : bool :=
  if empty_since self =? u64_max then false
  else
    let linger := if key self then linger (options self) else 0 in
    linger <=? milliseconds (u64_saturating_sub (reader_now self now) (empty_since self)).

(** [Reader::stalled]. *)
Definition stalled (self : Reader) (now : Z) : bool :=
  match stall_timeout (options self) with
  | None => false
  | Some timeout =>
      timeout <? milliseconds (u64_saturating_sub (reader_now self now) (touched self))
  end.

(** [Reader::interrupt]'s closure. *)
Definition interrupt (self : Reader) (now : Z) : bool :=
  should_stop self now || stalled self now.

(** ** Fanning out

    [Vec::retain_mut] over the subscribers with a closure that reads and
    writes only the subscriber's own entry and channel: whether to keep it,
    and both as the closure leaves them. *)
Definition Visit : Type := Subscriber -> Channel -> bool * Subscriber * Channel.

Fixpoint retain_mut (visit : Visit) (subs : list Subscriber) (channels : gmap Z Channel) :
    list Subscriber * gmap Z Channel :=
  match subs with
  | [] => ([], channels)
  | sub :: subs =>
      let '(keep, sub', channel) :=
        visit sub (default closed_channel (channels !! id sub)) in
      let '(subs, channels) := retain_mut visit subs (<[id sub := channel]> channels) in
      (if keep : bool then sub' :: subs else subs, channels)
  end.

Definition fan_out (visit : Visit) (self : Reader) : Reader :=
  let '(subs, channels) := retain_mut visit (subscribers (state self)) (channels self) in
  with_state self (with_subscribers (state self) subs) channels.

(** [Reader::broadcast]'s and [tell_lost]'s closures. *)
Definition visit_broadcast (feed : Feed) : Visit := fun sub channel =>
  let '(channel, sent) := send feed channel in (sent, sub, channel).

Definition visit_tell_lost (feed : Feed) : Visit := fun sub channel =>
  if negb (lost sub) then (true, sub, channel)
  else visit_broadcast feed sub channel.

Definition broadcast (feed : Feed) (self : Reader) : Reader :=
  fan_out (visit_broadcast feed) self.

Definition tell_lost (feed : Feed) (self : Reader) : Reader :=
  fan_out (visit_tell_lost feed) self.

Definition with_waiting (sub : Subscriber) (waiting : bool) : Subscriber :=
  {| id := id sub; waiting := waiting; lost := lost sub |}.

Definition with_lost (sub : Subscriber) (lost : bool) : Subscriber :=
  {| id := id sub; waiting := waiting sub; lost := lost |}.

Section reader.
Context (try_clone : MediaPacket -> option MediaPacket).

(** ** Streams joining and leaving *)

(** [Reader::join], with the new stream's ID. *)
Definition join (self : Reader) : Reader * Z :=
  let st := state self in
  let id := next_id st in
  let '(waiting, channel) :=
    match outage st with
    | Some _ => (true, open_channel)
    | None =>
        match track st with
        | None => (false, open_channel)
        | Some track =>
            if gop_valid st then
              (false, fst (send (FeedSnapshot track (omap try_clone (gop st))) open_channel))
            else (true, fst (send (FeedTrack track) open_channel))
        end
    end in
  let channel := if closed self then fst (send (FeedEnd None) channel) else channel in
  let st :=
    {| subscribers :=
         subscribers st ++ [{| id := id; waiting := waiting; lost := false |}];
       next_id := id +u 1; track := track st; gop := gop st;
       gop_bytes := gop_bytes st; gop_valid := gop_valid st; outage := outage st |} in
  (with_empty_since (with_state self st (<[id := channel]> (channels self))) u64_max, id).

(** [Reader::leave]. *)
Definition leave (leaving : Z) (now : Z) (self : Reader) : Reader :=
  let subs := filter (fun sub => id sub <> leaving) (subscribers (state self)) in
  let self := with_state self (with_subscribers (state self) subs) (channels self) in
  match subs with
  | [] => with_empty_since self (reader_now self now)
  | _ :: _ => self
  end.

(** ** The source's packets *)

(** A new track's start, as [Reader::copy] and [Reader::transcode] publish
    it. *)
Definition publish_track (next : OwnedTrack) (self : Reader) : Reader :=
  let st := state self in
  let st :=
    {| subscribers := subscribers st; next_id := next_id st; track := Some next;
       gop := []; gop_bytes := 0; gop_valid := true; outage := outage st |} in
  broadcast (FeedTrack next) (with_state self st (channels self)).

(** The end of [Reader::publish]'s closure: counts and sends a clone. *)
Definition deliver (packet : MediaPacket) (sub : Subscriber) (channel : Channel) :
    bool * Subscriber * Channel :=
  match try_clone packet with
  | None => (true, sub, channel)
  | Some clone =>
      let '(channel, sent) := send (FeedPacket clone) (add_pending 1 channel) in
      (sent, sub, channel)
  end.

(** [Reader::publish]'s closure. *)
Definition offer (track : option OwnedTrack) (packet : MediaPacket) : Visit :=
  fun sub channel =>
    if waiting sub then
      if negb (is_key packet) || (FEED_BACKLOG <=? pending channel) then
        (true, sub, channel)
      else
        match track with
        | None => deliver packet (with_waiting sub false) channel
        | Some track =>
            let '(channel, sent) := send (FeedTrack track) channel in
            if negb sent then (false, sub, channel)
            else deliver packet (with_waiting sub false) channel
        end
    else if FEED_BACKLOG <=? pending channel then
      (true, with_waiting sub true, channel)
    else deliver packet sub channel.

(** The first half of [Reader::publish]: the packets kept for streams
    joining later. *)
Definition keep (packet : MediaPacket) (st : State) : State :=
  let st := if is_key packet then with_gop st [] 0 true else st in
  if gop_valid st then
    let bytes := gop_bytes st +u size packet in
    if GOP_CACHE_BYTES <? bytes then with_gop st [] 0 false
    else match try_clone packet with
         | None => with_gop st (gop st) bytes true
         | Some kept => with_gop st (gop st ++ [kept]) bytes true
         end
  else st.

(** [Reader::publish]. *)
Definition publish (packet : MediaPacket) (self : Reader) : Reader :=
  let self := with_state self (keep packet (state self)) (channels self) in
  fan_out (offer (track (state self)) packet) self.

(** ** Outages *)

(** [Reader::received], at instant [now]. *)
Definition received (now : Z) (self : Reader) : Reader :=
  match outage (state self) with
  | None => self
  | Some out =>
      let self := with_state self (with_outage (state self) None) (channels self) in
      let self :=
        tell_lost (FeedNotice (NoticeReconnected (attempts out) (now - since out))) self in
      let subs := (fun sub => with_lost sub false) <$> subscribers (state self) in
      with_state self (with_subscribers (state self) subs) (channels self)
  end.

Definition visit_lost (error : option MediaError) : Visit := fun sub channel =>
  visit_broadcast (FeedLost error) (with_lost sub true) channel.

(** [Reader::lost]. *)
Definition reader_lost (error : option MediaError) (now : Z) (self : Reader) : Reader :=
  match outage (state self) with
  | Some out =>
      let out :=
        {| since := since out; attempts := (attempts out + 1) mod 4294967296;
           outage_reason := error; scheduled := scheduled out |} in
      with_state self (with_outage (state self) (Some out)) (channels self)
  | None =>
      let out :=
        {| since := now; attempts := 1; outage_reason := error; scheduled := false |} in
      let st := with_gop (with_outage (state self) (Some out)) [] 0 false in
      fan_out (visit_lost error) (with_state self st (channels self))
  end.

(** [Reader::schedule]. *)
Definition schedule (delay : Z) (self : Reader) : Reader :=
  match outage (state self) with
  | Some out =>
      if scheduled out then self
      else
        let out :=
          {| since := since out; attempts := attempts out;
             outage_reason := outage_reason out; scheduled := true |} in
        tell_lost (FeedNotice (NoticeRetrying delay))
          (with_state self (with_outage (state self) (Some out)) (channels self))
  | None => self
  end.

(** ** Closing *)

(** [Reader::try_close]: [None] when a stream reads the source, else the
    closed reader, whose key leaves the registry in the same step
    ([Registry.v]). *)
Definition try_close (self : Reader) : option Reader :=
  match subscribers (state self) with
  | _ :: _ => None
  | [] => Some (with_closed self)
  end.

(** [Reader::close], likewise. *)
Definition close (error : option MediaError) (self : Reader) : Reader :=
  let self := broadcast (FeedEnd error) (with_closed self) in
  with_state self (with_subscribers (state self) []) (channels self).

(** ** A stream's own thread *)

(** [feed.recv()], when something was sent and the last feed is accounted
    for; a stream whose sender is gone and whose queue is empty is at its
    end. *)
Definition receive (stream : Z) (self : Reader) : Reader :=
  match channels self !! stream with
  | Some channel =>
      match receiving channel, in_hand channel, queue channel with
      | true, None, feed :: queue =>
          with_state self (state self)
            (<[stream := {| queue := queue; pending := pending channel; receiving := true;
                            in_hand := Some feed |}]> (channels self))
      | _, _, _ => self
      end
  | None => self
  end.

(** The first thing both consumers do with what they took: a packet is
    counted off [pending]. *)
Definition account (stream : Z) (self : Reader) : Reader :=
  match channels self !! stream with
  | Some channel =>
      match in_hand channel with
      | Some feed =>
          let pending := if is_packet feed then u64 (pending channel - 1)
                         else pending channel in
          with_state self (state self)
            (<[stream := {| queue := queue channel; pending := pending;
                            receiving := receiving channel; in_hand := None |}]>
               (channels self))
      | None => self
      end
  | None => self
  end.

(** The stream dropping its receiver, with what was queued in it. *)
Definition hang_up (stream : Z) (self : Reader) : Reader :=
  match channels self !! stream with
  | Some channel =>
      with_state self (state self)
        (<[stream := {| queue := []; pending := pending channel; receiving := false;
                        in_hand := in_hand channel |}]> (channels self))
  | None => self
  end.

(** ** Everything that happens to a reader, in any order *)

Inductive ReaderEvent :=
  | Join
  | Leave (stream : Z) (now : Z)
  | Receive (stream : Z)
  | Account (stream : Z)
  | HangUp (stream : Z)
  | Touch (now : Z)
  | PublishTrack (next : OwnedTrack)
  | Publish (packet : MediaPacket)
  | Received (now : Z)
  | LostSource (error : option MediaError) (now : Z)
  | Schedule (delay : Z)
  | TryClose
  | Close (error : option MediaError).

Definition step (self : Reader) (event : ReaderEvent) : Reader :=
  match event with
  | Join => fst (join self)
  | Leave stream now => leave stream now self
  | Receive stream => receive stream self
  | Account stream => account stream self
  | HangUp stream => hang_up stream self
  | Touch now => touch self now
  | PublishTrack next => publish_track next self
  | Publish packet => publish packet self
  | Received now => received now self
  | LostSource error now => reader_lost error now self
  | Schedule delay => schedule delay self
  | TryClose => default self (try_close self)
  | Close error => close error self
  end.

Definition run_reader (self : Reader) (events : list ReaderEvent) : Reader :=
  foldl step self events.
End reader.
