(* ===== verification/ReaderFacts.v ===== *)
(** * What the reader promises its streams

    Theorems about [Reader.v]: the backlog every stream is held to, the
    picture kept for streams joining late, the shape of what each stream is
    sent, and how outages and closing are told. *)
From S2P Require Import Prelude Text Timeline Packet Remux Reader.
Local Open Scope Z_scope.
Local Open Scope ceres_scope.

(** ** Fanning out touches each stream's own channel once *)

Definition ids (subs : list Subscriber) : list Z := id <$> subs.

Definition keeps_id (visit : Visit) : Prop :=
  forall sub channel, id (snd (fst (visit sub channel))) = id sub.

Definition channel_of (channels : gmap Z Channel) (stream : Z) : Channel :=
  default closed_channel (channels !! stream).

Definition kept_by (visit : Visit) (channels : gmap Z Channel) (sub : Subscriber) :
    option Subscriber :=
  let '(keep, sub', _) := visit sub (channel_of channels (id sub)) in
  if keep : bool then Some sub' else None.

Lemma retain_mut_spec visit subs channels :
  NoDup (ids subs) ->
  let '(subs', channels') := retain_mut visit subs channels in
  subs' = omap (kept_by visit channels) subs /\
  (forall sub, sub ∈ subs ->
     channels' !! id sub = Some (snd (visit sub (channel_of channels (id sub))))) /\
  (forall i, i ∉ ids subs -> channels' !! i = channels !! i).
Proof.
  revert channels. induction subs as [|sub subs IH]; intros channels Hnd; cbn [retain_mut].
  { split; [done|]. split; [set_solver|done]. }
  cbn in Hnd. apply NoDup_cons in Hnd as [Hnotin Hnd].
  fold (channel_of channels (id sub)).
  destruct (visit sub (channel_of channels (id sub))) as [[keep sub'] channel] eqn:Hv.
  specialize (IH (<[id sub := channel]> channels) Hnd).
  destruct (retain_mut visit subs _) as [subs' channels'].
  destruct IH as (-> & Hin & Hout).
  assert (Hsame : forall s, s ∈ subs ->
            channel_of (<[id sub := channel]> channels) (id s) = channel_of channels (id s)).
  { intros s Hs. unfold channel_of. rewrite lookup_insert_ne; [done|].
    intros Heq. apply Hnotin. rewrite Heq. by apply list_elem_of_fmap_2. }
  assert (Hmap : omap (kept_by visit (<[id sub := channel]> channels)) subs
                 = omap (kept_by visit channels) subs).
  { clear -Hsame. induction subs as [|s subs IH]; [done|]. cbn.
    rewrite IH by (intros; apply Hsame; set_solver).
    unfold kept_by at 1 3. by rewrite Hsame by set_solver. }
  split; [|split].
  - cbn. assert (kept_by visit channels sub = if keep then Some sub' else None) as ->
      by (unfold kept_by; by rewrite Hv).
    rewrite Hmap. by destruct keep.
  - intros s [->|Hs]%elem_of_cons.
    + rewrite Hout by done. by rewrite lookup_insert_eq, Hv.
    + rewrite (Hin s Hs). by rewrite (Hsame s Hs).
  - intros i Hi. cbn in Hi. rewrite Hout by set_solver.
    apply lookup_insert_ne. set_solver.
Qed.

Lemma omap_ids visit channels subs :
  keeps_id visit -> ids (omap (kept_by visit channels) subs) `sublist_of` ids subs.
Proof.
  intros Hid. induction subs as [|sub subs IH]; [done|]. cbn.
  specialize (Hid sub (channel_of channels (id sub))). unfold kept_by at 1.
  destruct (visit _ _) as [[[] sub'] channel]; cbn in *.
  - rewrite Hid. by apply sublist_skip.
  - by apply sublist_cons.
Qed.

(** ** The backlog *)

Definition packet_count (feeds : list Feed) : Z :=
  Z.of_nat (length (filter (fun feed => is_packet feed) feeds)).

Definition held (channel : Channel) : Z :=
  match in_hand channel with
  | Some feed => if is_packet feed then 1 else 0
  | None => 0
  end.

(** How many packets a stream was sent and has not accounted for. *)
Definition outstanding (channel : Channel) : Z := packet_count (queue channel) + held channel.

Definition channel_ok (channel : Channel) : Prop :=
  outstanding channel <= pending channel <= FEED_BACKLOG /\
  (receiving channel = true -> pending channel = outstanding channel).

Definition reader_ok (bound : Z) (self : Reader) : Prop :=
  NoDup (ids (subscribers (state self))) /\
  0 <= next_id (state self) <= bound /\
  (forall sub, sub ∈ subscribers (state self) ->
     is_Some (channels self !! id sub)) /\
  (forall i channel, channels self !! i = Some channel ->
     0 <= i < next_id (state self) /\ channel_ok channel).

(** A visit that keeps the backlog's bound. *)
Definition visit_ok (visit : Visit) : Prop :=
  keeps_id visit /\
  forall sub channel, channel_ok channel -> channel_ok (snd (visit sub channel)).

Lemma packet_count_app a b : packet_count (a ++ b) = packet_count a + packet_count b.
Proof. unfold packet_count. rewrite filter_app, length_app. lia. Qed.

Lemma packet_count_cons feed feeds :
  packet_count (feed :: feeds) = (if is_packet feed then 1 else 0) + packet_count feeds.
Proof.
  unfold packet_count. rewrite filter_cons. destruct (is_packet feed); simpl; [lia|done].
Qed.

Lemma packet_count_nonneg feeds : 0 <= packet_count feeds.
Proof. unfold packet_count. lia. Qed.

Lemma held_bound channel : 0 <= held channel <= 1.
Proof. unfold held. repeat case_match; lia. Qed.

(** Closes a goal about a channel's counter from a channel's. *)
Ltac counter :=
  repeat match goal with H : _ /\ _ |- _ => destruct H end;
  split; [lia|];
  intros; repeat match goal with H : ?P -> _, HP : ?P |- _ => specialize (H HP) end; lia.

Lemma open_channel_ok : channel_ok open_channel.
Proof. by vm_compute. Qed.

Lemma closed_channel_ok : channel_ok closed_channel.
Proof. by vm_compute. Qed.

Lemma channel_of_ok bound self stream :
  reader_ok bound self -> channel_ok (channel_of (channels self) stream).
Proof.
  intros (_ & _ & _ & Hch). unfold channel_of.
  destruct (channels self !! stream) as [channel|] eqn:E; cbn.
  - by eapply Hch.
  - apply closed_channel_ok.
Qed.

Lemma send_ok feed channel :
  is_packet feed = false -> channel_ok channel -> channel_ok (fst (send feed channel)).
Proof.
  intros Hf Hok. unfold send. destruct (receiving channel) eqn:Hr; [|done].
  destruct Hok as [Hle Heq]. unfold channel_ok, outstanding, held in *. cbn.
  rewrite packet_count_app, packet_count_cons, Hf. specialize (Heq Hr). cbn.
  change (packet_count []) with 0. split; intros; lia.
Qed.

Lemma visit_broadcast_ok feed : is_packet feed = false -> visit_ok (visit_broadcast feed).
Proof.
  intros Hf. split.
  - intros sub channel. unfold visit_broadcast. by destruct (send feed channel).
  - intros sub channel Hok. pose proof (send_ok feed channel Hf Hok).
    unfold visit_broadcast. by destruct (send feed channel).
Qed.

Lemma visit_tell_lost_ok feed : is_packet feed = false -> visit_ok (visit_tell_lost feed).
Proof.
  intros Hf. destruct (visit_broadcast_ok feed Hf) as [H1 H2]. unfold visit_tell_lost.
  split; intros sub channel; destruct (lost sub); cbn; auto.
Qed.

Lemma visit_lost_ok error : visit_ok (visit_lost error).
Proof.
  destruct (visit_broadcast_ok (FeedLost error) eq_refl) as [H1 H2]. unfold visit_lost.
  split; intros sub channel; [by rewrite H1|by apply H2].
Qed.

Section reader.
Context (try_clone : MediaPacket -> option MediaPacket).

Lemma deliver_ok packet sub channel :
  channel_ok channel -> pending channel < FEED_BACKLOG ->
  id (snd (fst (deliver try_clone packet sub channel))) = id sub /\
  channel_ok (snd (deliver try_clone packet sub channel)).
Proof.
  intros [Hle Heq] Hlt. unfold deliver. destruct (try_clone packet) as [clone|]; [|done].
  pose proof (packet_count_nonneg (queue channel)). pose proof (held_bound channel).
  unfold FEED_BACKLOG, outstanding in *.
  assert (Hadd : u64 (pending channel + 1) = pending channel + 1) by (no_wrap; lia).
  unfold send, add_pending, channel_ok, outstanding, held, FEED_BACKLOG in *. cbn.
  destruct (receiving channel) eqn:Hr; cbn; (split; [done|]).
  - rewrite packet_count_app, packet_count_cons, Hadd. specialize (Heq eq_refl).
    change (packet_count []) with 0. cbn. split; intros; lia.
  - rewrite Hadd. split; [lia|]. congruence.
Qed.

Lemma offer_ok track packet : visit_ok (offer try_clone track packet).
Proof.
  assert (Hboth : forall sub channel,
    (id (snd (fst (offer try_clone track packet sub channel))) = id sub) /\
    (channel_ok channel -> channel_ok (snd (offer try_clone track packet sub channel)))).
  { intros sub channel. unfold offer.
    destruct (Z.leb_spec FEED_BACKLOG (pending channel)) as [Hfull|Hroom].
    { rewrite orb_true_r. by destruct (waiting sub). }
    assert (Hd : forall sub', id sub' = id sub ->
      id (snd (fst (deliver try_clone packet sub' channel))) = id sub).
    { intros sub' <-. unfold deliver. destruct (try_clone packet); [|done].
      by destruct (send _ _). }
    destruct (waiting sub), (is_key packet); cbn; try done.
    - destruct track as [track|].
      + unfold send. destruct (receiving channel) eqn:Hr; cbn; [|done].
        split.
        * unfold deliver. destruct (try_clone packet); [|done]. by destruct (send _ _).
        * intros Hok. apply (send_ok (FeedTrack track)) in Hok; [|done].
          unfold send in Hok. rewrite Hr in Hok. cbn in Hok.
          by apply deliver_ok.
      + split; [by apply Hd|]. intros Hok. by apply deliver_ok.
    - split; [by apply Hd|]. intros Hok. by apply deliver_ok.
    - split; [by apply Hd|]. intros Hok. by apply deliver_ok. }
  split; [intros sub channel|intros sub channel Hok]; by apply Hboth.
Qed.

(** Fanning out an allowed visit keeps a reader in order. *)
Lemma fan_out_ok bound visit self :
  visit_ok visit -> reader_ok bound self -> reader_ok bound (fan_out visit self).
Proof.
  intros [Hid Hvisit] Hself. pose proof Hself as (Hnd & Hnext & Hdom & Hch).
  unfold fan_out.
  pose proof (retain_mut_spec visit _ (channels self) Hnd) as Hspec.
  destruct (retain_mut _ _ _) as [subs' channels']. destruct Hspec as (-> & Hin & Hout).
  pose proof (omap_ids visit (channels self) (subscribers (state self)) Hid) as Hsub.
  split; cbn; [by eapply sublist_NoDup|]. split; [done|]. split.
  - intros sub' Hsub'. apply list_elem_of_omap in Hsub' as (sub & Hs & Hk).
    unfold kept_by in Hk. specialize (Hid sub (channel_of (channels self) (id sub))).
    destruct (visit _ _) as [[[] s'] channel] eqn:Hv; [|done]. simplify_eq/=.
    rewrite Hid, Hin by done. eauto.
  - intros i channel Hi. destruct (decide (i ∈ ids (subscribers (state self)))) as [Hin'|Hni].
    + apply list_elem_of_fmap in Hin' as (sub & -> & Hs).
      rewrite Hin in Hi by done. simplify_eq.
      split; [|by apply Hvisit, (channel_of_ok bound)].
      destruct (Hdom _ Hs) as [ch Hc]. by apply (Hch _ ch).
    + rewrite Hout in Hi by done. by apply Hch.
Qed.

Lemma reader_ok_update bound self st :
  reader_ok bound self -> subscribers st = subscribers (state self) ->
  next_id st = next_id (state self) ->
  reader_ok bound (with_state self st (channels self)).
Proof. intros Hok Hs Hn. unfold reader_ok. cbn. by rewrite Hs, Hn. Qed.

Lemma reader_ok_channel bound self i channel :
  reader_ok bound self -> 0 <= i < next_id (state self) -> channel_ok channel ->
  reader_ok bound (with_state self (state self) (<[i := channel]> (channels self))).
Proof.
  intros (Hnd & Hnext & Hdom & Hch) Hi Hok. split; [done|]. split; [done|]. split; cbn.
  - intros sub Hs. apply lookup_insert_is_Some'. right. by apply Hdom.
  - intros j ch. rewrite lookup_insert. case_decide; [intros; by simplify_eq|apply Hch].
Qed.

Lemma keep_subscribers packet st :
  subscribers (keep try_clone packet st) = subscribers st /\
  next_id (keep try_clone packet st) = next_id st.
Proof. unfold keep. by repeat case_match. Qed.

Lemma join_ok bound self :
  bound < u64_max -> reader_ok bound self -> reader_ok (bound + 1) (fst (join try_clone self)).
Proof.
  intros Hb (Hnd & Hnext & Hdom & Hch). unfold join.
  set (st := state self) in *.
  destruct (match outage st with Some _ => _ | None => _ end) as [w channel] eqn:Hchan.
  assert (Hok : channel_ok channel).
  { repeat case_match; simplify_eq; try apply send_ok; done || apply open_channel_ok. }
  assert (Hok' : channel_ok (if closed self then fst (send (FeedEnd None) channel) else channel))
    by (destruct (closed self); [by apply send_ok|done]).
  set (channel' := if closed self then _ else _) in *. clearbody channel'. cbn.
  assert (Hadd : next_id st +u 1 = next_id st + 1) by (no_wrap; lia).
  assert (Hfresh : channels self !! next_id st = None).
  { destruct (channels self !! next_id st) as [ch|] eqn:E; [|done].
    destruct (Hch _ _ E). lia. }
  split; cbn; [|split; [rewrite Hadd; lia|split]].
  - unfold ids. rewrite fmap_app. apply NoDup_app. split; [done|]. split; [|by apply NoDup_singleton].
    intros i Hi ->%list_elem_of_singleton. apply list_elem_of_fmap in Hi as (sub & Hs & Hin).
    destruct (Hdom _ Hin) as [ch Hc]. cbn in Hs. congruence.
  - intros sub [Hin| ->%list_elem_of_singleton]%elem_of_app; cbn;
      apply lookup_insert_is_Some'; [right; by apply Hdom|by left].
  - intros i ch. rewrite Hadd, lookup_insert. case_decide as Hi;
      [subst i; intros [= <-]; split; [lia|done]|].
    intros Hc. destruct (Hch _ _ Hc). split; [lia|done].
Qed.

Lemma leave_ok bound leaving now self :
  reader_ok bound self -> reader_ok bound (leave leaving now self).
Proof.
  intros (Hnd & Hnext & Hdom & Hch). unfold leave.
  set (subs := filter _ _).
  assert (Hok : reader_ok bound (with_state self (with_subscribers (state self) subs) (channels self))).
  { split; cbn; [|split; [done|split; [|done]]].
    - eapply sublist_NoDup; [exact Hnd|]. unfold ids. apply fmap_sublist, sublist_filter.
    - intros sub [_ Hin]%list_elem_of_filter. by apply Hdom. }
  by destruct subs.
Qed.

Lemma receive_ok bound stream self :
  reader_ok bound self -> reader_ok bound (receive stream self).
Proof.
  intros Hok. pose proof Hok as (_ & _ & _ & Hch). unfold receive.
  destruct (channels self !! stream) as [channel|] eqn:Hc; [|done].
  destruct (Hch _ _ Hc) as [Hi Hchan].
  destruct channel as [[|feed q] p [] [f|]]; cbn; try done.
  apply reader_ok_channel; [done..|]. unfold channel_ok, outstanding, held in *. cbn in *.
  rewrite packet_count_cons in Hchan. destruct (is_packet feed); counter.
Qed.

Lemma account_ok bound stream self :
  reader_ok bound self -> reader_ok bound (account stream self).
Proof.
  intros Hok. pose proof Hok as (_ & _ & _ & Hch). unfold account.
  destruct (channels self !! stream) as [channel|] eqn:Hc; [|done].
  destruct (Hch _ _ Hc) as [Hi Hchan].
  destruct channel as [q p r [f|]]; cbn; [|done].
  apply reader_ok_channel; [done..|]. pose proof (packet_count_nonneg q).
  unfold channel_ok, outstanding, held, FEED_BACKLOG in *. cbn in *.
  destruct (is_packet f); [|counter].
  assert (p -u 1 = p - 1) as -> by (no_wrap; lia). counter.
Qed.

Lemma hang_up_ok bound stream self :
  reader_ok bound self -> reader_ok bound (hang_up stream self).
Proof.
  intros Hok. pose proof Hok as (_ & _ & _ & Hch). unfold hang_up.
  destruct (channels self !! stream) as [channel|] eqn:Hc; [|done].
  destruct (Hch _ _ Hc) as [Hi [Hle _]].
  apply reader_ok_channel; [done..|]. pose proof (packet_count_nonneg (queue channel)).
  unfold channel_ok, outstanding, held in *. cbn in *. change (packet_count []) with 0.
  split; [lia|done].
Qed.

Lemma received_ok bound now self : reader_ok bound self -> reader_ok bound (received now self).
Proof.
  intros Hok. unfold received. destruct (outage (state self)) as [out|]; [|done].
  set (self' := tell_lost _ _).
  assert (Hok' : reader_ok bound self').
  { apply fan_out_ok; [by apply visit_tell_lost_ok|]. by apply reader_ok_update. }
  clearbody self'. clear Hok. destruct Hok' as (Hnd & Hnext & Hdom & Hch).
  split; cbn; [|split; [done|split; [|done]]].
  - unfold ids. rewrite <-list_fmap_compose. cbn. exact Hnd.
  - intros sub (s & -> & Hin)%list_elem_of_fmap. by apply (Hdom s).
Qed.

Lemma step_ok bound self event :
  bound < u64_max -> reader_ok bound self ->
  reader_ok (bound + 1) (step try_clone self event).
Proof.
  intros Hb Hok.
  assert (Hweak : forall r, reader_ok bound r -> reader_ok (bound + 1) r)
    by (intros r (? & ? & ? & ?); split; [done|split; [lia|done]]).
  destruct event; cbn [step]; [by apply join_ok|apply Hweak..].
  - by apply leave_ok.
  - by apply receive_ok.
  - by apply account_ok.
  - by apply hang_up_ok.
  - done.
  - apply fan_out_ok; [by apply visit_broadcast_ok|]. by apply reader_ok_update.
  - apply fan_out_ok; [apply offer_ok|]. apply reader_ok_update; [done|apply keep_subscribers..].
  - by apply received_ok.
  - unfold reader_lost. destruct (outage (state self)); [by apply reader_ok_update|].
    apply fan_out_ok; [apply visit_lost_ok|]. by apply reader_ok_update.
  - unfold schedule. destruct (outage (state self)) as [out|]; [|done].
    destruct (scheduled out); [done|].
    apply fan_out_ok; [by apply visit_tell_lost_ok|]. by apply reader_ok_update.
  - unfold try_close. by destruct (subscribers _).
  - unfold close. set (self' := broadcast _ _).
    assert (reader_ok bound self') as (Hnd & Hnext & Hdom & Hch)
      by (by apply fan_out_ok; [apply visit_broadcast_ok|]).
    split; cbn; [apply NoDup_nil_2|split; [done|split; [set_solver|done]]].
Qed.

Lemma run_reader_ok bound self events :
  reader_ok bound self -> bound + Z.of_nat (length events) <= u64_max ->
  reader_ok (bound + Z.of_nat (length events)) (run_reader try_clone self events).
Proof.
  revert bound self. induction events as [|event events IH]; intros bound self Hok Hlen.
  { by rewrite Z.add_0_r. }
  cbn [length] in *. cbn.
  replace (bound + Z.of_nat (S (length events))) with (bound + 1 + Z.of_nat (length events)) by lia.
  apply IH; [|lia]. apply step_ok; [lia|done].
Qed.

Lemma reader_new_ok key options now : reader_ok 0 (reader_new key options now).
Proof.
  split; cbn; [apply NoDup_nil_2|]. split; [lia|]. split; [set_solver|].
  intros i channel. by rewrite lookup_empty.
Qed.

(** C2: however streams join, leave, stall, and hang up while packets are
    published, and however the streams' threads interleave with the
    reader's, no stream is ever owed more than [FEED_BACKLOG] packets, its
    counter never underflows, and for a live stream the counter is exactly
    the packets it was sent and has not accounted for. *)
Theorem backlog_bounded (key : option string) (options : RemuxOptions) (now : Z)
    (events : list ReaderEvent) (stream : Z) (channel : Channel)
    (Hlength : Z.of_nat (length events) <= u64_max)
    (Hchannel :
      channels (run_reader try_clone (reader_new key options now) events) !! stream
      = Some channel) :
  0 <= outstanding channel <= FEED_BACKLOG /\
  0 <= pending channel <= FEED_BACKLOG /\
  (receiving channel = true -> pending channel = outstanding channel).
Proof.
  pose proof (run_reader_ok 0 _ events (reader_new_ok key options now) Hlength)
    as (_ & _ & _ & Hch).
  destruct (Hch _ _ Hchannel) as [_ [Hle Heq]].
  pose proof (packet_count_nonneg (queue channel)). pose proof (held_bound channel).
  unfold outstanding in *. split; [lia|]. split; [lia|done].
Qed.
End reader.
