(* ===== verification/ReaderPicture.v ===== *)
(** * What a stream joining late starts from, and what every stream is sent

    Theorems about [join], [publish] and [publish_track] of [Reader.v]. *)
From S2P Require Import Prelude Text Timeline Packet Remux Reader ReaderFacts.
Local Open Scope Z_scope.
Local Open Scope ceres_scope.

(** ** The specification of the picture kept *)

(** The packets from the latest keyframe on, all of them before the first. *)
Definition since_key (packets : list MediaPacket) : list MediaPacket :=
  foldl (fun kept packet => if is_key packet then [packet] else kept ++ [packet]) [] packets.

Definition total_size (packets : list MediaPacket) : Z :=
  foldr (fun packet total => size packet + total) 0 packets.

(** FFmpeg counts a packet's bytes in an [int]. *)
Definition sized (packet : MediaPacket) : Prop := size packet <= 2147483647.

Lemma total_size_cons packet packets :
  total_size (packet :: packets) = size packet + total_size packets.
Proof. done. Qed.

Lemma total_size_app a b : total_size (a ++ b) = total_size a + total_size b.
Proof.
  induction a as [|packet a IH]; [done|].
  rewrite <-app_comm_cons, !total_size_cons, IH. lia.
Qed.

Lemma total_size_single packet : total_size [packet] = size packet.
Proof. rewrite total_size_cons. change (total_size []) with 0. lia. Qed.

Lemma total_size_nonneg packets : 0 <= total_size packets.
Proof.
  induction packets as [|packet packets IH]; [done|]. rewrite total_size_cons.
  unfold size. lia.
Qed.

Lemma since_key_snoc packets packet :
  since_key (packets ++ [packet]) =
    if is_key packet then [packet] else since_key packets ++ [packet].
Proof. unfold since_key. by rewrite foldl_app. Qed.

(** Once there is a keyframe, the picture starts with one. *)
Lemma since_key_head packets :
  Exists (fun packet => is_key packet = true) packets ->
  exists first rest, since_key packets = first :: rest /\ is_key first = true.
Proof.
  induction packets as [|packet packets IH] using rev_ind; [by intros ?%Exists_nil|].
  rewrite since_key_snoc, Exists_app. destruct (is_key packet) eqn:Hk; [eauto|].
  intros [(first & rest & -> & Hf)%IH|[?|?%Exists_nil]%Exists_cons];
    [|congruence|done]. exists first, (rest ++ [packet]). done.
Qed.

Definition picture (packets : list MediaPacket) : option (list MediaPacket) :=
  if decide (total_size (since_key packets) <= GOP_CACHE_BYTES)
  then Some (since_key packets) else None.

(** The state holds the picture [packets] make. *)
Definition holds_picture (packets : list MediaPacket) (st : State) : Prop :=
  match picture packets with
  | Some kept => gop_valid st = true /\ gop st = kept /\ gop_bytes st = total_size kept
  | None => gop_valid st = false
  end.

Section reader.
Context (try_clone : MediaPacket -> option MediaPacket).
(** FFmpeg's references do not run out of memory, and a reference has the
    packet's own data and properties. *)
Hypothesis try_clone_ok : forall packet, try_clone packet = Some packet.

Lemma fan_out_state visit self :
  gop (state (fan_out visit self)) = gop (state self) /\
  gop_bytes (state (fan_out visit self)) = gop_bytes (state self) /\
  gop_valid (state (fan_out visit self)) = gop_valid (state self) /\
  track (state (fan_out visit self)) = track (state self) /\
  outage (state (fan_out visit self)) = outage (state self) /\
  closed (fan_out visit self) = closed self.
Proof. unfold fan_out. by destruct (retain_mut _ _ _). Qed.

Lemma keep_holds packets packet st :
  sized packet -> holds_picture packets st ->
  holds_picture (packets ++ [packet]) (keep try_clone packet st).
Proof.
  unfold holds_picture, picture, keep, sized, GOP_CACHE_BYTES.
  rewrite since_key_snoc, try_clone_ok. intros Hsize Hst.
  assert (0 <= size packet) by (unfold size; lia).
  destruct (is_key packet); cbn [with_gop gop gop_bytes gop_valid].
  - rewrite total_size_single, Z.add_0_l.
    assert (u64 (size packet) = size packet) as -> by (no_wrap; lia).
    clear Hst. destruct (Z.ltb_spec 16777216 (size packet)); case_decide; try lia; [done|].
    by rewrite total_size_single.
  - pose proof (total_size_nonneg (since_key packets)).
    rewrite total_size_app, total_size_single.
    destruct (decide (total_size (since_key packets) <= 16777216)) as [Hfits|].
    + destruct Hst as (-> & -> & ->).
      assert (u64 (total_size (since_key packets) + size packet)
              = total_size (since_key packets) + size packet) as -> by (no_wrap; lia).
      destruct (Z.ltb_spec 16777216 (total_size (since_key packets) + size packet));
        case_decide; try lia; [done|].
      by rewrite total_size_app, total_size_single.
    + rewrite Hst. by rewrite decide_False by lia.
Qed.

Definition publish_all (packets : list MediaPacket) (self : Reader) : Reader :=
  run_reader try_clone self (Publish <$> packets).

Lemma keep_rest packet st :
  track (keep try_clone packet st) = track st /\
  outage (keep try_clone packet st) = outage st.
Proof. unfold keep. by repeat case_match. Qed.

Lemma publish_all_holds packets self :
  Forall sized packets -> holds_picture [] (state self) ->
  holds_picture packets (state (publish_all packets self)) /\
  track (state (publish_all packets self)) = track (state self) /\
  outage (state (publish_all packets self)) = outage (state self) /\
  closed (publish_all packets self) = closed self.
Proof.
  intros Hsized Hstart. unfold publish_all, run_reader.
  induction packets as [|packet packets IH] using rev_ind; [done|].
  apply Forall_app in Hsized as [Hsized Hpacket]. rewrite Forall_singleton in Hpacket.
  rewrite fmap_app, foldl_app. cbn [fmap list_fmap foldl step].
  destruct (IH Hsized) as (Hh & <- & <- & <-). clear IH.
  set (mid := foldl _ self _) in *. clearbody mid. unfold publish.
  destruct (fan_out_state (offer try_clone (track (state (with_state mid
    (keep try_clone packet (state mid)) (channels mid)))) packet)
    (with_state mid (keep try_clone packet (state mid)) (channels mid)))
    as (E1 & E2 & E3 & E4 & E5 & E6).
  destruct (keep_rest packet (state mid)) as [Kt Ko].
  split; [|split; [|split]]; [|rewrite E4; exact Kt|rewrite E5; exact Ko|exact E6].
  pose proof (keep_holds packets packet (state mid) Hpacket Hh) as Hk.
  unfold holds_picture in *. rewrite E1, E2, E3. exact Hk.
Qed.

(** What one channel holds after [join], the new stream being [snd]. *)
Definition joined_channel (self : Reader) : option Channel :=
  let '(self, stream) := join try_clone self in channels self !! stream.

Definition joined_waiting (self : Reader) : option bool :=
  waiting <$> last (subscribers (state (fst (join try_clone self)))).

(** C3: a stream joining a connected source starts from the packets since
    the latest keyframe, exactly those and in order, as long as they fit the
    cache; past it, it is told the track and waits for the next keyframe.
    The packets it starts from begin with a keyframe as soon as the
    connection has sent one. *)
Theorem late_joiner_picture (self : Reader) (next : OwnedTrack) (packets : list MediaPacket)
    (Hopen : closed self = false) (Hup : outage (state self) = None)
    (Hsized : Forall sized packets) :
  let live := publish_all packets (publish_track next self) in
  match picture packets with
  | Some kept =>
      queue <$> joined_channel live = Some [FeedSnapshot next kept] /\
      joined_waiting live = Some false /\
      (Exists (fun packet => is_key packet = true) packets ->
       exists first rest, kept = first :: rest /\ is_key first = true)
  | None =>
      queue <$> joined_channel live = Some [FeedTrack next] /\
      joined_waiting live = Some true
  end.
Proof.
  intros live.
  destruct (fan_out_state (visit_broadcast (FeedTrack next))
    (with_state self
       {| subscribers := subscribers (state self); next_id := next_id (state self);
          track := Some next; gop := []; gop_bytes := 0; gop_valid := true;
          outage := outage (state self) |} (channels self))) as (E1 & E2 & E3 & E4 & E5 & E6).
  assert (Hstart : holds_picture [] (state (publish_track next self))).
  { unfold holds_picture, publish_track, broadcast. cbn.
    rewrite E1, E2, E3. done. }
  destruct (publish_all_holds packets _ Hsized Hstart) as (Hh & Ht & Ho & Hc).
  fold live in Hh, Ht, Ho, Hc. unfold publish_track, broadcast in Ht, Ho, Hc.
  rewrite E4 in Ht. rewrite E5 in Ho. rewrite E6 in Hc. cbn in *.
  rewrite Hup in Ho. rewrite Hopen in Hc.
  assert (Homap : forall l : list MediaPacket, omap try_clone l = l)
    by (intros l; induction l as [|p l IH]; [done|]; cbn; by rewrite try_clone_ok, IH).
  clear Hstart. unfold joined_channel, joined_waiting, join.
  unfold holds_picture, picture in *. rewrite Ht, Ho, Hc.
  destruct (decide (total_size (since_key packets) <= GOP_CACHE_BYTES)).
  - destruct Hh as (-> & -> & _). rewrite Homap. cbn. rewrite lookup_insert_eq, last_snoc.
    split; [done|]. split; [done|]. apply since_key_head.
  - rewrite Hh. cbn. rewrite lookup_insert_eq, last_snoc. done.
Qed.

(** ** What one stream is sent of each packet *)

(** What an offer appended to the channel. *)
Definition sent_to (before after : Channel) : list Feed :=
  drop (length (queue before)) (queue after).

(** The feeds one stream is sent, packet by packet: each packet comes with
    the channel as the stream's own thread left it by then. *)
Fixpoint deliveries (track : option OwnedTrack) (sub : Subscriber)
    (script : list (Channel * MediaPacket)) : list (list Feed) :=
  match script with
  | [] => []
  | (channel, packet) :: script =>
      let '(_, sub, channel') := offer try_clone track packet sub channel in
      sent_to channel channel' :: deliveries track sub script
  end.

Definition track_feeds (track : option OwnedTrack) : list Feed :=
  match track with Some track => [FeedTrack track] | None => [] end.

Lemma sent_to_send feed channel :
  receiving channel = true -> sent_to channel (fst (send feed channel)) = [feed].
Proof. intros Hr. unfold sent_to, send. rewrite Hr. cbn. by rewrite drop_app_length. Qed.

(** One offer: what is sent and whether the stream then waits. *)
Lemma offer_spec track packet sub channel :
  receiving channel = true ->
  let '(kept, sub', channel') := offer try_clone track packet sub channel in
  let full := FEED_BACKLOG <=? pending channel in
  kept = true /\ id sub' = id sub /\
  sent_to channel channel' =
    (if waiting sub then
       if negb (is_key packet) || full then [] else track_feeds track ++ [FeedPacket packet]
     else if full then [] else [FeedPacket packet]) /\
  waiting sub' = (if waiting sub then negb (is_key packet) || full else full).
Proof.
  intros Hr. unfold offer, deliver. rewrite try_clone_ok. unfold sent_to, send, add_pending.
  destruct (waiting sub) eqn:Hw, (FEED_BACKLOG <=? pending channel), (is_key packet), track;
    cbn; rewrite ?Hr; cbn; rewrite ?drop_all, <-?app_assoc, ?drop_app_length; done.
Qed.

(** C4: a stream that skipped packets, because it joined mid-picture or fell
    a whole backlog behind, resumes only at a keyframe and is told the track
    again first, so what it decodes never starts mid-picture; every packet
    it is sent is the one published, once; and a stream that keeps up is
    sent every packet. *)
Theorem delivery_resumes_at_key (track : option OwnedTrack) (sub : Subscriber)
    (script : list (Channel * MediaPacket))
    (Hlive : Forall (fun turn => receiving (fst turn) = true) script) :
  let sent := deliveries track sub script in
  (forall i channel packet feeds,
     script !! i = Some (channel, packet) -> sent !! i = Some feeds ->
     feeds = [] \/ feeds = [FeedPacket packet] \/
     feeds = track_feeds track ++ [FeedPacket packet]) /\
  (forall i channel packet feeds,
     script !! S i = Some (channel, packet) -> sent !! i = Some [] ->
     sent !! S i = Some feeds -> feeds <> [] ->
     is_key packet = true /\ feeds = track_feeds track ++ [FeedPacket packet]) /\
  (waiting sub = false ->
   Forall (fun turn => pending (fst turn) < FEED_BACKLOG) script ->
   sent = (fun turn => [FeedPacket (snd turn)]) <$> script).
Proof.
  revert sub. induction Hlive as [|[channel packet] script Hr Hlive IH]; intros sub sent;
    [done|].
  unfold sent. cbn [deliveries].
  pose proof (offer_spec track packet sub channel Hr) as Hoffer.
  destruct (offer _ _ _ _ _) as [[kept sub'] channel'].
  destruct Hoffer as (_ & _ & Hsent & Hwait). rewrite Hsent.
  specialize (IH sub') as (IHshape & IHresume & IHall). split; [|split].
  - intros [|i] ch p feeds Hi Hf; simplify_eq/=; [|by eauto].
    repeat case_match; auto.
  - intros [|i] ch p feeds Hi Hnil Hf Hne; simplify_eq/=; [|by eauto].
    assert (Hw' : waiting sub' = true)
      by (rewrite Hwait; repeat case_match; try done; by destruct track).
    destruct script as [|[ch' p'] script]; [done|]. apply Forall_cons in Hlive as [Hr' _].
    cbn in Hi. simplify_eq.
    pose proof (offer_spec track p sub' ch Hr') as Hnext. cbn [deliveries] in Hf.
    destruct (offer _ _ _ sub' _) as [[kept' sub''] channel''].
    destruct Hnext as (_ & _ & Hsent' & _). rewrite Hw' in Hsent'. cbn in Hf. simplify_eq.
    rewrite Hsent' in Hne |- *. destruct (is_key p), (FEED_BACKLOG <=? pending ch); by cbn in *.
  - intros Hw Hroom. apply Forall_cons in Hroom as [Hroom Hrest]. cbn in Hroom.
    rewrite Hw in *. rewrite (proj2 (Z.leb_gt _ _) Hroom) in *. cbn. f_equal. by apply IHall.
Qed.
End reader.

(** ** Witnesses *)

Definition sample_track : OwnedTrack :=
  {| parameters := 1; codec_number := 1; extradata := [];
     track_time_base := {| num := 1; den := 90000 |} |}.

Definition sample_packet (key : bool) (pts : Z) : MediaPacket :=
  {| raw_pts := pts; raw_dts := pts; raw_duration := 1; is_key := key; stream := 0;
     data := [0; 0; 1; 101] |}.

Definition sample_reader : Reader := reader_new (Some "cam") remux_options_default 0.

Lemma backlog_bounded_witness :
  0 <= outstanding {| queue := [FeedTrack sample_track; FeedPacket (sample_packet true 0)];
                      pending := 1; receiving := true; in_hand := None |} <= FEED_BACKLOG.
Proof.
  refine (proj1 (backlog_bounded Some (Some "cam") remux_options_default 0
    [Join; PublishTrack sample_track; Publish (sample_packet true 0)] 0 _ _ _));
    [by vm_compute|vm_compute; reflexivity].
Defined.

Lemma late_joiner_picture_witness :
  queue <$> joined_channel Some
    (publish_all Some [sample_packet true 0; sample_packet false 1; sample_packet true 2;
                       sample_packet false 3] (publish_track sample_track sample_reader)) =
  Some [FeedSnapshot sample_track [sample_packet true 2; sample_packet false 3]].
Proof.
  refine (proj1 (late_joiner_picture Some (fun _ => eq_refl) sample_reader sample_track
    [sample_packet true 0; sample_packet false 1; sample_packet true 2;
     sample_packet false 3] eq_refl eq_refl _)).
  repeat (apply Forall_cons; split); try apply Forall_nil_2; unfold sized, size; simpl; lia.
Defined.

Definition live_channel (pending : Z) : Channel :=
  {| queue := []; pending := pending; receiving := true; in_hand := None |}.

Lemma delivery_resumes_at_key_witness :
  is_key (sample_packet true 2) = true /\
  [FeedTrack sample_track; FeedPacket (sample_packet true 2)] =
    track_feeds (Some sample_track) ++ [FeedPacket (sample_packet true 2)].
Proof.
  refine (proj1 (proj2 (delivery_resumes_at_key Some (fun _ => eq_refl) (Some sample_track)
    {| id := 0; waiting := false; lost := false |}
    [(live_channel 256, sample_packet false 0); (live_channel 3, sample_packet false 1);
     (live_channel 2, sample_packet true 2)] _)) 1%nat (live_channel 2) _ _ _ _ _ _);
    try done.
  repeat (apply Forall_cons; split); done.
Defined.

(** A connection that starts in the middle of a group of pictures: the
    packets before its first keyframe are kept, and a stream joining then
    starts from a packet that is no keyframe. *)
Theorem snapshot_before_first_keyframe :
  queue <$> joined_channel Some
    (publish_all Some [sample_packet false 0; sample_packet false 1]
       (publish_track sample_track sample_reader)) =
  Some [FeedSnapshot sample_track [sample_packet false 0; sample_packet false 1]].
Proof. vm_compute. reflexivity. Qed.
