(* ===== verification/ReaderOutage.v ===== *)
(** * How an outage and a closing are told

    Theorems about [reader_lost], [schedule], [received] and [close] of
    [Reader.v]. *)
From S2P Require Import Prelude Text Timeline Packet Remux Reader ReaderFacts.
Local Open Scope Z_scope.
Local Open Scope ceres_scope.

(** Every stream of the reader still has its receiver. *)
Definition all_live (self : Reader) : Prop :=
  forall sub, sub ∈ subscribers (state self) ->
    exists channel, channels self !! id sub = Some channel /\ receiving channel = true.

(** [channel] with [feeds] sent. *)
Definition extend (channel : Channel) (feeds : list Feed) : Channel :=
  {| queue := queue channel ++ feeds; pending := pending channel;
     receiving := receiving channel; in_hand := in_hand channel |}.

Lemma extend_nil channel : extend channel [] = channel.
Proof. destruct channel. unfold extend. cbn. by rewrite app_nil_r. Qed.

Lemma extend_app channel a b : extend (extend channel a) b = extend channel (a ++ b).
Proof. unfold extend. cbn. by rewrite <-app_assoc. Qed.

Lemma send_live feed channel :
  receiving channel = true -> send feed channel = (extend channel [feed], true).
Proof. intros Hr. unfold send, extend. by rewrite Hr. Qed.

(** A visit that keeps every stream, leaving each as [f] and its channel as
    [g]. *)
Lemma fan_out_all (visit : Visit) (f : Subscriber -> Subscriber)
    (g : Subscriber -> Channel -> Channel) self :
  NoDup (ids (subscribers (state self))) ->
  (forall sub channel, sub ∈ subscribers (state self) ->
     channels self !! id sub = Some channel ->
     visit sub channel = (true, f sub, g sub channel)) ->
  (forall sub, sub ∈ subscribers (state self) -> is_Some (channels self !! id sub)) ->
  subscribers (state (fan_out visit self)) = f <$> subscribers (state self) /\
  (forall sub channel, sub ∈ subscribers (state self) ->
     channels self !! id sub = Some channel ->
     channels (fan_out visit self) !! id sub = Some (g sub channel)) /\
  (forall i, i ∉ ids (subscribers (state self)) ->
     channels (fan_out visit self) !! i = channels self !! i).
Proof.
  intros Hnd Hvisit Hdom. unfold fan_out.
  pose proof (retain_mut_spec visit _ (channels self) Hnd) as Hspec.
  destruct (retain_mut _ _ _) as [subs' channels']. destruct Hspec as (-> & Hin & Hout). cbn.
  split; [|split; [|done]].
  - clear Hin Hout Hnd. revert Hvisit Hdom.
    generalize (subscribers (state self)) as subs.
    induction subs as [|sub subs IH]; intros Hvisit Hdom; [done|]. cbn.
    destruct (Hdom sub) as [channel Hc]; [set_solver|].
    unfold kept_by at 1, channel_of. rewrite Hc. cbn.
    rewrite (Hvisit sub channel) by (done || set_solver).
    f_equal. apply IH; intros; [apply Hvisit|apply Hdom]; set_solver.
  - intros sub channel Hs Hc. rewrite Hin by done. unfold channel_of. rewrite Hc. cbn.
    by rewrite (Hvisit sub channel).
Qed.

Lemma fan_out_fields visit self :
  outage (state (fan_out visit self)) = outage (state self) /\
  next_id (state (fan_out visit self)) = next_id (state self) /\
  closed (fan_out visit self) = closed self.
Proof. unfold fan_out. by destruct (retain_mut _ _ _). Qed.

(** ** One outage *)

(** What happens while the source is away: the reader's thread fails another
    attempt and plans the next, or a stream joins. *)
Inductive OutageEvent :=
  | Attempt (error : option MediaError) (now : Z) (delay : Z)
  | LateJoin.

Definition is_attempt (event : OutageEvent) : bool :=
  match event with Attempt _ _ _ => true | LateJoin => false end.

Section reader.
Context (try_clone : MediaPacket -> option MediaPacket).

Definition outage_step (self : Reader) (event : OutageEvent) : Reader :=
  match event with
  | Attempt error now delay => schedule delay (reader_lost error now self)
  | LateJoin => fst (join try_clone self)
  end.

Definition outage_run (self : Reader) (events : list OutageEvent) : Reader :=
  foldl outage_step self events.

(** The reader in an outage that began from [before]: the streams it had
    were told of it, those that joined since wait for the next connection
    and were told nothing. *)
Record in_outage (before : Reader) (told : list Feed) (start count : Z) (self : Reader) :
    Prop := {
  outage_now : exists reason, outage (state self) =
    Some {| since := start; attempts := count; outage_reason := reason;
            scheduled := true |};
  outage_subs : exists late,
    subscribers (state self) =
      ((fun sub => with_lost sub true) <$> subscribers (state before)) ++ late /\
    (forall sub, sub ∈ late -> lost sub = false /\ waiting sub = true /\
       next_id (state before) <= id sub /\
       channels self !! id sub = Some open_channel);
  outage_told : forall sub channel, sub ∈ subscribers (state before) ->
    channels before !! id sub = Some channel ->
    channels self !! id sub = Some (extend channel told);
  outage_closed : closed self = false
}.

Lemma attempt_ok bound self error now delay :
  reader_ok bound self -> reader_ok bound (schedule delay (reader_lost error now self)).
Proof.
  intros Hok.
  assert (Hlost : reader_ok bound (reader_lost error now self)).
  { unfold reader_lost. destruct (outage (state self)); [by apply reader_ok_update|].
    apply fan_out_ok; [apply visit_lost_ok|]. by apply reader_ok_update. }
  unfold schedule. destruct (outage _) as [out|]; [|done]. destruct (scheduled out); [done|].
  apply fan_out_ok; [by apply visit_tell_lost_ok|]. by apply reader_ok_update.
Qed.

Lemma first_attempt bound self error now delay :
  reader_ok bound self -> all_live self -> outage (state self) = None ->
  closed self = false ->
  in_outage self [FeedLost error; FeedNotice (NoticeRetrying delay)] now 1
    (schedule delay (reader_lost error now self)).
Proof.
  intros (Hnd & _ & Hdom & _) Hlive Hup Hopen.
  unfold reader_lost. rewrite Hup.
  set (r0 := with_state self _ (channels self)).
  destruct (fan_out_all (visit_lost error) (fun sub => with_lost sub true)
    (fun _ channel => extend channel [FeedLost error]) r0) as (Hsubs & Hch & _); cbn; try done.
  { intros sub channel Hs Hc. destruct (Hlive _ Hs) as (ch & Hc' & Hr).
    unfold visit_lost, visit_broadcast. rewrite send_live; [done|]. congruence. }
  destruct (fan_out_fields (visit_lost error) r0) as (Ho & Hn & Hcl).
  set (r1 := fan_out _ r0) in *. clearbody r1. cbn in Hsubs, Ho, Hcl.
  unfold schedule. rewrite Ho. cbn.
  set (r2 := with_state r1 _ (channels r1)).
  destruct (fan_out_all (visit_tell_lost (FeedNotice (NoticeRetrying delay))) (fun sub => sub)
    (fun _ channel => extend channel [FeedNotice (NoticeRetrying delay)]) r2)
    as (Hsubs2 & Hch2 & _); cbn.
  { rewrite Hsubs. unfold ids. rewrite <-list_fmap_compose. exact Hnd. }
  { intros sub channel Hs Hc. rewrite Hsubs in Hs.
    apply list_elem_of_fmap in Hs as (s & -> & Hs). destruct (Hlive _ Hs) as (ch & Hc' & Hr).
    unfold visit_tell_lost, visit_broadcast. cbn in *.
    rewrite (Hch _ _ Hs Hc') in Hc. simplify_eq. by rewrite send_live. }
  { intros sub Hs. rewrite Hsubs in Hs. apply list_elem_of_fmap in Hs as (s & -> & Hs).
    destruct (Hlive _ Hs) as (ch & Hc' & _). cbn. eauto. }
  destruct (fan_out_fields (visit_tell_lost (FeedNotice (NoticeRetrying delay))) r2)
    as (Ho2 & Hn2 & Hcl2).
  unfold tell_lost. set (r3 := fan_out _ r2) in *. clearbody r3. cbn in *.
  split.
  - rewrite Ho2. by eexists.
  - exists []. split; [|set_solver]. rewrite Hsubs2, Hsubs, list_fmap_id, app_nil_r. done.
  - intros sub channel Hs Hc.
    specialize (Hch2 (with_lost sub true) (extend channel [FeedLost error])).
    cbn in Hch2. rewrite extend_app in Hch2. apply Hch2; [|by apply Hch].
    rewrite Hsubs. by apply (list_elem_of_fmap_2 (fun sub => with_lost sub true)).
  - congruence.
Qed.

Lemma later_event bound before told start count self event :
  0 <= count -> count + (if is_attempt event then 1 else 0) < 4294967296 ->
  bound < u64_max ->
  reader_ok bound self -> next_id (state before) <= next_id (state self) ->
  (forall sub, sub ∈ subscribers (state before) -> id sub < next_id (state self)) ->
  in_outage before told start count self ->
  in_outage before told start (if is_attempt event then count + 1 else count)
    (outage_step self event) /\
  next_id (state before) <= next_id (state (outage_step self event)) /\
  next_id (state self) <= next_id (state (outage_step self event)).
Proof.
  intros Hcount Hcount' Hb (Hnd & Hnext & Hdom & Hch) Hle Hids
    [(reason & Hout) (late & Hsubs & Hlate) Htold Hopen].
  destruct event as [error now delay|]; cbn [outage_step is_attempt] in *.
  - unfold reader_lost. rewrite Hout. unfold schedule. cbn.
    rewrite Z.mod_small by lia.
    split; [|done]. split; cbn; [by eexists|by exists late|done|done].
  - unfold join. rewrite Hout, Hopen. cbn.
    assert (Hadd : next_id (state self) +u 1 = next_id (state self) + 1) by (no_wrap; lia).
    split; [|rewrite Hadd; lia]. split; cbn; [by eexists| | |done].
    + exists (late ++ [{| id := next_id (state self); waiting := true; lost := false |}]).
      split; [by rewrite Hsubs, app_assoc|].
      intros sub [Hs| ->%list_elem_of_singleton]%elem_of_app; cbn.
      * destruct (Hlate _ Hs) as (? & ? & ? & Hc). split_and!; try done.
        rewrite lookup_insert_ne; [done|]. intros Heq. destruct (Hch _ _ Hc). lia.
      * split_and!; try done. by rewrite lookup_insert_eq.
    + intros sub channel Hs Hc. rewrite lookup_insert_ne; [by apply Htold|].
      specialize (Hids _ Hs). lia.
Qed.

Definition attempt_count (events : list OutageEvent) : Z :=
  Z.of_nat (length (filter (fun event => is_attempt event) events)).

Lemma attempt_count_cons event events :
  attempt_count (event :: events) =
    (if is_attempt event then 1 else 0) + attempt_count events.
Proof.
  unfold attempt_count. rewrite filter_cons.
  destruct event; cbn [is_attempt]; [|done].
  rewrite decide_True by done. cbn [length]. lia.
Qed.

Lemma outage_step_ok bound self event :
  bound < u64_max -> reader_ok bound self -> reader_ok (bound + 1) (outage_step self event).
Proof.
  intros Hb Hok. destruct event; cbn; [|by apply join_ok].
  apply (attempt_ok bound _ error now delay) in Hok as (? & ? & ? & ?).
  split; [done|split; [lia|done]].
Qed.

Lemma outage_run_spec before told start events : forall bound count self,
  0 <= count -> count + attempt_count events <= 4294967295 ->
  bound + Z.of_nat (length events) <= u64_max ->
  reader_ok bound self -> next_id (state before) <= next_id (state self) ->
  (forall sub, sub ∈ subscribers (state before) -> id sub < next_id (state self)) ->
  in_outage before told start count self ->
  in_outage before told start (count + attempt_count events) (outage_run self events) /\
  reader_ok (bound + Z.of_nat (length events)) (outage_run self events).
Proof.
  induction events as [|event events IH]; intros bound count self Hc Hcount Hb Hok Hle Hids Hin.
  { cbn. by rewrite !Z.add_0_r. }
  rewrite attempt_count_cons in *. cbn [length outage_run foldl] in *.
  assert (0 <= attempt_count events) by (unfold attempt_count; lia).
  destruct (later_event bound before told start count self event) as (Hin' & Hle' & Hle'');
    try done; [lia|lia|].
  specialize (IH (bound + 1) (if is_attempt event then count + 1 else count)
    (outage_step self event)).
  destruct IH as [IH1 IH2]; try done.
  - destruct (is_attempt event); lia.
  - destruct (is_attempt event); lia.
  - lia.
  - apply outage_step_ok; [lia|done].
  - intros sub Hs. specialize (Hids _ Hs). lia.
  - replace (count + _) with ((if is_attempt event then count + 1 else count)
      + attempt_count events) by (destruct (is_attempt event); lia).
    replace (bound + _) with (bound + 1 + Z.of_nat (length events)) by lia. done.
Qed.

(** One outage, one telling. However many attempts an outage takes and
    whoever joins meanwhile, every stream that had the picture is told
    exactly three things in order: that the source was lost and why, when
    the first new attempt is due, and, once a packet arrives, how many
    attempts and how long it took. A stream that joined during the outage
    is told nothing of it, and waits for a keyframe. *)
Theorem outage_told_once (bound : Z) (self : Reader) (error : option MediaError)
    (lost_at delay back_at : Z) (events : list OutageEvent)
    (Hok : reader_ok bound self) (Hlive : all_live self)
    (Hup : outage (state self) = None) (Hopen : closed self = false)
    (Hattempts : 1 + attempt_count events <= 4294967295)
    (Hbound : bound + Z.of_nat (length events) <= u64_max) :
  let during := outage_run self (Attempt error lost_at delay :: events) in
  let after := received back_at during in
  outage (state after) = None /\
  (forall sub channel, sub ∈ subscribers (state self) ->
     channels self !! id sub = Some channel ->
     queue <$> channels after !! id sub = Some (queue channel ++
       [FeedLost error; FeedNotice (NoticeRetrying delay);
        FeedNotice (NoticeReconnected (1 + attempt_count events) (back_at - lost_at))])) /\
  (forall sub, sub ∈ subscribers (state after) -> lost sub = false /\
     (next_id (state self) <= id sub ->
      waiting sub = true /\ queue <$> channels after !! id sub = Some [])).
Proof.
  intros during after.
  pose proof (attempt_ok bound self error lost_at delay Hok) as Hok1.
  pose proof (first_attempt bound self error lost_at delay Hok Hlive Hup Hopen) as Hin1.
  pose proof Hok as (Hnd & Hnext & Hdom & Hch).
  assert (Hids : forall sub, sub ∈ subscribers (state self) -> id sub < next_id (state self)).
  { intros sub Hs. destruct (Hdom _ Hs) as [ch Hc]. destruct (Hch _ _ Hc). lia. }
  assert (Hn1 : next_id (state (schedule delay (reader_lost error lost_at self)))
                = next_id (state self)).
  { unfold schedule, reader_lost, tell_lost, fan_out. rewrite Hup.
    destruct (retain_mut _ _ _). cbn. by destruct (retain_mut _ _ _). }
  destruct (outage_run_spec self [FeedLost error; FeedNotice (NoticeRetrying delay)]
    lost_at events bound 1 _ ltac:(lia) Hattempts Hbound Hok1) as [Hin Hokd];
    [lia|intros; rewrite Hn1; by apply Hids|done|].
  assert (Hduring : outage_run (schedule delay (reader_lost error lost_at self)) events
                    = during) by reflexivity.
  rewrite Hduring in *. clearbody during. clear Hin1 Hok1 Hn1 Hduring.
  destruct Hin as [(reason & Hout) (late & Hsubs & Hlate) Htold Hcl].
  destruct Hokd as (Hndd & _ & Hdomd & Hchd).
  unfold after, received. rewrite Hout.
  set (notice := FeedNotice (NoticeReconnected _ _)).
  set (r0 := with_state during (with_outage (state during) None) (channels during)).
  destruct (fan_out_all (visit_tell_lost notice) (fun sub => sub)
    (fun sub channel => if lost sub then extend channel [notice] else channel) r0)
    as (Hs2 & Hc2 & _); cbn; try done.
  { intros sub channel Hs Hc. unfold visit_tell_lost, visit_broadcast.
    change (sub ∈ subscribers (state during)) in Hs.
    rewrite Hsubs in Hs. apply elem_of_app in Hs as [Hs|Hs].
    - apply list_elem_of_fmap in Hs as (s & -> & Hs). cbn in *.
      destruct (Hlive _ Hs) as (ch & Hc' & Hr). rewrite (Htold _ _ Hs Hc') in Hc.
      simplify_eq. by rewrite send_live.
    - by destruct (Hlate _ Hs) as (-> & _). }
  destruct (fan_out_fields (visit_tell_lost notice) r0) as (Ho2 & _ & _).
  unfold tell_lost. set (r1 := fan_out _ r0) in *. clearbody r1. cbn in *.
  change (subscribers (state r0)) with (subscribers (state during)) in *.
  change (channels r0) with (channels during) in *.
  rewrite list_fmap_id, Hsubs in Hs2.
  split; [done|]. split.
  - intros sub channel Hs Hc.
    assert (Hin' : with_lost sub true ∈ subscribers (state during)).
    { rewrite Hsubs. apply elem_of_app. left.
      by apply (list_elem_of_fmap_2 (fun sub => with_lost sub true)). }
    specialize (Hc2 (with_lost sub true) _ Hin' (Htold _ _ Hs Hc)). cbn in Hc2.
    rewrite extend_app in Hc2. rewrite Hc2. done.
  - intros sub Hs. rewrite Hs2 in Hs.
    apply list_elem_of_fmap in Hs as (s & -> & Hs). split; [done|]. cbn. intros Hge.
    apply elem_of_app in Hs as [Hs|Hs].
    + apply list_elem_of_fmap in Hs as (s' & -> & Hs). cbn in *.
      specialize (Hids _ Hs). lia.
    + destruct (Hlate _ Hs) as (Hl & Hw & _ & Hc). split; [done|].
      specialize (Hc2 s open_channel). rewrite Hsubs, Hl in Hc2.
      rewrite Hc2; [done| |done]. apply elem_of_app. by right.
Qed.

(** Closing ends every stream: each one still listening finds the end,
    with the error that ended the source if there was one, after everything
    it was sent before, and the reader has no stream left; a stream joining
    a closed reader is ended at once. *)
Theorem close_ends_streams (bound : Z) (self : Reader) (error : option MediaError)
    (Hok : reader_ok bound self) (Hlive : all_live self) :
  subscribers (state (close error self)) = [] /\
  closed (close error self) = true /\
  (forall sub channel, sub ∈ subscribers (state self) ->
     channels self !! id sub = Some channel ->
     queue <$> channels (close error self) !! id sub =
       Some (queue channel ++ [FeedEnd error])) /\
  (exists sent, queue <$> (let '(after, stream) := join try_clone (close error self) in
                           channels after !! stream) = Some (sent ++ [FeedEnd None])).
Proof.
  destruct Hok as (Hnd & _ & Hdom & _). unfold close.
  set (r0 := with_closed self).
  destruct (fan_out_all (visit_broadcast (FeedEnd error)) (fun sub => sub)
    (fun _ channel => extend channel [FeedEnd error]) r0) as (_ & Hc2 & _); cbn; try done.
  { intros sub channel Hs Hc. destruct (Hlive _ Hs) as (ch & Hc' & Hr).
    unfold visit_broadcast. rewrite send_live; [done|]. congruence. }
  destruct (fan_out_fields (visit_broadcast (FeedEnd error)) r0) as (_ & _ & Hcl).
  unfold broadcast. set (r1 := fan_out _ r0) in *. clearbody r1. cbn in *.
  split; [done|]. split; [done|]. split.
  - intros sub channel Hs Hc. by rewrite (Hc2 _ _ Hs Hc).
  - unfold join. cbn. rewrite Hcl.
    repeat case_match; simplify_eq; cbn; rewrite lookup_insert_eq;
      eexists (_ : list Feed); cbn;
      first [exact (f_equal Some (eq_refl (([] : list Feed) ++ _)))
            |exact (f_equal Some (eq_refl ([_] ++ _)))].
Qed.
End reader.

(** ** Witnesses *)

(** A reader with a stream that has read everything it was sent. *)
Definition watched : Reader :=
  fst (join Some (reader_new (Some "cam") remux_options_default 0)).

Lemma watched_ok : reader_ok 1 watched.
Proof.
  apply (join_ok Some 0); [done|]. apply reader_new_ok.
Qed.

Lemma watched_live : all_live watched.
Proof.
  intros sub Hs. apply list_elem_of_singleton in Hs as ->. exists open_channel. done.
Qed.

Lemma outage_told_once_witness :
  queue <$> channels (received 5000 (outage_run Some watched
    [Attempt None 0 7; LateJoin; Attempt None 9 8])) !! 0 =
  Some [FeedLost None; FeedNotice (NoticeRetrying 7); FeedNotice (NoticeReconnected 2 5000)].
Proof.
  refine (proj1 (proj2 (outage_told_once Some 1 watched None 0 7 5000
    [LateJoin; Attempt None 9 8] watched_ok watched_live eq_refl eq_refl _ _))
    {| id := 0; waiting := false; lost := false |} open_channel _ _);
    [by vm_compute|by vm_compute| |done].
  by apply list_elem_of_singleton.
Defined.

Lemma close_ends_streams_witness :
  queue <$> channels (close (Some (media_error_invalid "gone")) watched) !! 0 =
  Some [FeedEnd (Some (media_error_invalid "gone"))].
Proof.
  refine (proj1 (proj2 (proj2 (close_ends_streams Some 1 watched
    (Some (media_error_invalid "gone")) watched_ok watched_live)))
    {| id := 0; waiting := false; lost := false |} open_channel _ _); [|done].
  by apply list_elem_of_singleton.
Defined.
