(* ===== verification/ReaderThread.v ===== *)
(** * The reader's thread

    [Reader::run], [copy], [transcode] and [read] of
    [ceres-media/src/remux/reader.rs] as a machine: the thread's place in the
    code, one step per blocking call or critical section, each taking as input
    what the outside world answered (the connection, the demuxer, the
    transcoder, the clock). Streams' own steps ([Reader.v]) come in between,
    in any order ([Registry.v]). *)
From S2P Require Import Prelude Text Timeline Packet Remux Reader.
Local Open Scope Z_scope.
Local Open Scope ceres_scope.

(** Why one connection ended. *)
Inductive LinkEnd :=
  | LinkLost (error : option MediaError)
  | LinkFatal (error : MediaError).

(** What the thread asks of an open [MediaInput] before reading packets. *)
Record MediaInput := {
  input_video : result Z MediaError;
  input_track : result OwnedTrack MediaError;
  input_time_base : TimeBase
}.

(** The re-encoding state that outlives each connection; the transcoder's own
    state is FFmpeg's. *)
Record Transcode := { tc_timeline : Timeline; published : bool }.

Definition TRANSCODE_TIME_BASE : TimeBase := {| num := 1; den := 90000 |}.

(** Where the thread is. *)
Inductive Place :=
  | Top
  | Connecting (connected : Z)
  | Copying (connected video : Z)
  | Transcoding (connected video : Z) (source : TimeBase)
  | Draining (connected video : Z) (source : TimeBase)
  | Ending (connected : Z) (link : LinkEnd)
  | Backing (connected : Z)
  | Sleeping (until : Z)
  | Closed
  | Panicked.

#[export] Instance link_end_eq_dec : EqDecision LinkEnd.
Proof. solve_decision. Defined.
#[export] Instance place_eq_dec : EqDecision Place.
Proof. solve_decision. Defined.

Record Thread := { place_of : Place; delay : Z; transcode : option Transcode }.

Definition thread_new (options : RemuxOptions) : Thread :=
  {| place_of := Top; delay := initial (backoff options); transcode := None |}.

Definition go (thread : Thread) (place : Place) : Thread :=
  {| place_of := place; delay := delay thread; transcode := transcode thread |}.

Definition with_transcode (thread : Thread) (transcode : Transcode) : Thread :=
  {| place_of := place_of thread; delay := delay thread; transcode := Some transcode |}.

Definition with_delay (thread : Thread) (delay : Z) : Thread :=
  {| place_of := place_of thread; delay := delay; transcode := transcode thread |}.

(** [MediaInput::read]'s answers. *)
Inductive ReadResult :=
  | ReadPacket (packet : MediaPacket)
  | ReadEnd
  | ReadError (error : MediaError).

(** [MediaTranscoder::receive]'s answers. *)
Inductive ReceiveResult :=
  | Encoded (packet : MediaPacket)
  | NeedsInput
  | EncodeError (error : MediaError).

(** What the world answers, by the place asking. [opened] and [connected] are
    [MediaTranscoder::open]'s and [connect]'s results; [accepted] is [send]'s;
    [reopened] is both calls' after the picture changed; [encoder] is the
    encoder's track copied. *)
Inductive Input :=
  | Clock (now : Z)
  | Connection (outcome : option (result MediaInput MediaError))
      (opened connected : result unit MediaError)
  | Read (now : Z) (outcome : ReadResult) (accepted : result unit MediaError)
  | Encoder (outcome : ReceiveResult) (reopened : result unit MediaError)
      (encoder : result OwnedTrack MediaError).

Section thread.
Context (try_clone : MediaPacket -> option MediaPacket).

(** The start of [Reader::copy]. *)
Definition start_copy (connected : Z) (input : MediaInput) (thread : Thread) (self : Reader) :
    Thread * Reader :=
  match input_video input with
  | Err error => (go thread (Ending connected (LinkLost (Some error))), self)
  | Ok video =>
      match input_track input with
      | Err error => (go thread (Ending connected (LinkFatal error)), self)
      | Ok track => (go thread (Copying connected video), publish_track track self)
      end
  end.

(** The start of [Reader::transcode]. *)
Definition start_transcode (connected : Z) (input : MediaInput)
    (opened decoder : result unit MediaError) (thread : Thread) (self : Reader) :
    Thread * Reader :=
  match input_video input with
  | Err error => (go thread (Ending connected (LinkLost (Some error))), self)
  | Ok video =>
      let transcoding :=
        match transcode thread with
        | Some tc =>
            Ok {| tc_timeline := reconnect (tc_timeline tc); published := published tc |}
        | None =>
            match opened with
            | Ok _ => Ok {| tc_timeline := timeline_default; published := false |}
            | Err error => Err error
            end
        end in
      match transcoding with
      | Err error => (go thread (Ending connected (LinkFatal error)), self)
      | Ok tc =>
          let thread := with_transcode thread tc in
          match decoder with
          | Err error => (go thread (Ending connected (LinkFatal error)), self)
          | Ok _ => (go thread (Transcoding connected video (input_time_base input)), self)
          end
      end
  end.

(** One turn of [Reader::read]'s loop: the packet it returns, or how the
    connection ended, or [None] for another stream's packet. *)
Definition read (now video : Z) (outcome : ReadResult) (self : Reader) :
    Reader * option (result MediaPacket LinkEnd) :=
  let self := touch self now in
  match outcome with
  | ReadPacket packet =>
      if stream packet =? video then (received now self, Some (Ok packet))
      else (self, None)
  | ReadEnd => (self, Some (Err (LinkLost None)))
  | ReadError error => (self, Some (Err (LinkLost (Some error))))
  end.

(** A turn of [Reader::copy]'s loop. *)
Definition copy_turn (now connected video : Z) (outcome : ReadResult)
    (thread : Thread) (self : Reader) : Thread * Reader :=
  match read now video outcome self with
  | (self, None) => (thread, self)
  | (self, Some (Err link)) => (go thread (Ending connected link), self)
  | (self, Some (Ok packet)) => (thread, publish try_clone packet self)
  end.

(** The read of a turn of [Reader::transcode]'s loop, up to [send]. *)
Definition transcode_turn (now connected video : Z) (source : TimeBase)
    (outcome : ReadResult) (accepted : result unit MediaError)
    (thread : Thread) (self : Reader) : Thread * Reader :=
  match read now video outcome self with
  | (self, None) => (thread, self)
  | (self, Some (Err link)) => (go thread (Ending connected link), self)
  | (self, Some (Ok packet)) =>
      match transcode thread with
      | None => (thread, self)
      | Some tc =>
          let timing := timing_rescale (timing packet) source TRANSCODE_TIME_BASE in
          let '(timeline, _) := place (tc_timeline tc) timing in
          let thread :=
            with_transcode thread {| tc_timeline := timeline; published := published tc |} in
          match accepted with
          | Err error => (go thread (Ending connected (LinkFatal error)), self)
          | Ok _ => (go thread (Draining connected video source), self)
          end
      end
  end.

(** A turn of the inner loop of [Reader::transcode], over [receive]. *)
Definition drain_turn (connected video : Z) (source : TimeBase) (outcome : ReceiveResult)
    (reopened : result unit MediaError) (encoder : result OwnedTrack MediaError)
    (thread : Thread) (self : Reader) : Thread * Reader :=
  match transcode thread with
  | None => (thread, self)
  | Some tc =>
      match outcome with
      | NeedsInput => (go thread (Transcoding connected video source), self)
      | EncodeError error =>
          if code error =? INPUT_CHANGED then
            match reopened with
            | Ok _ =>
                (go (with_transcode thread
                       {| tc_timeline := tc_timeline tc; published := false |})
                    (Transcoding connected video source), self)
            | Err error => (go thread (Ending connected (LinkFatal error)), self)
            end
          else (go thread (Ending connected (LinkFatal error)), self)
      | Encoded packet =>
          if published tc then (thread, publish try_clone packet self)
          else
            match encoder with
            | Err error => (go thread (Ending connected (LinkFatal error)), self)
            | Ok track =>
                (with_transcode thread
                   {| tc_timeline := tc_timeline tc; published := true |},
                 publish try_clone packet (publish_track track self))
            end
      end
  end.

(** [self.should_stop() && self.try_close()]. *)
Definition stop_if_idle (now : Z) (self : Reader) : option Reader :=
  if should_stop self now then try_close self else None.

(** [Reader::run] from one connection's end to the wait before the next. *)
Definition after_link (now connected : Z) (link : LinkEnd) (thread : Thread) (self : Reader) :
    Thread * Reader :=
  match link with
  | LinkFatal error => (go thread Closed, close (Some error) self)
  | LinkLost error =>
      match stop_if_idle now self with
      | Some self => (go thread Closed, self)
      | None =>
          let self := reader_lost error now self in
          if negb (bool_decide (is_Some (key self))) && negb (opt_reconnect (options self))
          then (go thread Closed, close None self)
          else (go thread (Backing connected), self)
      end
  end.

(** One step of the thread, [None] when the input is not what its place
    waits for. *)
Definition thread_step (thread : Thread) (self : Reader) (input : Input) :
    option (Thread * Reader) :=
  match place_of thread, input with
  | Top, Clock now =>
      match stop_if_idle now self with
      | Some self => Some (go thread Closed, self)
      | None => Some (go thread (Connecting now), touch self now)
      end
  | Connecting connected, Connection outcome opened decoder =>
      match outcome with
      | None => Some (go thread Closed, close None self)
      | Some (Err error) => Some (go thread (Ending connected (LinkLost (Some error))), self)
      | Some (Ok input) =>
          if copy (options self) then Some (start_copy connected input thread self)
          else Some (start_transcode connected input opened decoder thread self)
      end
  | Copying connected video, Read now outcome _ =>
      Some (copy_turn now connected video outcome thread self)
  | Transcoding connected video source, Read now outcome accepted =>
      Some (transcode_turn now connected video source outcome accepted thread self)
  | Draining connected video source, Encoder outcome reopened encoder =>
      Some (drain_turn connected video source outcome reopened encoder thread self)
  | Ending connected link, Clock now => Some (after_link now connected link thread self)
  | Backing connected, Clock now =>
      let wait := backoff_next (backoff (options self)) (delay thread) (now - connected) in
      Some (go (with_delay thread wait) (Sleeping (now + wait)), schedule wait self)
  | Sleeping until, Clock now =>
      if should_stop self now || (until <=? now) then
        match backoff_grow (backoff (options self)) (delay thread) with
        | Some grown => Some (go (with_delay thread grown) Top, self)
        | None => Some (go thread Panicked, self)
        end
      else Some (thread, self)
  | _, _ => None
  end.
End thread.
