(* ===== verification/Registry.v ===== *)
(** * Shared sources

    [attach] and the [READERS] registry of [ceres-media/src/remux/mod.rs], and
    the whole system of readers, their threads, and the streams. A reader's
    [close] and [try_close] hold the registry's lock and the state's together,
    so a key leaves the registry in the same step its reader closes. *)
From S2P Require Import Prelude Text Timeline Packet Remux Reader ReaderThread.
Local Open Scope Z_scope.

Record System := {
  registry : gmap string Z;
  readers : gmap Z (Thread * Reader);
  next_reader : Z
}.

Definition system_new : System := {| registry := ∅; readers := ∅; next_reader := 0 |}.

(** What a stream's own side does to its reader. *)
Inductive StreamEvent :=
  | StreamLeaves (stream : Z) (now : Z)
  | StreamReceives (stream : Z)
  | StreamAccounts (stream : Z)
  | StreamHangsUp (stream : Z).

Definition reader_event (event : StreamEvent) : ReaderEvent :=
  match event with
  | StreamLeaves stream now => Leave stream now
  | StreamReceives stream => Receive stream
  | StreamAccounts stream => Account stream
  | StreamHangsUp stream => HangUp stream
  end.

Inductive SystemEvent :=
  | Attach (key : option string) (options : RemuxOptions) (now : Z)
  | ThreadMoves (reader : Z) (input : Input)
  | StreamMoves (reader : Z) (event : StreamEvent).

Section system.
Context (try_clone : MediaPacket -> option MediaPacket).

Definition with_reader (system : System) (reader : Z) (entry : Thread * Reader) : System :=
  {| registry := registry system; readers := <[reader := entry]> (readers system);
     next_reader := next_reader system |}.

(** [attach]: the reader and the stream, [None] where the registry names a
    reader that is not there, which does not happen. *)
Definition attach (key : option string) (options : RemuxOptions) (now : Z)
    (system : System) : System * option (Z * Z) :=
  let held := match key with Some key => registry system !! key | None => None end in
  match held with
  | Some reader =>
      match readers system !! reader with
      | Some (thread, self) =>
          let '(self, stream) := join try_clone self in
          (with_reader system reader (thread, self), Some (reader, stream))
      | None => (system, None)
      end
  | None =>
      let reader := next_reader system in
      let '(self, stream) := join try_clone (reader_new key options now) in
      ({| registry :=
            match key with
            | Some key => <[key := reader]> (registry system)
            | None => registry system
            end;
          readers := <[reader := (thread_new options, self)]> (readers system);
          next_reader := reader + 1 |},
       Some (reader, stream))
  end.

(** A reader's thread steps, the registry following a closing. *)
Definition thread_moves (reader : Z) (input : Input) (system : System) : System :=
  match readers system !! reader with
  | None => system
  | Some (thread, self) =>
      match thread_step try_clone thread self input with
      | None => system
      | Some (thread, after) =>
          {| registry :=
               if closed after && negb (closed self) then
                 match key after with
                 | Some key => delete key (registry system)
                 | None => registry system
                 end
               else registry system;
             readers := <[reader := (thread, after)]> (readers system);
             next_reader := next_reader system |}
      end
  end.

Definition stream_moves (reader : Z) (event : StreamEvent) (system : System) : System :=
  match readers system !! reader with
  | None => system
  | Some (thread, self) =>
      with_reader system reader (thread, step try_clone self (reader_event event))
  end.

Definition system_step (system : System) (event : SystemEvent) : System :=
  match event with
  | Attach key options now => fst (attach key options now system)
  | ThreadMoves reader input => thread_moves reader input system
  | StreamMoves reader event => stream_moves reader event system
  end.

Inductive reachable : System -> Prop :=
  | reachable_new : reachable system_new
  | reachable_step system event :
      reachable system -> reachable (system_step system event).

(** ** Closing follows the thread *)

(** A reader is closed exactly when its thread is done. *)
Definition entry_ok (entry : Thread * Reader) : Prop :=
  closed (snd entry) = true <-> place_of (fst entry) = Closed.

Lemma fan_out_kept visit self :
  closed (fan_out visit self) = closed self /\ key (fan_out visit self) = key self /\
  options (fan_out visit self) = options self.
Proof. unfold fan_out. by destruct (retain_mut _ _ _). Qed.

Lemma publish_track_kept next self :
  closed (publish_track next self) = closed self /\ key (publish_track next self) = key self.
Proof.
  unfold publish_track, broadcast.
  by destruct (fan_out_kept (visit_broadcast (FeedTrack next))
    (with_state self
       {| subscribers := subscribers (state self); next_id := next_id (state self);
          track := Some next; gop := []; gop_bytes := 0; gop_valid := true;
          outage := outage (state self) |} (channels self))) as (-> & -> & _).
Qed.

Lemma publish_kept packet self :
  closed (publish try_clone packet self) = closed self /\
  key (publish try_clone packet self) = key self.
Proof.
  unfold publish. cbv zeta.
  match goal with |- context [fan_out ?v ?s] => destruct (fan_out_kept v s) as (-> & -> & _) end.
  done.
Qed.

Lemma received_kept now self :
  closed (received now self) = closed self /\ key (received now self) = key self.
Proof.
  unfold received, tell_lost. destruct (outage (state self)); [|done]. cbn.
  match goal with |- context [fan_out ?v ?s] => destruct (fan_out_kept v s) as (-> & -> & _) end.
  done.
Qed.

Lemma reader_lost_kept error now self :
  closed (reader_lost error now self) = closed self /\
  key (reader_lost error now self) = key self.
Proof.
  unfold reader_lost. destruct (outage (state self)); [done|].
  match goal with |- context [fan_out ?v ?s] => destruct (fan_out_kept v s) as (-> & -> & _) end.
  done.
Qed.

Lemma schedule_kept wait self :
  closed (schedule wait self) = closed self /\ key (schedule wait self) = key self.
Proof.
  unfold schedule, tell_lost. destruct (outage (state self)) as [out|]; [|done].
  destruct (scheduled out); [done|].
  match goal with |- context [fan_out ?v ?s] => destruct (fan_out_kept v s) as (-> & -> & _) end.
  done.
Qed.

Lemma close_kept error self :
  closed (close error self) = true /\ key (close error self) = key self.
Proof.
  unfold close, broadcast. cbn.
  match goal with |- context [fan_out ?v ?s] => destruct (fan_out_kept v s) as (-> & -> & _) end.
  done.
Qed.

Lemma try_close_kept self after :
  try_close self = Some after -> closed after = true /\ key after = key self.
Proof. unfold try_close. destruct (subscribers _); [|done]. by intros [= <-]. Qed.

Lemma read_kept now video outcome self :
  closed (fst (read now video outcome self)) = closed self /\
  key (fst (read now video outcome self)) = key self.
Proof.
  unfold read. destruct outcome; [|done|done].
  destruct (stream packet =? video); [|done].
  apply (received_kept now (touch self now)).
Qed.

(** No step happens to a closed reader's thread, and a step closes the
    reader exactly when it ends the thread. *)
Definition moves_to (self : Reader) (after : option (Thread * Reader)) : Prop :=
  match after with
  | Some (thread', self') =>
      key self' = key self /\
      (place_of thread' = Closed -> closed self' = true) /\
      (place_of thread' <> Closed -> closed self' = closed self)
  | None => True
  end.

Local Ltac moved := unfold moves_to; cbn; split_and!; first [done | by intros []].

Lemma publish_track_moves next self thread :
  place_of thread <> Closed -> moves_to self (Some (thread, publish_track next self)).
Proof. intros. unfold moves_to. by destruct (publish_track_kept next self) as [-> ->]. Qed.

Lemma start_copy_moves connected input thread self :
  moves_to self (Some (start_copy connected input thread self)).
Proof.
  unfold start_copy. destruct (input_video input); [|moved].
  destruct (input_track input); [|moved]. by apply publish_track_moves.
Qed.

Lemma start_transcode_moves connected input opened decoder thread self :
  moves_to self (Some (start_transcode connected input opened decoder thread self)).
Proof.
  unfold start_transcode. destruct (input_video input); [|moved].
  destruct (transcode thread), opened; cbn; try moved; destruct decoder; moved.
Qed.

Lemma copy_turn_moves now connected video outcome thread self :
  place_of thread <> Closed ->
  moves_to self (Some (copy_turn try_clone now connected video outcome thread self)).
Proof.
  intros Hplace. unfold copy_turn.
  destruct (read_kept now video outcome self) as [Hc Hk].
  destruct (read now video outcome self) as [after [[packet|link]|]]; cbn in Hc, Hk.
  - unfold moves_to. destruct (publish_kept packet after) as [-> ->]. by rewrite Hk.
  - unfold moves_to. cbn. by rewrite Hk.
  - unfold moves_to. by rewrite Hk.
Qed.

Lemma transcode_turn_moves now connected video source outcome accepted thread self :
  place_of thread <> Closed ->
  moves_to self
    (Some (transcode_turn now connected video source outcome accepted thread self)).
Proof.
  intros Hplace. unfold transcode_turn.
  destruct (read_kept now video outcome self) as [Hc Hk].
  destruct (read now video outcome self) as [after [[packet|link]|]]; cbn in Hc, Hk;
    [|unfold moves_to; cbn; by rewrite Hk..].
  destruct (transcode thread) as [tc|]; [|unfold moves_to; cbn; by rewrite Hk].
  destruct (place _ _). destruct accepted; unfold moves_to; cbn; by rewrite Hk.
Qed.

Lemma drain_turn_moves connected video source outcome reopened encoder thread self :
  place_of thread <> Closed ->
  moves_to self
    (Some (drain_turn try_clone connected video source outcome reopened encoder thread self)).
Proof.
  intros Hplace. unfold drain_turn. destruct (transcode thread) as [tc|]; [|moved].
  destruct outcome as [packet| |error]; [|moved|].
  - destruct (published tc).
    { unfold moves_to. by destruct (publish_kept packet self) as [-> ->]. }
    destruct encoder as [track|]; [|moved]. unfold moves_to. cbn.
    destruct (publish_kept packet (publish_track track self)) as [-> ->].
    by destruct (publish_track_kept track self) as [-> ->].
  - destruct (_ =? _); [|moved]. destruct reopened; moved.
Qed.

Lemma stop_if_idle_closed now self after :
  stop_if_idle now self = Some after -> closed after = true /\ key after = key self.
Proof. unfold stop_if_idle. destruct (should_stop _ _); [|done]. apply try_close_kept. Qed.

Lemma after_link_moves now connected link thread self :
  moves_to self (Some (after_link now connected link thread self)).
Proof.
  unfold after_link. destruct link as [error|error].
  - destruct (stop_if_idle now self) as [after|] eqn:Hstop.
    + destruct (stop_if_idle_closed _ _ _ Hstop). unfold moves_to. by cbn.
    + destruct (reader_lost_kept error now self) as [Hc Hk].
      destruct (negb _ && _); unfold moves_to.
      * by destruct (close_kept None (reader_lost error now self)) as [-> ->].
      * by rewrite Hk.
  - unfold moves_to. by destruct (close_kept (Some error) self) as [-> ->].
Qed.

Lemma thread_step_moves thread self input :
  moves_to self (thread_step try_clone thread self input).
Proof.
  unfold thread_step.
  destruct (place_of thread) eqn:Hplace; destruct input; try done.
  - destruct (stop_if_idle now self) as [after|] eqn:Hstop; [|moved].
    destruct (stop_if_idle_closed _ _ _ Hstop). unfold moves_to. by cbn.
  - destruct outcome as [[input|error]|].
    + destruct (copy (options self)); [apply start_copy_moves|apply start_transcode_moves].
    + moved.
    + unfold moves_to. by destruct (close_kept None self) as [-> ->].
  - apply copy_turn_moves. by rewrite Hplace.
  - apply transcode_turn_moves. by rewrite Hplace.
  - apply drain_turn_moves. by rewrite Hplace.
  - apply after_link_moves.
  - unfold moves_to. by match goal with
      |- context [schedule ?a ?b] => destruct (schedule_kept a b) as [-> ->] end.
  - destruct (_ || _).
    + destruct (backoff_grow _ _); moved.
    + unfold moves_to. by rewrite Hplace.
Qed.

Lemma thread_step_closed thread self input :
  place_of thread = Closed -> thread_step try_clone thread self input = None.
Proof. unfold thread_step. by intros ->. Qed.

(** ** The registry's invariant *)

Record system_ok (system : System) : Prop := {
  ok_entries : forall r entry, readers system !! r = Some entry -> entry_ok entry;
  ok_fresh : forall r entry, readers system !! r = Some entry -> r < next_reader system;
  ok_named : forall k r, registry system !! k = Some r ->
    exists thread self, readers system !! r = Some (thread, self) /\
      key self = Some k /\ closed self = false;
  ok_registered : forall r thread self k,
    readers system !! r = Some (thread, self) -> key self = Some k ->
    closed self = false -> registry system !! k = Some r
}.

(** Replacing a reader's entry by one with the same key and openness. *)
Lemma with_reader_ok system r thread self thread' self' :
  system_ok system -> readers system !! r = Some (thread, self) ->
  key self' = key self -> closed self' = closed self -> entry_ok (thread', self') ->
  system_ok (with_reader system r (thread', self')).
Proof.
  intros [He Hf Hn Hr] Hold Hk Hc Hok. split; cbn.
  - intros r' entry. rewrite lookup_insert_Some. intros [[<- <-]|[? ?]]; eauto.
  - intros r' entry. rewrite lookup_insert_Some. intros [[<- <-]|[? ?]]; eauto.
  - intros k r' Hreg. destruct (Hn k r' Hreg) as (t & s & Hs & Hks & Hcs).
    destruct (decide (r' = r)) as [->|Hne].
    + rewrite Hold in Hs. injection Hs as <- <-. exists thread', self'.
      by rewrite lookup_insert_eq, Hk, Hc.
    + exists t, s. by rewrite lookup_insert_ne by done.
  - intros r' t s k. rewrite lookup_insert_Some.
    intros [[<- [= <- <-]]|[? Hs]] Hks Hcs; [|eauto].
    apply (Hr r thread self); congruence.
Qed.

Lemma join_kept self :
  closed (fst (join try_clone self)) = closed self /\
  key (fst (join try_clone self)) = key self.
Proof.
  unfold join. cbv zeta.
  match goal with |- context [let '(_, _) := ?x in _] => by destruct x end.
Qed.

Lemma join_holds self :
  is_Some (channels (fst (join try_clone self)) !! snd (join try_clone self)).
Proof.
  unfold join. cbv zeta.
  match goal with |- context [let '(_, _) := ?x in _] => destruct x end.
  cbn. rewrite lookup_insert_eq. eauto.
Qed.

Lemma stream_event_kept self event :
  closed (step try_clone self (reader_event event)) = closed self /\
  key (step try_clone self (reader_event event)) = key self.
Proof.
  destruct event; cbn; unfold leave, receive, account, hang_up; cbn;
    repeat case_match; done.
Qed.

Lemma attach_ok key options now system :
  system_ok system -> system_ok (fst (attach key options now system)).
Proof.
  intros Hok. unfold attach.
  destruct (match key with Some k => registry system !! k | None => None end) as [r|] eqn:Hheld.
  - destruct (readers system !! r) as [[thread self]|] eqn:Hr; [|done].
    destruct (join_kept self) as [Hc Hk].
    destruct (join try_clone self) as [joined stream] eqn:Hjoin. cbn in *.
    eapply with_reader_ok; [done..|]. unfold entry_ok. cbn. rewrite Hc.
    by apply (ok_entries _ Hok r (thread, self)).
  - destruct (join_kept (reader_new key options now)) as [Hc Hk].
    destruct (join try_clone (reader_new key options now)) as [joined stream]. cbn in *.
    assert (Hnew : readers system !! next_reader system = None).
    { destruct (readers system !! next_reader system) eqn:H; [|done].
      pose proof (ok_fresh _ Hok _ _ H). lia. }
    destruct Hok as [He Hf Hn Hreg]. split; cbn.
    + intros r entry. rewrite lookup_insert_Some. intros [[<- <-]|[? ?]]; [|eauto].
      unfold entry_ok. cbn. by rewrite Hc.
    + intros r entry. rewrite lookup_insert_Some.
      intros [[<- <-]|[? H]]; [lia|]. apply Hf in H. lia.
    + intros k r Hkr.
      assert (key = Some k /\ r = next_reader system \/ registry system !! k = Some r)
        as [[-> ->]|Hold].
      { destruct key as [k'|]; [|by right]. apply lookup_insert_Some in Hkr as [[-> <-]|[? ?]];
          [by left|by right]. }
      * exists (thread_new options), joined. by rewrite lookup_insert_eq.
      * destruct (Hn k r Hold) as (t & s & Hs & ? & ?). exists t, s.
        rewrite lookup_insert_ne; [done|]. intros <-. congruence.
    + intros r t s k. rewrite lookup_insert_Some. intros [[<- [= <- <-]]|[? Hs]] Hks Hcs.
      * rewrite Hk in Hks. subst key. rewrite Hks. by rewrite lookup_insert_eq.
      * pose proof (Hreg _ _ _ _ Hs Hks Hcs) as Hold.
        destruct key as [k'|]; [|done].
        rewrite lookup_insert_ne; [done|]. intros ->. congruence.
Qed.

Lemma thread_moves_ok r input system :
  system_ok system -> system_ok (thread_moves r input system).
Proof.
  intros Hok. unfold thread_moves.
  destruct (readers system !! r) as [[thread self]|] eqn:Hr; [|done].
  pose proof (ok_entries _ Hok _ _ Hr) as Hentry. unfold entry_ok in Hentry. cbn in Hentry.
  pose proof (thread_step_moves thread self input) as Hmoves.
  destruct (thread_step try_clone thread self input) as [[thread' self']|] eqn:Hstep; [|done].
  assert (Hopen : closed self = false).
  { destruct (closed self); [|done].
    rewrite (thread_step_closed thread self input) in Hstep; [done|]. by apply Hentry. }
  destruct Hmoves as (Hk & Hend & Hgo). rewrite Hopen in Hgo.
  destruct (closed self') eqn:Hclosed; rewrite Hopen; cbn.
  2: { apply (with_reader_ok system r thread self); [done..|congruence|].
       unfold entry_ok. cbn. rewrite Hclosed. naive_solver. }
  assert (Hplace : place_of thread' = Closed).
  { destruct (decide (place_of thread' = Closed)); [done|]. exfalso.
    specialize (Hgo n). congruence. }
  destruct Hok as [He Hf Hn Hreg]. split; cbn.
  - intros r' entry. rewrite lookup_insert_Some. intros [[<- <-]|[? ?]]; [|eauto].
    by unfold entry_ok; cbn.
  - intros r' entry. rewrite lookup_insert_Some. intros [[<- <-]|[? ?]]; eauto.
  - intros k r' Hkr.
    assert (registry system !! k = Some r' /\ key self <> Some k) as [Hold Hne].
    { rewrite Hk in Hkr. destruct (key self) as [k'|]; [|done].
      apply lookup_delete_Some in Hkr as [? ?]. split; congruence. }
    destruct (Hn k r' Hold) as (t & s & Hs & ? & ?). exists t, s.
    rewrite lookup_insert_ne; [done|]. intros <-. rewrite Hr in Hs. congruence.
  - intros r' t s k. rewrite lookup_insert_Some.
    intros [[<- [= <- <-]]|[? Hs]] Hks Hcs; [congruence|].
    pose proof (Hreg _ _ _ _ Hs Hks Hcs) as Hold. rewrite Hk.
    destruct (key self) as [k'|] eqn:Hkey; [|done].
    rewrite lookup_delete_ne; [done|]. intros ->.
    pose proof (Hreg _ _ _ _ Hr Hkey Hopen). congruence.
Qed.

Lemma stream_moves_ok r event system :
  system_ok system -> system_ok (stream_moves r event system).
Proof.
  intros Hok. unfold stream_moves.
  destruct (readers system !! r) as [[thread self]|] eqn:Hr; [|done].
  destruct (stream_event_kept self event) as [Hc Hk].
  eapply with_reader_ok; [done..|]. unfold entry_ok. cbn [fst snd]. rewrite Hc.
  by apply (ok_entries _ Hok r (thread, self)).
Qed.

Lemma reachable_ok system : reachable system -> system_ok system.
Proof.
  induction 1 as [|system event _ IH]; [by split|].
  destruct event; [by apply attach_ok|by apply thread_moves_ok|by apply stream_moves_ok].
Qed.

(** ** Attaching *)

(** A stream attached to a shared key joins the one open reader of that
    key when there is one, and otherwise starts a reader of its own under a
    fresh ID; either way the reader it joins is open, has its key, and holds
    the stream's channel. *)
Theorem attach_joins_open_reader (system : System) (key' : option string)
    (options : RemuxOptions) (now : Z) (Hreach : reachable system) :
  exists r stream thread self,
    attach key' options now system =
      (fst (attach key' options now system), Some (r, stream)) /\
    readers (fst (attach key' options now system)) !! r = Some (thread, self) /\
    key self = key' /\ closed self = false /\ is_Some (channels self !! stream) /\
    (forall r' thread' self', readers system !! r' = Some (thread', self') ->
       is_Some key' -> key self' = key' -> closed self' = false -> r = r') /\
    (key' = None -> readers system !! r = None).
Proof.
  pose proof (reachable_ok _ Hreach) as Hok. unfold attach.
  destruct (match key' with Some k => registry system !! k | None => None end) as [r|] eqn:Hheld.
  - destruct key' as [k|]; [|done].
    destruct (ok_named _ Hok k r Hheld) as (thread & self & Hr & Hk & Hc). rewrite Hr.
    destruct (join_kept self) as [Hcj Hkj]. pose proof (join_holds self) as Hch.
    destruct (join try_clone self) as [joined stream]. cbn in *.
    exists r, stream, thread, joined. rewrite lookup_insert_eq.
    split_and!; try done; [congruence|congruence|].
    intros r' t' s' Hr' _ Hk' Hc'.
    pose proof (ok_registered _ Hok _ _ _ _ Hr' Hk' Hc'). congruence.
  - destruct (join_kept (reader_new key' options now)) as [Hcj Hkj].
    pose proof (join_holds (reader_new key' options now)) as Hch.
    destruct (join try_clone (reader_new key' options now)) as [joined stream]. cbn in *.
    exists (next_reader system), stream, (thread_new options), joined.
    rewrite lookup_insert_eq. split_and!; try done.
    + intros r' t' s' Hr' [k ->] Hk' Hc'.
      pose proof (ok_registered _ Hok _ _ _ _ Hr' Hk' Hc'). congruence.
    + intros _. destruct (readers system !! next_reader system) eqn:H; [|done].
      pose proof (ok_fresh _ Hok _ _ H). lia.
Qed.

(** C5: a source shared under a key is read once: however streams, threads
    and closings interleave, no two open readers have the same key. *)
Theorem one_open_reader_per_key (system : System) (k : string) (r r' : Z)
    (thread thread' : Thread) (self self' : Reader) (Hreach : reachable system)
    (Hr : readers system !! r = Some (thread, self))
    (Hr' : readers system !! r' = Some (thread', self'))
    (Hkey : key self = Some k) (Hkey' : key self' = Some k)
    (Hopen : closed self = false) (Hopen' : closed self' = false) :
  r = r'.
Proof.
  pose proof (reachable_ok _ Hreach) as Hok.
  pose proof (ok_registered _ Hok _ _ _ _ Hr Hkey Hopen).
  pose proof (ok_registered _ Hok _ _ _ _ Hr' Hkey' Hopen'). congruence.
Qed.

(** ** Stopping

    What the thread is answered once [Reader::interrupt] says to stop:
    FFmpeg's blocking calls fail, and a sleep's poll sees the clock. The
    encoder holds nothing more. *)
Definition interrupted (error : MediaError) (place : Place) (now : Z) : Input :=
  match place with
  | Connecting _ => Connection (Some (Err error)) (Ok tt) (Ok tt)
  | Copying _ _ | Transcoding _ _ _ => Read now (ReadError error) (Ok tt)
  | Draining _ _ _ => Encoder NeedsInput (Ok tt) (Err error)
  | _ => Clock now
  end.

Definition interrupted_moves (error : MediaError) (r now : Z) (system : System) : System :=
  match readers system !! r with
  | Some (thread, _) => thread_moves r (interrupted error (place_of thread) now) system
  | None => system
  end.

(** A re-encoding thread has its encoder. *)
Definition coding (thread : Thread) : Prop :=
  match place_of thread with
  | Transcoding _ _ _ | Draining _ _ _ => is_Some (transcode thread)
  | _ => True
  end.

Lemma thread_step_coding thread self input thread' self' :
  coding thread -> thread_step try_clone thread self input = Some (thread', self') ->
  coding thread'.
Proof.
  unfold thread_step, coding, start_copy, start_transcode, copy_turn, transcode_turn,
    drain_turn, after_link, read. intros Hcoding.
  destruct (place_of thread) eqn:Hp, input; intros Hstep; try done;
    repeat (case_match; simplify_eq/=; try done; eauto);
    rewrite ?Hp; eauto.
Qed.

Lemma reachable_coding system r entry :
  reachable system -> readers system !! r = Some entry -> coding (fst entry).
Proof.
  intros Hreach. revert r entry. induction Hreach as [|system event _ IH]; [done|].
  intros r entry. destruct event as [k options now|r' input|r' event]; cbn.
  - unfold attach.
    destruct (match k with Some k => registry system !! k | None => None end) as [r'|].
    + destruct (readers system !! r') as [[thread self]|] eqn:Hr; [|eauto].
      destruct (join try_clone self). cbn. rewrite lookup_insert_Some.
      intros [[<- <-]|[? ?]]; [exact (IH _ _ Hr)|eauto].
    + destruct (join try_clone _). cbn. rewrite lookup_insert_Some.
      intros [[<- <-]|[? ?]]; [done|eauto].
  - unfold thread_moves. destruct (readers system !! r') as [[thread self]|] eqn:Hr; [|eauto].
    destruct (thread_step try_clone thread self input) as [[thread' self']|] eqn:Hs; [|eauto].
    cbn. rewrite lookup_insert_Some. intros [[<- <-]|[? ?]]; [|eauto]. cbn.
    eapply thread_step_coding; [|exact Hs]. exact (IH _ _ Hr).
  - unfold stream_moves. destruct (readers system !! r') as [[thread self]|] eqn:Hr; [|eauto].
    cbn. rewrite lookup_insert_Some. intros [[<- <-]|[? ?]]; [|eauto]. exact (IH _ _ Hr).
Qed.

(** An open reader no stream reads, its linger over at [now]. *)
Record idle (now : Z) (entry : Thread * Reader) : Prop := {
  idle_alone : subscribers (state (snd entry)) = [];
  idle_over : should_stop (snd entry) now = true;
  idle_backoff : backoff_ok (Remux.backoff (options (snd entry)));
  idle_delay : 0 <= delay (fst entry) <= cap (Remux.backoff (options (snd entry)));
  idle_place : place_of (fst entry) <> Panicked
}.

Definition rank (place : Place) : nat :=
  match place with
  | Closed | Panicked => 0
  | Top | Ending _ _ => 1
  | Sleeping _ | Connecting _ | Copying _ _ | Transcoding _ _ _ => 2
  | Draining _ _ _ | Backing _ => 3
  end.

Lemma idle_stops now thread self :
  idle now (thread, self) -> exists after, stop_if_idle now self = Some after.
Proof.
  intros [Hsub Hover _ _ _]. unfold stop_if_idle, try_close. cbn in *.
  rewrite Hover, Hsub. eauto.
Qed.

Lemma schedule_alone wait self :
  subscribers (state self) = [] ->
  subscribers (state (schedule wait self)) = [] /\
  options (schedule wait self) = options self /\
  forall now, should_stop (schedule wait self) now = should_stop self now.
Proof.
  intros Hsub. unfold schedule. destruct (outage (state self)) as [out|]; [|done].
  destruct (scheduled out); [done|]. unfold tell_lost, fan_out. cbn. by rewrite Hsub.
Qed.

Lemma idle_step error now thread self :
  idle now (thread, self) -> coding thread -> place_of thread <> Closed ->
  exists thread' self',
    thread_step try_clone thread self (interrupted error (place_of thread) now) =
      Some (thread', self') /\
    (place_of thread' = Closed \/
     idle now (thread', self') /\ (rank (place_of thread') < rank (place_of thread))%nat).
Proof.
  intros Hidle Hcoding Hopen. destruct (idle_stops _ _ _ Hidle) as [after Hstop].
  pose proof Hidle as [Hsub Hover Hback Hdelay Hplace]. cbn in *.
  unfold thread_step, coding in *. destruct (place_of thread) eqn:Hp; try done; cbn.
  - rewrite Hstop. eauto.
  - eexists _, _. split; [done|]. right. split; [by split|cbn; lia].
  - eexists _, _. split; [done|]. right. split; [by split|cbn; lia].
  - eexists _, _. split; [done|]. right. split; [by split|cbn; lia].
  - unfold drain_turn. destruct Hcoding as [tc Htc]. rewrite Htc.
    eexists _, _. split; [done|]. right. split; [split; cbn; eauto|cbn; lia].
  - unfold after_link. destruct link; [rewrite Hstop|]; eauto.
  - eexists _, _. split; [done|]. right. split; [|cbn; lia].
    destruct (schedule_alone
      (backoff_next (Remux.backoff (options self)) (delay thread) (now - connected)) self Hsub)
      as (? & Ho & Hs).
    split; cbn; rewrite ?Ho, ?Hs; try done. unfold backoff_next.
    destruct Hback. destruct (_ <=? _); lia.
  - rewrite Hover, (backoff_grow_ok _ _ Hback Hdelay). cbn.
    eexists _, _. split; [done|]. right. split; [split; cbn; try done|cbn; lia].
    destruct Hback. lia.
Qed.

Lemma iter_reachable error now r n system :
  reachable system -> reachable (Nat.iter n (interrupted_moves error r now) system).
Proof.
  intros Hreach. induction n as [|n IH]; [done|]. rewrite Nat.iter_succ.
  generalize dependent (Nat.iter n (interrupted_moves error r now) system).
  intros s IH. unfold interrupted_moves.
  destruct (readers s !! r) as [[thread self]|]; [|done].
  by apply (reachable_step s (ThreadMoves r (interrupted error (place_of thread) now))).
Qed.

(** The moves of an idle reader's thread bring it to its end. *)
Lemma idle_moves error now r n system thread self :
  reachable system -> readers system !! r = Some (thread, self) ->
  place_of thread = Closed \/ idle now (thread, self) /\ (rank (place_of thread) <= n)%nat ->
  exists thread' self',
    readers (Nat.iter n (interrupted_moves error r now) system) !! r = Some (thread', self') /\
    place_of thread' = Closed.
Proof.
  revert system thread self.
  induction n as [|n IH]; intros system thread self Hreach Hr Hcase.
  - destruct Hcase as [Hp|[Hidle Hrank]]; cbn; [eauto|].
    destruct (place_of thread) eqn:Hp; cbn in Hrank; try lia; [eauto|].
    by destruct (idle_place _ _ Hidle).
  - rewrite Nat.iter_succ_r. destruct (decide (place_of thread = Closed)) as [Hp|Hp].
    + apply (IH _ thread self); [by apply (iter_reachable _ _ _ 1)| |by left].
      unfold interrupted_moves, thread_moves. rewrite Hr. cbn.
      by rewrite thread_step_closed.
    + destruct Hcase as [|[Hidle Hrank]]; [done|].
      destruct (idle_step error now thread self Hidle (reachable_coding _ _ _ Hreach Hr) Hp)
        as (t' & s' & Hstep & Hnext).
      apply (IH _ t' s'); [by apply (iter_reachable _ _ _ 1)| |].
      * unfold interrupted_moves, thread_moves. rewrite Hr. cbn. rewrite Hstep. cbn.
        by rewrite lookup_insert_eq.
      * destruct Hnext as [?|[? ?]]; [by left|right]. split; [done|lia].
Qed.

(** A reader no stream reads closes once its linger is over: its thread,
    wherever it is, ends within three steps of being interrupted, the reader
    is closed, and the registry no longer names it. *)
Theorem idle_reader_closes (system : System) (r now : Z) (error : MediaError)
    (thread : Thread) (self : Reader) (Hreach : reachable system)
    (Hr : readers system !! r = Some (thread, self)) (Hidle : idle now (thread, self)) :
  let after := Nat.iter 3 (interrupted_moves error r now) system in
  (exists thread' self', readers after !! r = Some (thread', self') /\
     place_of thread' = Closed /\ closed self' = true) /\
  (forall k, registry after !! k <> Some r).
Proof.
  intros after. pose proof (reachable_ok _ (iter_reachable error now r 3 _ Hreach)) as Hok.
  destruct (idle_moves error now r 3 system thread self Hreach Hr) as (t' & s' & Hr' & Hp).
  { right. split; [done|]. destruct (place_of thread); cbn; lia. }
  fold after in Hr', Hok. pose proof (ok_entries _ Hok _ _ Hr') as Hentry.
  unfold entry_ok in Hentry. cbn in Hentry. apply Hentry in Hp as Hclosed.
  split; [eauto|]. intros k Hk. destruct (ok_named _ Hok _ _ Hk) as (t & s & Hs & _ & Ho).
  congruence.
Qed.
End system.

(** ** Witnesses *)

(** Two streams share a camera, whose thread is reading; both have left. *)
Definition lobby_events : list SystemEvent :=
  [ Attach (Some "cam") remux_options_default 0;
    ThreadMoves 0 (Clock 1000);
    Attach (Some "cam") remux_options_default 2000;
    ThreadMoves 0 (Connection (Some (Err (media_error_invalid "refused"))) (Ok tt) (Ok tt));
    ThreadMoves 0 (Clock 3000);
    StreamMoves 0 (StreamLeaves 0 1000000);
    StreamMoves 0 (StreamLeaves 1 2000000) ].

Definition lobby : System := foldl (system_step Some) system_new lobby_events.

Lemma foldl_reachable try_clone events system :
  reachable try_clone system -> reachable try_clone (foldl (system_step try_clone) system events).
Proof.
  revert system. induction events as [|event events IH]; intros system H; [done|].
  apply IH. by constructor.
Qed.

Lemma lobby_reachable : reachable Some lobby.
Proof. apply foldl_reachable. constructor. Qed.

Definition lobby_entry : Thread * Reader :=
  default (thread_new remux_options_default, reader_new None remux_options_default 0)
    (readers lobby !! 0).

Lemma lobby_holds : readers lobby !! 0 = Some (fst lobby_entry, snd lobby_entry).
Proof. vm_compute. reflexivity. Qed.

Lemma lobby_key : key (snd lobby_entry) = Some "cam".
Proof. vm_compute. reflexivity. Qed.

Lemma lobby_open : closed (snd lobby_entry) = false.
Proof. vm_compute. reflexivity. Qed.

Lemma attach_joins_open_reader_witness :
  exists r stream, snd (attach Some (Some "cam") remux_options_default 5000 lobby) =
    Some (r, stream) /\ r = 0.
Proof.
  destruct (attach_joins_open_reader Some lobby (Some "cam") remux_options_default 5000
    lobby_reachable) as (r & stream & thread & self & Hattach & _ & _ & _ & _ & Hsame & _).
  exists r, stream. rewrite Hattach. split; [done|].
  exact (Hsame 0 _ _ lobby_holds (mk_is_Some _ _ eq_refl) lobby_key lobby_open).
Defined.

Lemma one_open_reader_per_key_witness : 0 = 0.
Proof.
  exact (one_open_reader_per_key Some lobby "cam" 0 0 (fst lobby_entry) (fst lobby_entry)
    (snd lobby_entry) (snd lobby_entry) lobby_reachable lobby_holds lobby_holds
    lobby_key lobby_key lobby_open lobby_open).
Defined.

Lemma idle_reader_closes_witness :
  registry (Nat.iter 3
    (interrupted_moves Some (media_error_invalid "interrupted") 0 (seconds 4)) lobby) !! "cam"
    <> Some 0.
Proof.
  refine (proj2 (idle_reader_closes Some lobby 0 (seconds 4)
    (media_error_invalid "interrupted") (fst lobby_entry) (snd lobby_entry)
    lobby_reachable lobby_holds _) "cam").
  split; [by vm_compute|by vm_compute| | |].
  - by vm_compute.
  - by vm_compute.
  - by vm_compute.
Defined.
