(* ===== verification/Packets.v ===== *)
(** * A stream of a source's packets

    [PacketStream] of [ceres-media/src/remux/packets.rs]: the consumer's side
    of a reader's channel, unpacking what the reader sends into items, placing
    packets on one timeline across connections, and telling the order the
    source's frames arrive in. [MediaError]'s [Display] is of
    [ceres-media/src/error.rs]. *)
From S2P Require Import Prelude Text Timeline Packet FrameOrder Nal Remux.
From stdpp Require Import pretty sorting.
From Stdlib Require Import Sorting.Sorted.
Local Open Scope Z_scope.
Local Open Scope ceres_scope.

(** [Display] of a [MediaError]. *)
Definition media_error_display (self : MediaError) : string :=
  message self +:+ " (FFmpeg error " +:+ pretty (code self) +:+ ")".

Inductive PacketItem :=
  | ItemTrack (track : OwnedTrack)
  | ItemPacket (packet : MediaPacket)
  | ItemNotice (notice : StreamNotice).

Definition Read : Type := result PacketItem MediaError.

(** [PacketStream::TIME_BASE]. *)
Definition PACKET_TIME_BASE : TimeBase := {| num := 1; den := 90000 |}.

Record Reading := {
  timeline : Timeline;
  time_base : option TimeBase;
  queued : list Read;
  started : bool;
  ended : bool;
  codec : MediaCodec;
  order_check : FrameOrderCheck;
  referenced_check : FrameOrderCheck
}.

(** The stream, with the channel's feeds not yet received, the [pending]
    counter, and whether the reader has dropped its end. *)
Record PacketStream := {
  reading : Reading;
  feed : list Feed;
  pending : Z;
  gone : bool;
  reconnects : bool;
  shared_order : SharedFrameOrder;
  shared_referenced : SharedFrameOrder
}.

Definition reading_new : Reading :=
  {| timeline := timeline_default; time_base := None; queued := []; started := false;
     ended := false; codec := Other; order_check := order_check_default;
     referenced_check := order_check_default |}.

(** [PacketStream::new], over the channel the reader handed it. *)
Definition packet_stream_new (options : RemuxOptions) (feed : list Feed) (pending : Z)
    (gone : bool) : PacketStream :=
  {| reading := reading_new; feed := feed; pending := pending; gone := gone;
     reconnects := opt_reconnect options; shared_order := shared_default;
     shared_referenced := shared_default |}.

Definition with_queued (self : Reading) (queued : list Read) : Reading :=
  {| timeline := timeline self; time_base := time_base self; queued := queued;
     started := started self; ended := ended self; codec := codec self;
     order_check := order_check self; referenced_check := referenced_check self |}.

Definition with_ended (self : Reading) : Reading :=
  {| timeline := timeline self; time_base := time_base self; queued := queued self;
     started := started self; ended := true; codec := codec self;
     order_check := order_check self; referenced_check := referenced_check self |}.

(** [Reading::place]. *)
Definition place_item (self : Reading) (item : PacketItem) : Reading * PacketItem :=
  match item with
  | ItemTrack track =>
      ({| timeline := reconnect (timeline self); time_base := Some (track_time_base track);
          queued := queued self; started := started self; ended := ended self;
          codec := track_codec track; order_check := order_reset (order_check self);
          referenced_check := order_reset (referenced_check self) |},
       ItemTrack track)
  | ItemPacket packet =>
      match time_base self with
      | None =>
          ({| timeline := timeline self; time_base := None; queued := queued self;
              started := true; ended := ended self; codec := codec self;
              order_check := order_check self; referenced_check := referenced_check self |},
           ItemPacket packet)
      | Some base =>
          let timing := timing_rescale (timing packet) base PACKET_TIME_BASE in
          let key := is_key packet in
          let '(timeline, placed) := place (timeline self) timing in
          ({| timeline := timeline; time_base := Some base; queued := queued self;
              started := true; ended := ended self; codec := codec self;
              order_check := observe_state (order_check self) (pts timing) key;
              referenced_check :=
                if negb (is_unreferenced (data packet) (codec self))
                then observe_state (referenced_check self) (pts timing) key
                else referenced_check self |},
           ItemPacket (set_timing packet placed))
      end
  | ItemNotice notice => (self, ItemNotice notice)
  end.

(** What [Reading::lost] and [Subscriber::lost] say of a lost source. *)
Definition lost_reason (error : option MediaError) : string :=
  match error with
  | Some error => "the source was lost: " +:+ media_error_display error
  | None => "the source ended"
  end.

(** [Reading::lost]. *)
Definition reading_lost (reconnect : bool) (error : option MediaError) (self : Reading) :
    Reading * Read :=
  if reconnect then (self, Ok (ItemNotice (NoticeLost (media_error_display <$> error))))
  else
    let self := with_ended self in
    if negb (started self) then
      (self, Err (default (media_error_invalid "the source sent no video") error))
    else (self, Ok (ItemNotice (NoticeEnded (lost_reason error)))).

Definition push_back (self : Reading) (items : list Read) : Reading :=
  with_queued self (queued self ++ items).

(** The [match] of [PacketStream::next] over what it received. *)
Definition accept (reconnect : bool) (feed : Feed) (self : Reading) : Reading :=
  match feed with
  | FeedTrack track => push_back self [Ok (ItemTrack track)]
  | FeedSnapshot track packets =>
      push_back (push_back self [Ok (ItemTrack track)]) ((Ok ∘ ItemPacket) <$> packets)
  | FeedPacket packet => push_back self [Ok (ItemPacket packet)]
  | FeedLost error =>
      let '(self, item) := reading_lost reconnect error self in push_back self [item]
  | FeedNotice notice => push_back self [Ok (ItemNotice notice)]
  | FeedEnd error =>
      let self := with_ended self in
      match error with Some error => push_back self [Err error] | None => self end
  end.

(** What a call of [next] comes to. *)
Inductive Next := Item (item : Read) | Done | Blocks.

Definition with_reading (self : PacketStream) (reading : Reading) (feed : list Feed)
    (pending : Z) : PacketStream :=
  {| reading := reading; feed := feed; pending := pending; gone := gone self;
     reconnects := reconnects self; shared_order := shared_order self;
     shared_referenced := shared_referenced self |}.

(** [PacketStream::next]'s loop over [feeds], the channel's. *)
Fixpoint next_from (feeds : list Feed) (reading : Reading) (pending : Z)
    (self : PacketStream) : PacketStream * Next :=
  match queued reading with
  | item :: queue =>
      let reading := with_queued reading queue in
      let '(reading, item) :=
        match item with
        | Ok item => let '(reading, item) := place_item reading item in (reading, Ok item)
        | Err error => (reading, Err error)
        end in
      ({| reading := reading; feed := feeds; pending := pending; gone := gone self;
          reconnects := reconnects self;
          shared_order := shared_set (shared_order self) (FrameOrder.order (order_check reading));
          shared_referenced :=
            shared_set (shared_referenced self) (FrameOrder.order (referenced_check reading)) |},
       Item item)
  | [] =>
      if ended reading then (with_reading self reading feeds pending, Done)
      else
        match feeds with
        | [] =>
            if gone self then (with_reading self (with_ended reading) [] pending, Done)
            else (with_reading self reading [] pending, Blocks)
        | feed :: feeds =>
            let pending := if is_packet feed then u64 (pending - 1) else pending in
            next_from feeds (accept (reconnects self) feed reading) pending self
        end
  end.

Definition next (self : PacketStream) : PacketStream * Next :=
  next_from (feed self) (reading self) (pending self) self.

(** [frame_order] and [referenced_frame_order]. *)
Definition frame_order (self : PacketStream) : FrameOrder := shared_get (shared_order self).
Definition referenced_frame_order (self : PacketStream) : FrameOrder :=
  shared_get (shared_referenced self).

(** The reads of a consumer that calls [next] until it ends or would block. *)
Fixpoint read_all (calls : nat) (self : PacketStream) : list Read * PacketStream * option Next :=
  match calls with
  | O => ([], self, None)
  | S calls =>
      match next self with
      | (self, Item item) =>
          let '(items, self, end_) := read_all calls self in (item :: items, self, end_)
      | (self, end_) => ([], self, Some end_)
      end
  end.

(** ** What the stream reads, stated over the whole channel *)

Definition item_is_packet (item : Read) : bool :=
  match item with Ok (ItemPacket _) => true | _ => false end.

(** The items of [feeds], before packets are placed, and whether the stream
    ended on its own in them; [started] tells of a packet read before. *)
Fixpoint told (reconnect started : bool) (feeds : list Feed) : list Read * bool :=
  match feeds with
  | [] => ([], false)
  | FeedEnd error :: _ => (match error with Some error => [Err error] | None => [] end, true)
  | FeedTrack track :: feeds =>
      let '(items, over) := told reconnect started feeds in (Ok (ItemTrack track) :: items, over)
  | FeedSnapshot track packets :: feeds =>
      let '(items, over) := told reconnect (started || negb (bool_decide (packets = []))) feeds in
      (Ok (ItemTrack track) :: ((Ok ∘ ItemPacket) <$> packets) ++ items, over)
  | FeedPacket packet :: feeds =>
      let '(items, over) := told reconnect true feeds in (Ok (ItemPacket packet) :: items, over)
  | FeedNotice notice :: feeds =>
      let '(items, over) := told reconnect started feeds in
      (Ok (ItemNotice notice) :: items, over)
  | FeedLost error :: feeds =>
      if reconnect then
        let '(items, over) := told reconnect started feeds in
        (Ok (ItemNotice (NoticeLost (media_error_display <$> error))) :: items, over)
      else
        ([if (started : bool) then Ok (ItemNotice (NoticeEnded (lost_reason error)))
          else Err (default (media_error_invalid "the source sent no video") error)], true)
  end.

Definition place_read (self : Reading) (item : Read) : Reading * Read :=
  match item with
  | Ok item => let '(self, item) := place_item self item in (self, Ok item)
  | Err error => (self, Err error)
  end.

(** Items placed one after the other. *)
Fixpoint place_reads (self : Reading) (items : list Read) : Reading * list Read :=
  match items with
  | [] => (self, [])
  | item :: items =>
      let '(self, item) := place_read self item in
      let '(self, items) := place_reads self items in (self, item :: items)
  end.

Lemma place_reads_app self a b :
  place_reads self (a ++ b) =
  let '(self, a) := place_reads self a in
  let '(self, b) := place_reads self b in (self, a ++ b).
Proof.
  revert self. induction a as [|item a IH]; intros self; cbn.
  - by destruct (place_reads self b).
  - destruct (place_read self item) as [self' item']. rewrite IH.
    destruct (place_reads self' a) as [self'' a']. by destruct (place_reads self'' b).
Qed.

Lemma place_read_fields self item :
  ended (fst (place_read self item)) = ended self /\
  queued (fst (place_read self item)) = queued self /\
  started (fst (place_read self item)) = started self || item_is_packet item.
Proof.
  destruct item as [[track|packet|notice]|error]; cbn;
    rewrite ?orb_false_r, ?orb_true_r; try done.
  destruct (time_base self); [|done]. by destruct (place _ _).
Qed.

Lemma place_read_with_queued self item queue :
  place_read (with_queued self queue) item =
  let '(self, item) := place_read self item in (with_queued self queue, item).
Proof.
  destruct item as [[track|packet|notice]|error]; cbn; try done.
  destruct (time_base self); [|done]. by destruct (place _ _).
Qed.

Lemma place_reads_fields self items :
  ended (fst (place_reads self items)) = ended self /\
  queued (fst (place_reads self items)) = queued self /\
  started (fst (place_reads self items)) = started self || existsb item_is_packet items.
Proof.
  revert self. induction items as [|item items IH]; intros self; cbn.
  { by rewrite orb_false_r. }
  destruct (place_read_fields self item) as (<- & <- & Hs).
  destruct (place_read self item) as [self' item']. cbn in *.
  destruct (IH self') as (<- & <- & Hs'). destruct (place_reads self' items). cbn in *.
  by rewrite Hs', Hs, orb_assoc.
Qed.

(** ** Reading everything *)

Lemma next_queued self item queue :
  queued (reading self) = item :: queue ->
  exists after, next self = (after, Item (snd (place_read (reading self) item))) /\
    reading after = with_queued (fst (place_read (reading self) item)) queue /\
    feed after = feed self /\ pending after = pending self /\ gone after = gone self /\
    reconnects after = reconnects self.
Proof.
  intros Hq. unfold next.
  destruct (feed self); cbn; rewrite Hq;
    (pose proof (place_read_with_queued (reading self) item queue) as Hp;
     unfold place_read in *;
     destruct item as [item|error];
       [destruct (place_item (with_queued _ _) item), (place_item (reading self) item); cbn in *;
        simplify_eq|]; by eexists).
Qed.

Lemma place_reads_with_queued self queue items :
  place_reads (with_queued self queue) items =
  let '(self, items) := place_reads self items in (with_queued self queue, items).
Proof.
  revert self. induction items as [|item items IH]; intros self; [done|]. cbn.
  rewrite place_read_with_queued. destruct (place_read self item) as [self' item'].
  rewrite IH. by destruct (place_reads self' items).
Qed.

(** Reading out what is queued. *)
Lemma read_all_queued n self :
  let '(reading', placed) := place_reads (reading self) (queued (reading self)) in
  exists after, reading after = with_queued reading' [] /\
    feed after = feed self /\ pending after = pending self /\ gone after = gone self /\
    reconnects after = reconnects self /\
    read_all (length (queued (reading self)) + n) self =
      let '(items, last, end_) := read_all n after in (placed ++ items, last, end_).
Proof.
  remember (queued (reading self)) as items eqn:Hq.
  revert self Hq. induction items as [|item items IH]; intros self Hq; cbn.
  { exists self. split_and!; try done; [by destruct (reading self); cbn in *; subst|].
    by destruct (read_all n self) as [[? ?] ?]. }
  destruct (next_queued self item items) as (mid & Hnext & Hr & Hf & Hp & Hg & Hrc); [done|].
  specialize (IH mid). rewrite Hr in IH. specialize (IH eq_refl).
  rewrite place_reads_with_queued in IH.
  destruct (place_read (reading self) item) as [r1 item1]. cbn [fst snd] in *.
  destruct (place_reads r1 items) as [r2 placed].
  destruct IH as (after & Hr' & Hf' & Hp' & Hg' & Hrc' & Hread).
  exists after. split_and!; try congruence; [done|].
  rewrite Hnext, Hread. by destruct (read_all n after) as [[? ?] ?].
Qed.

(** The packets counted off [pending] as feeds are received. *)
Definition packets_in (feeds : list Feed) : Z :=
  Z.of_nat (length (filter (fun feed => is_packet feed) feeds)).

(** One feed: what it queues, whether it ends the stream, and what it leaves
    of [started] once its items are read. *)
Lemma told_cons reconnect started feed feeds :
  exists items over started',
    told reconnect started (feed :: feeds) =
      (if over : bool then (items, true)
       else let '(rest, over) := told reconnect started' feeds in (items ++ rest, over)) /\
    started' = started || existsb item_is_packet items /\
    forall self, queued self = [] -> ended self = false -> Packets.started self = started ->
      accept reconnect feed self =
        with_queued (if over then with_ended self else self) items.
Proof.
  destruct feed as [track|track packets|packet|error|notice|error]; cbn.
  - exists [Ok (ItemTrack track)], false, started. split_and!; cbn.
    + done.
    + by rewrite orb_false_r.
    + intros self Hq _ _. unfold push_back. by rewrite Hq.
  - exists (Ok (ItemTrack track) :: ((Ok ∘ ItemPacket) <$> packets)), false,
      (started || negb (bool_decide (packets = []))).
    split_and!; cbn.
    + by destruct (told _ _ feeds).
    + f_equal. case_bool_decide; [by subst|by destruct packets].
    + intros self Hq _ _. unfold push_back. cbn. by rewrite Hq.
  - exists [Ok (ItemPacket packet)], false, true. split_and!; cbn.
    + done.
    + by rewrite orb_true_r.
    + intros self Hq _ _. unfold push_back. by rewrite Hq.
  - destruct reconnect.
    + exists [Ok (ItemNotice (NoticeLost (media_error_display <$> error)))], false, started.
      split_and!; cbn; [done|by rewrite orb_false_r|].
      intros self Hq _ _. unfold push_back. by rewrite Hq.
    + eexists [_], true, _. split_and!; [done|done|].
      intros self Hq _ <-. unfold reading_lost, push_back. cbn.
      destruct (Packets.started self); cbn; by rewrite Hq.
  - exists [Ok (ItemNotice notice)], false, started. split_and!; cbn; [done|by rewrite orb_false_r|].
    intros self Hq _ _. unfold push_back. by rewrite Hq.
  - exists (match error with Some error => [Err error] | None => [] end), true,
      (started || existsb item_is_packet (match error with Some error => [Err error] | None => [] end)).
    split_and!; [done|done|]. intros self Hq _ _. unfold push_back. cbn.
    destruct error; by rewrite Hq || (destruct self; cbn in *; subst).
Qed.

Lemma next_from_ext feeds reading pending a b :
  gone a = gone b -> reconnects a = reconnects b -> shared_order a = shared_order b ->
  shared_referenced a = shared_referenced b ->
  next_from feeds reading pending a = next_from feeds reading pending b.
Proof.
  intros Hg Hr Ho Hs. revert reading pending.
  induction feeds as [|feed feeds IH]; intros reading pending; cbn;
    unfold with_reading; rewrite ?Hg, ?Hr, ?Ho, ?Hs; [done|].
  rewrite IH. done.
Qed.

Lemma place_reads_with_ended self items :
  place_reads (with_ended self) items =
  let '(self, items) := place_reads self items in (with_ended self, items).
Proof.
  revert self. induction items as [|item items IH]; intros self; [done|]. cbn.
  assert (place_read (with_ended self) item =
    let '(self, item) := place_read self item in (with_ended self, item)) as ->.
  { destruct item as [[track|packet|notice]|error]; cbn; try done.
    destruct (time_base self); [|done]. by destruct (place _ _). }
  destruct (place_read self item) as [self' item'].
  rewrite IH. by destruct (place_reads self' items).
Qed.

Lemma next_drained self :
  queued (reading self) = [] -> ended (reading self) = true ->
  next self = (self, Done).
Proof.
  intros Hq He. unfold next. destruct self as [rd feeds ? ? ? ? ?]. cbn in *.
  destruct feeds; cbn; by rewrite Hq, He.
Qed.

Lemma read_all_told (self : PacketStream) :
  queued (reading self) = [] -> ended (reading self) = false ->
  let '(items, over) := told (reconnects self) (started (reading self)) (feed self) in
  let '(read, after, end_) := read_all (S (length items)) self in
  read = snd (place_reads (reading self) items) /\
  end_ = Some (if over || gone self then Done else Blocks).
Proof.
  intros Hqueued Hended.
  destruct self as [rd feeds pend gone_ rc so sr]. cbn [reading feed reconnects gone] in *.
  revert rd pend so sr Hqueued Hended.
  induction feeds as [|feed feeds IH]; intros rd pend so sr Hq He.
  { cbn. unfold next. cbn. rewrite Hq, He. by destruct gone_. }
  destruct (told_cons rc (started rd) feed feeds) as (items & over & started' & -> & Hs & Hacc).
  specialize (Hacc rd Hq He eq_refl).
  set (pend' := if is_packet feed then u64 (pend - 1) else pend).
  set (rd' := with_queued (if over then with_ended rd else rd) items).
  set (mid := {| reading := rd'; Packets.feed := feeds; pending := pend'; gone := gone_;
                 reconnects := rc; shared_order := so; shared_referenced := sr |}).
  assert (Hnext : forall n, read_all (S n)
    {| reading := rd; Packets.feed := feed :: feeds; pending := pend; gone := gone_;
       reconnects := rc; shared_order := so; shared_referenced := sr |} = read_all (S n) mid).
  { intros n. cbn [read_all]. unfold next. cbn [Packets.feed reading pending next_from].
    rewrite Hq, He. cbn [reconnects]. rewrite Hacc. unfold mid. cbn [Packets.feed reading pending].
    by erewrite next_from_ext. }
  assert (Hplaces : place_reads rd' items =
    let '(r, l) := place_reads rd items in
    (with_queued (if over then with_ended r else r) items, l)).
  { unfold rd'. rewrite place_reads_with_queued.
    destruct over; [rewrite place_reads_with_ended|]; by destruct (place_reads rd items). }
  pose proof (place_reads_fields rd items) as (Hended & _ & Hstarted).
  destruct over.
  - cbv beta iota. rewrite Hnext, <- Nat.add_1_r. pose proof (read_all_queued 1 mid) as Hdrain.
    change (reading mid) with rd' in Hdrain. change (queued rd') with items in Hdrain.
    rewrite Hplaces in Hdrain.
    destruct (place_reads rd items) as [r placed].
    destruct Hdrain as (after & Hr & Hf & _ & _ & _ & Hread).
    rewrite Hread. cbn [read_all].
    rewrite (next_drained after) by (by rewrite Hr).
    by rewrite app_nil_r.
  - assert (Hrest : queued (with_queued (fst (place_reads rd items)) []) = []) by done.
    pose proof (read_all_queued (S (length (fst (told rc started' feeds)))) mid) as Hdrain.
    change (reading mid) with rd' in Hdrain. change (queued rd') with items in Hdrain.
    rewrite Hplaces in Hdrain.
    destruct (place_reads rd items) as [r placed] eqn:Hp. cbn [fst] in Hended, Hstarted.
    destruct Hdrain as ([ra fa pa ga rca oa sa] & Hr & Hf & Hpe & Hg & Hrc & Hread).
    cbn in Hr, Hf, Hpe, Hg, Hrc. subst ra fa pa ga rca.
    specialize (IH (with_queued (with_queued r items) []) pend' oa sa Hrest).
    cbn [ended with_queued] in IH. rewrite Hended in IH. specialize (IH He).
    cbn [started with_queued] in IH. rewrite Hstarted, <- Hs in IH.
    destruct (told rc started' feeds) as [rest over'] eqn:Ht. cbv beta iota.
    rewrite length_app, Hnext. cbn [fst] in Hread.
    replace (S (length items + length rest)) with (length items + S (length rest))%nat by lia.
    rewrite Hread, place_reads_app, Hp.
    destruct (read_all _ _) as [[read_ last] end_]. destruct IH as [-> ->].
    replace (with_queued (with_queued r items) []) with (with_queued r []) by done.
    rewrite place_reads_with_queued. by destruct (place_reads r rest).
Qed.

(** A stream reads exactly what its reader sent it, in order: each track,
    every packet of a snapshot and every packet after it, every notice, each
    packet placed once; a lost source ends a stream that does not reconnect,
    with an error when it never had a picture; and after the last of it, a
    stream told of the end or left by its reader ends, and any other waits. *)
Theorem packet_stream_reads (self : PacketStream) (Hqueued : queued (reading self) = [])
    (Hended : ended (reading self) = false) :
  let '(items, over) := told (reconnects self) (started (reading self)) (feed self) in
  let '(read, after, end_) := read_all (S (length items)) self in
  read = snd (place_reads (reading self) items) /\
  end_ = Some (if over || gone self then Done else Blocks).
Proof.
  exact (read_all_told self Hqueued Hended).
Qed.

(** ** The timeline of what is read *)

(** What the items do to the timeline, [base] the last track's time base. *)
Fixpoint source_events (base : option TimeBase) (items : list Read) : list TimelineEvent :=
  match items with
  | [] => []
  | Ok (ItemTrack track) :: items =>
      Reconnect :: source_events (Some (track_time_base track)) items
  | Ok (ItemPacket packet) :: items =>
      match base with
      | Some from => [Place (timing_rescale (timing packet) from PACKET_TIME_BASE)]
      | None => []
      end ++ source_events base items
  | _ :: items => source_events base items
  end.

(** Every packet comes after a track, as a reader sends them. *)
Fixpoint tracked (items : list Read) : bool :=
  match items with
  | [] | Ok (ItemTrack _) :: _ => true
  | Ok (ItemPacket _) :: _ => false
  | _ :: items => tracked items
  end.

Definition read_timing (item : Read) : option PacketTiming :=
  match item with Ok (ItemPacket packet) => Some (timing packet) | _ => None end.

Definition same_times (a b : PacketTiming) : Prop := pts a = pts b /\ dts a = dts b.

Lemma set_timing_muxable packet placed :
  muxable placed -> same_times (timing (set_timing packet placed)) placed.
Proof.
  intros (p & d & Hp & Hd & Hle). unfold same_times, timing. cbn. rewrite Hp, Hd. cbn.
  assert (p <> NOPTS /\ d <> NOPTS) as [? ?] by (unfold NOPTS, i64_min; lia).
  by rewrite !decide_True.
Qed.

Lemma set_timing_all packets placed :
  length packets = length placed -> Forall muxable placed ->
  Forall2 same_times (timing <$> zip_with set_timing packets placed) placed.
Proof.
  revert placed. induction packets as [|packet packets IH]; intros [|to placed] Hl Hm;
    [constructor|done|done|]. injection Hl as Hl. apply Forall_cons in Hm as [Ht Hm].
  constructor; [by apply set_timing_muxable|by apply IH].
Qed.

Lemma same_times_muxable a b : Forall2 same_times a b -> Forall muxable b -> Forall muxable a.
Proof.
  induction 1 as [|x y la lb [Hp Hd] _ IH]; intros Hmux; [constructor|].
  apply Forall_cons in Hmux as [(p & d & Hyp & Hyd & Hle) Hmux]. constructor; [|by apply IH].
  exists p, d. by rewrite Hp, Hd.
Qed.

Lemma same_times_dts a b : Forall2 same_times a b -> omap dts a = omap dts b.
Proof. induction 1 as [|x y la lb [_ Hd] _ IH]; [done|]. cbn. by rewrite Hd, IH. Qed.

Lemma place_reads_timeline self items :
  is_Some (time_base self) \/ tracked items = true ->
  Forall muxable (snd (run_timeline (timeline self) (source_events (time_base self) items))) ->
  Forall2 same_times (omap read_timing (snd (place_reads self items)))
    (snd (run_timeline (timeline self) (source_events (time_base self) items))).
Proof.
  revert self. induction items as [|item items IH]; intros self Htracked Hmux; [constructor|].
  cbn [place_reads]. destruct item as [[track|packet|notice]|error]; cbn in *.
  - match goal with |- context [place_reads ?r items] => specialize (IH r) end. cbn in IH.
    destruct (place_reads _ items). cbn in *. apply IH; [eauto|done].
  - destruct (time_base self) as [base|] eqn:Hbase; [|by destruct Htracked as [[]|]].
    cbn in *. destruct (place (timeline self) _) as [next placed] eqn:Hplace.
    match goal with |- context [place_reads ?r items] => specialize (IH r) end. cbn in IH.
    destruct (place_reads _ items). destruct (run_timeline next _). cbn in *.
    apply Forall_cons in Hmux as [Hm Hmux].
    constructor; [by apply set_timing_muxable|]. apply IH; [eauto|done].
  - specialize (IH self Htracked Hmux). by destruct (place_reads self items).
  - specialize (IH self Htracked Hmux). by destruct (place_reads self items).
Qed.

(** The packets a stream reads play as one track whatever its source goes
    through, reconnects and catching up included: every one is timed, none
    shows before it decodes, and decode times strictly increase. The source's
    times in the stream's clock are of magnitude at most [m]. *)
Theorem packet_stream_playable (m : Z) (options : RemuxOptions) (feeds : list Feed)
    (pending : Z) (gone : bool) (Hm : 1 <= m) :
  let items := fst (told (opt_reconnect options) false feeds) in
  tracked items = true -> Forall (event_within m) (source_events None items) ->
  grown m 0 (length (source_events None items)) <= i64_max ->
  let '(read, _, _) := read_all (S (length items)) (packet_stream_new options feeds pending gone) in
  Forall muxable (omap read_timing read) /\
  StronglySorted Z.lt (omap dts (omap read_timing read)).
Proof.
  intros items Htracked Hevents Hbound.
  pose proof (read_all_told (packet_stream_new options feeds pending gone) eq_refl eq_refl)
    as Hread.
  cbn [reconnects packet_stream_new feed started reading reading_new] in Hread.
  unfold items in *. destruct (told _ _ _) as [items' over]. cbn [fst] in *.
  destruct (read_all _ _) as [[read after] end_]. destruct Hread as [-> _].
  pose proof (run_timeline_within m 0 _ _ Hm Hevents (timeline_default_within m Hm) Hbound)
    as (_ & Hmux & _ & Hsorted).
  pose proof (place_reads_timeline reading_new items' (or_intror Htracked) Hmux) as Hsame.
  cbn [timeline reading_new time_base] in *. unfold placed_dts in Hsorted.
  split; [by eapply same_times_muxable|]. by rewrite (same_times_dts _ _ Hsame).
Qed.

(** ** Witnesses *)

Definition sample_track (number : Z) : OwnedTrack :=
  {| parameters := number; codec_number := 1; extradata := [];
     track_time_base := {| num := 1; den := 1000 |} |}.

Definition sample_packet (pts dts : Z) (key : bool) : MediaPacket :=
  {| raw_pts := pts; raw_dts := dts; raw_duration := 40; is_key := key; stream := 0;
     data := [0; 0; 0; 1; 65] |}.

(** A stream joining mid-picture, whose source then drops and comes back. *)
Definition sample_feeds : list Feed :=
  [ FeedSnapshot (sample_track 1) [sample_packet 1000 1000 true; sample_packet 1040 1040 false];
    FeedPacket (sample_packet 1080 1080 false);
    FeedLost None;
    FeedTrack (sample_track 1);
    FeedPacket (sample_packet 7 7 true);
    FeedEnd None ].

Lemma packet_stream_reads_witness :
  snd (read_all 8 (packet_stream_new remux_options_default sample_feeds 2 false)) = Some Done.
Proof.
  generalize (packet_stream_reads
    (packet_stream_new remux_options_default sample_feeds 2 false) eq_refl eq_refl).
  vm_compute. intros [_ Hend]. exact Hend.
Defined.

(** Decidable bounds, for evaluating [event_within]. *)
Definition time_within (m : Z) (time : option Z) : bool :=
  match time with Some t => (- m <=? t) && (t <=? m) | None => true end.

Definition event_within_b (m : Z) (event : TimelineEvent) : bool :=
  match event with
  | Reconnect => true
  | Place t => time_within m (pts t) && time_within m (dts t) && time_within m (Some (duration t))
  end.

Lemma event_within_b_ok m event : event_within_b m event = true -> event_within m event.
Proof.
  destruct event as [|[p d dur]]; cbn; [done|]. intros H.
  apply andb_true_iff in H as [H Hdur]. apply andb_true_iff in H as [Hp Hd].
  unfold timing_within. cbn. split_and!; intros; simplify_eq/=; to_prop; lia.
Qed.

Lemma events_within m events :
  forallb (event_within_b m) events = true -> Forall (event_within m) events.
Proof.
  intros Hall. apply Forall_forall. intros event Hin. rewrite forallb_forall in Hall.
  specialize (Hall event). rewrite <- list_elem_of_In in Hall. specialize (Hall Hin).
  by apply event_within_b_ok.
Qed.

Lemma packet_stream_playable_witness :
  let '(read, _, _) :=
    read_all 8 (packet_stream_new remux_options_default sample_feeds 2 false) in
  StronglySorted Z.lt (omap dts (omap read_timing read)).
Proof.
  assert (Hw : Forall (event_within 100000)
    (source_events None (fst (told (opt_reconnect remux_options_default) false sample_feeds)))).
  { apply events_within. vm_compute. reflexivity. }
  generalize (packet_stream_playable 100000 remux_options_default sample_feeds 2 false
    ltac:(lia) eq_refl Hw ltac:(vm_compute; done)).
  vm_compute. intros [_ Hsorted]. exact Hsorted.
Defined.
