(* ===== verification/Muxing.v ===== *)
(** * A stream's muxer

    [Subscriber] of [ceres-media/src/remux/subscriber.rs]: the thread that
    turns what a reader sends into a fragmented MP4 stream. FFmpeg's muxer,
    [MediaOutput], is a parameter: its own state, what each call answers, and
    the chunks each call flushes to the consumer. [written] of a muxer is the
    packets it was handed, for stating properties. *)
From S2P Require Import Prelude Text Timeline Packet Remux Packets.
From stdpp Require Import pretty.
From Stdlib Require Import Sorting.Sorted.
Local Open Scope Z_scope.
Local Open Scope ceres_scope.

Inductive StreamItem := Chunk (bytes : list Z) | Notice (notice : StreamNotice).

Inductive End := Finish | Fail (error : option MediaError).

Section muxing.
Context {Output : Type}.
Context (output_open : list (string * string) -> OwnedTrack ->
           list (list Z) * result (Output * TimeBase) MediaError).
Context (output_matches : Output -> OwnedTrack -> result bool MediaError).
Context (output_write : Output -> MediaPacket -> TimeBase ->
           list (list Z) * Output * result unit MediaError).
Context (output_finish : Output -> list (list Z) * result unit MediaError).

Record Muxer := {
  output : Output;
  mux_time_base : TimeBase;
  mux_timeline : Timeline;
  written : list MediaPacket
}.

(** The locals of [Subscriber::run], and what it sent the consumer. *)
Record Muxing := {
  mux_track : option OwnedTrack;
  muxer : option Muxer;
  sent : list (result StreamItem MediaError)
}.

Definition muxing_new : Muxing := {| mux_track := None; muxer := None; sent := [] |}.

Definition mux_send (item : result StreamItem MediaError) (self : Muxing) : Muxing :=
  {| mux_track := mux_track self; muxer := muxer self; sent := sent self ++ [item] |}.

(** The sink of [Subscriber::open]. *)
Definition mux_sink (chunks : list (list Z)) (self : Muxing) : Muxing :=
  {| mux_track := mux_track self; muxer := muxer self;
     sent := sent self ++ ((Ok ∘ Chunk) <$> chunks) |}.

Definition mux_notice (notice : StreamNotice) (self : Muxing) : Muxing :=
  mux_send (Ok (Notice notice)) self.

Definition with_muxer (self : Muxing) (muxer : option Muxer) : Muxing :=
  {| mux_track := mux_track self; muxer := muxer; sent := sent self |}.

(** [Muxer::write]. *)
Definition muxer_write (self : Muxer) (packet : MediaPacket) (time_base : TimeBase) :
    list (list Z) * Muxer * result unit MediaError :=
  let timing := timing_rescale (timing packet) time_base (mux_time_base self) in
  let '(timeline, placed) := place (mux_timeline self) timing in
  let packet := set_timing packet placed in
  let '(chunks, output, result) := output_write (output self) packet (mux_time_base self) in
  (chunks,
   {| output := output; mux_time_base := mux_time_base self; mux_timeline := timeline;
      written := written self ++ [packet] |},
   result).

(** The options of [Subscriber::open]. *)
Definition mux_options (options : RemuxOptions) : list (string * string) :=
  [ ("movflags", if dash options then "+empty_moov+default_base_moof+dash"
                 else "+empty_moov+default_base_moof");
    ("frag_duration", pretty (fragment_duration options / 1000));
    ("flush_packets", "1") ].

(** [Subscriber::open]. *)
Definition mux_open (options : RemuxOptions) (track : OwnedTrack) :
    list (list Z) * result Muxer MediaError :=
  match output_open (mux_options options) track with
  | (chunks, Ok (output, time_base)) =>
      (chunks, Ok {| output := output; mux_time_base := time_base;
                     mux_timeline := timeline_default; written := [] |})
  | (chunks, Err error) => (chunks, Err error)
  end.

(** [Subscriber::fatal]; [stopped] is the flag as it reads then. *)
Definition mux_fatal (stopped : bool) (error : MediaError) : End :=
  Fail (if stopped then None else Some error).

(** [Subscriber::track]. *)
Definition mux_take_track (options : RemuxOptions) (stopped : bool) (next : OwnedTrack)
    (self : Muxing) : Muxing * result unit End :=
  let took (muxer : option Muxer) :=
    ({| mux_track := Some next; muxer := muxer; sent := sent self |}, Ok tt) in
  match muxer self with
  | None => took None
  | Some mux =>
      match output_matches (output mux) next with
      | Ok true =>
          took (Some {| output := output mux; mux_time_base := mux_time_base mux;
                        mux_timeline := reconnect (mux_timeline mux);
                        written := written mux |})
      | Ok false =>
          let reason :=
            if copy options
            then "the source's codec, picture size, or parameter sets changed"
            else "the source's picture size or pixel format changed" in
          (mux_notice (NoticeEnded reason) self, Err Finish)
      | Err error => (self, Err (mux_fatal stopped error))
      end
  end.

(** [Subscriber::write]. *)
Definition mux_write (options : RemuxOptions) (stopped : bool) (packet : MediaPacket)
    (self : Muxing) : Muxing * result unit End :=
  match mux_track self with
  | None => (self, Ok tt)
  | Some track =>
      let '(self, opened) :=
        match muxer self with
        | Some mux => (self, Ok mux)
        | None =>
            let '(chunks, opened) := mux_open options track in
            let self := mux_sink chunks self in
            match opened with
            | Ok mux => (with_muxer self (Some mux), Ok mux)
            | Err error => (self, Err error)
            end
        end in
      match opened with
      | Err error => (self, Err (mux_fatal stopped error))
      | Ok mux =>
          let '(chunks, mux, outcome) := muxer_write mux packet (track_time_base track) in
          let self := with_muxer (mux_sink chunks self) (Some mux) in
          match outcome with
          | Ok _ => (self, Ok tt)
          | Err error => (self, Err (mux_fatal stopped error))
          end
      end
  end.

(** [Subscriber::lost]. *)
Definition mux_lost (options : RemuxOptions) (error : option MediaError) (self : Muxing) :
    Muxing * result unit End :=
  if opt_reconnect options then
    (mux_notice (NoticeLost (media_error_display <$> error)) self, Ok tt)
  else if negb (bool_decide (is_Some (muxer self))) then
    (self, Err (Fail (Some (default (media_error_invalid "the source sent no video") error))))
  else (mux_notice (NoticeEnded (lost_reason error)) self, Err Finish).

(** The snapshot's [try_for_each]. *)
Fixpoint mux_write_all (options : RemuxOptions) (stopped : bool) (packets : list MediaPacket)
    (self : Muxing) : Muxing * result unit End :=
  match packets with
  | [] => (self, Ok tt)
  | packet :: packets =>
      match mux_write options stopped packet self with
      | (self, Ok _) => mux_write_all options stopped packets self
      | failed => failed
      end
  end.

(** The [match] of [Subscriber::run]. *)
Definition mux_feed (options : RemuxOptions) (stopped : bool) (feed : Feed) (self : Muxing) :
    Muxing * result unit End :=
  match feed with
  | FeedTrack next => mux_take_track options stopped next self
  | FeedSnapshot next packets =>
      match mux_take_track options stopped next self with
      | (self, Ok _) => mux_write_all options stopped packets self
      | failed => failed
      end
  | FeedPacket packet => mux_write options stopped packet self
  | FeedLost error => mux_lost options error self
  | FeedNotice notice => (mux_notice notice self, Ok tt)
  | FeedEnd None => (self, Err Finish)
  | FeedEnd (Some error) => (self, Err (Fail (Some error)))
  end.

(** [Subscriber::run]'s loop, each feed with the stopped flag as it reads
    during it; the channel ends after the last. *)
Fixpoint mux_loop (options : RemuxOptions) (feeds : list (Feed * bool)) (self : Muxing) :
    Muxing * End :=
  match feeds with
  | [] => (self, Finish)
  | (feed, stopped) :: feeds =>
      match mux_feed options stopped feed self with
      | (self, Ok _) => mux_loop options feeds self
      | (self, Err end_) => (self, end_)
      end
  end.

(** [Subscriber::run], [stopped] as it reads at the end. *)
Definition mux_run (options : RemuxOptions) (feeds : list (Feed * bool)) (stopped : bool) :
    Muxing :=
  let '(self, end_) := mux_loop options feeds muxing_new in
  if stopped then self
  else
    match end_, muxer self with
    | Finish, Some mux =>
        let '(chunks, outcome) := output_finish (output mux) in
        let self := mux_sink chunks self in
        match outcome with Ok _ => self | Err error => mux_send (Err error) self end
    | Fail (Some error), _ => mux_send (Err error) self
    | _, _ => self
    end.

(** ** Errors end the stream *)

Definition delivers (self : Muxing) : Prop := Forall (fun item => is_ok item) (sent self).

Lemma mux_sink_delivers chunks self : delivers self -> delivers (mux_sink chunks self).
Proof.
  intros H. apply Forall_app. split; [done|]. by apply Forall_fmap, Forall_true.
Qed.

Lemma mux_notice_delivers notice self : delivers self -> delivers (mux_notice notice self).
Proof. intros H. apply Forall_app. split; [done|]. by apply Forall_singleton. Qed.

Lemma mux_take_track_delivers options stopped next self :
  delivers self -> delivers (fst (mux_take_track options stopped next self)).
Proof.
  unfold mux_take_track. intros H. destruct (muxer self) as [mux|]; [|done].
  destruct (output_matches _ _) as [[]|]; [done| |done]. by apply mux_notice_delivers.
Qed.

Lemma mux_write_delivers options stopped packet self :
  delivers self -> delivers (fst (mux_write options stopped packet self)).
Proof.
  unfold mux_write. intros H. destruct (mux_track self) as [track|]; [|done].
  destruct (muxer self) as [mux|].
  - destruct (muxer_write mux packet _) as [[chunks mux'] []]; by apply mux_sink_delivers.
  - destruct (mux_open options track) as [opened [mux|error]]; [|by apply mux_sink_delivers].
    destruct (muxer_write mux packet _) as [[chunks mux'] []];
      apply (mux_sink_delivers chunks (with_muxer (mux_sink opened self) (Some mux))),
        (mux_sink_delivers opened self), H.
Qed.

Lemma mux_write_all_delivers options stopped packets self :
  delivers self -> delivers (fst (mux_write_all options stopped packets self)).
Proof.
  revert self. induction packets as [|packet packets IH]; intros self H; cbn; [done|].
  pose proof (mux_write_delivers options stopped packet self H) as Hw.
  destruct (mux_write options stopped packet self) as [self' []]; [by apply IH|done].
Qed.

Lemma mux_feed_delivers options stopped feed self :
  delivers self -> delivers (fst (mux_feed options stopped feed self)).
Proof.
  intros H. destruct feed as [next|next packets|packet|error|notice|[error|]]; cbn; try done.
  - by apply mux_take_track_delivers.
  - pose proof (mux_take_track_delivers options stopped next self H) as Ht.
    destruct (mux_take_track options stopped next self) as [self' []]; [|done].
    by apply mux_write_all_delivers.
  - by apply mux_write_delivers.
  - unfold mux_lost. destruct (opt_reconnect options); [by apply mux_notice_delivers|].
    destruct (negb _); [done|by apply mux_notice_delivers].
  - by apply mux_notice_delivers.
Qed.

Lemma mux_loop_delivers options feeds self :
  delivers self -> delivers (fst (mux_loop options feeds self)).
Proof.
  revert self. induction feeds as [|[feed stopped] feeds IH]; intros self H; cbn; [done|].
  pose proof (mux_feed_delivers options stopped feed self H) as Hf.
  destruct (mux_feed options stopped feed self) as [self' []]; [by apply IH|done].
Qed.

(** A muxed stream tells its consumer of at most one error, and nothing
    after it; the error is the one its loop failed with, or the muxer's own
    when finishing the file failed, and a stream its consumer stopped tells
    of none. *)
Theorem mux_error_last (options : RemuxOptions) (feeds : list (Feed * bool)) (stopped : bool) :
  exists items last, sent (mux_run options feeds stopped) = items ++ last /\
    Forall (fun item => is_ok item) items /\
    (last = [] \/ exists error, last = [Err error] /\ stopped = false /\
       (snd (mux_loop options feeds muxing_new) = Fail (Some error) \/
        exists mux chunks, muxer (fst (mux_loop options feeds muxing_new)) = Some mux /\
          output_finish (output mux) = (chunks, Err error))) /\
    (forall error, stopped = false ->
       snd (mux_loop options feeds muxing_new) = Fail (Some error) -> last = [Err error]).
Proof.
  pose proof (mux_loop_delivers options feeds muxing_new (Forall_nil_2 _)) as Hd.
  unfold mux_run. destruct (mux_loop options feeds muxing_new) as [self end_]. cbn in *.
  destruct stopped.
  { exists (sent self), []. rewrite app_nil_r. split_and!; eauto. done. }
  destruct end_ as [|[error|]].
  - destruct (muxer self) as [mux|] eqn:Hm.
    + destruct (output_finish (output mux)) as [chunks [|error]] eqn:Hfin.
      * exists (sent (mux_sink chunks self)), []. rewrite app_nil_r.
        split_and!; eauto; [|done]. by apply mux_sink_delivers.
      * exists (sent (mux_sink chunks self)), [Err error].
        split_and!; [done|by apply mux_sink_delivers| |done]. right. eauto 10.
    + exists (sent self), []. rewrite app_nil_r. split_and!; eauto. done.
  - exists (sent self), [Err error]. split_and!; [done|done|right; eauto 10|congruence].
  - exists (sent self), []. rewrite app_nil_r. split_and!; eauto. done.
Qed.

(** ** What the muxer is handed *)

Context (m : Z) (bases : TimeBase -> Prop).
Context (Hopens : forall options track chunks output base,
           output_open options track = (chunks, Ok (output, base)) -> bases base).

(** Every packet of the feeds, timed by any track of theirs, within [m] in
    the time base the muxer chooses. *)
Definition times_within (tracks : list OwnedTrack) (packets : list MediaPacket) : Prop :=
  forall track packet base, track ∈ tracks -> packet ∈ packets -> bases base ->
    timing_within m (timing_rescale (timing packet) (track_time_base track) base).

Definition feed_tracks (feed : Feed) : list OwnedTrack :=
  match feed with FeedTrack track | FeedSnapshot track _ => [track] | _ => [] end.

Definition feed_packets (feed : Feed) : list MediaPacket :=
  match feed with
  | FeedSnapshot _ packets => packets
  | FeedPacket packet => [packet]
  | _ => []
  end.

Definition feed_steps (feed : Feed) : nat :=
  length (feed_tracks feed) + length (feed_packets feed).

Record mux_inv (tracks : list OwnedTrack) (n : nat) (self : Muxing) : Prop := {
  inv_track : forall track, mux_track self = Some track -> track ∈ tracks;
  inv_muxer : forall mux, muxer self = Some mux ->
    bases (mux_time_base mux) /\
    exists events packets,
      mux_timeline mux = fst (run_timeline timeline_default events) /\
      written mux = zip_with set_timing packets (snd (run_timeline timeline_default events)) /\
      length packets = length (snd (run_timeline timeline_default events)) /\
      Forall (event_within m) events /\ (length events <= n)%nat
}.

Lemma mux_inv_weaken tracks n n' self :
  (n <= n')%nat -> mux_inv tracks n self -> mux_inv tracks n' self.
Proof.
  intros Hle [Ht Hm]. split; [done|]. intros mux Hmux.
  destruct (Hm mux Hmux) as (Hb & events & packets & ? & ? & ? & ? & ?).
  split; [done|]. exists events, packets. split_and!; try done. lia.
Qed.

Lemma mux_inv_sent tracks n self sent' :
  mux_inv tracks n self ->
  mux_inv tracks n {| mux_track := mux_track self; muxer := muxer self; sent := sent' |}.
Proof. by intros [? ?]. Qed.

Lemma run_timeline_snoc self events event :
  run_timeline self (events ++ [event]) =
  let '(self, placed) := run_timeline self events in
  let '(self, rest) := run_timeline self [event] in (self, placed ++ rest).
Proof.
  revert self. induction events as [|[|timing] events IH]; intros self.
  - destruct event; cbn; [done|]. by destruct (place self timing).
  - exact (IH (reconnect self)).
  - change ((Place timing :: events) ++ [event]) with (Place timing :: (events ++ [event])).
    cbn [run_timeline]. destruct (place self timing) as [self' placed]. rewrite IH.
    destruct (run_timeline self' events) as [self'' rest].
    destruct event; cbn; [done|]. by destruct (place self'' _).
Qed.

Lemma mux_take_track_inv options stopped tracks n next self :
  next ∈ tracks -> mux_inv tracks n self ->
  mux_inv tracks (S n) (fst (mux_take_track options stopped next self)).
Proof.
  intros Hin Hinv. unfold mux_take_track. destruct (muxer self) as [mux|] eqn:Hmux.
  - destruct (output_matches _ _) as [[]|];
      [|apply (mux_inv_weaken _ n); [lia|by apply mux_inv_sent]
       |apply (mux_inv_weaken _ n); [lia|done]].
    destruct Hinv as [Ht Hm]. split; cbn; [by intros track [= <-]|].
    intros mux' [= <-]. destruct (Hm mux Hmux) as (Hb & events & packets & Ht' & Hw & Hl & He & Hn).
    split; [done|]. exists (events ++ [Reconnect]), packets. cbn.
    rewrite run_timeline_snoc, length_app.
    destruct (run_timeline timeline_default events) as [timeline placed]. cbn in *.
    rewrite app_nil_r. split_and!; try done; [by rewrite Ht'| |lia].
    apply Forall_app. split; [done|by apply Forall_singleton].
  - destruct Hinv as [Ht Hm]. split; cbn; [by intros track [= <-]|done].
Qed.

(** The muxer writing one packet. *)
Lemma muxer_write_inv tracks packets n mux track packet events placed :
  times_within tracks packets -> track ∈ tracks -> packet ∈ packets ->
  bases (mux_time_base mux) ->
  mux_timeline mux = fst (run_timeline timeline_default events) ->
  written mux = zip_with set_timing placed (snd (run_timeline timeline_default events)) ->
  length placed = length (snd (run_timeline timeline_default events)) ->
  Forall (event_within m) events -> (length events <= n)%nat ->
  let '(_, mux', _) := muxer_write mux packet (track_time_base track) in
  bases (mux_time_base mux') /\
  exists events placed,
    mux_timeline mux' = fst (run_timeline timeline_default events) /\
    written mux' = zip_with set_timing placed (snd (run_timeline timeline_default events)) /\
    length placed = length (snd (run_timeline timeline_default events)) /\
    Forall (event_within m) events /\ (length events <= S n)%nat.
Proof.
  intros Hwithin Htrack Hpacket Hbase Ht Hw Hl He Hn. unfold muxer_write.
  set (timing := timing_rescale _ _ _).
  assert (Htiming : timing_within m timing) by by apply Hwithin.
  destruct (place (mux_timeline mux) timing) as [timeline to] eqn:Hplace.
  destruct (output_write _ _ _) as [[chunks out] outcome]. cbn.
  split; [done|]. exists (events ++ [Place timing]), (placed ++ [packet]).
  rewrite run_timeline_snoc, !length_app.
  destruct (run_timeline timeline_default events) as [before earlier]. cbn in *. subst before.
  rewrite Hplace. cbn. split_and!; [done| | | |lia].
  - rewrite Hw, zip_with_app by done. done.
  - rewrite length_app. cbn. lia.
  - apply Forall_app. split; [done|by apply Forall_singleton].
Qed.

Lemma mux_write_inv options stopped tracks packets n packet self :
  times_within tracks packets -> packet ∈ packets -> mux_inv tracks n self ->
  mux_inv tracks (S n) (fst (mux_write options stopped packet self)).
Proof.
  intros Hwithin Hin Hinv. unfold mux_write.
  destruct (mux_track self) as [track|] eqn:Htrack; [|by apply (mux_inv_weaken _ n); [lia|]].
  pose proof (inv_track _ _ _ Hinv _ Htrack) as Hint.
  assert (Hgo : forall mux self', bases (mux_time_base mux) ->
    (exists events placed,
      mux_timeline mux = fst (run_timeline timeline_default events) /\
      written mux = zip_with set_timing placed (snd (run_timeline timeline_default events)) /\
      length placed = length (snd (run_timeline timeline_default events)) /\
      Forall (event_within m) events /\ (length events <= n)%nat) ->
    mux_track self' = Some track ->
    mux_inv tracks (S n) (fst (
      let '(chunks, mux, outcome) := muxer_write mux packet (track_time_base track) in
      let self := with_muxer (mux_sink chunks self') (Some mux) in
      match outcome with
      | Ok _ => (self, Ok tt)
      | Err error => (self, Err (mux_fatal stopped error))
      end))).
  { intros mux self' Hb (events & placed & ? & ? & ? & ? & ?) Hs.
    pose proof (muxer_write_inv tracks packets n mux track packet events placed) as Hw.
    destruct (muxer_write mux packet _) as [[chunks mux'] outcome].
    destruct Hw as (Hb' & Hw); [done..|].
    assert (mux_inv tracks (S n) (with_muxer (mux_sink chunks self') (Some mux'))).
    { split; cbn; [by rewrite Hs; intros ? [= <-]|]. by intros ? [= <-]. }
    by destruct outcome. }
  destruct (muxer self) as [mux|] eqn:Hmux.
  - destruct (inv_muxer _ _ _ Hinv mux Hmux) as [Hb Hex]. by apply Hgo.
  - unfold mux_open. destruct (output_open _ _) as [chunks [[out base]|error]] eqn:Hopen.
    + apply Hgo; cbn; [by eapply Hopens| |done].
      exists [], []. cbn. split_and!; try done. lia.
    + apply (mux_inv_weaken _ n); [lia|]. by apply mux_inv_sent.
Qed.

Lemma mux_write_all_inv options stopped tracks all packets n self :
  times_within tracks all -> packets ⊆ all -> mux_inv tracks n self ->
  mux_inv tracks (n + length packets) (fst (mux_write_all options stopped packets self)).
Proof.
  intros Hwithin. revert n self.
  induction packets as [|packet packets IH]; intros n self Hsub Hinv; cbn.
  { by rewrite Nat.add_0_r. }
  pose proof (mux_write_inv options stopped tracks all n packet self Hwithin
    ltac:(set_solver) Hinv) as Hw.
  destruct (mux_write options stopped packet self) as [self' []]; cbn in *.
  - rewrite Nat.add_succ_r. apply (IH (S n) self'); [set_solver|done].
  - apply (mux_inv_weaken _ (S n)); [lia|done].
Qed.

Lemma mux_feed_inv options stopped tracks packets n feed self :
  times_within tracks packets -> feed_tracks feed ⊆ tracks -> feed_packets feed ⊆ packets ->
  mux_inv tracks n self ->
  mux_inv tracks (n + feed_steps feed) (fst (mux_feed options stopped feed self)).
Proof.
  intros Hwithin Ht Hp Hinv.
  destruct feed as [next|next packets'|packet|error|notice|[error|]];
    unfold feed_steps; cbn in *; rewrite ?Nat.add_0_r, ?Nat.add_1_r; try done.
  - apply mux_take_track_inv; [set_solver|done].
  - pose proof (mux_take_track_inv options stopped tracks n next self ltac:(set_solver) Hinv)
      as Htrack.
    destruct (mux_take_track options stopped next self) as [self' []]; cbn in *.
    + rewrite Nat.add_succ_r. by apply (mux_write_all_inv options stopped tracks packets packets' (S n)).
    + apply (mux_inv_weaken _ (S n)); [lia|done].
  - apply (mux_write_inv options stopped tracks packets); [done|set_solver|done].
  - unfold mux_lost. destruct (opt_reconnect options); [by apply mux_inv_sent|].
    destruct (negb _); [done|by apply mux_inv_sent].
  - by apply mux_inv_sent.
Qed.

Lemma mux_loop_inv options feeds tracks packets n self :
  times_within tracks packets ->
  Forall (fun '(feed, _) => feed_tracks feed ⊆ tracks /\ feed_packets feed ⊆ packets) feeds ->
  mux_inv tracks n self ->
  mux_inv tracks (n + sum_list ((feed_steps ∘ fst) <$> feeds))
    (fst (mux_loop options feeds self)).
Proof.
  intros Hwithin Hall. revert n self.
  induction Hall as [|[feed stopped] feeds [Ht Hp] _ IH]; intros n self Hinv; cbn.
  { by rewrite Nat.add_0_r. }
  pose proof (mux_feed_inv options stopped tracks packets n feed self Hwithin Ht Hp Hinv) as Hf.
  destruct (mux_feed options stopped feed self) as [self' []]; cbn in *.
  - rewrite Nat.add_assoc. by apply IH.
  - apply (mux_inv_weaken _ (n + feed_steps feed)); [lia|done].
Qed.

(** C6: whatever the reader sends, the packets handed to a stream's muxer
    are the ones the muxer accepts: both timestamps are there, none shows
    before it decodes, and decode times strictly increase from the first
    packet to the last, across reconnects. The packets' times in the muxer's
    time base are of magnitude at most [m]. *)
Theorem muxer_fed_in_order (options : RemuxOptions) (feeds : list (Feed * bool))
    (stopped : bool) (Hm : 1 <= m) :
  let tracks := feeds ≫= (feed_tracks ∘ fst) in
  let packets := feeds ≫= (feed_packets ∘ fst) in
  times_within tracks packets ->
  grown m 0 (sum_list ((feed_steps ∘ fst) <$> feeds)) <= i64_max ->
  forall mux, muxer (mux_run options feeds stopped) = Some mux ->
    Forall muxable (timing <$> written mux) /\
    StronglySorted Z.lt (omap dts (timing <$> written mux)).
Proof.
  intros tracks packets Hwithin Hbound mux Hmux.
  assert (Hinv : mux_inv tracks (0 + sum_list ((feed_steps ∘ fst) <$> feeds))
    (fst (mux_loop options feeds muxing_new))).
  { apply (mux_loop_inv options feeds tracks packets); [done| |by split].
    apply Forall_forall. intros [feed flag] Hin. split; intros x Hx;
      apply list_elem_of_bind; by exists (feed, flag). }
  assert (muxer (fst (mux_loop options feeds muxing_new)) = Some mux) as Hmux'.
  { revert Hmux. unfold mux_run. destruct (mux_loop options feeds muxing_new) as [self end_].
    destruct stopped; [done|]. destruct end_ as [|[error|]]; [|done|done].
    destruct (muxer self) eqn:Hs; [|congruence].
    destruct (output_finish _) as [chunks []]; cbn; congruence. }
  destruct (inv_muxer _ _ _ Hinv mux Hmux') as (_ & events & placed & _ & Hw & Hl & He & Hn).
  cbn in Hn.
  assert (Hgrown : grown m 0 (length events) <= i64_max).
  { unfold grown in *. nia. }
  destruct (run_timeline_within m 0 _ _ Hm He (timeline_default_within m Hm) Hgrown)
    as (_ & Hok & _ & Hsorted).
  rewrite Hw. unfold placed_dts in Hsorted.
  pose proof (set_timing_all placed _ Hl Hok) as Hsame.
  split; [by eapply same_times_muxable|]. by rewrite (same_times_dts _ _ Hsame).
Qed.
End muxing.

(** ** Witnesses *)

(** A muxer that takes anything and flushes each packet's bytes. *)
Definition plain_open (options : list (string * string)) (track : OwnedTrack) :
    list (list Z) * result (unit * TimeBase) MediaError :=
  ([[102]], Ok (tt, PACKET_TIME_BASE)).

Definition plain_write (output : unit) (packet : MediaPacket) (base : TimeBase) :
    list (list Z) * unit * result unit MediaError := ([data packet], tt, Ok tt).

Notation plain_run feeds :=
  (mux_run plain_open (fun _ _ => Ok true) plain_write (fun _ => ([], Ok tt))
    remux_options_default ((fun feed => (feed, false)) <$> feeds) false).

Lemma plain_times :
  times_within 100000 (eq PACKET_TIME_BASE)
    (((fun feed => (feed, false)) <$> sample_feeds) ≫= (feed_tracks ∘ fst))
    (((fun feed => (feed, false)) <$> sample_feeds) ≫= (feed_packets ∘ fst)).
Proof.
  intros track packet base Ht Hp <-.
  assert (Hall : forallb (fun track => forallb (fun packet =>
    event_within_b 100000 (Place (timing_rescale (timing packet) (track_time_base track)
      PACKET_TIME_BASE)))
    (((fun feed => (feed, false)) <$> sample_feeds) ≫= (feed_packets ∘ fst)))
    (((fun feed => (feed, false)) <$> sample_feeds) ≫= (feed_tracks ∘ fst)) = true)
    by (vm_compute; reflexivity).
  rewrite forallb_forall in Hall. apply list_elem_of_In in Ht, Hp.
  specialize (Hall _ Ht). rewrite forallb_forall in Hall. specialize (Hall _ Hp).
  by apply (event_within_b_ok 100000 (Place _)).
Qed.

Lemma plain_grown :
  grown 100000 0 (sum_list ((feed_steps ∘ fst) <$> ((fun feed => (feed, false)) <$> sample_feeds)))
    <= i64_max.
Proof. apply Z.leb_le. vm_compute. reflexivity. Qed.

Lemma plain_opens options track chunks output base :
  plain_open options track = (chunks, Ok (output, base)) -> PACKET_TIME_BASE = base.
Proof. by intros [= _ <-]. Qed.

Lemma plain_muxes : is_Some (muxer (plain_run sample_feeds)).
Proof. vm_compute. eauto. Qed.

Lemma muxer_fed_in_order_witness :
  exists mux, muxer (plain_run sample_feeds) = Some mux /\
    StronglySorted Z.lt (omap dts (timing <$> written mux)).
Proof.
  destruct plain_muxes as [mux Hmux]. exists mux. split; [done|].
  exact (proj2 (muxer_fed_in_order plain_open (fun _ _ => Ok true) plain_write
    (fun _ => ([], Ok tt)) 100000 (eq PACKET_TIME_BASE) plain_opens remux_options_default
    ((fun feed => (feed, false)) <$> sample_feeds) false ltac:(lia) plain_times plain_grown
    mux Hmux)).
Defined.
