(* ===== verification/Sql.v ===== *)
(** * Statements and what they mean

    The expressions and statements the code builds through sea-query, as the
    trees its calls make, and the database's documented meaning of the
    operators the filters use, as a class: a client proves its theorems from
    the laws, and a database (here, the evaluator at the end) is an instance.
    [SqlDialect] is of [ceres-database/src/filter.rs].

    The parts after this one: escaping text for patterns. *)
From S2P Require Import Prelude.
From stdpp Require Import pretty.
From S2P Require Import Text.
Local Open Scope Z_scope.

Inductive SqlDialect := SqliteText | Postgres.

#[export] Instance sql_dialect_eq_dec : EqDecision SqlDialect.
Proof. solve_decision. Defined.

(** A value bound or stored; a timestamp is nanoseconds since the epoch, and a
    JSON document is its text. *)
Inductive SqlValue :=
  | ValBool (value : bool)
  | ValInt (value : Z)
  | ValText (value : string)
  | ValBytes (value : list Z)
  | ValUuid (value : string)
  | ValTimestamp (value : Z)
  | ValJson (text : string).

#[export] Instance sql_value_eq_dec : EqDecision SqlValue.
Proof. solve_decision. Defined.

#[export] Instance sql_value_countable : Countable SqlValue.
Proof.
  apply (inj_countable'
    (fun value => match value with
       | ValBool held => inl held | ValInt held => inr (inl held) | ValText held => inr (inr (inl held))
       | ValBytes held => inr (inr (inr (inl held))) | ValUuid held => inr (inr (inr (inr (inl held))))
       | ValTimestamp held => inr (inr (inr (inr (inr (inl held)))))
       | ValJson held => inr (inr (inr (inr (inr (inr held)))))
       end)
    (fun code => match code with
       | inl held => ValBool held | inr (inl held) => ValInt held | inr (inr (inl held)) => ValText held
       | inr (inr (inr (inl held))) => ValBytes held | inr (inr (inr (inr (inl held)))) => ValUuid held
       | inr (inr (inr (inr (inr (inl held))))) => ValTimestamp held
       | inr (inr (inr (inr (inr (inr held))))) => ValJson held
       end)).
  by intros [].
Defined.

Inductive BinOper := OpAnd | OpOr | OpEq | OpNe | OpLt | OpLte | OpGt | OpGte | OpGlob.

(** [SimpleExpr] and [SelectStatement], as far as the code builds them. [Cust]
    is a custom expression over its arguments, [Func] a function's call. *)
Inductive Expr :=
  | Col (column : string)
  | Lit (value : SqlValue)
  | Cast (expr : Expr) (type : string)
  | Binary (op : BinOper) (left right : Expr)
  | Not (expr : Expr)
  | Like (expr : Expr) (pattern : string) (escape : option ascii)
  | IsIn (expr : Expr) (values : list SqlValue)
  | InQuery (columns : list Expr) (query : Select)
  | IsNotNull (expr : Expr)
  | Cust (text : string) (arguments : list Expr)
  | Func (name : string) (arguments : list Expr)
  | Exists (query : Select)
with Select :=
  | MkSelect (exprs : list Expr) (from : Source) (where_ : list Expr) (group_by : list Expr)
      (order : list (Expr * bool)) (limit offset : option Z)
with Source :=
  | Table (name : string)
  | Union (first : Select) (rest : list Select) (alias : string).

(** [Asterisk], as an expression of a select. *)
Definition Asterisk : Expr := Cust "*" [].

Definition expr_and (a b : Expr) : Expr := Binary OpAnd a b.
Definition expr_or (a b : Expr) : Expr := Binary OpOr a b.
Definition expr_eq (a : Expr) (value : SqlValue) : Expr := Binary OpEq a (Lit value).
Definition expr_ne (a : Expr) (value : SqlValue) : Expr := Binary OpNe a (Lit value).
Definition expr_glob (a : Expr) (pattern : string) : Expr :=
  Binary OpGlob a (Lit (ValText pattern)).

(** [Iterator::reduce]. *)
Definition reduce {A} (f : A -> A -> A) (l : list A) : option A :=
  match l with [] => None | a :: l => Some (foldl f a l) end.

(** ** Three-valued logic *)

Definition kleene_and (a b : option bool) : option bool :=
  match a, b with
  | Some false, _ | _, Some false => Some false
  | Some true, Some true => Some true
  | _, _ => None
  end.

Definition kleene_or (a b : option bool) : option bool :=
  match a, b with
  | Some true, _ | _, Some true => Some true
  | Some false, Some false => Some false
  | _, _ => None
  end.

Definition kleene_not (a : option bool) : option bool := negb <$> a.

Lemma kleene_and_some a b : kleene_and (Some a) (Some b) = Some (a && b).
Proof. by destruct a, b. Qed.
Lemma kleene_or_some a b : kleene_or (Some a) (Some b) = Some (a || b).
Proof. by destruct a, b. Qed.

(** Comparing two values of one kind; text compares by code point. *)
Fixpoint bytes_compare (a b : list Z) : comparison :=
  match a, b with
  | [], [] => Eq
  | [], _ :: _ => Lt
  | _ :: _, [] => Gt
  | x :: a, y :: b => match x ?= y with Eq => bytes_compare a b | c => c end
  end.

(** The 1-based place of the first run equal to [wanted], 0 when there is
    none. *)
Fixpoint bytes_instr (held wanted : list Z) : Z :=
  if bool_decide (take (length wanted) held = wanted) then 1
  else
    match held with
    | [] => 0
    | _ :: held => match bytes_instr held wanted with 0 => 0 | place => place + 1 end
    end.

(** Two hexadecimal digits and a space for every byte. *)
Definition hex_digit (n : Z) : ascii :=
  Strings.Ascii.ascii_of_nat (Z.to_nat (if n <? 10 then 48 + n else 87 + n)).
Fixpoint hex_tokens (bytes : list Z) : string :=
  match bytes with
  | [] => EmptyString
  | byte :: bytes =>
      String (hex_digit (byte / 16)) (String (hex_digit (byte mod 16))
        (String " " (hex_tokens bytes)))
  end.

Definition value_compare (a b : SqlValue) : option comparison :=
  match a, b with
  | ValInt a, ValInt b | ValTimestamp a, ValTimestamp b => Some (a ?= b)
  | ValText a, ValText b | ValUuid a, ValUuid b => Some (Strings.String.compare a b)
  | ValBytes a, ValBytes b => Some (bytes_compare a b)
  | ValBool a, ValBool b => Some (Bool.compare a b)
  | _, _ => None
  end.

Definition oper_holds (op : BinOper) (c : comparison) : bool :=
  match op, c with
  | OpEq, Eq | OpLt, Lt | OpGt, Gt | OpLte, (Lt | Eq) | OpGte, (Gt | Eq) | OpNe, (Lt | Gt) => true
  | _, _ => false
  end.

(** ** The database's documented meaning *)

(** What a cast to text gives of a text, a document or an integer. *)
Definition cast_text (held : SqlValue) : option string :=
  match held with ValText text | ValJson text => Some text | ValInt number => Some (pretty number) | _ => None end.

Class SqlSemantics (dialect : SqlDialect) (Row : Type) := {
  (** A row's value in a column, [None] where it is null. *)
  cell : Row -> string -> option SqlValue;
  (** An expression's value, [None] where it is null. *)
  value : Row -> Expr -> option SqlValue;
  (** A condition on a row, [None] where it is unknown. *)
  holds : Row -> Expr -> option bool;
  (** [LIKE] with an escape character, and [GLOB]. *)
  like : option ascii -> string -> string -> bool;
  glob : string -> string -> bool;

  value_col row column : value row (Col column) = cell row column;
  value_cast row column held text :
    cell row column = Some held -> cast_text held = Some text ->
    value row (Cast (Col column) "TEXT") = Some (ValText text);
  value_cast_null row column : cell row column = None -> value row (Cast (Col column) "TEXT") = None;
  holds_lit row held : holds row (Lit (ValBool held)) = Some held;
  holds_and row a b : holds row (Binary OpAnd a b) = kleene_and (holds row a) (holds row b);
  holds_or row a b : holds row (Binary OpOr a b) = kleene_or (holds row a) (holds row b);
  holds_not row a : holds row (Not a) = kleene_not (holds row a);
  holds_compare row op a held wanted c :
    op <> OpAnd -> op <> OpOr -> op <> OpGlob ->
    value row a = Some held -> value_compare held wanted = Some c ->
    holds row (Binary op a (Lit wanted)) = Some (oper_holds op c);
  holds_compare_null row op a wanted :
    op <> OpAnd -> op <> OpOr -> value row a = None -> holds row (Binary op a (Lit wanted)) = None;
  holds_in row a held values :
    values <> [] -> value row a = Some held ->
    Forall (fun wanted => is_Some (value_compare held wanted)) values ->
    holds row (IsIn a values) =
      Some (existsb (fun wanted => bool_decide (value_compare held wanted = Some Eq)) values);
  holds_in_null row a values : value row a = None -> holds row (IsIn a values) = None;
  holds_is_not_null row column :
    holds row (IsNotNull (Col column)) = Some (bool_decide (is_Some (cell row column)));
  holds_like row a pattern escape text :
    value row a = Some (ValText text) ->
    holds row (Like a pattern escape) = Some (like escape pattern text);
  holds_like_null row a pattern escape :
    value row a = None -> holds row (Like a pattern escape) = None;
  holds_glob row a pattern text :
    dialect = SqliteText -> value row a = Some (ValText text) ->
    holds row (Binary OpGlob a (Lit (ValText pattern))) = Some (glob pattern text);

  like_end escape text : like escape "" text = true <-> text = EmptyString;
  like_any escape pattern text :
    escape <> Some "%"%char ->
    like escape (String "%" pattern) text = true <->
    exists before after, text = before +:+ after /\ like escape pattern after = true;
  like_escaped escape c pattern text :
    dialect = Postgres \/ is_ascii_alphabetic c = false ->
    like (Some escape) (String escape (String c pattern)) text = true <->
    exists rest, text = String c rest /\ like (Some escape) pattern rest = true;
  (** A character that is no wildcard matches itself; [LIKE] folds the case of
      ASCII letters on SQLite. *)
  like_char escape c pattern text :
    c <> "%"%char -> c <> "_"%char -> escape <> Some c ->
    dialect = Postgres \/ is_ascii_alphabetic c = false ->
    like escape (String c pattern) text = true <->
    exists rest, text = String c rest /\ like escape pattern rest = true;

  glob_end text : glob "" text = true <-> text = EmptyString;
  glob_any pattern text :
    glob (String "*" pattern) text = true <->
    exists before after, text = before +:+ after /\ glob pattern after = true;
  glob_set c pattern text :
    c <> "]"%char -> c <> "^"%char ->
    glob (String "[" (String c (String "]" pattern))) text = true <->
    exists rest, text = String c rest /\ glob pattern rest = true;
  glob_char c pattern text :
    c <> "*"%char -> c <> "?"%char -> c <> "["%char ->
    glob (String c pattern) text = true <->
    exists rest, text = String c rest /\ glob pattern rest = true
}.

(** ** An evaluator

    Enough of a database to run the conditions on: rows are maps from columns
    to values, sets in [GLOB] patterns hold one character, and anything
    outside the laws is unknown. *)
Section evaluator.
Context (dialect : SqlDialect).

Definition lower_ascii (c : ascii) : ascii :=
  if ascii_between "A"%char "Z"%char c
  then Strings.Ascii.ascii_of_nat (Strings.Ascii.nat_of_ascii c + 32) else c.

Definition like_same (c x : ascii) : bool :=
  match dialect with
  | Postgres => Strings.Ascii.eqb c x
  | SqliteText => Strings.Ascii.eqb (lower_ascii c) (lower_ascii x)
  end.

(** Whether [test] holds of a suffix of the text. *)
Fixpoint any_suffix (test : string -> bool) (text : string) : bool :=
  test text || match text with EmptyString => false | String _ text => any_suffix test text end.

(** The rest of the text after a first character that passes. *)
Definition after_first (first : ascii -> bool) (rest : string -> bool) (text : string) : bool :=
  match text with String x text => first x && rest text | EmptyString => false end.

Fixpoint like_eval (escape : option ascii) (pattern : string) : string -> bool :=
  match pattern with
  | EmptyString => fun text => bool_decide (text = EmptyString)
  | String c pattern =>
      if decide (escape = Some c) then
        match pattern with
        | EmptyString => fun _ => false
        | String d pattern => after_first (like_same d) (like_eval escape pattern)
        end
      else if Strings.Ascii.eqb c "%" then any_suffix (like_eval escape pattern)
      else if Strings.Ascii.eqb c "_" then after_first (fun _ => true) (like_eval escape pattern)
      else after_first (like_same c) (like_eval escape pattern)
  end.

Fixpoint glob_eval (pattern : string) : string -> bool :=
  match pattern with
  | EmptyString => fun text => bool_decide (text = EmptyString)
  | String c pattern =>
      if Strings.Ascii.eqb c "*" then any_suffix (glob_eval pattern)
      else if Strings.Ascii.eqb c "?" then after_first (fun _ => true) (glob_eval pattern)
      else if Strings.Ascii.eqb c "[" then
        match pattern with
        | String d (String _ pattern) => after_first (Strings.Ascii.eqb d) (glob_eval pattern)
        | _ => fun _ => false
        end
      else after_first (Strings.Ascii.eqb c) (glob_eval pattern)
  end.

Definition SimpleRow : Type := gmap string SqlValue.

(** The functions the statements call, over their arguments' values. *)
Definition eval_function (name : string) (arguments : list (option SqlValue)) : option SqlValue :=
  match arguments with
  | [Some (ValBytes held); Some (ValBytes wanted)] =>
      if decide (name = "instr") then Some (ValInt (bytes_instr held wanted)) else None
  | [Some (ValBytes held); Some (ValInt start)] =>
      if decide (name = "substr") then
        Some (ValBytes (drop (length held - Z.to_nat (- start)) held))
      else None
  | [Some (ValBytes held); Some (ValInt start); Some (ValInt count)] =>
      if decide (name = "substr") then
        Some (ValBytes (take (Z.to_nat count) (drop (Z.to_nat (start - 1)) held)))
      else None
  | [Some (ValBytes held)] =>
      if decide (name = "ceres_tokenize_bytes") then Some (ValText (hex_tokens held)) else None
  | [Some (ValTimestamp stamp)] =>
      if decide (name = "date_part('hour', $1 AT TIME ZONE 'UTC')") then
        Some (ValInt (stamp / 3600000000000 mod 24))
      else if decide (name = "date_part('minute', $1 AT TIME ZONE 'UTC')") then
        Some (ValInt (stamp / 60000000000 mod 60))
      else None
  | _ => None
  end.

Fixpoint eval_value (row : SimpleRow) (expr : Expr) : option SqlValue :=
  match expr with
  | Col column => row !! column
  | Lit held => Some held
  | Cast a type =>
      match eval_value row a with
      | Some held =>
          if decide (type = "TEXT") then match cast_text held with Some text => Some (ValText text) | None => None end
          else match held with ValJson _ => None | _ => Some held end
      | None => None
      end
  | Func name arguments | Cust name arguments =>
      eval_function name (map (eval_value row) arguments)
  | _ => None
  end.

Definition eval_text (row : SimpleRow) (expr : Expr) : option string :=
  match eval_value row expr with Some (ValText text) => Some text | _ => None end.

Fixpoint eval_holds (row : SimpleRow) (expr : Expr) : option bool :=
  match expr with
  | Lit (ValBool held) => Some held
  | Binary OpAnd a b => kleene_and (eval_holds row a) (eval_holds row b)
  | Binary OpOr a b => kleene_or (eval_holds row a) (eval_holds row b)
  | Binary OpGlob a (Lit (ValText pattern)) => glob_eval pattern <$> eval_text row a
  | Binary OpGlob _ _ => None
  | Binary op a (Lit wanted) =>
      match eval_value row a with
      | Some held => oper_holds op <$> value_compare held wanted
      | None => None
      end
  | Not a => kleene_not (eval_holds row a)
  | Like a pattern escape => like_eval escape pattern <$> eval_text row a
  | IsIn a values =>
      match eval_value row a with
      | Some held =>
          Some (existsb (fun wanted => bool_decide (value_compare held wanted = Some Eq)) values)
      | None => None
      end
  | IsNotNull (Col column) => Some (bool_decide (is_Some (row !! column)))
  | _ => None
  end.

Lemma any_suffix_true test text :
  any_suffix test text = true <->
  exists before after, text = before +:+ after /\ test after = true.
Proof.
  induction text as [|x text IH]; cbn.
  - rewrite orb_false_r. split; [by exists EmptyString, EmptyString|].
    intros ([|] & after & Heq & Ht); [by rewrite str_app_nil in Heq; subst|].
    by rewrite str_app_cons in Heq.
  - rewrite orb_true_iff, IH. split.
    + intros [Ht|(before & after & -> & Ht)]; [by exists EmptyString, (String x text)|].
      exists (String x before), after. by rewrite str_app_cons.
    + intros ([|y before] & after & Heq & Ht).
      * rewrite str_app_nil in Heq. subst. by left.
      * rewrite str_app_cons in Heq. injection Heq as -> ->. right. eauto.
Qed.

Lemma after_first_true first rest text :
  after_first first rest text = true <->
  exists x tail, text = String x tail /\ first x = true /\ rest tail = true.
Proof.
  destruct text as [|x text]; cbn; [naive_solver|]. rewrite andb_true_iff. naive_solver.
Qed.

Lemma lower_ascii_alphabetic c x :
  is_ascii_alphabetic c = false -> lower_ascii c = lower_ascii x -> c = x.
Proof.
  revert c x.
  assert (Hall : forallb (fun c => forallb (fun x =>
    is_ascii_alphabetic c || negb (Strings.Ascii.eqb (lower_ascii c) (lower_ascii x)) ||
    Strings.Ascii.eqb c x) (Strings.Ascii.ascii_of_nat <$> seq 0 256))
    (Strings.Ascii.ascii_of_nat <$> seq 0 256) = true) by (vm_compute; reflexivity).
  intros c x Hc Heq. rewrite forallb_forall in Hall.
  assert (Hin : forall a, In a (Strings.Ascii.ascii_of_nat <$> seq 0 256)).
  { intros a. apply in_map_iff. exists (Strings.Ascii.nat_of_ascii a).
    split; [apply Strings.Ascii.ascii_nat_embedding|]. apply in_seq.
    pose proof (Strings.Ascii.nat_ascii_bounded a). lia. }
  specialize (Hall c (Hin c)). rewrite forallb_forall in Hall. specialize (Hall x (Hin x)).
  rewrite Hc, Heq, Strings.Ascii.eqb_refl in Hall. cbn in Hall.
  by apply Strings.Ascii.eqb_eq.
Qed.

Lemma like_same_spec c x :
  dialect = Postgres \/ is_ascii_alphabetic c = false -> like_same c x = true <-> x = c.
Proof.
  unfold like_same. intros Hd. destruct dialect.
  - destruct Hd as [|Hc]; [done|]. rewrite Strings.Ascii.eqb_eq.
    split; [|by intros ->]. intros Heq. symmetry. by apply lower_ascii_alphabetic.
  - rewrite Strings.Ascii.eqb_eq. naive_solver.
Qed.

Lemma after_first_char first rest c text :
  (forall x, first x = true <-> x = c) ->
  after_first first rest text = true <-> exists tail, text = String c tail /\ rest tail = true.
Proof. intros Hf. rewrite after_first_true. setoid_rewrite Hf. naive_solver. Qed.

#[export] Program Instance evaluator : SqlSemantics dialect SimpleRow := {|
  cell row column := row !! column;
  value := eval_value;
  holds := eval_holds;
  like := like_eval;
  glob := glob_eval
|}.
Next Obligation. done. Qed.
Next Obligation. intros row column held text Hcell Htext. cbn. by rewrite Hcell, Htext. Qed.
Next Obligation. intros row column Hcell. cbn. by rewrite Hcell. Qed.
Next Obligation. done. Qed.
Next Obligation. done. Qed.
Next Obligation. done. Qed.
Next Obligation. done. Qed.
Next Obligation. intros row op a held wanted c Ha Ho Hg Hvalue Hc. destruct op; cbn; try done; by rewrite Hvalue, Hc. Qed.
Next Obligation.
  intros row op a wanted Ha Ho Hnull. destruct op; cbn; try done; try by rewrite Hnull.
  destruct wanted; try done. unfold eval_text. by rewrite Hnull.
Qed.
Next Obligation. intros row a held values _ Hvalue _. cbn. by rewrite Hvalue. Qed.
Next Obligation. intros row a values Hnull. cbn. by rewrite Hnull. Qed.
Next Obligation. done. Qed.
Next Obligation. intros row a pattern escape text Hvalue. cbn. unfold eval_text. by rewrite Hvalue. Qed.
Next Obligation. intros row a pattern escape Hnull. cbn. unfold eval_text. by rewrite Hnull. Qed.
Next Obligation. intros row a pattern text _ Hvalue. cbn. unfold eval_text. by rewrite Hvalue. Qed.
Next Obligation. intros escape text. cbn. apply bool_decide_eq_true. Qed.
Next Obligation.
  intros escape pattern text He. cbn. destruct (decide _); [done|]. apply any_suffix_true.
Qed.
Next Obligation.
  intros escape c pattern text Hd. cbn. destruct (decide _); [|done].
  apply after_first_char. intros x. by apply like_same_spec.
Qed.
Next Obligation.
  intros escape c pattern text Hp Hu He Hd. cbn. destruct (decide _); [done|].
  apply Strings.Ascii.eqb_neq in Hp, Hu. rewrite Hp, Hu.
  apply after_first_char. intros x. by apply like_same_spec.
Qed.
Next Obligation. intros text. cbn. apply bool_decide_eq_true. Qed.
Next Obligation. intros pattern text. cbn. apply any_suffix_true. Qed.
Next Obligation.
  intros c pattern text Hc Hn. cbn. apply after_first_char. intros x.
  rewrite Strings.Ascii.eqb_eq. naive_solver.
Qed.
Next Obligation.
  intros c pattern text Hs Hq Hb. cbn.
  apply Strings.Ascii.eqb_neq in Hs, Hq, Hb. rewrite Hs, Hq, Hb.
  apply after_first_char. intros x. rewrite Strings.Ascii.eqb_eq. naive_solver.
Qed.
End evaluator.

(** * Escaping text for patterns

    [like_escape] and [glob_escape] of [ceres-database/src/filter.rs], and what
    the escaped patterns match. *)

(** [like_escape]. *)
Definition like_escape (text : string) : string :=
  replace_char "_" "^_" (replace_char "%" "^%" text).

(** [glob_escape]. *)
Definition glob_escape (text : string) : string :=
  replace_char "?" "[?]" (replace_char "*" "[*]" (replace_char "[" "[[]" text)).

Lemma replace_char_app c by_ (a b : string) :
  replace_char c by_ (a +:+ b) = replace_char c by_ a +:+ replace_char c by_ b.
Proof.
  induction a as [|x a IH]; [done|]. rewrite str_app_cons. cbn.
  destruct (Strings.Ascii.eqb x c); rewrite IH; by rewrite ?str_app_assoc, ?str_app_cons.
Qed.

Definition like_escape_char (c : ascii) : string := like_escape (String c EmptyString).
Definition glob_escape_char (c : ascii) : string := glob_escape (String c EmptyString).

Lemma like_escape_cons c text :
  like_escape (String c text) = like_escape_char c +:+ like_escape text.
Proof.
  unfold like_escape_char, like_escape. rewrite <-!replace_char_app.
  change (String c text) with (String c EmptyString +:+ text) at 1.
  by rewrite !replace_char_app.
Qed.

Lemma glob_escape_cons c text :
  glob_escape (String c text) = glob_escape_char c +:+ glob_escape text.
Proof.
  unfold glob_escape_char, glob_escape.
  change (String c text) with (String c EmptyString +:+ text) at 1.
  by rewrite !replace_char_app.
Qed.

Lemma like_escape_char_spec c :
  like_escape_char c =
    if Strings.Ascii.eqb c "%" then "^%" else if Strings.Ascii.eqb c "_" then "^_"
    else String c EmptyString.
Proof.
  unfold like_escape_char, like_escape. cbn. destruct (Strings.Ascii.eqb_spec c "%"); [by subst|].
  cbn. by destruct (Strings.Ascii.eqb_spec c "_").
Qed.

Lemma glob_escape_char_spec c :
  glob_escape_char c =
    if Strings.Ascii.eqb c "[" then "[[]" else if Strings.Ascii.eqb c "*" then "[*]"
    else if Strings.Ascii.eqb c "?" then "[?]" else String c EmptyString.
Proof.
  unfold glob_escape_char, glob_escape. cbn. destruct (Strings.Ascii.eqb_spec c "["); [by subst|].
  cbn. destruct (Strings.Ascii.eqb_spec c "*"); [by subst|].
  cbn. by destruct (Strings.Ascii.eqb_spec c "?").
Qed.

Lemma replace_char_id c by_ text : contains_char c text = false -> replace_char c by_ text = text.
Proof.
  induction text as [|x text IH]; [done|]. cbn. intros [Hx Ht]%orb_false_iff.
  by rewrite Hx, (IH Ht).
Qed.

Section patterns.
Context {dialect : SqlDialect} {Row : Type} `{!SqlSemantics dialect Row}.

(** An escaped text at a pattern's start matches that text and nothing else,
    the caret apart, which is the escape character itself. *)
Lemma like_escaped_text text pattern subject :
  dialect = Postgres \/ str_forall (fun c => negb (is_ascii_alphabetic c)) text = true ->
  contains_char "^" text = false ->
  like (Some "^"%char) (like_escape text +:+ pattern) subject = true <->
  exists rest, subject = text +:+ rest /\ like (Some "^"%char) pattern rest = true.
Proof.
  revert subject. induction text as [|c text IH]; intros subject Hd Hcaret.
  { rewrite str_app_nil. setoid_rewrite str_app_nil. naive_solver. }
  cbn in Hcaret. apply orb_false_iff in Hcaret as [Hc Hcaret].
  apply Strings.Ascii.eqb_neq in Hc.
  assert (Hdc : dialect = Postgres \/ is_ascii_alphabetic c = false).
  { destruct Hd as [|Hd]; [by left|right]. cbn in Hd. apply andb_true_iff in Hd as [Hd _].
    by destruct (is_ascii_alphabetic c). }
  assert (Hdt : dialect = Postgres \/
    str_forall (fun c => negb (is_ascii_alphabetic c)) text = true).
  { destruct Hd as [|Hd]; [by left|right]. cbn in Hd. by apply andb_true_iff in Hd as [_ Hd]. }
  assert (Hstep : like (Some "^"%char) (like_escape (String c text) +:+ pattern) subject = true <->
    exists rest, subject = String c rest /\
      like (Some "^"%char) (like_escape text +:+ pattern) rest = true).
  { rewrite like_escape_cons, like_escape_char_spec, str_app_assoc.
    destruct (Strings.Ascii.eqb_spec c "%") as [->|Hp];
      [|destruct (Strings.Ascii.eqb_spec c "_") as [->|Hu]]; rewrite !str_app_cons, str_app_nil.
    - by apply like_escaped.
    - by apply like_escaped.
    - apply like_char; try done. congruence. }
  rewrite Hstep. setoid_rewrite IH; [|done..]. split.
  - intros (rest & -> & rest' & -> & H). exists rest'. by rewrite str_app_cons.
  - intros (rest & -> & H). rewrite str_app_cons. eauto.
Qed.

Lemma glob_escaped_text text pattern subject :
  glob (glob_escape text +:+ pattern) subject = true <->
  exists rest, subject = text +:+ rest /\ glob pattern rest = true.
Proof.
  revert subject. induction text as [|c text IH]; intros subject.
  { rewrite str_app_nil. setoid_rewrite str_app_nil. naive_solver. }
  assert (Hstep : glob (glob_escape (String c text) +:+ pattern) subject = true <->
    exists rest, subject = String c rest /\ glob (glob_escape text +:+ pattern) rest = true).
  { rewrite glob_escape_cons, glob_escape_char_spec, str_app_assoc.
    destruct (Strings.Ascii.eqb_spec c "[") as [->|Hb];
      [|destruct (Strings.Ascii.eqb_spec c "*") as [->|Hs];
        [|destruct (Strings.Ascii.eqb_spec c "?") as [->|Hq]]];
      rewrite !str_app_cons, str_app_nil;
      [by apply glob_set..|by apply glob_char]. }
  rewrite Hstep. setoid_rewrite IH. split.
  - intros (rest & -> & rest' & -> & H). exists rest'. by rewrite str_app_cons.
  - intros (rest & -> & H). rewrite str_app_cons. eauto.
Qed.

(** The patterns that end where the text does, and that end with a wildcard. *)
Lemma like_rest escape subject :
  escape <> Some "%"%char -> like escape "%" subject = true.
Proof.
  intros He. apply like_any; [done|]. exists subject, EmptyString.
  rewrite str_app_nil_r. split; [done|by apply like_end].
Qed.

Lemma like_dot escape pattern subject :
  escape <> Some "."%char ->
  like escape (String "." pattern) subject = true <->
  exists rest, subject = String "." rest /\ like escape pattern rest = true.
Proof. intros He. apply like_char; [done..|by right]. Qed.

(** Anything, a dot, and anything. *)
Lemma like_dotted escape subject :
  escape <> Some "%"%char -> escape <> Some "."%char ->
  like escape "%.%" subject = contains_char "." subject.
Proof.
  intros Hp Hd. apply eq_true_iff_eq. rewrite contains_char_true, like_any by done.
  setoid_rewrite like_dot; [|done]. split.
  - intros (before & after & -> & rest & -> & _). eauto.
  - intros (before & after & ->). exists before, (String "." after). split; [done|].
    exists after. split; [done|by apply like_rest].
Qed.

Lemma glob_rest subject : glob "*" subject = true.
Proof.
  apply glob_any. exists subject, EmptyString.
  rewrite str_app_nil_r. split; [done|by apply glob_end].
Qed.

Lemma glob_dot pattern subject :
  glob (String "." pattern) subject = true <->
  exists rest, subject = String "." rest /\ glob pattern rest = true.
Proof. by apply glob_char. Qed.

Lemma glob_dotted subject : glob "*.*" subject = contains_char "." subject.
Proof.
  apply eq_true_iff_eq. rewrite contains_char_true, glob_any.
  setoid_rewrite glob_dot. split.
  - intros (before & after & -> & rest & -> & _). eauto.
  - intros (before & after & ->). exists before, (String "." after). split; [done|].
    exists after. split; [done|apply glob_rest].
Qed.
End patterns.
