(* ===== verification/Selector.v ===== *)
(** * Addresses and address selectors

    [ceres-entities/src/address.rs] and [ceres-database/src/selector.rs]: the
    address grammar, selectors, their in-memory matching, their compiled
    conditions, and the scope a listing is expanded over. A place where the
    code panics is [None]. *)
From S2P Require Import Prelude Text Sql.
Local Open Scope Z_scope.
Local Open Scope string_scope.

(** ** Addresses *)

Definition name_start (c : ascii) : bool :=
  is_ascii_alphabetic c || Strings.Ascii.eqb c "_" || Strings.Ascii.eqb c "-".
Definition name_char (c : ascii) : bool :=
  is_ascii_alphanumeric c || Strings.Ascii.eqb c "_" || Strings.Ascii.eqb c "-".

(** [is_valid_name], which is [valid_name] of the selectors too. *)
Definition is_valid_name (name : string) : bool :=
  match name with
  | EmptyString => false
  | String first rest => name_start first && str_forall name_char rest
  end.

(** [is_valid]. *)
Definition is_valid (text : string) : bool :=
  if decide (text = "~") then true
  else match strip_prefix "@" text with
       | None => false
       | Some path => forallb is_valid_name (str_split "." path)
       end.

(** [Address::parse], [debug] being [Debug] of a string. *)
Definition address_parse (debug : string -> string) (text : string) : result string string :=
  if is_valid text then Ok text
  else Err (debug text +:+ " is not a valid component address").

(** ** Selectors *)

(** [valid_path]. *)
Definition valid_path (text : string) : bool :=
  negb (bool_decide (text = "")) && forallb is_valid_name (str_split "." text).

(** [valid_address]. *)
Definition valid_address (text : string) : bool :=
  if decide (text = "~") then true
  else match strip_prefix "@" text with Some path => valid_path path | None => false end.

(** [valid_optionally_absolute_path]. *)
Definition valid_optionally_absolute_path (text : string) : bool :=
  valid_path (default text (strip_prefix "@" text)).

Inductive Modifier := ModAll | ModChildren | ModDescendants.

#[export] Instance modifier_eq_dec : EqDecision Modifier.
Proof. solve_decision. Defined.

(** [Modifier::parse]. *)
Definition modifier_parse (text : string) : option Modifier :=
  if decide (text = "all") then Some ModAll
  else if decide (text = "children") then Some ModChildren
  else if decide (text = "descendants") then Some ModDescendants
  else None.

(** [valid_segment]. *)
Definition valid_segment (segment : string) : bool :=
  if decide (segment = "~" \/ segment = "~:all" \/ segment = "~:descendants") then true
  else
    match split_once ":" segment with
    | Some (base, modifier) =>
        match modifier_parse modifier with
        | None => false
        | Some _ =>
            if decide (base = "" \/ base = "@") then true
            else valid_optionally_absolute_path base
        end
    | None => valid_optionally_absolute_path segment
    end.

Record AddressSelector := { segments : list string }.

#[export] Instance address_selector_eq_dec : EqDecision AddressSelector.
Proof. solve_decision. Defined.

Definition selector_default : AddressSelector := {| segments := [] |}.

(** [AddressSelector::push]. *)
Definition push (debug : string -> string) (value : string) (self : AddressSelector) :
    result AddressSelector string :=
  res_fold (fun self segment =>
    if negb (valid_segment segment) then Err ("invalid address selector " +:+ debug value)
    else Ok {| segments := segments self ++ [segment] |}) self (str_split "|" value).

(** [base]. *)
Definition base (root : option string) : string :=
  match root with
  | None => "@"
  | Some root => if decide (root = "~") then "@" else root
  end.

(** [absolute_segment]. *)
Definition absolute_segment (segment base : string) : string :=
  let segment := if decide (segment = "all") then ":all" else segment in
  if str_starts_with ":" segment then base +:+ segment
  else if str_starts_with "~" segment || str_starts_with "@" segment then segment
  else if decide (base = "@") then base +:+ segment
  else base +:+ "." +:+ segment.

(** [segment_matches]. *)
Definition segment_matches (segment address : string) : option bool :=
  match split_once ":" segment with
  | None => Some (bool_decide (address = segment))
  | Some (base, modifier) =>
      match modifier_parse modifier with
      | None => None
      | Some modifier =>
          Some
            (if decide (base = "~") then
               match modifier with
               | ModAll => true
               | _ => negb (bool_decide (address = "~"))
               end
             else if decide (base = "@") then
               match modifier with
               | ModAll | ModDescendants => negb (bool_decide (address = "~"))
               | ModChildren => str_starts_with "@" address && negb (contains_char "." address)
               end
             else
               let descendant :=
                 match strip_prefix base address with
                 | Some rest => strip_prefix "." rest
                 | None => None
                 end in
               match modifier with
               | ModAll => bool_decide (address = base) || bool_decide (is_Some descendant)
               | ModDescendants => bool_decide (is_Some descendant)
               | ModChildren =>
                   match descendant with
                   | Some rest => negb (contains_char "." rest)
                   | None => false
                   end
               end)
      end
  end.

(** [Iterator::any] over a test that may panic. *)
Fixpoint any_of {A} (test : A -> option bool) (l : list A) : option bool :=
  match l with
  | [] => Some false
  | a :: l =>
      match test a with
      | None => None
      | Some true => Some true
      | Some false => any_of test l
      end
  end.

(** [AddressSelector::matches]. *)
Definition matches (self : AddressSelector) (address : string) (root : option string) :
    option bool :=
  any_of (fun segment => segment_matches (absolute_segment segment (base root)) address)
    (segments self).

(** ** Scopes *)

Record Scope := { literals : list string; prefixes : list string; unbounded : bool }.

Definition scope_default : Scope := {| literals := []; prefixes := []; unbounded := false |}.

(** [Scope::everything]. *)
Definition everything : Scope := {| literals := []; prefixes := []; unbounded := true |}.

(** The loop of [AddressSelector::scope]. *)
Fixpoint scope_from (scope : Scope) (absolute : list string) : option Scope :=
  match absolute with
  | [] => Some scope
  | segment :: absolute =>
      match split_once ":" segment with
      | None =>
          scope_from {| literals := literals scope ++ [segment]; prefixes := prefixes scope;
                        unbounded := unbounded scope |} absolute
      | Some (held, modifier) =>
          match modifier_parse modifier with
          | None => None
          | Some modifier =>
              if decide (held = "~" \/ held = "@") then Some everything
              else
                scope_from
                  {| literals :=
                       if decide (modifier = ModAll) then literals scope ++ [held]
                       else literals scope;
                     prefixes := prefixes scope ++ [held +:+ "."];
                     unbounded := unbounded scope |} absolute
          end
      end
  end.

(** [AddressSelector::scope]. *)
Definition scope (self : AddressSelector) (root : option string) : option Scope :=
  scope_from scope_default ((fun segment => absolute_segment segment (base root)) <$> segments self).

(** [String::pop], then [push('/')]: [Scope::ceiling]. *)
Fixpoint str_pop (text : string) : string :=
  match text with
  | EmptyString => EmptyString
  | String c EmptyString => EmptyString
  | String c text => String c (str_pop text)
  end.

Definition ceiling (prefix : string) : string := str_pop prefix +:+ "/".

(** ** Conditions *)

(** [segment_condition]'s [prefixed]. *)
Definition prefixed (column base depth : string) (dialect : SqlDialect) : Expr :=
  match dialect with
  | SqliteText =>
      expr_glob (Col column) (replace_char "%" "*" (glob_escape base +:+ "." +:+ depth))
  | Postgres => Like (Col column) (like_escape base +:+ "." +:+ depth) (Some "^"%char)
  end.

(** [segment_condition]. *)
Definition segment_condition (column segment : string) (dialect : SqlDialect) : option Expr :=
  match split_once ":" segment with
  | None => Some (expr_eq (Col column) (ValText segment))
  | Some (base, modifier) =>
      match modifier_parse modifier with
      | None => None
      | Some modifier =>
          Some
            (if decide (base = "~") then
               match modifier with
               | ModAll => Lit (ValBool true)
               | _ => expr_ne (Col column) (ValText "~")
               end
             else if decide (base = "@") then
               match modifier with
               | ModAll | ModDescendants => expr_ne (Col column) (ValText "~")
               | ModChildren =>
                   expr_and (Like (Col column) "@%" None) (Not (Like (Col column) "%.%" None))
               end
             else
               match modifier with
               | ModAll =>
                   expr_or (expr_eq (Col column) (ValText base)) (prefixed column base "%" dialect)
               | ModDescendants => prefixed column base "%" dialect
               | ModChildren =>
                   expr_and (prefixed column base "%" dialect)
                     (Not (prefixed column base "%.%" dialect))
               end)
      end
  end.

(** [AddressSelector::condition]. *)
Definition condition (self : AddressSelector) (column : string) (root : option string)
    (dialect : SqlDialect) : option Expr :=
  match mapM (fun segment =>
    segment_condition column (absolute_segment segment (base root)) dialect) (segments self) with
  | Some conditions => reduce expr_or conditions
  | None => None
  end.

(** ** The grammar *)

Lemma is_valid_address text : is_valid text = valid_address text.
Proof.
  unfold is_valid, valid_address, valid_path. destruct (decide _); [done|].
  destruct (strip_prefix "@" text) as [path|]; [|done]. case_bool_decide; [by subst|done].
Qed.

Definition path_char (c : ascii) : bool := name_char c || Strings.Ascii.eqb c ".".

Lemma name_start_char c : name_start c = true -> name_char c = true.
Proof.
  unfold name_start, name_char, is_ascii_alphanumeric.
  destruct (is_ascii_alphabetic c); [done|]. cbn.
  by destruct (is_ascii_digit c).
Qed.

Lemma is_valid_name_chars name : is_valid_name name = true -> str_forall name_char name = true.
Proof.
  destruct name as [|c name]; [done|]. cbn. intros [Hc Hn]%andb_true_iff.
  by rewrite (name_start_char _ Hc), Hn.
Qed.

Lemma valid_path_chars path : valid_path path = true -> str_forall path_char path = true.
Proof.
  unfold valid_path. intros [_ Hall]%andb_true_iff.
  rewrite <-(str_join_split "." path). apply str_forall_join; [done|].
  apply Forall_forall. intros name Hin. rewrite forallb_forall in Hall.
  specialize (Hall name (proj1 (list_elem_of_In _ _) Hin)).
  apply is_valid_name_chars in Hall. revert Hall. apply str_forall_impl.
  unfold path_char. by intros c ->.
Qed.

Lemma valid_path_app a b :
  valid_path a = true -> valid_path b = true -> valid_path (a +:+ String "." b) = true.
Proof.
  unfold valid_path. intros [Ha Ha']%andb_true_iff [Hb Hb']%andb_true_iff.
  rewrite str_split_concat, forallb_app, Ha', Hb'. rewrite andb_true_r.
  apply negb_true_iff, bool_decide_eq_false. destruct a; [done|by rewrite str_app_cons].
Qed.

Lemma valid_path_start path :
  valid_path path = true -> exists c rest, path = String c rest /\ name_start c = true.
Proof.
  unfold valid_path. intros [Hne Hall]%andb_true_iff.
  destruct path as [|c path]; [done|]. exists c, path. split; [done|]. cbn in Hall.
  destruct (Strings.Ascii.eqb_spec c "."); [done|].
  destruct (str_split "." path) as [|first rest]; cbn in Hall;
    apply andb_true_iff in Hall as [Hall _]; by apply andb_true_iff in Hall as [Hall _].
Qed.

Lemma path_no_char c path :
  path_char c = false -> valid_path path = true -> contains_char c path = false.
Proof. intros Hc Hp%valid_path_chars. by eapply str_forall_no_char. Qed.

(** What a valid segment resolves to. *)
Inductive held_ok : string -> Modifier -> Prop :=
  | held_engine modifier : modifier <> ModChildren -> held_ok "~" modifier
  | held_all modifier : held_ok "@" modifier
  | held_path path modifier : valid_path path = true -> held_ok (String "@" path) modifier.

Inductive absolute_ok (segment : string) : Prop :=
  | absolute_literal : valid_address segment = true -> contains_char ":" segment = false ->
      absolute_ok segment
  | absolute_moded held text modifier :
      split_once ":" segment = Some (held, text) -> modifier_parse text = Some modifier ->
      held_ok held modifier -> absolute_ok segment.

Lemma absolute_path path : valid_path path = true -> absolute_ok (String "@" path).
Proof.
  intros Hp. apply absolute_literal; [done|]. cbn. by apply path_no_char.
Qed.

Lemma held_ok_no_colon held modifier : held_ok held modifier -> contains_char ":" held = false.
Proof. destruct 1; [done..|]. cbn. by apply path_no_char. Qed.

Lemma absolute_modifier held text modifier :
  modifier_parse text = Some modifier -> held_ok held modifier ->
  absolute_ok (held +:+ String ":" text).
Proof.
  intros Hm Hh. eapply absolute_moded; [|done|done].
  apply split_once_Some. split; [done|]. by eapply held_ok_no_colon.
Qed.

Definition root_ok (root : option string) : Prop :=
  match root with Some root => valid_address root = true | None => True end.

(** The base is every component, or a component. *)
Lemma base_ok root :
  root_ok root -> base root = "@" \/ exists path, base root = String "@" path /\ valid_path path = true.
Proof.
  destruct root as [root|]; [|by left]. unfold base, root_ok, valid_address.
  destruct (decide (root = "~")); [by left|].
  destruct (strip_prefix "@" root) as [path|] eqn:Hs; [|done].
  apply strip_prefix_Some in Hs as ->. right. by exists path.
Qed.

Lemma base_modifier root text modifier :
  root_ok root -> modifier_parse text = Some modifier ->
  absolute_ok (base root +:+ String ":" text).
Proof.
  intros Hr Hm. eapply absolute_modifier; [done|].
  destruct (base_ok root Hr) as [->|(path & -> & Hp)]; constructor. done.
Qed.

Lemma path_not_anchored path :
  valid_path path = true ->
  str_starts_with ":" path = false /\ str_starts_with "~" path = false /\
  str_starts_with "@" path = false.
Proof.
  intros (c & rest & -> & Hc)%valid_path_start. unfold str_starts_with. cbn [strip_prefix].
  assert (forall x, name_start x = false -> Strings.Ascii.eqb x c = false) as Hne.
  { intros x Hx. apply Strings.Ascii.eqb_neq. intros <-. congruence. }
  by rewrite !Hne.
Qed.

Lemma starts_with_app prefix a b :
  str_starts_with (String prefix "") (a +:+ b) =
    match a with EmptyString => str_starts_with (String prefix "") b
               | _ => str_starts_with (String prefix "") a end.
Proof.
  destruct a as [|x a]; [done|]. rewrite str_app_cons. unfold str_starts_with.
  cbn [strip_prefix]. by destruct (Strings.Ascii.eqb prefix x).
Qed.

(** A relative path joined under the base, with what follows it. *)
Lemma joined_path root path :
  root_ok root -> valid_path path = true ->
  exists joined,
    (if decide (base root = "@") then base root +:+ path else base root +:+ "." +:+ path) =
      String "@" joined /\ valid_path joined = true.
Proof.
  intros Hr Hp. destruct (base_ok root Hr) as [->|(r & -> & Hroot)].
  - by exists path.
  - rewrite decide_False.
    + exists (r +:+ String "." path). split; [done|by apply valid_path_app].
    + intros [= ->]. by destruct (valid_path_start _ Hroot) as (? & ? & ? & ?).
Qed.

Lemma absolute_relative root path rest :
  valid_path path = true -> path +:+ rest <> "all" ->
  absolute_segment (path +:+ rest) (base root) =
    (if decide (base root = "@") then base root +:+ path else base root +:+ "." +:+ path) +:+ rest.
Proof.
  intros Hp Hall. unfold absolute_segment. rewrite (decide_False _ _ Hall).
  destruct (path_not_anchored path Hp) as (H1 & H2 & H3).
  rewrite !starts_with_app. destruct path as [|c path]; [done|].
  rewrite H1, H2, H3. cbn [orb].
  destruct (decide (base root = "@")); by rewrite ?str_app_assoc.
Qed.

Lemma absolute_segment_ok segment root :
  valid_segment segment = true -> root_ok root ->
  absolute_ok (absolute_segment segment (base root)).
Proof.
  intros Hvalid Hroot. unfold valid_segment in Hvalid.
  destruct (decide _) as [Hengine|_].
  { destruct Hengine as [->|[->| ->]]; cbn.
    - by apply absolute_literal.
    - apply (absolute_modifier "~" "all" ModAll); [done|by constructor].
    - apply (absolute_modifier "~" "descendants" ModDescendants); [done|by constructor]. }
  destruct (split_once ":" segment) as [[held text]|] eqn:Hsplit.
  - apply split_once_Some in Hsplit as [-> Hcolon].
    destruct (modifier_parse text) as [modifier|] eqn:Hm; [|done].
    assert (Hall : held +:+ String ":" text <> "all").
    { intros Heq. assert (contains_char ":" "all" = true) as H; [|done].
      rewrite <-Heq, contains_char_app. cbn. by rewrite orb_true_r. }
    destruct (decide (held = "" \/ held = "@")) as [[->| ->]|].
    + unfold absolute_segment. rewrite decide_False by done. cbn. by eapply base_modifier.
    + unfold absolute_segment. rewrite decide_False by done. cbn.
      apply (absolute_modifier "@" text modifier); [done|constructor].
    + unfold valid_optionally_absolute_path in Hvalid.
      destruct (strip_prefix "@" held) as [path|] eqn:Hs; cbn in Hvalid.
      * apply strip_prefix_Some in Hs as ->. unfold absolute_segment. rewrite decide_False by done.
        rewrite !starts_with_app. cbn.
        apply (absolute_modifier (String "@" path) text modifier); [done|by constructor].
      * rewrite absolute_relative by done.
        destruct (joined_path root held Hroot Hvalid) as (joined & -> & Hj).
        apply (absolute_modifier (String "@" joined) text modifier); [done|by constructor].
  - unfold valid_optionally_absolute_path in Hvalid.
    destruct (strip_prefix "@" segment) as [path|] eqn:Hs; cbn in Hvalid.
    + apply strip_prefix_Some in Hs as ->. unfold absolute_segment. rewrite decide_False by done.
      rewrite !starts_with_app. cbn. by apply absolute_path.
    + destruct (decide (segment = "all")) as [->|Hall].
      * unfold absolute_segment. cbn. by apply (base_modifier root "all" ModAll).
      * rewrite <-(str_app_nil_r segment) in *. rewrite str_app_nil_r in Hvalid.
        rewrite absolute_relative by done.
        destruct (joined_path root segment Hroot Hvalid) as (joined & Hj & Hjoined).
        rewrite Hj, str_app_nil_r. by apply absolute_path.
Qed.

(** ** Compiled conditions agree with matching in memory *)

Definition descendant (base address : string) : option string :=
  match strip_prefix base address with Some rest => strip_prefix "." rest | None => None end.

Lemma descendant_Some base address rest :
  descendant base address = Some rest <-> address = base +:+ String "." rest.
Proof.
  unfold descendant. destruct (strip_prefix base address) as [after|] eqn:Hs.
  - apply strip_prefix_Some in Hs as ->. rewrite strip_prefix_Some. split; [by intros ->|].
    intros Heq%str_app_inj. by rewrite Heq.
  - split; [done|]. intros Heq%strip_prefix_Some. congruence.
Qed.

Lemma held_no_wildcard path c :
  valid_path path = true -> path_char c = false -> c <> "@"%char ->
  contains_char c (String "@" path) = false.
Proof.
  intros Hp Hc Ha. cbn [contains_char]. rewrite (path_no_char _ _ Hc Hp), orb_false_r.
  apply Strings.Ascii.eqb_neq. congruence.
Qed.

Section compiled.
Context {dialect : SqlDialect} {Row : Type} `{!SqlSemantics dialect Row}.

Lemma holds_prefixed row column path depth address (test : string -> bool) :
  valid_path path = true -> cell row column = Some (ValText address) ->
  (dialect = SqliteText -> forall rest, glob (replace_char "%" "*" depth) rest = test rest) ->
  (dialect = Postgres -> forall rest, like (Some "^"%char) depth rest = test rest) ->
  holds row (prefixed column (String "@" path) depth dialect) =
    Some (match descendant (String "@" path) address with
          | Some rest => test rest | None => false end).
Proof.
  intros Hp Hcell Hglob Hlike. rewrite <- value_col in Hcell.
  unfold prefixed. destruct dialect eqn:Hd.
  - unfold expr_glob. rewrite (holds_glob _ _ _ _ eq_refl Hcell). f_equal.
    apply eq_true_iff_eq.
    assert (replace_char "%" "*" (glob_escape (String "@" path) +:+ "." +:+ depth) =
      glob_escape (String "@" path) +:+ "." +:+ replace_char "%" "*" depth) as ->.
    { rewrite !replace_char_app. f_equal. apply replace_char_id.
      unfold glob_escape. rewrite !(replace_char_id _ _ (String "@" path))
        by by apply held_no_wildcard. by apply held_no_wildcard. }
    rewrite glob_escaped_text. setoid_rewrite (glob_dot (replace_char "%" "*" depth)).
    destruct (descendant _ _) as [rest|] eqn:Hdesc.
    + apply descendant_Some in Hdesc as ->. rewrite <-(Hglob eq_refl rest). split.
      * intros (after & Heq%str_app_inj & rest' & -> & H). by injection Heq as <-.
      * intros H. eauto.
    + split; [|done]. intros (after & Heq & rest & -> & _).
      apply descendant_Some in Heq. congruence.
  - rewrite (holds_like _ _ _ _ _ Hcell). f_equal. apply eq_true_iff_eq.
    rewrite like_escaped_text; [|by left|by apply held_no_wildcard].
    setoid_rewrite (like_dot (Some "^"%char) depth); [|done].
    destruct (descendant _ _) as [rest|] eqn:Hdesc.
    + apply descendant_Some in Hdesc as ->. rewrite <-(Hlike eq_refl rest). split.
      * intros (after & Heq%str_app_inj & rest' & -> & H). by injection Heq as <-.
      * intros H. eauto.
    + split; [|done]. intros (after & Heq & rest & -> & _).
      apply descendant_Some in Heq. congruence.
Qed.

Lemma holds_text_eq row column text address :
  cell row column = Some (ValText address) ->
  holds row (expr_eq (Col column) (ValText text)) = Some (bool_decide (address = text)).
Proof.
  intros Hcell. rewrite <- value_col in Hcell. unfold expr_eq.
  rewrite (holds_compare _ _ _ (ValText address) _ (Strings.String.compare address text)); try done.
  f_equal. apply eq_true_iff_eq. rewrite bool_decide_eq_true, <-(text_compare_eq address text).
  by destruct (Strings.String.compare address text).
Qed.

Lemma holds_text_ne row column text address :
  cell row column = Some (ValText address) ->
  holds row (expr_ne (Col column) (ValText text)) = Some (negb (bool_decide (address = text))).
Proof.
  intros Hcell. rewrite <- value_col in Hcell. unfold expr_ne.
  rewrite (holds_compare _ _ _ (ValText address) _ (Strings.String.compare address text)); try done.
  f_equal. apply eq_true_iff_eq.
  rewrite negb_true_iff, bool_decide_eq_false, <-(text_compare_eq address text).
  by destruct (Strings.String.compare address text).
Qed.

Lemma holds_descendants row column path address :
  valid_path path = true -> cell row column = Some (ValText address) ->
  holds row (prefixed column (String "@" path) "%" dialect) =
    Some (bool_decide (is_Some (descendant (String "@" path) address))).
Proof.
  intros Hp Hcell. rewrite (holds_prefixed row column path "%" address (fun _ => true)); try done.
  - by destruct (descendant _ _).
  - intros _ rest. apply glob_rest.
  - intros _ rest. by apply like_rest.
Qed.

Lemma holds_grandchildren row column path address :
  valid_path path = true -> cell row column = Some (ValText address) ->
  holds row (prefixed column (String "@" path) "%.%" dialect) =
    Some (match descendant (String "@" path) address with
          | Some rest => contains_char "." rest | None => false end).
Proof.
  intros Hp Hcell. apply holds_prefixed; try done.
  - intros _ rest. apply glob_dotted.
  - intros _ rest. by apply like_dotted.
Qed.

Lemma holds_top_level row column address :
  cell row column = Some (ValText address) ->
  holds row (expr_and (Like (Col column) "@%" None) (Not (Like (Col column) "%.%" None))) =
    Some (str_starts_with "@" address && negb (contains_char "." address)).
Proof.
  intros Hcell. rewrite <- value_col in Hcell. unfold expr_and.
  rewrite holds_and, holds_not, !(holds_like _ _ _ _ _ Hcell), like_dotted by done.
  assert (like None "@%" address = str_starts_with "@" address) as ->.
  { apply eq_true_iff_eq. rewrite str_starts_with_true, like_char by (try done; by right).
    setoid_rewrite like_rest; [|done]. split.
    - intros (rest & -> & _). by exists rest.
    - intros (rest & ->). by exists rest. }
  by destruct (str_starts_with "@" address), (contains_char "." address).
Qed.

Lemma segment_condition_correct row column segment address :
  absolute_ok segment -> cell row column = Some (ValText address) ->
  exists condition matched, segment_condition column segment dialect = Some condition /\
    segment_matches segment address = Some matched /\ holds row condition = Some matched.
Proof.
  intros Hok Hcell. unfold segment_condition, segment_matches.
  destruct Hok as [_ Hlit|held text modifier Hsplit Hm Hheld].
  - apply split_once_None in Hlit. rewrite Hlit. eexists _, _. split_and!; [done..|].
    by apply holds_text_eq.
  - rewrite Hsplit, Hm. eexists _, _. split_and!; [done..|]. destruct Hheld as [m Hne|m|path m Hp].
    + cbn. destruct m; [by apply holds_lit|done|by apply holds_text_ne].
    + cbn. destruct m; [by apply holds_text_ne|by apply holds_top_level|by apply holds_text_ne].
    + assert (String "@" path <> "@").
      { intros [= ->]. by destruct (valid_path_start _ Hp) as (? & ? & ? & ?). }
      rewrite !(decide_False (P := String "@" path = "~")) by done.
      rewrite !(decide_False (P := String "@" path = "@")) by done.
      fold (descendant (String "@" path) address). destruct m.
      * unfold expr_or. rewrite holds_or, (holds_text_eq _ _ _ _ Hcell),
          (holds_descendants _ _ _ _ Hp Hcell).
        by rewrite kleene_or_some.
      * unfold expr_and. rewrite holds_and, holds_not, (holds_descendants _ _ _ _ Hp Hcell),
          (holds_grandchildren _ _ _ _ Hp Hcell).
        by destruct (descendant _ _) as [rest|]; [destruct (contains_char "." rest)|].
      * by apply holds_descendants.
Qed.

(** A selector as [push] builds it. *)
Definition selector_ok (self : AddressSelector) : Prop :=
  segments self <> [] /\ Forall (fun segment => valid_segment segment = true) (segments self).

Lemma conditions_correct row column root segs address :
  Forall (fun segment => valid_segment segment = true) segs -> root_ok root ->
  cell row column = Some (ValText address) ->
  exists conditions matched,
    mapM (fun segment => segment_condition column (absolute_segment segment (base root)) dialect)
      segs = Some conditions /\
    length conditions = length segs /\
    any_of (fun segment => segment_matches (absolute_segment segment (base root)) address) segs =
      Some matched /\
    forall init value, holds row init = Some value ->
      holds row (foldl expr_or init conditions) = Some (value || matched).
Proof.
  intros Hall Hroot Hcell. induction Hall as [|segment segs Hs _ IH].
  { exists [], false. split_and!; try done. intros init value Hi. cbn. by rewrite orb_false_r. }
  destruct IH as (conditions & matched & Hmap & Hlen & Hany & Hfold).
  destruct (segment_condition_correct row column (absolute_segment segment (base root)) address)
    as (c & b & Hc & Hb & Hh); [by apply absolute_segment_ok|done|].
  exists (c :: conditions), (b || matched). cbn. rewrite Hc, Hmap, Hb. cbn.
  split_and!; [done|by rewrite Hlen|by destruct b|].
  intros init value Hi. rewrite (Hfold _ (value || b)), orb_assoc; [done|].
  unfold expr_or. rewrite holds_or, Hi, Hh. by destruct value, b.
Qed.

Lemma condition_correct row column root self address :
  selector_ok self -> root_ok root -> cell row column = Some (ValText address) ->
  exists expr matched, condition self column root dialect = Some expr /\
    matches self address root = Some matched /\ holds row expr = Some matched.
Proof.
  intros [Hne Hall] Hroot Hcell. unfold condition, matches.
  destruct (segments self) as [|segment segs]; [done|]. apply Forall_cons in Hall as [Hs Hall].
  destruct (conditions_correct row column root segs address Hall Hroot Hcell)
    as (conditions & matched & Hmap & _ & Hany & Hfold).
  destruct (segment_condition_correct row column (absolute_segment segment (base root)) address)
    as (c & b & Hc & Hb & Hh); [by apply absolute_segment_ok|done|].
  cbn. rewrite Hc, Hmap, Hb. cbn. exists (foldl expr_or c conditions), (b || matched).
  split_and!; [done|by destruct b|by apply Hfold].
Qed.

(** C7: a selector's compiled condition holds of a row exactly when the
    selector selects the row's address in memory, on both dialects, whatever
    the root its relative segments resolve against; compiling and matching
    never panic. *)
Theorem selector_condition_correct (row : Row) (column : string) (root : option string)
    (self : AddressSelector) (address : string) (Hself : selector_ok self)
    (Hroot : root_ok root) (Hcell : cell row column = Some (ValText address)) :
  exists expr matched, condition self column root dialect = Some expr /\
    matches self address root = Some matched /\ holds row expr = Some matched.
Proof. exact (condition_correct row column root self address Hself Hroot Hcell). Qed.
End compiled.

(** ** Witnesses *)

(** A row addressed at a sensor of a rig, in a SQLite table. *)
Definition rig_row : SimpleRow := {[ "address" := ValText "@rig.sensor_1" ]}.

Definition rig_selector : AddressSelector := {| segments := ["engine"; ":children"] |}.

Lemma selector_condition_correct_witness :
  exists expr, condition rig_selector "address" (Some "@rig") SqliteText = Some expr /\
    eval_holds SqliteText rig_row expr = Some true.
Proof.
  destruct (selector_condition_correct (dialect := SqliteText) rig_row "address" (Some "@rig")
    rig_selector "@rig.sensor_1") as (expr & matched & Hcondition & Hmatch & Hholds).
  - split; [done|]. vm_compute. repeat constructor.
  - vm_compute. reflexivity.
  - reflexivity.
  - exists expr. split; [done|].
    assert (matches rig_selector "@rig.sensor_1" (Some "@rig") = Some true) as Htrue
      by (vm_compute; reflexivity).
    rewrite Htrue in Hmatch. injection Hmatch as <-. exact Hholds.
Defined.
