(* ===== verification/Discovery.v ===== *)
(** * Discovering a selector's branches

    [discover_branches] and [walk_distinct] of [ceres-database/src/store.rs],
    which read the distinct addresses a selector's scope covers, and what a
    scope ([Selector.v]) promises. The database answering
    [SELECT min(address)] is a parameter. *)
From S2P Require Import Prelude.
From stdpp Require Import sorting pretty.
From S2P Require Import Text Sql Selector.
Local Open Scope Z_scope.
Local Open Scope string_scope.
Local Open Scope list_scope.

(** Text ordered by code point, which UTF-8's bytes keep. *)
Definition str_lt (a b : string) : bool :=
  match Strings.String.compare a b with Lt => true | _ => false end.
Definition str_le (a b : string) : bool :=
  match Strings.String.compare a b with Gt => false | _ => true end.

Lemma str_compare_cons x a y b :
  Strings.String.compare (String x a) (String y b) =
    match Strings.Ascii.compare x y with
    | Eq => Strings.String.compare a b
    | c => c
    end.
Proof. done. Qed.

Lemma ascii_compare_refl x : Strings.Ascii.compare x x = Eq.
Proof. unfold Strings.Ascii.compare. apply N.compare_refl. Qed.

Lemma str_lt_app h a b : str_lt (h +:+ a) (h +:+ b) = str_lt a b.
Proof.
  induction h as [|x h IH]; [done|]. rewrite !str_app_cons. unfold str_lt in *.
  by rewrite str_compare_cons, ascii_compare_refl.
Qed.

Lemma str_le_app h a b : str_le (h +:+ a) (h +:+ b) = str_le a b.
Proof.
  induction h as [|x h IH]; [done|]. rewrite !str_app_cons. unfold str_le in *.
  by rewrite str_compare_cons, ascii_compare_refl.
Qed.

Lemma str_compare_antisym a b :
  Strings.String.compare a b = CompOpp (Strings.String.compare b a).
Proof.
  revert b. induction a as [|x a IH]; intros [|y b]; try done.
  rewrite !str_compare_cons. unfold Strings.Ascii.compare.
  rewrite (N.compare_antisym (Strings.Ascii.N_of_ascii y)).
  destruct (N.compare (Strings.Ascii.N_of_ascii y) _); cbn; [apply IH|done|done].
Qed.

Lemma str_le_not_lt a b : str_le a b = negb (str_lt b a).
Proof.
  unfold str_le, str_lt. rewrite (str_compare_antisym a b).
  by destruct (Strings.String.compare b a).
Qed.

Lemma str_lt_trans a b c : str_lt a b = true -> str_lt b c = true -> str_lt a c = true.
Proof.
  unfold str_lt. revert b c.
  induction a as [|x a IH]; intros [|y b] [|z c]; try done. rewrite !str_compare_cons.
  unfold Strings.Ascii.compare.
  destruct (N.compare_spec (Strings.Ascii.N_of_ascii x) (Strings.Ascii.N_of_ascii y)),
    (N.compare_spec (Strings.Ascii.N_of_ascii y) (Strings.Ascii.N_of_ascii z)),
    (N.compare_spec (Strings.Ascii.N_of_ascii x) (Strings.Ascii.N_of_ascii z));
    try done; try lia. apply IH.
Qed.

Lemma str_le_cases a b : str_le a b = true -> a = b \/ str_lt a b = true.
Proof.
  unfold str_le, str_lt. destruct (Strings.String.compare a b) eqn:E; [|by right|done].
  left. by apply text_compare_eq.
Qed.

Lemma str_lt_irrefl a : str_lt a a = false.
Proof. unfold str_lt. by rewrite (proj2 (text_compare_eq a a) eq_refl). Qed.

Lemma str_lt_le a b : str_lt a b = true -> str_le a b = true.
Proof. unfold str_lt, str_le. by destruct (Strings.String.compare a b). Qed.

Lemma str_le_refl a : str_le a a = true.
Proof. unfold str_le. by rewrite (proj2 (text_compare_eq a a) eq_refl). Qed.

Lemma str_le_trans a b c : str_le a b = true -> str_le b c = true -> str_le a c = true.
Proof.
  intros [->|Hab]%str_le_cases [->|Hbc]%str_le_cases;
    [apply str_le_refl|by apply str_lt_le|by apply str_lt_le|].
  apply str_lt_le. by eapply str_lt_trans.
Qed.

Lemma str_le_lt_le a b c : str_le a b = true -> str_lt b c = true -> str_le a c = true.
Proof.
  intros [->|Hab]%str_le_cases Hbc; [by apply str_lt_le|].
  apply str_lt_le. by eapply str_lt_trans.
Qed.

Lemma str_pop_snoc held c : str_pop (held +:+ String c "") = held.
Proof.
  induction held as [|x held IH]; [done|]. rewrite str_app_cons.
  assert (exists y rest, held +:+ String c "" = String y rest) as (y & rest & Hne).
  { destruct held; [rewrite str_app_nil|rewrite str_app_cons]; eauto. }
  rewrite Hne in IH |- *. cbn in *. by rewrite IH.
Qed.

(** The range a prefix is walked over holds just what starts with it. *)
Lemma prefix_range held address :
  (str_le (held +:+ ".") address && str_lt address (ceiling (held +:+ "."))) =
    str_starts_with (held +:+ ".") address.
Proof.
  unfold ceiling. rewrite str_pop_snoc. revert address.
  induction held as [|x held IH]; intros address.
  - rewrite !str_app_nil. destruct address as [|y address]; [done|].
    unfold str_le, str_lt, str_starts_with. rewrite !str_compare_cons. cbn [strip_prefix].
    unfold Strings.Ascii.compare.
    destruct (Strings.Ascii.eqb_spec "." y) as [<-|Hne]; [by destruct address|].
    assert (Strings.Ascii.N_of_ascii y <> 46%N) as Hny.
    { intros H. apply Hne. rewrite <-(Strings.Ascii.ascii_N_embedding y), H. done. }
    change (Strings.Ascii.N_of_ascii ".") with 46%N.
    change (Strings.Ascii.N_of_ascii "/") with 47%N.
    destruct (N.compare_spec 46 (Strings.Ascii.N_of_ascii y)); [lia| |done].
    destruct (N.compare_spec (Strings.Ascii.N_of_ascii y) 47); [|lia|done].
    cbn. by destruct address.
  - rewrite !str_app_cons. destruct address as [|y address]; [done|].
    unfold str_le, str_lt, str_starts_with. rewrite !str_compare_cons. cbn [strip_prefix].
    destruct (Strings.Ascii.eqb_spec x y) as [<-|Hne].
    + rewrite ascii_compare_refl. exact (IH address).
    + unfold Strings.Ascii.compare.
      rewrite (N.compare_antisym (Strings.Ascii.N_of_ascii y)).
      destruct (N.compare_spec (Strings.Ascii.N_of_ascii y) (Strings.Ascii.N_of_ascii x))
        as [Heq| |]; [|done|done].
      exfalso. apply Hne. rewrite <-(Strings.Ascii.ascii_N_embedding x), <-Heq.
      apply Strings.Ascii.ascii_N_embedding.
Qed.

(** ** What a scope covers *)

Definition covers (scope : Scope) (address : string) : Prop :=
  unbounded scope = true \/ address ∈ literals scope \/
  exists prefix, prefix ∈ prefixes scope /\ str_starts_with prefix address = true.

Lemma covers_more scope scope' address :
  (unbounded scope = true -> unbounded scope' = true) ->
  literals scope ⊆ literals scope' -> prefixes scope ⊆ prefixes scope' ->
  covers scope address -> covers scope' address.
Proof. unfold covers. set_solver. Qed.

(** One segment's own part of the scope. *)
Lemma scope_from_covers absolute scope address :
  Forall absolute_ok absolute ->
  exists after, scope_from scope absolute = Some after /\
    (covers scope address -> covers after address) /\
    (any_of (fun segment => segment_matches segment address) absolute = Some true ->
     covers after address).
Proof.
  intros Hall. revert scope. induction Hall as [|segment absolute Hok _ IH]; intros scope.
  { exists scope. by split_and!. }
  cbn [scope_from any_of]. unfold segment_matches.
  destruct Hok as [_ Hlit|held text modifier Hsplit Hm Hheld].
  - apply split_once_None in Hlit. rewrite Hlit.
    destruct (IH {| literals := literals scope ++ [segment]; prefixes := prefixes scope;
                    unbounded := unbounded scope |}) as (after & Ha & Hkeep & Hmatch).
    exists after. split; [done|]. split.
    + intros Hc. apply Hkeep. revert Hc. apply covers_more; cbn; set_solver.
    + case_bool_decide; [|exact Hmatch]. intros _. apply Hkeep. right. left. cbn. set_solver.
  - rewrite Hsplit, Hm.
    destruct (decide (held = "~" \/ held = "@")) as [Hw|Hw].
    { exists everything. split; [done|]. split; intros _; by left. }
    assert (exists path, held = String "@" path /\ valid_path path = true) as (path & -> & Hp).
    { destruct Hheld as [| |path m Hp]; [naive_solver|naive_solver|eauto]. }
    set (next := {| literals := _ |}).
    destruct (IH next) as (after & Ha & Hkeep & Hmatch). exists after. split; [done|].
    assert (Hnext : covers scope address -> covers next address).
    { apply covers_more; cbn; [done| |set_solver]. destruct (decide _); set_solver. }
    split; [auto|].
    assert (Hself : forall rest, descendant (String "@" path) address = Some rest ->
      covers after address).
    { intros rest Hd%descendant_Some. apply Hkeep. right. right. exists (String "@" path +:+ ".").
      split; [cbn; set_solver|]. apply str_starts_with_true. exists rest. subst address.
      by rewrite str_app_assoc. }
    rewrite (decide_False (P := String "@" path = "~")) by naive_solver.
    rewrite (decide_False (P := String "@" path = "@")) by naive_solver.
    fold (descendant (String "@" path) address).
    destruct (descendant (String "@" path) address) as [rest|] eqn:Hd.
    { intros _. by eapply Hself. }
    destruct modifier; cbn; [|exact Hmatch..].
    case_bool_decide as Heq; cbn; [|exact Hmatch]. intros _. apply Hkeep. right. left.
    subst. cbn. set_solver.
Qed.

(** Every prefix ends in the dot its children hang off. *)
Definition dotted (prefix : string) : Prop := exists held, prefix = held +:+ ".".

Lemma scope_from_dotted absolute scope after :
  scope_from scope absolute = Some after -> Forall dotted (prefixes scope) ->
  Forall dotted (prefixes after).
Proof.
  revert scope. induction absolute as [|segment absolute IH]; intros scope; cbn.
  { by intros [= <-]. }
  destruct (split_once ":" segment) as [[held text]|]; [|exact (IH _)].
  destruct (modifier_parse text) as [modifier|]; [|done].
  destruct (decide (held = "~" \/ held = "@")).
  { intros [= <-] _. apply Forall_nil_2. }
  intros Hs Hall. apply (IH _ Hs). cbn. apply Forall_app. split; [done|].
  apply Forall_singleton. by exists held.
Qed.

Lemma scope_covers self root address :
  selector_ok self -> root_ok root ->
  exists found, scope self root = Some found /\
    (matches self address root = Some true -> covers found address).
Proof.
  intros [_ Hall] Hroot. unfold scope, matches.
  assert (Habs : Forall absolute_ok ((fun segment => absolute_segment segment (base root)) <$> segments self)).
  { apply Forall_fmap. eapply Forall_impl; [exact Hall|]. intros s Hs.
    by apply absolute_segment_ok. }
  destruct (scope_from_covers _ scope_default address Habs) as (after & Ha & _ & Hm).
  exists after. split; [done|]. intros Hmatch. apply Hm.
  revert Hmatch. clear. induction (segments self) as [|segment segs IH]; [done|]. cbn.
  destruct (segment_matches _ address) as [[]|]; [done|exact IH|done].
Qed.

(** ** Walking the stored addresses *)

Definition BRANCH_CAP : nat := 256.

(** The bounds of a walk's next query: a cursor, included or not, and an
    exclusive ceiling. *)
Definition within (cursor : option (bool * string)) (ceiling : option string) (address : string) :
    bool :=
  match cursor with
  | None => true
  | Some (true, cursor) => str_le cursor address
  | Some (false, cursor) => str_lt cursor address
  end &&
  match ceiling with None => true | Some ceiling => str_lt address ceiling end.

(** What a listing runs: the plain statement, or one over branches. *)
Inductive Listing := Plain | Over (branches : list string).

(** [Vec::dedup], of consecutive repeats. *)
Fixpoint dedup (l : list string) : list string :=
  match l with
  | [] => []
  | a :: l =>
      match l with
      | b :: _ => if decide (a = b) then dedup l else a :: dedup l
      | [] => [a]
      end
  end.

Definition str_ordered (a b : string) : Prop := str_le a b = true.
#[export] Instance str_ordered_dec : RelDecision str_ordered.
Proof. intros a b. apply (decide_rel (=)). Defined.

Section discovery.
Context {Error : Type}.
(** [SELECT min(address)] between bounds. *)
Context (query_min : option (bool * string) -> option string -> result (option string) Error).

(** The loop of [walk_distinct], [room] the queries left before [found] is
    longer than the cap. *)
Fixpoint walk_from (room : nat) (cursor : option (bool * string)) (ceiling : option string)
    (found : list string) : result (list string) Error :=
  match room with
  | O => Ok found
  | S room =>
      match query_min cursor ceiling with
      | Err error => Err error
      | Ok None => Ok found
      | Ok (Some next) => walk_from room (Some (false, next)) ceiling (found ++ [next])
      end
  end.

(** [walk_distinct]. *)
Definition walk_distinct (floor ceiling : option string) : result (list string) Error :=
  walk_from (S BRANCH_CAP) ((fun floor => (true, floor)) <$> floor) ceiling [].

(** The ranges of [discover_branches] and its loop over them. *)
Definition scope_ranges (scope : Scope) : list (option string * option string) :=
  if unbounded scope then [(None, None)]
  else (fun prefix => (Some prefix, Some (ceiling prefix))) <$> prefixes scope.

Fixpoint walk_ranges (ranges : list (option string * option string)) (found : list string) :
    result (list string) Error :=
  match ranges with
  | [] => Ok found
  | (floor, ceiling) :: ranges =>
      match walk_distinct floor ceiling with
      | Err error => Err error
      | Ok walked =>
          let found := found ++ walked in
          if (BRANCH_CAP <? length found)%nat then Ok found else walk_ranges ranges found
      end
  end.

(** [discover_branches]. *)
Definition discover_branches (scope : Scope) : result (list string) Error :=
  match walk_ranges (scope_ranges scope) (literals scope) with
  | Err error => Err error
  | Ok found => Ok (dedup (merge_sort str_ordered found))
  end.

(** [listing_statement], given [expansion_scope]. *)
Definition listing_statement (scope : option Scope) : result Listing Error :=
  match scope with
  | None => Ok Plain
  | Some scope =>
      match discover_branches scope with
      | Err error => Err error
      | Ok branches =>
          if bool_decide (branches = []) || (BRANCH_CAP <? length branches)%nat then Ok Plain
          else Ok (Over branches)
      end
  end.

(** The stored addresses, and the documented answer of the query: the least of
    them within the bounds. *)
Context (stored : list string).
Hypothesis query_min_none : forall cursor ceiling,
  query_min cursor ceiling = Ok None ->
  forall address, address ∈ stored -> within cursor ceiling address = false.
Hypothesis query_min_some : forall cursor ceiling next,
  query_min cursor ceiling = Ok (Some next) ->
  next ∈ stored /\ within cursor ceiling next = true /\
  forall address, address ∈ stored -> within cursor ceiling address = true ->
    str_le next address = true.

Lemma walk_from_spec room cursor ceiling found result_ :
  walk_from room cursor ceiling found = Ok result_ ->
  exists walked, result_ = found ++ walked /\ (length walked <= room)%nat /\ NoDup walked /\
    Forall (fun address => address ∈ stored /\ within cursor ceiling address = true) walked /\
    ((length walked < room)%nat -> forall address, address ∈ stored ->
       within cursor ceiling address = true -> address ∈ walked).
Proof.
  revert cursor found. induction room as [|room IH]; intros cursor found; cbn.
  { intros [= <-]. exists []. rewrite app_nil_r. split_and!; [done|done|apply NoDup_nil_2|apply Forall_nil_2|cbn; lia]. }
  destruct (query_min cursor ceiling) as [[next|]|error] eqn:Hq; [|intros [= <-]|done].
  - intros Hwalk. destruct (IH _ _ Hwalk) as (walked & -> & Hlen & Hnd & Hall & Hcomp).
    destruct (query_min_some _ _ _ Hq) as (Hin & Hwithin & Hleast).
    exists (next :: walked). rewrite <-app_assoc. cbn. split_and!; [done|lia| | |].
    + constructor; [|done]. intros Hnext. rewrite Forall_forall in Hall.
      destruct (Hall _ Hnext) as [_ Hw]. unfold within in Hw.
      by rewrite str_lt_irrefl in Hw.
    + constructor; [done|]. eapply Forall_impl; [exact Hall|]. intros a [Ha Hw]. split; [done|].
      unfold within in *. apply andb_true_iff in Hw as [Hlt Hceil].
      rewrite Hceil, andb_true_r. apply andb_true_iff in Hwithin as [Hcur _].
      destruct cursor as [[[] cursor]|]; [| |done]; eauto using str_le_lt_le, str_lt_trans.
    + intros Hroom address Ha Hw. destruct (str_le_cases next address) as [->|Hlt].
      * by apply Hleast.
      * left.
      * right. apply Hcomp; [lia|done|]. unfold within in *. rewrite Hlt.
        by apply andb_true_iff in Hw as [_ ->].
  - exists []. rewrite app_nil_r. split_and!; [done|cbn; lia|apply NoDup_nil_2|apply Forall_nil_2|].
    intros _ address Ha Hw. by rewrite (query_min_none _ _ Hq _ Ha) in Hw.
Qed.

(** ** What discovery finds *)

Lemma dedup_elem a l : a ∈ dedup l <-> a ∈ l.
Proof.
  induction l as [|x l IH]; [done|]. cbn. destruct l as [|y l]; [done|].
  destruct (decide (x = y)) as [->|]; [|set_solver].
  rewrite IH. set_solver.
Qed.

Lemma dedup_NoDup l : NoDup l -> dedup l = l.
Proof.
  induction l as [|x l IH]; [done|]. intros [Hx Hnd]%NoDup_cons. cbn.
  destruct l as [|y l]; [done|]. rewrite decide_False by set_solver. by rewrite IH.
Qed.

Lemma branches_elem found address :
  address ∈ dedup (merge_sort str_ordered found) <-> address ∈ found.
Proof. rewrite dedup_elem. by rewrite (merge_sort_Permutation str_ordered found). Qed.

Lemma branches_length found :
  NoDup found -> length (dedup (merge_sort str_ordered found)) = length found.
Proof.
  intros Hnd. rewrite dedup_NoDup.
  - by rewrite (merge_sort_Permutation str_ordered found).
  - by rewrite (merge_sort_Permutation str_ordered found).
Qed.

(** What one range's walk holds: the range's own addresses, each once, all of
    them unless it ran out of room. *)
Definition in_range (range : option string * option string) (address : string) : bool :=
  within ((fun floor => (true, floor)) <$> fst range) (snd range) address.

Lemma walk_ranges_spec ranges found result_ :
  walk_ranges ranges found = Ok result_ ->
  exists walked, result_ = found ++ walked /\
    Forall (fun address => address ∈ stored) walked /\
    ((length result_ <= BRANCH_CAP)%nat -> forall range address, range ∈ ranges ->
       address ∈ stored -> in_range range address = true -> address ∈ walked) /\
    ((length ranges <= 1)%nat -> NoDup walked /\
       Forall (fun address => exists range, range ∈ ranges /\ in_range range address = true) walked).
Proof.
  revert found. induction ranges as [|[floor ceiling] ranges IH]; intros found; cbn [walk_ranges].
  { intros [= <-]. exists []. rewrite app_nil_r.
    split_and!; [done|apply Forall_nil_2|set_solver|].
    intros _. split; [apply NoDup_nil_2|apply Forall_nil_2]. }
  destruct (walk_distinct floor ceiling) as [walked|error] eqn:Hwalk; [|done].
  unfold walk_distinct in Hwalk.
  destruct (walk_from_spec _ _ _ _ _ Hwalk) as (w & Hw & Hlen & Hnd & Hall & Hcomp).
  cbn in Hw. subst w. rewrite Forall_forall in Hall.
  assert (Hrange : forall address, (length walked <= BRANCH_CAP)%nat -> address ∈ stored ->
    in_range (floor, ceiling) address = true -> address ∈ walked).
  { intros address Hle. apply Hcomp. unfold BRANCH_CAP in *. lia. }
  destruct (Nat.ltb_spec BRANCH_CAP (length (found ++ walked))) as [Hlt|Hge].
  - intros [= <-]. exists walked. split_and!; [done| |lia|].
    + apply Forall_forall. intros a Ha. by apply Hall.
    + intros _. split; [done|]. apply Forall_forall. intros a Ha.
      exists (floor, ceiling). split; [left|by apply Hall].
  - intros Hrest. destruct (IH _ Hrest) as (more & -> & Hstored & Hmore & Hone).
    exists (walked ++ more). rewrite app_assoc. rewrite length_app in Hge.
    split_and!; [done| | |].
    + apply Forall_app. split; [|done]. apply Forall_forall. intros a Ha. by apply Hall.
    + intros Hcap range address [->|Hin]%elem_of_cons Ha Hr; apply elem_of_app.
      * left. apply Hrange; [lia|done|done].
      * right. by apply (Hmore Hcap range).
    + intros Hlen1. destruct ranges; [|cbn in Hlen1; lia]. cbn in Hrest.
      injection Hrest as Hrest. rewrite <-(app_nil_r (found ++ walked)) in Hrest at 1.
      apply app_inv_head in Hrest as <-. rewrite app_nil_r. split; [done|].
      apply Forall_forall. intros a Ha. exists (floor, ceiling).
      split; [left|by apply Hall].
Qed.

Lemma covers_ranges scope address :
  Forall dotted (prefixes scope) -> covers scope address ->
  address ∈ literals scope \/
  exists range, range ∈ scope_ranges scope /\ in_range range address = true.
Proof.
  intros Hdot. unfold covers, scope_ranges. intros [Hu|[Hlit|(prefix & Hin & Hs)]].
  - rewrite Hu. right. exists (None, None). split; [set_solver|done].
  - by left.
  - right. destruct (unbounded scope); [exists (None, None); split; [set_solver|done]|].
    exists (Some prefix, Some (ceiling prefix)). split.
    { by apply (list_elem_of_fmap_2 (fun prefix => (Some prefix, Some (ceiling prefix)))). }
    rewrite Forall_forall in Hdot. destruct (Hdot _ Hin) as [held ->].
    unfold in_range, within. cbn. by rewrite prefix_range.
Qed.

(** A selector of one segment: nothing it reaches is found twice. *)
Lemma scope_one segment root found walked :
  scope {| segments := [segment] |} root = Some found ->
  NoDup walked ->
  Forall (fun address => exists range, range ∈ scope_ranges found /\
    in_range range address = true) walked ->
  (length (scope_ranges found) <= 1)%nat /\ NoDup (literals found ++ walked).
Proof.
  unfold scope. cbn. intros Hs Hnd Hall.
  destruct (split_once ":" _) as [[held text]|].
  2: { injection Hs as <-. cbn in *. split; [lia|].
       destruct walked as [|a walked]; [apply NoDup_singleton|].
       apply Forall_cons in Hall as [(range & Hin & _) _]. set_solver. }
  destruct (modifier_parse text) as [modifier|]; [|done].
  destruct (decide (held = "~" \/ held = "@")); injection Hs as <-; cbn in *; [split; [lia|done]|].
  split; [lia|]. destruct (decide (modifier = ModAll)); [|done]. cbn.
  apply NoDup_cons. split; [|done]. intros Hin. rewrite Forall_forall in Hall.
  destruct (Hall _ Hin) as (range & ->%list_elem_of_singleton & Hr).
  unfold in_range, within in Hr. cbn in Hr. rewrite prefix_range in Hr.
  apply str_starts_with_true in Hr as [rest Heq].
  rewrite <-(str_app_nil_r held) in Heq at 1. rewrite str_app_assoc in Heq.
  apply str_app_inj in Heq. done.
Qed.

(** C8: a listing expands over every branch it must: whenever a selector of
    one segment is expanded, every stored address it selects is among the
    branches; past the cap the plain statement runs instead. *)
Theorem discovery_complete (segment : string) (root : option string) (branches : list string)
    (Hsegment : valid_segment segment = true) (Hroot : root_ok root)
    (Hlisting : listing_statement (scope {| segments := [segment] |} root) = Ok (Over branches)) :
  forall address, address ∈ stored ->
    matches {| segments := [segment] |} address root = Some true -> address ∈ branches.
Proof.
  intros address Hstored Hmatch.
  assert (Hsel : selector_ok {| segments := [segment] |}).
  { split; [done|]. by apply Forall_singleton. }
  destruct (scope_covers _ root address Hsel Hroot) as (found & Hscope & Hcovers).
  specialize (Hcovers Hmatch). unfold listing_statement in Hlisting. rewrite Hscope in Hlisting.
  unfold discover_branches in Hlisting.
  destruct (walk_ranges (scope_ranges found) (literals found)) as [raw|] eqn:Hwalk; [|done].
  destruct (walk_ranges_spec _ _ _ Hwalk) as (walked & -> & _ & Hcomplete & Hone).
  destruct (bool_decide _ || _) eqn:Hplain; [done|]. injection Hlisting as <-.
  apply orb_false_iff in Hplain as [_ Hcap]. apply Nat.ltb_ge in Hcap.
  assert (Hranges : (length (scope_ranges found) <= 1)%nat)
    by (by apply (scope_one segment root found []); [|apply NoDup_nil_2|apply Forall_nil_2]).
  destruct (Hone Hranges) as [Hnd Hin].
  destruct (scope_one segment root found walked Hscope Hnd Hin) as [_ Hall].
  rewrite branches_length in Hcap by done. apply branches_elem, elem_of_app.
  apply covers_ranges in Hcovers as [?|(range & Hr & Hir)];
    [by left|right; by apply (Hcomplete Hcap range)|].
  refine (scope_from_dotted _ scope_default _ Hscope _). apply Forall_nil_2.
Qed.
End discovery.

(** ** A table of addresses, and its query *)

Fixpoint least (l : list string) : option string :=
  match l with
  | [] => None
  | a :: l =>
      match least l with
      | None => Some a
      | Some b => Some (if str_le a b then a else b)
      end
  end.

Definition table_min (stored : list string) (cursor : option (bool * string))
    (ceiling : option string) : result (option string) unit :=
  Ok (least (filter (fun address => within cursor ceiling address = true) stored)).

Lemma least_spec l a :
  least l = Some a -> a ∈ l /\ forall b, b ∈ l -> str_le a b = true.
Proof.
  revert a. induction l as [|x l IH]; intros a; [done|]. cbn.
  destruct (least l) as [b|] eqn:Hl.
  - destruct (IH b eq_refl) as [Hb Hleast]. intros [= <-].
    destruct (str_le x b) eqn:Hx.
    + split; [left|]. intros c [->|Hc]%elem_of_cons; [apply str_le_refl|].
      eapply str_le_trans; [exact Hx|by apply Hleast].
    + split; [by right|]. intros c [->|Hc]%elem_of_cons; [|by apply Hleast].
      rewrite str_le_not_lt in Hx. apply negb_false_iff in Hx. by apply str_lt_le.
  - intros [= <-]. assert (l = []) as -> by (destruct l as [|y l]; [done|cbn in Hl; by destruct (least l)]).
    split; [left|]. intros c ->%list_elem_of_singleton. apply str_le_refl.
Qed.

Lemma table_min_none stored cursor ceiling :
  table_min stored cursor ceiling = Ok None ->
  forall address, address ∈ stored -> within cursor ceiling address = false.
Proof.
  unfold table_min. intros [= Hl] address Ha. apply not_true_iff_false. intros Hw.
  assert (address ∈ filter (fun a => within cursor ceiling a = true) stored) as Hin
    by by apply list_elem_of_filter.
  destruct (filter _ stored) as [|x l]; [set_solver|]. cbn in Hl. by destruct (least l).
Qed.

Lemma table_min_some stored cursor ceiling next :
  table_min stored cursor ceiling = Ok (Some next) ->
  next ∈ stored /\ within cursor ceiling next = true /\
  forall address, address ∈ stored -> within cursor ceiling address = true ->
    str_le next address = true.
Proof.
  unfold table_min. intros [= Hl]. apply least_spec in Hl as [Hin Hle].
  apply list_elem_of_filter in Hin as [Hw Hin]. split_and!; [done..|].
  intros address Ha Hwa. apply Hle. by apply list_elem_of_filter.
Qed.

(** Two hundred sensors of one rig, and one of another. *)
Definition two_rigs : list string :=
  ((fun n => "@a.s" +:+ pretty n) <$> seq 0 200) ++ ["@b.x"].

Lemma discovery_complete_witness : "@b.x" ∈ ["@b"; "@b.x"].
Proof.
  refine (discovery_complete (table_min two_rigs) two_rigs (table_min_none two_rigs)
    (table_min_some two_rigs) "@b:all" None ["@b"; "@b.x"] _ I _ "@b.x" _ _).
  - vm_compute. reflexivity.
  - vm_compute. reflexivity.
  - apply elem_of_app. right. by apply list_elem_of_singleton.
  - vm_compute. reflexivity.
Defined.

(** Discovery counts an address once for every range that reaches it, so
    a selector naming a rig of two hundred addresses twice stops before its
    last range, and removing the repeats hides that it did: the listing runs
    over the first rig's branches alone, and drops every row of the second,
    which the selector selects. *)
Theorem discovery_drops_ranges :
  let self := {| segments := ["@a:descendants"; "@a:descendants"; "@b:descendants"] |} in
  exists branches,
    listing_statement (table_min two_rigs) (scope self None) = Ok (Over branches) /\
    "@b.x" ∈ two_rigs /\ matches self "@b.x" None = Some true /\ "@b.x" ∉ branches.
Proof.
  cbv zeta.
  assert (Hrun : match listing_statement (table_min two_rigs)
    (scope {| segments := ["@a:descendants"; "@a:descendants"; "@b:descendants"] |} None) with
    | Ok (Over branches) => bool_decide ("@b.x" ∉ branches)
    | _ => false
    end = true) by (vm_compute; reflexivity).
  destruct (listing_statement _ _) as [[|branches]|]; [done| |done].
  exists branches. split_and!; [done| | |by apply bool_decide_eq_true in Hrun].
  - apply elem_of_app. right. by apply list_elem_of_singleton.
  - vm_compute. reflexivity.
Qed.
