(* ===== verification/Schema.v ===== *)
(** * What a filter may name

    The filter families and their fields ([ceres-entities/src/filterable.rs]),
    the derives that read them off the entity structs
    ([ceres-macros/src/filterable.rs]), the structs themselves
    ([ceres-entities/src/records.rs] and [entities.rs]), each table's schema
    ([ceres-database/src/records.rs] and [entities.rs]), and the wire keys a
    schema serves and resolves ([Schema] of [ceres-database/src/filter.rs]).
    The documentation and Python spellings the structs carry for generated
    models are left out. *)
From S2P Require Import Prelude Text.
Local Open Scope Z_scope.
Local Open Scope string_scope.
Local Open Scope list_scope.

(** ** Fields *)

Inductive OperationKind := Contains | Prefix | Suffix.

Inductive FieldFamily :=
  | Uuid | Address | Timestamp | Text | Email | Values (admissible : list string) | Level
  | Bytes | Json | Boolean | JsonValue | PlainAddress.

#[export] Instance operation_kind_eq_dec : EqDecision OperationKind.
Proof. solve_decision. Defined.
#[export] Instance field_family_eq_dec : EqDecision FieldFamily.
Proof. solve_decision. Defined.

Record FieldOperation := { op_key : string; kind : OperationKind; insensitive : bool }.

Record FilterField := {
  key : string;
  family : FieldFamily;
  operations : list FieldOperation;
  hidden : bool
}.

#[export] Instance field_operation_eq_dec : EqDecision FieldOperation.
Proof. solve_decision. Defined.
#[export] Instance filter_field_eq_dec : EqDecision FilterField.
Proof. solve_decision. Defined.

(** [FieldFamily::native] and [FieldFamily::scalar]. *)
Definition native (self : FieldFamily) : bool := negb (bool_decide (self = Json)).
Definition scalar (self : FieldFamily) : bool := bool_decide (self = Boolean).

(** [<Level as FilterValues>::VALUES]. *)
Definition LEVEL_VALUES : list string := ["debug"; "info"; "warning"; "error"; "critical"].

(** ** The derives *)

(** A type as written, as far as the derive looks into it. *)
Inductive RustType :=
  | PathType (name : string) (arguments : list RustType)
  | OtherType.

(** A field as declared: its type, its [serde] name, its [filterable]
    markers. *)
Record FieldDecl := {
  ident : string;
  ty : RustType;
  rename : option string;
  marks : list string
}.

Definition plain_field (ident : string) (ty : RustType) : FieldDecl :=
  {| ident := ident; ty := ty; rename := None; marks := [] |}.

Definition lower_char (c : ascii) : ascii :=
  if ascii_between "A"%char "Z"%char c
  then Strings.Ascii.ascii_of_nat (Strings.Ascii.nat_of_ascii c + 32) else c.

Fixpoint to_lowercase (text : string) : string :=
  match text with
  | EmptyString => EmptyString
  | String c text => String (lower_char c) (to_lowercase text)
  end.

(** [expand_filter_values]: a plain enum's values, from its variants. *)
Definition expand_filter_values (variants : list string) : list string := to_lowercase <$> variants.

(** The enums [known_enum] admits, with their variants as declared. *)
Definition MessageDirection : list string := ["Send"; "Receive"].
Definition PermissionTargetType : list string := ["Component"; "Tag"; "All"].
Definition GrantLevel : list string := ["View"; "Operate"; "Manage"].

Definition known_enum (identifier : string) : option (list string) :=
  if decide (identifier = "MessageDirection") then Some MessageDirection
  else if decide (identifier = "PermissionTargetType") then Some PermissionTargetType
  else if decide (identifier = "GrantLevel") then Some GrantLevel
  else None.

(** [type_is]. *)
Definition type_is (ty : RustType) (name : string) : bool :=
  match ty with PathType n [] => bool_decide (n = name) | _ => false end.

(** [family_of], [None] for [Unfilterable]. *)
Fixpoint family_of (ty : RustType) : option FieldFamily :=
  match ty with
  | OtherType => None
  | PathType name arguments =>
      if decide (name = "Uuid") then Some Uuid
      else if decide (name = "Address") then Some Address
      else if decide (name = "Timestamp") then Some Timestamp
      else if decide (name = "String") then Some Text
      else if decide (name = "Level") then Some Level
      else if decide (name = "Vec") then
        match arguments with
        | inner :: _ => if type_is inner "u8" then Some Bytes else None
        | [] => None
        end
      else if decide (name = "Map") then Some Json
      else if decide (name = "bool") then Some Boolean
      else if decide (name = "Value") then Some JsonValue
      else if decide (name = "Option") then
        match arguments with inner :: _ => family_of inner | [] => None end
      else
        match arguments with
        | [] => (fun variants => Values (expand_filter_values variants)) <$> known_enum name
        | _ => None
        end
  end.

Definition marked (field : FieldDecl) (name : string) : bool := bool_decide (name ∈ marks field).

(** [operation_entries]. *)
Definition operation_entries (key : string) (family : FieldFamily) (bare insensitive : bool) :
    list FieldOperation :=
  match family with
  | Text | Email | Bytes | Json =>
      (fun '(variant, kind) =>
         {| op_key := if bare : bool then variant else key +:+ "_" +:+ variant;
            kind := kind; insensitive := insensitive |}) <$>
        [("contains", Contains); ("prefix", Prefix); ("suffix", Suffix)]
  | _ => []
  end.

(** One field of [expand_filterable]: its column, when its type filters. *)
Definition expand_field (field : FieldDecl) : option FilterField :=
  let key := default (ident field) (rename field) in
  let family :=
    match family_of (ty field) with
    | Some Address => Some (if marked field "plain" then PlainAddress else Address)
    | Some Text => Some (if marked field "email" then Email else Text)
    | family => family
    end in
  (fun family =>
     {| key := key; family := family;
        operations :=
          if marked field "no_operations" then []
          else operation_entries key family (marked field "bare_operations")
                 (marked field "insensitive");
        hidden := marked field "hidden" |}) <$> family.

(** [expand_filterable]: [COLUMNS], [FIELDS], and [WIRE_KEYS]. *)
Definition COLUMNS (fields : list FieldDecl) : list FilterField := omap expand_field fields.
Definition FIELDS (fields : list FieldDecl) : list FilterField :=
  omap expand_field (filter (fun field => marked field "skip" = false) fields).
Definition WIRE_KEYS (fields : list FieldDecl) : list string :=
  (fun field => default (ident field) (rename field)) <$> fields.

(** ** The entities *)

Definition ty_ (name : string) : RustType := PathType name [].
Definition ty_option (inner : RustType) : RustType := PathType "Option" [inner].
Definition ty_map : RustType := PathType "Map" [ty_ "String"; ty_ "Value"].

Definition renamed (ident : string) (ty : RustType) (rename : string) : FieldDecl :=
  {| ident := ident; ty := ty; rename := Some rename; marks := [] |}.
Definition with_marks (ident : string) (ty : RustType) (marks : list string) : FieldDecl :=
  {| ident := ident; ty := ty; rename := None; marks := marks |}.

Definition Message : list FieldDecl :=
  [ plain_field "id" (ty_ "Uuid"); plain_field "address" (ty_ "Address");
    plain_field "timestamp" (ty_ "Timestamp");
    plain_field "connection" (ty_option (ty_ "String"));
    with_marks "direction" (ty_ "MessageDirection") ["python"];
    with_marks "data" (PathType "Vec" [ty_ "u8"]) ["bare_operations"; "python"] ].

Definition Particle : list FieldDecl :=
  [ plain_field "id" (ty_ "Uuid"); plain_field "address" (ty_ "Address");
    plain_field "timestamp" (ty_ "Timestamp");
    plain_field "connection" (ty_option (ty_ "String"));
    renamed "kind" (ty_ "String") "type"; plain_field "data" ty_map;
    plain_field "span" (ty_option OtherType) ].

Definition Alert : list FieldDecl :=
  [ plain_field "id" (ty_ "Uuid"); plain_field "address" (ty_ "Address");
    plain_field "timestamp" (ty_ "Timestamp"); plain_field "level" (ty_ "Level");
    renamed "kind" (ty_ "String") "type"; plain_field "data" ty_map ].

Definition LogEntry : list FieldDecl :=
  [ plain_field "id" (ty_ "Uuid"); plain_field "address" (ty_ "Address");
    plain_field "timestamp" (ty_ "Timestamp"); plain_field "level" (ty_ "Level");
    with_marks "content" (ty_ "String") ["bare_operations"] ].

Definition User : list FieldDecl :=
  [ plain_field "id" (ty_ "Uuid"); with_marks "username" (ty_ "String") ["python"];
    with_marks "email" (ty_ "String") ["email"; "insensitive"];
    with_marks "password" (ty_ "String") ["skip"; "hidden"; "python"];
    plain_field "admin" (ty_ "bool"); plain_field "disabled" (ty_ "bool") ].

Definition Variable_ : list FieldDecl :=
  [ plain_field "address" (ty_ "Address"); plain_field "name" (ty_ "String");
    plain_field "value" (ty_ "Value") ].

Definition Setting : list FieldDecl :=
  [ plain_field "user_id" (ty_ "Uuid"); plain_field "name" (ty_ "String");
    with_marks "value" (ty_ "Value") ["skip"] ].

Definition Workspace : list FieldDecl :=
  [ plain_field "id" (ty_ "Uuid"); with_marks "name" (ty_ "String") ["python"];
    with_marks "scope" (ty_ "Address") ["plain"];
    plain_field "owner_id" (ty_option (ty_ "Uuid"));
    plain_field "show_when_logged_out" (ty_ "bool"); with_marks "data" ty_map ["skip"] ].

Definition WorkspaceEdit : list FieldDecl :=
  [ plain_field "user_id" (ty_ "Uuid"); plain_field "workspace_id" (ty_ "Uuid");
    with_marks "data" ty_map ["skip"] ].

Definition Group_ : list FieldDecl :=
  [ plain_field "id" (ty_ "Uuid"); with_marks "name" (ty_ "String") ["python"];
    with_marks "description" (ty_ "String") ["skip"] ].

Definition GroupMembership : list FieldDecl :=
  [ plain_field "user_id" (ty_ "Uuid"); plain_field "group_id" (ty_ "Uuid") ].

Definition UserPermission : list FieldDecl :=
  [ plain_field "user_id" (ty_ "Uuid");
    with_marks "target_type" (ty_ "PermissionTargetType") ["python"];
    with_marks "target" (ty_ "String") ["no_operations"];
    with_marks "level" (ty_ "GrantLevel") ["python"] ].

Definition GroupPermission : list FieldDecl :=
  [ plain_field "group_id" (ty_ "Uuid");
    with_marks "target_type" (ty_ "PermissionTargetType") ["python"];
    with_marks "target" (ty_ "String") ["no_operations"];
    with_marks "level" (ty_ "GrantLevel") ["python"] ].

(** ** Tables *)

(** [Shape] and [Computed]. *)
Inductive Shape := Internal | Literal (text : string) | Present.

Record Computed := { computed_key : string; computed_column : string; shape : Shape }.

#[export] Instance shape_eq_dec : EqDecision Shape.
Proof. solve_decision. Defined.
#[export] Instance computed_eq_dec : EqDecision Computed.
Proof. solve_decision. Defined.

Record Schema := {
  schema_name : string;
  fields : list FilterField;
  columns : list FilterField;
  delegated : list string;
  key_columns : list string;
  fixed : list string;
  order_columns : list string;
  computed : list Computed
}.

Inductive RecordTable := Messages | Particles | Alerts | Logs.

(** [RecordTable::ALL], [parse], [name], and [listing_cap]. *)
Definition RECORD_TABLES : list RecordTable := [Messages; Particles; Alerts; Logs].

Definition record_table_name (self : RecordTable) : string :=
  match self with
  | Messages => "messages" | Particles => "particles" | Alerts => "alerts" | Logs => "logs"
  end.

Definition record_table_parse (table : string) : option RecordTable :=
  if decide (table = "messages") then Some Messages
  else if decide (table = "particles") then Some Particles
  else if decide (table = "alerts") then Some Alerts
  else if decide (table = "logs") then Some Logs
  else None.

Definition listing_cap (self : RecordTable) : Z :=
  match self with Particles => 5000 | _ => 1000 end.

Definition record_decl (self : RecordTable) : list FieldDecl :=
  match self with
  | Messages => Message | Particles => Particle | Alerts => Alert | Logs => LogEntry
  end.

(** [RecordTable::schema]. *)
Definition record_schema (self : RecordTable) : Schema :=
  {| schema_name := record_table_name self;
     fields := FIELDS (record_decl self);
     columns := COLUMNS (record_decl self);
     delegated := match self with Particles => ["class"] | _ => [] end;
     key_columns := ["id"];
     fixed := ["id"];
     order_columns := ["timestamp"];
     computed := [] |}.

Inductive EntityTable :=
  | Users | Variables | Settings | Workspaces | WorkspaceEdits | Groups | GroupMemberships
  | UserPermissions | GroupPermissions.

#[export] Instance record_table_eq_dec : EqDecision RecordTable.
Proof. solve_decision. Defined.
#[export] Instance entity_table_eq_dec : EqDecision EntityTable.
Proof. solve_decision. Defined.

(** [EntityTable::ALL], [name], and [parse]. *)
Definition ENTITY_TABLES : list EntityTable :=
  [ Users; Variables; Settings; Workspaces; WorkspaceEdits; Groups; GroupMemberships;
    UserPermissions; GroupPermissions ].

Definition entity_table_name (self : EntityTable) : string :=
  match self with
  | Users => "users" | Variables => "variables" | Settings => "settings"
  | Workspaces => "workspaces" | WorkspaceEdits => "workspace_edits" | Groups => "groups"
  | GroupMemberships => "group_memberships" | UserPermissions => "user_permissions"
  | GroupPermissions => "group_permissions"
  end.

Definition entity_table_parse (table : string) : option EntityTable :=
  if decide (table = "users") then Some Users
  else if decide (table = "variables") then Some Variables
  else if decide (table = "settings") then Some Settings
  else if decide (table = "workspaces") then Some Workspaces
  else if decide (table = "workspace_edits") then Some WorkspaceEdits
  else if decide (table = "groups") then Some Groups
  else if decide (table = "group_memberships") then Some GroupMemberships
  else if decide (table = "user_permissions") then Some UserPermissions
  else if decide (table = "group_permissions") then Some GroupPermissions
  else None.

Definition schema_of (name : string) (decl : list FieldDecl)
    (key fixed order : list string) (computed : list Computed) : Schema :=
  {| schema_name := name; fields := FIELDS decl; columns := COLUMNS decl; delegated := [];
     key_columns := key; fixed := fixed; order_columns := order; computed := computed |}.

(** [EntityTable::schema]. *)
Definition entity_schema (self : EntityTable) : Schema :=
  let name := entity_table_name self in
  match self with
  | Users => schema_of name User ["id"] ["id"] ["username"] []
  | Variables =>
      schema_of name Variable_ ["address"; "name"] ["address"] ["address"; "name"]
        [{| computed_key := "internal"; computed_column := "name"; shape := Internal |}]
  | Settings => schema_of name Setting ["user_id"; "name"] ["user_id"] ["name"] []
  | Workspaces =>
      schema_of name Workspace ["id"] ["id"] ["name"]
        [{| computed_key := "placed_on_engine"; computed_column := "scope";
            shape := Literal "~" |};
         {| computed_key := "owned"; computed_column := "owner_id"; shape := Present |}]
  | WorkspaceEdits =>
      schema_of name WorkspaceEdit ["workspace_id"; "user_id"] ["workspace_id"; "user_id"]
        ["user_id"; "workspace_id"] []
  | Groups => schema_of name Group_ ["id"] ["id"] ["name"] []
  | GroupMemberships =>
      schema_of name GroupMembership ["user_id"; "group_id"] ["user_id"; "group_id"]
        ["user_id"; "group_id"] []
  | UserPermissions =>
      schema_of name UserPermission ["user_id"; "target_type"; "target"]
        ["user_id"; "target_type"; "target"] ["user_id"; "target_type"; "target"] []
  | GroupPermissions =>
      schema_of name GroupPermission ["group_id"; "target_type"; "target"]
        ["group_id"; "target_type"; "target"] ["group_id"; "target_type"; "target"] []
  end.

(** Every table's schema. *)
Definition SCHEMAS : list Schema :=
  (record_schema <$> RECORD_TABLES) ++ (entity_schema <$> ENTITY_TABLES).

(** ** Wire keys *)

Inductive Refusal := Delegated | Invalid (message : string).

#[export] Instance refusal_eq_dec : EqDecision Refusal.
Proof. solve_decision. Defined.

Inductive WindowOp := After | Before | Timespan | MaxAge | MinAge.
Inductive SubsampleOp := Every | Count | SelectOp.
Inductive GroupOp := GroupOr | GroupAnd.
Inductive ClockOp := AfterHour | BeforeHour | AfterMinute | BeforeMinute.
Inductive BoundOp := Minimum | Maximum.

Inductive KeyRole :=
  | RoleEquality (field : FilterField)
  | RoleOperation (field : FilterField) (kind : OperationKind)
  | RoleRoot
  | RoleGroup (operator : GroupOp)
  | RoleSubsample (operator : SubsampleOp)
  | RoleWindow (operator : WindowOp)
  | RoleClock (operator : ClockOp)
  | RoleBound (operator : BoundOp)
  | RoleComputed (predicate : Computed)
  | RoleOrder
  | RoleLimit
  | RoleOffset.

(** [Arity], [Window], [Role], and [FilterKey], what a parser is built from. *)
Inductive Arity := Flag | Value.
Inductive Window := Absolute | Age | Span | Clock | Subsample.
Inductive Role :=
  | KeyEquality | KeyOperation (kind : OperationKind) | KeyRoot | KeyWindow (window : Window)
  | KeyBound | KeyComputed | KeyQuery | KeyGroup.

Record FilterKey := {
  fk_key : string;
  arity : Arity;
  role : Role;
  fk_field : option string
}.

(** [bound_keys], whose check of the field's key is a debug assertion. *)
Definition bound_keys : list string := ["min_level"; "max_level"].

Definition window_keys : list (string * Window) :=
  [ ("after", Absolute); ("before", Absolute); ("timespan", Span); ("max_age", Age);
    ("min_age", Age); ("after_hour", Clock); ("before_hour", Clock); ("after_minute", Clock);
    ("before_minute", Clock); ("subsample_every", Subsample); ("subsample", Subsample);
    ("subsample_select", Subsample) ].

(** The part of [filter_keys] one field brings. *)
Definition field_keys (delegated : list string) (field : FilterField) : list FilterKey :=
  let served := native (family field) && negb (bool_decide (key field ∈ delegated)) in
  let keyed key arity role :=
    {| fk_key := key; arity := arity; role := role; fk_field := Some (Schema.key field) |} in
  (if served then
     [keyed (key field) (if scalar (family field) then Flag else Value) KeyEquality]
   else []) ++
  ((fun operation => keyed (op_key operation) Value (KeyOperation (kind operation))) <$>
     operations field) ++
  (if negb served then []
   else
     match family field with
     | Address => [keyed "root" Value KeyRoot]
     | Timestamp => (fun '(key, window) => keyed key Value (KeyWindow window)) <$> window_keys
     | Level => (fun key => keyed key Value KeyBound) <$> bound_keys
     | _ => []
     end).

(** [Schema::filter_keys]. *)
Definition filter_keys (self : Schema) : list FilterKey :=
  (fields self ≫= field_keys (delegated self)) ++
  ((fun predicate =>
     {| fk_key := computed_key predicate; arity := Flag; role := KeyComputed;
        fk_field := Some (computed_column predicate) |}) <$> computed self) ++
  ((fun key => {| fk_key := key; arity := Value; role := KeyQuery; fk_field := None |}) <$>
     ["order"; "limit"; "offset"]) ++
  ((fun key => {| fk_key := key; arity := Value; role := KeyGroup; fk_field := None |}) <$>
     ["or"; "and"]).

(** [Schema::supported_keys]. *)
Definition supported_keys (self : Schema) : list string := fk_key <$> filter_keys self.

(** [Schema::column_keys]. *)
Definition column_keys (self : Schema) : list FilterKey :=
  (fun field =>
     {| fk_key := key field; arity := if scalar (family field) then Flag else Value;
        role := KeyEquality; fk_field := Some (key field) |}) <$> columns self.

(** [Schema::nullable]. *)
Definition nullable (self : Schema) (wire : string) : bool :=
  existsb (fun field => bool_decide (key field = wire) && bool_decide (family field = JsonValue))
    (fields self).

(** [level_position]. *)
Fixpoint position (value : string) (l : list string) : option nat :=
  match l with
  | [] => None
  | x :: l => if decide (x = value) then Some O else S <$> position value l
  end.
Definition level_position (value : string) : option nat := position value LEVEL_VALUES.

(** The keys of [resolve]'s [match]es on a timestamp's operators. *)
Definition window_op (wire : string) : option WindowOp :=
  if decide (wire = "after") then Some After
  else if decide (wire = "before") then Some Before
  else if decide (wire = "timespan") then Some Timespan
  else if decide (wire = "max_age") then Some MaxAge
  else if decide (wire = "min_age") then Some MinAge
  else None.

Definition clock_op (wire : string) : option ClockOp :=
  if decide (wire = "after_hour") then Some AfterHour
  else if decide (wire = "before_hour") then Some BeforeHour
  else if decide (wire = "after_minute") then Some AfterMinute
  else if decide (wire = "before_minute") then Some BeforeMinute
  else None.

Definition subsample_op (wire : string) : option SubsampleOp :=
  if decide (wire = "subsample_every") then Some Every
  else if decide (wire = "subsample") then Some Count
  else if decide (wire = "subsample_select") then Some SelectOp
  else None.

(** What one field makes of a key, in [resolve]'s loop over the fields. *)
Definition resolve_field (field : FilterField) (wire : string) : option KeyRole :=
  if bool_decide (key field = wire) && native (family field) then Some (RoleEquality field)
  else
    match find (fun operation => bool_decide (op_key operation = wire)) (operations field) with
    | Some operation => Some (RoleOperation field (kind operation))
    | None =>
        match family field with
        | Address => if decide (wire = "root") then Some RoleRoot else None
        | Timestamp =>
            match window_op wire, clock_op wire, subsample_op wire with
            | Some operator, _, _ => Some (RoleWindow operator)
            | None, Some operator, _ => Some (RoleClock operator)
            | None, None, Some operator => Some (RoleSubsample operator)
            | None, None, None => None
            end
        | Level =>
            if decide (wire = "min_level") then Some (RoleBound Minimum)
            else if decide (wire = "max_level") then Some (RoleBound Maximum)
            else None
        | _ => None
        end
    end.

Fixpoint find_map {A B} (f : A -> option B) (l : list A) : option B :=
  match l with
  | [] => None
  | a :: l => match f a with Some b => Some b | None => find_map f l end
  end.

Section resolve.
(** [Debug] of a string. *)
Context (debug : string -> string).

(** [Schema::resolve]. *)
Definition resolve (self : Schema) (wire : string) : result KeyRole Refusal :=
  if decide (wire = "order") then Ok RoleOrder
  else if decide (wire = "limit") then Ok RoleLimit
  else if decide (wire = "offset") then Ok RoleOffset
  else if decide (wire = "or") then Ok (RoleGroup GroupOr)
  else if decide (wire = "and") then Ok (RoleGroup GroupAnd)
  else if decide (wire ∈ delegated self) then Err Delegated
  else
    match find (fun predicate => bool_decide (computed_key predicate = wire)) (computed self) with
    | Some predicate => Ok (RoleComputed predicate)
    | None =>
        match find_map (fun field => resolve_field field wire) (fields self) with
        | Some role => Ok role
        | None => Err (Invalid ("unknown filter key " +:+ debug wire))
        end
    end.

(** [OrderTerm] and [Schema::parse_order]. *)
Definition invalid_order (text : string) : Refusal := Invalid ("invalid order " +:+ debug text).

Definition parse_order (self : Schema) (text : string) : result (FilterField * bool) Refusal :=
  let parsed :=
    match split_once ":" text with
    | None => Some (text, true)
    | Some (base, direction) =>
        if decide (direction = "asc") then Some (base, true)
        else if decide (direction = "desc") then Some (base, false)
        else None
    end in
  match parsed with
  | None => Err (invalid_order text)
  | Some (base, ascending) =>
      match find (fun field => bool_decide (key field = base)) (fields self) with
      | None => Err (invalid_order text)
      | Some field =>
          if native (family field) then Ok (field, ascending) else Err Delegated
      end
  end.
End resolve.

(** ** A key is served when it resolves, and as what it resolves to *)

#[export] Instance arity_eq_dec : EqDecision Arity.
Proof. solve_decision. Defined.

(** Whether a key's help and argument form tell what the compiler makes of
    it. *)
Definition agrees (entry : FilterKey) (resolved : KeyRole) : bool :=
  match role entry, resolved with
  | KeyEquality, RoleEquality field =>
      bool_decide (fk_field entry = Some (key field)) &&
      bool_decide (arity entry = if scalar (family field) then Flag else Value)
  | KeyOperation kind, RoleOperation field kind' =>
      bool_decide (fk_field entry = Some (key field)) && bool_decide (kind = kind')
  | KeyRoot, RoleRoot => true
  | KeyWindow Absolute, RoleWindow (After | Before)
  | KeyWindow Age, RoleWindow (MaxAge | MinAge)
  | KeyWindow Span, RoleWindow Timespan
  | KeyWindow Clock, RoleClock _
  | KeyWindow Subsample, RoleSubsample _
  | KeyBound, RoleBound _
  | KeyQuery, (RoleOrder | RoleLimit | RoleOffset)
  | KeyGroup, RoleGroup _ => true
  | KeyComputed, RoleComputed predicate => bool_decide (fk_key entry = computed_key predicate)
  | _, _ => false
  end.

(** The fields keep out of the delegated keys. *)
Definition undelegated (self : Schema) : bool :=
  forallb (fun field => negb (bool_decide (key field ∈ delegated self))) (fields self).

Lemma timestamp_keys wire :
  window_op wire <> None \/ clock_op wire <> None \/ subsample_op wire <> None ->
  wire ∈ fst <$> window_keys.
Proof.
  unfold window_op, clock_op, subsample_op. intros H.
  apply (bool_decide_eq_true (wire ∈ fst <$> window_keys)).
  repeat (case_decide; [by subst|]). naive_solver.
Qed.

Lemma resolve_field_key (refused : list string) field wire resolved :
  key field ∉ refused -> resolve_field field wire = Some resolved ->
  wire ∈ fk_key <$> field_keys refused field.
Proof.
  intros Hnot. unfold resolve_field, field_keys.
  rewrite (bool_decide_eq_false_2 (key field ∈ refused)) by done. cbn [negb].
  rewrite andb_true_r, !fmap_app, !elem_of_app.
  destruct (native (family field)) eqn:Hnative.
  2: { rewrite andb_false_r. unfold native in Hnative.
       apply negb_false_iff, bool_decide_eq_true in Hnative. rewrite Hnative.
       destruct (find _ _) as [operation|] eqn:Hfind; [|done]. intros _.
       apply find_some in Hfind as [Hin Heq]. apply bool_decide_eq_true in Heq. subst wire.
       right. left. rewrite <-list_fmap_compose.
       apply list_elem_of_In in Hin. by apply (list_elem_of_fmap_2 op_key). }
  rewrite andb_true_r. case_bool_decide as Hkey.
  { intros _. left. cbn. subst. left. }
  destruct (find _ _) as [operation|] eqn:Hfind.
  { intros _. apply find_some in Hfind as [Hin Heq]. apply bool_decide_eq_true in Heq. subst wire.
    right. left. rewrite <-list_fmap_compose.
    apply list_elem_of_In in Hin. by apply (list_elem_of_fmap_2 op_key). }
  intros Hrest. right. right. cbn [negb]. destruct (family field); try done.
  - case_decide; [|done]. subst. cbn. left.
  - assert (Hw : wire ∈ fst <$> window_keys).
    { apply timestamp_keys.
      destruct (window_op wire), (clock_op wire), (subsample_op wire); naive_solver. }
    exact Hw.
  - repeat case_decide; subst; [left|right; left|done].
Qed.

Lemma find_map_Some {A B} (f : A -> option B) l b :
  find_map f l = Some b -> exists a, a ∈ l /\ f a = Some b.
Proof.
  induction l as [|x l IH]; [done|]. cbn. destruct (f x) eqn:Hx.
  - intros [= <-]. exists x. split; [left|done].
  - intros (a & Ha & Hf)%IH. exists a. split; [by right|done].
Qed.

Lemma resolve_supported debug self wire resolved :
  undelegated self = true -> resolve debug self wire = Ok resolved ->
  wire ∈ supported_keys self.
Proof.
  intros Hund. unfold resolve, supported_keys, filter_keys.
  rewrite !fmap_app, !elem_of_app.
  assert (Hquery : forall l : list string, bool_decide (wire ∈ l) = true -> wire ∈ l)
    by (intros l; apply bool_decide_eq_true).
  repeat (case_decide; [intros _; subst; right; right;
    first [left; by apply Hquery|right; by apply Hquery]|]).
  clear Hquery.
  case_decide; [done|].
  destruct (find _ _) as [predicate|] eqn:Hfind.
  { intros _. apply find_some in Hfind as [Hin Heq]. apply bool_decide_eq_true in Heq. subst wire.
    right. left. rewrite <-list_fmap_compose.
    apply list_elem_of_In in Hin. by apply (list_elem_of_fmap_2 computed_key). }
  destruct (find_map _ _) as [found|] eqn:Hmap; [|done]. intros _. left.
  apply find_map_Some in Hmap as (field & Hin & Hres).
  unfold undelegated in Hund. rewrite forallb_forall in Hund.
  specialize (Hund field (proj1 (list_elem_of_In _ _) Hin)).
  apply negb_true_iff, bool_decide_eq_false in Hund.
  apply (resolve_field_key (delegated self)) in Hres; [|done].
  apply list_elem_of_fmap in Hres as (entry & -> & Hentry).
  apply (list_elem_of_fmap_2 fk_key). apply list_elem_of_bind. by exists field.
Qed.

(** On every table, record and entity alike, the compiler resolves
    exactly the keys it says it serves, each to what its help and argument
    form say of it, and no key is listed twice; every other key is refused. *)
Theorem keys_resolve (debug : string -> string) :
  Forall (fun self =>
    NoDup (supported_keys self) /\
    Forall (fun entry => exists resolved,
      resolve debug self (fk_key entry) = Ok resolved /\ agrees entry resolved = true)
      (filter_keys self) /\
    (forall wire resolved, resolve debug self wire = Ok resolved -> wire ∈ supported_keys self))
    SCHEMAS.
Proof.
  apply Forall_forall. intros self Hin.
  assert (Hall : forallb (fun self =>
    bool_decide (NoDup (supported_keys self)) && undelegated self &&
    forallb (fun entry => match resolve debug self (fk_key entry) with
                          | Ok resolved => agrees entry resolved
                          | Err _ => false end) (filter_keys self)) SCHEMAS = true)
    by (vm_compute; reflexivity).
  rewrite forallb_forall in Hall. specialize (Hall self (proj1 (list_elem_of_In _ _) Hin)).
  apply andb_true_iff in Hall as [Hall Hkeys]. apply andb_true_iff in Hall as [Hnd Hund].
  split_and!; [by apply bool_decide_eq_true in Hnd| |].
  - apply Forall_forall. intros entry Hentry. rewrite forallb_forall in Hkeys.
    specialize (Hkeys entry (proj1 (list_elem_of_In _ _) Hentry)).
    destruct (resolve debug self (fk_key entry)) as [resolved|]; [eauto|done].
  - intros wire resolved. by apply resolve_supported.
Qed.
