(* ===== verification/Wire.v ===== *)
(** * Scalars as the wire writes them

    What [str::parse], [str::trim], [latin1] and the arithmetic of [f64] do to
    the text of one wire value, for [ceres-database/src/filter.rs]. Text is
    its UTF-8 bytes. *)
From S2P Require Import Prelude Text.
From stdpp Require Import pretty.
Local Open Scope string_scope.
Local Open Scope list_scope.
Local Open Scope Z_scope.

(** ** Unsigned integers

    [str::parse] of [u64] and [u32]: an optional plus sign, then digits, in
    range. *)
Fixpoint digits_value (text : string) (value : Z) : option Z :=
  match text with
  | EmptyString => Some value
  | String c text =>
      if is_ascii_digit c then
        digits_value text (value * 10 + (Z.of_nat (Strings.Ascii.nat_of_ascii c) - 48))
      else None
  end.

Definition parse_unsigned (max : Z) (text : string) : option Z :=
  let digits := match text with String "+" rest => rest | _ => text end in
  match digits with
  | EmptyString => None
  | _ =>
      match digits_value digits 0 with
      | Some value => if value <=? max then Some value else None
      | None => None
      end
  end.

Definition u32_max : Z := 4294967295.

(** ** Latin-1

    [latin1::decode] and [latin1::encode] of [ceres-entities/src/records.rs]:
    a byte is the character of its value, which UTF-8 writes in one byte or
    two, and a character above U+00FF is dropped. *)
Definition byte_of (c : ascii) : Z := Z.of_nat (Strings.Ascii.nat_of_ascii c).
Definition char_of (byte : Z) : ascii := Strings.Ascii.ascii_of_nat (Z.to_nat byte).

Fixpoint latin1_decode (bytes : list Z) : string :=
  match bytes with
  | [] => EmptyString
  | byte :: bytes =>
      if byte <? 128 then String (char_of byte) (latin1_decode bytes)
      else String (char_of (192 + byte / 64))
             (String (char_of (128 + byte mod 64)) (latin1_decode bytes))
  end.

(** [u8::try_from(..).ok()] of a character. *)
Definition keep_byte (code : Z) : list Z := if (0 <=? code) && (code <? 256) then [code] else [].

Fixpoint latin1_encode (text : string) : list Z :=
  match text with
  | EmptyString => []
  | String lead text =>
      let lead := byte_of lead in
      if lead <? 128 then keep_byte lead ++ latin1_encode text
      else
        match text with
        | EmptyString => []
        | String second text =>
            if lead <? 224 then
              keep_byte ((lead - 192) * 64 + (byte_of second - 128)) ++ latin1_encode text
            else
              match text with
              | EmptyString => []
              | String _ text =>
                  if lead <? 240 then latin1_encode text
                  else match text with
                       | EmptyString => []
                       | String _ text => latin1_encode text
                       end
              end
        end
  end.

(** ** Whitespace, as [char::is_whitespace] has it over UTF-8 *)

Definition strip_space (text : string) : option string :=
  match text with
  | String a rest =>
      let x := byte_of a in
      if (x =? 32) || ((9 <=? x) && (x <=? 13)) then Some rest
      else
        match rest with
        | String b rest =>
            let y := byte_of b in
            if (x =? 194) && ((y =? 133) || (y =? 160)) then Some rest
            else
              match rest with
              | String c rest =>
                  let z := byte_of c in
                  if ((x =? 225) && (y =? 154) && (z =? 128)) ||
                     ((x =? 226) && (y =? 128) && (((128 <=? z) && (z <=? 138)) || (z =? 168)
                        || (z =? 169) || (z =? 175))) ||
                     ((x =? 226) && (y =? 129) && (z =? 159)) ||
                     ((x =? 227) && (y =? 128) && (z =? 128))
                  then Some rest else None
              | EmptyString => None
              end
        | EmptyString => None
        end
  | EmptyString => None
  end.

Fixpoint trim_start_fuel (fuel : nat) (text : string) : string :=
  match fuel with
  | O => text
  | S fuel =>
      match strip_space text with Some rest => trim_start_fuel fuel rest | None => text end
  end.

(** [str::trim_start]; each step takes a byte at least. *)
Definition trim_start (text : string) : string := trim_start_fuel (String.length text) text.

(** Whether only whitespace is left. *)
Definition is_blank (text : string) : bool := bool_decide (trim_start text = "").

(** [str::trim]: what precedes the longest blank end. *)
Fixpoint trim_end (text : string) : string :=
  if is_blank text then EmptyString
  else match text with EmptyString => EmptyString | String c text => String c (trim_end text) end.
Definition trim (text : string) : string := trim_end (trim_start text).

(** [str::strip_suffix]. *)
Fixpoint strip_suffix (suffix text : string) : option string :=
  if decide (text = suffix) then Some EmptyString
  else match text with
       | EmptyString => None
       | String c text => String c <$> strip_suffix suffix text
       end.

(** ** Binary64

    A finite [f64] that is not negative is [m * 2 ^ e]. [None] is infinity. *)
Definition f64 : Type := option (Z * Z).

(** Division to the nearest, ties to even. *)
Definition nearest_even (n d : Z) : Z :=
  let q := n / d in
  let r := n mod d in
  if 2 * r <? d then q
  else if d <? 2 * r then q + 1
  else if Z.even q then q else q + 1.

(** The exponent of the last place of [n / d]: 53 bits of it, or the least
    subnormal. *)
Definition last_place (n d : Z) : Z :=
  let l := Z.log2 n - Z.log2 d in
  let l := if 0 <=? l then (if n <? d * 2 ^ l then l - 1 else l)
           else (if n * 2 ^ (- l) <? d then l - 1 else l) in
  Z.max (l - 52) (-1074).

(** The [f64] nearest [n / d]. *)
Definition f64_round (n d : Z) : f64 :=
  if n =? 0 then Some (0, 0)
  else
    let e := last_place n d in
    let m := if 0 <=? e then nearest_even n (d * 2 ^ e) else nearest_even (n * 2 ^ (- e)) d in
    if (0 <=? e) && (2 ^ 1024 <=? m * 2 ^ e) then None else Some (m, e).

(** The product with an integer. *)
Definition f64_scale (x : f64) (scale : Z) : f64 :=
  match x with
  | None => None
  | Some (m, e) => if 0 <=? e then f64_round (m * scale * 2 ^ e) 1
                   else f64_round (m * scale) (2 ^ (- e))
  end.

(** [f64::round], ties away from zero, then [as i64], which saturates. *)
Definition f64_round_i64 (x : f64) : Z :=
  match x with
  | None => i64_max
  | Some (m, e) =>
      Z.min i64_max (if 0 <=? e then m * 2 ^ e else (m + 2 ^ (- e - 1)) / 2 ^ (- e))
  end.

(** The digits a number starts with, their value after [value], how many, and
    the rest. *)
Fixpoint take_digits (text : string) (value count : Z) : Z * Z * string :=
  match text with
  | String c rest =>
      if is_ascii_digit c then
        take_digits rest (value * 10 + (Z.of_nat (Strings.Ascii.nat_of_ascii c) - 48)) (count + 1)
      else (value, count, text)
  | EmptyString => (value, count, EmptyString)
  end.

(** An exponent, after its [e]. *)
Definition parse_exponent (text : string) : option Z :=
  let '(negative, text) :=
    match text with
    | String c rest =>
        if bool_decide (c = "-"%char) then (true, rest)
        else if bool_decide (c = "+"%char) then (false, rest) else (false, text)
    | EmptyString => (false, EmptyString)
    end in
  let '(value, count, rest) := take_digits text 0 0 in
  if (0 <? count) && bool_decide (rest = EmptyString)
  then Some (if negative : bool then - value else value) else None.

(** A decimal number: whether it is signed negative, and the value and the
    power of ten it is times. *)
Definition parse_decimal (text : string) : option (bool * Z * Z) :=
  let '(negative, text) :=
    match text with
    | String c rest =>
        if bool_decide (c = "-"%char) then (true, rest)
        else if bool_decide (c = "+"%char) then (false, rest) else (false, text)
    | EmptyString => (false, EmptyString)
    end in
  let '(whole, whole_count, text) := take_digits text 0 0 in
  let '(value, count, fraction, text) :=
    match text with
    | String c rest =>
        if bool_decide (c = "."%char) then
          let '(value, count, rest) := take_digits rest whole whole_count in
          (value, count, count - whole_count, rest)
        else (whole, whole_count, 0, text)
    | EmptyString => (whole, whole_count, 0, EmptyString)
    end in
  let exponent :=
    match text with
    | EmptyString => Some 0
    | String c rest =>
        if bool_decide (c = "e"%char) || bool_decide (c = "E"%char) then parse_exponent rest
        else None
    end in
  if 0 <? count then
    match exponent with
    | None => None
    | Some exponent => Some (negative, value, exponent - fraction)
    end
  else None.

(** The [f64] nearest a decimal number's size. *)
Definition decimal_round (value scale : Z) : f64 :=
  if 0 <=? scale then f64_round (value * 10 ^ scale) 1 else f64_round value (10 ^ (- scale)).

(** [str::parse] of a finite [f64]: whether it is signed negative, and its
    size. Infinities, [nan] and malformed text, all of which the filter
    refuses alike, are [None]. *)
Definition parse_f64 (text : string) : option (bool * (Z * Z)) :=
  match parse_decimal text with
  | None => None
  | Some (negative, value, scale) =>
      match decimal_round value scale with None => None | Some size => Some (negative, size) end
  end.

(** The microseconds of a duration's number at its suffix's scale: refused
    when negative, and saturating. *)
Definition scaled_micros (number : string) (scale : Z) : option Z :=
  match parse_f64 number with
  | None => None
  | Some (negative, (m, e)) =>
      if negative && (0 <? m) then None
      else Some (f64_round_i64 (f64_scale (Some (m, e)) scale))
  end.

(** ** What they keep *)

Lemma byte_of_char_of b : 0 <= b < 256 -> byte_of (char_of b) = b.
Proof.
  intros. unfold byte_of, char_of. rewrite Strings.Ascii.nat_ascii_embedding by lia. lia.
Qed.

Lemma keep_byte_in code : 0 <= code < 256 -> keep_byte code = [code].
Proof.
  intros. unfold keep_byte.
  by rewrite (proj2 (Z.leb_le 0 code)), (proj2 (Z.ltb_lt code 256)) by lia.
Qed.

Lemma latin1_round_trip (bytes : list Z) :
  Forall (fun byte => 0 <= byte < 256) bytes -> latin1_encode (latin1_decode bytes) = bytes.
Proof.
  induction 1 as [|b bytes Hb Hbytes IH]; [done|]. cbn [latin1_decode].
  destruct (b <? 128) eqn:Hlow; to_prop; cbn [latin1_encode].
  - rewrite byte_of_char_of by lia. rewrite (proj2 (Z.ltb_lt _ _) Hlow).
    by rewrite keep_byte_in, IH by lia.
  - assert (2 <= b / 64 < 4) by (split; [apply Z.div_le_lower_bound|apply Z.div_lt_upper_bound]; lia).
    pose proof (Z.mod_pos_bound b 64). pose proof (Z.div_mod b 64).
    rewrite !byte_of_char_of by lia. rewrite (proj2 (Z.ltb_ge _ _)) by lia.
    rewrite (proj2 (Z.ltb_lt (192 + b / 64) 224)) by lia.
    rewrite keep_byte_in, IH by lia. cbn. f_equal. lia.
Qed.

Lemma latin1_encode_bytes text : Forall (fun byte => 0 <= byte < 256) (latin1_encode text).
Proof.
  assert (forall code, Forall (fun byte => 0 <= byte < 256) (keep_byte code)) as Hkeep.
  { intros code. unfold keep_byte. case_match eqn:Hin; [|constructor].
    to_prop. constructor; [lia|constructor]. }
  induction text as [text IH] using (induction_ltof1 _ String.length). unfold ltof in IH.
  destruct text as [|lead [|second [|third [|fourth text]]]]; cbn [latin1_encode];
    repeat case_match; try constructor; rewrite ?Forall_app; repeat split;
    try apply Hkeep; try (apply IH; cbn [String.length]; lia); try constructor.
Qed.

Lemma take_digits_all text value count n :
  digits_value text value = Some n ->
  take_digits text value count = (n, count + Z.of_nat (String.length text), EmptyString).
Proof.
  revert value count. induction text as [|c text IH]; intros value count; cbn [digits_value take_digits].
  - intros [= ->]. do 2 f_equal. cbn. lia.
  - destruct (is_ascii_digit c); [|done]. intros ->%(IH _ (count + 1)).
    do 2 f_equal. cbn [String.length]. lia.
Qed.

Lemma digits_value_ge text value n : 0 <= value -> digits_value text value = Some n -> value <= n.
Proof.
  revert value. induction text as [|c text IH]; intros value Hv; cbn [digits_value]; [intros [= ->]; lia|].
  destruct (is_ascii_digit c) eqn:Hd; [|done].
  assert (48 <= Z.of_nat (Strings.Ascii.nat_of_ascii c)).
  { unfold is_ascii_digit, ascii_between in Hd. apply andb_true_iff in Hd as [Hd _].
    apply Nat.leb_le in Hd. change (Strings.Ascii.nat_of_ascii "0") with 48%nat in Hd. lia. }
  intros H2%IH; lia.
Qed.

Lemma nearest_even_exact q d : 0 < d -> nearest_even (q * d) d = q.
Proof.
  intros. unfold nearest_even. rewrite Z.div_mul, Z.mod_mul by lia.
  by rewrite (proj2 (Z.ltb_lt (2 * 0) d)) by lia.
Qed.

Lemma last_place_exact q d :
  0 < q < 2 ^ 53 -> 0 < d -> last_place (q * d) d = Z.log2 q - 52.
Proof.
  intros Hq Hd. unfold last_place.
  pose proof (Z.log2_mul_below q d) as Hlo. pose proof (Z.log2_mul_above q d) as Hhi.
  pose proof (Z.log2_nonneg q). pose proof (Z.log2_spec q) as Hs.
  assert (Z.log2 q < 53) by (apply Z.log2_lt_pow2; lia).
  set (l := Z.log2 (q * d) - Z.log2 d).
  assert (l = Z.log2 q \/ l = Z.succ (Z.log2 q)) as Hl by lia.
  rewrite (proj2 (Z.leb_le 0 l)) by lia. destruct Hl as [-> | ->].
  - rewrite (proj2 (Z.ltb_ge _ _)) by nia. lia.
  - rewrite (proj2 (Z.ltb_lt _ _)) by nia. lia.
Qed.

(** A whole quotient below 2^53 is held exactly. *)
Lemma f64_round_exact q d :
  0 < q < 2 ^ 53 -> 0 < d -> exists k, 0 <= k /\ f64_round (q * d) d = Some (q * 2 ^ k, - k).
Proof.
  intros Hq Hd. exists (52 - Z.log2 q).
  assert (Z.log2 q < 53) by (apply Z.log2_lt_pow2; lia). split; [lia|].
  unfold f64_round. rewrite (proj2 (Z.eqb_neq (q * d) 0)) by nia.
  rewrite last_place_exact by done.
  replace (Z.log2 q - 52) with (- (52 - Z.log2 q)) by lia.
  assert (0 <= 52 - Z.log2 q) as Hk by lia. revert Hk. generalize (52 - Z.log2 q). intros k Hk.
  destruct (0 <=? - k) eqn:Hle; to_prop.
  - assert (k = 0) as -> by lia. cbn [Z.opp Z.pow]. change (2 ^ 0) with 1. rewrite !Z.mul_1_r.
    rewrite nearest_even_exact by done. rewrite (proj2 (Z.leb_gt _ _)); [done|].
    apply (Z.lt_trans _ (2 ^ 53)); [lia|]. apply Z.pow_lt_mono_r; lia.
  - rewrite Z.opp_involutive. replace (q * d * 2 ^ k) with (q * 2 ^ k * d) by lia.
    by rewrite nearest_even_exact.
Qed.

Lemma f64_round_i64_exact n k : 0 <= k -> f64_round_i64 (Some (n * 2 ^ k, - k)) = Z.min i64_max n.
Proof.
  intros Hk. unfold f64_round_i64. f_equal. destruct (0 <=? - k) eqn:Hle; to_prop.
  - assert (k = 0) as -> by lia. change (2 ^ 0) with 1. change (2 ^ - 0) with 1. lia.
  - rewrite Z.opp_involutive.
    assert (2 ^ k = 2 * 2 ^ (k - 1)) by (rewrite <- Z.pow_succ_r by lia; f_equal; lia).
    assert (0 < 2 ^ (k - 1)) by (apply Z.pow_pos_nonneg; lia).
    symmetry. apply (Z.div_unique_pos _ _ _ (2 ^ (k - 1))); lia.
Qed.

(** Digits are a whole number. *)
Lemma parse_decimal_digits number n :
  number <> EmptyString -> digits_value number 0 = Some n -> parse_decimal number = Some (false, n, 0).
Proof.
  intros Hne Hn. destruct number as [|c rest]; [done|].
  assert (is_ascii_digit c = true) as Hc by (cbn [digits_value] in Hn; by destruct (is_ascii_digit c)).
  unfold parse_decimal.
  rewrite (bool_decide_eq_false_2 (c = "-"%char)) by (intros ->; done).
  rewrite (bool_decide_eq_false_2 (c = "+"%char)) by (intros ->; done).
  rewrite (take_digits_all _ _ 0 _ Hn). cbn [String.length]. by rewrite (proj2 (Z.ltb_lt 0 _)) by lia.
Qed.

(** A whole number of units is a whole number of microseconds, exactly, while
    those stay below 2^53, over two centuries. *)
Lemma scaled_micros_exact number n scale :
  number <> EmptyString -> digits_value number 0 = Some n -> 0 < scale -> n * scale < 2 ^ 53 ->
  scaled_micros number scale = Some (n * scale).
Proof.
  intros Hne Hn Hscale Hlt. pose proof (digits_value_ge _ _ _ (Z.le_refl 0) Hn) as Hpos.
  destruct number as [|c rest]; [done|].
  assert (parse_f64 (String c rest) =
    match f64_round n 1 with Some size => Some (false, size) | None => None end) as Hp.
  { unfold parse_f64. rewrite (parse_decimal_digits _ n) by done. unfold decimal_round.
    change (0 <=? 0) with true. cbv iota. change (10 ^ 0) with 1. by rewrite Z.mul_1_r. }
  unfold scaled_micros. rewrite Hp. destruct (decide (n = 0)) as [->|].
  - cbn. unfold i64_max. done.
  - destruct (f64_round_exact n 1) as (k & Hk & Hr); [nia|lia|].
    rewrite Z.mul_1_r in Hr. rewrite Hr. cbn [andb]. unfold f64_scale.
    set (x := if 0 <=? - k then _ else _).
    assert (exists k', 0 <= k' /\ x = Some (n * scale * 2 ^ k', - k')) as (k' & Hk' & ->).
    { subst x. destruct (0 <=? - k) eqn:Hle; to_prop.
      - assert (k = 0) as -> by lia. change (2 ^ 0) with 1. change (2 ^ - 0) with 1.
        destruct (f64_round_exact (n * scale) 1) as (k' & ? & Hr'); [nia|lia|].
        exists k'. split; [done|]. rewrite <- Hr'. f_equal. lia.
      - rewrite Z.opp_involutive.
        destruct (f64_round_exact (n * scale) (2 ^ k)) as (k' & ? & Hr'); [nia|lia|].
        exists k'. split; [done|]. rewrite <- Hr'. f_equal. lia. }
    rewrite f64_round_i64_exact by lia. unfold i64_max. f_equal. lia.
Qed.

Definition f64_nonneg (x : f64) : Prop := match x with Some (m, _) => 0 <= m | None => True end.

Lemma f64_round_nonneg n d : 0 <= n -> 0 < d -> f64_nonneg (f64_round n d).
Proof.
  intros Hn Hd. unfold f64_round. case_match; cbn; [lia|].
  set (m := if 0 <=? last_place n d then _ else _).
  assert (forall n d, 0 <= n -> 0 < d -> 0 <= nearest_even n d) as Hnear.
  { intros n' d' ? ?. unfold nearest_even. pose proof (Z.div_pos n' d'). repeat case_match; lia. }
  assert (0 <= m).
  { pose proof (Z.pow_nonneg 2 (- last_place n d)).
    pose proof (Z.pow_pos_nonneg 2 (last_place n d)).
    subst m. case_match; to_prop; apply Hnear; nia. }
  case_match; cbn; [done|lia].
Qed.

Lemma f64_scale_nonneg x scale : f64_nonneg x -> 0 < scale -> f64_nonneg (f64_scale x scale).
Proof.
  destruct x as [[m e]|]; cbn [f64_scale f64_nonneg]; [|done]. intros.
  pose proof (Z.pow_pos_nonneg 2 e). pose proof (Z.pow_pos_nonneg 2 (- e)).
  case_match; to_prop; apply f64_round_nonneg; nia.
Qed.

Lemma f64_round_i64_range x : f64_nonneg x -> 0 <= f64_round_i64 x <= i64_max.
Proof.
  destruct x as [[m e]|]; cbn [f64_round_i64 f64_nonneg]; [|unfold i64_max; lia]. intros.
  assert (0 <= (if 0 <=? e then m * 2 ^ e else (m + 2 ^ (- e - 1)) / 2 ^ (- e))).
  { case_match; to_prop.
    - pose proof (Z.pow_pos_nonneg 2 e). nia.
    - apply Z.div_pos; [|apply Z.pow_pos_nonneg; lia].
      pose proof (Z.pow_nonneg 2 (- e - 1)). lia. }
  unfold i64_max. lia.
Qed.

Lemma take_digits_nonneg text value count :
  0 <= value -> 0 <= (take_digits text value count).1.1.
Proof.
  revert value count. induction text as [|c text IH]; intros value count Hv; cbn [take_digits]; [done|].
  case_match eqn:Hd; [|done]. apply IH.
  pose proof (digits_value_ge (String c EmptyString) value
    (value * 10 + (Z.of_nat (Strings.Ascii.nat_of_ascii c) - 48)) Hv) as Hge.
  cbn [digits_value] in Hge. rewrite Hd in Hge. specialize (Hge eq_refl). lia.
Qed.

Lemma parse_decimal_nonneg text negative value scale :
  parse_decimal text = Some (negative, value, scale) -> 0 <= value.
Proof.
  unfold parse_decimal.
  destruct (match text with EmptyString => _ | String _ _ => _ end) as [sign body].
  pose proof (take_digits_nonneg body 0 0 (Z.le_refl 0)) as Hw.
  destruct (take_digits body 0 0) as [[whole whole_count] rest]. cbn in Hw.
  set (split := match rest with EmptyString => _ | String _ _ => _ end).
  assert (0 <= split.1.1.1) as Hs.
  { subst split. destruct rest as [|c rest]; [done|]. case_match; [|done].
    pose proof (take_digits_nonneg rest whole whole_count Hw).
    by destruct (take_digits rest whole whole_count) as [[? ?] ?]. }
  destruct split as [[[found count] fraction] tail]. cbn in Hs.
  destruct (0 <? count); [|done]. destruct (match tail with EmptyString => _ | _ => _ end) as [x|]; [|done].
  by intros [= _ <- _].
Qed.

Lemma decimal_round_nonneg value scale : 0 <= value -> f64_nonneg (decimal_round value scale).
Proof.
  intros Hvalue. unfold decimal_round.
  pose proof (Z.pow_pos_nonneg 10 scale). pose proof (Z.pow_pos_nonneg 10 (- scale)).
  case_match; to_prop; apply f64_round_nonneg; nia.
Qed.

Lemma parse_f64_nonneg text negative size :
  parse_f64 text = Some (negative, size) -> f64_nonneg (Some size).
Proof.
  unfold parse_f64. destruct (parse_decimal text) as [[[sign value] scale]|] eqn:Hdecimal; [|done].
  apply parse_decimal_nonneg in Hdecimal. pose proof (decimal_round_nonneg value scale Hdecimal) as Hsize.
  destruct (decimal_round value scale) as [found|]; [|done]. by intros [= _ <-].
Qed.

Lemma scaled_micros_range number scale micros :
  0 < scale -> scaled_micros number scale = Some micros -> 0 <= micros <= i64_max.
Proof.
  intros Hs. unfold scaled_micros.
  destruct (parse_f64 number) as [[negative [m e]]|] eqn:Hp; [|done].
  apply parse_f64_nonneg in Hp. case_match; [done|]. intros [= <-].
  apply f64_round_i64_range. exact (f64_scale_nonneg (Some (m, e)) scale Hp Hs).
Qed.

(** ** Numbers printed *)

Lemma digit_char_value x : (x < 10)%N ->
  is_ascii_digit (pretty_N_char x) = true /\ Z.of_nat (Strings.Ascii.nat_of_ascii (pretty_N_char x)) - 48 = Z.of_N x.
Proof.
  intros Hx. destruct x as [|p]; [done|].
  do 4 (destruct p as [p|p|]; try done; try lia).
Qed.

Lemma digits_value_go x text : digits_value (pretty_N_go x text) 0 = digits_value text (Z.of_N x).
Proof.
  revert text. induction (N.lt_wf_0 x) as [x _ IH]; intros text.
  destruct (decide (x = 0)%N) as [->|Hne]; [done|].
  assert (0 < x)%N by lia. rewrite pretty_N_go_step by done. rewrite IH by by apply N.div_lt. cbn [digits_value].
  destruct (digit_char_value (x `mod` 10)) as [-> ->]; [by apply N.mod_lt|]. f_equal.
  pose proof (N.div_mod' x 10). lia.
Qed.

(** A number printed is its digits. *)
Lemma digits_value_pretty (n : Z) : 0 <= n -> pretty n <> "" /\ digits_value (pretty n) 0 = Some n.
Proof.
  intros Hn. destruct n as [|p|p]; [done| |lia].
  change (pretty (Zpos p)) with (pretty_N_go (Npos p) (EmptyString)).
  pose proof (digits_value_go (Npos p) "") as Hgo. split; [|done]. by intros Htext; rewrite Htext in Hgo.
Qed.
