(* ===== verification/Json.v ===== *)
(** * JSON values

    [serde_json]'s [Value] and its [Map], which keeps the order keys were first
    inserted in. Numbers are held as the text they print. *)
From S2P Require Import Prelude Text.
Local Open Scope string_scope.
Local Open Scope list_scope.

Inductive Jvalue :=
  | JNull
  | JBool (held : bool)
  | JNumber (text : string)
  | JText (text : string)
  | JArray (elements : list Jvalue)
  | JObject (entries : list (string * Jvalue)).

Definition Object : Type := list (string * Jvalue).

Fixpoint jget (key : string) (object : Object) : option Jvalue :=
  match object with
  | [] => None
  | (held, value) :: object => if decide (held = key) then Some value else jget key object
  end.

(** [Map::insert]: a key held keeps its place. *)
Fixpoint jinsert (key : string) (value : Jvalue) (object : Object) : Object :=
  match object with
  | [] => [(key, value)]
  | (held, old) :: object =>
      if decide (held = key) then (held, value) :: object
      else (held, old) :: jinsert key value object
  end.

Definition keys (object : Object) : list string := fst <$> object.

(** [Value::is_null], [as_str], [as_bool] and [is_object]. *)
Definition is_null (value : Jvalue) : bool := match value with JNull => true | _ => false end.
Definition as_str (value : Jvalue) : option string :=
  match value with JText text => Some text | _ => None end.
Definition as_bool (value : Jvalue) : option bool :=
  match value with JBool held => Some held | _ => None end.
Definition is_object (value : Jvalue) : bool := match value with JObject _ => true | _ => false end.

(** ** Facts *)

Lemma jget_insert key other value object :
  jget other (jinsert key value object) = if decide (key = other) then Some value else jget other object.
Proof.
  induction object as [|[held old] object IH]; cbn; [done|].
  destruct (decide (held = key)) as [->|Hne]; cbn.
  - by case_decide.
  - rewrite IH. repeat case_decide; congruence.
Qed.

Lemma keys_insert key value object :
  keys (jinsert key value object) = if decide (key ∈ keys object) then keys object else keys object ++ [key].
Proof.
  unfold keys. induction object as [|[held old] object IH]; [done|].
  cbn [jinsert]. destruct (decide (held = key)) as [->|Hne]; cbn [fmap list_fmap fst].
  - by rewrite decide_True by apply list_elem_of_here.
  - rewrite IH. destruct (decide (key ∈ fst <$> object)) as [Hin|Hout].
    + by rewrite decide_True by (by apply list_elem_of_further).
    + rewrite decide_False; [done|]. by intros [->|]%elem_of_cons.
Qed.

Lemma jget_keys key object : jget key object <> None <-> key ∈ keys object.
Proof.
  unfold keys. induction object as [|[held old] object IH]; cbn.
  - split; [done|]. by intros ?%not_elem_of_nil.
  - rewrite elem_of_cons. case_decide; subst.
    + split; [by left|done].
    + rewrite IH. split; [by right|by intros [|]].
Qed.

Lemma nodup_insert key value object : NoDup (keys object) -> NoDup (keys (jinsert key value object)).
Proof.
  intros Hnodup. rewrite keys_insert. case_decide; [done|].
  apply NoDup_app. split_and!; [done| |apply NoDup_singleton].
  by intros other Hother ->%list_elem_of_singleton.
Qed.
