(* ===== verification/Rows.v ===== *)
(** * Rows rendered

    How a batch of rows prints, of [ceres-entities/src/records.rs]: CSV cells
    and rows, projections, and the trait [RenderRows] that records and
    entities share. What [serde_json] makes of a row is the class
    [Serialize]; a reader of CSV text states what a printed table holds. *)
From S2P Require Import Prelude.
From S2P Require Import Text Json.
Local Open Scope string_scope.
Local Open Scope list_scope.

Definition mark : ascii := Strings.Ascii.ascii_of_nat 34.
Definition newline : ascii := Strings.Ascii.ascii_of_nat 10.
Definition return_ : ascii := Strings.Ascii.ascii_of_nat 13.
Definition line_end : string := String newline "".

(** [concat] of strings pushed one after another. *)
Definition str_concat (parts : list string) : string := foldr (fun a b => a +:+ b) "" parts.

(** ** CSV *)

(** What [csv_cell] pushes for a value. *)
Fixpoint doubled (value : string) : string :=
  match value with
  | EmptyString => EmptyString
  | String c value => (if Strings.Ascii.eqb c mark then String mark (String c "") else String c "") +:+ doubled value
  end.

Definition needs_marks (value : string) : bool :=
  contains_char mark value || contains_char "," value || contains_char newline value || contains_char return_ value.

Definition csv_cell (value : string) : string :=
  if needs_marks value then String mark (doubled value +:+ String mark "") else value.

(** What [csv_row] pushes for its cells. *)
Definition csv_row (cells : list (option string)) : string :=
  str_join "," (from_option csv_cell "" <$> cells) +:+ line_end.

(** ** Serialization *)

(** [Serialize] and [Filterable] of a row type: its wire keys, and what
    [serde_json] answers for [to_value] and [to_writer] of a row. *)
Class Serialize (T : Type) := {
  WIRE_KEYS : list string;
  to_value : T -> result Jvalue string;
  to_writer : T -> result string string
}.

(** [serde_json]'s compact text of a value. *)
Class JsonText := json_line : Jvalue -> string.

(** [project]. *)
Definition project {T} `{!Serialize T} (record : T) (fields : list (string * string)) : result Object string :=
  match to_value record with
  | Err error => Err error
  | Ok value =>
      let object := match value with JObject object => object | _ => [] end in
      Ok (foldl (fun projected '(field, alias) => jinsert alias (default JNull (jget field object)) projected)
            [] fields)
  end.

(** [projected_aliases]. *)
Definition projected_aliases (fields : list (string * string)) : list string :=
  foldl (fun aliases '(_, alias) => if bool_decide (alias ∈ aliases) then aliases else aliases ++ [alias])
    [] fields.

Section render.
Context `{JsonText}.

(** [projected_cell]. *)
Definition projected_cell (value : Jvalue) : option string :=
  match value with
  | JNull => None
  | JText text => Some text
  | other => Some (json_line other)
  end.

Section rows.
Context {T : Type} `{!Serialize T}.

(** [to_json_array], [to_json_first] and [to_json_lines]. *)
Definition to_json_array (records : list T) : result string string :=
  match res_map to_value records with
  | Err error => Err error
  | Ok values => Ok (json_line (JArray values))
  end.

Definition to_json_first (records : list T) : result string string :=
  match records with
  | record :: _ => to_writer record
  | [] => Ok "null"
  end.

Definition lines_of (render : T -> result string string) (records : list T) : result string string :=
  match res_map render records with
  | Err error => Err error
  | Ok lines => Ok (str_concat lines)
  end.

Definition json_row (record : T) : result string string :=
  match to_writer record with Err error => Err error | Ok text => Ok (text +:+ line_end) end.

Definition to_json_lines : list T -> result string string := lines_of json_row.

(** [to_json_lines_projected]. *)
Definition projected_row (fields : list (string * string)) (record : T) : result string string :=
  match project record fields with
  | Err error => Err error
  | Ok projected => Ok (json_line (JObject projected) +:+ line_end)
  end.

Definition to_json_lines_projected (records : list T) (fields : list (string * string)) : result string string :=
  lines_of (projected_row fields) records.

(** [to_csv_lines_projected]: its header, and one record. *)
Definition csv_header (fields : list (string * string)) : string := csv_row (Some <$> projected_aliases fields).

Definition csv_record (fields : list (string * string)) (record : T) : result string string :=
  match project record fields with
  | Err error => Err error
  | Ok projected => Ok (csv_row ((fun entry => projected_cell entry.2) <$> projected))
  end.

Definition to_csv_lines_projected (records : list T) (fields : list (string * string)) (header : bool) :
    result string string :=
  match lines_of (csv_record fields) records with
  | Err error => Err error
  | Ok lines => Ok ((if header then csv_header fields else "") +:+ lines)
  end.

(** [to_csv_lines]. *)
Definition wire_fields : list (string * string) := (fun key => (key, key)) <$> WIRE_KEYS.
Definition to_csv_lines (records : list T) (header : bool) : result string string :=
  to_csv_lines_projected records wire_fields header.
End rows.
End render.

(** ** A reader of CSV text

    RFC 4180 as the readers of a dump take it: a cell that opens with a quote
    runs to the quote that closes it, a doubled quote in it standing for one,
    and an empty line is no record. *)
Inductive Reading := Opening | Plain | Marked | Closing.

Fixpoint csv_read (state : Reading) (cell : string) (row : list string) (text : string) : list (list string) :=
  match text with
  | EmptyString => match state, row with Opening, [] => [] | _, _ => [row ++ [cell]] end
  | String c text =>
      let plainly :=
        if Strings.Ascii.eqb c "," then csv_read Opening "" (row ++ [cell]) text
        else if Strings.Ascii.eqb c newline then
          match state, row with
          | Opening, [] => csv_read Opening "" [] text
          | _, _ => (row ++ [cell]) :: csv_read Opening "" [] text
          end
        else csv_read Plain (cell +:+ String c "") row text in
      match state with
      | Opening => if Strings.Ascii.eqb c mark then csv_read Marked "" row text else plainly
      | Plain => plainly
      | Marked => if Strings.Ascii.eqb c mark then csv_read Closing cell row text
                  else csv_read Marked (cell +:+ String c "") row text
      | Closing => if Strings.Ascii.eqb c mark then csv_read Marked (cell +:+ String c "") row text else plainly
      end
  end.

Definition csv_records : string -> list (list string) := csv_read Opening "" [].

(** A row of one empty cell prints an empty line, which no reader keeps. *)
Definition blank (cells : list string) : bool :=
  match cells with [] | [EmptyString] => true | _ => false end.

Lemma str_concat_app (a b : list string) : str_concat (a ++ b) = str_concat a +:+ str_concat b.
Proof. induction a as [|x a IH]; [done|]. cbn. fold (str_concat (a ++ b)) (str_concat a). by rewrite IH, str_app_assoc. Qed.

(** A separator, and the state of a cell read to it. *)
Definition ends (c : ascii) : bool := Strings.Ascii.eqb c "," || Strings.Ascii.eqb c newline.

Lemma csv_read_plain value cell row c rest :
  contains_char "," value = false -> contains_char newline value = false ->
  ends c = true ->
  csv_read Plain cell row (value +:+ String c rest) = csv_read Plain (cell +:+ value) row (String c rest).
Proof.
  intros Hcomma Hline _. revert cell. induction value as [|a value IH]; intros cell.
  { by rewrite str_app_nil, str_app_nil_r. }
  cbn in Hcomma, Hline. apply orb_false_iff in Hcomma as [Ha Hcomma], Hline as [Hb Hline].
  rewrite str_app_cons. cbn [csv_read]. rewrite Ha, Hb. rewrite IH by done. by rewrite str_app_assoc.
Qed.

Lemma csv_read_marked value cell row rest :
  csv_read Marked cell row (doubled value +:+ String mark rest) = csv_read Closing (cell +:+ value) row rest.
Proof.
  revert cell. induction value as [|a value IH]; intros cell.
  { cbn [doubled]. rewrite str_app_nil, str_app_nil_r. cbn [csv_read]. by rewrite Strings.Ascii.eqb_refl. }
  cbn [doubled]. destruct (Strings.Ascii.eqb a mark) eqn:Ha; str_simpl; rewrite ?Ha, ?Strings.Ascii.eqb_refl.
  - apply Strings.Ascii.eqb_eq in Ha as ->. rewrite IH. by rewrite str_app_assoc.
  - rewrite IH. by rewrite str_app_assoc.
Qed.

Lemma csv_read_end value (state : Reading) row c rest :
  state <> Marked -> (state = Opening -> row <> [] \/ c = ","%char) -> ends c = true ->
  csv_read state value row (String c rest) =
    if Strings.Ascii.eqb c "," then csv_read Opening "" (row ++ [value]) rest
    else (row ++ [value]) :: csv_read Opening "" [] rest.
Proof.
  intros Hmarked Hopening Hends. cbn [csv_read].
  assert (Strings.Ascii.eqb c mark = false) as ->.
  { unfold ends in Hends. apply orb_true_iff in Hends as [Hc|Hc]; apply Strings.Ascii.eqb_eq in Hc as ->; done. }
  destruct (Strings.Ascii.eqb c ",") eqn:Hcomma; [by destruct state|].
  unfold ends in Hends. rewrite Hcomma in Hends. cbn in Hends. rewrite Hends.
  destruct state; [|done|done|done].
  destruct (Hopening eq_refl) as [Hrow| ->]; [by destruct row|done].
Qed.

(** A cell read up to what ends it. *)
Lemma csv_read_cell value row c rest :
  (value = "" -> row <> [] \/ c = ","%char) -> ends c = true ->
  csv_read Opening "" row (csv_cell value +:+ String c rest) =
    if Strings.Ascii.eqb c "," then csv_read Opening "" (row ++ [value]) rest
    else (row ++ [value]) :: csv_read Opening "" [] rest.
Proof.
  intros Hempty Hends. unfold csv_cell. destruct (needs_marks value) eqn:Hneeds.
  - rewrite str_app_cons, str_app_assoc. cbn [csv_read]. rewrite Strings.Ascii.eqb_refl.
    change (String mark "" +:+ String c rest) with (String mark (String c rest)).
    rewrite csv_read_marked, str_app_nil. by apply csv_read_end.
  - destruct value as [|a value].
    { rewrite str_app_nil. by apply csv_read_end; [|auto|]. }
    unfold needs_marks in Hneeds. repeat (apply orb_false_iff in Hneeds as [Hneeds ?]).
    cbn [contains_char] in *. repeat match goal with H : _ || _ = false |- _ => apply orb_false_iff in H as [? ?] end.
    rewrite str_app_cons. cbn [csv_read]. simplify_eq/=.
    repeat match goal with H : Strings.Ascii.eqb a _ = false |- _ => rewrite H; clear H end.
    change ("" +:+ String a "") with (String a ""). rewrite csv_read_plain by done.
    change (String a "" +:+ value) with (String a value). by apply csv_read_end.
Qed.

Lemma csv_read_row (cells row : list string) rest :
  cells <> [] -> (cells = [""] -> row <> []) ->
  csv_read Opening "" row (str_join "," (csv_cell <$> cells) +:+ String newline rest) =
    (row ++ cells) :: csv_records rest.
Proof.
  revert row. induction cells as [|cell cells IH]; intros row Hsome Hblank; [done|].
  destruct cells as [|next cells].
  - change (str_join "," (csv_cell <$> [cell])) with (csv_cell cell).
    rewrite csv_read_cell; [done| |done]. intros ->. left. by apply Hblank.
  - change (str_join "," (csv_cell <$> cell :: next :: cells))
      with (csv_cell cell +:+ String "," (str_join "," (csv_cell <$> next :: cells))).
    rewrite str_app_assoc, str_app_cons.
    rewrite csv_read_cell; [|by auto|done]. cbn [Strings.Ascii.eqb]. change (Strings.Ascii.eqb "," ",") with true. cbv iota.
    rewrite IH; [by rewrite <- app_assoc|done|]. intros _ Hnil. by apply app_nil in Hnil as [? ?].
Qed.

Lemma csv_row_cells (cells : list (option string)) :
  csv_row cells = str_join "," (csv_cell <$> (default "" <$> cells)) +:+ line_end.
Proof.
  unfold csv_row. f_equal. f_equal. rewrite <- list_fmap_compose. by apply list_fmap_ext; intros ? [|].
Qed.

(** Cells as a reader takes them: an absent value is an empty cell. *)
Definition read_as (cells : list (option string)) : list string := default "" <$> cells.

(** What prints reads back, but for the rows that print an empty line. *)
Lemma csv_rows_read (rows : list (list (option string))) :
  csv_records (str_concat (csv_row <$> rows)) =
    filter (fun cells => blank cells = false) (read_as <$> rows).
Proof.
  induction rows as [|cells rows IH]; [done|].
  cbn [fmap list_fmap]. unfold str_concat. cbn [foldr]. fold (str_concat (csv_row <$> rows)).
  rewrite csv_row_cells, str_app_assoc. fold (read_as cells).
  change (line_end +:+ str_concat (csv_row <$> rows)) with (String newline (str_concat (csv_row <$> rows))).
  destruct (blank (read_as cells)) eqn:Hblank.
  - rewrite filter_cons_False by congruence. rewrite <- IH. unfold blank in Hblank.
    destruct (read_as cells) as [|[|? ?] [|? ?]]; done.
  - rewrite filter_cons_True by done. rewrite <- IH. unfold csv_records at 1.
    apply csv_read_row; [by intros E; rewrite E in Hblank|by intros E; rewrite E in Hblank].
Qed.

(** ** Projections *)

(** The field an alias shows: the last one given for it. *)
Definition shown_field (fields : list (string * string)) (alias : string) : option string :=
  foldl (fun found '(field, name) => if decide (name = alias) then Some field else found) None fields.

Definition shown_value (object : Object) (fields : list (string * string)) (alias : string) : Jvalue :=
  default JNull (field ← shown_field fields alias; jget field object).

Lemma shown_field_snoc fields field name alias :
  shown_field (fields ++ [(field, name)]) alias = if decide (name = alias) then Some field else shown_field fields alias.
Proof. unfold shown_field. by rewrite foldl_app. Qed.

Lemma projected_aliases_snoc fields field alias :
  projected_aliases (fields ++ [(field, alias)]) =
    if bool_decide (alias ∈ projected_aliases fields) then projected_aliases fields
    else projected_aliases fields ++ [alias].
Proof. unfold projected_aliases. by rewrite foldl_app. Qed.

Lemma projected_aliases_nodup fields : NoDup (projected_aliases fields).
Proof.
  induction fields as [|[field alias] fields IH] using rev_ind; [constructor|].
  rewrite projected_aliases_snoc. case_bool_decide; [done|].
  apply NoDup_app. split_and!; [done| |apply NoDup_singleton]. by intros other Hother ->%list_elem_of_singleton.
Qed.

Lemma shown_field_None fields alias : alias ∉ projected_aliases fields -> shown_field fields alias = None.
Proof.
  induction fields as [|[field name] fields IH] using rev_ind; [done|].
  rewrite projected_aliases_snoc, shown_field_snoc. intros Hout.
  assert (alias <> name /\ alias ∉ projected_aliases fields) as [Hname Hrest].
  { case_bool_decide as Hin; [split; [by intros ->|done]|].
    rewrite elem_of_app, list_elem_of_singleton in Hout. tauto. }
  rewrite decide_False by done. by apply IH.
Qed.

(** An object whose keys are distinct is its keys with what they hold. *)
Lemma object_of_keys (object : Object) :
  NoDup (keys object) -> object = (fun key => (key, default JNull (jget key object))) <$> keys object.
Proof.
  unfold keys. induction object as [|[key value] object IH]; [done|].
  cbn [fmap list_fmap fst jget]. intros [Hout Hnodup]%NoDup_cons.
  rewrite decide_True by done. f_equal. rewrite IH at 1 by done.
  apply list_fmap_ext. intros i other Hother.
  rewrite decide_False; [done|]. intros ->. apply Hout. by eapply list_elem_of_lookup_2.
Qed.

(** A projection shows each alias once, in the order first given, with the
    value of the last field given for it. *)
Lemma project_shows {T} `{!Serialize T} (record : T) fields projected :
  project record fields = Ok projected ->
  exists object, (to_value record = Ok (JObject object) \/
      object = [] /\ exists value, to_value record = Ok value /\ is_object value = false) /\
    projected = (fun alias => (alias, shown_value object fields alias)) <$> projected_aliases fields.
Proof.
  unfold project. destruct (to_value record) as [value|error]; [|done]. intros [= <-].
  exists (match value with JObject object => object | _ => [] end).
  split; [destruct value; eauto|]. generalize (match value with JObject object => object | _ => [] end). intros object.
  pose (folded := fun fields : list (string * string) =>
    foldl (fun projected '(field, alias) => jinsert alias (default JNull (jget field object)) projected) [] fields).
  fold (folded fields).
  assert (keys (folded fields) = projected_aliases fields /\
    forall alias, default JNull (jget alias (folded fields)) = shown_value object fields alias) as [Hkeys Hget].
  { induction fields as [|[field alias] fields [IHkeys IHget]] using rev_ind; [done|].
    assert (folded (fields ++ [(field, alias)]) = jinsert alias (default JNull (jget field object)) (folded fields)) as ->
      by (unfold folded; by rewrite foldl_app).
    rewrite keys_insert, projected_aliases_snoc, IHkeys. split; [by repeat case_decide || case_bool_decide|].
    intros other. rewrite jget_insert. unfold shown_value. rewrite shown_field_snoc.
    case_decide; [done|]. apply IHget. }
  rewrite (object_of_keys (folded fields)), Hkeys by (rewrite Hkeys; apply projected_aliases_nodup).
  apply list_fmap_ext. intros i alias _. by rewrite Hget.
Qed.
