(* ===== verification/Credentials.v ===== *)
(** * Email addresses

    [normalize_email] of [ceres-database/src/credentials.rs], which decides
    the form an address is stored and looked up in. The grammar, the domain
    processing, the composing and the Unicode tables of [str] are parameters.

    The parts after this one: what a user's password and address become. *)
From S2P Require Import Prelude.
From S2P Require Import Text Schema Json.
Local Open Scope string_scope.
Local Open Scope list_scope.
Local Open Scope nat_scope.

(** What the function takes from its crates and from [char]'s tables.
    [parse_email] gives the display, local and domain parts, [domain_to_unicode]
    the domain and whether its processing succeeded, [alphabetic] whether every
    character is a letter. *)
Class EmailCrates := {
  nfc : string -> string;
  parse_email : string -> option (string * string * string);
  domain_to_unicode : string -> string * bool;
  alphabetic : string -> bool;
  lowercase : string -> string
}.

Definition SPECIAL_USE_DOMAINS : list string :=
  ["arpa"; "invalid"; "local"; "localhost"; "onion"; "test"].

(** [chars().count()]: the bytes that continue no character. *)
Fixpoint char_count (text : string) : nat :=
  match text with
  | EmptyString => 0
  | String c text =>
      let byte := Strings.Ascii.nat_of_ascii c in
      (if (128 <=? byte) && (byte <? 192) then 0 else 1) + char_count text
  end.

Section normalize.
Context `{EmailCrates}.

(** The tests of a domain, processed. *)
Definition deliverable (domain : string) : bool :=
  let labels := str_split "." domain in
  match last labels with
  | None => false
  | Some tail =>
      negb ((length labels <? 2) || (253 <? String.length domain)) &&
      negb (existsb (fun label =>
        bool_decide (label = "") || str_starts_with "-" label || str_ends_with "-" label) labels) &&
      negb ((char_count tail <? 2) || negb (alphabetic tail)) &&
      negb (bool_decide (lowercase tail ∈ SPECIAL_USE_DOMAINS))
  end.

(** The tests of a local part. *)
Definition storable (local_ : string) : bool :=
  negb (str_starts_with (String (Strings.Ascii.ascii_of_nat 34) "") local_ || bool_decide (local_ = "") || (64 <? String.length local_)).

(** [normalize_email]. *)
Definition normalize_email (value : string) : option string :=
  if 254 <? String.length value then None
  else
    match parse_email (nfc value) with
    | None => None
    | Some (display, local_, domain) =>
        if negb (bool_decide (display = "")) then None
        else if negb (storable local_) then None
        else
          let '(domain, processed) := domain_to_unicode domain in
          if negb processed then None
          else if negb (deliverable domain) then None
          else Some (lowercase (local_ +:+ "@" +:+ domain))
    end.
End normalize.

(** * What a user's password and address become

    [Credentials] of [ceres-database/src/credentials.rs]: the rules a user's
    own columns follow on their way into the database. The hashing crates and
    their random salts are parameters. *)

(** ** Drawing

    What a command draws as it reads, fresh IDs, clock readings and salts, is
    numbered in the order drawn; a refusal keeps what was drawn before it. *)
Definition Reading (A : Type) : Type := nat -> result A string * nat.

Definition read_ok {A} (a : A) : Reading A := fun drawn => (Ok a, drawn).
Definition read_err {A} (message : string) : Reading A := fun drawn => (Err message, drawn).

Definition read_bind {A B} (m : Reading A) (k : A -> Reading B) : Reading B :=
  fun drawn => match m drawn with (Ok a, drawn) => k a drawn | (Err e, drawn) => (Err e, drawn) end.

Notation "'let+' x ':=' r 'in' k" := (read_bind r (fun x => k))
  (at level 200, x pattern, r at level 100, k at level 200, right associativity) : ceres_scope.
Local Open Scope ceres_scope.

(** [collect::<Result<Vec<_>, _>>()] of what draws. *)
Fixpoint read_map {A B} (f : A -> Reading B) (l : list A) : Reading (list B) :=
  match l with
  | [] => read_ok []
  | a :: l => let+ b := f a in let+ bs := read_map f l in read_ok (b :: bs)
  end.

(** ** Hashing *)

Record Argon2Params := {
  time_cost : Z; memory_cost : Z; parallelism : Z; hash_length : Z; salt_length : Z
}.

Inductive Hashing := Argon2 (parameters : Argon2Params) | Bcrypt (cost : Z).

(** [argon2] and [bcrypt]: whether parameters are ones [Params::new] takes, a
    salt of that many bytes encoded, and the hashes; the last draws its own
    salt. *)
Class HashCrates := {
  argon2_configured : Argon2Params -> bool;
  salt_string : nat -> Z -> option string;
  argon2_hashed : string -> string -> Argon2Params -> option string;
  bcrypt_hashed : nat -> string -> Z -> option string;
  bcrypt_verify : string -> string -> option bool;
  argon2_verify : string -> string -> option bool
}.

(** [split_once] on a separator of several characters. *)
Fixpoint split_once_at (separator text : string) : option (string * string) :=
  match strip_prefix separator text with
  | Some rest => Some ("", rest)
  | None =>
      match text with
      | EmptyString => None
      | String c text =>
          match split_once_at separator text with
          | Some (before, after) => Some (String c before, after)
          | None => None
          end
      end
  end.

Definition is_some {A} (value : option A) : bool := match value with Some _ => true | None => false end.

(** [bcrypt_hash]. *)
Definition bcrypt_hash (value : string) : bool :=
  match strip_prefix "$2" value with
  | Some (String variant rest) =>
      ((variant =? "a")%char || (variant =? "y")%char || (variant =? "b")%char) &&
      match strip_prefix "$" rest with
      | Some rest => char_count rest =? 56
      | None => false
      end
  | _ => false
  end.

Definition all_digits (text : string) : bool := negb (bool_decide (text = "")) && str_forall is_ascii_digit text.

Definition argon2_char (c : ascii) : bool :=
  is_ascii_alphanumeric c || (c =? "+")%char || (c =? "/")%char || (c =? "$")%char.

(** [find_map] over the variants takes the first that prefixes. *)
Definition argon2_variant (rest : string) : option string :=
  find_map (fun variant => strip_prefix variant rest) ["id"; "i"; "d"].

(** [argon2_hash]. *)
Definition argon2_hash (value : string) : bool :=
  default false (
    rest ← strip_prefix "$argon2" value;
    rest ← argon2_variant rest;
    rest ← strip_prefix "$v=" rest;
    '(version, rest) ← split_once_at "$m=" rest;
    '(memory, rest) ← split_once_at ",t=" rest;
    '(time, rest) ← split_once_at ",p=" rest;
    '(parallelism, tail) ← split_once "$" rest;
    Some (all_digits version && all_digits memory && all_digits time && all_digits parallelism &&
          negb (bool_decide (tail = "")) && str_forall argon2_char tail)).

(** [is_password_hash] and [valid_password]. *)
Definition is_password_hash (value : string) : bool := bcrypt_hash value || argon2_hash value.
Definition valid_password (value : string) : bool :=
  negb (bool_decide (value = "")) && (String.length value <=? 72).

Section hashing.
Context `{HashCrates}.

(** [hash_argon2] and [hash_bcrypt]. *)
Definition hash_argon2 (value : string) (parameters : Argon2Params) : nat -> option string * nat :=
  fun drawn =>
    if argon2_configured parameters then
      match salt_string drawn (salt_length parameters) with
      | Some salt => (argon2_hashed value salt parameters, S drawn)
      | None => (None, S drawn)
      end
    else (None, drawn).

Definition hash_bcrypt (value : string) (cost : Z) : nat -> option string * nat :=
  fun drawn => (bcrypt_hashed drawn value cost, S drawn).

(** [verify_bcrypt] and [verify_argon2]: [None] for another algorithm's. *)
Definition verify_bcrypt (password hash : string) : option bool :=
  if bcrypt_hash hash then bcrypt_verify password hash else None.
Definition verify_argon2 (password hash : string) : option bool :=
  if argon2_hash hash then argon2_verify password hash else None.

(** [Credentials::password]. *)
Definition hashed_password (self : Hashing) (value : string) : nat -> option string * nat :=
  fun drawn =>
    if is_password_hash value then (Some value, drawn)
    else if negb (valid_password value) then (None, drawn)
    else match self with
         | Argon2 parameters => hash_argon2 value parameters drawn
         | Bcrypt cost => hash_bcrypt value cost drawn
         end.

Context `{EmailCrates}.

(** One column of [Credentials::apply]. *)
Definition apply_column (self : Hashing) (key : string) (value : Jvalue) : Reading Jvalue :=
  match value with
  | JText text =>
      if decide (key = "password") then
        fun drawn =>
          match hashed_password self text drawn with
          | (Some replaced, drawn) => (Ok (JText replaced), drawn)
          | (None, drawn) =>
              (Err "The `password` value is not one the model accepts, or could not be hashed.", drawn)
          end
      else if decide (key = "email") then
        match normalize_email text with
        | Some replaced => read_ok (JText replaced)
        | None => read_err "The `email` value is not a valid email address."
        end
      else read_ok value
  | _ =>
      if decide (key = "password" \/ key = "email") then
        read_err ("The `" +:+ key +:+ "` value is not text.")
      else read_ok value
  end.

(** [Credentials::apply]: only a user's columns follow the rules. *)
Definition apply_credentials (self : Hashing) (table : EntityTable) (object : Object) : Reading Object :=
  if decide (table = Users) then
    read_map (fun '(key, value) => let+ value := apply_column self key value in read_ok (key, value)) object
  else read_ok object.
End hashing.
