(* ===== verification/FilterParse.v ===== *)
(** * Parsing a filter

    The front half of [ceres-database/src/filter.rs]: wire values, the filter
    tree, and how query pairs and the serialized form parse into it. The
    crates that read YAML, timestamps, durations, UUIDs and floating-point
    numbers are parameters. Instants and durations are nanoseconds. *)
From S2P Require Import Prelude.
From stdpp Require Import pretty.
From S2P Require Import Text Wire Credentials Sql Selector Schema.
Local Open Scope string_scope.
Local Open Scope list_scope.
Local Open Scope Z_scope.
Local Open Scope ceres_scope.

(** ** Wire values *)

Inductive Yaml :=
  | YNull
  | YBool (held : bool)
  | YNumber (text : string)
  | YString (text : string)
  | YSequence (elements : list Yaml)
  | YMapping (entries : list (Yaml * Yaml))
  | YTagged (tag : string) (value : Yaml).

Inductive WireValue := WireText (text : string) | WireYaml (value : Yaml).

(** [yaml_scalar]. *)
Definition yaml_scalar (value : Yaml) : option string :=
  match value with
  | YString text => Some text
  | YNull => Some "null"
  | YNumber number => Some number
  | YBool held => Some (if held : bool then "true" else "false")
  | _ => None
  end.

(** What stops a parse: a refusal, a panic, or, of the model's own, its fuel
    running out before the subfilters do. *)
Inductive Stop := Refused (refusal : Refusal) | Panicked | OutOfFuel.

Definition refused {A} (message : string) : result A Stop := Err (Refused (Invalid message)).

(** A step of the code's own that refuses. *)
Definition lift {A} (r : result A Refusal) : result A Stop :=
  match r with Ok a => Ok a | Err refusal => Err (Refused refusal) end.

(** A scalar parsed, or the message it is refused with. *)
Definition ok_or {A} (value : option A) (message : string) : result A Stop :=
  match value with Some a => Ok a | None => refused message end.

(** ** The filter tree *)

(** [Values]. *)
Inductive HeldValues :=
  | Uuids (ids : list string)
  | Texts (texts : list string)
  | Stamps (stamps : list Z)
  | ByteValues (patterns : list (list Z))
  | BooleanValue (wanted : bool).

Record OperationFilter := {
  of_field : FilterField;
  of_kind : OperationKind;
  of_values : HeldValues
}.

Inductive SubsampleSelect := First | Last.

Record FilterConditions := {
  equalities : list (string * HeldValues);
  operation_filters : list OperationFilter;
  address : option AddressSelector;
  root : option string;
  after : option Z;
  before : option Z;
  timespan : option Z;
  max_age : option Z;
  min_age : option Z;
  subsample_every : option Z;
  subsample : option Z;
  subsample_select : option SubsampleSelect;
  after_hour : option Z;
  before_hour : option Z;
  after_minute : option Z;
  before_minute : option Z;
  min_level : option nat;
  max_level : option nat;
  computed_filters : list (Computed * bool);
  impossible : bool
}.

(** [FilterNode]: its own conditions, and its [and] and [or] children. *)
Inductive FilterNode :=
  | Node (own : FilterConditions) (and_children or_children : list FilterNode).

Definition conditions_default : FilterConditions :=
  {| equalities := []; operation_filters := []; address := None; root := None; after := None;
     before := None; timespan := None; max_age := None; min_age := None;
     subsample_every := None; subsample := None; subsample_select := None; after_hour := None;
     before_hour := None; after_minute := None; before_minute := None; min_level := None;
     max_level := None; computed_filters := []; impossible := false |}.

(** The assignments of one field. *)
Definition set_equalities value (self : FilterConditions) : FilterConditions :=
  {| equalities := value; operation_filters := operation_filters self; address := address self;
     root := root self; after := after self; before := before self; timespan := timespan self;
     max_age := max_age self; min_age := min_age self; subsample_every := subsample_every self;
     subsample := subsample self; subsample_select := subsample_select self;
     after_hour := after_hour self; before_hour := before_hour self;
     after_minute := after_minute self; before_minute := before_minute self;
     min_level := min_level self; max_level := max_level self;
     computed_filters := computed_filters self; impossible := impossible self |}.
Definition set_operation_filters value (self : FilterConditions) : FilterConditions :=
  {| equalities := equalities self; operation_filters := value; address := address self;
     root := root self; after := after self; before := before self; timespan := timespan self;
     max_age := max_age self; min_age := min_age self; subsample_every := subsample_every self;
     subsample := subsample self; subsample_select := subsample_select self;
     after_hour := after_hour self; before_hour := before_hour self;
     after_minute := after_minute self; before_minute := before_minute self;
     min_level := min_level self; max_level := max_level self;
     computed_filters := computed_filters self; impossible := impossible self |}.
Definition set_address value (self : FilterConditions) : FilterConditions :=
  {| equalities := equalities self; operation_filters := operation_filters self;
     address := value; root := root self; after := after self; before := before self;
     timespan := timespan self; max_age := max_age self; min_age := min_age self;
     subsample_every := subsample_every self; subsample := subsample self;
     subsample_select := subsample_select self; after_hour := after_hour self;
     before_hour := before_hour self; after_minute := after_minute self;
     before_minute := before_minute self; min_level := min_level self;
     max_level := max_level self; computed_filters := computed_filters self;
     impossible := impossible self |}.
Definition set_root value (self : FilterConditions) : FilterConditions :=
  {| equalities := equalities self; operation_filters := operation_filters self;
     address := address self; root := value; after := after self; before := before self;
     timespan := timespan self; max_age := max_age self; min_age := min_age self;
     subsample_every := subsample_every self; subsample := subsample self;
     subsample_select := subsample_select self; after_hour := after_hour self;
     before_hour := before_hour self; after_minute := after_minute self;
     before_minute := before_minute self; min_level := min_level self;
     max_level := max_level self; computed_filters := computed_filters self;
     impossible := impossible self |}.
Definition set_after value (self : FilterConditions) : FilterConditions :=
  {| equalities := equalities self; operation_filters := operation_filters self;
     address := address self; root := root self; after := value; before := before self;
     timespan := timespan self; max_age := max_age self; min_age := min_age self;
     subsample_every := subsample_every self; subsample := subsample self;
     subsample_select := subsample_select self; after_hour := after_hour self;
     before_hour := before_hour self; after_minute := after_minute self;
     before_minute := before_minute self; min_level := min_level self;
     max_level := max_level self; computed_filters := computed_filters self;
     impossible := impossible self |}.
Definition set_before value (self : FilterConditions) : FilterConditions :=
  {| equalities := equalities self; operation_filters := operation_filters self;
     address := address self; root := root self; after := after self; before := value;
     timespan := timespan self; max_age := max_age self; min_age := min_age self;
     subsample_every := subsample_every self; subsample := subsample self;
     subsample_select := subsample_select self; after_hour := after_hour self;
     before_hour := before_hour self; after_minute := after_minute self;
     before_minute := before_minute self; min_level := min_level self;
     max_level := max_level self; computed_filters := computed_filters self;
     impossible := impossible self |}.
Definition set_timespan value (self : FilterConditions) : FilterConditions :=
  {| equalities := equalities self; operation_filters := operation_filters self;
     address := address self; root := root self; after := after self; before := before self;
     timespan := value; max_age := max_age self; min_age := min_age self;
     subsample_every := subsample_every self; subsample := subsample self;
     subsample_select := subsample_select self; after_hour := after_hour self;
     before_hour := before_hour self; after_minute := after_minute self;
     before_minute := before_minute self; min_level := min_level self;
     max_level := max_level self; computed_filters := computed_filters self;
     impossible := impossible self |}.
Definition set_max_age value (self : FilterConditions) : FilterConditions :=
  {| equalities := equalities self; operation_filters := operation_filters self;
     address := address self; root := root self; after := after self; before := before self;
     timespan := timespan self; max_age := value; min_age := min_age self;
     subsample_every := subsample_every self; subsample := subsample self;
     subsample_select := subsample_select self; after_hour := after_hour self;
     before_hour := before_hour self; after_minute := after_minute self;
     before_minute := before_minute self; min_level := min_level self;
     max_level := max_level self; computed_filters := computed_filters self;
     impossible := impossible self |}.
Definition set_min_age value (self : FilterConditions) : FilterConditions :=
  {| equalities := equalities self; operation_filters := operation_filters self;
     address := address self; root := root self; after := after self; before := before self;
     timespan := timespan self; max_age := max_age self; min_age := value;
     subsample_every := subsample_every self; subsample := subsample self;
     subsample_select := subsample_select self; after_hour := after_hour self;
     before_hour := before_hour self; after_minute := after_minute self;
     before_minute := before_minute self; min_level := min_level self;
     max_level := max_level self; computed_filters := computed_filters self;
     impossible := impossible self |}.
Definition set_subsample_every value (self : FilterConditions) : FilterConditions :=
  {| equalities := equalities self; operation_filters := operation_filters self;
     address := address self; root := root self; after := after self; before := before self;
     timespan := timespan self; max_age := max_age self; min_age := min_age self;
     subsample_every := value; subsample := subsample self;
     subsample_select := subsample_select self; after_hour := after_hour self;
     before_hour := before_hour self; after_minute := after_minute self;
     before_minute := before_minute self; min_level := min_level self;
     max_level := max_level self; computed_filters := computed_filters self;
     impossible := impossible self |}.
Definition set_subsample value (self : FilterConditions) : FilterConditions :=
  {| equalities := equalities self; operation_filters := operation_filters self;
     address := address self; root := root self; after := after self; before := before self;
     timespan := timespan self; max_age := max_age self; min_age := min_age self;
     subsample_every := subsample_every self; subsample := value;
     subsample_select := subsample_select self; after_hour := after_hour self;
     before_hour := before_hour self; after_minute := after_minute self;
     before_minute := before_minute self; min_level := min_level self;
     max_level := max_level self; computed_filters := computed_filters self;
     impossible := impossible self |}.
Definition set_subsample_select value (self : FilterConditions) : FilterConditions :=
  {| equalities := equalities self; operation_filters := operation_filters self;
     address := address self; root := root self; after := after self; before := before self;
     timespan := timespan self; max_age := max_age self; min_age := min_age self;
     subsample_every := subsample_every self; subsample := subsample self;
     subsample_select := value; after_hour := after_hour self; before_hour := before_hour self;
     after_minute := after_minute self; before_minute := before_minute self;
     min_level := min_level self; max_level := max_level self;
     computed_filters := computed_filters self; impossible := impossible self |}.
Definition set_after_hour value (self : FilterConditions) : FilterConditions :=
  {| equalities := equalities self; operation_filters := operation_filters self;
     address := address self; root := root self; after := after self; before := before self;
     timespan := timespan self; max_age := max_age self; min_age := min_age self;
     subsample_every := subsample_every self; subsample := subsample self;
     subsample_select := subsample_select self; after_hour := value;
     before_hour := before_hour self; after_minute := after_minute self;
     before_minute := before_minute self; min_level := min_level self;
     max_level := max_level self; computed_filters := computed_filters self;
     impossible := impossible self |}.
Definition set_before_hour value (self : FilterConditions) : FilterConditions :=
  {| equalities := equalities self; operation_filters := operation_filters self;
     address := address self; root := root self; after := after self; before := before self;
     timespan := timespan self; max_age := max_age self; min_age := min_age self;
     subsample_every := subsample_every self; subsample := subsample self;
     subsample_select := subsample_select self; after_hour := after_hour self;
     before_hour := value; after_minute := after_minute self;
     before_minute := before_minute self; min_level := min_level self;
     max_level := max_level self; computed_filters := computed_filters self;
     impossible := impossible self |}.
Definition set_after_minute value (self : FilterConditions) : FilterConditions :=
  {| equalities := equalities self; operation_filters := operation_filters self;
     address := address self; root := root self; after := after self; before := before self;
     timespan := timespan self; max_age := max_age self; min_age := min_age self;
     subsample_every := subsample_every self; subsample := subsample self;
     subsample_select := subsample_select self; after_hour := after_hour self;
     before_hour := before_hour self; after_minute := value; before_minute := before_minute self;
     min_level := min_level self; max_level := max_level self;
     computed_filters := computed_filters self; impossible := impossible self |}.
Definition set_before_minute value (self : FilterConditions) : FilterConditions :=
  {| equalities := equalities self; operation_filters := operation_filters self;
     address := address self; root := root self; after := after self; before := before self;
     timespan := timespan self; max_age := max_age self; min_age := min_age self;
     subsample_every := subsample_every self; subsample := subsample self;
     subsample_select := subsample_select self; after_hour := after_hour self;
     before_hour := before_hour self; after_minute := after_minute self; before_minute := value;
     min_level := min_level self; max_level := max_level self;
     computed_filters := computed_filters self; impossible := impossible self |}.
Definition set_min_level value (self : FilterConditions) : FilterConditions :=
  {| equalities := equalities self; operation_filters := operation_filters self;
     address := address self; root := root self; after := after self; before := before self;
     timespan := timespan self; max_age := max_age self; min_age := min_age self;
     subsample_every := subsample_every self; subsample := subsample self;
     subsample_select := subsample_select self; after_hour := after_hour self;
     before_hour := before_hour self; after_minute := after_minute self;
     before_minute := before_minute self; min_level := value; max_level := max_level self;
     computed_filters := computed_filters self; impossible := impossible self |}.
Definition set_max_level value (self : FilterConditions) : FilterConditions :=
  {| equalities := equalities self; operation_filters := operation_filters self;
     address := address self; root := root self; after := after self; before := before self;
     timespan := timespan self; max_age := max_age self; min_age := min_age self;
     subsample_every := subsample_every self; subsample := subsample self;
     subsample_select := subsample_select self; after_hour := after_hour self;
     before_hour := before_hour self; after_minute := after_minute self;
     before_minute := before_minute self; min_level := min_level self; max_level := value;
     computed_filters := computed_filters self; impossible := impossible self |}.
Definition set_computed_filters value (self : FilterConditions) : FilterConditions :=
  {| equalities := equalities self; operation_filters := operation_filters self;
     address := address self; root := root self; after := after self; before := before self;
     timespan := timespan self; max_age := max_age self; min_age := min_age self;
     subsample_every := subsample_every self; subsample := subsample self;
     subsample_select := subsample_select self; after_hour := after_hour self;
     before_hour := before_hour self; after_minute := after_minute self;
     before_minute := before_minute self; min_level := min_level self;
     max_level := max_level self; computed_filters := value; impossible := impossible self |}.
Definition set_impossible value (self : FilterConditions) : FilterConditions :=
  {| equalities := equalities self; operation_filters := operation_filters self;
     address := address self; root := root self; after := after self; before := before self;
     timespan := timespan self; max_age := max_age self; min_age := min_age self;
     subsample_every := subsample_every self; subsample := subsample self;
     subsample_select := subsample_select self; after_hour := after_hour self;
     before_hour := before_hour self; after_minute := after_minute self;
     before_minute := before_minute self; min_level := min_level self;
     max_level := max_level self; computed_filters := computed_filters self;
     impossible := value |}.

Record OrderTerm := { order_field : FilterField; ascending : bool }.

(** [Parsed]: a node mid-parse, its subfilters finished already. *)
Inductive Parsed :=
  | MkParsed (own : FilterConditions) (and_children or_children : list FilterNode)
      (order : list OrderTerm) (limit offset : option Z) (and_group or_group : list Parsed).

Definition parsed_default : Parsed :=
  MkParsed conditions_default [] [] [] None None [] [].

Definition parsed_own (self : Parsed) : FilterConditions :=
  let '(MkParsed own _ _ _ _ _ _ _) := self in own.
Definition parsed_order (self : Parsed) : list OrderTerm :=
  let '(MkParsed _ _ _ order _ _ _ _) := self in order.
Definition parsed_limit (self : Parsed) : option Z :=
  let '(MkParsed _ _ _ _ limit _ _ _) := self in limit.
Definition parsed_offset (self : Parsed) : option Z :=
  let '(MkParsed _ _ _ _ _ offset _ _) := self in offset.
Definition parsed_node (self : Parsed) : FilterNode :=
  let '(MkParsed own ands ors _ _ _ _ _) := self in Node own ands ors.

(** ** What the crates give *)

(** [yaml_serde], [serde_json], [uuid], [speedate] and [chrono]:
    [json_from_yaml] parses text and writes it as JSON, [json_to_string] writes
    a value as JSON, [speedate_datetime] gives whole seconds of UTC and the
    microseconds past them, [speedate_duration] its sign, days, seconds and
    microseconds, [from_timestamp_micros] and [midnight] the nanoseconds of an
    instant [chrono] can hold. *)
Class Crates := {
  crates_email : EmailCrates;
  debug : string -> string;
  yaml_from_str : string -> option Yaml;
  yaml_as_str : Yaml -> option string;
  json_from_yaml : string -> option string;
  json_to_string : Yaml -> option string;
  uuid_parse : string -> option string;
  speedate_datetime : string -> option (Z * Z);
  speedate_date : string -> option (Z * Z * Z);
  speedate_duration : string -> option (bool * Z * Z * Z);
  from_timestamp_micros : Z -> option Z;
  midnight : Z -> Z -> Z -> option Z
}.
#[export] Existing Instance crates_email.

Section parse.
Context `{Crates}.

(** [WireValue::scalar], [whole] and [scalars]. *)
Definition json_text (value : string) : result string Stop :=
  ok_or (json_from_yaml value) ("invalid value " +:+ debug value).

Definition invalid_value (key : string) : string := "invalid " +:+ key +:+ " value".

Definition wire_scalar (value : WireValue) (key : string) : result string Stop :=
  match value with
  | WireText text => Ok text
  | WireYaml value => ok_or (yaml_scalar value) (invalid_value key)
  end.

Definition wire_whole (value : WireValue) (key : string) : result string Stop :=
  match value with
  | WireText text => json_text text
  | WireYaml value => ok_or (json_to_string value) (invalid_value key)
  end.

Definition wire_scalars (value : WireValue) (key : string) : result (list string) Stop :=
  match value with
  | WireText text => Ok [text]
  | WireYaml (YSequence elements) =>
      res_map (fun element => ok_or (yaml_scalar element) (invalid_value key)) elements
  | WireYaml value => let* text := ok_or (yaml_scalar value) (invalid_value key) in Ok [text]
  end.

(** [parse_yaml]. *)
Definition parse_yaml (text : string) : result Yaml Stop :=
  if is_blank text then Ok YNull
  else ok_or (yaml_from_str text) ("invalid YAML " +:+ debug text).

(** [set_once]. *)
Definition set_once {T} (slot : option T) (key : string) (value : T) : result (option T) Stop :=
  match slot with
  | Some _ => refused (key +:+ " takes a single value")
  | None => Ok (Some value)
  end.

(** [parse_timestamp]. *)
Definition parse_timestamp (text : string) : result Z Stop :=
  let datetime :=
    match speedate_datetime text with
    | None => None
    | Some (seconds, microsecond) =>
        from_timestamp_micros (i64 (i64 (seconds * 1000000) + microsecond))
    end in
  let date :=
    match speedate_date text with
    | None => None
    | Some (year, month, day) => midnight year month day
    end in
  match datetime, date with
  | Some parsed, _ => Ok parsed
  | None, Some parsed => Ok parsed
  | None, None => refused ("invalid timestamp " +:+ debug text)
  end.

(** A duration's suffix taken off, with the microseconds of its unit; a bare
    number is seconds. *)
Definition suffix_scale (text : string) : string * Z :=
  match strip_suffix "us" text, strip_suffix "ms" text, strip_suffix "s" text,
        strip_suffix "m" text, strip_suffix "h" text, strip_suffix "d" text with
  | Some number, _, _, _, _, _ => (number, 1)
  | None, Some number, _, _, _, _ => (number, 1000)
  | None, None, Some number, _, _, _ => (number, 1000000)
  | None, None, None, Some number, _, _ => (number, 60 * 1000000)
  | None, None, None, None, Some number, _ => (number, 3600 * 1000000)
  | None, None, None, None, None, Some number => (number, 86400 * 1000000)
  | None, None, None, None, None, None => (text, 1000000)
  end.

(** [parse_duration]. Lowering keeps what is not ASCII, which no number or
    suffix holds. *)
Definition parse_duration (text : string) : result Z Stop :=
  let invalid := "invalid duration " +:+ debug text in
  match speedate_duration text with
  | Some (positive, day, second, microsecond) =>
      if negb positive then refused invalid
      else Ok (day * 86400000000000 + second * 1000000000 + microsecond * 1000)
  | None =>
      let '(number, scale) := suffix_scale (to_lowercase (replace_char " " "" (trim text))) in
      if bool_decide (number = "") then refused invalid
      else let* micros := ok_or (scaled_micros number scale) invalid in Ok (micros * 1000)
  end.

(** A boolean's text. *)
Definition boolean_text (text : string) : option bool :=
  if decide (text = "true") then Some true
  else if decide (text = "True") then Some true
  else if decide (text = "false") then Some false
  else if decide (text = "False") then Some false
  else None.

(** Values joined to those a field or an operation holds already. *)
Definition join_values (held more : HeldValues) : option HeldValues :=
  match held, more with
  | Uuids a, Uuids b => Some (Uuids (a ++ b))
  | Texts a, Texts b => Some (Texts (a ++ b))
  | Stamps a, Stamps b => Some (Stamps (a ++ b))
  | ByteValues a, ByteValues b => Some (ByteValues (a ++ b))
  | _, _ => None
  end.

(** The values of one field's equality, from one scalar. *)
Definition equality_values (field : FilterField) (value : string) : result HeldValues Stop :=
  match family field with
  | Uuid =>
      let* id := ok_or (uuid_parse value) ("invalid UUID " +:+ debug value) in Ok (Uuids [id])
  | Timestamp => let* stamp := parse_timestamp value in Ok (Stamps [stamp])
  | Text => Ok (Texts [value])
  | Email =>
      match normalize_email value with
      | Some normalized => Ok (Texts [normalized])
      | None => Err (Refused Delegated)
      end
  | Values admissible =>
      if bool_decide (value ∈ admissible) then Ok (Texts [value])
      else refused ("invalid " +:+ key field +:+ " " +:+ debug value)
  | Level =>
      let* _ := ok_or (level_position value) ("invalid level " +:+ debug value) in
      Ok (Texts [value])
  | Bytes => Ok (ByteValues [latin1_encode value])
  | Json | Address => Err (Refused Delegated)
  | Boolean =>
      let* held := ok_or (boolean_text value) ("invalid boolean " +:+ debug value) in
      Ok (BooleanValue held)
  | JsonValue => let* text := json_text value in Ok (Texts [text])
  | PlainAddress =>
      match address_parse debug value with
      | Ok _ => Ok (Texts [value])
      | Err message => refused message
      end
  end.

(** The equalities with one more value of a field. *)
Fixpoint add_equality (field : string) (more : HeldValues) (held : list (string * HeldValues)) :
    result (list (string * HeldValues)) Stop :=
  match held with
  | [] => Ok [(field, more)]
  | (name, existing) :: held =>
      if decide (name = field) then
        match join_values existing more with
        | Some joined => Ok ((name, joined) :: held)
        | None =>
            match existing with
            | BooleanValue _ => refused (field +:+ " takes one value")
            | _ => Err (Refused Delegated)
            end
        end
      else let* held := add_equality field more held in Ok ((name, existing) :: held)
  end.

(** [FilterNode::push_equality]; an address goes to the selector. *)
Definition push_equality (self : FilterConditions) (field : FilterField) (value : string) :
    result FilterConditions Stop :=
  if decide (family field = Address) then
    match push debug value (default selector_default (address self)) with
    | Ok selector => Ok (set_address (Some selector) self)
    | Err message => refused message
    end
  else
    let* more := equality_values field value in
    let* equalities := add_equality (key field) more (equalities self) in
    Ok (set_equalities equalities self).

(** Patterns joined to those an operation holds already. *)
Definition join_patterns (held more : HeldValues) : option HeldValues :=
  match held, more with
  | Texts a, Texts b => Some (Texts (a ++ b))
  | ByteValues a, ByteValues b => Some (ByteValues (a ++ b))
  | _, _ => None
  end.

(** The operation filters with one more pattern; values of two kinds panic. *)
Fixpoint add_operation (field : FilterField) (kind : OperationKind) (more : HeldValues)
    (held : list OperationFilter) : result (list OperationFilter) Stop :=
  match held with
  | [] => Ok [{| of_field := field; of_kind := kind; of_values := more |}]
  | operation :: held =>
      if decide (key (of_field operation) = key field /\ of_kind operation = kind) then
        match join_patterns (of_values operation) more with
        | Some joined =>
            Ok ({| of_field := of_field operation; of_kind := of_kind operation;
                   of_values := joined |} :: held)
        | None => Err Panicked
        end
      else let* held := add_operation field kind more held in Ok (operation :: held)
  end.

Definition operation_values (field : FilterField) (value : string) : HeldValues :=
  match family field with Bytes => ByteValues [latin1_encode value] | _ => Texts [value] end.

(** [FilterNode::push_operation]. *)
Definition push_operation (self : FilterConditions) (field : FilterField) (kind : OperationKind)
    (value : string) : result FilterConditions Stop :=
  let* operations := add_operation field kind (operation_values field value)
                       (operation_filters self) in
  Ok (set_operation_filters operations self).

(** ** One wire key *)

Definition with_own (self : Parsed) (own : FilterConditions) : Parsed :=
  let '(MkParsed _ ands ors order limit offset and_group or_group) := self in
  MkParsed own ands ors order limit offset and_group or_group.

Definition apply_equality (own : FilterConditions) (field : FilterField) (key : string)
    (value : WireValue) : result FilterConditions Stop :=
  if decide (family field = JsonValue) then
    let* whole := wire_whole value key in push_equality own field whole
  else
    let* scalars := wire_scalars value key in
    if scalar (family field) && negb (bool_decide (length scalars = 1%nat))
    then refused (key +:+ " takes one value")
    else
      let own := if bool_decide (scalars = []) then set_impossible true own else own in
      res_fold (fun own scalar => push_equality own field scalar) own scalars.

Definition apply_operation (own : FilterConditions) (field : FilterField) (kind : OperationKind)
    (key : string) (value : WireValue) : result FilterConditions Stop :=
  let* scalars := wire_scalars value key in
  let own := if bool_decide (scalars = []) then set_impossible true own else own in
  res_fold (fun own scalar => push_operation own field kind scalar) own scalars.

Definition apply_window (own : FilterConditions) (operator : WindowOp) (key value : string) :
    result FilterConditions Stop :=
  match operator with
  | After =>
      let* stamp := parse_timestamp value in
      let* slot := set_once (after own) key stamp in Ok (set_after slot own)
  | Before =>
      let* stamp := parse_timestamp value in
      let* slot := set_once (before own) key stamp in Ok (set_before slot own)
  | Timespan =>
      let* span := parse_duration value in
      if span <? 1000 then refused "timespan must be greater than zero"
      else let* slot := set_once (timespan own) key span in Ok (set_timespan slot own)
  | MaxAge =>
      let* age := parse_duration value in
      let* slot := set_once (max_age own) key age in Ok (set_max_age slot own)
  | MinAge =>
      let* age := parse_duration value in
      let* slot := set_once (min_age own) key age in Ok (set_min_age slot own)
  end.

Definition apply_subsample (own : FilterConditions) (operator : SubsampleOp) (key value : string) :
    result FilterConditions Stop :=
  match operator with
  | Every =>
      let* every := parse_duration value in
      if every <? 1000 then refused "subsample_every must be greater than zero"
      else let* slot := set_once (subsample_every own) key every in
           Ok (set_subsample_every slot own)
  | Count =>
      let counted := match parse_unsigned u64_max value with
                     | Some count => if 1 <=? count then Some count else None
                     | None => None
                     end in
      let* count := ok_or counted ("invalid subsample " +:+ debug value) in
      let* slot := set_once (subsample own) key count in Ok (set_subsample slot own)
  | SelectOp =>
      let selected := if decide (value = "first") then Some First
                      else if decide (value = "last") then Some Last else None in
      let* select := ok_or selected ("invalid subsample_select " +:+ debug value) in
      let* slot := set_once (subsample_select own) key select in
      Ok (set_subsample_select slot own)
  end.

Definition clock_cap (operator : ClockOp) : Z :=
  match operator with AfterHour | BeforeHour => 24 | AfterMinute | BeforeMinute => 60 end.

Definition apply_clock (own : FilterConditions) (operator : ClockOp) (key value : string) :
    result FilterConditions Stop :=
  let parsed := match parse_unsigned u32_max value with
                | Some bound => if bound <=? clock_cap operator then Some bound else None
                | None => None
                end in
  let* bound := ok_or parsed ("invalid " +:+ key +:+ " " +:+ debug value) in
  match operator with
  | AfterHour =>
      let* slot := set_once (after_hour own) key bound in Ok (set_after_hour slot own)
  | BeforeHour =>
      let* slot := set_once (before_hour own) key bound in Ok (set_before_hour slot own)
  | AfterMinute =>
      let* slot := set_once (after_minute own) key bound in Ok (set_after_minute slot own)
  | BeforeMinute =>
      let* slot := set_once (before_minute own) key bound in Ok (set_before_minute slot own)
  end.

Definition apply_bound (own : FilterConditions) (operator : BoundOp) (key value : string) :
    result FilterConditions Stop :=
  let* position := ok_or (level_position value) ("invalid level " +:+ debug value) in
  match operator with
  | Minimum =>
      let* slot := set_once (min_level own) key position in Ok (set_min_level slot own)
  | Maximum =>
      let* slot := set_once (max_level own) key position in Ok (set_max_level slot own)
  end.

Definition apply_computed (own : FilterConditions) (predicate : Computed) (key : string)
    (value : WireValue) : result FilterConditions Stop :=
  let* scalar := wire_scalar value key in
  let* sense := ok_or (boolean_text scalar) ("invalid boolean " +:+ debug scalar) in
  Ok (set_computed_filters (computed_filters own ++ [(predicate, sense)]) own).

Definition apply_root (own : FilterConditions) (key : string) (value : WireValue) :
    result FilterConditions Stop :=
  let* value := wire_scalar value key in
  if negb (valid_address value) then refused ("invalid root " +:+ debug value)
  else let* slot := set_once (root own) key value in Ok (set_root slot own).

(** [Parsed::apply]; [children] parses the subfilters of a group. *)
Definition apply (children : WireValue -> result (list Parsed) Stop) (table : Schema)
    (self : Parsed) (key : string) (value : WireValue) : result Parsed Stop :=
  let '(MkParsed own ands ors order limit offset and_group or_group) := self in
  let on_own (r : result FilterConditions Stop) := let* own := r in Ok (with_own self own) in
  let on_scalar (k : string -> result FilterConditions Stop) :=
    let* value := wire_scalar value key in on_own (k value) in
  let* role := lift (resolve debug table key) in
  match role with
  | RoleEquality field => on_own (apply_equality own field key value)
  | RoleComputed predicate => on_own (apply_computed own predicate key value)
  | RoleOperation field kind => on_own (apply_operation own field kind key value)
  | RoleRoot => on_own (apply_root own key value)
  | RoleGroup operator =>
      let* group := children value in
      match operator with
      | GroupAnd => Ok (MkParsed own ands ors order limit offset (and_group ++ group) or_group)
      | GroupOr => Ok (MkParsed own ands ors order limit offset and_group (or_group ++ group))
      end
  | RoleWindow operator => on_scalar (apply_window own operator key)
  | RoleSubsample operator => on_scalar (apply_subsample own operator key)
  | RoleClock operator => on_scalar (apply_clock own operator key)
  | RoleBound operator => on_scalar (apply_bound own operator key)
  | RoleOrder =>
      let* scalars := wire_scalars value key in
      let* more := res_map (fun scalar =>
        let* term := lift (parse_order debug table scalar) in
        Ok {| order_field := fst term; ascending := snd term |}) scalars in
      Ok (MkParsed own ands ors (order ++ more) limit offset and_group or_group)
  | RoleLimit =>
      let* value := wire_scalar value key in
      let* held := ok_or (parse_unsigned u64_max value) ("invalid limit " +:+ debug value) in
      let* slot := set_once limit key held in
      Ok (MkParsed own ands ors order slot offset and_group or_group)
  | RoleOffset =>
      let* value := wire_scalar value key in
      let* held := ok_or (parse_unsigned u64_max value) ("invalid offset " +:+ debug value) in
      let* slot := set_once offset key held in
      Ok (MkParsed own ands ors order limit slot and_group or_group)
  end.

(** The range test of a count-based subsample, in [Parsed::finish]. *)
Definition subsample_refusal (own : FilterConditions) : option string :=
  if bool_decide (is_Some (subsample own)) then
    let has_start := bool_decide (is_Some (after own)) || bool_decide (is_Some (timespan own)) ||
                     bool_decide (is_Some (max_age own)) in
    let has_end := bool_decide (is_Some (before own)) || bool_decide (is_Some (timespan own)) ||
                   bool_decide (is_Some (min_age own)) in
    if negb has_start || negb has_end then
      Some ((match has_start, has_end with
             | false, false => "Start and end time"
             | false, true => "Start time"
             | _, _ => "End time"
             end) +:+ " for `subsample` time range could not be determined.")
    else None
  else None.

(** The control an [or] subfilter must not carry. *)
Definition or_control (child : Parsed) : option string :=
  if negb (bool_decide (parsed_order child = [])) then Some "order"
  else if bool_decide (is_Some (parsed_limit child)) then Some "limit"
  else if bool_decide (is_Some (parsed_offset child)) then Some "offset"
  else None.

(** One [and] subfilter's controls hoisted, and its node kept. *)
Definition hoist (self child : Parsed) : Parsed :=
  let '(MkParsed own ands ors order limit offset and_group or_group) := self in
  MkParsed own (ands ++ [parsed_node child]) ors
    (if bool_decide (parsed_order child = []) then order else parsed_order child)
    (match parsed_limit child with
     | Some more => Some (match limit with Some held => Z.min held more | None => more end)
     | None => limit
     end)
    (match parsed_offset child with
     | Some more => Some (match offset with Some held => Z.max held more | None => more end)
     | None => offset
     end)
    and_group or_group.

(** [Parsed::finish]. *)
Definition finish (self : Parsed) : result Parsed Stop :=
  let '(MkParsed own ands ors order limit offset and_group or_group) := self in
  match subsample_refusal own, find_map or_control or_group with
  | Some message, _ => refused message
  | None, Some name =>
      refused ("Cannot specify `" +:+ name +:+ "` in `or__` subfilters. Use `and__` instead.")
  | None, None =>
      let '(MkParsed own ands ors order limit offset _ _) :=
        foldl hoist (MkParsed own ands ors order limit offset [] []) and_group in
      Ok (MkParsed own ands (ors ++ (parsed_node <$> or_group)) order limit offset [] [])
  end.

(** [Schema::group_children]; [mapping] parses one subfilter's mapping. *)
Definition one_child (mapping : list (Yaml * Yaml) -> result Parsed Stop) (element : Yaml) :
    result Parsed Stop :=
  let* element := match element with YString text => parse_yaml text | _ => Ok element end in
  match element with
  | YMapping entries => mapping entries
  | _ => refused "a subfilter must be a mapping"
  end.

Definition group_children (mapping : list (Yaml * Yaml) -> result Parsed Stop)
    (value : WireValue) : result (list Parsed) Stop :=
  let* value := match value with WireText text => parse_yaml text | WireYaml value => Ok value end in
  match value with
  | YNull => Ok []
  | YSequence elements => res_map (one_child mapping) elements
  | other => let* child := one_child mapping other in Ok [child]
  end.

(** [Parsed::from_yaml], with fuel for the nesting of the subfilters. *)
Definition yaml_entry (mapping : list (Yaml * Yaml) -> result Parsed Stop) (table : Schema)
    (parsed : Parsed) (entry : Yaml * Yaml) : result Parsed Stop :=
  match yaml_as_str (fst entry) with
  | None => refused "subfilter keys must be strings"
  | Some key =>
      if (match snd entry with YNull => true | _ => false end) && negb (nullable table key)
      then Ok parsed
      else apply (group_children mapping) table parsed key (WireYaml (snd entry))
  end.

Fixpoint from_yaml (fuel : nat) (table : Schema) (entries : list (Yaml * Yaml)) :
    result Parsed Stop :=
  match fuel with
  | O => Err OutOfFuel
  | S fuel =>
      let* parsed := res_fold (yaml_entry (from_yaml fuel table) table) parsed_default entries in
      finish parsed
  end.

(** [FilterCore], its [parse], [from_json] and [with_limit_cap]. *)
Record FilterCore := {
  schema : Schema;
  node : FilterNode;
  core_order : list OrderTerm;
  core_limit : option Z;
  core_offset : option Z
}.

Definition core_of (table : Schema) (parsed : Parsed) : FilterCore :=
  {| schema := table; node := parsed_node parsed; core_order := parsed_order parsed;
     core_limit := parsed_limit parsed; core_offset := parsed_offset parsed |}.

Definition parse (fuel : nat) (table : Schema) (pairs : list (string * string)) :
    result FilterCore Stop :=
  let* parsed := res_fold (fun parsed pair =>
    apply (group_children (from_yaml fuel table)) table parsed (fst pair) (WireText (snd pair)))
    parsed_default pairs in
  let* parsed := finish parsed in
  Ok (core_of table parsed).

Definition from_json (fuel : nat) (table : Schema) (text : string) : result FilterCore Stop :=
  let* value := parse_yaml text in
  match value with
  | YMapping entries =>
      let* parsed := from_yaml fuel table entries in Ok (core_of table parsed)
  | _ => refused "a filter must be a mapping"
  end.

Definition with_limit_cap (self : FilterCore) (cap : Z) : result FilterCore Stop :=
  let capped limit := {| schema := schema self; node := node self; core_order := core_order self;
                         core_limit := Some limit; core_offset := core_offset self |} in
  match core_limit self with
  | None => Ok (capped cap)
  | Some limit =>
      if cap <? limit then refused ("limit must be less than or equal to " +:+ pretty cap)
      else Ok self
  end.
End parse.
