(* ===== verification/FilterFacts.v ===== *)
(** * What a parsed filter is

    Every filter [ceres-database/src/filter.rs] parses is well-formed for its
    table, the compiler and the matcher relying on it, and no parse panics. *)
From S2P Require Import Prelude.
From stdpp Require Import pretty.
From S2P Require Import Text Wire Credentials Sql Selector Schema FilterParse.
Local Open Scope string_scope.
Local Open Scope list_scope.
Local Open Scope Z_scope.
Local Open Scope ceres_scope.

(** ** Results *)

(** Whether running out of fuel is allowed of the steps considered. *)
Class Starved := starved : Prop.

(** A step that does not panic and whose result, if any, is as stated. *)
Definition yields `{Starved} {A} (P : A -> Prop) (r : result A Stop) : Prop :=
  match r with
  | Ok a => P a
  | Err (Refused _) => True
  | Err Panicked => False
  | Err OutOfFuel => starved
  end.

Section yields.
Context `{Starved}.

Lemma yields_ok {A} (P : A -> Prop) a : P a -> yields P (Ok a).
Proof. done. Qed.

Lemma yields_refused {A} (P : A -> Prop) message : yields P (refused message).
Proof. done. Qed.

Lemma yields_bind {A B} (P : A -> Prop) (Q : B -> Prop) r k :
  yields P r -> (forall a, P a -> yields Q (k a)) -> yields Q (res_bind r k).
Proof. destruct r as [a|[]]; cbn; auto. Qed.

Lemma yields_mono {A} (P Q : A -> Prop) r : yields P r -> (forall a, P a -> Q a) -> yields Q r.
Proof. destruct r as [a|[]]; cbn; auto. Qed.

Lemma yields_ok_or {A} (P : A -> Prop) o message :
  (forall a, o = Some a -> P a) -> yields P (ok_or o message).
Proof. destruct o; cbn; auto. Qed.

Lemma yields_fold {A S} (P : S -> Prop) f (l : list A) s :
  P s -> (forall s a, a ∈ l -> P s -> yields P (f s a)) -> yields P (res_fold f s l).
Proof.
  revert s. induction l as [|a l IH]; intros s Hs Hf; cbn [res_fold]; [done|].
  assert (yields P (f s a)) as Hfa by (apply Hf; [left|done]).
  destruct (f s a) as [s'|[]]; cbn in Hfa |- *; try done.
  apply IH; [done|]. intros. apply Hf; [by right|done].
Qed.

Lemma yields_map {A B} (P : B -> Prop) f (l : list A) :
  (forall a, a ∈ l -> yields P (f a)) -> yields (Forall P) (res_map f l).
Proof.
  induction l as [|a l IH]; intros Hf; cbn [res_map]; [by constructor|].
  assert (yields P (f a)) as Hfa by (apply Hf; left).
  assert (yields (Forall P) (res_map f l)) as Hfl by (apply IH; intros; apply Hf; by right).
  destruct (f a) as [b|[]]; cbn in Hfa |- *; try done.
  destruct (res_map f l) as [bs|[]]; cbn in Hfl |- *; try done. by constructor.
Qed.

End yields.

Create HintDb yields.
#[export] Hint Resolve yields_ok yields_refused yields_ok_or : yields.

(** ** Well-formed filters *)

Definition opt_ok {A} (P : A -> Prop) (slot : option A) : Prop :=
  match slot with Some a => P a | None => True end.

Definition texts_ok (P : string -> Prop) (values : HeldValues) : Prop :=
  match values with Texts texts => texts <> [] /\ Forall P texts | _ => False end.

Definition byte_ok (byte : Z) : Prop := 0 <= byte < 256.

Definition bytes_ok (values : HeldValues) : Prop :=
  match values with
  | ByteValues patterns => patterns <> [] /\ Forall (Forall byte_ok) patterns
  | _ => False
  end.

(** What a field's equality may hold. *)
Definition values_ok (field : FilterField) (values : HeldValues) : Prop :=
  match family field with
  | Uuid => match values with Uuids ids => ids <> [] | _ => False end
  | Timestamp => match values with Stamps stamps => stamps <> [] | _ => False end
  | Text | Email | JsonValue => texts_ok (fun _ => True) values
  | Values admissible => texts_ok (fun text => text ∈ admissible) values
  | Level => texts_ok (fun text => text ∈ LEVEL_VALUES) values
  | Bytes => bytes_ok values
  | Boolean => match values with BooleanValue _ => True | _ => False end
  | PlainAddress => texts_ok (fun text => is_valid text = true) values
  | Address | Json => False
  end.

Definition equality_ok (table : Schema) (entry : string * HeldValues) : Prop :=
  exists field, field ∈ fields table /\ key field = fst entry /\ values_ok field (snd entry).

(** What an operation may search for. *)
Definition patterns_ok (field : FilterField) (values : HeldValues) : Prop :=
  match family field with Bytes => bytes_ok values | _ => texts_ok (fun _ => True) values end.

Definition operation_ok (table : Schema) (operation : OperationFilter) : Prop :=
  of_field operation ∈ fields table /\
  of_kind operation ∈ kind <$> operations (of_field operation) /\
  patterns_ok (of_field operation) (of_values operation).

Definition operation_id (operation : OperationFilter) : string * OperationKind :=
  (key (of_field operation), of_kind operation).

Record conditions_ok (table : Schema) (own : FilterConditions) : Prop := {
  ok_equalities : Forall (equality_ok table) (equalities own);
  ok_equality_keys : NoDup (fst <$> equalities own);
  ok_operations : Forall (operation_ok table) (operation_filters own);
  ok_operation_ids : NoDup (operation_id <$> operation_filters own);
  ok_address : opt_ok selector_ok (address own);
  ok_root : root_ok (root own);
  ok_timespan : opt_ok (fun span => 1000 <= span) (timespan own);
  ok_max_age : opt_ok (fun age => 0 <= age) (max_age own);
  ok_min_age : opt_ok (fun age => 0 <= age) (min_age own);
  ok_every : opt_ok (fun every => 1000 <= every) (subsample_every own);
  ok_subsample : opt_ok (fun count => 1 <= count <= u64_max) (subsample own);
  ok_after_hour : opt_ok (fun hour => 0 <= hour <= 24) (after_hour own);
  ok_before_hour : opt_ok (fun hour => 0 <= hour <= 24) (before_hour own);
  ok_after_minute : opt_ok (fun minute => 0 <= minute <= 60) (after_minute own);
  ok_before_minute : opt_ok (fun minute => 0 <= minute <= 60) (before_minute own);
  ok_min_level : opt_ok (fun level => (level < 5)%nat) (min_level own);
  ok_max_level : opt_ok (fun level => (level < 5)%nat) (max_level own);
  ok_computed : Forall (fun entry => fst entry ∈ computed table) (computed_filters own)
}.

Inductive node_ok (table : Schema) : FilterNode -> Prop :=
  | node_ok_intro own ands ors :
      conditions_ok table own -> subsample_refusal own = None ->
      Forall (node_ok table) ands -> Forall (node_ok table) ors ->
      node_ok table (Node own ands ors).

Definition order_ok (table : Schema) (term : OrderTerm) : Prop :=
  order_field term ∈ fields table /\ native (family (order_field term)) = true.

Definition limit_ok (limit : option Z) : Prop := opt_ok in_u64 limit.

Lemma conditions_default_ok table : conditions_ok table conditions_default.
Proof. by split; cbn; constructor. Qed.

(** ** Scalars *)

Lemma digits_value_le text value n :
  0 <= value -> digits_value text value = Some n -> 0 <= n.
Proof. intros ? H%digits_value_ge; lia. Qed.

Lemma parse_unsigned_range max text n :
  parse_unsigned max text = Some n -> 0 <= n <= max.
Proof.
  unfold parse_unsigned. intros Hp.
  set (digits := match text with String "+" rest => rest | _ => text end) in Hp.
  destruct digits as [|c rest]; [done|].
  destruct (digits_value (String c rest) 0) as [v|] eqn:Hd; [|done].
  destruct (v <=? max) eqn:Hle; simplify_eq. to_prop. apply digits_value_le in Hd; lia.
Qed.

(** ** The steps of a parse

    [speedate] counts a duration in unsigned days, seconds and microseconds. *)
Section parsed.
Context `{Starved} `{Crates}.
Hypothesis speedate_unsigned : forall text positive day second microsecond,
  speedate_duration text = Some (positive, day, second, microsecond) ->
  0 <= day /\ 0 <= second /\ 0 <= microsecond.
Context (table : Schema) (keys_once : NoDup (key <$> fields table)).

Lemma parse_duration_ok text : yields (fun span => 0 <= span) (parse_duration text).
Proof.
  unfold parse_duration. destruct (speedate_duration text) as [[[[p d] s] m]|] eqn:Hs.
  - apply speedate_unsigned in Hs. destruct p; cbn; [lia|done].
  - destruct (suffix_scale _) as [number scale] eqn:Hscale. case_bool_decide; [done|].
    assert (0 < scale) as Hpos by (unfold suffix_scale in Hscale; split_cases).
    eapply (yields_bind (fun micros => 0 <= micros)).
    + apply yields_ok_or. intros m Hm. eapply scaled_micros_range in Hm; lia.
    + cbn. lia.
Qed.

Lemma parse_timestamp_ok text : yields (fun _ => True) (parse_timestamp text).
Proof. unfold parse_timestamp. by repeat case_match. Qed.

Lemma wire_scalar_ok value k : yields (fun _ => True) (wire_scalar value k).
Proof. destruct value; cbn; auto with yields. Qed.

Lemma wire_whole_ok value k : yields (fun _ => True) (wire_whole value k).
Proof. destruct value; cbn; unfold json_text; auto with yields. Qed.

Lemma wire_scalars_ok value k : yields (fun _ => True) (wire_scalars value k).
Proof.
  destruct value as [|value]; [done|].
  assert (yields (fun _ => True)
    (let* text := ok_or (yaml_scalar value) (invalid_value k) in Ok [text])) as Hone
    by (eapply (yields_bind (fun _ => True)); auto with yields).
  destruct value; try exact Hone. cbn [wire_scalars].
  eapply yields_mono; [apply (yields_map (fun _ => True))|done]. auto with yields.
Qed.

Lemma set_once_ok {T} (P : T -> Prop) slot k value :
  P value -> yields (opt_ok P) (set_once slot k value).
Proof. by destruct slot. Qed.

Lemma position_lookup value l n : position value l = Some n -> (n < length l)%nat /\ value ∈ l.
Proof.
  revert n. induction l as [|x l IH]; intros n; cbn [position]; [done|]. case_decide.
  - intros [= <-]. subst. split; [cbn; lia|left].
  - destruct (position value l) as [m|]; [|done]. intros [= <-].
    destruct (IH m eq_refl). split; [cbn; lia|by right].
Qed.

Lemma level_position_ok value n :
  level_position value = Some n -> (n < 5)%nat /\ value ∈ LEVEL_VALUES.
Proof. apply (position_lookup value LEVEL_VALUES). Qed.

Lemma equality_values_ok field value :
  family field <> Address ->
  yields (values_ok field) (equality_values field value).
Proof.
  intros Haddr. unfold equality_values, values_ok, json_text.
  assert (forall (P : string -> Prop) text, P text -> texts_ok P (Texts [text])) as Hone
    by (intros; split; [done|by constructor]).
  destruct (family field) as [| | | | |admissible| | | | | |] eqn:Hf; try done.
  - eapply (yields_bind (fun _ => True)); [auto with yields|done].
  - eapply (yields_bind (fun _ => True)); [apply parse_timestamp_ok|done].
  - apply yields_ok, Hone. done.
  - destruct (normalize_email value); [apply yields_ok, Hone|]; done.
  - case_bool_decide; [by apply yields_ok, Hone|done].
  - eapply (yields_bind (fun _ => value ∈ LEVEL_VALUES)).
    + apply yields_ok_or. by intros ? [_ ?]%level_position_ok.
    + intros _ Hin. by apply yields_ok, Hone.
  - apply yields_ok. split; [done|]. constructor; [apply latin1_encode_bytes|constructor].
  - eapply (yields_bind (fun _ => True)); [auto with yields|done].
  - eapply (yields_bind (fun _ => True)); [auto with yields|]. intros. by apply yields_ok, Hone.
  - unfold address_parse. destruct (is_valid value) eqn:Hv; [by apply yields_ok, Hone|done].
Qed.

Lemma join_values_ok field a b joined :
  values_ok field a -> values_ok field b -> join_values a b = Some joined ->
  values_ok field joined.
Proof.
  unfold values_ok, texts_ok, bytes_ok. intros Ha Hb Hj.
  destruct a, b; simplify_eq/=; destruct (family field); try done;
    destruct_and?; rewrite ?Forall_app; split_and?; try done; intros [? ?]%app_eq_nil; done.
Qed.

Lemma NoDup_fmap_inj {A B} (f : A -> B) (l : list A) a b :
  NoDup (f <$> l) -> a ∈ l -> b ∈ l -> f a = f b -> a = b.
Proof.
  induction l as [|x l IH]; cbn; [by intros _ ?%elem_of_nil|].
  intros [Hx Hl]%NoDup_cons [->|Ha]%elem_of_cons [->|Hb]%elem_of_cons Hab; try done; auto.
  - destruct Hx. rewrite Hab. by apply list_elem_of_fmap_2.
  - destruct Hx. rewrite <- Hab. by apply list_elem_of_fmap_2.
Qed.

(** A list with one entry added or changed in place: its names. *)
Definition name_added {A} (name : A) (names names' : list A) : Prop :=
  names' = names \/ name ∉ names /\ names' = names ++ [name].

Lemma name_added_NoDup {A} (name : A) names names' :
  NoDup names -> name_added name names names' -> NoDup names'.
Proof.
  intros Hn [->|[Hin ->]]; [done|]. apply NoDup_app. split_and!; [done| |apply NoDup_singleton].
  intros x Hx ->%list_elem_of_singleton. done.
Qed.

Lemma name_added_cons {A} (name x : A) names names' :
  x <> name -> name_added name names names' -> name_added name (x :: names) (x :: names').
Proof.
  intros Hx [->|[Hin ->]]; [by left|]. right. split; [|done].
  by intros [->|?]%elem_of_cons.
Qed.

Lemma add_equality_ok field more held :
  field ∈ fields table -> values_ok field more -> Forall (equality_ok table) held ->
  yields (fun held' => Forall (equality_ok table) held' /\
                       name_added (key field) (fst <$> held) (fst <$> held'))
    (add_equality (key field) more held).
Proof.
  intros Hin Hmore. induction 1 as [|[name existing] held Hentry Hheld IH]; cbn [add_equality].
  - apply yields_ok. split.
    + constructor; [|constructor]. by exists field.
    + right. split; [apply not_elem_of_nil|done].
  - case_decide as Hname.
    + destruct Hentry as (field' & Hin' & Hkey & Hvalues). cbn in Hkey, Hvalues.
      assert (field' = field) as -> 
        by (apply (NoDup_fmap_inj key (fields table)); congruence || done).
      destruct (join_values existing more) as [joined|] eqn:Hj.
      * apply yields_ok. split; [|by left]. constructor; [|done].
        exists field. split_and!; [done|done|]. by apply (join_values_ok field existing more).
      * by destruct existing.
    + eapply yields_bind; [exact IH|]. intros held' [Hok Hnames]. apply yields_ok. split.
      * by constructor.
      * by apply name_added_cons.
Qed.

Lemma patterns_join field a b :
  patterns_ok field a -> patterns_ok field b ->
  exists joined, join_patterns a b = Some joined /\ patterns_ok field joined.
Proof.
  unfold patterns_ok, texts_ok, bytes_ok. intros Ha Hb.
  destruct (family field); destruct a; try done; destruct b; try done;
    (eexists; split; [reflexivity|]); destruct_and?; rewrite ?Forall_app; split_and?; try done;
    by intros [? ?]%app_eq_nil.
Qed.

Lemma operation_values_ok field value : patterns_ok field (operation_values field value).
Proof.
  unfold patterns_ok, operation_values.
  destruct (family field); split; try done; constructor; try constructor.
  apply latin1_encode_bytes.
Qed.

Lemma add_operation_ok field operator more held :
  field ∈ fields table -> operator ∈ kind <$> operations field -> patterns_ok field more ->
  Forall (operation_ok table) held ->
  yields (fun held' => Forall (operation_ok table) held' /\
                       name_added (key field, operator) (operation_id <$> held)
                         (operation_id <$> held'))
    (add_operation field operator more held).
Proof.
  intros Hin Hop Hmore. induction 1 as [|operation held Hentry Hheld IH]; cbn [add_operation].
  - apply yields_ok. split.
    + constructor; [|constructor]. by split_and!.
    + right. split; [apply not_elem_of_nil|done].
  - case_decide as Hname.
    + destruct Hname as [Hkey Hkind]. destruct Hentry as (Hin' & Hop' & Hpatterns).
      assert (of_field operation = field) as Hfield
        by (by apply (NoDup_fmap_inj key (fields table))).
      rewrite Hfield in Hpatterns, Hop'.
      destruct (patterns_join field _ _ Hpatterns Hmore) as (joined & -> & Hjoined).
      apply yields_ok. split; [|left; done]. constructor; [|done].
      split_and!; cbn; rewrite ?Hfield; done.
    + eapply yields_bind; [exact IH|]. intros held' [Hok Hnames]. apply yields_ok. split.
      * by constructor.
      * apply name_added_cons; [|done]. unfold operation_id. intros [= ? ?]. by destruct Hname.
Qed.

(** ** One node's conditions *)

(** An assignment of one field keeps the others as they are. *)
Ltac keeps_ok := match goal with Hok : conditions_ok _ _ |- _ => destruct Hok; by split end.

Lemma set_impossible_ok own held : conditions_ok table own -> conditions_ok table (set_impossible held own).
Proof. intros Hok. keeps_ok. Qed.

Lemma push_ok value selector :
  opt_ok selector_ok selector ->
  match push debug value (default selector_default selector) with
  | Ok selector => selector_ok selector
  | Err _ => True
  end.
Proof.
  intros Hok. unfold push.
  assert (forall segs held, Forall (fun segment => valid_segment segment = true) (segments held) ->
    (segs <> [] \/ segments held <> []) ->
    match res_fold (fun self segment =>
      if negb (valid_segment segment) then Err ("invalid address selector " +:+ debug value)
      else Ok {| segments := segments self ++ [segment] |}) held segs with
    | Ok selector => selector_ok selector
    | Err _ => True
    end) as Hfold.
  { induction segs as [|segment segs IH]; intros held Hheld Hne; cbn [res_fold].
    - split; [by destruct Hne|done].
    - destruct (valid_segment segment) eqn:Hv; cbn [negb]; [|done]. apply IH.
      + cbn [segments]. apply Forall_app. split; [done|]. by constructor.
      + right. cbn. by destruct (segments held). }
  apply Hfold.
  - destruct selector; cbn; [apply Hok|constructor].
  - left. apply str_split_nonempty.
Qed.

Lemma push_equality_ok own field value :
  conditions_ok table own -> field ∈ fields table ->
  yields (conditions_ok table) (push_equality own field value).
Proof.
  intros Hok Hin. unfold push_equality. case_decide as Haddr.
  - pose proof (push_ok value _ (ok_address _ _ Hok)) as Hp.
    destruct (push debug value _); [|done]. cbn. keeps_ok.
  - eapply yields_bind; [by apply equality_values_ok|]. intros more Hmore.
    eapply yields_bind; [apply add_equality_ok; try done; apply Hok|].
    intros held [Hheld Hnames]. cbn.
    pose proof (name_added_NoDup _ _ _ (ok_equality_keys _ _ Hok) Hnames). keeps_ok.
Qed.

Lemma push_operation_ok own field operator value :
  conditions_ok table own -> field ∈ fields table -> operator ∈ kind <$> operations field ->
  yields (conditions_ok table) (push_operation own field operator value).
Proof.
  intros Hok Hin Hop. unfold push_operation.
  eapply yields_bind.
  - apply add_operation_ok; [done|done|apply operation_values_ok|apply Hok].
  - intros held [Hheld Hnames]. cbn.
    pose proof (name_added_NoDup _ _ _ (ok_operation_ids _ _ Hok) Hnames). keeps_ok.
Qed.

Lemma scalars_ok (push_one : FilterConditions -> string -> result FilterConditions Stop) own scalars :
  conditions_ok table own ->
  (forall own scalar, conditions_ok table own -> yields (conditions_ok table) (push_one own scalar)) ->
  yields (conditions_ok table)
    (res_fold push_one (if bool_decide (scalars = []) then set_impossible true own else own) scalars).
Proof.
  intros Hok Hpush. apply yields_fold; [|auto].
  case_bool_decide; [by apply set_impossible_ok|done].
Qed.

Lemma apply_equality_ok own field k value :
  conditions_ok table own -> field ∈ fields table ->
  yields (conditions_ok table) (apply_equality own field k value).
Proof.
  intros Hok Hin. unfold apply_equality. case_decide.
  - eapply yields_bind; [apply wire_whole_ok|]. intros. by apply push_equality_ok.
  - eapply yields_bind; [apply wire_scalars_ok|]. intros scalars _. case_match; [done|].
    apply scalars_ok; [done|]. intros. by apply push_equality_ok.
Qed.

Lemma apply_operation_ok own field operator k value :
  conditions_ok table own -> field ∈ fields table -> operator ∈ kind <$> operations field ->
  yields (conditions_ok table) (apply_operation own field operator k value).
Proof.
  intros Hok Hin Hop. unfold apply_operation.
  eapply yields_bind; [apply wire_scalars_ok|]. intros scalars _.
  apply scalars_ok; [done|]. intros. by apply push_operation_ok.
Qed.

(** A parsed value put in its slot. *)
Lemma slot_ok {T} (P : T -> Prop) (parsed : result T Stop) (test : T -> bool) message slot k
    (set : option T -> FilterConditions) :
  yields P parsed ->
  (forall slot, opt_ok (fun value => P value /\ test value = false) slot -> conditions_ok table (set slot)) ->
  yields (conditions_ok table)
    (let* value := parsed in
     if test value then refused message
     else let* slot := set_once slot k value in Ok (set slot)).
Proof.
  intros Hp Hset. eapply yields_bind; [exact Hp|]. intros value Hvalue.
  destruct (test value) eqn:Ht; [done|].
  eapply yields_bind; [apply (set_once_ok (fun value => P value /\ test value = false)); done|].
  intros. by apply yields_ok, Hset.
Qed.

Lemma slot_plain_ok {T} (P : T -> Prop) (parsed : result T Stop) slot k
    (set : option T -> FilterConditions) :
  yields P parsed -> (forall slot, opt_ok P slot -> conditions_ok table (set slot)) ->
  yields (conditions_ok table)
    (let* value := parsed in let* slot := set_once slot k value in Ok (set slot)).
Proof.
  intros Hp Hset. eapply yields_bind; [exact Hp|]. intros value Hvalue.
  eapply yields_bind; [by apply (set_once_ok P)|]. intros. by apply yields_ok, Hset.
Qed.

Lemma at_least_1000 slot :
  opt_ok (fun span => 0 <= span /\ (span <? 1000) = false) slot -> opt_ok (fun span => 1000 <= span) slot.
Proof. destruct slot; cbn; [|done]. intros [_ ?%Z.ltb_ge]. done. Qed.

Lemma apply_window_ok own operator k value :
  conditions_ok table own -> yields (conditions_ok table) (apply_window own operator k value).
Proof.
  intros Hok. destruct operator; cbn [apply_window].
  - apply (slot_plain_ok _ _ _ _ (fun slot => set_after slot own) (parse_timestamp_ok value)).
    intros. keeps_ok.
  - apply (slot_plain_ok _ _ _ _ (fun slot => set_before slot own) (parse_timestamp_ok value)).
    intros. keeps_ok.
  - apply (slot_ok _ _ (fun span => span <? 1000) _ _ _ (fun slot => set_timespan slot own)
             (parse_duration_ok value)).
    intros slot ?%at_least_1000. keeps_ok.
  - apply (slot_plain_ok _ _ _ _ (fun slot => set_max_age slot own) (parse_duration_ok value)).
    intros. keeps_ok.
  - apply (slot_plain_ok _ _ _ _ (fun slot => set_min_age slot own) (parse_duration_ok value)).
    intros. keeps_ok.
Qed.

Lemma apply_subsample_ok own operator k value :
  conditions_ok table own -> yields (conditions_ok table) (apply_subsample own operator k value).
Proof.
  intros Hok. destruct operator; cbn [apply_subsample].
  - apply (slot_ok _ _ (fun span => span <? 1000) _ _ _ (fun slot => set_subsample_every slot own)
             (parse_duration_ok value)).
    intros slot ?%at_least_1000. keeps_ok.
  - apply (slot_plain_ok (fun count => 1 <= count <= u64_max) _ _ _
             (fun slot => set_subsample slot own)).
    + apply yields_ok_or. intros count Hcount.
      destruct (parse_unsigned u64_max value) as [n|] eqn:Hn; [|done].
      apply parse_unsigned_range in Hn. destruct (1 <=? n) eqn:H1; simplify_eq. to_prop. lia.
    + intros. keeps_ok.
  - apply (slot_plain_ok (fun _ => True) _ _ _ (fun slot => set_subsample_select slot own));
      [auto with yields|]. intros. keeps_ok.
Qed.

Lemma apply_clock_ok own operator k value :
  conditions_ok table own -> yields (conditions_ok table) (apply_clock own operator k value).
Proof.
  intros Hok. unfold apply_clock.
  set (parsed := ok_or _ _).
  assert (yields (fun bound => 0 <= bound <= clock_cap operator) parsed) as Hp.
  { apply yields_ok_or. intros bound Hbound.
    destruct (parse_unsigned u32_max value) as [n|] eqn:Hn; [|done].
    apply parse_unsigned_range in Hn. destruct (n <=? clock_cap operator) eqn:H1; simplify_eq.
    to_prop. lia. }
  destruct operator; cbn [clock_cap] in Hp.
  - apply (slot_plain_ok _ _ _ _ (fun slot => set_after_hour slot own) Hp). intros. keeps_ok.
  - apply (slot_plain_ok _ _ _ _ (fun slot => set_before_hour slot own) Hp). intros. keeps_ok.
  - apply (slot_plain_ok _ _ _ _ (fun slot => set_after_minute slot own) Hp). intros. keeps_ok.
  - apply (slot_plain_ok _ _ _ _ (fun slot => set_before_minute slot own) Hp). intros. keeps_ok.
Qed.

Lemma apply_bound_ok own operator k value :
  conditions_ok table own -> yields (conditions_ok table) (apply_bound own operator k value).
Proof.
  intros Hok. unfold apply_bound.
  assert (yields (fun n => (n < 5)%nat)
    (ok_or (level_position value) ("invalid level " +:+ debug value))) as Hp
    by (apply yields_ok_or; by intros ? [? _]%level_position_ok).
  destruct operator.
  - apply (slot_plain_ok _ _ _ _ (fun slot => set_min_level slot own) Hp). intros. keeps_ok.
  - apply (slot_plain_ok _ _ _ _ (fun slot => set_max_level slot own) Hp). intros. keeps_ok.
Qed.

Lemma apply_computed_ok own predicate k value :
  conditions_ok table own -> predicate ∈ computed table ->
  yields (conditions_ok table) (apply_computed own predicate k value).
Proof.
  intros Hok Hin. unfold apply_computed.
  eapply yields_bind; [apply wire_scalar_ok|]. intros text _.
  eapply (yields_bind (fun _ => True)); [auto with yields|]. intros sense _. cbn.
  assert (Forall (fun entry => fst entry ∈ computed table)
            (computed_filters own ++ [(predicate, sense)]))
    by (apply Forall_app; split; [apply Hok|by constructor]).
  keeps_ok.
Qed.

Lemma apply_root_ok own k value :
  conditions_ok table own -> yields (conditions_ok table) (apply_root own k value).
Proof.
  intros Hok. unfold apply_root. eapply yields_bind; [apply wire_scalar_ok|]. intros text _.
  destruct (valid_address text) eqn:Hv; cbn [negb]; [|done].
  eapply yields_bind; [by apply (set_once_ok (fun text => valid_address text = true))|].
  intros slot Hslot. cbn. assert (root_ok slot) by (by destruct slot). keeps_ok.
Qed.

(** ** Whole nodes *)

Definition role_ok (resolved : KeyRole) : Prop :=
  match resolved with
  | RoleEquality field => field ∈ fields table
  | RoleOperation field operator => field ∈ fields table /\ operator ∈ kind <$> operations field
  | RoleComputed predicate => predicate ∈ computed table
  | _ => True
  end.

Lemma resolve_field_ok field wire resolved :
  field ∈ fields table -> resolve_field field wire = Some resolved -> role_ok resolved.
Proof.
  intros Hin. unfold resolve_field. case_match; [by intros [= <-]|].
  destruct (find _ _) as [operation|] eqn:Hfind.
  - intros [= <-]. split; [done|]. apply find_some in Hfind as [Hop _].
    apply list_elem_of_fmap_2. by apply list_elem_of_In.
  - intros Hres. destruct (family field); split_cases; by simplify_eq.
Qed.

Lemma resolve_ok wire : yields role_ok (lift (resolve debug table wire)).
Proof.
  unfold resolve. repeat (case_decide; [done|]).
  destruct (find _ _) as [predicate|] eqn:Hfind.
  - apply find_some in Hfind as [Hin _]. by apply list_elem_of_In.
  - destruct (find_map _ _) as [resolved|] eqn:Hmap; [|done].
    apply find_map_Some in Hmap as (field & Hin & Hres). cbn. by eapply resolve_field_ok.
Qed.

Lemma parse_order_ok text :
  yields (fun term => fst term ∈ fields table /\ native (family (fst term)) = true)
    (lift (parse_order debug table text)).
Proof.
  unfold parse_order. destruct (match split_once ":" text with Some _ => _ | None => _ end)
    as [[base ascending]|]; [|done].
  destruct (find _ _) as [field|] eqn:Hfind; [|done].
  destruct (native (family field)) eqn:Hnative; [|done].
  apply find_some in Hfind as [Hin _]. split; [by apply list_elem_of_In|done].
Qed.

(** A node whose groups are taken in. *)
Definition finished_ok (self : Parsed) : Prop :=
  node_ok table (parsed_node self) /\ Forall (order_ok table) (parsed_order self) /\
  limit_ok (parsed_limit self) /\ limit_ok (parsed_offset self).

Definition parsed_ok (self : Parsed) : Prop :=
  let '(MkParsed own ands ors order limit offset and_group or_group) := self in
  conditions_ok table own /\ Forall (node_ok table) ands /\ Forall (node_ok table) ors /\
  Forall (order_ok table) order /\ limit_ok limit /\ limit_ok offset /\
  Forall finished_ok and_group /\ Forall finished_ok or_group.

Lemma parsed_default_ok : parsed_ok parsed_default.
Proof.
  split; [apply conditions_default_ok|].
  repeat (split; [first [done|by constructor]|]). by constructor.
Qed.

Lemma unsigned_slot_ok slot text message k :
  yields limit_ok
    (let* held := ok_or (parse_unsigned u64_max text) message in set_once slot k held).
Proof.
  eapply yields_bind; [apply (yields_ok_or in_u64)|].
  - intros n Hn%parse_unsigned_range. unfold in_u64. lia.
  - intros. by apply (set_once_ok in_u64).
Qed.

Lemma apply_ok children self k value :
  parsed_ok self -> yields (Forall finished_ok) (children value) ->
  yields parsed_ok (apply children table self k value).
Proof.
  destruct self as [own ands ors order limit offset and_group or_group].
  intros (Hown & Hands & Hors & Horder & Hlimit & Hoffset & Hand & Hor) Hchildren.
  unfold apply. eapply yields_bind; [apply resolve_ok|]. intros resolved Hrole.
  assert (forall r, yields (conditions_ok table) r -> yields parsed_ok
    (let* own := r in
     Ok (with_own (MkParsed own ands ors order limit offset and_group or_group) own))) as Hon.
  { intros r Hr. eapply yields_bind; [exact Hr|]. intros. by split_and!. }
  assert (forall step, (forall text, yields (conditions_ok table) (step text)) -> yields parsed_ok
    (let* text := wire_scalar value k in let* own := step text in
     Ok (with_own (MkParsed own ands ors order limit offset and_group or_group) own))) as Hscalar.
  { intros step Hstep. eapply yields_bind; [apply wire_scalar_ok|]. intros. apply Hon, Hstep. }
  assert (forall message (set : option Z -> Parsed) slot,
    (forall slot, limit_ok slot -> parsed_ok (set slot)) -> yields parsed_ok
    (let* text := wire_scalar value k in
     let* held := ok_or (parse_unsigned u64_max text) (message text) in
     let* slot := set_once slot k held in Ok (set slot))) as Hunsigned.
  { intros message set slot Hset. eapply yields_bind; [apply wire_scalar_ok|]. intros text _.
    pose proof (unsigned_slot_ok slot text (message text) k) as Hslot.
    destruct (ok_or _ _) as [held|[]]; cbn in Hslot |- *; try done.
    eapply yields_bind; [exact Hslot|]. intros. by apply yields_ok, Hset. }
  destruct resolved; cbn in Hrole.
  - apply Hon. by apply apply_equality_ok.
  - apply Hon. destruct Hrole. by apply apply_operation_ok.
  - apply Hon. by apply apply_root_ok.
  - eapply yields_bind; [exact Hchildren|]. intros group Hgroup.
    destruct operator; split_and!; try done; by apply Forall_app.
  - apply (Hscalar (apply_subsample own operator k)). intros. by apply apply_subsample_ok.
  - apply (Hscalar (apply_window own operator k)). intros. by apply apply_window_ok.
  - apply (Hscalar (apply_clock own operator k)). intros. by apply apply_clock_ok.
  - apply (Hscalar (apply_bound own operator k)). intros. by apply apply_bound_ok.
  - apply Hon. by apply apply_computed_ok.
  - eapply yields_bind; [apply wire_scalars_ok|]. intros scalars _.
    eapply (yields_bind (Forall (order_ok table))).
    + apply yields_map. intros text _. eapply yields_bind; [apply parse_order_ok|].
      intros term Hterm. by apply yields_ok.
    + intros more Hmore. split_and!; try done. by apply Forall_app.
  - apply (Hunsigned (fun text => "invalid limit " +:+ debug text)
      (fun slot => MkParsed own ands ors order slot offset and_group or_group)).
    intros. by split_and!.
  - apply (Hunsigned (fun text => "invalid offset " +:+ debug text)
      (fun slot => MkParsed own ands ors order limit slot and_group or_group)).
    intros. by split_and!.
Qed.

Lemma hoist_ok self child : parsed_ok self -> finished_ok child -> parsed_ok (hoist self child).
Proof.
  destruct self as [own ands ors order limit offset and_group or_group].
  intros (? & ? & ? & ? & Hlimit & Hoffset & ? & ?) (Hnode & Horder & Hl & Ho).
  unfold hoist. split_and!; try done.
  - apply Forall_app. split; [done|]. by constructor.
  - by case_bool_decide.
  - destruct (parsed_limit child), limit; cbn in *; try done. unfold in_u64 in *. lia.
  - destruct (parsed_offset child), offset; cbn in *; try done. unfold in_u64 in *. lia.
Qed.

Lemma hoist_own self child :
  let '(MkParsed own _ _ _ _ _ _ _) := self in
  let '(MkParsed own' _ _ _ _ _ and_group or_group) := hoist self child in
  own' = own.
Proof. by destruct self. Qed.

Lemma foldl_hoist_own group self :
  parsed_own (foldl hoist self group) = parsed_own self.
Proof.
  revert self. induction group as [|child group IH]; intros self; cbn [foldl]; [done|].
  rewrite IH. by destruct self.
Qed.

Lemma finish_ok self : parsed_ok self -> yields finished_ok (finish self).
Proof.
  destruct self as [own ands ors order limit offset and_group or_group].
  intros (? & ? & ? & ? & ? & ? & Hand & Hor). unfold finish.
  destruct (subsample_refusal own) eqn:Hsub; [done|].
  destruct (find_map or_control or_group); [done|].
  set (self := MkParsed own ands ors order limit offset [] []).
  assert (parsed_ok (foldl hoist self and_group)) as Hok.
  { assert (parsed_ok self) as Hself by 
      by (do 6 (split; [done|]); split; by constructor).
    clear -Hself Hand. revert Hself. generalize self. clear self.
    induction Hand as [|child group Hchild Hgroup IH]; intros self Hself; cbn [foldl]; [done|].
    by apply IH, hoist_ok. }
  pose proof (foldl_hoist_own and_group self) as Hown.
  destruct (foldl hoist self and_group) as [own' ands' ors' order' limit' offset' ? ?].
  cbn in Hown. subst own'. destruct Hok as (? & ? & ? & ? & ? & ? & _ & _).
  split_and!; cbn; try done. constructor; try done. apply Forall_app. split; [done|].
  apply Forall_fmap. eapply Forall_impl; [exact Hor|]. by intros child [? _].
Qed.

(** ** Subfilters, and whole filters *)

(** The mappings a group's value has parsed. *)
Definition child_entries (element : Yaml) : option (list (Yaml * Yaml)) :=
  match (match element with YString text => parse_yaml text | _ => Ok element end) with
  | Ok (YMapping entries) => Some entries
  | _ => None
  end.

Definition child_elements (value : Yaml) : list Yaml :=
  match value with YNull => [] | YSequence elements => elements | other => [other] end.

Definition calls (value : WireValue) : list (list (Yaml * Yaml)) :=
  match (match value with WireText text => parse_yaml text | WireYaml value => Ok value end) with
  | Ok value => omap child_entries (child_elements value)
  | Err _ => []
  end.

Lemma parse_yaml_ok text : yields (fun value => parse_yaml text = Ok value) (parse_yaml text).
Proof. unfold parse_yaml. case_match; [done|]. by destruct (yaml_from_str text). Qed.

Lemma one_child_ok mapping element :
  (forall entries, child_entries element = Some entries -> yields finished_ok (mapping entries)) ->
  yields finished_ok (one_child mapping element).
Proof.
  intros Hm. unfold one_child, child_entries in *.
  eapply (yields_bind (fun value =>
    (match element with YString text => parse_yaml text | _ => Ok element end) = Ok value)).
  - destruct element; try done. apply parse_yaml_ok.
  - intros value Hvalue. rewrite Hvalue in Hm. destruct value; try done. by apply Hm.
Qed.

Lemma group_children_ok mapping value :
  (forall entries, entries ∈ calls value -> yields finished_ok (mapping entries)) ->
  yields (Forall finished_ok) (group_children mapping value).
Proof.
  intros Hm. unfold group_children, calls in *.
  eapply (yields_bind (fun parsed =>
    (match value with WireText text => parse_yaml text | WireYaml value => Ok value end) = Ok parsed)).
  - destruct value; [|done]. apply parse_yaml_ok.
  - intros parsed Hparsed. rewrite Hparsed in Hm.
    assert (forall element, element ∈ child_elements parsed -> yields finished_ok (one_child mapping element))
      as Hone.
    { intros element Hin. apply one_child_ok. intros entries Hentries. apply Hm.
      apply list_elem_of_omap. by exists element. }
    assert (parsed ∈ child_elements parsed ->
      yields (Forall finished_ok) (let* child := one_child mapping parsed in Ok [child])) as Hself.
    { intros Hin. eapply yields_bind; [by apply Hone|]. intros. by constructor. }
    destruct parsed; try (apply Hself; left); [by constructor|by apply yields_map].
Qed.

(** A mapping parses when the mappings its groups have parsed do. *)
Lemma from_yaml_step fuel entries :
  (forall entry entries', entry ∈ entries -> entries' ∈ calls (WireYaml (snd entry)) ->
     yields finished_ok (from_yaml fuel table entries')) ->
  yields finished_ok (from_yaml (S fuel) table entries).
Proof.
  intros Hsub. cbn [from_yaml]. eapply yields_bind; [|apply finish_ok].
  apply yields_fold; [apply parsed_default_ok|]. intros parsed [k value] Hin Hparsed.
  unfold yaml_entry. destruct (yaml_as_str _); [|done]. case_match; [done|].
  apply apply_ok; [done|]. apply group_children_ok. intros. by eapply Hsub.
Qed.

Lemma from_yaml_ok fuel entries : starved -> yields finished_ok (from_yaml fuel table entries).
Proof.
  intros Hstarved. revert entries. induction fuel as [|fuel IH]; intros entries; [done|].
  by apply from_yaml_step.
Qed.

Definition core_ok (core : FilterCore) : Prop :=
  schema core = table /\ node_ok table (node core) /\ Forall (order_ok table) (core_order core) /\
  limit_ok (core_limit core) /\ limit_ok (core_offset core).

Lemma parse_ok fuel pairs :
  (forall pair entries, pair ∈ pairs -> entries ∈ calls (WireText (snd pair)) ->
     yields finished_ok (from_yaml fuel table entries)) ->
  yields core_ok (parse fuel table pairs).
Proof.
  intros Hsub. unfold parse. eapply yields_bind.
  - apply (yields_fold parsed_ok); [apply parsed_default_ok|]. intros parsed [k value] Hin Hparsed.
    apply apply_ok; [done|]. apply group_children_ok. intros. by eapply Hsub.
  - intros parsed Hparsed. eapply yields_bind; [by apply finish_ok|].
    intros final (? & ? & ? & ?). by apply yields_ok.
Qed.

Lemma from_json_ok fuel text :
  (forall entries, parse_yaml text = Ok (YMapping entries) ->
     yields finished_ok (from_yaml fuel table entries)) ->
  yields core_ok (from_json fuel table text).
Proof.
  intros Hsub. unfold from_json. eapply yields_bind; [apply parse_yaml_ok|].
  intros [] Hparsed; try done. eapply yields_bind; [by apply Hsub|].
  intros final (? & ? & ? & ?). by apply yields_ok.
Qed.
End parsed.

(** ** A concrete set of crates

    Enough YAML for one subfilter, and clock durations. *)
Definition sample_subfilter : string := "{limit: 3, level: [error, critical], order: content:desc}".

Definition sample_crates : Crates := {|
  crates_email := {| nfc := fun text => text;
                     parse_email := fun _ => None;
                     domain_to_unicode := fun domain => (domain, true);
                     alphabetic := fun _ => true;
                     lowercase := fun text => text |};
  debug := fun text => text;
  yaml_from_str := fun text =>
    if decide (text = sample_subfilter) then
      Some (YMapping
        [(YString "limit", YNumber "3");
         (YString "level", YSequence [YString "error"; YString "critical"]);
         (YString "order", YString "content:desc")])
    else if decide (text = "{level: debug}") then Some (YMapping [(YString "level", YString "debug")])
    else None;
  yaml_as_str := fun value => match value with YString text => Some text | _ => None end;
  json_from_yaml := fun text => Some text;
  json_to_string := fun _ => None;
  uuid_parse := fun text => Some text;
  speedate_datetime := fun text => if decide (text = "1970-01-01T00:00:01Z") then Some (1, 0) else None;
  speedate_date := fun _ => None;
  speedate_duration := fun text => if decide (text = "00:01:00") then Some (true, 0, 60, 0) else None;
  from_timestamp_micros := fun micros => Some (micros * 1000);
  midnight := fun _ _ _ => None
|}.

Lemma sample_unsigned text positive day second microsecond :
  speedate_duration (Crates := sample_crates) text = Some (positive, day, second, microsecond) ->
  0 <= day /\ 0 <= second /\ 0 <= microsecond.
Proof. cbn. case_decide; intros; simplify_eq. lia. Qed.

Definition sample_pairs : list (string * string) :=
  [("address", "engine|:children"); ("root", "@rig"); ("after", "1970-01-01T00:00:01Z");
   ("max_age", "1.5h"); ("subsample_every", "00:01:00"); ("contains", "fail");
   ("min_level", "warning"); ("and", sample_subfilter); ("limit", "10"); ("order", "timestamp")].

Lemma schemas_keys_once : Forall (fun table => NoDup (key <$> fields table)) SCHEMAS.
Proof.
  apply Forall_forall. intros table Hin.
  assert (Hall : forallb (fun table => bool_decide (NoDup (key <$> fields table))) SCHEMAS = true)
    by (vm_compute; reflexivity).
  rewrite forallb_forall in Hall.
  by specialize (Hall table (proj1 (list_elem_of_In _ _) Hin)) as ?%bool_decide_eq_true.
Qed.

(** ** Theorems *)

(** C9: on every table, a filter that parses is well-formed: its equalities
    and operations name fields of the table, once each, with at least one
    value of the field's type; its selector and root are valid; its spans last
    a microsecond at least; its clock bounds, levels, limit and offset are in
    range; a count-based subsample has both ends of its range; and so on
    through every subfilter. No parse panics. *)
Theorem parse_well_formed `{Crates}
    (speedate_unsigned : forall text positive day second microsecond,
      speedate_duration text = Some (positive, day, second, microsecond) ->
      0 <= day /\ 0 <= second /\ 0 <= microsecond)
    (table : Schema) (fuel : nat) (pairs : list (string * string)) (text : string) :
  table ∈ SCHEMAS ->
  parse fuel table pairs <> Err Panicked /\ from_json fuel table text <> Err Panicked /\
  forall core, parse fuel table pairs = Ok core \/ from_json fuel table text = Ok core ->
    schema core = table /\ node_ok table (node core) /\
    Forall (order_ok table) (core_order core) /\
    opt_ok in_u64 (core_limit core) /\ opt_ok in_u64 (core_offset core).
Proof.
  intros Hin. pose proof schemas_keys_once as Honce. rewrite Forall_forall in Honce.
  assert (forall entries, yields (H := True) (finished_ok table) (from_yaml fuel table entries)) as Hf
    by (intros; by apply (from_yaml_ok (H := True) speedate_unsigned table (Honce table Hin))).
  pose proof (parse_ok (H := True) speedate_unsigned table (Honce table Hin) fuel pairs
    (fun _ entries _ _ => Hf entries)) as Hp.
  pose proof (from_json_ok (H := True) table fuel text
    (fun entries _ => Hf entries)) as Hj.
  split_and!.
  - intros Hpanic. by rewrite Hpanic in Hp.
  - intros Hpanic. by rewrite Hpanic in Hj.
  - intros core [Hok|Hok]; [by rewrite Hok in Hp|by rewrite Hok in Hj].
Qed.

Notation sample_parse := (@parse sample_crates 4%nat (record_schema Logs) sample_pairs).

Lemma sample_parses : is_ok sample_parse = true.
Proof. vm_compute. reflexivity. Qed.

Lemma logs_schema_in : record_schema Logs ∈ SCHEMAS.
Proof.
  unfold SCHEMAS. apply elem_of_app. left. apply list_elem_of_fmap_2.
  repeat constructor.
Qed.

Lemma parse_well_formed_witness :
  exists core, sample_parse = Ok core /\ node_ok (record_schema Logs) (node core).
Proof.
  pose proof sample_parses as Hok.
  pose proof (@parse_well_formed sample_crates sample_unsigned (record_schema Logs) 4 sample_pairs ""
    logs_schema_in) as (_ & _ & Hall).
  revert Hok Hall. generalize sample_parse. intros [core|] Hok Hall; [|done].
  exists core. split; [reflexivity|]. destruct (Hall core (or_introl eq_refl)) as (_ & Hnode & _).
  exact Hnode.
Defined.

(** What hoisting leaves of the controls: the last ordering given, the least
    limit, the greatest offset. *)
Definition last_order (order : list OrderTerm) (group : list Parsed) : list OrderTerm :=
  default order (last (filter (fun order => order <> []) (parsed_order <$> group))).

Definition least_of (limits : list (option Z)) : option Z :=
  match omap id limits with [] => None | limit :: rest => Some (foldr Z.min limit rest) end.
Definition greatest_of (offsets : list (option Z)) : option Z :=
  match omap id offsets with [] => None | offset :: rest => Some (foldr Z.max offset rest) end.

Lemma foldr_least a b l : foldr Z.min (Z.min a b) l = Z.min a (foldr Z.min b l).
Proof. induction l as [|x l IH]; cbn; [done|]. rewrite IH. lia. Qed.
Lemma foldr_greatest a b l : foldr Z.max (Z.max a b) l = Z.max a (foldr Z.max b l).
Proof. induction l as [|x l IH]; cbn; [done|]. rewrite IH. lia. Qed.

Lemma foldl_hoist own ands ors order limit offset group :
  foldl hoist (MkParsed own ands ors order limit offset [] []) group =
  MkParsed own (ands ++ (parsed_node <$> group)) ors (last_order order group)
    (least_of (limit :: (parsed_limit <$> group))) (greatest_of (offset :: (parsed_offset <$> group)))
    [] [].
Proof.
  revert ands order limit offset.
  induction group as [|child group IH]; intros ands order limit offset.
  - cbn. rewrite app_nil_r. by destruct limit, offset.
  - cbn [foldl hoist]. rewrite IH, <- app_assoc. cbn [fmap list_fmap]. f_equal.
    + unfold last_order. cbn [fmap list_fmap]. case_bool_decide as Hnil.
      * by rewrite filter_cons_False by (intros Hne; by apply Hne).
      * rewrite filter_cons_True by done.
        rewrite last_cons. by destruct (last (filter _ _)).
    + unfold least_of. destruct (parsed_limit child), limit; cbn; try done.
      f_equal. by rewrite Z.min_comm, foldr_least.
    + unfold greatest_of. destruct (parsed_offset child), offset; cbn; try done.
      f_equal. by rewrite Z.max_comm, foldr_greatest.
Qed.

(** What a count-based subsample needs of its node: both ends of its range. *)
Definition bounded_subsample (own : FilterConditions) : Prop :=
  is_Some (subsample own) ->
  (is_Some (after own) \/ is_Some (timespan own) \/ is_Some (max_age own)) /\
  (is_Some (before own) \/ is_Some (timespan own) \/ is_Some (min_age own)).

Lemma subsample_refusal_none own : subsample_refusal own = None <-> bounded_subsample own.
Proof.
  unfold subsample_refusal, bounded_subsample.
  repeat case_bool_decide; cbn; (split; [try done; intros _ ?; naive_solver|naive_solver]).
Qed.

Definition uncontrolled (child : Parsed) : Prop :=
  parsed_order child = [] /\ parsed_limit child = None /\ parsed_offset child = None.

Lemma or_control_none group : find_map or_control group = None <-> Forall uncontrolled group.
Proof.
  induction group as [|child group IH]; cbn [find_map]; [by split|].
  rewrite Forall_cons, <- IH. unfold or_control, uncontrolled.
  destruct (parsed_order child), (parsed_limit child), (parsed_offset child);
    cbn; split; naive_solver.
Qed.

(** A node finishes exactly when its count-based subsample has both ends
    of its range and no [or] subfilter carries a query control. It then keeps
    its conditions and its subfilters' nodes, and is left with the last order
    given among itself and its [and] subfilters, the least of their limits and
    the greatest of their offsets. *)
Theorem finish_hoists (own : FilterConditions) (ands ors : list FilterNode)
    (order : list OrderTerm) (limit offset : option Z) (and_group or_group : list Parsed)
    (final : Parsed) :
  finish (MkParsed own ands ors order limit offset and_group or_group) = Ok final <->
  bounded_subsample own /\ Forall uncontrolled or_group /\
  final = MkParsed own (ands ++ (parsed_node <$> and_group)) (ors ++ (parsed_node <$> or_group))
            (last_order order and_group)
            (least_of (limit :: (parsed_limit <$> and_group)))
            (greatest_of (offset :: (parsed_offset <$> and_group))) [] [].
Proof.
  unfold finish. rewrite <- subsample_refusal_none, <- or_control_none, foldl_hoist.
  destruct (subsample_refusal own); [naive_solver|].
  destruct (find_map or_control or_group); naive_solver.
Qed.
