(* ===== verification/FilterFuel.v ===== *)
(** * Subfilters end

    The parser of [ceres-database/src/filter.rs] recurses into the subfilters
    of a group, some of which are YAML text parsed in turn. That recursion is
    not on the structure of its argument; it ends because a string inside a
    YAML collection is shorter than the text of the collection.

    The parts after this one: durations of the suffix grammar. *)
From S2P Require Import Prelude.
From stdpp Require Import pretty.
From S2P Require Import Text Sql Selector Schema Wire Credentials FilterParse FilterFacts.
Local Open Scope string_scope.
Local Open Scope list_scope.
Local Open Scope nat_scope.
Local Open Scope ceres_scope.

(** ** More fuel changes nothing *)

(** A result that is the other's, unless the fuel ran out. *)
Definition below {A} (r r' : result A Stop) : Prop := r = Err OutOfFuel \/ r = r'.

Lemma below_refl {A} (r : result A Stop) : below r r.
Proof. by right. Qed.

Lemma below_bind {A B} (r r' : result A Stop) (k k' : A -> result B Stop) :
  below r r' -> (forall a, r' = Ok a -> below (k a) (k' a)) -> below (res_bind r k) (res_bind r' k').
Proof. intros [->| ->] Hk; [by left|]. destruct r' as [a|]; cbn; [by apply Hk|by right]. Qed.

Lemma below_fold {A S} (f f' : S -> A -> result S Stop) (l : list A) s :
  (forall s a, below (f s a) (f' s a)) -> below (res_fold f s l) (res_fold f' s l).
Proof.
  intros Hf. revert s. induction l as [|a l IH]; intros s; cbn [res_fold]; [by right|].
  destruct (Hf s a) as [-> | ->]; [by left|]. destruct (f' s a); [apply IH|by right].
Qed.

Lemma below_map {A B} (f f' : A -> result B Stop) (l : list A) :
  (forall a, below (f a) (f' a)) -> below (res_map f l) (res_map f' l).
Proof.
  intros Hf. induction l as [|a l IH]; cbn [res_map]; [by right|].
  destruct (Hf a) as [-> | ->]; [by left|]. destruct (f' a); [|by right].
  destruct IH as [-> | ->]; [by left|by right].
Qed.

Section fuel.
Context `{Crates}.

Lemma group_children_below mapping mapping' value :
  (forall entries, below (mapping entries) (mapping' entries)) ->
  below (group_children mapping value) (group_children mapping' value).
Proof.
  intros Hm. assert (forall element, below (one_child mapping element) (one_child mapping' element)) as Hone.
  { intros element. unfold one_child. apply below_bind; [apply below_refl|].
    intros [] _; try apply below_refl. apply Hm. }
  unfold group_children. apply below_bind; [apply below_refl|].
  intros [] _; try apply below_refl; try (apply below_bind; [apply Hone|intros; apply below_refl]).
  by apply below_map.
Qed.

Lemma apply_below children children' table self k value :
  below (children value) (children' value) ->
  below (apply children table self k value) (apply children' table self k value).
Proof.
  intros Hc. destruct self. unfold apply. apply below_bind; [apply below_refl|].
  intros [] _; try apply below_refl. apply below_bind; [done|]. intros. apply below_refl.
Qed.

Lemma from_yaml_below fuel table entries :
  below (from_yaml fuel table entries) (from_yaml (S fuel) table entries).
Proof.
  revert entries. induction fuel as [|fuel IH]; intros entries; [by left|].
  change (from_yaml (S fuel) table entries) with
    (res_bind (res_fold (yaml_entry (from_yaml fuel table) table) parsed_default entries) finish).
  change (from_yaml (S (S fuel)) table entries) with
    (res_bind (res_fold (yaml_entry (from_yaml (S fuel) table) table) parsed_default entries) finish).
  apply below_bind; [|intros; apply below_refl]. apply below_fold. intros parsed [k value].
  unfold yaml_entry. destruct (yaml_as_str _); [|apply below_refl].
  case_match; [apply below_refl|]. apply apply_below. by apply group_children_below.
Qed.

Lemma from_yaml_more fuel fuel' table entries :
  fuel <= fuel' -> below (from_yaml fuel table entries) (from_yaml fuel' table entries).
Proof.
  induction 1 as [|fuel' Hle IH]; [apply below_refl|].
  destruct IH as [IH|IH]; [by left|]. rewrite IH. apply from_yaml_below.
Qed.

Lemma parse_more fuel fuel' table pairs :
  fuel <= fuel' -> below (parse fuel table pairs) (parse fuel' table pairs).
Proof.
  intros Hle. unfold parse. apply below_bind; [|intros; apply below_refl].
  apply below_fold. intros. apply apply_below, group_children_below. intros. by apply from_yaml_more.
Qed.

Lemma from_json_more fuel fuel' table text :
  fuel <= fuel' -> below (from_json fuel table text) (from_json fuel' table text).
Proof.
  intros Hle. unfold from_json. apply below_bind; [apply below_refl|].
  intros [] _; try apply below_refl. apply below_bind; [by apply from_yaml_more|].
  intros. apply below_refl.
Qed.
End fuel.

(** ** What nests *)

Fixpoint yaml_size (value : Yaml) : nat :=
  match value with
  | YSequence elements => S (sum_list_with yaml_size elements)
  | YMapping entries => S (sum_list_with (fun entry => yaml_size (snd entry)) entries)
  | YTagged _ value => S (yaml_size value)
  | _ => 1
  end.

(** The strings a value holds, a mapping's keys apart. *)
Fixpoint texts_of (value : Yaml) : list string :=
  match value with
  | YString text => [text]
  | YSequence elements => mjoin (map texts_of elements)
  | YMapping entries => mjoin (map (fun entry => texts_of (snd entry)) entries)
  | YTagged _ value => texts_of value
  | _ => []
  end.

(** Those inside a collection. *)
Definition inner_texts (value : Yaml) : list string :=
  match value with YString _ => [] | _ => texts_of value end.

Lemma sum_list_with_elem {A} (f : A -> nat) a l : a ∈ l -> f a <= sum_list_with f l.
Proof. induction 1; cbn; lia. Qed.

Lemma mjoin_map_elem {A B} (f : A -> list B) a b l : a ∈ l -> b ∈ f a -> b ∈ mjoin (map f l).
Proof.
  intros Ha Hb. apply list_elem_of_join. exists (f a). split; [done|].
  apply list_elem_of_In, in_map, list_elem_of_In. done.
Qed.

Section settles.
Context `{Crates}.
Hypothesis speedate_unsigned : forall text positive day second microsecond,
  speedate_duration text = Some (positive, day, second, microsecond) ->
  (0 <= day /\ 0 <= second /\ 0 <= microsecond)%Z.
Context (table : Schema) (keys_once : NoDup (key <$> fields table)).
Context (weight : string -> nat).
Hypothesis yaml_shrinks : forall text value inner,
  yaml_from_str text = Some value -> inner ∈ inner_texts value -> weight inner < weight text.

Notation settled := (yields (H := False)).

Lemma settled_more fuel fuel' entries :
  fuel <= fuel' -> settled (finished_ok table) (from_yaml fuel table entries) ->
  settled (finished_ok table) (from_yaml fuel' table entries).
Proof. intros Hle. destruct (from_yaml_more fuel fuel' table entries Hle) as [-> | ->]; [intros []|done]. Qed.

(** One fuel for all of several mappings. *)
Lemma fuel_for_all (l : list (list (Yaml * Yaml))) :
  (forall entries, entries ∈ l -> exists fuel, settled (finished_ok table) (from_yaml fuel table entries)) ->
  exists fuel, forall entries, entries ∈ l -> settled (finished_ok table) (from_yaml fuel table entries).
Proof.
  induction l as [|entries l IH]; intros Hl.
  - exists 0. by intros ? ?%elem_of_nil.
  - destruct (Hl entries) as [fuel Hfuel]; [left|].
    destruct IH as [fuel' Hfuel']; [intros; apply Hl; by right|].
    exists (fuel `max` fuel'). intros entries' [->|Hin]%elem_of_cons.
    + eapply settled_more; [|exact Hfuel]. lia.
    + eapply settled_more; [|by apply Hfuel']. lia.
Qed.

Lemma parse_yaml_shrinks text value inner :
  parse_yaml text = Ok value -> inner ∈ inner_texts value -> weight inner < weight text.
Proof.
  unfold parse_yaml. case_match; [intros [= <-]; by intros ?%elem_of_nil|].
  destruct (yaml_from_str text) as [parsed|] eqn:Hp; [|done]. intros [= <-]. by apply yaml_shrinks.
Qed.

(** A mapping called from within a value is smaller, or of shorter strings. *)
Lemma child_entries_shrink value element entries :
  element ∈ child_elements value -> child_entries element = Some entries ->
  (yaml_size (YMapping entries) <= yaml_size value /\
   forall inner, inner ∈ texts_of (YMapping entries) -> inner ∈ texts_of value) \/
  (exists text, text ∈ texts_of value /\
   forall inner, inner ∈ texts_of (YMapping entries) -> weight inner < weight text).
Proof.
  intros Hin Hentries.
  assert (yaml_size element <= yaml_size value /\
          forall inner, inner ∈ texts_of element -> inner ∈ texts_of value) as [Hsize Htexts].
  { destruct value; cbn [child_elements] in Hin; try (apply list_elem_of_singleton in Hin as ->; done).
    - by apply elem_of_nil in Hin.
    - split; [cbn; pose proof (sum_list_with_elem yaml_size _ _ Hin); lia|].
      intros inner. by apply mjoin_map_elem. }
  unfold child_entries in Hentries.
  destruct element; try done; [|by injection Hentries as ->; left].
  destruct (parse_yaml text) as [[]|] eqn:Hp; try done. injection Hentries as ->.
  right. exists text. split; [apply Htexts; left|]. intros inner. by apply (parse_yaml_shrinks text (YMapping entries)).
Qed.

Lemma calls_elem value entries :
  entries ∈ calls (WireYaml value) <->
  exists element, element ∈ child_elements value /\ child_entries element = Some entries.
Proof. unfold calls. by rewrite list_elem_of_omap. Qed.

Lemma from_yaml_settles n size entries :
  yaml_size (YMapping entries) <= size ->
  (forall inner, inner ∈ texts_of (YMapping entries) -> weight inner < n) ->
  exists fuel, settled (finished_ok table) (from_yaml fuel table entries).
Proof.
  revert size entries. induction n as [n IHn] using lt_wf_ind.
  induction size as [|size IHsize]; intros entries Hsize Hweight; [cbn in Hsize; lia|].
  destruct (fuel_for_all (mjoin (map (fun entry => calls (WireYaml (snd entry))) entries)))
    as [fuel Hfuel].
  - intros entries' Hin. apply list_elem_of_join in Hin as (called & Hcall & Hin).
    apply list_elem_of_In, in_map_iff in Hin as ([k value] & <- & Hin%list_elem_of_In).
    apply calls_elem in Hcall as (element & Helement & Hentries). cbn [snd] in Helement.
    assert (yaml_size value <= size) as Hvalue.
    { pose proof (sum_list_with_elem (fun entry => yaml_size (snd entry)) _ _ Hin) as Hs.
      cbn [yaml_size snd] in Hs, Hsize. lia. }
    assert (forall inner, inner ∈ texts_of value -> weight inner < n) as Hinner.
    { intros inner Hi. apply Hweight. by apply (mjoin_map_elem _ (k, value)). }
    destruct (child_entries_shrink _ _ _ Helement Hentries) as [[Hs Ht]|(text & Htext & Ht)].
    + apply IHsize; [lia|]. auto.
    + eapply (IHn (weight text)); [by apply Hinner|reflexivity|exact Ht].
  - exists (S fuel). apply from_yaml_step; [done|done|]. intros entry entries' Hentry Hcall.
    apply Hfuel. by apply (mjoin_map_elem (fun entry => calls (WireYaml (snd entry))) entry).
Qed.

Lemma from_yaml_total entries : exists fuel, settled (finished_ok table) (from_yaml fuel table entries).
Proof.
  apply (from_yaml_settles (S (list_max (weight <$> texts_of (YMapping entries)))) _ _ (le_n _)).
  intros inner Hin.
  pose proof (proj1 (list_max_le (weight <$> texts_of (YMapping entries)) _) (le_n _)) as Hmax.
  rewrite List.Forall_forall in Hmax. apply Nat.lt_succ_r, Hmax, list_elem_of_In.
  by apply list_elem_of_fmap_2.
Qed.

Lemma parse_settles pairs : exists fuel, settled (core_ok table) (parse fuel table pairs).
Proof.
  destruct (fuel_for_all (mjoin (map (fun pair => calls (WireText (snd pair))) pairs))) as [fuel Hfuel].
  - intros. apply from_yaml_total.
  - exists fuel. apply parse_ok; [done|done|]. intros pair entries Hpair Hcall.
    apply Hfuel. by apply (mjoin_map_elem (fun pair => calls (WireText (snd pair))) pair).
Qed.

Lemma from_json_settles text : exists fuel, settled (core_ok table) (from_json fuel table text).
Proof.
  destruct (parse_yaml text) as [value|] eqn:Hp.
  - destruct (fuel_for_all (match value with YMapping entries => [entries] | _ => [] end)) as [fuel Hfuel].
    + intros. apply from_yaml_total.
    + exists fuel. apply from_json_ok. intros entries Hentries. rewrite Hp in Hentries.
      injection Hentries as ->. apply Hfuel. left.
  - exists 0. apply from_json_ok. by rewrite Hp.
Qed.
End settles.

(** ** Theorem *)

(** C10: parsing ends. Given that a string inside a YAML collection weighs less
    than the collection's text, as its length does, every list of wire pairs
    and every serialized filter has a fuel with which its parse ends in a
    filter or a refusal, and any more fuel gives that same result. *)
Theorem parse_terminates `{Crates}
    (speedate_unsigned : forall text positive day second microsecond,
      speedate_duration text = Some (positive, day, second, microsecond) ->
      (0 <= day /\ 0 <= second /\ 0 <= microsecond)%Z)
    (weight : string -> nat)
    (yaml_shrinks : forall text value inner,
      yaml_from_str text = Some value -> inner ∈ inner_texts value -> weight inner < weight text)
    (table : Schema) (pairs : list (string * string)) (text : string) :
  table ∈ SCHEMAS ->
  exists fuel,
    parse fuel table pairs <> Err OutOfFuel /\ from_json fuel table text <> Err OutOfFuel /\
    forall fuel', fuel <= fuel' ->
      parse fuel' table pairs = parse fuel table pairs /\
      from_json fuel' table text = from_json fuel table text.
Proof.
  intros Hin. pose proof schemas_keys_once as Honce. rewrite Forall_forall in Honce.
  destruct (parse_settles speedate_unsigned table (Honce table Hin) weight yaml_shrinks pairs) as [f Hf].
  destruct (from_json_settles speedate_unsigned table (Honce table Hin) weight yaml_shrinks text) as [g Hg].
  assert (forall fuel, f <= fuel -> parse fuel table pairs = parse f table pairs) as Hparse.
  { intros fuel Hle. destruct (parse_more f fuel table pairs Hle) as [Hout|Heq]; [|done].
    by rewrite Hout in Hf. }
  assert (forall fuel, g <= fuel -> from_json fuel table text = from_json g table text) as Hjson.
  { intros fuel Hle. destruct (from_json_more g fuel table text Hle) as [Hout|Heq]; [|done].
    by rewrite Hout in Hg. }
  exists (f `max` g). rewrite (Hparse (f `max` g)), (Hjson (f `max` g)) by lia. split_and!.
  - intros Hout. by rewrite Hout in Hf.
  - intros Hout. by rewrite Hout in Hg.
  - intros fuel' Hle. split; [apply Hparse|apply Hjson]; lia.
Qed.

Lemma sample_shrinks text value inner :
  yaml_from_str (Crates := sample_crates) text = Some value -> inner ∈ inner_texts value ->
  String.length inner < String.length text.
Proof.
  cbn [yaml_from_str sample_crates]. repeat case_decide; [..|done]; subst text; intros [= <-] Hin;
    cbn in Hin; repeat (apply elem_of_cons in Hin as [->|Hin]; [cbn; lia|]); by apply elem_of_nil in Hin.
Qed.

Lemma parse_terminates_witness :
  exists fuel, forall fuel', fuel <= fuel' ->
    @parse sample_crates fuel' (record_schema Logs) sample_pairs =
    @parse sample_crates fuel (record_schema Logs) sample_pairs.
Proof.
  destruct (@parse_terminates sample_crates sample_unsigned String.length sample_shrinks
    (record_schema Logs) sample_pairs "" logs_schema_in) as (fuel & _ & _ & Hall).
  exists fuel. intros fuel' Hle. exact (proj1 (Hall fuel' Hle)).
Defined.

(** * Durations of the suffix grammar

    A whole number and a unit is read exactly, for
    [ceres-database/src/filter.rs]'s [parse_duration]. *)
Local Close Scope ceres_scope.
Local Close Scope nat_scope.
Local Open Scope Z_scope.

(** ** Plain text: digits and small letters *)

Definition plain_char (c : ascii) : bool := is_ascii_digit c || ascii_between "a" "z" c.

Ltac by_bits :=
  match goal with c : ascii |- _ => destruct c as [[] [] [] [] [] [] [] []]; vm_compute; done end.

Lemma plain_lower c : plain_char c = true -> lower_char c = c.
Proof. by_bits. Qed.

Lemma plain_no_space c : plain_char c = true -> Strings.Ascii.eqb c " " = false.
Proof. by_bits. Qed.

Lemma digit_plain c : is_ascii_digit c = true -> plain_char c = true.
Proof. unfold plain_char. by intros ->. Qed.

(** Visible ASCII is left by trimming. *)
Definition ink_char (c : ascii) : bool := ascii_between "!" "~" c.

Lemma plain_ink c : plain_char c = true -> ink_char c = true.
Proof. by_bits. Qed.

Lemma ink_byte c : ink_char c = true -> 33 <= byte_of c < 127.
Proof. by_bits. Qed.

Lemma ink_not_space c text : ink_char c = true -> strip_space (String c text) = None.
Proof.
  intros Hc%ink_byte. unfold strip_space. set (x := byte_of c) in *.
  assert (forall a, 128 <= a -> (x =? a) = false) as Hne by (intros; apply Z.eqb_neq; lia).
  rewrite (proj2 (Z.eqb_neq x 32)), (proj2 (Z.leb_gt x 13)) by lia. rewrite andb_false_r. cbn [orb].
  destruct text as [|b text]; [done|]. rewrite (Hne 194) by lia. cbn [andb].
  destruct text as [|c' text]; [done|]. by rewrite (Hne 225), (Hne 226), (Hne 227) by lia.
Qed.

Lemma ink_trim_start text : str_forall ink_char text = true -> trim_start text = text.
Proof.
  destruct text as [|c text]; [done|]. cbn [str_forall]. intros [Hc _]%andb_true_iff.
  unfold trim_start. cbn [String.length trim_start_fuel]. by rewrite ink_not_space.
Qed.

Lemma ink_blank c text : str_forall ink_char (String c text) = true -> is_blank (String c text) = false.
Proof. intros Hp. unfold is_blank. rewrite ink_trim_start by done. done. Qed.

Lemma ink_trim text : str_forall ink_char text = true -> trim text = text.
Proof.
  intros Hp. unfold trim. rewrite ink_trim_start by done.
  induction text as [|c text IH]; [done|]. cbn [trim_end]. rewrite ink_blank by done.
  f_equal. apply IH. by apply andb_true_iff in Hp as [_ ?].
Qed.

Lemma plain_trim text : str_forall plain_char text = true -> trim text = text.
Proof. intros Hp. apply ink_trim. eapply str_forall_impl; [apply plain_ink|done]. Qed.

Lemma plain_replace text : str_forall plain_char text = true -> replace_char " " "" text = text.
Proof.
  induction text as [|c text IH]; [done|]. cbn [str_forall replace_char].
  intros [Hc Htext]%andb_true_iff. by rewrite plain_no_space, IH.
Qed.

Lemma plain_lowercase text : str_forall plain_char text = true -> to_lowercase text = text.
Proof.
  induction text as [|c text IH]; [done|]. cbn [str_forall to_lowercase].
  intros [Hc Htext]%andb_true_iff. by rewrite plain_lower, IH.
Qed.

(** ** Suffixes *)

Lemma strip_suffix_Some suffix text rest :
  strip_suffix suffix text = Some rest -> text = rest +:+ suffix.
Proof.
  revert rest. induction text as [|c text IH]; intros rest; cbn [strip_suffix]; case_decide as Heq.
  - intros [= <-]. by subst.
  - done.
  - intros [= <-]. by subst.
  - destruct (strip_suffix suffix text) as [held|]; [|done]. intros [= <-].
    by rewrite (IH held).
Qed.

Lemma str_app_length (a b : string) : String.length (a +:+ b) = (String.length a + String.length b)%nat.
Proof. induction a as [|c a IH]; [done|]. rewrite str_app_cons. cbn. by rewrite IH. Qed.

Lemma strip_suffix_app rest suffix : strip_suffix suffix (rest +:+ suffix) = Some rest.
Proof.
  induction rest as [|c rest IH].
  - rewrite str_app_nil. destruct suffix; cbn [strip_suffix]; by rewrite decide_True.
  - rewrite str_app_cons. cbn [strip_suffix]. rewrite decide_False, IH; [done|].
    intros Heq%(f_equal String.length). cbn in Heq. rewrite str_app_length in Heq. lia.
Qed.

Definition all_digits (text : string) : Prop := str_forall is_ascii_digit text = true.

Lemma all_digits_app a b : all_digits (a +:+ b) -> all_digits b.
Proof. unfold all_digits. rewrite str_forall_app. by intros [_ ?]%andb_true_iff. Qed.

(** The last character decides. *)
Fixpoint last_char (text : string) : option ascii :=
  match text with
  | EmptyString => None
  | String c EmptyString => Some c
  | String _ text => last_char text
  end.

Lemma last_char_app a c b : last_char (a +:+ String c b) = last_char (String c b).
Proof.
  induction a as [|x a IH]; [done|]. rewrite str_app_cons.
  destruct a as [|y a]; [done|]. exact IH.
Qed.

Lemma strip_suffix_last suffix text c d :
  last_char suffix = Some c -> last_char text = Some d -> c <> d -> strip_suffix suffix text = None.
Proof.
  intros Hc Hd Hne. destruct (strip_suffix suffix text) as [rest|] eqn:Hs; [|done].
  apply strip_suffix_Some in Hs as ->. destruct suffix as [|x suffix]; [done|].
  rewrite last_char_app in Hd. congruence.
Qed.

Lemma all_digits_last number c : all_digits number -> last_char number = Some c -> is_ascii_digit c = true.
Proof.
  unfold all_digits. induction number as [|x number IH]; [done|]. cbn [str_forall].
  intros [Hx Hn]%andb_true_iff. destruct number as [|y number]; [by intros [= <-]|]. by apply IH.
Qed.

(** ** Units *)

(** Suffixes and the microseconds of their units. *)
Definition units : list (string * Z) :=
  [("us", 1); ("ms", 1000); ("s", 1000000); ("m", 60000000); ("h", 3600000000);
   ("d", 86400000000); ("", 1000000)].

(** Another character where a suffix would start. *)
Lemma strip_suffix_before x suffix text :
  last_char text <> Some x -> strip_suffix (String x suffix) (text +:+ suffix) = None.
Proof.
  intros Hx. destruct (strip_suffix _ _) as [rest|] eqn:Hs; [|done].
  apply strip_suffix_Some in Hs. destruct Hx.
  assert (text +:+ suffix = (rest +:+ String x "") +:+ suffix) as Heq
    by (rewrite str_app_assoc, str_app_cons, str_app_nil; done).
  pose proof (strip_suffix_app text suffix) as Htext. rewrite Heq, strip_suffix_app in Htext.
  injection Htext as <-. apply last_char_app.
Qed.

Lemma last_char_Some c text : is_Some (last_char (String c text)).
Proof. revert c. induction text as [|d text IH]; intros c; [by eexists|]. apply (IH d). Qed.

Lemma strip_suffix_other suffix c text d :
  last_char suffix = Some c -> last_char text = Some d -> Strings.Ascii.eqb c d = false ->
  strip_suffix suffix text = None.
Proof.
  intros Hc Hd Hne. eapply strip_suffix_last; [done|done|]. intros ->.
  by rewrite Strings.Ascii.eqb_refl in Hne.
Qed.

Lemma suffix_scale_unit number suffix scale :
  number <> "" -> all_digits number -> (suffix, scale) ∈ units ->
  suffix_scale (number +:+ suffix) = (number, scale).
Proof.
  intros Hne Hn Hunit.
  assert (exists c, last_char number = Some c /\ is_ascii_digit c = true) as (c & Hc & Hdigit).
  { destruct number as [|x number]; [done|]. destruct (last_char_Some x number) as [c Hc].
    exists c. split; [done|]. by eapply all_digits_last. }
  assert (forall x, is_ascii_digit x = false -> last_char number <> Some x) as Hlast
    by (intros x Hx Heq; congruence).
  assert (forall x, is_ascii_digit x = false -> Strings.Ascii.eqb x c = false) as Hnot.
  { intros x Hx. apply Strings.Ascii.eqb_neq. intros ->. congruence. }
  assert (forall suffix' d e, last_char suffix' = Some d ->
    Strings.Ascii.eqb d e = false -> strip_suffix suffix' (number +:+ String e "") = None) as Hend.
  { intros suffix' d e Hd Hde. apply (strip_suffix_other _ d _ e); [done| |done].
    exact (last_char_app number e ""). }
  assert (forall suffix' d, last_char suffix' = Some d -> is_ascii_digit d = false ->
    strip_suffix suffix' number = None) as Hbare.
  { intros suffix' d Hd Hx. eapply strip_suffix_other; [done|done|]. by apply Hnot. }
  unfold suffix_scale, units in *.
  apply elem_of_cons in Hunit as [[= -> ->]|Hunit]; [by rewrite strip_suffix_app|].
  apply elem_of_cons in Hunit as [[= -> ->]|Hunit].
  { rewrite strip_suffix_app. replace (number +:+ "ms") with ((number +:+ "m") +:+ "s")
      by (by rewrite str_app_assoc, str_app_cons, str_app_nil).
    by rewrite strip_suffix_before by (rewrite last_char_app; done). }
  apply elem_of_cons in Hunit as [[= -> ->]|Hunit].
  { by rewrite !strip_suffix_before, strip_suffix_app by (by apply Hlast). }
  apply elem_of_cons in Hunit as [[= -> ->]|Hunit].
  { by rewrite (Hend "us" "s"%char), (Hend "ms" "s"%char), (Hend "s" "s"%char), strip_suffix_app. }
  apply elem_of_cons in Hunit as [[= -> ->]|Hunit].
  { by rewrite (Hend "us" "s"%char), (Hend "ms" "s"%char), (Hend "s" "s"%char), (Hend "m" "m"%char),
      strip_suffix_app. }
  apply elem_of_cons in Hunit as [[= -> ->]|Hunit].
  { by rewrite (Hend "us" "s"%char), (Hend "ms" "s"%char), (Hend "s" "s"%char), (Hend "m" "m"%char),
      (Hend "h" "h"%char), strip_suffix_app. }
  apply elem_of_cons in Hunit as [[= -> ->]|Hunit]; [|by apply elem_of_nil in Hunit].
  rewrite str_app_nil_r.
  by rewrite (Hbare "us" "s"%char), (Hbare "ms" "s"%char), (Hbare "s" "s"%char), (Hbare "m" "m"%char),
    (Hbare "h" "h"%char), (Hbare "d" "d"%char).
Qed.

Lemma digits_value_digits text value n : digits_value text value = Some n -> all_digits text.
Proof.
  unfold all_digits. revert value. induction text as [|c text IH]; intros value; [done|].
  cbn [digits_value str_forall]. destruct (is_ascii_digit c); [apply IH|done].
Qed.

Lemma unit_plain suffix scale : (suffix, scale) ∈ units -> str_forall plain_char suffix = true /\ 0 < scale.
Proof.
  unfold units. intros Hunit.
  repeat (apply elem_of_cons in Hunit as [[= -> ->]|Hunit]; [done|]). by apply elem_of_nil in Hunit.
Qed.

(** A whole number with a unit, or bare and so of seconds, that the
    duration crate does not take is read as exactly that many nanoseconds, as
    long as its microseconds stay below 2^53. *)
Theorem suffix_durations_exact `{Crates} (number suffix : string) (n scale : Z) :
  number <> "" -> digits_value number 0 = Some n -> (suffix, scale) ∈ units ->
  n * scale < 2 ^ 53 -> speedate_duration (number +:+ suffix) = None ->
  parse_duration (number +:+ suffix) = Ok (n * scale * 1000).
Proof.
  intros Hne Hn Hunit Hlt Hcrate. unfold parse_duration. rewrite Hcrate.
  destruct (unit_plain _ _ Hunit) as [Hsuffix Hscale].
  pose proof (digits_value_digits _ _ _ Hn) as Hdigits.
  assert (str_forall plain_char (number +:+ suffix) = true) as Hplain.
  { rewrite str_forall_app. apply andb_true_iff. split; [|done].
    eapply str_forall_impl; [|exact Hdigits]. apply digit_plain. }
  rewrite plain_trim, plain_replace, plain_lowercase, (suffix_scale_unit _ _ scale) by done.
  rewrite bool_decide_eq_false_2 by done.
  by rewrite (scaled_micros_exact _ n scale) by done.
Qed.

Lemma suffix_durations_exact_witness :
  exists crates, @parse_duration crates "15m" = Ok (15 * 60000000 * 1000).
Proof.
  exists {| crates_email := {| nfc := id; parse_email := fun _ => None;
              domain_to_unicode := fun domain => (domain, true); alphabetic := fun _ => true;
              lowercase := id |};
     debug := id; yaml_from_str := fun _ => None; yaml_as_str := fun _ => None;
     json_from_yaml := fun _ => None; json_to_string := fun _ => None; uuid_parse := fun _ => None;
     speedate_datetime := fun _ => None; speedate_date := fun _ => None;
     speedate_duration := fun _ => None; from_timestamp_micros := fun _ => None;
     midnight := fun _ _ _ => None |}.
  change "15m" with ("15" +:+ "m").
  apply (suffix_durations_exact "15" "m" 15 60000000); [done|reflexivity| |reflexivity|reflexivity].
  unfold units. set_solver.
Defined.
