(* ===== verification/FilterMatch.v ===== *)
(** * Matching one record in memory

    [matches] of [ceres-database/src/filter.rs] and what it calls. A record is
    the raw JSON of its fields. [None] is a panic: [chrono]'s arithmetic panics
    on an instant it cannot hold, and the selector's on a modifier that
    validation does not admit. *)
From S2P Require Import Prelude.
From stdpp Require Import gmap.
From S2P Require Import Text Wire Sql Selector Schema FilterParse.
Local Open Scope string_scope.
Local Open Scope list_scope.
Local Open Scope Z_scope.

(** [serde_json], [chrono] and [str]'s Unicode lowering: [json_compact] parses
    a value and writes it without spaces, [rfc3339] and [timestamp_text] read
    and write an instant, and an instant is held from [instant_min] to
    [instant_max]. *)
Class Codecs := {
  json_string : string -> option string;
  json_bool : string -> option bool;
  json_compact : string -> option string;
  rfc3339 : string -> option Z;
  timestamp_text : Z -> string;
  unicode_lower : string -> string;
  instant_min : Z;
  instant_max : Z
}.

(** ** Conjunctions and disjunctions that stop early *)

Section lazily.
Context {A : Type} (test : A -> option bool).

(** [Iterator::all] and [any]. *)
Fixpoint all_opt (l : list A) : option bool :=
  match l with
  | [] => Some true
  | a :: l => match test a with Some true => all_opt l | other => other end
  end.

Fixpoint any_opt (l : list A) : option bool :=
  match l with
  | [] => Some false
  | a :: l => match test a with Some false => any_opt l | other => other end
  end.
End lazily.

(** A condition and then, where it holds, the rest. *)
Definition and_then (first rest : option bool) : option bool :=
  match first with Some true => rest | other => other end.

(** ** Time *)

Section time.
Context `{Codecs}.

(** Adding a duration to an instant, or panicking. *)
Definition instant (at_ : Z) : option Z :=
  if (instant_min <=? at_) && (at_ <=? instant_max) then Some at_ else None.

(** [resolve_now]; [clock] is the wall clock. *)
Definition resolve_now (clock : Z) (now : option Z) : Z := default clock now / 1000 * 1000.

(** [FilterNode::timespan_bounds]. *)
Definition timespan_bounds (own : FilterConditions) (now : Z) : option (option Z * option Z) :=
  match timespan own with
  | None => Some (None, None)
  | Some span =>
      match after own, before own with
      | Some start, _ => end_ ← instant (start + span); Some (None, Some end_)
      | None, Some end_ => start ← instant (end_ - span); Some (Some start, None)
      | None, None => start ← instant (now - span); Some (Some start, Some now)
      end
  end.

(** [clock_window]. *)
Definition clock_window (after before : option Z) (span : Z) : option (Z * Z * bool) :=
  match after, before with
  | None, None => None
  | _, _ =>
      let minimum := default 0 after in
      let maximum := default span before in
      Some (minimum, maximum, minimum <=? maximum)
  end.

(** [Timelike::hour] and [minute] of a time in UTC. *)
Definition hour (stamp : Z) : Z := stamp / 3600000000000 mod 24.
Definition minute (stamp : Z) : Z := stamp / 60000000000 mod 60.

(** One time-of-day window, in [timestamp_matches]. *)
Definition clock_held (after before : option Z) (span value : Z) : bool :=
  match clock_window after before span with
  | None => true
  | Some (minimum, maximum, contiguous) =>
      if contiguous : bool then (minimum <=? value) && (value <? maximum)
      else (minimum <=? value) || (value <? maximum)
  end.

(** [FilterNode::timestamp_matches]. *)
Definition timestamp_matches (own : FilterConditions) (stamp now : Z) : option bool :=
  and_then (Some (match after own with Some after => after <=? stamp | None => true end))
  (and_then (Some (match before own with Some before => stamp <? before | None => true end))
  (bounds ← timespan_bounds own now;
   let '(span_start, span_end) := bounds in
   and_then (Some (match span_start with Some start => start <=? stamp | None => true end))
   (and_then (Some (match span_end with Some end_ => stamp <? end_ | None => true end))
   (and_then (match max_age own with
              | Some age => oldest ← instant (now - age); Some (oldest <? stamp)
              | None => Some true
              end)
   (and_then (match min_age own with
              | Some age => newest ← instant (now - age); Some (stamp <=? newest)
              | None => Some true
              end)
   (Some (clock_held (after_hour own) (before_hour own) 24 (hour stamp) &&
          clock_held (after_minute own) (before_minute own) 60 (minute stamp)))))))).

(** [FilterNode::needs_timestamp]. *)
Definition needs_timestamp (own : FilterConditions) : bool :=
  bool_decide (is_Some (after own)) || bool_decide (is_Some (before own)) ||
  bool_decide (is_Some (timespan own)) || bool_decide (is_Some (max_age own)) ||
  bool_decide (is_Some (min_age own)) || bool_decide (is_Some (after_hour own)) ||
  bool_decide (is_Some (before_hour own)) || bool_decide (is_Some (after_minute own)) ||
  bool_decide (is_Some (before_minute own)).
End time.

(** ** Text and bytes *)

(** [text_matches]. *)
Definition text_matches (value : string) (kind : OperationKind) (pattern : string) : bool :=
  match kind with
  | Contains => str_contains pattern value
  | Prefix => str_starts_with pattern value
  | Suffix => str_ends_with pattern value
  end.

(** [slice::starts_with], [ends_with] and [windows]. *)
Definition bytes_start (pattern value : list Z) : bool :=
  bool_decide (take (length pattern) value = pattern).
Definition bytes_end (pattern value : list Z) : bool :=
  (length pattern <=? length value)%nat &&
  bool_decide (drop (length value - length pattern) value = pattern).
Fixpoint bytes_within (pattern value : list Z) : bool :=
  bytes_start pattern value ||
  match value with [] => false | _ :: value => bytes_within pattern value end.

(** [bytes_match]. *)
Definition bytes_match (value : list Z) (kind : OperationKind) (pattern : list Z) : bool :=
  match kind with
  | Contains => bool_decide (pattern = []) || bytes_within pattern value
  | Prefix => bytes_start pattern value
  | Suffix => bytes_end pattern value
  end.

Section matching.
Context `{Codecs}.

(** [fold]. *)
Definition fold (text : string) (insensitive : bool) : string :=
  if insensitive then unicode_lower text else text.

(** [holds] of a computed predicate's shape. *)
Definition shape_holds (shape : Shape) (raw : string) : bool :=
  match shape with
  | Internal =>
      match json_string raw with
      | Some name => str_starts_with "__" name && str_ends_with "__" name
      | None => false
      end
  | Literal wanted => bool_decide (json_string raw = Some wanted)
  | Present => negb (bool_decide (raw = "null"))
  end.

(** [record_timestamp]. *)
Definition record_timestamp (text : option string) : option Z := text ≫= rfc3339.

(** [FilterNode::values_of]. *)
Definition values_of (own : FilterConditions) (field : FilterField) : option HeldValues :=
  snd <$> find (fun entry => bool_decide (fst entry = key field)) (equalities own).

(** Whether a field holds one of its equality's values, in [matches_own]. *)
Definition values_held (values : HeldValues) (family : FieldFamily) (raw text : option string) :
    bool :=
  match values, family with
  | Uuids ids, _ => match text with Some text => bool_decide (text ∈ ids) | None => false end
  | Stamps stamps, _ =>
      match record_timestamp text with Some stamp => bool_decide (stamp ∈ stamps) | None => false end
  | ByteValues patterns, _ =>
      match text with Some text => bool_decide (latin1_encode text ∈ patterns) | None => false end
  | Texts texts, JsonValue =>
      match raw ≫= json_compact with Some held => bool_decide (held ∈ texts) | None => false end
  | Texts texts, _ =>
      match text with Some text => bool_decide (text ∈ texts) | None => false end
  | BooleanValue wanted, _ => bool_decide (raw ≫= json_bool = Some wanted)
  end.

(** The patterns held for one of a field's operations. *)
Definition operation_of (own : FilterConditions) (field : FilterField) (operation : FieldOperation) :
    option OperationFilter :=
  find (fun candidate =>
    bool_decide (key (of_field candidate) = key field /\ of_kind candidate = kind operation))
    (operation_filters own).

(** Whether a field's content passes one of its operations, in [matches_own]. *)
Definition operation_held (own : FilterConditions) (field : FilterField) (raw text : option string)
    (operation : FieldOperation) : bool :=
  match operation_of own field operation with
  | None => true
  | Some held =>
      match of_values held with
      | Texts patterns =>
          match (if decide (family field = Json) then raw else text) with
          | Some subject =>
              existsb (fun pattern =>
                text_matches (fold subject (insensitive operation)) (of_kind held)
                  (fold pattern (insensitive operation))) patterns
          | None => false
          end
      | ByteValues patterns =>
          match text with
          | Some text => existsb (bytes_match (latin1_encode text) (of_kind held)) patterns
          | None => false
          end
      | _ => false
      end
  end.

(** The bounds of a level, in [matches_own]. *)
Definition level_held (own : FilterConditions) (text : option string) : bool :=
  let position := text ≫= level_position in
  match min_level own with
  | Some minimum => match position with Some position => (minimum <=? position)%nat | None => false end
  | None => true
  end &&
  match max_level own with
  | Some maximum => match position with Some position => (position <=? maximum)%nat | None => false end
  | None => true
  end.

Definition Record_ : Type := gmap string string.

(** One turn of [matches_own]'s loop over the fields. *)
Definition field_matches (own : FilterConditions) (record : Record_) (now : Z) (field : FilterField) :
    option bool :=
  let raw := record !! key field in
  let text := raw ≫= json_string in
  and_then (Some (match values_of own field with
                  | Some values => values_held values (family field) raw text
                  | None => true
                  end))
  (and_then (match family field, address own with
             | Address, Some selector =>
                 match text with
                 | Some text => Selector.matches selector text (root own)
                 | None => Some false
                 end
             | _, _ => Some true
             end)
  (and_then (Some (forallb (operation_held own field raw text) (operations field)))
  (match family field with
   | Timestamp =>
       match record_timestamp text with
       | None => Some (negb (needs_timestamp own))
       | Some stamp => timestamp_matches own stamp now
       end
   | Level => Some (level_held own text)
   | _ => Some true
   end))).

(** A computed predicate of the record. *)
Definition computed_held (record : Record_) (entry : Computed * bool) : bool :=
  let '(predicate, sense) := entry in
  let held := match record !! computed_column predicate with
              | Some raw => shape_holds (shape predicate) raw
              | None => false
              end in
  Bool.eqb held sense.

(** [FilterNode::matches_own]. *)
Definition matches_own (table : Schema) (own : FilterConditions) (record : Record_) (now : Z) :
    option bool :=
  if impossible own then Some false
  else if negb (forallb (computed_held record) (computed_filters own)) then Some false
  else all_opt (field_matches own record now) (fields table).

(** [FilterNode::matches]. *)
Fixpoint node_matches (table : Schema) (record : Record_) (now : Z) (self : FilterNode) :
    option bool :=
  match self with
  | Node own ands ors =>
      match and_then (matches_own table own record now) (all_opt (node_matches table record now) ands) with
      | Some false => any_opt (node_matches table record now) ors
      | other => other
      end
  end.

(** [FilterCore::matches], of a record read already. *)
Definition core_matches (self : FilterCore) (record : Record_) (clock : Z) (now : option Z) :
    option bool :=
  node_matches (schema self) record (resolve_now clock now) (node self).
End matching.
