(* ===== verification/FilterCompile.v ===== *)
(** * Compiling a filter to statements

    The back half of [ceres-database/src/filter.rs]: a node's conditions and the
    listing, count, existence, delete and update statements over them, as the
    trees the code builds. [None] is a panic.

    The parts after this one: the statements of a filter. *)
From S2P Require Import Prelude.
From stdpp Require Import pretty.
From S2P Require Import Text Sql Selector Schema Wire FilterParse FilterMatch.
Local Open Scope string_scope.
Local Open Scope list_scope.
Local Open Scope Z_scope.

(** ** Values and joins *)

(** [all_of], [None] of no condition. *)
Definition all_of (conditions : list Expr) : option Expr := reduce expr_and conditions.

(** [match_values]. *)
Definition match_values (column : Expr) (values : list SqlValue) : Expr :=
  match values with [value] => expr_eq column value | _ => IsIn column values end.

(** [id_value]. *)
Definition id_value (id : string) (dialect : SqlDialect) : SqlValue :=
  match dialect with SqliteText => ValText id | Postgres => ValUuid id end.

(** ** Patterns *)

(** [with_wildcards]. *)
Definition with_wildcards (text : string) (kind : OperationKind) (wildcard : ascii) : string :=
  match kind with
  | Contains => String wildcard (text +:+ String wildcard "")
  | Prefix => text +:+ String wildcard ""
  | Suffix => String wildcard text
  end.

(** [tokenize_bytes]. *)
Fixpoint tokenize_bytes (value : list Z) : string :=
  match value with
  | [] => ""
  | byte :: value =>
      String (hex_digit (byte / 16)) (String (hex_digit (byte mod 16)) "") +:+ " " +:+
      tokenize_bytes value
  end.

(** One pattern's condition, in [match_text_patterns]. *)
Definition text_pattern (subject : Expr) (kind : OperationKind) (dialect : SqlDialect)
    (insensitive : bool) (pattern : string) : Expr :=
  let escaped := with_wildcards (like_escape pattern) kind "%" in
  match dialect, insensitive with
  | SqliteText, true => Cust "lower(?) LIKE lower(?) ESCAPE '^'" [subject; Lit (ValText escaped)]
  | Postgres, true => Cust "$1 ILIKE $2 ESCAPE '^'" [subject; Lit (ValText escaped)]
  | SqliteText, false => expr_glob subject (with_wildcards (glob_escape pattern) kind "*")
  | Postgres, false => Like subject escaped (Some "^"%char)
  end.

(** [match_text_patterns]. *)
Definition match_text_patterns (subject : Expr) (kind : OperationKind) (patterns : list string)
    (dialect : SqlDialect) (insensitive : bool) : option Expr :=
  if forallb (fun pattern => bool_decide (pattern = "")) patterns then Some (Lit (ValBool true))
  else reduce expr_or (map (text_pattern subject kind dialect insensitive) patterns).

(** One pattern's condition, in [match_bytes_patterns]. *)
Definition bytes_pattern (key : string) (kind : OperationKind) (dialect : SqlDialect)
    (pattern : list Z) : Expr :=
  if bool_decide (pattern = []) then Lit (ValBool true)
  else
    let column := Col key in
    let needle := Lit (ValBytes pattern) in
    let count := Z.of_nat (length pattern) in
    match dialect with
    | SqliteText =>
        match kind with
        | Contains => Binary OpGt (Func "instr" [column; needle]) (Lit (ValInt 0))
        | Prefix => Binary OpEq (Func "substr" [column; Lit (ValInt 1); Lit (ValInt count)]) needle
        | Suffix => Binary OpEq (Func "substr" [column; Lit (ValInt (- count))]) needle
        end
    | Postgres =>
        Like (Func "ceres_tokenize_bytes" [column])
          (with_wildcards (like_escape (tokenize_bytes pattern)) kind "%") (Some "^"%char)
    end.

(** [match_bytes_patterns]. *)
Definition match_bytes_patterns (key : string) (kind : OperationKind) (patterns : list (list Z))
    (dialect : SqlDialect) : Expr :=
  default (Lit (ValBool false)) (reduce expr_or (map (bytes_pattern key kind dialect) patterns)).

(** [shape_condition]. *)
Definition shape_condition (predicate : Computed) (dialect : SqlDialect) : option Expr :=
  let column := Col (computed_column predicate) in
  match shape predicate with
  | Internal =>
      opens ← match_text_patterns column Prefix ["__"] dialect false;
      closes ← match_text_patterns column Suffix ["__"] dialect false;
      Some (expr_and opens closes)
  | Literal wanted => Some (expr_eq column (ValText wanted))
  | Present => Some (IsNotNull column)
  end.

(** ** Time *)

(** [divide_rounding_half_even], with Euclidean division. *)
Definition div_euclid (a b : Z) : Z := if 0 <? b then a / b else - (a / - b).
Definition rem_euclid (a b : Z) : Z := a mod Z.abs b.

Definition divide_rounding_half_even (total divisor : Z) : Z :=
  let quotient := div_euclid total divisor in
  let remainder := rem_euclid total divisor in
  let doubled := i64 (remainder * 2) in
  if (divisor <? doubled) || ((doubled =? divisor) && Z.odd quotient) then i64 (quotient + 1)
  else quotient.

(** [Duration::num_microseconds]. *)
Definition num_microseconds (span : Z) : option Z :=
  let micros := Z.quot span 1000 in
  if (i64_min <=? micros) && (micros <=? i64_max) then Some micros else None.

Section compile.
Context `{Codecs}.

(** [timestamp_value]. *)
Definition timestamp_value (stamp : Z) (dialect : SqlDialect) : SqlValue :=
  match dialect with SqliteText => ValText (timestamp_text stamp) | Postgres => ValTimestamp stamp end.

(** [clock_part]. *)
Definition clock_part (key part format : string) (dialect : SqlDialect) : Expr :=
  match dialect with
  | SqliteText => Cast (Func "strftime" [Lit (ValText format); Col key]) "INTEGER"
  | Postgres => Cust ("date_part('" +:+ part +:+ "', $1 AT TIME ZONE 'UTC')") [Col key]
  end.

(** One window's conditions, in [clock_conditions]. *)
Definition clock_condition (key : string) (dialect : SqlDialect) (after before : option Z) (span : Z)
    (part format : string) : list Expr :=
  match clock_window after before span with
  | None => []
  | Some (minimum, maximum, contiguous) =>
      let value := clock_part key part format dialect in
      let within_minimum := Binary OpGte value (Lit (ValInt minimum)) in
      let within_maximum := Binary OpLt value (Lit (ValInt maximum)) in
      [if contiguous : bool then expr_and within_minimum within_maximum
       else expr_or within_minimum within_maximum]
  end.

(** [FilterNode::clock_conditions]. *)
Definition clock_conditions (own : FilterConditions) (key : string) (dialect : SqlDialect) :
    list Expr :=
  clock_condition key dialect (after_hour own) (before_hour own) 24 "hour" "%H" ++
  clock_condition key dialect (after_minute own) (before_minute own) 60 "minute" "%M".

(** A bound that is set, as a condition. *)
Definition bound (op : BinOper) (column : Expr) (dialect : SqlDialect) (at_ : option Z) : list Expr :=
  match at_ with Some at_ => [Binary op column (Lit (timestamp_value at_ dialect))] | None => [] end.

(** [now - age], of an age that is set. *)
Definition aged (now : Z) (age : option Z) : option (option Z) :=
  match age with Some age => at_ ← instant (now - age); Some (Some at_) | None => Some None end.

(** [FilterNode::window_conditions]. *)
Definition window_conditions (own : FilterConditions) (column : Expr) (now : Z)
    (dialect : SqlDialect) : option (list Expr) :=
  bounds ← timespan_bounds own now;
  oldest ← aged now (max_age own);
  newest ← aged now (min_age own);
  Some (bound OpGte column dialect (after own) ++ bound OpLt column dialect (before own) ++
        bound OpGte column dialect (fst bounds) ++ bound OpLt column dialect (snd bounds) ++
        bound OpGt column dialect oldest ++ bound OpLte column dialect newest).

(** [FilterNode::time_bounds]: the latest start and the earliest end. *)
Definition time_bounds (own : FilterConditions) (now : Z) : option (option Z * option Z) :=
  bounds ← timespan_bounds own now;
  oldest ← aged now (max_age own);
  newest ← aged now (min_age own);
  Some (reduce Z.max (omap id [after own; fst bounds; oldest]),
        reduce Z.min (omap id [before own; snd bounds; newest])).

(** [bucket_expression]. *)
Definition bucket_expression (key : string) (origin width : Z) (dialect : SqlDialect) : Expr :=
  match dialect with
  | Postgres =>
      Cust ("date_bin(INTERVAL '" +:+ pretty width +:+ " microseconds', $1, TIMESTAMPTZ '" +:+
            timestamp_text origin +:+ "+00')") [Col key]
  | SqliteText =>
      let origin_seconds := origin / 1000000000 in
      let origin_microseconds := origin mod 1000000000 / 1000 in
      Cust ("CAST(floor(((unixepoch(?) - " +:+ pretty origin_seconds +:+
            ") * 1000000.0 + (CAST(substr(substr(?, 20) || '.000000', 2, 6) AS INTEGER) - " +:+
            pretty origin_microseconds +:+ ")) / " +:+ pretty width +:+ ") AS INTEGER)")
        [Col key; Col key]
  end.

(** [Schema::bucket_condition]. *)
Definition bucket_condition (table : Schema) (key : string) (origin width : Z)
    (start end_ : option Z) (select : SubsampleSelect) (dialect : SqlDialect) : Expr :=
  let kept := Func (match select with First => "MIN" | Last => "MAX" end) [Col key] in
  InQuery [Col key]
    (MkSelect [kept] (Table (schema_name table))
       (bound OpGte (Col key) dialect start ++ bound OpLt (Col key) dialect end_)
       [bucket_expression key origin width dialect] [] None None).

(** Midnight of an instant's day. *)
Definition day_start (now : Z) : Z := now / 86400000000000 * 86400000000000.

(** [FilterNode::subsample_conditions]. *)
Definition subsample_conditions (own : FilterConditions) (table : Schema) (key : string) (now : Z)
    (dialect : SqlDialect) : option (list Expr) :=
  match subsample_every own, subsample own with
  | None, None => Some []
  | every, count =>
      bounds ← time_bounds own now;
      let '(start, end_) := bounds in
      let select := default First (subsample_select own) in
      by_width ← match every with
                 | Some every =>
                     width ← num_microseconds every;
                     Some [bucket_condition table key (default (day_start now) start)
                             (Z.max width 1) start end_ select dialect]
                 | None => Some []
                 end;
      let by_count :=
        match count, start, end_ with
        | Some count, Some start, Some end_ =>
            let total := default 0 (num_microseconds (end_ - start)) in
            let width := Z.max (divide_rounding_half_even total (i64 (Z.max count 1))) 1 in
            [bucket_condition table key start width (Some start) (Some end_) select dialect]
        | _, _, _ => []
        end in
      Some (by_width ++ by_count)
  end.

(** ** A node's conditions *)

(** A field's equality. *)
Definition equality_condition (field : FilterField) (values : HeldValues) (dialect : SqlDialect) :
    Expr :=
  let column := Col (key field) in
  match values, family field with
  | Texts texts, JsonValue => match_values (Cast column "TEXT") (ValText <$> texts)
  | Uuids ids, _ => match_values column ((fun id => id_value id dialect) <$> ids)
  | Texts texts, _ => match_values column (ValText <$> texts)
  | Stamps stamps, _ => match_values column ((fun stamp => timestamp_value stamp dialect) <$> stamps)
  | ByteValues patterns, _ => match_values column (ValBytes <$> patterns)
  | BooleanValue wanted, _ => expr_eq column (ValBool wanted)
  end.

(** One operation's condition, in [operation_conditions]. *)
Definition operation_condition (own : FilterConditions) (field : FilterField) (dialect : SqlDialect)
    (operation : FieldOperation) : option (list Expr) :=
  match operation_of own field operation with
  | None => Some []
  | Some held =>
      match of_values held with
      | Texts patterns =>
          let column := Col (key field) in
          let subject := if decide (family field = Json) then Cast column "TEXT" else column in
          condition ← match_text_patterns subject (of_kind held) patterns dialect
                        (insensitive operation);
          Some [condition]
      | ByteValues patterns => Some [match_bytes_patterns (key field) (of_kind held) patterns dialect]
      | _ => None
      end
  end.

(** [FilterNode::operation_conditions]. *)
Definition operation_conditions (own : FilterConditions) (field : FilterField)
    (dialect : SqlDialect) : option (list Expr) :=
  mjoin <$> mapM (operation_condition own field dialect) (operations field).

(** The levels from a minimum, or up to a maximum; out of range panics. *)
Definition level_condition (column : Expr) (levels : option (list string)) : option (list Expr) :=
  levels ← levels; Some [IsIn column (ValText <$> levels)].

Definition levels_from (minimum : nat) : option (list string) :=
  if (minimum <=? length LEVEL_VALUES)%nat then Some (drop minimum LEVEL_VALUES) else None.
Definition levels_to (maximum : nat) : option (list string) :=
  if (S maximum <=? length LEVEL_VALUES)%nat then Some (take (S maximum) LEVEL_VALUES) else None.

(** One turn of [conditions_with_address]'s loop over the fields. *)
Definition field_conditions (own : FilterConditions) (table : Schema) (dialect : SqlDialect) (now : Z)
    (with_address : bool) (field : FilterField) : option (list Expr) :=
  let column := Col (key field) in
  let equality := match values_of own field with
                  | Some values => [equality_condition field values dialect]
                  | None => []
                  end in
  operations ← operation_conditions own field dialect;
  selected ← match family field, address own with
             | Address, Some selector =>
                 if with_address then
                   condition ← condition selector (key field) (root own) dialect; Some [condition]
                 else Some []
             | _, _ => Some []
             end;
  by_family ← match family field with
              | Timestamp =>
                  windows ← window_conditions own column now dialect;
                  subsampled ← subsample_conditions own table (key field) now dialect;
                  Some (windows ++ subsampled ++ clock_conditions own (key field) dialect)
              | Level =>
                  lowest ← match min_level own with
                           | Some minimum => level_condition column (levels_from minimum)
                           | None => Some []
                           end;
                  highest ← match max_level own with
                            | Some maximum => level_condition column (levels_to maximum)
                            | None => Some []
                            end;
                  Some (lowest ++ highest)
              | _ => Some []
              end;
  Some (equality ++ operations ++ selected ++ by_family).

(** One computed predicate's condition. *)
Definition computed_condition (dialect : SqlDialect) (entry : Computed * bool) : option Expr :=
  condition ← shape_condition (fst entry) dialect;
  Some (if snd entry : bool then condition else Not condition).

(** [FilterNode::conditions_with_address]. *)
Definition conditions_with_address (own : FilterConditions) (table : Schema) (dialect : SqlDialect)
    (now : Z) (with_address : bool) : option (list Expr) :=
  let impossible := if impossible own then [Lit (ValBool false)] else [] in
  computed ← mapM (computed_condition dialect) (computed_filters own);
  by_field ← mapM (field_conditions own table dialect now with_address) (fields table);
  Some (impossible ++ computed ++ mjoin by_field).

(** [FilterNode::combined_conditions_with_address] and [combined_conditions]. *)
Definition join_groups (ands : list Expr) (ors : list (list Expr)) : option (list Expr) :=
  match ors with
  | [] => Some ands
  | _ =>
      let own := match all_of ands with Some condition => [condition] | None => [] end in
      let grouped := (fun conditions => default (Lit (ValBool true)) (all_of conditions)) <$> ors in
      condition ← reduce expr_or (own ++ grouped);
      Some [condition]
  end.

Fixpoint combined_conditions (table : Schema) (dialect : SqlDialect) (now : Z) (self : FilterNode) :
    option (list Expr) :=
  match self with
  | Node own and_children or_children =>
      held ← conditions_with_address own table dialect now true;
      ands ← mapM (combined_conditions table dialect now) and_children;
      ors ← mapM (combined_conditions table dialect now) or_children;
      join_groups (held ++ mjoin ands) ors
  end.

Definition combined_conditions_with_address (table : Schema) (dialect : SqlDialect) (now : Z)
    (with_address : bool) (self : FilterNode) : option (list Expr) :=
  match self with
  | Node own and_children or_children =>
      held ← conditions_with_address own table dialect now with_address;
      ands ← mapM (combined_conditions table dialect now) and_children;
      ors ← mapM (combined_conditions table dialect now) or_children;
      join_groups (held ++ mjoin ands) ors
  end.
End compile.

(** * The statements of a filter

    [FilterCore]'s statements of [ceres-database/src/filter.rs]: the listing,
    its expansion over branches, the count, the existence check, and the
    delete and update a page narrows. [None] is a panic. *)

(** [order_by]: text collates by code point on PostgreSQL. *)
Definition quote : string := String (Strings.Ascii.ascii_of_nat 34) "".

Definition stored_as_text (family : FieldFamily) : bool :=
  match family with Address | PlainAddress | Text | Values _ | Level => true | _ => false end.

Definition order_by (term : OrderTerm) (dialect : SqlDialect) : Expr * bool :=
  let column := key (order_field term) in
  (match dialect with
   | Postgres =>
       if stored_as_text (family (order_field term)) then
         Cust (quote +:+ column +:+ quote +:+ " COLLATE " +:+ quote +:+ "C" +:+ quote) []
       else Col column
   | SqliteText => Col column
   end, ascending term).

(** [FilterCore::order_terms]. *)
Definition order_terms (self : FilterCore) : list OrderTerm :=
  match core_order self with
  | [] =>
      omap (fun column =>
        (fun field => {| order_field := field; ascending := true |}) <$>
          find (fun field => bool_decide (key field = column)) (fields (schema self)))
        (order_columns (schema self))
  | order => order
  end.

(** [FilterCore::page]: the limit and the offset a statement takes. *)
Definition page (self : FilterCore) (dialect : SqlDialect) : option Z * option Z :=
  (match core_limit self with
   | Some limit => Some limit
   | None =>
       if bool_decide (is_Some (core_offset self)) && bool_decide (dialect = SqliteText)
       then Some i64_max else None
   end, core_offset self).

Definition paged (self : FilterCore) (dialect : SqlDialect) (exprs : list Expr) (from : Source)
    (where_ : list Expr) (order : list (Expr * bool)) : Select :=
  let '(limit, offset) := page self dialect in MkSelect exprs from where_ [] order limit offset.

Definition key_columns_of (self : FilterCore) : list Expr := Col <$> key_columns (schema self).

Definition order_of (self : FilterCore) (dialect : SqlDialect) : list (Expr * bool) :=
  (fun term => order_by term dialect) <$> order_terms self.

Section statements.
Context `{Codecs}.

(** [FilterCore::statement]; [now] is resolved. *)
Definition statement (self : FilterCore) (dialect : SqlDialect) (now : Z) : option Select :=
  conditions ← combined_conditions (schema self) dialect now (node self);
  Some (paged self dialect [Asterisk] (Table (schema_name (schema self))) conditions
          (order_of self dialect)).

(** [FilterCore::expansion_scope]; the outer [None] is a panic. *)
Definition expansion_scope (self : FilterCore) : option (option Scope) :=
  let '(Node own _ or_children) := node self in
  match core_limit self, or_children, address own with
  | Some _, [], Some selector =>
      found ← scope selector (root own);
      Some (if negb (bool_decide (prefixes found = [])) || unbounded found then Some found else None)
  | _, _, _ => Some None
  end.

(** The address column of [statement_over]. *)
Definition address_column (self : FilterCore) : string :=
  match find (fun field => bool_decide (family field = Address)) (fields (schema self)) with
  | Some field => key field
  | None => "address"
  end.

(** One branch's seek, wrapped. *)
Definition seek (self : FilterCore) (dialect : SqlDialect) (conditions : list Expr) (branch : string) :
    Select :=
  let depth := u64_saturating_add (default 0 (core_limit self)) (default 0 (core_offset self)) in
  let query :=
    MkSelect [Asterisk] (Table (schema_name (schema self)))
      (conditions ++ [expr_eq (Col (address_column self)) (ValText branch)]) []
      (order_of self dialect) (Some depth) None in
  MkSelect [Asterisk] (Union query [] "branch") [] [] [] None None.

(** The branches the selector admits. *)
Fixpoint admitted (self : FilterCore) (branches : list string) : option (list string) :=
  match branches with
  | [] => Some []
  | branch :: branches =>
      let '(Node own _ _) := node self in
      selected ← match address own with
                 | Some selector => Selector.matches selector branch (root own)
                 | None => Some false
                 end;
      rest ← admitted self branches;
      Some (if selected : bool then branch :: rest else rest)
  end.

(** [FilterCore::statement_over]; with no branch admitted, the plain statement. *)
Definition statement_over (self : FilterCore) (branches : list string) (dialect : SqlDialect)
    (now : Z) : option Select :=
  held ← admitted self branches;
  match held with
  | [] => statement self dialect now
  | _ =>
      conditions ← combined_conditions_with_address (schema self) dialect now false (node self);
      match seek self dialect conditions <$> held with
      | [] => None
      | first :: rest =>
          Some (paged self dialect [Asterisk] (Union first rest "branches") [] (order_of self dialect))
      end
  end.

(** [FilterCore::count_statement]. *)
Definition count_statement (self : FilterCore) (dialect : SqlDialect) (now : Z) : option Select :=
  conditions ← combined_conditions (schema self) dialect now (node self);
  let table := Table (schema_name (schema self)) in
  match core_limit self, core_offset self with
  | None, None => Some (MkSelect [Cust "COUNT(*)" []] table conditions [] [] None None)
  | _, _ =>
      let inner := paged self dialect (key_columns_of self) table conditions (order_of self dialect) in
      Some (MkSelect [Cust "COUNT(*)" []] (Union inner [] "matched") [] [] [] None None)
  end.

(** [FilterCore::exists_statement], the query whose existence it checks. *)
Definition exists_query (self : FilterCore) (dialect : SqlDialect) (now : Z) : option Select :=
  conditions ← combined_conditions (schema self) dialect now (node self);
  Some (paged self dialect [Asterisk] (Table (schema_name (schema self))) conditions []).

Definition exists_statement (self : FilterCore) (dialect : SqlDialect) (now : Z) : option Expr :=
  Exists <$> exists_query self dialect now.

(** [FilterCore::paged_keys]; the inner [None] is no page. *)
Definition paged_keys (self : FilterCore) (dialect : SqlDialect) (now : Z) : option (option Select) :=
  match core_limit self, core_offset self with
  | None, None => Some None
  | _, _ =>
      conditions ← combined_conditions (schema self) dialect now (node self);
      Some (Some (paged self dialect (key_columns_of self) (Table (schema_name (schema self)))
                    conditions (order_of self dialect)))
  end.

(** The rows a write narrows to: its [WHERE]. *)
Definition write_conditions (self : FilterCore) (dialect : SqlDialect) (now : Z) :
    option (list Expr) :=
  keys ← paged_keys self dialect now;
  match keys with
  | Some keys => Some [InQuery (key_columns_of self) keys]
  | None => combined_conditions (schema self) dialect now (node self)
  end.

(** [FilterCore::delete_statement] and [update_statement]. *)
Record DeleteStatement := { delete_table : string; delete_where : list Expr }.
Record UpdateStatement := {
  update_table : string;
  update_values : list (string * Expr);
  update_where : list Expr
}.

Definition delete_statement (self : FilterCore) (dialect : SqlDialect) (now : Z) :
    option DeleteStatement :=
  where_ ← write_conditions self dialect now;
  Some {| delete_table := schema_name (schema self); delete_where := where_ |}.

Definition update_statement (self : FilterCore) (dialect : SqlDialect)
    (set_clauses : list (string * Expr)) (now : Z) : option UpdateStatement :=
  where_ ← write_conditions self dialect now;
  Some {| update_table := schema_name (schema self); update_values := set_clauses;
          update_where := where_ |}.
End statements.
