(* ===== verification/FilterPatterns.v ===== *)
(** * What the compiled patterns match

    The [GLOB], [LIKE], [instr] and [substr] conditions
    [ceres-database/src/filter.rs] compiles an operation to hold exactly where
    the operation's own matching does. *)
From S2P Require Import Prelude.
From stdpp Require Import pretty.
From S2P Require Import Text Wire Sql Selector Schema FilterParse FilterFacts FilterMatch FilterCompile.
Local Open Scope string_scope.
Local Open Scope list_scope.
Local Open Scope Z_scope.

(** ** Text *)

Lemma str_contains_true pattern text :
  str_contains pattern text = true <-> exists before after, text = before +:+ pattern +:+ after.
Proof.
  induction text as [|c text IH]; cbn [str_contains]; rewrite orb_true_iff, str_starts_with_true.
  - split.
    + intros [[rest Hrest]|]; [|done]. exists "", rest. by rewrite str_app_nil.
    + intros (before & after & Heq). left. destruct before as [|x before].
      * rewrite str_app_nil in Heq. eauto.
      * by rewrite str_app_cons in Heq.
  - rewrite IH. split.
    + intros [[rest Hrest]|(before & after & ->)].
      * exists "", rest. by rewrite str_app_nil.
      * exists (String c before), after. by rewrite str_app_cons.
    + intros ([|x before] & after & Heq).
      * rewrite str_app_nil in Heq. eauto.
      * rewrite str_app_cons in Heq. injection Heq as -> ->. eauto.
Qed.

Lemma str_ends_with_true suffix text :
  str_ends_with suffix text = true <-> exists before, text = before +:+ suffix.
Proof.
  induction text as [|c text IH]; cbn [str_ends_with]; rewrite orb_true_iff, Strings.String.eqb_eq.
  - split.
    + intros [->|]; [|done]. exists "". by rewrite str_app_nil.
    + intros ([|x before] & Heq); [rewrite str_app_nil in Heq; by left|by rewrite str_app_cons in Heq].
  - rewrite IH. split.
    + intros [->|(before & ->)]; [exists ""; by rewrite str_app_nil|].
      exists (String c before). by rewrite str_app_cons.
    + intros ([|x before] & Heq); [rewrite str_app_nil in Heq; by left|].
      rewrite str_app_cons in Heq. injection Heq as -> ->. eauto.
Qed.

Section text.
Context {dialect : SqlDialect} {Row : Type} `{!SqlSemantics dialect Row}.

Lemma like_pattern kind pattern text :
  dialect = Postgres -> contains_char "^" pattern = false ->
  like (Some "^"%char) (with_wildcards (like_escape pattern) kind "%") text =
    text_matches text kind pattern.
Proof.
  intros Hd Hcaret. apply eq_true_iff_eq.
  assert (forall text, like (Some "^"%char) (like_escape pattern +:+ "%") text = true <->
    exists rest, text = pattern +:+ rest) as Hopen.
  { intros subject. rewrite like_escaped_text by auto. split; [naive_solver|].
    intros [rest ->]. exists rest. split; [done|]. by apply like_rest. }
  destruct kind; cbn [with_wildcards text_matches].
  - rewrite str_contains_true, like_any by done. setoid_rewrite Hopen. naive_solver.
  - by rewrite str_starts_with_true, Hopen.
  - rewrite str_ends_with_true, like_any by done.
    assert (forall text, like (Some "^"%char) (like_escape pattern) text = true <-> text = pattern) as Hclose.
    { intros subject. rewrite <- (str_app_nil_r (like_escape pattern)), like_escaped_text by auto.
      setoid_rewrite like_end. split.
      - intros (rest & -> & ->). by rewrite str_app_nil_r.
      - intros ->. exists "". by rewrite str_app_nil_r. }
    setoid_rewrite Hclose. naive_solver.
Qed.

Lemma glob_pattern kind pattern text :
  glob (with_wildcards (glob_escape pattern) kind "*") text = text_matches text kind pattern.
Proof.
  apply eq_true_iff_eq.
  assert (forall text, glob (glob_escape pattern +:+ "*") text = true <->
    exists rest, text = pattern +:+ rest) as Hopen.
  { intros subject. rewrite glob_escaped_text. split; [naive_solver|].
    intros [rest ->]. exists rest. split; [done|]. apply glob_rest. }
  destruct kind; cbn [with_wildcards text_matches].
  - rewrite str_contains_true, glob_any. setoid_rewrite Hopen. naive_solver.
  - by rewrite str_starts_with_true, Hopen.
  - rewrite str_ends_with_true, glob_any.
    assert (forall text, glob (glob_escape pattern) text = true <-> text = pattern) as Hclose.
    { intros subject. rewrite <- (str_app_nil_r (glob_escape pattern)), glob_escaped_text.
      setoid_rewrite glob_end. split.
      - intros (rest & -> & ->). by rewrite str_app_nil_r.
      - intros ->. exists "". by rewrite str_app_nil_r. }
    setoid_rewrite Hclose. naive_solver.
Qed.

End text.

Section admitted.
Context {dialect : SqlDialect} {Row : Type} `{!SqlSemantics dialect Row}.

(** A condition a [WHERE] lets a row through. *)
Definition admits (row : Row) (condition : Expr) : Prop := holds row condition = Some true.

Lemma admits_and row a b : admits row (expr_and a b) <-> admits row a /\ admits row b.
Proof.
  unfold admits, expr_and. rewrite holds_and.
  destruct (holds row a) as [[]|], (holds row b) as [[]|]; cbn; naive_solver.
Qed.

Lemma admits_or row a b : admits row (expr_or a b) <-> admits row a \/ admits row b.
Proof.
  unfold admits, expr_or. rewrite holds_or.
  destruct (holds row a) as [[]|], (holds row b) as [[]|]; cbn; naive_solver.
Qed.

Lemma admits_foldl_and row conditions first :
  admits row (foldl expr_and first conditions) <-> admits row first /\ Forall (admits row) conditions.
Proof.
  revert first. induction conditions as [|a conditions IH]; intros first; cbn [foldl].
  - rewrite Forall_nil. tauto.
  - rewrite IH, admits_and, Forall_cons. tauto.
Qed.

Lemma admits_all_of row conditions condition :
  all_of conditions = Some condition -> admits row condition <-> Forall (admits row) conditions.
Proof.
  destruct conditions as [|first conditions]; [done|]. intros [= <-].
  by rewrite admits_foldl_and, Forall_cons.
Qed.

Lemma admits_any row conditions condition :
  reduce expr_or conditions = Some condition -> admits row condition <-> List.Exists (admits row) conditions.
Proof.
  destruct conditions as [|first conditions]; [done|]. intros [= <-]. rewrite Exists_cons.
  revert first. induction conditions as [|a conditions IH]; intros first; cbn [foldl].
  - rewrite Exists_nil. tauto.
  - rewrite IH, admits_or, Exists_cons. tauto.
Qed.

(** A pattern's condition on text, and on null. *)
Lemma text_pattern_holds row subject kind pattern text :
  value row subject = Some (ValText text) ->
  (dialect = Postgres -> contains_char "^" pattern = false) ->
  holds row (text_pattern subject kind dialect false pattern) = Some (text_matches text kind pattern).
Proof.
  intros Hvalue Hcaret. unfold text_pattern. destruct dialect eqn:Hd.
  - unfold expr_glob. by rewrite (holds_glob _ _ _ _ eq_refl Hvalue), glob_pattern.
  - by rewrite (holds_like _ _ _ _ _ Hvalue), like_pattern by auto.
Qed.

Lemma text_pattern_null row subject kind pattern :
  value row subject = None -> holds row (text_pattern subject kind dialect false pattern) = None.
Proof.
  intros Hnull. unfold text_pattern. destruct dialect.
  - unfold expr_glob. by apply holds_compare_null.
  - by apply holds_like_null.
Qed.

Lemma Exists_map_existsb {A B} (f : A -> B) (P : B -> Prop) (test : A -> bool) (l : list A) :
  (forall a, a ∈ l -> P (f a) <-> test a = true) ->
  List.Exists P (map f l) <-> existsb test l = true.
Proof.
  intros Hf. induction l as [|a l IH]; cbn; [rewrite Exists_nil; naive_solver|].
  rewrite Exists_cons, orb_true_iff, IH, (Hf a); [done|left|]. intros. apply Hf. by right.
Qed.

Lemma match_text_patterns_admits row subject kind patterns condition (text : option string) :
  match_text_patterns subject kind patterns dialect false = Some condition ->
  value row subject = ValText <$> text ->
  (dialect = Postgres -> Forall (fun pattern => contains_char "^" pattern = false) patterns) ->
  patterns <> [] -> (is_Some text \/ Forall (fun pattern => pattern <> "") patterns) ->
  admits row condition <->
  match text with
  | Some text => existsb (text_matches text kind) patterns = true
  | None => False
  end.
Proof.
  unfold match_text_patterns. intros Hc Hvalue Hcaret Hne Hnull.
  destruct (forallb _ patterns) eqn:Hempty.
  - injection Hc as <-. rewrite forallb_forall in Hempty.
    destruct patterns as [|pattern patterns]; [done|].
    assert (pattern = "") as ->.
    { specialize (Hempty pattern (or_introl eq_refl)). by apply bool_decide_eq_true in Hempty. }
    destruct Hnull as [[subject_text ->]|Hnull]; [|by inversion Hnull].
    split; [intros _|intros _; unfold admits; by rewrite holds_lit].
    assert (text_matches subject_text kind "" = true) as Htrue.
    { destruct kind; cbn [text_matches].
      - apply str_contains_true. exists "", subject_text. by rewrite !str_app_nil.
      - apply str_starts_with_true. exists subject_text. by rewrite str_app_nil.
      - apply str_ends_with_true. exists subject_text. by rewrite str_app_nil_r. }
    cbn [existsb]. by rewrite Htrue.
  - rewrite (admits_any _ _ _ Hc). destruct text as [text|]; cbn in Hvalue.
    + apply Exists_map_existsb. intros pattern Hin. unfold admits.
      rewrite (text_pattern_holds _ _ _ _ _ Hvalue).
      * split; [by intros [= ->]|by intros ->].
      * intros Hd. specialize (Hcaret Hd). rewrite Forall_forall in Hcaret. by apply Hcaret.
    + rewrite Exists_exists. split; [|done]. intros (c & Hin & Hadmits).
      apply list_elem_of_In, in_map_iff in Hin as (pattern & <- & _).
      unfold admits in Hadmits. by rewrite text_pattern_null in Hadmits.
Qed.
End admitted.

(** ** Bytes *)

Lemma bytes_compare_eq a b : bytes_compare a b = Eq <-> a = b.
Proof.
  revert b. induction a as [|x a IH]; intros [|y b]; cbn; try done.
  destruct (Z.compare_spec x y) as [->|Hlt|Hgt].
  - rewrite IH. split; [by intros ->|by intros [= ->]].
  - split; [done|]. intros [= -> _]. lia.
  - split; [done|]. intros [= -> _]. lia.
Qed.

Lemma bytes_instr_within pattern held : 0 <= bytes_instr held pattern /\
  (0 < bytes_instr held pattern <-> bytes_within pattern held = true).
Proof.
  induction held as [|x held [IHpos IH]]; cbn [bytes_instr bytes_within]; unfold bytes_start;
    destruct (bool_decide _); cbn [orb]; try (split; [lia|split; intros; done || lia]).
  rewrite <- IH. clear IH. destruct (bytes_instr held pattern); split; lia.
Qed.

Lemma bytes_end_drop pattern held :
  bytes_end pattern held = bool_decide (drop (length held - length pattern) held = pattern).
Proof.
  unfold bytes_end. apply eq_true_iff_eq. rewrite andb_true_iff, bool_decide_eq_true.
  split; [tauto|]. intros Hdrop. split; [|done]. apply Nat.leb_le.
  rewrite <- Hdrop at 1. rewrite length_drop. lia.
Qed.

(** Hexadecimal tokens keep the bytes apart. *)

Lemma tokenize_bytes_tokens bytes : tokenize_bytes bytes = hex_tokens bytes.
Proof.
  induction bytes as [|b bytes IH]; [done|]. cbn [tokenize_bytes hex_tokens].
  by rewrite IH, !str_app_cons, !str_app_nil.
Qed.

Definition hex_chars : list ascii := hex_digit <$> seqZ 0 16.

Lemma hex_digit_in n : 0 <= n < 16 -> hex_digit n ∈ hex_chars.
Proof. intros. apply list_elem_of_fmap_2, elem_of_seqZ. lia. Qed.

Lemma hex_char_plain c : c ∈ hex_chars -> c <> " "%char /\ c <> "%"%char /\ c <> "_"%char /\ c <> "^"%char.
Proof.
  intros Hin.
  assert (Hall : forallb (fun c => negb (Strings.Ascii.eqb c " ") && negb (Strings.Ascii.eqb c "%") &&
    negb (Strings.Ascii.eqb c "_") && negb (Strings.Ascii.eqb c "^")) hex_chars = true)
    by (vm_compute; reflexivity).
  rewrite forallb_forall in Hall. specialize (Hall c (proj1 (list_elem_of_In _ _) Hin)).
  repeat (apply andb_true_iff in Hall as [Hall ?]).
  rewrite negb_true_iff, Strings.Ascii.eqb_neq in *. done.
Qed.

Lemma hex_digit_inj a b : 0 <= a < 16 -> 0 <= b < 16 -> hex_digit a = hex_digit b -> a = b.
Proof.
  intros Ha Hb Heq.
  assert (Hall : forallb (fun a => forallb (fun b =>
    negb (Strings.Ascii.eqb (hex_digit a) (hex_digit b)) || (a =? b)) (seqZ 0 16)) (seqZ 0 16) = true)
    by (vm_compute; reflexivity).
  rewrite forallb_forall in Hall.
  specialize (Hall a (proj1 (list_elem_of_In _ _) (proj2 (elem_of_seqZ 0 16 a) ltac:(lia)))).
  rewrite forallb_forall in Hall.
  specialize (Hall b (proj1 (list_elem_of_In _ _) (proj2 (elem_of_seqZ 0 16 b) ltac:(lia)))).
  rewrite Heq, Strings.Ascii.eqb_refl in Hall. cbn in Hall. lia.
Qed.

Lemma byte_digits b : byte_ok b -> 0 <= b / 16 < 16 /\ 0 <= b mod 16 < 16.
Proof.
  intros [? ?]. pose proof (Z.mod_pos_bound b 16). split; [|lia].
  split; [apply Z.div_le_lower_bound|apply Z.div_lt_upper_bound]; lia.
Qed.

Lemma byte_digits_inj a b :
  byte_ok a -> byte_ok b -> hex_digit (a / 16) = hex_digit (b / 16) ->
  hex_digit (a mod 16) = hex_digit (b mod 16) -> a = b.
Proof.
  intros Ha%byte_digits Hb%byte_digits Hhigh%hex_digit_inj Hlow%hex_digit_inj; try lia.
  pose proof (Z.div_mod a 16). pose proof (Z.div_mod b 16). lia.
Qed.

Lemma tokens_start pattern held :
  Forall byte_ok pattern -> Forall byte_ok held ->
  str_starts_with (hex_tokens pattern) (hex_tokens held) = bytes_start pattern held.
Proof.
  intros Hp. revert held. induction Hp as [|p pattern Hp Hpattern IH]; intros held Hh.
  - unfold bytes_start. cbn [length take]. symmetry. by apply bool_decide_eq_true.
  - unfold bytes_start in *. destruct Hh as [|h held Hh Hheld]; [by symmetry; apply bool_decide_eq_false|].
    specialize (IH held Hheld). unfold str_starts_with in *. cbn [hex_tokens strip_prefix length take].
    destruct (Strings.Ascii.eqb_spec (hex_digit (p / 16)) (hex_digit (h / 16))) as [Hhigh|Hhigh];
      [destruct (Strings.Ascii.eqb_spec (hex_digit (p mod 16)) (hex_digit (h mod 16))) as [Hlow|Hlow]|].
    + assert (p = h) as -> by (by apply byte_digits_inj). cbn [Strings.Ascii.eqb Bool.eqb].
      rewrite IH. apply bool_decide_ext. split; [by intros ->|by intros [= ->]].
    + symmetry. apply bool_decide_eq_false. intros [= -> _]. done.
    + symmetry. apply bool_decide_eq_false. intros [= -> _]. done.
Qed.

Lemma eqb_false a b : a <> b -> Strings.Ascii.eqb a b = false.
Proof. apply Strings.Ascii.eqb_neq. Qed.

(** A byte's tokens do not start within another's. *)
Lemma tokens_unaligned p pattern x y text :
  byte_ok p -> x ∈ hex_chars -> y ∈ hex_chars ->
  let tokens := hex_tokens (p :: pattern) in
  str_starts_with tokens (String y (String " " text)) = false /\
  str_starts_with tokens (String " " text) = false.
Proof.
  intros Hp Hx Hy. cbn zeta. apply byte_digits in Hp as [Hhigh Hlow].
  apply hex_digit_in, hex_char_plain in Hhigh, Hlow.
  unfold str_starts_with. cbn [hex_tokens strip_prefix].
  rewrite (eqb_false (hex_digit (p mod 16)) " "), (eqb_false (hex_digit (p / 16)) " ") by tauto.
  by destruct (Strings.Ascii.eqb _ _).
Qed.

Lemma tokens_contains pattern held :
  pattern <> [] -> Forall byte_ok pattern -> Forall byte_ok held ->
  str_contains (hex_tokens pattern) (hex_tokens held) = bytes_within pattern held.
Proof.
  intros Hne Hp. induction 1 as [|h held Hh Hheld IH].
  - destruct pattern as [|p pattern]; [done|]. done.
  - cbn [bytes_within]. rewrite <- IH, <- (tokens_start pattern (h :: held)) by (done || by constructor).
    destruct pattern as [|p pattern]; [done|]. apply Forall_cons in Hp as [Hp Hpattern].
    apply byte_digits in Hh as [Hhigh%hex_digit_in Hlow%hex_digit_in].
    destruct (tokens_unaligned p pattern _ _ (hex_tokens held) Hp Hhigh Hlow) as [Hsecond Hthird].
    assert (forall tokens c text, str_contains tokens (String c text) =
      str_starts_with tokens (String c text) || str_contains tokens text) as Hstep by done.
    change (hex_tokens (h :: held)) with
      (String (hex_digit (h / 16)) (String (hex_digit (h mod 16)) (String " " (hex_tokens held)))).
    rewrite (Hstep _ (hex_digit (h / 16))), (Hstep _ (hex_digit (h mod 16))), (Hstep _ " "%char).
    by rewrite Hsecond, Hthird.
Qed.

Lemma hex_tokens_inj a b :
  Forall byte_ok a -> Forall byte_ok b -> hex_tokens a = hex_tokens b -> a = b.
Proof.
  intros Ha. revert b. induction Ha as [|x a Hx Ha IH]; intros b [|y b' Hy Hb]; cbn [hex_tokens]; try done.
  intros [= Hhigh Hlow Hrest]. f_equal; [by apply byte_digits_inj|by apply IH].
Qed.

Lemma bytes_end_cons pattern x held :
  bytes_end pattern (x :: held) = bool_decide (pattern = x :: held) || bytes_end pattern held.
Proof.
  rewrite !bytes_end_drop. apply eq_true_iff_eq. rewrite orb_true_iff, !bool_decide_eq_true.
  cbn [length]. destruct (decide (length pattern <= length held)%nat) as [Hle|Hgt].
  - replace (S (length held) - length pattern)%nat with (S (length held - length pattern)) by lia.
    cbn [drop]. split; [by right|]. intros [->|]; [|done]. cbn in Hle. lia.
  - replace (length held - length pattern)%nat with 0%nat by lia.
    replace (S (length held) - length pattern)%nat with 0%nat by lia. rewrite !drop_0. split.
    + intros ->. by left.
    + intros [->|<-]; [done|]. lia.
Qed.

Lemma eqb_starts tokens text : str_starts_with tokens text = false -> Strings.String.eqb tokens text = false.
Proof.
  intros Hstart. apply Strings.String.eqb_neq. intros ->.
  assert (str_starts_with text text = true); [|congruence].
  apply str_starts_with_true. exists "". by rewrite str_app_nil_r.
Qed.

Lemma tokens_end pattern held :
  pattern <> [] -> Forall byte_ok pattern -> Forall byte_ok held ->
  str_ends_with (hex_tokens pattern) (hex_tokens held) = bytes_end pattern held.
Proof.
  intros Hne Hp. destruct pattern as [|p pattern]; [done|].
  induction 1 as [|h held Hh Hheld IH]; [done|].
  assert (Forall byte_ok (h :: held)) as Hall by (by constructor).
  rewrite bytes_end_cons, <- IH. pose proof (Forall_inv Hp) as Hfirst.
  apply byte_digits in Hh as [Hhigh%hex_digit_in Hlow%hex_digit_in].
  destruct (tokens_unaligned p pattern _ _ (hex_tokens held) Hfirst Hhigh Hlow) as [Hsecond Hthird].
  assert (forall tokens c text, str_ends_with tokens (String c text) =
    Strings.String.eqb tokens (String c text) || str_ends_with tokens text) as Hstep by done.
  assert (Strings.String.eqb (hex_tokens (p :: pattern)) (hex_tokens (h :: held)) =
    bool_decide (p :: pattern = h :: held)) as Heq.
  { apply eq_true_iff_eq. rewrite Strings.String.eqb_eq, bool_decide_eq_true. split.
    - by apply hex_tokens_inj.
    - by intros ->. }
  rewrite <- Heq.
  change (hex_tokens (h :: held)) with
    (String (hex_digit (h / 16)) (String (hex_digit (h mod 16)) (String " " (hex_tokens held)))).
  rewrite (Hstep _ (hex_digit (h / 16))), (Hstep _ (hex_digit (h mod 16))), (Hstep _ " "%char).
  by rewrite (eqb_starts _ _ Hsecond), (eqb_starts _ _ Hthird).
Qed.

Lemma tokens_match kind pattern held :
  pattern <> [] -> Forall byte_ok pattern -> Forall byte_ok held ->
  text_matches (hex_tokens held) kind (hex_tokens pattern) = bytes_match held kind pattern.
Proof.
  intros Hne Hp Hh. destruct kind; cbn [text_matches bytes_match].
  - rewrite tokens_contains by done. by rewrite bool_decide_eq_false_2.
  - by apply tokens_start.
  - by apply tokens_end.
Qed.

(** Tokens hold no wildcard. *)
Lemma tokens_plain bytes c :
  c ∈ ["%"%char; "_"%char; "^"%char] -> Forall byte_ok bytes -> contains_char c (hex_tokens bytes) = false.
Proof.
  intros Hc. induction 1 as [|b bytes Hb Hbytes IH]; [done|]. cbn [hex_tokens contains_char].
  apply byte_digits in Hb as [Hhigh%hex_digit_in%hex_char_plain Hlow%hex_digit_in%hex_char_plain].
  rewrite IH, !eqb_false; [done|..]; set_solver.
Qed.

(** ** The functions the conditions call

    The documented meaning of [instr] and [substr] on SQLite, of the tokenizing
    function the PostgreSQL schema defines, and of the clock expressions, and
    that a bound timestamp compares as the instant it is. *)
Definition stamp_storable (stamp : Z) : Prop :=
  -62167219200000000000 <= stamp < 253402300800000000000 /\ stamp mod 1000 = 0.

Class SqlFunctions (dialect : SqlDialect) (Row : Type) `{Codecs} `{!SqlSemantics dialect Row} := {
  value_instr row column held wanted :
    dialect = SqliteText -> cell row column = Some (ValBytes held) ->
    value row (Func "instr" [Col column; Lit (ValBytes wanted)]) = Some (ValInt (bytes_instr held wanted));
  value_substr row column held count :
    dialect = SqliteText -> cell row column = Some (ValBytes held) ->
    value row (Func "substr" [Col column; Lit (ValInt 1); Lit (ValInt (Z.of_nat count))]) =
      Some (ValBytes (take count held));
  value_substr_end row column held count :
    dialect = SqliteText -> cell row column = Some (ValBytes held) -> count <> 0%nat ->
    value row (Func "substr" [Col column; Lit (ValInt (- Z.of_nat count))]) =
      Some (ValBytes (drop (length held - count) held));
  value_tokens row column held :
    dialect = Postgres -> cell row column = Some (ValBytes held) ->
    value row (Func "ceres_tokenize_bytes" [Col column]) = Some (ValText (hex_tokens held));
  value_function_null row name column arguments :
    name ∈ ["instr"; "substr"; "ceres_tokenize_bytes"] -> cell row column = None ->
    value row (Func name (Col column :: arguments)) = None;
  value_clock row column stamp :
    (dialect = SqliteText -> stamp_storable stamp) ->
    cell row column = Some (timestamp_value stamp dialect) ->
    value row (clock_part column "hour" "%H" dialect) = Some (ValInt (hour stamp)) /\
    value row (clock_part column "minute" "%M" dialect) = Some (ValInt (minute stamp));
  value_clock_null row column part format :
    cell row column = None -> value row (clock_part column part format dialect) = None;
  stamps_ordered a b :
    (dialect = SqliteText -> stamp_storable a /\ stamp_storable b) ->
    value_compare (timestamp_value a dialect) (timestamp_value b dialect) = Some (a ?= b)
}.

Lemma on_sqlite {A} (dialect : SqlDialect) (a b : A) :
  dialect = SqliteText -> match dialect with SqliteText => a | Postgres => b end = a.
Proof. by intros ->. Qed.

Lemma on_postgres {A} (dialect : SqlDialect) (a b : A) :
  dialect = Postgres -> match dialect with SqliteText => a | Postgres => b end = b.
Proof. by intros ->. Qed.

Section bytes.
Context {dialect : SqlDialect} {Row : Type} `{Codecs} `{!SqlSemantics dialect Row}
  `{!SqlFunctions dialect Row}.

Lemma compare_eq_holds row a held wanted :
  value row a = Some (ValBytes held) ->
  holds row (Binary OpEq a (Lit (ValBytes wanted))) = Some (bool_decide (held = wanted)).
Proof.
  intros Hvalue.
  rewrite (holds_compare row OpEq a (ValBytes held) (ValBytes wanted) (bytes_compare held wanted)) by done.
  f_equal. apply eq_true_iff_eq. rewrite bool_decide_eq_true, <- bytes_compare_eq.
  by destruct (bytes_compare held wanted).
Qed.

Lemma bytes_pattern_holds row key kind pattern held :
  cell row key = Some (ValBytes held) -> pattern <> [] -> Forall byte_ok pattern -> Forall byte_ok held ->
  holds row (bytes_pattern key kind dialect pattern) = Some (bytes_match held kind pattern).
Proof.
  intros Hcell Hne Hp Hh. unfold bytes_pattern. rewrite bool_decide_eq_false_2 by done.
  destruct (decide (dialect = SqliteText)) as [Hd|Hd].
  - rewrite on_sqlite by done. destruct kind; cbn [bytes_match].
    + rewrite (holds_compare row OpGt _ (ValInt (bytes_instr held pattern)) (ValInt 0)
        (bytes_instr held pattern ?= 0)) by (done || by apply value_instr).
      rewrite bool_decide_eq_false_2 by done. f_equal. apply eq_true_iff_eq. cbn [orb].
      rewrite <- (proj2 (bytes_instr_within pattern held)), <- Z.gt_lt_iff. unfold Z.gt.
      by destruct (bytes_instr held pattern ?= 0).
    + by rewrite (compare_eq_holds _ _ _ _ (value_substr _ _ _ _ Hd Hcell)).
    + rewrite (compare_eq_holds _ _ _ _ (value_substr_end row key held (length pattern) Hd Hcell
        ltac:(by destruct pattern))).
      by rewrite bytes_end_drop.
  - assert (dialect = Postgres) as HP by (by destruct dialect). rewrite on_postgres by done.
    rewrite (holds_like _ _ _ _ _ (value_tokens _ _ _ HP Hcell)), tokenize_bytes_tokens.
    rewrite like_pattern by (done || by apply tokens_plain; set_solver).
    by rewrite tokens_match.
Qed.

Lemma bytes_pattern_null row key kind pattern :
  cell row key = None -> pattern <> [] -> holds row (bytes_pattern key kind dialect pattern) = None.
Proof.
  intros Hcell Hne. unfold bytes_pattern. rewrite bool_decide_eq_false_2 by done.
  destruct (decide (dialect = SqliteText)) as [Hd|Hd].
  - rewrite on_sqlite by done.
    destruct kind; apply holds_compare_null; try done; apply value_function_null; (done || set_solver).
  - assert (dialect = Postgres) as HP by (by destruct dialect). rewrite on_postgres by done.
    apply holds_like_null. apply value_function_null; [set_solver|done].
Qed.

Lemma match_bytes_patterns_admits row key kind patterns (held : option (list Z)) :
  cell row key = ValBytes <$> held -> patterns <> [] -> Forall (Forall byte_ok) patterns ->
  opt_ok (Forall byte_ok) held -> (is_Some held \/ Forall (fun pattern => pattern <> []) patterns) ->
  admits row (match_bytes_patterns key kind patterns dialect) <->
  match held with
  | Some held => existsb (bytes_match held kind) patterns = true
  | None => False
  end.
Proof.
  intros Hcell Hne Hp Hh Hnull. unfold match_bytes_patterns.
  destruct (reduce expr_or _) as [condition|] eqn:Hc; [|by destruct patterns].
  cbn [default]. rewrite (admits_any _ _ _ Hc). destruct held as [held|]; cbn in Hcell, Hh.
  - apply Exists_map_existsb. intros pattern Hin. unfold admits.
    destruct (decide (pattern = [])) as [->|Hpattern].
    + unfold bytes_pattern. rewrite bool_decide_eq_true_2, holds_lit by done.
      assert (bytes_match held kind [] = true) as ->; [|done].
      destruct kind; cbn [bytes_match]; [done|done|].
      rewrite bytes_end_drop. cbn [length]. rewrite Nat.sub_0_r, drop_all. by apply bool_decide_eq_true.
    + rewrite (bytes_pattern_holds _ _ _ _ _ Hcell Hpattern); [split; [by intros [= ->]|by intros ->]| |done].
      rewrite Forall_forall in Hp. by apply Hp.
  - rewrite Exists_exists. split; [|done]. intros (c & Hin & Hadmits).
    apply list_elem_of_In, in_map_iff in Hin as (pattern & <- & Hin%list_elem_of_In).
    destruct Hnull as [[? ?]|Hnull]; [done|]. rewrite Forall_forall in Hnull.
    unfold admits in Hadmits. by rewrite bytes_pattern_null in Hadmits by auto.
Qed.
End bytes.
