(* ===== verification/FilterAgree.v ===== *)
(** * A compiled filter selects the records it matches

    For a filter of [ceres-database/src/filter.rs] that parsed, the conditions
    its statements carry let a row through exactly when its in-memory matching
    accepts the record the row stores. *)
From S2P Require Import Prelude.
From stdpp Require Import pretty gmap.
From S2P Require Import Text Wire Sql Selector Schema FilterParse FilterFacts.
From S2P Require Import FilterMatch FilterCompile FilterPatterns.
Local Open Scope string_scope.
Local Open Scope list_scope.
Local Open Scope Z_scope.

Section agree.
Context {dialect : SqlDialect} {Row : Type} `{Codecs} `{!SqlSemantics dialect Row}
  `{!SqlFunctions dialect Row}.

(** ** Conditions and what they decide *)

(** Matching does not panic, and holds where a row passes the conditions. *)
Definition agree (row : Row) (conditions : list Expr) (matched : option bool) : Prop :=
  exists held, matched = Some held /\ (Forall (admits row) conditions <-> held = true).

Lemma agree_nil row : agree row [] (Some true).
Proof. exists true. by rewrite Forall_nil. Qed.

Lemma agree_one row condition held :
  (admits row condition <-> held = true) -> agree row [condition] (Some held).
Proof. intros Hc. exists held. rewrite Forall_singleton. done. Qed.

Lemma agree_and row first rest held matched :
  agree row first held -> agree row rest matched -> agree row (first ++ rest) (and_then held matched).
Proof.
  intros (h & -> & Hh) (m & -> & Hm). exists (if h then m else false). rewrite Forall_app.
  destruct h; cbn; naive_solver.
Qed.

Lemma agree_perm row conditions conditions' matched :
  conditions ≡ₚ conditions' -> agree row conditions matched -> agree row conditions' matched.
Proof. intros Hp (held & -> & Hh). exists held. by rewrite <- Hp. Qed.

Lemma all_opt_cons {A} (test : A -> option bool) a l :
  all_opt test (a :: l) = and_then (test a) (all_opt test l).
Proof. cbn. by destruct (test a) as [[]|]. Qed.

Lemma agree_all {A} row (compile : A -> option (list Expr)) (test : A -> option bool) (l : list A)
    conditions :
  mapM compile l = Some conditions ->
  (forall a held, a ∈ l -> compile a = Some held -> agree row held (test a)) ->
  agree row (mjoin conditions) (all_opt test l).
Proof.
  revert conditions. induction l as [|a l IH]; intros conditions Hc Ha.
  - injection Hc as <-. apply agree_nil.
  - cbn in Hc. destruct (compile a) as [first|] eqn:Hfirst; [|done]. cbn in Hc.
    destruct (mapM compile l) as [rest|]; [|done]. injection Hc as <-. cbn [mjoin list_join].
    rewrite all_opt_cons. apply (agree_and row first (mjoin rest) (test a) (all_opt test l)).
    + by apply Ha; [left|].
    + apply IH; [done|]. intros. by apply Ha; [right|].
Qed.

(** ** Equality *)

Lemma is_in_admits {A} row a (encode : A -> SqlValue) (held : option A) (l : list A) :
  value row a = encode <$> held -> l <> [] ->
  (forall h w, held = Some h -> w ∈ l ->
    exists c, value_compare (encode h) (encode w) = Some c /\ (c = Eq <-> h = w)) ->
  admits row (IsIn a (encode <$> l)) <-> match held with Some h => h ∈ l | None => False end.
Proof.
  intros Hvalue Hne Hcompare. unfold admits. destruct held as [h|]; cbn in Hvalue.
  - rewrite (holds_in row a (encode h)); [|by destruct l|done|].
    2: { apply Forall_fmap, Forall_forall. intros w Hw.
      destruct (Hcompare h w eq_refl Hw) as (c & Hc & _). by exists c. }
    rewrite (inj_iff Some), existsb_exists. split.
    + intros (wanted & Hin%list_elem_of_In & Heq%bool_decide_eq_true).
      apply list_elem_of_fmap in Hin as (w & -> & Hw).
      destruct (Hcompare h w eq_refl Hw) as (c & Hc & Hceq). assert (c = Eq) as Hc' by congruence.
      by apply Hceq in Hc' as ->.
    + intros Hw. destruct (Hcompare h h eq_refl Hw) as (c & Hc & Hceq).
      exists (encode h). split; [by apply list_elem_of_In, list_elem_of_fmap_2|].
      apply bool_decide_eq_true. by rewrite Hc, (proj2 Hceq eq_refl).
  - by rewrite holds_in_null by done.
Qed.

Lemma match_values_admits {A} row a (encode : A -> SqlValue) (held : option A) (l : list A) :
  value row a = encode <$> held -> l <> [] ->
  (forall h w, held = Some h -> w ∈ l ->
    exists c, value_compare (encode h) (encode w) = Some c /\ (c = Eq <-> h = w)) ->
  admits row (match_values a (encode <$> l)) <->
  match held with Some h => h ∈ l | None => False end.
Proof.
  intros Hvalue Hne Hcompare. destruct l as [|w [|w' l]]; [done| |by apply is_in_admits].
  cbn [fmap list_fmap match_values]. unfold admits, expr_eq. destruct held as [h|]; cbn in Hvalue.
  - destruct (Hcompare h w eq_refl ltac:(left)) as (c & Hc & Hceq).
    rewrite (holds_compare row OpEq a (encode h) (encode w) c) by done.
    rewrite list_elem_of_singleton, <- Hceq. by destruct c.
  - by rewrite holds_compare_null by done.
Qed.

Lemma text_encoded (h w : string) :
  exists c, value_compare (ValText h) (ValText w) = Some c /\ (c = Eq <-> h = w).
Proof. exists (Strings.String.compare h w). split; [done|apply text_compare_eq]. Qed.

Lemma id_encoded (h w : string) :
  exists c, value_compare (id_value h dialect) (id_value w dialect) = Some c /\ (c = Eq <-> h = w).
Proof.
  exists (Strings.String.compare h w). split; [by destruct dialect|apply text_compare_eq].
Qed.

Lemma bytes_encoded (h w : list Z) :
  exists c, value_compare (ValBytes h) (ValBytes w) = Some c /\ (c = Eq <-> h = w).
Proof. exists (bytes_compare h w). split; [done|apply bytes_compare_eq]. Qed.

Lemma stamp_encoded (h w : Z) :
  (dialect = SqliteText -> stamp_storable h /\ stamp_storable w) ->
  exists c, value_compare (timestamp_value h dialect) (timestamp_value w dialect) = Some c /\
            (c = Eq <-> h = w).
Proof. intros Hs. exists (h ?= w). split; [by apply stamps_ordered|apply Z.compare_eq_iff]. Qed.

(** ** What a row stores of a record *)

Definition raw_of (record : Record_) (field : FilterField) : option string := record !! key field.
Definition text_of (record : Record_) (field : FilterField) : option string :=
  raw_of record field ≫= json_string.

(** A JSON document as its column holds it. *)
Definition json_cell (text : string) (dialect : SqlDialect) : SqlValue :=
  match dialect with SqliteText => ValText text | Postgres => ValJson text end.

(** Any document's: SQLite's numeric affinity keeps an integer as one. *)
Definition json_held (text : string) (held : SqlValue) : Prop :=
  held = json_cell text dialect \/
  (dialect = SqliteText /\ exists number, held = ValInt number /\ text = pretty number).

Lemma value_held row column (text : option string) (held : option SqlValue) :
  cell row column = held ->
  match text, held with Some text, Some held => json_held text held | None, None => True | _, _ => False end ->
  value row (Cast (Col column) "TEXT") = ValText <$> text.
Proof.
  intros Hcell Hheld. destruct text as [text|], held as [held|]; try done.
  - apply (value_cast row column held); [done|].
    destruct Hheld as [->|(_ & number & -> & ->)]; [|done]. unfold json_cell. by destruct dialect.
  - by apply value_cast_null.
Qed.

Lemma value_json row column (text : option string) :
  cell row column = (fun text => json_cell text dialect) <$> text ->
  value row (Cast (Col column) "TEXT") = ValText <$> text.
Proof.
  intros Hcell. apply (value_held row column text _ Hcell). destruct text; [by left|done].
Qed.

(** A column holds what the record's field does, in the family's stored form;
    an address is never null. *)
Definition column_agrees (held : option SqlValue) (raw text : option string) (family : FieldFamily) : Prop :=
  match family with
  | Uuid => held = (fun id => id_value id dialect) <$> text
  | Address => is_Some text /\ held = ValText <$> text
  | Timestamp =>
      held = (fun stamp => timestamp_value stamp dialect) <$> record_timestamp text /\
      (dialect = SqliteText -> opt_ok stamp_storable (record_timestamp text))
  | Text | Email | Values _ | Level | PlainAddress => held = ValText <$> text
  | Bytes => held = (fun text => ValBytes (latin1_encode text)) <$> text
  | Boolean => held = ValBool <$> (raw ≫= json_bool)
  | JsonValue =>
      match raw ≫= json_compact, held with
      | Some text, Some held => json_held text held
      | None, None => True
      | _, _ => False
      end
  | Json => held = (fun text => json_cell text dialect) <$> raw
  end.

Definition field_stored (row : Row) (record : Record_) (field : FilterField) : Prop :=
  column_agrees (cell row (key field)) (raw_of record field) (text_of record field) (family field).

(** The column of a computed predicate; those a text shape is read from are
    never null. *)
Definition shape_stored (row : Row) (record : Record_) (predicate : Computed) : Prop :=
  let raw := record !! computed_column predicate in
  match shape predicate with
  | Present =>
      is_Some (cell row (computed_column predicate)) <->
      exists text, raw = Some text /\ text <> "null"
  | _ => exists text, raw ≫= json_string = Some text /\
                      cell row (computed_column predicate) = Some (ValText text)
  end.

Definition row_stores (table : Schema) (row : Row) (record : Record_) : Prop :=
  Forall (field_stored row record) (fields table) /\
  Forall (shape_stored row record) (computed table).

Lemma equality_agrees row record field values :
  values_ok field values -> field_stored row record field ->
  (dialect = SqliteText -> match values with Stamps stamps => Forall stamp_storable stamps | _ => True end) ->
  agree row [equality_condition field values dialect]
    (Some (values_held values (family field) (raw_of record field) (text_of record field))).
Proof.
  intros Hok Hstored Hstamps. apply agree_one. unfold values_ok, field_stored, column_agrees in *.
  assert (forall texts, texts <> [] ->
    cell row (key field) = ValText <$> text_of record field ->
    admits row (match_values (Col (key field)) (ValText <$> texts)) <->
    match text_of record field with Some text => bool_decide (text ∈ texts) | None => false end = true)
    as Htexts.
  { intros texts Hne Hcell. rewrite <- value_col in Hcell.
    rewrite (match_values_admits _ _ _ _ _ Hcell Hne) by (intros; apply text_encoded).
    destruct (text_of record field); [by rewrite bool_decide_eq_true|done]. }
  destruct (family field) eqn:Hfamily, values as [ids|texts|stamps|patterns|wanted]; try done;
    cbn [equality_condition values_held]; rewrite ?Hfamily;
    try (by apply Htexts; [apply Hok|]).
  - rewrite <- value_col in Hstored.
    rewrite (match_values_admits _ _ _ _ _ Hstored Hok) by (intros; apply id_encoded).
    destruct (text_of record field); [by rewrite bool_decide_eq_true|done].
  - destruct Hstored as [Hcell Hheld]. rewrite <- value_col in Hcell.
    rewrite (match_values_admits _ _ _ _ _ Hcell Hok).
    + destruct (record_timestamp _); [by rewrite bool_decide_eq_true|done].
    + intros h w Hh Hw. apply stamp_encoded. intros Hd. specialize (Hheld Hd). specialize (Hstamps Hd).
      rewrite Hh in Hheld. rewrite Forall_forall in Hstamps. split; [done|by apply Hstamps].
  - assert (value row (Col (key field)) = ValBytes <$> (latin1_encode <$> text_of record field)) as Hvalue
      by (rewrite value_col, Hstored; by destruct (text_of record field)).
    rewrite (match_values_admits _ _ _ _ _ Hvalue (proj1 Hok)) by (intros; apply bytes_encoded).
    destruct (text_of record field); cbn; [by rewrite bool_decide_eq_true|done].
  - unfold admits. destruct (raw_of record field ≫= json_bool) as [held|] eqn:Hbool; cbn in Hstored.
    + unfold expr_eq. rewrite <- value_col in Hstored.
      rewrite (holds_compare row OpEq _ (ValBool held) (ValBool wanted) (Bool.compare held wanted)) by done.
      rewrite bool_decide_eq_true. destruct held, wanted; cbn; naive_solver.
    + rewrite <- value_col in Hstored. unfold expr_eq. rewrite holds_compare_null by done.
      by rewrite bool_decide_eq_true.
  - assert (value row (Cast (Col (key field)) "TEXT") = ValText <$> (raw_of record field ≫= json_compact)) as Hvalue
      by by eapply value_held.
    rewrite (match_values_admits _ _ _ _ _ Hvalue (proj1 Hok)) by (intros; apply text_encoded).
    destruct (raw_of record field ≫= json_compact); [by rewrite bool_decide_eq_true|done].
Qed.

(** ** Operations *)

(** What the compiler's schemas are: keys once, operations on content only. *)
Record table_ok (table : Schema) : Prop := {
  table_keys : NoDup (key <$> fields table);
  table_operations : Forall (fun field =>
    operations field = [] \/ family field ∈ [Text; Email; Bytes; Json]) (fields table);
  (** No operation folds case, which each backend and the matcher do by rules of
      their own. *)
  table_sensitive : Forall (fun field =>
    Forall (fun operation => insensitive operation = false) (operations field)) (fields table)
}.

(** Whether a field has content for its operations to search. *)
Definition has_content (record : Record_) (field : FilterField) : Prop :=
  if decide (family field = Json) then is_Some (raw_of record field) else is_Some (text_of record field).

(** Patterns the backends search alike: no caret on PostgreSQL, whose patterns
    it escapes, and no empty pattern where there is no content, which SQL is
    made to hold of all the same. *)
Definition patterns_served (record : Record_) (operation : OperationFilter) : Prop :=
  match of_values operation with
  | Texts patterns =>
      (dialect = Postgres -> Forall (fun pattern => contains_char "^" pattern = false) patterns) /\
      (has_content record (of_field operation) \/ Forall (fun pattern => pattern <> "") patterns)
  | ByteValues patterns =>
      has_content record (of_field operation) \/ Forall (fun pattern => pattern <> []) patterns
  | _ => True
  end.

Lemma operation_of_elem own field operation held :
  operation_of own field operation = Some held ->
  held ∈ operation_filters own /\ key (of_field held) = key field /\ of_kind held = kind operation.
Proof.
  unfold operation_of. intros Hfind%find_some. destruct Hfind as [Hin Heq%bool_decide_eq_true].
  by rewrite list_elem_of_In.
Qed.

Lemma json_content row record field (text : option string) :
  family field ∈ [Text; Email; Json] -> field_stored row record field ->
  text = (if decide (family field = Json) then raw_of record field else text_of record field) ->
  value row (if decide (family field = Json) then Cast (Col (key field)) "TEXT" else Col (key field)) =
    ValText <$> text.
Proof.
  intros Hfamily Hstored ->. unfold field_stored, column_agrees in Hstored. case_decide as Hjson.
  - rewrite Hjson in Hstored. by apply value_json.
  - rewrite value_col.
    repeat (apply elem_of_cons in Hfamily as [Hf|Hfamily]; [by rewrite Hf in *|]).
    by apply elem_of_nil in Hfamily.
Qed.

Lemma operation_agrees table row record own field operation conditions :
  table_ok table -> field ∈ fields table -> operation ∈ operations field ->
  Forall (operation_ok table) (operation_filters own) -> field_stored row record field ->
  Forall (patterns_served record) (operation_filters own) ->
  operation_condition own field dialect operation = Some conditions ->
  agree row conditions (Some (operation_held own field (raw_of record field) (text_of record field) operation)).
Proof.
  intros Htable Hfield Hoperation Hok Hstored Hserved Hc.
  unfold operation_condition, operation_held in *.
  destruct (operation_of own field operation) as [held|] eqn:Hheld;
    [|injection Hc as <-; apply agree_nil].
  apply operation_of_elem in Hheld as (Hin & Hkey & Hkind).
  rewrite Forall_forall in Hok, Hserved. destruct (Hok held Hin) as (Hin' & _ & Hpatterns).
  specialize (Hserved held Hin). unfold patterns_served in Hserved.
  assert (of_field held = field) as Hof by (by apply (NoDup_fmap_inj key (fields table)); [apply Htable|..]).
  rewrite Hof in Hpatterns, Hserved.
  pose proof (table_sensitive _ Htable) as Hsensitive. rewrite Forall_forall in Hsensitive.
  specialize (Hsensitive field Hfield). rewrite Forall_forall in Hsensitive.
  rewrite (Hsensitive operation Hoperation) in *.
  pose proof (table_operations _ Htable) as Hops. rewrite Forall_forall in Hops.
  destruct (Hops field Hfield) as [Hnil|Hfamily]; [rewrite Hnil in Hoperation; by apply elem_of_nil in Hoperation|].
  unfold patterns_ok, has_content in *. unfold fold.
  destruct (of_values held) as [|texts| |patterns|]; try done.
  - destruct (match_text_patterns _ _ _ _ _) as [condition|] eqn:Hm; [|done]. injection Hc as <-.
    assert (family field ∈ [Text; Email; Json]) as Hfam.
    { repeat (apply elem_of_cons in Hfamily as [Hf|Hfamily]); try (rewrite Hf in *; set_solver).
      by apply elem_of_nil in Hfamily. }
    assert (texts <> []) as Hne by (destruct (family field); by destruct Hpatterns).
    apply agree_one.
    pose proof (json_content row record field _ Hfam Hstored eq_refl) as Hvalue.
    assert (is_Some (if decide (family field = Json) then raw_of record field else text_of record field) \/
      Forall (fun pattern => pattern <> "") texts) as Hnull by (by case_decide; apply Hserved).
    rewrite (match_text_patterns_admits row _ _ _ _ _ Hm Hvalue (proj1 Hserved) Hne Hnull).
    case_decide; [by destruct (raw_of record field)|by destruct (text_of record field)].
  - injection Hc as <-.
    assert (family field = Bytes) as Hbytes by (destruct (family field); done).
    rewrite Hbytes in *. unfold field_stored, column_agrees in Hstored. rewrite Hbytes in Hstored.
    rewrite decide_False in Hserved by done. apply agree_one.
    assert (cell row (key field) = ValBytes <$> (latin1_encode <$> text_of record field)) as Hcell
      by (rewrite Hstored; by destruct (text_of record field)).
    rewrite (match_bytes_patterns_admits row (key field) (of_kind held) patterns _ Hcell); try apply Hpatterns.
    + by destruct (text_of record field).
    + destruct (text_of record field); cbn; [apply latin1_encode_bytes|done].
    + destruct Hserved as [[text ->]|]; [by left; eexists|by right].
Qed.

Lemma operations_agree table row record own field conditions :
  table_ok table -> field ∈ fields table ->
  Forall (operation_ok table) (operation_filters own) -> field_stored row record field ->
  Forall (patterns_served record) (operation_filters own) ->
  operation_conditions own field dialect = Some conditions ->
  agree row conditions
    (Some (forallb (operation_held own field (raw_of record field) (text_of record field))
             (operations field))).
Proof.
  intros Htable Hfield Hok Hstored Hserved Hc. unfold operation_conditions in Hc.
  destruct (mapM _ _) as [lists|] eqn:Hm; [|done]. injection Hc as <-.
  assert (forall l, all_opt (fun operation =>
    Some (operation_held own field (raw_of record field) (text_of record field) operation)) l =
    Some (forallb (operation_held own field (raw_of record field) (text_of record field)) l)) as Hall.
  { induction l as [|a l IH]; [done|]. cbn. by destruct (operation_held _ _ _ _ _). }
  rewrite <- Hall. eapply agree_all; [exact Hm|].
  intros operation held Hop Hheld. by eapply operation_agrees.
Qed.

(** ** Time *)

Definition comparison_op (op : BinOper) : bool :=
  match op with OpLt | OpLte | OpGt | OpGte => true | _ => false end.

Lemma comparison_op_other op : comparison_op op = true -> op <> OpAnd /\ op <> OpOr /\ op <> OpGlob.
Proof. by destruct op. Qed.

Definition bound_held (op : BinOper) (stamp : Z) (at_ : option Z) : bool :=
  match at_ with Some at_ => oper_holds op (stamp ?= at_) | None => true end.

(** An instant that SQLite's text can hold. *)
Definition holdable (at_ : option Z) : Prop := dialect = SqliteText -> opt_ok stamp_storable at_.

Lemma bound_agrees row op column stamp at_ :
  comparison_op op = true -> cell row column = Some (timestamp_value stamp dialect) ->
  holdable (Some stamp) -> holdable at_ ->
  agree row (bound op (Col column) dialect at_) (Some (bound_held op stamp at_)).
Proof.
  intros Hop Hcell Hstamp Hat. destruct at_ as [at_|]; [|apply agree_nil]. apply agree_one.
  destruct (comparison_op_other _ Hop) as (? & ? & ?).
  rewrite <- value_col in Hcell. unfold admits.
  rewrite (holds_compare row op _ (timestamp_value stamp dialect) (timestamp_value at_ dialect) (stamp ?= at_)); try done.
  - cbn [bound_held]. split; [by intros [= ->]|by intros ->].
  - apply stamps_ordered. intros Hd. split; [by apply Hstamp|by apply Hat].
Qed.

Lemma bound_null row op column at_ :
  comparison_op op = true -> cell row column = None ->
  agree row (bound op (Col column) dialect at_) (Some (negb (bool_decide (is_Some at_)))).
Proof.
  intros Hop Hcell. destruct at_ as [at_|]; [|apply agree_nil]. apply agree_one.
  destruct (comparison_op_other _ Hop) as (? & ? & ?).
  rewrite <- value_col in Hcell. unfold admits. by rewrite holds_compare_null.
Qed.

Lemma int_compare_holds row op a held wanted :
  comparison_op op = true -> value row a = Some (ValInt held) ->
  holds row (Binary op a (Lit (ValInt wanted))) = Some (oper_holds op (held ?= wanted)).
Proof. intros (? & ? & ?)%comparison_op_other Hvalue. by apply (holds_compare row op a (ValInt held)). Qed.

Lemma oper_holds_le a b : oper_holds OpGte (a ?= b) = (b <=? a).
Proof. rewrite Z.leb_compare, Z.compare_antisym. by destruct (b ?= a). Qed.
Lemma oper_holds_lt a b : oper_holds OpLt (a ?= b) = (a <? b).
Proof. rewrite Z.ltb_compare. by destruct (a ?= b). Qed.
Lemma oper_holds_gt a b : oper_holds OpGt (a ?= b) = (b <? a).
Proof. rewrite Z.ltb_compare, Z.compare_antisym. by destruct (b ?= a). Qed.
Lemma oper_holds_lte a b : oper_holds OpLte (a ?= b) = (a <=? b).
Proof. rewrite Z.leb_compare. by destruct (a ?= b). Qed.

Lemma clock_agrees row column part format held after before span :
  value row (clock_part column part format dialect) = Some (ValInt held) ->
  agree row (clock_condition column dialect after before span part format)
    (Some (clock_held after before span held)).
Proof.
  intros Hvalue. unfold clock_condition, clock_held.
  destruct (clock_window after before span) as [[[minimum maximum] contiguous]|]; [|apply agree_nil].
  apply agree_one. destruct contiguous; [rewrite admits_and, andb_true_iff|rewrite admits_or, orb_true_iff];
    unfold admits; rewrite (int_compare_holds row OpGte _ _ minimum eq_refl Hvalue),
      (int_compare_holds row OpLt _ _ maximum eq_refl Hvalue), oper_holds_le, oper_holds_lt;
    destruct (minimum <=? held), (held <? maximum); naive_solver.
Qed.

Lemma clock_null row column part format after before span :
  cell row column = None ->
  agree row (clock_condition column dialect after before span part format)
    (Some (negb (bool_decide (is_Some after) || bool_decide (is_Some before)))).
Proof.
  intros Hcell. unfold clock_condition, clock_window.
  assert (forall op wanted, comparison_op op = true ->
    admits row (Binary op (clock_part column part format dialect) (Lit wanted)) <-> False) as Hnone.
  { intros op wanted (? & ? & ?)%comparison_op_other. unfold admits.
    rewrite holds_compare_null; [done..|]. by apply value_clock_null. }
  destruct after as [after|], before as [before|]; cbn; try apply agree_nil; apply agree_one;
    destruct (_ <=? _); rewrite ?admits_and, ?admits_or, !Hnone by done; naive_solver.
Qed.

(** Every instant of a window's conditions, set or reached, as text can hold
    it. *)
Record windows_holdable (own : FilterConditions) (now : Z) : Prop := {
  holdable_after : holdable (after own);
  holdable_before : holdable (before own);
  holdable_span start end_ : timespan_bounds own now = Some (start, end_) -> holdable start /\ holdable end_;
  holdable_oldest at_ : aged now (max_age own) = Some at_ -> holdable at_;
  holdable_newest at_ : aged now (min_age own) = Some at_ -> holdable at_
}.

Lemma timestamp_matches_held own stamp now start end_ oldest newest :
  timespan_bounds own now = Some (start, end_) -> aged now (max_age own) = Some oldest ->
  aged now (min_age own) = Some newest ->
  timestamp_matches own stamp now =
    and_then (Some (bound_held OpGte stamp (after own)))
    (and_then (Some (bound_held OpLt stamp (before own)))
    (and_then (Some (bound_held OpGte stamp start))
    (and_then (Some (bound_held OpLt stamp end_))
    (and_then (Some (bound_held OpGt stamp oldest))
    (and_then (Some (bound_held OpLte stamp newest))
    (and_then (Some (clock_held (after_hour own) (before_hour own) 24 (hour stamp)))
      (Some (clock_held (after_minute own) (before_minute own) 60 (minute stamp))))))))).
Proof.
  intros Hspan Hmax Hmin. unfold timestamp_matches, bound_held, aged in *. rewrite Hspan.
  cbn [mbind option_bind].
  assert (forall a, match after own with Some a' => oper_holds OpGte (a ?= a') | None => true end =
    match after own with Some a' => a' <=? a | None => true end) as ->
    by (intros; destruct (after own); [apply oper_holds_le|done]).
  assert (forall a, match before own with Some a' => oper_holds OpLt (a ?= a') | None => true end =
    match before own with Some a' => a <? a' | None => true end) as ->
    by (intros; destruct (before own); [apply oper_holds_lt|done]).
  assert (match start with Some a' => oper_holds OpGte (stamp ?= a') | None => true end =
    match start with Some a' => a' <=? stamp | None => true end) as ->
    by (destruct start; [apply oper_holds_le|done]).
  assert (match end_ with Some a' => oper_holds OpLt (stamp ?= a') | None => true end =
    match end_ with Some a' => stamp <? a' | None => true end) as ->
    by (destruct end_; [apply oper_holds_lt|done]).
  do 4 f_equal. f_equal.
  - destruct (max_age own) as [age|]; [|by injection Hmax as <-].
    destruct (instant (now - age)) as [at_|]; [|done]. injection Hmax as <-. cbn.
    by rewrite <- oper_holds_gt.
  - f_equal.
    + destruct (min_age own) as [age|]; [|by injection Hmin as <-].
      destruct (instant (now - age)) as [at_|]; [|done]. injection Hmin as <-. cbn.
      by rewrite <- oper_holds_lte.
    + cbn. by destruct (clock_held _ _ 24 _).
Qed.

Lemma aged_set now age at_ :
  aged now age = Some at_ -> bool_decide (is_Some at_) = bool_decide (is_Some age).
Proof.
  unfold aged. destruct age as [age|]; [|by intros [= <-]].
  destruct (instant (now - age)) as [reached|]; [|done]. by intros [= <-].
Qed.

Lemma timespan_set own now start end_ :
  timespan_bounds own now = Some (start, end_) ->
  bool_decide (is_Some start) || bool_decide (is_Some end_) = bool_decide (is_Some (timespan own)).
Proof.
  unfold timespan_bounds. destruct (timespan own) as [span|]; [|by intros [= <- <-]].
  destruct (after own) as [a|]; [|destruct (before own) as [b|]];
    (destruct (instant _) as [reached|]; [|done]); by intros [= <- <-].
Qed.

(** No condition is compiled exactly when no timestamp is needed. *)
Lemma no_timestamp_needed own now start end_ oldest newest :
  timespan_bounds own now = Some (start, end_) -> aged now (max_age own) = Some oldest ->
  aged now (min_age own) = Some newest ->
  Some (negb (needs_timestamp own)) =
      and_then (Some (negb (bool_decide (is_Some (after own)))))
      (and_then (Some (negb (bool_decide (is_Some (before own)))))
      (and_then (Some (negb (bool_decide (is_Some start))))
      (and_then (Some (negb (bool_decide (is_Some end_))))
      (and_then (Some (negb (bool_decide (is_Some oldest))))
      (and_then (Some (negb (bool_decide (is_Some newest))))
      (and_then (Some (negb (bool_decide (is_Some (after_hour own)) || bool_decide (is_Some (before_hour own)))))
        (Some (negb (bool_decide (is_Some (after_minute own)) ||
                     bool_decide (is_Some (before_minute own))))))))))).
Proof.
  intros Hspan%timespan_set Hmax%aged_set Hmin%aged_set. unfold needs_timestamp.
  rewrite <- Hspan, <- Hmax, <- Hmin. clear.
  by repeat match goal with |- context [bool_decide ?P] => destruct (bool_decide P); cbn end.
Qed.

Lemma windows_agree row column own now windows (stamp : option Z) :
  cell row column = (fun stamp => timestamp_value stamp dialect) <$> stamp -> holdable stamp ->
  windows_holdable own now -> window_conditions own (Col column) now dialect = Some windows ->
  agree row (windows ++ clock_conditions own column dialect)
    (match stamp with
     | Some stamp => timestamp_matches own stamp now
     | None => Some (negb (needs_timestamp own))
     end).
Proof.
  intros Hcell Hstamp Hhold Hc. unfold window_conditions in Hc.
  destruct (timespan_bounds own now) as [[start end_]|] eqn:Hspan; [|done].
  destruct (aged now (max_age own)) as [oldest|] eqn:Hmax; [|done].
  destruct (aged now (min_age own)) as [newest|] eqn:Hmin; [|done].
  injection Hc as <-. cbn [fst snd]. unfold clock_conditions. rewrite <- !app_assoc.
  destruct (holdable_span _ _ Hhold _ _ Hspan) as [Hstart Hend].
  destruct stamp as [stamp|]; cbn in Hcell.
  - rewrite (timestamp_matches_held _ _ _ _ _ _ _ Hspan Hmax Hmin).
    destruct (value_clock row column stamp Hstamp Hcell) as [Hhour Hminute].
    repeat apply agree_and; first [apply bound_agrees; try done|by apply clock_agrees];
      solve [apply Hhold|by eapply holdable_oldest|by eapply holdable_newest].
  - rewrite (no_timestamp_needed _ _ _ _ _ _ Hspan Hmax Hmin).
    repeat apply agree_and; first [by apply bound_null|by apply clock_null].
Qed.

(** ** Levels *)

Lemma below_five n : (n < 5)%nat -> n ∈ seq 0 5.
Proof. rewrite elem_of_seq. lia. Qed.

Ltac level_cases H :=
  apply below_five in H; cbn in H;
  repeat (apply elem_of_cons in H as [->|H]); [..|by apply elem_of_nil in H];
  unfold level_position; cbn; rewrite ?elem_of_cons, elem_of_nil; repeat case_decide; subst; naive_solver.

Lemma level_from text minimum :
  (minimum < 5)%nat -> text ∈ drop minimum LEVEL_VALUES <->
  match level_position text with Some place => (minimum <=? place)%nat | None => false end = true.
Proof. intros Hlevel. level_cases Hlevel. Qed.

Lemma level_to text maximum :
  (maximum < 5)%nat -> text ∈ take (S maximum) LEVEL_VALUES <->
  match level_position text with Some place => (place <=? maximum)%nat | None => false end = true.
Proof. intros Hlevel. level_cases Hlevel. Qed.

Definition level_bound (test : nat -> bool) (text : option string) : bool :=
  match text ≫= level_position with Some place => test place | None => false end.

Lemma levels_agree row column levels listed (text : option string) test conditions :
  cell row column = ValText <$> text -> levels = Some listed -> listed <> [] ->
  (forall text, text ∈ listed <->
    match level_position text with Some place => test place | None => false end = true) ->
  level_condition (Col column) levels = Some conditions ->
  agree row conditions (Some (level_bound test text)).
Proof.
  intros Hcell -> Hne Htest [= <-]. apply agree_one. rewrite <- value_col in Hcell.
  rewrite (is_in_admits _ _ _ _ _ Hcell Hne) by (intros; apply text_encoded).
  unfold level_bound. destruct text as [text|]; [by rewrite Htest|done].
Qed.

Lemma level_agrees row column own (text : option string) lowest highest :
  cell row column = ValText <$> text ->
  opt_ok (fun level => (level < 5)%nat) (min_level own) ->
  opt_ok (fun level => (level < 5)%nat) (max_level own) ->
  match min_level own with
  | Some minimum => level_condition (Col column) (levels_from minimum)
  | None => Some []
  end = Some lowest ->
  match max_level own with
  | Some maximum => level_condition (Col column) (levels_to maximum)
  | None => Some []
  end = Some highest ->
  agree row (lowest ++ highest) (Some (level_held own text)).
Proof.
  intros Hcell Hmin Hmax Hlow Hhigh.
  assert (Some (level_held own text) =
    and_then (Some (match min_level own with
                    | Some minimum => level_bound (fun place => (minimum <=? place)%nat) text
                    | None => true end))
      (Some (match max_level own with
             | Some maximum => level_bound (fun place => (place <=? maximum)%nat) text
             | None => true end))) as ->.
  { unfold level_held, level_bound. cbn. by destruct (min_level own), (max_level own), (text ≫= level_position);
      cbn; repeat destruct (_ <=? _)%nat. }
  apply agree_and.
  - destruct (min_level own) as [minimum|]; [|injection Hlow as <-; apply agree_nil].
    cbn in Hmin. eapply levels_agree; [done| | |intros; by apply level_from|exact Hlow].
    + unfold levels_from. by rewrite (proj2 (Nat.leb_le _ _)) by (cbn; lia).
    + apply below_five in Hmin. cbn in Hmin.
      repeat (apply elem_of_cons in Hmin as [->|Hmin]); [by vm_compute..|by apply elem_of_nil in Hmin].
  - destruct (max_level own) as [maximum|]; [|injection Hhigh as <-; apply agree_nil].
    cbn in Hmax. eapply levels_agree; [done| | |intros; by apply level_to|exact Hhigh]; [|done].
    unfold levels_to. by rewrite (proj2 (Nat.leb_le _ _)) by (cbn; lia).
Qed.

(** ** A field's conditions *)

(** What both sides serve: patterns and instants the backend takes as the
    matcher does, and no subsampling, which is a property of a listing rather
    than of a record. *)
Record own_served (record : Record_) (now : Z) (own : FilterConditions) : Prop := {
  served_patterns : Forall (patterns_served record) (operation_filters own);
  served_stamps : dialect = SqliteText ->
    Forall (fun entry => match snd entry with Stamps stamps => Forall stamp_storable stamps | _ => True end)
      (equalities own);
  served_windows : windows_holdable own now;
  served_whole : subsample_every own = None /\ subsample own = None
}.

Lemma values_of_elem own field values :
  values_of own field = Some values -> (key field, values) ∈ equalities own.
Proof.
  unfold values_of. destruct (find _ _) as [[key' held]|] eqn:Hfind; [|done]. intros [= <-].
  apply find_some in Hfind as [Hin Heq%bool_decide_eq_true]. cbn in Heq. subst.
  by apply list_elem_of_In.
Qed.

Lemma equality_part table row record own now field :
  table_ok table -> field ∈ fields table -> conditions_ok table own -> own_served record now own ->
  field_stored row record field ->
  agree row
    (match values_of own field with
     | Some values => [equality_condition field values dialect]
     | None => []
     end)
    (Some (match values_of own field with
           | Some values => values_held values (family field) (raw_of record field) (text_of record field)
           | None => true
           end)).
Proof.
  intros Htable Hfield Hok Hserved Hstored.
  destruct (values_of own field) as [values|] eqn:Hvalues; [|apply agree_nil].
  apply values_of_elem in Hvalues. apply equality_agrees; [|done|].
  - pose proof (ok_equalities _ _ Hok) as Heq. rewrite Forall_forall in Heq.
    destruct (Heq _ Hvalues) as (field' & Hin & Hkey & Hv). cbn in Hkey, Hv.
    by rewrite (NoDup_fmap_inj key (fields table) field field') by (done || apply Htable).
  - intros Hd. pose proof (served_stamps _ _ _ Hserved Hd) as Hs. rewrite Forall_forall in Hs.
    exact (Hs _ Hvalues).
Qed.

Lemma selected_part table row record own field selected :
  conditions_ok table own -> field_stored row record field ->
  (match family field, address own with
   | Address, Some selector =>
       condition ← condition selector (key field) (root own) dialect; Some [condition]
   | _, _ => Some []
   end) = Some selected ->
  agree row selected
    (match family field, address own with
     | Address, Some selector =>
         match text_of record field with
         | Some text => Selector.matches selector text (root own)
         | None => Some false
         end
     | _, _ => Some true
     end).
Proof.
  intros Hok Hstored Hc. unfold field_stored, column_agrees in Hstored. pose proof (ok_address _ _ Hok) as Haddress.
  destruct (family field); try (injection Hc as <-; apply agree_nil).
  destruct (address own) as [selector|]; [|injection Hc as <-; apply agree_nil].
  destruct Hstored as [[text Htext] Hcell]. rewrite Htext in Hcell |- *.
  destruct (condition_correct row (key field) (root own) selector text Haddress
    (ok_root _ _ Hok) Hcell) as (expr & matched & Hexpr & Hmatched & Hholds).
  rewrite Hexpr in Hc. injection Hc as <-. rewrite Hmatched. apply agree_one. unfold admits.
  rewrite Hholds. split; [by intros [= ->]|by intros ->].
Qed.

Lemma family_part table row record own now field by_family :
  conditions_ok table own -> own_served record now own -> field_stored row record field ->
  (match family field with
   | Timestamp =>
       windows ← window_conditions own (Col (key field)) now dialect;
       subsampled ← subsample_conditions own table (key field) now dialect;
       Some (windows ++ subsampled ++ clock_conditions own (key field) dialect)
   | Level =>
       lowest ← match min_level own with
                | Some minimum => level_condition (Col (key field)) (levels_from minimum)
                | None => Some []
                end;
       highest ← match max_level own with
                 | Some maximum => level_condition (Col (key field)) (levels_to maximum)
                 | None => Some []
                 end;
       Some (lowest ++ highest)
   | _ => Some []
   end) = Some by_family ->
  agree row by_family
    (match family field with
     | Timestamp =>
         match record_timestamp (text_of record field) with
         | None => Some (negb (needs_timestamp own))
         | Some stamp => timestamp_matches own stamp now
         end
     | Level => Some (level_held own (text_of record field))
     | _ => Some true
     end).
Proof.
  intros Hok Hserved Hstored Hc. unfold field_stored, column_agrees in Hstored.
  destruct (family field); try (injection Hc as <-; apply agree_nil).
  - destruct (window_conditions _ _ _ _) as [windows|] eqn:Hwindows; [|done]. cbn in Hc.
    unfold subsample_conditions in Hc. destruct (served_whole _ _ _ Hserved) as [Hevery Hcount].
    rewrite Hevery, Hcount in Hc. cbn in Hc. injection Hc as <-. destruct Hstored as [Hcell Hheld].
    pose proof (windows_agree row (key field) own now windows _ Hcell Hheld
      (served_windows _ _ _ Hserved) Hwindows) as Hagree.
    by destruct (record_timestamp (text_of record field)).
  - apply bind_Some in Hc as (lowest & Hlow & Hc). apply bind_Some in Hc as (highest & Hhigh & Hc).
    injection Hc as <-. eapply level_agrees; try done; apply Hok.
Qed.

Lemma field_agrees table row record own now field conditions :
  table_ok table -> field ∈ fields table -> conditions_ok table own -> own_served record now own ->
  field_stored row record field ->
  field_conditions own table dialect now true field = Some conditions ->
  agree row conditions (field_matches own record now field).
Proof.
  intros Htable Hfield Hok Hserved Hstored Hc. unfold field_conditions in Hc.
  apply bind_Some in Hc as (operations' & Hoperations & Hc).
  apply bind_Some in Hc as (selected & Hselected & Hc).
  apply bind_Some in Hc as (by_family & Hfamily & Hc). injection Hc as <-.
  eapply (agree_perm row (_ ++ selected ++ operations' ++ by_family)).
  { apply Permutation_app_head. rewrite !(app_assoc _ _ by_family).
    apply Permutation_app_tail, Permutation_app_comm. }
  unfold field_matches. fold (raw_of record field). fold (text_of record field).
  repeat apply agree_and.
  - by eapply equality_part.
  - by eapply selected_part.
  - eapply operations_agree; try done; [apply Hok|apply Hserved].
  - by eapply family_part.
Qed.

(** ** Computed predicates *)

Lemma shape_agrees row record predicate condition :
  shape_stored row record predicate -> shape_condition predicate dialect = Some condition ->
  holds row condition =
    Some (match record !! computed_column predicate with
          | Some raw => shape_holds (shape predicate) raw
          | None => false
          end).
Proof.
  intros Hstored Hc. unfold shape_stored, shape_condition in *. destruct (shape predicate) as [|wanted|].
  - destruct Hstored as (text & Hraw & Hcell). destruct (record !! _) as [raw|]; [|done]. cbn in Hraw.
    cbn in Hc. injection Hc as <-. rewrite <- value_col in Hcell.
    unfold expr_and. rewrite holds_and.
    rewrite (text_pattern_holds row (Col (computed_column predicate)) Prefix "__" text) by done.
    rewrite (text_pattern_holds row (Col (computed_column predicate)) Suffix "__" text) by done.
    rewrite kleene_and_some. cbn. by rewrite Hraw.
  - destruct Hstored as (text & Hraw & Hcell). destruct (record !! _) as [raw|]; [|done]. cbn in Hraw.
    injection Hc as <-. rewrite <- value_col in Hcell. unfold expr_eq.
    rewrite (holds_compare row OpEq _ (ValText text) (ValText wanted) (Strings.String.compare text wanted)) by done.
    cbn. rewrite Hraw. f_equal. apply eq_true_iff_eq. rewrite bool_decide_eq_true, (inj_iff Some).
    rewrite <- text_compare_eq. by destruct (Strings.String.compare text wanted).
  - injection Hc as <-. rewrite holds_is_not_null. f_equal. apply eq_true_iff_eq.
    rewrite bool_decide_eq_true, Hstored. destruct (record !! _) as [raw|]; cbn; [|naive_solver].
    rewrite negb_true_iff, bool_decide_eq_false. naive_solver.
Qed.

Lemma computed_agrees row record entry condition :
  shape_stored row record (fst entry) -> computed_condition dialect entry = Some condition ->
  agree row [condition] (Some (computed_held record entry)).
Proof.
  destruct entry as [predicate sense]. cbn [fst]. intros Hstored Hc. unfold computed_condition in Hc.
  apply bind_Some in Hc as (shaped & Hshape & Hc). injection Hc as <-. cbn in Hshape |- *.
  pose proof (shape_agrees _ _ _ _ Hstored Hshape) as Hholds.
  apply agree_one. unfold admits. destruct sense; [|rewrite holds_not]; rewrite Hholds;
    destruct (match record !! _ with Some _ => _ | None => _ end); naive_solver.
Qed.

(** ** A node *)

Lemma own_agrees table row record own now conditions :
  table_ok table -> conditions_ok table own -> own_served record now own ->
  row_stores table row record ->
  conditions_with_address own table dialect now true = Some conditions ->
  agree row conditions (matches_own table own record now).
Proof.
  intros Htable Hok Hserved [Hfields Hshapes] Hc. unfold conditions_with_address in Hc.
  apply bind_Some in Hc as (computed' & Hcomputed & Hc).
  apply bind_Some in Hc as (by_field & Hby & Hc). injection Hc as <-.
  assert (agree row (if impossible own then [Lit (ValBool false)] else [])
    (Some (negb (impossible own)))) as Himpossible.
  { destruct (impossible own); [|apply agree_nil]. apply agree_one. unfold admits. by rewrite holds_lit. }
  assert (agree row computed' (Some (forallb (computed_held record) (computed_filters own)))) as Hagree.
  { pose proof (ok_computed _ _ Hok) as Hin. clear Himpossible Hby.
    revert computed' Hcomputed. induction (computed_filters own) as [|entry l IH]; intros computed' Hm.
    { injection Hm as <-. apply agree_nil. }
    apply Forall_cons in Hin as [Hentry Hin]. cbn in Hm.
    destruct (computed_condition dialect entry) as [first|] eqn:Hfirst; [|done]. cbn in Hm.
    destruct (mapM _ l) as [rest|]; [|done]. injection Hm as <-.
    rewrite Forall_forall in Hshapes.
    pose proof (agree_and row [first] rest _ _ (computed_agrees row record entry first (Hshapes _ Hentry) Hfirst)
      (IH Hin rest eq_refl)) as Hboth.
    cbn in Hboth |- *. by destruct (computed_held record entry). }
  assert (agree row (mjoin by_field) (all_opt (field_matches own record now) (fields table))) as Hall.
  { eapply agree_all; [exact Hby|]. intros field held Hfield Hheld. rewrite Forall_forall in Hfields.
    by eapply field_agrees; [..|exact Hheld]; try done; apply Hfields. }
  pose proof (agree_and _ _ _ _ _ Himpossible (agree_and _ _ _ _ _ Hagree Hall)) as Hboth.
  unfold matches_own. cbn in Hboth |- *. by destruct (impossible own), (forallb _ _).
Qed.

(** ** A tree *)

(** The own half of a node with alternatives carries a condition: with none,
    the statement drops it and the matcher accepts every record. *)
Inductive tree_served (table : Schema) (record : Record_) (now : Z) : FilterNode -> Prop :=
  | tree_served_intro own ands ors :
      own_served record now own ->
      (ors = [] \/ combined_conditions table dialect now (Node own ands []) <> Some []) ->
      Forall (tree_served table record now) ands -> Forall (tree_served table record now) ors ->
      tree_served table record now (Node own ands ors).

Lemma any_agrees {A} row (compile : A -> option (list Expr)) (test : A -> option bool) (l : list A)
    groups :
  mapM compile l = Some groups ->
  (forall a held, a ∈ l -> compile a = Some held -> agree row held (test a)) ->
  exists held, any_opt test l = Some held /\
    (List.Exists (Forall (admits row)) groups <-> held = true).
Proof.
  revert groups. induction l as [|a l IH]; intros groups Hc Ha.
  - injection Hc as <-. exists false. by rewrite Exists_nil.
  - cbn in Hc. destruct (compile a) as [first|] eqn:Hfirst; [|done]. cbn in Hc.
    destruct (mapM compile l) as [rest|]; [|done]. injection Hc as <-.
    destruct (Ha a first ltac:(left) Hfirst) as (h & Hh & Hfh).
    destruct (IH rest eq_refl) as (m & Hm & Hrest); [intros; by apply Ha; [right|]|].
    exists (h || m). rewrite Exists_cons, Hfh, Hrest, orb_true_iff. cbn. rewrite Hh. by destruct h.
Qed.

Lemma grouped_admits row conditions :
  admits row (default (Lit (ValBool true)) (all_of conditions)) <-> Forall (admits row) conditions.
Proof.
  destruct (all_of conditions) as [condition|] eqn:Hall; cbn.
  - by apply admits_all_of.
  - destruct conditions; [|done]. rewrite Forall_nil. unfold admits. by rewrite holds_lit.
Qed.

Lemma join_agrees row ands ors conditions own any_ :
  join_groups ands ors = Some conditions -> (ors = [] \/ ands <> []) ->
  agree row ands (Some own) -> (List.Exists (Forall (admits row)) ors <-> any_ = true) ->
  agree row conditions (Some (own || any_)).
Proof.
  intros Hjoin Hands (h & [= <-] & Hown) Hany. unfold join_groups in Hjoin.
  destruct ors as [|group ors]; [injection Hjoin as <-|].
  { destruct any_; [by rewrite Exists_nil in Hany; destruct (proj2 Hany eq_refl)|].
    rewrite orb_false_r. exists own. done. }
  destruct Hands as [|Hands]; [done|].
  destruct (all_of ands) as [condition|] eqn:Hall; [|by destruct ands].
  apply bind_Some in Hjoin as (joined & Hjoined & Hc). injection Hc as <-. apply agree_one.
  rewrite (admits_any _ _ _ Hjoined). cbn [app]. rewrite Exists_cons, (admits_all_of _ _ _ Hall), Hown.
  rewrite orb_true_iff, <- Hany, (Exists_fmap _ _ (group :: ors)), !Exists_exists.
  by setoid_rewrite grouped_admits.
Qed.

Section nested.
Context (P : FilterNode -> Prop)
  (step : forall own ands ors, Forall P ands -> Forall P ors -> P (Node own ands ors)).

Fixpoint filter_node_nested (self : FilterNode) : P self :=
  let each := fix each l : Forall P l :=
    match l with [] => Forall_nil_2 P | child :: l => Forall_cons_2 P child l (filter_node_nested child) (each l) end in
  match self with Node own ands ors => step own ands ors (each ands) (each ors) end.
End nested.

Lemma tree_agrees table row record now self conditions :
  table_ok table -> row_stores table row record -> node_ok table self ->
  tree_served table record now self -> combined_conditions table dialect now self = Some conditions ->
  agree row conditions (node_matches table record now self).
Proof.
  intros Htable Hstores. revert conditions.
  induction self as [own ands ors Hands Hors] using filter_node_nested.
  intros conditions Hok Hserved Hc.
  inversion Hok as [??? Hown _ Hokands Hokors]; subst.
  inversion Hserved as [??? Hservedown Hcarries Hservedands Hservedors]; subst.
  rewrite Forall_forall in Hands, Hors, Hokands, Hokors, Hservedands, Hservedors.
  cbn [combined_conditions] in Hc, Hcarries.
  apply bind_Some in Hc as (held & Hheld & Hc). rewrite Hheld in Hcarries. cbn [mbind option_bind] in Hcarries.
  apply bind_Some in Hc as (and_conditions & Hmands & Hc). rewrite Hmands in Hcarries.
  apply bind_Some in Hc as (groups & Hmors & Hc).
  pose proof (own_agrees _ _ _ _ _ _ Htable Hown Hservedown Hstores Hheld) as Hagree.
  assert (agree row (mjoin and_conditions) (all_opt (node_matches table record now) ands)) as Hall.
  { eapply agree_all; [exact Hmands|]. intros child c Hin. apply Hands; auto. }
  destruct (any_agrees row _ (node_matches table record now) _ _ Hmors) as (any_ & Hany & Hexists).
  { intros child c Hin. apply Hors; auto. }
  pose proof (agree_and _ _ _ _ _ Hagree Hall) as Hboth. cbn [node_matches].
  pose proof Hboth as (own_ & Heq & _). rewrite Heq in Hboth |- *.
  replace (match own_ with true => _ | false => _ end) with (Some (own_ || any_))
    by (by destruct own_).
  eapply join_agrees; [exact Hc| |done|done].
  destruct Hcarries as [->|Hcarries]; [by left; injection Hmors as <-|right].
  intros Hnil. apply Hcarries. cbn. by rewrite Hnil.
Qed.
End agree.
