(* ===== verification/FilterServed.v ===== *)
(** * When compiling a filter panics

    [combined_conditions] of [ceres-database/src/filter.rs] on a filter that
    parsed: every [expect], index and [unreachable] of it holds, except
    [chrono]'s arithmetic on instants it cannot hold and the width of a
    subsample in microseconds.

    The parts after this one: a backend and a record to run filters on; what a
    compiled filter promises. *)
From S2P Require Import Prelude.
From stdpp Require Import pretty gmap.
From S2P Require Import Text Sql Selector Schema Wire FilterParse FilterFacts FilterMatch FilterCompile.
From S2P Require Import FilterPatterns FilterAgree.
Local Open Scope string_scope.
Local Open Scope list_scope.
Local Open Scope Z_scope.

(** ** What a list of steps yields *)

Lemma mapM_total {A B} (f : A -> option B) (l : list A) :
  is_Some (mapM f l) <-> forall a, a ∈ l -> is_Some (f a).
Proof. rewrite mapM_is_Some, Forall_forall. done. Qed.

Lemma bind_total {A B} (o : option A) (f : A -> option B) :
  is_Some (o ≫= f) <-> exists a, o = Some a /\ is_Some (f a).
Proof. destruct o; cbn; [naive_solver|]. split; [by intros []|naive_solver]. Qed.

Section total.
Context `{Codecs} (dialect : SqlDialect).

(** ** The steps that cannot panic *)

Lemma text_patterns_total subject kind patterns fold_ :
  patterns <> [] -> is_Some (match_text_patterns subject kind patterns dialect fold_).
Proof.
  intros Hne. unfold match_text_patterns. destruct (forallb _ _); [done|]. by destruct patterns.
Qed.

Lemma operation_total table own field operation :
  table_ok table -> field ∈ fields table -> operation ∈ operations field ->
  Forall (operation_ok table) (operation_filters own) ->
  is_Some (operation_condition own field dialect operation).
Proof.
  intros Htable Hfield Hoperation Hok. unfold operation_condition.
  destruct (operation_of own field operation) as [held|] eqn:Hheld; [|done].
  apply operation_of_elem in Hheld as (Hin & _ & _). rewrite Forall_forall in Hok.
  destruct (Hok held Hin) as (_ & _ & Hpatterns). unfold patterns_ok in Hpatterns.
  destruct (of_values held) as [|texts| |patterns|]; try (destruct (family _); done).
  apply bind_total. destruct (text_patterns_total
    (if decide (family field = Json) then Cast (Col (key field)) "TEXT" else Col (key field))
    (of_kind held) texts (insensitive operation)) as [condition Hc]; [|by exists condition].
  destruct (family (of_field held)); by destruct Hpatterns.
Qed.

Lemma selector_total column root self :
  selector_ok self -> root_ok root -> is_Some (condition self column root dialect).
Proof.
  intros Hself Hroot.
  destruct (condition_correct (dialect := dialect) ({[column := ValText ""]} : SimpleRow) column root self ""
    Hself Hroot) as (expr & _ & Hexpr & _); [by apply lookup_singleton_eq|by exists expr].
Qed.

Lemma computed_total entry : is_Some (computed_condition dialect entry).
Proof.
  unfold computed_condition, shape_condition. destruct (shape (fst entry)); [|done..].
  apply bind_total. destruct (text_patterns_total (Col (computed_column (fst entry))) Prefix ["__"] false)
    as [opens Hopens]; [done|].
  destruct (text_patterns_total (Col (computed_column (fst entry))) Suffix ["__"] false)
    as [closes Hcloses]; [done|]. rewrite Hopens, Hcloses. by eexists.
Qed.

Lemma level_total column own :
  opt_ok (fun level => (level < 5)%nat) (min_level own) ->
  opt_ok (fun level => (level < 5)%nat) (max_level own) ->
  is_Some (match min_level own with
           | Some minimum => level_condition column (levels_from minimum)
           | None => Some []
           end) /\
  is_Some (match max_level own with
           | Some maximum => level_condition column (levels_to maximum)
           | None => Some []
           end).
Proof.
  intros Hmin Hmax. unfold levels_from, levels_to.
  destruct (min_level own), (max_level own); cbn in Hmin, Hmax;
    rewrite ?(proj2 (Nat.leb_le _ _)) by (cbn; lia); by cbn.
Qed.

(** ** The steps that can *)

(** Every instant a node's windows reach is one that is held, and a subsample's
    spacing is counted in microseconds. *)
Definition reaches (now : Z) (own : FilterConditions) : Prop :=
  is_Some (timespan_bounds own now) /\ is_Some (aged now (max_age own)) /\
  is_Some (aged now (min_age own)) /\
  opt_ok (fun every => is_Some (num_microseconds every)) (subsample_every own).

Lemma windows_total own column now :
  is_Some (window_conditions own column now dialect) <->
  is_Some (timespan_bounds own now) /\ is_Some (aged now (max_age own)) /\
  is_Some (aged now (min_age own)).
Proof.
  unfold window_conditions.
  rewrite bind_total. split.
  - intros (bounds & Hb & (oldest & Ho & (newest & Hn & _)%bind_total)%bind_total).
    rewrite Hb, Ho, Hn. split_and!; by eexists.
  - intros ([bounds ->] & [oldest ->] & [newest ->]). by eexists.
Qed.

Lemma subsample_total own table column now :
  is_Some (timespan_bounds own now) -> is_Some (aged now (max_age own)) ->
  is_Some (aged now (min_age own)) ->
  is_Some (subsample_conditions own table column now dialect) <->
  opt_ok (fun every => is_Some (num_microseconds every)) (subsample_every own).
Proof.
  intros [bounds Hbounds] [oldest Holdest] [newest Hnewest].
  unfold subsample_conditions, time_bounds. rewrite Hbounds, Holdest, Hnewest. cbn.
  destruct (subsample_every own) as [every|]; [|by destruct (subsample own)].
  cbn. destruct (num_microseconds every); split; try (by intros []); by eexists.
Qed.

(** ** A field, a node, a tree *)

Lemma field_total table own now with_address field :
  table_ok table -> field ∈ fields table -> conditions_ok table own ->
  is_Some (field_conditions own table dialect now with_address field) <->
  (family field = Timestamp -> reaches now own).
Proof.
  intros Htable Hfield Hok. unfold field_conditions.
  assert (is_Some (operation_conditions own field dialect)) as [operations' ->].
  { unfold operation_conditions. rewrite fmap_is_Some, mapM_total. intros operation Hin.
    eapply operation_total; try done; apply Hok. }
  cbn [mbind option_bind].
  assert (is_Some (match family field, address own with
    | Address, Some selector =>
        if with_address then
          condition ← condition selector (key field) (root own) dialect; Some [condition]
        else Some []
    | _, _ => Some []
    end)) as [selected Hselected].
  { pose proof (ok_address _ _ Hok) as Haddress. destruct (family field); try done.
    destruct (address own) as [selector|]; [|done]. destruct with_address; [|done].
    destruct (selector_total (key field) (root own) selector Haddress (ok_root _ _ Hok)) as [c ->]. done. }
  rewrite Hselected. cbn [mbind option_bind]. unfold reaches.
  destruct (family field); try (split; [done|by eexists]).
  - rewrite bind_total. split.
    + intros (by_family & Hby & _) _. apply bind_Some in Hby as (windows & Hwindows & Hby).
      apply bind_Some in Hby as (subsampled & Hsub & _).
      assert (is_Some (window_conditions own (Col (key field)) now dialect)) as (? & ? & ?)%windows_total by done.
      split_and!; try done. by eapply (subsample_total own table (key field) now); [..|eexists].
    + intros (Hspan & Hmax & Hmin & Hevery)%(fun f => f eq_refl).
      destruct (proj2 (windows_total own (Col (key field)) now)) as [windows Hwindows]; [done|].
      destruct (proj2 (subsample_total own table (key field) now Hspan Hmax Hmin) Hevery) as [sub Hsub].
      rewrite Hwindows, Hsub. by eexists.
  - split; [done|intros _].
    destruct (level_total (Col (key field)) own (ok_min_level _ _ Hok) (ok_max_level _ _ Hok))
      as [[lowest ->] [highest ->]]. by eexists.
Qed.

Lemma own_total table own now with_address :
  table_ok table -> Timestamp ∈ family <$> fields table -> conditions_ok table own ->
  is_Some (conditions_with_address own table dialect now with_address) <-> reaches now own.
Proof.
  intros Htable Htime Hok. unfold conditions_with_address.
  destruct (proj2 (mapM_total (computed_condition dialect) (computed_filters own)))
    as [computed' ->]; [intros; apply computed_total|]. cbn [mbind option_bind].
  rewrite bind_total. apply list_elem_of_fmap in Htime as (timed & Htimed & Hin). split.
  - intros (by_field & Hby & _). assert (is_Some (mapM (field_conditions own table dialect now with_address)
      (fields table))) as Hall by done. rewrite mapM_total in Hall.
    by apply (field_total table own now with_address timed); auto.
  - intros Hreaches. assert (is_Some (mapM (field_conditions own table dialect now with_address)
      (fields table))) as [by_field ->]; [|by eexists].
    rewrite mapM_total. intros field Hfield. by apply field_total.
Qed.

Lemma join_total ands ors : is_Some (join_groups ands ors).
Proof.
  unfold join_groups. destruct ors as [|group ors]; [done|].
  destruct (all_of ands); by eexists.
Qed.

Inductive tree_reaches (now : Z) : FilterNode -> Prop :=
  | tree_reaches_intro own ands ors :
      reaches now own -> Forall (tree_reaches now) ands -> Forall (tree_reaches now) ors ->
      tree_reaches now (Node own ands ors).

Lemma tree_total table now self :
  table_ok table -> Timestamp ∈ family <$> fields table -> node_ok table self ->
  is_Some (combined_conditions table dialect now self) <-> tree_reaches now self.
Proof.
  intros Htable Htime. induction self as [own ands ors Hands Hors] using filter_node_nested. intros Hok.
  inversion Hok as [??? Hown _ Hokands Hokors]; subst. cbn [combined_conditions].
  rewrite Forall_forall in Hands, Hors, Hokands, Hokors.
  assert (is_Some (mapM (combined_conditions table dialect now) ands) <-> Forall (tree_reaches now) ands)
    as Hmands by (rewrite mapM_total, Forall_forall; naive_solver).
  assert (is_Some (mapM (combined_conditions table dialect now) ors) <-> Forall (tree_reaches now) ors)
    as Hmors by (rewrite mapM_total, Forall_forall; naive_solver).
  pose proof (own_total table own now true Htable Htime Hown) as Hheld. split.
  - intros Hc. apply bind_total in Hc as (held & Hc1 & Hc).
    apply bind_total in Hc as (and_conditions & Hc2 & Hc).
    apply bind_total in Hc as (groups & Hc3 & _). constructor.
    + apply Hheld. by eexists.
    + apply Hmands. by eexists.
    + apply Hmors. by eexists.
  - intros Hreaches. inversion Hreaches as [??? Hr1 Hr2 Hr3]; subst.
    apply Hheld in Hr1. apply Hmands in Hr2. apply Hmors in Hr3. destruct Hr1 as [held ->], Hr2 as [and_conditions ->], Hr3 as [groups ->]. apply join_total.
Qed.
End total.

(** * A backend and a record to run filters on

    The evaluator of [Sql] as a PostgreSQL that serves the functions the
    conditions call, codecs enough for a few values, and a row of [logs] with
    the record it stores. *)

Definition quote_mark : ascii := Strings.Ascii.ascii_of_nat 34.

(** JSON of a text that needs no escapes, and back. *)
Definition quoted (text : string) : string := String quote_mark (text +:+ String quote_mark "").
Definition unquoted (raw : string) : option string :=
  match raw with
  | String c rest =>
      if Strings.Ascii.eqb c quote_mark
      then Some (Strings.String.substring 0 (Strings.String.length rest - 1) rest) else None
  | EmptyString => None
  end.

(** An instant's text by its sign and binary digits, lowest first. *)
Fixpoint digits_text (p : positive) : string :=
  match p with
  | xH => "."
  | xO p => String "0" (digits_text p)
  | xI p => String "1" (digits_text p)
  end.
Fixpoint digits_read (text : string) : option positive :=
  match text with
  | String c text =>
      if Strings.Ascii.eqb c "." then Some xH
      else if Strings.Ascii.eqb c "0" then xO <$> digits_read text
      else xI <$> digits_read text
  | EmptyString => None
  end.

Definition instant_text (stamp : Z) : string :=
  match stamp with
  | Z0 => "z" | Zpos p => String "+" (digits_text p) | Zneg p => String "-" (digits_text p)
  end.
Definition instant_read (text : string) : option Z :=
  match text with
  | String c text =>
      if Strings.Ascii.eqb c "z" then Some 0
      else if Strings.Ascii.eqb c "+" then Zpos <$> digits_read text
      else if Strings.Ascii.eqb c "-" then Zneg <$> digits_read text
      else if decide (text = "970-01-01T00:00:02Z") then Some 2000000000 else None
  | EmptyString => None
  end.

Lemma digits_round_trip p : digits_read (digits_text p) = Some p.
Proof. induction p as [p IH|p IH|]; cbn; by rewrite ?IH. Qed.

Lemma instant_round_trip stamp : instant_read (instant_text stamp) = Some stamp.
Proof. destruct stamp; cbn; by rewrite ?digits_round_trip. Qed.

(** [chrono]'s instants run from the year -262143 to the year 262142. *)
#[export] Instance sample_codecs : Codecs := {|
  json_string := unquoted;
  json_bool := fun raw =>
    if decide (raw = "true") then Some true else if decide (raw = "false") then Some false else None;
  json_compact := fun raw => Some raw;
  rfc3339 := instant_read;
  timestamp_text := pretty;
  unicode_lower := fun text => text;
  instant_min := -8334601228800 * 1000000000;
  instant_max := 8210266876799 * 1000000000 + 999999999
|}.

Lemma quoted_round_trip text : unquoted (quoted text) = Some text.
Proof.
  unfold unquoted, quoted. cbn [Strings.Ascii.eqb]. rewrite Strings.Ascii.eqb_refl. f_equal.
  induction text as [|c text IH]; [done|]. rewrite str_app_cons. cbn [Strings.String.length].
  assert (exists n, Strings.String.length (text +:+ String quote_mark "") = S n) as [n Hn].
  { destruct text; [|rewrite str_app_cons]; by eexists. }
  rewrite Hn in IH |- *. cbn in IH |- *. rewrite ?Nat.sub_0_r in IH. rewrite ?Nat.sub_0_r. by rewrite IH.
Qed.

#[export] Program Instance sample_functions : SqlFunctions Postgres SimpleRow.
Next Obligation. done. Qed.
Next Obligation. done. Qed.
Next Obligation. done. Qed.
Next Obligation. intros row column held _ Hcell. cbn in Hcell |- *. by rewrite Hcell. Qed.
Next Obligation. intros row name column arguments _ Hcell. cbn in Hcell |- *. rewrite Hcell. by destruct arguments. Qed.
Next Obligation. intros row column stamp _ Hcell. cbn in Hcell |- *. by rewrite Hcell. Qed.
Next Obligation. intros row column part format Hcell. cbn in Hcell |- *. by rewrite Hcell. Qed.
Next Obligation. done. Qed.

Definition sample_record : Record_ :=
  {[ "id" := quoted "00000000-0000-0000-0000-000000000001"; "address" := quoted "@rig.engine";
     "timestamp" := quoted "1970-01-01T00:00:02Z"; "level" := quoted "error";
     "content" := quoted "pump failed" ]}.

Definition sample_row : SimpleRow :=
  {[ "id" := ValUuid "00000000-0000-0000-0000-000000000001"; "address" := ValText "@rig.engine";
     "timestamp" := ValTimestamp 2000000000; "level" := ValText "error";
     "content" := ValText "pump failed" ]}.

(** The columns' and the record's values, by decision. *)
Lemma sample_stores : row_stores (dialect := Postgres) (record_schema Logs) sample_row sample_record.
Proof.
  split; [|by constructor].
  repeat (apply Forall_cons; split; [vm_compute; repeat split; try done; by eexists|]). apply Forall_nil. done.
Qed.

(** Failures at the engine or above warning within an hour, in the first
    seconds of the epoch, or anything at the level of debugging. *)
Definition content_field : FilterField :=
  default {| key := ""; family := Text; operations := []; hidden := false |}
    (find (fun field => bool_decide (key field = "content")) (fields (record_schema Logs))).

Definition sample_alternative : FilterNode :=
  Node (set_equalities [("level", Texts ["debug"])] conditions_default) [] [].

Definition sample_conditions : FilterConditions :=
  set_address (Some rig_selector) (set_root (Some "@rig") (set_min_level (Some 2%nat)
    (set_max_age (Some 3600000000000) (set_operation_filters
      [{| of_field := content_field; of_kind := Contains; of_values := Texts ["fail"; "stall"] |}]
      conditions_default)))).

Definition sample_node : FilterNode :=
  Node sample_conditions
    [Node (set_after (Some 1000000000) (set_before_hour (Some 6) conditions_default)) [] []]
    [sample_alternative].

(** * What a compiled filter promises

    The properties of matching and compiling a filter of
    [ceres-database/src/filter.rs], and the inputs they are shown at. *)

(** ** The schemas the theorems cover

    Every table but [users], whose search folds case by rules of each backend's
    own. *)
Lemma schemas_ok table : table ∈ SCHEMAS -> schema_name table <> "users" -> table_ok table.
Proof.
  intros Hin Hname.
  assert (forallb (fun table => bool_decide (schema_name table = "users") ||
    (bool_decide (NoDup (key <$> fields table)) &&
     forallb (fun field => (bool_decide (operations field = []) ||
                            bool_decide (family field ∈ [Text; Email; Bytes; Json])) &&
                           forallb (fun operation => negb (insensitive operation)) (operations field))
       (fields table))) SCHEMAS = true) as Hall by (vm_compute; reflexivity).
  rewrite forallb_forall in Hall. specialize (Hall table (proj1 (list_elem_of_In _ _) Hin)).
  rewrite bool_decide_eq_false_2 in Hall by done. cbn [orb] in Hall.
  apply andb_true_iff in Hall as [Hkeys%bool_decide_eq_true Hfields]. rewrite forallb_forall in Hfields.
  split; [done|..]; apply Forall_forall; intros field Hfield;
    specialize (Hfields field (proj1 (list_elem_of_In _ _) Hfield));
    apply andb_true_iff in Hfields as [Hops Hfold].
  - rewrite orb_true_iff, !bool_decide_eq_true in Hops. done.
  - apply Forall_forall. intros operation Hop. rewrite forallb_forall in Hfold.
    apply negb_true_iff, (Hfold operation), list_elem_of_In, Hop.
Qed.

Lemma records_timed table : table ∈ record_schema <$> RECORD_TABLES ->
  table_ok table /\ Timestamp ∈ family <$> fields table.
Proof.
  intros (record_table & -> & Hin)%list_elem_of_fmap. split.
  - apply schemas_ok; [|by destruct record_table].
    apply elem_of_app. left. by apply list_elem_of_fmap_2.
  - destruct record_table; apply (bool_decide_eq_true_1 _); vm_compute; reflexivity.
Qed.

(** ** A node with no condition of its own *)

Lemma mapM_nothing {A} (f : A -> option (list Expr)) (l : list A) :
  (forall a, f a = Some []) -> mjoin <$> mapM f l = Some [].
Proof.
  intros Hf. induction l as [|a l IH]; [done|]. cbn. rewrite Hf. cbn.
  destruct (mapM f l) as [rest|]; [|done]. injection IH as IH. cbn. f_equal. exact IH.
Qed.

Lemma all_opt_true {A} (test : A -> option bool) (l : list A) :
  (forall a, test a = Some true) -> all_opt test l = Some true.
Proof. intros Ht. induction l as [|a l IH]; [done|]. cbn. by rewrite Ht. Qed.

Section bare.
Context `{Codecs} (dialect : SqlDialect).

Lemma bare_compiles table now :
  conditions_with_address conditions_default table dialect now true = Some [].
Proof.
  unfold conditions_with_address. cbn.
  assert (mjoin <$> mapM (field_conditions conditions_default table dialect now true) (fields table) = Some [])
    as Hfields.
  { apply mapM_nothing. intros field. unfold field_conditions.
    assert (operation_conditions conditions_default field dialect = Some []) as -> by by apply mapM_nothing.
    cbn. by destruct (family field). }
  by destruct (mapM _ (fields table)).
Qed.

Lemma bare_matches table record now : matches_own table conditions_default record now = Some true.
Proof.
  unfold matches_own. cbn. apply all_opt_true. intros field. unfold field_matches. cbn.
  assert (forall raw text, forallb (operation_held conditions_default field raw text) (operations field) = true)
    as Hops by (intros; by apply forallb_forall).
  rewrite Hops. cbn. destruct (family field); try done. by destruct (record_timestamp _).
Qed.
End bare.

(** ** Theorems *)

Section served.
Context {dialect : SqlDialect} {Row : Type} `{Codecs} `{!SqlSemantics dialect Row}
  `{!SqlFunctions dialect Row}.


(** A node with alternatives and no condition of its own is where matching
    and compiling part: the matcher takes the absent condition as met and
    accepts every record, and the statement leaves it out and lets a row
    through only where some alternative's conditions do. *)
Theorem bare_node_diverges (table : Schema) (row : Row) (record : Record_) (now : Z)
    (ors : list FilterNode) (groups : list (list Expr)) (conditions : list Expr) :
  table ∈ SCHEMAS -> ors <> [] ->
  mapM (combined_conditions table dialect now) ors = Some groups ->
  combined_conditions table dialect now (Node conditions_default [] ors) = Some conditions ->
  (exists matched, node_matches table record now (Node conditions_default [] ors) = Some matched /\
     matched = true) /\
  (Forall (fun condition => holds row condition = Some true) conditions <->
   List.Exists (Forall (fun condition => holds row condition = Some true)) groups).
Proof.
  intros Hin Hne Hgroups Hc. split.
  - exists true. split; [|done]. cbn [node_matches]. by rewrite bare_matches.
  - cbn [combined_conditions] in Hc. rewrite Hgroups, bare_compiles in Hc.
    destruct groups as [|group groups]; [destruct ors; [done|]; cbn in Hgroups|].
    { destruct (combined_conditions _ _ _ _); [|done]. cbn in Hgroups. by destruct (mapM _ ors). }
    change (join_groups [] (group :: groups) = Some conditions) in Hc. unfold join_groups in Hc.
    apply bind_Some in Hc as (joined & Hjoined & Hc). injection Hc as <-.
    rewrite Forall_singleton. fold (admits row joined). rewrite (admits_any _ _ _ Hjoined).
    cbn [all_of reduce app].
    rewrite (Exists_fmap _ _ (group :: groups)), !Exists_exists.
    by setoid_rewrite grouped_admits.
Qed.
End served.

(** On the record tables a filter that parsed compiles unless, somewhere in
    its tree, a span or an age reaches past the instants that can be held, or a
    subsample's spacing past what microseconds count, and then compiling
    panics: no index, expectation or unreachable arm of it is reached
    otherwise. *)
Theorem compiling_panics_iff `{Codecs} (dialect : SqlDialect) (table : Schema) (now : Z) (self : FilterNode) :
  table ∈ record_schema <$> RECORD_TABLES -> node_ok table self ->
  combined_conditions table dialect now self = None <-> ~ tree_reaches now self.
Proof.
  intros [Htable Htime]%records_timed Hok.
  rewrite <- (tree_total dialect table now self Htable Htime Hok).
  destruct (combined_conditions _ _ _ _); split; try done. intros Hn. by destruct Hn.
Qed.

(** ** Witnesses *)

Lemma logs_not_users : schema_name (record_schema Logs) <> "users".
Proof. done. Qed.

(** A decided fact of closed terms. *)
Ltac decided := apply (bool_decide_eq_true_1 _); vm_compute; reflexivity.

Lemma sample_alternative_ok : node_ok (record_schema Logs) sample_alternative.
Proof.
  constructor; [|done|by constructor..]. split; try done; try by constructor.
  - apply Forall_singleton.
    exists (default content_field (find (fun field => bool_decide (key field = "level"))
      (fields (record_schema Logs)))).
    split_and!; [decided|done|]. split; [done|]. apply Forall_singleton. decided.
  - apply NoDup_singleton.
Qed.

Lemma sample_node_ok : node_ok (record_schema Logs) sample_node.
Proof.
  constructor.
  - split; try done; try by constructor; try (split; [done|]; decided).
    all: try (cbn; lia).
    + apply Forall_singleton. split_and!; [decided|decided|]. split; [done|]. by repeat constructor.
    + apply NoDup_singleton.
    + cbn. split; [done|]. decided.
  - done.
  - constructor; [|done]. constructor; [|done|done|done].
    split; try done; by constructor.
  - constructor; [apply sample_alternative_ok|done].
Qed.

Lemma served_default own :
  operation_filters own = [] -> equalities own = [] -> subsample_every own = None ->
  subsample own = None -> own_served (dialect := Postgres) sample_record 5000000000 own.
Proof. intros Hops Heq Hevery Hcount. split; [by rewrite Hops|done|by split|done]. Qed.

Lemma sample_node_served :
  tree_served (dialect := Postgres) (record_schema Logs) sample_record 5000000000 sample_node.
Proof.
  constructor.
  - split; [|done|by split|done]. apply Forall_singleton. split; [|left; by eexists].
    intros _. decided.
  - right. vm_compute. done.
  - apply Forall_singleton. constructor; [by apply served_default|by left|done|done].
  - apply Forall_singleton. constructor; [|by left|done|done]. split; [done|done|by split|done].
Qed.

Notation sample_compiled :=
  (combined_conditions (H := sample_codecs) (record_schema Logs) Postgres 5000000000 sample_node).

Lemma sample_compiles : is_Some sample_compiled.
Proof. vm_compute. by eexists. Qed.

Lemma sample_matches :
  node_matches (H := sample_codecs) (record_schema Logs) sample_record 5000000000 sample_node = Some true.
Proof. vm_compute. reflexivity. Qed.


(** [or={level: debug}] alone parses to such a node. *)
Notation bare_parse := (@parse sample_crates 4%nat (record_schema Logs) [("or", "{level: debug}")]).

Lemma bare_parses : exists core, bare_parse = Ok core /\ node core = Node conditions_default [] [sample_alternative].
Proof. eexists. split; [vm_compute; reflexivity|reflexivity]. Qed.

(** Its record is accepted in memory, and its row rejected by the statement. *)
Lemma bare_node_diverges_witness :
  exists conditions, combined_conditions (H := sample_codecs) (record_schema Logs) Postgres 0
      (Node conditions_default [] [sample_alternative]) = Some conditions /\
    ~ Forall (fun condition => eval_holds Postgres sample_row condition = Some true) conditions.
Proof.
  eexists. split; [reflexivity|].
  destruct (bare_node_diverges (dialect := Postgres) (record_schema Logs) sample_row sample_record 0
    [sample_alternative] _ _ logs_schema_in ltac:(done) eq_refl eq_refl) as [_ Hiff].
  intros Hall%Hiff. inversion Hall as [? ? Hone|? ? Hnone]; subst; [|by inversion Hnone].
  by inversion Hone.
Defined.

(** A day's age is reached, one of 999999999 days is not. *)
Definition far_node (age : Z) : FilterNode := Node (set_max_age (Some age) conditions_default) [] [].

Lemma far_node_ok age : 0 <= age -> node_ok (record_schema Logs) (far_node age).
Proof. intros Hage. constructor; [|done|done|done]. split; try done; by constructor. Qed.

Lemma logs_among_records : record_schema Logs ∈ record_schema <$> RECORD_TABLES.
Proof. apply list_elem_of_fmap_2. repeat constructor. Qed.

Lemma compiling_panics_iff_witness :
  combined_conditions (H := sample_codecs) (record_schema Logs) SqliteText 0 (far_node 86399999913600000000000)
    = None /\
  ~ ~ tree_reaches 0 (far_node 86400000000000).
Proof.
  split.
  - apply (compiling_panics_iff SqliteText (record_schema Logs) 0 (far_node 86399999913600000000000)
      logs_among_records (far_node_ok 86399999913600000000000 ltac:(lia))).
    intros Hreaches. assert (reaches 0 (set_max_age (Some 86399999913600000000000) conditions_default))
      as (_ & Hage & _) by by inversion Hreaches.
    vm_compute in Hage. by destruct Hage.
  - intros Hnot.
    apply (compiling_panics_iff SqliteText (record_schema Logs) 0 (far_node 86400000000000)
      logs_among_records (far_node_ok 86400000000000 ltac:(lia))) in Hnot.
    vm_compute in Hnot. done.
Defined.
