(* ===== verification/Listing.v ===== *)
(** * What a statement lists

    The rows a statement of [FilterStatements] may return: those its [WHERE]
    lets through, in an order its [ORDER BY] allows, cut to its page. Rows that
    tie may come in any order, so a statement has several results, and a
    statement stands for another when each of its results is one of the
    other's.

    The parts after this one: listing over branches lists what the plain
    statement would; what a filter's statements promise. *)
From S2P Require Import Prelude.
From stdpp Require Import sorting.
From S2P Require Import Text Sql Selector Schema Wire FilterParse FilterFacts FilterMatch FilterCompile.
From S2P Require Import FilterPatterns FilterAgree FilterServed.
Local Open Scope string_scope.
Local Open Scope list_scope.
Local Open Scope Z_scope.

(** How a backend orders rows by the terms of an [ORDER BY]: a total preorder,
    of which no terms order nothing. *)
Class RowOrder (Row : Type) := {
  before : list (Expr * bool) -> Row -> Row -> Prop;
  #[export] before_dec terms :: RelDecision (before terms);
  #[export] before_trans terms :: Transitive (before terms);
  #[export] before_total terms :: Total (before terms);
  before_none a b : before [] a b
}.

Section lists.
Context {Row : Type} `{!RowOrder Row}.

(** The rows from an offset on, up to a limit. *)
Definition cut (limit offset : option Z) (rows : list Row) : list Row :=
  let rest := drop (Z.to_nat (default 0 offset)) rows in
  match limit with Some limit => take (Z.to_nat limit) rest | None => rest end.

(** ** Partitions *)

Lemma filter_every (P : Row -> Prop) `{!forall x, Decision (P x)} (l : list Row) :
  (forall x, x ∈ l -> P x) -> filter P l = l.
Proof.
  induction l as [|x l IH]; intros Hall; [done|].
  rewrite filter_cons_True by (apply Hall; left). f_equal. apply IH. intros. by apply Hall; right.
Qed.

Lemma filter_none (P : Row -> Prop) `{!forall x, Decision (P x)} (l : list Row) :
  (forall x, x ∈ l -> ~ P x) -> filter P l = [].
Proof.
  induction l as [|x l IH]; intros Hall; [done|].
  rewrite filter_cons_False by (apply Hall; left). apply IH. intros. by apply Hall; right.
Qed.

Lemma filter_apart (P Q : Row -> Prop) `{!forall x, Decision (P x), !forall x, Decision (Q x)} l :
  filter P l ≡ₚ filter (fun x => P x /\ Q x) l ++ filter (fun x => P x /\ ~ Q x) l.
Proof.
  induction l as [|x l IH]; [done|]. rewrite !filter_cons.
  destruct (decide (P x)) as [HP|HP], (decide (Q x)) as [HQ|HQ];
    repeat case_decide; try tauto; rewrite IH; [done|].
  by rewrite <- Permutation_middle.
Qed.

Lemma filter_partition {K} `{EqDecision K} (f : Row -> K) (P : Row -> Prop)
    `{!forall x, Decision (P x)} (keys : list K) l :
  NoDup keys -> (forall x, x ∈ l -> P x -> f x ∈ keys) ->
  filter P l ≡ₚ mjoin ((fun k => filter (fun x => P x /\ f x = k) l) <$> keys).
Proof.
  revert P H. induction keys as [|k keys IH]; intros P HP Hnodup Hin; cbn [fmap list_fmap mjoin list_join].
  - assert (filter P l = []) as ->; [|done]. apply filter_none. intros x Hx HPx.
    by apply (Hin x Hx), elem_of_nil in HPx.
  - apply NoDup_cons in Hnodup as [Hk Hnodup].
    rewrite (filter_apart P (fun x => f x = k)). apply Permutation_app_head.
    rewrite (IH (fun x => P x /\ f x <> k) _ Hnodup).
    + match goal with |- ?a ≡ₚ ?b => assert (a = b) as ->; [|done] end.
      f_equal. apply list_fmap_ext. intros place k' Hk'. apply list_filter_iff.
      intros x. apply list_elem_of_lookup_2 in Hk'. cbn. split; [tauto|].
      intros [HPx Hf]. split_and!; try done. intros Heq. apply Hk. congruence.
    + intros x Hx [HPx Hne]. specialize (Hin x Hx HPx). apply elem_of_cons in Hin as [|]; done.
Qed.

(** Every list of a partition sorted and cut to its leading rows: what they
    leave behind, each row of it after as many of its own. *)
Lemma leading_of_parts terms depth (parts leadings : list (list Row)) :
  Forall2 (fun part leading => exists sorted, sorted ≡ₚ part /\
    StronglySorted (before terms) sorted /\ leading ≡ₚ take depth sorted) parts leadings ->
  exists rest, mjoin parts ≡ₚ mjoin leadings ++ rest /\
    forall row, row ∈ rest ->
      (depth <= length (filter (fun x => before terms x row) (mjoin leadings)))%nat.
Proof.
  induction 1 as [|part leading parts leadings (sorted & Hpart & Hsorted & Hleading) _ (rest & Hrest & Hlen)].
  { exists []. split; [done|]. by intros row Hrow%elem_of_nil. }
  exists (drop depth sorted ++ rest). cbn [mjoin list_join]. split.
  - rewrite <- Hpart, Hleading, Hrest, <- (take_drop depth sorted) at 1.
    rewrite <- !app_assoc. apply Permutation_app_head. rewrite !app_assoc.
    apply Permutation_app_tail, Permutation_app_comm.
  - intros row [Hrow|Hrow]%elem_of_app; rewrite filter_app, length_app.
    + rewrite Hleading. assert (filter (fun x => before terms x row) (take depth sorted) = take depth sorted) as ->.
      { apply filter_every. intros x Hx. rewrite <- (take_drop depth sorted) in Hsorted.
        by eapply StronglySorted_app_1_elem_of. }
      rewrite length_take. assert (depth < length sorted)%nat ; [|lia].
      apply Nat.nle_gt. intros Hle. rewrite drop_ge in Hrow by done. by apply elem_of_nil in Hrow.
    + etransitivity; [exact (Hlen row Hrow)|apply Nat.le_add_l].
Qed.

(** ** Merging the leading rows of a partition *)

Lemma sorted_exists terms (l : list Row) :
  exists sorted, sorted ≡ₚ l /\ StronglySorted (before terms) sorted.
Proof.
  exists (merge_sort (before terms) l). split; [apply merge_sort_Permutation|].
  apply StronglySorted_merge_sort; apply _.
Qed.

(** Of a sorted list, the rows not after [row] come first. *)
Lemma prefix_before terms (row : Row) sorted depth :
  StronglySorted (before terms) sorted ->
  (depth <= length (filter (fun x => before terms x row) sorted))%nat ->
  Forall (fun x => before terms x row) (take depth sorted).
Proof.
  revert depth. induction sorted as [|x sorted IH]; intros [|depth] Hsorted Hlen; try by constructor.
  apply StronglySorted_cons in Hsorted as [Hx Hsorted]. rewrite filter_cons in Hlen.
  destruct (decide (before terms x row)) as [Hb|Hb].
  - cbn in Hlen |- *. constructor; [done|]. apply IH; [done|lia].
  - exfalso. assert (filter (fun x => before terms x row) sorted = []) as Hnil.
    { clear -Hx Hb. induction Hx as [|y l Hy _ IH]; [done|].
      rewrite filter_cons_False; [done|]. intros Hyr. apply Hb. by transitivity y. }
    rewrite Hnil in Hlen. cbn in Hlen. lia.
Qed.

(** The first [depth] rows of the merged leading rows are those of a sorted
    whole. *)
Lemma merge_leading terms (leading rest merged : list Row) depth :
  merged ≡ₚ leading -> StronglySorted (before terms) merged ->
  (forall row, row ∈ rest -> (depth <= length (filter (fun x => before terms x row) leading))%nat) ->
  exists whole, whole ≡ₚ leading ++ rest /\ StronglySorted (before terms) whole /\
    take depth whole = take depth merged.
Proof.
  intros Hmerged Hsorted Hrest. destruct rest as [|row rest].
  { exists merged. by rewrite app_nil_r. }
  destruct (sorted_exists terms (drop depth merged ++ row :: rest)) as (tail & Htail & Htails).
  exists (take depth merged ++ tail). split_and!.
  - by rewrite Htail, app_assoc, take_drop, Hmerged.
  - apply StronglySorted_app. split_and!; [|by rewrite <- (take_drop depth merged) in Hsorted; eapply StronglySorted_app_1_l|done].
    intros a b Ha Hb. rewrite Htail in Hb. apply elem_of_app in Hb as [Hb|Hb].
    + rewrite <- (take_drop depth merged) in Hsorted. by eapply StronglySorted_app_1_elem_of.
    + pose proof (Hrest b Hb) as Hlen. rewrite <- Hmerged in Hlen.
      pose proof (prefix_before terms b merged depth Hsorted Hlen) as Hall.
      rewrite Forall_forall in Hall. by apply Hall.
  - assert (depth <= length merged)%nat as Hlen.
    { specialize (Hrest row ltac:(left)). rewrite <- Hmerged in Hrest.
      etransitivity; [exact Hrest|apply length_filter]. }
    rewrite take_app_le by (rewrite length_take; lia). by rewrite take_take, Nat.min_id.
Qed.
End lists.

(** ** A query's results *)

Section results.
Context {dialect : SqlDialect} {Row : Type} `{!SqlSemantics dialect Row} `{!RowOrder Row}
  (stored : string -> list Row).

Definition passes (conditions : list Expr) (row : Row) : Prop := Forall (admits row) conditions.

#[export] Instance passes_dec conditions row : Decision (passes conditions row).
Proof. unfold passes, admits. apply _. Defined.

(** The rows a query may return, before its columns are taken of them, and the
    rows its source may: a table's, or its subquery's, one after another for a
    [UNION ALL]. *)
Inductive runs : Select -> list Row -> Prop :=
  | runs_select exprs from where_ order limit offset source sorted :
      reads from source -> sorted ≡ₚ filter (passes where_) source ->
      StronglySorted (before order) sorted ->
      runs (MkSelect exprs from where_ [] order limit offset) (cut limit offset sorted)
with reads : Source -> list Row -> Prop :=
  | reads_table name : reads (Table name) (stored name)
  | reads_union first rest alias results :
      Forall2 runs (first :: rest) results -> reads (Union first rest alias) (mjoin results).

(** A [COUNT] of a query's rows. *)
Inductive counts : Select -> Z -> Prop :=
  | counts_select from where_ source :
      reads from source ->
      counts (MkSelect [Cust "COUNT(*)" []] from where_ [] [] None None)
        (Z.of_nat (length (filter (passes where_) source))).

Lemma runs_inv exprs from where_ order limit offset rows :
  runs (MkSelect exprs from where_ [] order limit offset) rows ->
  exists source sorted, reads from source /\ sorted ≡ₚ filter (passes where_) source /\
    StronglySorted (before order) sorted /\ rows = cut limit offset sorted.
Proof. inversion 1; subst. by eexists _, _. Qed.

Lemma reads_table_inv name source : reads (Table name) source -> source = stored name.
Proof. by inversion 1. Qed.

Lemma reads_union_inv first rest alias source :
  reads (Union first rest alias) source ->
  exists results, Forall2 runs (first :: rest) results /\ source = mjoin results.
Proof. inversion 1; subst. by eexists. Qed.

Lemma runs_table exprs name where_ order limit offset sorted :
  sorted ≡ₚ filter (passes where_) (stored name) -> StronglySorted (before order) sorted ->
  runs (MkSelect exprs (Table name) where_ [] order limit offset) (cut limit offset sorted).
Proof. intros. by eapply runs_select; [constructor|..]. Qed.

(** A statement of a table always has a result. *)
Lemma runs_total exprs name where_ order limit offset :
  exists rows, runs (MkSelect exprs (Table name) where_ [] order limit offset) rows.
Proof.
  destruct (sorted_exists order (filter (passes where_) (stored name))) as (sorted & Hperm & Hsorted).
  eexists. by apply runs_table.
Qed.

(** Its length depends on neither the order nor the columns. *)
Lemma cut_length limit offset (a b : list Row) :
  length a = length b -> length (cut limit offset a) = length (cut limit offset b).
Proof. intros Hlen. unfold cut. destruct limit; rewrite ?length_take, !length_drop, Hlen; done. Qed.

Lemma runs_table_length exprs exprs' name where_ order order' limit offset rows rows' :
  runs (MkSelect exprs (Table name) where_ [] order limit offset) rows ->
  runs (MkSelect exprs' (Table name) where_ [] order' limit offset) rows' ->
  length rows = length rows'.
Proof.
  intros (source & sorted & ->%reads_table_inv & Hperm & _ & ->)%runs_inv
    (source' & sorted' & ->%reads_table_inv & Hperm' & _ & ->)%runs_inv.
  apply cut_length. by rewrite Hperm, Hperm'.
Qed.
End results.

(** * Listing over branches lists what the plain statement would

    [FilterCore::statement_over] of [ceres-database/src/filter.rs] seeks each
    branch on its own and merges the seeks. Every result it may have is one the
    plain statement may have. *)

(** ** Dropping the selector's condition *)

Section conditions.
Context `{Codecs} {dialect : SqlDialect}.

Lemma mapM_same {A B} (f g : A -> option B) (l : list A) :
  (forall x, x ∈ l -> f x = g x) -> mapM f l = mapM g l.
Proof.
  intros Hsame. induction l as [|x l IH]; [done|]. cbn. rewrite (Hsame x) by left.
  by rewrite IH by (intros; apply Hsame; by right).
Qed.

(** Where two compilations of a list agree but at one element, which one of
    them gives a condition more. *)
Lemma mapM_extra {A} (more less : A -> option (list Expr)) pre a post (extra : Expr) lists :
  (forall x, x ∈ pre ++ post -> more x = less x) ->
  (forall c, less a = Some c -> exists c', more a = Some c' /\ c' ≡ₚ extra :: c) ->
  mapM less (pre ++ a :: post) = Some lists ->
  exists lists', mapM more (pre ++ a :: post) = Some lists' /\ mjoin lists' ≡ₚ extra :: mjoin lists.
Proof.
  intros Hsame Ha. revert lists. induction pre as [|x pre IH]; intros lists Hlists.
  - cbn in Hlists |- *. apply bind_Some in Hlists as (c & Hc & Hlists).
    apply bind_Some in Hlists as (rest & Hrest & Hlists). injection Hlists as <-.
    destruct (Ha c Hc) as (c' & -> & Hperm).
    assert (mapM more post = mapM less post) as ->.
    { by apply mapM_same. }
    rewrite Hrest. cbn. eexists. split; [done|]. cbn. by rewrite Hperm.
  - cbn in Hlists |- *. apply bind_Some in Hlists as (c & Hc & Hlists).
    apply bind_Some in Hlists as (rest & Hrest & Hlists). injection Hlists as <-.
    destruct (IH (fun x Hx => Hsame x (list_elem_of_further _ _ _ Hx)) rest Hrest) as (lists' & Hlists' & Hperm).
    rewrite (Hsame x ltac:(left)), Hc. cbn. rewrite Hlists'. cbn. eexists. split; [done|]. cbn.
    rewrite Hperm. by rewrite Permutation_middle.
Qed.

Lemma field_without_address own table now field :
  family field <> Address ->
  field_conditions own table dialect now true field = field_conditions own table dialect now false field.
Proof. intros Hfamily. unfold field_conditions. by destruct (family field). Qed.

Lemma field_with_address own table now field selector selected conditions :
  family field = Address -> address own = Some selector ->
  condition selector (key field) (root own) dialect = Some selected ->
  field_conditions own table dialect now false field = Some conditions ->
  exists conditions', field_conditions own table dialect now true field = Some conditions' /\
    conditions' ≡ₚ selected :: conditions.
Proof.
  intros Hfamily Haddress Hselected. unfold field_conditions. rewrite Hfamily, Haddress, Hselected.
  intros Hc. apply bind_Some in Hc as (operations' & -> & Hc). injection Hc as <-. cbn.
  eexists. split; [done|]. by rewrite !app_nil_r, app_assoc, Permutation_app_comm.
Qed.

(** A table with one address field, [key]. *)
Definition one_address (table : Schema) (column : string) : Prop :=
  exists pre field post, fields table = pre ++ field :: post /\ key field = column /\
    family field = Address /\ Forall (fun field => family field <> Address) (pre ++ post).

Lemma conditions_with_selector own table now column selector selected conditions :
  one_address table column -> address own = Some selector ->
  condition selector column (root own) dialect = Some selected ->
  conditions_with_address own table dialect now false = Some conditions ->
  exists conditions', conditions_with_address own table dialect now true = Some conditions' /\
    conditions' ≡ₚ selected :: conditions.
Proof.
  intros (pre & field & post & Hfields & Hkey & Hfamily & Hothers) Haddress Hselected Hc.
  unfold conditions_with_address in *. apply bind_Some in Hc as (computed' & -> & Hc).
  apply bind_Some in Hc as (by_field & Hby & Hc). injection Hc as <-. rewrite Hfields in Hby |- *.
  rewrite Forall_forall in Hothers.
  destruct (mapM_extra (field_conditions own table dialect now true) _ pre field post selected by_field
    (fun x Hx => field_without_address own table now x (Hothers x Hx))) as (by_field' & Hby' & Hperm).
  - intros c Hc. eapply field_with_address; try done. by rewrite Hkey.
  - exact Hby.
  - cbn. rewrite Hby'. cbn. eexists. split; [done|]. rewrite Hperm, app_assoc.
    by rewrite <- Permutation_middle, <- app_assoc.
Qed.

Lemma combined_with_selector own table now column selector selected ands conditions :
  one_address table column -> address own = Some selector ->
  condition selector column (root own) dialect = Some selected ->
  combined_conditions_with_address table dialect now false (Node own ands []) = Some conditions ->
  exists conditions', combined_conditions table dialect now (Node own ands []) = Some conditions' /\
    conditions' ≡ₚ selected :: conditions.
Proof.
  intros Hone Haddress Hselected Hc. cbn in Hc |- *.
  apply bind_Some in Hc as (held & Hheld & Hc).
  destruct (conditions_with_selector _ _ _ _ _ _ _ Hone Haddress Hselected Hheld) as (held' & -> & Hperm).
  apply bind_Some in Hc as (ands' & Hands & Hc). cbn in Hc. injection Hc as <-. cbn. rewrite Hands. cbn.
  eexists. split; [done|]. by rewrite Hperm.
Qed.
End conditions.

Lemma records_addressed table :
  table ∈ record_schema <$> RECORD_TABLES -> one_address table "address".
Proof.
  intros (record_table & -> & _)%list_elem_of_fmap.
  destruct record_table; eexists [_], _, _; split_and!; try reflexivity; repeat constructor; done.
Qed.

(** ** Merging *)

Section merging.
Context {dialect : SqlDialect} {Row : Type} `{Codecs} `{!SqlSemantics dialect Row} `{!RowOrder Row}
  (stored : string -> list Row).

Lemma filter_ext_elem (P Q : Row -> Prop) `{!forall x, Decision (P x), !forall x, Decision (Q x)} (l : list Row) :
  (forall x, x ∈ l -> P x <-> Q x) -> filter P l = filter Q l.
Proof.
  induction l as [|x l IH]; intros Hiff; [done|]. rewrite !filter_cons, IH by (intros; apply Hiff; by right).
  specialize (Hiff x ltac:(left)). by repeat case_decide; naive_solver.
Qed.

Definition address_of (column : string) (row : Row) : option string :=
  match cell row column with Some (ValText address) => Some address | _ => None end.

Lemma address_equal row column address branch :
  cell row column = Some (ValText address) ->
  admits row (expr_eq (Col column) (ValText branch)) <-> address_of column row = Some branch.
Proof.
  intros Hcell. unfold admits, address_of, expr_eq. rewrite Hcell, <- value_col in *.
  rewrite (holds_compare row OpEq _ (ValText address) (ValText branch)
    (Strings.String.compare address branch)) by done.
  rewrite (inj_iff Some address), <- text_compare_eq.
  by destruct (Strings.String.compare address branch).
Qed.

(** One branch's seek: the leading rows of the branch. *)
Lemma seek_leading self conditions branch rows :
  (forall row, row ∈ stored (schema_name (schema self)) ->
    exists address, cell row (address_column self) = Some (ValText address)) ->
  runs stored (seek self dialect conditions branch) rows ->
  exists sorted,
    sorted ≡ₚ filter (fun row => passes conditions row /\ address_of (address_column self) row = Some branch)
                (stored (schema_name (schema self))) /\
    StronglySorted (before (order_of self dialect)) sorted /\
    rows ≡ₚ take (Z.to_nat (u64_saturating_add (default 0 (core_limit self)) (default 0 (core_offset self)))) sorted.
Proof.
  intros Haddressed (source & listed & (results & Hresults & ->)%reads_union_inv & Hlisted & _ & ->)%runs_inv.
  apply Forall2_cons_inv_l in Hresults as (leading & results' & Hleading & Hnil & ->).
  apply Forall2_nil_inv_l in Hnil as ->.
  apply runs_inv in Hleading as (source & sorted & ->%reads_table_inv & Hsorted & Hord & ->).
  exists sorted. split_and!; [|done|].
  - rewrite Hsorted. assert (forall a b : list Row, a = b -> a ≡ₚ b) as Heq by (by intros ? ? ->).
    apply Heq. apply filter_ext_elem. intros row Hrow. unfold passes. rewrite Forall_app, Forall_singleton.
    destruct (Haddressed row Hrow) as (address & Hcell). by rewrite (address_equal row _ _ _ Hcell).
  - cbn [cut default mjoin list_join] in *. unfold cut in *. cbn in Hlisted |- *. rewrite Hlisted, app_nil_r.
    rewrite filter_every; [done|]. intros. unfold passes. by constructor.
Qed.

Lemma cut_prefix depth limit offset (a b : list Row) :
  0 <= limit -> 0 <= default 0 offset ->
  take (Z.to_nat depth) a = take (Z.to_nat depth) b ->
  (limit + default 0 offset <= depth \/ (Z.of_nat (length a) <= depth /\ Z.of_nat (length b) <= depth)) ->
  cut (Some limit) offset a = cut (Some limit) offset b.
Proof.
  intros Hlimit Hoffset Htake Hdepth. destruct Hdepth as [Hdepth|[Ha Hb]].
  - unfold cut. rewrite !take_drop_commute.
    assert (forall l : list Row, take (Z.to_nat (default 0 offset) + Z.to_nat limit) l =
      take (Z.to_nat (default 0 offset) + Z.to_nat limit) (take (Z.to_nat depth) l)) as Hall.
    { intros l. rewrite take_take. f_equal. lia. }
    by rewrite Hall, Htake, <- Hall.
  - rewrite !take_ge in Htake by lia. by rewrite Htake.
Qed.

Lemma admitted_filter self own ands ors selector branches held :
  node self = Node own ands ors -> address own = Some selector -> admitted self branches = Some held ->
  held = filter (fun branch => Selector.matches selector branch (root own) = Some true) branches.
Proof.
  intros Hnode Haddress. revert held. induction branches as [|branch branches IH]; intros held Hc.
  - by injection Hc as <-.
  - cbn in Hc. rewrite Hnode, Haddress in Hc. apply bind_Some in Hc as (selected & Hselected & Hc).
    apply bind_Some in Hc as (rest & Hrest & Hc). injection Hc as <-.
    rewrite filter_cons, <- (IH rest Hrest), Hselected. by destruct selected; case_decide.
Qed.

Lemma record_address_column self :
  schema self ∈ record_schema <$> RECORD_TABLES -> address_column self = "address".
Proof.
  unfold address_column. intros (record_table & -> & _)%list_elem_of_fmap.
  by destruct record_table; vm_compute.
Qed.

Lemma expansion_scope_inv self found :
  expansion_scope self = Some (Some found) ->
  exists own ands selector limit, node self = Node own ands [] /\ address own = Some selector /\
    core_limit self = Some limit.
Proof.
  unfold expansion_scope. destruct (node self) as [own ands [|or ors]]; [|by destruct (core_limit self)].
  destruct (core_limit self) as [limit|]; [|done]. destruct (address own) as [selector|] eqn:Haddress; [|done].
  intros _. by eexists own, ands, selector, limit.
Qed.

(** The rows of the plain statement, by the branch that holds them. *)
Lemma plain_partition conditions conditions' selected selector root_ branches held name :
  (forall row, row ∈ stored name ->
    exists address, cell row "address" = Some (ValText address) /\
      (Selector.matches selector address root_ = Some true -> address ∈ branches)) ->
  selector_ok selector -> root_ok root_ -> NoDup branches ->
  condition selector "address" root_ dialect = Some selected ->
  conditions' ≡ₚ selected :: conditions ->
  held = filter (fun branch => Selector.matches selector branch root_ = Some true) branches ->
  filter (passes conditions') (stored name) ≡ₚ
  mjoin ((fun branch => filter (fun row => passes conditions row /\
            address_of "address" row = Some branch) (stored name)) <$> held).
Proof.
  intros Hstored Hself Hroot Hnodup Hselected Hperm Hheld.
  rewrite (filter_ext_elem (passes conditions')
    (fun row => passes conditions row /\ address_of "address" row ∈ Some <$> held)).
  - rewrite (filter_partition (address_of "address") _ (Some <$> held)).
    + match goal with |- ?a ≡ₚ ?b => assert (a = b) as ->; [|done] end.
      rewrite <- list_fmap_compose. f_equal. apply list_fmap_ext. intros place branch Hbranch. cbn.
      apply filter_ext_elem. intros row _. apply list_elem_of_lookup_2 in Hbranch.
      split; [tauto|]. intros [Hp Hq]. split_and!; try done. rewrite Hq. by apply list_elem_of_fmap_2.
    + apply NoDup_fmap_2; [apply _|]. rewrite Hheld. by apply NoDup_filter.
    + tauto.
  - intros row Hrow. destruct (Hstored row Hrow) as (address & Hcell & Hcovered).
    unfold passes at 1. rewrite Hperm, Forall_cons. fold (passes conditions row).
    destruct (condition_correct row "address" root_ selector address Hself Hroot Hcell)
      as (expr & matched & Hexpr & Hmatched & Hholds).
    assert (expr = selected) as -> by congruence.
    unfold admits, address_of. rewrite Hholds, Hcell.
    assert (Some address ∈ Some <$> held <-> matched = true) as ->; [|split; [intros [[= ->] ?]|intros [? ->]]; done].
    rewrite (list_elem_of_fmap_inj Some), Hheld, list_elem_of_filter, Hmatched.
    split; [by intros [[= ->] _]|]. intros ->. split; [done|]. by apply Hcovered.
Qed.

Lemma seeks_leading self conditions held results :
  (forall row, row ∈ stored (schema_name (schema self)) ->
    exists address, cell row (address_column self) = Some (ValText address)) ->
  Forall2 (runs stored) (seek self dialect conditions <$> held) results ->
  Forall2 (fun part leading => exists sorted, sorted ≡ₚ part /\
    StronglySorted (before (order_of self dialect)) sorted /\
    leading ≡ₚ take (Z.to_nat (u64_saturating_add (default 0 (core_limit self)) (default 0 (core_offset self)))) sorted)
    ((fun branch => filter (fun row => passes conditions row /\
        address_of (address_column self) row = Some branch) (stored (schema_name (schema self)))) <$> held)
    results.
Proof.
  intros Haddressed Hresults. apply (Forall2_fmap_l (seek self dialect conditions)) in Hresults. apply Forall2_fmap_l.
  eapply Forall2_impl; [exact Hresults|]. intros branch rows. by apply seek_leading.
Qed.

(** Any result of the merge is a page of the sorted whole. *)
Lemma merged_page terms limit offset (whole_rows : list Row) parts leadings merged :
  in_u64 limit -> opt_ok in_u64 offset -> Z.of_nat (length whole_rows) <= u64_max ->
  Forall2 (fun part leading => exists sorted, sorted ≡ₚ part /\
    StronglySorted (before terms) sorted /\
    leading ≡ₚ take (Z.to_nat (u64_saturating_add limit (default 0 offset))) sorted) parts leadings ->
  whole_rows ≡ₚ mjoin parts -> merged ≡ₚ mjoin leadings -> StronglySorted (before terms) merged ->
  exists whole, whole ≡ₚ whole_rows /\ StronglySorted (before terms) whole /\
    cut (Some limit) offset merged = cut (Some limit) offset whole.
Proof.
  intros Hlimit Hoffset Hsize Hparts Hwhole Hmerged Hsorted.
  destruct (leading_of_parts _ _ _ _ Hparts) as (rest & Hrest & Hlen).
  destruct (merge_leading terms (mjoin leadings) rest merged _ Hmerged Hsorted Hlen)
    as (whole & Hperm & Hsorted' & Htake).
  assert (whole ≡ₚ whole_rows) as Hall by (by rewrite Hperm, Hwhole, Hrest).
  exists whole. split_and!; [done..|].
  apply (cut_prefix (u64_saturating_add limit (default 0 offset))); [apply Hlimit| |by rewrite Htake|].
  - destruct offset; [apply Hoffset|done].
  - unfold u64_saturating_add. destruct (decide (limit + default 0 offset <= u64_max)) as [Hle|Hgt].
    + left. lia.
    + right. rewrite Z.min_l by lia. rewrite Hall, Hmerged. split; [|done].
      etransitivity; [|exact Hsize]. rewrite Hwhole, Hrest, length_app. lia.
Qed.

Lemma over_refines self found branches now over :
  schema self ∈ record_schema <$> RECORD_TABLES -> node_ok (schema self) (node self) ->
  opt_ok in_u64 (core_limit self) -> opt_ok in_u64 (core_offset self) ->
  expansion_scope self = Some (Some found) -> NoDup branches ->
  Z.of_nat (length (stored (schema_name (schema self)))) <= u64_max ->
  (forall row, row ∈ stored (schema_name (schema self)) ->
    exists address, cell row "address" = Some (ValText address) /\
      forall own ands selector, node self = Node own ands [] -> FilterParse.address own = Some selector ->
        Selector.matches selector address (root own) = Some true -> address ∈ branches) ->
  statement_over self branches dialect now = Some over ->
  exists plain, statement self dialect now = Some plain /\
    forall rows, runs stored over rows -> runs stored plain rows.
Proof.
  intros Htable Hok Hlimit_ok Hoffset_ok Hscope Hnodup Hsize Hstored Hover.
  destruct (expansion_scope_inv _ _ Hscope) as (own & ands & selector & limit & Hnode & Haddress & Hlimit).
  pose proof (record_address_column _ Htable) as Hcolumn.
  unfold statement_over in Hover. apply bind_Some in Hover as (held & Hheld & Hover).
  pose proof (admitted_filter _ _ _ _ _ _ _ Hnode Haddress Hheld) as Hfilter.
  destruct held as [|branch held]; [by exists over|].
  apply bind_Some in Hover as (conditions & Hconditions & Hover).
  cbn [fmap list_fmap] in Hover. injection Hover as <-.
  rewrite Hnode in Hok. inversion Hok as [? ? ? Hown _ _ _]; subst.
  pose proof (ok_address _ _ Hown) as Hself. rewrite Haddress in Hself. cbn in Hself.
  destruct (selector_total dialect "address" (root own) selector Hself (ok_root _ _ Hown)) as [selected Hselected].
  rewrite Hnode in Hconditions.
  destruct (combined_with_selector _ _ _ _ _ _ _ _ (records_addressed _ Htable) Haddress Hselected Hconditions)
    as (conditions' & Hconditions' & Hperm).
  exists (paged self dialect [Asterisk] (Table (schema_name (schema self))) conditions' (order_of self dialect)).
  split; [unfold statement; by rewrite Hnode, Hconditions'|].
  intros rows Hruns. unfold paged, page in *. rewrite Hlimit in *.
  apply runs_inv in Hruns as (source & merged & Hsource & Hmerged & Hsorted & ->).
  apply reads_union_inv in Hsource as (results & Hresults & ->).
  rewrite (filter_every _ (mjoin results)) in Hmerged by (intros; by constructor).
  apply (seeks_leading self conditions (branch :: held)) in Hresults.
  2: { rewrite Hcolumn. intros row Hrow. destruct (Hstored row Hrow) as (a & Ha & _). by exists a. }
  rewrite Hcolumn, Hlimit in Hresults.
  assert (filter (passes conditions') (stored (schema_name (schema self))) ≡ₚ
    mjoin ((fun branch => filter (fun row => passes conditions row /\
            address_of "address" row = Some branch) (stored (schema_name (schema self)))) <$> branch :: held))
    as Hpartition.
  { eapply (plain_partition conditions conditions' selected selector (root own) branches); try done;
      [|apply (ok_root _ _ Hown)].
    intros row Hrow. destruct (Hstored row Hrow) as (a & Ha & Hcovered). exists a. split; [done|]. by eapply Hcovered. }
  assert (Z.of_nat (length (filter (passes conditions') (stored (schema_name (schema self))))) <= u64_max)
    as Hsize' by (etransitivity; [apply inj_le, length_filter|exact Hsize]).
  destruct (merged_page _ limit (core_offset self) _ _ _ merged Hlimit_ok Hoffset_ok
    Hsize' Hresults Hpartition Hmerged Hsorted)
    as (whole & Hwhole & Hwhole' & ->).
  by apply runs_table.
Qed.
End merging.

(** * What a filter's statements promise

    The listing over branches, the count, the existence check, and the writes a
    page narrows, against the plain listing. *)

Section writes.
Context {dialect : SqlDialect} {Row : Type} `{Codecs} `{!SqlSemantics dialect Row} `{!RowOrder Row}
  (stored : string -> list Row).

(** A row's key. *)
Definition key_of (columns : list Expr) (row : Row) : list (option SqlValue) := value row <$> columns.

(** A page of a table's rows is among them, each as often at most. *)
Lemma page_submseteq exprs table where_ order limit offset rows :
  runs stored (MkSelect exprs (Table table) where_ [] order limit offset) rows ->
  rows ⊆+ stored table.
Proof.
  intros (source & sorted & ->%reads_table_inv & Hperm & _ & ->)%runs_inv.
  assert (filter (passes where_) (stored table) ⊆+ stored table) as Hsub
    by (apply sublist_submseteq, sublist_filter).
  rewrite <- Hperm in Hsub. etransitivity; [|exact Hsub]. unfold cut.
  apply sublist_submseteq. destruct limit.
  - etransitivity; [apply sublist_take|apply sublist_drop].
  - apply sublist_drop.
Qed.

(** Keys held once single out the rows of a page. *)
Lemma keyed_rows columns (all rows : list Row) :
  NoDup (key_of columns <$> all) -> rows ⊆+ all ->
  filter (fun row => key_of columns row ∈ key_of columns <$> rows) all ≡ₚ rows.
Proof.
  intros Hnodup (rest & Hall)%submseteq_Permutation. rewrite Hall in Hnodup |- *.
  rewrite fmap_app in Hnodup. apply NoDup_app in Hnodup as (_ & Hdisjoint & _).
  rewrite filter_app, (filter_every _ rows), (filter_none _ rest), app_nil_r; [done|..].
  - intros row Hrow Hin. apply (Hdisjoint _ Hin). by apply list_elem_of_fmap_2.
  - intros row Hrow. by apply list_elem_of_fmap_2.
Qed.

(** A statement of the filter's table, with some columns, ordered or not. *)
Lemma paged_runs self exprs exprs' from where_ order rows :
  runs stored (paged self dialect exprs from where_ order) rows ->
  runs stored (paged self dialect exprs' from where_ order) rows.
Proof. unfold paged. destruct (page self dialect). inversion 1; subst. by econstructor. Qed.

Lemma paged_length self exprs exprs' name where_ order order' rows rows' :
  runs stored (paged self dialect exprs (Table name) where_ order) rows ->
  runs stored (paged self dialect exprs' (Table name) where_ order') rows' ->
  length rows = length rows'.
Proof. unfold paged. destruct (page self dialect). apply runs_table_length. Qed.

Lemma counts_matched inner alias count :
  counts stored (MkSelect [Cust "COUNT(*)" []] (Union inner [] alias) [] [] [] None None) count <->
  exists rows, runs stored inner rows /\ count = Z.of_nat (length rows).
Proof.
  split.
  - inversion 1 as [from where_ source Hreads]; subst.
    apply reads_union_inv in Hreads as (results & Hresults & ->).
    apply Forall2_cons_inv_l in Hresults as (rows & results' & Hrows & Hnil & ->).
    apply Forall2_nil_inv_l in Hnil as ->. exists rows. split; [done|].
    rewrite filter_every by (intros; by constructor). cbn. by rewrite app_nil_r.
  - intros (rows & Hrows & ->). assert (rows = filter (passes []) (mjoin [rows])) as Heq.
    { rewrite filter_every by (intros; by constructor). cbn. by rewrite app_nil_r. }
    rewrite Heq at 1. constructor. constructor. by repeat constructor.
Qed.

Lemma counts_table table where_ count :
  counts stored (MkSelect [Cust "COUNT(*)" []] (Table table) where_ [] [] None None) count <->
  count = Z.of_nat (length (filter (passes where_) (stored table))).
Proof.
  split.
  - inversion 1 as [from where' source Hreads]; subst. by apply reads_table_inv in Hreads as ->.
  - intros ->. by repeat constructor.
Qed.

(** ** Theorems *)

(** C12: over any branches that cover the stored addresses the filter selects,
    each listed once, every result of the listing expanded into one ordered,
    limited seek per branch is a result the plain listing may have: no row is
    lost, none repeated, and the page is the same page, offsets past the
    seeks' own limits included. *)
Theorem over_lists_plain (self : FilterCore) (own : FilterConditions) (ands : list FilterNode)
    (selector : AddressSelector) (found : Scope) (branches : list string) (now : Z) (over : Select) :
  schema self ∈ record_schema <$> RECORD_TABLES -> node self = Node own ands [] ->
  node_ok (schema self) (node self) -> address own = Some selector ->
  opt_ok in_u64 (core_limit self) -> opt_ok in_u64 (core_offset self) ->
  expansion_scope self = Some (Some found) -> NoDup branches ->
  Z.of_nat (length (stored (schema_name (schema self)))) <= u64_max ->
  (forall row, row ∈ stored (schema_name (schema self)) ->
    exists address, cell row "address" = Some (ValText address) /\
      (Selector.matches selector address (root own) = Some true -> address ∈ branches)) ->
  statement_over self branches dialect now = Some over ->
  exists plain, statement self dialect now = Some plain /\
    forall rows, runs stored over rows -> runs stored plain rows.
Proof.
  intros Htable Hnode Hok Haddress Hlimit Hoffset Hscope Hnodup Hsize Hstored Hover.
  eapply over_refines; try done. intros row Hrow.
  destruct (Hstored row Hrow) as (a & Ha & Hcovered). exists a. split; [done|].
  intros own' ands' selector' Hnode' Haddress'. rewrite Hnode in Hnode'. injection Hnode' as <- <-.
  rewrite Haddress in Haddress'. by injection Haddress' as <-.
Qed.

(** The count is the number of rows any result of the listing has, and
    the existence check finds a row exactly when the listing does, with a page
    or without. *)
Theorem count_and_exists_agree (self : FilterCore) (now : Z) (plain : Select) (rows : list Row) :
  statement self dialect now = Some plain -> runs stored plain rows ->
  (exists counting, count_statement self dialect now = Some counting /\
     forall count, counts stored counting count <-> count = Z.of_nat (length rows)) /\
  (exists checking, exists_query self dialect now = Some checking /\
     forall found, runs stored checking found -> found = [] <-> rows = []).
Proof.
  unfold statement, count_statement, exists_query. intros Hplain Hrows.
  apply bind_Some in Hplain as (conditions & -> & Hplain). injection Hplain as <-. cbn [mbind option_bind].
  split.
  - destruct (core_limit self) as [limit|] eqn:Hlimit; [|destruct (core_offset self) as [offset|] eqn:Hoffset].
    1,2: eexists; split; [done|]; intros count; rewrite counts_matched; split;
      [intros (rows' & Hrows' & ->); f_equal; by eapply paged_length
      |intros ->; exists rows; split; [by eapply paged_runs|done]].
    eexists. split; [done|]. intros count. rewrite counts_table.
    unfold paged, page in Hrows. rewrite Hlimit, Hoffset in Hrows.
    apply runs_inv in Hrows as (source & sorted & ->%reads_table_inv & Hperm & _ & ->). cbn [bool_decide].
    assert (length (filter (passes conditions) (stored (schema_name (schema self)))) = length sorted) as Hlen
      by (by rewrite Hperm).
    rewrite Hlen. unfold cut. cbn. by rewrite drop_0.
  - eexists. split; [done|]. intros found Hfound.
    pose proof (paged_length _ _ _ _ _ _ _ _ _ Hfound Hrows) as Hlen.
    by destruct found, rows.
Qed.

(** C13: a delete and an update write the rows one result of the listing has: in
    place without a page, and with one through the keys that page holds, where
    keys are held once. *)
Theorem write_narrows_to_page (self : FilterCore) (set_clauses : list (string * Expr)) (now : Z)
    (plain : Select) :
  statement self dialect now = Some plain ->
  NoDup (key_of (key_columns_of self) <$> stored (schema_name (schema self))) ->
  exists deleting updating,
    delete_statement self dialect now = Some deleting /\
    update_statement self dialect set_clauses now = Some updating /\
    delete_table deleting = schema_name (schema self) /\ update_table updating = schema_name (schema self) /\
    update_where updating = delete_where deleting /\
    ((core_limit self = None /\ core_offset self = None /\
      forall rows, runs stored plain rows ->
        rows ≡ₚ filter (passes (delete_where deleting)) (stored (schema_name (schema self)))) \/
     (exists keys, delete_where deleting = [InQuery (key_columns_of self) keys] /\
      forall rows, runs stored keys rows -> runs stored plain rows /\
        filter (fun row => key_of (key_columns_of self) row ∈ key_of (key_columns_of self) <$> rows)
          (stored (schema_name (schema self))) ≡ₚ rows)).
Proof.
  unfold statement, delete_statement, update_statement, write_conditions, paged_keys. intros Hplain Hkeys.
  apply bind_Some in Hplain as (conditions & Hconditions & Hplain). injection Hplain as <-.
  rewrite Hconditions. cbn [mbind option_bind].
  destruct (core_limit self) as [limit|] eqn:Hlimit; [|destruct (core_offset self) as [offset|] eqn:Hoffset].
  1,2: eexists _, _; split_and!; [done..|]; right; eexists; split; [done|]; intros rows Hrows;
    split; [by eapply paged_runs|]; apply keyed_rows; [done|];
    unfold paged in Hrows; destruct (page self dialect); by eapply page_submseteq.
  eexists _, _. split_and!; [done..|]. left. split_and!; [done..|]. intros rows Hrows.
  unfold paged, page in Hrows. rewrite Hlimit, Hoffset in Hrows.
  apply runs_inv in Hrows as (source & sorted & ->%reads_table_inv & Hperm & _ & ->).
  unfold cut. cbn. by rewrite drop_0.
Qed.
End writes.

(** ** Witnesses *)

(** Rows ordered by the number a first term's column holds. *)
Definition number_in (row : SimpleRow) (column : string) : Z :=
  match row !! column with Some (ValTimestamp number) | Some (ValInt number) => number | _ => 0 end.

Definition numbers_before (terms : list (Expr * bool)) (a b : SimpleRow) : Prop :=
  match terms with
  | (Col column, up) :: _ =>
      if up : bool then number_in a column <= number_in b column
      else number_in b column <= number_in a column
  | _ => True
  end.

#[export] Program Instance numbered : RowOrder SimpleRow := {| before := numbers_before |}.
Next Obligation. intros terms a b. unfold numbers_before. repeat case_match; apply _. Defined.
Next Obligation. intros terms a b c. unfold numbers_before. repeat case_match; lia. Qed.
Next Obligation. intros terms a b. unfold numbers_before. repeat case_match; lia || by left. Qed.
Next Obligation. done. Qed.

Definition logs_row (id address : string) (stamp : Z) : SimpleRow :=
  {[ "id" := ValUuid id; "address" := ValText address; "timestamp" := ValTimestamp stamp ]}.

Definition logs_rows : list SimpleRow :=
  [logs_row "1" "@rig.sensor_1" 30; logs_row "2" "@rig.engine" 10; logs_row "3" "@dock.engine" 20;
   logs_row "4" "@rig.engine" 40].

Definition logs_stored (table : string) : list SimpleRow :=
  if decide (table = "logs") then logs_rows else [].

Definition rig_filter : FilterCore :=
  {| schema := record_schema Logs;
     node := Node (set_address (Some rig_selector) (set_root (Some "@rig") conditions_default)) [] [];
     core_order := []; core_limit := Some 1; core_offset := Some 1 |}.

Notation rig_branches := ["@rig.engine"; "@dock.engine"; "@rig.sensor_1"].
Notation rig_over := (statement_over (H := sample_codecs) rig_filter rig_branches Postgres 0).
Notation rig_plain := (statement (H := sample_codecs) rig_filter Postgres 0).

Lemma rig_filter_ok : node_ok (schema rig_filter) (node rig_filter).
Proof.
  constructor; [|done|done|done]. split; try done; try by constructor.
  split; [done|]. apply (bool_decide_eq_true_1 _). vm_compute. reflexivity.
Qed.

Lemma logs_rows_covered row :
  row ∈ logs_stored "logs" ->
  exists address, cell (dialect := Postgres) row "address" = Some (ValText address) /\
    (Selector.matches rig_selector address (Some "@rig") = Some true -> address ∈ rig_branches).
Proof.
  intros Hrow. cbn in Hrow.
  repeat (apply elem_of_cons in Hrow as [->|Hrow];
    [eexists; split; [reflexivity|intros _; apply (bool_decide_eq_true_1 _); vm_compute; reflexivity]|]).
  by apply elem_of_nil in Hrow.
Qed.

Lemma over_lists_plain_witness :
  exists over plain, rig_over = Some over /\ rig_plain = Some plain /\
    forall rows, runs (dialect := Postgres) logs_stored over rows -> runs (dialect := Postgres) logs_stored plain rows.
Proof.
  assert (is_Some rig_over) as [over Hover] by (vm_compute; by eexists).
  assert (exists found, expansion_scope rig_filter = Some (Some found)) as [found Hfound]
    by (vm_compute; by eexists).
  destruct (over_lists_plain (dialect := Postgres) logs_stored rig_filter _ [] rig_selector found
    rig_branches 0 over (list_elem_of_fmap_2 record_schema RECORD_TABLES Logs ltac:(repeat constructor))
    eq_refl rig_filter_ok eq_refl ltac:(done) ltac:(done) Hfound
    ltac:(apply (bool_decide_eq_true_1 _); vm_compute; reflexivity) ltac:(done) logs_rows_covered Hover)
    as (plain & Hplain & Hruns).
  exists over, plain. split; [exact Hover|]. split; [exact Hplain|exact Hruns].
Defined.

Lemma rig_lists : exists plain rows, rig_plain = Some plain /\ runs (dialect := Postgres) logs_stored plain rows.
Proof.
  assert (is_Some rig_plain) as [plain Hplain] by (vm_compute; by eexists).
  pose proof Hplain as Hform. unfold statement in Hform.
  apply bind_Some in Hform as (conditions & _ & Hform). injection Hform as <-.
  destruct (runs_total (dialect := Postgres) logs_stored [Asterisk] "logs" conditions (order_of rig_filter Postgres)
    (Some 1) (Some 1)) as [rows Hrows].
  by eexists _, rows.
Qed.

Lemma count_and_exists_agree_witness :
  exists counting (rows : list SimpleRow), count_statement (H := sample_codecs) rig_filter Postgres 0 = Some counting /\
    counts (dialect := Postgres) logs_stored counting (Z.of_nat (length rows)).
Proof.
  destruct rig_lists as (plain & rows & Hplain & Hrows).
  destruct (count_and_exists_agree (dialect := Postgres) logs_stored rig_filter 0 plain rows Hplain Hrows)
    as [(counting & Hcounting & Hiff) _].
  exists counting, rows. split; [exact Hcounting|]. by apply Hiff.
Defined.

Lemma write_narrows_to_page_witness :
  exists deleting, delete_statement (H := sample_codecs) rig_filter Postgres 0 = Some deleting /\
    exists keys, delete_where deleting = [InQuery [Col "id"] keys].
Proof.
  destruct rig_lists as (plain & _ & Hplain & _).
  destruct (write_narrows_to_page (dialect := Postgres) logs_stored rig_filter [] 0 plain Hplain
    ltac:(apply (bool_decide_eq_true_1 _); vm_compute; reflexivity))
    as (deleting & _ & Hdeleting & _ & _ & _ & _ & [(Hnone & _)|(keys & Hkeys & _)]); [done|].
  exists deleting. split; [exact Hdeleting|]. by exists keys.
Defined.
