(* ===== verification/Entities.v ===== *)
(** * The entities a database stores, and the rows they bind

    The structs of [ceres-entities/src/records.rs] and [entities.rs], and the
    [RowValues] implementations of [ceres-database/src/writer.rs] that bind
    each as a row. A UUID and an address are their text, a timestamp is
    nanoseconds, and a JSON document is the text [serde_json] writes of it. *)
From S2P Require Import Prelude.
From S2P Require Import Text Sql Schema FilterParse FilterMatch FilterCompile.
Local Open Scope string_scope.
Local Open Scope list_scope.
Local Open Scope Z_scope.

(** ** Enumerations *)

Inductive Direction := Send | Receive.

(** The names [MessageDirection] binds under. *)
Definition direction_text (self : Direction) : string :=
  match self with Send => "send" | Receive => "receive" end.

(** [Level] of [ceres-config/src/logging.rs]. *)
Inductive LogLevel := Debug | Info | Warning | Error | Critical.

Definition level_as_str (self : LogLevel) : string :=
  match self with
  | Debug => "debug" | Info => "info" | Warning => "warning" | Error => "error"
  | Critical => "critical"
  end.

Inductive TargetType := Component | Tag | All.

Definition target_as_str (self : TargetType) : string :=
  match self with Component => "component" | Tag => "tag" | All => "all" end.

Definition target_parse (text : string) : option TargetType :=
  if decide (text = "component") then Some Component
  else if decide (text = "tag") then Some Tag
  else if decide (text = "all") then Some All
  else None.

Inductive Grant := View | Operate | Manage.

Definition grant_as_str (self : Grant) : string :=
  match self with View => "view" | Operate => "operate" | Manage => "manage" end.

Definition grant_parse (text : string) : option Grant :=
  if decide (text = "view") then Some View
  else if decide (text = "operate") then Some Operate
  else if decide (text = "manage") then Some Manage
  else None.

(** ** Records *)

Record MessageRecord := {
  message_id : string;
  message_address : string;
  message_timestamp : Z;
  message_connection : option string;
  message_direction : Direction;
  message_data : list Z
}.

Record ParticleRecord := {
  particle_id : string;
  particle_address : string;
  particle_timestamp : Z;
  particle_connection : option string;
  particle_kind : string;
  particle_data : string;
  particle_span : option (Z * Z)
}.

Record AlertRecord := {
  alert_id : string;
  alert_address : string;
  alert_timestamp : Z;
  alert_level : LogLevel;
  alert_kind : string;
  alert_data : string
}.

Record LogRecord := {
  log_id : string;
  log_address : string;
  log_timestamp : Z;
  log_level : LogLevel;
  log_content : string
}.

(** [Records], a batch of one table's. *)
Inductive Records :=
  | MessageBatch (messages : list MessageRecord)
  | ParticleBatch (particles : list ParticleRecord)
  | AlertBatch (alerts : list AlertRecord)
  | LogBatch (entries : list LogRecord).

(** ** Entities *)

Record UserEntity := {
  user_id : string; username : string; user_email : string; password : string;
  admin : bool; disabled : bool
}.
Record VariableEntity := { variable_address : string; variable_name : string; variable_value : string }.
Record SettingEntity := { setting_user : string; setting_name : string; setting_value : string }.
Record WorkspaceEntity := {
  workspace_id : string; workspace_name : string; workspace_scope : string;
  workspace_owner : option string; show_when_logged_out : bool; workspace_data : string
}.
Record WorkspaceEditEntity := { edit_user : string; edit_workspace : string; edit_data : string }.
Record GroupEntity := { group_id : string; group_name : string; group_description : string }.
Record MembershipEntity := { member_user : string; member_group : string }.

(** A grant to a user or to a group, whose rows differ only in whose they are. *)
Record PermissionEntity := {
  permission_holder : string; permission_target_type : TargetType; permission_target : string;
  permission_level : Grant
}.

Inductive EntityBatch :=
  | UserBatch (users : list UserEntity)
  | VariableBatch (variables : list VariableEntity)
  | SettingBatch (settings : list SettingEntity)
  | WorkspaceBatch (workspaces : list WorkspaceEntity)
  | WorkspaceEditBatch (edits : list WorkspaceEditEntity)
  | GroupBatch (groups : list GroupEntity)
  | MembershipBatch (memberships : list MembershipEntity)
  | UserPermissionBatch (permissions : list PermissionEntity)
  | GroupPermissionBatch (permissions : list PermissionEntity).

(** [table_of], of records and of entities. *)
Definition record_table_of (records : Records) : RecordTable :=
  match records with
  | MessageBatch _ => Messages | ParticleBatch _ => Particles | AlertBatch _ => Alerts
  | LogBatch _ => Logs
  end.

Definition entity_table_of (entities : EntityBatch) : EntityTable :=
  match entities with
  | UserBatch _ => Users | VariableBatch _ => Variables | SettingBatch _ => Settings
  | WorkspaceBatch _ => Workspaces | WorkspaceEditBatch _ => WorkspaceEdits | GroupBatch _ => Groups
  | MembershipBatch _ => GroupMemberships | UserPermissionBatch _ => UserPermissions
  | GroupPermissionBatch _ => GroupPermissions
  end.

(** ** Rows *)

(** [SimpleExpr::Keyword(Null)], and an absent value bound. *)
Definition Null : Expr := Cust "NULL" [].

Definition text_value (text : string) : Expr := Lit (ValText text).
Definition opt_text (text : option string) : Expr :=
  match text with Some text => text_value text | None => Null end.
Definition id_expr (dialect : SqlDialect) (id : string) : Expr := Lit (id_value id dialect).

(** [json_text]; [json_value] and [bare_json_value] are it of a document's
    text. *)
Definition json_bound (text : string) (dialect : SqlDialect) : Expr :=
  match dialect with
  | SqliteText => text_value text
  | Postgres => Cast (text_value text) "json"
  end.

(** [RowValues]. *)
Class RowValues (T : Type) := row_values : SqlDialect -> T -> list Expr.

Section rows.
Context `{Codecs}.

(** [timestamp_value] of [writer.rs]. *)
Definition stamp_expr (dialect : SqlDialect) (stamp : Z) : Expr := Lit (timestamp_value stamp dialect).

#[export] Instance message_values : RowValues MessageRecord := fun dialect self =>
  [id_expr dialect (message_id self); text_value (message_address self);
   stamp_expr dialect (message_timestamp self); opt_text (message_connection self);
   text_value (direction_text (message_direction self)); Lit (ValBytes (message_data self))].

#[export] Instance particle_values : RowValues ParticleRecord := fun dialect self =>
  [id_expr dialect (particle_id self); text_value (particle_address self);
   stamp_expr dialect (particle_timestamp self); opt_text (particle_connection self);
   text_value (particle_kind self); json_bound (particle_data self) dialect].

#[export] Instance alert_values : RowValues AlertRecord := fun dialect self =>
  [id_expr dialect (alert_id self); text_value (alert_address self);
   stamp_expr dialect (alert_timestamp self); text_value (level_as_str (alert_level self));
   text_value (alert_kind self); json_bound (alert_data self) dialect].

#[export] Instance log_values : RowValues LogRecord := fun dialect self =>
  [id_expr dialect (log_id self); text_value (log_address self);
   stamp_expr dialect (log_timestamp self); text_value (level_as_str (log_level self));
   text_value (log_content self)].
End rows.

#[export] Instance user_values : RowValues UserEntity := fun dialect self =>
  [id_expr dialect (user_id self); text_value (username self); text_value (user_email self);
   text_value (password self); Lit (ValBool (admin self)); Lit (ValBool (disabled self))].

#[export] Instance variable_values : RowValues VariableEntity := fun dialect self =>
  [text_value (variable_address self); text_value (variable_name self);
   json_bound (variable_value self) dialect].

#[export] Instance setting_values : RowValues SettingEntity := fun dialect self =>
  [id_expr dialect (setting_user self); text_value (setting_name self);
   json_bound (setting_value self) dialect].

#[export] Instance workspace_values : RowValues WorkspaceEntity := fun dialect self =>
  [id_expr dialect (workspace_id self); text_value (workspace_name self);
   text_value (workspace_scope self);
   match workspace_owner self with Some owner => id_expr dialect owner | None => Null end;
   Lit (ValBool (show_when_logged_out self)); json_bound (workspace_data self) dialect].

#[export] Instance edit_values : RowValues WorkspaceEditEntity := fun dialect self =>
  [id_expr dialect (edit_user self); id_expr dialect (edit_workspace self);
   json_bound (edit_data self) dialect].

#[export] Instance group_values : RowValues GroupEntity := fun dialect self =>
  [id_expr dialect (group_id self); text_value (group_name self); text_value (group_description self)].

#[export] Instance membership_values : RowValues MembershipEntity := fun dialect self =>
  [id_expr dialect (member_user self); id_expr dialect (member_group self)].

#[export] Instance permission_values : RowValues PermissionEntity := fun dialect self =>
  [id_expr dialect (permission_holder self); text_value (target_as_str (permission_target_type self));
   text_value (permission_target self); text_value (grant_as_str (permission_level self))].

(** [rows]. *)
Definition rows {T} `{!RowValues T} (dialect : SqlDialect) (items : list T) : list (list Expr) :=
  row_values dialect <$> items.

(** [RecordTable::column_names]. *)
Definition column_names (self : RecordTable) : list string :=
  match self with
  | Messages => ["id"; "address"; "timestamp"; "connection"; "direction"; "data"]
  | Particles => ["id"; "address"; "timestamp"; "connection"; "type"; "data"]
  | Alerts => ["id"; "address"; "timestamp"; "level"; "type"; "data"]
  | Logs => ["id"; "address"; "timestamp"; "level"; "content"]
  end.

(** [entity_columns]. *)
Definition entity_columns (entities : EntityBatch) : list string :=
  match entities with
  | UserBatch _ => WIRE_KEYS User | VariableBatch _ => WIRE_KEYS Variable_
  | SettingBatch _ => WIRE_KEYS Setting | WorkspaceBatch _ => WIRE_KEYS Workspace
  | WorkspaceEditBatch _ => WIRE_KEYS WorkspaceEdit | GroupBatch _ => WIRE_KEYS Group_
  | MembershipBatch _ => WIRE_KEYS GroupMembership
  | UserPermissionBatch _ => WIRE_KEYS UserPermission
  | GroupPermissionBatch _ => WIRE_KEYS GroupPermission
  end.
