(* ===== verification/Writer.v ===== *)
(** * Writing records and rows

    [ceres-database/src/writer.rs]: batches bound as multi-row inserts, the
    upserts of a flush, and [insert_all] of [backend.rs], which runs statements
    in one transaction. The outer [None] of what builds a statement is a
    panic; that of what runs one is the database's refusal.

    The parts after this one: a flush lands as its records written one by one. *)
From S2P Require Import Prelude.
From stdpp Require Import gmap sorting.
From S2P Require Import Text Sql Schema FilterMatch FilterCompile Entities.
Local Open Scope string_scope.
Local Open Scope list_scope.

(** ** Statements *)

(** [OnConflict]: the key a collision is on, and the columns it updates from
    the row excluded, or none for [DO NOTHING]. *)
Record OnConflict := { conflict_key : list string; conflict_updates : option (list string) }.

Record InsertStatement := {
  into_table : string;
  insert_columns : list string;
  insert_rows : list (list Expr);
  on_conflict : option OnConflict
}.

Definition with_conflict (clause : OnConflict) (self : InsertStatement) : InsertStatement :=
  {| into_table := into_table self; insert_columns := insert_columns self;
     insert_rows := insert_rows self; on_conflict := Some clause |}.

(** [open_insert]: no statement of no rows; [values_panic] panics on a row of
    another width than the columns. *)
Definition open_insert (table : string) (columns : list string) (rows : list (list Expr)) :
    option (option InsertStatement) :=
  if bool_decide (rows = []) then Some None
  else if forallb (fun row => bool_decide (length row = length columns)) rows then
    Some (Some {| into_table := table; insert_columns := columns; insert_rows := rows; on_conflict := None |})
  else None.

(** [RecordTable::insert_into]. *)
Definition insert_into (self : RecordTable) (rows : list (list Expr)) : option (option InsertStatement) :=
  open_insert (record_table_name self) (column_names self) rows.

(** [upsert_statement]. *)
Definition upsert_statement (table : RecordTable) (rows : list (list Expr)) :
    option (option InsertStatement) :=
  let clause :=
    {| conflict_key := ["id"];
       conflict_updates := Some (filter (fun column => column <> "id") (column_names table)) |} in
  match insert_into table rows with
  | Some opened => Some (option_map (with_conflict clause) opened)
  | None => None
  end.

Definition BATCH : nat := 1000.

(** [Iterator::take] over a peeked iterator until it is spent; every chunk
    takes an item, so as much fuel as items is enough. *)
Fixpoint chunks {A} (fuel : nat) (size : nat) (l : list A) : list (list A) :=
  match fuel, l with
  | S fuel, _ :: _ => take size l :: chunks fuel size (drop size l)
  | _, _ => []
  end.

(** [dedupe_last]: the last index of each key, in order. *)
Definition last_indexes {T} (key : T -> string) (records : list T) : gmap string nat :=
  foldl (fun held '(index, record) => <[key record := index]> held) ∅ (imap pair records).

Definition dedupe_last {T} (key : T -> string) (records : list T) : list T :=
  omap (fun index => records !! index) (merge_sort le (snd <$> map_to_list (last_indexes key records))).

(** [deduped_rows]. *)
Definition deduped_rows {T} `{!RowValues T} (key : T -> string) (dialect : SqlDialect)
    (records : list T) : list (list Expr) :=
  rows dialect (dedupe_last key records).

Section writer.
Context `{Codecs}.

Definition batch_rows (records : Records) (dialect : SqlDialect) : list (list Expr) :=
  match records with
  | MessageBatch messages => deduped_rows message_id dialect messages
  | ParticleBatch particles => deduped_rows particle_id dialect particles
  | AlertBatch alerts => deduped_rows alert_id dialect alerts
  | LogBatch entries => deduped_rows log_id dialect entries
  end.

(** [upsert_statements]: one statement per chunk, with its rows' count. *)
Definition upsert_statements (records : Records) (dialect : SqlDialect) :
    option (list (InsertStatement * nat)) :=
  let rows := batch_rows records dialect in
  statements ← mapM (fun chunk =>
      match upsert_statement (record_table_of records) chunk with
      | Some statement => Some (option_map (fun statement => (statement, length chunk)) statement)
      | None => None
      end)
    (chunks (length rows) BATCH rows);
  Some (omap id statements).

(** [load_statement] and [entity_load_statement]. *)
Definition load_statement (records : Records) (dialect : SqlDialect) : option (option InsertStatement) :=
  insert_into (record_table_of records)
    (match records with
     | MessageBatch messages => rows dialect messages
     | ParticleBatch particles => rows dialect particles
     | AlertBatch alerts => rows dialect alerts
     | LogBatch entries => rows dialect entries
     end).
End writer.

Definition entity_load_statement (entities : EntityBatch) (dialect : SqlDialect) :
    option (option InsertStatement) :=
  open_insert (schema_name (entity_schema (entity_table_of entities))) (entity_columns entities)
    (match entities with
     | UserBatch users => rows dialect users
     | VariableBatch variables => rows dialect variables
     | SettingBatch settings => rows dialect settings
     | WorkspaceBatch workspaces => rows dialect workspaces
     | WorkspaceEditBatch edits => rows dialect edits
     | GroupBatch groups => rows dialect groups
     | MembershipBatch memberships => rows dialect memberships
     | UserPermissionBatch permissions | GroupPermissionBatch permissions => rows dialect permissions
     end).

(** ** Running them

    A table is its rows by the values of the statement's key columns, a row
    its values by column, a null none. *)
Definition Key : Type := list (option SqlValue).
Definition TableRows : Type := gmap Key SimpleRow.
Definition Tables : Type := gmap string TableRows.

(** What a bound expression stores. *)
Definition bound_value (expr : Expr) : option SqlValue :=
  match expr with
  | Lit value => Some value
  | Cast (Lit (ValText text)) _ => Some (ValJson text)
  | _ => None
  end.

Definition row_of (columns : list string) (row : list Expr) : SimpleRow :=
  list_to_map (omap (fun '(column, expr) => pair column <$> bound_value expr) (zip columns row)).

Definition key_in (columns : list string) (row : SimpleRow) : Key := (fun column => row !! column) <$> columns.

(** A column set to the excluded row's value. *)
Definition take_column (excluded : SimpleRow) (row : SimpleRow) (column : string) : SimpleRow :=
  partial_alter (fun _ => excluded !! column) column row.

(** One row of an insert. A key the statement has touched already is refused by
    PostgreSQL, which cannot update a row twice, and updated again by SQLite. *)
Definition insert_row (dialect : SqlDialect) (key : list string) (updates : option (option (list string)))
    (state : TableRows * list Key) (row : SimpleRow) : option (TableRows * list Key) :=
  let '(table, touched) := state in
  let at_ := key_in key row in
  match table !! at_ with
  | None => Some (<[at_ := row]> table, at_ :: touched)
  | Some held =>
      match updates with
      | None => None
      | Some None => Some (table, touched)
      | Some (Some columns) =>
          if bool_decide (dialect = Postgres /\ at_ ∈ touched) then None
          else Some (<[at_ := foldl (take_column row) held columns]> table, at_ :: touched)
      end
  end.

(** [Iterator::try_fold]. *)
Fixpoint try_fold {A S} (f : S -> A -> option S) (state : S) (l : list A) : option S :=
  match l with [] => Some state | a :: l => state ← f state a; try_fold f state l end.

(** One statement, on a table whose primary key is [primary]. *)
Definition run_insert (dialect : SqlDialect) (primary : list string) (tables : Tables)
    (statement : InsertStatement) : option Tables :=
  let key := match on_conflict statement with Some clause => conflict_key clause | None => primary end in
  state ← try_fold (insert_row dialect key (conflict_updates <$> on_conflict statement))
            (default ∅ (tables !! into_table statement), [])
            (row_of (insert_columns statement) <$> insert_rows statement);
  Some (<[into_table statement := fst state]> tables).

(** [Error::Refused], of a batch its reader refused, and a refusal of the
    database's. *)
Inductive WriteError := WriteRefused (message : string) | DatabaseRefused.

(** One step of [insert_all]'s transaction. *)
Definition transact (dialect : SqlDialect) (primary : list string) (state : Tables * nat)
    (batch : result (InsertStatement * nat) string) : result (Tables * nat) WriteError :=
  let '(tables, written) := state in
  match batch with
  | Ok (statement, count) =>
      match run_insert dialect primary tables statement with
      | Some tables => Ok (tables, (written + count)%nat)
      | None => Err DatabaseRefused
      end
  | Err message => Err (WriteRefused message)
  end.

(** [insert_all]: every statement in one transaction, rolled back by a refusal,
    and the count of rows handed in. *)
Definition insert_all (dialect : SqlDialect) (primary : list string)
    (batches : list (result (InsertStatement * nat) string)) (tables : Tables) :
    Tables * result nat WriteError :=
  match res_fold (transact dialect primary) (tables, 0%nat) batches with
  | Ok (tables, written) => (tables, Ok written)
  | Err error => (tables, Err error)
  end.

(** [RecordWriter::upsert], the count dropped: the outer [None] is a panic. *)
Definition upsert `{Codecs} (dialect : SqlDialect) (batches : list Records) (tables : Tables) :
    option (Tables * result unit WriteError) :=
  statements ← mapM (fun batch => upsert_statements batch dialect) batches;
  let '(tables, answer) := insert_all dialect ["id"] (Ok <$> mjoin statements) tables in
  Some (tables, match answer with Ok _ => Ok tt | Err error => Err error end).

(** * A flush lands as its records written one by one

    The dedupe, the chunking and the upserts of [Writer], against the plain
    reading of a flush: every record in turn takes its row. *)

(** ** Keeping the last of each key *)

Section dedupe.
Context {T : Type} (key : T -> string).

(** The records no later record shares a key with. *)
Fixpoint lasts (records : list T) : list T :=
  match records with
  | [] => []
  | record :: records =>
      if decide (key record ∈ key <$> records) then lasts records else record :: lasts records
  end.

(** Their indexes. *)
Definition is_last (records : list T) (index : nat) : Prop :=
  exists record, records !! index = Some record /\ key record ∉ key <$> drop (S index) records.

#[local] Instance is_last_dec records index : Decision (is_last records index).
Proof.
  destruct (records !! index) as [record|] eqn:Hrecord.
  - destruct (decide (key record ∈ key <$> drop (S index) records)) as [Hin|Hout].
    + right. intros (record' & Hrecord' & Hout). naive_solver.
    + left. by exists record.
  - right. intros (record & Hrecord' & _). naive_solver.
Defined.

Lemma lasts_indexes records :
  omap (fun index => records !! index) (filter (is_last records) (seq 0 (length records))) = lasts records.
Proof.
  induction records as [|record records IH]; [done|]. cbn [length seq lasts].
  assert (omap (fun index => (record :: records) !! index)
    (filter (is_last (record :: records)) (seq 1 (length records))) = lasts records) as Hrest.
  { rewrite <- IH. clear IH. rewrite <- fmap_S_seq.
    induction (seq 0 (length records)) as [|index l IHl]; [done|].
    cbn [fmap list_fmap]. rewrite !filter_cons.
    assert (is_last (record :: records) (S index) <-> is_last records index) as Hiff by done.
    destruct (decide (is_last (record :: records) (S index))), (decide (is_last records index)); try tauto.
    cbn [omap list_omap]. cbn [lookup list_lookup]. by rewrite IHl. }
  rewrite filter_cons. case_decide as Hlast; case_decide as Hin.
  - destruct Hlast as (record' & [= <-] & Hout). cbn in Hout. by rewrite drop_0 in Hout.
  - cbn. by rewrite Hrest.
  - done.
  - destruct Hlast. exists record. cbn. by rewrite drop_0.
Qed.

(** What the fold over a batch's records holds. *)
Lemma last_indexes_from start records (held : gmap string nat) k index :
  foldl (fun held '(index, record) => <[key record := index]> held) held
    (imap (fun index record => (start + index, record)) records) !! k = Some index <->
  (exists place record, index = start + place /\ records !! place = Some record /\ key record = k /\
     key record ∉ key <$> drop (S place) records) \/
  (k ∉ key <$> records /\ held !! k = Some index).
Proof.
  revert start held. induction records as [|record records IH]; intros start held.
  { cbn. split; [intros; right; set_solver|]. intros [(place & record & _ & Hplace & _)|[_ ?]]; done. }
  cbn [imap foldl]. rewrite Nat.add_0_r.
  replace (imap _ records) with (imap (fun index record => (S start + index, record)) records).
  2: { apply imap_ext. intros. cbn. f_equal. lia. }
  rewrite IH. split.
  - intros [(place & record' & -> & Hplace & Hk & Hout)|[Hout Hheld]].
    + left. exists (S place), record'. split_and!; [lia|done..].
    + destruct (decide (key record = k)) as [<-|Hne].
      * rewrite lookup_insert_eq in Hheld. injection Hheld as <-. left. exists 0, record.
        cbn. rewrite drop_0. split_and!; [lia|done..].
      * rewrite lookup_insert_ne in Hheld by done. right. split; [|done].
        cbn. rewrite not_elem_of_cons. by split.
  - intros [([|place] & record' & -> & Hplace & Hk & Hout)|[Hout Hheld]].
    + right. injection Hplace as <-. cbn in Hout. rewrite drop_0 in Hout. subst k.
      split; [done|]. rewrite lookup_insert_eq. f_equal. lia.
    + left. exists place, record'. split_and!; [lia|done..].
    + cbn in Hout. apply not_elem_of_cons in Hout as [Hne Hout]. right. split; [done|].
      by rewrite lookup_insert_ne.
Qed.

Lemma last_indexes_spec records k index :
  last_indexes key records !! k = Some index <->
  exists record, records !! index = Some record /\ key record = k /\
    key record ∉ key <$> drop (S index) records.
Proof.
  unfold last_indexes. pose proof (last_indexes_from 0 records ∅ k index) as Hfrom. cbn in Hfrom.
  change (imap (fun index record => (index, record)) records) with (imap pair records) in Hfrom.
  rewrite Hfrom. split.
  - intros [(place & record & -> & ?)|[_ Hempty]]; [by exists record|]. by rewrite lookup_empty in Hempty.
  - intros (record & ?). left. by exists index, record.
Qed.

Lemma sorted_filter (P : nat -> Prop) `{!forall x, Decision (P x)} (l : list nat) :
  StronglySorted le l -> StronglySorted le (filter P l).
Proof.
  induction 1 as [|x l Hsorted IH Hx]; [constructor|]. rewrite filter_cons. case_decide; [|done].
  constructor; [done|]. rewrite Forall_forall in Hx |- *. intros y [_ Hy]%list_elem_of_filter. by apply Hx.
Qed.

Lemma sorted_seq start n : StronglySorted le (seq start n).
Proof.
  revert start. induction n as [|n IH]; intros start; cbn; constructor; [done|].
  apply Forall_forall. intros index Hindex%elem_of_seq. lia.
Qed.

(** A batch keeps the last of each key, in the order of the batch. *)
Lemma dedupe_last_lasts records : dedupe_last key records = lasts records.
Proof.
  unfold dedupe_last. rewrite <- lasts_indexes. f_equal.
  apply (StronglySorted_unique le).
  - apply StronglySorted_merge_sort; apply _.
  - apply sorted_filter, sorted_seq.
  - rewrite merge_sort_Permutation. apply NoDup_Permutation.
    + apply NoDup_fmap_2_strong; [|apply NoDup_map_to_list].
      intros [k i] [k' i'] Hin Hin' Heq. cbn in Heq. subst i'.
      apply elem_of_map_to_list, last_indexes_spec in Hin as (r & Hr & <- & _).
      apply elem_of_map_to_list, last_indexes_spec in Hin' as (r' & Hr' & <- & _). by simplify_eq.
    + apply NoDup_filter, NoDup_seq.
    + intros index. rewrite list_elem_of_fmap, list_elem_of_filter, elem_of_seq. split.
      * intros ([k index'] & -> & Hin). cbn.
        apply elem_of_map_to_list, last_indexes_spec in Hin as (record & Hrecord & <- & Hout).
        split; [by exists record|]. apply lookup_lt_Some in Hrecord. lia.
      * intros ((record & Hrecord & Hout) & _). exists (key record, index). split; [done|].
        apply elem_of_map_to_list, last_indexes_spec. by exists record.
Qed.

Lemma lasts_subset record records : record ∈ lasts records -> record ∈ records.
Proof.
  induction records as [|r records IH]; cbn; [done|]. case_decide; rewrite ?elem_of_cons; naive_solver.
Qed.

Lemma lasts_nodup records : NoDup (key <$> lasts records).
Proof.
  induction records as [|record records IH]; cbn; [constructor|]. case_decide as Hin; [done|].
  cbn. constructor; [|done]. intros (record' & Heq & Hin')%list_elem_of_fmap.
  apply Hin. rewrite Heq. by apply list_elem_of_fmap_2, lasts_subset.
Qed.

(** A map the records are inserted in, by keys that tell apart as [key] does,
    is the one only the kept records are. *)
Lemma fold_lasts {V} `{Countable K} (at_ : T -> K) (v : T -> V) records (m : gmap K V) :
  (forall a b, at_ a = at_ b <-> key a = key b) ->
  foldl (fun m record => <[at_ record := v record]> m) m (lasts records) =
  foldl (fun m record => <[at_ record := v record]> m) m records.
Proof.
  intros Hat. revert m. induction records as [|record records IH]; intros m; cbn [lasts foldl]; [done|].
  case_decide as Hin; [|by cbn [foldl]; rewrite IH].
  rewrite IH. clear IH. revert m. induction records as [|r records IH]; intros m; cbn [foldl].
  { by apply elem_of_nil in Hin. }
  destruct (decide (key record = key r)) as [Heq|Hne].
  - apply Hat in Heq. rewrite Heq. by rewrite insert_insert_eq.
  - rewrite (insert_insert_ne m) by (by rewrite Hat). apply IH.
    cbn in Hin. apply elem_of_cons in Hin as [|]; done.
Qed.
End dedupe.

(** ** What a bound record promises the writer *)

Section bound.
Context `{Codecs}.

Class BoundTo (table : RecordTable) {T : Type} `{!RowValues T} (key : T -> string) := {
  bound_width dialect record : length (row_values dialect record) = length (column_names table);
  bound_id dialect record :
    row_of (column_names table) (row_values dialect record) !! "id" = Some (id_value (key record) dialect)
}.

#[export] Instance messages_bound : BoundTo Messages message_id.
Proof. split; [done|intros; by apply lookup_insert_eq]. Qed.
#[export] Instance particles_bound : BoundTo Particles particle_id.
Proof. split; [done|intros; by apply lookup_insert_eq]. Qed.
#[export] Instance alerts_bound : BoundTo Alerts alert_id.
Proof. split; [done|intros; by apply lookup_insert_eq]. Qed.
#[export] Instance logs_bound : BoundTo Logs log_id.
Proof. split; [done|intros; by apply lookup_insert_eq]. Qed.

Lemma id_value_inj dialect a b : id_value a dialect = id_value b dialect <-> a = b.
Proof. destruct dialect; cbn; naive_solver. Qed.

(** ** One statement *)

(** A table keeps rows under their own ID, of its own columns. *)
Definition table_rows_ok (columns : list string) (table : TableRows) : Prop :=
  map_Forall (fun key row => key_in ["id"] row = key /\ dom row ⊆ list_to_set columns) table.

Definition put_row (table : TableRows) (row : SimpleRow) : TableRows := <[key_in ["id"] row := row]> table.

Lemma row_of_dom columns row : dom (row_of columns row) ⊆ list_to_set columns.
Proof.
  unfold row_of. intros column Hin. apply elem_of_dom in Hin as [value Hvalue].
  apply elem_of_list_to_map_2, list_elem_of_omap in Hvalue as ([c expr] & Hzip & Heq).
  destruct (bound_value expr); [|done]. cbn in Heq. injection Heq as <- <-.
  apply elem_of_list_to_set. by apply elem_of_zip_l in Hzip.
Qed.

Lemma take_column_eq (excluded held : SimpleRow) column :
  take_column excluded held column !! column = excluded !! column.
Proof. apply (lookup_partial_alter_eq (M := gmap string)). Qed.

Lemma take_column_ne (excluded held : SimpleRow) column other :
  column <> other -> take_column excluded held column !! other = held !! other.
Proof. apply (lookup_partial_alter_ne (M := gmap string)). Qed.

Lemma take_columns_lookup excluded held columns column :
  foldl (take_column excluded) held columns !! column =
  if decide (column ∈ columns) then excluded !! column else held !! column.
Proof.
  revert held. induction columns as [|c columns IH]; intros held; cbn [foldl].
  - by rewrite decide_False by apply not_elem_of_nil.
  - rewrite IH. destruct (decide (column = c)) as [->|Hne].
    + rewrite take_column_eq. rewrite (decide_True (P := c ∈ c :: columns)) by left.
      by case_decide.
    + rewrite take_column_ne by done.
      destruct (decide (column ∈ columns)) as [Hin|Hout].
      * by rewrite decide_True by by right.
      * rewrite decide_False; [done|]. rewrite not_elem_of_cons. by split.
Qed.

(** Updating every column but the ID leaves the incoming row. *)
Lemma updated_row columns (held row : SimpleRow) :
  dom held ⊆ list_to_set columns -> dom row ⊆ list_to_set columns -> held !! "id" = row !! "id" ->
  foldl (take_column row) held (filter (fun column => column <> "id") columns) = row.
Proof.
  intros Hheld Hrow Hid. apply map_eq. intros column. rewrite take_columns_lookup. case_decide as Hin; [done|].
  rewrite list_elem_of_filter in Hin.
  destruct (decide (column = "id")) as [->|Hne]; [done|].
  assert (column ∉ columns) as Hout by tauto.
  assert (column ∉ dom held /\ column ∉ dom row) as [Hh Hr]
    by (split; intros Hd; apply Hout; apply (elem_of_list_to_set (C := gset string)); set_solver).
  apply not_elem_of_dom in Hh, Hr. transitivity (None : option SqlValue); [exact Hh|symmetry; exact Hr].
Qed.

Lemma put_row_ok columns table row :
  table_rows_ok columns table -> dom row ⊆ list_to_set columns -> table_rows_ok columns (put_row table row).
Proof. intros Htable Hrow. by apply map_Forall_insert_2. Qed.

Lemma put_rows_ok columns table rows :
  table_rows_ok columns table -> Forall (fun row => dom row ⊆ list_to_set columns) rows ->
  table_rows_ok columns (foldl put_row table rows).
Proof.
  intros Htable Hrows. revert table Htable. induction Hrows; intros table Htable; [done|]. cbn.
  by apply IHHrows, put_row_ok.
Qed.

Lemma insert_rows_put dialect columns rows table touched :
  table_rows_ok columns table -> Forall (fun row => dom row ⊆ list_to_set columns) rows ->
  NoDup (key_in ["id"] <$> rows) -> Forall (fun row => key_in ["id"] row ∉ touched) rows ->
  exists touched',
    try_fold (insert_row dialect ["id"] (Some (Some (filter (fun column => column <> "id") columns))))
      (table, touched) rows = Some (foldl put_row table rows, touched').
Proof.
  intros Htable Hrows. revert table touched Htable.
  induction Hrows as [|row rows Hrow Hrows IH]; intros table touched Htable Hnodup Htouched.
  { by exists touched. }
  apply NoDup_cons in Hnodup as [Hnew Hnodup]. apply Forall_cons in Htouched as [Hfresh Htouched].
  assert (insert_row dialect ["id"] (Some (Some (filter (fun column => column <> "id") columns)))
    (table, touched) row = Some (put_row table row, key_in ["id"] row :: touched)) as Hstep.
  { unfold insert_row. destruct (table !! key_in ["id"] row) as [held|] eqn:Hheld; [|done].
    rewrite bool_decide_eq_false_2 by tauto.
    destruct (map_Forall_lookup_1 _ _ _ _ Htable Hheld) as [Hkey Hdom].
    rewrite updated_row; [done|done|done|]. by injection Hkey. }
  destruct (IH (put_row table row) (key_in ["id"] row :: touched)) as [touched' Hfold].
  - by apply put_row_ok.
  - done.
  - apply Forall_forall. intros r Hr. rewrite not_elem_of_cons. rewrite Forall_forall in Htouched.
    split; [|by apply Htouched]. intros Heq. apply Hnew. rewrite <- Heq. by apply list_elem_of_fmap_2.
  - exists touched'. cbn [try_fold]. rewrite Hstep. exact Hfold.
Qed.

(** ** A batch's statements *)

Definition upserting (table : RecordTable) (chunk : list (list Expr)) : InsertStatement :=
  {| into_table := record_table_name table; insert_columns := column_names table; insert_rows := chunk;
     on_conflict := Some {| conflict_key := ["id"];
       conflict_updates := Some (filter (fun column => column <> "id") (column_names table)) |} |}.

Definition wide (table : RecordTable) (row : list Expr) : Prop := length row = length (column_names table).

Lemma upsert_statement_some table chunk :
  chunk <> [] -> Forall (wide table) chunk -> upsert_statement table chunk = Some (Some (upserting table chunk)).
Proof.
  intros Hne Hwide. unfold upsert_statement, insert_into, open_insert.
  rewrite bool_decide_eq_false_2 by done.
  assert (forallb (fun row => bool_decide (length row = length (column_names table))) chunk = true) as ->; [|done].
  apply forallb_forall. intros row Hrow. apply bool_decide_eq_true.
  rewrite Forall_forall in Hwide. by apply Hwide, list_elem_of_In.
Qed.

Lemma chunks_join {A} size fuel (l : list A) :
  (length l <= fuel)%nat -> size <> 0 -> mjoin (chunks fuel size l) = l /\ Forall (fun chunk => chunk <> []) (chunks fuel size l).
Proof.
  revert l. induction fuel as [|fuel IH]; intros [|a l] Hlen Hsize; cbn in Hlen; try lia; try by split.
  destruct size as [|size]; [done|]. cbn [chunks].
  destruct (IH (drop (S size) (a :: l))) as [Hjoin Hne]; [|done|].
  { rewrite length_drop. cbn [length]. lia. }
  split; [|by constructor].
  change (take (S size) (a :: l) ++ mjoin (chunks fuel (S size) (drop (S size) (a :: l))) = a :: l).
  rewrite Hjoin. apply take_drop.
Qed.

Lemma transact_app dialect primary state a b :
  res_fold (transact dialect primary) state (a ++ b) =
  res_bind (res_fold (transact dialect primary) state a)
    (fun state => res_fold (transact dialect primary) state b).
Proof.
  revert state. induction a as [|x a IH]; intros state; [done|]. cbn.
  destruct (transact dialect primary state x); [apply IH|done].
Qed.

Lemma run_upserting dialect table chunk tables held :
  tables !! record_table_name table = Some held -> table_rows_ok (column_names table) held ->
  NoDup (key_in ["id"] <$> (row_of (column_names table) <$> chunk)) ->
  run_insert dialect ["id"] tables (upserting table chunk) =
  Some (<[record_table_name table := foldl put_row held (row_of (column_names table) <$> chunk)]> tables).
Proof.
  intros Htable Hok Hnodup.
  destruct (insert_rows_put dialect (column_names table) (row_of (column_names table) <$> chunk) held [])
    as [touched Hput]; [done| |done|by apply Forall_forall; intros; apply not_elem_of_nil|].
  { apply Forall_fmap, Forall_forall. intros row _. apply row_of_dom. }
  unfold run_insert. assert (default ∅ (tables !! into_table (upserting table chunk)) = held) as ->.
  { transitivity (default ∅ (Some held)); [|done]. f_equal. exact Htable. }
  exact (f_equal (fun state => state ≫= fun state => Some (<[record_table_name table := fst state]> tables)) Hput).
Qed.

Lemma run_chunks dialect table chunks_ tables held written :
  tables !! record_table_name table = Some held -> table_rows_ok (column_names table) held ->
  NoDup (key_in ["id"] <$> (row_of (column_names table) <$> mjoin chunks_)) ->
  res_fold (transact dialect ["id"]) (tables, written)
    (Ok <$> ((fun chunk => (upserting table chunk, length chunk)) <$> chunks_)) =
  Ok (<[record_table_name table := foldl put_row held (row_of (column_names table) <$> mjoin chunks_)]> tables,
        (written + length (mjoin chunks_))%nat).
Proof.
  revert tables held written. induction chunks_ as [|chunk chunks_ IH]; intros tables held written Htable Hok Hnodup.
  - cbn. rewrite Nat.add_0_r. do 2 f_equal. symmetry. by apply (insert_id (M := gmap string)).
  - change (mjoin (chunk :: chunks_)) with (chunk ++ mjoin chunks_) in *. rewrite !fmap_app in Hnodup.
    apply NoDup_app in Hnodup as (Hchunk & _ & Hrest).
    cbn [fmap list_fmap res_fold transact]. rewrite (run_upserting _ _ _ _ held) by done.
    rewrite (IH _ (foldl put_row held (row_of (column_names table) <$> chunk))).
    + rewrite fmap_app, foldl_app, length_app, Nat.add_assoc. do 2 f_equal.
      apply (insert_insert_eq (M := gmap string)).
    + by apply (lookup_insert_eq (M := gmap string)).
    + apply put_rows_ok; [done|]. apply Forall_fmap, Forall_forall. intros row _. apply row_of_dom.
    + done.
Qed.

(** ** A flush *)

(** Every record's row, in the order of the batch. *)
Definition record_rows (records : Records) (dialect : SqlDialect) : list SimpleRow :=
  row_of (column_names (record_table_of records)) <$>
  match records with
  | MessageBatch messages => rows dialect messages
  | ParticleBatch particles => rows dialect particles
  | AlertBatch alerts => rows dialect alerts
  | LogBatch entries => rows dialect entries
  end.

(** The records of a batch written one by one, each taking its row whole. *)
Definition flushed (dialect : SqlDialect) (tables : Tables) (records : Records) : Tables :=
  <[record_table_name (record_table_of records) :=
      foldl put_row (default ∅ (tables !! record_table_name (record_table_of records)))
        (record_rows records dialect)]> tables.

(** Every record table is there, its rows under their own IDs and of its own
    columns. *)
Definition tables_ok (tables : Tables) : Prop :=
  forall table : RecordTable, exists held,
    tables !! record_table_name table = Some held /\ table_rows_ok (column_names table) held.

Lemma record_table_name_inj a b : record_table_name a = record_table_name b -> a = b.
Proof. by destruct a, b. Qed.

Lemma flushed_ok dialect tables records : tables_ok tables -> tables_ok (flushed dialect tables records).
Proof.
  intros Hok table. unfold flushed.
  destruct (decide (record_table_name (record_table_of records) = record_table_name table)) as [Heq|Hne].
  - apply record_table_name_inj in Heq as <-. destruct (Hok (record_table_of records)) as (held & Hheld & Hrows).
    eexists. split; [by apply (lookup_insert_eq (M := gmap string))|].
    rewrite Hheld. apply put_rows_ok; [done|]. unfold record_rows.
    apply Forall_fmap, Forall_forall. intros row _. apply row_of_dom.
  - destruct (Hok table) as (held & Hheld & Hrows). exists held. split; [|done].
    etransitivity; [by apply (lookup_insert_ne (M := gmap string))|done].
Qed.

Lemma mapM_upserting table cs :
  Forall (fun chunk => chunk <> [] /\ Forall (wide table) chunk) cs ->
  mapM (fun chunk =>
      match upsert_statement table chunk with
      | Some statement => Some (option_map (fun statement => (statement, length chunk)) statement)
      | None => None
      end) cs = Some ((fun chunk => Some (upserting table chunk, length chunk)) <$> cs).
Proof.
  induction 1 as [|chunk cs [Hne Hwide] _ IH]; [done|]. cbn [mapM]. rewrite upsert_statement_some by done.
  cbn [option_map mbind option_bind]. by rewrite IH.
Qed.

Section one_batch.
Context {T : Type} `{!RowValues T} (table : RecordTable) (key : T -> string) `{!BoundTo table key}.

Lemma row_key dialect record :
  key_in ["id"] (row_of (column_names table) (row_values dialect record)) = [Some (id_value (key record) dialect)].
Proof. cbn. f_equal. apply bound_id. Qed.

Lemma deduped_nodup dialect records :
  NoDup (key_in ["id"] <$> (row_of (column_names table) <$> deduped_rows key dialect records)).
Proof.
  unfold deduped_rows, rows. rewrite dedupe_last_lasts.
  pose proof (lasts_nodup key records) as Hnodup. revert Hnodup. generalize (lasts key records). intros l Hnodup.
  induction l as [|record l IH]; [constructor|]. apply NoDup_cons in Hnodup as [Hout Hnodup].
  cbn [fmap list_fmap]. constructor; [|by apply IH].
  rewrite row_key. intros (row & Hrow & (values & -> & (other & -> & Hin)%list_elem_of_fmap)%list_elem_of_fmap)%list_elem_of_fmap.
  rewrite row_key in Hrow. injection Hrow as Hid%id_value_inj. apply Hout. rewrite Hid. by apply list_elem_of_fmap_2.
Qed.

Lemma deduped_puts dialect records (held : TableRows) :
  foldl put_row held (row_of (column_names table) <$> deduped_rows key dialect records) =
  foldl put_row held (row_of (column_names table) <$> rows dialect records).
Proof.
  unfold deduped_rows, rows. rewrite dedupe_last_lasts.
  assert (forall l : list T, foldl put_row held (row_of (column_names table) <$> (row_values dialect <$> l)) =
    foldl (fun m record => <[key_in ["id"] (row_of (column_names table) (row_values dialect record)) :=
      row_of (column_names table) (row_values dialect record)]> m) held l) as Hfold.
  { intros l. revert held. induction l as [|record l IH]; intros held; [done|]. cbn. apply IH. }
  rewrite !Hfold. apply (fold_lasts key). intros a b. rewrite !row_key. split.
  - by intros [= Hid%id_value_inj].
  - by intros ->.
Qed.

Lemma deduped_wide dialect records : Forall (wide table) (deduped_rows key dialect records).
Proof. apply Forall_fmap, Forall_forall. intros record _. apply bound_width. Qed.

Lemma one_batch_lands dialect records tables written :
  tables_ok tables ->
  let rows_ := deduped_rows key dialect records in
  exists lists, mapM (fun chunk =>
      match upsert_statement table chunk with
      | Some statement => Some (option_map (fun statement => (statement, length chunk)) statement)
      | None => None
      end) (chunks (length rows_) BATCH rows_) = Some lists /\
    res_fold (transact dialect ["id"]) (tables, written) (Ok <$> omap id lists) =
    Ok (<[record_table_name table := foldl put_row (default ∅ (tables !! record_table_name table))
              (row_of (column_names table) <$> rows dialect records)]> tables,
          (written + length (dedupe_last key records))%nat).
Proof.
  intros Hok rows_. destruct (Hok table) as (held & Hheld & Hrows).
  destruct (chunks_join BATCH (length rows_) rows_) as [Hjoin Hne]; [done|done|].
  rewrite mapM_upserting.
  - eexists. split; [done|].
    assert (forall {A B} (f : A -> B) (l : list A), omap id ((fun a => Some (f a)) <$> l) = f <$> l) as Homap
      by (intros A B f l; induction l as [|a l IH]; [done|]; cbn; by rewrite <- IH).
    rewrite Homap. rewrite (run_chunks dialect table _ _ held) by (done || (rewrite Hjoin; apply deduped_nodup)).
    rewrite Hjoin, Hheld. cbn [default]. unfold rows_. rewrite deduped_puts.
    unfold deduped_rows, rows. by rewrite length_fmap.
  - apply Forall_forall. intros chunk Hchunk. rewrite Forall_forall in Hne. split; [by apply Hne|].
    pose proof (deduped_wide dialect records) as Hwide. fold rows_ in Hwide. rewrite <- Hjoin in Hwide.
    rewrite Forall_forall in Hwide |- *. intros row Hrow. apply Hwide. apply list_elem_of_join. by exists chunk.
Qed.
End one_batch.
End bound.
