(* ===== verification/WriterServed.v ===== *)
(** * A stored row is the record its wire form says

    The serialized forms of the records of [ceres-entities/src/records.rs], as
    the derives write them, and that the row the writer binds of a record holds
    what a filter's matching takes that form for.

    The parts after this one: what a flush promises. *)
From S2P Require Import Prelude.
From stdpp Require Import gmap.
From S2P Require Import Text Sql Selector Schema Wire FilterParse FilterFacts FilterMatch FilterCompile.
From S2P Require Import FilterPatterns FilterAgree FilterServed Entities Writer.
Local Open Scope string_scope.
Local Open Scope list_scope.
Local Open Scope Z_scope.

(** [serde_json]'s string writer, and [Timestamp::to_wire], whose formats are
    [chrono]'s: what is written is read back, to the microsecond. *)
Class WireCodecs `{Codecs} := {
  json_quote : string -> string;
  timestamp_wire : Z -> string;
  json_quote_read text : json_string (json_quote text) = Some text;
  json_null_read : json_string "null" = None;
  timestamp_wire_read stamp : stamp mod 1000 = 0 -> rfc3339 (timestamp_wire stamp) = Some stamp
}.

Section wire.
Context `{WireCodecs}.

Definition opt_quote (text : option string) : string :=
  match text with Some text => json_quote text | None => "null" end.

(** [Serialize] of each record, a field's raw JSON by its wire key. *)
Definition message_wire (self : MessageRecord) : Record_ :=
  list_to_map [("id", json_quote (message_id self)); ("address", json_quote (message_address self));
    ("timestamp", json_quote (timestamp_wire (message_timestamp self)));
    ("connection", opt_quote (message_connection self));
    ("direction", json_quote (direction_text (message_direction self)));
    ("data", json_quote (latin1_decode (message_data self)))].

(** An absent connection or span is left out of a particle. *)
Definition particle_wire (span_text : Z * Z -> string) (self : ParticleRecord) : Record_ :=
  list_to_map ([("id", json_quote (particle_id self)); ("address", json_quote (particle_address self));
    ("timestamp", json_quote (timestamp_wire (particle_timestamp self)))] ++
    match particle_connection self with Some name => [("connection", json_quote name)] | None => [] end ++
    [("type", json_quote (particle_kind self)); ("data", particle_data self)] ++
    match particle_span self with Some span => [("span", span_text span)] | None => [] end).

Definition alert_wire (self : AlertRecord) : Record_ :=
  list_to_map [("id", json_quote (alert_id self)); ("address", json_quote (alert_address self));
    ("timestamp", json_quote (timestamp_wire (alert_timestamp self)));
    ("level", json_quote (level_as_str (alert_level self)));
    ("type", json_quote (alert_kind self)); ("data", alert_data self)].

Definition log_wire (self : LogRecord) : Record_ :=
  list_to_map [("id", json_quote (log_id self)); ("address", json_quote (log_address self));
    ("timestamp", json_quote (timestamp_wire (log_timestamp self)));
    ("level", json_quote (level_as_str (log_level self)));
    ("content", json_quote (log_content self))].

(** A timestamp the databases and the wire hold whole: of a microsecond, and
    on SQLite of a year of four digits. *)
Definition stamp_ok (dialect : SqlDialect) (stamp : Z) : Prop :=
  stamp mod 1000 = 0 /\ (dialect = SqliteText -> stamp_storable stamp).

Context (dialect : SqlDialect).
#[local] Existing Instance evaluator.

(** The first value listed for a key. *)
Fixpoint assoc {A} (k : string) (entries : list (string * A)) : option A :=
  match entries with
  | [] => None
  | (k', a) :: entries => if Strings.String.eqb k k' then Some a else assoc k entries
  end.

Lemma lookup_assoc {A} k (entries : list (string * A)) :
  (list_to_map entries : gmap string A) !! k = assoc k entries.
Proof.
  induction entries as [|[k' a] entries IH]; [done|]. cbn.
  destruct (Strings.String.eqb_spec k k') as [->|Hne].
  - apply (lookup_insert_eq (M := gmap string)).
  - etransitivity; [by apply (lookup_insert_ne (M := gmap string))|exact IH].
Qed.

(** Each column against the field of its key. *)
Lemma columns_stored columns values wire table entries :
  (fun field => (key field, family field)) <$> fields table = entries -> computed table = [] ->
  Forall (fun '(key, family) =>
      column_agrees (dialect := dialect)
        (assoc key (omap (fun '(column, expr) => pair column <$> bound_value expr) (zip columns values)))
        (assoc key wire) (assoc key wire ≫= json_string) family) entries ->
  row_stores (dialect := dialect) table (row_of columns values) (list_to_map wire).
Proof.
  intros <- Hcomputed Hall. split; [|by rewrite Hcomputed].
  pose proof (proj1 (Forall_fmap (fun field => (key field, family field)) _ _) Hall) as Hfields.
  eapply Forall_impl; [exact Hfields|]. intros field Hfield. cbn in Hfield.
  unfold field_stored, text_of, raw_of.
  assert ((list_to_map wire : Record_) !! key field = assoc (key field) wire) as -> by exact (lookup_assoc _ _).
  assert (cell (row_of columns values) (key field) =
    assoc (key field) (omap (fun '(column, expr) => pair column <$> bound_value expr) (zip columns values)))
    as -> by exact (lookup_assoc _ _).
  exact Hfield.
Qed.

Ltac stored_columns :=
  repeat apply Forall_cons_2; [..|by apply Forall_nil]; cbn;
  rewrite ?json_quote_read, ?json_null_read; cbn; rewrite ?timestamp_wire_read by done;
  try done; try (by split; [eexists|]);
  try (unfold json_bound, text_value, json_cell; by destruct dialect).

Lemma message_stores self :
  stamp_ok dialect (message_timestamp self) -> Forall byte_ok (message_data self) ->
  row_stores (dialect := dialect) (record_schema Messages)
    (row_of (column_names Messages) (row_values dialect self)) (message_wire self).
Proof.
  intros [Hmicros Hyear] Hbytes. eapply columns_stored; [vm_compute; reflexivity|done|].
  destruct self as [id addr stamp [connection|] direction data]; cbn in Hmicros, Hyear, Hbytes;
    stored_columns; by rewrite latin1_round_trip.
Qed.

Lemma particle_stores span_text self :
  stamp_ok dialect (particle_timestamp self) ->
  row_stores (dialect := dialect) (record_schema Particles)
    (row_of (column_names Particles) (row_values dialect self)) (particle_wire span_text self).
Proof.
  intros [Hmicros Hyear]. eapply columns_stored; [vm_compute; reflexivity|done|].
  destruct self as [id addr stamp [connection|] kind data [span|]]; cbn in Hmicros, Hyear; stored_columns.
Qed.

Lemma alert_stores self :
  stamp_ok dialect (alert_timestamp self) ->
  row_stores (dialect := dialect) (record_schema Alerts)
    (row_of (column_names Alerts) (row_values dialect self)) (alert_wire self).
Proof.
  intros [Hmicros Hyear]. eapply columns_stored; [vm_compute; reflexivity|done|].
  destruct self; cbn in Hmicros, Hyear; stored_columns.
Qed.

Lemma log_stores self :
  stamp_ok dialect (log_timestamp self) ->
  row_stores (dialect := dialect) (record_schema Logs)
    (row_of (column_names Logs) (row_values dialect self)) (log_wire self).
Proof.
  intros [Hmicros Hyear]. eapply columns_stored; [vm_compute; reflexivity|done|].
  destruct self; cbn in Hmicros, Hyear; stored_columns.
Qed.

(** ** Records of any table *)

Inductive AnyRecord :=
  | AMessage (message : MessageRecord)
  | AParticle (particle : ParticleRecord)
  | AnAlert (alert : AlertRecord)
  | ALog (entry : LogRecord).

Definition any_table (self : AnyRecord) : RecordTable :=
  match self with AMessage _ => Messages | AParticle _ => Particles | AnAlert _ => Alerts | ALog _ => Logs end.

Definition any_row (self : AnyRecord) : SimpleRow :=
  row_of (column_names (any_table self))
    (match self with
     | AMessage message => row_values dialect message
     | AParticle particle => row_values dialect particle
     | AnAlert alert => row_values dialect alert
     | ALog entry => row_values dialect entry
     end).

Definition any_wire (span_text : Z * Z -> string) (self : AnyRecord) : Record_ :=
  match self with
  | AMessage message => message_wire message
  | AParticle particle => particle_wire span_text particle
  | AnAlert alert => alert_wire alert
  | ALog entry => log_wire entry
  end.

Definition any_stamp (self : AnyRecord) : Z :=
  match self with
  | AMessage message => message_timestamp message
  | AParticle particle => particle_timestamp particle
  | AnAlert alert => alert_timestamp alert
  | ALog entry => log_timestamp entry
  end.

(** What a record has to hold for both stores to keep it whole. *)
Definition record_ok (self : AnyRecord) : Prop :=
  stamp_ok dialect (any_stamp self) /\
  match self with AMessage message => Forall byte_ok (message_data message) | _ => True end.

Lemma any_stores span_text self :
  record_ok self ->
  row_stores (dialect := dialect) (record_schema (any_table self)) (any_row self) (any_wire span_text self).
Proof.
  intros [Hstamp Hdata]. destruct self.
  - by apply message_stores.
  - by apply particle_stores.
  - by apply alert_stores.
  - by apply log_stores.
Qed.
End wire.

(** * What a flush promises

    The properties of the record writer, and of a flushed record as filters see
    it. *)

(** ** A flush *)

Section flush.
Context `{Codecs}.

(** How many rows a flush counts: one of each ID of each batch. *)
Definition flush_count (records : Records) : nat :=
  match records with
  | MessageBatch messages => length (dedupe_last message_id messages)
  | ParticleBatch particles => length (dedupe_last particle_id particles)
  | AlertBatch alerts => length (dedupe_last alert_id alerts)
  | LogBatch entries => length (dedupe_last log_id entries)
  end.

Lemma batch_lands dialect records tables written :
  tables_ok tables ->
  exists statements, upsert_statements records dialect = Some statements /\
    res_fold (transact dialect ["id"]) (tables, written) (Ok <$> statements) =
    Ok (flushed dialect tables records, (written + flush_count records)%nat).
Proof.
  intros Hok. unfold upsert_statements, batch_rows.
  destruct records as [l|l|l|l]; cbn [record_table_of].
  - destruct (one_batch_lands Messages message_id dialect l tables written Hok) as (lists & Hlists & Hfold).
    rewrite Hlists. by eexists.
  - destruct (one_batch_lands Particles particle_id dialect l tables written Hok) as (lists & Hlists & Hfold).
    rewrite Hlists. by eexists.
  - destruct (one_batch_lands Alerts alert_id dialect l tables written Hok) as (lists & Hlists & Hfold).
    rewrite Hlists. by eexists.
  - destruct (one_batch_lands Logs log_id dialect l tables written Hok) as (lists & Hlists & Hfold).
    rewrite Hlists. by eexists.
Qed.

Lemma batches_land dialect batches tables written :
  tables_ok tables ->
  exists statements, mapM (fun batch => upsert_statements batch dialect) batches = Some statements /\
    res_fold (transact dialect ["id"]) (tables, written) (Ok <$> mjoin statements) =
    Ok (foldl (flushed dialect) tables batches, (written + sum_list (flush_count <$> batches))%nat).
Proof.
  revert tables written. induction batches as [|batch batches IH]; intros tables written Hok.
  { exists []. split; [done|]. cbn. by rewrite Nat.add_0_r. }
  destruct (batch_lands dialect batch tables written Hok) as (statements & Hstatements & Hfold).
  destruct (IH (flushed dialect tables batch) (written + flush_count batch)%nat) as (rest & Hrest & Hfolds).
  { by apply flushed_ok. }
  exists (statements :: rest). split; [cbn; by rewrite Hstatements, Hrest|].
  change (mjoin (statements :: rest)) with (statements ++ mjoin rest).
  rewrite fmap_app, transact_app, Hfold. cbn [res_bind]. rewrite Hfolds.
  cbn [foldl fmap list_fmap sum_list sum_list_with foldr]. by rewrite Nat.add_assoc.
Qed.

Lemma upsert_result dialect batches tables :
  tables_ok tables ->
  upsert dialect batches tables =
  Some (foldl (flushed dialect) tables batches, Ok tt).
Proof.
  intros Hok. unfold upsert. destruct (batches_land dialect batches tables 0 Hok) as (statements & -> & Hfold).
  cbn [mbind option_bind]. unfold insert_all. by rewrite Hfold.
Qed.

(** C14: a flush of any batches, of any sizes and with IDs repeated within and
    across them, lands as its records written one by one in their order, each
    taking its row whole: no statement is refused for touching a row twice or
    panics on a row's width, and the last record of an ID is the one stored. *)
Theorem upsert_lands (dialect : SqlDialect) (batches : list Records) (tables : Tables) :
  tables_ok tables ->
  upsert dialect batches tables = Some (foldl (flushed dialect) tables batches, Ok tt).
Proof. apply upsert_result. Qed.
End flush.

(** ** What filters see of it *)

(** A record alone in its batch. *)
Definition alone (record : AnyRecord) : Records :=
  match record with
  | AMessage message => MessageBatch [message]
  | AParticle particle => ParticleBatch [particle]
  | AnAlert alert => AlertBatch [alert]
  | ALog entry => LogBatch [entry]
  end.

Section seen.
Context `{WireCodecs} (dialect : SqlDialect).
#[local] Existing Instance evaluator.


Lemma flushed_alone tables record :
  flushed dialect tables (alone record) !! record_table_name (any_table record) =
  Some (put_row (default ∅ (tables !! record_table_name (any_table record))) (any_row dialect record)).
Proof. destruct record; apply (lookup_insert_eq (M := gmap string)). Qed.

End seen.

(** ** Witnesses *)

#[local] Program Instance sample_wire : WireCodecs := {|
  json_quote := quoted;
  timestamp_wire := instant_text
|}.
Next Obligation. apply quoted_round_trip. Qed.
Next Obligation. done. Qed.
Next Obligation. intros stamp _. apply instant_round_trip. Qed.

Definition empty_tables : Tables :=
  list_to_map ((fun table => (record_table_name table, ∅)) <$> RECORD_TABLES).

Lemma empty_tables_ok : tables_ok empty_tables.
Proof. intros table. exists ∅. split; [by destruct table|apply map_Forall_empty]. Qed.

(** Two entries of one ID and another, the first's text replaced. *)
Definition pump_entry (id : string) (stamp : Z) (content : string) : LogRecord :=
  {| log_id := id; log_address := "@rig.engine"; log_timestamp := stamp; log_level := Error;
     log_content := content |}.

Definition pump_batches : list Records :=
  [LogBatch [pump_entry "1" 2000000000 "pump starting"; pump_entry "2" 2500000000 "pump hot";
             pump_entry "1" 2000000000 "pump failed"];
   MessageBatch []; LogBatch [pump_entry "2" 2500000000 "pump stalled"]].

(** On PostgreSQL, which refuses a row touched twice by one statement. *)
Lemma upsert_lands_witness :
  upsert Postgres pump_batches empty_tables =
    Some (foldl (flushed Postgres) empty_tables pump_batches, Ok tt).
Proof. exact (upsert_lands Postgres pump_batches empty_tables empty_tables_ok). Defined.

(** Its count is of the IDs each batch holds. *)
Lemma pump_count : sum_list (flush_count <$> pump_batches) = 3%nat.
Proof. vm_compute. reflexivity. Qed.

Definition pump_failed : AnyRecord := ALog (pump_entry "1" 2000000000 "pump failed").

Lemma pump_failed_ok : record_ok Postgres pump_failed.
Proof. by repeat split. Qed.


Definition hot_node : FilterNode := Node (set_min_level (Some 3%nat) conditions_default) [] [sample_alternative].

Lemma hot_node_ok : node_ok (record_schema Logs) hot_node.
Proof.
  constructor; [|done|done|constructor; [apply sample_alternative_ok|done]].
  split; try done; by constructor.
Qed.

Lemma hot_node_served :
  tree_served (dialect := Postgres) (record_schema Logs) (any_wire (fun _ => "null") pump_failed) 0 hot_node.
Proof.
  constructor.
  - by split; [..|split|split].
  - right. vm_compute. done.
  - done.
  - apply Forall_singleton. constructor; [|by left|done|done]. by split; [..|split|split].
Qed.

Notation hot_conditions :=
  (combined_conditions (H := sample_codecs) (record_schema Logs) Postgres 0 hot_node).

Lemma hot_compiles : is_Some hot_conditions.
Proof. vm_compute. by eexists. Qed.

