(* ===== verification/Load.v ===== *)
(** * Bulk loads

    [ceres-database/src/load.rs]: the readers of a load's rows, what a row
    means, the walk over them in batches; and the loads of
    [ceres-database/src/store.rs], which write the batches in one transaction.
    The readers of text as lines, as CSV, as JSON and as YAML, and the
    deserializers the derives write, are parameters.

    The parts after this one: facts about a load's rows. *)
From S2P Require Import Prelude.
From stdpp Require Import gmap pretty.
From stdpp Require Import gmap.
From S2P Require Import Text Sql Schema Wire Json Credentials FilterMatch Entities Writer WriterServed.
Local Open Scope string_scope.
Local Open Scope list_scope.
Local Open Scope ceres_scope.

(** ** What a load is asked *)

(** [Conflict] and [LoadFormat], parsed and inferred. *)
Inductive Conflict := OnError | OnIgnore | OnUpdate.
Inductive LoadFormat := JsonFormat | CsvFormat.

#[export] Instance conflict_eq_dec : EqDecision Conflict.
Proof. solve_decision. Defined.

Definition conflict_parse (name : string) : option Conflict :=
  if decide (name = "error") then Some OnError
  else if decide (name = "ignore") then Some OnIgnore
  else if decide (name = "update") then Some OnUpdate
  else None.

Definition format_parse (name : string) : option LoadFormat :=
  if decide (name = "json") then Some JsonFormat
  else if decide (name = "csv") then Some CsvFormat
  else None.

Definition format_infer (extension : string) : option LoadFormat :=
  if decide (extension ∈ ["json"; "jsonl"; "ndjson"; "txt"]) then Some JsonFormat
  else if decide (extension = "csv") then Some CsvFormat
  else None.

(** ** Rows *)

(** Reading a source as lines, an unreadable one none, or as CSV; a line as
    JSON; a cell as YAML. *)
Class Readers (Source : Type) := {
  lines_of : Source -> list (option string);
  csv_headers : Source -> option (list string);
  csv_records : Source -> list (option (list string))
}.
Class TextReaders := {
  json_from_str : string -> option Jvalue;
  yaml_value : string -> result Jvalue string
}.

Inductive Rows :=
  | JsonRows (lines : list (option string))
  | CsvRows (records : list (option (list string))) (headers : list string).

(** [Rows::open]. *)
Definition rows_open {Source} `{!Readers Source} (source : Source) (format : LoadFormat) : option Rows :=
  match format with
  | JsonFormat => Some (JsonRows (lines_of source))
  | CsvFormat => headers ← csv_headers source; Some (CsvRows (csv_records source) headers)
  end.

(** [csv_object]: cells past the row's end are null, and a row longer than the
    header is refused. *)
Definition csv_object (row headers : list string) : option Object :=
  if bool_decide (length headers < length row)%nat then None
  else Some (foldl (fun object '(index, name) =>
      jinsert name (match row !! index with Some cell => JText cell | None => JNull end) object)
    [] (imap pair headers)).

Section rows.
Context `{TextReaders}.

(** [json_object]. *)
Definition json_object (line : string) : option Object :=
  match json_from_str line with Some (JObject object) => Some object | _ => None end.

(** [Rows::next]: [None] at the end of the input, and [Some None] for a row not
    represented. The [?] on a line that cannot be read ends the input too. *)
Definition rows_next (self : Rows) : option (option Object) * Rows :=
  match self with
  | JsonRows [] => (None, JsonRows [])
  | JsonRows (None :: lines) => (None, JsonRows lines)
  | JsonRows (Some line :: lines) => (Some (json_object line), JsonRows lines)
  | CsvRows [] headers => (None, CsvRows [] headers)
  | CsvRows (record :: records) headers =>
      (Some (row ← record; csv_object row headers), CsvRows records headers)
  end.

(** [refused]. *)
Definition refused_row (row : nat) (reason : string) : string :=
  "Row " +:+ pretty row +:+ " could not be read. " +:+ reason +:+
  " Nothing was loaded, because a load either lands whole or not at all.".

(** ** Batches *)

Record Batches := { batch_rows_left : Rows; spent : bool; rows_read : nat }.

(** The loop of [Batches::next] that fills a batch, [room] rows left in it; the
    boolean is whether a row did not parse. *)
Fixpoint gather (room : nat) (rows : Rows) (objects : list Object) : list Object * bool * Rows :=
  match room with
  | O => (objects, false, rows)
  | S room =>
      match rows_next rows with
      | (None, rows) => (objects, false, rows)
      | (Some None, rows) => (objects, true, rows)
      | (Some (Some object), rows) => gather room rows (objects ++ [object])
      end
  end.

Section walk.
Context {T : Type} (convert : list Object -> Reading T).

(** [Iterator::position] of the first object refused alone. *)
Fixpoint offending (objects : list Object) (index : nat) : nat -> option nat * nat :=
  fun drawn =>
    match objects with
    | [] => (None, drawn)
    | object :: objects =>
        match convert [object] drawn with
        | (Err _, drawn) => (Some index, drawn)
        | (Ok _, drawn) => offending objects (S index) drawn
        end
    end.

(** [Batches::next]. *)
Definition batches_next (self : Batches) (drawn : nat) : option (result T string) * Batches * nat :=
  if spent self then (None, self, drawn)
  else
    let start := rows_read self in
    let '(objects, unparsed, onward) := gather BATCH (batch_rows_left self) [] in
    if unparsed then
      (Some (Err (refused_row (start + length objects + 1) "The row does not parse as the format claims.")),
       {| batch_rows_left := onward; spent := true; rows_read := start |}, drawn)
    else if bool_decide (objects = []) then
      (None, {| batch_rows_left := onward; spent := false; rows_read := start |}, drawn)
    else
      let rest := {| batch_rows_left := onward; spent := false; rows_read := start + length objects |} in
      match convert objects drawn with
      | (Ok batch, drawn) => (Some (Ok batch), rest, drawn)
      | (Err reason, drawn) =>
          let '(found, drawn) := offending objects 0 drawn in
          let row := match found with Some index => start + index + 1 | None => start + 1 end in
          (Some (Err (refused_row row reason)),
           {| batch_rows_left := onward; spent := true; rows_read := start + length objects |}, drawn)
      end.

(** Every item, as a [for] takes them; [None] is the model's fuel run out. *)
Fixpoint walk (fuel : nat) (self : Batches) (drawn : nat) : option (list (result T string)) :=
  match fuel with
  | O => None
  | S fuel =>
      match batches_next self drawn with
      | (None, _, _) => Some []
      | (Some item, self, drawn) => items ← walk fuel self drawn; Some (item :: items)
      end
  end.
End walk.
End rows.

Definition rows_left (rows : Rows) : nat :=
  match rows with JsonRows lines => length lines | CsvRows records _ => length records end.

Definition open_batches (rows : Rows) : Batches :=
  {| batch_rows_left := rows; spent := false; rows_read := 0 |}.

(** ** What a row means *)

(** [ColumnDefault]. *)
Inductive ColumnDefault := GeneratedUuid | LiteralValue (value : Jvalue).

(** [RecordTable::column_default] and [EntityTable::column_default]. *)
Definition record_column_default (self : RecordTable) (key : string) : option ColumnDefault :=
  match self with
  | Alerts => if decide (key = "data") then Some (LiteralValue (JObject [])) else None
  | Messages => if decide (key = "connection") then Some (LiteralValue JNull) else None
  | _ => None
  end.

Definition entity_column_default (self : EntityTable) (key : string) : option ColumnDefault :=
  match self with
  | Workspaces =>
      if decide (key = "id") then Some GeneratedUuid
      else if decide (key = "scope") then Some (LiteralValue (JText "~"))
      else if decide (key = "owner_id") then Some (LiteralValue JNull)
      else if decide (key = "show_when_logged_out") then Some (LiteralValue (JBool false))
      else if decide (key = "data") then Some (LiteralValue (JObject []))
      else None
  | Users =>
      if decide (key = "id") then Some GeneratedUuid
      else if decide (key ∈ ["admin"; "disabled"]) then Some (LiteralValue (JBool false))
      else None
  | Groups =>
      if decide (key = "id") then Some GeneratedUuid
      else if decide (key = "description") then Some (LiteralValue (JText ""))
      else None
  | _ => None
  end.

(** The IDs and clock readings drawn, as they are written, and the models'
    deserializers, which name the path of what they refuse and why. *)
Class Models := {
  fresh_uuid : nat -> string;
  clock_wire : nat -> string;
  read_message : Object -> result MessageRecord (string * string);
  read_particle : Object -> result ParticleRecord (string * string);
  read_alert : Object -> result AlertRecord (string * string);
  read_log : Object -> result LogRecord (string * string);
  read_user : Object -> result UserEntity (string * string);
  read_variable : Object -> result VariableEntity (string * string);
  read_setting : Object -> result SettingEntity (string * string);
  read_workspace : Object -> result WorkspaceEntity (string * string);
  read_edit : Object -> result WorkspaceEditEntity (string * string);
  read_group : Object -> result GroupEntity (string * string);
  read_membership : Object -> result MembershipEntity (string * string);
  read_user_permission : Object -> result PermissionEntity (string * string);
  read_group_permission : Object -> result PermissionEntity (string * string)
}.

(** The loop of [complete]. *)
Fixpoint completing (accepted : list string) (object : Object)
    (default : string -> nat -> option Jvalue * nat) (state : Z * Object) : nat -> (Z * Object) * nat :=
  fun drawn =>
    match accepted with
    | [] => (state, drawn)
    | key :: accepted =>
        let '(remaining, completed) := state in
        match jget key object with
        | Some value => completing accepted object default ((remaining - 1)%Z, jinsert key value completed) drawn
        | None =>
            match default key drawn with
            | (Some value, drawn) => completing accepted object default (remaining, jinsert key value completed) drawn
            | (None, drawn) => completing accepted object default (remaining, completed) drawn
            end
        end
    end.

(** [complete]. *)
Definition complete (accepted : list string) (object : Object)
    (default_of : string -> nat -> option Jvalue * nat) : Reading Object :=
  fun drawn =>
    let '((remaining, completed), drawn) :=
      completing accepted object default_of (Z.of_nat (length object), []) drawn in
    if decide (remaining = 0%Z) then (Ok completed, drawn)
    else
      let unaccepted := default "" (head (filter (fun key => key ∉ accepted) (keys object))) in
      (Err ("`" +:+ unaccepted +:+ "` is not a field a write takes."), drawn).

(** [convert], of one row and of all. *)
Definition convert_row {T} (deserialize : Object -> result T (string * string)) (row : Object) :
    result T string :=
  match deserialize row with
  | Ok value => Ok value
  | Err (path, inner) =>
      if decide (path = ".") then Err (inner +:+ ".")
      else Err ("The `" +:+ path +:+ "` value does not validate. " +:+ inner +:+ ".")
  end.

Definition converted {T B} (batch : list T -> B) (deserialize : Object -> result T (string * string))
    (rows : list Object) : result B string :=
  let* values := res_map (convert_row deserialize) rows in Ok (batch values).

(** [RecordTable::accepted]. *)
Definition accepted (self : RecordTable) : list string := WIRE_KEYS (record_decl self).

Section models.
Context `{Models}.

Definition default_filled (default : ColumnDefault) : nat -> Jvalue * nat :=
  fun drawn =>
    match default with
    | GeneratedUuid => (JText (fresh_uuid drawn), S drawn)
    | LiteralValue value => (value, drawn)
    end.

(** [record_default] and [EntityTable::default_value]. *)
Definition record_default (table : RecordTable) (key : string) : nat -> option Jvalue * nat :=
  fun drawn =>
    match record_column_default table key with
    | Some default => let '(value, drawn) := default_filled default drawn in (Some value, drawn)
    | None =>
        if decide (key = "id") then (Some (JText (fresh_uuid drawn)), S drawn)
        else if decide (key = "timestamp") then (Some (JText (clock_wire drawn)), S drawn)
        else (Some JNull, drawn)
    end.

Definition entity_default_value (table : EntityTable) (key : string) : nat -> option Jvalue * nat :=
  fun drawn =>
    match entity_column_default table key with
    | Some default => let '(value, drawn) := default_filled default drawn in (Some value, drawn)
    | None => (None, drawn)
    end.

Definition from_result {A} (value : result A string) : Reading A := fun drawn => (value, drawn).

(** The match of [RecordTable::records] and of [EntityTable::entities]. *)
Definition records_of (self : RecordTable) (rows : list Object) : result Records string :=
  match self with
  | Messages => converted MessageBatch read_message rows
  | Particles => converted ParticleBatch read_particle rows
  | Alerts => converted AlertBatch read_alert rows
  | Logs => converted LogBatch read_log rows
  end.

Definition entities_of (self : EntityTable) (rows : list Object) : result EntityBatch string :=
  match self with
  | Users => converted UserBatch read_user rows
  | Variables => converted VariableBatch read_variable rows
  | Settings => converted SettingBatch read_setting rows
  | Workspaces => converted WorkspaceBatch read_workspace rows
  | WorkspaceEdits => converted WorkspaceEditBatch read_edit rows
  | Groups => converted GroupBatch read_group rows
  | GroupMemberships => converted MembershipBatch read_membership rows
  | UserPermissions => converted UserPermissionBatch read_user_permission rows
  | GroupPermissions => converted GroupPermissionBatch read_group_permission rows
  end.

(** [RecordTable::records] and [EntityTable::entities]. *)
Definition table_records (self : RecordTable) (objects : list Object) : Reading Records :=
  let+ rows := read_map (fun object => complete (accepted self) object (record_default self)) objects in
  from_result (records_of self rows).

Definition table_entities (self : EntityTable) (objects : list Object) : Reading EntityBatch :=
  let accepted := key <$> columns (entity_schema self) in
  let+ rows := read_map (fun object => complete accepted object (entity_default_value self)) objects in
  from_result (entities_of self rows).

Context `{HashCrates} `{EmailCrates} `{TextReaders}.

(** [EntityTable::yaml_columns]. *)
Definition yaml_column (object : Object) (field : FilterField) : result Object string :=
  if bool_decide (family field = Json \/ family field = JsonValue) then
    match jget (key field) object with
    | Some (JText text) =>
        match yaml_value text with
        | Ok value => Ok (jinsert (key field) value object)
        | Err error => Err ("The `" +:+ key field +:+ "` value does not parse as YAML. " +:+ error)
        end
    | _ => Ok object
    end
  else Ok object.

Definition yaml_columns (self : EntityTable) (objects : list Object) : result (list Object) string :=
  res_map (fun object => res_fold yaml_column object (columns (entity_schema self))) objects.

(** [EntityTable::credentialed]. *)
Definition credentialed (self : EntityTable) (objects : list Object) (credentials : option Hashing) :
    Reading (list Object) :=
  if decide (self = Users) then
    match credentials with
    | None => read_err "This database hashes passwords with parameters this command cannot reproduce."
    | Some credentials => read_map (apply_credentials credentials self) objects
    end
  else read_ok objects.

(** The conversion [entity_batches] makes of a batch. *)
Definition loaded_entities (self : EntityTable) (credentials : option Hashing) (objects : list Object) :
    Reading EntityBatch :=
  let+ parsed := from_result (yaml_columns self objects) in
  let+ applied := credentialed self parsed credentials in
  table_entities self applied.

(** ** Creates *)

(** One value of [Schema::wire_object]. *)
Definition wire_value (field : FilterField) (text : string) : result Jvalue string :=
  match family field with
  | Json | JsonValue =>
      match yaml_value text with
      | Ok value => Ok value
      | Err error => Err ("The `" +:+ key field +:+ "` value does not parse as YAML. " +:+ error)
      end
  | Boolean =>
      if decide (text = "true") then Ok (JBool true)
      else if decide (text = "false") then Ok (JBool false)
      else Err ("The `" +:+ key field +:+ "` value must be `true` or `false`, got `" +:+ text +:+ "`.")
  | _ => Ok (JText text)
  end.

(** [Schema::wire_object]. *)
Definition wire_object (self : Schema) (values : list (string * string)) : result Object string :=
  res_fold (fun object '(wire, text) =>
      match head (filter (fun field => key field = wire) (columns self)) with
      | None => Err ("`" +:+ wire +:+ "` is not a column a create takes.")
      | Some field => let* value := wire_value field text in Ok (jinsert wire value object)
      end) [] values.

(** [build] and [build_entity]. *)
Definition build (table : RecordTable) (values : list (string * string)) : Reading Records :=
  let+ object := from_result (wire_object (record_schema table) values) in
  table_records table [object].

Definition build_entity (table : EntityTable) (values : list (string * string))
    (credentials : option Hashing) : Reading EntityBatch :=
  let+ object := from_result (wire_object (entity_schema table) values) in
  let+ applied := credentialed table [object] credentials in
  table_entities table applied.
End models.

(** ** Loads *)

Section load.
Context `{Models} `{HashCrates} `{EmailCrates} `{TextReaders} {Source : Type} `{!Readers Source}.

(** [batches] and [entity_batches], and their items as the consumer takes
    them: a batch takes a row at least, so a fuel past the rows is enough. *)
Definition batches (source : Source) (format : LoadFormat) : option Batches :=
  open_batches <$> rows_open source format.

Definition items {T} (convert : list Object -> Reading T) (self : Batches) (drawn : nat) :
    option (list (result T string)) :=
  walk convert (S (S (rows_left (batch_rows_left self)))) self drawn.

(** [read]: the outer [None] is the model's. *)
Definition read_all (table : RecordTable) (source : Source) (format : LoadFormat) (drawn : nat) :
    option (option (list Records)) :=
  match batches source format with
  | None => Some None
  | Some self =>
      items ← items (table_records table) self drawn;
      Some (match res_map id items with Ok batches => Some batches | Err _ => None end)
  end.

(** [on_conflict]. *)
Definition conflict_clause (conflict : Conflict) (key columns : list string) : option OnConflict :=
  match conflict with
  | OnError => None
  | OnIgnore => Some {| conflict_key := key; conflict_updates := None |}
  | OnUpdate =>
      Some {| conflict_key := key; conflict_updates := Some (filter (fun column => column ∉ key) columns) |}
  end.

Definition apply_conflict (conflict : Conflict) (key columns : list string) (self : InsertStatement) :
    InsertStatement :=
  match conflict_clause conflict key columns with Some clause => with_conflict clause self | None => self end.

Definition records_len (self : Records) : nat :=
  match self with
  | MessageBatch rows => length rows | ParticleBatch rows => length rows
  | AlertBatch rows => length rows | LogBatch rows => length rows
  end.

Definition entities_len (self : EntityBatch) : nat :=
  match self with
  | UserBatch rows => length rows | VariableBatch rows => length rows | SettingBatch rows => length rows
  | WorkspaceBatch rows => length rows | WorkspaceEditBatch rows => length rows
  | GroupBatch rows => length rows | MembershipBatch rows => length rows
  | UserPermissionBatch rows | GroupPermissionBatch rows => length rows
  end.

Definition unstorable : string := "A row holds a value this command cannot store.".

(** The closures of [load_records] and [load_entities]: [None] is a panic. *)
Definition record_insert `{Codecs} (dialect : SqlDialect) (conflict : Conflict)
    (batch : result Records string) : option (result (InsertStatement * nat) string) :=
  match batch with
  | Err message => Some (Err message)
  | Ok batch =>
      statement ← load_statement batch dialect;
      Some (match statement with
            | None => Err unstorable
            | Some statement =>
                let table := record_table_of batch in
                Ok (apply_conflict conflict (key_columns (record_schema table)) (column_names table) statement,
                    records_len batch)
            end)
  end.

Definition entity_insert (dialect : SqlDialect) (conflict : Conflict)
    (batch : result EntityBatch string) : option (result (InsertStatement * nat) string) :=
  match batch with
  | Err message => Some (Err message)
  | Ok batch =>
      statement ← entity_load_statement batch dialect;
      Some (match statement with
            | None => Err unstorable
            | Some statement =>
                let table := entity_table_of batch in
                Ok (apply_conflict conflict (key_columns (entity_schema table)) (entity_columns batch) statement,
                    entities_len batch)
            end)
  end.

(** [load_records] and [load_entities], through [write_batches]. *)
Definition load_records `{Codecs} (dialect : SqlDialect) (conflict : Conflict)
    (batches : list (result Records string)) (tables : Tables) : option (Tables * result nat WriteError) :=
  statements ← mapM (record_insert dialect conflict) batches;
  Some (insert_all dialect ["id"] statements tables).

Definition load_entities (dialect : SqlDialect) (conflict : Conflict) (table : EntityTable)
    (batches : list (result EntityBatch string)) (tables : Tables) : option (Tables * result nat WriteError) :=
  statements ← mapM (entity_insert dialect conflict) batches;
  Some (insert_all dialect (key_columns (entity_schema table)) statements tables).

(** A record load of a source, from its rows to its tables: the outer [None]
    is a source that does not open, the next the model's or a panic. *)
Definition record_load `{Codecs} (dialect : SqlDialect) (conflict : Conflict) (table : RecordTable)
    (source : Source) (format : LoadFormat) (drawn : nat) (tables : Tables) :
    option (option (Tables * result nat WriteError)) :=
  self ← batches source format;
  Some (items ← items (table_records table) self drawn; load_records dialect conflict items tables).
End load.

(** * Facts about a load's rows

    What the walk over a source's rows delivers, whatever converts a batch of
    them, and which rows the record models take. *)

(** ** The rows of a source *)

Section rows_facts.
Context `{TextReaders}.

(** Every row of it, [None] for one not represented. *)
Definition all_rows (self : Rows) : list (option Object) :=
  match self with
  | JsonRows lines => (fun line => line ≫= json_object) <$> lines
  | CsvRows records headers => (fun record => row ← record; csv_object row headers) <$> records
  end.

(** No line of it fails to be read: CSV readers report such a row. *)
Definition readable (self : Rows) : Prop :=
  match self with JsonRows lines => Forall is_Some lines | CsvRows _ _ => True end.

Lemma rows_left_all self : rows_left self = length (all_rows self).
Proof. destruct self; cbn; by rewrite length_fmap. Qed.

Lemma rows_next_all self :
  readable self ->
  match all_rows self with
  | [] => rows_next self = (None, self)
  | row :: rows => exists onward, rows_next self = (Some row, onward) /\ all_rows onward = rows /\ readable onward
  end.
Proof.
  destruct self as [[|[line|] lines]|[|record records] headers]; cbn; intros Hread; try done; try by eexists.
  - apply Forall_cons in Hread as [_ Hread]. by eexists.
  - apply Forall_cons in Hread as [[line Hline] _]. done.
Qed.

(** A batch is filled with rows that parse, to its size or the input's end, or
    to a row that does not. *)
Lemma gather_all room self objects :
  readable self ->
  exists taken onward,
    readable onward /\ length taken <= room /\
    ((gather room self objects = (objects ++ taken, false, onward) /\
        all_rows self = (Some <$> taken) ++ all_rows onward /\ (length taken = room \/ all_rows onward = [])) \/
     (gather room self objects = (objects ++ taken, true, onward) /\
        all_rows self = (Some <$> taken) ++ None :: all_rows onward)).
Proof.
  revert self objects. induction room as [|room IH]; intros self objects Hread.
  { exists [], self. cbn. rewrite app_nil_r. naive_solver lia. }
  pose proof (rows_next_all self Hread) as Hnext. cbn [gather].
  destruct (all_rows self) as [|row rows] eqn:Hrows.
  { rewrite Hnext. exists [], self. cbn. rewrite app_nil_r, Hrows. naive_solver lia. }
  destruct Hnext as (onward & -> & Honward & Hread'). destruct row as [object|].
  - destruct (IH onward (objects ++ [object]) Hread') as (taken & final & Hfinal & Hlen & Hcases).
    exists (object :: taken), final. rewrite <- app_assoc in Hcases. cbn [app] in Hcases.
    split_and!; [done|cbn; lia|]. rewrite <- Honward.
    destruct Hcases as [(Hg & Hall & Hend)|(Hg & Hall)]; [left|right].
    + split_and!; [done|by rewrite Hall|]. destruct Hend; [left; cbn; lia|by right].
    + split_and!; [done|by rewrite Hall].
  - exists [], onward. split_and!; [done|cbn; lia|]. right. rewrite app_nil_r, Honward. done.
Qed.

(** ** The walk *)

Section walk_facts.
Context {T : Type} (convert : list Object -> Reading T).
Context (acceptable : Object -> bool).
Context (convert_ok : forall objects drawn,
  is_ok (fst (convert objects drawn)) = forallb acceptable objects).

Definition good (row : option Object) : Prop := exists object, row = Some object /\ acceptable object = true.

(** A batch delivered of rows read. *)
Definition delivers (group : list Object) (batch : T) : Prop :=
  group <> [] /\ length group <= BATCH /\ Forall (fun object => acceptable object = true) group /\
  exists drawn drawn', convert group drawn = (Ok batch, drawn').

Lemma offending_bad objects index drawn :
  match fst (offending convert objects index drawn) with
  | Some found => exists offset object, found = index + offset /\ objects !! offset = Some object /\
      acceptable object = false
  | None => forallb acceptable objects = true
  end.
Proof.
  revert index drawn. induction objects as [|object objects IH]; intros index drawn; [done|].
  cbn [offending]. pose proof (convert_ok [object] drawn) as Hok. cbn [forallb] in Hok.
  rewrite andb_true_r in Hok. destruct (convert [object] drawn) as [[batch|reason] drawn'].
  - cbn in Hok. specialize (IH (S index) drawn').
    destruct (fst (offending convert objects (S index) drawn')) as [found|].
    + destruct IH as (offset & o & -> & Hlookup & Hbad). exists (S offset), o. split_and!; [lia|done|done].
    + cbn. by rewrite <- Hok.
  - exists 0, object. split_and!; [lia|done|]. by rewrite <- Hok.
Qed.

(** The items of a walk: every row delivered, or the batches before a row that
    is refused, and then the refusal of that row. *)
Definition walked (start : nat) (rows : list (option Object)) (items : list (result T string)) : Prop :=
  exists groups batches, Forall2 delivers groups batches /\
    ((rows = Some <$> mjoin groups /\ items = Ok <$> batches) \/
     (exists index row reason,
        take (length (mjoin groups)) rows = Some <$> mjoin groups /\ length (mjoin groups) <= index /\
        rows !! index = Some row /\ ~ good row /\
        items = (Ok <$> batches) ++ [Err (refused_row (start + index + 1) reason)])).

Lemma walked_step start group batch rows items :
  delivers group batch -> walked (start + length group) rows items ->
  walked start ((Some <$> group) ++ rows) (Ok batch :: items).
Proof.
  intros Hbatch (groups & batches & Hall & Hcases). exists (group :: groups), (batch :: batches).
  split; [by constructor|].
  change (mjoin (group :: groups)) with (group ++ mjoin groups).
  destruct Hcases as [[-> ->]|(index & row & reason & Htake & Hle & Hrow & Hbad & ->)]; [left|right].
  - by rewrite fmap_app.
  - exists (length group + index), row, reason. rewrite length_app. split_and!.
    + rewrite take_app_ge by (rewrite length_fmap; lia). rewrite length_fmap, fmap_app.
      replace (length group + length (mjoin groups) - length group) with (length (mjoin groups)) by lia.
      by rewrite Htake.
    + lia.
    + rewrite lookup_app_r by (rewrite length_fmap; lia). rewrite length_fmap.
      by replace (length group + index - length group) with index by lia.
    + done.
    + cbn. do 3 f_equal. f_equal. f_equal. lia.
Qed.

Lemma walk_spent fuel self drawn : spent self = true -> walk convert (S fuel) self drawn = Some [].
Proof. intros Hspent. cbn [walk]. unfold batches_next. by rewrite Hspent. Qed.

Lemma walk_refused fuel self drawn message onward drawn' :
  batches_next convert self drawn = (Some (Err message), onward, drawn') -> spent onward = true ->
  walk convert (S (S fuel)) self drawn = Some [Err message].
Proof.
  intros Hnext Hspent. change (walk convert (S (S fuel)) self drawn) with
    (match batches_next convert self drawn with
     | (None, _, _) => Some []
     | (Some item, self, drawn) => items ← walk convert (S fuel) self drawn; Some (item :: items)
     end). rewrite Hnext, walk_spent; done.
Qed.

Lemma walk_walked fuel rows start drawn :
  readable rows -> S (rows_left rows) < fuel ->
  exists items, walk convert fuel {| batch_rows_left := rows; spent := false; rows_read := start |} drawn = Some items /\
    walked start (all_rows rows) items.
Proof.
  revert rows start drawn. induction fuel as [|fuel IH]; intros rows start drawn Hread Hfuel; [lia|].
  rewrite rows_left_all in Hfuel. destruct fuel as [|fuel]; [lia|].
  set (self := {| batch_rows_left := rows; spent := false; rows_read := start |}).
  assert (batches_next convert self drawn = batches_next convert self drawn) as Hnext by done.
  revert Hnext. unfold batches_next at 2. cbn [spent self batch_rows_left rows_read].
  destruct (gather_all BATCH rows [] Hread) as (taken & onward & Honward & Hlen & Hcases).
  destruct Hcases as [(Hg & Hall & Hend)|(Hg & Hall)]; rewrite Hg; cbn [app]; intros Hnext.
  2:{ exists [Err (refused_row (start + length taken + 1) "The row does not parse as the format claims.")].
      split; [by eapply walk_refused|]. exists [], []. split; [constructor|]. right.
      exists (length taken), None, "The row does not parse as the format claims.". rewrite Hall. cbn. split_and!.
      - done.
      - lia.
      - by rewrite lookup_app_r, length_fmap, Nat.sub_diag by (by rewrite length_fmap).
      - by intros (object & [=] & _).
      - done. }
  case_bool_decide as Hempty; [subst taken|].
  { destruct Hend as [Hend|Hend]; [done|]. exists []. split.
    - cbn [walk]. by rewrite Hnext.
    - exists [], []. split; [constructor|left]. by rewrite Hall, Hend. }
  pose proof (convert_ok taken drawn) as Hok.
  destruct (convert taken drawn) as [[batch|reason] drawn'] eqn:Hconvert; cbn in Hok.
  - destruct (IH onward (start + length taken) drawn') as (items & Hitems & Hwalked); [done| |].
    { rewrite rows_left_all. rewrite Hall, length_app, length_fmap in Hfuel.
      destruct taken; [done|]. cbn in Hfuel. lia. }
    exists (Ok batch :: items). split.
    + change (walk convert (S (S fuel)) self drawn) with
        (match batches_next convert self drawn with
         | (None, _, _) => Some []
         | (Some item, self, drawn) => items ← walk convert (S fuel) self drawn; Some (item :: items)
         end). rewrite Hnext, Hitems. done.
    + rewrite Hall. apply walked_step; [|done]. split_and!; [done|done| |by exists drawn, drawn'].
      apply List.Forall_forall. by apply forallb_forall.
  - pose proof (offending_bad taken 0 drawn') as Hbad.
    destruct (offending convert taken 0 drawn') as [found drawn'']. cbn [fst] in Hbad.
    destruct found as [found|]; [|congruence]. destruct Hbad as (offset & object & -> & Hlookup & Hbad).
    exists [Err (refused_row (start + (0 + offset) + 1) reason)]. split; [by eapply walk_refused|].
    exists [], []. split; [constructor|]. right. exists offset, (Some object), reason. rewrite Hall. split_and!.
    + done.
    + cbn. lia.
    + rewrite lookup_app_l by (rewrite length_fmap; by eapply lookup_lt_Some).
      by rewrite list_lookup_fmap, Hlookup.
    + intros (o & [= <-] & Hgood). congruence.
    + done.
Qed.
End walk_facts.
End rows_facts.

(** ** What the record models take *)

Section records.
Context `{Models}.

(** Two readings of a row, whose drawn IDs and clock readings may differ. *)
Definition redrawn (a b : string * Jvalue) : Prop :=
  fst a = fst b /\
  (snd a = snd b \/
   (exists i j, snd a = JText (fresh_uuid i) /\ snd b = JText (fresh_uuid j)) \/
   (exists i j, snd a = JText (clock_wire i) /\ snd b = JText (clock_wire j))).

Definition read_any (table : RecordTable) (row : Object) : result AnyRecord (string * string) :=
  match table with
  | Messages => let* record := read_message row in Ok (AMessage record)
  | Particles => let* record := read_particle row in Ok (AParticle record)
  | Alerts => let* record := read_alert row in Ok (AnAlert record)
  | Logs => let* record := read_log row in Ok (ALog record)
  end.

Lemma jinsert_redrawn key a b rows rows' :
  redrawn (key, a) (key, b) -> Forall2 redrawn rows rows' ->
  Forall2 redrawn (jinsert key a rows) (jinsert key b rows').
Proof.
  intros Hab. induction 1 as [|[k v] [k' v'] rows rows' [Hkey Hv] Hrows IH]; cbn in *;
    [by constructor|].
  subst k'. case_decide as Hk; [subst k|]; (constructor; [|assumption]).
  - done.
  - by split.
Qed.

Definition default_redrawn (default : string -> nat -> option Jvalue * nat) : Prop :=
  forall key drawn drawn',
    match fst (default key drawn), fst (default key drawn') with
    | Some a, Some b => redrawn (key, a) (key, b)
    | None, None => True
    | _, _ => False
    end.

Lemma record_default_redrawn table : default_redrawn (record_default table).
Proof.
  intros key drawn drawn'. unfold record_default, default_filled, redrawn.
  repeat case_match; simplify_eq/=; naive_solver.
Qed.

Lemma completing_redrawn accepted object default remaining completed completed' drawn drawn' :
  default_redrawn default -> Forall2 redrawn completed completed' ->
  let a := fst (completing accepted object default (remaining, completed) drawn) in
  let b := fst (completing accepted object default (remaining, completed') drawn') in
  fst a = fst b /\ Forall2 redrawn (snd a) (snd b).
Proof.
  intros Hdefault. revert remaining completed completed' drawn drawn'.
  induction accepted as [|key accepted IH]; intros remaining completed completed' drawn drawn' Hsame; [done|].
  cbn [completing]. destruct (jget key object) as [value|].
  - apply IH, jinsert_redrawn; [|done]. split; [done|by left].
  - specialize (Hdefault key drawn drawn').
    destruct (default key drawn) as [[a|] d], (default key drawn') as [[b|] d']; try done; apply IH; [|done].
    by apply jinsert_redrawn.
Qed.

Lemma complete_redrawn accepted object default drawn drawn' :
  default_redrawn default ->
  match fst (complete accepted object default drawn), fst (complete accepted object default drawn') with
  | Ok row, Ok row' => Forall2 redrawn row row'
  | Err _, Err _ => True
  | _, _ => False
  end.
Proof.
  intros Hdefault. unfold complete.
  destruct (completing_redrawn accepted object default (Z.of_nat (length object)) [] [] drawn drawn')
    as [Hremaining Hrows]; [done|done|].
  destruct (completing accepted object default (_, []) drawn) as [[r c] d],
    (completing accepted object default (_, []) drawn') as [[r' c'] d']. cbn in *. subst r'.
  by case_decide.
Qed.

(** The models take or refuse a row whatever was drawn for it. *)
Context (read_any_redrawn : forall table row row',
  Forall2 redrawn row row' -> is_ok (read_any table row) = is_ok (read_any table row')).
Context (table : RecordTable).

(** [complete] of a row of this table. *)
Definition completed (object : Object) : Reading Object :=
  complete (accepted table) object (record_default table).

(** What this table's model takes. *)
Definition acceptable (object : Object) : bool :=
  match fst (completed object 0) with Ok row => is_ok (read_any table row) | Err _ => false end.

(** A record read of a row. *)
Definition reads (object : Object) (record : AnyRecord) : Prop :=
  exists drawn drawn' row, completed object drawn = (Ok row, drawn') /\ read_any table row = Ok record.

Lemma acceptable_at object drawn :
  acceptable object = match fst (completed object drawn) with Ok row => is_ok (read_any table row) | Err _ => false end.
Proof.
  unfold acceptable, completed.
  pose proof (complete_redrawn (accepted table) object (record_default table) 0 drawn
    (record_default_redrawn table)) as Hsame.
  destruct (fst (complete _ _ _ 0)), (fst (complete _ _ _ drawn)); try done. by apply read_any_redrawn.
Qed.

Definition any_records (batch : Records) : list AnyRecord :=
  match batch with
  | MessageBatch l => AMessage <$> l | ParticleBatch l => AParticle <$> l
  | AlertBatch l => AnAlert <$> l | LogBatch l => ALog <$> l
  end.

Lemma converted_ok {T B} (batch : list T -> B) deserialize rows :
  is_ok (converted batch deserialize rows) = forallb (fun row => is_ok (deserialize row)) rows.
Proof.
  unfold converted. induction rows as [|row rows IH]; [done|].
  cbn [res_map forallb]. rewrite <- IH. unfold convert_row.
  destruct (deserialize row) as [value|[path inner]]; cbn; [by destruct (res_map _ rows)|by case_decide].
Qed.

Lemma converted_all {T B} (batch : list T -> B) deserialize rows b :
  converted batch deserialize rows = Ok b ->
  exists values, b = batch values /\ Forall2 (fun row value => deserialize row = Ok value) rows values.
Proof.
  unfold converted. destruct (res_map (convert_row deserialize) rows) as [values|] eqn:Hmap; [|done].
  cbn. intros [= <-]. exists values. split; [done|]. revert values Hmap.
  induction rows as [|row rows IH]; cbn; intros values Hmap; [by simplify_eq|].
  unfold convert_row in Hmap at 1. destruct (deserialize row) as [value|[path inner]] eqn:Hrow; [|by repeat case_match].
  destruct (res_map _ rows) as [rest|]; [|done]. injection Hmap as <-. constructor; [done|by apply IH].
Qed.

Lemma records_of_ok rows :
  is_ok (records_of table rows) = forallb (fun row => is_ok (read_any table row)) rows.
Proof.
  assert (forall {T} (f g : T -> bool) l, (forall t, f t = g t) -> forallb f l = forallb g l) as Hext
    by (intros T f g l Hfg; induction l as [|t l IH]; [done|]; cbn; by rewrite Hfg, IH).
  destruct table; cbn [records_of]; rewrite converted_ok; apply Hext; intros row; cbn.
  - by destruct (read_message row).
  - by destruct (read_particle row).
  - by destruct (read_alert row).
  - by destruct (read_log row).
Qed.

Lemma records_of_all rows batch :
  records_of table rows = Ok batch ->
  record_table_of batch = table /\ Forall2 (fun row record => read_any table row = Ok record) rows (any_records batch).
Proof.
  destruct table; cbn [records_of]; intros (values & -> & Hall)%converted_all; (split; [done|]);
    apply Forall2_fmap_r; eapply Forall2_impl; try exact Hall; cbn; by intros ? ? ->.
Qed.

Lemma read_map_completed objects drawn :
  match read_map completed objects drawn with
  | (Ok rows, _) => Forall2 (fun object row => exists drawn drawn', completed object drawn = (Ok row, drawn')) objects rows
  | (Err _, _) => exists object drawn message drawn', object ∈ objects /\ completed object drawn = (Err message, drawn')
  end.
Proof.
  revert drawn. induction objects as [|object objects IH]; intros drawn; [constructor|].
  cbn [read_map]. unfold read_bind.
  destruct (completed object drawn) as [[row|message] drawn'] eqn:Hrow.
  - specialize (IH drawn'). destruct (read_map completed objects drawn') as [[rows|] drawn''].
    + constructor; [by eauto|done].
    + destruct IH as (o & d & m & d' & Hin & Hbad). exists o, d, m, d'. split; [by right|done].
  - exists object, drawn, message, drawn'. split; [left|done].
Qed.

Lemma table_records_ok objects drawn :
  is_ok (fst (table_records table objects drawn)) = forallb acceptable objects.
Proof.
  unfold table_records. change (fun object => complete (accepted table) object (record_default table)) with completed.
  unfold read_bind. pose proof (read_map_completed objects drawn) as Hmap.
  destruct (read_map completed objects drawn) as [[rows|message] drawn'].
  - cbn. rewrite records_of_ok. induction Hmap as [|object row objects rows (d & d' & Hrow) _ IH]; [done|].
    cbn [forallb]. rewrite IH. f_equal. by rewrite (acceptable_at object d), Hrow.
  - destruct Hmap as (object & d & m & d' & Hin & Hbad). cbn. symmetry. apply not_true_is_false.
    intros Hall. rewrite forallb_forall in Hall. apply list_elem_of_In in Hin. specialize (Hall _ Hin).
    by rewrite (acceptable_at object d), Hbad in Hall.
Qed.

Lemma table_records_reads objects drawn batch drawn' :
  table_records table objects drawn = (Ok batch, drawn') ->
  record_table_of batch = table /\ Forall2 reads objects (any_records batch).
Proof.
  unfold table_records. change (fun object => complete (accepted table) object (record_default table)) with completed.
  unfold read_bind. pose proof (read_map_completed objects drawn) as Hmap.
  destruct (read_map completed objects drawn) as [[rows|message] d]; [|done].
  intros [= Hbatch _]. apply records_of_all in Hbatch as [Htable Hread]. split; [done|].
  clear Htable. revert Hread. generalize (any_records batch). intros records Hread. revert objects Hmap.
  induction Hread as [|row record rows records Hrow _ IH]; intros objects Hmap;
    inversion Hmap as [|object ? objects' ? (a & b & Hcompleted) Hrest]; subst; constructor.
  - exists a, b, row. done.
  - by apply IH.
Qed.
End records.
