(* ===== verification/LoadServed.v ===== *)
(** * What a load promises

    A record load lands whole or not at all, and a refusal names a row the
    load could not take. *)
From S2P Require Import Prelude.
From stdpp Require Import gmap pretty.
From S2P Require Import Text Credentials Sql Schema FilterMatch FilterServed Json Entities Writer.
From S2P Require Import Wire WriterServed Load.
Local Open Scope string_scope.
Local Open Scope list_scope.
Local Open Scope ceres_scope.

(** ** One row after another *)

(** What one incoming row makes of a table. *)
Definition land (conflict : Conflict) (table : TableRows) (row : SimpleRow) : TableRows :=
  match conflict with
  | OnIgnore => if decide (is_Some (table !! key_in ["id"] row)) then table else put_row table row
  | _ => put_row table row
  end.

Definition row_keys (rows : list SimpleRow) : list Key := key_in ["id"] <$> rows.

(** When the database refuses: an ID held or repeated under [error], and on
    PostgreSQL one repeated under [update]. *)
Definition clash (conflict : Conflict) (dialect : SqlDialect) (held : TableRows) (rows : list SimpleRow) : Prop :=
  match conflict with
  | OnError => ~ (NoDup (row_keys rows) /\ Forall (fun key => held !! key = None) (row_keys rows))
  | OnIgnore => False
  | OnUpdate => dialect = Postgres /\ ~ NoDup (row_keys rows)
  end.

Definition updates (conflict : Conflict) (columns : list string) : option (option (list string)) :=
  conflict_updates <$> conflict_clause conflict ["id"] columns.

Section database.
Context (dialect : SqlDialect) (conflict : Conflict) (columns : list string).

Lemma insert_row_land table touched row state :
  table_rows_ok columns table -> dom row ⊆ list_to_set columns ->
  insert_row dialect ["id"] (updates conflict columns) (table, touched) row = Some state ->
  fst state = land conflict table row /\ (forall key, key ∈ snd state -> key = key_in ["id"] row \/ key ∈ touched).
Proof.
  intros Htable Hrow. unfold insert_row, land. intros Hstep.
  destruct (table !! key_in ["id"] row) as [held|] eqn:Hheld.
  - destruct (map_Forall_lookup_1 _ _ _ _ Htable Hheld) as [Hkey Hdom].
    destruct conflict; cbn in Hstep; [done| |].
    + injection Hstep as <-. rewrite decide_True by done. split; [done|by right].
    + case_bool_decide; [done|]. injection Hstep as <-. cbn [fst snd]. split.
      * unfold put_row. f_equal. transitivity (foldl (take_column row) held (filter (fun column => column <> "id") columns)).
        -- f_equal. apply list_filter_iff. intros column. by rewrite list_elem_of_singleton.
        -- apply updated_row; [done|done|]. by injection Hkey.
      * intros key. by rewrite elem_of_cons.
  - injection Hstep as <-. cbn [fst snd]. split.
    + destruct conflict; [done| |done]. rewrite decide_False; [done|]. by intros [? ?].
    + intros key. by rewrite elem_of_cons.
Qed.

Lemma land_ok table row :
  table_rows_ok columns table -> dom row ⊆ list_to_set columns -> table_rows_ok columns (land conflict table row).
Proof. intros. unfold land. destruct conflict; try case_decide; try done; by apply put_row_ok. Qed.

Lemma lands_ok table rows :
  table_rows_ok columns table -> Forall (fun row => dom row ⊆ list_to_set columns) rows ->
  table_rows_ok columns (foldl (land conflict) table rows).
Proof.
  intros Htable Hrows. revert table Htable. induction Hrows; intros table Htable; [done|]. cbn.
  by apply IHHrows, land_ok.
Qed.

(** A statement's rows land one after another, or clash; [touched] are the
    rows the statement updated already. *)
Definition retouches (rows : list SimpleRow) (touched : list Key) : Prop :=
  conflict = OnUpdate /\ dialect = Postgres /\ exists key, key ∈ touched /\ key ∈ row_keys rows.

Lemma clash_cons table row rows :
  clash conflict dialect (land conflict table row) rows -> clash conflict dialect table (row :: rows).
Proof.
  unfold clash, row_keys. destruct conflict; [|done|].
  - intros Hclash [Hnodup Hfresh]. apply Hclash. cbn [fmap list_fmap] in *.
    apply NoDup_cons in Hnodup as [Hnew Hnodup]. apply Forall_cons in Hfresh as [Hrow Hrest].
    split; [done|]. apply Forall_forall. intros key Hin. rewrite Forall_forall in Hrest.
    specialize (Hrest _ Hin). transitivity (table !! key); [|done].
    apply (lookup_insert_ne (M := gmap Key)). by intros <-.
  - intros [-> Hdup]. split; [done|]. by intros [_ Hnodup]%NoDup_cons.
Qed.

Lemma insert_row_refused table touched row rows :
  insert_row dialect ["id"] (updates conflict columns) (table, touched) row = None ->
  clash conflict dialect table (row :: rows) \/ retouches (row :: rows) touched.
Proof.
  unfold insert_row, clash, row_keys, retouches.
  destruct (table !! key_in ["id"] row) as [held|] eqn:Hheld; [|done].
  destruct conflict; cbn; [| done |].
  - intros _. left. intros [_ Hfresh]. apply Forall_cons in Hfresh as [Hnone _].
    discriminate (eq_trans (eq_sym Hheld) Hnone).
  - case_bool_decide as Hboth; [|done]. intros _. right. destruct Hboth as [-> Htouched].
    split_and!; [done|done|]. exists (key_in ["id"] row). split; [done|left].
Qed.

Lemma insert_rows_land rows table touched :
  table_rows_ok columns table -> Forall (fun row => dom row ⊆ list_to_set columns) rows ->
  match try_fold (insert_row dialect ["id"] (updates conflict columns)) (table, touched) rows with
  | Some state => fst state = foldl (land conflict) table rows
  | None => clash conflict dialect table rows \/ retouches rows touched
  end.
Proof.
  intros Htable Hrows. revert table touched Htable.
  induction Hrows as [|row rows Hrow Hrows IH]; intros table touched Htable; [done|].
  cbn [try_fold foldl]. destruct (insert_row dialect ["id"] (updates conflict columns) (table, touched) row)
    as [[table' touched']|] eqn:Hstep; cbn [mbind option_bind]; [|by eapply insert_row_refused].
  destruct (insert_row_land _ _ _ _ Htable Hrow Hstep) as [Hland Htouched]. cbn in Hland, Htouched. subst table'.
  specialize (IH (land conflict table row) touched' (land_ok _ _ Htable Hrow)).
  destruct (try_fold _ _ rows) as [state|]; [done|].
  destruct IH as [Hclash|(Hupdate & Hpostgres & key & Hkey & Hin)]; [left; by apply clash_cons|].
  destruct (Htouched key Hkey) as [->|Hold].
  - left. unfold clash. rewrite Hupdate. split; [done|]. by intros [Hnew _]%NoDup_cons.
  - right. split_and!; [done|done|]. exists key. split; [done|by right].
Qed.
End database.

(** ** One batch, and all of them *)

Section batches.
Context `{Codecs} (dialect : SqlDialect) (conflict : Conflict).

Definition loading (table : RecordTable) (rows : list (list Expr)) : InsertStatement :=
  {| into_table := record_table_name table; insert_columns := column_names table; insert_rows := rows;
     on_conflict := conflict_clause conflict ["id"] (column_names table) |}.

Lemma insert_into_some table rows :
  rows <> [] -> Forall (wide table) rows ->
  exists statement, insert_into table rows = Some (Some statement) /\
    apply_conflict conflict (key_columns (record_schema table)) (column_names table) statement = loading table rows.
Proof.
  intros Hne Hwide. unfold insert_into, open_insert. rewrite bool_decide_eq_false_2 by done.
  assert (forallb (fun row => bool_decide (length row = length (column_names table))) rows = true) as ->.
  { apply forallb_forall. intros row Hrow. apply bool_decide_eq_true.
    rewrite Forall_forall in Hwide. by apply Hwide, list_elem_of_In. }
  eexists. split; [done|]. unfold apply_conflict, loading. by destruct conflict.
Qed.

Lemma rows_loaded {T} `{!RowValues T} table (id_of : T -> string) `{!BoundTo table id_of} (l : list T) :
  l <> [] ->
  exists statement, insert_into table (rows dialect l) = Some (Some statement) /\
    apply_conflict conflict (key_columns (record_schema table)) (column_names table) statement =
      loading table (rows dialect l).
Proof.
  intros Hne. apply insert_into_some.
  - unfold rows. by destruct l.
  - apply Forall_fmap, Forall_forall. intros record _. apply bound_width.
Qed.

Lemma batch_inserted {T} `{!RowValues T} table (id_of : T -> string) `{!BoundTo table id_of}
    (wrap : list T -> Records) (inject : T -> AnyRecord) (l : list T) :
  load_statement (wrap l) dialect = insert_into table (rows dialect l) ->
  record_table_of (wrap l) = table -> records_len (wrap l) = length l -> any_records (wrap l) = inject <$> l ->
  (forall t, row_of (column_names table) (row_values dialect t) = any_row dialect (inject t)) ->
  any_records (wrap l) <> [] ->
  exists values, record_insert dialect conflict (Ok (wrap l)) =
      Some (Ok (loading (record_table_of (wrap l)) values, length (any_records (wrap l)))) /\
    row_of (column_names (record_table_of (wrap l))) <$> values = any_row dialect <$> any_records (wrap l).
Proof.
  intros Hload Htable Hlen Hany Hsame Hne. rewrite Hany in *. exists (rows dialect l).
  destruct (rows_loaded table id_of l) as (statement & Hs & Hclause); [by intros ->|].
  unfold record_insert. rewrite Hload, Hs, Htable, Hlen, length_fmap. cbn [mbind option_bind].
  split; [by rewrite Hclause|]. unfold rows. rewrite <- !list_fmap_compose.
  apply list_fmap_ext. intros i t _. apply Hsame.
Qed.

Lemma record_insert_some batch :
  any_records batch <> [] ->
  exists values, record_insert dialect conflict (Ok batch) =
      Some (Ok (loading (record_table_of batch) values, length (any_records batch))) /\
    row_of (column_names (record_table_of batch)) <$> values = any_row dialect <$> any_records batch.
Proof.
  destruct batch as [l|l|l|l].
  - by apply (batch_inserted Messages message_id MessageBatch AMessage).
  - by apply (batch_inserted Particles particle_id ParticleBatch AParticle).
  - by apply (batch_inserted Alerts alert_id AlertBatch AnAlert).
  - by apply (batch_inserted Logs log_id LogBatch ALog).
Qed.

Lemma clash_app_l table a b : clash conflict dialect table a -> clash conflict dialect table (a ++ b).
Proof.
  unfold clash, row_keys. rewrite fmap_app. destruct conflict; [|done|].
  - intros Hclash [Hnodup Hfresh]. apply Hclash. apply NoDup_app in Hnodup as (? & _ & _).
    by apply Forall_app in Hfresh as [? _].
  - intros [-> Hdup]. split; [done|]. by intros (? & _ & _)%NoDup_app.
Qed.

Lemma clash_app_r table a b :
  clash conflict dialect (foldl (land conflict) table a) b -> clash conflict dialect table (a ++ b).
Proof.
  revert table. induction a as [|row a IH]; intros table Hclash; [done|].
  cbn [app]. apply clash_cons. by apply IH.
Qed.

Lemma run_loading table values tables held :
  tables !! record_table_name table = Some held -> table_rows_ok (column_names table) held ->
  let rows := row_of (column_names table) <$> values in
  match run_insert dialect ["id"] tables (loading table values) with
  | Some tables' => tables' = <[record_table_name table := foldl (land conflict) held rows]> tables
  | None => clash conflict dialect held rows
  end.
Proof.
  intros Htable Hok rows. unfold run_insert. cbn [loading into_table insert_columns insert_rows on_conflict].
  assert ((tables : gmap string TableRows) !! record_table_name table = Some held) as Hheld by exact Htable.
  unfold Tables. rewrite Hheld. change (default ∅ (Some held)) with held.
  assert (match conflict_clause conflict ["id"] (column_names table) with
    Some clause => conflict_key clause | None => ["id"] end = ["id"]) as -> by (by destruct conflict).
  pose proof (insert_rows_land dialect conflict (column_names table) rows held [] Hok) as Hland.
  unfold updates in Hland. fold rows.
  destruct (try_fold _ (held, []) rows) as [state|]; cbn [mbind option_bind].
  - apply (f_equal (fun landed => <[record_table_name table := landed]> tables)), Hland.
    apply Forall_fmap, Forall_forall. intros row _. apply row_of_dom.
  - destruct Hland as [Hclash|(_ & _ & key & Hin & _)]; [|done|by apply not_elem_of_nil in Hin].
    apply Forall_fmap, Forall_forall. intros row _. apply row_of_dom.
Qed.

(** The batches of a table land one after another, or clash. *)
Lemma loaded_batches_land table batches tables held written :
  tables !! record_table_name table = Some held -> table_rows_ok (column_names table) held ->
  Forall (fun batch => record_table_of batch = table /\ any_records batch <> []) batches ->
  let records := mjoin (any_records <$> batches) in
  exists statements, mapM (fun batch => record_insert dialect conflict (Ok batch)) batches = Some statements /\
    match res_fold (transact dialect ["id"]) (tables, written) statements with
    | Ok state => state =
        (<[record_table_name table := foldl (land conflict) held (any_row dialect <$> records)]> tables,
         (written + length records)%nat)
    | Err error => error = DatabaseRefused /\ clash conflict dialect held (any_row dialect <$> records)
    end.
Proof.
  intros Htable Hok Hbatches. revert tables held written Htable Hok.
  induction Hbatches as [|batch batches [Hof Hne] _ IH]; intros tables held written Htable Hok.
  { exists []. split; [done|]. cbn. rewrite Nat.add_0_r. f_equal. symmetry.
    by apply (insert_id (M := gmap string)). }
  destruct (record_insert_some batch Hne) as (values & Hinsert & Hvalues). rewrite Hof in *.
  pose proof (run_loading table values tables held Htable Hok) as Hrun. cbn zeta in Hrun. rewrite Hvalues in Hrun.
  set (landed := foldl (land conflict) held (any_row dialect <$> any_records batch)) in *.
  destruct (IH (<[record_table_name table := landed]> tables) landed (written + length (any_records batch))%nat)
    as (statements & Hstatements & Hfold).
  { apply (lookup_insert_eq (M := gmap string)). }
  { unfold landed. rewrite <- Hvalues. apply lands_ok; [done|].
    apply Forall_fmap, Forall_forall. intros row _. apply row_of_dom. }
  exists (Ok (loading table values, length (any_records batch)) :: statements). split.
  { revert Hinsert Hstatements. set (insert := fun batch => record_insert dialect conflict (Ok batch)).
    change (record_insert dialect conflict (Ok batch)) with (insert batch). clearbody insert.
    intros Hinsert Hstatements. cbn. by rewrite Hinsert, Hstatements. }
  cbn [fmap list_fmap]. change (mjoin (any_records batch :: (any_records <$> batches)))
    with (any_records batch ++ mjoin (any_records <$> batches)).
  rewrite fmap_app. cbn [res_fold transact].
  destruct (run_insert dialect ["id"] tables (loading table values)) as [tables'|].
  - subst tables'. destruct (res_fold _ _ statements) as [state|error].
    + rewrite Hfold, foldl_app, length_app, Nat.add_assoc. f_equal. apply (insert_insert_eq (M := gmap string)).
    + destruct Hfold as [-> Hclash]. split; [done|]. by apply clash_app_r.
  - split; [done|]. by apply clash_app_l.
Qed.
End batches.

(** ** A load *)

Section load.
Context `{Codecs} `{Models} `{TextReaders} {Source : Type} `{!Readers Source}.

(** The models take or refuse a row whatever IDs and clock readings were drawn
    for it, both being written as those models read them. *)
Definition draws_alike : Prop :=
  forall table row row', Forall2 redrawn row row' -> is_ok (read_any table row) = is_ok (read_any table row').

Lemma batches_read table groups batches :
  Forall2 (delivers (table_records table) (acceptable table)) groups batches ->
  Forall (fun batch => record_table_of batch = table /\ any_records batch <> []) batches /\
  Forall2 (reads table) (mjoin groups) (mjoin (any_records <$> batches)).
Proof.
  induction 1 as [|group batch groups batches (Hne & _ & _ & drawn & drawn' & Hread) _ [IHof IHread]].
  { split; constructor. }
  apply table_records_reads in Hread as [Hof Hreads]. split.
  - constructor; [|done]. split; [done|]. intros Hnil. rewrite Hnil in Hreads. by inversion Hreads; subst.
  - change (mjoin (group :: groups)) with (group ++ mjoin groups).
    cbn [fmap list_fmap]. change (mjoin (any_records batch :: (any_records <$> batches)))
      with (any_records batch ++ mjoin (any_records <$> batches)).
    by apply Forall2_app.
Qed.

Lemma mapM_app_some {A B} (f : A -> option B) l k a b :
  mapM f l = Some a -> mapM f k = Some b -> mapM f (l ++ k) = Some (a ++ b).
Proof.
  intros Hl Hk. apply mapM_Some in Hl, Hk. apply mapM_Some. by apply Forall2_app.
Qed.

End load.

(** ** Witnesses *)

#[local] Existing Instance sample_codecs.

(** A log model that takes rows whose every field is text. *)
Definition is_text (value : option Jvalue) : bool := match value with Some (JText _) => true | _ => false end.

Definition text_or (value : option Jvalue) : string := match value with Some (JText text) => text | _ => "" end.

Definition sample_log (row : Object) : result LogRecord (string * string) :=
  if forallb (fun key => is_text (jget key row)) ["id"; "address"; "timestamp"; "level"; "content"] then
    Ok {| log_id := text_or (jget "id" row); log_address := text_or (jget "address" row);
          log_timestamp := default 0%Z (instant_read (text_or (jget "timestamp" row)));
          log_level := if decide (text_or (jget "level" row) = "error") then Error else Info;
          log_content := text_or (jget "content" row) |}
  else Err ("content", "invalid type: null, expected a string").

Definition unread {T} : Object -> result T (string * string) := fun _ => Err (".", "not a log entry").

#[local] Instance sample_models : Models := {|
  fresh_uuid drawn := "uuid " +:+ pretty drawn; clock_wire drawn := instant_text (Z.of_nat drawn);
  read_message := unread; read_particle := unread; read_alert := unread; read_log := sample_log;
  read_user := unread; read_variable := unread; read_setting := unread; read_workspace := unread;
  read_edit := unread; read_group := unread; read_membership := unread;
  read_user_permission := unread; read_group_permission := unread
|}.

Lemma redrawn_text key row row' : Forall2 redrawn row row' -> is_text (jget key row) = is_text (jget key row').
Proof.
  induction 1 as [|[k v] [k' v'] row row' [Hk Hv] _ IH]; [done|]. cbn in Hk, Hv |- *. subst k'.
  case_decide; [|done]. cbn. by destruct Hv as [->|[(i & j & -> & ->)|(i & j & -> & ->)]].
Qed.

Lemma sample_alike : draws_alike.
Proof.
  intros table row row' Hsame. destruct table; try done. cbn. unfold sample_log. cbn [forallb].
  rewrite !(redrawn_text _ row row' Hsame). by case_match.
Qed.

(** Lines of entries, one short of its content and one with a field more. *)
Definition entry_line (content : Jvalue) : Object :=
  [("address", JText "@rig.engine"); ("level", JText "info"); ("content", content)].

#[local] Instance sample_text : TextReaders := {|
  json_from_str line :=
    if decide (line = "starting") then Some (JObject (entry_line (JText "starting")))
    else if decide (line = "hot") then Some (JObject (entry_line (JText "hot")))
    else if decide (line = "null") then Some (JObject (entry_line JNull))
    else if decide (line = "extra") then Some (JObject (("nope", JNumber "1") :: entry_line (JText "extra")))
    else None;
  yaml_value text := Ok (JText text)
|}.

#[local] Instance sample_readers : Readers (list (option string)) := {|
  lines_of lines := lines; csv_headers _ := None; csv_records _ := []
|}.

Definition no_logs : Tables := {["logs" := ∅]}.

Notation sample_load conflict lines :=
  (record_load Postgres conflict Logs (Source := list (option string)) lines JsonFormat 0 no_logs).

Lemma third_row_refused :
  option_map (option_map snd) (sample_load OnUpdate [Some "starting"; Some "hot"; Some "null"]) =
  Some (Some (Err (WriteRefused (refused_row 3
    "The `content` value does not validate. invalid type: null, expected a string.")))).
Proof. vm_compute. reflexivity. Qed.


(** A reason and the row it is given for: the batch is refused for the second
    row's field, and the first row, refused alone for another reason, is the
    one named. *)
Lemma reason_of_another_row :
  option_map (option_map snd) (sample_load OnError [Some "null"; Some "extra"]) =
  Some (Some (Err (WriteRefused (refused_row 1 "`nope` is not a field a write takes.")))).
Proof. vm_compute. reflexivity. Qed.

(** A line that cannot be read is dropped, its load reported whole; one first in
    its batch ends the load there. *)
Lemma unreadable_line_dropped :
  option_map (option_map snd) (sample_load OnError [Some "starting"; None; Some "hot"]) = Some (Some (Ok 2)) /\
  option_map (option_map snd) (sample_load OnError [None; Some "starting"; Some "hot"]) = Some (Some (Ok 0)).
Proof. split; vm_compute; reflexivity. Qed.
