(* ===== verification/Surface.v ===== *)
(** * The arguments of the table commands

    [ceres-cli/src/commands/surface.rs] without its help texts: the command
    groups, the arguments each verb declares, and the wire pairs read off a
    parsed invocation. [clap]'s matches are a record of what it answers. *)
From S2P Require Import Prelude.
From stdpp Require Import sorting.
From S2P Require Import Text Schema Json Load.
Local Open Scope string_scope.
Local Open Scope list_scope.

(** ** Groups and verbs *)

Definition VERBS : list string := ["select"; "count"; "any"; "create"; "update"; "delete"; "load"; "follow"].

(** [surface::Table] and [dynamic::Table], which hold the same. *)
Inductive Group := RecordGroup (table : RecordTable) | EntityGroup (table : EntityTable).

(** [Table::all], [plural], [follows] and [from_group]. *)
Definition ALL_GROUPS : list Group :=
  [RecordGroup Alerts; RecordGroup Logs; RecordGroup Messages; RecordGroup Particles;
   EntityGroup Settings; EntityGroup Users; EntityGroup Variables; EntityGroup Workspaces;
   EntityGroup WorkspaceEdits; EntityGroup Groups; EntityGroup GroupMemberships;
   EntityGroup UserPermissions; EntityGroup GroupPermissions].

Definition plural (self : Group) : string :=
  match self with
  | RecordGroup Alerts => "alerts" | RecordGroup Logs => "logs"
  | RecordGroup Messages => "messages" | RecordGroup Particles => "particles"
  | EntityGroup Settings => "settings" | EntityGroup Users => "users"
  | EntityGroup Variables => "variables" | EntityGroup Workspaces => "workspaces"
  | EntityGroup WorkspaceEdits => "workspace-edits" | EntityGroup Groups => "groups"
  | EntityGroup GroupMemberships => "group-memberships"
  | EntityGroup UserPermissions => "user-permissions"
  | EntityGroup GroupPermissions => "group-permissions"
  end.

Definition follows (self : Group) : bool := match self with RecordGroup _ => true | EntityGroup _ => false end.

Definition from_group (name : string) : option Group :=
  List.find (fun table => bool_decide (plural table = name)) ALL_GROUPS.

(** [Table::schema], of either half. *)
Definition group_schema (self : Group) : Schema :=
  match self with RecordGroup table => record_schema table | EntityGroup table => entity_schema table end.

(** [Table::keys] and [Table::columns]. *)
Definition group_keys (self : Group) : list FilterKey := filter_keys (group_schema self).
Definition group_columns (self : Group) : list FilterKey := column_keys (group_schema self).

(** [dynamic::Table::create_requires] and [family]. *)
Definition create_requires (self : Group) (column : string) : bool :=
  match self with
  | RecordGroup _ => false
  | EntityGroup table =>
      existsb (fun field => bool_decide (key field = column)) (columns (entity_schema table)) &&
      match entity_column_default table column with None => true | Some _ => false end
  end.

Definition group_family (self : Group) (column : string) : option FieldFamily :=
  family <$> List.find (fun field => bool_decide (key field = column)) (columns (group_schema self)).

(** ** Arguments *)

Inductive BooleanShape := Valued | Bare.

(** How an argument takes what follows it: appending values, being set by its
    name alone, taking one value or standing for a value when it has none, or
    taking one value. *)
Inductive Action := Append | SetTrue | Optional | Single.

Record Arg := {
  arg_id : string;
  arg_long : option string;
  arg_short : option ascii;
  action : Action;
  overrides : option string;
  requires : option string;
  required : bool;
  possible : option (list string)
}.

Definition arg (id : string) (long : option string) (action : Action) : Arg :=
  {| arg_id := id; arg_long := long; arg_short := None; action := action; overrides := None; requires := None;
     required := false; possible := None |}.

Definition with_short (short : ascii) (self : Arg) : Arg :=
  {| arg_id := arg_id self; arg_long := arg_long self; arg_short := Some short; action := action self;
     overrides := overrides self; requires := requires self; required := required self; possible := possible self |}.
Definition overriding (other : string) (self : Arg) : Arg :=
  {| arg_id := arg_id self; arg_long := arg_long self; arg_short := arg_short self; action := action self;
     overrides := Some other; requires := requires self; required := required self; possible := possible self |}.
Definition requiring (other : string) (self : Arg) : Arg :=
  {| arg_id := arg_id self; arg_long := arg_long self; arg_short := arg_short self; action := action self;
     overrides := overrides self; requires := Some other; required := required self; possible := possible self |}.
Definition demanded (self : Arg) : Arg :=
  {| arg_id := arg_id self; arg_long := arg_long self; arg_short := arg_short self; action := action self;
     overrides := overrides self; requires := requires self; required := true; possible := possible self |}.
Definition among (values : list string) (self : Arg) : Arg :=
  {| arg_id := arg_id self; arg_long := arg_long self; arg_short := arg_short self; action := action self;
     overrides := overrides self; requires := requires self; required := required self; possible := Some values |}.

(** [long]. *)
Definition long (key : string) : string := replace_char "_" "-" key.

(** [argument]. *)
Definition argument (key : FilterKey) (shape : BooleanShape) : list Arg :=
  let name := long (fk_key key) in
  match arity key with
  | Value => [arg (fk_key key) (Some name) Append]
  | Flag =>
      let negated := "no-" +:+ name in
      let positive :=
        match shape with
        | Valued => among ["true"; "false"] (arg (fk_key key) (Some name) Optional)
        | Bare => arg (fk_key key) (Some name) SetTrue
        end in
      [overriding negated positive; overriding (fk_key key) (arg negated (Some negated) SetTrue)]
  end.

(** [output], [row_arguments], [field_positional], [write_arguments]. *)
Definition output_argument : Arg := with_short "o" (arg "output" (Some "output") Single).

Definition row_arguments : list Arg :=
  [output_argument;
   among ["json"; "csv"; "table"] (with_short "f" (arg "format" (Some "format") Single));
   arg "field" (Some "field") Append;
   overriding "no-header" (arg "header" (Some "header") SetTrue);
   overriding "header" (arg "no-header" (Some "no-header") SetTrue)].

Definition field_positional : Arg := arg "fields" None Append.

Definition write_arguments : list Arg :=
  [overriding "no-confirm" (arg "confirm" (Some "confirm") SetTrue);
   overriding "confirm" (with_short "y" (arg "no-confirm" (Some "no-confirm") SetTrue));
   arg "collect" (Some "collect") SetTrue].

(** [ExportConflict] and [ExportRangeMode], by the names [clap] reads. *)
Definition EXPORT_CONFLICTS : list string := ["error"; "skip"; "overwrite"; "purge"].
Definition EXPORT_RANGE_MODES : list string := ["expand"; "exact"; "shrink"].

(** [export_arguments], which an entity load has none of. *)
Definition export_arguments (self : Group) : list Arg :=
  match self with
  | EntityGroup _ => []
  | RecordGroup _ =>
      [arg "export" (Some "export") SetTrue;
       requiring "export" (among EXPORT_CONFLICTS (arg "on_export_conflict" (Some "on-export-conflict") Single));
       requiring "export" (among EXPORT_RANGE_MODES (arg "export_range_mode" (Some "export-range-mode") Single))]
  end.

(** [filter_arguments]. *)
Definition filter_arguments (self : Group) : list Arg := group_keys self ≫= (fun key => argument key Bare).

(** [create_arguments]: a required column is demanded but for a password, and
    a closed set's values are the only ones taken. *)
Definition refine_first (refine : Arg -> Arg) (arguments : list Arg) : list Arg :=
  match arguments with [] => [] | first :: rest => refine first :: rest end.

Definition create_argument (self : Group) (key : FilterKey) : list Arg :=
  let arguments := argument key Valued in
  let arguments :=
    if create_requires self (fk_key key) && negb (bool_decide (fk_key key = "password"))
    then refine_first demanded arguments else arguments in
  match group_family self (fk_key key) with
  | Some (Values values) => refine_first (among values) arguments
  | _ => arguments
  end.

Definition create_arguments (self : Group) : list Arg := group_columns self ≫= create_argument self.

(** [Table::verb]: the arguments a verb of the group declares. *)
Definition verb_arguments (self : Group) (verb : string) : list Arg :=
  if decide (verb = "select" \/ verb = "follow") then field_positional :: row_arguments ++ filter_arguments self
  else if decide (verb = "count" \/ verb = "any") then output_argument :: filter_arguments self
  else if decide (verb = "create") then row_arguments ++ create_arguments self
  else if decide (verb = "update") then
    demanded (arg "set" (Some "set") Single) :: write_arguments ++ row_arguments ++ filter_arguments self
  else if decide (verb = "delete") then write_arguments ++ row_arguments ++ filter_arguments self
  else
    demanded (arg "path" None Single) ::
    among ["json"; "csv"] (arg "format" (Some "format") Single) ::
    among ["error"; "ignore"; "update"] (arg "on_conflict" (Some "on-conflict") Single) :: export_arguments self.

(** [Table::command]: the verbs a group declares, with their arguments. *)
Definition command (self : Group) : list (string * list Arg) :=
  (fun verb => (verb, verb_arguments self verb)) <$>
    filter (fun verb => verb <> "follow" \/ follows self = true) VERBS.

(** ** Reading an invocation *)

(** [clap::ArgMatches] of one verb: the values of an argument that was given
    any, where each stands on the command line, and whether a flag is set. An
    argument that is not declared has no values and is not set. *)
Record ArgMatches := {
  get_many : string -> option (list string);
  indices_of : string -> list Z;
  get_flag : string -> bool
}.

Definition get_one (self : ArgMatches) (id : string) : option string := values ← get_many self id; head values.
Definition index_of (self : ArgMatches) (id : string) : Z := default 0%Z (head (indices_of self id)).

(** [sort_by_key], which keeps the order of equal keys. *)
Fixpoint place_by {A} (item : Z * A) (sorted : list (Z * A)) : list (Z * A) :=
  match sorted with
  | [] => [item]
  | first :: rest => if (item.1 <? first.1)%Z then item :: sorted else first :: place_by item rest
  end.

Definition sort_by_index {A} (items : list (Z * A)) : list (Z * A) :=
  foldl (fun sorted item => place_by item sorted) [] items.

(** What [pairs] places for one key, and [pairs]. *)
Definition key_pairs (matches_ : ArgMatches) (shape : BooleanShape) (key : FilterKey) : list (Z * (string * string)) :=
  let key_ := fk_key key in
  match arity key with
  | Value =>
      match get_many matches_ key_ with
      | None => []
      | Some values => zip_with (fun index value => (index, (key_, value))) (indices_of matches_ key_) values
      end
  | Flag =>
      let negated := "no-" +:+ long key_ in
      match shape with
      | Valued =>
          match get_one matches_ key_ with
          | Some value => [(index_of matches_ key_, (key_, value))]
          | None => []
          end
      | Bare => if get_flag matches_ key_ then [(index_of matches_ key_, (key_, "true"))] else []
      end ++
      (if get_flag matches_ negated then [(index_of matches_ negated, (key_, "false"))] else [])
  end.

Definition pairs (keys : list FilterKey) (matches_ : ArgMatches) (shape : BooleanShape) : list (string * string) :=
  snd <$> sort_by_index (keys ≫= key_pairs matches_ shape).

(** The arguments every command takes besides its own: [clap]'s help and the
    global ones of [Cli]. *)
Definition GLOBALS : list Arg :=
  [with_short "h" (arg "help" (Some "help") SetTrue); arg "config" (Some "config") Single;
   arg "development_source" (Some "development-source") Single;
   overriding "development_source" (arg "no_development_source" (Some "no-development-source") SetTrue);
   overriding "no_color" (arg "color" (Some "color") SetTrue);
   overriding "color" (arg "no_color" (Some "no-color") SetTrue)].

(** ** The surface is unambiguous *)

(** The identifiers a verb reads off the command line. *)
Definition keys_read (self : Group) (verb : string) : list string :=
  if decide (verb = "load") then ["path"; "format"; "on_conflict"]
  else if decide (verb = "create") then fk_key <$> group_columns self
  else supported_keys (group_schema self).

Definition declared (arguments : list Arg) (id : string) : Prop := id ∈ arg_id <$> arguments.

Record unambiguous (self : Group) (verb : string) (arguments : list Arg) : Prop := {
  ids_apart : NoDup (arg_id <$> GLOBALS ++ arguments);
  longs_apart : NoDup (omap arg_long (GLOBALS ++ arguments));
  shorts_apart : NoDup (omap arg_short (GLOBALS ++ arguments));
  names_declared : Forall (fun argument =>
    from_option (declared arguments) True (overrides argument) /\
    from_option (declared arguments) True (requires argument)) arguments;
  keys_declared : Forall (declared arguments) (keys_read self verb)
}.

(** Every table group is reached by its name alone, and whatever the verb no
    two arguments of a command share an identifier, a long or a short name,
    with each other or with the global ones; what overrides or requires
    another names a declared one; and every key the compiler serves for the
    table, or column a create writes, has its argument. *)
Theorem surface_unambiguous :
  Forall (fun group =>
    from_group (plural group) = Some group /\
    Forall (fun entry => unambiguous group entry.1 entry.2) (command group)) ALL_GROUPS.
Proof.
  assert (forallb (fun group =>
    match from_group (plural group) with Some found => bool_decide (plural found = plural group) | None => false end &&
    forallb (fun entry =>
      let arguments := entry.2 in
      let known id := bool_decide (id ∈ arg_id <$> arguments) in
      bool_decide (NoDup (arg_id <$> GLOBALS ++ arguments)) && bool_decide (NoDup (omap arg_long (GLOBALS ++ arguments))) &&
      bool_decide (NoDup (omap arg_short (GLOBALS ++ arguments))) &&
      forallb (fun argument => from_option known true (overrides argument) && from_option known true (requires argument)) arguments &&
      forallb known (keys_read group entry.1)) (command group)) ALL_GROUPS = true) as Hall by (vm_compute; reflexivity).
  apply Forall_forall. intros group Hgroup. rewrite forallb_forall in Hall.
  specialize (Hall group (proj1 (list_elem_of_In _ _) Hgroup)). apply andb_true_iff in Hall as [_ Hall].
  split; [by destruct group as [[]|[]]|].
  apply Forall_forall. intros [verb arguments] Hentry. rewrite forallb_forall in Hall.
  specialize (Hall _ (proj1 (list_elem_of_In _ _) Hentry)). cbn [fst snd] in *.
  repeat (apply andb_true_iff in Hall as [Hall ?]).
  rewrite !bool_decide_eq_true in *. rewrite !forallb_forall in *.
  split; cbn [fst snd]; try done; apply Forall_forall; intros item Hitem;
    match goal with H : forall _, In _ _ -> _ |- _ => specialize (H item (proj1 (list_elem_of_In _ _) Hitem)) as Hok end.
  - match goal with H : forall _, In _ arguments -> _ |- _ => specialize (H item (proj1 (list_elem_of_In _ _) Hitem)) as Hboth end.
    apply andb_true_iff in Hboth as [Hover Hreq].
    split; [destruct (overrides item)|destruct (requires item)]; try done; by apply bool_decide_eq_true in Hover || apply bool_decide_eq_true in Hreq.
  - by apply bool_decide_eq_true in Hok.
Qed.

(** ** Pairs in the order written *)

Lemma place_by_perm {A} (item : Z * A) sorted : place_by item sorted ≡ₚ item :: sorted.
Proof.
  induction sorted as [|first sorted IH]; [done|]. cbn [place_by]. case_match; [done|].
  rewrite IH. apply Permutation_swap.
Qed.

Lemma place_by_sorted {A} (item : Z * A) sorted :
  StronglySorted (fun a b => (a.1 <= b.1)%Z) sorted -> StronglySorted (fun a b => (a.1 <= b.1)%Z) (place_by item sorted).
Proof.
  induction 1 as [|first sorted Hsorted IH Hfirst]; cbn [place_by]; [by repeat constructor|].
  case_match; to_prop; constructor; try done.
  - by constructor.
  - constructor; [lia|]. eapply Forall_impl; [exact Hfirst|]. intros; cbn in *; lia.
  - rewrite place_by_perm. constructor; [lia|done].
Qed.

Lemma sort_by_index_perm {A} (items : list (Z * A)) : sort_by_index items ≡ₚ items.
Proof.
  unfold sort_by_index. induction items as [|item items IH] using rev_ind; [done|].
  rewrite foldl_app. cbn [foldl]. rewrite place_by_perm, IH. by rewrite Permutation_app_comm.
Qed.

Lemma sort_by_index_sorted {A} (items : list (Z * A)) : StronglySorted (fun a b => (a.1 <= b.1)%Z) (sort_by_index items).
Proof.
  unfold sort_by_index. induction items as [|item items IH] using rev_ind; [constructor|].
  rewrite foldl_app. by apply place_by_sorted.
Qed.

Lemma key_pairs_key matches_ shape key entry : entry ∈ key_pairs matches_ shape key -> entry.2.1 = fk_key key.
Proof.
  unfold key_pairs. intros Hin.
  assert (forall index value (test : bool), entry ∈ (if test then [(index, (fk_key key, value))] else []) ->
    entry.2.1 = fk_key key) as Hflag.
  { intros index value []; [by intros ->%list_elem_of_singleton|by intros ?%not_elem_of_nil]. }
  destruct (arity key).
  - apply elem_of_app in Hin as [Hin|Hin]; [|by eapply Hflag].
    destruct shape; [|by eapply Hflag].
    destruct (get_one _ _); [by apply list_elem_of_singleton in Hin as ->|by apply not_elem_of_nil in Hin].
  - destruct (get_many _ _) as [values|]; [|by apply not_elem_of_nil in Hin].
    by apply elem_of_lookup_zip_with in Hin as (? & ? & ? & -> & _).
Qed.

(** What a filtered verb hands on names only keys its table's compiler
    resolves, in the order they were written. *)
Lemma pairs_resolve debug (group : Group) matches_ shape :
  Forall (fun pair => exists resolved, resolve debug (group_schema group) pair.1 = Ok resolved)
    (pairs (group_keys group) matches_ shape).
Proof.
  assert (group_schema group ∈ SCHEMAS) as Hin by (destruct group as [[]|[]]; vm_compute; repeat constructor).
  pose proof (keys_resolve debug) as Hall. rewrite Forall_forall in Hall.
  destruct (Hall _ Hin) as (_ & Hkeys & _). rewrite Forall_forall in Hkeys.
  apply Forall_forall. intros pair Hpair. unfold pairs in Hpair.
  apply list_elem_of_fmap in Hpair as ([index [wire value]] & -> & Hpair).
  rewrite sort_by_index_perm in Hpair. apply list_elem_of_bind in Hpair as (key & Hpair & Hkey).
  apply key_pairs_key in Hpair. cbn in *. subst. destruct (Hkeys key Hkey) as (resolved & Hresolved & _). by exists resolved.
Qed.
