(* ===== verification/SetValues.v ===== *)
(** * Values to write

    [ceres-database/src/set.rs]: the values an update sets or an insert
    writes, encoded into the form each column stores, and the statements they
    go in. JSON's writer is a parameter.

    The parts after this one: what an update promises. *)
From S2P Require Import Prelude.
From stdpp Require Import pretty.
From stdpp Require Import gmap pretty.
From S2P Require Import Text Sql Selector Schema Wire Json Credentials FilterParse FilterFacts FilterMatch.
From S2P Require Import FilterCompile FilterPatterns FilterAgree FilterServed Entities Writer.
Local Open Scope string_scope.
Local Open Scope list_scope.
Local Open Scope ceres_scope.

(** [Value::to_string]. *)
Class JsonWriter := jvalue_text : Jvalue -> string.

Section set.
Context `{Crates} `{Codecs} `{JsonWriter}.

(** [listed]. *)
Fixpoint comma_joined (names : list string) : string :=
  match names with
  | [] => ""
  | [name] => "`" +:+ name +:+ "`"
  | name :: names => "`" +:+ name +:+ "`, " +:+ comma_joined names
  end.

Definition listed (names : list string) : string :=
  match names with
  | [] => "no settable columns"
  | [only] => "`" +:+ only +:+ "`"
  | _ =>
      match last names with
      | Some final => comma_joined (removelast names) +:+ " and `" +:+ final +:+ "`"
      | None => ""
      end
  end.

(** [chars().take(n)]: whole characters. *)
Fixpoint take_chars (n : nat) (text : string) : string :=
  match text with
  | EmptyString => EmptyString
  | String c rest =>
      let byte := Strings.Ascii.nat_of_ascii c in
      if ((128 <=? byte) && (byte <? 192))%nat then String c (take_chars n rest)
      else match n with O => EmptyString | S n => String c (take_chars n rest) end
  end.

(** [shown]. *)
Definition shown (value : Jvalue) : string :=
  let rendered := jvalue_text value in
  if (char_count rendered <=? 40)%nat then rendered else take_chars 40 rendered +:+ "...".

(** The closure [text] of [encode]. *)
Definition text_given (value : Jvalue) (wanted : string) : result string string :=
  match as_str value with Some text => Ok text | None => Err ("takes " +:+ wanted +:+ " as text") end.

Definition ok_or_else {A} (value : option A) (message : string) : result A string :=
  match value with Some value => Ok value | None => Err message end.

(** [encode]. *)
Definition encode (family : FieldFamily) (value : Jvalue) (dialect : SqlDialect) : result Expr string :=
  if is_null value && negb (bool_decide (family = JsonValue)) then Ok Null
  else
    match family with
    | Uuid =>
        let* text := text_given value "a UUID" in
        let* parsed := ok_or_else (uuid_parse text) "takes a UUID" in
        Ok (id_expr dialect parsed)
    | Address | PlainAddress =>
        let* text := text_given value "an address" in
        match address_parse debug text with
        | Ok address => Ok (text_value address)
        | Err _ => Err "takes an address, which starts with `@`"
        end
    | Timestamp =>
        let* text := text_given value "a timestamp" in
        match parse_timestamp text with
        | Ok parsed => Ok (stamp_expr dialect parsed)
        | Err _ => Err "takes an ISO 8601 timestamp"
        end
    | Text => let* text := text_given value "text" in Ok (text_value text)
    | Email =>
        let* text := text_given value "an email address" in
        let* address := ok_or_else (normalize_email text) "takes an email address" in
        Ok (text_value address)
    | Values allowed =>
        let* held := text_given value "one of a fixed set of words" in
        if bool_decide (held ∈ allowed) then Ok (text_value held)
        else Err ("takes one of " +:+ listed allowed)
    | Level =>
        let* held := text_given value "a log level" in
        let* _ := ok_or_else (level_position held) "takes a log level" in
        Ok (text_value held)
    | Bytes => let* text := text_given value "a payload" in Ok (Lit (ValBytes (latin1_encode text)))
    | Json =>
        if is_object value then Ok (json_bound (jvalue_text value) dialect) else Err "takes an object"
    | Boolean => let* held := ok_or_else (as_bool value) "takes true or false" in Ok (Lit (ValBool held))
    | JsonValue => Ok (json_bound (jvalue_text value) dialect)
    end.

(** [SetClause]: a column and its value. *)
Definition SetClause : Type := string * Expr.

(** [Schema::settable]. *)
Definition settable (self : Schema) : list string :=
  filter (fun key => key ∉ fixed self) (key <$> columns self).

Definition column_of (self : Schema) (wire : string) : option FilterField :=
  head (filter (fun field => key field = wire) (columns self)).

(** One entry of [Schema::encoded]. *)
Definition encoded_clause (self : Schema) (dialect : SqlDialect) (entry : string * Jvalue) :
    result SetClause string :=
  let '(wire, value) := entry in
  match column_of self wire with
  | None =>
      Err ("There is no `" +:+ wire +:+ "` to set. This table holds " +:+ listed (settable self) +:+ ".")
  | Some field =>
      match encode (family field) value dialect with
      | Ok expr => Ok (key field, expr)
      | Err wanted => Err ("`" +:+ wire +:+ "` " +:+ wanted +:+ ", and was given " +:+ shown value +:+ ".")
      end
  end.

(** [Schema::encoded]. *)
Definition encoded (self : Schema) (values : Object) (dialect : SqlDialect) :
    result (list SetClause) string :=
  res_map (encoded_clause self dialect) values.

(** [Schema::set_clauses] and [insert_values]. *)
Definition set_clauses (self : Schema) (values : Object) (dialect : SqlDialect) :
    result (list SetClause) string :=
  if bool_decide (values = []) then Err "--set was given nothing to set."
  else
    match head (filter (fun key => key ∈ fixed self) (keys values)) with
    | Some identity =>
        Err ("`" +:+ identity +:+ "` is part of what identifies a row, so it cannot be set. " +:+
             "Create the row you want and delete this one instead.")
    | None => encoded self values dialect
    end.

Definition insert_values (self : Schema) (values : Object) (dialect : SqlDialect) :
    result (list SetClause) string :=
  if bool_decide (values = []) then Err "An insert was given no columns to write."
  else encoded self values dialect.

(** [insert_compiled], up to its rendering: one row is as wide as its columns. *)
Definition insert_compiled (self : Schema) (values : Object) (upsert : bool) (dialect : SqlDialect) :
    result InsertStatement string :=
  let* clauses := insert_values self values dialect in
  let statement :=
    {| into_table := schema_name self; insert_columns := fst <$> clauses; insert_rows := [snd <$> clauses];
       on_conflict := None |} in
  Ok (if upsert then
        with_conflict {| conflict_key := key_columns self;
          conflict_updates := Some (filter (fun column => column ∉ key_columns self) (fst <$> clauses)) |} statement
      else statement).

(** [FilterCore::update_compiled], up to its rendering: the inner [None] is a
    panic, in compiling its filter. *)
Definition update_compiled (self : FilterCore) (dialect : SqlDialect) (values : Object) (now : Z) :
    result (option UpdateStatement) string :=
  let* clauses := set_clauses (schema self) values dialect in
  Ok (update_statement self dialect clauses now).
End set.

(** ** Running them *)

(** A row with an update's columns set to what it binds. *)
Definition set_column (row : SimpleRow) (clause : string * Expr) : SimpleRow :=
  partial_alter (fun _ => bound_value (snd clause)) (fst clause) row.
Definition set_columns (row : SimpleRow) (clauses : list (string * Expr)) : SimpleRow :=
  foldl set_column row clauses.

(** What a column holds of a bound value: itself, or, in a column SQLite gives
    numeric affinity, the integer its text writes. *)
Definition takes (dialect : SqlDialect) (family : FieldFamily) (bound held : option SqlValue) : Prop :=
  held = bound \/
  (dialect = SqliteText /\ family = JsonValue /\
   exists number, bound = Some (ValText (pretty number)) /\ held = Some (ValInt number)).

(** A row an update leaves. *)
Definition updated (dialect : SqlDialect) (table : Schema) (clauses : list (string * Expr))
    (row row' : SimpleRow) : Prop :=
  (forall column, column ∉ fst <$> clauses -> row' !! column = row !! column) /\
  (forall column expr field, (column, expr) ∈ clauses -> column_of table column = Some field ->
     takes dialect (family field) (bound_value expr) (row' !! column)).

(** * What an update promises

    An update sets the columns it names and no other, none of them identity,
    and a filter given the value that was set finds the row. *)

(** ** What a row's columns become *)

Lemma set_columns_other row clauses column :
  column ∉ fst <$> clauses -> set_columns row clauses !! column = row !! column.
Proof.
  unfold set_columns. revert row. induction clauses as [|[c expr] clauses IH]; intros row Hout; [done|].
  apply not_elem_of_cons in Hout as [Hne Hout]. cbn [foldl].
  rewrite (IH _ Hout). apply (lookup_partial_alter_ne (M := gmap string)). by intros <-.
Qed.

Lemma set_columns_named row clauses column expr :
  NoDup (fst <$> clauses) -> (column, expr) ∈ clauses ->
  set_columns row clauses !! column = bound_value expr.
Proof.
  unfold set_columns. revert row. induction clauses as [|[c e] clauses IH]; intros row Hnodup Hin.
  { by apply not_elem_of_nil in Hin. }
  apply NoDup_cons in Hnodup as [Hnew Hnodup]. cbn [foldl].
  apply elem_of_cons in Hin as [Heq|Hin]; [|by apply IH].
  injection Heq as <- <-. etransitivity; [by apply set_columns_other|].
  apply (lookup_partial_alter_eq (M := gmap string)).
Qed.

(** ** Encoding *)

Section encoding.
Context `{Crates} `{Codecs} `{JsonWriter} (dialect : SqlDialect).
#[local] Existing Instance evaluator.

Lemma res_map_all {A B E} (f : A -> result B E) l bs :
  res_map f l = Ok bs -> Forall2 (fun a b => f a = Ok b) l bs.
Proof.
  revert bs. induction l as [|a l IH]; cbn; intros bs Hmap; [by simplify_eq|].
  destruct (f a) eqn:Ha; [|done]. destruct (res_map f l) eqn:Hl; [|done].
  injection Hmap as <-. constructor; [done|by apply IH].
Qed.

Lemma column_of_key table wire field : column_of table wire = Some field -> key field = wire /\ field ∈ columns table.
Proof.
  unfold column_of. intros Hhead. apply head_Some_elem_of in Hhead. by apply list_elem_of_filter in Hhead.
Qed.

Lemma column_of_field table field :
  NoDup (key <$> columns table) -> field ∈ columns table -> column_of table (key field) = Some field.
Proof.
  unfold column_of. generalize (columns table). intros l Hnodup Hin.
  induction l as [|first l IH]; [by apply not_elem_of_nil in Hin|].
  cbn [fmap list_fmap] in Hnodup. apply NoDup_cons in Hnodup as [Hnew Hnodup].
  apply elem_of_cons in Hin as [->|Hin].
  - by rewrite filter_cons_True by done.
  - rewrite filter_cons_False; [by apply IH|]. intros Heq. apply Hnew. rewrite Heq. by apply list_elem_of_fmap_2.
Qed.

(** Every clause is an entry's, for its column. *)
Lemma encoded_entries table values clauses :
  encoded table values dialect = Ok clauses ->
  fst <$> clauses = keys values /\
  (forall wire value, (wire, value) ∈ values ->
     exists field expr, column_of table wire = Some field /\ encode (family field) value dialect = Ok expr /\
       (wire, expr) ∈ clauses).
Proof.
  unfold encoded, keys. intros Hall%res_map_all.
  induction Hall as [|[wire value] [column expr] values clauses Hclause _ [IHkeys IHall]].
  { split; [done|]. by intros wire value ?%not_elem_of_nil. }
  unfold encoded_clause in Hclause. destruct (column_of table wire) as [field|] eqn:Hfield; [|done].
  destruct (encode (family field) value dialect) as [e|] eqn:Hencode; [|done]. injection Hclause as <- <-.
  apply column_of_key in Hfield as Hkey. destruct Hkey as [<- _]. split.
  - cbn. by f_equal.
  - intros wire v [[= -> ->]|Hin]%elem_of_cons.
    + exists field, e. split_and!; [done|done|left].
    + destruct (IHall _ _ Hin) as (f & ex & Hf & He & Hc). exists f, ex. split_and!; [done|done|by right].
Qed.

(** ** Finding what was set *)

(** The value a filter's text gives for a column: the text itself, but for a
    boolean and a JSON document, which is no number SQLite would hold as a
    real one. *)
Definition given (family : FieldFamily) (text : string) (value : Jvalue) : Prop :=
  match family with
  | Boolean => exists held, value = JBool held /\ boolean_text text = Some held
  | JsonValue =>
      json_from_yaml text = Some (jvalue_text value) /\
      (dialect = SqliteText ->
         match value with JNumber _ => exists number : Z, jvalue_text value = pretty number | _ => True end)
  | _ => value = JText text
  end.

Lemma value_compare_same v :
  match v with ValText _ | ValUuid _ | ValTimestamp _ | ValBytes _ | ValBool _ => True | _ => False end ->
  value_compare v v = Some Eq.
Proof.
  destruct v; try done; intros _; cbn; f_equal.
  - by destruct value.
  - by apply text_compare_eq.
  - by apply bytes_compare_eq.
  - by apply text_compare_eq.
  - apply Z.compare_refl.
Qed.

Lemma one_admits (row : SimpleRow) column v :
  value (dialect := dialect) row column = Some v -> value_compare v v = Some Eq ->
  admits (dialect := dialect) row (expr_eq column v).
Proof. intros Hvalue Hsame. unfold admits, expr_eq. by rewrite (holds_compare row OpEq column v v Eq). Qed.

Lemma res_bind_ok {A B E} (r : result A E) (k : A -> result B E) b :
  res_bind r k = Ok b -> exists a, r = Ok a /\ k a = Ok b.
Proof. destruct r; [by eexists|done]. Qed.

Lemma cell_value (row : SimpleRow) column held :
  row !! column = held -> value (dialect := dialect) row (Col column) = held.
Proof. intros <-. by rewrite value_col. Qed.

Lemma cell_found (row : SimpleRow) column v :
  row !! column = Some v -> value_compare v v = Some Eq ->
  admits (dialect := dialect) row (expr_eq (Col column) v).
Proof. intros Hcell Hsame. apply one_admits; [by apply cell_value|done]. Qed.

Lemma text_found (row : SimpleRow) field text :
  family field <> JsonValue -> row !! key field = Some (ValText text) ->
  admits (dialect := dialect) row (equality_condition field (Texts [text]) dialect).
Proof.
  intros Hfamily Hcell. cbn. destruct (family field); try done; apply cell_found; try done;
    by apply value_compare_same.
Qed.

Lemma encoded_found (row : SimpleRow) field text value_ expr values :
  given (family field) text value_ -> encode (family field) value_ dialect = Ok expr ->
  equality_values field text = Ok values ->
  takes dialect (family field) (bound_value expr) (row !! key field) ->
  admits (dialect := dialect) row (equality_condition field values dialect).
Proof.
  intros Hgiven Hencode Hvalues [Hcell|(Hd & Hfamily & number & Hbound & Hcell)].
  2:{ unfold given, encode, equality_values in *. rewrite Hfamily in *. destruct Hgiven as [Hgiven _].
      rewrite bool_decide_eq_true_2, andb_false_r in Hencode by done. unfold json_text, ok_or in Hvalues.
      rewrite Hgiven in Hvalues. cbn in Hvalues. injection Hencode as <-.
      injection Hvalues as <-. cbn. rewrite Hfamily. unfold json_bound in Hbound. rewrite Hd in Hbound. injection Hbound as ->. apply one_admits; [|by apply value_compare_same].
      by apply (value_cast row (key field) (ValInt number)). }
  revert Hgiven Hencode Hvalues Hcell. unfold given, encode, equality_values, ok_or, ok_or_else, text_given. intros Hgiven Hencode Hvalues Hcell.
  pose proof (text_found row field) as Htext.
  destruct (family field) as [| | | | |admissible| | | | | |] eqn:Hfamily; try done; try subst value_;
    cbn [is_null as_str andb res_bind] in *.
  - destruct (uuid_parse text) as [id|]; [|done]. cbn in Hencode, Hvalues. simplify_eq.
    cbn. rewrite ?Hfamily. apply cell_found; [done|]. apply value_compare_same. by destruct dialect.
  - destruct (parse_timestamp text) as [stamp|]; [|done]. cbn in Hencode, Hvalues. simplify_eq.
    cbn. rewrite ?Hfamily. apply cell_found; [done|]. apply value_compare_same. by destruct dialect.
  - simplify_eq. by apply Htext.
  - destruct (normalize_email text); [|done]. cbn in Hencode. simplify_eq. by apply Htext.
  - case_bool_decide; [|done]. simplify_eq. by apply Htext.
  - destruct (level_position text); [|done]. cbn in Hencode, Hvalues. simplify_eq. by apply Htext.
  - simplify_eq. cbn. rewrite ?Hfamily. apply cell_found; [done|by apply value_compare_same].
  - destruct Hgiven as (held & -> & Hheld). rewrite Hheld in Hvalues. cbn in Hencode, Hvalues. simplify_eq.
    cbn. rewrite ?Hfamily. apply cell_found; [done|by apply value_compare_same].
  - rewrite bool_decide_eq_true_2, andb_false_r in Hencode by done. unfold json_text, ok_or in Hvalues.
    rewrite (proj1 Hgiven) in Hvalues. cbn in Hvalues. simplify_eq. cbn. rewrite ?Hfamily. apply one_admits.
    + apply (value_cast row (key field) (match dialect with
        SqliteText => ValText (jvalue_text value_) | Postgres => ValJson (jvalue_text value_) end)).
      * transitivity (row !! key field); [done|]. rewrite Hcell. unfold json_bound, text_value. by destruct dialect.
      * by destruct dialect.
    + by apply value_compare_same.
  - unfold address_parse in *. destruct (is_valid text); [|done]. cbn in Hencode. simplify_eq. by apply Htext.
Qed.
End encoding.

(** The row as bound, with no affinity at work, is one an update leaves. *)
Lemma set_columns_updated dialect table clauses row :
  NoDup (fst <$> clauses) -> updated dialect table clauses row (set_columns row clauses).
Proof.
  intros Hnodup. split.
  - intros column Hout. by apply set_columns_other.
  - intros column expr field Hclause _. left. by apply set_columns_named.
Qed.

(** An update refused sets nothing; one accepted sets exactly the columns
    it names, none of them identity, and what it set a column to is what a
    filter given the same value on that column finds in the row it leaves, on
    both backends. *)
Theorem update_found `{Crates} `{Codecs} `{JsonWriter} (dialect : SqlDialect) (table : Schema)
    (values : Object) (clauses : list SetClause) (row row' : SimpleRow) :
  set_clauses table values dialect = Ok clauses -> updated dialect table clauses row row' ->
  fst <$> clauses = keys values /\
  Forall (fun column => column ∉ fixed table /\ is_Some (column_of table column)) (keys values) /\
  (forall field text value_ held,
     column_of table (key field) = Some field -> (key field, value_) ∈ values ->
     given dialect (family field) text value_ -> equality_values field text = Ok held ->
     admits (dialect := dialect) (SqlSemantics0 := evaluator dialect) row'
       (equality_condition field held dialect)).
Proof.
  intros Hset [_ Hupdated]. unfold set_clauses in Hset.
  case_bool_decide as Hempty; [done|].
  destruct (head (filter (fun key => key ∈ fixed table) (keys values))) as [identity|] eqn:Hidentity; [done|].
  destruct (encoded_entries dialect table values clauses Hset) as [Hkeys Hentries]. split_and!.
  - done.
  - apply Forall_forall. intros column Hcolumn. split.
    + intros Hfixed. assert (column ∈ filter (fun key => key ∈ fixed table) (keys values)) as Hin
        by by apply list_elem_of_filter.
      destruct (filter _ (keys values)); [by apply not_elem_of_nil in Hin|done].
    + apply list_elem_of_fmap in Hcolumn as ([wire value_] & -> & Hin).
      destruct (Hentries _ _ Hin) as (field & expr & Hfield & _). by eexists.
  - intros field text value_ held Hfield Hin Hgiven Hheld.
    destruct (Hentries _ _ Hin) as (f & expr & Hf & Hencode & Hclause). rewrite Hfield in Hf. injection Hf as <-.
    eapply encoded_found; [done|done|done|]. by apply Hupdated.
Qed.

(** ** Witness *)

#[local] Instance sample_writer : JsonWriter := fun value =>
  match value with JText text => quoted text | JNumber text => text | JNull => "null" | _ => "{}" end.

(** The level and the text of the sample row, set. *)
Definition sample_set : Object := [("level", JText "critical"); ("content", JText "pump lost")].

Notation sample_clauses :=
  (set_clauses (H := sample_crates) (H0 := sample_codecs) (record_schema Logs) sample_set Postgres).

Lemma update_found_witness :
  exists clauses field, sample_clauses = Ok clauses /\ key field = "level" /\
    admits (dialect := Postgres) (SqlSemantics0 := evaluator Postgres) (set_columns sample_row clauses)
      (equality_condition field (Texts ["critical"]) Postgres).
Proof.
  assert (exists clauses, sample_clauses = Ok clauses) as [clauses Hclauses] by (eexists; vm_compute; reflexivity).
  assert (exists field, column_of (record_schema Logs) "level" = Some field) as [field Hfield]
    by (eexists; vm_compute; reflexivity).
  pose proof (column_of_key _ _ _ Hfield) as [Hkey _].
  assert (family field = Level) as Hfamily by (revert Hfield; vm_compute; by intros [= <-]).
  assert (NoDup (fst <$> clauses)) as Hnodup.
  { destruct (encoded_entries (H := sample_crates) Postgres (record_schema Logs) sample_set clauses) as [-> _].
    - exact Hclauses.
    - apply (bool_decide_eq_true_1 _). vm_compute. reflexivity. }
  destruct (update_found (H := sample_crates) Postgres (record_schema Logs) sample_set clauses sample_row
    (set_columns sample_row clauses) Hclauses (set_columns_updated _ _ _ _ Hnodup)) as (_ & _ & Hfound).
  exists clauses, field. split; [exact Hclauses|]. split; [exact Hkey|].
  apply (Hfound field "critical" (JText "critical")).
  - by rewrite Hkey.
  - rewrite Hkey. by left.
  - by rewrite Hfamily.
  - unfold equality_values. by rewrite Hfamily.
Defined.
