(* ===== verification/Decode.v ===== *)
(** * Reading rows back

    The row decoding of [ceres-database/src/records.rs] and [entities.rs]: the
    accessors each backend reads a column with, and the fields each table's
    rows are read into. The drivers' typed columns are of [Sql]'s values; the
    readers of UUIDs, timestamps and JSON are parameters, JSON text read being
    the value's own text and whether it is an object.

    The parts after this one: rows read back. *)
From S2P Require Import Prelude.
From stdpp Require Import gmap pretty.
From S2P Require Import Text Sql Selector Schema Wire Json Credentials FilterParse FilterMatch FilterCompile.
From S2P Require Import FilterPatterns FilterAgree FilterServed Entities Writer WriterServed SetValues.
Local Open Scope string_scope.
Local Open Scope list_scope.
Local Open Scope ceres_scope.

Class RowReaders := {
  row_uuid : string -> option string;
  naive_datetime : string -> option Z;
  json_document : string -> option (bool * string);
  row_debug : string -> string
}.

(** [Error], as a column not of the type asked for or a value not one of its
    field's. *)
Inductive RowError := ColumnError (column : string) | DecodeError (message : string).

(** [FieldRead]. *)
Class FieldRead (Row : Type) := {
  read_text : Row -> string -> result string RowError;
  read_optional_text : Row -> string -> result (option string) RowError;
  read_uuid : Row -> string -> result string RowError;
  read_optional_uuid : Row -> string -> result (option string) RowError;
  read_timestamp : Row -> string -> result Z RowError;
  read_boolean : Row -> string -> result bool RowError;
  read_blob : Row -> string -> result (list Z) RowError;
  read_json : Row -> string -> result string RowError;
  read_json_object : Row -> string -> result string RowError
}.

Section readers.
Context `{RowReaders}.

(** [try_get] of a column of a type, and of one that may be null. *)
Definition try_get {A} (of_value : SqlValue -> option A) (row : SimpleRow) (column : string) : result A RowError :=
  match row !! column ≫= of_value with Some a => Ok a | None => Err (ColumnError column) end.

Definition try_get_optional {A} (of_value : SqlValue -> option A) (row : SimpleRow) (column : string) :
    result (option A) RowError :=
  match row !! column with
  | None => Ok None
  | Some held => match of_value held with Some a => Ok (Some a) | None => Err (ColumnError column) end
  end.

Definition as_text (v : SqlValue) : option string := match v with ValText text => Some text | _ => None end.
Definition as_uuid (v : SqlValue) : option string := match v with ValUuid id => Some id | _ => None end.
Definition as_boolean (v : SqlValue) : option bool := match v with ValBool held => Some held | _ => None end.
Definition as_blob (v : SqlValue) : option (list Z) := match v with ValBytes held => Some held | _ => None end.
Definition as_timestamp (v : SqlValue) : option Z := match v with ValTimestamp stamp => Some stamp | _ => None end.
Definition as_document (v : SqlValue) : option string := match v with ValJson text => Some text | _ => None end.
Definition as_integer (v : SqlValue) : option Z := match v with ValInt number => Some number | _ => None end.

Definition parsed_uuid (text : string) : result string RowError :=
  match row_uuid text with
  | Some id => Ok id
  | None => Err (DecodeError (row_debug text +:+ " is not a UUID"))
  end.

(** [json_text] and [json_value]. *)
Definition object_of_text (text : string) : result string RowError :=
  match json_document text with
  | Some (true, document) => Ok document
  | _ => Err (DecodeError "invalid type, expected a map")
  end.

Definition object_of_value (text : string) : result string RowError :=
  match json_document text with
  | Some (true, document) => Ok document
  | _ => Err (DecodeError (text +:+ " is not a JSON object"))
  end.

Definition document_of_text (text : string) : result string RowError :=
  match json_document text with
  | Some (_, document) => Ok document
  | None => Err (DecodeError "expected value")
  end.

(** [FieldRead for SqliteRow]; no value here is a real number. *)
Definition sqlite_read : FieldRead SimpleRow := {|
  read_text := try_get as_text;
  read_optional_text := try_get_optional as_text;
  read_uuid := fun row column => let* text := try_get as_text row column in parsed_uuid text;
  read_optional_uuid := fun row column =>
    let* text := try_get_optional as_text row column in
    match text with None => Ok None | Some text => let* id := parsed_uuid text in Ok (Some id) end;
  read_timestamp := try_get (fun v => text ← as_text v; naive_datetime text);
  read_boolean := try_get as_boolean;
  read_blob := try_get as_blob;
  read_json := fun row column =>
    match try_get as_text row column with
    | Ok text => document_of_text text
    | Err _ =>
        let* number := try_get_optional as_integer row column in
        match number with Some number => Ok (pretty number) | None => Ok "null" end
    end;
  read_json_object := fun row column => let* text := try_get as_text row column in object_of_text text
|}.

(** [FieldRead for PgRow]. *)
Definition postgres_read : FieldRead SimpleRow := {|
  read_text := try_get as_text;
  read_optional_text := try_get_optional as_text;
  read_uuid := try_get as_uuid;
  read_optional_uuid := try_get_optional as_uuid;
  read_timestamp := try_get as_timestamp;
  read_boolean := try_get as_boolean;
  read_blob := try_get as_blob;
  read_json := fun row column => let* text := try_get as_document row column in document_of_text text;
  read_json_object := fun row column => let* text := try_get as_document row column in object_of_value text
|}.

Definition field_read (dialect : SqlDialect) : FieldRead SimpleRow :=
  match dialect with SqliteText => sqlite_read | Postgres => postgres_read end.

(** [direction], [level], [target_type] and [access_level]. *)
Definition direction_of (text : string) : result Direction RowError :=
  if decide (text = "send") then Ok Send
  else if decide (text = "receive") then Ok Receive
  else Err (DecodeError (row_debug text +:+ " is not a message direction")).

Definition level_of (text : string) : result LogLevel RowError :=
  if decide (text = "debug") then Ok Debug
  else if decide (text = "info") then Ok Info
  else if decide (text = "warning") then Ok Warning
  else if decide (text = "error") then Ok Error
  else if decide (text = "critical") then Ok Critical
  else Err (DecodeError ("invalid level " +:+ row_debug text)).

Definition target_type_of (text : string) : result TargetType RowError :=
  match target_parse text with
  | Some target => Ok target
  | None => Err (DecodeError (row_debug text +:+ " is not a permission target type"))
  end.

Definition access_level_of (text : string) : result Grant RowError :=
  match grant_parse text with
  | Some grant => Ok grant
  | None => Err (DecodeError (row_debug text +:+ " is not an access level"))
  end.

(** ** Tables' rows *)

(** [FromRow]. *)
Class FromRow (T : Type) := from_row : forall {Row} `{!FieldRead Row}, Row -> result T RowError.

#[export] Instance message_from_row : FromRow MessageRecord := fun _ _ row =>
  let* id := read_uuid row "id" in
  let* address := read_text row "address" in
  let* timestamp := read_timestamp row "timestamp" in
  let* connection := read_optional_text row "connection" in
  let* direction := res_bind (read_text row "direction") direction_of in
  let* data := read_blob row "data" in
  Ok {| message_id := id; message_address := address; message_timestamp := timestamp;
        message_connection := connection; message_direction := direction; message_data := data |}.

#[export] Instance particle_from_row : FromRow ParticleRecord := fun _ _ row =>
  let* id := read_uuid row "id" in
  let* address := read_text row "address" in
  let* timestamp := read_timestamp row "timestamp" in
  let* connection := read_optional_text row "connection" in
  let* kind := read_text row "type" in
  let* data := read_json_object row "data" in
  Ok {| particle_id := id; particle_address := address; particle_timestamp := timestamp;
        particle_connection := connection; particle_kind := kind; particle_data := data;
        particle_span := None |}.

#[export] Instance alert_from_row : FromRow AlertRecord := fun _ _ row =>
  let* id := read_uuid row "id" in
  let* address := read_text row "address" in
  let* timestamp := read_timestamp row "timestamp" in
  let* level := res_bind (read_text row "level") level_of in
  let* kind := read_text row "type" in
  let* data := read_json_object row "data" in
  Ok {| alert_id := id; alert_address := address; alert_timestamp := timestamp; alert_level := level;
        alert_kind := kind; alert_data := data |}.

#[export] Instance log_from_row : FromRow LogRecord := fun _ _ row =>
  let* id := read_uuid row "id" in
  let* address := read_text row "address" in
  let* timestamp := read_timestamp row "timestamp" in
  let* level := res_bind (read_text row "level") level_of in
  let* content := read_text row "content" in
  Ok {| log_id := id; log_address := address; log_timestamp := timestamp; log_level := level;
        log_content := content |}.

#[export] Instance user_from_row : FromRow UserEntity := fun _ _ row =>
  let* id := read_uuid row "id" in
  let* name := read_text row "username" in
  let* email := read_text row "email" in
  let* hash := read_text row "password" in
  let* is_admin := read_boolean row "admin" in
  let* is_disabled := read_boolean row "disabled" in
  Ok {| user_id := id; username := name; user_email := email; password := hash; admin := is_admin;
        disabled := is_disabled |}.

#[export] Instance variable_from_row : FromRow VariableEntity := fun _ _ row =>
  let* address := read_text row "address" in
  let* name := read_text row "name" in
  let* value := read_json row "value" in
  Ok {| variable_address := address; variable_name := name; variable_value := value |}.

#[export] Instance setting_from_row : FromRow SettingEntity := fun _ _ row =>
  let* user := read_uuid row "user_id" in
  let* name := read_text row "name" in
  let* value := read_json row "value" in
  Ok {| setting_user := user; setting_name := name; setting_value := value |}.

#[export] Instance workspace_from_row : FromRow WorkspaceEntity := fun _ _ row =>
  let* id := read_uuid row "id" in
  let* name := read_text row "name" in
  let* scope := read_text row "scope" in
  let* owner := read_optional_uuid row "owner_id" in
  let* shown := read_boolean row "show_when_logged_out" in
  let* data := read_json_object row "data" in
  Ok {| workspace_id := id; workspace_name := name; workspace_scope := scope; workspace_owner := owner;
        show_when_logged_out := shown; workspace_data := data |}.

#[export] Instance edit_from_row : FromRow WorkspaceEditEntity := fun _ _ row =>
  let* user := read_uuid row "user_id" in
  let* workspace := read_uuid row "workspace_id" in
  let* data := read_json_object row "data" in
  Ok {| edit_user := user; edit_workspace := workspace; edit_data := data |}.

#[export] Instance group_from_row : FromRow GroupEntity := fun _ _ row =>
  let* id := read_uuid row "id" in
  let* name := read_text row "name" in
  let* description := read_text row "description" in
  Ok {| group_id := id; group_name := name; group_description := description |}.

#[export] Instance membership_from_row : FromRow MembershipEntity := fun _ _ row =>
  let* user := read_uuid row "user_id" in
  let* group := read_uuid row "group_id" in
  Ok {| member_user := user; member_group := group |}.

(** [FromRow for UserPermission] and for [GroupPermission], by the column of
    whose grant it is. *)
Definition permission_from_row (holder : string) : FromRow PermissionEntity := fun _ _ row =>
  let* user := read_uuid row holder in
  let* target_type := res_bind (read_text row "target_type") target_type_of in
  let* target := read_text row "target" in
  let* level := res_bind (read_text row "level") access_level_of in
  Ok {| permission_holder := user; permission_target_type := target_type; permission_target := target;
        permission_level := level |}.

(** [decoded]. *)
Definition decoded {T} `{!FromRow T} {Row} `{!FieldRead Row} (rows : list Row) : result (list T) RowError :=
  res_map from_row rows.

Definition wrapped {T B} (batch : list T -> B) (rows : result (list T) RowError) : result B RowError :=
  let* rows := rows in Ok (batch rows).

(** [decode], of records and of entities. *)
Definition decode_records {Row} `{!FieldRead Row} (table : RecordTable) (rows : list Row) : result Records RowError :=
  match table with
  | Messages => wrapped MessageBatch (decoded rows)
  | Particles => wrapped ParticleBatch (decoded rows)
  | Alerts => wrapped AlertBatch (decoded rows)
  | Logs => wrapped LogBatch (decoded rows)
  end.

Definition decode_entities {Row} `{!FieldRead Row} (table : EntityTable) (rows : list Row) :
    result EntityBatch RowError :=
  match table with
  | Users => wrapped UserBatch (decoded rows)
  | Variables => wrapped VariableBatch (decoded rows)
  | Settings => wrapped SettingBatch (decoded rows)
  | Workspaces => wrapped WorkspaceBatch (decoded rows)
  | WorkspaceEdits => wrapped WorkspaceEditBatch (decoded rows)
  | Groups => wrapped GroupBatch (decoded rows)
  | GroupMemberships => wrapped MembershipBatch (decoded rows)
  | UserPermissions => wrapped UserPermissionBatch (decoded (FromRow0 := permission_from_row "user_id") rows)
  | GroupPermissions => wrapped GroupPermissionBatch (decoded (FromRow0 := permission_from_row "group_id") rows)
  end.
End readers.

(** * Rows read back

    What the writer binds of a record or an entity reads back as it, on both
    backends, from any row the database holds of it. *)
Local Open Scope Z_scope.

(** [chrono] reads back the naive text a stored timestamp is written as. *)
Class ReadsStamps `{Codecs} `{RowReaders} :=
  naive_read stamp : stamp mod 1000 = 0 -> stamp_storable stamp -> naive_datetime (timestamp_text stamp) = Some stamp.

(** A row as the database holds it: what was bound, but for an integer in a
    column SQLite gives numeric affinity. *)
Definition row_held (dialect : SqlDialect) (table : Schema) (bound held : SimpleRow) : Prop :=
  forall column,
    match column_of table column with
    | Some field => takes dialect (family field) (bound !! column) (held !! column)
    | None => held !! column = bound !! column
    end.

Definition plain_column (table : Schema) (column : string) : bool :=
  match column_of table column with
  | Some field => negb (bool_decide (family field = JsonValue))
  | None => true
  end.

Section cells.
Context (dialect : SqlDialect) (table : Schema).

Lemma held_plain bound held column :
  row_held dialect table bound held -> plain_column table column = true -> held !! column = bound !! column.
Proof.
  intros Hheld. specialize (Hheld column). unfold plain_column.
  destruct (column_of table column) as [field|]; [|done].
  intros Hplain. destruct Hheld as [Hsame|(_ & Hfamily & _)]; [done|].
  by rewrite bool_decide_eq_true_2 in Hplain.
Qed.

(** The cells bound of a row of columns. *)
Definition bound_cells (columns : list string) (values : list Expr) : list (string * SqlValue) :=
  omap (fun '(column, expr) => pair column <$> bound_value expr) (zip columns values).

Lemma row_of_cell columns values column : row_of columns values !! column = assoc column (bound_cells columns values).
Proof. exact (lookup_assoc column (bound_cells columns values)). Qed.

Lemma held_cell columns values held column cell :
  row_held dialect table (row_of columns values) held -> plain_column table column = true ->
  assoc column (bound_cells columns values) = cell -> held !! column = cell.
Proof. intros Hheld Hplain <-. by rewrite (held_plain _ _ _ Hheld Hplain), row_of_cell. Qed.
End cells.

(** ** Accessors *)

Section accessors.
Context `{ReadsStamps} (dialect : SqlDialect).
#[local] Instance reading : FieldRead SimpleRow := field_read dialect.

Lemma get_cell {A} (f : SqlValue -> option A) (held : SimpleRow) column cell a :
  held !! column = Some cell -> f cell = Some a -> try_get f held column = Ok a.
Proof. intros Hcell Ha. unfold try_get. rewrite Hcell. cbn. by rewrite Ha. Qed.

Lemma get_optional_cell {A} (f : SqlValue -> option A) (held : SimpleRow) column cell :
  held !! column = Some cell -> try_get_optional f held column =
    match f cell with Some a => Ok (Some a) | None => Err (ColumnError column) end.
Proof. intros Hcell. unfold try_get_optional. by rewrite Hcell. Qed.

Lemma get_no_cell {A} (f : SqlValue -> option A) (held : SimpleRow) column :
  held !! column = None -> try_get_optional f held column = Ok None.
Proof. intros Hcell. unfold try_get_optional. by rewrite Hcell. Qed.

Lemma text_read held column text : held !! column = Some (ValText text) -> read_text held column = Ok text.
Proof.
  intros Hcell. transitivity (try_get as_text held column); [by unfold reading; destruct dialect|by apply (get_cell _ _ _ _ _ Hcell)].
Qed.

Lemma optional_text_read held column text :
  held !! column = ValText <$> text -> read_optional_text held column = Ok text.
Proof.
  intros Hcell. transitivity (try_get_optional as_text held column); [by unfold reading; destruct dialect|].
  destruct text; [by rewrite (get_optional_cell _ _ _ _ Hcell)|by apply get_no_cell].
Qed.

Lemma boolean_read held column flag : held !! column = Some (ValBool flag) -> read_boolean held column = Ok flag.
Proof.
  intros Hcell. transitivity (try_get as_boolean held column); [by unfold reading; destruct dialect|by apply (get_cell _ _ _ _ _ Hcell)].
Qed.

Lemma blob_read held column data : held !! column = Some (ValBytes data) -> read_blob held column = Ok data.
Proof.
  intros Hcell. transitivity (try_get as_blob held column); [by unfold reading; destruct dialect|by apply (get_cell _ _ _ _ _ Hcell)].
Qed.

Lemma uuid_read held column id :
  held !! column = Some (id_value id dialect) -> row_uuid id = Some id -> read_uuid held column = Ok id.
Proof.
  intros Hcell Hid. unfold read_uuid, reading. destruct dialect; cbn; rewrite (get_cell _ _ _ _ id Hcell) by done.
  - cbn. unfold parsed_uuid. by rewrite Hid.
  - done.
Qed.

Lemma optional_uuid_read held column id :
  held !! column = (fun id => id_value id dialect) <$> id ->
  match id with Some id => row_uuid id = Some id | None => True end -> read_optional_uuid held column = Ok id.
Proof.
  intros Hcell Hid. unfold read_optional_uuid, reading. destruct id as [id|].
  - destruct dialect; cbn; rewrite (get_optional_cell _ _ _ _ Hcell); cbn; [|done].
    unfold parsed_uuid. by rewrite Hid.
  - destruct dialect; cbn; by rewrite (get_no_cell _ _ _ Hcell).
Qed.

Lemma timestamp_read held column stamp :
  held !! column = Some (timestamp_value stamp dialect) -> stamp_ok dialect stamp ->
  read_timestamp held column = Ok stamp.
Proof.
  intros Hcell [Hmicros Hyear]. unfold read_timestamp, reading.
  destruct dialect; apply (get_cell _ _ _ _ _ Hcell); [|done]. cbn. apply naive_read; [done|by apply Hyear].
Qed.

Lemma object_read held column text :
  held !! column = Some (json_cell text dialect) -> json_document text = Some (true, text) ->
  read_json_object held column = Ok text.
Proof.
  intros Hcell Hobject. unfold read_json_object, reading.
  destruct dialect; cbn; rewrite (get_cell _ _ _ _ text Hcell) by done; cbn;
    unfold object_of_text, object_of_value; by rewrite Hobject.
Qed.

Lemma document_read held column text :
  takes dialect JsonValue (Some (json_cell text dialect)) (held !! column) ->
  (exists object, json_document text = Some (object, text)) -> read_json held column = Ok text.
Proof.
  intros Htakes [object Hdocument]. unfold read_json, reading.
  destruct Htakes as [Hcell|(Hd & _ & number & Hbound & Hcell)].
  - destruct dialect; cbn; rewrite (get_cell _ _ _ _ text Hcell) by done; cbn; unfold document_of_text;
      by rewrite Hdocument.
  - revert Hbound. rewrite Hd. cbn. intros [= ->].
    assert (try_get as_text held column = Err (ColumnError column)) as ->
      by (unfold try_get; by rewrite Hcell).
    by rewrite (get_optional_cell _ _ _ _ Hcell).
Qed.
End accessors.

(** ** What is kept of what is written *)

Section kept.
Context `{ReadsStamps} (dialect : SqlDialect).
#[local] Instance reader : FieldRead SimpleRow := field_read dialect.

(** IDs in the form [uuid] writes, documents in the form [serde_json] does. *)
Definition id_kept (id : string) : Prop := row_uuid id = Some id.
Definition object_kept (text : string) : Prop := json_document text = Some (true, text).
Definition document_kept (text : string) : Prop := exists object, json_document text = Some (object, text).

Class Kept (T : Type) (table : Schema) (columns : list string) `{!RowValues T} `{!FromRow T} := {
  kept : T -> Prop;
  (** What a row keeps of it. *)
  stored : T -> T;
  kept_read record held :
    kept record -> row_held dialect table (row_of columns (row_values dialect record)) held ->
    from_row held = Ok (stored record)
}.

Lemma direction_read self : direction_of (direction_text self) = Ok self.
Proof. by destruct self. Qed.
Lemma level_read self : level_of (level_as_str self) = Ok self.
Proof. by destruct self. Qed.
Lemma target_type_read self : target_type_of (target_as_str self) = Ok self.
Proof. by destruct self. Qed.
Lemma access_level_read self : access_level_of (grant_as_str self) = Ok self.
Proof. by destruct self. Qed.

Ltac cell_is := eapply held_cell; [eassumption|vm_compute; reflexivity|reflexivity].

(** Reads the columns one after another, each of what was bound. *)
Ltac read_columns :=
  repeat first
    [ erewrite text_read by cell_is
    | erewrite uuid_read by (cell_is || eassumption)
    | erewrite timestamp_read by (cell_is || eassumption)
    | erewrite (optional_text_read _ _ _ (Some _)) by cell_is
    | erewrite (optional_uuid_read _ _ _ (Some _)) by (cell_is || eassumption)
    | erewrite (optional_uuid_read _ _ _ None) by (cell_is || exact I)
    | erewrite (optional_text_read _ _ _ None) by cell_is
    | erewrite boolean_read by cell_is
    | erewrite blob_read by cell_is
    | erewrite object_read by (cell_is || eassumption)
    | progress cbn [res_bind]
    | rewrite direction_read | rewrite level_read | rewrite target_type_read | rewrite access_level_read ].

Lemma document_cell table columns values held column field text :
  row_held dialect table (row_of columns values) held -> column_of table column = Some field ->
  family field = JsonValue -> assoc column (bound_cells columns values) = Some (json_cell text dialect) ->
  document_kept text -> read_json (FieldRead := field_read dialect) held column = Ok text.
Proof.
  intros Hheld Hfield Hfamily Hcell Hkept. apply document_read; [|done].
  specialize (Hheld column). rewrite Hfield, Hfamily in Hheld.
  assert (row_of columns values !! column = Some (json_cell text dialect)) as Hbound by (by rewrite row_of_cell).
  by rewrite Hbound in Hheld.
Qed.

#[export] Program Instance message_kept : Kept MessageRecord (record_schema Messages) (column_names Messages) := {|
  kept := fun self => id_kept (message_id self) /\ stamp_ok dialect (message_timestamp self);
  stored := fun self => self
|}.
Next Obligation.
  intros [id address stamp connection direction data] held [Hid Hstamp] Hheld. unfold id_kept in Hid. cbn in Hid, Hstamp.
  unfold from_row, message_from_row, reader. by destruct connection; read_columns.
Qed.

(** A span is of the message a particle was parsed from, and has no column. *)
#[export] Program Instance particle_kept : Kept ParticleRecord (record_schema Particles) (column_names Particles) := {|
  kept := fun self => id_kept (particle_id self) /\ stamp_ok dialect (particle_timestamp self) /\
    object_kept (particle_data self);
  stored := fun self =>
    {| particle_id := particle_id self; particle_address := particle_address self;
       particle_timestamp := particle_timestamp self; particle_connection := particle_connection self;
       particle_kind := particle_kind self; particle_data := particle_data self; particle_span := None |}
|}.
Next Obligation.
  intros [id address stamp connection kind data span] held (Hid & Hstamp & Hdata) Hheld.
  unfold id_kept in Hid. unfold object_kept in Hdata. cbn in Hid, Hstamp, Hdata. unfold from_row, particle_from_row, reader.
  by destruct dialect, connection; read_columns.
Qed.

#[export] Program Instance alert_kept : Kept AlertRecord (record_schema Alerts) (column_names Alerts) := {|
  kept := fun self => id_kept (alert_id self) /\ stamp_ok dialect (alert_timestamp self) /\
    object_kept (alert_data self);
  stored := fun self => self
|}.
Next Obligation.
  intros self held (Hid & Hstamp & Hdata) Hheld. unfold id_kept in Hid. unfold object_kept in Hdata.
  unfold from_row, alert_from_row, reader. destruct dialect; read_columns; by destruct self.
Qed.

#[export] Program Instance log_kept : Kept LogRecord (record_schema Logs) (column_names Logs) := {|
  kept := fun self => id_kept (log_id self) /\ stamp_ok dialect (log_timestamp self);
  stored := fun self => self
|}.
Next Obligation.
  intros self held [Hid Hstamp] Hheld. unfold id_kept in Hid. unfold from_row, log_from_row, reader.
  read_columns. by destruct self.
Qed.

#[export] Program Instance user_kept : Kept UserEntity (entity_schema Users) (WIRE_KEYS User) := {|
  kept := fun self => id_kept (user_id self); stored := fun self => self
|}.
Next Obligation.
  intros self held Hid Hheld. unfold id_kept in Hid. unfold from_row, user_from_row, reader.
  read_columns. by destruct self.
Qed.

#[export] Program Instance group_kept : Kept GroupEntity (entity_schema Groups) (WIRE_KEYS Group_) := {|
  kept := fun self => id_kept (group_id self); stored := fun self => self
|}.
Next Obligation.
  intros self held Hid Hheld. unfold id_kept in Hid. unfold from_row, group_from_row, reader.
  read_columns. by destruct self.
Qed.

#[export] Program Instance membership_kept :
    Kept MembershipEntity (entity_schema GroupMemberships) (WIRE_KEYS GroupMembership) := {|
  kept := fun self => id_kept (member_user self) /\ id_kept (member_group self); stored := fun self => self
|}.
Next Obligation.
  intros self held [Huser Hgroup] Hheld. unfold id_kept in Huser, Hgroup.
  unfold from_row, membership_from_row, reader. read_columns. by destruct self.
Qed.

#[export] Program Instance edit_kept : Kept WorkspaceEditEntity (entity_schema WorkspaceEdits) (WIRE_KEYS WorkspaceEdit) := {|
  kept := fun self => id_kept (edit_user self) /\ id_kept (edit_workspace self) /\ object_kept (edit_data self);
  stored := fun self => self
|}.
Next Obligation.
  intros self held (Huser & Hworkspace & Hdata) Hheld. unfold id_kept in Huser, Hworkspace.
  unfold object_kept in Hdata. unfold from_row, edit_from_row, reader.
  destruct dialect; read_columns; by destruct self.
Qed.

#[export] Program Instance workspace_kept : Kept WorkspaceEntity (entity_schema Workspaces) (WIRE_KEYS Workspace) := {|
  kept := fun self => id_kept (workspace_id self) /\
    match workspace_owner self with Some owner => id_kept owner | None => True end /\
    object_kept (workspace_data self);
  stored := fun self => self
|}.
Next Obligation.
  intros [id name scope owner shown data] held (Hid & Howner & Hdata) Hheld. cbn in Hid, Howner, Hdata.
  unfold id_kept in Hid, Howner. unfold object_kept in Hdata. unfold from_row, workspace_from_row, reader.
  by destruct dialect, owner; read_columns.
Qed.

#[export] Program Instance user_permission_kept :
    Kept PermissionEntity (entity_schema UserPermissions) (WIRE_KEYS UserPermission)
      (FromRow0 := permission_from_row "user_id") := {|
  kept := fun self => id_kept (permission_holder self); stored := fun self => self
|}.
Next Obligation.
  intros self held Hid Hheld. unfold id_kept in Hid. unfold from_row, permission_from_row, reader.
  read_columns. by destruct self.
Qed.

#[export] Program Instance group_permission_kept :
    Kept PermissionEntity (entity_schema GroupPermissions) (WIRE_KEYS GroupPermission)
      (FromRow0 := permission_from_row "group_id") := {|
  kept := fun self => id_kept (permission_holder self); stored := fun self => self
|}.
Next Obligation.
  intros self held Hid Hheld. unfold id_kept in Hid. unfold from_row, permission_from_row, reader.
  read_columns. by destruct self.
Qed.

#[export] Program Instance variable_kept : Kept VariableEntity (entity_schema Variables) (WIRE_KEYS Variable_) := {|
  kept := fun self => document_kept (variable_value self); stored := fun self => self
|}.
Next Obligation.
  intros self held Hdocument Hheld. unfold from_row, variable_from_row, reader. read_columns.
  erewrite (document_cell (entity_schema Variables) _ _ held "value" _ (variable_value self) Hheld);
    [by destruct self|vm_compute; reflexivity|done| |exact Hdocument].
  unfold json_bound. by destruct dialect.
Qed.

#[export] Program Instance setting_kept : Kept SettingEntity (entity_schema Settings) (WIRE_KEYS Setting) := {|
  kept := fun self => id_kept (setting_user self) /\ document_kept (setting_value self); stored := fun self => self
|}.
Next Obligation.
  intros self held [Huser Hdocument] Hheld. unfold id_kept in Huser. unfold from_row, setting_from_row, reader.
  read_columns.
  erewrite (document_cell (entity_schema Settings) _ _ held "value" _ (setting_value self) Hheld);
    [by destruct self|vm_compute; reflexivity|done| |exact Hdocument].
  unfold json_bound. by destruct dialect.
Qed.

Lemma decoded_kept {T} `{!RowValues T} `{!FromRow T} table columns `{!Kept T table columns} (records : list T) held :
  Forall kept records ->
  Forall2 (row_held dialect table) (row_of columns <$> rows dialect records) held ->
  decoded held = Ok (stored <$> records).
Proof.
  unfold decoded, rows. intros Hkept. revert held.
  induction Hkept as [|record records Hrecord _ IH]; intros held Hheld; inversion Hheld; subst; [done|].
  cbn [res_map]. rewrite (kept_read record) by done. by rewrite IH.
Qed.

(** A batch the rows of which keep it, and what they keep. *)
Definition batch_kept (records : Records) : Prop :=
  match records with
  | MessageBatch l => Forall kept l | ParticleBatch l => Forall kept l
  | AlertBatch l => Forall kept l | LogBatch l => Forall kept l
  end.

Definition stored_batch (records : Records) : Records :=
  match records with ParticleBatch l => ParticleBatch (stored <$> l) | _ => records end.

Definition entities_kept (entities : EntityBatch) : Prop :=
  match entities with
  | UserBatch l => Forall kept l | VariableBatch l => Forall kept l | SettingBatch l => Forall kept l
  | WorkspaceBatch l => Forall kept l | WorkspaceEditBatch l => Forall kept l | GroupBatch l => Forall kept l
  | MembershipBatch l => Forall kept l
  | UserPermissionBatch l => Forall (kept (Kept := user_permission_kept)) l
  | GroupPermissionBatch l => Forall (kept (Kept := group_permission_kept)) l
  end.

Definition batch_values (entities : EntityBatch) : list (list Expr) :=
  match entities with
  | UserBatch l => rows dialect l | VariableBatch l => rows dialect l | SettingBatch l => rows dialect l
  | WorkspaceBatch l => rows dialect l | WorkspaceEditBatch l => rows dialect l | GroupBatch l => rows dialect l
  | MembershipBatch l => rows dialect l
  | UserPermissionBatch l | GroupPermissionBatch l => rows dialect l
  end.

Lemma wrapped_kept {T B} (wrap : list T -> B) `{!RowValues T} `{!FromRow T} table columns `{!Kept T table columns}
    (records : list T) held :
  (forall record, stored record = record) -> Forall kept records ->
  Forall2 (row_held dialect table) (row_of columns <$> rows dialect records) held ->
  wrapped wrap (decoded held) = Ok (wrap records).
Proof.
  intros Hstored Hkept Hheld. rewrite (decoded_kept table columns records held) by done. cbn.
  assert (stored <$> records = records) as ->; [|done].
  clear Hkept Hheld. induction records as [|record records IH]; [done|]. cbn. by rewrite Hstored, IH.
Qed.

Lemma records_decode records held :
  batch_kept records ->
  Forall2 (row_held dialect (record_schema (record_table_of records))) (record_rows records dialect) held ->
  decode_records (record_table_of records) held = Ok (stored_batch records).
Proof.
  unfold record_rows. destruct records as [l|l|l|l]; cbn [record_table_of batch_kept decode_records]; intros Hkept Hheld.
  - by apply (wrapped_kept MessageBatch (record_schema Messages) (column_names Messages)).
  - by rewrite (decoded_kept (record_schema Particles) (column_names Particles) l held).
  - by apply (wrapped_kept AlertBatch (record_schema Alerts) (column_names Alerts)).
  - by apply (wrapped_kept LogBatch (record_schema Logs) (column_names Logs)).
Qed.

Lemma entities_decode entities held :
  entities_kept entities ->
  Forall2 (row_held dialect (entity_schema (entity_table_of entities)))
    (row_of (entity_columns entities) <$> batch_values entities) held ->
  decode_entities (entity_table_of entities) held = Ok entities.
Proof.
  destruct entities as [l|l|l|l|l|l|l|l|l]; cbn [entity_table_of entity_columns batch_values decode_entities];
    intros Hkept Hheld.
  - by apply (wrapped_kept UserBatch (entity_schema Users) (WIRE_KEYS User)).
  - by apply (wrapped_kept VariableBatch (entity_schema Variables) (WIRE_KEYS Variable_)).
  - by apply (wrapped_kept SettingBatch (entity_schema Settings) (WIRE_KEYS Setting)).
  - by apply (wrapped_kept WorkspaceBatch (entity_schema Workspaces) (WIRE_KEYS Workspace)).
  - by apply (wrapped_kept WorkspaceEditBatch (entity_schema WorkspaceEdits) (WIRE_KEYS WorkspaceEdit)).
  - by apply (wrapped_kept GroupBatch (entity_schema Groups) (WIRE_KEYS Group_)).
  - by apply (wrapped_kept MembershipBatch (entity_schema GroupMemberships) (WIRE_KEYS GroupMembership)).
  - by apply (wrapped_kept UserPermissionBatch (entity_schema UserPermissions) (WIRE_KEYS UserPermission)
      (Kept0 := user_permission_kept)).
  - by apply (wrapped_kept GroupPermissionBatch (entity_schema GroupPermissions) (WIRE_KEYS GroupPermission)
      (Kept0 := group_permission_kept)).
Qed.
End kept.

(** ** The property *)


(** ** Witness *)

#[local] Instance text_codecs : Codecs := {|
  json_string := json_string (Codecs := sample_codecs);
  json_bool := json_bool (Codecs := sample_codecs);
  json_compact := json_compact (Codecs := sample_codecs);
  rfc3339 := instant_read;
  timestamp_text := instant_text;
  unicode_lower := fun text => text;
  instant_min := instant_min (Codecs := sample_codecs);
  instant_max := instant_max (Codecs := sample_codecs)
|}.

#[local] Instance sample_row_readers : RowReaders := {|
  row_uuid := fun text => Some text;
  naive_datetime := instant_read;
  json_document := fun text => Some (false, text);
  row_debug := fun text => text
|}.

#[local] Instance sample_stamps : ReadsStamps.
Proof. intros stamp _ _. apply instant_round_trip. Qed.

(** An entry, and a variable SQLite holds as a number. *)
Definition kept_entry : LogRecord :=
  {| log_id := "1"; log_address := "@rig.engine"; log_timestamp := 2000000000; log_level := Error;
     log_content := "pump failed" |}.

Definition kept_variable : VariableEntity :=
  {| variable_address := "@rig"; variable_name := "depth"; variable_value := "5" |}.

Definition variable_row : SimpleRow :=
  {[ "address" := ValText "@rig"; "name" := ValText "depth"; "value" := ValInt 5 ]}.

Lemma row_held_same dialect table row : row_held dialect table row row.
Proof. intros column. destruct (column_of table column); [by left|done]. Qed.

Lemma variable_row_held :
  row_held SqliteText (entity_schema Variables)
    (row_of (WIRE_KEYS Variable_) (row_values SqliteText kept_variable)) variable_row.
Proof.
  intros column. destruct (decide (column = "value")) as [->|Hvalue].
  - right. split_and!; [done|done|]. by exists 5.
  - assert (row_of (WIRE_KEYS Variable_) (row_values SqliteText kept_variable) !! column = variable_row !! column)
      as Hsame.
    { destruct (decide (column = "address")) as [->|Haddress]; [done|].
      destruct (decide (column = "name")) as [->|Hname]; [done|].
      rewrite row_of_cell. transitivity (None : option SqlValue).
      - cbn. apply Strings.String.eqb_neq in Haddress, Hname, Hvalue. by rewrite Haddress, Hname, Hvalue.
      - unfold variable_row. symmetry.
        repeat (etransitivity; [by apply (lookup_insert_ne (M := gmap string))|]).
        apply (lookup_empty (M := gmap string)). }
    rewrite Hsame. destruct (column_of (entity_schema Variables) column); [by left|done].
Qed.

