(* ===== verification/Http.v ===== *)
(** * Requests, answers, and errors on the wire

    [ceres-server/src/error.rs], [body.rs] and [cookie.rs]: the error
    envelopes, the extraction of request bodies with the problems it collects,
    and the authorization cookie. Headers, which are [http]'s, are name and
    value pairs in order, names lowercased and values their bytes; an instant
    is nanoseconds. [None] is a panic where a definition says so. *)
From S2P Require Import Prelude.
From stdpp Require Import pretty.
From S2P Require Import Text Wire Json.
Local Open Scope string_scope.
Local Open Scope list_scope.
Local Open Scope Z_scope.
Local Open Scope ceres_scope.

(** [serde_json], [uuid], [http], [form_urlencoded] and [chrono]: JSON read
    from bytes, or its error, and written; a UUID read, as its hyphenated text;
    a header value as text, and made of text, and a header's name; a query's
    pairs, and the query of pairs; the formats of an instant, and the
    first and last that can be held. *)
Class HttpCrates := {
  from_slice : string -> result Jvalue string;
  json_text : Jvalue -> string;
  parse_uuid : string -> option string;
  to_str : string -> option string;
  header_value : string -> option string;
  header_name : string -> option string;
  form_pairs : string -> list (string * string);
  form_text : list (string * string) -> string;
  http_date : Z -> string;
  rfc3339_seconds : Z -> string;
  rfc3339_micros : Z -> string;
  datetime_min : Z;
  datetime_max : Z
}.

Definition datetime_held `{HttpCrates} (stamp : Z) : bool := (datetime_min <=? stamp) && (stamp <=? datetime_max).

(** ** Text *)

(** [str::from_utf8]: whether bytes are UTF-8. *)
Definition byte_in (lo hi : Z) (c : ascii) : bool := (lo <=? byte_of c) && (byte_of c <=? hi).
Definition tail_byte : ascii -> bool := byte_in 128 191.

Fixpoint is_utf8 (bytes : string) : bool :=
  match bytes with
  | EmptyString => true
  | String a rest =>
      if byte_in 0 127 a then is_utf8 rest
      else match rest with
      | EmptyString => false
      | String b rest =>
          if byte_in 194 223 a && tail_byte b then is_utf8 rest
          else match rest with
          | EmptyString => false
          | String c rest =>
              if tail_byte c &&
                 (byte_in 224 224 a && byte_in 160 191 b || byte_in 225 236 a && tail_byte b ||
                  byte_in 237 237 a && byte_in 128 159 b || byte_in 238 239 a && tail_byte b)
              then is_utf8 rest
              else match rest with
              | EmptyString => false
              | String d rest =>
                  tail_byte c && tail_byte d &&
                  (byte_in 240 240 a && byte_in 144 191 b || byte_in 241 243 a && tail_byte b ||
                   byte_in 244 244 a && byte_in 128 143 b) && is_utf8 rest
              end
          end
      end
  end.

(** ** Headers *)

Definition HeaderMap : Type := list (string * string).

(** [HeaderMap::get], the first value, and [get_all]. *)
Fixpoint get_all (name : string) (headers : HeaderMap) : list string :=
  match headers with
  | [] => []
  | (held, value) :: headers =>
      if decide (held = name) then value :: get_all name headers else get_all name headers
  end.
Definition get (name : string) (headers : HeaderMap) : option string := head (get_all name headers).

(** [HeaderMap::insert]: in place of every value of the name. *)
Definition header_insert (name value : string) (headers : HeaderMap) : HeaderMap :=
  List.filter (fun entry => negb (bool_decide (fst entry = name))) headers ++ [(name, value)].

(** ** Responses *)

(** What follows a response's head: text, the host's chunks under a handle, a
    file under a handle, or a socket for one operation's stream. *)
Inductive ResponseBody :=
  | TextBody (text : string)
  | ChunkBody (handle : Z)
  | FileBody (path : string) (handle : Z)
  | Upgraded (operation : string) (arguments : Jvalue).

Record Response := { status : Z; headers : HeaderMap; body : ResponseBody }.

(** [StatusCode::from_u16]. *)
Definition status_from_u16 (code : Z) : option Z :=
  if (100 <=? code) && (code <? 1000) then Some code else None.

Section http.
Context `{HttpCrates}.

Definition json_body (code : Z) (text : string) : Response :=
  {| status := code; headers := [("content-type", "application/json")]; body := TextBody text |}.

(** [json_response] of [app.rs], and [Json(value).into_response()]. *)
Definition json_response (text : string) : Response := json_body 200 text.
Definition json_value (value : Jvalue) : Response := json_response (json_text value).

(** ** Errors *)

Record ApiError := {
  error_status : Z;
  error_kind : string;
  error_fields : Object;
  envelope : option string
}.

Definition api_error (code : Z) (slug : string) : ApiError :=
  {| error_status := code; error_kind := slug; error_fields := []; envelope := None |}.

(** The constructors the [errors!] macro generates. *)
Definition not_found : ApiError := api_error 404 "not-found-error".
Definition not_authenticated : ApiError := api_error 401 "not-authenticated-error".
Definition not_permitted : ApiError := api_error 403 "not-permitted-error".
Definition bad_credentials : ApiError := api_error 401 "bad-credentials-error".
Definition authentication_disabled : ApiError := api_error 403 "authentication-disabled-error".

(** [ApiError::http]. *)
Definition error_http (code : Z) : ApiError :=
  let error := api_error code "http-error" in
  {| error_status := code; error_kind := error_kind error;
     error_fields := jinsert "status" (JNumber (pretty code)) (error_fields error);
     envelope := None |}.

(** [ApiError::verbatim]. *)
Definition verbatim (code : Z) (text : string) : ApiError :=
  let error := api_error (default 500 (status_from_u16 code)) "error" in
  {| error_status := error_status error; error_kind := error_kind error;
     error_fields := error_fields error; envelope := Some text |}.

Record Problem := { problem_kind : string; location : list string; message : string }.

Definition problem (kind : string) (location : list string) (message : string) : Problem :=
  {| problem_kind := kind; location := location; message := message |}.

Definition problem_json (self : Problem) : Jvalue :=
  JObject (jinsert "message" (JText (message self))
    (jinsert "location" (JArray (JText <$> location self))
      (jinsert "type" (JText (problem_kind self)) []))).

Definition validation (problems : list Problem) : ApiError :=
  {| error_status := 422; error_kind := "validation-failed-error";
     error_fields := jinsert "problems" (JArray (problem_json <$> problems)) []; envelope := None |}.

(** [ApiError::body]. *)
Definition error_body (self : ApiError) : string :=
  match envelope self with
  | Some text => text
  | None =>
      json_text (JObject (foldl (fun held '(key, value) => jinsert key value held)
        (jinsert "type" (JText (error_kind self)) (jinsert "__error__" (JBool true) []))
        (error_fields self)))
  end.

Definition error_response (self : ApiError) : Response := json_body (error_status self) (error_body self).

(** ** The authorization cookie *)

Inductive CookieType := Insecure | Secure.

(** [CookieType::parse]. *)
Definition cookie_parse (value : string) (location : list string) : result CookieType Problem :=
  if decide (value = "insecure") then Ok Insecure
  else if decide (value = "secure") then Ok Secure
  else Err (problem "enum" location "Input should be 'insecure' or 'secure'").

Definition quote : ascii := Strings.Ascii.ascii_of_nat 34.

Definition cookie_text (self : CookieType) (token : string) (expires : Z) : string :=
  "Authorization=" +:+ String quote ("Bearer " +:+ token +:+ String quote ("; expires=" +:+
    http_date expires +:+
    match self with
    | Insecure => "; Path=/; SameSite=lax"
    | Secure => "; HttpOnly; Path=/; SameSite=lax; Secure"
    end)).

(** [CookieType::assign], and [delete] at an instant; [None] is a panic. *)
Definition assign (self : CookieType) (token : string) (expires : Z) : option string :=
  header_value (cookie_text self token expires).

Definition delete (now : Z) : option string :=
  header_value ("Authorization=" +:+ String quote (String quote ("; expires=" +:+
    http_date now +:+ "; Max-Age=0; Path=/; SameSite=lax"))).

(** ** Request bodies *)

Record Body := { body_fields : Object; problems : list Problem }.

Definition report (self : Body) (found : Problem) : Body :=
  {| body_fields := body_fields self; problems := problems self ++ [found] |}.

(** [Body::parse]. *)
Definition body_parse (bytes : string) : result Body ApiError :=
  match from_slice bytes with
  | Err error => Err (validation [problem "json_invalid" ["body"] ("Invalid JSON: " +:+ error)])
  | Ok (JObject fields) => Ok {| body_fields := fields; problems := [] |}
  | Ok _ =>
      Err (validation [problem "model_attributes_type" ["body"]
        "Input should be a valid dictionary or object to extract fields from"])
  end.

(** [Body::finish]. *)
Definition body_finish (self : Body) : result unit ApiError :=
  match problems self with [] => Ok tt | found => Err (validation found) end.

(** Each extraction gives the body on with what it found wrong. *)
Definition required_string (field : string) (self : Body) : option string * Body :=
  match jget field (body_fields self) with
  | None | Some JNull => (None, report self (problem "missing" ["body"; field] "Field required"))
  | Some (JText value) => (Some value, self)
  | Some _ => (None, report self (problem "string_type" ["body"; field] "Input should be a valid string"))
  end.

Definition optional_string (field : string) (self : Body) : option string * Body :=
  match jget field (body_fields self) with
  | None | Some JNull => (None, self)
  | Some (JText value) => (Some value, self)
  | Some _ => (None, report self (problem "string_type" ["body"; field] "Input should be a valid string"))
  end.

Definition required_uuid (field : string) (self : Body) : option string * Body :=
  match required_string field self with
  | (None, self) => (None, self)
  | (Some text, self) =>
      match parse_uuid text with
      | Some id => (Some id, self)
      | None => (None, report self (problem "uuid_parsing" ["body"; field] "Input should be a valid UUID"))
      end
  end.

(** [Body::cookie]. *)
Definition body_cookie (self : Body) : option CookieType * Body :=
  match optional_string "cookie" self with
  | (None, self) => (None, self)
  | (Some text, self) =>
      match cookie_parse text ["body"; "cookie"] with
      | Ok kind => (Some kind, self)
      | Err found => (None, report self found)
      end
  end.

(** [query_pairs] of [api/mod.rs]. *)
Definition query_pairs (query : option string) : list (string * string) :=
  match query with None => [] | Some query => form_pairs query end.

(** [Timestamp::to_wire] of [ceres-entities/src/timestamp.rs]. *)
Definition to_wire (stamp : Z) : string :=
  if (stamp mod 1000000000) / 1000 =? 0 then rfc3339_seconds stamp else rfc3339_micros stamp.
End http.

(** ** Facts *)

Lemma get_all_app name (front back : HeaderMap) :
  get_all name (front ++ back) = get_all name front ++ get_all name back.
Proof. induction front as [|[held value] front IH]; [done|]. cbn. rewrite IH. by case_decide. Qed.

Lemma get_all_insert name value map : get_all name (header_insert name value map) = [value].
Proof.
  unfold header_insert. rewrite get_all_app. cbn. rewrite decide_True by done.
  replace (get_all name _) with (@nil string); [done|]. symmetry.
  induction map as [|[held other] map IH]; [done|]. cbn.
  destruct (decide (held = name)) as [->|Hne].
  - by rewrite bool_decide_eq_true_2.
  - rewrite bool_decide_eq_false_2 by done. cbn. by rewrite decide_False.
Qed.

(** A body none of whose extractions found a problem finishes. *)
Lemma body_finish_ok self : body_finish self = Ok tt <-> problems self = [].
Proof. unfold body_finish. by destruct (problems self). Qed.

Lemma report_problems self found : problems (report self found) <> [].
Proof. cbn. by destruct (problems self). Qed.
#[export] Hint Resolve report_problems : ceres.

Section extraction.
Context `{HttpCrates}.

Lemma required_string_some field self value self' :
  required_string field self = (Some value, self') -> self' = self.
Proof. unfold required_string. intros. split_cases. Qed.

(** An extraction that required a value gives it, or the body does not finish. *)
Lemma required_string_none field self self' :
  required_string field self = (None, self') -> problems self' <> [].
Proof.
  unfold required_string. intros Hget.
  destruct (jget field (body_fields self)) as [[]|]; simplify_eq; apply report_problems.
Qed.

Lemma required_string_keeps field self value self' :
  required_string field self = (value, self') -> problems self' = [] -> problems self = [] /\ value <> None.
Proof.
  intros Hget Hfine. destruct value as [value|].
  - by rewrite <-(required_string_some _ _ _ _ Hget).
  - by apply required_string_none in Hget.
Qed.

Lemma required_uuid_keeps field self value self' :
  required_uuid field self = (value, self') -> problems self' = [] -> problems self = [] /\ value <> None.
Proof.
  unfold required_uuid. destruct (required_string field self) as [text middle] eqn:Hget.
  destruct text as [text|]; [|intros [= <- <-] Hfine; by apply required_string_none in Hget].
  apply required_string_some in Hget as ->.
  case_match; intros [= <- <-]; [done|]. by intros ?%report_problems.
Qed.

Lemma body_cookie_keeps self value self' :
  body_cookie self = (value, self') -> problems self' = [] -> problems self = [].
Proof.
  unfold body_cookie, optional_string. intros Hget Hfine.
  destruct (jget "cookie" (body_fields self)) as [[]|]; [..|by simplify_eq];
    first [by simplify_eq | simplify_eq; by apply report_problems in Hfine | idtac].
  case_match; simplify_eq; [done|]. by apply report_problems in Hfine.
Qed.
End extraction.
