(* ===== verification/Screen.v ===== *)
(** * What a terminal is shown

    The colored JSON of [ceres-cli/src/highlight.rs], the boxed tables of
    [output.rs], and the table a dump draws of its rows
    ([commands/dump.rs]). Text is UTF-8, and a width is a count of
    characters. *)
From S2P Require Import Prelude.
From S2P Require Import Text Wire Json Rows Credentials Http.
Local Open Scope string_scope.
Local Open Scope list_scope.

(** ** Colors *)

Definition escape : ascii := Strings.Ascii.ascii_of_nat 27.

Definition RESET : string := String escape "[0m".
Definition HEADING : string := String escape "[1m".
Definition KEY : string := String escape "[1;34m".
Definition NUMBER : string := String escape "[36m".
Definition STRING : string := String escape "[32m".
Definition TRUE : string := String escape "[92m".
Definition FALSE : string := String escape "[91m".
Definition NULL : string := String escape "[35m".
Definition UUID : string := String escape "[93m".
Definition INSTANT : string := String escape "[94m".

(** What painting calls of its crates: [serde_json]'s reading of a text and
    writing of a string, and the parsers that own UUIDs and instants. *)
Class Painters := {
  from_str : string -> option Jvalue;
  quoted : string -> string;
  is_uuid : string -> bool;
  is_instant : string -> bool
}.

(** [run]. *)
Definition colored_run (style text : string) : string := style +:+ text +:+ RESET.

(** [split_inclusive] at line breaks. *)
Fixpoint split_inclusive (text : string) : list string :=
  match text with
  | EmptyString => []
  | String c text =>
      if Strings.Ascii.eqb c newline then line_end :: split_inclusive text
      else match split_inclusive text with
           | [] => [String c ""]
           | line :: lines => String c line :: lines
           end
  end.

(** [trim_end_matches] of line breaks, and what it takes off. *)
Definition breaks (c : ascii) : bool := Strings.Ascii.eqb c newline || Strings.Ascii.eqb c return_.

Fixpoint trim_breaks (text : string) : string * string :=
  match text with
  | EmptyString => ("", "")
  | String c text =>
      let (kept, off) := trim_breaks text in
      match kept with
      | EmptyString => if breaks c then ("", String c off) else (String c "", off)
      | _ => (String c kept, off)
      end
  end.

Section paint.
Context `{Painters}.

Definition text_style (text : string) : string :=
  if is_uuid text then UUID else if is_instant text then INSTANT else STRING.

Definition style (value : Jvalue) : option string :=
  match value with
  | JNull => Some NULL
  | JBool true => Some TRUE
  | JBool false => Some FALSE
  | JNumber _ => Some NUMBER
  | JText text => Some (text_style text)
  | JArray _ | JObject _ => None
  end.

(** What [paint] writes of a value. *)
Fixpoint paint (value : Jvalue) : string :=
  match value with
  | JNull => colored_run NULL "null"
  | JBool true => colored_run TRUE "true"
  | JBool false => colored_run FALSE "false"
  | JNumber number => colored_run NUMBER number
  | JText text => colored_run (text_style text) (quoted text)
  | JArray items => "[" +:+ str_join "," (List.map paint items) +:+ "]"
  | JObject fields =>
      "{" +:+ str_join ","
        (List.map (fun '(name, held) => colored_run KEY (quoted name) +:+ ":" +:+ paint held) fields) +:+ "}"
  end.

(** [text], one line and all of them, and [painted]. *)
Definition paint_line (line : string) : string :=
  let (trimmed, off) := trim_breaks line in
  match from_str trimmed with
  | Some value => paint value +:+ off
  | None => line
  end.

Definition paint_text (input : string) : string := str_concat (paint_line <$> split_inclusive input).

Definition painted (bytes : string) : string := if is_utf8 bytes then paint_text bytes else bytes.
End paint.

(** ** Tables *)

Record Cell := { cell_text : string; cell_style : option string }.

Definition no_cell : Cell := {| cell_text := ""; cell_style := None |}.

Record Table := { title : option string; table_columns : list string; table_rows : list (list Cell) }.

Fixpoint spaces (n : nat) : string := match n with O => "" | S n => String " " (spaces n) end.

Fixpoint rule (n : nat) : string := match n with O => "" | S n => "─" +:+ rule n end.

(** [join] of a separator that is a string. *)
Fixpoint join_with (separator : string) (parts : list string) : string :=
  match parts with
  | [] => ""
  | [part] => part
  | part :: parts => part +:+ separator +:+ join_with separator parts
  end.

(** [border], [pad] and [painted] of [output.rs]. *)
Definition border (widths : list nat) (left junction right : string) : string :=
  left +:+ join_with junction ((fun width => rule (width + 2)) <$> widths) +:+ right.

Definition pad (value : string) (width : nat) : string := value +:+ spaces (width - char_count value).

Definition paint_cell (padded : string) (style : option string) : string :=
  match style with Some style => style +:+ padded +:+ RESET | None => padded end.

(** A row's cells widen the columns they stand in. *)
Fixpoint widen (widths : list nat) (cells : list Cell) : list nat :=
  match widths, cells with
  | width :: widths, cell :: cells => Nat.max width (char_count (cell_text cell)) :: widen widths cells
  | _, _ => widths
  end.

Definition widths_of (self : Table) : list nat := foldl widen (char_count <$> table_columns self) (table_rows self).

(** The cell of each column, and a row's line. *)
Fixpoint aligned (color : bool) (widths : list nat) (cells : list Cell) : list string :=
  match widths with
  | [] => []
  | width :: widths =>
      let cell := default no_cell (head cells) in
      paint_cell (pad (cell_text cell) width) (if color then cell_style cell else None) ::
        aligned color widths (tail cells)
  end.

Definition boxed (cells : list string) : string := "│ " +:+ join_with " │ " cells +:+ " │".

Definition header_line (color : bool) (self : Table) : string :=
  boxed (zip_with (fun name width => paint_cell (pad name width) (if color then Some HEADING else None))
    (table_columns self) (widths_of self)).

(** [Table::render], its lines and their join. *)
Definition render_lines (color : bool) (self : Table) : list string :=
  let widths := widths_of self in
  match title self with Some title => [title] | None => [] end ++
  [border widths "╭" "┬" "╮"; header_line color self; border widths "├" "┼" "┤"] ++
  ((fun row => boxed (aligned color widths row)) <$> table_rows self) ++
  [border widths "╰" "┴" "╯"].

Definition render (color : bool) (self : Table) : string := str_join newline (render_lines color self).

(** ** A dump's table *)

(** A control character's code, of two bytes past ASCII. *)
Definition control (c : ascii) : bool := byte_in 0 31 c || byte_in 127 127 c.
Definition late_control (c next : ascii) : bool := byte_in 194 194 c && byte_in 128 159 next.

Definition hex_low (digit : Z) : ascii :=
  Strings.Ascii.ascii_of_nat (Z.to_nat (if (digit <? 10)%Z then digit + 48 else digit + 87)%Z).

(** [\u{..}] of a code below 256, its four digits. *)
Definition spelled (code : Z) : string :=
  "\u{00" +:+ String (hex_low (code / 16)) (String (hex_low (code mod 16)) "}").

(** [printable]. *)
Definition shown_char (c : ascii) : string :=
  if Strings.Ascii.eqb c newline then "\n"
  else if Strings.Ascii.eqb c return_ then "\r"
  else if Strings.Ascii.eqb c (Strings.Ascii.ascii_of_nat 9) then "\t"
  else if control c then spelled (byte_of c)
  else String c "".

Fixpoint printable (text : string) : string :=
  match text with
  | EmptyString => ""
  | String c rest =>
      match rest with
      | String next rest' =>
          if late_control c next then spelled (byte_of next) +:+ printable rest'
          else shown_char c +:+ printable rest
      | EmptyString => shown_char c
      end
  end.

Section tabulate.
Context `{Painters} `{JsonText}.

(** A row's cell of a column. *)
Definition value_cell (color : bool) (row : Object) (column : string) : Cell :=
  match jget column row with
  | None | Some JNull => no_cell
  | Some value =>
      {| cell_text := printable (match value with JText text => text | value => json_line value end);
         cell_style := if color then style value else None |}
  end.

(** The rows' columns, each where it first occurs. *)
Definition columns_of (rows : list Object) : list string :=
  foldl (fun columns row =>
    foldl (fun columns name => if bool_decide (name ∈ columns) then columns else columns ++ [name])
      columns (keys row)) [] rows.

Definition read_rows (rendered : string) : list Object :=
  omap (fun line => match from_str line with Some (JObject row) => Some row | _ => None end)
    (filter (fun line => line <> "") (str_split newline rendered)).

Definition table_of (color : bool) (rows : list Object) : Table :=
  {| title := None; table_columns := columns_of rows;
     table_rows := (fun row => value_cell color row <$> columns_of rows) <$> rows |}.

(** [tabulate]. *)
Definition tabulate (rendered : string) (color : bool) : string :=
  let rows := read_rows rendered in
  match columns_of rows with
  | [] => "No rows." +:+ line_end
  | _ => render color (table_of color rows) +:+ line_end
  end.
End tabulate.

(** ** Colors taken off *)

(** The text of colored output: what its escapes leave. *)
Fixpoint uncolored (within : bool) (text : string) : string :=
  match text with
  | EmptyString => ""
  | String c text =>
      if within then uncolored (negb (Strings.Ascii.eqb c "m")) text
      else if Strings.Ascii.eqb c escape then uncolored true text
      else String c (uncolored false text)
  end.

Definition plain (text : string) : string := uncolored false text.

(** Text with no escape in it. *)
Definition quiet (text : string) : Prop := contains_char escape text = false.

Lemma plain_quiet text rest : quiet text -> plain (text +:+ rest) = text +:+ plain rest.
Proof.
  unfold quiet, plain. induction text as [|c text IH]; [done|].
  cbn [contains_char]. intros [Hc Htext]%orb_false_iff.
  rewrite !str_app_cons. cbn [uncolored]. rewrite Hc. by rewrite IH.
Qed.

(** A style ends the escape it opens. *)
Definition style_ok (style : string) : Prop := forall rest, plain (style +:+ rest) = plain rest.

Lemma styles_ok : Forall style_ok [RESET; HEADING; KEY; NUMBER; STRING; TRUE; FALSE; NULL; UUID; INSTANT].
Proof. repeat constructor. Qed.

Lemma style_in style : style ∈ [RESET; HEADING; KEY; NUMBER; STRING; TRUE; FALSE; NULL; UUID; INSTANT] -> style_ok style.
Proof. apply Forall_forall, styles_ok. Qed.

#[export] Hint Extern 1 (style_ok _) => apply style_in; set_solver : ceres.
#[export] Hint Extern 2 (quiet _) => reflexivity : ceres.

Lemma plain_run style text rest :
  style_ok style -> quiet text -> plain (colored_run style text +:+ rest) = text +:+ plain rest.
Proof.
  intros Hstyle Htext. unfold colored_run. rewrite !str_app_assoc, Hstyle, plain_quiet by done.
  reflexivity.
Qed.

(** ** Painting shows the text it paints *)

(** What painting and printing rely on of [serde_json]: its compact form, of
    values built of the texts it writes, with every control character of a
    string escaped, and read back as the value it was. *)
Definition enclosed (opening closing : string) (parts : list string) : string :=
  opening +:+ str_join "," parts +:+ closing.

(** The numbers of a value are texts [serde_json] writes of numbers. *)
Fixpoint well_written (number : string -> Prop) (value : Jvalue) : Prop :=
  match value with
  | JNumber text => number text
  | JArray items => foldr (fun item rest => well_written number item /\ rest) True items
  | JObject fields => foldr (fun '(_, held) rest => well_written number held /\ rest) True fields
  | _ => True
  end.

(** Text with neither an escape nor a line break. *)
Definition clean (text : string) : Prop :=
  quiet text /\ contains_char newline text = false /\ contains_char return_ text = false.

Class CompactJson `{Painters} `{JsonText} := {
  number_text : string -> Prop;
  number_clean text : number_text text -> clean text;
  quoted_clean text : clean (quoted text);
  json_null : json_line JNull = "null";
  json_bool held : json_line (JBool held) = if held then "true" else "false";
  json_number text : number_text text -> json_line (JNumber text) = text;
  json_text text : json_line (JText text) = quoted text;
  json_array items : json_line (JArray items) = enclosed "[" "]" (json_line <$> items);
  json_object fields :
    json_line (JObject fields) =
      enclosed "{" "}" ((fun '(name, held) => quoted name +:+ ":" +:+ json_line held) <$> fields);
  json_read value : well_written number_text value -> from_str (json_line value) = Some value
}.

(** Induction on a value with what it holds. *)
Section jvalue_rect.
Context (P : Jvalue -> Prop) (Hnull : P JNull) (Hbool : forall held, P (JBool held))
  (Hnumber : forall text, P (JNumber text)) (Htext : forall text, P (JText text))
  (Harray : forall items, Forall P items -> P (JArray items))
  (Hobject : forall fields, Forall (fun entry => P entry.2) fields -> P (JObject fields)).

Fixpoint jvalue_ind' (value : Jvalue) : P value :=
  match value with
  | JNull => Hnull
  | JBool held => Hbool held
  | JNumber text => Hnumber text
  | JText text => Htext text
  | JArray items =>
      Harray items ((fix all (items : list Jvalue) : Forall P items :=
        match items with
        | [] => Forall_nil_2 P
        | item :: items => Forall_cons_2 P item items (jvalue_ind' item) (all items)
        end) items)
  | JObject fields =>
      Hobject fields ((fix all (fields : list (string * Jvalue)) : Forall (fun entry => P entry.2) fields :=
        match fields with
        | [] => Forall_nil_2 _
        | (name, held) :: fields => Forall_cons_2 (fun entry => P entry.2) (name, held) fields (jvalue_ind' held) (all fields)
        end) fields)
  end.
End jvalue_rect.

Lemma contains_join c sep parts :
  contains_char c (str_join sep parts) = true ->
  c = sep \/ exists part, part ∈ parts /\ contains_char c part = true.
Proof.
  induction parts as [|part parts IH]; [done|]. destruct parts as [|next parts].
  { cbn. intros Hc. right. exists part. set_solver. }
  change (str_join sep (part :: next :: parts)) with (part +:+ String sep (str_join sep (next :: parts))).
  rewrite contains_char_app. cbn [contains_char]. intros [Hc|[Hc|Hc]%orb_true_iff]%orb_true_iff.
  - right. exists part. set_solver.
  - left. by apply Strings.Ascii.eqb_eq in Hc.
  - destruct (IH Hc) as [->|(held & Hheld & Hin)]; [by left|]. right. exists held. set_solver.
Qed.

(** What colored output shows, whatever follows it. *)
Definition shows (painted text : string) : Prop := forall rest, plain (painted +:+ rest) = text +:+ plain rest.

(** Runs joined by a quiet separator show their texts joined. *)
Lemma plain_join sep painted_parts parts rest :
  quiet (String sep "") ->
  Forall2 shows painted_parts parts ->
  plain (str_join sep painted_parts +:+ rest) = str_join sep parts +:+ plain rest.
Proof.
  intros Hsep Hparts. induction Hparts as [|painted text painted_parts parts Hpart Hparts IH]; [done|].
  destruct Hparts as [|next text' painted_parts parts Hnext Hparts].
  { apply Hpart. }
  change (str_join sep (painted :: next :: painted_parts)) with
    (painted +:+ String sep (str_join sep (next :: painted_parts))).
  change (str_join sep (text :: text' :: parts)) with (text +:+ String sep (str_join sep (text' :: parts))).
  rewrite !str_app_assoc, Hpart. f_equal. rewrite !str_app_cons, <- IH.
  apply (plain_quiet (String sep "") (str_join sep (next :: painted_parts) +:+ rest)). done.
Qed.

Section painting.
Context `{CompactJson}.

Lemma clean_app a b : clean a -> clean b -> clean (a +:+ b).
Proof.
  unfold clean, quiet. intros (Ha & Ha' & Ha'') (Hb & Hb' & Hb'').
  by rewrite !contains_char_app, Ha, Hb, Ha', Hb', Ha'', Hb''.
Qed.

Lemma clean_join parts : Forall clean parts -> clean (str_join "," parts).
Proof.
  intros Hparts. rewrite Forall_forall in Hparts.
  split_and!; apply not_true_is_false; intros [Hc|(part & Hin & Hc)]%contains_join; try done;
    destruct (Hparts part Hin) as (? & ? & ?); unfold quiet in *; congruence.
Qed.

Lemma well_written_items number items :
  well_written number (JArray items) -> Forall (well_written number) items.
Proof. induction items as [|item items IH]; [constructor|]. intros [? ?]. constructor; [done|]. by apply IH. Qed.

Lemma well_written_fields number fields :
  well_written number (JObject fields) -> Forall (fun entry => well_written number entry.2) fields.
Proof. induction fields as [|[name held] fields IH]; [constructor|]. intros [? ?]. constructor; [done|]. by apply IH. Qed.

Lemma json_line_clean value : well_written number_text value -> clean (json_line value).
Proof.
  induction value as [|held|number|held|items IHitems|fields IHfields] using jvalue_ind'.
  - intros _. by rewrite json_null.
  - intros _. rewrite json_bool. by destruct held.
  - intros Hnumber. rewrite json_number by done. by apply number_clean.
  - intros _. rewrite json_text. apply quoted_clean.
  - intros Hwell%well_written_items. rewrite json_array. apply clean_app; [done|].
    apply clean_app; [|done]. apply clean_join, Forall_fmap.
    eapply Forall_impl; [eapply Forall_and; split; [exact IHitems|exact Hwell]|]. cbn. intros item [IH Hitem]. by apply IH.
  - intros Hwell%well_written_fields. rewrite json_object. apply clean_app; [done|].
    apply clean_app; [|done]. apply clean_join, Forall_fmap.
    eapply Forall_impl; [eapply Forall_and; split; [exact IHfields|exact Hwell]|]. cbn. intros [name held] [IH Hitem].
    apply clean_app; [apply quoted_clean|]. apply clean_app; [done|]. by apply IH.
Qed.

Lemma text_style_ok text : style_ok (text_style text).
Proof. unfold text_style. repeat case_match; auto with ceres. Qed.

(** Taking the colors off a painted value leaves the line it was. *)
Lemma paint_plain value rest :
  well_written number_text value -> plain (paint value +:+ rest) = json_line value +:+ plain rest.
Proof.
  revert rest. induction value as [|held|number|held|items IHitems|fields IHfields] using jvalue_ind';
    intros rest Hwell; cbn [paint].
  - rewrite json_null. by rewrite plain_run by auto with ceres.
  - rewrite json_bool. destruct held; by rewrite plain_run by auto with ceres.
  - rewrite json_number by done. apply plain_run; [auto with ceres|]. by apply number_clean.
  - rewrite json_text. apply plain_run; [apply text_style_ok|]. apply quoted_clean.
  - apply well_written_items in Hwell. rewrite json_array. unfold enclosed. rewrite !str_app_assoc.
    rewrite plain_quiet by done. f_equal.
    rewrite (plain_join "," _ (json_line <$> items)); [|done|].
    { done. }
    change (List.map paint items) with (paint <$> items). rewrite Forall2_fmap.
    apply Forall_Forall2_diag. eapply Forall_impl; [eapply Forall_and; split; [exact IHitems|exact Hwell]|].
    cbn. intros item [IH Hitem] rest'. by apply IH.
  - apply well_written_fields in Hwell. rewrite json_object. unfold enclosed. rewrite !str_app_assoc.
    rewrite plain_quiet by done. f_equal.
    rewrite (plain_join "," _ ((fun '(name, held) => quoted name +:+ ":" +:+ json_line held) <$> fields)); [|done|].
    { done. }
    change (List.map ?f fields) with (fmap (M := list) f fields). rewrite Forall2_fmap.
    apply Forall_Forall2_diag. eapply Forall_impl; [eapply Forall_and; split; [exact IHfields|exact Hwell]|].
    cbn. intros [name held] [IH Hitem] rest'. rewrite !str_app_assoc.
    rewrite plain_run; [|auto with ceres|apply quoted_clean]. f_equal.
    rewrite plain_quiet by done. f_equal. by apply IH.
Qed.

Lemma split_inclusive_line line rest :
  clean line -> split_inclusive (line +:+ String newline rest) = (line +:+ line_end) :: split_inclusive rest.
Proof.
  intros (_ & Hline & _). induction line as [|c line IH]; [done|].
  cbn [contains_char] in Hline. apply orb_false_iff in Hline as [Hc Hline].
  rewrite !str_app_cons. cbn [split_inclusive]. by rewrite Hc, IH.
Qed.

Lemma trim_breaks_line line : clean line -> trim_breaks (line +:+ line_end) = (line, line_end).
Proof.
  intros (_ & Hline & Hreturn). induction line as [|c line IH]; [done|].
  cbn [contains_char] in *. apply orb_false_iff in Hline as [Hc Hline], Hreturn as [Hr Hreturn].
  rewrite str_app_cons. cbn [trim_breaks]. rewrite IH by done.
  destruct line; [|done]. unfold breaks. by rewrite Hc, Hr.
Qed.

(** JSON lines, painted. *)
Definition json_lines (values : list Jvalue) : string :=
  str_concat ((fun value => json_line value +:+ line_end) <$> values).

Lemma json_lines_cons value values : json_lines (value :: values) = json_line value +:+ String newline (json_lines values).
Proof. unfold json_lines, str_concat. cbn [fmap list_fmap foldr]. by rewrite str_app_assoc. Qed.

Lemma json_lines_quiet values : Forall (well_written number_text) values -> quiet (json_lines values).
Proof.
  unfold quiet. induction 1 as [|value values Hvalue _ IH]; [done|].
  rewrite json_lines_cons, contains_char_app. cbn [contains_char].
  destruct (json_line_clean value Hvalue) as (Hquiet & _). unfold quiet in Hquiet. by rewrite Hquiet, IH.
Qed.

Lemma painted_plain values : Forall (well_written number_text) values -> plain (painted (json_lines values)) = json_lines values.
Proof.
  intros Hvalues. unfold painted. destruct (is_utf8 (json_lines values)).
  - unfold paint_text. induction Hvalues as [|value values Hvalue Hvalues IH]; [done|].
    rewrite json_lines_cons, split_inclusive_line by (by apply json_line_clean).
    unfold str_concat. cbn [fmap list_fmap foldr]. fold (str_concat (paint_line <$> split_inclusive (json_lines values))).
    unfold paint_line at 1. rewrite trim_breaks_line by (by apply json_line_clean). rewrite json_read by done.
    rewrite str_app_assoc, paint_plain by done. f_equal.
    change (plain (String newline (str_concat (paint_line <$> split_inclusive (json_lines values)))) =
      String newline (json_lines values)).
    rewrite <- IH at 2. done.
  - rewrite <- (str_app_nil_r (json_lines values)), plain_quiet at 1 by (by apply json_lines_quiet). apply str_app_nil_r.
Qed.
End painting.

(** ** A table is a box *)

Lemma char_count_app a b : char_count (a +:+ b) = char_count a + char_count b.
Proof. induction a as [|c a IH]; [done|]. rewrite str_app_cons. cbn [char_count]. rewrite IH. lia. Qed.

Lemma char_count_spaces n : char_count (spaces n) = n.
Proof. induction n as [|n IH]; [done|]. cbn [spaces char_count]. rewrite IH. reflexivity. Qed.

Lemma char_count_rule n : char_count (rule n) = n.
Proof. induction n as [|n IH]; [done|]. cbn [rule]. rewrite char_count_app, IH. reflexivity. Qed.

Lemma quiet_append a b : quiet a -> quiet b -> quiet (a +:+ b).
Proof. unfold quiet. intros Ha Hb. by rewrite contains_char_app, Ha, Hb. Qed.

Lemma quiet_spaces n : quiet (spaces n).
Proof. induction n as [|n IH]; [done|]. exact IH. Qed.

Lemma quiet_rule n : quiet (rule n).
Proof. induction n as [|n IH]; [done|]. cbn [rule]. by apply quiet_append. Qed.

Lemma plain_of_quiet text : quiet text -> plain text = text.
Proof. intros Htext. rewrite <- (str_app_nil_r text), plain_quiet at 1 by done. apply str_app_nil_r. Qed.

(** The characters of parts joined. *)
Lemma char_count_join separator parts :
  char_count (join_with separator parts) =
    sum_list (char_count <$> parts) + (length parts - 1) * char_count separator.
Proof.
  induction parts as [|part parts IH]; [done|]. destruct parts as [|next parts].
  { cbn. lia. }
  change (join_with separator (part :: next :: parts)) with (part +:+ separator +:+ join_with separator (next :: parts)).
  rewrite !char_count_app, IH. cbn [fmap list_fmap sum_list length foldr].
  rewrite !Nat.sub_succ, !Nat.sub_0_r, Nat.mul_succ_l. unfold id. lia.
Qed.

(** The width of a box's lines. *)
Definition box_width (widths : list nat) : nat := sum_list widths + (length widths - 1) * 3 + 4.

Lemma border_width widths left junction right :
  widths <> [] -> char_count left = 1 -> char_count junction = 1 -> char_count right = 1 ->
  char_count (border widths left junction right) = box_width widths.
Proof.
  intros Hsome Hleft Hjunction Hright. unfold border, box_width.
  rewrite !char_count_app, char_count_join, Hleft, Hjunction, Hright, length_fmap, <- list_fmap_compose.
  assert (sum_list (char_count ∘ (fun width => rule (width + 2)) <$> widths) = sum_list widths + 2 * length widths) as ->.
  { clear. induction widths as [|width widths IH]; [done|]. cbn [fmap list_fmap sum_list length].
    rewrite IH. unfold compose, id. rewrite char_count_rule. lia. }
  destruct widths; [done|]. cbn [length]. lia.
Qed.

Lemma boxed_width cells widths :
  char_count <$> cells = widths -> char_count (boxed cells) = box_width widths.
Proof.
  intros <-. unfold boxed, box_width. rewrite !char_count_app, char_count_join, length_fmap.
  change (char_count "│ ") with 2. change (char_count " │ ") with 3. change (char_count " │") with 2. lia.
Qed.

Lemma pad_width value width : char_count value <= width -> char_count (pad value width) = width.
Proof. intros Hle. unfold pad. rewrite char_count_app, char_count_spaces. lia. Qed.

(** Cells whose colors show nothing. *)
Definition cell_ok (cell : Cell) : Prop :=
  quiet (cell_text cell) /\ match cell_style cell with Some style => style_ok style | None => True end.

Lemma paint_cell_plain padded style rest :
  quiet padded -> match style with Some style => style_ok style | None => True end ->
  plain (paint_cell padded style +:+ rest) = padded +:+ plain rest.
Proof.
  intros Hpadded Hstyle. destruct style as [style|]; cbn [paint_cell].
  - by apply (plain_run style padded).
  - by apply plain_quiet.
Qed.

Lemma plain_join_with separator painted_parts parts rest :
  quiet separator ->
  Forall2 shows painted_parts parts ->
  plain (join_with separator painted_parts +:+ rest) = join_with separator parts +:+ plain rest.
Proof.
  intros Hsep Hparts. revert rest. induction Hparts as [|painted text painted_parts parts Hpart Hparts IH]; intros rest; [done|].
  destruct Hparts as [|next text' painted_parts parts Hnext Hparts]; [apply Hpart|].
  change (join_with separator (painted :: next :: painted_parts)) with
    (painted +:+ separator +:+ join_with separator (next :: painted_parts)).
  change (join_with separator (text :: text' :: parts)) with (text +:+ separator +:+ join_with separator (text' :: parts)).
  rewrite !str_app_assoc, Hpart, plain_quiet by done. by rewrite IH.
Qed.

Lemma boxed_shows painted_parts parts : Forall2 shows painted_parts parts -> shows (boxed painted_parts) (boxed parts).
Proof.
  intros Hparts rest. unfold boxed. rewrite !str_app_assoc, plain_quiet by done.
  rewrite (plain_join_with " │ " painted_parts parts) by done. by rewrite plain_quiet.
Qed.

Lemma quiet_shows text : quiet text -> shows text text.
Proof. intros Htext rest. by apply plain_quiet. Qed.

Lemma aligned_plain color widths cells :
  Forall cell_ok cells ->
  Forall2 shows
    (aligned color widths cells) (aligned false widths cells).
Proof.
  revert cells. induction widths as [|width widths IH]; intros cells Hcells; [constructor|].
  assert (cell_ok (default no_cell (head cells))) as [Hquiet Hstyle] by (by destruct Hcells).
  cbn [aligned]. constructor; [|apply IH; by destruct Hcells].
  intros rest. apply paint_cell_plain.
  - apply quiet_append; [done|]. apply quiet_spaces.
  - by destruct color.
Qed.

Lemma header_plain color names widths :
  Forall quiet names ->
  Forall2 shows
    (zip_with (fun name width => paint_cell (pad name width) (if color : bool then Some HEADING else None)) names widths)
    (zip_with pad names widths).
Proof.
  intros Hnames. revert widths. induction Hnames as [|name names Hname Hnames IH]; intros [|width widths]; cbn; constructor.
  - intros rest. apply paint_cell_plain; [apply quiet_append; [done|]; apply quiet_spaces|].
    destruct color; [auto with ceres|done].
  - apply IH.
Qed.

(** Widths that hold a row's cells. *)
Fixpoint covers (widths : list nat) (cells : list Cell) : Prop :=
  match widths, cells with
  | width :: widths, cell :: cells => char_count (cell_text cell) <= width /\ covers widths cells
  | _, _ => True
  end.

Lemma le_all_refl widths : Forall2 le widths widths.
Proof. by apply Forall_Forall2_diag, Forall_true. Qed.

Lemma widen_le widths cells : Forall2 le widths (widen widths cells).
Proof.
  revert cells. induction widths as [|width widths IH]; intros [|cell cells]; cbn; [done|done|apply le_all_refl|].
  constructor; [lia|apply IH].
Qed.

Lemma widen_covers widths cells : covers (widen widths cells) cells.
Proof.
  revert cells. induction widths as [|width widths IH]; intros [|cell cells]; cbn; try done.
  split; [lia|apply IH].
Qed.

Lemma covers_le widths widths' cells : Forall2 le widths widths' -> covers widths cells -> covers widths' cells.
Proof.
  intros Hle. revert cells. induction Hle as [|width width' widths widths' Hwidth Hle IH]; intros [|cell cells]; cbn; try done.
  intros [? ?]. split; [lia|by apply IH].
Qed.

Lemma le_all_trans (a b c : list nat) : Forall2 le a b -> Forall2 le b c -> Forall2 le a c.
Proof.
  intros Hab. revert c. induction Hab; intros c Hbc; inversion Hbc; subst; constructor; [lia|auto].
Qed.

(** The widths hold every column's name and every row's cells. *)
Lemma widths_of_spec self :
  Forall2 le (char_count <$> table_columns self) (widths_of self) /\ Forall (covers (widths_of self)) (table_rows self).
Proof.
  unfold widths_of. generalize (char_count <$> table_columns self). induction (table_rows self) as [|row rows IH]; intros widths.
  { split; [apply le_all_refl|constructor]. }
  cbn [foldl]. destruct (IH (widen widths row)) as [Hle Hrows]. split.
  - by eapply le_all_trans; [apply widen_le|].
  - constructor; [|done]. by eapply covers_le; [done|apply widen_covers].
Qed.

Lemma aligned_widths widths cells : covers widths cells -> char_count <$> aligned false widths cells = widths.
Proof.
  revert cells. induction widths as [|width widths IH]; intros cells Hcovers; [done|].
  cbn [aligned fmap list_fmap paint_cell]. f_equal.
  - apply pad_width. destruct cells; [cbn; lia|]. apply Hcovers.
  - apply IH. destruct cells; [by destruct widths|]. apply Hcovers.
Qed.

Lemma header_widths names widths :
  Forall2 le (char_count <$> names) widths -> char_count <$> zip_with pad names widths = widths.
Proof.
  intros Hle. remember (char_count <$> names) as counts. revert names Heqcounts.
  induction Hle as [|count width counts widths Hcount Hle IH]; intros [|name names] [=]; [done|].
  subst. cbn [zip_with fmap list_fmap]. f_equal; [by apply pad_width|by apply IH].
Qed.

(** A drawn table shows the same lines in color and out of it, each as wide as
    the box. *)
Lemma render_square color self :
  title self = None -> table_columns self <> [] -> Forall quiet (table_columns self) -> Forall (Forall cell_ok) (table_rows self) ->
  Forall2 shows (render_lines color self) (render_lines false self) /\
  Forall (fun line => char_count line = box_width (widths_of self)) (render_lines false self) /\
  length (render_lines false self) = length (table_rows self) + 4.
Proof.
  intros Htitle Hcolumns Hnames Hrows. destruct (widths_of_spec self) as [Hle Hcovers].
  assert (widths_of self <> []) as Hsome.
  { intros Hnil. rewrite Hnil in Hle. apply Forall2_length in Hle. rewrite length_fmap in Hle. by destruct (table_columns self). }
  assert (forall left junction right, quiet left -> quiet junction -> quiet right ->
    shows (border (widths_of self) left junction right) (border (widths_of self) left junction right)) as Hborder.
  { intros left junction right Hleft Hjunction Hright. apply quiet_shows. unfold border.
    apply quiet_append; [done|]. apply quiet_append; [|done].
    generalize (widths_of self). intros widths. induction widths as [|width [|next widths] IH]; [done|apply quiet_rule|].
    cbn [fmap list_fmap join_with]. apply quiet_append; [apply quiet_rule|]. by apply quiet_append. }
  assert (zip_with (fun name width => paint_cell (pad name width) None) (table_columns self) (widths_of self) =
    zip_with pad (table_columns self) (widths_of self)) as Hplain by done.
  unfold render_lines. rewrite Htitle. cbn [app]. split_and!.
  - repeat constructor; [by apply Hborder| |by apply Hborder|].
    + unfold header_line. rewrite Hplain. by apply boxed_shows, header_plain.
    + apply Forall2_app; [|by repeat constructor; apply Hborder].
      rewrite Forall2_fmap. apply Forall_Forall2_diag. eapply Forall_impl; [exact Hrows|].
      intros row Hrow. by apply boxed_shows, aligned_plain.
  - repeat constructor; [by apply border_width| |by apply border_width|].
    + unfold header_line. rewrite Hplain. by apply boxed_width, header_widths.
    + apply Forall_app. split; [|by repeat constructor; apply border_width].
      apply Forall_fmap. eapply Forall_impl; [exact Hcovers|].
      intros row Hrow. by apply boxed_width, aligned_widths.
  - cbn [length]. rewrite length_app, length_fmap. cbn [length]. lia.
Qed.

(** ** Rows drawn *)

Lemma contains_spelled c code :
  (0 <= code < 256)%Z -> c ∈ [escape; newline; return_] -> contains_char c (spelled code) = false.
Proof.
  intros Hcode Hc. unfold spelled.
  assert (forall digit, (0 <= digit < 16)%Z -> Strings.Ascii.eqb (hex_low digit) c = false) as Hdigit.
  { intros digit Hdigit. assert (forallb (fun c => forallb (fun digit => negb (Strings.Ascii.eqb (hex_low digit) c)) (seqZ 0 16))
      [escape; newline; return_] = true) as Hall by (vm_compute; reflexivity).
    rewrite forallb_forall in Hall. specialize (Hall c (proj1 (list_elem_of_In _ _) Hc)).
    rewrite forallb_forall in Hall. apply negb_true_iff, Hall, list_elem_of_In, elem_of_seqZ. lia. }
  rewrite contains_char_app. cbn [contains_char].
  rewrite !Hdigit; [|apply Z.mod_pos_bound; lia|split; [apply Z.div_pos; lia|apply Z.div_lt_upper_bound; lia]].
  repeat (apply elem_of_cons in Hc as [->|Hc]; [done|]). by apply not_elem_of_nil in Hc.
Qed.

Lemma byte_of_range c : (0 <= byte_of c < 256)%Z.
Proof. unfold byte_of. pose proof (Strings.Ascii.nat_ascii_bounded c). lia. Qed.

Lemma shown_char_clean c k : k ∈ [escape; newline; return_] -> contains_char k (shown_char c) = false.
Proof.
  intros Hk. unfold shown_char.
  destruct (Strings.Ascii.eqb c newline) eqn:Hline.
  { repeat (apply elem_of_cons in Hk as [->|Hk]; [done|]). by apply not_elem_of_nil in Hk. }
  destruct (Strings.Ascii.eqb c return_) eqn:Hreturn.
  { repeat (apply elem_of_cons in Hk as [->|Hk]; [done|]). by apply not_elem_of_nil in Hk. }
  destruct (Strings.Ascii.eqb c (Strings.Ascii.ascii_of_nat 9)) eqn:Htab.
  { repeat (apply elem_of_cons in Hk as [->|Hk]; [done|]). by apply not_elem_of_nil in Hk. }
  destruct (control c) eqn:Hcontrol; [apply contains_spelled; [apply byte_of_range|done]|].
  cbn [contains_char]. rewrite orb_false_r. apply not_true_is_false. intros ->%Strings.Ascii.eqb_eq.
  repeat (apply elem_of_cons in Hk as [->|Hk]; [done|]). by apply not_elem_of_nil in Hk.
Qed.

(** Nothing printed in a cell breaks a row or opens an escape. *)
Lemma printable_clean text : clean (printable text).
Proof.
  assert (forall k, k ∈ [escape; newline; return_] ->
    contains_char k (printable text) = false /\ forall c, contains_char k (printable (String c text)) = false) as Hall.
  { intros k Hk. induction text as [|c text [IH IHc]].
    { split; [done|]. intros c. by apply shown_char_clean. }
    split; [apply IHc|]. intros first.
    change (printable (String first (String c text))) with
      (if late_control first c then spelled (byte_of c) +:+ printable text
       else shown_char first +:+ printable (String c text)).
    destruct (late_control first c); rewrite contains_char_app.
    - rewrite contains_spelled by (done || apply byte_of_range). apply IH.
    - rewrite shown_char_clean by done. apply IHc. }
  unfold clean, quiet. split_and!; apply Hall; set_solver.
Qed.

Lemma clean_spaces n : clean (spaces n).
Proof. induction n as [|n IH]; [done|]. by apply (clean_app " "). Qed.

Lemma clean_rule n : clean (rule n).
Proof. induction n as [|n IH]; [done|]. by apply (clean_app "─"). Qed.

Lemma clean_join_with separator parts : clean separator -> Forall clean parts -> clean (join_with separator parts).
Proof.
  intros Hsep. induction 1 as [|part [|next parts] Hpart Hparts IH]; [done|done|].
  by apply clean_app, clean_app.
Qed.

Lemma clean_boxed cells : Forall clean cells -> clean (boxed cells).
Proof. intros Hcells. apply clean_app; [done|]. apply clean_app; [|done]. by apply clean_join_with. Qed.

Lemma clean_pad value width : clean value -> clean (pad value width).
Proof. intros Hvalue. apply clean_app; [done|apply clean_spaces]. Qed.

Lemma clean_border widths left junction right :
  clean left -> clean junction -> clean right -> clean (border widths left junction right).
Proof.
  intros Hleft Hjunction Hright. apply clean_app; [done|]. apply clean_app; [|done].
  apply clean_join_with; [done|]. apply Forall_fmap, Forall_true. intros width. apply clean_rule.
Qed.

Lemma render_lines_clean self :
  title self = None -> Forall clean (table_columns self) -> Forall (Forall (fun cell => clean (cell_text cell))) (table_rows self) ->
  Forall clean (render_lines false self).
Proof.
  intros Htitle Hnames Hrows. unfold render_lines. rewrite Htitle. cbn [app].
  assert (forall left junction right, clean left -> clean junction -> clean right ->
    clean (border (widths_of self) left junction right)) as Hborder by (intros; by apply clean_border).
  apply Forall_cons. split; [by apply Hborder|]. apply Forall_cons. split; [|apply Forall_cons; split; [by apply Hborder|]].
  - apply clean_boxed. generalize (widths_of self). induction Hnames as [|name names Hname Hnames IH]; intros [|width widths]; cbn; constructor; [by apply clean_pad|apply IH].
  - apply Forall_app. split; [|by apply Forall_singleton, Hborder].
    apply Forall_fmap. eapply Forall_impl; [exact Hrows|]. intros row Hrow. apply clean_boxed.
    generalize (widths_of self). intros widths. revert row Hrow.
    induction widths as [|width widths IH]; intros row Hrow; [constructor|]. cbn [aligned]. constructor.
    + apply clean_pad. by destruct Hrow.
    + apply IH. by destruct Hrow.
Qed.

(** Out of color a table draws its texts alone. *)
Definition erase (cell : Cell) : Cell := {| cell_text := cell_text cell; cell_style := None |}.
Definition erased (self : Table) : Table :=
  {| title := title self; table_columns := table_columns self; table_rows := fmap (M := list) erase <$> table_rows self |}.

Lemma widths_erased self : widths_of (erased self) = widths_of self.
Proof.
  unfold widths_of. cbn [erased table_columns table_rows]. generalize (char_count <$> table_columns self).
  induction (table_rows self) as [|row rows IH]; intros widths; [done|]. cbn [fmap list_fmap foldl].
  assert (widen widths (erase <$> row) = widen widths row) as ->; [|apply IH].
  revert row. induction widths as [|width widths IHw]; intros [|cell row]; try done. cbn. by rewrite IHw.
Qed.

Lemma aligned_erased widths row : aligned false widths (erase <$> row) = aligned false widths row.
Proof.
  revert row. induction widths as [|width widths IH]; intros [|cell row]; cbn [aligned fmap list_fmap tail]; try done; f_equal.
  apply IH.
Qed.

Lemma render_erased self : render_lines false (erased self) = render_lines false self.
Proof.
  unfold render_lines, header_line. rewrite widths_erased. cbn [erased title table_columns table_rows].
  assert (forall widths, (fun row => boxed (aligned false widths row)) <$> (fmap (M := list) erase <$> table_rows self) =
    (fun row => boxed (aligned false widths row)) <$> table_rows self) as ->; [|done].
  intros widths. rewrite <- list_fmap_compose. apply list_fmap_ext. intros i row _. unfold compose. by rewrite aligned_erased.
Qed.

Section drawn.
Context `{Painters} `{JsonText}.

Lemma value_cell_ok color row column :
  clean (cell_text (value_cell color row column)) /\ cell_ok (value_cell color row column).
Proof.
  assert (forall text value, clean (printable text) /\
    cell_ok {| cell_text := printable text; cell_style := if color then style value else None |}) as Hall.
  { intros text value. split; [apply printable_clean|]. split; [apply printable_clean|]. cbn.
    destruct color; [|done]. destruct value as [|[]| |text'| |]; cbn; auto with ceres.
    unfold text_style. repeat case_match; auto with ceres. }
  unfold value_cell. destruct (jget column row) as [[]|]; try apply Hall; by split.
Qed.

Lemma table_of_erased color rows : erased (table_of color rows) = erased (table_of false rows).
Proof.
  unfold erased, table_of. cbn [title table_columns table_rows]. f_equal. rewrite <- !list_fmap_compose. apply list_fmap_ext.
  intros i row _. unfold compose. rewrite <- !list_fmap_compose. apply list_fmap_ext. intros j column _.
  unfold compose, value_cell, erase. by destruct (jget column row) as [[]|].
Qed.

(** A table of rows holds one line for each, every line as wide as the box
    whatever the cells hold, and shows the same in color as out of it. *)
Lemma table_drawn rendered color :
  let rows := read_rows rendered in
  let bare := table_of false rows in
  columns_of rows <> [] -> Forall clean (columns_of rows) ->
  plain (tabulate rendered color) = tabulate rendered false /\
  str_split newline (tabulate rendered false) = render_lines false bare ++ [""] /\
  length (render_lines false bare) = length rows + 4 /\
  Forall (fun line => char_count line = box_width (widths_of bare)) (render_lines false bare).
Proof.
  intros rows bare Hsome Hnames.
  assert (forall color, tabulate rendered color = render color (table_of color rows) +:+ line_end) as Htabulate.
  { intros paints. unfold tabulate. fold rows. by destruct (columns_of rows). }
  assert (forall color, Forall (Forall cell_ok) (table_rows (table_of color rows))) as Hcells.
  { intros paints. apply Forall_fmap, Forall_true. intros row. apply Forall_fmap, Forall_true. intros column. apply value_cell_ok. }
  assert (Forall quiet (columns_of rows)) as Hquiet by (eapply Forall_impl; [exact Hnames|]; by intros name [? _]).
  destruct (render_square color (table_of color rows) eq_refl Hsome Hquiet (Hcells color)) as (Hshows & _ & _).
  destruct (render_square false bare eq_refl Hsome Hquiet (Hcells false)) as (_ & Hwidth & Hlength).
  assert (Forall clean (render_lines false bare)) as Hclean.
  { apply render_lines_clean; [done|done|].
    apply Forall_fmap, Forall_true. intros row. apply Forall_fmap, Forall_true. intros column. apply value_cell_ok. }
  split_and!; [| |by unfold bare in Hlength; cbn [table_of table_rows] in Hlength; rewrite length_fmap in Hlength|done].
  - rewrite !Htabulate. unfold render. rewrite (plain_join newline _ (render_lines false (table_of color rows))) by done.
    rewrite <- (render_erased (table_of color rows)), table_of_erased, render_erased. done.
  - rewrite Htabulate. unfold render. fold bare.
    assert (render_lines false bare <> []) as Hlines by (intros Hnil; rewrite Hnil in Hlength; cbn in Hlength; lia).
    clear -Hclean Hlines. induction Hclean as [|line [|next lines] (_ & Hline & _) Hlines' IH]; [done| |].
    + by apply str_split_app.
    + change (str_join newline (line :: next :: lines)) with (line +:+ String newline (str_join newline (next :: lines))).
      rewrite str_app_assoc, str_app_cons, str_split_app by done. by rewrite IH.
Qed.
End drawn.
