(* ===== verification/Dump.v ===== *)
(** * What a table command does

    [ceres-cli/src/commands/dump.rs]: an invocation, the output a dump
    streams to ([Sink]), and a verb's run over the store. The world a command
    runs in is the database, the output files and standard output, the faults
    the system answers its calls with, and the lines typed at the prompt. The
    stream of [ceres-database/src/backend.rs] and of [turso.rs] that feeds the
    sink is here as well. *)
From S2P Require Import Prelude.
From stdpp Require Import pretty.
From S2P Require Import Text Wire Schema Json Rows Load Surface Screen.
Local Open Scope string_scope.
Local Open Scope list_scope.

(** ** Verbs and invocations *)

Inductive Verb := SelectVerb | CountVerb | AnyVerb | CreateVerb | UpdateVerb | DeleteVerb | LoadVerb | FollowVerb.

#[export] Instance verb_eq_dec : EqDecision Verb.
Proof. solve_decision. Defined.

(** [Verb::parse], [streams], [writes], [filters] and [confirms]. *)
Definition verb_parse (name : string) : option Verb :=
  if decide (name = "select") then Some SelectVerb
  else if decide (name = "count") then Some CountVerb
  else if decide (name = "any") then Some AnyVerb
  else if decide (name = "create") then Some CreateVerb
  else if decide (name = "update") then Some UpdateVerb
  else if decide (name = "delete") then Some DeleteVerb
  else if decide (name = "load") then Some LoadVerb
  else if decide (name = "follow") then Some FollowVerb
  else None.

Definition verb_streams (self : Verb) : bool := bool_decide (self = FollowVerb).
Definition verb_writes (self : Verb) : bool :=
  match self with CreateVerb | UpdateVerb | DeleteVerb | LoadVerb => true | _ => false end.
Definition verb_filters (self : Verb) : bool := match self with CreateVerb | LoadVerb => false | _ => true end.
Definition verb_confirms (self : Verb) : bool := match self with UpdateVerb | DeleteVerb => true | _ => false end.

(** [LoadExport], its modes by name. *)
Record LoadExport := { export_on_conflict : option string; export_range : option string }.

Record Invocation := {
  verb : Verb;
  wire_pairs : list (string * string);
  output : option string;
  format_name : option string;
  with_header : bool;
  confirm : bool;
  collect : bool;
  set_object : option string;
  on_conflict : option string;
  source_path : option string;
  export : option LoadExport;
  projected : list (string * string)
}.

(** [rsplit_once] of a character. *)
Fixpoint split_last (c : ascii) (text : string) : option (string * string) :=
  match text with
  | EmptyString => None
  | String a text =>
      match split_last c text with
      | Some (before, after) => Some (String a before, after)
      | None => if Strings.Ascii.eqb a c then Some ("", text) else None
      end
  end.

(** [projection]: one spec, and all of them. *)
Fixpoint project_spec (field alias : string) (projection : list (string * string)) : list (string * string) :=
  match projection with
  | [] => [(field, alias)]
  | (held, name) :: projection =>
      if decide (name = alias) then (field, name) :: projection else (held, name) :: project_spec field alias projection
  end.

Definition projection (matches_ : ArgMatches) : list (string * string) :=
  let read id := default [] (get_many matches_ id) in
  let specs := filter (fun spec => spec <> "") (trim <$> ((read "fields" ++ read "field") ≫= str_split ",")) in
  foldl (fun projection spec =>
    let (alias, field) := default (spec, spec) (split_last ":" spec) in
    project_spec field alias projection) [] specs.

(** [Invocation::read]. *)
Definition invocation_read (table : Group) (verb : Verb) (matches_ : ArgMatches) : Invocation :=
  let (keys, shape) :=
    match verb with
    | CreateVerb => (group_columns table, Valued)
    | LoadVerb => ([], Bare)
    | _ => (group_keys table, Bare)
    end in
  let text := get_one matches_ in
  let flag := get_flag matches_ in
  {| verb := verb; wire_pairs := pairs keys matches_ shape; output := text "output"; format_name := text "format";
     with_header := negb (flag "no-header"); confirm := negb (flag "no-confirm"); collect := flag "collect";
     set_object := text "set"; on_conflict := text "on_conflict"; source_path := text "path";
     export := if flag "export" then
       Some {| export_on_conflict := text "on_export_conflict"; export_range := text "export_range_mode" |} else None;
     projected := projection matches_ |}.

(** [Invocation::conflict]. *)
Definition invocation_conflict (self : Invocation) : option Conflict :=
  match on_conflict self with Some mode => conflict_parse mode | None => Some OnError end.

(** [Path::extension] of a path's text. *)
Definition file_name (path : string) : option string :=
  name ← last (filter (fun part => part <> "" /\ part <> ".") (str_split "/" path));
  if decide (name = "..") then None else Some name.
Definition extension (path : string) : option string :=
  match file_name path ≫= split_last "." with
  | Some (stem, suffix) => if decide (stem = "") then None else Some suffix
  | None => None
  end.

Inductive DumpFormat := JsonDump | CsvDump | TableDump.

#[export] Instance dump_format_eq_dec : EqDecision DumpFormat.
Proof. solve_decision. Defined.

(** [Invocation::dump_format] and [colored]. *)
Definition dump_format (self : Invocation) : DumpFormat :=
  match format_name self with
  | Some name => if decide (name = "csv") then CsvDump else if decide (name = "table") then TableDump else JsonDump
  | None =>
      match output self ≫= extension with
      | Some suffix => if decide (suffix = "csv") then CsvDump else JsonDump
      | None => JsonDump
      end
  end.

(** What decides color: the flag, [NO_COLOR], [FORCE_COLOR], and whether
    standard output is a terminal. *)
Record Surroundings := { no_color : bool; force_color : bool; stdout_terminal : bool; stdin_terminal : bool }.

Definition colored (around : Surroundings) (color : option bool) : bool :=
  match color with
  | Some color => color
  | None => if no_color around then false else if force_color around then true else stdout_terminal around
  end.

Definition invocation_colored (around : Surroundings) (self : Invocation) (color : option bool) : bool :=
  match output self with None => colored around color | Some _ => false end.

(** ** The world of a command *)

Record IoError := { broken_pipe : bool; io_text : string }.

(** What the system answers a call: done, or an error after some bytes. *)
Inductive Fault := Done | Cut (written : nat) (error : IoError).

Record World (Db : Type) := {
  db : Db;
  stdout : string;
  outputs : gmap string string;
  faults : list Fault;
  typed : list (result string IoError);
  asked : list string
}.
Arguments db {Db}. Arguments stdout {Db}. Arguments outputs {Db}.
Arguments faults {Db}. Arguments typed {Db}. Arguments asked {Db}.

Definition Run (Db A : Type) : Type := World Db -> A * World Db.

Definition ret {Db A} (a : A) : Run Db A := fun world => (a, world).
Definition and_then {Db A B} (m : Run Db A) (k : A -> Run Db B) : Run Db B :=
  fun world => let (a, world) := m world in k a world.

Declare Scope dump_scope.
Notation "'let%' x ':=' m 'in' k" := (and_then m (fun x => k))
  (at level 200, x pattern, m at level 100, k at level 200, right associativity) : dump_scope.
Local Open Scope dump_scope.

Section world.
Context {Db : Type}.

Definition next_fault : Run Db Fault := fun world =>
  match faults world with
  | [] => (Done, world)
  | fault :: rest =>
      (fault, {| db := db world; stdout := stdout world; outputs := outputs world; faults := rest;
                 typed := typed world; asked := asked world |})
  end.

(** Bytes reaching a destination. *)
Definition put (path : option string) (bytes : string) : Run Db unit := fun world =>
  (tt, match path with
       | None => {| db := db world; stdout := stdout world +:+ bytes; outputs := outputs world;
                    faults := faults world; typed := typed world; asked := asked world |}
       | Some path => {| db := db world; stdout := stdout world;
                    outputs := <[path := default "" (outputs world !! path) +:+ bytes]> (outputs world);
                    faults := faults world; typed := typed world; asked := asked world |}
       end).

(** [File::create]: the file is empty from here on. *)
Definition create_file (path : string) : Run Db (result unit IoError) :=
  let% fault := next_fault in
  match fault with
  | Cut _ error => ret (Err error)
  | Done => fun world =>
      (Ok tt, {| db := db world; stdout := stdout world; outputs := <[path := ""]> (outputs world);
                 faults := faults world; typed := typed world; asked := asked world |})
  end.

(** [write_all], and the flush after it. *)
Definition send_bytes (path : option string) (bytes : string) : Run Db (result unit IoError) :=
  let% fault := next_fault in
  match fault with
  | Done => let% _ := put path bytes in ret (Ok tt)
  | Cut written error => let% _ := put path (Strings.String.substring 0 written bytes) in ret (Err error)
  end.

(** A step of the store: it reads the database and may change it. *)
Definition on_db {A} (step : Db -> A * Db) : Run Db A := fun world =>
  let (answer, db') := step (db world) in
  (answer, {| db := db'; stdout := stdout world; outputs := outputs world; faults := faults world;
              typed := typed world; asked := asked world |}).

Definition ask_line (prompt : string) : Run Db (result string IoError) := fun world =>
  let world' rest := {| db := db world; stdout := stdout world; outputs := outputs world; faults := faults world;
                        typed := rest; asked := asked world ++ [prompt] |} in
  match typed world with
  | [] => (Ok "", world' [])
  | line :: rest => (line, world' rest)
  end.
End world.

(** ** The store's errors and streams *)

(** [ceres_database::Error], a refusal apart from what failed, each with its
    message. *)
Inductive DbError := DbRefused (message : string) | DbFailed (message : string).

Definition db_error_text (self : DbError) : string :=
  match self with DbRefused message | DbFailed message => message end.

(** [written]. *)
Definition written (error : IoError) : DbError := DbFailed (io_text error).

Definition CHUNK : nat := 1000.
Arguments CHUNK : simpl never.

Section streams.
Context {Db R B S : Type} (decode : list R -> result B DbError) (sink : S -> B -> Run Db (result unit DbError * S)).

(** A chunk decoded and handed over. *)
Definition hand_over (state : S) (rows : list R) : Run Db (result unit DbError * S) :=
  match decode rows with
  | Err error => ret (Err error, state)
  | Ok batch => sink state batch
  end.

(** [drain] of [backend.rs], over what the cursor yields. *)
Fixpoint drain (cursor : list (result R DbError)) (buffer : list R) (sent : bool) (state : S) :
    Run Db (result unit DbError * S) :=
  match cursor with
  | [] =>
      match buffer, sent with
      | [], true => ret (Ok tt, state)
      | _, _ => hand_over state buffer
      end
  | Err error :: _ => ret (Err error, state)
  | Ok row :: cursor =>
      let buffer := buffer ++ [row] in
      if (length buffer =? CHUNK)%nat then
        let% handed := hand_over state buffer in
        match handed with
        | (Err error, state) => ret (Err error, state)
        | (Ok _, state) => drain cursor [] true state
        end
      else drain cursor buffer sent state
  end.

(** [collect] of [turso.rs], its cursor: rows until a chunk is full, the
    cursor spent, or a failure. *)
Fixpoint take_rows (limit : nat) (cursor : list (result R DbError)) :
    list R * option DbError * list (result R DbError) :=
  match limit, cursor with
  | O, _ | _, [] => ([], None, cursor)
  | _, Err error :: cursor => ([], Some error, cursor)
  | Datatypes.S limit, Ok row :: cursor =>
      let '(rows, failed, cursor) := take_rows limit cursor in (row :: rows, failed, cursor)
  end.

(** [stream] of [turso.rs]: chunks until one that is not full. Each full chunk
    takes rows off the cursor, so its length is fuel enough. *)
Fixpoint turso_stream (fuel : nat) (cursor : list (result R DbError)) (state : S) :
    Run Db (result unit DbError * S) :=
  match fuel with
  | O => ret (Ok tt, state)
  | Datatypes.S fuel =>
      match take_rows CHUNK cursor with
      | (rows, Some error, _) =>
          (* Each row decodes before the next is fetched. *)
          ret (Err (match decode rows with Err first => first | Ok _ => error end), state)
      | (rows, None, cursor) =>
          let% handed := hand_over state rows in
          match handed with
          | (Err error, state) => ret (Err error, state)
          | (Ok _, state) => if (length rows =? CHUNK)%nat then turso_stream fuel cursor state else ret (Ok tt, state)
          end
      end
  end.
End streams.

(** ** The sink *)

Record Sink := {
  sink_output : option string;
  hold : bool;
  held : option string;
  destination : bool;
  sink_heading : bool;
  broke : bool;
  accumulate : bool
}.

(** [Sink::new], [live] and [collecting]. *)
Definition sink_new (output : option string) (header : bool) : Sink :=
  {| sink_output := output; hold := true; held := None; destination := false; sink_heading := header; broke := false;
     accumulate := false |}.
Definition sink_live (output : option string) (header : bool) : Sink :=
  {| sink_output := output; hold := false; held := None; destination := false; sink_heading := header; broke := false;
     accumulate := false |}.
Definition sink_collecting : Sink :=
  {| sink_output := None; hold := true; held := None; destination := false; sink_heading := false; broke := false;
     accumulate := true |}.

Definition with_held (self : Sink) (value : option string) : Sink :=
  {| sink_output := sink_output self; hold := hold self; held := value; destination := destination self;
     sink_heading := sink_heading self; broke := broke self; accumulate := accumulate self |}.
Definition opened (self : Sink) : Sink :=
  {| sink_output := sink_output self; hold := hold self; held := held self; destination := true;
     sink_heading := sink_heading self; broke := broke self; accumulate := accumulate self |}.
Definition with_broke (self : Sink) : Sink :=
  {| sink_output := sink_output self; hold := hold self; held := held self; destination := destination self;
     sink_heading := sink_heading self; broke := true; accumulate := accumulate self |}.
(** [mem::take] of the heading. *)
Definition headed (self : Sink) : Sink :=
  {| sink_output := sink_output self; hold := hold self; held := held self; destination := destination self;
     sink_heading := false; broke := broke self; accumulate := accumulate self |}.

(** [Rendered]. *)
Inductive Rendered :=
  | Bytes (bytes : string)
  | AnswerText (text : string)
  | Exists_ (exists_ : bool)
  | Written
  | Declined
  | Failed (message : string).

(** [Exit]. *)
Record Exit := { status : Z; message : option string }.

Section sink.
Context {Db : Type}.

(** [Sink::write]. *)
Definition sink_open (self : Sink) : Run Db (result unit IoError) :=
  if destination self then ret (Ok tt)
  else match sink_output self with
  | Some path => create_file path
  | None => ret (Ok tt)
  end.

Definition sink_write (self : Sink) (bytes : string) : Run Db (result unit IoError * Sink) :=
  let% answer := sink_open self in
  match answer with
  | Err error => ret (Err error, self)
  | Ok _ =>
      let self := opened self in
      let% sent := send_bytes (sink_output self) bytes in
      ret (sent, match sent with
                 | Err error => if broken_pipe error then with_broke self else self
                 | Ok _ => self
                 end)
  end.

(** [Sink::push]. *)
Definition sink_push (self : Sink) (rendered : string) : Run Db (result unit IoError * Sink) :=
  if accumulate self then ret (Ok tt, with_held self (Some (default "" (held self) +:+ rendered)))
  else if negb (hold self) then sink_write self rendered
  else match held self with
  | None => ret (Ok tt, with_held self (Some rendered))
  | Some previous => sink_write (with_held self (Some rendered)) previous
  end.

(** [Sink::finish]. *)
Definition sink_finish (self : Sink) : Run Db (result (option string) IoError) :=
  if destination self then
    match held self with
    | None => ret (Ok None)
    | Some bytes =>
        let% sent := sink_write (with_held self None) bytes in
        match sent with
        | (Err error, _) => ret (Err error)
        | (Ok _, _) => ret (Ok None)
        end
    end
  else ret (Ok (held self)).

(** [Sink::resolve]. *)
Definition sink_resolve (self : Sink) (outcome : result unit DbError) : Run Db (result Rendered DbError) :=
  match outcome with
  | Ok _ =>
      let% finished := sink_finish self in
      match finished with
      | Ok (Some bytes) => ret (Ok (Bytes bytes))
      | Ok None => ret (Ok Written)
      | Err error => if broken_pipe error then ret (Ok Written) else ret (Err (written error))
      end
  | Err error =>
      if broke self then ret (Ok Written)
      else if destination self then ret (Ok (Failed (db_error_text error)))
      else ret (Err error)
  end.
End sink.

(** ** Rendering and delivering *)

Section commands.
Context {Db : Type} `{Painters} `{JsonText}.

(** [DumpFormat::paint], [Rendered::drawn], [exists] and [into_bytes]. *)
Definition format_paint (format : DumpFormat) (bytes : string) (colored : bool) : string :=
  if colored && bool_decide (format = JsonDump) then painted bytes else bytes.

Definition drawn (self : Rendered) (format : DumpFormat) (colored : bool) : Rendered :=
  match format, self with
  | TableDump, Bytes bytes => Bytes (tabulate bytes colored)
  | _, _ => self
  end.

Definition rendered_exists (self : Rendered) : option bool :=
  match self with Exists_ exists_ => Some exists_ | _ => None end.

Definition into_bytes (self : Rendered) : string :=
  match self with
  | Bytes bytes | AnswerText bytes => bytes
  | Exists_ true => "true" +:+ line_end
  | Exists_ false => "false" +:+ line_end
  | Written | Failed _ | Declined => ""
  end.

(** [render], of rows of one table. *)
Definition dump_render {T} `{!Serialize T} (batch : list T) (format : DumpFormat)
    (projection : list (string * string)) (header colored : bool) : result string DbError :=
  let rendered :=
    match format, projection with
    | (TableDump | JsonDump), [] => to_json_lines batch
    | (TableDump | JsonDump), _ => to_json_lines_projected batch projection
    | CsvDump, [] => to_csv_lines batch header
    | CsvDump, _ => to_csv_lines_projected batch projection header
    end in
  match rendered with
  | Ok bytes => Ok (format_paint format bytes colored)
  | Err error => Err (DbFailed error)
  end.

(** [prettify] of [error.rs]: [to_string_pretty] of a message that is JSON. *)
Context (to_string_pretty : Jvalue -> option string).

Definition prettify (message : string) : string :=
  match from_str message with
  | Some value => default message (to_string_pretty value)
  | None => message
  end.

(** [Exit::failed] and [Exit::status]. *)
Definition exit_failed (message : string) : Exit := {| status := 1; message := Some (prettify message) |}.
Definition exit_status (status : Z) : Exit := {| status := status; message := None |}.

(** [write_output]: standard output's own failures are passed over. *)
Definition write_output (output : option string) (rendered : string) : Run Db (result unit Exit) :=
  match output with
  | Some path =>
      let% created := create_file path in
      let failing error := ret (Err (exit_failed ("Cannot write " +:+ path +:+ ". " +:+ io_text error))) in
      match created with
      | Err error => failing error
      | Ok _ =>
          let% sent := send_bytes (Some path) rendered in
          match sent with Err error => failing error | Ok _ => ret (Ok tt) end
      end
  | None =>
      let% _ := send_bytes None rendered in
      ret (Ok tt)
  end.

(** [deliver]. *)
Definition deliver (invocation : Invocation) (rendered : Rendered) (colored : bool) : Run Db (result unit Exit) :=
  match rendered with
  | Written => ret (Ok tt)
  | Declined => ret (Err (exit_failed "Cancelled."))
  | Failed message => ret (Err (exit_failed message))
  | _ =>
      let answer := match rendered with AnswerText _ | Exists_ _ => true | _ => false end in
      let bytes := if colored && answer then painted (into_bytes rendered) else into_bytes rendered in
      let% delivered := write_output (output invocation) bytes in
      match delivered with
      | Err exit => ret (Err exit)
      | Ok _ =>
          match rendered_exists rendered with
          | Some false => ret (Err (exit_status 1))
          | _ => ret (Ok tt)
          end
      end
  end.

(** [confirmed]. *)
Definition confirmed (around : Surroundings) (verb : Verb) (affected : Z) (plural : string) :
    Run Db (result bool string) :=
  let ask doing lower :=
    if negb (stdin_terminal around) then
      ret (Err ("This would " +:+ lower +:+ " " +:+ pretty affected +:+ " " +:+ plural +:+
        ", and there is no terminal to confirm at. Pass --no-confirm to go ahead without asking."))
    else
      let% fault := next_fault in
      match fault with
      | Cut _ error => ret (Err ("Cannot ask for confirmation. " +:+ io_text error))
      | Done =>
          let% line := ask_line (doing +:+ " " +:+ pretty affected +:+ " " +:+ plural +:+ "? [y/N] ") in
          match line with
          | Err error => ret (Err ("Cannot read an answer. " +:+ io_text error))
          | Ok answer => ret (Ok (bool_decide (to_lowercase (trim answer) ∈ ["y"; "yes"])))
          end
      end in
  match verb with
  | UpdateVerb => ask "Update" "update"
  | DeleteVerb => ask "Delete" "delete"
  | _ => ret (Ok true)
  end.
End commands.

(** ** A run over the store *)

(** [Dumpable]: one half of the table split, over a store whose methods are
    the statements modelled with the database. The rows a cursor yields decode
    into those of one table. *)
Class Dumpable (Db Filter R T Spans : Type) := {
  surface : Group;
  table_name : string;
  dump_serves : Invocation -> bool;
  dump_parse : list (string * string) -> result Filter Refusal;
  dump_build : list (string * string) -> result (list T) string;
  dump_batches : string -> LoadFormat -> result (option (list (result (list T) string))) string;
  dump_open : bool -> result unit string;
  dump_limit : Filter -> option Z;
  dump_turso : bool;
  dump_cursor : Filter -> Db -> result (list (result R DbError)) DbError;
  dump_decode : list R -> result (list T) DbError;
  dump_count : Filter -> Db -> result Z DbError;
  dump_any : Filter -> Db -> result bool DbError;
  dump_delete : Filter -> Db -> result Z DbError * Db;
  dump_delete_returning : Filter -> Db -> result (list T) DbError * Db;
  dump_update : Filter -> string -> Db -> result Z DbError * Db;
  dump_update_returning : Filter -> string -> Db -> result (list T) DbError * Db;
  dump_load : list (result (list T) string) -> Conflict -> Db -> result Z DbError * Db;
  no_spans : Spans;
  dump_cover : list T -> Spans -> Spans
}.

Section running.
Context {Db Filter R T Spans : Type} `{!Dumpable Db Filter R T Spans} `{!Serialize T} `{Painters} `{JsonText}.
Context (to_string_pretty : Jvalue -> option string) (around : Surroundings).
(** The password typed twice with echo off, or why there is none. *)
Context (prompt_password : result string Exit).
(** The project found and its configuration loaded, and the loaded spans
    handed to the engine. *)
Context (load_meta : result unit Exit) (export_loaded : Spans -> LoadExport -> Run Db (result unit Exit)).
(** [follow], which reads a running engine. *)
Context (dump_follow : Invocation -> DumpFormat -> bool -> Run Db (result unit Exit)).

Notation failed := (exit_failed to_string_pretty).

(** [stream_matches] of [store.rs], over either backend's stream. *)
Definition stream_matches {S} (filter : Filter) (sink : S -> list T -> Run Db (result unit DbError * S)) (state : S) :
    Run Db (result unit DbError * S) :=
  if decide (dump_limit filter = Some 0%Z) then sink state []
  else fun world =>
    match dump_cursor filter (db world) with
    | Err error => (Err error, state, world)
    | Ok cursor =>
        if dump_turso then turso_stream dump_decode sink (Datatypes.S (length cursor)) cursor state world
        else drain dump_decode sink cursor [] false state world
    end.

(** The sink of a select: each chunk rendered and pushed. *)
Definition select_sink (format : DumpFormat) (projection : list (string * string)) (colored : bool) (sink : Sink)
    (batch : list T) : Run Db (result unit DbError * Sink) :=
  let heading := sink_heading sink in
  let sink := headed sink in
  match dump_render batch format projection heading colored with
  | Err error => ret (Err error, sink)
  | Ok rendered =>
      let% pushed := sink_push sink rendered in
      ret (match pushed.1 with Ok _ => Ok tt | Err error => Err (written error) end, pushed.2)
  end.

Definition run_select (invocation : Invocation) (format : DumpFormat) (colored : bool) (filter : Filter) :
    Run Db (result Rendered DbError) :=
  let sink := match format with
              | TableDump => sink_collecting
              | _ => sink_new (output invocation) (with_header invocation)
              end in
  let% streamed := stream_matches filter (select_sink format (projected invocation) colored) sink in
  let% resolved := sink_resolve streamed.2 streamed.1 in
  ret (match resolved with Ok rendered => Ok (drawn rendered format colored) | Err error => Err error end).

(** The rows a write touched, rendered, and a tally. *)
Definition touched_rows (invocation : Invocation) (format : DumpFormat) (colored : bool)
    (touched : result (list T) DbError) : result Rendered DbError :=
  match touched with
  | Err error => Err error
  | Ok batch =>
      match dump_render batch format (projected invocation) (with_header invocation) colored with
      | Err error => Err error
      | Ok bytes => Ok (drawn (Bytes bytes) format colored)
      end
  end.

Definition tally (affected : result Z DbError) : result Rendered DbError :=
  match affected with Ok affected => Ok (AnswerText (pretty affected +:+ line_end)) | Err error => Err error end.

(** What a command holds before its store opens. *)
Inductive Prepared :=
  | WithFilter (filter : Filter)
  | WithRows (rows : list T)
  | WithSource (batches : list (result (list T) string)).

(** [Invocation::load_source] and what is read of it. *)
Definition load_source (invocation : Invocation) : result (list (result (list T) string)) Exit :=
  let path := default "" (source_path invocation) in
  match match format_name invocation with Some named => format_parse named | None => extension path ≫= format_infer end with
  | None => Err (failed ("Cannot tell what shape " +:+ path +:+ " is in. Pass --format json or --format csv."))
  | Some format =>
      match dump_batches path format with
      | Err error => Err (failed ("Cannot read " +:+ path +:+ ". " +:+ error))
      | Ok None => Err (failed "The file's first row does not name the columns to load.")
      | Ok (Some batches) => Ok batches
      end
  end.

Definition refused (refusal : Refusal) : Exit :=
  failed match refusal with
  | Invalid message => message
  | Delegated => "This filter uses a construct the query compiler does not serve."
  end.

Definition prepare (invocation : Invocation) : result Prepared Exit :=
  if verb_filters (verb invocation) then
    match dump_parse (wire_pairs invocation) with
    | Ok filter => Ok (WithFilter filter)
    | Err refusal => Err (refused refusal)
    end
  else if decide (verb invocation = CreateVerb) then
    let pairs := wire_pairs invocation in
    let pairs :=
      if create_requires surface "password" && negb (existsb (fun pair => bool_decide (pair.1 = "password")) pairs)
      then match prompt_password with Ok password => Ok (pairs ++ [("password", password)]) | Err exit => Err exit end
      else Ok pairs in
    match pairs with
    | Err exit => Err exit
    | Ok pairs =>
        match dump_build pairs with
        | Ok built => Ok (WithRows built)
        | Err message => Err (failed message)
        end
    end
  else
    match load_source invocation with
    | Ok batches => Ok (WithSource batches)
    | Err exit => Err exit
    end.

(** The spans of a load's batches. *)
Definition cover_all (batches : list (result (list T) string)) : Spans :=
  foldl (fun spans batch => match batch with Ok batch => dump_cover batch spans | Err _ => spans end) no_spans batches.

(** The verb over the open store, with the spans its load covers. *)
Definition run_verb (invocation : Invocation) (format : DumpFormat) (colored : bool) (prepared : Prepared) :
    Run Db (result Rendered DbError * Spans) :=
  match prepared, verb invocation with
  | WithFilter filter, CountVerb =>
      let% count := on_db (fun db => (dump_count filter db, db)) in ret (tally count, no_spans)
  | WithFilter filter, AnyVerb =>
      let% found := on_db (fun db => (dump_any filter db, db)) in
      ret (match found with Ok found => Ok (Exists_ found) | Err error => Err error end, no_spans)
  | WithFilter filter, DeleteVerb =>
      if collect invocation then
        let% touched := on_db (dump_delete_returning filter) in
        ret (touched_rows invocation format colored touched, no_spans)
      else let% affected := on_db (dump_delete filter) in ret (tally affected, no_spans)
  | WithFilter filter, UpdateVerb =>
      let set := default "" (set_object invocation) in
      if collect invocation then
        let% touched := on_db (dump_update_returning filter set) in
        ret (touched_rows invocation format colored touched, no_spans)
      else let% affected := on_db (dump_update filter set) in ret (tally affected, no_spans)
  | WithFilter filter, _ =>
      let% rendered := run_select invocation format colored filter in ret (rendered, no_spans)
  | WithSource batches, _ =>
      let conflict := default OnError (invocation_conflict invocation) in
      let% landed := on_db (dump_load batches conflict) in ret (tally landed, cover_all batches)
  | WithRows rows, _ =>
      let% landed := on_db (dump_load [Ok rows] OnError) in
      ret (match landed with
           | Err error => Err error
           | Ok _ => touched_rows invocation format colored (Ok rows)
           end, no_spans)
  end.

(** The confirmation before a filtered write: [None] to go ahead. *)
Definition ask_first (invocation : Invocation) (prepared : Prepared) : Run Db (option (result Rendered DbError)) :=
  match prepared with
  | WithFilter filter =>
      if verb_confirms (verb invocation) && confirm invocation then
        let% counted := on_db (fun db => (dump_count filter db, db)) in
        match counted with
        | Err error => ret (Some (Err error))
        | Ok affected =>
            let% asked := confirmed around (verb invocation) affected table_name in
            ret (match asked with
                 | Ok true => None
                 | Ok false => Some (Ok Declined)
                 | Err message => Some (Ok (Failed message))
                 end)
        end
      else ret None
  | _ => ret None
  end.

(** The awaited block of [run]: the question, then the verb. *)
Definition run_store (invocation : Invocation) (format : DumpFormat) (colored : bool) (prepared : Prepared) :
    Run Db (result Rendered DbError * Spans) :=
  let% stopped := ask_first invocation prepared in
  match stopped with
  | Some rendered => ret (rendered, no_spans)
  | None => run_verb invocation format colored prepared
  end.

(** [run]. *)
Definition dump_run (color : option bool) (verb : Verb) (matches_ : ArgMatches) : Run Db (result unit Exit) :=
  let invocation := invocation_read surface verb matches_ in
  let format := dump_format invocation in
  let colored := invocation_colored around invocation color in
  if verb_streams verb then dump_follow invocation format colored
  else match load_meta with
  | Err exit => ret (Err exit)
  | Ok _ =>
      if negb (dump_serves invocation) then
        ret (Err (failed "This database hashes passwords with parameters this command cannot reproduce, so it will not write a user."))
      else match prepare invocation with
      | Err exit => ret (Err exit)
      | Ok prepared =>
          match dump_open (verb_writes verb) with
          | Err message => ret (Err (failed message))
          | Ok _ =>
              let% ran := run_store invocation format colored prepared in
              match ran.1 with
              | Err error => ret (Err (failed (db_error_text error)))
              | Ok rendered =>
                  let% exported := match export invocation with
                                   | Some export => export_loaded ran.2 export
                                   | None => ret (Ok tt)
                                   end in
                  match exported with
                  | Err exit => ret (Err exit)
                  | Ok _ => deliver to_string_pretty invocation rendered colored
                  end
              end
          end
      end
  end.
End running.
