(* ===== verification/DumpFacts.v ===== *)
(** * What a table command leaves behind

    Over the commands of [Dump.v]: a select prints the rows its filter
    matches as if the whole table had been rendered at once, whichever backend
    streams it and however many chunks it takes; one that fails before its
    second chunk leaves nothing behind; and an update or a delete waits for a
    yes typed at a terminal. *)
From S2P Require Import Prelude.
From stdpp Require Import pretty.
From S2P Require Import Text Wire Schema Json Http Rows Load Surface Screen Dump.
Local Open Scope string_scope.
Local Open Scope list_scope.
Local Open Scope dump_scope.

(** ** Text that joins *)

Lemma is_utf8_app a b : is_utf8 a = true -> is_utf8 (a +:+ b) = is_utf8 b.
Proof.
  induction a as [a IH] using (induction_ltof1 _ String.length). unfold ltof in IH.
  destruct a as [|c a]; [done|]. rewrite str_app_cons. cbn [is_utf8].
  destruct (byte_in 0 127 c). { apply IH. cbn. lia. }
  destruct a as [|d a]; [done|]. rewrite str_app_cons.
  destruct (byte_in 194 223 c && tail_byte d). { apply IH. cbn. lia. }
  destruct a as [|e a]; [done|]. rewrite str_app_cons.
  case_match. { apply IH. cbn. lia. }
  destruct a as [|f a]; [done|]. rewrite str_app_cons.
  intros [Hhead Ha]%andb_true_iff. rewrite Hhead. cbn [andb]. apply IH; [cbn; lia|done].
Qed.

(** Text in whole lines. *)
Definition lined (text : string) : Prop := text = "" \/ exists before, text = before +:+ line_end.

Lemma lined_app a b : lined a -> lined b -> lined (a +:+ b).
Proof.
  intros Ha [->|[before ->]]; [by rewrite str_app_nil_r|]. right. exists (a +:+ before). by rewrite str_app_assoc.
Qed.

Lemma lined_concat texts : Forall lined texts -> lined (str_concat texts).
Proof. induction 1 as [|text texts Htext _ IH]; [by left|]. by apply lined_app. Qed.

Lemma split_inclusive_app a b : lined a -> split_inclusive (a +:+ b) = split_inclusive a ++ split_inclusive b.
Proof.
  intros [->|[before ->]]; [done|]. rewrite str_app_assoc.
  induction before as [|c before IH]; [done|]. rewrite !str_app_cons. cbn [split_inclusive].
  destruct (Strings.Ascii.eqb c newline); [by rewrite IH|]. rewrite IH.
  destruct (split_inclusive (before +:+ line_end)) as [|line lines] eqn:Hlines; [|done].
  exfalso. clear -Hlines. destruct before as [|a before]; [done|]. rewrite str_app_cons in Hlines. cbn in Hlines.
  by repeat case_match.
Qed.

Lemma painted_app `{Painters} a b :
  lined a -> is_utf8 a = true -> is_utf8 b = true -> painted (a +:+ b) = painted a +:+ painted b.
Proof.
  intros Hlined Ha Hb. unfold painted. rewrite is_utf8_app, Ha, Hb by done.
  unfold paint_text. by rewrite split_inclusive_app, fmap_app, str_concat_app.
Qed.

(** ** Rows rendered line by line *)

Section rendering.
Context {T : Type} `{!Serialize T} `{Painters} `{JsonText}.

(** The line a row prints as, and the line before the first. *)
Definition row_text (format : DumpFormat) (projection : list (string * string)) : T -> result string string :=
  match format, projection with
  | (TableDump | JsonDump), [] => json_row
  | (TableDump | JsonDump), _ => projected_row projection
  | CsvDump, [] => csv_record wire_fields
  | CsvDump, _ => csv_record projection
  end.

Definition heading_text (format : DumpFormat) (projection : list (string * string)) (header : bool) : string :=
  match format with
  | CsvDump => if header then csv_header (match projection with [] => wire_fields | _ => projection end) else ""
  | _ => ""
  end.

Lemma dump_render_lines batch format projection header colored :
  dump_render batch format projection header colored =
    match Rows.lines_of (row_text format projection) batch with
    | Ok lines => Ok (format_paint format (heading_text format projection header +:+ lines) colored)
    | Err error => Err (DbFailed error)
    end.
Proof.
  unfold dump_render, row_text, heading_text, to_json_lines, to_json_lines_projected, to_csv_lines, to_csv_lines_projected.
  destruct format, projection; cbv iota; destruct (Rows.lines_of _ batch); try done; by rewrite str_app_nil.
Qed.

Lemma lines_of_app (render : T -> result string string) a b lines :
  Rows.lines_of render (a ++ b) = Ok lines <->
  exists first rest, Rows.lines_of render a = Ok first /\ Rows.lines_of render b = Ok rest /\ lines = first +:+ rest.
Proof.
  unfold Rows.lines_of. revert lines. induction a as [|record a IH]; intros lines.
  { cbn [app res_map]. split.
    - intros Hlines. exists "", lines. by rewrite str_app_nil.
    - by intros (first & rest & [= <-] & Hrest & ->). }
  cbn [app res_map]. destruct (render record) as [text|error]; [|naive_solver].
  assert (forall r : result (list string) string,
    match match r with Ok bs => Ok (text :: bs) | Err e => Err e end with
    | Ok l => Ok (str_concat l) | Err e => Err e end =
    match match r with Ok l => Ok (str_concat l) | Err e => Err e end with
    | Ok l => Ok (text +:+ l) | Err e => Err e end) as Hstep by (by intros []).
  rewrite !Hstep.
  destruct (match res_map render (a ++ b) with Ok l => Ok (str_concat l) | Err e => Err e end) as [all|error] eqn:Hall.
  - destruct (proj1 (IH all) eq_refl) as (first & rest & Hfirst & Hrest & ->). rewrite Hfirst. split.
    + intros [= <-]. exists (text +:+ first), rest. by rewrite str_app_assoc.
    + intros (first' & rest' & [= <-] & Hrest' & ->). rewrite Hrest in Hrest'. injection Hrest' as ->.
      by rewrite str_app_assoc.
  - split; [done|]. intros (first & rest & Hfirst & Hrest & ->).
    destruct (match res_map render a with Ok l => Ok (str_concat l) | Err e => Err e end) as [first'|] eqn:Hfirst'; [|done].
    assert (@Err string string error = Ok (first' +:+ rest)) by (apply IH; eauto). done.
Qed.

Lemma row_lined format projection record text : row_text format projection record = Ok text -> lined text.
Proof.
  unfold row_text, json_row, projected_row, csv_record, csv_row. intros Htext. right.
  destruct format, projection; cbv iota in Htext; repeat case_match; simplify_eq; eexists; reflexivity.
Qed.

Lemma lines_lined format projection batch lines : Rows.lines_of (row_text format projection) batch = Ok lines -> lined lines.
Proof.
  revert lines. induction batch as [|record batch IH]; intros lines; [intros [= <-]; by left|].
  change (record :: batch) with ([record] ++ batch). rewrite lines_of_app.
  intros (first & rest & Hfirst & Hrest%IH & ->). apply lined_app; [|done].
  unfold Rows.lines_of in Hfirst. cbn [res_map] in Hfirst. destruct (row_text format projection record) as [text|] eqn:Htext; [|done].
  injection Hfirst as <-. cbn. rewrite str_app_nil_r. by eapply row_lined.
Qed.

(** What is painted is UTF-8, which [serde_json] writes. *)
Definition prints_utf8 (format : DumpFormat) (projection : list (string * string)) (colored : bool) : Prop :=
  colored = true -> format = JsonDump ->
  forall record text, row_text format projection record = Ok text -> is_utf8 text = true.

Lemma lines_utf8 format projection colored batch lines :
  prints_utf8 format projection colored -> colored = true -> format = JsonDump ->
  Rows.lines_of (row_text format projection) batch = Ok lines -> is_utf8 lines = true.
Proof.
  intros Hutf8 Hcolored Hformat. revert lines.
  induction batch as [|record batch IH]; intros lines; [by intros [= <-]|].
  change (record :: batch) with ([record] ++ batch). rewrite lines_of_app.
  intros (first & rest & Hfirst & Hrest%IH & ->).
  unfold Rows.lines_of in Hfirst. cbn [res_map] in Hfirst. destruct (row_text format projection record) as [text|] eqn:Htext; [|done].
  injection Hfirst as <-. cbn. rewrite str_app_nil_r. by rewrite is_utf8_app by (by eapply Hutf8).
Qed.

(** A table rendered in two parts, the heading in the first alone. *)
Lemma dump_render_app a b format projection header colored text :
  prints_utf8 format projection colored ->
  dump_render (a ++ b) format projection header colored = Ok text ->
  exists first rest, dump_render a format projection header colored = Ok first /\
    dump_render b format projection false colored = Ok rest /\ text = first +:+ rest.
Proof.
  intros Hutf8. rewrite !dump_render_lines.
  destruct (Rows.lines_of _ (a ++ b)) as [lines|] eqn:Hlines; [|done]. intros [= <-].
  pose proof (proj1 (lines_of_app _ _ _ _) Hlines) as (first & rest & Hfirst & Hrest & ->).
  rewrite Hfirst, Hrest. do 2 eexists. split_and!; [done|done|].
  unfold format_paint. rewrite <- str_app_assoc.
  assert (heading_text format projection false = "") as -> by (by destruct format). rewrite str_app_nil.
  case_bool_decide as Hformat; [|by rewrite andb_false_r]. destruct colored; [|done]. cbn [andb].
  subst format. cbn [heading_text]. rewrite !str_app_nil.
  apply painted_app; [by eapply lines_lined|by eapply lines_utf8|by eapply lines_utf8].
Qed.
End rendering.

(** ** Rows streamed in chunks *)

Section streamed.
Context {Db R B S : Type} (decode : list R -> result B DbError) (sink : S -> B -> Run Db (result unit DbError * S)).

(** Chunks handed over one after another, and what the stream ends with. *)
Fixpoint hand_all (chunks : list (list R)) (ending : result unit DbError) (state : S) :
    Run Db (result unit DbError * S) :=
  match chunks with
  | [] => ret (ending, state)
  | rows :: chunks =>
      let% handed := hand_over decode sink state rows in
      match handed with
      | (Err error, state) => ret (Err error, state)
      | (Ok _, state) => hand_all chunks ending state
      end
  end.

(** A cursor that yields rows and then ends, or fails. *)
Definition yields_rows (rows : list R) (failing : option DbError) (rest cursor : list (result R DbError)) : Prop :=
  match failing with
  | None => cursor = Ok <$> rows
  | Some error => cursor = (Ok <$> rows) ++ Err error :: rest
  end.

(** What is handed over of those rows: all of them, or the full chunks that
    came before the failure. *)
Definition handed_rows (rows : list R) (failing : option DbError) (chunks : list (list R)) : Prop :=
  match failing with
  | None => chunks <> [] /\ concat chunks = rows
  | Some _ => length chunks = length rows `div` CHUNK /\ concat chunks = take (length chunks * CHUNK) rows /\
      Forall (fun chunk => length chunk = CHUNK) chunks
  end.

Definition ending_of (failing : option DbError) : result unit DbError :=
  match failing with None => Ok tt | Some error => Err error end.

Lemma CHUNK_pos : 0 < CHUNK. Proof. apply Nat.lt_0_succ. Qed.
(** The last chunk handed over alone. *)
Lemma hand_last rows state world :
  hand_over decode sink state rows world = hand_all [rows] (Ok tt) state world.
Proof.
  cbn [hand_all]. unfold and_then. destruct (hand_over decode sink state rows world) as [[[[]|error] state'] world']; done.
Qed.

Lemma hand_step rows chunks ending state world next :
  (forall state world, next state world = hand_all chunks ending state world) ->
  (let% handed := hand_over decode sink state rows in
   match handed with (Err error, state) => ret (Err error, state) | (Ok _, state) => next state end) world =
    hand_all (rows :: chunks) ending state world.
Proof.
  intros Hnext. cbn [hand_all]. unfold and_then.
  destruct (hand_over decode sink state rows world) as [[[[]|error] state'] world']; [apply Hnext|done].
Qed.

(** A full chunk ahead of the rows. *)
Lemma handed_cons chunk rows failing chunks (more : bool) :
  length chunk = CHUNK ->
  match failing with
  | None => (more = true \/ chunks <> []) /\ concat chunks = rows
  | Some _ => handed_rows rows failing chunks
  end ->
  handed_rows (chunk ++ rows) failing (chunk :: chunks).
Proof.
  intros Hchunk. pose proof CHUNK_pos. destruct failing as [error|]; cbn [handed_rows]; intros [Hlength Hconcat].
  - cbn [length concat]. rewrite length_app, Hchunk. split.
    + rewrite Hlength. rewrite <- (Nat.mul_1_l CHUNK) at 2. rewrite Nat.add_comm, Nat.div_add by lia. lia.
    + destruct Hconcat as [Hconcat Hfull]. split; [|by constructor].
      rewrite Hconcat, take_app. f_equal; [rewrite take_ge; [done|lia]|]. f_equal. lia.
  - split; [done|]. cbn [concat]. by rewrite Hconcat.
Qed.

Lemma drain_hands rows failing rest cursor buffer sent :
  yields_rows rows failing rest cursor -> length buffer < CHUNK ->
  exists chunks, (forall state world,
      drain decode sink cursor buffer sent state world = hand_all chunks (ending_of failing) state world) /\
    match failing with
    | None => (sent = true \/ chunks <> []) /\ concat chunks = buffer ++ rows
    | Some _ => handed_rows (buffer ++ rows) failing chunks
    end.
Proof.
  revert cursor buffer sent. induction rows as [|row rows IH]; intros cursor buffer sent Hcursor Hbuffer.
  - destruct failing as [error|]; cbn in Hcursor; subst cursor.
    + exists []. split; [done|]. rewrite app_nil_r. cbn [handed_rows length concat]. rewrite Nat.div_small by done. by split_and!.
    + destruct (decide (buffer = [] /\ sent = true)) as [[-> ->]|Hsome].
      * exists []. split; [done|]. by split; [left|].
      * exists [buffer]. split.
        { intros state world. rewrite <- hand_last. cbn [drain]. by destruct buffer, sent; try tauto. }
        split; [by right|]. cbn. by rewrite !app_nil_r.
  - assert (exists cursor', cursor = Ok row :: cursor' /\ yields_rows rows failing rest cursor') as (cursor' & -> & Hrest).
    { destruct failing; cbn in Hcursor |- *; subst; eauto. }
    destruct (Nat.eqb_spec (length (buffer ++ [row])) CHUNK) as [Hfull|Hfull].
    + destruct (IH cursor' [] true Hrest CHUNK_pos) as (chunks & Hdrain & Hchunks).
      exists ((buffer ++ [row]) :: chunks). split.
      { intros state world. rewrite <- (hand_step (buffer ++ [row]) chunks _ _ _ (drain decode sink cursor' [] true)) by done.
        cbn [drain]. rewrite (proj2 (Nat.eqb_eq _ _)) by done. done. }
      assert (handed_rows ((buffer ++ [row]) ++ rows) failing ((buffer ++ [row]) :: chunks)) as Hhanded.
      { by eapply handed_cons. }
      rewrite <- app_assoc in Hhanded. destruct failing; [done|]. split; [by right|]. by destruct Hhanded.
    + destruct (IH cursor' (buffer ++ [row]) sent Hrest) as (chunks & Hdrain & Hchunks).
      { rewrite length_app in *. cbn in *. lia. }
      exists chunks. split.
      { intros state world. cbn [drain]. rewrite (proj2 (Nat.eqb_neq _ _)) by done. apply Hdrain. }
      by rewrite <- app_assoc in Hchunks.
Qed.

Lemma take_rows_yields rows failing rest cursor limit :
  yields_rows rows failing rest cursor ->
  if decide (limit <= length rows)
  then exists cursor', take_rows limit cursor = (take limit rows, None, cursor') /\
    yields_rows (drop limit rows) failing rest cursor' /\ length cursor = limit + length cursor'
  else exists cursor', take_rows limit cursor = (rows, failing, cursor').
Proof.
  revert limit cursor. induction rows as [|row rows IH]; intros limit cursor Hcursor.
  - destruct limit as [|limit]; cbn.
    { exists cursor. by destruct cursor. }
    destruct failing as [error|]; cbn in Hcursor; subst cursor; by eexists.
  - assert (exists cursor', cursor = Ok row :: cursor' /\ yields_rows rows failing rest cursor') as (cursor' & -> & Hrest).
    { destruct failing; cbn in Hcursor |- *; subst; eauto. }
    destruct limit as [|limit]. { rewrite decide_True by lia. cbn. eauto. }
    specialize (IH limit cursor' Hrest). cbn [take_rows length].
    repeat case_decide; [|lia|lia|].
    + destruct IH as (cursor & -> & Hyields & Hlength). exists cursor. cbn. split_and!; [done|done|lia].
    + destruct IH as [cursor ->]. by exists cursor.
Qed.

Lemma turso_hands rows failing rest cursor fuel :
  yields_rows rows failing rest cursor -> length cursor < fuel ->
  (forall k, exists batch, decode (drop k rows) = Ok batch) ->
  exists chunks, (forall state world,
      turso_stream decode sink fuel cursor state world = hand_all chunks (ending_of failing) state world) /\
    handed_rows rows failing chunks.
Proof.
  revert rows cursor. induction fuel as [|fuel IH]; intros rows cursor Hcursor Hfuel Hdecodes; [lia|].
  pose proof CHUNK_pos. pose proof (take_rows_yields _ _ _ _ CHUNK Hcursor) as Htake. case_decide as Hfull.
  - destruct Htake as (cursor' & Htake & Hyields & Hlength).
    destruct (IH (drop CHUNK rows) cursor' Hyields) as (chunks & Hstream & Hchunks); [lia| |].
    { intros k. rewrite drop_drop. apply Hdecodes. }
    exists (take CHUNK rows :: chunks). split.
    + intros state world. rewrite <- (hand_step _ chunks _ _ _ (turso_stream decode sink fuel cursor')) by done.
      cbn [turso_stream]. rewrite Htake. rewrite (proj2 (Nat.eqb_eq _ _)); [done|]. rewrite length_take. lia.
    + rewrite <- (take_drop CHUNK rows) at 1. apply (handed_cons _ _ _ _ true); [rewrite length_take; lia|].
      destruct failing; [done|]. split; [by left|]. by destruct Hchunks.
  - destruct Htake as [cursor' Htake]. destruct failing as [error|].
    + exists []. split.
      { intros state world. cbn [turso_stream]. rewrite Htake. destruct (Hdecodes 0) as [batch Hbatch].
        rewrite drop_0 in Hbatch. by rewrite Hbatch. }
      cbn [handed_rows length concat]. rewrite Nat.div_small by lia. by split_and!.
    + exists [rows]. split.
      { intros state world. rewrite <- hand_last. cbn [turso_stream]. rewrite Htake. unfold and_then.
        rewrite (proj2 (Nat.eqb_neq _ _)) by lia.
        destruct (hand_over decode sink state rows world) as [[[[]|error] state'] world']; done. }
      cbn. by rewrite app_nil_r.
Qed.
End streamed.

(** ** The sink without faults *)

(** A destination that holds a text: standard output after it, or a file of
    it alone. *)
Definition landed {Db} (path : option string) (text : string) (world : World Db) : World Db :=
  {| db := db world;
     stdout := match path with None => stdout world +:+ text | Some _ => stdout world end;
     outputs := match path with None => outputs world | Some path => <[path := text]> (outputs world) end;
     faults := faults world; typed := typed world; asked := asked world |}.

Section sinking.
Context {Db : Type}.
Implicit Types world : World Db.

Lemma send_bytes_lands path bytes text world :
  faults world = [] ->
  send_bytes path bytes (landed path text world) = (Ok tt, landed path (text +:+ bytes) world).
Proof.
  intros Hfaults. unfold send_bytes, and_then, next_fault, put, ret, landed. cbn. rewrite Hfaults. cbn.
  destruct path as [path|]; [|by rewrite str_app_assoc].
  by rewrite lookup_insert_eq, insert_insert_eq.
Qed.

Lemma create_file_lands path world :
  faults world = [] -> create_file path world = (Ok tt, landed (Some path) "" world).
Proof.
  intros Hfaults. unfold create_file, and_then, next_fault, ret, landed. cbn. rewrite Hfaults. cbn. by rewrite Hfaults.
Qed.

Lemma landed_nothing world : landed None "" world = world.
Proof. unfold landed. rewrite str_app_nil_r. by destruct world. Qed.

(** A sink of a streamed dump: whether it is open, what it wrote, and the
    chunk it holds. *)
Definition sink_at (output : option string) (header open : bool) (last : option string) : Sink :=
  {| sink_output := output; hold := true; held := last; destination := open;
     sink_heading := match last with None => header | Some _ => false end; broke := false; accumulate := false |}.

Definition world_at (output : option string) (open : bool) (text : string) (world : World Db) : World Db :=
  if open then landed output text world else world.

Lemma sink_write_opens sink text bytes world :
  faults world = [] -> (destination sink = false -> text = "") ->
  sink_write sink bytes (world_at (sink_output sink) (destination sink) text world) =
    ((Ok tt, opened sink), landed (sink_output sink) (text +:+ bytes) world).
Proof.
  intros Hfaults Htext. unfold sink_write, and_then at 1, sink_open.
  destruct (destination sink); cbn [world_at].
  - unfold ret at 1. unfold and_then. cbn [sink_output opened]. by rewrite send_bytes_lands.
  - rewrite Htext by done. destruct (sink_output sink) as [path|] eqn:Houtput; unfold and_then.
    + rewrite create_file_lands by done. cbn [opened sink_output]. rewrite Houtput. by rewrite send_bytes_lands.
    + unfold ret at 1. cbn [opened sink_output]. rewrite Houtput. rewrite <- (landed_nothing world) at 1.
      by rewrite send_bytes_lands.
Qed.

Lemma sink_write_lands output header open last text bytes world :
  faults world = [] -> (open = false -> text = "") ->
  sink_write (sink_at output header open last) bytes (world_at output open text world) =
    ((Ok tt, sink_at output header true last), landed output (text +:+ bytes) world).
Proof. intros Hfaults Htext. exact (sink_write_opens (sink_at output header open last) text bytes world Hfaults Htext). Qed.

(** A chunk pushed. *)
Lemma sink_push_holds output header open last text rendered world :
  faults world = [] -> (open = false -> text = "") -> (last = None -> open = false) ->
  exists open' text', sink_push (headed (sink_at output header open last)) rendered (world_at output open text world) =
      ((Ok tt, sink_at output header open' (Some rendered)), world_at output open' text' world) /\
    text' = text +:+ default "" last /\ (open' = false -> text' = "") /\
    open' = (open || match last with Some _ => true | None => false end).
Proof.
  intros Hfaults Htext Hlast. destruct last as [previous|].
  - exists true, (text +:+ previous). cbn [default from_option]. split_and!; [|done|done|by rewrite orb_true_r].
    unfold sink_push. cbn [accumulate headed sink_at hold held negb].
    pose proof (sink_write_lands output header open (Some rendered) text previous world Hfaults Htext) as Hwrite.
    exact Hwrite.
  - exists false, "". rewrite (Htext (Hlast eq_refl)), (Hlast eq_refl). by split_and!.
Qed.
End sinking.

(** ** A select *)

Section selecting.
Context {Db Filter R T Spans : Type} `{!Dumpable Db Filter R T Spans} `{!Serialize T} `{Painters} `{JsonText}.
Implicit Types world : World Db.

(** Rows decode one by one, as [from_rows] has them. *)
Context (read : R -> result T DbError) (Hread : forall rows, dump_decode rows = res_map read rows).
Context (format : DumpFormat) (projection : list (string * string)) (colored : bool).
Context (Hutf8 : prints_utf8 format projection colored).

Notation rendered batch heading := (dump_render batch format projection heading colored).
Notation feeding := (hand_all dump_decode (select_sink format projection colored)).

Lemma res_map_app {A B E} (f : A -> result B E) a b all :
  res_map f (a ++ b) = Ok all <->
  exists first rest, res_map f a = Ok first /\ res_map f b = Ok rest /\ all = first ++ rest.
Proof.
  revert all. induction a as [|x a IH]; intros all; cbn [app res_map].
  { split; [intros Hall; by exists [], all|]. by intros (first & rest & [= <-] & Hrest & ->). }
  destruct (f x) as [y|error]; [|naive_solver]. split.
  - destruct (res_map f (a ++ b)) as [more|]; [|done]. intros [= <-].
    destruct (proj1 (IH more) eq_refl) as (first & rest & -> & Hrest & ->). by exists (y :: first), rest.
  - intros (first & rest & Hfirst & Hrest & ->). destruct (res_map f a) as [more|]; [|done]. injection Hfirst as <-.
    by rewrite (proj2 (IH (more ++ rest))) by eauto.
Qed.

Lemma res_map_length {A B E} (f : A -> result B E) a b : res_map f a = Ok b -> length b = length a.
Proof.
  revert b. induction a as [|x a IH]; intros b; cbn [res_map]; [by intros [= <-]|].
  destruct (f x); [|done]. destruct (res_map f a) as [more|]; [|done]. intros [= <-]. cbn. by rewrite (IH more).
Qed.

(** The chunks of a dump that streams, each rendered and pushed. *)
Lemma feeding_holds output header chunks ending batch text open written last world :
  format <> TableDump -> faults world = [] ->
  res_map read (concat chunks) = Ok batch ->
  rendered batch (match last with None => header | Some _ => false end) = Ok text ->
  (open = false -> written = "") -> (last = None -> open = false) ->
  exists open' written' last',
    feeding chunks ending (sink_at output header open last) (world_at output open written world) =
      ((ending, sink_at output header open' last'), world_at output open' written' world) /\
    (chunks <> [] -> written' +:+ default "" last' = written +:+ default "" last +:+ text /\ is_Some last') /\
    (chunks = [] -> written' = written /\ last' = last /\ open' = open) /\
    (open' = false -> written' = "") /\ (last' = None -> open' = false) /\
    open' = (open || (2 <=? (match last with None => 0 | Some _ => 1 end) + length chunks)%nat).
Proof.
  intros Hformat Hfaults. revert batch text open written last.
  induction chunks as [|rows chunks IH]; intros batch text open written last Hbatch Htext Hwritten Hlast.
  { exists open, written, last. split_and!; try done. by destruct last, open. }
  cbn [concat] in Hbatch. apply res_map_app in Hbatch as (first & rest & Hfirst & Hrest & ->).
  apply dump_render_app in Htext as (before & after & Hbefore & Hafter & ->); [|done].
  destruct (sink_push_holds output header open last written before world Hfaults Hwritten Hlast)
    as (open1 & written1 & Hpush & -> & Hwritten1 & Hopen1).
  destruct (IH rest after open1 (written +:+ default "" last) (Some before) Hrest Hafter Hwritten1 ltac:(done))
    as (open' & written' & last' & Hfed & Hsome & Hnone & Hwritten' & Hlast' & Hopen).
  exists open', written', last'. split_and!; [| |done|done|done|].
  - rewrite <- Hfed. cbn [hand_all]. unfold hand_over. rewrite Hread, Hfirst. unfold select_sink, and_then at 1.
    cbn [sink_heading sink_at]. rewrite Hbefore. unfold and_then at 1. cbn [sink_at] in Hpush. rewrite Hpush. done.
  - intros _. destruct chunks as [|next chunks].
    + destruct (Hnone eq_refl) as (-> & -> & ->). cbn [concat res_map] in Hrest. injection Hrest as <-.
      assert (after = "") as ->.
      { rewrite dump_render_lines in Hafter. cbn in Hafter. injection Hafter as <-.
        by destruct format, colored. }
      split; [|by eexists]. cbn [default from_option]. by rewrite str_app_nil_r, !str_app_assoc.
    + destruct Hsome as [Hsome Hheld]; [done|]. split; [|done]. rewrite Hsome. by rewrite !str_app_assoc.
  - rewrite Hopen, Hopen1. cbn [length]. by destruct last, open.
Qed.

(** A table's chunks, all of them held. *)
Definition collecting_at (last : option string) : Sink :=
  {| sink_output := None; hold := true; held := last; destination := false; sink_heading := false; broke := false;
     accumulate := true |}.

Lemma feeding_collects chunks ending batch text last world :
  format = TableDump -> res_map read (concat chunks) = Ok batch -> rendered batch false = Ok text ->
  exists last', feeding chunks ending (collecting_at last) world = ((ending, collecting_at last'), world) /\
    (chunks <> [] -> last' = Some (default "" last +:+ text)) /\ (chunks = [] -> last' = last).
Proof.
  intros Hformat. revert batch text last. induction chunks as [|rows chunks IH]; intros batch text last Hbatch Htext.
  { by exists last. }
  cbn [concat] in Hbatch. apply res_map_app in Hbatch as (first & rest & Hfirst & Hrest & ->).
  apply dump_render_app in Htext as (before & after & Hbefore & Hafter & ->); [|done].
  destruct (IH rest after (Some (default "" last +:+ before)) Hrest Hafter) as (last' & Hfed & Hsome & Hnone).
  exists last'. split_and!; [| |done].
  - rewrite <- Hfed. cbn [hand_all]. unfold hand_over. rewrite Hread, Hfirst. unfold select_sink, and_then.
    cbn [sink_heading collecting_at]. by rewrite Hbefore.
  - intros _. destruct chunks as [|next chunks].
    + rewrite Hnone by done. cbn [concat res_map] in Hrest. injection Hrest as <-.
      rewrite dump_render_lines in Hafter. cbn in Hafter. subst format. assert (after = "") as -> by (injection Hafter as <-; by destruct colored).
      by rewrite str_app_nil_r.
    + rewrite Hsome by done. cbn. by rewrite str_app_assoc.
Qed.

(** What the rows of a filter's cursor are: none at a limit of zero. *)
Definition matched (filter : Filter) world (rows : list R) (failing : option DbError) : Prop :=
  if decide (dump_limit filter = Some 0%Z) then rows = [] /\ failing = None
  else exists rest cursor, dump_cursor filter (db world) = Ok cursor /\ yields_rows rows failing rest cursor.

Lemma stream_hands {S} filter (sink : S -> list T -> Run Db (result unit DbError * S)) world rows failing batch :
  matched filter world rows failing -> res_map read rows = Ok batch ->
  exists chunks, handed_rows rows failing chunks /\
    forall state, stream_matches filter sink state world = hand_all dump_decode sink chunks (ending_of failing) state world.
Proof.
  unfold matched, stream_matches. intros Hmatched Hbatch. case_decide as Hlimit.
  - destruct Hmatched as [-> ->]. exists [[]]. split; [by split|]. intros state. cbn [ending_of]. rewrite <- hand_last.
    unfold hand_over. by rewrite Hread.
  - destruct Hmatched as (rest & cursor & Hcursor & Hyields). rewrite Hcursor. destruct dump_turso.
    + destruct (turso_hands dump_decode sink rows failing rest cursor (Datatypes.S (length cursor)) Hyields) as (chunks & Hstream & Hchunks);
        [lia| |by exists chunks].
      intros k. rewrite Hread. rewrite <- (take_drop k rows) in Hbatch.
      apply res_map_app in Hbatch as (_ & rest' & _ & Hrest & _). by exists rest'.
    + destruct (drain_hands dump_decode sink rows failing rest cursor [] false Hyields CHUNK_pos) as (chunks & Hstream & Hchunks).
      exists chunks. split; [|done]. destruct failing; [done|]. destruct Hchunks as [[|] ?]; done.
Qed.

(** What a finished select prints. *)
Definition finished (text : string) : string :=
  match format with TableDump => tabulate text colored | _ => text end.

Lemma run_select_finishes invocation filter world rows batch text :
  faults world = [] -> projected invocation = projection ->
  matched filter world rows None -> res_map read rows = Ok batch ->
  rendered batch (with_header invocation) = Ok text ->
  run_select invocation format colored filter world = (Ok Written, landed (output invocation) (finished text) world) \/
  run_select invocation format colored filter world = (Ok (Bytes (finished text)), world).
Proof.
  intros Hfaults Hprojection Hmatched Hbatch Htext. unfold run_select. rewrite Hprojection.
  destruct (stream_hands _ (select_sink format projection colored) _ _ _ _ Hmatched Hbatch) as (chunks & [Hsome Hchunks] & Hstream).
  cbn [ending_of] in Hstream. subst rows. unfold and_then. rewrite Hstream. unfold finished.
  destruct (decide (format = TableDump)) as [Hformat|Hformat].
  - destruct (feeding_collects chunks (Ok tt) batch text None world Hformat Hbatch) as (last & Hfed & Hlast & _).
    { revert Htext. rewrite !dump_render_lines. by rewrite Hformat. }
    rewrite Hlast in Hfed by done. rewrite Hformat in Hfed |- *.
    change sink_collecting with (collecting_at None). rewrite Hfed. right. done.
  - destruct (feeding_holds (output invocation) (with_header invocation) chunks (Ok tt) batch text false "" None world)
      as (open & out & last & Hfed & Htold & _ & Hclosed & _); try done.
    destruct Htold as [Htold [held Hheld]]; [done|]. subst last. cbn [world_at default from_option] in Hfed, Htold.
    rewrite !str_app_nil in Htold. subst text.
    assert (match format with TableDump => sink_collecting | _ => sink_new (output invocation) (with_header invocation) end =
      sink_at (output invocation) (with_header invocation) false None) as -> by (by destruct format).
    rewrite Hfed. destruct open.
    + left. pose proof (sink_write_lands (output invocation) false true None out held world Hfaults ltac:(done)) as Hwrite.
      unfold sink_resolve, sink_finish. cbn [fst snd destination Dump.held sink_at]. unfold and_then.
      change (with_held _ None) with (sink_at (output invocation) false true None).
      cbn [world_at] in Hwrite |- *. rewrite Hwrite. by destruct format.
    + right. rewrite (Hclosed eq_refl), str_app_nil. by destruct format.
Qed.

Lemma hand_all_snoc {S} (sink : S -> list T -> Run Db (result unit DbError * S)) chunks chunk ending state world
    state' world' :
  hand_all dump_decode sink chunks (Ok tt) state world = ((Ok tt, state'), world') ->
  hand_all dump_decode sink (chunks ++ [chunk]) ending state world = hand_all dump_decode sink [chunk] ending state' world'.
Proof.
  revert state world. induction chunks as [|first chunks IH]; intros state world Hchunks.
  { by injection Hchunks as <- <-. }
  cbn [app]. unfold hand_all at 1. fold (hand_all dump_decode sink).
  cbn [hand_all] in Hchunks. unfold and_then in Hchunks |- *.
  destruct (hand_over dump_decode sink state first world) as [[[[]|error] state1] world1]; [by apply IH|done].
Qed.

(** What a select that fails has written: nothing, unless two chunks were
    full. *)
Definition left_behind (output : option string) (rows : list R) (text : string) world : World Db :=
  if decide (format <> TableDump /\ 2 * CHUNK <= length rows) then landed output text world else world.

(** The first rows of a table that decodes and renders do so too. *)
Lemma prefix_renders rows batch text heading k :
  res_map read rows = Ok batch -> rendered batch heading = Ok text ->
  res_map read (take k rows) = Ok (take k batch) /\ exists out, rendered (take k batch) heading = Ok out.
Proof.
  intros Hbatch Htext. rewrite <- (take_drop k rows) in Hbatch.
  apply res_map_app in Hbatch as (first & rest & Hfirst & Hrest & ->).
  apply dump_render_app in Htext as (out & _ & Hout & _ & _); [|done].
  assert (take k (first ++ rest) = first) as ->; [|by eauto].
  pose proof (res_map_length _ _ _ Hfirst) as Hsame. pose proof (res_map_length _ _ _ Hrest) as Hmore.
  rewrite length_take in Hsame. rewrite length_drop in Hmore. destruct (decide (k <= length rows)).
  - by rewrite take_app_length' by lia.
  - destruct rest; [|cbn in Hmore; lia]. rewrite app_nil_r. by rewrite take_ge by lia.
Qed.

Lemma full_chunks (chunks : list (list R)) :
  Forall (fun chunk => length chunk = CHUNK) chunks -> length (concat chunks) = length chunks * CHUNK.
Proof. induction 1 as [|chunk chunks Hchunk _ IH]; [done|]. cbn [concat length]. rewrite length_app, Hchunk, IH. lia. Qed.

(** Full chunks pushed into a new sink, two or more: all but the last of them
    are out. *)
Lemma feeding_leaves output header init chunk error batch out text world :
  format <> TableDump -> faults world = [] -> init <> [] ->
  res_map read (concat init) = Ok batch -> rendered batch header = Ok out ->
  res_map read (concat (init ++ [chunk])) = Ok text /\ (exists all, rendered text header = Ok all) ->
  exists held, feeding (init ++ [chunk]) (Err error) (sink_at output header false None) world =
    ((Err error, sink_at output header true (Some held)), landed output out world).
Proof.
  intros Hformat Hfaults Hinit Hbatch Hout [Hall [all Hallout]].
  destruct (feeding_holds output header init (Ok tt) batch out false "" None world)
    as (open1 & out1 & last1 & Hfed & Htold & _ & Hclosed & Hlast & _); try done.
  destruct Htold as [Htold [held Hheld]]; [done|]. subst last1. cbn [default from_option] in Htold. rewrite !str_app_nil in Htold.
  rewrite concat_app in Hall. apply res_map_app in Hall as (first & rest & Hfirst & Hrest & ->).
  rewrite Hbatch in Hfirst. injection Hfirst as <-.
  apply dump_render_app in Hallout as (before & after & Hbefore & Hafter & ->); [|done].
  destruct (sink_push_holds output header open1 (Some held) out1 after world Hfaults Hclosed Hlast)
    as (open2 & out2 & Hpush & -> & _ & ->).
  exists after. rewrite (hand_all_snoc _ _ _ _ _ _ _ _ Hfed). cbn [hand_all]. unfold hand_over.
  rewrite Hread. cbn [concat] in Hrest. rewrite app_nil_r in Hrest. rewrite Hrest. unfold select_sink, and_then.
  cbn [sink_heading sink_at]. rewrite Hafter. cbn [sink_at] in Hpush. rewrite Hpush.
  cbn [default from_option fst snd]. rewrite Htold, orb_true_r. done.
Qed.

Lemma run_select_fails invocation filter world rows error batch text :
  faults world = [] -> projected invocation = projection ->
  matched filter world rows (Some error) -> res_map read rows = Ok batch ->
  rendered batch (with_header invocation) = Ok text ->
  exists out, rendered (take ((length rows `div` CHUNK - 1) * CHUNK) batch) (with_header invocation) = Ok out /\
    (run_select invocation format colored filter world =
       (Ok (Failed (db_error_text error)), left_behind (output invocation) rows out world) \/
     run_select invocation format colored filter world = (Err error, left_behind (output invocation) rows out world)).
Proof.
  intros Hfaults Hprojection Hmatched Hbatch Htext. unfold run_select. rewrite Hprojection. pose proof CHUNK_pos.
  destruct (stream_hands _ (select_sink format projection colored) _ _ _ _ Hmatched Hbatch)
    as (chunks & (Hlength & Hchunks & Hfull) & Hstream).
  cbn [ending_of] in Hstream. unfold and_then. rewrite Hstream. unfold left_behind. set (n := length rows `div` CHUNK) in *.
  destruct (prefix_renders rows batch text (with_header invocation) ((n - 1) * CHUNK) Hbatch Htext) as [Hfirst [out Hout]].
  destruct (prefix_renders rows batch text (with_header invocation) (n * CHUNK) Hbatch Htext) as [Hall [all Hallout]].
  rewrite <- Hlength in Hall, Hallout. rewrite <- Hchunks in Hall.
  exists out. split; [done|]. destruct (decide (format = TableDump)) as [Hformat|Hformat].
  { right. rewrite decide_False by tauto.
    destruct (feeding_collects chunks (Err error) _ all None world Hformat Hall) as (last & Hfed & _).
    { revert Hallout. rewrite !dump_render_lines. by rewrite Hformat. }
    change sink_collecting with (collecting_at None). rewrite Hformat in Hfed |- *. by rewrite Hfed. }
  assert (match format with TableDump => sink_collecting | _ => sink_new (output invocation) (with_header invocation) end =
    sink_at (output invocation) (with_header invocation) false None) as -> by (by destruct format).
  assert (2 * CHUNK <= length rows <-> 2 <= n) as Hmany.
  { split; [intros Hrows; apply Nat.div_le_lower_bound; lia|intros Hn].
    pose proof (Nat.Div0.mul_div_le (length rows) CHUNK) as Hdiv. fold n in Hdiv. nia. }
  case_decide as Hleft.
  - left. destruct Hleft as [_ Hleft%Hmany].
    destruct chunks as [|chunk init _] using rev_ind; [cbn in Hlength; lia|].
    rewrite length_app in Hlength. cbn [length] in Hlength. apply Forall_app in Hfull as [Hfull _].
    assert (concat init = take ((n - 1) * CHUNK) rows) as Hinit.
    { pose proof (full_chunks _ Hfull) as Hsize. rewrite concat_app in Hchunks.
      assert (take ((n - 1) * CHUNK) (take (length (init ++ [chunk]) * CHUNK) rows) = concat init) as <-.
      { rewrite <- Hchunks. replace ((n - 1) * CHUNK) with (length (concat init)) by (rewrite Hsize; f_equal; lia).
        by rewrite take_app_length. }
      rewrite take_take. f_equal. rewrite length_app. cbn [length]. nia. }
    rewrite <- Hinit in Hfirst.
    assert (init <> []) as Hsome by (intros ->; cbn in Hlength; lia).
    destruct (feeding_leaves (output invocation) (with_header invocation) init chunk error _ out _ world Hformat Hfaults
      Hsome Hfirst Hout (conj Hall (ex_intro _ all Hallout))) as [held Hfed].
    rewrite Hfed. unfold sink_resolve. by destruct format.
  - right. destruct (feeding_holds (output invocation) (with_header invocation) chunks (Err error) _ all false "" None world
      Hformat Hfaults Hall Hallout (fun _ => eq_refl) (fun _ => eq_refl)) as (open & written & last & Hfed & _ & _ & _ & _ & ->).
    cbn [world_at] in Hfed. rewrite Hfed. rewrite (proj2 (Nat.leb_gt _ _)).
    { by destruct format. }
    rewrite Hlength. cbn. assert (~ 2 <= n) by tauto. lia.
Qed.
End selecting.

(** ** What keeps the database *)

Definition keeps_db {Db A} (m : Run Db A) : Prop := forall world, db (m world).2 = db world.

Section keeping.
Context {Db : Type}.

Lemma ret_keeps {A} (a : A) : keeps_db (Db := Db) (ret a).
Proof. done. Qed.

Lemma keeps_then {A B} (m : Run Db A) (k : A -> Run Db B) :
  keeps_db m -> (forall a, keeps_db (k a)) -> keeps_db (and_then m k).
Proof.
  intros Hm Hk world. unfold and_then. specialize (Hm world). destruct (m world) as [a world'].
  rewrite Hk. exact Hm.
Qed.

Lemma keeps_next_fault : keeps_db (Db := Db) next_fault.
Proof. intros world. unfold next_fault. by destruct (faults world). Qed.

Lemma keeps_put path bytes : keeps_db (Db := Db) (put path bytes).
Proof. intros world. by destruct path. Qed.

Lemma keeps_ask_line prompt : keeps_db (Db := Db) (ask_line prompt).
Proof. intros world. unfold ask_line. by destruct (typed world). Qed.

Lemma keeps_query {A} (f : Db -> A) : keeps_db (on_db (fun db => (f db, db))).
Proof. done. Qed.
End keeping.

Create HintDb keeps discriminated.
#[export] Hint Resolve ret_keeps keeps_next_fault keeps_put keeps_ask_line keeps_query : keeps.

Ltac keeps :=
  repeat first
    [ solve [auto with keeps]
    | match goal with
      | |- keeps_db (and_then _ _) => apply keeps_then; [|intros ?]
      | |- keeps_db (match ?x with _ => _ end) => destruct x
      end
    | progress cbv zeta ].

Section keeping_sink.
Context {Db : Type}.

Lemma keeps_create_file path : keeps_db (Db := Db) (create_file path).
Proof. unfold create_file. keeps. done. Qed.

Lemma keeps_send_bytes path bytes : keeps_db (Db := Db) (send_bytes path bytes).
Proof. unfold send_bytes. keeps. Qed.
#[local] Hint Resolve keeps_create_file keeps_send_bytes : keeps.

Lemma keeps_sink_write sink bytes : keeps_db (Db := Db) (sink_write sink bytes).
Proof. unfold sink_write, sink_open. keeps. Qed.
#[local] Hint Resolve keeps_sink_write : keeps.

Lemma keeps_sink_push sink rendered : keeps_db (Db := Db) (sink_push sink rendered).
Proof. unfold sink_push. keeps. Qed.

Lemma keeps_sink_resolve sink outcome : keeps_db (Db := Db) (sink_resolve sink outcome).
Proof. unfold sink_resolve, sink_finish. keeps. Qed.

Context `{Painters} `{JsonText} (to_string_pretty : Jvalue -> option string).

Lemma keeps_write_output path text : keeps_db (Db := Db) (write_output to_string_pretty path text).
Proof. unfold write_output. keeps. Qed.
#[local] Hint Resolve keeps_write_output : keeps.

Lemma keeps_deliver invocation rendered colored : keeps_db (Db := Db) (deliver to_string_pretty invocation rendered colored).
Proof. unfold deliver. keeps. Qed.

Lemma keeps_confirmed around verb affected plural : keeps_db (Db := Db) (confirmed around verb affected plural).
Proof. unfold confirmed. keeps. Qed.
End keeping_sink.
#[export] Hint Resolve keeps_create_file keeps_send_bytes keeps_sink_push keeps_sink_resolve keeps_deliver keeps_confirmed : keeps.

Section keeping_streams.
Context {Db R B S : Type} (decode : list R -> result B DbError) (sink : S -> B -> Run Db (result unit DbError * S)).
Context (Hsink : forall state batch, keeps_db (sink state batch)).

Lemma keeps_hand_over state rows : keeps_db (hand_over decode sink state rows).
Proof using Hsink. unfold hand_over. keeps. Qed.
#[local] Hint Resolve keeps_hand_over : keeps.

Lemma keeps_drain cursor buffer sent state : keeps_db (drain decode sink cursor buffer sent state).
Proof using Hsink.
  revert buffer sent state. induction cursor as [|[row|error] cursor IH]; intros buffer sent state; cbn [drain]; keeps.
Qed.

Lemma keeps_turso_stream fuel cursor state : keeps_db (turso_stream decode sink fuel cursor state).
Proof using Hsink.
  revert cursor state. induction fuel as [|fuel IH]; intros cursor state; cbn [turso_stream]; keeps.
Qed.
End keeping_streams.

(** ** The command *)

Section commanding.
Context {Db Filter R T Spans : Type} `{!Dumpable Db Filter R T Spans} `{!Serialize T} `{Painters} `{JsonText}.
Context (to_string_pretty : Jvalue -> option string) (around : Surroundings).
Context (prompt_password : result string Exit).
Context (load_meta : result unit Exit) (export_loaded : Spans -> LoadExport -> Run Db (result unit Exit)).
Context (dump_follow : Invocation -> DumpFormat -> bool -> Run Db (result unit Exit)).
Implicit Types world : World Db.

Notation failed := (exit_failed to_string_pretty).
Notation run_command :=
  (dump_run to_string_pretty around prompt_password load_meta export_loaded dump_follow).

Lemma keeps_stream_matches {S} filter (sink : S -> list T -> Run Db (result unit DbError * S)) state :
  (forall state batch, keeps_db (sink state batch)) -> keeps_db (stream_matches filter sink state).
Proof.
  intros Hsink. unfold stream_matches. case_decide; [apply Hsink|]. intros world.
  destruct (dump_cursor filter (db world)); [|done]. destruct dump_turso.
  - by apply keeps_turso_stream.
  - by apply keeps_drain.
Qed.

Lemma keeps_run_select invocation format colored filter :
  keeps_db (run_select invocation format colored filter).
Proof.
  unfold run_select. apply keeps_then; [|intros ?; keeps]. apply keeps_stream_matches.
  intros sink batch. unfold select_sink. keeps.
Qed.

(** An answer typed at the prompt that goes ahead. *)
Definition answered_yes world : Prop :=
  exists answer lines, typed world = Ok answer :: lines /\ to_lowercase (trim answer) ∈ ["y"; "yes"].

Lemma confirmed_yes verb affected plural world :
  verb_confirms verb = true -> (confirmed around verb affected plural world).1 = Ok true ->
  stdin_terminal around = true /\ answered_yes world.
Proof.
  intros Hverb. unfold confirmed. destruct verb; try done; cbn [fst snd].
  all: destruct (stdin_terminal around); [|done]; cbn [negb]; unfold and_then at 1.
  all: destruct (next_fault world) as [[|] world'] eqn:Hfault; [|done].
  all: assert (typed world' = typed world) as Htyped by (unfold next_fault in Hfault; by destruct (faults world); simplify_eq/=).
  all: unfold and_then, ask_line; rewrite Htyped; unfold answered_yes.
  all: destruct (typed world) as [|[answer|] lines]; try done; cbn; case_bool_decide; try done; naive_solver.
Qed.

Lemma ask_first_goes invocation filter world :
  verb_confirms (verb invocation) = true -> confirm invocation = true ->
  (ask_first around invocation (WithFilter filter) world).1 = None ->
  stdin_terminal around = true /\ answered_yes world.
Proof.
  intros Hverb Hconfirm. unfold ask_first. rewrite Hverb, Hconfirm. cbn [andb]. unfold and_then, on_db.
  destruct (dump_count filter (db world)) as [affected|]; [|done].
  set (world' := {| db := _ |}). pose proof (confirmed_yes (verb invocation) affected table_name world' Hverb) as Hyes.
  destruct (confirmed around (verb invocation) affected table_name world') as [[[]|] world'']; try done.
  intros _. by apply Hyes.
Qed.

Lemma keeps_ask_first invocation (prepared : Prepared) : keeps_db (ask_first around invocation prepared).
Proof. unfold ask_first. keeps. Qed.

Lemma keeps_run_verb invocation format colored (prepared : Prepared) :
  verb_writes (verb invocation) = false -> verb_filters (verb invocation) = true ->
  (exists filter, prepared = WithFilter filter) -> keeps_db (run_verb invocation format colored prepared).
Proof.
  intros Hreads Hfilters [filter ->]. unfold run_verb. destruct (verb invocation); try done.
  all: keeps; apply keeps_run_select.
Qed.

Lemma prepare_filters invocation prepared :
  verb_filters (verb invocation) = true -> prepare to_string_pretty prompt_password invocation = Ok prepared ->
  exists filter, prepared = WithFilter filter.
Proof.
  intros Hfilters. unfold prepare. rewrite Hfilters. destruct (dump_parse (wire_pairs invocation)); [|done].
  intros [= <-]. by eexists.
Qed.

Lemma invocation_read_verb verb matches_ : Dump.verb (invocation_read surface verb matches_) = verb.
Proof. unfold invocation_read. by destruct verb. Qed.

Lemma invocation_read_confirm verb matches_ :
  confirm (invocation_read surface verb matches_) = negb (get_flag matches_ "no-confirm").
Proof. unfold invocation_read. by destruct verb. Qed.


Lemma deliver_bytes invocation text colored world :
  faults world = [] ->
  deliver to_string_pretty invocation (Bytes text) colored world = (Ok tt, landed (output invocation) text world).
Proof.
  intros Hfaults. unfold deliver, write_output, and_then. rewrite andb_false_r. cbn [into_bytes rendered_exists].
  destruct (output invocation) as [path|].
  - rewrite create_file_lands by done. by rewrite send_bytes_lands.
  - rewrite <- (landed_nothing world) at 1. by rewrite send_bytes_lands.
Qed.

(** A select that reaches its store: the project loads, the filter parses, and
    the store opens. *)
Definition starts (invocation : Invocation) (filter : Filter) : Prop :=
  load_meta = Ok tt /\ dump_serves invocation = true /\ dump_parse (wire_pairs invocation) = Ok filter /\
  dump_open false = Ok tt /\ export invocation = None.

Lemma run_command_select color matches_ filter world :
  let invocation := invocation_read surface SelectVerb matches_ in
  let format := dump_format invocation in
  let colored := invocation_colored around invocation color in
  starts invocation filter ->
  run_command color SelectVerb matches_ world =
    (let% ran := run_select invocation format colored filter in
     match ran with
     | Err error => ret (Err (failed (db_error_text error)))
     | Ok rendered => deliver to_string_pretty invocation rendered colored
     end) world.
Proof.
  intros invocation format colored (Hmeta & Hserves & Hparse & Hopen & Hexport).
  unfold dump_run. change (verb_streams SelectVerb) with false. change (verb_writes SelectVerb) with false. cbv iota.
  fold invocation. fold format. fold colored. rewrite Hmeta, Hserves, Hopen. cbn [negb].
  assert (prepare to_string_pretty prompt_password invocation = Ok (WithFilter filter)) as ->.
  { unfold prepare. assert (verb_filters (Dump.verb invocation) = true) as -> by reflexivity.
    by rewrite Hparse. }
  unfold run_store, ask_first. assert (Dump.verb invocation = SelectVerb) as Hverb by apply invocation_read_verb.
  rewrite Hverb. cbn [verb_confirms andb]. unfold run_verb. rewrite Hverb, Hexport. unfold and_then, ret.
  by destruct (run_select invocation format colored filter world) as [[rendered|error] world'].
Qed.

(** C32: A select over a store and a system that raise nothing succeeds, and
    standard output, or the file named, holds what rendering the whole table
    at once prints: the header before the first row alone, each row once and
    in order, however the backend's stream splits them into chunks; nothing
    else in the world changes. *)
Theorem select_prints color matches_ filter (read : R -> result T DbError) rows batch text world :
  let invocation := invocation_read surface SelectVerb matches_ in
  let format := dump_format invocation in
  let colored := invocation_colored around invocation color in
  (forall rows, dump_decode rows = res_map read rows) -> prints_utf8 format (projected invocation) colored ->
  faults world = [] -> starts invocation filter -> matched filter world rows None ->
  res_map read rows = Ok batch ->
  dump_render batch format (projected invocation) (with_header invocation) colored = Ok text ->
  run_command color SelectVerb matches_ world =
    (Ok tt, landed (output invocation) (finished format colored text) world).
Proof.
  intros invocation format colored Hread Hutf8 Hfaults Hstarts Hmatched Hbatch Htext.
  rewrite (run_command_select color matches_ filter world Hstarts). unfold and_then.
  destruct (run_select_finishes read Hread format (projected invocation) colored Hutf8 invocation filter world rows
    batch text Hfaults eq_refl Hmatched Hbatch Htext) as [Hrun|Hrun].
  - fold invocation format colored. by rewrite Hrun.
  - fold invocation format colored. rewrite Hrun. by apply deliver_bytes.
Qed.

(** A select whose cursor fails exits with status 1 and the error for a
    message, having written nothing at all unless two chunks of rows had come
    before the failure; then what it leaves is the rendering of all the full
    chunks but the last. A table, drawn only when whole, leaves nothing. *)
Theorem select_fails color matches_ filter (read : R -> result T DbError) rows error batch text world :
  let invocation := invocation_read surface SelectVerb matches_ in
  let format := dump_format invocation in
  let colored := invocation_colored around invocation color in
  (forall rows, dump_decode rows = res_map read rows) -> prints_utf8 format (projected invocation) colored ->
  faults world = [] -> starts invocation filter -> matched filter world rows (Some error) ->
  res_map read rows = Ok batch ->
  dump_render batch format (projected invocation) (with_header invocation) colored = Ok text ->
  exists out,
    dump_render (take ((length rows `div` CHUNK - 1) * CHUNK) batch) format (projected invocation)
      (with_header invocation) colored = Ok out /\
    run_command color SelectVerb matches_ world =
      (Err (failed (db_error_text error)), left_behind format (output invocation) rows out world).
Proof.
  intros invocation format colored Hread Hutf8 Hfaults Hstarts Hmatched Hbatch Htext.
  rewrite (run_command_select color matches_ filter world Hstarts). unfold and_then.
  destruct (run_select_fails read Hread format (projected invocation) colored Hutf8 invocation filter world rows
    error batch text Hfaults eq_refl Hmatched Hbatch Htext) as (out & Hout & Hrun).
  exists out. split; [done|]. fold invocation format colored. by destruct Hrun as [Hrun|Hrun]; rewrite Hrun.
Qed.
End commanding.

(** ** CSV read back *)

Section reading.
Context {T : Type} `{!Serialize T} `{Painters} `{JsonText}.

(** The fields of a CSV dump, and the cells a row shows for them. *)
Definition csv_fields (projection : list (string * string)) : list (string * string) :=
  match projection with [] => wire_fields | _ => projection end.

Definition csv_cells (fields : list (string * string)) (object : Object) : list string :=
  (fun alias => default "" (projected_cell (shown_value object fields alias))) <$> projected_aliases fields.

Lemma csv_record_cells fields (record : T) object :
  to_value record = Ok (JObject object) ->
  exists cells, csv_record fields record = Ok (csv_row cells) /\ read_as cells = csv_cells fields object.
Proof.
  intros Hvalue. unfold csv_record. destruct (project record fields) as [projected|] eqn:Hprojected.
  - apply project_shows in Hprojected as (shown & Hshown & ->).
    destruct Hshown as [Hshown|(_ & value & Hshown & Hobject)]; rewrite Hvalue in Hshown; injection Hshown as <-; [|done].
    eexists. split; [done|]. unfold read_as, csv_cells. by rewrite <- !list_fmap_compose.
  - unfold project in Hprojected. by rewrite Hvalue in Hprojected.
Qed.

Lemma csv_lines_cells fields (batch : list T) objects :
  Forall2 (fun record object => to_value record = Ok (JObject object)) batch objects ->
  exists rows, Rows.lines_of (csv_record fields) batch = Ok (str_concat (csv_row <$> rows)) /\
    read_as <$> rows = csv_cells fields <$> objects.
Proof.
  induction 1 as [|record object batch objects Hvalue _ (rows & Hrows & Hread)]; [by exists []|].
  destruct (csv_record_cells fields record object Hvalue) as (cells & Hcells & Hshown).
  exists (cells :: rows). split; [|cbn; by rewrite Hshown, Hread].
  unfold Rows.lines_of in *. cbn [res_map]. rewrite Hcells. destruct (res_map _ batch) as [lines|]; [|done]. injection Hrows as Hrows.
  unfold str_concat. cbn [foldr fmap list_fmap]. f_equal. f_equal. exact Hrows.
Qed.

(** C34: What a CSV dump prints reads back as its header and its rows: a
    column for each alias once, in the order first given, and in it the value
    of the last field given for the alias, absent where it is null, however
    the text holds commas, quotes and line breaks. Only a line of one empty
    cell, which prints empty, is lost to a reader. *)
Theorem csv_dump_reads (batch : list T) objects projection colored text :
  Forall2 (fun record object => to_value record = Ok (JObject object)) batch objects ->
  dump_render batch CsvDump projection true colored = Ok text ->
  Rows.csv_records text = filter (fun cells => blank cells = false)
    (projected_aliases (csv_fields projection) :: (csv_cells (csv_fields projection) <$> objects)).
Proof.
  intros Hobjects. rewrite dump_render_lines. unfold format_paint. rewrite bool_decide_eq_false_2, andb_false_r by done.
  assert (row_text CsvDump projection = csv_record (csv_fields projection)) as -> by (by destruct projection).
  destruct (csv_lines_cells (csv_fields projection) batch objects Hobjects) as (rows & -> & Hread). intros [= <-].
  change (heading_text CsvDump projection true) with (csv_header (csv_fields projection)). unfold csv_header.
  change (csv_row ?header +:+ str_concat (csv_row <$> rows)) with (str_concat (csv_row <$> header :: rows)).
  rewrite csv_rows_read. rewrite fmap_cons, Hread. f_equal. f_equal. unfold read_as. rewrite <- list_fmap_compose.
  by rewrite list_fmap_id.
Qed.
End reading.

(** ** A concrete store *)

Module Sample.
(** Numbers for rows, over a list of them; a filter is the least that
    matches. *)
Definition object_of (row : Z) : Object := [("id", JNumber (pretty row)); ("text", JText "a, b")].

Definition enquoted (text : string) : string := String mark (text +:+ String mark "").

#[local] Instance numbers_serialize : Serialize Z := {|
  WIRE_KEYS := ["id"; "text"];
  to_value row := Ok (JObject (object_of row));
  to_writer row := Ok ("{" +:+ enquoted "id" +:+ ":" +:+ pretty row +:+ "," +:+ enquoted "text" +:+ ":" +:+ enquoted "a, b" +:+ "}")
|}.

#[local] Instance numbers_text : JsonText := fun value =>
  match value with JNumber number => number | JText text => enquoted text | JNull => "null" | _ => "{}" end.

#[local] Instance numbers_painters : Painters := {|
  from_str _ := None; quoted := enquoted; is_uuid _ := false; is_instant _ := false
|}.

Definition at_least (least : Z) (rows : list Z) : list Z := List.filter (fun row => (least <=? row)%Z) rows.

Definition numbers (turso : bool) (broken : bool) : Dumpable (list Z) Z Z Z unit := {|
  surface := RecordGroup Logs; table_name := "logs"; dump_serves _ := true;
  dump_parse pairs := match pairs with [] => Ok 0%Z | _ => Err Delegated end;
  dump_build _ := Ok []; dump_batches _ _ := Ok None; dump_open _ := Ok tt; dump_limit _ := None;
  dump_turso := turso;
  dump_cursor least rows := Ok ((Ok <$> at_least least rows) ++ (if broken then [Err (DbFailed "lost")] else []));
  dump_decode := res_map Ok;
  dump_count least rows := Ok (Z.of_nat (length (at_least least rows)));
  dump_any least rows := Ok (existsb (fun row => (least <=? row)%Z) rows);
  dump_delete least rows := (Ok 0%Z, List.filter (fun row => (row <? least)%Z) rows);
  dump_delete_returning least rows := (Ok (at_least least rows), List.filter (fun row => (row <? least)%Z) rows);
  dump_update _ _ rows := (Ok 0%Z, rows); dump_update_returning _ _ rows := (Ok [], rows);
  dump_load _ _ rows := (Ok 0%Z, rows); no_spans := tt; dump_cover _ _ := tt
|}.

Definition matches_of (given : list (string * string)) : ArgMatches := {|
  get_many id := match List.find (fun pair => bool_decide (pair.1 = id)) given with
                 | Some (_, value) => Some [value] | None => None end;
  indices_of _ := []; get_flag _ := false
|}.

Definition terminal : Surroundings :=
  {| no_color := false; force_color := false; stdout_terminal := true; stdin_terminal := true |}.

Definition world_of (rows : list Z) (lines : list string) : World (list Z) :=
  {| db := rows; stdout := "$ "; outputs := {["out.csv" := "old"]}; faults := []; typed := Ok <$> lines; asked := [] |}.

Definition running (turso broken : bool) :=
  dump_run (Dumpable0 := numbers turso broken) (fun _ => None) terminal (Err (exit_status 1)) (Ok tt)
    (fun _ _ => ret (Ok tt)) (fun _ _ _ => ret (Ok tt)) None.

(** A thousand rows and more. *)
Definition many (n : nat) : list Z := Z.of_nat <$> seq 0 n.
End Sample.

Example numbers_dump : (Sample.running false false SelectVerb (Sample.matches_of [("output", "out.csv")])
    (Sample.world_of [3; 4]%Z [])).2 =
  landed (Some "out.csv") ("id,text" +:+ line_end +:+ "3," +:+ Sample.enquoted "a, b" +:+ line_end +:+
    "4," +:+ Sample.enquoted "a, b" +:+ line_end) (Sample.world_of [3; 4]%Z []).
Proof. vm_compute. reflexivity. Qed.

Module Samples.
Export Sample.
#[local] Existing Instances numbers_serialize numbers_text numbers_painters.

Definition csv_of (rows : list Z) : string :=
  match dump_render rows CsvDump [] true false with Ok text => text | Err _ => "" end.

Definition to_file : ArgMatches := matches_of [("output", "out.csv")].

Lemma select_prints_witness :
  running false false SelectVerb to_file (world_of [3; 4; 5]%Z []) =
    (Ok tt, landed (Some "out.csv") (csv_of [3; 4; 5]%Z) (world_of [3; 4; 5]%Z [])).
Proof.
  apply (select_prints (Dumpable0 := numbers false false) (fun _ => None) terminal (Err (exit_status 1)) (Ok tt)
    (fun _ _ => ret (Ok tt)) (fun _ _ _ => ret (Ok tt)) None to_file 0%Z Ok [3; 4; 5]%Z [3; 4; 5]%Z).
  - done.
  - done.
  - done.
  - by repeat split.
  - unfold matched. rewrite decide_False by done. exists [], (Ok <$> [3; 4; 5]%Z). split; [by vm_compute|done].
  - by vm_compute.
  - by vm_compute.
Defined.

Lemma select_fails_witness :
  exists out, running true true SelectVerb to_file (world_of [3; 4]%Z []) =
    (Err {| status := 1; message := Some "lost" |}, left_behind CsvDump (Some "out.csv") [3; 4]%Z out (world_of [3; 4]%Z [])).
Proof.
  destruct (select_fails (Dumpable0 := numbers true true) (fun _ => None) terminal (Err (exit_status 1)) (Ok tt)
    (fun _ _ => ret (Ok tt)) (fun _ _ _ => ret (Ok tt)) None to_file 0%Z Ok [3; 4]%Z (DbFailed "lost") [3; 4]%Z
    (csv_of [3; 4]%Z) (world_of [3; 4]%Z [])) as (out & Hout & Hrun).
  - done.
  - done.
  - done.
  - by repeat split.
  - unfold matched. rewrite decide_False by done. exists [], ((Ok <$> [3; 4]%Z) ++ [Err (DbFailed "lost")]).
    split; [by vm_compute|done].
  - by vm_compute.
  - by vm_compute.
  - exists out. exact Hrun.
Defined.


Lemma csv_dump_reads_witness :
  Rows.csv_records (csv_of [3; 4]%Z) = [["id"; "text"]; ["3"; "a, b"]; ["4"; "a, b"]].
Proof.
  rewrite (csv_dump_reads [3; 4]%Z [object_of 3; object_of 4] [] false (csv_of [3; 4]%Z)).
  - by vm_compute.
  - by repeat constructor.
  - by vm_compute.
Defined.
End Samples.

(** * Following new records

    [ceres-cli/src/commands/follow.rs]: the one verb that reads a running
    engine. Each frame of its stream is a record's JSON, read as a load reads
    a line and rendered as a select renders a chunk, and printed as it
    arrives. *)

(** What reading the socket gives: a text, its closing, a frame that carries
    nothing, or a failure. *)
Inductive Frame := TextFrame (text : string) | CloseFrame | OtherFrame | BrokenFrame.

Section follow.
Context {Db T : Type} `{!Serialize T} `{Painters} `{JsonText}.
Context (to_string_pretty : Jvalue -> option string).
(** [ceres_database::read] of a table's JSON line: its batches, if it reads. *)
Context (read_frame : string -> option (list (list T))).

(** [render]. *)
Definition follow_render (frame : string) (format : DumpFormat) (projection : list (string * string)) (colored : bool)
    (sink : Sink) : result string string * Sink :=
  match read_frame frame with
  | None => (Err ("unreadable record in the stream: " +:+ frame), sink)
  | Some [] => (Ok "", sink)
  | Some (records :: _) =>
      let format := match format with TableDump => JsonDump | other => other end in
      let heading := sink_heading sink in
      (match dump_render records format projection heading colored with
       | Ok text => Ok text
       | Err error => Err (db_error_text error)
       end, headed sink)
  end.

(** The loop of [run] over the frames the socket gives, which end where it
    closes or breaks. *)
Fixpoint follow_frames (invocation : Invocation) (format : DumpFormat) (colored : bool) (frames : list Frame)
    (sink : Sink) : Run Db (result unit Exit) :=
  let stop (sink : Sink) : Run Db (result unit Exit) :=
    let% finished := sink_finish sink in
    match finished with
    | Ok (Some held) => deliver to_string_pretty invocation (Bytes held) colored
    | Ok None | Err _ => ret (Ok tt)
    end in
  match frames with
  | [] | CloseFrame :: _ | BrokenFrame :: _ => stop sink
  | OtherFrame :: frames => follow_frames invocation format colored frames sink
  | TextFrame frame :: frames =>
      match follow_render frame format (projected invocation) colored sink with
      | (Err message, _) => deliver to_string_pretty invocation (Failed message) colored
      | (Ok rendered, sink) =>
          let% pushed := sink_push sink rendered in
          match pushed with
          | (Ok _, sink) => follow_frames invocation format colored frames sink
          | (Err error, sink) =>
              if broke sink then ret (Ok tt)
              else deliver to_string_pretty invocation (Failed (db_error_text (written error))) colored
          end
      end
  end.

(** [run]: the filter parses, the project is found, an engine runs for it, and
    its stream opens on the pairs as they were typed. *)
Definition follow_run {Filter Client : Type} (parse : list (string * string) -> result Filter Refusal)
    (discover : result unit Exit) (connect : result Client Exit)
    (stream : Client -> list (string * string) -> result (list Frame) Exit)
    (invocation : Invocation) (format : DumpFormat) (colored : bool) : Run Db (result unit Exit) :=
  match parse (wire_pairs invocation) with
  | Err refusal => ret (Err (refused to_string_pretty refusal))
  | Ok _ =>
      match discover with
      | Err exit => ret (Err exit)
      | Ok _ =>
          match connect with
          | Err _ => ret (Err (exit_failed to_string_pretty
              "Following reads new rows from a running engine, and none is running for this project. Start it with `ceres run`."))
          | Ok client =>
              match stream client (wire_pairs invocation) with
              | Err error => ret (Err (exit_failed to_string_pretty
                  ("Cannot open the engine's stream. " +:+ default "" (message error))))
              | Ok frames =>
                  follow_frames invocation format colored frames (sink_live (output invocation) (with_header invocation))
              end
          end
      end
  end.
End follow.

(** ** What a follow prints *)

(** The texts a socket carries before it closes or breaks. *)
Fixpoint frame_texts (frames : list Frame) : list string :=
  match frames with
  | TextFrame text :: frames => text :: frame_texts frames
  | OtherFrame :: frames => frame_texts frames
  | _ => []
  end.

(** A table, which has no end to be drawn at, is followed as JSON lines. *)
Definition lined_format (format : DumpFormat) : DumpFormat :=
  match format with TableDump => JsonDump | other => other end.

Section following.
Context {Db T : Type} `{!Serialize T} `{Painters} `{JsonText}.
Context (to_string_pretty : Jvalue -> option string) (read_frame : string -> option (list (list T))).
Implicit Types world : World Db.

Definition live_at (output : option string) (heading open : bool) : Sink :=
  {| sink_output := output; hold := false; held := None; destination := open; sink_heading := heading; broke := false;
     accumulate := false |}.

Definition some_rows (records : list T) : bool := match records with [] => false | _ => true end.

Lemma follow_frames_lands invocation format colored frames records text header open out world :
  prints_utf8 (T := T) (lined_format format) (projected invocation) colored -> faults world = [] ->
  Forall2 (fun frame record => exists rest, read_frame frame = Some ([record] :: rest)) (frame_texts frames) records ->
  dump_render records (lined_format format) (projected invocation) (negb open && header) colored = Ok text ->
  (open = false -> out = "") ->
  follow_frames to_string_pretty read_frame invocation format colored frames
      (live_at (output invocation) (negb open && header) open) (world_at (output invocation) open out world) =
    (Ok tt, if some_rows records then landed (output invocation) (out +:+ text) world
            else world_at (output invocation) open out world).
Proof.
  intros Hutf8 Hfaults Hframes. remember (frame_texts frames) as texts eqn:Htexts.
  revert frames Htexts text header open out.
  induction Hframes as [|frame record texts records [rest Hread] Hframes IH]; intros frames Htexts text header open out Htext Hout.
  - cbn [some_rows]. induction frames as [|[?| | |] frames IHframes]; cbn [frame_texts] in Htexts; try done.
    all: cbn [follow_frames]; first [by apply IHframes|by destruct open].
  - induction frames as [|[found| | |] frames IHframes]; cbn [frame_texts] in Htexts; try done.
    2: { cbn [follow_frames]. by apply IHframes. }
    clear IHframes. injection Htexts as <- Htexts.
    change (record :: records) with ([record] ++ records) in Htext.
    apply dump_render_app in Htext as (before & after & Hbefore & Hafter & ->); [|done].
    cbn [follow_frames]. unfold follow_render. rewrite Hread. cbn [sink_heading live_at].
    change (match format with TableDump => JsonDump | other => other end) with (lined_format format). rewrite Hbefore.
    change (headed (live_at (output invocation) (negb open && header) open)) with (live_at (output invocation) false open).
    assert (sink_push (live_at (output invocation) false open) before (world_at (output invocation) open out world) =
      ((Ok tt, live_at (output invocation) (negb true && header) true), landed (output invocation) (out +:+ before) world)) as Hpush
      by exact (sink_write_opens (live_at (output invocation) false open) out before world Hfaults Hout).
    unfold and_then. rewrite Hpush.
    change (landed (output invocation) (out +:+ before) world) with (world_at (output invocation) true (out +:+ before) world).
    rewrite (IH frames Htexts after header true (out +:+ before) Hafter) by done.
    cbn [some_rows]. destruct records as [|next records]; cbn [some_rows world_at]; [|by rewrite str_app_assoc].
    do 2 f_equal. rewrite dump_render_lines in Hafter. cbn in Hafter. injection Hafter as <-.
    assert (format_paint (lined_format format) (heading_text (lined_format format) (projected invocation) false +:+ "") colored = "")
      as -> by (by destruct format, colored). by rewrite str_app_nil_r.
Qed.

(** Following prints the records that arrive as a select of them would, each
    as it comes, and the header before the first alone; a stream that brings
    none leaves nothing. *)
Lemma follow_prints invocation format colored frames records text world :
  prints_utf8 (T := T) (lined_format format) (projected invocation) colored -> faults world = [] ->
  Forall2 (fun frame record => exists rest, read_frame frame = Some ([record] :: rest)) (frame_texts frames) records ->
  dump_render records (lined_format format) (projected invocation) (with_header invocation) colored = Ok text ->
  follow_frames to_string_pretty read_frame invocation format colored frames
      (sink_live (output invocation) (with_header invocation)) world =
    (Ok tt, if some_rows records then landed (output invocation) text world else world).
Proof.
  intros Hutf8 Hfaults Hframes Htext.
  exact (follow_frames_lands invocation format colored frames records text (with_header invocation) false "" world
    Hutf8 Hfaults Hframes Htext (fun _ => eq_refl)).
Qed.
End following.
