(* ===== verification/Client.v ===== *)
(** * The client of a running engine

    [ceres-cli/src/client.rs], and the terminal it answers to
    ([ceres-cli/src/output.rs]): requests and their URLs, what an answer or a
    failure comes to, and the lines written to standard output and standard
    error. A session is the answers the engine gives, in order, with what was
    asked of it and printed. *)
From S2P Require Import Prelude.
From stdpp Require Import pretty.
From S2P Require Import Text Wire Json Http Rows Screen Dump.
Local Open Scope string_scope.
Local Open Scope list_scope.

(** ** Reading a JSON value *)

(** Indexing a value by a key, [Null] where there is none. *)
Definition at_ (key : string) (value : Jvalue) : Jvalue :=
  match value with JObject object => default JNull (jget key object) | _ => JNull end.

Definition as_array (value : Jvalue) : option (list Jvalue) :=
  match value with JArray items => Some items | _ => None end.
Definition as_object (value : Jvalue) : option Object :=
  match value with JObject object => Some object | _ => None end.
Definition elements (value : Jvalue) : list Jvalue := default [] (as_array value).

(** [as_u64]: a number that prints as digits and is held. *)
Definition as_u64 (value : Jvalue) : option Z :=
  match value with
  | JNumber "" => None
  | JNumber text => number ← digits_value text 0; if (number <? 2 ^ 64)%Z then Some number else None
  | _ => None
  end.

(** Equality of values, whatever the order of an object's keys. *)
Fixpoint value_eq (a b : Jvalue) : bool :=
  match a, b with
  | JNull, JNull => true
  | JBool a, JBool b => Bool.eqb a b
  | JNumber a, JNumber b | JText a, JText b => Strings.String.eqb a b
  | JArray a, JArray b =>
      (fix all (a b : list Jvalue) : bool :=
         match a, b with
         | [], [] => true
         | x :: a, y :: b => value_eq x y && all a b
         | _, _ => false
         end) a b
  | JObject a, JObject b =>
      (length a =? length b)%nat &&
      (fix all (a : Object) : bool :=
         match a with
         | [] => true
         | (key, x) :: a => match jget key b with Some y => value_eq x y | None => false end && all a
         end) a
  | _, _ => false
  end.

(** ** URLs *)

(** The bytes [encode] leaves alone, and [%{byte:02X}]. *)
Definition unreserved (c : ascii) : bool :=
  byte_in 65 90 c || byte_in 97 122 c || byte_in 48 57 c || Strings.Ascii.eqb c "-" || Strings.Ascii.eqb c "_" ||
  Strings.Ascii.eqb c "." || Strings.Ascii.eqb c "~".

Definition hex_high (digit : Z) : ascii :=
  Strings.Ascii.ascii_of_nat (Z.to_nat (if (digit <? 10)%Z then digit + 48 else digit + 55)%Z).

Definition percent (c : ascii) : string :=
  String "%" (String (hex_high (byte_of c / 16)) (String (hex_high (byte_of c mod 16)) "")).

(** [encode]. *)
Fixpoint encode (value : string) : string :=
  match value with
  | EmptyString => ""
  | String c value => (if unreserved c then String c "" else percent c) +:+ encode value
  end.

Record ServerInfo := { info_port : Z; info_token : string }.

(** [Client::url]: its query, and the whole. *)
Fixpoint url_query (separator : ascii) (query : list (string * string)) : string :=
  match query with
  | [] => ""
  | (name, value) :: query => String separator (name +:+ "=" +:+ encode value) +:+ url_query "&" query
  end.

Definition url (self : ServerInfo) (path : string) (query : list (string * string)) : string :=
  "http://127.0.0.1:" +:+ pretty (info_port self) +:+ "/api/" +:+ path +:+ url_query "?" query.

(** ** Sessions *)

Inductive Request :=
  | GetRequest (url token : string)
  | PostRequest (url token : string) (body : option Jvalue).

(** What a request comes to: no connection, or a status and a body that may
    not read. *)
Inductive Response :=
  | Unreached (error : string)
  | Responded (status : Z) (body : result string string).

Record Session := {
  answers : list Response;
  requests : list Request;
  printed : string;
  shown_lines : string
}.

Definition Talk (A : Type) : Type := Session -> A * Session.

Definition say {A} (a : A) : Talk A := fun session => (a, session).
Definition then_ {A B} (m : Talk A) (k : A -> Talk B) : Talk B :=
  fun session => let (a, session) := m session in k a session.

(** [?] on a fallible step. *)
Definition try_ {A B E} (m : Talk (result A E)) (k : A -> Talk (result B E)) : Talk (result B E) :=
  then_ m (fun answer => match answer with Ok a => k a | Err error => say (Err error) end).

Declare Scope talk_scope.
Notation "'do%' x ':=' m 'in' k" := (then_ m (fun x => k))
  (at level 200, x pattern, m at level 100, k at level 200, right associativity) : talk_scope.
Notation "'do?' x ':=' m 'in' k" := (try_ m (fun x => k))
  (at level 200, x pattern, m at level 100, k at level 200, right associativity) : talk_scope.
Local Open Scope talk_scope.

(** An engine that answers no more is not there. *)
Definition ask (request : Request) : Talk Response := fun session =>
  match answers session with
  | [] => (Unreached "", {| answers := []; requests := requests session ++ [request]; printed := printed session;
                            shown_lines := shown_lines session |})
  | answer :: rest =>
      (answer, {| answers := rest; requests := requests session ++ [request]; printed := printed session;
                  shown_lines := shown_lines session |})
  end.

Definition print_out (text : string) : Talk unit := fun session =>
  (tt, {| answers := answers session; requests := requests session; printed := printed session +:+ text;
          shown_lines := shown_lines session |}).
Definition print_err (text : string) : Talk unit := fun session =>
  (tt, {| answers := answers session; requests := requests session; printed := printed session;
          shown_lines := shown_lines session +:+ text |}).

(** ** The terminal *)

(** [Output]. *)
Record Output := { out_color : bool; result_color : bool; live : bool }.

(** [color_from_environment] and [Output::new]. *)
Definition color_from_environment (around : Surroundings) : option bool :=
  if no_color around then Some false else if force_color around then Some true else None.

Definition output_new (around : Surroundings) (stderr_terminal : bool) (color : option bool) : Output :=
  let resolved := match color with Some color => Some color | None => color_from_environment around end in
  {| out_color := default stderr_terminal resolved; result_color := default (stdout_terminal around) resolved;
     live := stderr_terminal |}.

Definition WARNING : string := String escape "[33m".
Definition ERASE_LINE : string := String return_ (String escape "[2K").

Section terminal.
Context `{Painters} (self : Output).

(** [write], [warn], [put] and [write_table]. *)
Definition write_line (message : string) : Talk unit := print_err (message +:+ line_end).
Definition warn (message : string) : Talk unit :=
  print_err ((if out_color self then WARNING +:+ message +:+ RESET else message) +:+ line_end).
Definition put_line (value : string) : Talk unit :=
  print_out ((if result_color self then paint_text value else value) +:+ line_end).
Definition write_table (table : Table) : Talk unit := write_line (Screen.render (out_color self) table).

(** [Progress::show] and [clear], over the line shown. *)
Definition progress_show (shown line : string) : Talk string :=
  if Strings.String.eqb line shown then say shown
  else
    do% _ := print_err (if live self then ERASE_LINE +:+ line else line +:+ line_end) in
    say line.
Definition progress_clear (shown : string) : Talk unit :=
  if live self && negb (Strings.String.eqb shown "") then print_err ERASE_LINE else say tt.
End terminal.

(** ** Answers *)

Section client.
Context `{Painters} `{JsonText} (to_string_pretty : Jvalue -> option string).

Notation failed := (exit_failed to_string_pretty).

(** [failure!] with an [Exit] in its text. *)
Definition exit_text (self : Exit) : string := default "" (message self).

(** [error_message]: one problem, and the whole envelope. *)
Definition problem_text (problem : Jvalue) : option string :=
  text ← as_str (at_ "message" problem);
  let location :=
    (fun part => default (json_line part) (as_str part)) <$> elements (at_ "location" problem) in
  Some match location with [] => text | _ => join_with "." location +:+ ": " +:+ text end.

Definition error_message (body : string) : string :=
  match from_str body with
  | None => body
  | Some envelope =>
      match omap problem_text (elements (at_ "problems" envelope)) with
      | [] => default body (as_str (at_ "message" envelope))
      | problems => join_with " " problems
      end
  end.

(** [Client::body]. *)
Definition client_body (response : Response) : result string Exit :=
  match response with
  | Unreached error => Err (failed ("Failed to connect to the CLI server. " +:+ error))
  | Responded _ (Err error) => Err (failed ("Failed to read response. " +:+ error))
  | Responded status (Ok body) =>
      if (400 <=? status)%Z then
        Err (failed (if Strings.String.eqb body "" then "Request failed with status " +:+ pretty status +:+ "."
                     else error_message body))
      else Ok body
  end.

(** [Client::get] and [post]. *)
Definition client_get (self : ServerInfo) (path : string) (query : list (string * string)) : Talk (result string Exit) :=
  do% response := ask (GetRequest (url self path query) (info_token self)) in
  say (client_body response).

Definition client_post (self : ServerInfo) (path : string) (query : list (string * string)) (body : option Jvalue) :
    Talk (result string Exit) :=
  do% response := ask (PostRequest (url self path query) (info_token self) body) in
  say (client_body response).

(** [Client::connect], [alive] and [connect_alive]. *)
Definition connect (info_path : string) (info : option ServerInfo) : result ServerInfo Exit :=
  match info with
  | Some info => Ok info
  | None => Err (failed ("Server does not appear to be running. '" +:+ info_path +:+ "' doesn't exist or isn't readable."))
  end.

Definition alive (self : ServerInfo) : Talk bool :=
  do% response := ask (GetRequest (url self "alive" []) (info_token self)) in
  say match response with Responded status _ => (status <? 502)%Z | Unreached _ => false end.

Definition connect_alive (info : option ServerInfo) : Talk (option ServerInfo) :=
  match info with
  | None => say None
  | Some info => do% up := alive info in say (if up then Some info else None)
  end.
End client.
