(* ===== verification/Exports.v ===== *)
(** * Export runs and playbacks

    [ceres-cli/src/commands/exports.rs]: runs started in a running engine and
    followed until they end, what is said of them, and the spans a load hands
    over for the exporters. *)
From S2P Require Import Prelude.
From stdpp Require Import pretty.
From S2P Require Import Text Wire Json Http Entities Discovery Rows Screen Dump Client.
Local Open Scope string_scope.
Local Open Scope list_scope.
Local Open Scope talk_scope.

Definition is_true (value : Jvalue) : bool := value_eq value (JBool true).
Definition is_false (value : Jvalue) : bool := value_eq value (JBool false).

(** ** Words for what a run says *)

Definition number (value : Jvalue) : string := pretty (default 0%Z (as_u64 value)).

Definition counted (value : Jvalue) (noun : string) : string :=
  let count := number value in
  if Strings.String.eqb count "1" then "1 " +:+ noun else count +:+ " " +:+ noun +:+ "s".

Definition json_count (n : nat) : Jvalue := JNumber (pretty (Z.of_nat n)).

(** [time]: an open bound in words. *)
Definition time_text (value : Jvalue) : string := default "the open end" (as_str value).

Definition keep_reason (reason : Jvalue) : string :=
  match as_str reason with
  | Some text =>
      if decide (text = "skip") then "exists"
      else if decide (text = "history") then "starts before the stored records"
      else if decide (text = "partial") then "only part of it is in range"
      else if decide (text = "empty") then "no stored records"
      else ""
  | None => ""
  end.

(** [describe_export], and [export_outcome]. *)
Definition describe_export (name : string) (run : Jvalue) : string :=
  "Exporting '" +:+ name +:+ "': " +:+ number (at_ "periods_done" run) +:+ " of " +:+
  counted (at_ "periods" run) "file" +:+ ", " +:+ counted (at_ "count" run) "record".

Definition some_counted (value : Jvalue) : bool := match as_u64 value with Some count => (0 <? count)%Z | None => false end.

Definition export_outcome (name : string) (run : Jvalue) : string :=
  let line :=
    "Exporter '" +:+ name +:+ "' wrote " +:+ counted (at_ "count" run) "record" +:+ " to " +:+
    counted (json_count (length (elements (at_ "files" run)))) "file" in
  let line :=
    foldl (fun line field =>
      if some_counted (at_ field run) then line +:+ ", " +:+ field +:+ " " +:+ counted (at_ field run) "file" else line)
      line ["kept"; "removed"] in
  line +:+ ".".

(** [playback_outcome]. *)
Definition playback_outcome (run : Jvalue) : string :=
  let line :=
    "Playback replayed " +:+ counted (at_ "messages" run) "message" +:+ " into " +:+
    counted (at_ "particles" run) "particle" in
  let line :=
    if some_counted (at_ "deleted" run)
    then line +:+ ", replacing " +:+ counted (at_ "deleted" run) "stored particle" else line in
  let line :=
    match as_array (at_ "export_runs" run) with
    | None | Some [] => line
    | Some runs => line +:+ ", and ran " +:+ counted (json_count (length runs)) "export"
    end in
  let line := line +:+ "." in
  if negb (value_eq (at_ "after" run) (at_ "before" run)) &&
     (negb (value_eq (at_ "after" run) (at_ "requested_after" run)) ||
      negb (value_eq (at_ "before" run) (at_ "requested_before" run)))
  then line +:+ " It covered " +:+ time_text (at_ "after" run) +:+ " to " +:+ time_text (at_ "before" run) +:+
    ", where the request named " +:+ time_text (at_ "requested_after" run) +:+ " to " +:+
    time_text (at_ "requested_before" run) +:+ "."
  else line.

Definition plain_cell (text : string) : Cell := {| cell_text := text; cell_style := None |}.
Definition text_at (key : string) (value : Jvalue) : string := default "" (as_str (at_ key value)).

(** ** The modes a command names *)

(** [ExportConflict], [ExportRangeMode] and [PlaybackLevel], and the names they
    serialize as. *)
Inductive ExportConflict := ConflictError | ConflictSkip | ConflictOverwrite | ConflictPurge.
Inductive ExportRangeMode := RangeExpand | RangeExact | RangeShrink.

Inductive PlaybackLevel := LevelParticles | LevelFull.

#[export] Instance export_conflict_eq_dec : EqDecision ExportConflict.
Proof. solve_decision. Defined.

Definition conflict_name (self : ExportConflict) : string :=
  match self with
  | ConflictError => "error" | ConflictSkip => "skip" | ConflictOverwrite => "overwrite" | ConflictPurge => "purge"
  end.
Definition range_name (self : ExportRangeMode) : string :=
  match self with RangeExpand => "expand" | RangeExact => "exact" | RangeShrink => "shrink" end.

Definition level_name (self : PlaybackLevel) : string :=
  match self with LevelParticles => "particles" | LevelFull => "full" end.

(** [RangeArgs], and its body. *)
Record RangeArgs := { range_after : string; range_before : option string }.

Definition range_body (self : RangeArgs) (body : Object) : Jvalue :=
  let body := jinsert "after" (JText (range_after self)) body in
  JObject match range_before self with Some before => jinsert "before" (JText before) body | None => body end.

Record ExportArgs := {
  export_address : string;
  exporter : option string;
  export_span : RangeArgs;
  export_conflict : ExportConflict;
  export_mode : ExportRangeMode;
  export_dry_run : bool
}.

Record PlaybackArgs := {
  playback_address : string;
  playback_span : RangeArgs;
  playback_level : PlaybackLevel;
  playback_export : bool;
  on_export_conflict : option ExportConflict;
  export_range_mode : option ExportRangeMode;
  playback_dry_run : bool
}.

(** What [serde_json] reads an engine's answers as: a started run's ID, the
    names of exporters, a list of runs, and any value; and a share of one as
    the percentage it prints, by [as_f64], a product and a floor. *)
Class EngineReaders := {
  read_started : string -> result string string;
  read_exporters : string -> result (list string) string;
  read_runs : string -> result (list Jvalue) string;
  read_plan : string -> result Jvalue string;
  percentage : Jvalue -> string
}.

Section exports.
Context `{Painters} `{JsonText} `{EngineReaders} (to_string_pretty : Jvalue -> option string).
Context (output : Output) (info_path : string) (server_info : option ServerInfo).

Notation failed := (exit_failed to_string_pretty).
Notation client_get := (client_get to_string_pretty).
Notation client_post := (client_post to_string_pretty).
Notation connected := (connect to_string_pretty info_path server_info).

(** [parse]. *)
Definition parse_answer {A} (read : string -> result A string) (body : string) : result A Exit :=
  match read body with Ok value => Ok value | Err error => Err (failed ("Received an invalid response. " +:+ error)) end.

(** [describe_playback]. *)
Definition describe_playback (address : string) (run : Jvalue) : string :=
  if value_eq (at_ "sieves_done" run) (at_ "sieves" run)
  then "Playing back " +:+ address +:+ ": exporting " +:+ counted (at_ "particles" run) "particle"
  else
    "Playing back " +:+ address +:+ ": " +:+ percentage (at_ "progress" run) +:+ "%" +:+
    match as_str (at_ "sieve" run) with Some sieve => ", sieve '" +:+ sieve +:+ "'" | None => "" end +:+
    ", " +:+ counted (at_ "messages" run) "message" +:+ ", " +:+ counted (at_ "particles" run) "particle".

(** ** Following a run *)

(** [follow]: each poll takes one answer of the engine's, so its answers and
    one more are fuel enough. *)
Fixpoint follow_from (fuel : nat) (client : ServerInfo) (path id shown : string) (describe : Jvalue -> string) :
    Talk (result Jvalue Exit * string) :=
  match fuel with
  | O => say (Err (failed "out of fuel"), shown)
  | S fuel =>
      do% got := client_get client path [] in
      match got with
      | Err exit => say (Err exit, shown)
      | Ok body =>
          match parse_answer read_runs body with
          | Err exit => say (Err exit, shown)
          | Ok runs =>
              match List.find (fun run => value_eq (at_ "id" run) (JText id)) runs with
              | None => say (Err (failed ("Run " +:+ id +:+ " left the engine's list of recent runs before it ended.")), shown)
              | Some run =>
                  if negb (value_eq (at_ "state" run) (JText "running")) then say (Ok run, shown)
                  else
                    do% shown := progress_show output shown (describe run) in
                    follow_from fuel client path id shown describe
              end
          end
      end
  end.

Definition follow (client : ServerInfo) (path id : string) (describe : Jvalue -> string) : Talk (result Jvalue Exit) :=
  fun session =>
    (do% ended := follow_from (S (length (answers session))) client path id "" describe in
     do% _ := progress_clear output ended.2 in
     say ended.1) session.

(** [report]. *)
Definition report (what : string) (run : Jvalue) (outcome : Jvalue -> string) : Talk bool :=
  do% _ := put_line output (json_line run) in
  match as_str (at_ "exception" run) with
  | Some exception => do% _ := warn output (what +:+ " failed. " +:+ exception) in say true
  | None => do% _ := write_line (outcome run) in say false
  end.

(** ** Plans *)

(** [describe_export_plan]: its table, and all of it. *)
Definition plan_table (files : list Jvalue) : Table :=
  let reasons := existsb (fun file => negb (is_null (at_ "reason" file))) files in
  {| title := None;
     table_columns := ["File"; "Action"; "Records"] ++ (if reasons then ["Reason"] else []);
     table_rows :=
       (fun file =>
          [plain_cell (text_at "path" file); plain_cell (text_at "action" file); plain_cell (number (at_ "records" file))] ++
          (if reasons then [plain_cell (keep_reason (at_ "reason" file))] else [])) <$> files |}.

Definition describe_export_plan (plan : Jvalue) : Talk unit :=
  let name := text_at "exporter" plan in
  if is_false (at_ "covered" plan) then
    write_line ("Exporter '" +:+ name +:+ "' would write nothing, since no whole file fits the range.")
  else
    let files := elements (at_ "files" plan) in
    do% _ := write_line ("Exporter '" +:+ name +:+ "' would write " +:+ counted (at_ "count" plan) "record" +:+ " from " +:+
      time_text (at_ "effective_after" plan) +:+ " to " +:+ time_text (at_ "effective_before" plan) +:+ ".") in
    do% _ :=
      if negb (value_eq (at_ "effective_after" plan) (at_ "after" plan)) ||
         negb (value_eq (at_ "effective_before" plan) (at_ "before" plan))
      then write_line ("The request named " +:+ time_text (at_ "after" plan) +:+ " to " +:+ time_text (at_ "before" plan) +:+
        ", which range mode '" +:+ text_at "range_mode" plan +:+ "' aligns to the files.")
      else say tt in
    match files with [] => say tt | _ => write_table output (plan_table files) end.

(** [describe_playback_plan]: its sieves, its log entries, each distinct one
    once, and all of it. *)
Definition sieve_table (sieves : list Jvalue) : Table :=
  let stopped := existsb (fun sieve => negb (is_null (at_ "exception" sieve))) sieves in
  {| title := None;
     table_columns := ["Sieve"; "Messages"; "Particles"] ++ (if stopped then ["Stopped"] else []);
     table_rows :=
       (fun sieve =>
          [plain_cell (text_at "name" sieve); plain_cell (number (at_ "messages" sieve));
           plain_cell (number (at_ "particles" sieve))] ++
          (if stopped then [plain_cell (text_at "exception" sieve)] else [])) <$> sieves |}.

(** [str::to_uppercase], whose tables are Unicode's. *)
Context (to_uppercase : string -> string).

Fixpoint repeated (entry : string * string) (distinct : list (string * string * Z)) : list (string * string * Z) :=
  match distinct with
  | [] => [(entry, 1%Z)]
  | (shown, repeats) :: distinct =>
      if decide (shown = entry) then (shown, (repeats + 1)%Z) :: distinct else (shown, repeats) :: repeated entry distinct
  end.

Definition distinct_entries (entries : list Jvalue) : list (string * string * Z) :=
  foldl (fun distinct entry => repeated (to_uppercase (text_at "level" entry), text_at "content" entry) distinct) [] entries.

Fixpoint each {A} (step : A -> Talk unit) (items : list A) : Talk unit :=
  match items with
  | [] => say tt
  | item :: items => do% _ := step item in each step items
  end.

Definition describe_logs (plan : Jvalue) (counts : Object) : Talk unit :=
  let counts := (fun entry => entry.1 +:+ " " +:+ number entry.2) <$> counts in
  do% _ := write_line ("Sieve log entries by level: " +:+ join_with ", " counts +:+ ".") in
  do% _ := each (fun '(level, content, repeats) =>
    write_line ("  " +:+ level +:+ " " +:+ content +:+
      (if (repeats =? 1)%Z then "" else " (" +:+ pretty repeats +:+ " times)")))
    (distinct_entries (elements (at_ "logs" plan))) in
  if is_true (at_ "logs_truncated" plan)
  then write_line ("  Only the first " +:+ pretty (Z.of_nat (length (elements (at_ "logs" plan)))) +:+ " entries are shown.")
  else say tt.

Definition describe_playback_plan (address : string) (plan : Jvalue) : Talk unit :=
  do% _ := write_line ("Playback of " +:+ address +:+ " would replay " +:+ time_text (at_ "after" plan) +:+ " to " +:+
    time_text (at_ "before" plan) +:+ ", replacing " +:+ counted (at_ "deleted" plan) "stored particle" +:+ ".") in
  do% _ :=
    if negb (value_eq (at_ "after" plan) (at_ "requested_after" plan)) ||
       negb (value_eq (at_ "before" plan) (at_ "requested_before" plan))
    then write_line ("The request named " +:+ time_text (at_ "requested_after" plan) +:+ " to " +:+
      time_text (at_ "requested_before" plan) +:+ ".")
    else say tt in
  do% _ := match elements (at_ "sieves" plan) with [] => say tt | sieves => write_table output (sieve_table sieves) end in
  do% _ := each describe_export_plan (elements (at_ "exports" plan)) in
  do% _ := match as_object (at_ "log_counts" plan) with
           | None | Some [] => say tt
           | Some counts => describe_logs plan counts
           end in
  if is_false (at_ "complete" plan)
  then warn output "A sieve stopped early, so the counts cover only the messages before it."
  else say tt.

(** ** An export *)

Definition export_body (args : ExportArgs) (dry_run : bool) : Jvalue :=
  range_body (export_span args)
    [("on_conflict", JText (conflict_name (export_conflict args))); ("range_mode", JText (range_name (export_mode args)));
     ("dry_run", JBool dry_run)].

Definition component_path (args : ExportArgs) : string := "components/" +:+ encode (export_address args).
Definition runs_path (args : ExportArgs) (name : string) : string :=
  component_path args +:+ "/exporters/" +:+ encode name +:+ "/runs".

(** The exporters a command runs. *)
Definition exporter_names (client : ServerInfo) (args : ExportArgs) : Talk (result (list string) Exit) :=
  match exporter args with
  | Some name => say (Ok [name])
  | None =>
      do? body := client_get client (component_path args +:+ "/exporters") [] in
      match parse_answer read_exporters body with
      | Ok [] => say (Err (failed ("Component '" +:+ export_address args +:+ "' has no exporters.")))
      | answer => say answer
      end
  end.

(** Its dry runs: one after another, each described. *)
Fixpoint plan_runs (client : ServerInfo) (args : ExportArgs) (names : list string) : Talk (result unit Exit) :=
  match names with
  | [] => say (Ok tt)
  | name :: names =>
      do? body := client_post client (runs_path args name) [] (Some (export_body args true)) in
      match parse_answer read_plan body with
      | Err exit => say (Err exit)
      | Ok plan =>
          do% _ := put_line output (json_line plan) in
          do% _ := describe_export_plan plan in
          plan_runs client args names
      end
  end.

(** The dry runs an [error] conflict takes first. *)
Fixpoint try_runs (client : ServerInfo) (args : ExportArgs) (names : list string) : Talk (result unit Exit) :=
  match names with
  | [] => say (Ok tt)
  | name :: names =>
      do% tried := client_post client (runs_path args name) [] (Some (export_body args true)) in
      match tried with
      | Err error => say (Err (failed ("Exporter '" +:+ name +:+ "' would not run. " +:+ exit_text error)))
      | Ok _ => try_runs client args names
      end
  end.

(** The runs started, and whether any was refused. *)
Fixpoint start_runs (client : ServerInfo) (args : ExportArgs) (names : list string) :
    Talk (list (string * string) * bool) :=
  match names with
  | [] => say ([], false)
  | name :: names =>
      do% body := client_post client (runs_path args name) [] (Some (export_body args false)) in
      match (match body with Ok body => parse_answer read_started body | Err exit => Err exit end) with
      | Ok id =>
          do% rest := start_runs client args names in
          say ((name, id) :: rest.1, rest.2)
      | Err error =>
          do% _ := warn output ("Exporter '" +:+ name +:+ "' did not start. " +:+ exit_text error) in
          do% rest := start_runs client args names in
          say (rest.1, true)
      end
  end.

(** The runs followed, and whether any failed. *)
Fixpoint follow_runs (client : ServerInfo) (args : ExportArgs) (started : list (string * string)) :
    Talk (result bool Exit) :=
  match started with
  | [] => say (Ok false)
  | (name, id) :: started =>
      do? run := follow client (runs_path args name) id (describe_export name) in
      do% failed := report ("Exporter '" +:+ name +:+ "'") run (export_outcome name) in
      do? rest := follow_runs client args started in
      say (Ok (failed || rest))
  end.

(** The runs of an export that is not a dry run. *)
Definition export_runs (client : ServerInfo) (args : ExportArgs) (names : list string) : Talk (result unit Exit) :=
  do? _ :=
    if bool_decide (export_conflict args = ConflictError) && (1 <? length names)%nat
    then try_runs client args names else say (Ok tt) in
  do% started := start_runs client args names in
  do? failed_one := follow_runs client args started.1 in
  if started.2 || failed_one then say (Err (failed "An export run failed.")) else say (Ok tt).

(** [export]. *)
Definition export (args : ExportArgs) : Talk (result unit Exit) :=
  match connected with
  | Err exit => say (Err exit)
  | Ok client =>
      do? names := exporter_names client args in
      if export_dry_run args then plan_runs client args names else export_runs client args names
  end.

(** ** A playback *)

Definition playback_body (args : PlaybackArgs) : Jvalue :=
  let body :=
    match range_body (playback_span args)
      [("level", JText (level_name (playback_level args))); ("export", JBool (playback_export args));
       ("dry_run", JBool (playback_dry_run args))] with JObject body => body | _ => [] end in
  let body :=
    match on_export_conflict args with
    | Some mode => jinsert "on_export_conflict" (JText (conflict_name mode)) body
    | None => body
    end in
  JObject match export_range_mode args with
          | Some mode => jinsert "export_range_mode" (JText (range_name mode)) body
          | None => body
          end.

(** [playback]. *)
Definition playback (args : PlaybackArgs) : Talk (result unit Exit) :=
  match connected with
  | Err exit => say (Err exit)
  | Ok client =>
      let playbacks := "components/" +:+ encode (playback_address args) +:+ "/playbacks" in
      do? answer := client_post client playbacks [] (Some (playback_body args)) in
      if playback_dry_run args then
        match parse_answer read_plan answer with
        | Err exit => say (Err exit)
        | Ok plan =>
            do% _ := put_line output (json_line plan) in
            do% _ := describe_playback_plan (playback_address args) plan in
            say (Ok tt)
        end
      else
        match parse_answer read_started answer with
        | Err exit => say (Err exit)
        | Ok id =>
            do? run := follow client playbacks id (describe_playback (playback_address args)) in
            do% stopped := report "Playback" run playback_outcome in
            if stopped then say (Err (failed "The playback failed.")) else say (Ok tt)
        end
  end.
End exports.

(** ** The spans of a load *)

(** [BTreeMap], kept in the order of its keys: an entry written by what it
    held. *)
Fixpoint btree_alter {V} (key : string) (f : option V -> V) (map : list (string * V)) : list (string * V) :=
  match map with
  | [] => [(key, f None)]
  | (held, value) :: rest =>
      if decide (held = key) then (held, f (Some value)) :: rest
      else if str_lt key held then (key, f None) :: map
      else (held, value) :: btree_alter key f rest
  end.

(** [LoadedSpans]: a first and a last time for each address of each kind. *)
Definition LoadedSpans : Type := list (string * list (string * (Z * Z))).

(** [cover_rows]. *)
Definition widen_span (timestamp : Z) (span : option (Z * Z)) : Z * Z :=
  match span with
  | Some (first, last) => (Z.min first timestamp, Z.max last timestamp)
  | None => (timestamp, timestamp)
  end.

Definition cover_rows (kind : string) (rows : list (string * Z)) (self : LoadedSpans) : LoadedSpans :=
  btree_alter kind (fun addresses =>
    foldl (fun addresses '(address, timestamp) => btree_alter address (widen_span timestamp) addresses)
      (default [] addresses) rows) self.

(** [cover]: the kind of a batch and its rows. *)
Definition span_kind (records : Records) : string :=
  match records with
  | MessageBatch _ => "message" | ParticleBatch _ => "particle" | AlertBatch _ => "alert" | LogBatch _ => "log-entry"
  end.

Definition span_rows (records : Records) : list (string * Z) :=
  match records with
  | MessageBatch rows => (fun row => (message_address row, message_timestamp row)) <$> rows
  | ParticleBatch rows => (fun row => (particle_address row, particle_timestamp row)) <$> rows
  | AlertBatch rows => (fun row => (alert_address row, alert_timestamp row)) <$> rows
  | LogBatch rows => (fun row => (log_address row, log_timestamp row)) <$> rows
  end.

Definition cover (records : Records) (self : LoadedSpans) : LoadedSpans :=
  cover_rows (span_kind records) (span_rows records) self.

(** [duration_trunc] to the microsecond, which a time past the range of
    nanoseconds refuses; and [floor] and [ceiling]. *)
Definition MICROSECOND : Z := 1000.
Definition nanoseconds_held (time : Z) : bool := ((i64_min <=? time) && (time <=? i64_max))%Z.
Definition span_floor (time : Z) : Z :=
  if nanoseconds_held time then (time - time mod MICROSECOND)%Z else time.
Definition span_ceiling (time : Z) : Z :=
  let floor := span_floor time in if (floor =? time)%Z then floor else (floor + MICROSECOND)%Z.

Section spans.
Context (stamp_wire : Z -> string).

(** [entries]: one entry, and all of them. *)
Definition span_entry (modes : LoadExport) (kind address : string) (span : Z * Z) : Object :=
  let entry := [("kind", JText kind); ("address", JText address);
    ("first", JText (stamp_wire (span_floor span.1))); ("last", JText (stamp_wire (span_ceiling span.2)))] in
  let entry := match export_on_conflict modes with Some mode => jinsert "on_conflict" (JText mode) entry | None => entry end in
  match export_range modes with Some mode => jinsert "range_mode" (JText mode) entry | None => entry end.

Definition entries (self : LoadedSpans) (modes : LoadExport) : list Object :=
  self ≫= (fun '(kind, addresses) =>
    (fun '(address, span) => span_entry modes kind address span) <$> addresses).

(** [export_loaded]: to the running engine, or appended to the file the next
    one reads. *)
Context `{Painters} `{JsonText} (to_string_pretty : Jvalue -> option string) (server_info : option ServerInfo).
Context (append_pending : string -> Talk (result unit string)) (pending_path : string).

Definition pending_lines (found : list Object) : string :=
  str_concat ((fun entry => json_line (JObject entry) +:+ line_end) <$> found).

Definition export_loaded (spans : LoadedSpans) (modes : LoadExport) : Talk (result unit Exit) :=
  match entries spans modes with
  | [] => say (Ok tt)
  | found =>
      do% client := connect_alive server_info in
      match client with
      | Some client =>
          do? _ := client_post to_string_pretty client "exports/pending" []
                     (Some (JObject [("entries", JArray (JObject <$> found))])) in
          do% _ := write_line "Exporting the loaded records in the running engine." in
          say (Ok tt)
      | None =>
          do% appended := append_pending (pending_lines found) in
          match appended with
          | Err error => say (Err (exit_failed to_string_pretty ("Failed to write '" +:+ pending_path +:+ "'. " +:+ error)))
          | Ok _ =>
              do% _ := write_line "No engine is running, so the next one to start exports the loaded records." in
              say (Ok tt)
          end
      end
  end.
End spans.
