(* ===== verification/ExportFacts.v ===== *)
(** * What an export leaves, and what a load hands to the exporters

    Over [Client.v] and [Exports.v]: the query of a URL reads back as the
    pairs it carries; an export that exits without failing has started every
    exporter once and seen every run end well, and one refused by a conflict
    has started none; and the spans of a load hold every time it wrote,
    however a database rounds it. *)
From S2P Require Import Prelude.
From stdpp Require Import pretty sorting.
From S2P Require Import Text Wire Json Http Entities Discovery Rows Screen Dump Client Exports.
Local Open Scope string_scope.
Local Open Scope list_scope.
Local Open Scope talk_scope.

(** ** Maps kept in the order of their keys *)

Fixpoint btree_get {V} (key : string) (map : list (string * V)) : option V :=
  match map with
  | [] => None
  | (held, value) :: map => if decide (held = key) then Some value else btree_get key map
  end.

Definition ordered {V} (map : list (string * V)) : Prop :=
  StronglySorted (fun a b => str_lt a.1 b.1 = true) map.

Lemma btree_get_below {V} key (map : list (string * V)) :
  Forall (fun entry => str_lt key entry.1 = true) map -> btree_get key map = None.
Proof.
  induction 1 as [|[held value] map Hheld _ IH]; [done|]. cbn [btree_get]. cbn in Hheld.
  rewrite decide_False; [done|]. intros ->. by rewrite str_lt_irrefl in Hheld.
Qed.

Lemma btree_alter_above {V} bound key f (map : list (string * V)) :
  str_lt bound key = true -> Forall (fun entry => str_lt bound entry.1 = true) map ->
  Forall (fun entry => str_lt bound entry.1 = true) (btree_alter key f map).
Proof.
  intros Hkey. induction 1 as [|[held value] map Hheld Hmap IH]; cbn [btree_alter]; [by repeat constructor|].
  repeat case_match; repeat (constructor; try done).
Qed.

Lemma btree_alter_ordered {V} key f (map : list (string * V)) : ordered map -> ordered (btree_alter key f map).
Proof.
  unfold ordered. induction 1 as [|[held value] map Hmap IH Hheld]; cbn [btree_alter]; [by repeat constructor|].
  destruct (decide (held = key)) as [->|Hne]; [by constructor|].
  destruct (str_lt key held) eqn:Hlt.
  - constructor; [by constructor|]. constructor; [done|]. eapply Forall_impl; [exact Hheld|].
    intros [other ?] Hother. cbn in *. by eapply str_lt_trans.
  - constructor; [done|]. apply btree_alter_above; [|done]. cbn.
    assert (str_le held key = true) as Hle by (by rewrite str_le_not_lt, Hlt).
    by apply str_le_cases in Hle as [|].
Qed.

Lemma btree_get_alter {V} other key f (map : list (string * V)) :
  ordered map ->
  btree_get other (btree_alter key f map) = if decide (key = other) then Some (f (btree_get key map)) else btree_get other map.
Proof.
  induction 1 as [|[held value] map Hmap IH Hheld]; cbn [btree_alter btree_get]; [by case_decide|].
  destruct (decide (held = key)) as [->|Hne]; cbn [btree_get].
  { by repeat case_decide. }
  destruct (str_lt key held) eqn:Hlt; cbn [btree_get].
  - rewrite (btree_get_below key map); [by repeat case_decide; subst|].
    eapply Forall_impl; [exact Hheld|]. intros [next ?] Hnext. cbn in *. by eapply str_lt_trans.
  - rewrite IH. repeat case_decide; subst; done.
Qed.

Lemma btree_get_In {V} key value (map : list (string * V)) :
  ordered map -> (key, value) ∈ map <-> btree_get key map = Some value.
Proof.
  induction 1 as [|[held old] map Hmap IH Hheld]; cbn [btree_get].
  { split; [by intros ?%not_elem_of_nil|done]. }
  rewrite elem_of_cons, IH. case_decide as Hkey; [subst key|].
  - split; [|intros [= ->]; by left]. intros [[= ->]|Hin]; [done|].
    apply IH in Hin. rewrite Forall_forall in Hheld. specialize (Hheld _ Hin). cbn in Hheld. by rewrite str_lt_irrefl in Hheld.
  - split; [intros [[= -> ->]|]; done|by right].
Qed.

(** ** The spans of a load *)

(** A load's batches covered one after another, and the rows they hold. *)
Definition spans_after (batches : list Records) : LoadedSpans :=
  foldl (fun spans batch => cover batch spans) [] batches.

Definition loaded_rows (batches : list Records) : list (string * string * Z) :=
  batches ≫= (fun batch => (fun '(address, timestamp) => (span_kind batch, address, timestamp)) <$> span_rows batch).

(** The span of an address among rows: from the first of its times to the
    last. *)
Definition span_over (kind address : string) (rows : list (string * string * Z)) (span : option (Z * Z)) :
    option (Z * Z) :=
  foldl (fun span '(row_kind, row_address, timestamp) =>
    if decide (row_kind = kind /\ row_address = address) then Some (widen_span timestamp span) else span) span rows.

Definition span_at (kind address : string) (spans : LoadedSpans) : option (Z * Z) :=
  btree_get kind spans ≫= btree_get address.

Definition well_kept (spans : LoadedSpans) : Prop := ordered spans /\ Forall (fun entry => ordered entry.2) spans.

Lemma btree_get_Forall {V} (P : V -> Prop) key (map : list (string * V)) value :
  Forall (fun entry => P entry.2) map -> btree_get key map = Some value -> P value.
Proof.
  induction 1 as [|[held old] map Hold _ IH]; cbn [btree_get]; [done|]. case_decide; [by intros [= <-]|done].
Qed.

Lemma btree_alter_Forall {V} (P : V -> Prop) key f (map : list (string * V)) :
  Forall (fun entry => P entry.2) map -> P (f (btree_get key map)) ->
  ordered map -> Forall (fun entry => P entry.2) (btree_alter key f map).
Proof.
  intros Hmap. induction Hmap as [|[held old] map Hold Hmap IH]; cbn [btree_get btree_alter]; [by repeat constructor|].
  intros Hf [Hordered Hheld]%StronglySorted_inv. case_decide as Hkey; [by constructor|].
  destruct (str_lt key held) eqn:Hlt.
  - constructor; [|by constructor]. cbn. rewrite btree_get_below in Hf; [done|].
    eapply Forall_impl; [exact Hheld|]. intros [next ?] Hnext. cbn in *. by eapply str_lt_trans.
  - constructor; [done|]. by apply IH.
Qed.

Section covering.
Context (addresses : list (string * (Z * Z))).

Definition covered_addresses (rows : list (string * Z)) : list (string * (Z * Z)) :=
  foldl (fun addresses '(address, timestamp) => btree_alter address (widen_span timestamp) addresses) addresses rows.

Lemma covered_ordered rows : ordered addresses -> ordered (covered_addresses rows).
Proof.
  intros Haddresses. unfold covered_addresses. induction rows as [|[address timestamp] rows IH] using rev_ind; [done|].
  rewrite foldl_app. by apply btree_alter_ordered.
Qed.

Lemma covered_get kind rows address :
  ordered addresses ->
  btree_get address (covered_addresses rows) =
    span_over kind address ((fun '(address, timestamp) => (kind, address, timestamp)) <$> rows) (btree_get address addresses).
Proof.
  intros Haddresses. induction rows as [|[other timestamp] rows IH] using rev_ind; [done|].
  rewrite fmap_app. unfold covered_addresses, span_over in *. rewrite !foldl_app. cbn [foldl fmap list_fmap].
  rewrite btree_get_alter by (by apply covered_ordered). rewrite IH.
  case_decide as Hother; [subst other|].
  - rewrite decide_True by (by split). by rewrite <- IH.
  - by rewrite decide_False by tauto.
Qed.
End covering.

Lemma cover_kept batch spans : well_kept spans -> well_kept (cover batch spans).
Proof.
  intros [Hordered Hinner]. split; [by apply btree_alter_ordered|].
  apply btree_alter_Forall; [done| |done]. apply covered_ordered.
  destruct (btree_get (span_kind batch) spans) as [addresses|] eqn:Hget; [|constructor].
  by eapply btree_get_Forall in Hget.
Qed.

Lemma spans_kept batches : well_kept (spans_after batches).
Proof.
  unfold spans_after. induction batches as [|batch batches IH] using rev_ind; [by repeat constructor|].
  rewrite foldl_app. by apply cover_kept.
Qed.

Lemma cover_at kind address batch spans :
  well_kept spans ->
  span_at kind address (cover batch spans) =
    span_over kind address ((fun '(address, timestamp) => (span_kind batch, address, timestamp)) <$> span_rows batch)
      (span_at kind address spans).
Proof.
  intros [Hordered Hinner]. unfold span_at, cover, cover_rows. rewrite btree_get_alter by done.
  case_decide as Hkind; [subst kind|].
  - cbn. destruct (btree_get (span_kind batch) spans) as [addresses|] eqn:Hget; cbn.
    + apply (covered_get addresses (span_kind batch)). by eapply btree_get_Forall in Hget.
    + apply (covered_get [] (span_kind batch)). constructor.
  - unfold span_over. generalize (btree_get kind spans ≫= btree_get address). intros span.
    induction (span_rows batch) as [|[other timestamp] rows IH]; [done|]. cbn [fmap list_fmap foldl].
    by rewrite decide_False by tauto.
Qed.

Lemma spans_at kind address batches :
  span_at kind address (spans_after batches) = span_over kind address (loaded_rows batches) None.
Proof.
  unfold spans_after, loaded_rows. induction batches as [|batch batches IH] using rev_ind; [done|].
  rewrite foldl_app, bind_app. cbn [foldl]. rewrite cover_at by (by apply spans_kept). rewrite IH.
  unfold span_over. rewrite foldl_app. cbn. by rewrite app_nil_r.
Qed.

(** A span runs from the least of its rows to the greatest. *)
Lemma span_over_spec kind address rows :
  match span_over kind address rows None with
  | None => forall timestamp, (kind, address, timestamp) ∉ rows
  | Some (first, last) =>
      (kind, address, first) ∈ rows /\ (kind, address, last) ∈ rows /\
      forall timestamp, (kind, address, timestamp) ∈ rows -> (first <= timestamp <= last)%Z
  end.
Proof.
  induction rows as [|[[row_kind row_address] time] rows IH] using rev_ind.
  { by intros timestamp ?%not_elem_of_nil. }
  unfold span_over in *. rewrite foldl_app. cbn [foldl].
  set (span := foldl _ None rows) in *.
  assert (forall row, row ∈ rows ++ [(row_kind, row_address, time)] <-> row ∈ rows \/ row = (row_kind, row_address, time)) as Hsnoc
    by (intros row; by rewrite elem_of_app, list_elem_of_singleton).
  destruct (decide (row_kind = kind /\ row_address = address)) as [[-> ->]|Hother].
  - destruct span as [[first last]|]; cbn [widen_span].
    + destruct IH as (Hfirst & Hlast & Hall). rewrite !Hsnoc. split_and!.
      * destruct (Z.min_spec first time) as [[_ ->]|[_ ->]]; auto.
      * destruct (Z.max_spec last time) as [[_ ->]|[_ ->]]; auto.
      * intros timestamp [Hin%Hall|[= ->]]%Hsnoc; lia.
    + rewrite !Hsnoc. split_and!; [by right|by right|]. by intros timestamp [Hin%IH|[= ->]]%Hsnoc.
  - destruct span as [[first last]|].
    + destruct IH as (Hfirst & Hlast & Hall). rewrite !Hsnoc. split_and!; [by left|by left|].
      intros timestamp [Hin%Hall|[= -> ->]]%Hsnoc; [done|tauto].
    + intros timestamp [Hin%IH|[= -> ->]]%Hsnoc; [done|tauto].
Qed.

(** The spans one after another, as [entries] walks them. *)
Definition flat_spans (spans : LoadedSpans) : list (string * string * (Z * Z)) :=
  spans ≫= (fun '(kind, addresses) => (fun '(address, span) => (kind, address, span)) <$> addresses).

Lemma entries_flat stamp_wire spans modes :
  entries stamp_wire spans modes =
    (fun '(kind, address, span) => span_entry stamp_wire modes kind address span) <$> flat_spans spans.
Proof.
  unfold entries, flat_spans. induction spans as [|[kind addresses] spans IH]; [done|].
  rewrite !bind_cons, fmap_app, IH. f_equal. rewrite <- list_fmap_compose. apply list_fmap_ext. by intros ? [address span] _.
Qed.

Lemma flat_spans_In kind address span spans :
  well_kept spans -> (kind, address, span) ∈ flat_spans spans <-> span_at kind address spans = Some span.
Proof.
  intros [Hordered Hinner]. unfold flat_spans, span_at. rewrite list_elem_of_bind. split.
  - intros ([held addresses] & Hin & Hheld). apply list_elem_of_fmap in Hin as ([other found] & [= -> -> ->] & Hin).
    apply btree_get_In in Hheld; [|done]. rewrite Hheld. cbn. apply btree_get_In; [|done].
    by eapply btree_get_Forall in Hheld.
  - intros Hspan. apply bind_Some in Hspan as (addresses & Hkind & Haddress).
    exists (kind, addresses). split; [|by apply btree_get_In].
    apply list_elem_of_fmap. exists (address, span). split; [done|]. apply btree_get_In; [|done].
    by eapply btree_get_Forall in Hkind.
Qed.

Lemma ordered_keys {V} (map : list (string * V)) : ordered map -> NoDup map.*1.
Proof.
  induction 1 as [|[held value] map Hmap IH Hheld]; cbn; [constructor|]. constructor; [|done].
  intros ([other old] & -> & Hin)%list_elem_of_fmap. rewrite Forall_forall in Hheld. specialize (Hheld _ Hin).
  cbn in Hheld. by rewrite str_lt_irrefl in Hheld.
Qed.

Lemma flat_spans_nodup spans : well_kept spans -> NoDup (flat_spans spans).*1.
Proof.
  intros [Hordered Hinner]. unfold flat_spans. induction spans as [|[kind addresses] spans IH]; [constructor|].
  apply StronglySorted_inv in Hordered as [Hordered Hbelow]. apply Forall_cons in Hinner as [Haddresses Hinner].
  rewrite bind_cons, fmap_app. apply NoDup_app. split_and!; [| |by apply IH].
  - rewrite <- list_fmap_compose.
    assert ((fst ∘ (fun '(address, span) => (kind, address, span))) <$> addresses = (pair kind) <$> addresses.*1) as ->.
    { rewrite <- list_fmap_compose. apply list_fmap_ext. by intros ? [address span] _. }
    apply NoDup_fmap_2; [by intros ? ? [= ->]|]. by apply ordered_keys.
  - intros [other address] Hin Hrest.
    apply list_elem_of_fmap in Hin as ([[held place] span] & [= -> ->] & Hin).
    apply list_elem_of_fmap in Hin as ([? ?] & [= -> -> ->] & _).
    apply list_elem_of_fmap in Hrest as ([[held place'] span'] & [= -> ->] & Hrest).
    apply list_elem_of_bind in Hrest as ([next others] & Hin & Hnext).
    apply list_elem_of_fmap in Hin as ([? ?] & [= -> -> ->] & _).
    rewrite Forall_forall in Hbelow. specialize (Hbelow _ Hnext). cbn in Hbelow. by rewrite str_lt_irrefl in Hbelow.
Qed.

Lemma floor_le time : (span_floor time <= time)%Z.
Proof.
  unfold span_floor, MICROSECOND. pose proof (Z.mod_pos_bound time 1000 ltac:(lia)). case_match; lia.
Qed.

Lemma span_widens first last time stored :
  nanoseconds_held first = true -> nanoseconds_held last = true -> (first <= time <= last)%Z ->
  (time - time mod 1000 <= stored <= time - time mod 1000 + (if time mod 1000 =? 0 then 0 else 1000))%Z ->
  (span_floor first <= stored <= span_ceiling last)%Z.
Proof.
  intros Hfirst Hlast Htime Hstored. unfold span_ceiling, span_floor, MICROSECOND. rewrite Hfirst, Hlast.
  Z.div_mod_to_equations. repeat case_match; to_prop; lia.
Qed.

(** A database's rounding of a time to the microsecond, either way. *)
Definition rounds (time stored : Z) : Prop := (stored mod 1000 = 0 /\ time - 1000 < stored < time + 1000)%Z.

(** The entries a load hands to the exporters name each kind and address
    it wrote once, from the floor of one of its times to the ceiling of
    another; and each time written within the range of nanoseconds, rounded
    to the microsecond either way as a database may store it, lies between
    the two of its kind and address. *)
Theorem loaded_spans_cover stamp_wire batches modes :
  Forall (fun row => nanoseconds_held row.2 = true) (loaded_rows batches) ->
  exists spans,
    entries stamp_wire (spans_after batches) modes =
      (fun '(kind, address, span) => span_entry stamp_wire modes kind address span) <$> spans /\
    NoDup spans.*1 /\
    (forall kind address first last, (kind, address, (first, last)) ∈ spans ->
      (kind, address, first) ∈ loaded_rows batches /\ (kind, address, last) ∈ loaded_rows batches) /\
    (forall kind address time stored, (kind, address, time) ∈ loaded_rows batches -> rounds time stored ->
      exists first last, (kind, address, (first, last)) ∈ spans /\
        (span_floor first <= stored <= span_ceiling last)%Z).
Proof.
  intros Hheld. rewrite Forall_forall in Hheld. pose proof (spans_kept batches) as Hkept.
  exists (flat_spans (spans_after batches)). split_and!; [apply entries_flat|by apply flat_spans_nodup| |].
  - intros kind address first last Hin. apply flat_spans_In in Hin; [|done]. rewrite spans_at in Hin.
    pose proof (span_over_spec kind address (loaded_rows batches)) as Hspan. rewrite Hin in Hspan. tauto.
  - intros kind address time stored Hin [Hmod Hnear].
    pose proof (span_over_spec kind address (loaded_rows batches)) as Hspan.
    destruct (span_over kind address (loaded_rows batches) None) as [[first last]|] eqn:Hover; [|by destruct (Hspan time)].
    destruct Hspan as (Hfirst & Hlast & Hall). exists first, last.
    split; [apply flat_spans_In; [done|by rewrite spans_at]|].
    apply (span_widens first last time); [by apply Hheld in Hfirst|by apply Hheld in Hlast|by apply Hall|].
    Z.div_mod_to_equations. repeat case_match; to_prop; lia.
Qed.

Lemma far_times_uncovered :
  let batch := LogBatch [{| log_id := ""; log_address := "@a"; log_timestamp := 2 ^ 63; log_level := Info; log_content := "" |}] in
  span_floor (2 ^ 63) = (2 ^ 63)%Z /\ rounds (2 ^ 63) (2 ^ 63 - 808) /\
  spans_after [batch] = [("log-entry", [("@a", (2 ^ 63, 2 ^ 63))])]%Z.
Proof. split_and!; [done|by split|done]. Qed.

(** ** URLs read back *)

(** [application/x-www-form-urlencoded], as the engine's server reads a
    query. *)
Definition hex_digit (c : ascii) : option Z :=
  if byte_in 48 57 c then Some (byte_of c - 48)%Z
  else if byte_in 65 70 c then Some (byte_of c - 55)%Z
  else if byte_in 97 102 c then Some (byte_of c - 87)%Z
  else None.

Fixpoint form_decode (text : string) : string :=
  match text with
  | EmptyString => ""
  | String c rest =>
      if Strings.Ascii.eqb c "%" then
        match rest with
        | String high (String low after) =>
            match hex_digit high, hex_digit low with
            | Some h, Some l => String (Strings.Ascii.ascii_of_nat (Z.to_nat (h * 16 + l))) (form_decode after)
            | _, _ => String c (form_decode rest)
            end
        | _ => String c (form_decode rest)
        end
      else String (if Strings.Ascii.eqb c "+" then " "%char else c) (form_decode rest)
  end.

Definition form_read (query : string) : list (string * string) :=
  (fun part => let (name, value) := default (part, "") (split_once "=" part) in (form_decode name, form_decode value))
    <$> filter (fun part => part <> "") (str_split "&" query).

(** Names that need no encoding, as wire keys do not. *)
Definition plain_key (name : string) : Prop := encode name = name.

Lemma unreserved_safe c k :
  unreserved c = true -> k ∈ ["%"; "+"; "&"; "="]%char -> Strings.Ascii.eqb c k = false.
Proof.
  intros Hc Hk. destruct (Strings.Ascii.eqb_spec c k) as [->|]; [|done]. exfalso. revert Hc.
  repeat (apply elem_of_cons in Hk as [->|Hk]; [by vm_compute|]). by apply not_elem_of_nil in Hk.
Qed.

Lemma percent_read c rest : form_decode (percent c +:+ rest) = String c (form_decode rest).
Proof.
  unfold percent. rewrite !str_app_cons, str_app_nil. cbn [form_decode]. rewrite Strings.Ascii.eqb_refl.
  destruct c as [[] [] [] [] [] [] [] []]; reflexivity.
Qed.

Lemma encode_read value : form_decode (encode value) = value.
Proof.
  induction value as [|c value IH]; [done|]. cbn [encode]. destruct (unreserved c) eqn:Hc.
  - rewrite str_app_cons, str_app_nil. cbn [form_decode].
    rewrite !(unreserved_safe c _ Hc) by (repeat constructor). by rewrite IH.
  - by rewrite percent_read, IH.
Qed.

Lemma encode_free value k : k ∈ ["&"; "="]%char -> contains_char k (encode value) = false.
Proof.
  intros Hk. induction value as [|c value IH]; [done|]. cbn [encode]. rewrite contains_char_app, IH, orb_false_r.
  destruct (unreserved c) eqn:Hc.
  - cbn [contains_char]. rewrite unreserved_safe; [done|done|].
    repeat (apply elem_of_cons in Hk as [->|Hk]; [repeat constructor|]). by apply not_elem_of_nil in Hk.
  - repeat (apply elem_of_cons in Hk as [->|Hk]; [by destruct c as [[] [] [] [] [] [] [] []]|]). by apply not_elem_of_nil in Hk.
Qed.

Lemma form_part name value :
  plain_key name ->
  let part := name +:+ "=" +:+ encode value in
  contains_char "&" part = false /\ part <> "" /\
  (let (name, value) := default (part, "") (split_once "=" part) in (form_decode name, form_decode value)) = (name, value).
Proof.
  intros Hname part. unfold plain_key in Hname.
  assert (forall k, k ∈ ["&"; "="]%char -> contains_char k name = false) as Hfree.
  { intros k Hk. rewrite <- Hname. by apply encode_free. }
  split_and!.
  - unfold part. rewrite !contains_char_app, Hfree, encode_free by (repeat constructor). done.
  - unfold part. by destruct name.
  - assert (split_once "=" part = Some (name, encode value)) as ->.
    { apply split_once_Some. split; [done|]. apply Hfree. repeat constructor. }
    cbn. rewrite encode_read. by rewrite <- Hname, encode_read at 1.
Qed.

Lemma form_read_query name value pairs :
  plain_key name -> Forall (fun pair => plain_key pair.1) pairs ->
  form_read ((name +:+ "=" +:+ encode value) +:+ url_query "&" pairs) = (name, value) :: pairs.
Proof.
  intros Hname Hpairs. revert name value Hname. induction Hpairs as [|[next found] pairs Hnext _ IH]; intros name value Hname;
    destruct (form_part name value Hname) as (Hfree & Hsome & Hread); unfold form_read in *; cbn [url_query];
    set (part := name +:+ "=" +:+ encode value) in *.
  - rewrite str_app_nil_r, str_split_single by done. rewrite filter_cons_True by done. cbn [filter list_filter fmap list_fmap]. by rewrite Hread.
  - rewrite str_app_cons, str_split_app by done. rewrite filter_cons_True by done. cbn [fmap list_fmap]. rewrite Hread.
    by rewrite IH.
Qed.

(** What follows the path of a URL reads back, as a query, as the pairs the
    request carries, whatever bytes their values hold. *)
Lemma url_query_reads self path pairs :
  Forall (fun pair => plain_key pair.1) pairs ->
  match pairs with
  | [] => url self path pairs = "http://127.0.0.1:" +:+ pretty (info_port self) +:+ "/api/" +:+ path
  | _ => exists query, url self path pairs = "http://127.0.0.1:" +:+ pretty (info_port self) +:+ "/api/" +:+ path +:+
      String "?" query /\ form_read query = pairs
  end.
Proof.
  intros Hpairs. destruct Hpairs as [|[name value] pairs Hname Hpairs]; unfold url; cbn [url_query].
  { by rewrite str_app_nil_r. }
  exists ((name +:+ "=" +:+ encode value) +:+ url_query "&" pairs). split; [done|]. by apply form_read_query.
Qed.

(** ** Runs started and followed *)

(** A request that starts a run: the body of one is not a dry run's. *)
Definition starting (request : Request) : bool :=
  match request with
  | PostRequest _ _ (Some body) => value_eq (at_ "dry_run" body) (JBool false)
  | _ => false
  end.

Definition starts (session : Session) : list Request := List.filter starting (requests session).

(** Steps that start no run and print nothing to standard output. *)
Definition passive {A} (m : Talk A) : Prop :=
  forall session, starts (m session).2 = starts session /\ printed (m session).2 = printed session.

Lemma passive_say {A} (a : A) : passive (say a).
Proof. done. Qed.

Lemma passive_then {A B} (m : Talk A) (k : A -> Talk B) : passive m -> (forall a, passive (k a)) -> passive (then_ m k).
Proof.
  intros Hm Hk session. unfold then_. specialize (Hm session). destruct (m session) as [a session']. cbn in Hm.
  destruct (Hk a session') as [-> ->]. exact Hm.
Qed.

Lemma passive_try {A B E} (m : Talk (result A E)) (k : A -> Talk (result B E)) :
  passive m -> (forall a, passive (k a)) -> passive (try_ m k).
Proof. intros Hm Hk. apply passive_then; [done|]. intros [a|error]; [apply Hk|apply passive_say]. Qed.

Lemma passive_print_err text : passive (print_err text).
Proof. done. Qed.

Lemma starts_ask request session : starts (ask request session).2 = starts session ++ List.filter starting [request].
Proof. unfold ask, starts. destruct (answers session); cbn; by rewrite List.filter_app. Qed.

Lemma passive_ask request : starting request = false -> passive (ask request).
Proof.
  intros Hrequest session. rewrite starts_ask. cbn. rewrite Hrequest, app_nil_r. split; [done|].
  unfold ask. by destruct (answers session).
Qed.

Create HintDb passive discriminated.
#[export] Hint Resolve passive_say passive_print_err passive_ask : passive.

Ltac passive :=
  repeat first
    [ solve [auto with passive]
    | match goal with
      | |- passive (then_ _ _) => apply passive_then; [|intros ?]
      | |- passive (try_ _ _) => apply passive_try; [|intros ?]
      | |- passive (match ?x with _ => _ end) => destruct x
      end
    | progress cbv zeta ].

Section exporting.
Context `{Painters} `{JsonText} `{EngineReaders} (to_string_pretty : Jvalue -> option string).
Context (output : Output) (info_path : string) (server_info : option ServerInfo).

Notation failed := (exit_failed to_string_pretty).

Lemma passive_get client path query : passive (client_get to_string_pretty client path query).
Proof. unfold client_get. apply passive_then; [by apply passive_ask|passive]. Qed.

Lemma passive_post client path query body :
  starting (PostRequest "" "" (Some body)) = false -> passive (client_post to_string_pretty client path query (Some body)).
Proof. intros Hbody. unfold client_post. apply passive_then; [by apply passive_ask|passive]. Qed.

Lemma passive_warn text : passive (warn output text).
Proof. unfold warn. passive. Qed.

Lemma passive_write text : passive (write_line text).
Proof. unfold write_line. passive. Qed.

Lemma passive_show shown line : passive (progress_show output shown line).
Proof. unfold progress_show. passive. Qed.

Lemma passive_clear shown : passive (progress_clear output shown).
Proof. unfold progress_clear. passive. Qed.
#[local] Hint Resolve passive_get passive_warn passive_write passive_show passive_clear : passive.

Lemma passive_follow_from fuel client path id shown describe :
  passive (follow_from to_string_pretty output fuel client path id shown describe).
Proof. revert shown. induction fuel as [|fuel IH]; intros shown; cbn [follow_from]; passive. Qed.

Lemma passive_follow client path id describe : passive (follow to_string_pretty output client path id describe).
Proof.
  intros session. unfold follow. apply passive_then; [apply passive_follow_from|]. intros ?. passive.
Qed.

(** A run followed to its end is the one asked for, in a state other than
    running. *)
Definition ended (id : string) (run : Jvalue) : Prop :=
  value_eq (at_ "id" run) (JText id) = true /\ value_eq (at_ "state" run) (JText "running") = false.

Lemma follow_from_ended fuel client path id shown describe session run :
  (follow_from to_string_pretty output fuel client path id shown describe session).1.1 = Ok run -> ended id run.
Proof.
  revert shown session. induction fuel as [|fuel IH]; intros shown session; cbn [follow_from]; [done|].
  unfold then_ at 1. destruct (client_get _ _ _ _ session) as [[body|] session']; [|done].
  destruct (parse_answer to_string_pretty read_runs body) as [runs|]; [|done].
  destruct (List.find _ runs) as [found|] eqn:Hfind; [|done]. apply List.find_some in Hfind as [_ Hid].
  destruct (value_eq (at_ "state" found) (JText "running")) eqn:Hstate; cbn [negb].
  - unfold then_. destruct (progress_show output shown (describe found) session'). apply IH.
  - cbn. intros [= <-]. by split.
Qed.

Lemma follow_ended client path id describe session run :
  (follow to_string_pretty output client path id describe session).1 = Ok run -> ended id run.
Proof.
  unfold follow. unfold then_ at 1.
  destruct (follow_from to_string_pretty output _ client path id "" describe session) as [answer session'] eqn:Hfollow.
  unfold then_. destruct (progress_clear output answer.2 session'). cbn. intros Hrun.
  eapply follow_from_ended. rewrite Hfollow. exact Hrun.
Qed.

(** Past the answers the engine has left, more fuel changes nothing: each
    poll takes one, and a poll with none left ends the follow. *)
Lemma follow_from_enough fuel more client path id shown describe session :
  length (answers session) < fuel ->
  follow_from to_string_pretty output (fuel + more) client path id shown describe session =
    follow_from to_string_pretty output fuel client path id shown describe session.
Proof.
  revert shown session. induction fuel as [|fuel IH]; intros shown session Hfuel; [lia|].
  cbn [Nat.add follow_from]. unfold client_get, then_, ask. destruct (answers session) as [|answer answers] eqn:Hanswers.
  { done. }
  cbn [say]. unfold say. destruct (client_body to_string_pretty answer) as [body|]; [|done].
  destruct (parse_answer to_string_pretty read_runs body) as [runs|]; [|done].
  destruct (List.find _ runs) as [found|]; [|done]. destruct (negb _); [done|].
  unfold progress_show. destruct (Strings.String.eqb (describe found) shown).
  - unfold say. apply IH. cbn. cbn in Hfuel. lia.
  - unfold then_, print_err, say. apply IH. cbn. cbn in Hfuel. lia.
Qed.

#[local] Hint Resolve passive_follow : passive.

(** The request that starts a run of an exporter. *)
Definition start_request (client : ServerInfo) (args : ExportArgs) (name : string) : Request :=
  PostRequest (url client (runs_path args name) []) (info_token client) (Some (export_body args false)).

Lemma body_dry_run args dry_run : at_ "dry_run" (export_body args dry_run) = JBool dry_run.
Proof. unfold export_body, range_body. by destruct (range_before (export_span args)). Qed.

Lemma passive_try_post client args path :
  passive (client_post to_string_pretty client path [] (Some (export_body args true))).
Proof. apply passive_post. unfold starting. by rewrite body_dry_run. Qed.
#[local] Hint Resolve passive_try_post : passive.

Lemma passive_try_runs client args names : passive (try_runs to_string_pretty client args names).
Proof. induction names as [|name names IH]; cbn [try_runs]; passive. Qed.
#[local] Hint Resolve passive_try_runs : passive.

(** An answer a request succeeds with. *)
Definition run_accepted (answer : Response) : Prop := exists body, client_body to_string_pretty answer = Ok body.

Lemma try_runs_accepted client args names session :
  (try_runs to_string_pretty client args names session).1 = Ok tt ->
  length names <= length (answers session) /\ Forall run_accepted (take (length names) (answers session)).
Proof.
  revert session. induction names as [|name names IH]; intros session; cbn [try_runs length].
  { split; [lia|by rewrite take_0]. }
  unfold then_, client_post, ask, then_, say. destruct (answers session) as [|answer answers]; [done|].
  destruct (client_body to_string_pretty answer) as [body|] eqn:Hbody; [|done].
  intros [Hlength Hall]%IH. cbn in *. split; [lia|]. constructor; [by exists body|done].
Qed.

Lemma start_runs_spec client args names session :
  let ran := start_runs to_string_pretty output client args names session in
  starts ran.2 = starts session ++ (start_request client args <$> names) /\ printed ran.2 = printed session /\
  (ran.1.2 = false -> ran.1.1.*1 = names).
Proof.
  revert session. induction names as [|name names IH]; intros session; cbn [start_runs].
  { cbn. by rewrite app_nil_r. }
  unfold client_post, then_, say.
  pose proof (starts_ask (start_request client args name) session) as Hstart.
  assert (printed (ask (start_request client args name) session).2 = printed session) as Hprinted
    by (unfold ask; by destruct (answers session)).
  assert (starting (start_request client args name) = true) as Hstarting
    by (unfold starting, start_request; by rewrite body_dry_run).
  cbn [List.filter] in Hstart. rewrite Hstarting in Hstart.
  change (PostRequest _ _ (Some (export_body args false))) with (start_request client args name).
  destruct (ask (start_request client args name) session) as [answer session1]. cbn [fst snd] in *.
  destruct (match client_body to_string_pretty answer with Ok _ => _ | Err _ => _ end) as [id|error].
  - destruct (IH session1) as (Hstarts & Hsame & Hnames).
    destruct (start_runs to_string_pretty output client args names session1) as [[started refused] session2].
    cbn in *. rewrite Hstarts, Hstart, <- app_assoc, Hsame. split_and!; [done|done|].
    intros ->. by rewrite Hnames.
  - pose proof (passive_warn ("Exporter '" +:+ name +:+ "' did not start. " +:+ exit_text error) session1)
      as [Hwarn Hquiet].
    destruct (warn output _ session1) as [[] session2]. destruct (IH session2) as (Hstarts & Hsame & Hnames).
    destruct (start_runs to_string_pretty output client args names session2) as [[started refused] session3].
    cbn in *. rewrite Hstarts, Hwarn, Hstart, <- app_assoc, Hsame, Hquiet. by split_and!.
Qed.

(** What a report prints of a run. *)
Definition put_text (run : Jvalue) : string :=
  (if result_color output then paint_text (json_line run) else json_line run) +:+ line_end.

Definition failing (run : Jvalue) : bool := match as_str (at_ "exception" run) with Some _ => true | None => false end.

Lemma report_spec what run outcome session :
  let said := report output what run outcome session in
  said.1 = failing run /\ starts said.2 = starts session /\ printed said.2 = printed session +:+ put_text run.
Proof.
  unfold report, failing, then_, put_line, print_out. cbn.
  destruct (as_str (at_ "exception" run)); cbn; by split_and!.
Qed.

Lemma follow_runs_spec client args started session any :
  (follow_runs to_string_pretty output client args started session).1 = Ok any ->
  exists runs, Forall2 (fun entry run => ended entry.2 run) started runs /\ any = existsb failing runs /\
    starts (follow_runs to_string_pretty output client args started session).2 = starts session /\
    printed (follow_runs to_string_pretty output client args started session).2 =
      printed session +:+ str_concat (put_text <$> runs).
Proof.
  revert session any. induction started as [|[name id] started IH]; intros session any; cbn [follow_runs].
  { intros [= <-]. exists []. split_and!; [constructor|done|done|]. by rewrite str_app_nil_r. }
  unfold try_, then_, say.
  pose proof (passive_follow client (runs_path args name) id (describe_export name) session)
    as [Hstarts Hprinted].
  destruct (follow to_string_pretty output client (runs_path args name) id (describe_export name) session)
    as [[run|error] session1] eqn:Hfollow; [|done].
  assert (ended id run) as Hended by (eapply follow_ended; by rewrite Hfollow).
  destruct (report_spec ("Exporter '" +:+ name +:+ "'") run (export_outcome name) session1) as (Hsaid & Hstill & Hout).
  destruct (report output _ run _ session1) as [failed_one session2]. cbn [fst snd] in *.
  specialize (IH session2).
  destruct (follow_runs to_string_pretty output client args started session2) as [[rest|error] session3]; [|done].
  destruct (IH rest eq_refl) as (runs & Hruns & -> & Hstarts3 & Hprinted3). intros [= <-].
  exists (run :: runs). split_and!; [by constructor| |cbn in *; congruence|].
  - cbn. by rewrite Hsaid.
  - cbn in *. rewrite Hprinted3, Hout, Hprinted, str_app_assoc. done.
Qed.

Lemma export_runs_succeeds client args names session :
  (export_runs to_string_pretty output client args names session).1 = Ok tt ->
  exists runs, length runs = length names /\
    Forall (fun run => value_eq (at_ "state" run) (JText "running") = false /\ failing run = false) runs /\
    starts (export_runs to_string_pretty output client args names session).2 =
      starts session ++ (start_request client args <$> names) /\
    printed (export_runs to_string_pretty output client args names session).2 =
      printed session +:+ str_concat (put_text <$> runs).
Proof.
  unfold export_runs. set (tried := if _ && _ then try_runs to_string_pretty client args names else _).
  assert (passive tried) as Htried by (unfold tried; case_match; passive). specialize (Htried session).
  clearbody tried. unfold try_, then_, say.
  destruct (tried session) as [[[]|error] session1]; [|done]. cbn in Htried. destruct Htried as [Hstarts1 Hprinted1].
  destruct (start_runs_spec client args names session1) as (Hstarts2 & Hprinted2 & Hnames).
  destruct (start_runs to_string_pretty output client args names session1) as [[started refused] session2].
  cbn [fst snd] in *.
  destruct (follow_runs to_string_pretty output client args started session2) as [[any|error] session3] eqn:Hfollow; [|done].
  destruct (follow_runs_spec client args started session2 any) as (runs & Hruns & -> & Hstarts3 & Hprinted3);
    [by rewrite Hfollow|]. rewrite Hfollow in Hstarts3, Hprinted3. cbn [fst snd] in *.
  destruct refused; [done|]. destruct (existsb failing runs) eqn:Hfailing; [done|]. intros _.
  exists runs. split_and!; [| |cbn; congruence|cbn; congruence].
  - rewrite <- (Hnames eq_refl), length_fmap. symmetry. by eapply Forall2_length.
  - apply Forall_forall. intros run Hin. split.
    + apply list_elem_of_lookup in Hin as [i Hi]. destruct (Forall2_lookup_r _ _ _ _ _ Hruns Hi) as (entry & _ & Hended).
      by destruct Hended.
    + destruct (failing run) eqn:Hrun; [|done]. rewrite <- not_true_iff_false in Hfailing. destruct Hfailing.
      apply existsb_exists. exists run. split; [by apply list_elem_of_In|done].
Qed.

Lemma exporter_names_passive client args : passive (exporter_names to_string_pretty client args).
Proof. unfold exporter_names. passive. Qed.

(** The exporters a command runs: the one it names, or every one the engine's
    first answer lists. *)
Definition asked_for (args : ExportArgs) (session : Session) (names : list string) : Prop :=
  match exporter args with
  | Some name => names = [name]
  | None => exists status body rest,
      answers session = Responded status (Ok body) :: rest /\ (status < 400)%Z /\ read_exporters body = Ok names
  end.

Lemma client_body_ok response body :
  client_body to_string_pretty response = Ok body -> exists status, response = Responded status (Ok body) /\ (status < 400)%Z.
Proof.
  destruct response as [error|status [found|error]]; cbn [client_body]; [done| |done].
  destruct (Z.leb_spec 400 status); [done|]. intros [= ->]. by exists status.
Qed.

Lemma exporter_names_asked client args session names :
  (exporter_names to_string_pretty client args session).1 = Ok names -> names <> [] /\ asked_for args session names.
Proof.
  unfold exporter_names, asked_for, try_, then_, client_get, ask, say, then_.
  destruct (exporter args) as [name|]; [by intros [= <-]|].
  destruct (answers session) as [|answer rest]; [done|]. cbn [fst snd].
  destruct (client_body to_string_pretty answer) as [body|] eqn:Hbody; [|done].
  apply client_body_ok in Hbody as (status & -> & Hstatus). unfold parse_answer.
  destruct (read_exporters body) as [[|first others]|] eqn:Hread; [done| |done].
  intros [= <-]. split; [done|]. by exists status, body, rest.
Qed.


(** With an [error] conflict and several exporters, an engine that
    refuses one of the dry runs taken first, or is not there to answer it,
    has no run started at all: the export fails, no request that starts a run
    was sent, and nothing was printed. *)
Theorem conflict_starts_none client args names session :
  export_conflict args = ConflictError -> 1 < length names ->
  ~ (length names <= length (answers session) /\ Forall run_accepted (take (length names) (answers session))) ->
  let ran := export_runs to_string_pretty output client args names session in
  (exists exit, ran.1 = Err exit) /\ starts ran.2 = starts session /\ printed ran.2 = printed session.
Proof.
  intros Hconflict Hmany Hrefused ran. unfold ran, export_runs, try_, then_, say.
  rewrite bool_decide_eq_true_2 by done. rewrite (proj2 (Nat.ltb_lt 1 (length names)) Hmany). cbn [andb].
  pose proof (passive_try_runs client args names session) as [Hstarts Hprinted].
  pose proof (try_runs_accepted client args names session) as Haccepted.
  destruct (try_runs to_string_pretty client args names session) as [[[]|error] session1].
  - by destruct Hrefused; apply Haccepted.
  - cbn in *. split_and!; [by eexists|done|done].
Qed.
End exporting.

(** ** A concrete engine *)

Module Engines.
Definition ended_run : Jvalue := JObject [("id", JText "r1"); ("state", JText "completed"); ("count", JNumber "2")].

#[local] Instance engine_text : JsonText := fun value => match value with JText text => text | _ => "{}" end.
#[local] Instance engine_painters : Painters := {|
  from_str _ := None; quoted text := text; is_uuid _ := false; is_instant _ := false
|}.
#[local] Instance engine_readers : EngineReaders := {|
  read_started body := Ok body; read_exporters body := Ok (str_split "," body); read_runs _ := Ok [ended_run];
  read_plan _ := Ok JNull; percentage _ := "0"
|}.

Definition screen : Output := {| out_color := false; result_color := false; live := false |}.
Definition engine : ServerInfo := {| info_port := 80; info_token := "t" |}.
Definition args_of (named : option string) (conflict : ExportConflict) : ExportArgs :=
  {| export_address := "@a"; exporter := named; export_span := {| range_after := "2026"; range_before := None |};
     export_conflict := conflict; export_mode := RangeExpand; export_dry_run := false |}.
Definition session_of (answers : list Response) : Session :=
  {| answers := answers; requests := []; printed := ""; shown_lines := "" |}.


Lemma conflict_starts_none_witness :
  starts (export_runs (fun _ => None) screen engine (args_of None ConflictError) ["a"; "b"]
    (session_of [Responded 200 (Ok ""); Responded 409 (Ok "taken")])).2 = [].
Proof.
  refine (proj1 (proj2 (conflict_starts_none (fun _ => None) screen engine (args_of None ConflictError) ["a"; "b"]
    (session_of [Responded 200 (Ok ""); Responded 409 (Ok "taken")]) eq_refl _ _))).
  - cbn. lia.
  - intros [_ Hall]. cbn in Hall. apply Forall_cons in Hall as [_ Hall]. apply Forall_cons in Hall as [[body Hbody] _].
    by vm_compute in Hbody.
Defined.

Definition log_of (address : string) (time : Z) : LogRecord :=
  {| log_id := "1"; log_address := address; log_timestamp := time; log_level := Info; log_content := "" |}.

Lemma loaded_spans_cover_witness :
  exists spans : list (string * string * (Z * Z)),
    NoDup spans.*1 /\ exists first last, ("log-entry", "@a", (first, last)) ∈ spans /\ (span_floor first <= 2000 <= span_ceiling last)%Z.
Proof.
  destruct (loaded_spans_cover (fun time => pretty time) [LogBatch [log_of "@a" 1500; log_of "@b" 7]; LogBatch [log_of "@a" 900]]
    {| export_on_conflict := None; export_range := None |}) as (spans & _ & Hnodup & _ & Hcover).
  - by repeat constructor.
  - exists spans. split; [done|]. apply (Hcover "log-entry" "@a" 1500%Z 2000%Z); [by repeat constructor|by vm_compute].
Defined.
End Engines.
