(* ===== verification/Host.v ===== *)
(** * The host, and programs that call it

    The interface of [ceres-server/src/host.rs] to the engine behind the
    server, and handlers as programs over it: a program asks the host or the
    system one thing at a time and goes on with the answer. What the host
    answers, and so every interleaving with the rest of the engine, is left to
    whoever runs the program; a run logs each question with its answer. *)
From S2P Require Import Prelude Text Json Remux Http.
Local Open Scope string_scope.
Local Open Scope list_scope.
Local Open Scope Z_scope.

(** ** What crosses the boundary *)

(** A UUID is its hyphenated text. *)
Record UserRecord := { id : string; admin : bool; disabled : bool; payload : Jvalue }.
Record GateUser := { gate_id : string; gate_admin : bool; gate_disabled : bool }.

Inductive HostError := Typed (status : Z) (envelope : string) | Internal (message : string).

Record Served := {
  served_status : Z;
  served_headers : list (string * string);
  served_file : option string;
  served_handle : Z
}.

Inductive Answer :=
  | Payload (text : string)
  | Described (served : Served)
  | Live (source : LiveSource) (handle : Z).

(** [StreamClose]. *)
Record StreamClose := { close_code : Z; close_reason : string }.

(** The [From<HostError>] of [ApiError]. *)
Definition host_error (error : HostError) : ApiError :=
  match error with
  | Typed status envelope => verbatim status envelope
  | Internal _ => api_error 500 "error"
  end.

(** What a WebRTC session is opened with and refused for, of
    [ceres-webrtc/src/server.rs]. *)
Inductive ReorderedFrames := Refuse | Drop_.
Inductive WebrtcError :=
  | Full | Offer (text : string) | Codec (text : string) | Source_ (text : string) | Timeout | Reordered.
Record WebrtcAnswer := { session_id : string; sdp : string }.

(** ** Programs *)

(** What a handler asks: the clock, a pause in milliseconds, a file to open, the
    text and the fingerprint of an authority's certificate, [Host]'s methods, and the WebRTC server's. [AwaitClosed] leaves a task
    behind that closes the handle once the session ends. *)
Inductive Event : Type -> Type :=
  | Now : Event Z
  | Sleep (millis : Z) : Event unit
  | OpenFile (path : string) : Event bool
  | AuthorityCertificate (path : string) : Event (option (string * string))
  | User (user : string) : Event (result (option UserRecord) HostError)
  | NativeGateUser (user : string) : Event (option (option GateUser))
  | NativeRecords (table : string) (pairs : list (string * string)) : Event (option string)
  | NativeRecordCount (table : string) (pairs : list (string * string)) : Event (option string)
  | NativeRecord (table record : string) : Event (option string)
  | VerifyLogin (username password : string) : Event (result (option UserRecord) HostError)
  | ChangePassword (user old new : string) : Event (result (option UserRecord) HostError)
  | Operate (operation : string) (arguments : Jvalue) : Event (result Answer HostError)
  | CloseStream (handle : Z) : Event unit
  | OpenSession (source : LiveSource) (offer : string) (reordered : ReorderedFrames) :
      Event (result WebrtcAnswer WebrtcError)
  | CloseSession (session : string) : Event bool
  | AwaitClosed (handle : Z) : Event unit.

Inductive Prog (A : Type) : Type :=
  | Done (value : A)
  | Panics
  | Ask {X : Type} (event : Event X) (next : X -> Prog A).
Arguments Done {A} value.
Arguments Panics {A}.
Arguments Ask {A X} event next.

Definition ask {X} (event : Event X) : Prog X := Ask event Done.

Fixpoint prog_bind {A B} (p : Prog A) (k : A -> Prog B) : Prog B :=
  match p with
  | Done a => k a
  | Panics => Panics
  | Ask event next => Ask event (fun x => prog_bind (next x) k)
  end.

(** A program and then another; the second form is the [?] operator. *)
Notation "'let!' x ':=' p 'in' k" := (prog_bind p (fun x => k))
  (at level 200, x pattern, p at level 100, k at level 200, right associativity) : ceres_scope.
Notation "'let?' x ':=' p 'in' k" :=
  (prog_bind p (fun outcome => match outcome with Ok x => k | Err error => Done (Err error) end))
  (at level 200, x pattern, p at level 100, k at level 200, right associativity) : ceres_scope.

(** [?] on what asks nothing. *)
Definition from_result {A E} (outcome : result A E) : Prog (result A E) := Done outcome.

(** [map_err(ApiError::from)] of what the host answered. *)
Definition host_result {A} (outcome : result A HostError) : result A ApiError :=
  match outcome with Ok a => Ok a | Err error => Err (host_error error) end.

(** An [expect] or an [unreachable!]. *)
Definition expect {A} (value : option A) : Prog A :=
  match value with Some a => Done a | None => Panics end.

(** ** Runs *)

(** What was asked and what was answered. *)
Inductive Step :=
  | NowRead (at_ : Z)
  | Slept (millis : Z)
  | FileOpened (path : string) (opened : bool)
  | CertificateRead (path : string) (answer : option (string * string))
  | UserFound (user : string) (answer : result (option UserRecord) HostError)
  | GateUserFound (user : string) (answer : option (option GateUser))
  | RecordsServed (table : string) (pairs : list (string * string)) (answer : option string)
  | RecordsCounted (table : string) (pairs : list (string * string)) (answer : option string)
  | RecordServed (table record : string) (answer : option string)
  | LoginVerified (username password : string) (answer : result (option UserRecord) HostError)
  | PasswordChanged (user old new : string) (answer : result (option UserRecord) HostError)
  | Operated (operation : string) (arguments : Jvalue) (answer : result Answer HostError)
  | StreamClosed (handle : Z)
  | SessionOpened (source : LiveSource) (offer : string) (reordered : ReorderedFrames)
      (answer : result WebrtcAnswer WebrtcError)
  | SessionClosed (session : string) (answer : bool)
  | ClosedAwaited (handle : Z).

Definition step_of {X} (event : Event X) : X -> Step :=
  match event in Event X return X -> Step with
  | Now => NowRead
  | Sleep millis => fun _ => Slept millis
  | OpenFile path => FileOpened path
  | AuthorityCertificate path => CertificateRead path
  | User user => UserFound user
  | NativeGateUser user => GateUserFound user
  | NativeRecords table pairs => RecordsServed table pairs
  | NativeRecordCount table pairs => RecordsCounted table pairs
  | NativeRecord table record => RecordServed table record
  | VerifyLogin username password => LoginVerified username password
  | ChangePassword user old new => PasswordChanged user old new
  | Operate operation arguments => Operated operation arguments
  | CloseStream handle => fun _ => StreamClosed handle
  | OpenSession source offer reordered => SessionOpened source offer reordered
  | CloseSession session => SessionClosed session
  | AwaitClosed handle => fun _ => ClosedAwaited handle
  end.

(** Answers everything asked, from a state of its own. *)
Definition World (S : Type) : Type := forall X, Event X -> S -> X * S.

Fixpoint run {S A} (world : World S) (p : Prog A) (s : S) : list Step * option A * S :=
  match p with
  | Done a => ([], Some a, s)
  | Panics => ([], None, s)
  | Ask event next =>
      let '(answer, s) := world _ event s in
      let '(steps, outcome, s) := run world (next answer) s in
      (step_of event answer :: steps, outcome, s)
  end.

(** ** Facts *)

Lemma run_bind {S A B} (world : World S) (p : Prog A) (k : A -> Prog B) s :
  run world (prog_bind p k) s =
  match run world p s with
  | (steps, Some a, s') =>
      let '(more, outcome, s'') := run world (k a) s' in (steps ++ more, outcome, s'')
  | (steps, None, s') => (steps, None, s')
  end.
Proof.
  revert s. induction p as [a| |X event next IH]; intros s; cbn.
  - by destruct (run world (k a) s) as [[??]?].
  - done.
  - destruct (world X event s) as [answer s']. rewrite IH.
    destruct (run world (next answer) s') as [[steps [a|]] s'']; [|done].
    by destruct (run world (k a) s'') as [[??]?].
Qed.

(** ** Every run

    [every p Q] has [Q] hold of the steps and the outcome of each run of [p],
    whatever is answered. *)
Fixpoint every {A} (p : Prog A) (Q : list Step -> option A -> Prop) : Prop :=
  match p with
  | Done a => Q [] (Some a)
  | Panics => Q [] None
  | Ask event next =>
      forall answer, every (next answer) (fun steps outcome => Q (step_of event answer :: steps) outcome)
  end.

Lemma every_run {S A} (world : World S) (p : Prog A) (s : S) Q steps outcome s' :
  every p Q -> run world p s = (steps, outcome, s') -> Q steps outcome.
Proof.
  revert s Q steps. induction p as [a| |X event next IH]; intros s Q steps; cbn.
  - by intros HQ [= <- <- <-].
  - by intros HQ [= <- <- <-].
  - intros HQ. destruct (world X event s) as [answer middle].
    destruct (run world (next answer) middle) as [[more last] final] eqn:Hrun.
    intros [= <- <- <-]. by apply (IH answer _ _ _ (HQ answer)) in Hrun.
Qed.

Lemma every_mono {A} (p : Prog A) (Q R : list Step -> option A -> Prop) :
  every p Q -> (forall steps outcome, Q steps outcome -> R steps outcome) -> every p R.
Proof.
  revert Q R. induction p as [a| |X event next IH]; intros Q R HQ HR; cbn in *; [by apply HR..|].
  intros answer. apply (IH answer _ _ (HQ answer)). intros. by apply HR.
Qed.

Lemma every_bind {A B} (p : Prog A) (k : A -> Prog B) (Q : list Step -> option B -> Prop) :
  every p (fun steps outcome =>
    match outcome with
    | Some a => every (k a) (fun more outcome => Q (steps ++ more) outcome)
    | None => Q steps None
    end) -> every (prog_bind p k) Q.
Proof.
  revert Q. induction p as [a| |X event next IH]; intros Q HQ; cbn in *; [done..|].
  intros answer. apply IH. apply (every_mono _ _ _ (HQ answer)). by intros steps [a|].
Qed.

Lemma every_and {A} (p : Prog A) (Q R : list Step -> option A -> Prop) :
  every p Q -> every p R -> every p (fun steps outcome => Q steps outcome /\ R steps outcome).
Proof. revert Q R. induction p; cbn; intros; auto. Qed.
