(* ===== verification/Auth.v ===== *)
(** * Tokens, actors, and gates

    [ceres-server/src/auth.rs] and the resolution of a request's identity and
    actor in [app.rs]. A token's signature and claims are
    [jsonwebtoken]'s, a parameter; an instant and a span are nanoseconds.
    Programs are of [Host]: reading the clock and asking for a user are
    questions. *)
From S2P Require Import Prelude.
From stdpp Require Import pretty.
From S2P Require Import Text Wire Json Http Host.
Local Open Scope string_scope.
Local Open Scope list_scope.
Local Open Scope Z_scope.
Local Open Scope ceres_scope.

Record Validation := { leeway : Z; required_spec_claims : list string }.

(** [jsonwebtoken]: a token signed with a key, and a token's claims verified
    with one at a clock reading in seconds. *)
Class TokenCrate := {
  jwt_encode : string -> Object -> option string;
  jwt_decode : string -> Validation -> Z -> string -> option Object
}.

(** [Value::as_i64]: a number that prints as an integer and is held. *)
Definition integer_of (digits : string) : option Z :=
  match digits with EmptyString => None | _ => digits_value digits 0 end.
Definition as_i64 (value : Jvalue) : option Z :=
  match value with
  | JNumber text =>
      found ← match text with String "-" digits => Z.opp <$> integer_of digits | _ => integer_of text end;
      if (i64_min <=? found) && (found <=? i64_max) then Some found else None
  | _ => None
  end.

Definition second : Z := 1000000000.

(** ** Settings and tokens *)

Record AuthSettings := {
  duration : Z;
  allow_impersonate : bool;
  encoding : string;
  decoding : string;
  validation_ : Validation
}.

(** [AuthSettings::new]; a key is its secret. *)
Definition auth_settings (secret : string) (duration : Z) (allow_impersonate : bool) : AuthSettings :=
  {| duration := duration; allow_impersonate := allow_impersonate;
     encoding := secret; decoding := secret;
     validation_ := {| leeway := 0; required_spec_claims := ["sub"; "exp"] |} |}.

Record MintedToken := { minted : string; minted_expires : Z }.
Record ParsedToken := {
  parsed : string; user_id : string; parsed_expires : Z; parsed_impersonated_by : option string
}.

Section auth.
Context `{HttpCrates} `{TokenCrate}.

(** What a token claims. *)
Definition claims_of (user_id : string) (expires : Z) (impersonated_by : option string) : Object :=
  let claims := jinsert "exp" (JNumber (pretty (expires / second))) (jinsert "sub" (JText user_id) []) in
  match impersonated_by with Some id => jinsert "imp" (JText id) claims | None => claims end.

(** [AuthSettings::mint]. *)
Definition mint (self : AuthSettings) (user_id : string) (impersonated_by : option string) :
    Prog (result MintedToken ApiError) :=
  let! now := ask Now in
  let expires := now + duration self in
  if datetime_held expires then
    Done match jwt_encode (encoding self) (claims_of user_id expires impersonated_by) with
         | Some token => Ok {| minted := token; minted_expires := expires |}
         | None => Err (api_error 500 "error")
         end
  else Panics.

Definition uuid_of (value : Jvalue) : option string := text ← as_str value; parse_uuid text.

(** The claims of [AuthSettings::parse]. *)
Definition read_claims (token : string) (claims : Object) : option ParsedToken :=
  sub ← jget "sub" claims;
  user_id ← uuid_of sub;
  exp ← jget "exp" claims;
  seconds ← as_i64 exp;
  if datetime_held (seconds * second) then
    (fun impersonated_by =>
      {| parsed := token; user_id := user_id; parsed_expires := seconds * second;
         parsed_impersonated_by := impersonated_by |}) <$>
    match jget "imp" claims with Some value => Some <$> uuid_of value | None => Some None end
  else None.

(** What a token says, read when the clock does. *)
Definition token_at (self : AuthSettings) (now : Z) (token : string) : option ParsedToken :=
  claims ← jwt_decode (decoding self) (validation_ self) (now / second) token;
  read_claims token claims.

(** [AuthSettings::parse]. *)
Definition token_parse (self : AuthSettings) (token : string) : Prog (option ParsedToken) :=
  let! now := ask Now in Done (token_at self now token).

(** ** Identities and actors *)

Record Identity := { token : string; expires : Z; user : UserRecord; impersonated_by : option string }.

(** [Identity::to_json]. *)
Definition identity_json (self : Identity) : Jvalue :=
  JObject (jinsert "impersonated_by" (match impersonated_by self with Some id => JText id | None => JNull end)
    (jinsert "user" (payload (user self))
      (jinsert "expires" (JText (to_wire (expires self)))
        (jinsert "token" (JText (token self)) [])))).

Record Actor := { actor_user : option UserRecord; unrestricted : bool }.

(** [Actor::admin]. *)
Definition actor_admin (self : Actor) : bool :=
  unrestricted self || match actor_user self with Some user => admin user | None => false end.

(** [Actor::require_authenticated], [require_admin] and
    [require_self_or_admin]. *)
Definition require_authenticated (self : Actor) : result unit ApiError :=
  if unrestricted self then Ok tt
  else match actor_user self with
       | None => Err not_authenticated
       | Some user => if disabled user then Err not_permitted else Ok tt
       end.

Definition require_admin (self : Actor) : result unit ApiError :=
  let* _ := require_authenticated self in
  if actor_admin self then Ok tt else Err not_permitted.

Definition require_self_or_admin (self : Actor) (target : option string) : result unit ApiError :=
  let* _ := require_authenticated self in
  if actor_admin self then Ok tt
  else match target with
       | None => Err not_permitted
       | Some target =>
           if match actor_user self with Some user => bool_decide (id user = target) | None => false end
           then Ok tt else Err not_permitted
       end.

Inductive Gate := OpenGate | Authenticated | Admin | SelfOrAdmin (parameter : string).

(** [Gate::admit]. *)
Definition gate_admit (self : Gate) (actor : Actor) (path_values : list (string * string)) : result unit ApiError :=
  match self with
  | OpenGate => Ok tt
  | Authenticated => require_authenticated actor
  | Admin => require_admin actor
  | SelfOrAdmin parameter =>
      let target := value ← snd <$> List.find (fun entry => bool_decide (fst entry = parameter)) path_values;
                    parse_uuid value in
      require_self_or_admin actor target
  end.

(** ** The token a request bears *)

(** [trim_matches] of a character, and [replace] of an escaped quote. *)
Fixpoint trim_start_char (c : ascii) (text : string) : string :=
  match text with
  | EmptyString => EmptyString
  | String a rest => if Strings.Ascii.eqb a c then trim_start_char c rest else text
  end.
Fixpoint trim_end_char (c : ascii) (text : string) : string :=
  match text with
  | EmptyString => EmptyString
  | String a rest =>
      match trim_end_char c rest with
      | EmptyString => if Strings.Ascii.eqb a c then EmptyString else String a EmptyString
      | kept => String a kept
      end
  end.
Definition trim_matches (c : ascii) (text : string) : string := trim_end_char c (trim_start_char c text).

Fixpoint unescape_quotes (text : string) : string :=
  match text with
  | EmptyString => EmptyString
  | String a rest =>
      match rest with
      | String b after =>
          if Strings.Ascii.eqb a "\" && Strings.Ascii.eqb b quote then String quote (unescape_quotes after)
          else String a (unescape_quotes rest)
      | EmptyString => text
      end
  end.

(** The pairs of one cookie header: the outer [None] where none is the cookie,
    the inner one where the search is given up. *)
Fixpoint cookie_pair (pairs : list string) : option (option string) :=
  match pairs with
  | [] => None
  | entry :: pairs =>
      match split_once "=" (trim entry) with
      | None => Some None
      | Some (name, value) =>
          if decide (name = "Authorization") then Some (Some (unescape_quotes (trim_matches quote value)))
          else cookie_pair pairs
      end
  end.

Fixpoint cookie_headers (values : list string) : option string :=
  match values with
  | [] => None
  | value :: values =>
      match to_str value with
      | None => None
      | Some cookies =>
          match cookie_pair (str_split ";" cookies) with
          | Some found => found
          | None => cookie_headers values
          end
      end
  end.

(** [authorization_cookie] and [bearer_token]. *)
Definition authorization_cookie (headers : HeaderMap) : option string := cookie_headers (get_all "cookie" headers).

Definition bearer_token (headers : HeaderMap) : option string :=
  let header := get "authorization" headers ≫= to_str in
  value ← match header with Some value => Some value | None => authorization_cookie headers end;
  strip_prefix "Bearer " value.

(** ** The application's state *)

(** [Authority] of [trust.rs]. *)
Record Authority := { authority_path : string; filename : string }.

(** What [AppState] of [app.rs] holds that the routes read. *)
Record AppState := {
  auth : option AuthSettings;
  cli : bool;
  authority : option Authority;
  webrtc : bool;
  openapi : string
}.

(** [AppState::identity]. *)
Definition identity (self : AppState) (headers : HeaderMap) : Prog (result (option Identity) HostError) :=
  match auth self with
  | None => Done (Ok None)
  | Some settings =>
      match bearer_token headers with
      | None => Done (Ok None)
      | Some token =>
          let! found := token_parse settings token in
          match found with
          | None => Done (Ok None)
          | Some found =>
              let? user := ask (User (user_id found)) in
              Done (Ok ((fun user => {| token := parsed found; expires := parsed_expires found; user := user;
                                        impersonated_by := parsed_impersonated_by found |}) <$> user))
          end
      end
  end.

Inductive Resolution := Full_ | Standing.

Definition gate_user (gate : GateUser) : UserRecord :=
  {| id := gate_id gate; admin := gate_admin gate; disabled := gate_disabled gate; payload := JNull |}.

(** The actor of a full resolution. *)
Definition full_actor (self : AppState) (headers : HeaderMap) : Prog (result Actor HostError) :=
  let? found := identity self headers in
  Done (Ok {| actor_user := user <$> found; unrestricted := cli self || bool_decide (auth self = None) |}).

(** [AppState::actor]. *)
Definition actor (self : AppState) (headers : HeaderMap) (resolution : Resolution) : Prog (result Actor HostError) :=
  match resolution with
  | Full_ => full_actor self headers
  | Standing =>
      let unrestricted := cli self || bool_decide (auth self = None) in
      let! found := match auth self, bearer_token headers with
                    | Some settings, Some token => token_parse settings token
                    | _, _ => Done None
                    end in
      match found with
      | None => Done (Ok {| actor_user := None; unrestricted := unrestricted |})
      | Some found =>
          let! native := ask (NativeGateUser (user_id found)) in
          match native with
          | Some found => Done (Ok {| actor_user := gate_user <$> found; unrestricted := unrestricted |})
          | None => full_actor self headers
          end
      end
  end.

(** [AppState::admit]. *)
Definition app_admit (self : AppState) (headers : HeaderMap) (gate : Gate) (resolution : Resolution) :
    Prog (result Actor ApiError) :=
  let! found := actor self headers resolution in
  let? found := from_result (host_result found) in
  let? _ := from_result (gate_admit gate found []) in
  Done (Ok found).
End auth.
