(* ===== verification/Api.v ===== *)
(** * Credential scrubbing

    [ceres-server/src/scrub.rs], and what it leaves of a payload: a value is
    found at a place as a path of fields and indices.

    The parts after this one: the API's handlers. *)
From S2P Require Import Prelude.
From stdpp Require Import pretty.
From S2P Require Import Text Remux Wire Json Http Host Auth.
Local Open Scope string_scope.
Local Open Scope list_scope.

(** [CREDENTIAL_FIELDS]. *)
Definition CREDENTIAL_FIELDS : list string := ["secret"; "password"; "key_password"].
Definition credential_field (name : string) : bool := bool_decide (name ∈ CREDENTIAL_FIELDS).

Fixpoint scrub_credentials (value : Jvalue) : Jvalue :=
  match value with
  | JObject fields =>
      JObject ((fix scrub_fields (fields : Object) : Object :=
        match fields with
        | [] => []
        | (name, value) :: fields =>
            if credential_field name then scrub_fields fields
            else (name, scrub_credentials value) :: scrub_fields fields
        end) fields)
  | JArray items => JArray (List.map scrub_credentials items)
  | other => other
  end.

Definition scrub_json `{HttpCrates} (payload : string) : string :=
  match from_slice payload with
  | Ok value => json_text (scrub_credentials value)
  | Err _ => "null"
  end.

(** ** Places in a value *)

Inductive Step_ := Field (name : string) | Index (index : nat).

Definition step_into (step : Step_) (value : Jvalue) : option Jvalue :=
  match step, value with
  | Field name, JObject fields => jget name fields
  | Index index, JArray items => items !! index
  | _, _ => None
  end.

Fixpoint at_place (place : list Step_) (value : Jvalue) : option Jvalue :=
  match place with
  | [] => Some value
  | step :: place => match step_into step value with Some inner => at_place place inner | None => None end
  end.

(** A place below a credential field. *)
Definition names_credential (step : Step_) : bool :=
  match step with Field name => credential_field name | Index _ => false end.

Lemma scrub_step step value :
  step_into step (scrub_credentials value) =
  if names_credential step then None else scrub_credentials <$> step_into step value.
Proof.
  destruct step as [name|index], value as [| | | |items|fields]; cbn; try (by case_match); try done.
  - induction fields as [|[held inner] fields IH]; [by case_match|].
    destruct (credential_field held) eqn:Hheld; cbn.
    + rewrite IH. case_decide; subst; [by rewrite Hheld|done].
    + case_decide; subst; [by rewrite Hheld|]. apply IH.
  - by rewrite <-(list_lookup_fmap scrub_credentials).
Qed.

(** Scrubbing takes away exactly what is below a field named [secret],
    [password] or [key_password], at any depth, through objects and arrays;
    whatever else a payload holds is found where it was, scrubbed in turn. *)
Theorem scrub_removes_credentials place value :
  at_place place (scrub_credentials value) =
  if existsb names_credential place then None else scrub_credentials <$> at_place place value.
Proof.
  revert value. induction place as [|step place IH]; intros value; [done|]. cbn.
  rewrite scrub_step. destruct (names_credential step); [done|]. cbn.
  destruct (step_into step value) as [inner|]; cbn; [apply IH|by case_match].
Qed.

(** * The API's handlers

    [ceres-server/src/api]: the authentication routes ([auth.rs]), the
    configuration sections ([config.rs]), the record routes ([records.rs]), the
    host-dispatched routes ([dispatch.rs] and [served.rs]), the sockets
    ([streams.rs]) and the WHEP routes ([whep.rs]), as programs of [Host]. *)
Local Open Scope Z_scope.
Local Open Scope ceres_scope.

Definition Answered : Type := Prog (result Response ApiError).

Section api.
Context `{HttpCrates} `{TokenCrate}.

Definition refuse (error : ApiError) : Answered := Done (Err error).
Definition answer_with (response : Response) : Answered := Done (Ok response).

(** [state.identity(&headers).await?] *)
Definition identity_of (state : AppState) (headers : HeaderMap) : Prog (result (option Identity) ApiError) :=
  let! found := identity state headers in Done (host_result found).

(** ** Authentication *)

(** [WRONG_PASSWORD_DELAY]. *)
Definition WRONG_PASSWORD_DELAY : Z := 2500.

Definition with_cookie (response : Response) (value : string) : Response :=
  {| status := status response; headers := header_insert "set-cookie" value (headers response);
     body := body response |}.

(** [AuthSettings::identity_response]. *)
Definition identity_response (self : AuthSettings) (user : UserRecord) (impersonated_by : option string)
    (kind : option CookieType) : Answered :=
  let? fresh := mint self (id user) impersonated_by in
  let identity := {| token := minted fresh; expires := minted_expires fresh; user := user;
                     impersonated_by := impersonated_by |} in
  let response := json_value (identity_json identity) in
  match kind with
  | None => answer_with response
  | Some kind =>
      let! cookie := expect (assign kind (token identity) (expires identity)) in
      answer_with (with_cookie response cookie)
  end.

Definition me (state : AppState) (headers : HeaderMap) : Answered :=
  let? found := identity_of state headers in
  match found with
  | Some identity => answer_with (json_value (identity_json identity))
  | None => refuse not_authenticated
  end.

(** [Authority::fingerprint]. *)
Definition fingerprint (self : Authority) : Prog (option string) :=
  let! certificate := ask (AuthorityCertificate (authority_path self)) in Done (snd <$> certificate).

Definition features (state : AppState) : Answered :=
  let impersonate := match auth state with Some settings => allow_impersonate settings | None => false end in
  let! found := match authority state with Some authority => fingerprint authority | None => Done None end in
  let authority := match found with
                   | Some fingerprint => JObject [("fingerprint", JText fingerprint)]
                   | None => JNull
                   end in
  answer_with (json_value (JObject [("impersonate", JBool impersonate); ("authority", authority)])).

Definition login (state : AppState) (bytes : string) : Answered :=
  let? body := from_result (body_parse bytes) in
  let '(username, body) := required_string "username" body in
  let '(password, body) := required_string "password" body in
  let '(kind, body) := body_cookie body in
  let? _ := from_result (body_finish body) in
  match auth state with
  | None => refuse authentication_disabled
  | Some settings =>
      match username, password with
      | Some username, Some password =>
          let! verified := ask (VerifyLogin username password) in
          let? verified := from_result (host_result verified) in
          match verified with
          | Some user => identity_response settings user None kind
          | None => let! _ := ask (Sleep WRONG_PASSWORD_DELAY) in refuse bad_credentials
          end
      | _, _ => Panics
      end
  end.

Definition refresh (state : AppState) (headers : HeaderMap) (bytes : string) : Answered :=
  let? body := from_result (body_parse bytes) in
  let '(kind, body) := body_cookie body in
  let? _ := from_result (body_finish body) in
  match auth state with
  | None => refuse authentication_disabled
  | Some settings =>
      let? found := identity_of state headers in
      match found with
      | Some identity => identity_response settings (user identity) None kind
      | None => refuse not_authenticated
      end
  end.

Definition logout (state : AppState) (headers : HeaderMap) : Answered :=
  let? found := identity_of state headers in
  match found with
  | Some identity =>
      let! now := ask Now in
      let! cookie := expect (delete now) in
      answer_with (with_cookie (json_value (identity_json identity)) cookie)
  | None => refuse not_authenticated
  end.

Definition impersonate (state : AppState) (headers : HeaderMap) (bytes : string) : Answered :=
  let? body := from_result (body_parse bytes) in
  let '(target, body) := required_uuid "user_id" body in
  let '(kind, body) := body_cookie body in
  let? _ := from_result (body_finish body) in
  match auth state with
  | None => refuse authentication_disabled
  | Some settings =>
      if negb (allow_impersonate settings) then refuse not_found
      else
        let? found := identity_of state headers in
        match found with
        | None => refuse not_authenticated
        | Some identity =>
            if negb (admin (user identity)) then refuse not_permitted
            else
              match target with
              | None => Panics
              | Some target =>
                  let! found := ask (User target) in
                  let? found := from_result (host_result found) in
                  match found with
                  | Some other => identity_response settings other (Some (id (user identity))) kind
                  | None => refuse not_found
                  end
              end
        end
  end.

Definition change_password (state : AppState) (headers : HeaderMap) (bytes : string) : Answered :=
  let? actor := app_admit state headers Authenticated Full_ in
  match actor_user actor with
  | None => refuse (error_http 401)
  | Some user =>
      let? body := from_result (body_parse bytes) in
      let '(old_password, body) := required_string "old_password" body in
      let '(new_password, body) := required_string "new_password" body in
      let? _ := from_result (body_finish body) in
      match old_password, new_password with
      | Some old_password, Some new_password =>
          let! changed := ask (ChangePassword (id user) old_password new_password) in
          let? changed := from_result (host_result changed) in
          match changed with
          | Some updated => answer_with (json_value (payload updated))
          | None => let! _ := ask (Sleep WRONG_PASSWORD_DELAY) in refuse bad_credentials
          end
      | _, _ => Panics
      end
  end.

(** ** Operations answering a payload *)

(** [Host::payload]; what an internal error says never serves. *)
Definition host_payload (operation : string) (arguments : Jvalue) : Prog (result string ApiError) :=
  let! answered := ask (Operate operation arguments) in
  Done match answered with
       | Ok (Payload text) => Ok text
       | Ok _ => Err (host_error (Internal ("the " +:+ operation +:+ " operation answered with a body of its own")))
       | Err error => Err (host_error error)
       end.

(** [serve_section], and the sections an administrator reads. *)
Definition serve_section (operation : string) : Answered :=
  let? payload := host_payload operation (JObject []) in
  answer_with (json_response (scrub_json payload)).

Definition section (operation : string) (state : AppState) (headers : HeaderMap) : Answered :=
  let? _ := app_admit state headers Admin Full_ in
  serve_section operation.

(** ** Records *)

Definition pairs_json (pairs : list (string * string)) : Jvalue :=
  JArray ((fun '(name, value) => JArray [JText name; JText value]) <$> pairs).

(** [AppState::stream]: an upgrade answers with the status it asks for, and the
    socket then plays the operation ([Sockets]). *)
Definition stream (upgrade : Z) (operation : string) (arguments : Jvalue) : Answered :=
  answer_with {| status := upgrade; headers := []; body := Upgraded operation arguments |}.

Definition record_list (state : AppState) (table : string) (headers : HeaderMap) (query : option string)
    (upgrade : option Z) : Answered :=
  let? _ := app_admit state headers Authenticated Standing in
  let pairs := query_pairs query in
  let arguments := JObject [("table", JText table); ("query", pairs_json pairs)] in
  match upgrade with
  | Some upgrade => stream upgrade "records.stream" arguments
  | None =>
      let! native := ask (NativeRecords table pairs) in
      match native with
      | Some payload => answer_with (json_response payload)
      | None =>
          let? payload := host_payload "records.list" arguments in
          answer_with (json_response payload)
      end
  end.

Definition record_count (state : AppState) (table : string) (headers : HeaderMap) (query : option string) : Answered :=
  let? _ := app_admit state headers Authenticated Standing in
  let pairs := query_pairs query in
  let! native := ask (NativeRecordCount table pairs) in
  match native with
  | Some payload => answer_with (json_response payload)
  | None =>
      let? payload := host_payload "records.count" (JObject [("table", JText table); ("query", pairs_json pairs)]) in
      answer_with (json_response payload)
  end.

Definition found_record (payload : string) : Answered :=
  if decide (payload = "null") then refuse not_found else answer_with (json_response payload).

Definition record_get (state : AppState) (table : string) (headers : HeaderMap) (segment : string) : Answered :=
  match parse_uuid segment with
  | None => refuse not_found
  | Some record =>
      let? _ := app_admit state headers Authenticated Standing in
      let! native := ask (NativeRecord table record) in
      match native with
      | Some payload => found_record payload
      | None =>
          let? payload := host_payload "records.get" (JObject [("table", JText table); ("id", JText segment)]) in
          found_record payload
      end
  end.

(** ** Sockets *)

Definition statuses (state : AppState) (headers : HeaderMap) (query : option string) (upgrade : option Z) : Answered :=
  let? _ := app_admit state headers Authenticated Full_ in
  let arguments := JObject [("query", pairs_json (query_pairs query))] in
  match upgrade with
  | Some upgrade => stream upgrade "statuses.stream" arguments
  | None =>
      let? payload := host_payload "statuses.list" arguments in
      answer_with (json_response payload)
  end.

(** The handlers [socket_routes!] generates, of a request that asks to upgrade. *)
Definition subscription (operation : string) (path : list (string * string)) (query : option string)
    (upgrade : Z) : Answered :=
  stream upgrade operation
    (JObject [("path", JObject ((fun '(name, value) => (name, JText value)) <$> path));
              ("query", pairs_json (query_pairs query))]).
End api.
