(* ===== verification/Server.v ===== *)
(** * Host-dispatched routes

    [Dispatch] of [ceres-server/src/api/dispatch.rs], the responses the host
    describes ([served.rs]), and the WHEP routes ([whep.rs]) that play a
    dispatched call's live source.

    The parts after this one: the table of host-dispatched routes; the
    application; streams and streamed bodies. *)
From S2P Require Import Prelude.
From stdpp Require Import pretty.
From S2P Require Import Text Remux Wire Json Http Host Auth Api.
Local Open Scope string_scope.
Local Open Scope list_scope.
Local Open Scope Z_scope.
Local Open Scope ceres_scope.

(** [Kind]: text the host validates, or a UUID the route only matches as. *)
Inductive Kind := Raw | Uuid_.
#[export] Instance kind_eq_dec : EqDecision Kind.
Proof. solve_decision. Defined.

Record Dispatch := {
  gate : Gate;
  operation : string;
  parameters : list (string * string * Kind);
  request_body : option string;
  success : Z;
  scrub : bool
}.

(** [Dispatch::lookup] and [Dispatch::procedure]. *)
Definition dispatch_lookup (gate : Gate) (operation : string) (parameters : list (string * string)) : Dispatch :=
  {| gate := gate; operation := operation;
     parameters := (fun '(name, value) => (name, value, Raw)) <$> parameters;
     request_body := None; success := 200; scrub := false |}.

Definition dispatch_procedure (operation address name : string) : Dispatch :=
  dispatch_lookup OpenGate operation [("address", address); ("name", name)].

Section dispatch.
Context `{HttpCrates} `{TokenCrate}.

(** [Actor::to_arguments]. *)
Definition actor_arguments (self : Actor) : Jvalue :=
  JObject [("user", match actor_user self with Some user => JText (id user) | None => JNull end);
           ("admin", JBool (actor_admin self)); ("unrestricted", JBool (unrestricted self))].

(** The path object, unless a UUID does not parse. *)
Fixpoint path_object (parameters : list (string * string * Kind)) (path : Object) : option Object :=
  match parameters with
  | [] => Some path
  | (name, value, kind) :: parameters =>
      if bool_decide (kind = Uuid_) && bool_decide (parse_uuid value = None) then None
      else path_object parameters (jinsert name (JText value) path)
  end.

Definition path_values (self : Dispatch) : list (string * string) := fst <$> parameters self.

Definition request_json (request_body : option string) : result Jvalue ApiError :=
  match request_body with
  | None | Some "" => Ok JNull
  | Some bytes =>
      match from_slice bytes with
      | Ok value => Ok value
      | Err error => Err (validation [problem "json_invalid" ["body"] ("Invalid JSON: " +:+ error)])
      end
  end.

(** The arguments an operation is called with. *)
Definition call_arguments (actor : Actor) (path : Object) (query : option string) (request : Jvalue) : Jvalue :=
  JObject [("actor", actor_arguments actor); ("path", JObject path);
           ("query", pairs_json (query_pairs query)); ("body", request)].

(** [Dispatch::answer]. *)
Definition dispatch_answer (self : Dispatch) (state : AppState) (headers : HeaderMap) (query : option string) :
    Prog (result Answer ApiError) :=
  match path_object (parameters self) [] with
  | None => Done (Err not_found)
  | Some path =>
      let! found := actor state headers Full_ in
      let? found := from_result (host_result found) in
      let? _ := from_result (gate_admit (gate self) found (path_values self)) in
      let? request := from_result (request_json (request_body self)) in
      let! answered := ask (Operate (operation self) (call_arguments found path query request)) in
      Done (host_result answered)
  end.

(** The headers of [Served::serve]: one whose name or value [http] refuses is
    left out. *)
Definition served_header (entry : string * string) : option (string * string) :=
  name ← header_name (fst entry); value ← header_value (snd entry); Some (name, value).

(** [Served::serve]: the release rides along with the body, or closes the
    handle where the file does not open. *)
Definition serve (self : Served) : Prog Response :=
  let response (body : ResponseBody) : Response :=
    {| status := default 200 (status_from_u16 (served_status self));
       headers := omap served_header (served_headers self); body := body |} in
  match served_file self with
  | Some path =>
      let! opened := ask (OpenFile path) in
      if (opened : bool) then Done (response (FileBody path (served_handle self)))
      else
        let! _ := ask (CloseStream (served_handle self)) in
        Done (error_response (api_error 500 "error"))
  | None => Done (response (ChunkBody (served_handle self)))
  end.

(** [Dispatch::respond]. *)
Definition respond (self : Dispatch) (state : AppState) (headers : HeaderMap) (query : option string) : Answered :=
  let? answered := dispatch_answer self state headers query in
  match answered with
  | Payload text =>
      answer_with (json_body (default 200 (status_from_u16 (success self)))
        (if scrub self then scrub_json text else text))
  | Described served => let! response := serve served in answer_with response
  | Live _ _ =>
      refuse (host_error (Internal ("the " +:+ operation self +:+ " operation answered with a live source")))
  end.

(** ** WHEP *)

(** [refusal], [server] and [refused]. *)
Definition refusal (code : Z) (reason : string) : ApiError :=
  let error := error_http code in
  {| error_status := error_status error; error_kind := error_kind error;
     error_fields := jinsert "reason" (JText reason) (error_fields error); envelope := envelope error |}.

Definition whep_server (state : AppState) : result unit ApiError :=
  if webrtc state then Ok tt else Err (refusal 503 "disabled").

Definition whep_refused (error : WebrtcError) : ApiError :=
  match error with
  | Full => refusal 503 "full"
  | Offer _ => refusal 400 "offer"
  | Codec _ => refusal 409 "codec"
  | Source_ _ => refusal 502 "source"
  | Timeout => refusal 504 "timeout"
  | Reordered => refusal 409 "reordered"
  end.

(** The pairs of [reordered_frames]: what is asked for, and the rest. *)
Fixpoint reordered_pairs (pairs : list (string * string)) (reordered : ReorderedFrames)
    (arguments : list (string * string)) : result (ReorderedFrames * list (string * string)) ApiError :=
  match pairs with
  | [] => Ok (reordered, arguments)
  | (key, value) :: pairs =>
      if decide (key = "reordered") then
        if decide (value = "refuse") then reordered_pairs pairs Refuse arguments
        else if decide (value = "drop") then reordered_pairs pairs Drop_ arguments
        else Err (error_http 400)
      else reordered_pairs pairs reordered (arguments ++ [(key, value)])
  end.

Definition reordered_frames (query : option string) : result (ReorderedFrames * option string) ApiError :=
  match query with
  | None => Ok (Refuse, None)
  | Some query =>
      let* found := reordered_pairs (form_pairs query) Refuse [] in
      let arguments := form_text (snd found) in
      Ok (fst found, if decide (arguments = "") then None else Some arguments)
  end.

Definition SDP : string := "application/sdp".

(** [open]. *)
Definition whep_open (state : AppState) (address name : string) (headers : HeaderMap) (uri_path : string)
    (query : option string) (offer : string) : Answered :=
  let? _ := from_result (whep_server state) in
  if negb (bool_decide (get "content-type" headers = Some SDP)) then refuse (error_http 415)
  else if negb (is_utf8 offer) then refuse (error_http 400)
  else
    let? asked := from_result (reordered_frames query) in
    let call := dispatch_procedure "procedures.live" address name in
    let? answered := dispatch_answer call state headers (snd asked) in
    match answered with
    | Payload _ => refuse (refusal 409 "not-live")
    | Described served =>
        let! _ := ask (CloseStream (served_handle served)) in
        refuse (refusal 409 "not-live")
    | Live source handle =>
        let! opened := ask (OpenSession source offer (fst asked)) in
        match opened with
        | Err error =>
            let! _ := ask (CloseStream handle) in
            refuse (whep_refused error)
        | Ok answer =>
            let! _ := ask (AwaitClosed handle) in
            answer_with {| status := 201;
              headers := [("content-type", SDP); ("location", uri_path +:+ "/" +:+ session_id answer)];
              body := TextBody (sdp answer) |}
        end
    end.

(** [close]. *)
Definition whep_close (state : AppState) (session : string) : Answered :=
  let? _ := from_result (whep_server state) in
  match parse_uuid session with
  | None => refuse not_found
  | Some _ =>
      let! closed := ask (CloseSession session) in
      if (closed : bool) then answer_with {| status := 200; headers := []; body := TextBody "" |}
      else refuse not_found
  end.
End dispatch.

(** * The table of host-dispatched routes

    [host_routes!] of [ceres-server/src/api/dispatch.rs], row by row, and the
    request each makes of its path's captures. Matching a path against a
    template is axum's. *)
Local Close Scope ceres_scope.

Inductive Method := Get_ | Post_ | Put_ | Patch_ | Delete_.

(** A row: the parameters are its path's capture, the host's name of it, and
    its kind. *)
Record HostRoute := {
  route_name : string;
  route_method : Method;
  route_path : string;
  route_gate : Gate;
  route_operation : string;
  route_parameters : list (string * string * Kind);
  route_body : bool;
  route_status : Z;
  route_scrub : bool
}.

Definition route (name : string) (method : Method) (path : string) (gate : Gate) (operation : string)
    (parameters : list (string * string * Kind)) : HostRoute :=
  {| route_name := name; route_method := method; route_path := path; route_gate := gate;
     route_operation := operation; route_parameters := parameters; route_body := false;
     route_status := 200; route_scrub := false |}.

Definition with_body (self : HostRoute) : HostRoute :=
  {| route_name := route_name self; route_method := route_method self; route_path := route_path self;
     route_gate := route_gate self; route_operation := route_operation self;
     route_parameters := route_parameters self; route_body := true;
     route_status := route_status self; route_scrub := route_scrub self |}.

Definition with_status (code : Z) (self : HostRoute) : HostRoute :=
  {| route_name := route_name self; route_method := route_method self; route_path := route_path self;
     route_gate := route_gate self; route_operation := route_operation self;
     route_parameters := route_parameters self; route_body := route_body self;
     route_status := code; route_scrub := route_scrub self |}.

Definition with_scrub (self : HostRoute) : HostRoute :=
  {| route_name := route_name self; route_method := route_method self; route_path := route_path self;
     route_gate := route_gate self; route_operation := route_operation self;
     route_parameters := route_parameters self; route_body := route_body self;
     route_status := route_status self; route_scrub := true |}.

Definition engine_routes : list HostRoute := [
  with_scrub (route "ReloadEngine" Post_ "/api/reload" Admin "engine.reload" []);
  with_body (route "StartComponents" Post_ "/api/start" Authenticated "engine.start" []);
  with_body (route "StopComponents" Post_ "/api/stop" Authenticated "engine.stop" []);
  with_body (route "EnableComponents" Post_ "/api/enable" Authenticated "engine.enable" []);
  with_body (route "DisableComponents" Post_ "/api/disable" Authenticated "engine.disable" []);
  with_body (route "UpComponents" Post_ "/api/up" Authenticated "engine.up" []);
  with_body (route "DownComponents" Post_ "/api/down" Authenticated "engine.down" []);
  with_body (route "ExportsPending" Post_ "/api/exports/pending" Admin "exports.pending" [])
].

Definition user_routes : list HostRoute := [
  route "UsersCollection" Get_ "/api/users" Authenticated "users.list" [];
  route "UsersCount" Get_ "/api/users/count" Authenticated "users.count" [];
  route "UsersMember" Get_ "/api/users/{id}" Authenticated "users.get" [("id", "id", Uuid_)];
  with_status 201 (with_body (route "UsersCreate" Post_ "/api/users" Admin "users.create" []));
  with_body (route "UsersUpdate" Patch_ "/api/users/{id}" (SelfOrAdmin "id") "users.update" [("id", "id", Uuid_)]);
  route "UsersDelete" Delete_ "/api/users/{id}" Admin "users.delete" [("id", "id", Uuid_)]
].

Definition group_routes : list HostRoute := [
  route "GroupsCollection" Get_ "/api/groups" Authenticated "groups.list" [];
  route "GroupsCount" Get_ "/api/groups/count" Authenticated "groups.count" [];
  route "GroupsMember" Get_ "/api/groups/{id}" Authenticated "groups.get" [("id", "id", Uuid_)];
  with_body (route "GroupsCreate" Post_ "/api/groups" Admin "groups.create" []);
  with_body (route "GroupsUpdate" Patch_ "/api/groups/{id}" Admin "groups.update" [("id", "id", Uuid_)]);
  route "GroupsDelete" Delete_ "/api/groups/{id}" Admin "groups.delete" [("id", "id", Uuid_)];
  route "GroupMembers" Get_ "/api/groups/{id}/members" Authenticated "groups.members" [("id", "id", Uuid_)];
  with_body (route "GroupMembersAdd" Post_ "/api/groups/{id}/members" Admin "groups.add_member" [("id", "id", Uuid_)]);
  route "GroupMembersRemove" Delete_ "/api/groups/{id}/members/{second}" Admin "groups.remove_member" [("id", "id", Uuid_); ("second", "user_id", Uuid_)];
  route "MembershipsCollection" Get_ "/api/users/{id}/group-memberships" Authenticated "memberships.list" [("id", "user_id", Uuid_)];
  route "MembershipsAdd" Post_ "/api/users/{id}/group-memberships/{second}" Admin "memberships.add" [("id", "user_id", Uuid_); ("second", "group_id", Uuid_)];
  route "MembershipsRemove" Delete_ "/api/users/{id}/group-memberships/{second}" Admin "memberships.remove" [("id", "user_id", Uuid_); ("second", "group_id", Uuid_)]
].

Definition permission_routes : list HostRoute := [
  route "UserPermissions" Get_ "/api/permissions/user/{id}" (SelfOrAdmin "user_id") "permissions.user" [("id", "user_id", Uuid_)];
  route "GroupPermissions" Get_ "/api/permissions/group/{id}" Admin "permissions.group" [("id", "group_id", Uuid_)];
  with_body (route "UserPermissionsAssign" Put_ "/api/permissions/user/{id}" Admin "permissions.assign_user" [("id", "user_id", Uuid_)]);
  with_body (route "UserPermissionsDelete" Delete_ "/api/permissions/user/{id}" Admin "permissions.delete_user" [("id", "user_id", Uuid_)]);
  with_body (route "GroupPermissionsAssign" Put_ "/api/permissions/group/{id}" Admin "permissions.assign_group" [("id", "group_id", Uuid_)]);
  with_body (route "GroupPermissionsDelete" Delete_ "/api/permissions/group/{id}" Admin "permissions.delete_group" [("id", "group_id", Uuid_)]);
  route "EffectiveAccess" Get_ "/api/permissions/effective/{id}" (SelfOrAdmin "user_id") "permissions.effective" [("id", "user_id", Uuid_)];
  route "EffectiveAccessAt" Get_ "/api/permissions/effective/{id}/{*address}" (SelfOrAdmin "user_id") "permissions.effective_at" [("id", "user_id", Uuid_); ("address", "address", Raw)]
].

Definition workspace_routes : list HostRoute := [
  route "WorkspacesCollection" Get_ "/api/workspaces" Authenticated "workspaces.list" [];
  route "WorkspacesMember" Get_ "/api/workspaces/{id}" Authenticated "workspaces.get" [("id", "id", Uuid_)];
  with_body (route "WorkspacesCreate" Post_ "/api/workspaces" Authenticated "workspaces.create" []);
  with_body (route "WorkspacesUpdate" Patch_ "/api/workspaces/{id}" Authenticated "workspaces.update" [("id", "id", Uuid_)]);
  route "WorkspacesDelete" Delete_ "/api/workspaces/{id}" Authenticated "workspaces.delete" [("id", "id", Uuid_)];
  route "EditsCollection" Get_ "/api/users/{id}/workspace-edits" (SelfOrAdmin "user_id") "edits.list" [("id", "user_id", Uuid_)];
  route "EditsMember" Get_ "/api/users/{id}/workspace-edits/{second}" (SelfOrAdmin "user_id") "edits.get" [("id", "user_id", Uuid_); ("second", "workspace_id", Uuid_)];
  with_body (route "EditsCreate" Post_ "/api/users/{id}/workspace-edits/{second}" (SelfOrAdmin "user_id") "edits.create" [("id", "user_id", Uuid_); ("second", "workspace_id", Uuid_)]);
  with_body (route "EditsAssign" Put_ "/api/users/{id}/workspace-edits/{second}" (SelfOrAdmin "user_id") "edits.assign" [("id", "user_id", Uuid_); ("second", "workspace_id", Uuid_)]);
  route "EditsDelete" Delete_ "/api/users/{id}/workspace-edits/{second}" (SelfOrAdmin "user_id") "edits.delete" [("id", "user_id", Uuid_); ("second", "workspace_id", Uuid_)]
].

Definition setting_routes : list HostRoute := [
  route "SettingsMember" Get_ "/api/settings/{id}/{second}" OpenGate "settings.get" [("id", "user_id", Raw); ("second", "name", Raw)];
  with_body (route "SettingsAssign" Put_ "/api/settings" OpenGate "settings.assign" []);
  route "StatisticsCollection" Get_ "/api/statistics" Authenticated "statistics.list" [];
  route "StatusesMember" Get_ "/api/statuses/{id}" Authenticated "statuses.get" [("id", "address", Raw)];
  route "FilesCollection" Get_ "/api/files" Authenticated "files.mounts" []
].

Definition component_routes : list HostRoute := [
  route "ComponentsCollection" Get_ "/api/components" Authenticated "components.list" [];
  route "ComponentsMember" Get_ "/api/components/{id}" Authenticated "components.get" [("id", "address", Raw)];
  route "ComponentsConfig" Get_ "/api/components/{id}/config" Authenticated "components.config" [("id", "address", Raw)];
  route "ComponentsConnections" Get_ "/api/components/{id}/connections" Authenticated "components.connections" [("id", "address", Raw)];
  route "ComponentsJobs" Get_ "/api/components/{id}/jobs" Authenticated "components.jobs" [("id", "address", Raw)];
  route "ExportersCollection" Get_ "/api/components/{id}/exporters" Authenticated "exporters.list" [("id", "address", Raw)];
  route "ExportersRuns" Get_ "/api/components/{id}/exporters/{second}/runs" Authenticated "exporters.runs" [("id", "address", Raw); ("second", "name", Raw)];
  route "PlaybacksCollection" Get_ "/api/components/{id}/playbacks" Authenticated "playbacks.list" [("id", "address", Raw)];
  route "ProceduresCollection" Get_ "/api/components/{id}/procedures" Authenticated "procedures.list" [("id", "address", Raw)];
  route "ProceduresMember" Get_ "/api/components/{id}/procedures/{second}" Authenticated "procedures.get" [("id", "address", Raw); ("second", "name", Raw)];
  route "QueriesCollection" Get_ "/api/components/{id}/queries" Authenticated "queries.list" [("id", "address", Raw)];
  route "QueriesMember" Get_ "/api/components/{id}/queries/{second}" Authenticated "queries.get" [("id", "address", Raw); ("second", "name", Raw)];
  route "ActionsCollection" Get_ "/api/components/{id}/actions" Authenticated "actions.list" [("id", "address", Raw)];
  route "ActionsMember" Get_ "/api/components/{id}/actions/{second}" Authenticated "actions.get" [("id", "address", Raw); ("second", "name", Raw)]
].

Definition call_routes : list HostRoute := [
  with_body (route "ProceduresCall" Post_ "/api/components/{id}/procedures/{second}/call" OpenGate "procedures.call" [("id", "address", Raw); ("second", "name", Raw)]);
  with_body (route "ExportersRun" Post_ "/api/components/{id}/exporters/{second}/runs" OpenGate "exporters.run" [("id", "address", Raw); ("second", "name", Raw)]);
  with_body (route "PlaybacksRun" Post_ "/api/components/{id}/playbacks" OpenGate "playbacks.run" [("id", "address", Raw)]);
  route "ProceduresCallByGet" Get_ "/api/components/{id}/procedures/{second}/call" OpenGate "procedures.call_get" [("id", "address", Raw); ("second", "name", Raw)];
  with_body (route "QueriesCall" Post_ "/api/components/{id}/queries/{second}/call" OpenGate "queries.call" [("id", "address", Raw); ("second", "name", Raw)]);
  route "QueriesCallByGet" Get_ "/api/components/{id}/queries/{second}/call" OpenGate "queries.call_get" [("id", "address", Raw); ("second", "name", Raw)];
  with_body (route "ActionsCall" Post_ "/api/components/{id}/actions/{second}/call" OpenGate "actions.call" [("id", "address", Raw); ("second", "name", Raw)]);
  with_body (route "ComponentsSend" Post_ "/api/components/{id}/connections/{second}/send" Authenticated "components.send" [("id", "address", Raw); ("second", "connection", Raw)])
].

Definition host_routes : list HostRoute :=
  engine_routes ++ user_routes ++ group_routes ++ permission_routes ++ workspace_routes ++
  setting_routes ++ component_routes ++ call_routes.

(** The captures of a matched path, by the names of its template. *)
Fixpoint capture (name : string) (captures : list (string * string)) : option string :=
  match captures with
  | [] => None
  | (held, value) :: captures => if decide (held = name) then Some value else capture name captures
  end.

(** The handler a row registers: the request it dispatches. A path that matched
    has every capture its struct names. *)
Definition dispatched (self : HostRoute) (captures : list (string * string)) (bytes : string) : Dispatch :=
  {| gate := route_gate self; operation := route_operation self;
     parameters := (fun '(field, host, kind) => (host, default "" (capture field captures), kind)) <$> route_parameters self;
     request_body := if route_body self then Some bytes else None;
     success := route_status self; scrub := route_scrub self |}.

(** [documented]: whether a row is listed as needing credentials. *)
Definition secured (self : HostRoute) : bool := match route_gate self with OpenGate => false | _ => true end.

(** * The application

    [ceres-server/src/app.rs] assembled: the routes of [build_router] but the
    console's files and the file mounts, and the token the CLI's control
    application asks of every request. Matching a path and a method is axum's:
    a request names the endpoint it matched, with the captures of its path and
    the status its upgrade would answer with, if it asks for one. A socket-only
    route is only matched by a request that does. *)
Local Open Scope ceres_scope.

(** [for_each_record_table!]. *)
Inductive RecordRoute := MessagesRoute | ParticlesRoute | AlertsRoute | LogsRoute.
Definition table_name (self : RecordRoute) : string :=
  match self with
  | MessagesRoute => "messages" | ParticlesRoute => "particles" | AlertsRoute => "alerts" | LogsRoute => "logs"
  end.

(** The sections an administrator reads. *)
Inductive ConfigSection := FullSection | ServiceSection | ServerSection | DatabaseSection.
Definition section_operation (self : ConfigSection) : string :=
  match self with
  | FullSection => "config" | ServiceSection => "config.service"
  | ServerSection => "config.server" | DatabaseSection => "config.database"
  end.

(** [socket_routes!]. *)
Inductive Subscription := ProcedureSubscription | QuerySubscription.
Definition subscription_operation (self : Subscription) : string :=
  match self with ProcedureSubscription => "procedures.subscribe" | QuerySubscription => "queries.subscribe" end.

Inductive Endpoint :=
  | Alive | OpenApi | ApiIndex | ApiNotFound | AuthorityFile
  | Me | Features | Login | Refresh | Logout | Impersonate | ChangePassword_
  | Config (section : ConfigSection) | ConsoleConfig
  | RecordsList (table : RecordRoute) | RecordsCount (table : RecordRoute)
  | RecordsGet (table : RecordRoute) (id : string)
  | Statuses
  | Subscribe (to : Subscription) (address name : string) (upgraded : Z)
  | HostCall (index : nat) (captures : list (string * string))
  | WhepOpen (address name : string) | WhepClose (session : string).

Record Request := {
  endpoint : Endpoint;
  uri_path : string;
  query : option string;
  request_headers : HeaderMap;
  bytes : string;
  upgrade : option Z
}.

Section server.
Context `{HttpCrates} `{TokenCrate}.

(** [Authority::download], and [serve_authority]. *)
Definition download (self : Authority) : Prog Response :=
  let! certificate := ask (AuthorityCertificate (authority_path self)) in
  Done match certificate with
       | Some (pem, _) =>
           {| status := 200;
              headers := [("content-type", "application/x-x509-ca-cert");
                ("content-disposition", "attachment; filename=" +:+ String quote (filename self +:+ String quote ""));
                ("cache-control", "no-cache")];
              body := TextBody pem |}
       | None => {| status := 404; headers := []; body := TextBody "" |}
       end.

Definition serve_authority (state : AppState) : Answered :=
  match authority state with
  | Some authority => let! response := download authority in answer_with response
  | None => refuse (error_http 404)
  end.

(** The handler each endpoint is routed to. A row of [host_routes] past the
    table's end is no endpoint. *)
Definition handle (state : AppState) (request : Request) : Answered :=
  let headers := request_headers request in
  match endpoint request with
  | Alive => answer_with {| status := 200; headers := []; body := TextBody "" |}
  | OpenApi => answer_with (json_response (openapi state))
  | ApiIndex => answer_with {| status := 307; headers := [("location", "/api/openapi.json")]; body := TextBody "" |}
  | ApiNotFound => refuse not_found
  | AuthorityFile => serve_authority state
  | Me => me state headers
  | Features => features state
  | Login => login state (bytes request)
  | Refresh => refresh state headers (bytes request)
  | Logout => logout state headers
  | Impersonate => impersonate state headers (bytes request)
  | ChangePassword_ => change_password state headers (bytes request)
  | Config which => section (section_operation which) state headers
  | ConsoleConfig => serve_section "config.console"
  | RecordsList table => record_list state (table_name table) headers (query request) (upgrade request)
  | RecordsCount table => record_count state (table_name table) headers (query request)
  | RecordsGet table id => record_get state (table_name table) headers id
  | Statuses => statuses state headers (query request) (upgrade request)
  | Subscribe to address name upgraded =>
      subscription (subscription_operation to) [("address", address); ("name", name)] (query request) upgraded
  | HostCall index captures =>
      match host_routes !! index with
      | Some route => respond (dispatched route captures (bytes request)) state headers (query request)
      | None => refuse not_found
      end
  | WhepOpen address name => whep_open state address name headers (uri_path request) (query request) (bytes request)
  | WhepClose session => whep_close state session
  end.

(** What an application is built with, of [AppConfig]. *)
Record AppConfig := { cli_token : option string; config_auth : option AuthSettings;
  config_authority : option Authority; config_webrtc : bool; document : string }.

(** The state of [build_router]. *)
Definition build_state (config : AppConfig) : AppState :=
  {| auth := config_auth config; cli := bool_decide (cli_token config <> None);
     authority := config_authority config; webrtc := config_webrtc config; openapi := document config |}.

(** The application answering one request: [require_cli_token] before every
    handler, a refusal served as its envelope. [ct_eq] is equality. *)
Definition answer (outcome : result Response ApiError) : Response :=
  match outcome with Ok response => response | Err error => error_response error end.

Definition application (config : AppConfig) (request : Request) : Prog Response :=
  let serve := let! outcome := handle (build_state config) request in Done (answer outcome) in
  match cli_token config with
  | None => serve
  | Some token =>
      if bool_decide (get "authorization" (request_headers request) ≫= to_str = Some token) then serve
      else Done (error_response not_authenticated)
  end.
End server.

(** * Streams and streamed bodies

    [AppState::pump] of [ceres-server/src/api/streams.rs], which plays one of
    the engine's streams on a socket, and the bodies of [served.rs], which pull
    a response's chunks. Both are fed what happens in the order it does, from
    the client and from the engine, and log what they do; a feed that ends
    without ending the stream leaves it open. *)
Local Close Scope ceres_scope.

(** ** Sockets *)

(** What [tokio::select!] gives: something from the client, its leaving
    included, or the next message, with whether the socket takes it. *)
Inductive SocketInput :=
  | Left_ | Incoming
  | NextMessage (message : result (option string) StreamClose) (sent : bool).

Inductive SocketAct :=
  | SendText (text : string)
  | SendClose (close : StreamClose)
  | CloseHandle (handle : Z).

(** The loop of [pump]: what is sent, and whether it broke off. *)
Fixpoint pump_loop (inputs : list SocketInput) : list SocketAct * bool :=
  match inputs with
  | [] => ([], false)
  | Left_ :: _ => ([], true)
  | Incoming :: inputs => pump_loop inputs
  | NextMessage (Ok (Some text)) sent :: inputs =>
      if sent then let '(acts, ended) := pump_loop inputs in (SendText text :: acts, ended)
      else ([SendText text], true)
  | NextMessage (Ok None) _ :: _ => ([], true)
  | NextMessage (Err close) _ :: _ => ([SendClose close], true)
  end.

(** [pump], from what [stream_open] answers. *)
Definition pump (opened : result Z StreamClose) (inputs : list SocketInput) : list SocketAct :=
  match opened with
  | Err close => [SendClose close]
  | Ok handle =>
      let '(acts, ended) := pump_loop inputs in
      acts ++ if ended then [CloseHandle handle] else []
  end.

(** ** Bodies *)

(** The server pulls a chunk, or drops the body: the client left, or the
    response was never sent. *)
Inductive BodyInput :=
  | Pulled (chunk : result (option string) HostError)
  | Dropped.

Inductive BodyAct := Chunk (bytes : string) | Failed | Released (handle : Z).

(** [chunk_body] and [file_body]: the release goes when the stream ends,
    fails, or is dropped. A file's chunks are what its reads give. *)
Fixpoint body_run (handle : Z) (inputs : list BodyInput) : list BodyAct :=
  match inputs with
  | [] => []
  | Dropped :: _ => [Released handle]
  | Pulled (Ok (Some bytes)) :: inputs => Chunk bytes :: body_run handle inputs
  | Pulled (Ok None) :: _ => [Released handle]
  | Pulled (Err _) :: _ => [Failed; Released handle]
  end.

(** ** A handle is released once *)

(** The inputs a stream ends on. *)
Definition socket_ends (input : SocketInput) : bool :=
  match input with Incoming | NextMessage (Ok (Some _)) true => false | _ => true end.
Definition body_ends (input : BodyInput) : bool :=
  match input with Pulled (Ok (Some _)) => false | _ => true end.

(** The texts of the messages up to the first input that ends the stream. *)
Fixpoint messages_before_end (inputs : list SocketInput) : list string :=
  match inputs with
  | NextMessage (Ok (Some text)) sent :: inputs => text :: if sent then messages_before_end inputs else []
  | Incoming :: inputs => messages_before_end inputs
  | _ => []
  end.

Definition texts_of (acts : list SocketAct) : list string :=
  omap (fun act => match act with SendText text => Some text | _ => None end) acts.
Definition handles_of (acts : list SocketAct) : list Z :=
  omap (fun act => match act with CloseHandle handle => Some handle | _ => None end) acts.
Definition releases_of (acts : list BodyAct) : list Z :=
  omap (fun act => match act with Released handle => Some handle | _ => None end) acts.

Lemma pump_loop_facts inputs :
  snd (pump_loop inputs) = existsb socket_ends inputs /\
  texts_of (fst (pump_loop inputs)) = messages_before_end inputs /\ handles_of (fst (pump_loop inputs)) = [].
Proof.
  induction inputs as [|[| |[[text|]|close] sent] inputs (Hended & Htexts & Hhandles)]; try done.
  destruct sent; [|done]. cbn. destruct (pump_loop inputs) as [acts ended]. cbn in *.
  by rewrite Htexts, Hhandles.
Qed.

(** C23: A stream's handle is closed exactly once, as the last thing done,
    whatever ends it: the client leaving, a message it does not take, the
    engine's end or refusal; until then it stays open, and the socket is sent
    the engine's messages in order. A streamed body's handle likewise, dropped
    bodies included. A stream that was refused has none to close. *)
Theorem stream_released_once (handle : Z) inputs bodies refusal :
  (exists acts, pump (Ok handle) inputs = acts ++ (if existsb socket_ends inputs then [CloseHandle handle] else []) /\
    texts_of acts = messages_before_end inputs /\ handles_of acts = []) /\
  (exists acts, body_run handle bodies = acts ++ (if existsb body_ends bodies then [Released handle] else []) /\
    releases_of acts = []) /\
  pump (Err refusal) inputs = [SendClose refusal].
Proof.
  split; [|split; [|done]].
  - destruct (pump_loop_facts inputs) as (Hended & Htexts & Hhandles). unfold pump.
    destruct (pump_loop inputs) as [acts ended]. cbn in *. subst. by exists acts.
  - induction bodies as [|[[[bytes|]|error]|] bodies (acts & Hrun & Hnone)]; cbn.
    + by exists [].
    + exists (Chunk bytes :: acts). by rewrite Hrun.
    + by exists [].
    + by exists [Failed].
    + by exists [].
Qed.
