(* ===== verification/AuthFacts.v ===== *)
(** * Who a request is admitted as

    What the resolution of [Auth] reads before a gate admits an actor, and that
    nothing of the engine is called on the way. *)
From S2P Require Import Prelude Text Wire Json Http Host Auth Api Server.
Local Open Scope string_scope.
Local Open Scope list_scope.
Local Open Scope Z_scope.
Local Open Scope ceres_scope.

(** ** What reaches the engine *)

(** A step that runs something of the engine, rather than finding who asks. *)
Definition engine_call (step : Step) : bool :=
  match step with
  | RecordsServed _ _ _ | RecordsCounted _ _ _ | RecordServed _ _ _ | PasswordChanged _ _ _ _
  | Operated _ _ _ | SessionOpened _ _ _ _ => true
  | _ => false
  end.

(** A response that goes on to play one of the engine's streams. *)
Definition plays (response : Response) : bool :=
  match body response with Upgraded _ _ => true | _ => false end.

Definition quiet (steps : list Step) : Prop := Forall (fun step => engine_call step = false) steps.

Section known.
Context `{HttpCrates} `{TokenCrate}.

(** [user] is whom the request's token names: the token was valid when the
    clock was read, and the host said who its user is. *)
Definition known_as (state : AppState) (headers : HeaderMap) (steps : list Step) (user : UserRecord) : Prop :=
  exists settings token now found,
    auth state = Some settings /\ bearer_token headers = Some token /\
    NowRead now ∈ steps /\ token_at settings now token = Some found /\
    (UserFound (user_id found) (Ok (Some user)) ∈ steps \/
     exists standing, GateUserFound (user_id found) (Some (Some standing)) ∈ steps /\ user = gate_user standing).

(** A user a gate admits. *)
Definition entitled (gate : Gate) (path_values : list (string * string)) (user : UserRecord) : Prop :=
  match gate with
  | OpenGate => True
  | Authenticated => disabled user = false
  | Admin => disabled user = false /\ admin user = true
  | SelfOrAdmin parameter =>
      disabled user = false /\
      (admin user = true \/
       exists value, (parameter, value) ∈ path_values /\ parse_uuid value = Some (id user))
  end.

(** The request may pass the gate: it is open, no user is asked for, or the
    request's user is one it admits. *)
Definition allowed (state : AppState) (headers : HeaderMap) (gate : Gate) (path_values : list (string * string))
    (steps : list Step) : Prop :=
  gate = OpenGate \/ cli state = true \/ auth state = None \/
  exists user, known_as state headers steps user /\ entitled gate path_values user.

Lemma known_as_more state headers steps more user :
  known_as state headers steps user -> known_as state headers (steps ++ more) user.
Proof.
  intros (settings & token & now & found & ? & ? & Hnow & ? & Huser).
  exists settings, token, now, found. split_and!; try done; [set_solver|].
  destruct Huser as [|(standing & ? & ?)]; [left; set_solver|right; exists standing; set_solver].
Qed.

Lemma allowed_more state headers gate path_values steps more :
  allowed state headers gate path_values steps -> allowed state headers gate path_values (steps ++ more).
Proof.
  intros [|[|[|(user & ? & ?)]]]; [by left|by right; left|by right; right; left|].
  right; right; right. exists user. split; [by apply known_as_more|done].
Qed.

(** What a resolution says of the actor it gives. *)
Definition resolved (state : AppState) (headers : HeaderMap) (steps : list Step) (actor : Actor) : Prop :=
  unrestricted actor = cli state || bool_decide (auth state = None) /\
  forall user, actor_user actor = Some user -> known_as state headers steps user.

Lemma quiet_app steps more : quiet steps -> quiet more -> quiet (steps ++ more).
Proof. intros. by apply Forall_app. Qed.

Lemma every_identity state headers :
  every (identity state headers) (fun steps outcome =>
    quiet steps /\ forall found, outcome = Some (Ok (Some found)) -> known_as state headers steps (user found)).
Proof.
  unfold identity. destruct (auth state) as [settings|] eqn:Hauth; [|by split; [constructor|]].
  destruct (bearer_token headers) as [token|] eqn:Htoken; [|by split; [constructor|]].
  cbn. intros now. destruct (token_at settings now token) as [found|] eqn:Hfound; cbn;
    [|by split; [repeat constructor|]].
  intros [[user|]|error]; cbn; (split; [by repeat constructor|]); try done.
  intros ? [= <-]. exists settings, token, now, found. cbn. split_and!; try done; [set_solver|left; set_solver].
Qed.

(** Finding who asks never panics. *)
Lemma identity_total state headers : every (identity state headers) (fun _ outcome => outcome <> None).
Proof.
  unfold identity. destruct (auth state); [|done]. destruct (bearer_token headers); [|done].
  cbn. intros now. destruct (token_at _ _ _); cbn; [|done]. by intros [[]|].
Qed.

Lemma every_full_actor state headers :
  every (full_actor state headers) (fun steps outcome =>
    quiet steps /\ forall actor, outcome = Some (Ok actor) -> resolved state headers steps actor).
Proof.
  unfold full_actor. apply every_bind. eapply every_mono; [apply every_identity|].
  intros steps [[found|error]|] [Hquiet Hknown]; cbn; rewrite ?app_nil_r; (split; [done|]); try done.
  intros actor [= <-]. split; [done|]. cbn. intros user.
  destruct found as [found|]; [|done]. intros [= <-]. by apply Hknown.
Qed.

Lemma every_actor state headers resolution :
  every (actor state headers resolution) (fun steps outcome =>
    quiet steps /\ forall actor, outcome = Some (Ok actor) -> resolved state headers steps actor).
Proof.
  destruct resolution; [apply every_full_actor|]. unfold actor.
  assert (Hanonymous : forall steps, quiet steps -> quiet steps /\ forall actor,
    Some (Ok (E := HostError) {| actor_user := None; unrestricted := cli state || bool_decide (auth state = None) |})
      = Some (Ok actor) -> resolved state headers steps actor).
  { intros steps Hquiet. split; [done|]. intros actor [= <-]. by split. }
  destruct (auth state) as [settings|] eqn:Hauth; [|apply Hanonymous; constructor].
  destruct (bearer_token headers) as [token|] eqn:Htoken; [|apply Hanonymous; constructor].
  cbn. intros now. destruct (token_at settings now token) as [found|] eqn:Hfound; cbn;
    [|apply Hanonymous; by repeat constructor].
  intros [standing|]; cbn.
  - split; [by repeat constructor|]. intros actor [= <-]. split; [by rewrite Hauth|]. cbn. intros user.
    destruct standing as [standing|]; [|done]. intros [= <-].
    exists settings, token, now, found. split_and!; try done; [set_solver|right; exists standing; set_solver].
  - eapply every_mono; [apply every_full_actor|]. intros steps outcome [Hquiet Hresolved].
    split; [by repeat constructor|]. intros actor Hactor. destruct (Hresolved actor Hactor) as [? Hknown].
    split; [done|]. intros user Huser.
    apply Hknown in Huser as (s & t & n & f & ? & ? & ? & ? & Hwho). exists s, t, n, f.
    split_and!; try done; [set_solver|]. destruct Hwho as [|(w & ? & ?)]; [left|right; exists w]; set_solver.
Qed.

(** ** Gates *)

Lemma gate_admit_entitles gate actor path_values :
  gate_admit gate actor path_values = Ok tt ->
  gate = OpenGate \/ unrestricted actor = true \/
  exists user, actor_user actor = Some user /\ entitled gate path_values user.
Proof.
  destruct (unrestricted actor) eqn:Hun; [by right; left|].
  destruct gate as [| | |parameter]; cbn; [by left|..];
    unfold require_admin, require_self_or_admin, require_authenticated, actor_admin; rewrite Hun; cbn;
    (destruct (actor_user actor) as [user|] eqn:Huser; [|done]);
    (destruct (disabled user) eqn:Hdisabled; [done|]); intros Hadmit; right; right; exists user; (split; [done|]); cbn.
  - done.
  - split; [done|]. cbn in Hadmit. by destruct (admin user).
  - split; [done|]. cbn in Hadmit. destruct (admin user); [by left|right].
    destruct (List.find _ path_values) as [[name value]|] eqn:Hfind; cbn in Hadmit; [|done].
    apply List.find_some in Hfind as [Hin Hname]. cbn in Hname. apply bool_decide_eq_true_1 in Hname as ->.
    destruct (parse_uuid value) as [target|] eqn:Hparse; cbn in Hadmit; [|done].
    case_bool_decide; [|done]. subst. exists value. split; [by apply list_elem_of_In|done].
Qed.

(** Whoever a gate refuses is refused with what it says. *)
Lemma gate_admit_allowed state headers gate path_values steps actor :
  resolved state headers steps actor -> gate_admit gate actor path_values = Ok tt ->
  allowed state headers gate path_values steps.
Proof.
  intros [Hun Hknown] [->|[Hopen|(user & Huser & Hentitled)]]%gate_admit_entitles; [by left|..].
  - rewrite Hun in Hopen. apply orb_true_iff in Hopen as [|Hnone%bool_decide_eq_true_1]; [by right; left|].
    by right; right; left.
  - right; right; right. exists user. split; [by apply Hknown|done].
Qed.

(** ** Nothing of the engine before its gate *)

(** Every call of the engine, and every stream played, comes after what allows
    it. *)
Definition guarded (state : AppState) (headers : HeaderMap) (gate : Gate) (path_values : list (string * string))
    (steps : list Step) (outcome : option (result Response ApiError)) : Prop :=
  (forall before call after, steps = before ++ call :: after -> engine_call call = true ->
    allowed state headers gate path_values before) /\
  (forall response, outcome = Some (Ok response) -> plays response = true ->
    allowed state headers gate path_values steps).

Lemma guarded_open state headers path_values steps outcome : guarded state headers OpenGate path_values steps outcome.
Proof. by split; intros; left. Qed.

Lemma guarded_refused state headers gate path_values steps outcome :
  quiet steps -> (forall response, outcome <> Some (Ok response)) -> guarded state headers gate path_values steps outcome.
Proof.
  intros Hquiet Hout. split; [|naive_solver]. intros before call after -> Hcall.
  apply Forall_app in Hquiet as [_ Hquiet]. apply Forall_cons in Hquiet as [? _]. congruence.
Qed.

(** Once the gate is passed with nothing of the engine called, what follows is
    guarded. *)
Lemma guarded_after state headers gate path_values steps more outcome :
  quiet steps -> allowed state headers gate path_values steps ->
  guarded state headers gate path_values (steps ++ more) outcome.
Proof.
  intros Hquiet Hallowed. split.
  - intros before call after Heq Hcall.
    assert (Hlong : exists rest, before = steps ++ rest).
    { destruct (decide (length before < length steps)%nat) as [Hshort|Hlong].
      - exfalso. assert (Hin : steps !! length before = Some call).
        { rewrite <-(lookup_app_l steps more) by done. rewrite Heq.
          by rewrite lookup_app_r, Nat.sub_diag by lia. }
        rewrite (Forall_lookup_1 _ _ _ _ Hquiet Hin) in Hcall. done.
      - exists (drop (length steps) before). rewrite <-(take_drop (length steps) before) at 1. f_equal.
        assert (Htake : take (length steps) (steps ++ more) = take (length steps) (before ++ call :: after))
          by by rewrite Heq.
        rewrite take_app_length, take_app_le in Htake by lia. done. }
    destruct Hlong as [rest ->]. by apply allowed_more.
  - intros. by apply allowed_more.
Qed.

Lemma every_true {A} (p : Prog A) : every p (fun _ _ => True).
Proof. induction p; cbn; intros; auto. Qed.

Lemma every_guarded {A} state headers gate path_values (p : Prog (result A ApiError)) (k : A -> Answered) :
  every p (fun steps outcome =>
    quiet steps /\ forall a, outcome = Some (Ok a) -> allowed state headers gate path_values steps) ->
  every (prog_bind p (fun outcome => match outcome with Ok x => k x | Err error => Done (Err error) end))
    (guarded state headers gate path_values).
Proof.
  intros Hp. apply every_bind. eapply every_mono; [apply Hp|].
  intros steps [[a|error]|] [Hquiet Hallowed]; cbn.
  - eapply every_mono; [apply every_true|]. intros more outcome _. apply guarded_after; [done|]. by eapply Hallowed.
  - rewrite app_nil_r. by apply guarded_refused.
  - by apply guarded_refused.
Qed.

(** Admission by a gate, of [app_admit] and of a dispatch. *)
Lemma every_admit state headers gate path_values resolution :
  every (let! found := actor state headers resolution in
         let? found := from_result (host_result found) in
         let? _ := from_result (gate_admit gate found path_values) in
         Done (Ok found))
    (fun steps outcome => quiet steps /\ forall actor, outcome = Some (Ok actor) ->
      resolved state headers steps actor /\ allowed state headers gate path_values steps).
Proof.
  apply every_bind. eapply every_mono; [apply every_actor|].
  intros steps [[found|error]|] [Hquiet Hresolved]; cbn; rewrite ?app_nil_r; [|by split..].
  destruct (gate_admit gate found path_values) as [[]|] eqn:Hadmit; cbn; rewrite app_nil_r; (split; [done|]); [|done].
  intros ? [= <-]. split; [by apply Hresolved|]. by eapply gate_admit_allowed; [apply Hresolved|].
Qed.

(** ** What a dispatch calls *)

(** Steps that call no operation. *)
Definition calls_none (steps : list Step) : Prop :=
  forall operation arguments answered, Operated operation arguments answered ∉ steps.

Lemma quiet_calls_none steps : quiet steps -> calls_none steps.
Proof. intros Hquiet operation arguments answered Hin. by apply (proj1 (Forall_forall _ _) Hquiet) in Hin. Qed.

(** A call made of what the gate was checked against. *)
Definition called_with (self : Dispatch) (state : AppState) (headers : HeaderMap) (query : option string)
    (seen : list Step) (actor : Actor) (path : Object) (request : Jvalue) : Prop :=
  resolved state headers seen actor /\ gate_admit (gate self) actor (path_values self) = Ok tt /\
  path_object (parameters self) [] = Some path /\ request_json (request_body self) = Ok request.

(** A dispatch calls its operation once, last, and answers what it did; else it
    calls none and is refused. *)
Lemma every_dispatch_answer self state headers query :
  every (dispatch_answer self state headers query) (fun steps outcome =>
    (exists seen actor path request answered,
      steps = seen ++ [Operated (operation self) (call_arguments actor path query request) answered] /\
      quiet seen /\ outcome = Some (host_result answered) /\
      called_with self state headers query seen actor path request) \/
    quiet steps /\ forall answered, outcome <> Some (Ok answered)).
Proof.
  unfold dispatch_answer. destruct (path_object (parameters self) []) as [path|] eqn:Hpath;
    [|by right; split; [constructor|]].
  apply every_bind. eapply every_mono; [apply every_actor|].
  intros seen [[found|error]|] [Hquiet Hresolved]; cbn; [|right; rewrite ?app_nil_r; by split..].
  destruct (gate_admit (gate self) found (path_values self)) as [[]|] eqn:Hadmit; cbn;
    [|right; rewrite app_nil_r; by split].
  destruct (request_json (request_body self)) as [request|] eqn:Hrequest; cbn; [|right; rewrite app_nil_r; by split].
  intros answered. left. exists seen, found, path, request, answered. split_and!; [done..|].
  split_and!; [by apply Hresolved|done..].
Qed.

(** Serving what an operation answered calls none. *)
Lemma every_serve served : every (serve served) (fun steps _ => calls_none steps).
Proof.
  unfold serve. destruct (served_file served); cbn.
  - intros [|]; cbn; [|intros []]; intros ? ? ?; rewrite !elem_of_cons; intros Hin; destruct_or? Hin; try discriminate;
      by apply not_elem_of_nil in Hin.
  - by intros ??? ?%not_elem_of_nil.
Qed.

Lemma every_respond_calls self state headers query :
  every (respond self state headers query) (fun steps _ =>
    forall name arguments answered, Operated name arguments answered ∈ steps ->
      name = operation self /\ exists seen actor path request,
        arguments = call_arguments actor path query request /\
        called_with self state headers query seen actor path request).
Proof.
  assert (Hone : forall seen actor path request answered more,
    quiet seen -> calls_none more -> called_with self state headers query seen actor path request ->
    forall name arguments answered', Operated name arguments answered' ∈
        (seen ++ [Operated (operation self) (call_arguments actor path query request) answered]) ++ more ->
      name = operation self /\ exists seen actor path request,
        arguments = call_arguments actor path query request /\
        called_with self state headers query seen actor path request).
  { intros seen actor path request answered more Hquiet Hmore Hwith name arguments answered'.
    rewrite !elem_of_app, list_elem_of_singleton. intros [[Hin|Heq]|Hin].
    - by apply quiet_calls_none in Hin.
    - simplify_eq. split; [done|]. by exists seen, actor, path, request.
    - by apply Hmore in Hin. }
  assert (Hnothing : calls_none []) by by intros ??? ?%not_elem_of_nil.
  unfold respond. apply every_bind. eapply every_mono; [apply every_dispatch_answer|].
  intros steps outcome [(seen & actor & path & request & called & -> & Hquiet & -> & Hwith)|[Hquiet Hnone]].
  - destruct called as [[text|served|source handle]|error]; cbn; try by eapply Hone.
    apply every_bind. eapply every_mono; [apply every_serve|].
    intros more [response|] Hmore; cbn; rewrite ?app_nil_r; by eapply Hone.
  - destruct outcome as [[answered|error]|]; [by destruct (Hnone answered)|..]; cbn; rewrite ?app_nil_r;
      intros name arguments answered Hin; by apply quiet_calls_none in Hin.
Qed.

(** ** The application around its handlers *)

(** The control application's token, where it asks for one. *)
Definition bears_cli_token (config : AppConfig) (request : Request) : Prop :=
  forall token, cli_token config = Some token -> get "authorization" (request_headers request) ≫= to_str = Some token.

(** A request is refused for want of the token, having asked nothing, or is
    handled. *)
Lemma every_application config request (Q : list Step -> option (result Response ApiError) -> Prop) :
  every (handle (build_state config) request) Q ->
  every (application config request) (fun steps outcome =>
    steps = [] /\ outcome = Some (error_response not_authenticated) \/
    bears_cli_token config request /\ exists handled, Q steps handled /\ outcome = answer <$> handled).
Proof.
  intros Hhandle. unfold application, bears_cli_token.
  assert (Hserve : every (let! outcome := handle (build_state config) request in Done (answer outcome))
    (fun steps outcome => exists handled, Q steps handled /\ outcome = answer <$> handled)).
  { apply every_bind. eapply every_mono; [apply Hhandle|].
    intros steps [result|] HQ; cbn; rewrite ?app_nil_r; by eexists. }
  destruct (cli_token config) as [token|]; [case_bool_decide as Htoken|].
  - eapply every_mono; [apply Hserve|]. intros. right. split; [by intros ? [= <-]|done].
  - by left.
  - eapply every_mono; [apply Hserve|]. by right.
Qed.
End known.
