(* ===== verification/Session.v ===== *)
(** * A session's token identifies its user

    What [ceres-server/src/api/auth.rs] answers a login, a refresh or an
    impersonation with, presented again as [auth.rs] reads it: in the
    [Authorization] header or in the cookie the answer set. *)
From S2P Require Import Prelude.
From stdpp Require Import pretty.
From S2P Require Import Text Wire Json Http Host Auth Api.
Local Open Scope string_scope.
Local Open Scope list_scope.
Local Open Scope Z_scope.

(** ** What is relied on of the crates *)

Definition visible (c : ascii) : bool := (32 <=? byte_of c) && (byte_of c <=? 126).

(** A JWT's compact form: base64url parts and the dots between them. *)
Definition token_char (c : ascii) : bool :=
  is_ascii_alphanumeric c || Strings.Ascii.eqb c "-" || Strings.Ascii.eqb c "_" || Strings.Ascii.eqb c ".".

(** [http]'s values are their bytes, and read as text when all are visible; an
    instant fits [chrono]'s range, whose last second an [i64] holds;
    [jsonwebtoken] verifies what it signed until the expiry it was given,
    without leeway, when the claims it requires are there. *)
Class ServerLaws `{HttpCrates} `{TokenCrate} := {
  to_str_visible text : str_forall visible text = true -> to_str text = Some text;
  header_value_bytes text value : header_value text = Some value -> value = text;
  datetime_zero : datetime_min <= 0;
  datetime_seconds : datetime_max / second <= i64_max;
  jwt_text key claims token : jwt_encode key claims = Some token -> str_forall token_char token = true;
  jwt_round key rules claims token now expires :
    jwt_encode key claims = Some token -> leeway rules = 0 ->
    Forall (fun claim => jget claim claims <> None) (required_spec_claims rules) ->
    jget "exp" claims = Some (JNumber (pretty expires)) -> 0 <= now <= expires ->
    jwt_decode key rules now token = Some claims
}.

(** ** Numbers *)

Lemma integer_of_pretty (n : Z) : 0 <= n -> integer_of (pretty n) = Some n.
Proof.
  intros Hn. destruct n as [|p|p]; [done| |lia].
  change (pretty (Zpos p)) with (pretty_N_go (Npos p) (EmptyString)).
  pose proof (digits_value_go (Npos p) "") as Hgo. unfold integer_of.
  destruct (pretty_N_go (Npos p) "") eqn:Htext; [|done]. discriminate Hgo.
Qed.

Lemma pretty_nonneg_dash (n : Z) rest : 0 <= n -> pretty n <> String "-" rest.
Proof. intros Hn Hdash%(f_equal integer_of). rewrite integer_of_pretty in Hdash by done. done. Qed.

Lemma as_i64_pretty (n : Z) : 0 <= n <= i64_max -> as_i64 (JNumber (pretty n)) = Some n.
Proof.
  intros Hn. unfold as_i64.
  assert (Hplain : match pretty n with String "-" digits => Z.opp <$> integer_of digits | _ => integer_of (pretty n) end
                   = Some n).
  { pose proof (integer_of_pretty n) as Hint. pose proof (pretty_nonneg_dash n) as Hdash.
    destruct (pretty n) as [|c digits]; [by apply Hint; lia|].
    destruct (decide (c = "-"%char)) as [->|Hne]; [exfalso; apply (Hdash digits); [lia|done]|].
    rewrite <-Hint by lia. by repeat case_match; simplify_eq. }
  rewrite Hplain. cbn. unfold i64_min, i64_max in *.
  by rewrite (proj2 (Z.leb_le _ _)), (proj2 (Z.leb_le _ _)) by lia.
Qed.

(** ** The cookie *)

(** What a browser keeps of the cookie: all before the attributes. *)
Definition stored (token : string) : string :=
  "Authorization=" +:+ String quote ("Bearer " +:+ token +:+ String quote "").

Lemma token_char_plain c : token_char c = true ->
  Strings.Ascii.eqb c quote = false /\ Strings.Ascii.eqb c "\" = false /\
  Strings.Ascii.eqb c ";" = false /\ visible c = true.
Proof. destruct c as [[] [] [] [] [] [] [] []]; vm_compute; try done; intros; split_and!; done. Qed.

Lemma token_no_char (c : ascii) token :
  token_char c = false -> str_forall token_char token = true -> contains_char c token = false.
Proof. apply str_forall_no_char. Qed.

Lemma stored_of_cookie `{HttpCrates} kind token expires :
  str_forall token_char token = true ->
  exists attributes, split_once ";" (cookie_text kind token expires) = Some (stored token, attributes).
Proof.
  intros Htoken. unfold cookie_text, stored.
  exists (" expires=" +:+ http_date expires +:+
    match kind with Insecure => "; Path=/; SameSite=lax" | Secure => "; HttpOnly; Path=/; SameSite=lax; Secure" end).
  apply split_once_Some. split.
  - by rewrite !str_app_assoc, !str_app_cons, !str_app_assoc.
  - rewrite contains_char_app. cbn. rewrite !contains_char_app. cbn.
    by rewrite (token_no_char ";" token).
Qed.

Lemma trim_end_char_keeps c text last :
  Strings.Ascii.eqb last c = false ->
  trim_end_char c (text +:+ String last (String c "")) = text +:+ String last "".
Proof.
  intros Hlast. induction text as [|a text IH].
  - rewrite str_app_nil. cbn. by rewrite Strings.Ascii.eqb_refl, Hlast.
  - rewrite !str_app_cons. cbn [trim_end_char]. rewrite IH. by destruct text.
Qed.

Lemma unescape_plain text : contains_char "\" text = false -> unescape_quotes text = text.
Proof.
  induction text as [|a text IH]; [done|]. cbn [contains_char unescape_quotes].
  intros [Ha Htext]%orb_false_iff. destruct text as [|b text]; [done|].
  rewrite Ha. cbn [andb]. by rewrite IH.
Qed.

(** Some last character ends a text. *)
Lemma str_last (c : ascii) text : exists front last, String c text = front +:+ String last "".
Proof.
  revert c. induction text as [|a text IH]; intros c; [by exists "", c|].
  destruct (IH a) as (front & last & ->). by exists (String c front), last.
Qed.

Lemma trim_matches_quoted text :
  contains_char quote text = false -> text <> "" -> trim_matches quote (String quote (text +:+ String quote "")) = text.
Proof.
  intros Hplain Hne. unfold trim_matches. cbn [trim_start_char]. rewrite Strings.Ascii.eqb_refl.
  destruct text as [|c text]; [done|].
  assert (Hstart : trim_start_char quote (String c text +:+ String quote "") = String c text +:+ String quote "").
  { rewrite str_app_cons. cbn [trim_start_char]. cbn in Hplain. by apply orb_false_iff in Hplain as [-> _]. }
  rewrite Hstart. destruct (str_last c text) as (front & last & Heq). rewrite Heq in *.
  rewrite str_app_assoc, str_app_cons, str_app_nil. apply trim_end_char_keeps.
  rewrite contains_char_app in Hplain. apply orb_false_iff in Hplain as [_ Hplain].
  cbn in Hplain. by rewrite orb_false_r in Hplain.
Qed.

Lemma cookie_value_read token :
  str_forall token_char token = true ->
  unescape_quotes (trim_matches quote (String quote ("Bearer " +:+ token +:+ String quote ""))) = "Bearer " +:+ token.
Proof.
  intros Htoken. rewrite <-str_app_assoc, trim_matches_quoted.
  - apply unescape_plain. rewrite contains_char_app. cbn. by rewrite (token_no_char _ token).
  - rewrite contains_char_app. cbn. by rewrite (token_no_char _ token).
  - done.
Qed.

(** A cookie pair of another name is passed over. *)
Definition other_pair (entry : string) : Prop :=
  exists name value, split_once "=" (trim entry) = Some (name, value) /\ name <> "Authorization".

Lemma cookie_pair_found front entry back token :
  Forall other_pair front -> trim entry = stored token -> str_forall token_char token = true ->
  cookie_pair (front ++ entry :: back) = Some (Some ("Bearer " +:+ token)).
Proof.
  intros Hfront Hentry Htoken. induction Hfront as [|other front (name & value & Hsplit & Hname) _ IH].
  - cbn [app cookie_pair]. rewrite Hentry.
    assert (Hsplit : split_once "=" (stored token) =
      Some ("Authorization", String quote ("Bearer " +:+ token +:+ String quote ""))) by by apply split_once_Some.
    rewrite Hsplit, decide_True by done. by rewrite cookie_value_read.
  - cbn [app cookie_pair]. by rewrite Hsplit, decide_False.
Qed.

#[local] Arguments as_i64 : simpl never.

Section session.
Context `{ServerLaws}.

(** A request bears a token: in the header, or, without one, in the cookie a
    browser keeps, wherever it comes among other cookies. *)
Definition bears (headers : HeaderMap) (token : string) : Prop :=
  get "authorization" headers = Some ("Bearer " +:+ token) \/
  get "authorization" headers = None /\
  exists cookies front entry back,
    get_all "cookie" headers = [cookies] /\ to_str cookies = Some cookies /\
    str_split ";" cookies = front ++ entry :: back /\ trim entry = stored token /\ Forall other_pair front.

Lemma bears_token headers token :
  str_forall token_char token = true -> bears headers token -> bearer_token headers = Some token.
Proof.
  intros Htoken Hbears. unfold bearer_token.
  assert (Hstrip : strip_prefix "Bearer " ("Bearer " +:+ token) = Some token) by by apply strip_prefix_Some.
  destruct Hbears as [->|(-> & cookies & front & entry & back & Hall & Htext & Hsplit & Hentry & Hfront)]; cbn.
  - rewrite to_str_visible; [done|]. rewrite str_forall_app. cbn.
    eapply str_forall_impl; [|done]. intros c Hc. by apply token_char_plain.
  - unfold authorization_cookie. rewrite Hall. cbn. rewrite Htext, Hsplit.
    by rewrite (cookie_pair_found front entry back token).
Qed.

(** The settings the server is built with. *)
Definition standard (settings : AuthSettings) : Prop :=
  leeway (validation_ settings) = 0 /\ required_spec_claims (validation_ settings) = ["sub"; "exp"] /\
  encoding settings = decoding settings.

Lemma token_read settings user_id expires impersonated_by token now :
  standard settings ->
  jwt_encode (encoding settings) (claims_of user_id expires impersonated_by) = Some token ->
  parse_uuid user_id = Some user_id -> (forall by_, impersonated_by = Some by_ -> parse_uuid by_ = Some by_) ->
  datetime_held expires = true -> 0 <= now / second <= expires / second ->
  token_at settings now token = Some {| parsed := token; user_id := user_id;
    parsed_expires := expires / second * second; parsed_impersonated_by := impersonated_by |}.
Proof.
  intros (Hleeway & Hrequired & Hkeys) Hencode Huser Hby Hheld Hnow. unfold token_at.
  assert (Hexp : jget "exp" (claims_of user_id expires impersonated_by) = Some (JNumber (pretty (expires / second))))
    by by destruct impersonated_by.
  rewrite <-Hkeys, (jwt_round _ _ _ _ (now / second) (expires / second) Hencode Hleeway) by
    (rewrite ?Hrequired; try done; by repeat constructor; destruct impersonated_by).
  cbn. unfold read_claims. rewrite Hexp.
  assert (Hsub : jget "sub" (claims_of user_id expires impersonated_by) = Some (JText user_id))
    by by destruct impersonated_by.
  rewrite Hsub. cbn. unfold uuid_of. cbn. rewrite Huser. cbn.
  unfold datetime_held in *. apply andb_true_iff in Hheld as [Hlow%Z.leb_le Hhigh%Z.leb_le].
  pose proof datetime_zero. pose proof datetime_seconds.
  assert (Hseconds : expires / second <= datetime_max / second) by by apply Z.div_le_mono.
  rewrite (as_i64_pretty (expires / second)) by lia. cbn.
  assert (Hbelow : expires / second * second <= expires)
    by (rewrite Z.mul_comm; by apply Z.mul_div_le).
  rewrite (proj2 (Z.leb_le _ _)), (proj2 (Z.leb_le _ _)) by (unfold second in *; lia). cbn.
  assert (Himp : match jget "imp" (claims_of user_id expires impersonated_by) with
                 | Some value => Some <$> uuid_of value | None => Some None end = Some impersonated_by).
  { destruct impersonated_by as [by_|]; [|done]. transitivity (Some <$> parse_uuid by_); [done|].
    by rewrite (Hby by_). }
  unfold uuid_of in Himp. by rewrite Himp.
Qed.

(** What a fresh identity is answered with. *)
Definition fresh_identity (token : string) (expires : Z) (user : UserRecord) (impersonator : option string) : Identity :=
  {| token := token; expires := expires; user := user; impersonated_by := impersonator |}.

Lemma identity_response_run {S} (world : World S) settings user impersonator kind s steps response s' :
  run world (identity_response settings user impersonator kind) s = (steps, Some (Ok response), s') ->
  exists issued token,
    steps = [NowRead issued] /\ datetime_held (issued + duration settings) = true /\
    jwt_encode (encoding settings) (claims_of (id user) (issued + duration settings) impersonator) = Some token /\
    body response = TextBody (json_text (identity_json
      (fresh_identity token (issued + duration settings) user impersonator))) /\
    forall type, kind = Some type ->
      get "set-cookie" (headers response) = Some (cookie_text type token (issued + duration settings)).
Proof.
  unfold identity_response, mint. cbn [prog_bind ask run]. destruct (world _ Now s) as [issued middle].
  destruct (datetime_held (issued + duration settings)) eqn:Hheld; [|done].
  destruct (jwt_encode _ _) as [token|] eqn:Hencode; [|done]. cbn [prog_bind minted minted_expires].
  intros Hrun. exists issued, token.
  destruct kind as [type|]; cbn in Hrun; [|by simplify_eq].
  unfold assign in Hrun. destruct (header_value _) as [cookie|] eqn:Hcookie; cbn in Hrun; [|done].
  apply header_value_bytes in Hcookie as ->. simplify_eq. split_and!; [done..|]. intros ? [= <-].
  unfold get, with_cookie. cbn [headers]. by rewrite get_all_insert.
Qed.

(** A token's bearer is who the host says its user is. *)
Lemma identity_reads state headers settings token read :
  auth state = Some settings -> bearer_token headers = Some token ->
  every (identity state headers) (fun steps outcome =>
    exists now more, steps = NowRead now :: more /\
    (token_at settings now token = Some read -> exists found,
        more = [UserFound (user_id read) found] /\
    outcome = Some match found with
                       | Ok (Some held) => Ok (Some {| token := parsed read; expires := parsed_expires read;
                           user := held; impersonated_by := parsed_impersonated_by read |})
                       | Ok None => Ok None
                       | Err error => Err error
                       end)).
Proof.
  intros Hauth Htoken. unfold identity. rewrite Hauth, Htoken. unfold token_parse. cbn [prog_bind ask every]. intros now.
  destruct (token_at settings now token) as [found|] eqn:Hfound; cbn [prog_bind ask every].
  - intros [[held|]|error]; cbn; eexists now, _; (split; [done|]); rewrite Hfound; intros [= ->]; eauto.
  - exists now, []. split; [done|]. by rewrite Hfound.
Qed.

(** C20: An identity answered to a login, a refresh or an impersonation carries
    a token that, presented in the header or as the cookie the answer set,
    resolves to that same user and impersonator until it expires, and asks the
    host for that user alone. *)
Theorem session_identifies {S} (world : World S) settings user impersonator kind s steps response s' :
  standard settings -> parse_uuid (id user) = Some (id user) ->
  (forall by_, impersonator = Some by_ -> parse_uuid by_ = Some by_) ->
  run world (identity_response settings user impersonator kind) s = (steps, Some (Ok response), s') ->
  exists issued token,
    let expires := issued + duration settings in
    let fresh := fresh_identity token expires user impersonator in
    steps = [NowRead issued] /\ body response = TextBody (json_text (identity_json fresh)) /\
    (forall type, kind = Some type -> exists cookie attributes,
      get "set-cookie" (headers response) = Some cookie /\ split_once ";" cookie = Some (stored token, attributes)) /\
    forall state headers, auth state = Some settings -> bears headers token ->
      every (identity state headers) (fun steps outcome =>
        exists now more, steps = NowRead now :: more /\
          (0 <= now / second <= expires / second -> exists found,
            more = [UserFound (id user) found] /\
            outcome = Some match found with
                           | Ok (Some held) => Ok (Some {| token := token; expires := expires / second * second;
                               user := held; impersonated_by := impersonator |})
                           | Ok None => Ok None
                           | Err error => Err error
                           end)).
Proof.
  intros Hsettings Huser Hby Hrun.
  destruct (identity_response_run _ _ _ _ _ _ _ _ _ Hrun) as (issued & token & -> & Hheld & Hencode & Hbody & Hcookie).
  pose proof (jwt_text _ _ _ Hencode) as Htext.
  exists issued, token. cbn zeta. split_and!; [done|done| |].
  - intros type Htype. destruct (stored_of_cookie type token (issued + duration settings) Htext) as [attributes Hsplit].
    eauto.
  - intros state headers Hauth Hbears.
    eapply every_mono; [by apply (identity_reads _ _ settings token), bears_token|].
    intros steps outcome (now & more & -> & Hread). exists now, more. split; [done|]. intros Hnow.
    by destruct (Hread (token_read settings _ _ _ _ now Hsettings Hencode Huser Hby Hheld Hnow)) as (found & -> & ->);
      eauto.
Qed.
End session.
