(* ===== verification/ServerServed.v ===== *)
(** * A server to run requests on

    Concrete crates for the server's files, [jsonwebtoken]'s signing a token
    that spells its claims and its key, and a host of two users.

    The parts after this one: what the route table forwards; every handle the
    host gives is released; what the server promises. *)
From S2P Require Import Prelude.
From stdpp Require Import pretty.
From S2P Require Import Text Remux Wire Json Http Host Auth Api Server AuthFacts Session.
Local Open Scope string_scope.
Local Open Scope list_scope.
Local Open Scope Z_scope.

Definition visible_text (text : string) : option string := if str_forall visible text then Some text else None.

(** A body of [key=value] words reads as an object of texts. *)
Definition words (text : string) : result Jvalue string :=
  match res_map (fun word => match split_once "=" word with
                             | Some (key, value) => Ok (key, JText value)
                             | None => Err "expected a pair"
                             end) (str_split " " text) with
  | Ok fields => Ok (JObject fields)
  | Err error => Err error
  end.

Definition plain (value : Jvalue) : string :=
  match value with
  | JText text => text | JNumber text => text | JNull => "null" | JBool true => "true" | JBool false => "false"
  | JArray _ => "[]" | JObject fields => str_join " " ((fun '(key, _) => key) <$> fields)
  end.

#[export] Instance sample_http : HttpCrates := {|
  from_slice := words; json_text := plain;
  parse_uuid text := if decide (String.length text = 4)%nat then Some text else None;
  to_str := visible_text; header_value := visible_text; header_name := visible_text;
  form_pairs _ := []; form_text _ := "";
  http_date _ := "Thu, 30 Jul 2026 00:44:14 GMT"; rfc3339_seconds _ := "then"; rfc3339_micros _ := "then";
  datetime_min := -8334601228800000000000; datetime_max := 8210266876799999999999
|}.

(** ** Tokens *)

Definition part (text : string) : bool := str_forall is_ascii_alphanumeric text.

Definition sample_claims (user expires by_ : string) : Object :=
  ("sub", JText user) :: ("exp", JNumber expires) :: if decide (by_ = "") then [] else [("imp", JText by_)].

(** The texts of the claims, told by their shape. *)
Definition claim_texts (claims : Object) : option (string * string * string) :=
  match snd <$> claims with
  | [JText user; JNumber expires] => Some (user, expires, "")
  | [JText user; JNumber expires; JText by_] => Some (user, expires, by_)
  | _ => None
  end.

Definition sample_encode (key : string) (claims : Object) : option string :=
  match claim_texts claims with
  | Some (user, expires, by_) =>
      if bool_decide (fst <$> claims = fst <$> sample_claims user expires by_) &&
         (part user && part expires && part by_ && part key)
      then Some (user +:+ String "." (expires +:+ String "." (by_ +:+ String "." key)))
      else None
  | None => None
  end.

Definition sample_decode (key : string) (rules : Validation) (now : Z) (token : string) : option Object :=
  match str_split "." token with
  | [user; expires; by_; held] =>
      match integer_of expires with
      | Some at_ =>
          if bool_decide (held = key) && (now <=? at_ + leeway rules) then Some (sample_claims user expires by_)
          else None
      | None => None
      end
  | _ => None
  end.

#[export] Instance sample_tokens : TokenCrate := {| jwt_encode := sample_encode; jwt_decode := sample_decode |}.

Lemma part_plain text : part text = true -> contains_char "." text = false.
Proof. by apply str_forall_no_char. Qed.

Lemma part_token text : part text = true -> str_forall token_char text = true.
Proof. apply str_forall_impl. intros c Hc. unfold token_char. by rewrite Hc. Qed.

Lemma claims_by_parts (claims other : Object) : fst <$> claims = fst <$> other -> snd <$> claims = snd <$> other -> claims = other.
Proof.
  revert other. induction claims as [|[name value] claims IH]; intros [|[name' value'] other]; try done.
  cbn. intros [= -> Hnames] [= -> Hvalues]. f_equal. by apply IH.
Qed.

(** What the sample signs, taken apart. *)
Lemma sample_encode_some key claims token :
  sample_encode key claims = Some token -> exists user expires by_,
    claims = sample_claims user expires by_ /\
    token = user +:+ String "." (expires +:+ String "." (by_ +:+ String "." key)) /\
    part user = true /\ part expires = true /\ part by_ = true /\ part key = true.
Proof.
  unfold sample_encode. destruct (claim_texts claims) as [[[user expires] by_]|] eqn:Htexts; [|done].
  case_bool_decide as Hnames; [|done]. cbn [andb].
  destruct (part user && part expires && part by_ && part key) eqn:Hparts; [|done]. intros [= <-].
  rewrite !andb_true_iff in Hparts. destruct Hparts as [[[? ?] ?] ?].
  exists user, expires, by_. split; [|done]. apply claims_by_parts; [done|].
  apply (f_equal length) in Hnames. rewrite !length_fmap in Hnames. unfold claim_texts in Htexts.
  rewrite <-(length_fmap snd claims) in Hnames. unfold sample_claims in *.
  destruct (snd <$> claims) as [|[] [|[] [|[] [|]]]]; simplify_eq; [done|].
  destruct (decide (by_ = "")) as [->|]; [done|done].
Qed.

#[export] Program Instance sample_laws : ServerLaws.
Next Obligation. intros text Htext. cbn. unfold visible_text. by rewrite Htext. Qed.
Next Obligation. intros text value. cbn. unfold visible_text. by case_match; intros [= ->]. Qed.
Next Obligation. done. Qed.
Next Obligation. by vm_compute. Qed.
Next Obligation.
  intros key claims token (user & expires & by_ & -> & -> & Hu & He & Hb & Hk)%sample_encode_some.
  repeat (rewrite str_forall_app; cbn). by rewrite !part_token.
Qed.
Next Obligation.
  intros key rules claims token now expires (user & seconds & by_ & -> & -> & Hu & He & Hb & Hk)%sample_encode_some
    Hleeway Hrequired Hexp Hnow. cbn [jwt_decode sample_tokens]. unfold sample_decode.
  rewrite !str_split_app, (str_split_single "." key) by by apply part_plain.
  assert (Some (JNumber seconds) = Some (JNumber (pretty expires))) as [= ->] by exact Hexp. rewrite integer_of_pretty by lia.
  rewrite bool_decide_eq_true_2 by done. cbn [andb]. rewrite Hleeway, Z.add_0_r.
  by rewrite (proj2 (Z.leb_le _ _)) by lia.
Qed.

(** ** A host *)

Definition ada : UserRecord := {| id := "ada0"; admin := true; disabled := false; payload := JText "ada" |}.
Definition bob : UserRecord := {| id := "bob0"; admin := false; disabled := false; payload := JText "bob" |}.

Definition sample_user (user : string) : option UserRecord :=
  if decide (user = "ada0") then Some ada else if decide (user = "bob0") then Some bob else None.

(** Calls of a query are described by a file the server can open. *)
Definition sample_served : Served :=
  {| served_status := 200; served_headers := [("content-type", "text/csv")]; served_file := Some "/tmp/export.csv";
     served_handle := 7 |}.

Definition sample_world : World unit := fun X event s =>
  (match event in Event X return X with
   | Now => 1000 * second
   | Sleep _ => tt
   | OpenFile _ => true
   | AuthorityCertificate _ => None
   | User user => Ok (sample_user user)
   | NativeGateUser user => None
   | NativeRecords _ _ => None
   | NativeRecordCount _ _ => None
   | NativeRecord _ _ => None
   | VerifyLogin username _ => Ok (sample_user username)
   | ChangePassword _ _ _ => Ok None
   | Operate operation _ =>
       if decide (operation = "queries.call_get") then Ok (Described sample_served) else Ok (Payload "done")
   | CloseStream _ => tt
   | OpenSession _ _ _ => Err Full
   | CloseSession _ => false
   | AwaitClosed _ => tt
   end, s).

Definition sample_settings : AuthSettings := auth_settings "key" (1800 * second) true.

Definition sample_config : AppConfig :=
  {| cli_token := None; config_auth := Some sample_settings; config_authority := None; config_webrtc := false;
     document := "document" |}.

(** A token minted at the epoch. *)
Definition token_for (user : string) : string :=
  default "" (jwt_encode "key" (claims_of user (1800 * second) None)).

Definition request_as (user : string) (at_ : Endpoint) : Request :=
  {| endpoint := at_; uri_path := "/api"; query := None;
     request_headers := [("authorization", "Bearer " +:+ token_for user)]; bytes := ""; upgrade := None |}.

(** A user updating themselves, and calling a query. *)
Definition self_update : Request := request_as "bob0" (HostCall 12 [("id", "bob0")]).
Definition query_call : Request := request_as "bob0" (HostCall 68 [("id", "rig"); ("second", "export")]).

(** * What the route table forwards

    The rows of [Routes] are well-formed, and a dispatched call tells the host
    who asks and for what: the very path its gate was checked against. *)
Local Open Scope ceres_scope.

(** ** The table *)

(** The capture a segment of a template names: [{name}] or [{*name}]. *)
Definition capture_name (segment : string) : option string :=
  rest ← strip_prefix "{" segment;
  name ← strip_suffix "}" rest;
  Some (default name (strip_prefix "*" name)).

Definition fields_of (self : HostRoute) : list string := (fun '(field, _, _) => field) <$> route_parameters self.
Definition hosts_of (self : HostRoute) : list string := (fun '(_, host, _) => host) <$> route_parameters self.

(** A row's parameters are its path's captures, in order, each forwarded under a
    name of its own, and the parameter its gate reads is forwarded as a UUID. *)
Definition well_formed (self : HostRoute) : bool :=
  bool_decide (fields_of self = omap capture_name (str_split "/" (route_path self))) &&
  bool_decide (NoDup (hosts_of self)) &&
  match route_gate self with
  | SelfOrAdmin parameter =>
      existsb (fun '(_, host, kind) => bool_decide (host = parameter) && bool_decide (kind = Uuid_))
        (route_parameters self)
  | _ => true
  end.

#[export] Instance method_eq_dec : EqDecision Method.
Proof. solve_decision. Defined.

Lemma table_well_formed : forallb well_formed host_routes = true.
Proof. vm_compute. reflexivity. Qed.

Lemma route_well_formed index route : host_routes !! index = Some route -> well_formed route = true.
Proof.
  intros Hroute%list_elem_of_lookup_2%list_elem_of_In.
  exact (proj1 (forallb_forall _ _) table_well_formed _ Hroute).
Qed.

Lemma route_hosts_once index route : host_routes !! index = Some route -> NoDup (hosts_of route).
Proof.
  intros Hroute%route_well_formed. unfold well_formed in Hroute.
  apply andb_true_iff in Hroute as [[_ Hroute%bool_decide_eq_true_1]%andb_true_iff _]. done.
Qed.

(** ** The path object *)

Section path.
Context `{HttpCrates}.

Lemma path_object_get parameters path0 path :
  NoDup ((fun '(name, _, _) => name) <$> parameters) -> path_object parameters path0 = Some path ->
  (forall name, (forall value kind, (name, value, kind) ∉ parameters) -> jget name path = jget name path0) /\
  (forall name value kind, (name, value, kind) ∈ parameters ->
    jget name path = Some (JText value) /\ (kind = Uuid_ -> parse_uuid value <> None)).
Proof.
  revert path0. induction parameters as [|[[name value] kind] parameters IH]; intros path0; cbn.
  { intros _ [= ->]. split; [done|]. by intros ??? ?%not_elem_of_nil. }
  intros [Hfresh Hnodup]%NoDup_cons.
  destruct (bool_decide (kind = Uuid_) && bool_decide (parse_uuid value = None)) eqn:Hrefused; [done|].
  intros Hpath. destruct (IH _ Hnodup Hpath) as [Hother Hheld].
  assert (Habsent : forall value' kind', (name, value', kind') ∉ parameters).
  { intros value' kind' Hin. apply Hfresh.
    by apply (list_elem_of_fmap_2 (fun '(name, _, _) => name)) in Hin. }
  split.
  - intros other Hout. rewrite Hother by (intros value' kind' Hin; apply (Hout value' kind'); by apply list_elem_of_further).
    rewrite jget_insert, decide_False; [done|]. intros ->. by apply (Hout value kind), list_elem_of_here.
  - intros other value' kind' [Heq|Hin]%elem_of_cons; [|by apply Hheld]. simplify_eq.
    rewrite Hother by done. rewrite jget_insert, decide_True by done. split; [done|]. intros -> Hbad.
    by rewrite bool_decide_eq_true_2, bool_decide_eq_true_2 in Hrefused.
Qed.
End path.

Section forwarded.
Context `{HttpCrates} `{TokenCrate}.

End forwarded.


(** * Every handle the host gives is released

    What the handlers of [Api] and [Dispatch] do with a described body or a
    live source, and the table of [Routes]. *)

(** The handle the server is left with. *)
Definition handle_of (answered : Answer) : option Z :=
  match answered with
  | Payload _ => None
  | Described served => Some (served_handle served)
  | Live _ handle => Some handle
  end.

(** What a route's operations answer: a payload, save that a dispatched call may
    be described, and a WHEP route's call may be live. *)
Definition answers (at_ : Endpoint) (answered : Answer) : Prop :=
  match at_, answered with
  | WhepOpen _ _, _ | HostCall _ _, (Payload _ | Described _) | _, Payload _ => True
  | _, _ => False
  end.

(** Closed, left to close with its session, or held by the response's body. *)
Definition released (steps : list Step) (outcome : option Response) (handle : Z) : Prop :=
  StreamClosed handle ∈ steps \/ ClosedAwaited handle ∈ steps \/
  exists response, outcome = Some response /\
    (body response = ChunkBody handle \/ exists path, body response = FileBody path handle).

(** Steps listed one by one, none of them an operation. *)
Ltac calls_none :=
  intros ? ? ?; rewrite ?elem_of_cons; intros Hin; destruct_or? Hin; try discriminate; by apply not_elem_of_nil in Hin.

Section handles.
Context `{HttpCrates} `{TokenCrate}.

Definition all_released (at_ : Endpoint) (steps : list Step) (outcome : option (result Response ApiError)) : Prop :=
  forall operation arguments answered handle,
    Operated operation arguments (Ok answered) ∈ steps -> answers at_ answered -> handle_of answered = Some handle ->
    released steps (answer <$> outcome) handle.

Lemma calls_none_released at_ steps outcome : calls_none steps -> all_released at_ steps outcome.
Proof. intros Hnone ???? Hin. exfalso. by eapply Hnone. Qed.

(** Only a call's own handle is to account for. *)
Lemma all_released_one at_ seen operation arguments answered more outcome :
  quiet seen -> calls_none more ->
  (forall served, answered = Ok served -> answers at_ served -> forall handle, handle_of served = Some handle ->
    released (seen ++ Operated operation arguments answered :: more) (answer <$> outcome) handle) ->
  all_released at_ (seen ++ Operated operation arguments answered :: more) outcome.
Proof.
  intros Hquiet Hmore Hone operation' arguments' served handle.
  intros [Hin|[Heq|Hin]%elem_of_cons]%elem_of_app Hanswers Hhandle.
  - by apply quiet_calls_none in Hin.
  - simplify_eq. by eapply Hone.
  - by apply Hmore in Hin.
Qed.

Lemma all_released_quiet at_ seen outcome : quiet seen -> all_released at_ seen outcome.
Proof. intros. by apply calls_none_released, quiet_calls_none. Qed.

Lemma every_respond_released index captures self state headers query :
  every (respond self state headers query) (all_released (HostCall index captures)).
Proof.
  unfold respond. apply every_bind. eapply every_mono; [apply every_dispatch_answer|].
  intros steps [[answered|error]|] [(seen & actor & told & request & called & -> & Hquiet & Hcalled & _)|[Hquiet Hnone]]; try done.
  - destruct called as [called|]; [|done]. cbn in Hcalled. simplify_eq.
    destruct called as [text|served|source handle]; cbn.
    + rewrite app_nil_r. apply all_released_one; [done|calls_none|]. by intros ? [= <-].
    + unfold serve. destruct (served_file served) as [path|] eqn:Hfile; cbn.
      * intros [|]; cbn.
        -- rewrite <-app_assoc. apply all_released_one; [done|calls_none|]. intros ? [= <-] _ handle [= <-].
           right; right. eexists. split; [done|]. right. by exists path.
        -- intros []. rewrite <-app_assoc. apply all_released_one; [done|calls_none|]. intros ? [= <-] _ handle [= <-].
           left. set_solver.
      * rewrite app_nil_r. apply all_released_one; [done|calls_none|].
        intros ? [= <-] _ handle [= <-]. right; right. eexists. split; [done|]. by left.
    + rewrite app_nil_r. apply all_released_one; [done|calls_none|]. by intros ? [= <-].
  - by destruct (Hnone answered).
  - destruct called as [|]; [done|]. cbn in *. rewrite app_nil_r.
    by apply all_released_one; [|calls_none|].
  - cbn. rewrite app_nil_r. by apply all_released_quiet.
  - cbn. by apply all_released_quiet.
Qed.
Lemma every_whep_open_released address name state headers uri_path query offer :
  every (whep_open state address name headers uri_path query offer) (all_released (WhepOpen address name)).
Proof.
  assert (Hrefuse : forall error, every (refuse error) (all_released (WhepOpen address name))).
  { intros error. by apply all_released_quiet; constructor. }
  unfold whep_open, whep_server. destruct (webrtc state); cbn; [|by apply Hrefuse].
  destruct (negb _); [apply Hrefuse|]. destruct (negb (is_utf8 offer)); [apply Hrefuse|].
  destruct (reordered_frames query) as [[reordered rest]|error]; cbn; [|by apply Hrefuse].
  apply every_bind. eapply every_mono; [apply every_dispatch_answer|].
  intros steps [[answered|error]|] [(seen & actor & told & request & called & -> & Hquiet & Hcalled & _)|[Hquiet Hnone]]; try done.
  - destruct called as [called|]; [|done]. cbn in Hcalled. simplify_eq.
    destruct called as [text|served|source handle]; cbn.
    + rewrite app_nil_r. apply all_released_one; [done|calls_none|]. by intros ? [= <-].
    + intros []. rewrite <-app_assoc. apply all_released_one; [done|calls_none|]. intros ? [= <-] _ handle [= <-].
      left. set_solver.
    + intros [opened|error]; cbn; intros []; rewrite <-app_assoc;
        (apply all_released_one; [done|calls_none|]); intros ? [= <-] _ handle' [= <-].
      * right; left. set_solver.
      * left. set_solver.
  - by destruct (Hnone answered).
  - destruct called as [|]; [done|]. cbn in *. rewrite app_nil_r.
    by apply all_released_one; [|calls_none|].
  - cbn. rewrite app_nil_r. by apply all_released_quiet.
  - cbn. by apply all_released_quiet.
Qed.

Lemma every_handle_released state request :
  every (handle state request) (all_released (endpoint request)).
Proof.
  assert (Hpayloads : forall at_ (p : Answered), (forall answered, answers at_ answered -> handle_of answered = None) ->
    every p (all_released at_)).
  { intros at_ p Hpayload. eapply every_mono; [apply every_true|].
    intros steps outcome _ operation arguments answered handle _ Hanswers. by rewrite Hpayload. }
  unfold handle. destruct (endpoint request) eqn:Hat; try (by apply Hpayloads; intros []).
  - destruct (host_routes !! index); [apply every_respond_released|].
    by apply all_released_quiet; constructor.
  - apply every_whep_open_released.
Qed.

End handles.


(** * What the server promises

    The properties of the application of [Server]: nothing of the engine is
    reached before the gate of its route, and what each request is answered. *)

(** The gate each endpoint is behind, and the values of its path a gate reads. *)
Definition gate_of (request : Request) : Gate * list (string * string) :=
  match endpoint request with
  | Config _ => (Admin, [])
  | ChangePassword_ | RecordsList _ | RecordsCount _ | RecordsGet _ _ | Statuses => (Authenticated, [])
  | HostCall index captures =>
      match host_routes !! index with
      | Some route => (route_gate route, path_values (dispatched route captures (bytes request)))
      | None => (OpenGate, [])
      end
  | _ => (OpenGate, [])
  end.

(** Refused with nothing of the engine called. *)
Ltac refused := cbn; rewrite ?app_nil_r; apply guarded_refused; [first [done|constructor]|intros ? ?; discriminate].

Section gated.
Context `{HttpCrates} `{TokenCrate}.

Lemma every_app_admit state headers gate resolution (k : Actor -> Answered) :
  every (prog_bind (app_admit state headers gate resolution)
          (fun outcome => match outcome with Ok x => k x | Err error => Done (Err error) end))
    (guarded state headers gate []).
Proof.
  apply every_guarded. eapply every_mono; [apply every_admit|]. intros steps outcome [Hquiet Hok].
  split; [done|]. intros actor ->. by apply (Hok actor).
Qed.

Lemma every_respond self state headers query :
  every (respond self state headers query) (guarded state headers (gate self) (path_values self)).
Proof.
  unfold respond, dispatch_answer. destruct (path_object (parameters self) []) as [path|].
  2: refused.
  apply every_bind, every_bind. eapply every_mono; [apply every_actor|].
  intros steps [[found|error]|] [Hquiet Hresolved]; cbn.
  2-3: refused.
  destruct (gate_admit (gate self) found (path_values self)) as [[]|] eqn:Hadmit; cbn.
  2: refused.
  assert (Hallowed : allowed state headers (gate self) (path_values self) steps)
    by (eapply gate_admit_allowed; [by apply Hresolved|done]).
  eapply every_mono; [apply every_true|]. intros more [[answered|error]|] _; cbn.
  - eapply every_mono; [apply every_true|]. intros rest outcome _. rewrite <-app_assoc. by apply guarded_after.
  - rewrite <-app_assoc. by apply guarded_after.
  - by apply guarded_after.
Qed.

Lemma every_handle state request :
  every (handle state request)
    (guarded state (request_headers request) (fst (gate_of request)) (snd (gate_of request))).
Proof.
  assert (Hopen : forall p : Answered, every p (guarded state (request_headers request) OpenGate [])).
  { intros p. eapply every_mono; [apply every_true|]. intros. apply guarded_open. }
  unfold handle, gate_of. destruct (endpoint request) as [ | | | | | | | | | | | |which| |table|table|table id| | |index captures| |];
    try apply Hopen.
  - apply every_app_admit.
  - apply every_app_admit.
  - apply every_app_admit.
  - apply every_app_admit.
  - unfold record_get. destruct (parse_uuid id); [apply every_app_admit|].
    refused.
  - apply every_app_admit.
  - destruct (host_routes !! index) as [route|]; [apply every_respond|apply Hopen].
Qed.
End gated.

Section application.
Context `{HttpCrates} `{TokenCrate}.

(** C19: Whatever the host answers, a request calls the engine, or goes on to
    play one of its streams, only after its route's gate let it: the control
    application's token matched where there is one, and the route is open to
    all, authentication is off, or the request's token, valid when the clock
    was read, names a user of the host's the gate admits, enabled, and an
    administrator or the user of the path where the gate says so. *)
Theorem engine_calls_gated {S} (world : World S) config request s steps outcome s' :
  run world (application config request) s = (steps, outcome, s') ->
  let permitted seen := bears_cli_token config request /\
    allowed (build_state config) (request_headers request) (fst (gate_of request)) (snd (gate_of request)) seen in
  (forall before call after, steps = before ++ call :: after -> engine_call call = true -> permitted before) /\
  (forall response, outcome = Some response -> plays response = true -> permitted steps).
Proof.
  intros Hrun. cbn zeta.
  apply (every_run _ _ _ _ _ _ _ (every_application _ _ _ (every_handle _ _)))
    in Hrun as [[-> ->]|(Htoken & handled & [Hcalls Hplays] & ->)].
  - split; [by intros [|] ? ?|]. by intros ? [= <-].
  - split; [eauto|]. destruct handled as [[response|error]|]; cbn; [|naive_solver..].
    intros ? [= <-] ?. eauto.
Qed.

(** ** Logging in *)

(** A fresh identity: the clock is read once, and the answer carries a token
    that claims the user until the settings' span is over. *)
Definition granted (settings : AuthSettings) (user : UserRecord) (impersonator : option string)
    (steps : list Step) (outcome : option (result Response ApiError)) : Prop :=
  exists issued, steps = [NowRead issued] /\
    let expires := issued + duration settings in
    if datetime_held expires then
      match jwt_encode (encoding settings) (claims_of (id user) expires impersonator) with
      | Some token =>
          forall result, outcome = Some result -> exists response, result = Ok response /\
            body response = TextBody (json_text (identity_json
              {| token := token; expires := expires; user := user; impersonated_by := impersonator |}))
      | None => outcome = Some (Err (api_error 500 "error"))
      end
    else outcome = None.

Lemma every_granted settings user impersonator kind :
  every (identity_response settings user impersonator kind) (granted settings user impersonator).
Proof.
  unfold identity_response, mint, granted. cbn. intros issued.
  destruct (datetime_held _) eqn:Hheld; cbn; [|exists issued; by rewrite Hheld].
  destruct (jwt_encode _ _) as [token|] eqn:Htoken; cbn; [|exists issued; by rewrite Hheld, Htoken].
  destruct kind as [kind|]; cbn; [unfold assign; destruct (header_value _); cbn|];
    exists issued; rewrite Hheld, Htoken; (split; [done|]); [| |]; intros ? [=]; subst; eauto.
Qed.

#[local] Arguments identity_response : simpl never.

(** The fields of a login, with the problems found reading them. *)
Definition login_fields (body : Body) : option string * option string * Body :=
  let '(username, body) := required_string "username" body in
  let '(password, body) := required_string "password" body in
  (username, password, snd (body_cookie body)).

(** A login refuses a body that is not an object with the fields it
    takes, naming every problem, before anything else; then that
    authentication is off; then asks the host once. Wrong credentials stall the
    refusal, and right ones are answered with the user's own identity. No
    field it needs is missing past the body's validation. *)
Theorem login_answers state bytes :
  every (login state bytes) (fun steps outcome =>
    match body_parse bytes with
    | Err error => steps = [] /\ outcome = Some (Err error)
    | Ok body =>
        let '(username, password, body) := login_fields body in
        if decide (problems body = []) then
          match auth state, username, password with
          | None, _, _ => steps = [] /\ outcome = Some (Err authentication_disabled)
          | Some settings, Some username, Some password =>
              exists found rest, steps = LoginVerified username password found :: rest /\
                match found with
                | Ok (Some user) => granted settings user None rest outcome
                | Ok None => rest = [Slept 2500] /\ outcome = Some (Err bad_credentials)
                | Err error => rest = [] /\ outcome = Some (Err (host_error error))
                end
          | _, _, _ => False
          end
        else steps = [] /\ outcome = Some (Err (validation (problems body)))
    end).
Proof.
  unfold login, login_fields. destruct (body_parse bytes) as [body|error]; [|done]. cbn.
  destruct (required_string "username" body) as [username body1] eqn:Husername.
  destruct (required_string "password" body1) as [password body2] eqn:Hpassword.
  destruct (body_cookie body2) as [kind body3] eqn:Hkind. cbn.
  unfold body_finish. destruct (problems body3) as [|found more] eqn:Hproblems; cbn [from_result prog_bind]; [|done].
  destruct (auth state) as [settings|]; [|done].
  apply (body_cookie_keeps _ _ _ Hkind) in Hproblems as Hbody2.
  apply (required_string_keeps _ _ _ _ Hpassword) in Hbody2 as [Hbody1 Hsome2].
  apply (required_string_keeps _ _ _ _ Husername) in Hbody1 as [_ Hsome1].
  destruct username as [username|]; [|done]. destruct password as [password|]; [|done].
  cbn [prog_bind ask every].
  intros [[user|]|error]; cbn [prog_bind host_result from_result every ask].
  - eapply every_mono; [apply every_granted|]. intros steps outcome Hgranted. by eexists _, _.
  - intros []. by eexists _, _.
  - by eexists _, _.
Qed.
End application.

Section answering.
Context `{HttpCrates} `{TokenCrate}.

(** What an impersonation is answered once the target is looked up, and once
    the caller is. *)
Definition target_answered (settings : AuthSettings) (caller : UserRecord)
    (found : result (option UserRecord) HostError) (more : list Step)
    (outcome : option (result Response ApiError)) : Prop :=
  match found with
  | Ok (Some other) => granted settings other (Some (id caller)) more outcome
  | Ok None => more = [] /\ outcome = Some (Err not_found)
  | Err error => more = [] /\ outcome = Some (Err (host_error error))
  end.

Definition caller_answered (state : AppState) (headers : HeaderMap) (settings : AuthSettings) (target : string)
    (seen : list Step) (caller : result (option UserRecord) HostError) (rest : list Step)
    (outcome : option (result Response ApiError)) : Prop :=
  match caller with
  | Err error => rest = [] /\ outcome = Some (Err (host_error error))
  | Ok None => rest = [] /\ outcome = Some (Err not_authenticated)
  | Ok (Some caller) =>
      known_as state headers seen caller /\
      if admin caller then
        exists found more, rest = UserFound target found :: more /\ target_answered settings caller found more outcome
      else rest = [] /\ outcome = Some (Err not_permitted)
  end.

(** Impersonating validates the body first, then needs authentication on,
    the feature on (or the route is not there to find), an identity, and an
    administrator. The target is then looked up, and its own identity answered,
    marked with the caller. Whether the caller is disabled plays no part,
    though every gate refuses a disabled user; and a target who is an
    administrator may impersonate in turn. *)
Theorem impersonation_answers state headers bytes :
  every (impersonate state headers bytes) (fun steps outcome =>
    match body_parse bytes with
    | Err error => steps = [] /\ outcome = Some (Err error)
    | Ok body =>
        let '(target, body) := required_uuid "user_id" body in
        let body := snd (body_cookie body) in
        if decide (problems body = []) then
          match auth state, target with
          | None, _ => steps = [] /\ outcome = Some (Err authentication_disabled)
          | Some settings, Some target =>
              if allow_impersonate settings then
                exists seen rest caller, steps = seen ++ rest /\ quiet seen /\
                  caller_answered state headers settings target seen caller rest outcome
              else steps = [] /\ outcome = Some (Err not_found)
          | Some _, None => False
          end
        else steps = [] /\ outcome = Some (Err (validation (problems body)))
    end).
Proof.
  unfold impersonate. destruct (body_parse bytes) as [body|error]; [|done]. cbn [from_result prog_bind].
  destruct (required_uuid "user_id" body) as [target body1] eqn:Htarget.
  destruct (body_cookie body1) as [kind body2] eqn:Hkind. cbn [snd].
  unfold body_finish. destruct (problems body2) as [|found more] eqn:Hproblems; cbn [from_result prog_bind]; [|done].
  destruct (auth state) as [settings|] eqn:Hauth; [|done].
  apply (body_cookie_keeps _ _ _ Hkind) in Hproblems as Hbody1.
  apply (required_uuid_keeps _ _ _ _ Htarget) in Hbody1 as [_ Hsome].
  destruct target as [target|]; [|done]. cbn [decide decide_rel].
  destruct (allow_impersonate settings); cbn [negb]; [|done].
  apply every_bind. unfold identity_of. apply every_bind.
  eapply every_mono; [apply (every_and _ _ _ (every_identity _ _) (identity_total _ _))|].
  intros seen [caller|] [[Hquiet Hknown] Htotal]; [|done]. cbn [every]. rewrite app_nil_r.
  destruct caller as [[caller|]|error]; cbn [host_result].
  - specialize (Hknown caller eq_refl). destruct (admin (user caller)) eqn:Hadmin; cbn [negb].
    + cbn [prog_bind ask every]. intros found.
      assert (Hanswer : forall more outcome, target_answered settings (user caller) found more outcome ->
        exists seen' rest caller', seen ++ UserFound target found :: more = seen' ++ rest /\ quiet seen' /\
          caller_answered state headers settings target seen' caller' rest outcome).
      { intros more outcome Hmore. exists seen, (UserFound target found :: more), (Ok (Some (user caller))).
        split; [done|]. split; [done|]. split; [done|]. rewrite Hadmin. by exists found, more. }
      destruct found as [[other|]|error]; cbn [host_result from_result prog_bind every step_of].
      * eapply every_mono; [apply every_granted|]. intros more outcome Hgranted. by apply Hanswer.
      * by apply Hanswer.
      * by apply Hanswer.
    + exists seen, [], (Ok (Some (user caller))). split; [by rewrite app_nil_r|]. split; [done|].
      split; [done|]. by rewrite Hadmin.
  - exists seen, [], (Ok None). by rewrite app_nil_r.
  - exists seen, [], (Err error). by rewrite app_nil_r.
Qed.
End answering.

(** A user's own update is called once they are known. *)
Lemma engine_calls_gated_witness :
  let '(steps, _, _) := run sample_world (application sample_config self_update) tt in
  exists before call, steps = before ++ [call] /\ engine_call call = true /\
    allowed (build_state sample_config) (request_headers self_update) (SelfOrAdmin "id") [("id", "bob0")] before.
Proof.
  destruct (run sample_world (application sample_config self_update) tt) as [[steps outcome] s'] eqn:Hrun.
  assert (Hshape : exists call, steps = take 2 steps ++ [call] /\ engine_call call = true).
  { revert Hrun. vm_compute. intros [= <- _ _]. eexists. split; reflexivity. }
  destruct Hshape as (call & Hsteps & Hcall).
  destruct (engine_calls_gated _ _ _ _ _ _ _ Hrun) as [Hgated _].
  exists (take 2 steps), call. split; [done|]. split; [done|].
  exact (proj2 (Hgated _ call [] Hsteps Hcall)).
Defined.

(** A login of ada's, its token presented again in the header. *)
Lemma session_identifies_witness :
  let '(steps, outcome, _) := run sample_world (identity_response sample_settings ada None (Some Secure)) tt in
  exists token, steps = [NowRead (1000 * second)] /\
    every (identity (build_state sample_config) [("authorization", "Bearer " +:+ token)]) (fun steps outcome =>
      exists now more, steps = NowRead now :: more /\
        (0 <= now / second <= 2800 -> exists found, more = [UserFound "ada0" found])).
Proof.
  destruct (run sample_world (identity_response sample_settings ada None (Some Secure)) tt)
    as [[steps outcome] s'] eqn:Hrun.
  assert (Hok : exists response, outcome = Some (Ok response) /\ steps = [NowRead (1000 * second)]).
  { revert Hrun. vm_compute. intros [= <- <- _]. eexists. split; reflexivity. }
  destruct Hok as (response & -> & Hsteps).
  destruct (session_identifies sample_world sample_settings ada None (Some Secure) tt steps response s')
    as (issued & token & Hissued & _ & _ & Hidentity); [done|done|done|exact Hrun|].
  exists token. split; [done|].
  assert (Hat : issued = 1000 * second) by congruence. subst issued.
  eapply every_mono; [apply (Hidentity (build_state sample_config)); [done|by left]|].
  intros seen answered (now & more & -> & Hfound). exists now, more. split; [done|]. intros Hnow.
  destruct Hfound as (found & -> & _); [exact Hnow|]. by exists found.
Defined.
