(* ===== verification/Disk.v ===== *)
(** * A file system

    [std::fs] on Unix, as far as the file browser uses it: names in a tree of
    directories, the inodes they name, and the calls on them. A call answers
    and changes the disk in one step. Between the calls of a program anyone may
    change the disk, and any call may fail: a run follows a script of what
    others do and of the failures, and keeps the disk before and after each of
    its own calls. *)
From S2P Require Import Prelude.
From stdpp Require Import sorting.
From S2P Require Import Text Wire Http.
Local Open Scope string_scope.
Local Open Scope list_scope.
Local Open Scope Z_scope.
Local Open Scope ceres_scope.

(** ** Errors *)

(** [io::ErrorKind], the kinds the code tells apart. *)
Inductive ErrorKind :=
  | NotFound | AlreadyExists | DirectoryNotEmpty | IsADirectory | NotADirectory | CrossesDevices
  | InvalidFilename | InvalidInput | StorageFull | QuotaExceeded | PermissionDenied
  | ReadOnlyFilesystem | BrokenPipe | OtherKind.

#[export] Instance error_kind_eq_dec : EqDecision ErrorKind.
Proof. solve_decision. Defined.

(** [io::Error]; an error that is not the system's has no [raw_os_error]. *)
Record IoError := { kind : ErrorKind; raw_os_error : option Z; io_text : string }.

Definition os_error (kind : ErrorKind) (errno : Z) (text : string) : IoError :=
  {| kind := kind; raw_os_error := Some errno; io_text := text |}.
Definition plain_error (kind : ErrorKind) : IoError := {| kind := kind; raw_os_error := None; io_text := "" |}.

Definition EPERM : IoError := os_error PermissionDenied 1 "Operation not permitted".
Definition ENOENT : IoError := os_error NotFound 2 "No such file or directory".
Definition EEXIST : IoError := os_error AlreadyExists 17 "File exists".
Definition ENOTDIR : IoError := os_error NotADirectory 20 "Not a directory".
Definition EISDIR : IoError := os_error IsADirectory 21 "Is a directory".
Definition EINVAL : IoError := os_error InvalidInput 22 "Invalid argument".
Definition ENOTEMPTY : IoError := os_error DirectoryNotEmpty 39 "Directory not empty".
Definition ELOOP : IoError := os_error OtherKind 40 "Too many levels of symbolic links".

Definition Io_result (A : Type) : Type := result A IoError.

(** ** Paths

    An absolute path is the names below the root directory. *)
Notation Path := (list string).

(** [Path::components] of a text, without the leading root: empty names and
    [.] fall away. *)
Definition components (text : string) : list string :=
  List.filter (fun name => negb (bool_decide (name = "")) && negb (bool_decide (name = "."))) (str_split "/" text).

Definition is_absolute (text : string) : bool := str_starts_with "/" text.

(** [Path::join]: an absolute text stands for itself. *)
Definition join (path : Path) (text : string) : Path :=
  if is_absolute text then components text else path ++ components text.

(** [Path::strip_prefix] and [Path::starts_with]. *)
Fixpoint strip_path (prefix path : Path) : option Path :=
  match prefix, path with
  | [], _ => Some path
  | a :: prefix, b :: path => if decide (a = b) then strip_path prefix path else None
  | _ :: _, [] => None
  end.

Definition starts_with (path prefix : Path) : bool := bool_decide (is_Some (strip_path prefix path)).

(** [Path::file_name] and the path above. *)
Definition file_name (path : Path) : option string := last path.
Definition parent (path : Path) : Path := removelast path.

(** [Path::to_string_lossy] and [OsStr::to_string_lossy]: each maximal
    ill-formed part becomes U+FFFD. A step gives the next character, or how
    many bytes are ill-formed, and what follows. *)
Definition replacement : string :=
  String (Strings.Ascii.ascii_of_nat 239) (String (Strings.Ascii.ascii_of_nat 191)
    (String (Strings.Ascii.ascii_of_nat 189) "")).

Definition second_byte (a b : ascii) : bool :=
  byte_in 194 223 a && tail_byte b || byte_in 224 224 a && byte_in 160 191 b || byte_in 225 236 a && tail_byte b ||
  byte_in 237 237 a && byte_in 128 159 b || byte_in 238 239 a && tail_byte b ||
  byte_in 240 240 a && byte_in 144 191 b || byte_in 241 243 a && tail_byte b || byte_in 244 244 a && byte_in 128 143 b.

Definition next_char (a : ascii) (rest : string) : string * string :=
  if byte_in 0 127 a then (String a "", rest)
  else match rest with
  | String b rest' =>
      if negb (second_byte a b) then (replacement, rest)
      else if byte_in 194 223 a then (String a (String b ""), rest')
      else match rest' with
      | String c rest'' =>
          if negb (tail_byte c) then (replacement, rest')
          else if byte_in 224 239 a then (String a (String b (String c "")), rest'')
          else match rest'' with
          | String d rest''' =>
              if negb (tail_byte d) then (replacement, rest'')
              else (String a (String b (String c (String d ""))), rest''')
          | EmptyString => (replacement, "")
          end
      | EmptyString => (replacement, "")
      end
  | EmptyString => (replacement, "")
  end.

Fixpoint lossy_fuel (fuel : nat) (bytes : string) : string :=
  match fuel, bytes with
  | S fuel, String a rest => let '(char, rest) := next_char a rest in char +:+ lossy_fuel fuel rest
  | _, _ => ""
  end.
Definition to_string_lossy (bytes : string) : string := lossy_fuel (String.length bytes) bytes.

(** ** Disks *)

Inductive Shape := Regular (bytes : string) | Directory | Symlink (target : string) | Special.

(** Instants are nanoseconds of the Unix epoch, absent where the file system
    keeps none. *)
Record Inode := { shape : Shape; modified : option Z; created : option Z; permissions : Z }.

(** The names of a disk, the root directory's the empty path, and its inodes,
    those an open file alone still holds too; a device and inode number are one
    number. [cwd] is the process's own. *)
Record Disk := { names : gmap Path Z; inodes : gmap Z Inode; now : Z; cwd : Path }.

(** [Metadata]: an inode as it was. *)
Record Metadata := { ino : Z; inode : Inode }.

Definition is_file (self : Metadata) : bool := match shape (inode self) with Regular _ => true | _ => false end.
Definition is_dir (self : Metadata) : bool := match shape (inode self) with Directory => true | _ => false end.
Definition is_symlink (self : Metadata) : bool := match shape (inode self) with Symlink _ => true | _ => false end.
Definition len (self : Metadata) : Z :=
  match shape (inode self) with Regular bytes => Z.of_nat (String.length bytes) | _ => 0 end.

Definition set_names (f : gmap Path Z -> gmap Path Z) (d : Disk) : Disk :=
  {| names := f (names d); inodes := inodes d; now := now d; cwd := cwd d |}.
Definition set_inodes (f : gmap Z Inode -> gmap Z Inode) (d : Disk) : Disk :=
  {| names := names d; inodes := f (inodes d); now := now d; cwd := cwd d |}.

(** What a name stands for. *)
Definition stands (d : Disk) (path : Path) : option Metadata :=
  i ← names d !! path; node ← inodes d !! i; Some {| ino := i; inode := node |}.

(** ** Resolution

    Symlinks the system follows before it gives up. *)
Definition MAXSYMLINKS : nat := 40.

Fixpoint resolve (links : nat) (d : Disk) : Path -> list string -> Io_result Path :=
  fix go (at_ : Path) (rest : list string) : Io_result Path :=
    match rest with
    | [] => Ok at_
    | name :: rest =>
        if decide (name = "..") then go (parent at_) rest
        else match stands d (at_ ++ [name]) with
        | None => Err ENOENT
        | Some found =>
            match shape (inode found) with
            | Symlink target =>
                match links with
                | O => Err ELOOP
                | S links => resolve links d (if is_absolute target then [] else at_) (components target ++ rest)
                end
            | Directory => go (at_ ++ [name]) rest
            | Regular _ | Special => match rest with [] => Ok (at_ ++ [name]) | _ => Err ENOTDIR end
            end
        end
    end.

(** [fs::canonicalize] of an absolute path, and of a text. *)
Definition canonical (d : Disk) (path : Path) : Io_result Path := resolve MAXSYMLINKS d [] path.
Definition canonical_text (d : Disk) (text : string) : Io_result Path :=
  if decide (text = "") then Err ENOENT else canonical d (join (cwd d) text).

(** A name a path can spell. *)
Definition spelled (name : string) : bool :=
  negb (bool_decide (name = "")) && negb (bool_decide (name = ".")) && negb (bool_decide (name = "..")) &&
  negb (contains_char "/" name).

(** Where a call on an entry itself acts: in the directory its parent resolves
    to, its last name unfollowed. *)
Definition entry (d : Disk) (path : Path) : Io_result Path :=
  match last path with
  | None => Ok []
  | Some name =>
      if decide (name = "..") then canonical d path
      else if negb (spelled name) then Err EINVAL
      else
        let* above := canonical d (parent path) in
        match stands d above with
        | Some found => if is_dir found then Ok (above ++ [name]) else Err ENOTDIR
        | None => Err ENOENT
        end
  end.

Arguments resolve : simpl never.
Arguments canonical : simpl never.
Arguments entry : simpl never.

(** ** Calls

    Each is the answer and the disk after. *)
Definition Call (A : Type) : Type := Disk -> Io_result A * Disk.

Definition reads {A} (f : Disk -> Io_result A) : Call A := fun d => (f d, d).
Definition fails {A} (d : Disk) (error : IoError) : Io_result A * Disk := (Err error, d).

(** [fs::symlink_metadata] and [fs::metadata]. *)
Definition lstat (path : Path) : Call Metadata :=
  reads (fun d => let* at_ := entry d path in match stands d at_ with Some found => Ok found | None => Err ENOENT end).
Definition stat (path : Path) : Call Metadata :=
  reads (fun d => let* at_ := canonical d path in match stands d at_ with Some found => Ok found | None => Err ENOENT end).

(** The names in a directory, in the order the file system keeps. *)
Definition children (d : Disk) (path : Path) : list string :=
  omap (fun '(held, _) => match strip_path path held with Some [name] => Some name | _ => None end)
    (map_to_list (names d)).

Class FileSystem := {
  directory_order : list string -> list string;
  directory_order_perm : forall names, directory_order names ≡ₚ names
}.

Definition read_dir `{FileSystem} (path : Path) : Call (list string) :=
  reads (fun d =>
    let* at_ := canonical d path in
    match stands d at_ with
    | Some found => if is_dir found then Ok (directory_order (children d at_)) else Err ENOTDIR
    | None => Err ENOENT
    end).

Definition fresh_ino (d : Disk) : Z := fresh (dom (inodes d) : gset Z).

(** A new inode under a name that is not taken. *)
Definition create (path : Path) (shape : Shape) : Call Z := fun d =>
  match entry d path with
  | Err error => fails d error
  | Ok at_ =>
      match names d !! at_ with
      | Some _ => fails d EEXIST
      | None =>
          let i := fresh_ino d in
          let node := {| shape := shape; modified := Some (now d); created := Some (now d); permissions := 420 |} in
          (Ok i, set_inodes <[i := node]> (set_names <[at_ := i]> d))
      end
  end.

(** [fs::create_dir], and [OpenOptions::create_new], which gives the open
    file. *)
Definition create_dir (path : Path) : Call unit := fun d =>
  let '(made, d) := create path Directory d in (res_bind made (fun _ => Ok tt), d).
Definition create_new (path : Path) : Call Z := create path (Regular "").

(** [fs::hard_link], which follows no symlink. *)
Definition hard_link (from to : Path) : Call unit := fun d =>
  match entry d from, entry d to with
  | Err error, _ | _, Err error => fails d error
  | Ok from, Ok to =>
      match stands d from, names d !! to with
      | None, _ => fails d ENOENT
      | Some _, Some _ => fails d EEXIST
      | Some found, None =>
          if is_dir found then fails d EPERM else (Ok tt, set_names <[to := ino found]> d)
      end
  end.

(** The names once the subtree at one path stands at another, in place of
    whatever was there. *)
Definition rebase (from to path : Path) : option Path :=
  match strip_path from path with
  | Some rest => Some (to ++ rest)
  | None => if starts_with path to then None else Some path
  end.
Definition moved (from to : Path) (held : gmap Path Z) : gmap Path Z :=
  list_to_map (omap (fun '(path, i) => (fun path => (path, i)) <$> rebase from to path) (map_to_list held)).

(** [fs::rename]: two names of one file are left alone. *)
Definition rename_checked (exclusive : bool) (from to : Path) : Call unit := fun d =>
  match entry d from, entry d to with
  | Err error, _ | _, Err error => fails d error
  | Ok from, Ok to =>
      match stands d from with
      | None => fails d ENOENT
      | Some found =>
          let go := (Ok tt, set_names (moved from to) d) in
          match names d !! to with
          | Some held =>
              if exclusive then fails d EEXIST
              else if decide (held = ino found) then (Ok tt, d)
              else if is_dir found && starts_with to from then fails d EINVAL
              else match stands d to with
              | Some there =>
                  if is_dir found && negb (is_dir there) then fails d ENOTDIR
                  else if negb (is_dir found) && is_dir there then fails d EISDIR
                  else match children d to with [] => go | _ => fails d ENOTEMPTY end
              | None => fails d ENOENT
              end
          | None => if starts_with to from then fails d EINVAL else go
          end
      end
  end.
Definition rename_call : Path -> Path -> Call unit := rename_checked false.

(** [renameat2] with [RENAME_NOREPLACE]. *)
Definition renameat2 : Path -> Path -> Call unit := rename_checked true.

(** [fs::remove_file] and [fs::remove_dir]. *)
Definition remove_at (at_ : Path) (d : Disk) : Io_result unit * Disk := (Ok tt, set_names (base.delete at_) d).

Definition remove_file (path : Path) : Call unit := fun d =>
  match entry d path with
  | Err error => fails d error
  | Ok at_ =>
      match stands d at_ with
      | None => fails d ENOENT
      | Some found => if is_dir found then fails d EISDIR else remove_at at_ d
      end
  end.

Definition remove_empty (at_ : Path) : Call unit := fun d =>
  match stands d at_ with
  | None => fails d ENOENT
  | Some found =>
      if negb (is_dir found) then fails d ENOTDIR
      else match children d at_ with [] => remove_at at_ d | _ => fails d ENOTEMPTY end
  end.

Definition remove_dir (path : Path) : Call unit := fun d =>
  match entry d path with Err error => fails d error | Ok at_ => remove_empty at_ d end.

(** An open file, as its inode: written at its end, and read. *)
Definition write_chunk (handle : Z) (chunk : string) : Call unit := fun d =>
  match inodes d !! handle with
  | Some node =>
      match shape node with
      | Regular bytes =>
          (Ok tt, set_inodes <[handle := {| shape := Regular (bytes +:+ chunk); modified := Some (now d);
                                            created := created node; permissions := permissions node |}]> d)
      | _ => fails d EINVAL
      end
  | None => fails d EINVAL
  end.

Definition read_handle (handle : Z) : Call string :=
  reads (fun d => match inodes d !! handle with
                  | Some node => match shape node with Regular bytes => Ok bytes | _ => Err EISDIR end
                  | None => Err EINVAL
                  end).

(** Opened with [O_NOFOLLOW]; [File::metadata]. *)
Definition open_nofollow (path : Path) : Call Metadata :=
  reads (fun d =>
    let* at_ := entry d path in
    match stands d at_ with
    | Some found => if is_symlink found then Err ELOOP else Ok found
    | None => Err ENOENT
    end).
Definition file_metadata (handle : Z) : Call Metadata :=
  reads (fun d => match inodes d !! handle with
                  | Some node => Ok {| ino := handle; inode := node |}
                  | None => Err EINVAL
                  end).

(** The two halves of [fs::copy]: both files opened, symlinks followed, what
    stands at the destination emptied; and then the bytes and the permissions
    copied. *)
Definition source_file (d : Disk) (from : Path) : Io_result Metadata :=
  let* at_ := canonical d from in
  match stands d at_ with
  | Some found => if is_file found then Ok found else Err (plain_error InvalidInput)
  | None => Err ENOENT
  end.

Definition copy_open (from to : Path) : Call (Z * Z) := fun d =>
  match source_file d from with
  | Err error => fails d error
  | Ok source =>
      match canonical d to with
      | Ok at_ =>
          match stands d at_ with
          | Some there =>
              match shape (inode there) with
              | Regular _ =>
                  (Ok (ino source, ino there),
                   set_inodes <[ino there := {| shape := Regular ""; modified := Some (now d);
                     created := created (inode there); permissions := permissions (inode there) |}]> d)
              | _ => fails d EISDIR
              end
          | None => fails d ENOENT
          end
      | Err _ =>
          let '(made, d) := create to (Regular "") d in (res_bind made (fun i => Ok (ino source, i)), d)
      end
  end.

Definition copy_bytes (source target : Z) (some : option nat) (d : Disk) : Disk :=
  match inodes d !! source, inodes d !! target with
  | Some from, Some to =>
      match shape from, shape to with
      | Regular bytes, Regular _ =>
          let bytes := match some with Some count => String.substring 0 count bytes | None => bytes end in
          set_inodes <[target := {| shape := Regular bytes; modified := Some (now d); created := created to;
                                    permissions := permissions from |}]> d
      | _, _ => d
      end
  | _, _ => d
  end.

(** ** Programs *)

(** What happens before a call and to it: others change the disk; the call
    fails with an error, having written some of what it was to write. *)
Record Turn := { others : Disk -> Disk; fault : option IoError; torn : nat }.
Definition quiet : Turn := {| others := fun d => d; fault := None; torn := O |}.

(** A run's disk, its turns to come, and the disk before and after each of its
    own calls, latest first. *)
Record World := { disk : Disk; script : list Turn; calls : list (Disk * Disk); drawn : nat }.

Definition Io (A : Type) : Type := World -> A * World.

Definition io_ret {A} (a : A) : Io A := fun w => (a, w).
Definition io_bind {A B} (p : Io A) (k : A -> Io B) : Io B := fun w => let '(a, w) := p w in k a w.

Notation "'let~' x ':=' p 'in' k" := (io_bind p (fun x => k))
  (at level 200, x pattern, p at level 100, k at level 200, right associativity) : ceres_scope.
Definition io_map {A B} (f : A -> B) (p : Io A) : Io B := let~ a := p in io_ret (f a).

(** The [?] operator. *)
Notation "'let~?' x ':=' p 'in' k" :=
  (io_bind p (fun outcome => match outcome with Ok x => k | Err error => io_ret (Err error) end))
  (at level 200, x pattern, p at level 100, k at level 200, right associativity) : ceres_scope.

Definition next_turn (w : World) : Turn := default quiet (head (script w)).

Definition call_torn {A} (partial : nat -> Disk -> Disk) (c : Call A) : Io (Io_result A) := fun w =>
  let turn := next_turn w in
  let before := others turn (disk w) in
  let '(answer, after) :=
    match fault turn with Some error => (Err error, partial (torn turn) before) | None => c before end in
  (answer, {| disk := after; script := tail (script w); calls := (before, after) :: calls w; drawn := drawn w |}).

Definition call {A} : Call A -> Io (Io_result A) := call_torn (fun _ d => d).

(** A chunk written whole, or torn. *)
Definition write_all (handle : Z) (chunk : string) : Io (Io_result unit) :=
  call_torn (fun count d => snd (write_chunk handle (String.substring 0 count chunk) d)) (write_chunk handle chunk).

(** [flush] and [sync_all]. *)
Definition sync : Io (Io_result unit) := call (reads (fun _ => Ok tt)).

Definition fs_copy (from to : Path) : Io (Io_result unit) :=
  let~? opened := call (copy_open from to) in
  let '(source, target) := opened in
  call_torn (fun count => copy_bytes source target (Some count))
    (fun d => (Ok tt, copy_bytes source target None d)).

(** [fs::remove_dir_all]: what stands below, deepest first, unfollowed, and
    then the directory; the names are read once. *)
Definition below (d : Disk) (path : Path) : list Path :=
  List.filter (fun held => starts_with held path && negb (bool_decide (held = path)))
    ((fst <$> map_to_list (names d))).

Definition deeper (a b : Path) : Prop := (length b <= length a)%nat.
#[export] Instance deeper_dec : RelDecision deeper.
Proof. intros a b. apply Nat.le_dec. Defined.

Definition deepest_first : list Path -> list Path := merge_sort deeper.

Definition unlink (at_ : Path) : Call unit := fun d =>
  match stands d at_ with
  | None => (Ok tt, d)
  | Some found => if is_dir found then remove_empty at_ d else remove_at at_ d
  end.

Fixpoint unlink_all (paths : list Path) : Io (Io_result unit) :=
  match paths with
  | [] => io_ret (Ok tt)
  | path :: paths => let~? _ := call (unlink path) in unlink_all paths
  end.

Definition subtree (path : Path) : Call (Path * list Path) :=
  reads (fun d =>
    let* at_ := entry d path in
    match stands d at_ with
    | None => Err ENOENT
    | Some found => Ok (at_, if is_dir found then deepest_first (below d at_) else [])
    end).

Definition remove_dir_all (path : Path) : Io (Io_result unit) :=
  let~? found := call (subtree path) in
  let '(at_, paths) := found in
  let~? _ := unlink_all paths in
  call (unlink at_).

(** [Uuid::new_v4]: the next of a supply. *)
Class Uuids := { uuid : nat -> string }.

Definition new_v4 `{Uuids} : Io string := fun w =>
  (uuid (drawn w), {| disk := disk w; script := script w; calls := calls w; drawn := S (drawn w) |}).
