(* ===== verification/DiskFacts.v ===== *)
(** * Facts about the file system

    Paths, the resolution of symlinks, and a logic of programs on a disk that
    others change: a triple has a program, from a disk of its precondition,
    make only calls its guarantee allows and end in its postcondition, as long
    as what others do keeps to the rely.

    The parts after this one: a rely-guarantee logic of programs on a disk. *)
From S2P Require Import Prelude.
From stdpp Require Import sorting.
From S2P Require Import Text Wire Http Disk.
Local Open Scope string_scope.
Local Open Scope list_scope.
Local Open Scope Z_scope.
Local Open Scope ceres_scope.

(** ** Paths *)

Lemma strip_path_Some prefix path rest : strip_path prefix path = Some rest <-> path = prefix ++ rest.
Proof.
  revert path. induction prefix as [|a prefix IH]; intros [|b path]; cbn;
    [split; [by intros [= <-]|by intros <-]..|done|].
  case_decide as Hab; [subst|].
  - rewrite IH. split; [by intros ->|by intros [= ->]].
  - split; [done|]. by intros [= -> _].
Qed.

Lemma strip_path_app prefix rest : strip_path prefix (prefix ++ rest) = Some rest.
Proof. by apply strip_path_Some. Qed.

Lemma starts_with_iff path prefix : starts_with path prefix = true <-> exists rest, path = prefix ++ rest.
Proof.
  unfold starts_with. rewrite bool_decide_eq_true. split.
  - intros [rest Hrest]. exists rest. by apply strip_path_Some.
  - intros [rest ->]. rewrite strip_path_app. by eexists.
Qed.

Lemma starts_with_refl path : starts_with path path = true.
Proof. apply starts_with_iff. exists []. by rewrite app_nil_r. Qed.
#[export] Hint Resolve starts_with_refl : ceres.

Lemma path_starts_app path rest : starts_with (path ++ rest) path = true.
Proof. apply starts_with_iff. by exists rest. Qed.
#[export] Hint Resolve path_starts_app : ceres.

Lemma starts_with_trans a b c : starts_with a b = true -> starts_with b c = true -> starts_with a c = true.
Proof.
  rewrite !starts_with_iff. intros [rest ->] [more ->]. exists (more ++ rest). by rewrite app_assoc.
Qed.

Lemma strip_path_None prefix path : strip_path prefix path = None <-> starts_with path prefix = false.
Proof.
  unfold starts_with. rewrite bool_decide_eq_false, <-eq_None_not_Some. done.
Qed.

(** A path that is the root or ends in a name. *)
Lemma path_cases (path : Path) : path = [] \/ exists above name, path = above ++ [name].
Proof. destruct path as [|name above _] using rev_ind; eauto. Qed.

Lemma parent_snoc above name : parent (above ++ [name]) = above.
Proof. unfold parent. apply removelast_last. Qed.

Lemma last_snoc_name (above : Path) name : last (above ++ [name]) = Some name.
Proof. apply last_snoc. Qed.

(** ** What stands where *)

Definition directory_at (d : Disk) (path : Path) : Prop := exists found, stands d path = Some found /\ is_dir found = true.

(** Every directory on the way to a path, and itself, is one. *)
Definition directories (d : Disk) (path : Path) : Prop :=
  Forall (fun name => name <> "..") path /\
  forall above name rest, path = above ++ name :: rest -> directory_at d (above ++ [name]).

Lemma directories_nil d : directories d [].
Proof. split; [done|]. intros [|??] ?? ?; done. Qed.
#[export] Hint Resolve directories_nil : ceres.

Lemma directories_snoc d path name :
  directories d (path ++ [name]) <-> directories d path /\ name <> ".." /\ directory_at d (path ++ [name]).
Proof.
  split.
  - intros [Hdots Hall]. apply Forall_app in Hdots as [Hdots Hname]. split; [split|split].
    + done.
    + intros above held rest ->. apply (Hall above held (rest ++ [name])). by rewrite <-app_assoc.
    + by inversion Hname.
    + by apply (Hall path name []).
  - intros [[Hdots Hall] [Hname Hlast]]. split.
    + apply Forall_app. auto.
    + intros above held rest Heq.
      destruct (path_cases rest) as [->|[more [last_ ->]]].
      * apply app_inj_tail in Heq as [<- <-]. done.
      * rewrite app_comm_cons, app_assoc in Heq. apply app_inj_tail in Heq as [-> _]. by apply (Hall above held more).
Qed.

Lemma directories_parent d path : directories d path -> directories d (parent path).
Proof.
  destruct (path_cases path) as [->|[above [name ->]]]; [done|].
  rewrite parent_snoc, directories_snoc. by intros [? _].
Qed.

Lemma directories_app d path rest : directories d (path ++ rest) -> directories d path.
Proof.
  intros [Hdots Hall]. split; [by apply Forall_app in Hdots as [? _]|].
  intros above name more ->. apply (Hall above name (more ++ rest)). by rewrite <-app_assoc.
Qed.

(** A canonical path: directories, and at its end anything but a symlink. *)
Definition real (d : Disk) (path : Path) : Prop :=
  path = [] \/ exists above name found, path = above ++ [name] /\ directories d above /\ name <> ".." /\
    stands d path = Some found /\ is_symlink found = false.

Lemma directories_real d path : directories d path -> real d path.
Proof.
  destruct (path_cases path) as [->|[above [name ->]]]; [by left|].
  rewrite directories_snoc. intros [Habove [Hname [found [Hfound Hdir]]]].
  right. exists above, name, found. split_and!; try done.
  unfold is_dir, is_symlink in *. by destruct (shape (inode found)).
Qed.

Lemma resolve_nil links d at_ : resolve links d at_ [] = Ok at_.
Proof. by destruct links. Qed.

Lemma resolve_cons links d at_ name rest :
  resolve links d at_ (name :: rest) =
  if decide (name = "..") then resolve links d (parent at_) rest
  else match stands d (at_ ++ [name]) with
  | None => Err ENOENT
  | Some found =>
      match shape (inode found) with
      | Symlink target =>
          match links with
          | O => Err ELOOP
          | S links => resolve links d (if is_absolute target then [] else at_) (components target ++ rest)
          end
      | Directory => resolve links d (at_ ++ [name]) rest
      | Regular _ | Special => match rest with [] => Ok (at_ ++ [name]) | _ => Err ENOTDIR end
      end
  end.
Proof. by destruct links. Qed.

(** What resolution finds is real. *)
Lemma resolve_real links d at_ rest path :
  directories d at_ -> resolve links d at_ rest = Ok path -> real d path.
Proof.
  revert at_ rest. induction links as [links IHlinks] using lt_wf_ind. intros at_ rest.
  revert at_. induction rest as [|name rest IH]; intros at_ Hat.
  - rewrite resolve_nil. intros [= <-]. by apply directories_real.
  - rewrite resolve_cons. case_decide as Hdots; [by apply IH, directories_parent|].
    destruct (stands d (at_ ++ [name])) as [found|] eqn:Hfound; [|done].
    destruct (shape (inode found)) eqn:Hshape.
    + destruct rest; [|done]. intros [= <-]. right. exists at_, name, found.
      unfold is_symlink. by rewrite Hshape.
    + apply IH, directories_snoc. split_and!; [done..|]. exists found. unfold is_dir. by rewrite Hshape.
    + destruct links as [|links]; [done|]. apply IHlinks; [lia|]. case_match; [apply directories_nil|done].
    + destruct rest; [|done]. intros [= <-]. right. exists at_, name, found.
      unfold is_symlink. by rewrite Hshape.
Qed.

Lemma canonical_real d path found : canonical d path = Ok found -> real d found.
Proof. apply resolve_real, directories_nil. Qed.

Lemma resolve_directories links d at_ rest :
  directories d (at_ ++ rest) -> resolve links d at_ rest = Ok (at_ ++ rest).
Proof.
  revert at_. induction rest as [|name rest IH]; intros at_ Hdirs; [by rewrite resolve_nil, app_nil_r|].
  rewrite resolve_cons. pose proof Hdirs as [Hdots Hall].
  rewrite decide_False by (apply Forall_app in Hdots as [_ Hdots]; by inversion Hdots).
  destruct (Hall at_ name rest eq_refl) as [found [-> Hdir]]. unfold is_dir in Hdir.
  destruct (shape (inode found)); try done.
  rewrite IH by (by rewrite <-app_assoc). by rewrite <-app_assoc.
Qed.

(** A path of directories is its own canonical path, and an entry under it
    stands for itself. *)
Lemma canonical_directories d path : directories d path -> canonical d path = Ok path.
Proof. apply (resolve_directories _ d []). Qed.

Lemma spelled_not_dots name : spelled name = true -> name <> "..".
Proof. by intros Hspelled ->. Qed.

Lemma entry_directories d above name :
  directories d above -> directory_at d [] -> spelled name = true -> entry d (above ++ [name]) = Ok (above ++ [name]).
Proof.
  intros Habove Hroot Hname. unfold entry.
  rewrite last_snoc, parent_snoc, decide_False, Hname, canonical_directories by (done || by apply spelled_not_dots). cbn.
  assert (directory_at d above) as [found [-> ->]]; [|done].
  destruct (path_cases above) as [->|[more [last_ ->]]]; [done|]. by apply directories_snoc in Habove as (_ & _ & ?).
Qed.

(** ** What calls change *)

(** Where what stands at a path after a move stood before it. *)
Definition origin (from to path : Path) : option Path :=
  match strip_path to path with
  | Some rest => Some (from ++ rest)
  | None => if starts_with path from then None else Some path
  end.

Lemma rebase_origin from to other path : rebase from to other = Some path <-> origin from to path = Some other.
Proof.
  unfold rebase, origin. split.
  - destruct (strip_path from other) as [rest|] eqn:Hfrom.
    + intros [= <-]. rewrite strip_path_app. by apply strip_path_Some in Hfrom as ->.
    + apply strip_path_None in Hfrom. destruct (starts_with other to) eqn:Hto; [done|]. intros [= <-].
      by rewrite (proj2 (strip_path_None _ _) Hto), Hfrom.
  - destruct (strip_path to path) as [rest|] eqn:Hto.
    + intros [= <-]. rewrite strip_path_app. by apply strip_path_Some in Hto as ->.
    + apply strip_path_None in Hto. destruct (starts_with path from) eqn:Hfrom; [done|]. intros [= <-].
      by rewrite (proj2 (strip_path_None _ _) Hfrom), Hto.
Qed.

Lemma elem_of_moves (from to : Path) (held : gmap Path Z) (path : Path) (i : Z) :
  (path, i) ∈ omap (fun '(path, i) => (fun path => (path, i)) <$> rebase from to path) (map_to_list held) <->
  exists other, origin from to path = Some other /\ held !! other = Some i.
Proof.
  rewrite list_elem_of_omap. split.
  - intros [[other j] [Hin Hmoves]]. apply elem_of_map_to_list in Hin.
    destruct (rebase from to other) as [to'|] eqn:Hrebase; simplify_eq/=.
    apply rebase_origin in Hrebase. eauto.
  - intros [other [Horigin Hheld]]. exists (other, i). split; [by apply elem_of_map_to_list|].
    apply rebase_origin in Horigin as ->. done.
Qed.

Lemma lookup_moved (from to : Path) (held : gmap Path Z) (path : Path) :
  moved from to held !! path = origin from to path ≫= fun other => held !! other.
Proof.
  apply option_eq. intros i. unfold moved. split.
  - intros Hin%elem_of_list_to_map_2. apply elem_of_moves in Hin as (other & -> & Hheld). done.
  - intros (other & Horigin & Hheld)%bind_Some. apply elem_of_list_to_map_1'.
    + intros j (also & Halso & Hj)%elem_of_moves. congruence.
    + apply elem_of_moves. eauto.
Qed.

(** Names outside both subtrees of a move stay as they are. *)
Lemma moved_elsewhere (from to : Path) (held : gmap Path Z) (path : Path) :
  starts_with path from = false -> starts_with path to = false -> moved from to held !! path = held !! path.
Proof.
  intros Hfrom Hto. rewrite lookup_moved. unfold origin.
  by rewrite (proj2 (strip_path_None _ _) Hto), Hfrom.
Qed.

Lemma moved_there (from to : Path) (held : gmap Path Z) : moved from to held !! to = held !! from.
Proof.
  rewrite lookup_moved. unfold origin. rewrite <-(app_nil_r to) at 2. rewrite strip_path_app. cbn. by rewrite app_nil_r.
Qed.

(** The names a call may change. *)
Definition names_kept (kept : Path -> Prop) (d d' : Disk) : Prop :=
  forall path, kept path -> names d' !! path = names d !! path.

Lemma names_kept_refl kept d : names_kept kept d d.
Proof. done. Qed.
#[export] Hint Resolve names_kept_refl : ceres.

Lemma stands_names d d' path :
  names d' !! path = names d !! path -> inodes d' = inodes d -> stands d' path = stands d path.
Proof. intros Hname Hinodes. unfold stands. by rewrite Hname, Hinodes. Qed.

Lemma stands_Some d path found :
  stands d path = Some found <-> names d !! path = Some (ino found) /\ inodes d !! ino found = Some (inode found).
Proof.
  unfold stands. destruct (names d !! path) as [i|]; cbn; [|naive_solver].
  destruct (inodes d !! i) as [node|] eqn:Hi; cbn; [|naive_solver].
  destruct found; cbn. naive_solver.
Qed.

(** [create] takes a free name for a fresh inode. *)
Lemma create_Ok path shape d i d' :
  create path shape d = (Ok i, d') ->
  exists at_ node, entry d path = Ok at_ /\ names d !! at_ = None /\ inodes d !! i = None /\
    names d' = <[at_ := i]> (names d) /\ inodes d' = <[i := node]> (inodes d) /\ Disk.shape node = shape.
Proof.
  unfold create, fails. destruct (entry d path) as [at_|]; [|done].
  destruct (names d !! at_) eqn:Hfree; [done|]. intros [= <- <-].
  eexists at_, _. split_and!; try done. apply not_elem_of_dom. exact (is_fresh (dom (inodes d) : gset Z)).
Qed.

Lemma create_Err path shape d error d' : create path shape d = (Err error, d') -> d' = d.
Proof. unfold create, fails. intros. split_cases. Qed.

Lemma hard_link_Ok from to d d' :
  hard_link from to d = (Ok tt, d') ->
  exists at_ held found, entry d from = Ok at_ /\ entry d to = Ok held /\ stands d at_ = Some found /\
    names d !! held = None /\ is_dir found = false /\
    names d' = <[held := ino found]> (names d) /\ inodes d' = inodes d.
Proof.
  unfold hard_link, fails. destruct (entry d from) as [at_|]; [|done]. destruct (entry d to) as [held|]; [|done].
  destruct (stands d at_) as [found|] eqn:Hfound; [|done]. destruct (names d !! held) eqn:Hfree; [done|].
  destruct (is_dir found) eqn:Hdir; [done|]. intros [= <-]. exists at_, held, found. done.
Qed.

Lemma hard_link_Err from to d error d' : hard_link from to d = (Err error, d') -> d' = d.
Proof. unfold hard_link, fails. intros. split_cases. Qed.

(** What a rename that answers well did: nothing between two names of one
    file, or the move. *)
Lemma rename_Ok exclusive from to d d' :
  rename_checked exclusive from to d = (Ok tt, d') ->
  exists at_ held found, entry d from = Ok at_ /\ entry d to = Ok held /\ stands d at_ = Some found /\
    (exclusive = true -> names d !! held = None) /\
    ((d' = d /\ names d !! held = Some (ino found)) \/
     (d' = set_names (moved at_ held) d /\ names d !! held <> Some (ino found) /\
      is_dir found && starts_with held at_ = false /\
      forall there, stands d held = Some there -> is_dir there = is_dir found /\ children d held = [])).
Proof.
  unfold rename_checked, fails. destruct (entry d from) as [at_|]; [|done]. destruct (entry d to) as [held|]; [|done].
  destruct (stands d at_) as [found|] eqn:Hfound; [|done].
  destruct (names d !! held) as [i|] eqn:Hheld.
  - destruct exclusive; [done|]. case_decide as Hsame.
    { intros [= <-]. subst i. exists at_, held, found. split_and!; try done. by left. }
    destruct (is_dir found && starts_with held at_) eqn:Hunder; [done|]. destruct (stands d held) as [there|] eqn:Hthere; [|done].
    destruct (is_dir found && negb (is_dir there)) eqn:H1; [done|].
    destruct (negb (is_dir found) && is_dir there) eqn:H2; [done|].
    destruct (children d held) eqn:Hchildren; [|done]. intros [= <-].
    exists at_, held, found. split_and!; try done. right. split_and!; [done|rewrite Hheld; by intros [= ->]|done|]. intros other Hother.
    replace other with there by congruence. split; [|done]. by destruct (is_dir found), (is_dir there).
  - destruct (starts_with held at_) eqn:Hunder; [done|]. intros [= <-]. exists at_, held, found.
    split_and!; try done. right. split_and!; [done|by rewrite Hheld|by destruct (is_dir found)|]. intros there [Hthere _]%stands_Some. congruence.
Qed.

Lemma rename_Err exclusive from to d error d' : rename_checked exclusive from to d = (Err error, d') -> d' = d.
Proof. unfold rename_checked, fails. intros. split_cases. Qed.

Lemma remove_file_cases path d answer d' :
  remove_file path d = (answer, d') ->
  d' = d \/ exists at_ found, entry d path = Ok at_ /\ stands d at_ = Some found /\ is_dir found = false /\
    d' = set_names (base.delete at_) d.
Proof.
  unfold remove_file, remove_at, fails. destruct (entry d path) as [at_|]; [|intros [= <- <-]; by left].
  destruct (stands d at_) as [found|] eqn:Hfound; [|intros [= <- <-]; by left].
  destruct (is_dir found) eqn:Hdir; intros [= <- <-]; [by left|]. right. eauto 10.
Qed.

Lemma remove_empty_cases at_ d answer d' :
  remove_empty at_ d = (answer, d') -> d' = d \/ d' = set_names (base.delete at_) d.
Proof.
  unfold remove_empty, remove_at, fails. intros. split_cases; auto.
Qed.

Lemma unlink_cases at_ d answer d' :
  unlink at_ d = (answer, d') -> d' = d \/ d' = set_names (base.delete at_) d.
Proof.
  unfold unlink, remove_at. destruct (stands d at_) as [found|]; [|intros [= <- <-]; by left].
  destruct (is_dir found); [apply remove_empty_cases|]. intros [= <- <-]. by right.
Qed.

(** ** Trees

    Whatever has a name is named, by a name a path can spell, in a
    directory. *)
Definition tree (d : Disk) : Prop :=
  directory_at d [] /\
  forall above name i, names d !! (above ++ [name]) = Some i -> directory_at d above /\ spelled name = true.

Lemma tree_root d : tree d -> directory_at d [].
Proof. by intros [? _]. Qed.

(** An entry is the root, what a [..] leads to, or a name in a directory. *)
Lemma entry_cases d path at_ :
  entry d path = Ok at_ ->
  at_ = [] \/ canonical d path = Ok at_ \/
  exists above name, at_ = above ++ [name] /\ directory_at d above /\ spelled name = true /\ last path = Some name.
Proof.
  unfold entry. destruct (last path) as [name|]; [|intros [= <-]; by left].
  case_decide; [by right; left|]. destruct (spelled name) eqn:Hname; [|done]. cbn.
  destruct (canonical d (parent path)) as [above|]; [|done]. cbn.
  destruct (stands d above) as [found|] eqn:Hfound; [|done]. destruct (is_dir found) eqn:Hdir; [|done].
  intros [= <-]. right. right. exists above, name. split_and!; try done. by exists found.
Qed.

(** A free entry is a name in a directory. *)
Lemma entry_free d path at_ :
  tree d -> entry d path = Ok at_ -> stands d at_ = None ->
  exists above name, at_ = above ++ [name] /\ directory_at d above /\ spelled name = true.
Proof.
  intros [(root & Hroot & _) _] Hentry Hfree.
  apply entry_cases in Hentry as [->|[Hcanonical|(above & name & ? & ? & ? & _)]]; [congruence| |eauto 10].
  apply canonical_real in Hcanonical as [->|(above & name & found & -> & _ & _ & Hfound & _)]; congruence.
Qed.

(** Any entry but the root is a name in a directory, and is not below what it
    replaces. *)
Lemma entry_above d path at_ :
  tree d -> entry d path = Ok at_ -> at_ <> [] ->
  exists above name, at_ = above ++ [name] /\ directory_at d above /\ spelled name = true.
Proof.
  intros Htree Hentry Hne. apply entry_cases in Hentry as [->|[Hcanonical|(above & name & ? & ? & ? & _)]]; [done| |eauto 10].
  apply canonical_real in Hcanonical as [->|(above & name & found & -> & _ & _ & Hfound & _)]; [done|].
  apply stands_Some in Hfound as [Hfound _]. destruct (proj2 Htree _ _ _ Hfound). eauto 10.
Qed.

Lemma directory_at_names d path found :
  stands d path = Some found -> is_dir found = true -> directory_at d path.
Proof. intros. by exists found. Qed.

Lemma free_ne {K A} `{Countable K} (held : gmap K A) (free taken : K) (a : A) :
  held !! free = None -> held !! taken = Some a -> free <> taken.
Proof. intros Hfree Htaken ->. by rewrite Hfree in Htaken. Qed.

(** A new inode under a free name of a directory. *)
Lemma tree_insert d above name i node :
  tree d -> directory_at d above -> spelled name = true -> names d !! (above ++ [name]) = None ->
  inodes d !! i = None -> tree (set_inodes <[i := node]> (set_names <[above ++ [name] := i]> d)).
Proof.
  intros [Hroot Htree] Habove Hspelled Hfree Hfresh.
  assert (Hkeeps : forall path, directory_at d path ->
    directory_at (set_inodes <[i := node]> (set_names <[above ++ [name] := i]> d)) path).
  { intros path [found [Hstands Hdir]]. exists found. split; [|done]. apply stands_Some in Hstands as [Hname Hinode].
    apply stands_Some. cbn. by rewrite !lookup_insert_ne by (by eapply free_ne). }
  split; [by apply Hkeeps|]. intros other held j. cbn. intros Hj.
  destruct (decide (above ++ [name] = other ++ [held])) as [Heq|Hne].
  - apply app_inj_tail in Heq as [<- <-]. auto.
  - rewrite lookup_insert_ne in Hj by done. apply Htree in Hj as [Hother Hheld]. auto.
Qed.

(** What a call keeps of the directories. *)
Definition directories_kept (d d' : Disk) : Prop := forall path, directory_at d path -> directory_at d' path.

Lemma directories_stable d d' path : directories_kept d d' -> directories d path -> directories d' path.
Proof. intros Hkept [Hdots Hall]. split; [done|]. intros above name rest Heq. by eapply Hkept, Hall. Qed.

Lemma directory_at_insert d path i at_ :
  names d !! at_ = None -> directory_at d path -> directory_at (set_names <[at_ := i]> d) path.
Proof.
  intros Hfree [found [Hstands Hdir]]. exists found. split; [|done].
  apply stands_Some in Hstands as [Hname Hinode]. apply stands_Some. cbn.
  by rewrite lookup_insert_ne by (by eapply free_ne).
Qed.

Lemma tree_link d above name i :
  tree d -> directory_at d above -> spelled name = true -> names d !! (above ++ [name]) = None ->
  tree (set_names <[above ++ [name] := i]> d).
Proof.
  intros [Hroot Htree] Habove Hspelled Hfree. split; [by apply directory_at_insert|].
  intros other held j. cbn. intros Hj.
  destruct (decide (above ++ [name] = other ++ [held])) as [Heq|Hne].
  - apply app_inj_tail in Heq as [<- <-]. split; [by apply directory_at_insert|done].
  - rewrite lookup_insert_ne in Hj by done. apply Htree in Hj as [Hother Hheld].
    split; [by apply directory_at_insert|done].
Qed.

Lemma free_stands d path : names d !! path = None -> stands d path = None.
Proof. intros Hfree. unfold stands. by rewrite Hfree. Qed.

Lemma create_tree path shape d : tree d -> tree (snd (create path shape d)).
Proof.
  intros Htree. destruct (create path shape d) as [[i|error] d'] eqn:Hcreate; cbn.
  - pose proof Hcreate as (at_ & node & Hentry & Hfree & Hfresh & Hnames & Hinodes & _)%create_Ok.
    assert (Heq : d' = set_inodes <[i := node]> (set_names <[at_ := i]> d)).
    { unfold create in Hcreate. rewrite Hentry, Hfree in Hcreate. injection Hcreate as <- <-.
      unfold set_inodes, set_names in *. cbn in *. f_equal.
      apply (f_equal (fun m => m !! fresh_ino d)) in Hinodes. rewrite !lookup_insert_eq in Hinodes. by simplify_eq. }
    subst d'. destruct (entry_free _ _ _ Htree Hentry (free_stands _ _ Hfree)) as (above & name & -> & Habove & Hname).
    by apply tree_insert.
  - by apply create_Err in Hcreate as ->.
Qed.

(** The children of an empty directory. *)
Lemma children_nil d path name : children d path = [] -> names d !! (path ++ [name]) = None.
Proof.
  intros Hnil. apply eq_None_not_Some. intros [i Hi].
  assert (Hin : name ∈ children d path); [|by rewrite Hnil in Hin; inversion Hin].
  unfold children. apply list_elem_of_omap. exists (path ++ [name], i). split; [by apply elem_of_map_to_list|].
  by rewrite strip_path_app.
Qed.

Lemma tree_below d path rest i : tree d -> rest <> [] -> names d !! (path ++ rest) = Some i -> directory_at d path.
Proof.
  intros [Hroot Htree]. revert i. induction rest as [|name rest IH] using rev_ind; [done|]. intros i _ Hi.
  rewrite app_assoc in Hi. pose proof (Htree _ _ _ Hi) as [Habove _].
  destruct rest as [|first rest]; [by rewrite app_nil_r in Habove|].
  destruct Habove as (found & [Hname _]%stands_Some & _). by eapply IH.
Qed.

(** Nothing is below what is not a directory, or is an empty one. *)
Lemma tree_not_below d path rest :
  tree d -> (forall found, stands d path = Some found -> is_dir found = true -> children d path = []) ->
  rest <> [] -> names d !! (path ++ rest) = None.
Proof.
  intros Htree Hempty Hrest. apply eq_None_not_Some. intros [i Hi].
  destruct (tree_below _ _ _ _ Htree Hrest Hi) as (found & Hfound & Hdir).
  pose proof (Hempty _ Hfound Hdir) as Hnil.
  destruct rest as [|name rest]; [done|].
  assert (Hname : is_Some (names d !! (path ++ [name]))).
  { destruct rest as [|more rest]; [eauto|].
    destruct (tree_below d (path ++ [name]) (more :: rest) i Htree) as (? & [? _]%stands_Some & _);
      [done|by rewrite <-app_assoc|eauto]. }
  destruct Hname as [j Hj]. by rewrite (children_nil _ _ name Hnil) in Hj.
Qed.

(** Deleting what nothing is below keeps the tree. *)
Lemma tree_delete d path :
  tree d -> path <> [] -> (forall name, names d !! (path ++ [name]) = None) -> tree (set_names (base.delete path) d).
Proof.
  intros [Hroot Htree] Hne Hchildren.
  assert (Hkeeps : forall other, other <> path -> directory_at d other -> directory_at (set_names (base.delete path) d) other).
  { intros other Hother (found & [Hname Hinode]%stands_Some & Hdir). exists found. split; [|done].
    apply stands_Some. cbn. by rewrite lookup_delete_ne. }
  split; [by apply Hkeeps|]. intros above name i. cbn. intros Hi.
  destruct (decide (path = above ++ [name])) as [->|Hother]; [by rewrite lookup_delete_eq in Hi|].
  rewrite lookup_delete_ne in Hi by done. apply Htree in Hi as Habove. split; [|apply Habove].
  apply Hkeeps; [|apply Habove].
  intros ->. by rewrite Hchildren in Hi.
Qed.

(** A file whose name is not under it. *)
Lemma entry_not_under d path at_ held found :
  tree d -> entry d path = Ok held -> stands d at_ = Some found -> is_dir found && starts_with held at_ = false ->
  held <> at_ -> starts_with held at_ = false.
Proof.
  intros Htree Hentry Hfound Hunder Hne. destruct (is_dir found) eqn:Hdir; [done|].
  destruct (starts_with held at_) eqn:Hstarts; [|done]. exfalso. apply starts_with_iff in Hstarts as [rest ->].
  destruct (path_cases rest) as [->|[more [name ->]]]; [by rewrite app_nil_r in Hne|].
  destruct (entry_above _ _ _ Htree Hentry) as (above & last_ & Heq & Habove & _); [by destruct at_, more|].
  rewrite app_assoc in Heq. apply app_inj_tail in Heq as [<- _].
  assert (directory_at d at_) as (other & Hother & Hotherdir); [|congruence].
  destruct more as [|first more]; [by rewrite app_nil_r in Habove|].
  destruct Habove as (there & [Hname _]%stands_Some & _). exact (tree_below _ _ (first :: more) _ Htree ltac:(done) Hname).
Qed.

Lemma starts_with_snoc above name prefix :
  starts_with (above ++ [name]) prefix = false -> starts_with above prefix = false.
Proof.
  intros Hnot. destruct (starts_with above prefix) eqn:Hstarts; [|done].
  rewrite (starts_with_trans _ above) in Hnot; [done|apply path_starts_app|done].
Qed.

(** A moved subtree keeps the tree. *)
Lemma tree_moved d from to above name :
  tree d -> to = above ++ [name] -> directory_at d above -> spelled name = true -> starts_with to from = false ->
  tree (set_names (moved from to) d).
Proof.
  intros Htree Hto Habove Hspelled Hunder. pose proof Htree as [Hroot Hnamed].
  assert (Hfrom : from <> []) by (by intros ->).
  assert (Hkeeps : forall path, starts_with path from = false -> starts_with path to = false ->
    directory_at d path -> directory_at (set_names (moved from to) d) path).
  { intros path Hpf Hpt (found & [Hname Hinode]%stands_Some & Hdir). exists found. split; [|done].
    apply stands_Some. cbn. by rewrite moved_elsewhere. }
  split.
  { apply Hkeeps; [by destruct from|by rewrite Hto; destruct above|done]. }
  intros other held i. cbn. rewrite lookup_moved. intros (orig & Horigin & Hi)%bind_Some.
  unfold origin in Horigin. destruct (strip_path to (other ++ [held])) as [rest|] eqn:Hstrip.
  - injection Horigin as <-. apply strip_path_Some in Hstrip.
    destruct (path_cases rest) as [->|(more & last_ & ->)].
    + rewrite app_nil_r in Hstrip. rewrite Hto in Hstrip. apply app_inj_tail in Hstrip as [-> ->].
      subst to. split; [|done]. apply Hkeeps; [by eapply starts_with_snoc| |done].
      destruct (starts_with above (above ++ [name])) eqn:Hbad; [|done]. apply starts_with_iff in Hbad as [rest Hrest].
      apply (f_equal length) in Hrest. rewrite !length_app in Hrest. cbn in Hrest. lia.
    + rewrite app_assoc in Hstrip, Hi. apply app_inj_tail in Hstrip as [-> <-].
      destruct (Hnamed _ _ _ Hi) as [(found & [Hname Hinode]%stands_Some & Hdir) Hlast]. split; [|done].
      exists found. split; [|done].
      apply stands_Some. cbn. rewrite lookup_moved. unfold origin. by rewrite strip_path_app.
  - apply strip_path_None in Hstrip. case_match eqn:Hpf; [done|]. injection Horigin as <-.
    destruct (Hnamed _ _ _ Hi). split; [|done]. apply Hkeeps; [by eapply starts_with_snoc..|done].
Qed.

(** Rewriting a file's inode leaves every directory one. *)
Lemma rewritten_directories d i node node' path :
  inodes d !! i = Some node -> is_dir {| ino := i; inode := node |} = false ->
  directory_at d path -> directory_at (set_inodes <[i := node']> d) path.
Proof.
  intros Hi Hfile (found & [Hname Hinode]%stands_Some & Hdir). exists found. split; [|done].
  apply stands_Some. split; [done|]. cbn. rewrite lookup_insert_ne; [done|]. intros ->.
  destruct found as [j there]. cbn in *. rewrite Hi in Hinode. injection Hinode as ->. by unfold is_dir in *; rewrite Hdir in Hfile.
Qed.

Lemma tree_rewritten d i node node' :
  inodes d !! i = Some node -> is_dir {| ino := i; inode := node |} = false -> tree d ->
  tree (set_inodes <[i := node']> d).
Proof.
  intros Hi Hfile [Hroot Hnamed]. split; [by eapply rewritten_directories|].
  intros above name j Hj. destruct (Hnamed _ _ _ Hj). split; [by eapply rewritten_directories|done].
Qed.

Lemma delete_tree at_ d found :
  tree d -> stands d at_ = Some found -> (is_dir found = true -> children d at_ = []) -> at_ <> [] ->
  tree (set_names (base.delete at_) d).
Proof.
  intros Htree Hfound Hempty Hne. apply tree_delete; [done..|]. intros name.
  apply tree_not_below; [done| |done]. intros other Hother. by rewrite Hother in Hfound; simplify_eq.
Qed.

Lemma remove_file_tree path d : tree d -> tree (snd (remove_file path d)).
Proof.
  intros Htree. destruct (remove_file path d) as [answer d'] eqn:Hremove.
  apply remove_file_cases in Hremove as [->|(at_ & found & Hentry & Hfound & Hdir & ->)]; [done|]. cbn.
  eapply delete_tree; [done..|by rewrite Hdir|]. intros ->. destruct Htree as [(root & Hroot & Hrootdir) _]. congruence.
Qed.

(** An empty directory other than the root is removed. *)
Lemma remove_empty_tree at_ d : at_ <> [] -> tree d -> tree (snd (remove_empty at_ d)).
Proof.
  intros Hne Htree. unfold remove_empty, remove_at, fails. destruct (stands d at_) as [found|] eqn:Hfound; [|done].
  destruct (is_dir found) eqn:Hdir; [|done]. cbn. destruct (children d at_) eqn:Hnil; [|done]. cbn.
  by eapply delete_tree.
Qed.

Lemma unlink_tree at_ d : at_ <> [] -> tree d -> tree (snd (unlink at_ d)).
Proof.
  intros Hne Htree. unfold unlink. destruct (stands d at_) as [found|] eqn:Hfound; [|done].
  destruct (is_dir found) eqn:Hdir; [by apply remove_empty_tree|]. cbn. eapply delete_tree; [done..|by rewrite Hdir|done].
Qed.

Lemma hard_link_tree from to d : tree d -> tree (snd (hard_link from to d)).
Proof.
  intros Htree. destruct (hard_link from to d) as [[[]|error] d'] eqn:Hlink; [|by apply hard_link_Err in Hlink as ->].
  pose proof Hlink as (at_ & held & found & Hat & Hheld & Hfound & Hfree & Hdir & Hnames & Hinodes)%hard_link_Ok.
  assert (d' = set_names <[held := ino found]> d) as ->.
  { unfold hard_link in Hlink. rewrite Hat, Hheld, Hfound, Hfree, Hdir in Hlink. by injection Hlink. }
  destruct (entry_free _ _ _ Htree Hheld (free_stands _ _ Hfree)) as (above & name & -> & Habove & Hname).
  by apply tree_link.
Qed.

Lemma rename_tree exclusive from to d : tree d -> tree (snd (rename_checked exclusive from to d)).
Proof.
  intros Htree.
  destruct (rename_checked exclusive from to d) as [[[]|error] d'] eqn:Hrename; [|by apply rename_Err in Hrename as ->].
  apply rename_Ok in Hrename as (at_ & held & found & Hat & Hheld & Hfound & _ & [[-> _]|(-> & Hother & Hunder & Hthere)]); [done|].
  cbn. assert (Hne : held <> at_).
  { intros ->. apply Hother. by apply stands_Some in Hfound as [-> _]. }
  destruct (decide (held = [])) as [->|Hnil].
  - exfalso. pose proof Htree as [(there & Hroot & _) _].
    apply stands_Some in Hfound as [Hname _].
    assert (names d !! at_ = None); [|congruence].
    apply (tree_not_below d [] at_ Htree); [|congruence]. intros. by eapply Hthere.
  - destruct (entry_above _ _ _ Htree Hheld Hnil) as (above & name & Heq & Habove & Hname).
    eapply tree_moved; [done..|]. by eapply entry_not_under.
Qed.

Lemma copy_open_tree from to d : tree d -> tree (snd (copy_open from to d)).
Proof.
  intros Htree. unfold copy_open, fails. destruct (source_file d from) as [source|]; [|done].
  destruct (canonical d to) as [at_|].
  - destruct (stands d at_) as [there|] eqn:Hthere; [|done]. destruct (shape (inode there)) eqn:Hshape; try done.
    apply stands_Some in Hthere as [_ Hinode]. eapply tree_rewritten; [done| |done]. unfold is_dir. cbn. by rewrite Hshape.
  - pose proof (create_tree to (Regular "") d Htree) as Hmade. by destruct (create to (Regular "") d).
Qed.

Lemma copy_bytes_tree source target some d : tree d -> tree (copy_bytes source target some d).
Proof.
  intros Htree. unfold copy_bytes. destruct (inodes d !! source) as [from|]; [|done].
  destruct (inodes d !! target) as [to|] eqn:Hto; [|done]. destruct (shape from), (shape to) eqn:Hshape; try done.
  eapply tree_rewritten; [done| |done]. unfold is_dir. cbn. by rewrite Hshape.
Qed.

Lemma write_chunk_tree handle chunk d : tree d -> tree (snd (write_chunk handle chunk d)).
Proof.
  intros Htree. unfold write_chunk, fails. destruct (inodes d !! handle) as [node|] eqn:Hnode; [|done].
  destruct (shape node) eqn:Hshape; try done. eapply tree_rewritten; [done| |done]. unfold is_dir. cbn. by rewrite Hshape.
Qed.

(** ** Where a call acts

    [only_under bases] has a call change names at or below some paths only,
    and no directory's inode. *)
Definition only_under (bases : list Path) (d d' : Disk) : Prop :=
  (forall path, Forall (fun base => starts_with path base = false) bases -> names d' !! path = names d !! path) /\
  (forall i node, inodes d !! i = Some node -> shape node = Directory -> inodes d' !! i = Some node).

Lemma only_under_refl bases d : only_under bases d d.
Proof. done. Qed.
#[export] Hint Resolve only_under_refl : ceres.

Lemma only_under_inodes bases d i node node' :
  inodes d !! i = Some node -> shape node <> Directory -> only_under bases d (set_inodes <[i := node']> d).
Proof.
  intros Hi Hshape. split; [done|]. intros j held Hj Hdir. cbn.
  rewrite lookup_insert_ne; [done|]. intros ->. congruence.
Qed.

(** The same of a call that leaves every inode. *)
Definition only_names (bases : list Path) (d d' : Disk) : Prop :=
  (forall path, Forall (fun base => starts_with path base = false) bases -> names d' !! path = names d !! path) /\
  (forall i node, inodes d !! i = Some node -> inodes d' !! i = Some node).

Lemma only_names_under bases d d' : only_names bases d d' -> only_under bases d d'.
Proof. intros [Hnames Hinodes]. split; [done|]. intros i node Hi _. by apply Hinodes. Qed.

Lemma only_names_refl bases d : only_names bases d d.
Proof. done. Qed.
#[export] Hint Resolve only_names_refl : ceres.

Lemma only_names_insert at_ d i : only_names [at_] d (set_names <[at_ := i]> d).
Proof.
  split; [|done]. intros path Hpath. cbn. rewrite lookup_insert_ne; [done|]. intros <-.
  inversion Hpath as [|?? Hself]; subst. by rewrite starts_with_refl in Hself.
Qed.

Lemma only_names_delete at_ d : only_names [at_] d (set_names (base.delete at_) d).
Proof.
  split; [|done]. intros path Hpath. cbn. rewrite lookup_delete_ne; [done|]. intros <-.
  inversion Hpath as [|?? Hself]; subst. by rewrite starts_with_refl in Hself.
Qed.

Lemma only_names_moved from to d : only_names [from; to] d (set_names (moved from to) d).
Proof.
  split; [|done]. intros path Hpath. inversion Hpath as [|?? Hfrom Hrest]; subst.
  inversion Hrest as [|?? Hto]; subst. by apply moved_elsewhere.
Qed.

Lemma create_under path shape d :
  exists at_, only_names [at_] d (snd (create path shape d)) /\
    (entry d path = Ok at_ \/ snd (create path shape d) = d).
Proof.
  unfold create, fails. destruct (entry d path) as [at_|]; [|exists []; auto with ceres].
  exists at_. destruct (names d !! at_); [auto with ceres|]. split; [|by left]. cbn.
  destruct (only_names_insert at_ d (fresh_ino d)) as [Hnames _]. split; [apply Hnames|].
  intros i node Hi. cbn. rewrite lookup_insert_ne; [done|]. intros <-.
  assert (Hfresh : inodes d !! fresh_ino d = None).
  { apply not_elem_of_dom. exact (is_fresh (dom (inodes d) : gset Z)). }
  congruence.
Qed.

Lemma create_dir_snd path d : snd (create_dir path d) = snd (create path Directory d).
Proof. unfold create_dir. by destruct (create path Directory d). Qed.

Lemma hard_link_under from to d :
  exists at_, only_names [at_] d (snd (hard_link from to d)) /\
    (entry d to = Ok at_ \/ snd (hard_link from to d) = d).
Proof.
  unfold hard_link, fails. destruct (entry d from) as [at_|]; [|exists []; auto with ceres].
  destruct (entry d to) as [held|]; [|exists []; auto with ceres]. exists held.
  destruct (stands d at_) as [found|]; [|auto with ceres]. destruct (names d !! held); [auto with ceres|].
  destruct (is_dir found); [auto with ceres|]. split; [apply only_names_insert|by left].
Qed.

Lemma rename_under exclusive from to d :
  snd (rename_checked exclusive from to d) = d \/
  exists at_ held, entry d from = Ok at_ /\ entry d to = Ok held /\
    only_names [at_; held] d (snd (rename_checked exclusive from to d)).
Proof.
  destruct (rename_checked exclusive from to d) as [[[]|error] d'] eqn:Hrename;
    [|left; by apply rename_Err in Hrename].
  apply rename_Ok in Hrename as (at_ & held & found & Hat & Hheld & _ & _ & [[-> _]|(-> & _)]); [by left|].
  right. exists at_, held. split_and!; try done; apply only_names_moved.
Qed.

Lemma remove_file_under path d :
  snd (remove_file path d) = d \/ exists at_, entry d path = Ok at_ /\ only_names [at_] d (snd (remove_file path d)).
Proof.
  destruct (remove_file path d) as [answer d'] eqn:Hremove.
  apply remove_file_cases in Hremove as [->|(at_ & found & Hentry & _ & _ & ->)]; [by left|].
  right. exists at_. split; [done|]. apply only_names_delete.
Qed.

Lemma remove_empty_under at_ d : only_names [at_] d (snd (remove_empty at_ d)).
Proof.
  destruct (remove_empty at_ d) as [answer d'] eqn:Hremove.
  apply remove_empty_cases in Hremove as [->| ->]; [done|apply only_names_delete].
Qed.

Lemma unlink_under at_ d : only_names [at_] d (snd (unlink at_ d)).
Proof.
  destruct (unlink at_ d) as [answer d'] eqn:Hremove.
  apply unlink_cases in Hremove as [->| ->]; [done|apply only_names_delete].
Qed.

Lemma write_chunk_under bases handle chunk d : only_under bases d (snd (write_chunk handle chunk d)).
Proof.
  unfold write_chunk, fails. destruct (inodes d !! handle) as [node|] eqn:Hnode; [|done].
  destruct (shape node) eqn:Hshape; try done. eapply only_under_inodes; [done|congruence].
Qed.

Lemma copy_bytes_under bases source target some d : only_under bases d (copy_bytes source target some d).
Proof.
  unfold copy_bytes. destruct (inodes d !! source) as [from|]; [|done].
  destruct (inodes d !! target) as [to|] eqn:Hto; [|done]. destruct (shape from), (shape to) eqn:Hshape; try done.
  eapply only_under_inodes; [done|congruence].
Qed.

Lemma copy_open_under from to d :
  exists at_, only_under [at_] d (snd (copy_open from to d)) /\
    (entry d to = Ok at_ \/ names (snd (copy_open from to d)) = names d).
Proof.
  unfold copy_open, fails. destruct (source_file d from) as [source|]; [|exists []; auto with ceres].
  destruct (canonical d to) as [at_|].
  - destruct (stands d at_) as [there|] eqn:Hthere; [|exists []; auto with ceres].
    exists at_. destruct (shape (inode there)) eqn:Hshape; [|auto with ceres..].
    apply stands_Some in Hthere as [_ Hinode]. split; [|by right]. eapply only_under_inodes; [done|congruence].
  - destruct (create_under to (Regular "") d) as (at_ & Hunder%only_names_under & Hcases). exists at_.
    destruct (create to (Regular "") d) as [made d'] eqn:Hmade. cbn in *. split; [done|].
    destruct Hcases as [?| ->]; auto.
Qed.

(** The directories above what a call changes stay. *)
Lemma only_under_directories bases d d' path :
  only_under bases d d' -> Forall (fun base => starts_with path base = false) bases ->
  directories d path -> directories d' path.
Proof.
  intros [Hnames Hinodes] Hbases [Hdots Hall]. split; [done|]. intros above name rest Heq.
  destruct (Hall above name rest Heq) as (found & [Hname Hinode]%stands_Some & Hdir).
  exists found. split; [|done]. apply stands_Some. rewrite Hnames.
  - split; [done|]. apply Hinodes; [done|]. unfold is_dir in Hdir. by destruct (shape (inode found)).
  - apply (Forall_impl _ _ _ Hbases). intros base Hbase. destruct (starts_with (above ++ [name]) base) eqn:Hstarts; [|done].
    rewrite <-Hbase. symmetry. eapply starts_with_trans; [|done]. rewrite Heq.
    apply starts_with_iff. exists rest. by rewrite <-app_assoc.
Qed.

(** ** Texts of names *)

Lemma spelled_cases name :
  spelled name = true <-> name <> "" /\ name <> "." /\ name <> ".." /\ contains_char "/" name = false.
Proof.
  unfold spelled. rewrite !andb_true_iff, !negb_true_iff, !bool_decide_eq_false. tauto.
Qed.

Lemma components_spelled name : spelled name = true -> components name = [name].
Proof.
  intros (Hne & Hdot & _ & Hslash)%spelled_cases. unfold components. rewrite str_split_single by done. cbn.
  by rewrite !bool_decide_eq_false_2.
Qed.

Lemma components_app a b : components (a +:+ String "/" b) = components a ++ components b.
Proof. unfold components. by rewrite str_split_concat, List.filter_app. Qed.

Lemma join_spelled path name : spelled name = true -> join path name = path ++ [name].
Proof.
  intros Hname. unfold join. rewrite components_spelled by done.
  apply spelled_cases in Hname as (_ & _ & _ & Hslash). unfold is_absolute, str_starts_with.
  destruct name as [|c name]; [done|]. cbn [strip_prefix]. cbn [contains_char] in Hslash.
  apply orb_false_iff in Hslash as [Hc _].
  destruct (Strings.Ascii.eqb "/" c) eqn:Heq; [|done]. apply Strings.Ascii.eqb_eq in Heq as <-. done.
Qed.

(** What the bytes of a name and of U+FFFD pass, the name's text passes. *)
Lemma next_char_forall test a rest :
  test a = true -> str_forall test rest = true -> str_forall test replacement = true ->
  str_forall test (fst (next_char a rest)) = true /\ str_forall test (snd (next_char a rest)) = true.
Proof.
  intros Ha Hrest Hreplacement. unfold next_char.
  destruct (byte_in 0 127 a); [cbn; by rewrite Ha|]. destruct rest as [|b rest]; [done|].
  destruct (negb (second_byte a b)); [done|]. cbn [str_forall] in Hrest. apply andb_true_iff in Hrest as [Hb Hrest].
  destruct (byte_in 194 223 a); [cbn; by rewrite Ha, Hb|]. destruct rest as [|c rest]; [done|].
  destruct (negb (tail_byte c)); [done|]. cbn [str_forall] in Hrest. apply andb_true_iff in Hrest as [Hc Hrest].
  destruct (byte_in 224 239 a); [cbn; by rewrite Ha, Hb, Hc|]. destruct rest as [|e rest]; [done|].
  destruct (negb (tail_byte e)); [done|]. cbn [str_forall] in Hrest. apply andb_true_iff in Hrest as [He Hrest].
  cbn. by rewrite Ha, Hb, Hc, He.
Qed.

Lemma lossy_forall test fuel bytes :
  str_forall test bytes = true -> str_forall test replacement = true -> str_forall test (lossy_fuel fuel bytes) = true.
Proof.
  intros Hbytes Hreplacement. revert bytes Hbytes. induction fuel as [|fuel IH]; intros [|a rest] Hbytes; [done..|].
  cbn [lossy_fuel]. cbn [str_forall] in Hbytes. apply andb_true_iff in Hbytes as [Ha Hrest].
  destruct (next_char_forall test a rest Ha Hrest Hreplacement) as [Hchar Hmore].
  destruct (next_char a rest) as [char more]. cbn in *. rewrite str_forall_app. by rewrite Hchar, IH.
Qed.

(** The text of a name that starts with an ASCII character. *)
Lemma lossy_ascii a rest :
  byte_in 0 127 a = true -> to_string_lossy (String a rest) = String a (to_string_lossy rest).
Proof. intros Ha. unfold to_string_lossy. cbn. unfold next_char. by rewrite Ha. Qed.

Lemma lossy_other a rest :
  byte_in 0 127 a = false -> exists b more, to_string_lossy (String a rest) = String b more /\ byte_in 0 127 b = false.
Proof.
  intros Ha. unfold to_string_lossy. cbn [String.length lossy_fuel].
  assert (exists b more, fst (next_char a rest) = String b more /\ byte_in 0 127 b = false) as (b & more & Hchar & Hb).
  { unfold next_char. rewrite Ha. repeat case_match; cbn; eauto. }
  destruct (next_char a rest) as [char left_]. cbn in Hchar. subst char. by exists b, (more +:+ lossy_fuel (String.length rest) left_).
Qed.

Lemma lossy_nil name : to_string_lossy name = "" -> name = "".
Proof.
  destruct name as [|a rest]; [done|]. destruct (byte_in 0 127 a) eqn:Ha; [by rewrite lossy_ascii|].
  by destruct (lossy_other a rest Ha) as (b & more & -> & _).
Qed.

Lemma lossy_char name c text :
  byte_in 0 127 c = true -> to_string_lossy name = String c text -> exists rest, name = String c rest /\ to_string_lossy rest = text.
Proof.
  intros Hc. destruct name as [|a rest]; [done|]. destruct (byte_in 0 127 a) eqn:Ha.
  - rewrite lossy_ascii by done. intros [= -> <-]. eauto.
  - destruct (lossy_other a rest Ha) as (b & more & -> & Hb). intros [= -> _]. congruence.
Qed.

Lemma lossy_spelled name : spelled name = true -> spelled (to_string_lossy name) = true.
Proof.
  rewrite !spelled_cases. intros (Hne & Hdot & Hdots & Hslash). split_and!.
  - by intros ?%lossy_nil.
  - intros (rest & -> & ->%lossy_nil)%lossy_char; done.
  - intros (rest & -> & (more & -> & ->%lossy_nil)%lossy_char)%lossy_char; done.
  - apply (str_forall_no_char (fun c => negb (Strings.Ascii.eqb c "/"))); [done|]. apply lossy_forall; [|done].
    clear - Hslash. induction name as [|c name IH]; [done|]. cbn in *. apply orb_false_iff in Hslash as [-> Hslash].
    by apply IH.
Qed.

(** ** Symlinks made *)

(** A call after which no symlink stands that did not before. *)
Definition no_links (d d' : Disk) : Prop :=
  forall path found, stands d' path = Some found -> is_symlink found = true -> stands d path = Some found.

Lemma no_links_refl d : no_links d d.
Proof. by intros path found. Qed.
#[export] Hint Resolve no_links_refl : ceres.

Lemma no_links_inode d i node node' :
  inodes d !! i = Some node -> is_symlink {| ino := i; inode := node' |} = false ->
  no_links d (set_inodes <[i := node']> d).
Proof.
  intros Hi Hlink path [j found] [Hname Hinode]%stands_Some Hsymlink. cbn in *. apply stands_Some. cbn.
  destruct (decide (j = i)) as [->|Hne]; [|by rewrite lookup_insert_ne in Hinode by congruence].
  rewrite lookup_insert_eq in Hinode. injection Hinode as <-. unfold is_symlink in *. cbn in *. by rewrite Hsymlink in Hlink.
Qed.

Lemma create_no_links path shape d :
  is_symlink {| ino := 0; inode := {| shape := shape; modified := None; created := None; permissions := 0 |} |} = false ->
  no_links d (snd (create path shape d)).
Proof.
  intros Hshape. unfold create, fails. destruct (entry d path) as [at_|]; [|apply no_links_refl].
  destruct (names d !! at_) eqn:Hfree; [apply no_links_refl|]. intros other [j found] [Hname Hinode]%stands_Some Hsymlink.
  cbn in *. apply stands_Some. cbn.
  destruct (decide (j = fresh_ino d)) as [->|Hne].
  { rewrite lookup_insert_eq in Hinode. injection Hinode as <-. unfold is_symlink in *. cbn in *. by rewrite Hsymlink in Hshape. }
  rewrite lookup_insert_ne in Hinode by congruence. split; [|done].
  destruct (decide (at_ = other)) as [->|Hother]; [rewrite lookup_insert_eq in Hname; congruence|].
  by rewrite lookup_insert_ne in Hname.
Qed.

Lemma copy_bytes_no_links source target some d : no_links d (copy_bytes source target some d).
Proof.
  unfold copy_bytes. destruct (inodes d !! source) as [from|]; [|apply no_links_refl].
  destruct (inodes d !! target) as [to|] eqn:Hto; [|apply no_links_refl].
  destruct (shape from), (shape to); try apply no_links_refl.
  by eapply no_links_inode.
Qed.

Lemma copy_open_no_links from to d : no_links d (snd (copy_open from to d)).
Proof.
  unfold copy_open, fails. destruct (source_file d from) as [source|]; [|apply no_links_refl].
  destruct (canonical d to) as [at_|].
  - destruct (stands d at_) as [there|] eqn:Hthere; [|apply no_links_refl].
    destruct (shape (inode there)); try apply no_links_refl.
    apply stands_Some in Hthere as [_ Hinode]. by eapply no_links_inode.
  - pose proof (create_no_links to (Regular "") d eq_refl) as Hlinks. by destruct (create to (Regular "") d).
Qed.

(** * A rely-guarantee logic of programs on a disk

    [triple P p Q]: run from a disk of [P], with what others do between the
    calls kept to a rely and every failure one that may happen, the program
    makes only calls of its guarantee and ends in [Q]. *)

Section logic.
Context (Rely Guar : Disk -> Disk -> Prop) (Fault : IoError -> Prop).

Definition turn_ok (turn : Turn) : Prop :=
  (forall d, Rely d (others turn d)) /\ forall error, fault turn = Some error -> Fault error.

Definition relies (w : World) : Prop := Forall turn_ok (script w).
Definition guarantees (w : World) : Prop := Forall (fun '(d, d') => Guar d d') (calls w).

Definition triple {A} (P : Disk -> Prop) (p : Io A) (Q : A -> Disk -> Prop) : Prop :=
  forall w, relies w -> guarantees w -> P (disk w) ->
  relies (snd (p w)) /\ guarantees (snd (p w)) /\ Q (fst (p w)) (disk (snd (p w))).

Definition stable (P : Disk -> Prop) : Prop := forall d d', Rely d d' -> P d -> P d'.

Lemma stable_and P Q : stable P -> stable Q -> stable (fun d => P d /\ Q d).
Proof. intros HP HQ d d' Hrely [? ?]. eauto. Qed.

Lemma stable_pure (P : Prop) : stable (fun _ => P).
Proof. by intros d d' _. Qed.

Lemma triple_ret {A} (P : Disk -> Prop) (a : A) (Q : A -> Disk -> Prop) :
  (forall d, P d -> Q a d) -> triple P (io_ret a) Q.
Proof. intros HQ w Hrely Hguar HP. cbn. auto. Qed.

Lemma triple_bind {A B} (P : Disk -> Prop) (p : Io A) (R : A -> Disk -> Prop) (k : A -> Io B) (Q : B -> Disk -> Prop) :
  triple P p R -> (forall a, triple (R a) (k a) Q) -> triple P (io_bind p k) Q.
Proof.
  intros Hp Hk w Hrely Hguar HP. unfold io_bind. destruct (Hp w Hrely Hguar HP) as (Hrely' & Hguar' & HR).
  destruct (p w) as [a w']. by apply Hk.
Qed.

Lemma triple_mono {A} (P P' : Disk -> Prop) (p : Io A) (Q Q' : A -> Disk -> Prop) :
  triple P' p Q' -> (forall d, P d -> P' d) -> (forall a d, Q' a d -> Q a d) -> triple P p Q.
Proof. intros Hp HP HQ w Hrely Hguar Hw. destruct (Hp w Hrely Hguar (HP _ Hw)) as (? & ? & ?). auto. Qed.

Lemma triple_pre {A} (P P' : Disk -> Prop) (p : Io A) (Q : A -> Disk -> Prop) :
  (forall d, P d -> P' d) -> triple P' p Q -> triple P p Q.
Proof. intros. by eapply triple_mono. Qed.

(** What does not depend on the disk can be taken out of the precondition. *)
Lemma triple_pure {A} (fact : Prop) (P : Disk -> Prop) (p : Io A) (Q : A -> Disk -> Prop) :
  (fact -> triple P p Q) -> triple (fun d => fact /\ P d) p Q.
Proof. intros Hp w Hrely Hguar [Hfact HP]. exact (Hp Hfact w Hrely Hguar HP). Qed.

Lemma triple_exists {A B} (P : B -> Disk -> Prop) (p : Io A) (Q : A -> Disk -> Prop) :
  (forall b, triple (P b) p Q) -> triple (fun d => exists b, P b d) p Q.
Proof. intros Hp w Hrely Hguar [b HP]. exact (Hp b w Hrely Hguar HP). Qed.

Context (rely_refl : forall d, Rely d d).

Lemma relies_turn w : relies w -> turn_ok (next_turn w) /\ Forall turn_ok (tail (script w)).
Proof.
  unfold relies, next_turn. destruct (script w) as [|turn script]; cbn.
  - split; [|done]. by split.
  - by inversion 1.
Qed.

Lemma triple_call_torn {A} (P : Disk -> Prop) partial (c : Call A) (Q : Io_result A -> Disk -> Prop) :
  stable P ->
  (forall d, P d -> Guar d (snd (c d)) /\ Q (fst (c d)) (snd (c d))) ->
  (forall d error count, P d -> Fault error -> Guar d (partial count d) /\ Q (Err error) (partial count d)) ->
  triple P (call_torn partial c) Q.
Proof.
  intros Hstable Hcall Hfault w Hrely Hguar HP.
  destruct (relies_turn w Hrely) as [[Hothers Herrors] Hrest]. unfold call_torn.
  pose proof (Hstable _ _ (Hothers (disk w)) HP) as HP'.
  destruct (fault (next_turn w)) as [error|] eqn:Herror.
  - specialize (Herrors _ eq_refl). destruct (Hfault _ _ (torn (next_turn w)) HP' Herrors) as [HG HQ].
    cbn. split_and!; [done| |done]. by constructor.
  - destruct (Hcall _ HP') as [HG HQ]. destruct (c (others (next_turn w) (disk w))) as [answer after].
    cbn in *. split_and!; [done| |done]. by constructor.
Qed.

Lemma triple_call {A} (P : Disk -> Prop) (c : Call A) (Q : Io_result A -> Disk -> Prop) :
  (forall d, Guar d d) -> stable P ->
  (forall d, P d -> Guar d (snd (c d)) /\ Q (fst (c d)) (snd (c d))) ->
  (forall d error, P d -> Fault error -> Q (Err error) d) ->
  triple P (call c) Q.
Proof. intros. apply triple_call_torn; auto. Qed.

Lemma triple_read {A} (P : Disk -> Prop) (f : Disk -> Io_result A) (Q : Io_result A -> Disk -> Prop) :
  (forall d, Guar d d) -> stable P ->
  (forall d, P d -> Q (f d) d) -> (forall d error, P d -> Fault error -> Q (Err error) d) ->
  triple P (call (reads f)) Q.
Proof. intros ?? HQ ?. apply triple_call; [done..| |done]. intros d HP. cbn. auto. Qed.

(** A [?]: what fails ends the program. *)
Lemma triple_try {A B E} (P : Disk -> Prop) (p : Io (result A E)) (R : A -> Disk -> Prop)
    (k : A -> Io (result B E)) (Q : result B E -> Disk -> Prop) :
  triple P p (fun outcome d => match outcome with Ok a => R a d | Err error => Q (Err error) d end) ->
  (forall a, triple (R a) (k a) Q) ->
  triple P (io_bind p (fun outcome => match outcome with Ok a => k a | Err error => io_ret (Err error) end)) Q.
Proof.
  intros Hp Hk. eapply triple_bind; [apply Hp|]. intros [a|error]; cbn; [apply Hk|]. by apply triple_ret.
Qed.

Lemma triple_map {A B} (P : Disk -> Prop) (f : A -> B) (p : Io A) (Q : B -> Disk -> Prop) :
  triple P p (fun a d => Q (f a) d) -> triple P (io_map f p) Q.
Proof. intros Hp. eapply triple_bind; [apply Hp|]. intros a. by apply triple_ret. Qed.

(** A program that keeps a stable fact, whatever it answers. *)
Definition keeps {A} (P : Disk -> Prop) (p : Io A) : Prop := triple P p (fun _ => P).

Lemma keeps_ret {A} P (a : A) : keeps P (io_ret a).
Proof. by apply triple_ret. Qed.

Lemma keeps_bind {A B} P (p : Io A) (k : A -> Io B) : keeps P p -> (forall a, keeps P (k a)) -> keeps P (io_bind p k).
Proof. intros. by eapply triple_bind. Qed.

Lemma keeps_read {A} P (f : Disk -> Io_result A) : (forall d, Guar d d) -> stable P -> keeps P (call (reads f)).
Proof. intros. by apply triple_read. Qed.

Lemma keeps_triple {A} (P : Disk -> Prop) (p : Io A) (Q : A -> Disk -> Prop) :
  keeps P p -> (forall a d, P d -> Q a d) -> triple P p Q.
Proof. intros. by eapply triple_mono. Qed.

(** Every turn may go by without a call. *)
Lemma triple_draw `{Uuids} (P : Disk -> Prop) (Q : string -> Disk -> Prop) :
  (forall count d, P d -> Q (uuid count) d) -> triple P new_v4 Q.
Proof. intros HQ w Hrely Hguar HP. unfold new_v4. cbn. auto. Qed.
End logic.

#[export] Hint Resolve stable_pure : ceres.

(** Splits a fact into what is known to be stable. *)
Ltac stably :=
  repeat first [assumption | solve [simple apply stable_pure] | solve [auto 2 with ceres] | apply stable_and].

(** A program without others and without failures. *)
Lemma relies_resting Rely Fault d : relies Rely Fault {| disk := d; script := []; calls := []; drawn := 0 |}.
Proof. constructor. Qed.
