(* ===== verification/Config.v ===== *)
(** * Configuration problems, names, and what the file browser serves

    [ceres-config/src]: the problems a validation collects ([error.rs]), names
    and the service and console sections ([types.rs]), and the files section
    with its exclusions ([files.rs]). A section comes raw, as it deserializes,
    and validated; a validation goes on past a problem and gives them all. *)
From S2P Require Import Prelude.
From stdpp Require Import sorting.
From S2P Require Import Text Wire.
Local Open Scope string_scope.
Local Open Scope list_scope.
Local Open Scope Z_scope.
Local Open Scope ceres_scope.

(** ** Problems *)

Record Trouble := { trouble_location : string; trouble_message : string }.

(** [Problem::under]. *)
Definition under (parent : string) (self : Trouble) : Trouble :=
  {| trouble_location := if decide (trouble_location self = "") then parent else parent +:+ "." +:+ trouble_location self;
     trouble_message := trouble_message self |}.

(** [Display] of a problem. *)
Definition trouble_display (self : Trouble) : string :=
  if decide (trouble_location self = "") then trouble_message self else trouble_location self +:+ ": " +:+ trouble_message self.

Definition Troubles : Type := list Trouble.

(** [Problems::push] and [Problems::absorb]. *)
Definition push_trouble (found : Trouble) (problems : Troubles) : Troubles := problems ++ [found].
Definition absorb (other : Troubles) (parent : string) (problems : Troubles) : Troubles :=
  problems ++ (under parent <$> other).

(** A validation's value so far and its problems: what the code threads through
    [&mut Problems]. *)
Definition Validated (A : Type) : Type := A * Troubles.

(** [Problems::into_result]. *)
Definition into_result {A} (value : A) (problems : Troubles) : result A Troubles :=
  match problems with [] => Ok value | _ => Err problems end.

(** [Problems::require]. *)
Definition require (value : option string) (field : string) (is_blank : string -> bool) (blank_message : string)
    (problems : Troubles) : string * Troubles :=
  match value with
  | Some value =>
      if is_blank value then ("", push_trouble {| trouble_location := field; trouble_message := blank_message |} problems)
      else (value, problems)
  | None => ("", push_trouble {| trouble_location := field; trouble_message := "field is required." |} problems)
  end.

(** [Display] of all of them, a line each. *)
Definition troubles_display (problems : Troubles) : string :=
  str_join (Strings.Ascii.ascii_of_nat 10) ((fun found => "- " +:+ trouble_display found) <$> problems).

(** [validate_nested] of [server.rs]. *)
Definition validate_nested {Raw A} (try_from : Raw -> result A Troubles) (raw : option Raw) (section : string)
    (problems : Troubles) : option A * Troubles :=
  match raw with
  | None => (None, problems)
  | Some raw =>
      match try_from raw with
      | Ok validated => (Some validated, problems)
      | Err nested => (None, absorb nested section problems)
      end
  end.

(** ** Names *)

(** [NAME_PATTERN]. *)
Definition NAME_PATTERN : string := "[a-zA-Z_\-][a-zA-Z0-9_\-]*".

(** [regex_lite], whether a pattern matches a text, and [Debug] of a text. *)
Class RegexCrate := { regex_match : string -> string -> bool; debug_text : string -> string }.

Section types.
Context `{RegexCrate}.

(** [Name::parse]. *)
Definition name_parse (text : string) : result string Trouble :=
  if regex_match ("^" +:+ NAME_PATTERN +:+ "$") text then Ok text
  else Err {| trouble_location := "";
              trouble_message := debug_text text +:+ " must match pattern '^" +:+ NAME_PATTERN +:+ "$'." |}.

Definition validate_name (value : option string) (field : string) (problems : Troubles) : option string * Troubles :=
  match value with
  | None => (None, problems)
  | Some text =>
      match name_parse text with
      | Ok name => (Some name, problems)
      | Err found => (None, push_trouble (under field found) problems)
      end
  end.

(** The service section has one shape, raw and validated. *)
Record ServiceConfig := {
  service_name : option string; service_user : option string;
  service_stdout : option string; service_stderr : option string
}.

Definition service_try_from (raw : ServiceConfig) : result ServiceConfig Troubles :=
  let '(name, problems) := validate_name (service_name raw) "name" [] in
  let '(user, problems) := validate_name (service_user raw) "user" problems in
  into_result {| service_name := name; service_user := user;
                 service_stdout := service_stdout raw; service_stderr := service_stderr raw |} problems.

Record ConsoleConfig := { console_title : option string; console_favicon : option string }.
Definition console_try_from (raw : ConsoleConfig) : result ConsoleConfig Troubles :=
  Ok {| console_title := console_title raw; console_favicon := console_favicon raw |}.
End types.

(** ** Exclusions *)

(** [globset]: a pattern compiled with separators literal and backslashes
    escaping, patterns built into a set, and whether the set matches a text. *)
Class GlobCrate := {
  Glob : Type;
  GlobSet : Type;
  glob_build : string -> result Glob string;
  set_build : list Glob -> result GlobSet string;
  set_is_empty : GlobSet -> bool;
  is_match : GlobSet -> string -> bool;
  no_set : GlobSet
}.

(** What the documentation of [globset] promises of the empty set. *)
Class GlobLaws `{GlobCrate} := {
  set_built : forall set, set_build [] = Ok set -> set_is_empty set = true;
  empty_set : forall set text, set_is_empty set = true -> is_match set text = false;
  no_set_empty : set_is_empty no_set = true
}.

Section exclusion.
Context `{GlobCrate}.

Record FileExclusion := { exclusion_names : GlobSet; anchored : GlobSet }.

(** [FileExclusion::glob]. *)
Definition exclusion_glob (pattern : string) : result Glob string :=
  glob_build (default pattern (strip_prefix "/" pattern)).

(** The loop of [FileExclusion::new]. *)
Fixpoint sort_globs (patterns : list string) (names anchored : list Glob) : result (list Glob * list Glob) string :=
  match patterns with
  | [] => Ok (names, anchored)
  | pattern :: patterns =>
      let* glob := exclusion_glob pattern in
      if contains_char "/" pattern then sort_globs patterns names (anchored ++ [glob])
      else sort_globs patterns (names ++ [glob]) anchored
  end.

Definition exclusion_new (patterns : list string) : result FileExclusion string :=
  let* sorted := sort_globs patterns [] [] in
  let* names := set_build (fst sorted) in
  let* rooted := set_build (snd sorted) in
  Ok {| exclusion_names := names; anchored := rooted |}.

Definition exclusion_is_empty (self : FileExclusion) : bool :=
  set_is_empty (exclusion_names self) && set_is_empty (anchored self).

(** The loop of [FileExclusion::excludes]; [above] is the text up to and with
    the separator before the next name. *)
Fixpoint excludes_from (self : FileExclusion) (above : string) (names : list string) : bool :=
  match names with
  | [] => false
  | name :: names =>
      is_match (exclusion_names self) name || is_match (anchored self) (above +:+ name) ||
      excludes_from self (above +:+ name +:+ "/") names
  end.

Definition excludes (self : FileExclusion) (relative : string) : bool :=
  if decide (relative = "") then false else excludes_from self "" (str_split "/" relative).
End exclusion.

(** ** The files section *)

Inductive MountAccess := NoAccess | ViewAccess | EditAccess.
#[export] Instance mount_access_eq_dec : EqDecision MountAccess.
Proof. solve_decision. Defined.

(** [EngineMount], and its raw forms. *)
Record EngineMount := {
  mount_path : string; mount_access : option MountAccess; mount_layout : option string; mount_zone : option string
}.
Inductive RawEngineMount := RawPath (path : string) | RawSetting (setting : EngineMount).

Definition engine_mount_from (raw : RawEngineMount) : EngineMount :=
  match raw with
  | RawPath path => {| mount_path := path; mount_access := None; mount_layout := None; mount_zone := None |}
  | RawSetting setting => setting
  end.

(** Sizes are bytes, and a map is its entries in key order. *)
Record RawServerFilesConfig := {
  raw_mounts : option (list (string * RawEngineMount)); raw_exclude : option (list string);
  raw_max_upload : option Z; raw_access : option MountAccess; raw_reveal_paths : option bool
}.
Record ServerFilesConfig := {
  files_mounts : list (string * EngineMount); files_exclude : list string; files_max_upload : option Z;
  files_access : MountAccess; files_reveal_paths : bool
}.

Definition files_default : ServerFilesConfig :=
  {| files_mounts := []; files_exclude := []; files_max_upload := None; files_access := EditAccess;
     files_reveal_paths := true |}.

Section files.
Context `{RegexCrate} `{GlobCrate}.

Fixpoint validate_mounts (raw : list (string * RawEngineMount)) (mounts : list (string * EngineMount))
    (problems : Troubles) : list (string * EngineMount) * Troubles :=
  match raw with
  | [] => (mounts, problems)
  | (name, mount) :: raw =>
      match name_parse name with
      | Err found =>
          validate_mounts raw mounts (push_trouble {| trouble_location := "mounts"; trouble_message := trouble_message found |} problems)
      | Ok _ => validate_mounts raw (mounts ++ [(name, engine_mount_from mount)]) problems
      end
  end.

Fixpoint validate_patterns (patterns : list string) (problems : Troubles) : Troubles :=
  match patterns with
  | [] => problems
  | pattern :: patterns =>
      validate_patterns patterns
        match exclusion_glob pattern with
        | Err error =>
            push_trouble {| trouble_location := "exclude"; trouble_message := debug_text pattern +:+ " " +:+ error +:+ "." |} problems
        | Ok _ => problems
        end
  end.

Definition files_try_from (raw : RawServerFilesConfig) : result ServerFilesConfig Troubles :=
  let exclude := default [] (raw_exclude raw) in
  let '(mounts, problems) := validate_mounts (default [] (raw_mounts raw)) [] [] in
  let problems := validate_patterns exclude problems in
  into_result {| files_mounts := mounts; files_exclude := exclude; files_max_upload := raw_max_upload raw;
                 files_access := default EditAccess (raw_access raw);
                 files_reveal_paths := default true (raw_reveal_paths raw) |} problems.
End files.
