(* ===== verification/Files.v ===== *)
(** * Reading served files

    [ceres-server/src/api/files.rs], what a request reads: the mount a URL
    names, the entry its path names under the mount's root, listings,
    descriptions, downloads of files and archives of directories. A panic on
    the blocking pool is the error [blocking] answers for it. *)
From S2P Require Import Prelude.
From stdpp Require Import pretty.
From S2P Require Import Text Wire Json Selector Http Host Disk Config.
Local Open Scope string_scope.
Local Open Scope list_scope.
Local Open Scope Z_scope.
Local Open Scope ceres_scope.

(** [LISTING_CAP], [PART_LIFETIME] in nanoseconds, [DESTINATION_BODY_LIMIT],
    [ARCHIVE_CHUNK]. *)
Definition LISTING_CAP : Z := 10000.
Definition PART_LIFETIME : Z := 60 * 60 * 1000000000.
Definition DESTINATION_BODY_LIMIT : Z := 64 * 1024.
Definition ARCHIVE_CHUNK : Z := 64 * 1024.

(** [MountId::parse]: the mount and the path under it. *)
Definition mount_id_parse `{HttpCrates} `{RegexCrate} (first rest : string) : result (string * string) ApiError :=
  if negb (str_starts_with "@" first) then
    match name_parse first with Ok _ => Ok (first, rest) | Err _ => Err not_found end
  else match address_parse debug_text first with
  | Err _ => Err not_found
  | Ok _ =>
      let '(name, path) := default (rest, "") (split_once "/" rest) in
      match name_parse name with Ok _ => Ok (first +:+ "/" +:+ name, path) | Err _ => Err not_found end
  end.

Record ResolvedMount := {
  resolved_path : string; access : MountAccess; exclude : list string; max_upload : option Z; reveals : bool
}.

(** ** What a request asks *)

Record FileQuery := {
  after : option string; wants_stat : bool; download : bool; directory : bool; recursive : bool; overwrite : bool;
  hidden : bool; wanted : list string
}.

Definition no_query : FileQuery :=
  {| after := None; wants_stat := false; download := false; directory := false; recursive := false;
     overwrite := false; hidden := false; wanted := [] |}.

Definition query_pair (parsed : FileQuery) (pair_ : string * string) : FileQuery :=
  let '(name, value) := pair_ in
  let '{| after := after; wants_stat := stat; download := download; directory := directory;
          recursive := recursive; overwrite := overwrite; hidden := hidden; wanted := entries |} := parsed in
  let set := negb (bool_decide (value = "false")) in
  let named key := bool_decide (name = key) in
  {| wants_stat := if named "stat" then set else stat;
     download := if named "download" then set else download;
     directory := if named "directory" then set else directory;
     recursive := if named "recursive" then set else recursive;
     overwrite := if named "overwrite" then set else overwrite;
     hidden := if named "hidden" then set else hidden;
     wanted := if named "entry" then entries ++ [value] else entries;
     after := if named "after" then Some value else after |}.

(** [FileQuery::parse]. *)
Definition file_query_parse `{HttpCrates} (query : option string) : FileQuery :=
  foldl query_pair no_query (query_pairs query).

(** ** Entries *)

Inductive EntryKind := FileKind | DirectoryKind | OtherEntry.
#[export] Instance entry_kind_eq_dec : EqDecision EntryKind.
Proof. solve_decision. Defined.

Record FileEntry := {
  entry_name : string; entry_kind : EntryKind; entry_size : option Z;
  entry_modified : option string; entry_created : option string
}.
Record FileStat := { stat_entry : FileEntry; stat_path : option string }.
Record FileListing := { entries : list FileEntry; truncated : bool }.

(** Crates the file browser calls on: an instant as RFC 3339 in milliseconds,
    [percent_encoding], [str::to_lowercase], a mount and a destination
    deserialized, and what [tower_http]'s [ServeDir] answers a request's method
    and headers from what its backend opened, and read of it. *)
Class FilesCrates := {
  rfc3339_millis : Z -> string;
  percent_encode : string -> string;
  unicode_lowercase : string -> string;
  read_resolved : string -> result ResolvedMount string;
  read_destination : string -> option string;
  serve_dir : string -> HeaderMap -> Io_result (Metadata * Io_result string) -> Response
}.

Definition kind_of (metadata : Metadata) : EntryKind :=
  if is_file metadata then FileKind else if is_dir metadata then DirectoryKind else OtherEntry.

(** What [blocking] answers for a panic. *)
Definition panicked : ApiError := host_error (Internal "task panicked").

(** An instant [chrono] cannot hold is a panic. *)
Definition timestamp `{HttpCrates} `{FilesCrates} (time : option Z) : result (option string) ApiError :=
  match time with
  | None => Ok None
  | Some time => if datetime_held time then Ok (Some (rfc3339_millis time)) else Err panicked
  end.

(** [FileEntry::new]. *)
Definition entry_new `{HttpCrates} `{FilesCrates} (name : string) (kind : EntryKind) (metadata : option Metadata) :
    result FileEntry ApiError :=
  let* modified := timestamp (metadata ≫= fun found => modified (inode found)) in
  let* created := timestamp (metadata ≫= fun found => created (inode found)) in
  Ok {| entry_name := name; entry_kind := kind;
        entry_size := match kind with FileKind => len <$> metadata | _ => None end;
        entry_modified := modified; entry_created := created |}.

(** [split_path]: the names of a path, each the only, plain component of
    itself. *)
Definition plain_name (name : string) : bool :=
  negb (bool_decide (name = "")) && negb (bool_decide (name = ".")) && negb (bool_decide (name = "..")) &&
  negb (contains_char (Strings.Ascii.ascii_of_nat 0) name) && negb (contains_char "/" name).

Definition split_path `{HttpCrates} (path : string) : result (list string) ApiError :=
  if decide (path = "") then Ok []
  else res_map (fun name => if plain_name name then Ok name else Err (error_http 400)) (str_split "/" path).

(** [str::rsplit_once] of a character: around its last occurrence. *)
Fixpoint rsplit_once (c : ascii) (text : string) : option (string * string) :=
  match text with
  | EmptyString => None
  | String a rest =>
      match rsplit_once c rest with
      | Some (before, after) => Some (String a before, after)
      | None => if Strings.Ascii.eqb a c then Some ("", rest) else None
      end
  end.

(** [is_part]. *)
Definition is_part `{HttpCrates} (name : string) : bool :=
  match strip_prefix "." name ≫= strip_suffix ".part" with
  | None => false
  | Some stem =>
      match rsplit_once "." stem with
      | None => false
      | Some (target, id) =>
          negb (bool_decide (target = "")) && (String.length id =? 36)%nat && bool_decide (is_Some (parse_uuid id))
      end
  end.

(** ** Mounts *)

Record OpenMount `{GlobCrate} := { root : Path; exclusion : FileExclusion; reveal_paths : bool }.
Record Archive := {
  archive_directory : Path; archive_relative : string; archive_entries : list string; archive_hidden : bool;
  archive_name : string
}.
(** [VerifiedFile]; its handle is [None] once handed over. *)
Record VerifiedFile := { verified_path : Path; verified : Metadata; handle : option Z }.
Inductive Found :=
  | FoundListing (listing : FileListing)
  | FoundStat (stat : FileStat)
  | FoundFile (file : VerifiedFile) (name : string)
  | FoundArchive (archive : Archive).

(** A directory entry, and one a listing may keep. *)
Record Candidate := { candidate_name : string; candidate_path : Path; unicode : bool }.

(** What a walk reaches. *)
Inductive Walked :=
  | WalkedFile (path : Path) (metadata : Metadata)
  | WalkedLink (target : Path) (metadata : Metadata)
  | WalkedDirectory (metadata : Metadata)
  | WalkedExcluded.

(** [same_file]. *)
Definition same_file (a b : Metadata) : option bool := Some (ino a =? ino b).

(** An [ok_or_else] or [map_err] on what a call answered. *)
Definition or_error {A E} (error : ApiError) (outcome : result A E) : result A ApiError :=
  match outcome with Ok a => Ok a | Err _ => Err error end.
Definition ok_or {A} (error : ApiError) (found : option A) : result A ApiError :=
  match found with Some a => Ok a | None => Err error end.

Definition join_relative (above name : string) : string :=
  if decide (above = "") then name else above +:+ "/" +:+ name.

(** [write_error]. *)
Definition explained `{HttpCrates} (code : Z) (text : string) : ApiError :=
  let error := error_http code in
  {| error_status := error_status error; error_kind := error_kind error;
     error_fields := jinsert "message" (JText text) (error_fields error); envelope := envelope error |}.

Definition write_error `{HttpCrates} (error : IoError) : ApiError :=
  match kind error with
  | NotFound => not_found
  | AlreadyExists | DirectoryNotEmpty | IsADirectory | NotADirectory | CrossesDevices => error_http 409
  | InvalidFilename => explained 400 "The filesystem refuses the name, which may be too long."
  | InvalidInput => error_http 400
  | StorageFull | QuotaExceeded => error_http 507
  | PermissionDenied | ReadOnlyFilesystem => error_http 403
  | BrokenPipe | OtherKind => host_error (Internal (io_text error))
  end.

Section reading.
Context `{HttpCrates} `{GlobCrate} `{FilesCrates} `{FileSystem}.

(** [OpenMount::open]. *)
Definition open_mount (resolved : ResolvedMount) : Io (result OpenMount ApiError) :=
  match exclusion_new (exclude resolved) with
  | Err error => io_ret (Err (host_error (Internal ("invalid `exclude` pattern: " +:+ error))))
  | Ok exclusion =>
      let~? canonical := io_map (or_error not_found) (call (reads (fun d => canonical_text d (resolved_path resolved)))) in
      io_ret (Ok {| root := canonical; exclusion := exclusion; reveal_paths := reveals resolved |})
  end.

(** [OpenMount::relative]. *)
Definition relative (self : OpenMount) (canonical : Path) : option string :=
  names ← strip_path (root self) canonical; Some (str_join "/" (to_string_lossy <$> names)).

Definition outside_excluded (self : OpenMount) (canonical : Path) : option Path :=
  text ← relative self canonical; if excludes (exclusion self) text then None else Some canonical.

(** [OpenMount::admit]. *)
Definition admit_path (self : OpenMount) (path : Path) : Io (option Path) :=
  let~ found := call (reads (fun d => canonical d path)) in
  io_ret match found with Ok canonical => outside_excluded self canonical | Err _ => None end.

(** [sweep_if_stale]. *)
Definition elapsed (now modified : Z) : option Z := if modified <=? now then Some (now - modified) else None.

Definition sweep_if_stale (path : Path) : Io bool :=
  let~ found := call (lstat path) in
  match found with
  | Err _ => io_ret false
  | Ok metadata =>
      match (if is_file metadata then modified (inode metadata) else None) with
      | None => io_ret false
      | Some modified =>
          let~ read := call (reads (fun d => Ok (now d))) in
          match (match read with Ok now => elapsed now modified | Err _ => None end) with
          | Some age =>
              if PART_LIFETIME <? age then
                let~ removed := call (remove_file path) in io_ret (is_ok removed)
              else io_ret false
          | None => io_ret false
          end
      end
  end.

(** The heap of [OpenMount::list], as its names in order, the largest last. *)
Fixpoint heap_push (candidate : Candidate) (kept : list Candidate) : list Candidate :=
  match kept with
  | [] => [candidate]
  | first :: rest =>
      match Strings.String.compare (candidate_name candidate) (candidate_name first) with
      | Lt => candidate :: kept
      | _ => first :: heap_push candidate rest
      end
  end.

Definition keep (candidate : Candidate) (kept : list Candidate) : list Candidate :=
  let kept := heap_push candidate kept in
  if LISTING_CAP + 1 <? Z.of_nat (length kept) then removelast kept else kept.

Definition name_le (a b : string) : bool :=
  match Strings.String.compare a b with Gt => false | _ => true end.

(** Whether a listing passes over a name. *)
Definition passed_over (self : OpenMount) (query : FileQuery) (prefix name : string) : bool :=
  match after query with Some after => name_le name after | None => false end ||
  excludes (exclusion self) (prefix +:+ name).

Fixpoint list_names (self : OpenMount) (directory : Path) (query : FileQuery) (prefix : string)
    (names : list string) (kept : list Candidate) : Io (list Candidate) :=
  match names with
  | [] => io_ret kept
  | os_name :: names =>
      let~ entry := call (reads (fun _ => Ok tt)) in
      match entry with
      | Err _ => list_names self directory query prefix names kept
      | Ok _ =>
          let unicode := is_utf8 os_name in
          let name := to_string_lossy os_name in
          let path := directory ++ [os_name] in
          let~ swept := if unicode && is_part name then sweep_if_stale path else io_ret false in
          if swept || passed_over self query prefix name then list_names self directory query prefix names kept
          else
            list_names self directory query prefix names
              (keep {| candidate_name := name; candidate_path := path; unicode := unicode |} kept)
      end
  end.

(** [OpenMount::describe]. *)
Definition describe (self : OpenMount) (candidate : Candidate) : Io (result (option FileEntry) ApiError) :=
  let name := candidate_name candidate in
  let entry kind metadata := io_ret (let* entry := entry_new name kind metadata in Ok (Some entry)) in
  if negb (unicode candidate) then entry OtherEntry None
  else
    let~ found := call (lstat (candidate_path candidate)) in
    match found with
    | Err _ => entry OtherEntry None
    | Ok metadata =>
        if negb (is_symlink metadata) then entry (kind_of metadata) (Some metadata)
        else
          let~ resolved := call (reads (fun d => canonical d (candidate_path candidate))) in
          match resolved with
          | Err _ => entry OtherEntry (Some metadata)
          | Ok canonical =>
              match relative self canonical with
              | None => entry OtherEntry (Some metadata)
              | Some text =>
                  if excludes (exclusion self) text then io_ret (Ok None)
                  else
                    let~ target := call (stat canonical) in
                    match target with
                    | Err _ => io_ret (Ok None)
                    | Ok target => entry (kind_of target) (Some target)
                    end
              end
          end
    end.

Fixpoint describe_all (self : OpenMount) (candidates : list Candidate) : Io (result (list FileEntry) ApiError) :=
  match candidates with
  | [] => io_ret (Ok [])
  | candidate :: candidates =>
      let~? described := describe self candidate in
      let~? rest := describe_all self candidates in
      io_ret (Ok match described with Some entry => entry :: rest | None => rest end)
  end.

(** [OpenMount::list]. *)
Definition list_directory (self : OpenMount) (directory : Path) (query : FileQuery) :
    Io (result FileListing ApiError) :=
  let above := default "" (relative self directory) in
  let prefix := if decide (above = "") then "" else above +:+ "/" in
  let~? names := io_map (or_error not_found) (call (read_dir directory)) in
  let~ candidates := list_names self directory query prefix names [] in
  let truncated := LISTING_CAP <? Z.of_nat (length candidates) in
  let~? entries := describe_all self (take (Z.to_nat LISTING_CAP) candidates) in
  io_ret (Ok {| entries := entries; truncated := truncated |}).

(** [OpenMount::archive]. *)
Fixpoint check_wanted (self : OpenMount) (canonical : Path) (above : string) (wanted : list string) :
    Io (result unit ApiError) :=
  match wanted with
  | [] => io_ret (Ok tt)
  | entry :: wanted =>
      match split_path entry with
      | Err error => io_ret (Err error)
      | Ok [name] =>
          if excludes (exclusion self) (join_relative above name) then io_ret (Err not_found)
          else
            let~ found := admit_path self (join canonical entry) in
            match found with
            | None => io_ret (Err not_found)
            | Some _ => check_wanted self canonical above wanted
            end
      | Ok _ => io_ret (Err (error_http 400))
      end
  end.

(** [sort_unstable] and [dedup] of texts. *)
Fixpoint insert_text (text : string) (texts : list string) : list string :=
  match texts with
  | [] => [text]
  | first :: rest =>
      match Strings.String.compare text first with
      | Lt => text :: texts
      | Eq => texts
      | Gt => first :: insert_text text rest
      end
  end.
Definition sort_dedup (texts : list string) : list string := foldr insert_text [] texts.

Definition archive_of (self : OpenMount) (canonical : Path) (query : FileQuery) : Io (result Archive ApiError) :=
  let above := default "" (relative self canonical) in
  let entries := sort_dedup (wanted query) in
  let~? _ := check_wanted self canonical above entries in
  let stem := match file_name canonical with Some name => to_string_lossy name | None => "files" end in
  io_ret (Ok {| archive_directory := canonical; archive_relative := above; archive_entries := entries;
                archive_hidden := hidden query; archive_name := stem +:+ ".zip" |}).

(** [VerifiedFile::open]. *)
Definition open_verified (canonical : Path) (walked : Metadata) : Io (option VerifiedFile) :=
  let~ opened := call (open_nofollow canonical) in
  match opened with
  | Err _ => io_ret None
  | Ok file =>
      let~ read := call (file_metadata (ino file)) in
      match read with
      | Err _ => io_ret None
      | Ok metadata =>
          if is_file metadata && default true (same_file walked metadata) then
            io_ret (Some {| verified_path := canonical; verified := metadata; handle := Some (ino file) |})
          else io_ret None
      end
  end.

(** [Backend::open] and [Backend::metadata] of [VerifiedFile]. *)
Definition backend_open (self : VerifiedFile) (path : Path) : Io_result (Z * Metadata) * VerifiedFile :=
  if decide (path = verified_path self) then
    match handle self with
    | Some file =>
        (Ok (file, verified self),
         {| verified_path := verified_path self; verified := verified self; handle := None |})
    | None => (Err (plain_error NotFound), self)
    end
  else (Err (plain_error NotFound), self).

Definition backend_metadata (self : VerifiedFile) (path : Path) : Io_result Metadata :=
  if decide (path = verified_path self) then Ok (verified self) else Err (plain_error NotFound).

(** [to_string_lossy] of a whole path. *)
Definition display_path (path : Path) : string := "/" +:+ to_string_lossy (str_join "/" path).

(** [OpenMount::find]. *)
Definition find (self : OpenMount) (names : list string) (query : FileQuery) : Io (result Found ApiError) :=
  if excludes (exclusion self) (str_join "/" names) then io_ret (Err not_found)
  else
    let~? canonical := io_map (ok_or not_found) (admit_path self (foldl join (root self) names)) in
    let~? metadata := io_map (or_error not_found) (call (stat canonical)) in
    let name := default "" (last names) in
    if wants_stat query then
      io_ret (let* entry := entry_new name (kind_of metadata) (Some metadata) in
              Ok (FoundStat {| stat_entry := entry;
                               stat_path := if reveal_paths self then Some (display_path canonical) else None |}))
    else if negb (bool_decide (wanted query = [])) && (negb (download query) || negb (is_dir metadata)) then
      io_ret (Err (error_http 400))
    else if is_dir metadata then
      if download query then
        let~? archive := archive_of self canonical query in io_ret (Ok (FoundArchive archive))
      else let~? listing := list_directory self canonical query in io_ret (Ok (FoundListing listing))
    else if is_file metadata then
      let~? file := io_map (ok_or not_found) (open_verified canonical metadata) in
      io_ret (Ok (FoundFile file name))
    else io_ret (Err not_found).

(** ** Walks

    A visit goes on with [None] and breaks with [Some]. No path the system
    takes has more names than [PATH_MAX] has room for, and a walk that deep is
    answered the system's refusal. *)
Definition WALK_DEPTH : nat := 2048.
Definition ENAMETOOLONG : IoError := os_error InvalidFilename 36 "File name too long".

(** One entry: what the walk makes of it. *)
Inductive Reached := Visits (walked : Walked) | Descends (metadata : Metadata) | Passes.

Definition reach (self : OpenMount) (relative : string) (path : Path) : Io (Io_result Reached) :=
  let~? found := call (lstat path) in
  if excludes (exclusion self) relative then io_ret (Ok (Visits WalkedExcluded))
  else if is_dir found then let~? metadata := call (lstat path) in io_ret (Ok (Descends metadata))
  else if is_file found then let~? metadata := call (lstat path) in io_ret (Ok (Visits (WalkedFile path metadata)))
  else if is_symlink found then
    let~ admitted := admit_path self path in
    match admitted with
    | None => io_ret (Ok Passes)
    | Some target =>
        let~ read := call (stat target) in
        io_ret (Ok match read with
                   | Ok metadata => if is_file metadata then Visits (WalkedLink target metadata) else Passes
                   | Err _ => Passes
                   end)
    end
  else io_ret (Ok Passes).

Definition walks_over (hidden : bool) (name : string) : bool :=
  negb hidden && str_starts_with "." name || is_part name.

(** [OpenMount::walk_below]; what a visit captures mutably is a state it is
    given and gives on. *)
Fixpoint walk_below {S B} (fuel : nat) (self : OpenMount) (hidden : bool)
    (visit : S -> string -> Walked -> Io (Io_result (S * option B))) (s : S) (directory : Path)
    (relative below : string) : Io (Io_result (S * option B)) :=
  match fuel with
  | O => io_ret (Err ENAMETOOLONG)
  | S fuel =>
      let~? names := call (read_dir directory) in
      (fix each (names : list string) (s : S) : Io (Io_result (S * option B)) :=
         match names with
         | [] => io_ret (Ok (s, None))
         | os_name :: names =>
             let~? _ := call (reads (fun _ => Ok tt)) in
             let name := to_string_lossy os_name in
             if walks_over hidden name then each names s
             else
               let relative := join_relative relative name in
               let below := join_relative below name in
               let path := directory ++ [os_name] in
               let~? reached := reach self relative path in
               let~? flow :=
                 match reached with
                 | Visits walked => visit s below walked
                 | Descends metadata =>
                     let~? flow := visit s below (WalkedDirectory metadata) in
                     match flow with
                     | (s, None) => walk_below fuel self hidden visit s path relative below
                     | (s, Some broken) => io_ret (Ok (s, Some broken))
                     end
                 | Passes => io_ret (Ok (s, None))
                 end in
               match flow with (s, Some broken) => io_ret (Ok (s, Some broken)) | (s, None) => each names s end
         end) names s
  end.

(** [OpenMount::walk]. *)
Definition walk {S B} (self : OpenMount) (directory : Path) (relative : string) (hidden : bool)
    (visit : S -> string -> Walked -> Io (Io_result (S * option B))) (s : S) : Io (Io_result (S * option B)) :=
  walk_below WALK_DEPTH self hidden visit s directory relative "".

(** [OpenMount::holds_excluded]. *)
Definition break_excluded (s : unit) (below : string) (walked : Walked) : Io (Io_result (unit * option unit)) :=
  io_ret (Ok (tt, match walked with WalkedExcluded => Some tt | _ => None end)).

Definition holds_excluded (self : OpenMount) (directory : Path) (relative : string) : Io (Io_result bool) :=
  let~? found := walk self directory relative true break_excluded tt in
  io_ret (Ok (bool_decide (snd found <> None))).
End reading.
