(* ===== verification/FilesServer.v ===== *)
(** * Writing served files

    [ceres-server/src/api/files.rs], what a request writes: uploads through a
    part beside the target, directories made, moves, copies and deletions; and
    archives, written to the client.

    The parts after this one: serving files. *)
From S2P Require Import Prelude.
From stdpp Require Import pretty.
From S2P Require Import Text Selector Schema Wire Json Http Host Auth Server Disk Config Files.
Local Open Scope string_scope.
Local Open Scope list_scope.
Local Open Scope Z_scope.
Local Open Scope ceres_scope.

Record WriteTarget := { target_parent : Path; target_name : string; target_relative : string }.

(** [WriteTarget::path]. *)
Definition target_path (self : WriteTarget) : Path := target_parent self ++ [target_name self].

(** [cfg!(windows)]: the file system modelled is Unix's. *)
Definition windows : bool := false.

(** [is_windows_reserved]. *)
Definition eq_ignore_case (a b : string) : bool := bool_decide (to_lowercase a = to_lowercase b).

Definition is_windows_reserved (name : string) : bool :=
  let stem := trim_end match str_split "." name with stem :: _ => stem | [] => name end in
  let numbered (prefix : string) : bool :=
    (String.length stem =? 4)%nat && eq_ignore_case (String.substring 0 3 stem) prefix &&
    match String.get 3 stem with Some digit => ascii_between "1" "9" digit | None => false end in
  str_ends_with "." name || str_ends_with " " name ||
  existsb (eq_ignore_case stem) ["CON"; "PRN"; "AUX"; "NUL"] || numbered "COM" || numbered "LPT".

(** ** Conditions *)

Record UploadConditions := { create_only : bool; if_match : option string }.

Section writing.
Context `{HttpCrates} `{GlobCrate} `{FilesCrates} `{FileSystem} `{Uuids}.

(** [UploadConditions::parse]. *)
Definition header_text (headers : HeaderMap) (name : string) : option string :=
  text ← get name headers ≫= to_str; Some (trim text).

Definition conditions_parse (headers : HeaderMap) : UploadConditions :=
  {| create_only := bool_decide (header_text headers "if-none-match" = Some "*");
     if_match := header_text headers "if-match" |}.

(** Digits in base sixteen, as [{:x}] writes them, and padded as [{:08x}]. *)
Definition hex_digit (digit : Z) : ascii :=
  Strings.Ascii.ascii_of_nat (Z.to_nat (if digit <? 10 then 48 + digit else 87 + digit)).
Fixpoint hex_digits (fuel : nat) (value : Z) (text : string) : string :=
  match fuel with
  | O => text
  | S fuel =>
      let text := String (hex_digit (value mod 16)) text in
      if value / 16 =? 0 then text else hex_digits fuel (value / 16) text
  end.
Definition hex (value : Z) : string := hex_digits 16 value "".
Fixpoint zeros (count : nat) : string := match count with O => "" | S count => String "0" (zeros count) end.
Definition hex8 (value : Z) : string :=
  let text := hex value in zeros (8 - String.length text) +:+ text.

(** [etag]: none before the epoch. *)
Definition etag (metadata : Metadata) : option string :=
  match modified (inode metadata) with
  | Some time =>
      if time <? 0 then None
      else Some (String quote (hex (time / 1000000000) +:+ "." +:+ hex8 (time mod 1000000000) +:+ "-" +:+
                               hex (len metadata) +:+ String quote ""))
  | None => None
  end.

(** [UploadConditions::check]. *)
Definition conditions_check (self : UploadConditions) (existing : option Metadata) : result unit ApiError :=
  match existing with
  | None => match if_match self with Some _ => Err (error_http 412) | None => Ok tt end
  | Some existing =>
      if negb (is_file existing) then Err (error_http 409)
      else
        let matched :=
          match if_match self with
          | None => true
          | Some tags =>
              existsb (fun tag => bool_decide (tag = "*") || bool_decide (Some tag = etag existing))
                (trim <$> str_split "," tags)
          end in
        if create_only self || negb matched then Err (error_http 412) else Ok tt
  end.

(** ** Targets *)

(** [OpenMount::target]. *)
Definition target (self : OpenMount) (names : list string) : Io (result WriteTarget ApiError) :=
  match last names with
  | None => io_ret (Err (error_http 400))
  | Some name =>
      if windows && is_windows_reserved name then io_ret (Err (error_http 400))
      else if excludes (exclusion self) (str_join "/" names) then io_ret (Err not_found)
      else
        let~? parent := io_map (ok_or not_found) (admit_path self (foldl join (root self) (removelast names))) in
        let~ found := call (stat parent) in
        if negb match found with Ok metadata => is_dir metadata | Err _ => false end then io_ret (Err not_found)
        else
          let relative := join_relative (default "" (relative self parent)) name in
          if excludes (exclusion self) relative then io_ret (Err not_found)
          else io_ret (Ok {| target_parent := parent; target_name := name; target_relative := relative |})
  end.

(** [WriteTarget::existing]. *)
Definition existing (self : WriteTarget) : Io (result (option Metadata) ApiError) :=
  let~ found := call (lstat (target_path self)) in
  io_ret match found with
         | Ok metadata => Ok (Some metadata)
         | Err error => if decide (kind error = NotFound) then Ok None else Err (write_error error)
         end.

(** [OpenMount::refuse_excluded_below]. *)
Definition refuse_excluded_below (self : OpenMount) (target : WriteTarget) (metadata : Metadata) :
    Io (result unit ApiError) :=
  if is_dir metadata && negb (exclusion_is_empty (exclusion self)) then
    let~ held := holds_excluded self (target_path target) (target_relative target) in
    io_ret match held with
           | Ok true => Err (error_http 409)
           | Ok false => Ok tt
           | Err error => Err (write_error error)
           end
  else io_ret (Ok tt).

(** [rename_without_replacing], with [EINVAL], [ENOSYS] and [ENOTSUP] for a
    file system that cannot. *)
Definition is_unsupported (error : IoError) : bool :=
  match raw_os_error error with Some errno => (errno =? 22) || (errno =? 38) || (errno =? 95) | None => false end.

Definition rename_without_replacing (from to : Path) : Io (Io_result unit) :=
  let~ renamed := call (renameat2 from to) in
  match renamed with
  | Err error => if is_unsupported error then call (rename_call from to) else io_ret (Err error)
  | Ok _ => io_ret renamed
  end.

(** ** Parts

    [PartFile]: the path it still has to remove. *)
Definition part_path (target : WriteTarget) (id : string) : Path :=
  target_parent target ++ ["." +:+ target_name target +:+ "." +:+ id +:+ ".part"].

(** [PartFile::beside]. *)
Definition beside (target : WriteTarget) : Io Path := let~ id := new_v4 in io_ret (part_path target id).

(** [PartFile::remove], [discard] and [drop]. *)
Definition remove_part (path : Path) : Io unit :=
  let~ found := call (lstat path) in
  let~ _ := match found with
            | Ok metadata => if is_dir metadata then remove_dir_all path else call (remove_file path)
            | Err _ => call (remove_file path)
            end in
  io_ret tt.

Definition discard (part : option Path) : Io unit :=
  match part with Some path => remove_part path | None => io_ret tt end.

(** [PartFile::place]: the part is left behind on an error. *)
Definition place (part : Path) (target : WriteTarget) (replace : bool) : Io (Io_result unit * option Path) :=
  let~ placed := if replace then call (rename_call part (target_path target))
                 else rename_without_replacing part (target_path target) in
  io_ret match placed with Ok _ => (Ok tt, None) | Err error => (Err error, Some part) end.

Definition expired : ApiError := explained 409 "The upload expired before it finished.".

(** [PartFile::commit]: whether nothing stood there before, and the part still
    to remove. *)
Definition commit (part : Path) (target : WriteTarget) (conditions : UploadConditions) :
    Io (result bool ApiError * option Path) :=
  let~ found := existing target in
  match found with
  | Err error => io_ret (Err error, Some part)
  | Ok found =>
      match conditions_check conditions found with
      | Err error => io_ret (Err error, Some part)
      | Ok _ =>
          let~ linked := if create_only conditions then call (hard_link part (target_path target))
                         else io_ret (Err (plain_error OtherKind)) in
          match linked with
          | Ok _ => io_ret (Ok true, Some part)
          | Err error =>
              if create_only conditions && bool_decide (kind error = AlreadyExists) then
                io_ret (Err (error_http 412), Some part)
              else
                let~ renamed := call (rename_call part (target_path target)) in
                io_ret match renamed with
                       | Ok _ => (Ok (bool_decide (found = None)), None)
                       | Err error =>
                           (Err (if decide (kind error = NotFound) then expired else write_error error), Some part)
                       end
          end
      end
  end.

(** ** Uploads

    A body is its chunks, [None] where reading it fails. *)
Definition Chunks : Type := list (option string).

(** [write_body]. *)
Fixpoint write_chunks (file : Z) (chunks : Chunks) (limit : option Z) (written : Z) : Io (result unit ApiError) :=
  match chunks with
  | [] =>
      let~? _ := io_map (fun synced => match synced with Ok _ => Ok tt | Err error => Err (write_error error) end) sync in
      io_map (fun synced => match synced with Ok _ => Ok tt | Err error => Err (write_error error) end) sync
  | None :: _ => io_ret (Err (error_http 400))
  | Some chunk :: chunks =>
      let written := written +u Z.of_nat (String.length chunk) in
      if match limit with Some limit => limit <? written | None => false end then io_ret (Err (error_http 413))
      else
        let~ stored := write_all file chunk in
        match stored with
        | Err error => io_ret (Err (write_error error))
        | Ok _ => write_chunks file chunks limit written
        end
  end.

Definition write_body (file : Z) (chunks : Chunks) (limit : option Z) : Io (result unit ApiError) :=
  write_chunks file chunks limit 0.

(** The first blocking half of [upload]: the target, the part beside it and
    its open file. *)
Definition upload_begin (resolved : ResolvedMount) (names : list string) (conditions : UploadConditions) :
    Io (result (WriteTarget * Path * Z) ApiError) :=
  let~? root := open_mount resolved in
  let~? target := target root names in
  if is_part (target_name target) then io_ret (Err (error_http 400))
  else
    let~? found := existing target in
    match conditions_check conditions found with
    | Err error => io_ret (Err error)
    | Ok _ =>
        let~ part := beside target in
        let~ made := call (create_new part) in
        match made with
        | Ok file => io_ret (Ok (target, part, file))
        | Err error => let~ _ := remove_part part in io_ret (Err (write_error error))
        end
    end.

(** The second: the part moved into place, and removed if it was not. *)
Definition upload_finish (streamed : result unit ApiError) (part : Path) (target : WriteTarget)
    (conditions : UploadConditions) : Io (result bool ApiError) :=
  let~ committed := match streamed with
                    | Ok _ => commit part target conditions
                    | Err error => io_ret (Err error, Some part)
                    end in
  let~ _ := discard (snd committed) in
  io_ret (fst committed).

Definition empty_response (code : Z) : Response := {| status := code; headers := []; body := TextBody "" |}.

Definition declared_length (headers : HeaderMap) : option Z :=
  text ← get "content-length" headers ≫= to_str; parse_unsigned u64_max text.

(** [upload]. *)
Definition upload (resolved : ResolvedMount) (names : list string) (headers : HeaderMap) (chunks : Chunks) :
    Io (result Response ApiError) :=
  let limit := max_upload resolved in
  if match limit, declared_length headers with Some limit, Some declared => limit <? declared | _, _ => false end
  then io_ret (Err (error_http 413))
  else
    let conditions := conditions_parse headers in
    let~? begun := upload_begin resolved names conditions in
    let '(target, part, file) := begun in
    let~ streamed := write_body file chunks limit in
    let~? created := upload_finish streamed part target conditions in
    io_ret (Ok (empty_response (if (created : bool) then 201 else 204))).

(** [create_directory]. *)
Definition create_directory (resolved : ResolvedMount) (names : list string) : Io (result Response ApiError) :=
  let~? root := open_mount resolved in
  let~? target := target root names in
  let~ made := call (create_dir (target_path target)) in
  io_ret match made with Ok _ => Ok (empty_response 201) | Err error => Err (write_error error) end.

(** ** Moves, copies and deletions *)

(** [DestinationBody::read]; [to_bytes] fails past its limit. *)
Fixpoint collect_body (chunks : Chunks) (held : string) : option string :=
  match chunks with
  | [] => Some held
  | None :: _ => None
  | Some chunk :: chunks => collect_body chunks (held +:+ chunk)
  end.

Definition destination_read (chunks : Chunks) : result (list string) ApiError :=
  match collect_body chunks "" with
  | Some bytes =>
      if DESTINATION_BODY_LIMIT <? Z.of_nat (String.length bytes) then Err (error_http 400)
      else match read_destination bytes with Some to => split_path to | None => Err (error_http 400) end
  | None => Err (error_http 400)
  end.

(** Whether a move takes the place of what stands at its destination. *)
Definition move_replaces (source destination : WriteTarget) (moved : Metadata) (there : option Metadata)
    (overwrite : bool) : result bool ApiError :=
  let case_only := bool_decide (target_parent destination = target_parent source) &&
                   bool_decide (unicode_lowercase (target_name destination) = unicode_lowercase (target_name source)) in
  match there with
  | Some there =>
      if bool_decide (same_file moved there = Some true) then
        if negb case_only then Err (error_http 409) else Ok true
      else if is_dir there || negb overwrite then Err (error_http 409) else Ok true
  | None => Ok false
  end.

(** [rename]. *)
Definition rename (resolved : ResolvedMount) (names : list string) (query : FileQuery) (chunks : Chunks) :
    Io (result Response ApiError) :=
  match destination_read chunks with
  | Err error => io_ret (Err error)
  | Ok destination =>
      let~? root := open_mount resolved in
      let~? source := target root names in
      let~? destination := target root destination in
      if is_part (target_name destination) then io_ret (Err (error_http 400))
      else
        let~? found := existing source in
        match found with
        | None => io_ret (Err not_found)
        | Some moved =>
            if is_dir moved && starts_with (target_parent destination) (target_path source) then
              io_ret (Err (error_http 400))
            else
              let~? there := existing destination in
              match move_replaces source destination moved there (overwrite query) with
              | Err error => io_ret (Err error)
              | Ok replace =>
                  let~? _ := refuse_excluded_below root source moved in
                  let~ renamed := if replace then call (rename_call (target_path source) (target_path destination))
                                  else rename_without_replacing (target_path source) (target_path destination) in
                  io_ret match renamed with
                         | Ok _ => Ok (empty_response 204)
                         | Err error => Err (write_error error)
                         end
              end
        end
  end.

(** [OpenMount::copy_entry]. *)
Definition copy_visit (to : Path) (s : unit) (below : string) (walked : Walked) :
    Io (Io_result (unit * option Empty_set)) :=
  let~? _ := match walked with
             | WalkedDirectory _ => call (create_dir (join to below))
             | WalkedFile path _ => fs_copy path (join to below)
             | WalkedLink _ _ | WalkedExcluded => io_ret (Ok tt)
             end in
  io_ret (Ok (tt, None)).

Definition copy_entry (self : OpenMount) (source : WriteTarget) (metadata : Metadata) (to : Path) :
    Io (Io_result unit) :=
  if is_file metadata then fs_copy (target_path source) to
  else
    let~? _ := call (create_dir to) in
    let~? _ := walk self (target_path source) (target_relative source) true (copy_visit to) tt in
    io_ret (Ok tt).

Definition copy_replaces (copied : Metadata) (there : option Metadata) (overwrite : bool) : result bool ApiError :=
  match there with
  | Some there =>
      if overwrite && is_file copied && is_file there && negb (bool_decide (same_file copied there = Some true))
      then Ok true else Err (error_http 409)
  | None => Ok false
  end.

(** The part of [copy] that writes. *)
Definition copy_through (root : OpenMount) (source destination : WriteTarget) (copied : Metadata) (replace : bool) :
    Io (Io_result unit) :=
  let~ part := beside destination in
  let~ written := copy_entry root source copied part in
  let~ placed := match written with
                 | Ok _ => place part destination replace
                 | Err error => io_ret (Err error, Some part)
                 end in
  let~ _ := discard (snd placed) in
  io_ret (fst placed).

(** [copy]. *)
Definition copy (resolved : ResolvedMount) (names : list string) (query : FileQuery) (chunks : Chunks) :
    Io (result Response ApiError) :=
  match destination_read chunks with
  | Err error => io_ret (Err error)
  | Ok destination =>
      let~? root := open_mount resolved in
      let~? source := target root names in
      let~? destination := target root destination in
      if is_part (target_name destination) then io_ret (Err (error_http 400))
      else
        let~? found := existing source in
        match found with
        | None => io_ret (Err not_found)
        | Some copied =>
            if negb (is_file copied || is_dir copied) ||
               is_dir copied && starts_with (target_parent destination) (target_path source) then
              io_ret (Err (error_http 400))
            else
              let~? there := existing destination in
              match copy_replaces copied there (overwrite query) with
              | Err error => io_ret (Err error)
              | Ok replace =>
                  let~? _ := refuse_excluded_below root source copied in
                  let~ written := copy_through root source destination copied replace in
                  io_ret match written with
                         | Ok _ => Ok (empty_response 201)
                         | Err error => Err (write_error error)
                         end
              end
        end
  end.

(** [delete]. *)
Definition delete_entry (resolved : ResolvedMount) (names : list string) (query : FileQuery) :
    Io (result Response ApiError) :=
  let~? root := open_mount resolved in
  let~? target := target root names in
  let~? found := existing target in
  match found with
  | None => io_ret (Err not_found)
  | Some there =>
      let~? removed :=
        if negb (is_dir there) then let~ removed := call (remove_file (target_path target)) in io_ret (Ok removed)
        else if recursive query then
          let~? _ := refuse_excluded_below root target there in
          let~ removed := remove_dir_all (target_path target) in io_ret (Ok removed)
        else let~ removed := call (remove_dir (target_path target)) in io_ret (Ok removed) in
      io_ret match removed with Ok _ => Ok (empty_response 204) | Err error => Err (write_error error) end
  end.
End writing.

(** * Serving files

    [ceres-server/src/api/files.rs], a request answered: archives written as
    zips and sent in chunks, downloads, and [respond], which asks the host for
    the mount and then works on the file system. The host is asked before the
    file system, so a request is a program of [Host] that gives a program of
    [Disk]. *)

(** ** Chunks of a body *)

(** [BodyWriter]: what it holds, and what it sent, latest last; a send fails
    once the response is dropped. *)
Record BodyWriter := { sent : list string; buffer : string }.

Definition body_writer : BodyWriter := {| sent := []; buffer := "" |}.

Definition send (open_ : bool) (self : BodyWriter) : Io_result unit * BodyWriter :=
  if open_ then (Ok tt, {| sent := sent self ++ [buffer self]; buffer := "" |})
  else (Err (plain_error BrokenPipe), {| sent := sent self; buffer := "" |}).

(** [Write::write] and [Write::flush] of [BodyWriter]. *)
Definition writer_write (open_ : bool) (data : string) (self : BodyWriter) : Io_result Z * BodyWriter :=
  let taken := Z.min (Z.of_nat (String.length data)) (ARCHIVE_CHUNK - Z.of_nat (String.length (buffer self))) in
  let self := {| sent := sent self; buffer := buffer self +:+ String.substring 0 (Z.to_nat taken) data |} in
  if Z.of_nat (String.length (buffer self)) =? ARCHIVE_CHUNK then
    match send open_ self with
    | (Ok _, self) => (Ok taken, self)
    | (Err error, self) => (Err error, self)
    end
  else (Ok taken, self).

Definition writer_flush (open_ : bool) (self : BodyWriter) : Io_result unit * BodyWriter :=
  if decide (buffer self = "") then (Ok tt, self) else send open_ self.

(** [Write::write_all]: until everything is taken. *)
Fixpoint writer_write_all (fuel : nat) (open_ : bool) (data : string) (self : BodyWriter) :
    Io_result unit * BodyWriter :=
  match fuel with
  | O => (Ok tt, self)
  | S fuel =>
      if decide (data = "") then (Ok tt, self)
      else match writer_write open_ data self with
      | (Ok taken, self) =>
          writer_write_all fuel open_
            (String.substring (Z.to_nat taken) (String.length data - Z.to_nat taken) data) self
      | (Err error, self) => (Err error, self)
      end
  end.

(** ** Archives *)

Record MemberOptions := { large_file : bool; dated : option string; unix_permissions : Z }.
Inductive Member :=
  | FileMember (name : string) (options : MemberOptions) (bytes : string)
  | DirectoryMember (name : string) (options : MemberOptions).

(** [zip]: when it can date an instant, and whether a writer that has written
    some members takes another, over a sink that may be closed. *)
Class ZipCrate := {
  zip_date : Z -> option string;
  zip_takes : list Member -> Member -> Io_result unit;
  zip_finishes : list Member -> Io_result unit
}.

Section serving.
Context `{HttpCrates} `{TokenCrate} `{GlobCrate} `{FilesCrates} `{FileSystem} `{Uuids} `{ZipCrate} `{RegexCrate}.

Definition member_options (metadata : Metadata) : MemberOptions :=
  {| large_file := 2147483647 <? len metadata; dated := modified (inode metadata) ≫= zip_date;
     unix_permissions := permissions (inode metadata) |}.

Definition take_member (zip : list Member) (member : Member) : Io_result (list Member) :=
  let* _ := zip_takes zip member in Ok (zip ++ [member]).

(** [add_member]. *)
Definition add_member (zip : list Member) (name : string) (walked : Walked) : Io (Io_result (list Member)) :=
  match walked with
  | WalkedFile path metadata | WalkedLink path metadata =>
      let~? file := call (open_nofollow path) in
      let~? bytes := call (read_handle (ino file)) in
      io_ret (take_member zip (FileMember name (member_options metadata) bytes))
  | WalkedDirectory metadata => io_ret (take_member zip (DirectoryMember name (member_options metadata)))
  | WalkedExcluded => io_ret (Ok zip)
  end.

Definition archive_visit (above : string) (zip : list Member) (below : string) (walked : Walked) :
    Io (Io_result (list Member * option Empty_set)) :=
  let~? zip := add_member zip (above +:+ below) walked in io_ret (Ok (zip, None)).

(** The loop of [write_archive] over the names asked for. *)
Fixpoint write_wanted (self : OpenMount) (archive : Archive) (wanted : list string) (zip : list Member) :
    Io (Io_result (list Member)) :=
  match wanted with
  | [] => io_ret (Ok zip)
  | entry :: wanted =>
      let~ admitted := admit_path self (join (archive_directory archive) entry) in
      match admitted with
      | None => io_ret (Err (plain_error NotFound))
      | Some path =>
          let~? metadata := call (stat path) in
          let~? zip :=
            if is_file metadata then add_member zip entry (WalkedFile path metadata)
            else if is_dir metadata then
              let~? zip := add_member zip entry (WalkedDirectory metadata) in
              let~? walked := walk self path (default "" (relative self path)) (archive_hidden archive)
                                (archive_visit (entry +:+ "/")) zip in
              io_ret (Ok (fst walked))
            else io_ret (Ok zip) in
          write_wanted self archive wanted zip
      end
  end.

(** [write_archive]. *)
Definition write_archive (self : OpenMount) (archive : Archive) : Io (Io_result (list Member)) :=
  let~? walked :=
    if bool_decide (archive_entries archive = []) then
      walk self (archive_directory archive) (archive_relative archive) (archive_hidden archive) (archive_visit "") []
    else io_ret (Ok ([], None)) in
  let~? zip := write_wanted self archive (archive_entries archive) (fst walked) in
  io_ret (let* _ := zip_finishes zip in Ok zip).

(** [attachment]: the name's characters a header holds, and the name encoded. *)
Definition graphic (c : ascii) : bool := byte_in 33 126 c.

Fixpoint fallback (name : string) : string :=
  match name with
  | EmptyString => ""
  | String c name =>
      if tail_byte c then fallback name
      else String (if Strings.Ascii.eqb c " " ||
                      graphic c && negb (Strings.Ascii.eqb c quote) && negb (Strings.Ascii.eqb c "\")
                   then c else "_"%char) (fallback name)
  end.

Definition attachment (name : string) : string :=
  default "attachment"
    (header_value ("attachment; filename=" +:+ String quote (fallback name +:+ String quote
      ("; filename*=UTF-8''" +:+ percent_encode name)))).

(** ** Answers *)

Inductive Method := GET | HEAD | PUT | POST | PATCH | DELETE | OtherMethod (name : string).
#[export] Instance method_eq_dec : EqDecision Method.
Proof. solve_decision. Defined.
Definition method_text (self : Method) : string :=
  match self with
  | GET => "GET" | HEAD => "HEAD" | PUT => "PUT" | POST => "POST" | PATCH => "PATCH" | DELETE => "DELETE"
  | OtherMethod name => name
  end.

(** A request, and its answer: a response, or an archive's headers and, unless
    only they were asked for, what became of the archive. *)
Record FileRequest := {
  method : Method; file_query : option string; file_headers : HeaderMap; chunks : Chunks
}.
Inductive FileAnswer :=
  | Plain (response : Response)
  | Streamed (headers : HeaderMap) (written : option (Io_result (list Member))).

Definition entry_kind_text (kind : EntryKind) : string :=
  match kind with FileKind => "file" | DirectoryKind => "directory" | OtherEntry => "other" end.
Definition opt_json {A} (to_json : A -> Jvalue) (value : option A) : Jvalue :=
  match value with Some value => to_json value | None => JNull end.
Definition entry_fields (entry : FileEntry) : Object :=
  [("name", JText (entry_name entry)); ("kind", JText (entry_kind_text (entry_kind entry)));
   ("size", opt_json (fun size : Z => JNumber (pretty size)) (entry_size entry));
   ("modified", opt_json JText (entry_modified entry)); ("created", opt_json JText (entry_created entry))].
Definition listing_json (listing : FileListing) : Jvalue :=
  JObject [("entries", JArray ((fun entry => JObject (entry_fields entry)) <$> entries listing));
           ("truncated", JBool (truncated listing))].
Definition stat_json (found : FileStat) : Jvalue :=
  JObject (entry_fields (stat_entry found) ++ [("path", opt_json JText (stat_path found))]).

(** [stream_archive]. *)
Definition stream_archive (mount : OpenMount) (archive : Archive) (head : bool) : Io FileAnswer :=
  let headers := [("content-type", "application/zip"); ("content-disposition", attachment (archive_name archive));
                  ("x-content-type-options", "nosniff")] in
  if head then io_ret (Streamed headers None)
  else let~ written := write_archive mount archive in io_ret (Streamed headers (Some written)).

(** [read]. *)
Definition guard_file (response : Response) (download : bool) (name : string) : Response :=
  let guarded := header_insert "x-content-type-options" "nosniff"
                   (header_insert "content-security-policy" "sandbox" (headers response)) in
  {| status := status response;
     headers := if download then header_insert "content-disposition" (attachment name) guarded else guarded;
     body := body response |}.

Definition read (resolved : ResolvedMount) (names : list string) (query : FileQuery) (request : FileRequest) :
    Io (result FileAnswer ApiError) :=
  let~? mount := open_mount resolved in
  let~? found := find mount names query in
  match found with
  | FoundListing listing => io_ret (Ok (Plain (json_value (listing_json listing))))
  | FoundStat found => io_ret (Ok (Plain (json_value (stat_json found))))
  | FoundArchive archive =>
      let~ answer := stream_archive mount archive (bool_decide (method request = HEAD)) in io_ret (Ok answer)
  | FoundFile file name =>
      let serve opened := guard_file (serve_dir (method_text (method request)) (file_headers request) opened)
                            (download query) name in
      match backend_open file (verified_path file) with
      | (Err error, _) => io_ret (Ok (Plain (serve (Err error))))
      | (Ok (handle, metadata), _) =>
          let~ bytes := call (read_handle handle) in io_ret (Ok (Plain (serve (Ok (metadata, bytes)))))
      end
  end.

(** What [respond] does with the mount the host resolved. *)
Definition respond_resolved (resolved : ResolvedMount) (path : string) (query : FileQuery) (request : FileRequest) :
    Io (result FileAnswer ApiError) :=
  match split_path path with
  | Err error => io_ret (Err error)
  | Ok names =>
      let plain (p : Io (result Response ApiError)) : Io (result FileAnswer ApiError) :=
        let~? response := p in io_ret (Ok (Plain response)) in
      if decide (access resolved = NoAccess) then io_ret (Err not_found)
      else match method request with
      | GET | HEAD => read resolved names query request
      | asked =>
          if negb (bool_decide (access resolved = EditAccess)) then io_ret (Err not_permitted)
          else match asked with
          | PUT =>
              if directory query then plain (create_directory resolved names)
              else plain (upload resolved names (file_headers request) (chunks request))
          | PATCH => plain (rename resolved names query (chunks request))
          | POST => plain (copy resolved names query (chunks request))
          | DELETE => plain (delete_entry resolved names query)
          | _ => io_ret (Err (error_http 405))
          end
      end
  end.

(** [respond], up to the file system. *)
Definition respond_files (state : AppState) (mount path : string) (request : FileRequest) :
    Prog (result (Io (result FileAnswer ApiError)) ApiError) :=
  let query := file_query_parse (file_query request) in
  let? answered :=
    dispatch_answer (dispatch_lookup Authenticated "files.resolve" [("mount", mount)]) state (file_headers request)
      None in
  match answered with
  | Payload text =>
      match read_resolved text with
      | Err error => Done (Err (host_error (Internal ("files.resolve answered " +:+ error))))
      | Ok resolved => Done (Ok (respond_resolved resolved path query request))
      end
  | Described _ | Live _ _ =>
      Done (Err (host_error (Internal "files.resolve answered without a payload")))
  end.

(** [mount_top] and [mount_entry]. *)
Definition mount_entry (state : AppState) (first rest : string) (request : FileRequest) :
    Prog (result (Io (result FileAnswer ApiError)) ApiError) :=
  match mount_id_parse first rest with
  | Err error => Done (Err error)
  | Ok (mount, path) => respond_files state mount path request
  end.
Definition mount_top (state : AppState) (first : string) (request : FileRequest) :
    Prog (result (Io (result FileAnswer ApiError)) ApiError) :=
  mount_entry state first "" request.
End serving.
