(* ===== verification/FileFacts.v ===== *)
(** * Facts about served files

    What opening a mount, admitting a path, finding a write's target and
    walking a directory promise while others leave the directories in place.

    The parts after this one: pages of a directory. *)
From S2P Require Import Prelude.
From stdpp Require Import sorting.
From S2P Require Import Text Sql Selector Discovery Wire Json Http Host Auth Server Disk DiskFacts Config.
From S2P Require Import Files FilesServer.
Local Open Scope string_scope.
Local Open Scope list_scope.
Local Open Scope Z_scope.
Local Open Scope ceres_scope.

(** What others may do while a request is answered: anything that keeps the
    tree, removes or replaces no directory, and makes no symlink. *)
Definition calm (d d' : Disk) : Prop :=
  (tree d -> tree d') /\ directories_kept d d' /\
  forall path found, stands d' path = Some found -> is_symlink found = true -> stands d path = Some found.

Lemma calm_refl d : calm d d.
Proof. split; [done|]. by split; [intros ?|intros ???]. Qed.
#[export] Hint Resolve calm_refl : ceres.

Lemma stable_tree : stable calm tree.
Proof. intros d d' [Htree _]. done. Qed.

Lemma stable_directories path : stable calm (fun d => directories d path).
Proof. intros d d' (_ & Hkept & _). by apply directories_stable. Qed.
#[export] Hint Resolve stable_tree stable_directories : ceres.

(** A path no symlink stands at, below directories. *)
Definition settled (d : Disk) (path : Path) : Prop :=
  path = [] \/ exists above name, path = above ++ [name] /\ directories d above /\ name <> ".." /\
    forall found, stands d path = Some found -> is_symlink found = false.

Lemma stable_settled path : stable calm (fun d => settled d path).
Proof.
  intros d d' (_ & Hkept & Hlinks) [->|(above & name & -> & Habove & Hname & Hfound)]; [by left|].
  right. exists above, name. split_and!; [done|by eapply directories_stable|done|].
  intros found Hstands. destruct (is_symlink found) eqn:Hlink; [|done].
  by rewrite <-(Hfound _ (Hlinks _ _ Hstands Hlink)).
Qed.
#[export] Hint Resolve stable_settled : ceres.

Lemma real_settled d path : real d path -> settled d path.
Proof.
  intros [->|(above & name & found & -> & Habove & Hname & Hfound & Hlink)]; [by left|].
  right. exists above, name. split_and!; try done. intros other Hother. by simplify_eq.
Qed.

Lemma settled_directory d path found :
  tree d -> settled d path -> stands d path = Some found -> is_dir found = true -> directories d path.
Proof.
  intros Htree [->|(above & name & -> & Habove & Hname & _)] Hfound Hdir; [apply directories_nil|].
  apply directories_snoc. split_and!; [done..|]. by exists found.
Qed.

(** Resolution passes over directories. *)
Lemma resolve_above d above rest : directories d above -> canonical d (above ++ rest) = resolve MAXSYMLINKS d above rest.
Proof.
  intros Habove.
  assert (Hgeneral : forall more at_, at_ ++ more = above ->
    resolve MAXSYMLINKS d at_ (more ++ rest) = resolve MAXSYMLINKS d above rest).
  { induction more as [|first more IH]; intros at_ Heq; [by rewrite app_nil_r in Heq; subst|].
    cbn [app]. rewrite resolve_cons. pose proof Habove as [Hdots Hall].
    rewrite decide_False by (rewrite <-Heq in Hdots; apply Forall_app in Hdots as [_ Hdots]; by inversion Hdots).
    destruct (Hall at_ first more) as (there & -> & Hdir); [done|]. unfold is_dir in Hdir.
    destruct (shape (inode there)); try done. apply IH. rewrite <-Heq. by rewrite <-app_assoc. }
  by apply (Hgeneral above []).
Qed.

Lemma canonical_settled d above name :
  directories d above -> name <> ".." ->
  (forall found, stands d (above ++ [name]) = Some found -> is_symlink found = false) ->
  canonical d (above ++ [name]) =
  match stands d (above ++ [name]) with Some _ => Ok (above ++ [name]) | None => Err ENOENT end.
Proof.
  intros Habove Hname Hlink. rewrite resolve_above, resolve_cons, decide_False by done.
  destruct (stands d (above ++ [name])) as [found|]; [|done]. specialize (Hlink _ eq_refl). unfold is_symlink in Hlink.
  by destruct (shape (inode found)).
Qed.

(** No symlink at a path or below it. *)
Definition clear (d : Disk) (path : Path) : Prop :=
  forall rest found, stands d (path ++ rest) = Some found -> is_symlink found = false.

Lemma stable_clear path : stable calm (fun d => clear d path).
Proof.
  intros d d' (_ & _ & Hlinks) Hclear rest found Hfound. destruct (is_symlink found) eqn:Hlink; [|done].
  by rewrite <-(Hclear rest found (Hlinks _ _ Hfound Hlink)).
Qed.
#[export] Hint Resolve stable_clear : ceres.

(** Below such a path resolution goes nowhere else. *)
Lemma resolve_clear d at_ rest path :
  clear d at_ -> Forall (fun name => name <> "..") rest -> resolve MAXSYMLINKS d at_ rest = Ok path -> path = at_ ++ rest.
Proof.
  revert at_. induction rest as [|name rest IH]; intros at_ Hclear Hdots.
  - rewrite resolve_nil. intros [= <-]. by rewrite app_nil_r.
  - inversion Hdots as [|?? Hname Hrest]; subst. rewrite resolve_cons, decide_False by done.
    destruct (stands d (at_ ++ [name])) as [found|] eqn:Hfound; [|done].
    pose proof (Hclear _ _ Hfound) as Hlink. unfold is_symlink in Hlink.
    destruct (shape (inode found)); [by destruct rest; [intros [= <-]|]| |done|by destruct rest; [intros [= <-]|]].
    intros ->%IH; [by rewrite <-app_assoc| |done]. intros more other. rewrite <-app_assoc. apply Hclear.
Qed.

Lemma canonical_clear d above name rest path :
  directories d above -> clear d (above ++ [name]) -> Forall (fun name => name <> "..") (name :: rest) ->
  canonical d (above ++ name :: rest) = Ok path -> path = above ++ name :: rest.
Proof.
  intros Habove Hclear Hdots. rewrite resolve_above by done.
  inversion Hdots as [|?? Hname Hrest]; subst. rewrite resolve_cons, decide_False by done.
  destruct (stands d (above ++ [name])) as [found|] eqn:Hfound; [|done].
  pose proof (Hclear [] found) as Hlink. rewrite app_nil_r in Hlink. specialize (Hlink Hfound). unfold is_symlink in Hlink.
  destruct (shape (inode found)); [by destruct rest; [intros [= <-]|]| |done|by destruct rest; [intros [= <-]|]].
  intros ->%resolve_clear; [by rewrite <-app_assoc|done|done].
Qed.

Lemma entry_clear d above name rest path :
  directories d above -> clear d (above ++ [name]) -> Forall (fun name => name <> "..") (name :: rest) ->
  entry d (above ++ name :: rest) = Ok path -> path = above ++ name :: rest.
Proof.
  intros Habove Hclear Hdots. destruct (path_cases (name :: rest)) as [|(more & last_ & Heq)]; [done|].
  rewrite Heq, app_assoc. unfold entry. rewrite last_snoc, parent_snoc.
  assert (Hlast : last_ <> "..") by (rewrite Heq in Hdots; apply Forall_app in Hdots as [_ Hdots]; by inversion Hdots).
  rewrite decide_False by done. destruct (negb (spelled last_)); [done|].
  destruct (canonical d (above ++ more)) as [at_|] eqn:Hcanonical; [|done]. cbn.
  enough (at_ = above ++ more) as ->.
  { destruct (stands d (above ++ more)) as [found|]; [|done]. destruct (is_dir found); [|done]. by intros [= <-]. }
  destruct more as [|first more].
  - rewrite app_nil_r, canonical_directories in Hcanonical by done. rewrite app_nil_r. by injection Hcanonical.
  - injection Heq as -> ->. eapply canonical_clear; [done..| |done].
    inversion Hdots as [|?? ? Hrest]; subst. constructor; [done|]. by apply Forall_app in Hrest as [? _].
Qed.

(** [stat] of a settled path is of what stands there. *)
Lemma stat_settled d path found :
  settled d path -> fst (stat path d) = Ok found -> stands d path = Some found.
Proof.
  intros Hsettled. unfold stat, reads. cbn.
  assert (Hat : forall at_, canonical d path = Ok at_ -> at_ = path).
  { destruct Hsettled as [->|(above & name & -> & Habove & Hname & Hlink)]; intros at_.
    - rewrite (canonical_directories d [] (directories_nil d)). by intros [= <-].
    - rewrite (canonical_settled d above name Habove Hname Hlink).
      destruct (stands d (above ++ [name])); [by intros [= <-]|done]. }
  destruct (canonical d path) as [at_|] eqn:Hcanonical; cbn; [|done]. rewrite (Hat _ eq_refl).
  destruct (stands d path) as [there|]; [|done]. by intros [= <-].
Qed.

(** ** Admission *)

Section files.
Context `{HttpCrates} `{GlobCrate} `{FilesCrates} `{FileSystem} `{Uuids}.
Context (Rely Guar : Disk -> Disk -> Prop) (Fault : IoError -> Prop).
Context (rely_calm : forall d d', Rely d d' -> calm d d') (rely_refl : forall d, Rely d d) (guar_refl : forall d, Guar d d).

Notation spec := (triple Rely Guar Fault).

Lemma stable_calm (P : Disk -> Prop) : stable calm P -> stable Rely P.
Proof. intros HP d d' Hrely. by apply HP, rely_calm. Qed.
#[local] Hint Extern 5 (stable Rely _) => apply stable_calm : ceres.

(** In the mount and not excluded, as the path's text. *)
Definition admitted (self : OpenMount) (path : Path) : Prop :=
  exists text, relative self path = Some text /\ excludes (exclusion self) text = false.

Lemma admit_path_spec (self : OpenMount) path (P : Disk -> Prop) :
  stable Rely P ->
  spec P (admit_path self path) (fun found d =>
    P d /\ match found with Some canonical => admitted self canonical /\ settled d canonical | None => True end).
Proof.
  intros HP. unfold admit_path. eapply triple_bind.
  - eapply (triple_read _ _ _ rely_refl _ _ (fun answer d =>
      P d /\ match answer with Ok canonical => settled d canonical | Err _ => True end)). 1-2: by stably.
    2: naive_solver.
    intros d HPd. split; [done|]. destruct (canonical d path) as [at_|] eqn:Hcanonical; [|done].
    by apply canonical_real, real_settled in Hcanonical.
  - intros [at_|error]; apply triple_ret; intros d [HPd Hsettled]; (split; [done|]); [|done].
    unfold outside_excluded. destruct (relative self at_) as [text|] eqn:Hrelative; [|done]. cbn.
    destruct (excludes (exclusion self) text) eqn:Hexcludes; [done|]. split; [|done]. by exists text.
Qed.

(** ** Targets *)

(** What a write's target promises: below the root, and not excluded. *)
Definition target_ok (self : OpenMount) (t : WriteTarget) : Prop :=
  exists text, relative self (target_parent t) = Some text /\
    target_relative t = join_relative text (target_name t) /\ excludes (exclusion self) (target_relative t) = false /\
    spelled (target_name t) = true.

Lemma target_spec (self : OpenMount) names (P : Disk -> Prop) :
  Forall (fun name => spelled name = true) names -> stable Rely P -> (forall d, P d -> tree d) ->
  spec P (target self names) (fun outcome d =>
    P d /\ match outcome with
              | Ok t => target_ok self t /\ directories d (target_parent t) /\ last names = Some (target_name t)
              | Err _ => True
              end).
Proof.
  intros Hnames HP Htree. unfold target. destruct (last names) as [name|] eqn:Hlast; [|by apply triple_ret].
  cbn [windows andb]. destruct (excludes (exclusion self) (str_join "/" names)); [by apply triple_ret|].
  eapply (triple_try _ _ _ _ _ (fun at_ d => P d /\ admitted self at_ /\ settled d at_)).
  { apply triple_map. eapply triple_mono; [by apply (admit_path_spec _ _ P)|done|].
    intros [at_|] d [HPd Hfound]; [|done]. cbn. done. }
  intros at_. eapply triple_bind.
  { eapply (triple_read _ _ _ rely_refl _ _ (fun answer d => P d /\ admitted self at_ /\
      forall found, answer = Ok found -> is_dir found = true -> directories d at_)). 1-2: by stably.
    2: naive_solver.
    intros d (HPd & Hadmitted & Hsettled). split; [done|]. split; [done|]. intros found Hstat Hdir.
    eapply settled_directory; [by apply Htree|done| |done]. by apply stat_settled. }
  intros answer. destruct (negb _) eqn:Hdir; [apply triple_ret; by intros d (? & _)|].
  destruct answer as [found|]; [|done]. apply negb_false_iff in Hdir.
  destruct (excludes (exclusion self) (join_relative _ name)) eqn:Hexcludes; apply triple_ret;
    intros d (HPd & (text & Hrelative & _) & Hdirs); split; try done. cbn. split_and!; [|by eapply Hdirs|done].
  exists text. cbn. rewrite Hrelative in Hexcludes |- *. split_and!; [done..|].
  apply last_Some in Hlast as [above ->]. by apply Forall_app in Hnames as [_ Hname]; inversion Hname.
Qed.

(** What stands at a target, while its parent stays. *)
Lemma existing_spec (t : WriteTarget) (P : Disk -> Prop) :
  stable Rely P -> spec P (existing t) (fun _ d => P d).
Proof.
  intros HP. unfold existing. eapply triple_bind; [by apply (keeps_read _ _ _ rely_refl P)|].
  intros answer. by apply triple_ret.
Qed.

(** ** Walks only read *)

Lemma admit_path_keeps (self : OpenMount) path (P : Disk -> Prop) : stable Rely P -> keeps Rely Guar Fault P (admit_path self path).
Proof.
  intros HP. apply keeps_bind; [by apply (keeps_read _ _ _ rely_refl)|]. intros found. apply keeps_ret.
Qed.

Lemma reach_keeps (self : OpenMount) relative path (P : Disk -> Prop) :
  stable Rely P -> keeps Rely Guar Fault P (reach self relative path).
Proof.
  intros HP. unfold reach. repeat first
    [ apply keeps_ret | by apply (keeps_read _ _ _ rely_refl) | by apply admit_path_keeps
    | apply keeps_bind; [|intros []] | case_match | progress cbn ].
Qed.

(** ** Walks keep what their visits keep *)

(** The names a walk goes by stay below where it started. *)
Definition below_ok (below : string) : Prop :=
  is_absolute below = false /\ Forall (fun name => name <> "..") (components below).

Lemma below_ok_nil : below_ok "".
Proof. done. Qed.

Lemma below_ok_join below name : below_ok below -> spelled name = true -> below_ok (join_relative below name).
Proof.
  intros [Habsolute Hdots] Hname. pose proof Hname as (_ & _ & Hnot & _)%spelled_cases. unfold join_relative. case_decide as Hnil.
  - split; [|rewrite components_spelled by done; by repeat constructor]. pose proof (join_spelled [] name Hname) as Hjoin.
    unfold join in Hjoin. destruct (is_absolute name) eqn:Hroot; [|done]. apply spelled_cases in Hname as (? & _ & _ & Hslash).
    unfold is_absolute, str_starts_with in Hroot. destruct (strip_prefix "/" name) eqn:Hstrip; [|done].
    apply strip_prefix_Some in Hstrip as ->. done.
  - split.
    + unfold is_absolute, str_starts_with in *. destruct below as [|c below]; [done|].
      rewrite str_app_cons. cbn [strip_prefix] in *. by destruct (Strings.Ascii.eqb "/" c).
    + change ("/" +:+ name) with (String "/" name). rewrite components_app, (components_spelled name) by done.
      apply Forall_app. split; [done|by repeat constructor].
Qed.

Lemma children_spelled d path : tree d -> Forall (fun name => spelled name = true) (children d path).
Proof.
  intros [_ Htree]. apply Forall_forall. intros name ([held i] & Hin & Hname)%list_elem_of_omap.
  apply elem_of_map_to_list in Hin. destruct (strip_path path held) as [[|first []]|] eqn:Hstrip; simplify_eq.
  apply strip_path_Some in Hstrip as ->. by apply Htree in Hin as [_ ?].
Qed.

Lemma read_dir_spelled d path names :
  tree d -> fst (read_dir path d) = Ok names -> Forall (fun name => spelled name = true) names.
Proof.
  intros Htree. unfold read_dir, reads. cbn. destruct (canonical d path) as [at_|]; cbn; [|done].
  destruct (stands d at_) as [found|]; [|done]. destruct (is_dir found); [|done]. intros [= <-].
  rewrite directory_order_perm. by apply children_spelled.
Qed.

Lemma walk_keeps {S B} (self : OpenMount) (P : Disk -> Prop) hidden (visit : S -> string -> Walked -> Io (Io_result (S * option B))) :
  stable Rely P -> (forall d, P d -> tree d) ->
  (forall s below walked, below_ok below -> keeps Rely Guar Fault P (visit s below walked)) ->
  forall fuel s directory relative below, below_ok below ->
  keeps Rely Guar Fault P (walk_below fuel self hidden visit s directory relative below).
Proof.
  intros HP Htree Hvisit fuel. induction fuel as [|fuel IH]; intros s directory relative below Hbelow;
    [apply keeps_ret|].
  cbn [walk_below].
  eapply (triple_try _ _ _ _ _ (fun names d => Forall (fun name => spelled name = true) names /\ P d)).
  { eapply (triple_read _ _ _ rely_refl); [done..| |by intros]. intros d HPd.
    match goal with |- match ?answer with _ => _ end => destruct answer as [names|] eqn:Hread; [|done] end.
    split; [|done]. exact (read_dir_spelled d directory names (Htree d HPd) Hread). }
  intros names. apply triple_pure. intros Hnames. revert s. induction Hnames as [|name names Hname Hnames IHnames]; intros s.
  { apply keeps_ret. }
  apply keeps_bind; [by apply (keeps_read _ _ _ rely_refl)|]. intros [[]|error]; [|apply keeps_ret].
  cbn beta iota zeta. destruct (walks_over hidden (to_string_lossy name)); [apply IHnames|].
  pose proof (below_ok_join _ _ Hbelow (lossy_spelled _ Hname)) as Hnext.
  apply keeps_bind; [by apply reach_keeps|]. intros [reached|error]; [|apply keeps_ret].
  apply keeps_bind.
  - destruct reached as [walked|metadata|]; [by apply Hvisit| |apply keeps_ret].
    apply keeps_bind; [by apply Hvisit|]. intros [[s' [broken|]]|error]; [apply keeps_ret|by apply IH|apply keeps_ret].
  - intros [[s' [broken|]]|error]; [apply keeps_ret|apply IHnames|apply keeps_ret].
Qed.

Lemma holds_excluded_keeps (self : OpenMount) directory relative (P : Disk -> Prop) :
  stable Rely P -> (forall d, P d -> tree d) -> keeps Rely Guar Fault P (holds_excluded self directory relative).
Proof.
  intros HP Htree. apply keeps_bind; [|intros [[]|]; apply keeps_ret].
  apply walk_keeps; [done..| |apply below_ok_nil]. intros. apply keeps_ret.
Qed.

Lemma refuse_excluded_below_keeps (self : OpenMount) t metadata (P : Disk -> Prop) :
  stable Rely P -> (forall d, P d -> tree d) -> keeps Rely Guar Fault P (refuse_excluded_below self t metadata).
Proof.
  intros HP Htree. unfold refuse_excluded_below. case_match; [|apply keeps_ret].
  apply keeps_bind; [by apply holds_excluded_keeps|]. intros [[]|]; apply keeps_ret.
Qed.

(** A path's names, split, are plain. *)
Lemma split_path_spelled path names :
  split_path path = Ok names -> Forall (fun name => spelled name = true) names.
Proof.
  unfold split_path. case_decide; [by intros [= <-]|].
  generalize (str_split "/" path). intros parts. revert names. induction parts as [|part parts IH]; intros names; cbn; [by intros [= <-]|].
  destruct (plain_name part) eqn:Hplain; [|done]. destruct (res_map _ parts) as [rest|]; [|done]. intros [= <-].
  constructor; [|by apply IH]. unfold plain_name, spelled in *. rewrite !andb_true_iff in *. tauto.
Qed.

(** Opening a mount only reads. *)
Lemma open_mount_keeps resolved (P : Disk -> Prop) : stable Rely P -> keeps Rely Guar Fault P (open_mount resolved).
Proof.
  intros HP. unfold open_mount. destruct (exclusion_new (exclude resolved)); [|apply keeps_ret].
  apply keeps_bind; [by apply triple_map, (keeps_read _ _ _ rely_refl)|]. intros [at_|error]; apply keeps_ret.
Qed.
End files.

(** * Pages of a directory

    What a listing answers on a disk nobody else changes: the entries the mount
    does not exclude, in the order of their names, as many as a page takes and
    from where the page before ended. *)

(** ** Programs that only read, run alone *)

Definition reads_as {A} (d : Disk) (p : Io A) (a : A) : Prop :=
  forall w, disk w = d -> script w = [] -> fst (p w) = a /\ disk (snd (p w)) = d /\ script (snd (p w)) = [].

Lemma reads_as_ret {A} d (a : A) : reads_as d (io_ret a) a.
Proof. by intros w. Qed.

Lemma reads_as_bind {A B} d (p : Io A) (k : A -> Io B) a b :
  reads_as d p a -> reads_as d (k a) b -> reads_as d (io_bind p k) b.
Proof.
  intros Hp Hk w Hdisk Hscript. destruct (Hp w Hdisk Hscript) as (Ha & Hd & Hs). unfold io_bind.
  destruct (p w) as [got w']. cbn in *. subst got. by apply Hk.
Qed.

Lemma reads_as_call {A} d (f : Disk -> Io_result A) : reads_as d (call (reads f)) (f d).
Proof. intros w <- Hscript. unfold call, call_torn, next_turn. rewrite Hscript. done. Qed.

Lemma reads_as_map {A B} d (f : A -> B) (p : Io A) a : reads_as d p a -> reads_as d (io_map f p) (f a).
Proof. intros Hp. eapply reads_as_bind; [done|apply reads_as_ret]. Qed.

(** A [?]. *)
Lemma reads_as_try {A B E} d (p : Io (result A E)) (k : A -> Io (result B E)) outcome (answer : A -> result B E) :
  reads_as d p outcome -> (forall a, outcome = Ok a -> reads_as d (k a) (answer a)) ->
  reads_as d (let~? a := p in k a) (res_bind outcome answer).
Proof.
  intros Hp Hk. eapply reads_as_bind; [done|]. destruct outcome as [a|error]; [by apply Hk|apply reads_as_ret].
Qed.

(** ** The heap *)

Lemma heap_push_take candidate kept cap :
  take cap (heap_push candidate (take cap kept)) = take cap (heap_push candidate kept).
Proof.
  revert cap. induction kept as [|first kept IH]; intros [|cap]; [done..|]. cbn.
  destruct (Strings.String.compare _ _); cbn; f_equal; [apply IH| |apply IH].
  destruct cap; cbn; [done|]. by rewrite take_take, Nat.min_l by lia.
Qed.

Lemma heap_push_length candidate kept : length (heap_push candidate kept) = S (length kept).
Proof. induction kept as [|first kept IH]; cbn; [done|]. destruct (Strings.String.compare _ _); cbn; lia. Qed.

Notation most := (Z.to_nat (LISTING_CAP + 1)).

(** The heap keeps the first of all that were pushed. *)
Lemma keep_take candidate kept : keep candidate (take most kept) = take most (heap_push candidate kept).
Proof.
  rewrite <-heap_push_take. unfold keep. pose proof (heap_push_length candidate (take most kept)) as Hlength.
  rewrite length_take in Hlength. generalize dependent (heap_push candidate (take most kept)). intros pushed Hlength.
  destruct (LISTING_CAP + 1 <? Z.of_nat (length pushed)) eqn:Hover.
  - rewrite removelast_firstn_len. f_equal. apply Z.ltb_lt in Hover. lia.
  - apply Z.ltb_ge in Hover. by rewrite take_ge by lia.
Qed.

Definition pushed (candidates : list Candidate) (kept : list Candidate) : list Candidate :=
  foldl (fun kept candidate => heap_push candidate kept) kept candidates.

Lemma keep_all candidates kept :
  foldl (fun kept candidate => keep candidate kept) (take most kept) candidates = take most (pushed candidates kept).
Proof.
  revert kept. induction candidates as [|candidate candidates IH]; intros kept; cbn; [done|].
  by rewrite keep_take, IH.
Qed.

Definition name_lt (a b : Candidate) : Prop := str_lt (candidate_name a) (candidate_name b) = true.

Lemma heap_push_perm candidate kept : heap_push candidate kept ≡ₚ candidate :: kept.
Proof.
  induction kept as [|first kept IH]; cbn; [done|]. destruct (Strings.String.compare _ _); [| |]; try done;
    rewrite IH; constructor.
Qed.

Lemma pushed_perm candidates kept : pushed candidates kept ≡ₚ candidates ++ kept.
Proof.
  revert kept. induction candidates as [|candidate candidates IH]; intros kept; [done|].
  change (pushed (candidate :: candidates) kept) with (pushed candidates (heap_push candidate kept)).
  rewrite IH, heap_push_perm. symmetry. apply Permutation_middle.
Qed.

Lemma heap_push_sorted candidate kept :
  StronglySorted name_lt kept -> Forall (fun other => candidate_name other <> candidate_name candidate) kept ->
  StronglySorted name_lt (heap_push candidate kept).
Proof.
  induction 1 as [|first kept Hsorted IH Hfirst]; intros Hdistinct; cbn; [by repeat constructor|].
  inversion Hdistinct as [|?? Hne Hrest]; subst.
  destruct (Strings.String.compare (candidate_name candidate) (candidate_name first)) eqn:Hcompare.
  - apply text_compare_eq in Hcompare. congruence.
  - assert (Hlt : name_lt candidate first) by (unfold name_lt, str_lt; by rewrite Hcompare).
    constructor; [by constructor|]. constructor; [done|]. eapply Forall_impl; [apply Hfirst|]. intros other. by apply str_lt_trans.
  - constructor; [by apply IH|]. rewrite heap_push_perm. constructor; [|done].
    unfold name_lt, str_lt. rewrite str_compare_antisym. by rewrite Hcompare.
Qed.

Lemma pushed_sorted candidates kept :
  NoDup (candidate_name <$> candidates ++ kept) -> StronglySorted name_lt kept ->
  StronglySorted name_lt (pushed candidates kept).
Proof.
  revert kept. induction candidates as [|candidate candidates IH]; intros kept Hdistinct Hsorted; cbn; [done|].
  cbn in Hdistinct. apply NoDup_cons in Hdistinct as [Hnew Hdistinct].
  apply IH.
  - rewrite heap_push_perm. rewrite <-Permutation_middle. cbn. by constructor.
  - apply heap_push_sorted; [done|]. apply Forall_forall. intros other Hother Hsame. apply Hnew.
    rewrite <-Hsame. rewrite fmap_app. apply elem_of_app. right. by apply list_elem_of_fmap_2.
Qed.

(** ** The names of a page *)

Section listing.
Context `{HttpCrates} `{GlobCrate} `{FilesCrates} `{FileSystem}.

Definition candidate_of (directory : Path) (os_name : string) : Candidate :=
  {| candidate_name := to_string_lossy os_name; candidate_path := directory ++ [os_name]; unicode := is_utf8 os_name |}.

(** What a listing may answer of a directory's names, before it is cut. *)
Definition listable (self : OpenMount) (query : FileQuery) (prefix : string) (directory : Path)
    (names : list string) : list Candidate :=
  List.filter (fun candidate => negb (passed_over self query prefix (candidate_name candidate)))
    (candidate_of directory <$> names).

(** A part a sweep would remove. *)
Definition stale (d : Disk) (path : Path) : bool :=
  match fst (lstat path d) with
  | Ok metadata =>
      match (if is_file metadata then modified (inode metadata) else None) ≫= elapsed (now d) with
      | Some age => PART_LIFETIME <? age
      | None => false
      end
  | Err _ => false
  end.

Definition nothing_stale (d : Disk) (directory : Path) (names : list string) : Prop :=
  Forall (fun os_name => is_part (to_string_lossy os_name) = true -> stale d (directory ++ [os_name]) = false) names.

Lemma sweep_fresh d path : stale d path = false -> reads_as d (sweep_if_stale path) false.
Proof.
  unfold stale, sweep_if_stale. intros Hfresh. eapply reads_as_bind; [apply reads_as_call|].
  unfold lstat, reads in Hfresh. cbn in Hfresh. destruct (let* at_ := entry d path in _) as [metadata|]; [|apply reads_as_ret].
  destruct (if is_file metadata then _ else None) as [modified|]; [|apply reads_as_ret].
  eapply reads_as_bind; [apply reads_as_call|]. cbn in *.
  destruct (elapsed (now d) modified) as [age|]; [|apply reads_as_ret]. rewrite Hfresh. apply reads_as_ret.
Qed.

Lemma list_names_reads d (self : OpenMount) directory query prefix names kept :
  nothing_stale d directory names ->
  reads_as d (list_names self directory query prefix names kept)
    (foldl (fun kept candidate => keep candidate kept) kept (listable self query prefix directory names)).
Proof.
  intros Hfresh. revert kept. induction Hfresh as [|os_name names Hname Hnames IH]; intros kept; [apply reads_as_ret|].
  cbn [list_names]. eapply reads_as_bind; [apply (reads_as_call d (fun _ => Ok tt))|]. cbn beta iota zeta.
  apply reads_as_bind with false.
  { destruct (is_utf8 os_name); [|apply reads_as_ret].
    destruct (is_part (to_string_lossy os_name)); [|apply reads_as_ret]. cbn. by apply sweep_fresh, Hname. }
  cbn [orb]. unfold listable. rewrite fmap_cons. cbn [List.filter candidate_of candidate_name].
  destruct (passed_over self query prefix (to_string_lossy os_name)); cbn; apply IH.
Qed.

(** ** Its entries *)

Definition answer_at {A} (d : Disk) (p : Io A) : A := fst (p {| disk := d; script := []; calls := []; drawn := 0 |}).

Definition alone {A} (d : Disk) (p : Io A) : Prop := exists a, reads_as d p a.

Lemma alone_answer {A} d (p : Io A) : alone d p -> reads_as d p (answer_at d p).
Proof. intros [a Hp]. unfold answer_at. by destruct (Hp {| disk := d; script := []; calls := []; drawn := 0 |}) as (-> & _). Qed.

Lemma alone_ret {A} d (a : A) : alone d (io_ret a).
Proof. exists a. apply reads_as_ret. Qed.

Lemma alone_bind {A B} d (p : Io A) (k : A -> Io B) : alone d p -> (forall a, alone d (k a)) -> alone d (io_bind p k).
Proof. intros [a Hp] Hk. destruct (Hk a) as [b Hb]. exists b. by eapply reads_as_bind. Qed.

Lemma alone_read {A} d (f : Disk -> Io_result A) : alone d (call (reads f)).
Proof. exists (f d). apply reads_as_call. Qed.

Lemma describe_alone d self candidate : alone d (describe self candidate).
Proof.
  unfold describe. repeat first
    [ apply alone_ret | apply alone_read | apply alone_bind; [|intros []] | case_match | progress cbn ].
Qed.

(** What the entries of a page are. *)
Definition described (d : Disk) (self : OpenMount) (candidates : list Candidate) : result (list FileEntry) ApiError :=
  let* found := res_map (fun candidate => answer_at d (describe self candidate)) candidates in Ok (omap (fun entry => entry) found).

Lemma describe_all_reads d self candidates : reads_as d (describe_all self candidates) (described d self candidates).
Proof.
  induction candidates as [|candidate candidates IH]; [apply reads_as_ret|]. cbn [describe_all].
  replace (described d self (candidate :: candidates)) with
    (let* entry := answer_at d (describe self candidate) in let* rest := described d self candidates in
     Ok match entry with Some entry => entry :: rest | None => rest end).
  2:{ unfold described. cbn. destruct (answer_at d _) as [[entry|]|]; cbn; [|..]; try done; by destruct (res_map _ _). }
  eapply reads_as_try; [apply alone_answer, describe_alone|]. intros entry _.
  eapply reads_as_try; [apply IH|]. intros rest _. apply reads_as_ret.
Qed.

(** ** Pages *)

(** What comes after a name. *)
Definition beyond (after : option string) (candidates : list Candidate) : list Candidate :=
  List.filter (fun candidate => negb match after with
                                     | Some after => name_le (candidate_name candidate) after
                                     | None => false
                                     end) candidates.

(** What a page's last name leaves is what the page left. *)
Lemma beyond_page count whole final :
  StronglySorted name_lt whole -> last (take count whole) = Some final ->
  beyond (Some (candidate_name final)) whole = drop count whole.
Proof.
  revert count. induction whole as [|first whole IH]; intros [|count] Hsorted Hlast; [done..|].
  inversion Hsorted as [|?? Hrest Hfirst]; subst. cbn [take] in Hlast. rewrite last_cons in Hlast.
  assert (Hle : name_le (candidate_name first) (candidate_name final) = true).
  { destruct (last (take count whole)) as [other|] eqn:Htaken; injection Hlast as <-; [|apply str_le_refl].
    apply last_Some_elem_of, elem_of_take in Htaken as (i & Hi & _). apply str_lt_le.
    by apply (Forall_lookup_1 _ _ _ _ Hfirst Hi). }
  unfold beyond. cbn [List.filter]. rewrite Hle. cbn [negb drop].
  destruct (last (take count whole)) as [other|] eqn:Htaken; injection Hlast as <-; [by apply IH|].
  apply last_None in Htaken. assert (Hall : List.filter (fun candidate => negb (name_le (candidate_name candidate) (candidate_name first))) whole = whole).
  { clear -Hfirst. induction Hfirst as [|other whole Hother Hwhole IHwhole]; cbn; [done|].
    replace (name_le (candidate_name other) (candidate_name first)) with false; cbn; [by rewrite IHwhole|].
    change name_le with str_le. rewrite str_le_not_lt. by rewrite Hother. }
  rewrite Hall. destruct whole; [by destruct count|]. by destruct count.
Qed.

(** A directory's entries, whole and in order: those not excluded. *)
Definition whole_listing (self : OpenMount) (prefix : string) (directory : Path) (names : list string) : list Candidate :=
  pushed (List.filter (fun candidate => negb (excludes (exclusion self) (prefix +:+ candidate_name candidate)))
            (candidate_of directory <$> names)) [].

Definition listing_prefix (self : OpenMount) (directory : Path) : string :=
  let above := default "" (relative self directory) in if decide (above = "") then "" else above +:+ "/".

Lemma filter_names (f : Candidate -> bool) candidates :
  NoDup (candidate_name <$> candidates) -> NoDup (candidate_name <$> List.filter f candidates).
Proof.
  induction candidates as [|candidate candidates IH]; cbn; [done|]. intros [Hnew Hrest]%NoDup_cons.
  destruct (f candidate); cbn; [|by apply IH]. constructor; [|by apply IH]. intros Hin. apply Hnew.
  apply list_elem_of_fmap in Hin as (other & -> & Hother). apply list_elem_of_fmap_2.
  rewrite list_elem_of_In, List.filter_In, <-list_elem_of_In in Hother. apply Hother.
Qed.

Lemma filter_sorted (f : Candidate -> bool) candidates :
  StronglySorted name_lt candidates -> StronglySorted name_lt (List.filter f candidates).
Proof.
  induction 1 as [|candidate candidates Hsorted IH Hfirst]; cbn; [constructor|]. destruct (f candidate); [|done].
  constructor; [done|]. apply Forall_forall. intros other Hother.
  rewrite list_elem_of_In, List.filter_In, <-list_elem_of_In in Hother. rewrite Forall_forall in Hfirst. apply Hfirst, Hother.
Qed.

Lemma filter_perm (f : Candidate -> bool) a b : a ≡ₚ b -> List.filter f a ≡ₚ List.filter f b.
Proof.
  induction 1 as [|candidate a b Hab IH|first second a|a b c Hab IHab Hbc IHbc]; cbn; [done| | |by etrans].
  - by destruct (f candidate); [constructor|].
  - destruct (f first), (f second); try done. constructor.
Qed.

Lemma candidates_distinct directory names :
  NoDup (to_string_lossy <$> names) -> NoDup (candidate_name <$> (candidate_of directory <$> names)).
Proof. intros Hdistinct. rewrite <-list_fmap_compose. exact Hdistinct. Qed.

Lemma whole_sorted self prefix directory names :
  NoDup (to_string_lossy <$> names) -> StronglySorted name_lt (whole_listing self prefix directory names).
Proof.
  intros Hdistinct. apply pushed_sorted; [|constructor]. rewrite app_nil_r.
  by apply filter_names, candidates_distinct.
Qed.

(** Sorting what a listing may answer is cutting the whole. *)
Lemma listable_beyond self query prefix directory names :
  NoDup (to_string_lossy <$> names) ->
  pushed (listable self query prefix directory names) [] = beyond (after query) (whole_listing self prefix directory names).
Proof.
  intros Hdistinct.
  pose proof (candidates_distinct directory names Hdistinct) as Hnames.
  assert (Hfiltered : listable self query prefix directory names =
    beyond (after query) (List.filter (fun candidate => negb (excludes (exclusion self) (prefix +:+ candidate_name candidate)))
      (candidate_of directory <$> names))).
  { unfold listable, beyond, passed_over. induction (candidate_of directory <$> names) as [|candidate candidates IH]; cbn; [done|].
    apply NoDup_cons in Hnames as [_ Hnames].
    destruct (excludes _ _); cbn; [by rewrite orb_true_r; apply IH|]. rewrite orb_false_r.
    destruct (negb _); [by rewrite IH|by apply IH]. }
  apply StronglySorted_unique_strong with name_lt.
  - unfold name_lt. intros a b _ _ Hab Hba. pose proof (str_lt_trans _ _ _ Hab Hba) as Hself. by rewrite str_lt_irrefl in Hself.
  - apply pushed_sorted; [|constructor]. rewrite app_nil_r. by apply filter_names.
  - by apply filter_sorted, whole_sorted.
  - unfold whole_listing, beyond in *. rewrite pushed_perm, app_nil_r, Hfiltered. apply filter_perm.
    by rewrite pushed_perm, app_nil_r.
Qed.

Lemma beyond_beyond after final candidates :
  (forall text, after = Some text -> str_le text final = true) ->
  beyond (Some final) (beyond after candidates) = beyond (Some final) candidates.
Proof.
  intros Hle. unfold beyond. destruct after as [text|].
  2:{ f_equal. cbn. induction candidates as [|candidate candidates IH]; cbn; [done|]. by rewrite IH. }
  induction candidates as [|candidate candidates IH]; cbn [List.filter]; [done|].
  destruct (name_le (candidate_name candidate) text) eqn:Hbefore; cbn [negb List.filter].
  - assert (Hfinal : name_le (candidate_name candidate) final = true) by (eapply str_le_trans; [done|by apply Hle]).
    by rewrite Hfinal.
  - by rewrite IH.
Qed.

Lemma list_directory_reads d self directory query names :
  fst (read_dir directory d) = Ok names -> NoDup (to_string_lossy <$> names) -> nothing_stale d directory names ->
  let left := beyond (after query) (whole_listing self (listing_prefix self directory) directory names) in
  reads_as d (list_directory self directory query)
    (let* found := described d self (take (Z.to_nat LISTING_CAP) left) in
     Ok {| entries := found; truncated := LISTING_CAP <? Z.of_nat (length left) |}).
Proof.
  intros Hread Hdistinct Hfresh left. unfold list_directory. cbn zeta.
  eapply reads_as_bind; [eapply reads_as_map, reads_as_call|].
  unfold read_dir, reads in Hread. cbn in Hread. rewrite Hread. cbn [or_error].
  fold (listing_prefix self directory).
  eapply reads_as_bind; [by apply list_names_reads|].
  change (@nil Candidate) with (take most (@nil Candidate)). rewrite keep_all, listable_beyond by done. fold left.
  replace (take (Z.to_nat LISTING_CAP) (take most left)) with (take (Z.to_nat LISTING_CAP) left)
    by (rewrite take_take; f_equal; unfold LISTING_CAP; lia).
  replace (LISTING_CAP <? Z.of_nat (length (take most left))) with (LISTING_CAP <? Z.of_nat (length left)).
  2:{ rewrite length_take. unfold LISTING_CAP. destruct (Z.ltb_spec 10000 (Z.of_nat (length left))); symmetry;
      [apply Z.ltb_lt|apply Z.ltb_ge]; lia. }
  eapply reads_as_try; [apply describe_all_reads|]. intros found _. apply reads_as_ret.
Qed.

End listing.
