(* ===== verification/FilesContained.v ===== *)
(** * Writes stay in their mount

    Every call a write makes changes names only at or below a target that lies
    below the mount's root and is not excluded, or a part beside one. *)
From S2P Require Import Prelude.
From stdpp Require Import pretty sorting.
From S2P Require Import Text Wire Json Selector Http Host Auth Server Disk DiskFacts Config.
From S2P Require Import Files FilesServer FileFacts.
Local Open Scope string_scope.
Local Open Scope list_scope.
Local Open Scope Z_scope.
Local Open Scope ceres_scope.

(** What [uuid] promises of the text of a version 4 UUID. *)
Class UuidLaws `{HttpCrates} `{Uuids} := {
  uuid_length : forall count, String.length (uuid count) = 36%nat;
  uuid_dots : forall count, contains_char "." (uuid count) = false;
  uuid_slashes : forall count, contains_char "/" (uuid count) = false;
  uuid_parses : forall count, is_Some (parse_uuid (uuid count))
}.

Lemma app_longer (path : Path) name : starts_with path (path ++ [name]) = false.
Proof.
  destruct (starts_with path (path ++ [name])) eqn:Hstarts; [|done].
  apply starts_with_iff in Hstarts as [rest Hrest]. apply (f_equal length) in Hrest.
  rewrite !length_app in Hrest. cbn in Hrest. lia.
Qed.

Lemma app_longer_more (path : Path) name more base :
  starts_with base (path ++ [name]) = true -> starts_with path (base ++ more) = false.
Proof.
  intros [rest ->]%starts_with_iff. destruct (starts_with path _) eqn:Hstarts; [|done].
  apply starts_with_iff in Hstarts as [other Hrest]. apply (f_equal length) in Hrest.
  rewrite !length_app in Hrest. cbn in Hrest. lia.
Qed.

(** The name of a part is one name. *)
Lemma part_name_spelled `{UuidLaws} name count :
  spelled name = true -> spelled ("." +:+ name +:+ "." +:+ uuid count +:+ ".part") = true.
Proof.
  intros (Hne & _ & _ & Hslash)%spelled_cases. apply spelled_cases. split_and!; [done| | |].
  - by destruct name.
  - destruct name as [|c [|more rest]]; [done|by intros [=]|by intros [=]].
  - rewrite !contains_char_app, Hslash, uuid_slashes. done.
Qed.

(** ** Homes

    What a write relies on: the tree, and the directories down to its
    target's. *)
Definition home (t : WriteTarget) (d : Disk) : Prop := tree d /\ directories d (target_parent t).

Lemma stable_home t : stable calm (home t).
Proof. by apply stable_and; [apply stable_tree|apply stable_directories]. Qed.

Lemma home_tree t d : home t d -> tree d.
Proof. by intros [? _]. Qed.

Lemma home_entry t d name : home t d -> spelled name = true -> entry d (target_parent t ++ [name]) = Ok (target_parent t ++ [name]).
Proof. intros [Htree Hdirs] Hname. apply entry_directories; [done|by apply tree_root|done]. Qed.

(** A step below a path that is below a home keeps the home. *)
Lemma home_under t d d' bases :
  home t d -> only_under bases d d' -> tree d' ->
  Forall (fun base => starts_with (target_parent t) base = false) bases -> home t d'.
Proof. intros [_ Hdirs] Hunder Htree Hbases. split; [done|]. by eapply only_under_directories. Qed.

(** ** Removals

    Of an entry of a home, where every step below it is allowed. *)
Section removals.
Context (Rely Guar : Disk -> Disk -> Prop) (Fault : IoError -> Prop).
Context (rely_calm : forall d d', Rely d d' -> calm d d') (rely_refl : forall d, Rely d d) (guar_refl : forall d, Guar d d).
Context (t : WriteTarget) (name : string) (name_spelled : spelled name = true).

Notation path := (target_parent t ++ [name]).
Context (guar_below : forall d d' more, home t d -> only_names [path ++ more] d d' -> Guar d d').

Notation keeps := (keeps Rely Guar Fault).

Lemma stable_home_rely : stable Rely (home t).
Proof. by apply stable_calm, stable_home. Qed.

Lemma below_home more : starts_with (target_parent t) (path ++ more) = false.
Proof. by eapply app_longer_more, starts_with_refl. Qed.

Lemma below_call {A} more (c : Call A) :
  (forall d, home t d -> only_names [path ++ more] d (snd (c d)) /\ tree (snd (c d))) -> keeps (home t) (call c).
Proof.
  intros Hc. apply triple_call; [done|done|apply stable_home_rely| |done].
  intros d Hd. destruct (Hc d Hd) as [Hnames Htree]. split; [by eapply guar_below|].
  eapply home_under; [done|by apply only_names_under|done|]. constructor; [apply below_home|constructor].
Qed.

Lemma remove_file_keeps : keeps (home t) (call (remove_file path)).
Proof.
  apply (below_call []). intros d Hd. rewrite app_nil_r. split; [|apply remove_file_tree, Hd].
  destruct (remove_file_under path d) as [->|(at_ & Hentry & Hunder)]; [done|].
  rewrite home_entry in Hentry by done. by injection Hentry as <-.
Qed.

Lemma path_not_root more : path ++ more <> [].
Proof. by destruct (target_parent t). Qed.

Lemma unlink_keeps more : keeps (home t) (call (unlink (path ++ more))).
Proof.
  apply (below_call more). intros d Hd. split; [apply unlink_under|apply unlink_tree; [apply path_not_root|apply Hd]].
Qed.

Lemma remove_dir_keeps : keeps (home t) (call (remove_dir path)).
Proof.
  apply (below_call []). intros d Hd. unfold remove_dir. rewrite home_entry by done. rewrite app_nil_r.
  split; [apply remove_empty_under|apply remove_empty_tree; [|apply Hd]].
  pose proof (path_not_root []) as Hne. by rewrite app_nil_r in Hne.
Qed.

Lemma unlink_all_keeps paths :
  Forall (fun below => starts_with below path = true) paths -> keeps (home t) (unlink_all paths).
Proof.
  intros Hpaths. induction Hpaths as [|below paths [more ->]%starts_with_iff Hpaths IH]; [apply keeps_ret|].
  apply keeps_bind; [apply unlink_keeps|]. intros [[]|error]; [done|apply keeps_ret].
Qed.

Lemma remove_dir_all_keeps : keeps (home t) (remove_dir_all path).
Proof.
  eapply (triple_try _ _ _ _ _ (fun found d =>
    (fst found = path /\ Forall (fun below => starts_with below path = true) (snd found)) /\ home t d)).
  - apply triple_read; [done|done|apply stable_home_rely| |done].
    intros d Hd. rewrite home_entry by done. cbn. destruct (stands d path) as [found|]; [|done]. cbn.
    split; [|done]. split; [done|]. destruct (is_dir found); [|constructor]. unfold deepest_first.
    rewrite merge_sort_Permutation. apply Forall_forall. intros below Hin.
    unfold Disk.below in Hin. apply list_elem_of_In, List.filter_In in Hin as [_ Hin].
    by apply andb_true_iff in Hin as [? _].
  - intros [at_ paths]. apply triple_pure. cbn. intros [-> Hpaths].
    apply keeps_bind; [by apply unlink_all_keeps|]. intros [[]|error]; [|apply keeps_ret].
    pose proof (unlink_keeps []) as Hunlink. by rewrite app_nil_r in Hunlink.
Qed.

Lemma remove_part_keeps : keeps (home t) (remove_part path).
Proof.
  apply keeps_bind; [apply keeps_read; [done|done|apply stable_home_rely]|].
  intros found. apply keeps_bind; [|intros; apply keeps_ret].
  destruct found as [metadata|]; [|apply remove_file_keeps].
  destruct (is_dir metadata); [apply remove_dir_all_keeps|apply remove_file_keeps].
Qed.

Lemma create_keeps shape : keeps (home t) (call (create path shape)).
Proof.
  apply (below_call []). intros d Hd. rewrite app_nil_r. split; [|apply create_tree, Hd].
  destruct (create_under path shape d) as (at_ & Hunder & [Hentry|Hsame]); [|by rewrite Hsame].
  rewrite home_entry in Hentry by done. by injection Hentry as <-.
Qed.
End removals.

Section contained.
Context `{HttpCrates} `{GlobCrate} `{FilesCrates} `{FileSystem} `{Uuids} `{!UuidLaws}.
Context (self : OpenMount) (Fault : IoError -> Prop).

(** Where a write may act. *)
Definition below_target (path : Path) : Prop :=
  exists t, target_ok self t /\ starts_with path (target_path t) = true.
Definition below_part (path : Path) : Prop :=
  exists t id, target_ok self t /\ starts_with path (part_path t id) = true.
Definition reachable (path : Path) : Prop := below_target path \/ below_part path.

Definition contained (d d' : Disk) : Prop := forall path, ~ reachable path -> names d' !! path = names d !! path.

Lemma contained_refl d : contained d d.
Proof. done. Qed.

Lemma reachable_below path base : reachable base -> starts_with path base = true -> reachable path.
Proof.
  intros [(t & Ht & Hbase)|(t & id & Ht & Hbase)] Hpath; [left; exists t|right; exists t, id];
    (split; [done|]); by eapply starts_with_trans.
Qed.

Lemma only_under_contained bases d d' : only_under bases d d' -> Forall reachable bases -> contained d d'.
Proof.
  intros [Hnames _] Hbases path Hpath. apply Hnames. apply (Forall_impl _ _ _ Hbases). intros base Hbase.
  destruct (starts_with path base) eqn:Hstarts; [|done]. destruct Hpath. by eapply reachable_below.
Qed.

(** A step that acts below the target's directory only. *)
Definition home_step (t : WriteTarget) (d d' : Disk) : Prop :=
  exists bases, only_under bases d d' /\ tree d' /\
    Forall (fun base => reachable base /\ starts_with (target_parent t) base = false) bases.

Lemma home_step_spec t d d' : home t d -> home_step t d d' -> contained d d' /\ home t d'.
Proof.
  intros [Htree Hdirs] (bases & Hunder & Htree' & Hbases). split.
  - eapply only_under_contained; [done|]. eapply Forall_impl; [done|]. by intros base [? _].
  - split; [done|]. eapply only_under_directories; [done| |done]. eapply Forall_impl; [done|]. by intros base [_ ?].
Qed.

Lemma home_step_refl t d : home t d -> home_step t d d.
Proof. intros [Htree _]. exists []. by split. Qed.

Notation keeps := (keeps calm contained Fault).

Lemma keeps_home {A} t (c : Call A) : (forall d, home t d -> home_step t d (snd (c d))) -> keeps (home t) (call c).
Proof.
  intros Hc. apply triple_call; [apply calm_refl|apply contained_refl|apply stable_home| |done].
  intros d Hd. by apply home_step_spec, Hc.
Qed.

Lemma keeps_home_torn {A} t partial (c : Call A) :
  (forall d, home t d -> home_step t d (snd (c d))) -> (forall count d, home t d -> home_step t d (partial count d)) ->
  keeps (home t) (call_torn partial c).
Proof.
  intros Hc Hpartial. apply triple_call_torn; [apply calm_refl|apply stable_home|..].
  - intros d Hd. by apply home_step_spec, Hc.
  - intros d error count Hd _. by apply home_step_spec, Hpartial.
Qed.

(** ** The names a write uses *)

Lemma target_path_reachable t : target_ok self t -> reachable (target_path t).
Proof. intros Ht. left. exists t. split; [done|apply starts_with_refl]. Qed.

Lemma part_path_reachable t id : target_ok self t -> reachable (part_path t id).
Proof. intros Ht. right. exists t, id. split; [done|apply starts_with_refl]. Qed.

Lemma target_spelled t : target_ok self t -> spelled (target_name t) = true.
Proof. by intros (text & _ & _ & _ & ?). Qed.

Lemma part_spelled t count : target_ok self t -> spelled ("." +:+ target_name t +:+ "." +:+ uuid count +:+ ".part") = true.
Proof. intros Ht. by eapply part_name_spelled, target_spelled. Qed.

(** A name in the target's directory: the target's own, or a part's. *)
Definition own_name (t : WriteTarget) (path : Path) : Prop :=
  path = target_path t \/ exists count, path = part_path t (uuid count).

Lemma own_name_cases t path :
  target_ok self t -> own_name t path ->
  exists name, path = target_parent t ++ [name] /\ spelled name = true /\ reachable path.
Proof.
  intros Ht [->|[count ->]].
  - exists (target_name t). split_and!; [done|by apply target_spelled|by apply target_path_reachable].
  - exists ("." +:+ target_name t +:+ "." +:+ uuid count +:+ ".part").
    split_and!; [done|by apply part_spelled|by apply part_path_reachable].
Qed.

Lemma own_entry t path d : target_ok self t -> own_name t path -> home t d -> entry d path = Ok path.
Proof. intros Ht Hown Hhome. destruct (own_name_cases t path Ht Hown) as (name & -> & Hname & _). by apply home_entry. Qed.

Lemma own_above t path more : target_ok self t -> own_name t path -> starts_with (target_parent t) (path ++ more) = false.
Proof. intros Ht Hown. destruct (own_name_cases t path Ht Hown) as (name & -> & _). by eapply app_longer_more, starts_with_refl. Qed.

Lemma own_base t path more :
  target_ok self t -> own_name t path -> reachable (path ++ more) /\ starts_with (target_parent t) (path ++ more) = false.
Proof.
  intros Ht Hown. split; [|by apply own_above]. destruct (own_name_cases t path Ht Hown) as (name & _ & _ & Hreach).
  eapply reachable_below; [done|]. apply path_starts_app.
Qed.

Lemma own_base_here t path :
  target_ok self t -> own_name t path -> reachable path /\ starts_with (target_parent t) path = false.
Proof. intros Ht Hown. pose proof (own_base t path [] Ht Hown) as Hbase. by rewrite app_nil_r in Hbase. Qed.

Lemma home_step_one t d d' base :
  only_under [base] d d' -> tree d' -> reachable base /\ starts_with (target_parent t) base = false -> home_step t d d'.
Proof. intros ?? Hbase. exists [base]. split; [done|]. split; [done|]. constructor; [done|constructor]. Qed.

(** ** Calls on a target or a part *)

Lemma create_dir_keeps t path : target_ok self t -> own_name t path -> keeps (home t) (call (create_dir path)).
Proof.
  intros Ht Hown. apply keeps_home. intros d Hd. rewrite create_dir_snd.
  destruct (create_under path Directory d) as (at_ & Hunder%only_names_under & [Hentry|Hsame]); [|by rewrite Hsame; apply home_step_refl].
  rewrite (own_entry t path d Ht Hown Hd) in Hentry. injection Hentry as <-.
  eapply home_step_one; [done|by apply create_tree; apply Hd|by apply own_base_here].
Qed.

(** What the removals are allowed, at an own name. *)
Lemma own_guar t path d d' more :
  target_ok self t -> own_name t path -> only_names [path ++ more] d d' -> contained d d'.
Proof.
  intros Ht Hown Hunder%only_names_under. eapply only_under_contained; [done|].
  constructor; [by apply (own_base t path)|constructor].
Qed.

(** The lemma of a removal or a creation, at an own name. *)
Ltac own_call lemma t path :=
  let name := fresh "name" in let Hname := fresh "Hname" in
  intros Ht Hown; pose proof (fun d d' more (_ : home t d) => own_guar t path d d' more Ht Hown);
  destruct (own_name_cases t path Ht Hown) as (name & -> & Hname & _);
  apply lemma; [by intros|apply calm_refl|apply contained_refl|done|done].

Lemma own_create t path shape : target_ok self t -> own_name t path -> keeps (home t) (call (create path shape)).
Proof. own_call create_keeps t path. Qed.

Lemma own_remove_file t path : target_ok self t -> own_name t path -> keeps (home t) (call (remove_file path)).
Proof. own_call remove_file_keeps t path. Qed.

Lemma own_remove_dir t path : target_ok self t -> own_name t path -> keeps (home t) (call (remove_dir path)).
Proof. own_call remove_dir_keeps t path. Qed.

Lemma own_remove_dir_all t path : target_ok self t -> own_name t path -> keeps (home t) (remove_dir_all path).
Proof. own_call remove_dir_all_keeps t path. Qed.

Lemma own_remove_part t path : target_ok self t -> own_name t path -> keeps (home t) (remove_part path).
Proof. own_call remove_part_keeps t path. Qed.

Lemma hard_link_keeps t from to : target_ok self t -> own_name t to -> keeps (home t) (call (hard_link from to)).
Proof.
  intros Ht Hown. apply keeps_home. intros d Hd.
  destruct (hard_link_under from to d) as (at_ & Hunder%only_names_under & [Hentry|Hsame]); [|by rewrite Hsame; apply home_step_refl].
  rewrite (own_entry t to d Ht Hown Hd) in Hentry. injection Hentry as <-.
  eapply home_step_one; [done|by apply hard_link_tree; apply Hd|by apply own_base_here].
Qed.

Lemma rename_keeps t exclusive from to :
  target_ok self t -> own_name t from -> own_name t to -> keeps (home t) (call (rename_checked exclusive from to)).
Proof.
  intros Ht Hfrom Hto. apply keeps_home. intros d Hd.
  destruct (rename_under exclusive from to d) as [->|(at_ & held & Hat & Hheld & Hunder%only_names_under)]; [by apply home_step_refl|].
  rewrite (own_entry t from d Ht Hfrom Hd) in Hat. rewrite (own_entry t to d Ht Hto Hd) in Hheld.
  injection Hat as <-. injection Hheld as <-. exists [from; to]. split; [done|].
  split; [by apply rename_tree; apply Hd|]. constructor; [by apply own_base_here|]. constructor; [by apply own_base_here|constructor].
Qed.

Lemma rename_without_replacing_keeps t from to :
  target_ok self t -> own_name t from -> own_name t to -> keeps (home t) (rename_without_replacing from to).
Proof.
  intros Ht Hfrom Hto. apply keeps_bind; [by apply rename_keeps|]. intros [[]|error]; [apply keeps_ret|].
  destruct (is_unsupported error); [by apply rename_keeps|apply keeps_ret].
Qed.

Lemma discard_keeps t part :
  target_ok self t -> (forall path, part = Some path -> own_name t path) -> keeps (home t) (discard part).
Proof.
  intros Ht Hown. destruct part as [path|]; [|apply keeps_ret]. apply own_remove_part; [done|by apply Hown].
Qed.

(** ** Bytes *)

Lemma home_step_inodes t d d' :
  names d' = names d -> only_under [] d d' -> tree d' -> home_step t d d'.
Proof. intros _ Hunder Htree. exists []. split; [done|]. split; [done|constructor]. Qed.

Lemma write_all_keeps t file chunk : keeps (home t) (write_all file chunk).
Proof.
  apply keeps_home_torn; intros; (exists []; split; [apply write_chunk_under|split; [|constructor]]);
    apply write_chunk_tree; by eapply home_tree.
Qed.

Lemma sync_keeps t : keeps (home t) sync.
Proof. apply keeps_read; [apply calm_refl|apply contained_refl|apply stable_home]. Qed.

Lemma write_chunks_keeps t file chunks limit written : keeps (home t) (write_chunks file chunks limit written).
Proof.
  revert written. induction chunks as [|[chunk|] chunks IH]; intros written; [|cbn [write_chunks]|apply keeps_ret].
  - apply keeps_bind; [apply triple_map, sync_keeps|]. intros [[]|error]; [apply triple_map, sync_keeps|apply keeps_ret].
  - destruct (match limit with Some _ => _ | None => _ end); [apply keeps_ret|].
    apply keeps_bind; [apply write_all_keeps|]. intros [[]|error]; [apply IH|apply keeps_ret].
Qed.

(** A copy onto a path all of whose spellings stay where they are. *)
Lemma fs_copy_keeps t from to (P : Disk -> Prop) base :
  stable calm P -> (forall d, P d -> home t d) ->
  reachable base /\ starts_with (target_parent t) base = false ->
  (forall d at_, P d -> entry d to = Ok at_ -> at_ = base) ->
  (forall d d', P d -> home t d' -> no_links d d' -> P d') ->
  keeps P (fs_copy from to).
Proof.
  intros HP Hhome Hbase Hentry Hlinks. apply keeps_bind.
  - apply triple_call; [apply calm_refl|apply contained_refl|done| |done]. intros d Hd.
    assert (Hstep : home_step t d (snd (copy_open from to d))).
    { destruct (copy_open_under from to d) as (at_ & Hunder & [Hat|Hsame]).
      - rewrite (Hentry d at_ Hd Hat) in Hunder. eapply home_step_one; [done|apply copy_open_tree|done].
        by eapply home_tree, Hhome.
      - apply home_step_inodes; [done| |apply copy_open_tree; by eapply home_tree, Hhome].
        split; [by intros; rewrite Hsame|apply Hunder]. }
    destruct (home_step_spec t _ _ (Hhome d Hd) Hstep) as [Hcontained Hhome']. split; [done|].
    eapply Hlinks; [done..|apply copy_open_no_links].
  - intros [[source target]|error]; [|apply keeps_ret].
    assert (Hbytes : forall some d, P d -> contained d (copy_bytes source target some d) /\ P (copy_bytes source target some d)).
    { intros some d Hd. pose proof (copy_bytes_under [] source target some d) as Hunder.
      assert (Hstep : home_step t d (copy_bytes source target some d)).
      { exists []. split; [done|]. split; [|constructor]. apply copy_bytes_tree. by eapply home_tree, Hhome. }
      destruct (home_step_spec t _ _ (Hhome d Hd) Hstep). split; [done|].
      eapply Hlinks; [done..|apply copy_bytes_no_links]. }
    apply triple_call_torn; [apply calm_refl|done|..]; intros; by apply Hbytes.
Qed.

Lemma clear_links d d' path : clear d path -> no_links d d' -> clear d' path.
Proof.
  intros Hclear Hlinks rest found Hfound. destruct (is_symlink found) eqn:Hlink; [|done].
  by rewrite <-(Hclear rest found (Hlinks _ _ Hfound Hlink)).
Qed.

Definition copying (t : WriteTarget) (part : Path) (d : Disk) : Prop := home t d /\ clear d part.

Lemma stable_copying t part : stable calm (copying t part).
Proof. by apply stable_and; [apply stable_home|apply stable_clear]. Qed.

Lemma join_below path below : below_ok below -> join path below = path ++ components below.
Proof. intros [Habsolute _]. unfold join. by rewrite Habsolute. Qed.

Lemma copying_entry t part below d at_ :
  target_ok self t -> own_name t part -> below_ok below -> copying t part d ->
  entry d (join part below) = Ok at_ -> at_ = part ++ components below.
Proof.
  intros Ht Hown Hbelow [[_ Hdirs] Hclear]. rewrite join_below by done.
  destruct (own_name_cases t part Ht Hown) as (name & -> & Hname & _). rewrite <-app_assoc. cbn [app].
  apply entry_clear; [done..|]. constructor; [by apply spelled_not_dots|apply Hbelow].
Qed.

Lemma copy_visit_keeps t part s below walked :
  target_ok self t -> own_name t part -> below_ok below -> keeps (copying t part) (copy_visit part s below walked).
Proof.
  intros Ht Hown Hbelow. apply keeps_bind; [|intros [[]|]; apply keeps_ret].
  destruct walked as [path metadata|target metadata|metadata|]; [| apply keeps_ret| |apply keeps_ret].
  - eapply (fs_copy_keeps t _ _ _ (part ++ components below)); [apply stable_copying|by intros d [? _]|by apply own_base| |].
    + intros d at_ Hd Hat. by eapply copying_entry.
    + intros d d' [_ Hclear] Hhome Hlinks. split; [done|]. by eapply clear_links.
  - apply triple_call; [apply calm_refl|apply contained_refl|apply stable_copying| |done]. intros d Hd.
    rewrite create_dir_snd.
    assert (Hstep : home_step t d (snd (create (join part below) Directory d))).
    { destruct (create_under (join part below) Directory d) as (at_ & Hunder%only_names_under & [Hat|Hsame]);
        [|rewrite Hsame; apply home_step_refl, Hd].
      rewrite (copying_entry t part below d at_ Ht Hown Hbelow Hd Hat) in Hunder.
      eapply home_step_one; [done|apply create_tree; apply Hd|by apply own_base]. }
    destruct Hd as [Hhome Hclear]. destruct (home_step_spec t _ _ Hhome Hstep). split; [done|]. split; [done|].
    eapply clear_links; [done|by apply create_no_links].
Qed.

(** ** Writes, once the mount is open *)

Notation spec := (triple calm contained Fault).
Notation anyway := (fun _ _ => True).

Lemma keeps_anyway {A} (P : Disk -> Prop) (p : Io A) : keeps P p -> spec P p anyway.
Proof. intros Hp. by eapply keeps_triple. Qed.

Lemma ret_anyway {A} (P : Disk -> Prop) (a : A) : spec P (io_ret a) anyway.
Proof. by apply triple_ret. Qed.
Hint Resolve ret_anyway : core.

(** After its target is found, a write is at home there. *)
Lemma with_target {A} names (k : WriteTarget -> Io (result A ApiError)) :
  Forall (fun name => spelled name = true) names ->
  (forall t, target_ok self t -> spec (home t) (k t) anyway) ->
  spec tree (let~? t := target self names in k t) anyway.
Proof.
  intros Hnames Hk. eapply (triple_try _ _ _ _ _ (fun t d => target_ok self t /\ home t d)).
  - eapply triple_mono; [by apply (target_spec _ _ _ (fun _ _ Hcalm => Hcalm) calm_refl contained_refl _ _ tree); [|apply stable_tree|]|done|].
    intros [t|error] d; [|done]. by intros (Htree & Ht & Hdirs & _).
  - intros t. apply triple_pure. apply Hk.
Qed.

Lemma existing_keeps t other : keeps (home t) (existing other).
Proof. apply existing_spec; [apply calm_refl|apply contained_refl|apply stable_home]. Qed.

(** A part of its own. *)
Lemma beside_spec t (P : Disk -> Prop) : spec P (beside t) (fun part d => own_name t part /\ P d).
Proof.
  eapply triple_bind; [by apply (triple_draw _ _ _ P (fun id d => (exists count, id = uuid count) /\ P d)); eauto|].
  intros id. apply triple_ret. intros d [[count ->] HP]. split; [|done]. right. by exists count.
Qed.

Lemma commit_keeps t part conditions :
  target_ok self t -> own_name t part ->
  spec (home t) (commit part t conditions) (fun committed d =>
    (forall path, snd committed = Some path -> own_name t path) /\ home t d).
Proof.
  intros Ht Hown.
  assert (Hback : forall (answer : result bool ApiError), spec (home t) (io_ret (answer, Some part)) (fun committed d =>
    (forall path, snd committed = Some path -> own_name t path) /\ home t d)).
  { intros answer. apply triple_ret. intros d Hd. split; [|done]. by intros path [= <-]. }
  eapply triple_bind; [apply existing_keeps|]. intros [found|error]; [|apply Hback].
  destruct (conditions_check conditions found); [|apply Hback].
  eapply triple_bind.
  { instantiate (1 := fun _ => home t). destruct (create_only conditions); [|by apply triple_ret].
    apply hard_link_keeps; [done|by left]. }
  intros [[]|error]; [apply Hback|]. destruct (_ && _); [apply Hback|].
  eapply triple_bind; [apply rename_keeps; [done..|by left]|].
  intros [[]|failed]; [|apply Hback]. by apply triple_ret.
Qed.

Lemma upload_finish_keeps t part streamed conditions :
  target_ok self t -> own_name t part -> spec (home t) (upload_finish streamed part t conditions) anyway.
Proof.
  intros Ht Hown. unfold upload_finish.
  eapply (triple_bind _ _ _ _ _ (fun committed d => (forall path, snd committed = Some path -> own_name t path) /\ home t d)).
  - destruct streamed; [by apply commit_keeps|]. apply triple_ret. intros d Hd. split; [|done]. by intros path [= <-].
  - intros committed. apply triple_pure. intros Hpart. eapply triple_bind; [by apply discard_keeps|]. auto.
Qed.

Lemma upload_contained names conditions (k : WriteTarget * Path * Z -> Io (result Response ApiError)) :
  Forall (fun name => spelled name = true) names ->
  (forall t part file, target_ok self t -> own_name t part -> spec (home t) (k (t, part, file)) anyway) ->
  spec tree
    (let~? begun :=
       let~? t := target self names in
       if is_part (target_name t) then io_ret (Err (error_http 400))
       else
         let~? found := existing t in
         match conditions_check conditions found with
         | Err error => io_ret (Err error)
         | Ok _ =>
             let~ part := beside t in
             let~ made := call (create_new part) in
             match made with
             | Ok file => io_ret (Ok (t, part, file))
             | Err error => let~ _ := remove_part part in io_ret (Err (write_error error))
             end
         end in
     k begun) anyway.
Proof.
  intros Hnames Hk.
  eapply (triple_try _ _ _ _ _ (fun begun d => (target_ok self begun.1.1 /\ own_name begun.1.1 begun.1.2) /\ home begun.1.1 d));
    [|intros [[t part] file]; apply triple_pure; intros [Ht Hown]; by apply Hk].
  eapply (triple_try _ _ _ _ _ (fun t d => target_ok self t /\ home t d)).
  { eapply triple_mono; [by apply (target_spec _ _ _ (fun _ _ Hcalm => Hcalm) calm_refl contained_refl _ _ tree); [|apply stable_tree|]|done|].
    intros [t|error] d; [|done]. by intros (Htree & Ht & Hdirs & _). }
  intros t. apply triple_pure. intros Ht. destruct (is_part _); [by apply triple_ret|].
  eapply triple_bind; [apply existing_keeps|]. intros [found|error]; [|by apply triple_ret].
  destruct (conditions_check conditions found); [|by apply triple_ret].
  eapply triple_bind; [apply beside_spec|]. intros part. apply triple_pure. intros Hown.
  eapply triple_bind; [by apply own_create|]. intros [file|error].
  - by apply triple_ret.
  - eapply triple_bind; [by apply own_remove_part|]. intros []. by apply triple_ret.
Qed.

(** A move's source and destination. *)
Definition homes (s t : WriteTarget) (d : Disk) : Prop := home s d /\ directories d (target_parent t).

Lemma stable_homes s t : stable calm (homes s t).
Proof. by apply stable_and; [apply stable_home|apply stable_directories]. Qed.

(** A call that acts at or below reachable paths and after which nothing is
    needed. *)
Lemma last_call {A} (P : Disk -> Prop) (c : Call A) :
  stable calm P -> (forall d, P d -> contained d (snd (c d))) -> spec P (call c) anyway.
Proof.
  intros HP Hc. apply triple_call; [apply calm_refl|apply contained_refl|done| |done]. intros d Hd. split; [by apply Hc|done].
Qed.

Lemma move_contained s t exclusive :
  target_ok self s -> target_ok self t ->
  forall d, homes s t d -> contained d (snd (rename_checked exclusive (target_path s) (target_path t) d)).
Proof.
  intros Hs Ht d [Hhome Hdirs].
  destruct (rename_under exclusive (target_path s) (target_path t) d) as [->|(at_ & held & Hat & Hheld & Hunder%only_names_under)]; [done|].
  rewrite (own_entry s _ d Hs ltac:(by left) Hhome) in Hat. injection Hat as <-.
  rewrite (own_entry t _ d Ht ltac:(by left)) in Hheld by (split; [apply Hhome|done]). injection Hheld as <-.
  eapply only_under_contained; [done|].
  constructor; [by apply target_path_reachable|constructor; [by apply target_path_reachable|constructor]].
Qed.

(** A second target, found while the first's directory stays. *)
Lemma both_targets {A} names destination (k : WriteTarget -> WriteTarget -> Io (result A ApiError)) :
  Forall (fun name => spelled name = true) names -> Forall (fun name => spelled name = true) destination ->
  (forall s t, target_ok self s -> target_ok self t -> spec (homes s t) (k s t) anyway) ->
  spec tree (let~? s := target self names in let~? t := target self destination in k s t) anyway.
Proof.
  intros Hnames Hdestination Hk. apply with_target; [done|]. intros s Hs.
  eapply (triple_try _ _ _ _ _ (fun t d => target_ok self t /\ homes s t d)).
  - eapply triple_mono; [apply (target_spec _ _ _ (fun _ _ Hcalm => Hcalm) calm_refl contained_refl _ _ (home s)); [done|apply stable_home|by intros d [? _]]|done|].
    intros [t|error] d; [|done]. intros (Hhome & Ht & Hdirs & _). split; [done|]. by split.
  - intros t. apply triple_pure. intros Ht. by apply Hk.
Qed.

Lemma existing_any t (P : Disk -> Prop) : stable calm P -> keeps P (existing t).
Proof. intros HP. by apply existing_spec; [apply calm_refl|apply contained_refl|]. Qed.

Lemma rename_contained names destination (query : FileQuery) :
  Forall (fun name => spelled name = true) names -> Forall (fun name => spelled name = true) destination ->
  spec tree
    (let~? source := target self names in
     let~? t := target self destination in
     if is_part (target_name t) then io_ret (Err (error_http 400))
     else
       let~? found := existing source in
       match found with
       | None => io_ret (Err not_found)
       | Some moved =>
           if is_dir moved && starts_with (target_parent t) (target_path source) then io_ret (Err (error_http 400))
           else
             let~? there := existing t in
             match move_replaces source t moved there (overwrite query) with
             | Err error => io_ret (Err error)
             | Ok replace =>
                 let~? _ := refuse_excluded_below self source moved in
                 let~ renamed := if replace then call (rename_call (target_path source) (target_path t))
                                 else rename_without_replacing (target_path source) (target_path t) in
                 io_ret match renamed with
                        | Ok _ => Ok (empty_response 204)
                        | Err error => Err (write_error error)
                        end
             end
       end) anyway.
Proof.
  intros Hnames Hdestination. apply both_targets; [done..|]. intros s t Hs Ht.
  destruct (is_part _); [done|]. eapply triple_bind; [apply existing_any, stable_homes|].
  intros [[moved|]|error]; [|auto..]. destruct (_ && _); [auto|].
  eapply triple_bind; [apply existing_any, stable_homes|]. intros [there|error]; [|auto].
  destruct (move_replaces _ _ _ _ _) as [replace|error]; [|auto].
  eapply triple_bind.
  { apply refuse_excluded_below_keeps; [apply calm_refl|apply contained_refl|apply stable_homes|by intros d [[? _] _]]. }
  intros [[]|error]; [|auto]. eapply (triple_bind _ _ _ _ _ anyway); [|auto].
  destruct replace; [apply last_call; [apply stable_homes|by apply move_contained]|].
  eapply (triple_bind _ _ _ _ _ (fun answer d => match answer with Ok _ => True | Err _ => homes s t d end)).
  - apply triple_call; [apply calm_refl|apply contained_refl|apply stable_homes| |done]. intros d Hd.
    split; [by apply move_contained|].
    destruct (renameat2 (target_path s) (target_path t) d) as [[[]|error] d'] eqn:Hrename; [done|].
    by apply rename_Err in Hrename as ->.
  - intros [[]|error]; [auto|]. destruct (is_unsupported error); [|auto].
    apply last_call; [apply stable_homes|by apply move_contained].
Qed.

Lemma place_spec t part replace :
  target_ok self t -> own_name t part ->
  spec (home t) (place part t replace) (fun placed d =>
    (forall path, snd placed = Some path -> own_name t path) /\ home t d).
Proof.
  intros Ht Hown. eapply (triple_bind _ _ _ _ _ (fun _ => home t)).
  - destruct replace; [apply rename_keeps|apply rename_without_replacing_keeps]; try done; by left.
  - intros [[]|error]; apply triple_ret; intros d Hd; (split; [|done]); [done|by intros path [= <-]].
Qed.

(** A part that was just made has nothing below it. *)
Lemma made_clear path d d' i :
  tree d -> create path Directory d = (Ok i, d') -> entry d path = Ok path -> clear d' path.
Proof.
  intros Htree Hmade Hentry. apply create_Ok in Hmade as (at_ & node & Hat & Hfree & Hfresh & Hnames & Hinodes & Hshape).
  rewrite Hentry in Hat. injection Hat as <-. intros rest [j found] [Hname Hinode]%stands_Some. cbn in *.
  rewrite Hnames in Hname. rewrite Hinodes in Hinode. destruct rest as [|first rest].
  - rewrite app_nil_r, lookup_insert_eq in Hname. injection Hname as <-. rewrite lookup_insert_eq in Hinode.
    injection Hinode as <-. unfold is_symlink. cbn. by rewrite Hshape.
  - exfalso. assert (Hbelow : names d !! (path ++ first :: rest) = None).
    { apply tree_not_below; [done| |done]. intros other [Hother _]%stands_Some. by rewrite Hfree in Hother. }
    assert (Hsome : names d !! (path ++ first :: rest) = Some j); [|by rewrite Hbelow in Hsome].
    rewrite <-Hname. symmetry. apply lookup_insert_ne. intros Heq. apply (f_equal length) in Heq.
    rewrite length_app in Heq. cbn in Heq. lia.
Qed.

Lemma copy_entry_spec t source metadata part :
  target_ok self t -> own_name t part -> spec (home t) (copy_entry self source metadata part) (fun _ d => home t d).
Proof.
  intros Ht Hown. unfold copy_entry. destruct (is_file metadata).
  - eapply (fs_copy_keeps t _ _ (home t) part); [apply stable_home|done|by apply own_base_here| |done].
    intros d at_ Hd Hat. rewrite (own_entry t part d Ht Hown Hd) in Hat. by injection Hat.
  - eapply (triple_try _ _ _ _ _ (fun _ => copying t part)).
    + pose proof (create_dir_keeps t part Ht Hown) as Hkeeps.
      apply triple_call; [apply calm_refl|apply contained_refl|apply stable_home| |done]. intros d Hd.
      assert (Hstep : contained d (snd (create_dir part d)) /\ home t (snd (create_dir part d))).
      { apply home_step_spec; [done|]. rewrite create_dir_snd.
        destruct (create_under part Directory d) as (at_ & Hunder%only_names_under & [Hentry|Hsame]); [|by rewrite Hsame; apply home_step_refl].
        rewrite (own_entry t part d Ht Hown Hd) in Hentry. injection Hentry as <-.
        eapply home_step_one; [done|by apply create_tree; apply Hd|by apply own_base_here]. }
      split; [apply Hstep|]. unfold create_dir in *. destruct (create part Directory d) as [[i|error] d'] eqn:Hmade; cbn in *; [|apply Hstep].
      split; [apply Hstep|]. eapply made_clear; [by apply Hd|done|by apply (own_entry t part d)].
    + intros []. eapply (triple_try _ _ _ _ _ (fun _ => home t)); [|intros; by apply triple_ret].
      eapply triple_mono; [|by intros d Hd|].
      * apply (walk_keeps _ _ _ calm_refl contained_refl self (copying t part)); [apply stable_copying|by intros d [[? _] _]| |apply below_ok_nil].
        intros. by apply copy_visit_keeps.
      * by intros [[]|] d [? _].
Qed.

Lemma copy_through_contained s t copied replace :
  target_ok self t -> spec (home t) (copy_through self s t copied replace) anyway.
Proof.
  intros Ht. eapply triple_bind; [apply beside_spec|]. intros part. apply triple_pure. intros Hown.
  eapply triple_bind; [by apply copy_entry_spec|]. intros written.
  eapply (triple_bind _ _ _ _ _ (fun placed d => (forall path, snd placed = Some path -> own_name t path) /\ home t d)).
  - destruct written; [by apply place_spec|]. apply triple_ret. intros d Hd. split; [|done]. by intros path [= <-].
  - intros placed. apply triple_pure. intros Hpart. eapply triple_bind; [by apply discard_keeps|]. auto.
Qed.

Lemma copy_contained names destination (query : FileQuery) :
  Forall (fun name => spelled name = true) names -> Forall (fun name => spelled name = true) destination ->
  spec tree
    (let~? source := target self names in
     let~? t := target self destination in
     if is_part (target_name t) then io_ret (Err (error_http 400))
     else
       let~? found := existing source in
       match found with
       | None => io_ret (Err not_found)
       | Some copied =>
           if negb (is_file copied || is_dir copied) ||
              is_dir copied && starts_with (target_parent t) (target_path source) then
             io_ret (Err (error_http 400))
           else
             let~? there := existing t in
             match copy_replaces copied there (overwrite query) with
             | Err error => io_ret (Err error)
             | Ok replace =>
                 let~? _ := refuse_excluded_below self source copied in
                 let~ written := copy_through self source t copied replace in
                 io_ret match written with
                        | Ok _ => Ok (empty_response 201)
                        | Err error => Err (write_error error)
                        end
             end
       end) anyway.
Proof.
  intros Hnames Hdestination. apply both_targets; [done..|]. intros s t Hs Ht.
  destruct (is_part _); [done|]. eapply triple_bind; [apply existing_any, stable_homes|].
  intros [[copied|]|error]; [|auto..]. destruct (_ || _); [auto|].
  eapply triple_bind; [apply existing_any, stable_homes|]. intros [there|error]; [|auto].
  destruct (copy_replaces _ _ _) as [replace|error]; [|auto].
  eapply triple_bind.
  { apply refuse_excluded_below_keeps; [apply calm_refl|apply contained_refl|apply stable_homes|by intros d [[? _] _]]. }
  intros [[]|error]; [|auto]. eapply (triple_bind _ _ _ _ _ anyway); [|auto].
  eapply triple_pre; [|by apply copy_through_contained]. intros d [[Htree _] Hdirs]. by split.
Qed.

Lemma create_directory_contained names :
  Forall (fun name => spelled name = true) names ->
  spec tree
    (let~? t := target self names in
     let~ made := call (create_dir (target_path t)) in
     io_ret match made with Ok _ => Ok (empty_response 201) | Err error => Err (write_error error) end) anyway.
Proof.
  intros Hnames. apply with_target; [done|]. intros t Ht.
  eapply triple_bind; [apply create_dir_keeps; [done|by left]|auto].
Qed.

Lemma delete_contained names (query : FileQuery) :
  Forall (fun name => spelled name = true) names ->
  spec tree
    (let~? t := target self names in
     let~? found := existing t in
     match found with
     | None => io_ret (Err not_found)
     | Some there =>
         let~? removed :=
           if negb (is_dir there) then let~ removed := call (remove_file (target_path t)) in io_ret (Ok removed)
           else if recursive query then
             let~? _ := refuse_excluded_below self t there in
             let~ removed := remove_dir_all (target_path t) in io_ret (Ok removed)
           else let~ removed := call (remove_dir (target_path t)) in io_ret (Ok removed) in
         io_ret match removed with Ok _ => Ok (empty_response 204) | Err error => Err (write_error error) end
     end) anyway.
Proof.
  intros Hnames. apply with_target; [done|]. intros t Ht.
  eapply triple_bind; [apply existing_keeps|]. intros [[there|]|error]; [|auto..].
  eapply (triple_bind _ _ _ _ _ anyway); [|intros [removed|error]; auto].
  assert (Hown : own_name t (target_path t)) by (by left).
  destruct (negb (is_dir there)); [|destruct (recursive query)].
  - eapply triple_bind; [by apply own_remove_file|auto].
  - eapply triple_bind; [apply refuse_excluded_below_keeps; [apply calm_refl|apply contained_refl|apply stable_home|apply home_tree]|].
    intros [[]|error]; [|auto]. eapply triple_bind; [by apply own_remove_dir_all|auto].
  - eapply triple_bind; [by apply own_remove_dir|auto].
Qed.

Lemma write_body_keeps t file chunks limit : keeps (home t) (write_body file chunks limit).
Proof. apply write_chunks_keeps. Qed.
End contained.

(** ** A request that writes *)

Section written.
Context `{HttpCrates} `{TokenCrate} `{GlobCrate} `{FilesCrates} `{FileSystem} `{Uuids} `{!UuidLaws} `{ZipCrate} `{RegexCrate}.

(** Where a request's calls act, by the mount it opens first; a request that
    opens none changes nothing. *)
Definition acts_within (resolved : ResolvedMount) (w w' : World) : Prop :=
  match fst (open_mount resolved w) with
  | Ok self => Forall (fun '(d, d') => contained self d d') (calls w')
  | Err _ => Forall (fun '(d, d') => d' = d) (calls w')
  end.

(** A fresh run among calm others. *)
Definition undisturbed (Fault : IoError -> Prop) (w : World) : Prop :=
  relies calm Fault w /\ calls w = [] /\ tree (disk w).

Lemma open_mount_steps Fault resolved w :
  undisturbed Fault w ->
  let w' := snd (open_mount resolved w) in
  relies calm Fault w' /\ Forall (fun '(d, d') => d' = d) (calls w') /\ tree (disk w').
Proof.
  intros (Hrelies & Hcalls & Htree). unfold open_mount.
  destruct (exclusion_new (exclude resolved)); [|cbn; rewrite Hcalls; by split].
  pose proof (triple_map calm eq Fault tree (or_error not_found)
    (call (reads (fun d => canonical_text d (resolved_path resolved)))) (fun _ => tree)) as Hmap.
  destruct (Hmap (keeps_read _ _ _ calm_refl tree _ (fun d => eq_refl) stable_tree) w) as (Hrelies' & Hguar & Htree');
    [done|by unfold guarantees; rewrite Hcalls|done|].
  unfold io_bind. destruct (io_map _ _ w) as [[at_|error] w'] eqn:Hrun; cbn in *;
    (split; [done|]; split; [|done]; apply (Forall_impl _ _ _ Hguar); by intros [? ?] ->).
Qed.

Lemma opened_within {A} Fault resolved (p : OpenMount -> Io (result A ApiError)) w :
  (forall self, triple calm (contained self) Fault tree (p self) (fun _ _ => True)) -> undisturbed Fault w ->
  acts_within resolved w (snd ((let~? root := open_mount resolved in p root) w)).
Proof.
  intros Hp Hw. pose proof (open_mount_steps Fault resolved w Hw) as (Hrelies & Hsame & Htree).
  unfold acts_within, io_bind in *. destruct (open_mount resolved w) as [[self|error] w'] eqn:Hopen; [|done]. cbn in *.
  apply (Hp self w'); [done| |done]. unfold guarantees. eapply Forall_impl; [done|]. by intros [d d'] ->.
Qed.

Lemma bind_assoc {A B C} (p : Io A) (k : A -> Io B) (k' : B -> Io C) w :
  io_bind (io_bind p k) k' w = io_bind p (fun a => io_bind (k a) k') w.
Proof. unfold io_bind. by destruct (p w). Qed.

(** Composition of [?]s. *)
Lemma try_assoc {A B C E} (p : Io (result A E)) (k : A -> Io (result B E)) (k' : B -> Io (result C E)) w :
  (let~? b := (let~? a := p in k a) in k' b) w = (let~? a := p in let~? b := k a in k' b) w.
Proof. unfold io_bind, io_ret. by destruct (p w) as [[a|error] w']. Qed.

Lemma plain_world (p : Io (result Response ApiError)) w :
  snd ((let~? response := p in io_ret (Ok (Plain response))) w) = snd (p w).
Proof. unfold io_bind, io_ret. by destruct (p w) as [[a|error] w']. Qed.

Lemma untouched_within Fault resolved w : undisturbed Fault w -> acts_within resolved w w.
Proof. intros (_ & Hcalls & _). unfold acts_within. rewrite Hcalls. by destruct (fst _). Qed.

Lemma destination_spelled chunks names :
  destination_read chunks = Ok names -> Forall (fun name => spelled name = true) names.
Proof.
  unfold destination_read. destruct (collect_body chunks "") as [bytes|]; [|done].
  destruct (DESTINATION_BODY_LIMIT <? _); [done|]. destruct (read_destination bytes) as [to|]; [|done].
  apply split_path_spelled.
Qed.

Lemma upload_within Fault resolved names headers chunks w :
  Forall (fun name => spelled name = true) names -> undisturbed Fault w ->
  acts_within resolved w (snd (upload resolved names headers chunks w)).
Proof.
  intros Hnames Hw. unfold upload.
  destruct (match max_upload resolved with Some _ => _ | None => _ end); [by eapply untouched_within|].
  unfold upload_begin. rewrite try_assoc. apply opened_within with Fault; [|done]. intros self.
  apply upload_contained; [done|]. intros t part file Ht Hown.
  eapply triple_bind; [apply write_body_keeps|]. intros streamed. cbn beta.
  eapply triple_bind; [by apply upload_finish_keeps|]. intros [created|error]; by apply triple_ret.
Qed.

(** C24: A request that writes - an upload, a directory made, a move, a copy or
    a deletion - changes names only at or below an entry of the mount it opened
    that the mount does not exclude, or at or below an upload's part beside
    one. Others may change the disk between any two of its calls, as long as
    they remove no directory and make no symlink, and any call may fail. *)
Theorem writes_contained Fault resolved path query request w :
  undisturbed Fault w -> method request <> GET -> method request <> HEAD ->
  acts_within resolved w (snd (respond_resolved resolved path query request w)).
Proof.
  intros Hw Hget Hhead. unfold respond_resolved.
  destruct (split_path path) as [names|error] eqn:Hsplit; [|by eapply untouched_within].
  apply split_path_spelled in Hsplit as Hnames.
  case_decide; [by eapply untouched_within|].
  destruct (method request); try done; destruct (negb _); try by eapply untouched_within.
  - destruct (directory query); rewrite plain_world; [|by eapply upload_within].
    apply opened_within with Fault; [|done]. intros self. by apply create_directory_contained.
  - rewrite plain_world. unfold copy. destruct (destination_read (chunks request)) as [destination|] eqn:Hread;
      [|by eapply untouched_within].
    apply opened_within with Fault; [|done]. intros self. apply copy_contained; [done|by eapply destination_spelled].
  - rewrite plain_world. unfold rename. destruct (destination_read (chunks request)) as [destination|] eqn:Hread;
      [|by eapply untouched_within].
    apply opened_within with Fault; [|done]. intros self. apply rename_contained; [done|by eapply destination_spelled].
  - rewrite plain_world. apply opened_within with Fault; [|done]. intros self. by apply delete_contained.
Qed.
End written.
