(* ===== verification/FilesAtomic.v ===== *)
(** * Uploads are whole or not at all

    Whoever looks at the target's name while an upload runs finds what stood
    there before or the whole body, whatever fails and whatever others do,
    short of touching the upload's part. *)
From S2P Require Import Prelude.
From stdpp Require Import pretty sorting.
From S2P Require Import Text Wire FilterFuel Json Selector Http Host Auth Server Disk DiskFacts Config.
From S2P Require Import Files FilesServer FileFacts FilesContained.
Local Open Scope string_scope.
Local Open Scope list_scope.
Local Open Scope Z_scope.
Local Open Scope ceres_scope.

Lemma rsplit_once_app c (a b : string) : contains_char c b = false -> rsplit_once c (a +:+ String c b) = Some (a, b).
Proof.
  intros Hb. assert (Hlast : rsplit_once c b = None).
  { induction b as [|x b IH]; [done|]. cbn in *. apply orb_false_iff in Hb as [Hx Hb]. by rewrite IH, Hx. }
  induction a as [|x a IH].
  - rewrite str_app_nil. cbn [rsplit_once]. rewrite Hlast. by rewrite Strings.Ascii.eqb_refl.
  - rewrite str_app_cons. cbn [rsplit_once]. by rewrite IH.
Qed.

Section atomic.
Context `{HttpCrates} `{GlobCrate} `{FilesCrates} `{FileSystem} `{Uuids} `{!UuidLaws}.

(** A path at or below an upload's part. *)
Definition part_named (path : Path) : Prop :=
  exists above name more, path = above ++ name :: more /\ is_part name = true.

(** What others may do while an upload runs: anything calm that leaves
    everyone's parts alone. *)
Definition considerate (d d' : Disk) : Prop :=
  calm d d' /\ forall path, part_named path ->
    names d' !! path = names d !! path /\ forall i, names d !! path = Some i -> inodes d' !! i = inodes d !! i.

Lemma considerate_calm d d' : considerate d d' -> calm d d'.
Proof. by intros [? _]. Qed.

Lemma considerate_refl d : considerate d d.
Proof. by split; [apply calm_refl|]. Qed.

Lemma part_is_part t count :
  spelled (target_name t) = true -> is_part ("." +:+ target_name t +:+ "." +:+ uuid count +:+ ".part") = true.
Proof.
  intros (Hne & _)%spelled_cases. unfold is_part.
  change (strip_prefix "." _) with (Some (target_name t +:+ "." +:+ uuid count +:+ ".part")).
  replace (target_name t +:+ "." +:+ uuid count +:+ ".part") with ((target_name t +:+ String "." (uuid count)) +:+ ".part")
    by (by rewrite str_app_assoc).
  cbn [mbind option_bind]. rewrite strip_suffix_app. rewrite rsplit_once_app by apply uuid_dots.
  rewrite bool_decide_eq_false_2 by done. rewrite uuid_length.
  by rewrite bool_decide_eq_true_2 by apply uuid_parses.
Qed.

Lemma part_path_named t count more : spelled (target_name t) = true -> part_named (part_path t (uuid count) ++ more).
Proof.
  intros Hplain. exists (target_parent t), ("." +:+ target_name t +:+ "." +:+ uuid count +:+ ".part"), more.
  split; [unfold part_path; by rewrite <-app_assoc|by apply part_is_part].
Qed.

Context (Fault : IoError -> Prop) (names_asked : list string) (chunks : Chunks) (limit : option Z).

(** The whole body, within the limit, stands at a path. *)
Definition delivered (d : Disk) (path : Path) : Prop :=
  exists i node whole, names d !! path = Some i /\ inodes d !! i = Some node /\ shape node = Regular whole /\
    collect_body chunks "" = Some whole /\ forall most, limit = Some most -> Z.of_nat (String.length whole) <= most.

(** What an upload's call may do: change a part, or the name asked for once
    the whole body is there; and write to a part. *)
Definition upload_step (d d' : Disk) : Prop :=
  (forall path, names d' !! path = names d !! path \/ part_named path \/
    last path = last names_asked /\ delivered d' path) /\
  (forall i node, inodes d !! i = Some node ->
    inodes d' !! i = Some node \/ exists path, part_named path /\ names d !! path = Some i).

Lemma upload_step_refl d : upload_step d d.
Proof. by split; [left|left]. Qed.

Notation spec := (triple considerate upload_step Fault).
Notation keeps := (keeps considerate upload_step Fault).

(** The part, open, with what was written to it. *)
Definition holding (t : WriteTarget) (part : Path) (file : Z) (bytes : string) (d : Disk) : Prop :=
  home t d /\ names d !! part = Some file /\ exists node, inodes d !! file = Some node /\ shape node = Regular bytes.

Lemma stable_holding t part file bytes : part_named part -> stable considerate (holding t part file bytes).
Proof.
  intros Hpart d d' [Hcalm Hparts] (Hhome & Hname & node & Hnode & Hshape).
  destruct (Hparts part Hpart) as [Hsame Hinode]. split; [by eapply stable_home|]. split; [by rewrite Hsame|].
  exists node. by rewrite (Hinode file Hname).
Qed.

Definition held (t : WriteTarget) (part : Path) (file : Z) (d : Disk) : Prop :=
  exists bytes, holding t part file bytes d.

Lemma stable_held t part file : part_named part -> stable considerate (held t part file).
Proof. intros Hpart d d' Hrely [bytes Hheld]. exists bytes. by eapply stable_holding. Qed.

Section part.
Context (t : WriteTarget) (name : string).
Hypothesis (name_spelled : spelled name = true) (name_part : is_part name = true).
Notation part := (target_parent t ++ [name]).

Lemma part_below more : part_named (part ++ more).
Proof. exists (target_parent t), name, more. split; [by rewrite <-app_assoc|done]. Qed.

Lemma part_here : part_named part.
Proof. rewrite <-(app_nil_r part). apply part_below. Qed.
#[local] Hint Resolve part_here : core.

Lemma part_guar d d' more : home t d -> only_names [part ++ more] d d' -> upload_step d d'.
Proof.
  intros _ [Hnames Hinodes]. split; [|by intros i node Hi; left; apply Hinodes]. intros path.
  destruct (starts_with path (part ++ more)) eqn:Hbelow.
  - right. left. apply starts_with_iff in Hbelow as [rest ->]. rewrite <-app_assoc. apply part_below.
  - left. apply Hnames. by constructor.
Qed.

Lemma remove_part_upload : keeps (home t) (remove_part part).
Proof.
  apply remove_part_keeps; [apply considerate_calm|apply considerate_refl|apply upload_step_refl|done|].
  intros d d' more. apply part_guar.
Qed.

(** ** Writing the part *)

Lemma create_part :
  spec (home t) (call (create_new part)) (fun made d =>
    match made with Ok file => holding t part file "" d | Err _ => home t d end).
Proof.
  apply triple_call; [apply considerate_refl|apply upload_step_refl|by apply stable_calm with (1 := considerate_calm), stable_home| |done].
  intros d Hd. destruct (create_new part d) as [[file|error] d'] eqn:Hmade; cbn.
  - pose proof (create_under part (Regular "") d) as (at_ & Hunder & Hcases). unfold create_new in Hmade.
    pose proof Hmade as (at__ & node & Hentry & Hfree & Hfresh & Hnames & Hinodes & Hshape)%create_Ok.
    rewrite home_entry in Hentry by done. injection Hentry as <-. rewrite Hmade in *. cbn in *.
    assert (at_ = part) as ->.
    { destruct Hcases as [Hentry| ->]; [rewrite home_entry in Hentry by done; congruence|].
      assert (Hsome : names d !! part = Some file) by (rewrite Hnames; apply lookup_insert_eq).
      congruence. }
    pose proof (create_tree part (Regular "") d (home_tree t d Hd)) as Htree. rewrite Hmade in Htree. cbn in Htree.
    split; [apply (part_guar d d' []); [done|by rewrite app_nil_r]|]. split; [|split].
    + eapply home_under; [done|by apply only_names_under|done|]. constructor; [|constructor].
      pose proof (below_home t name []) as Hbelow. by rewrite app_nil_r in Hbelow.
    + by rewrite Hnames, lookup_insert_eq.
    + exists node. by rewrite Hinodes, lookup_insert_eq.
  - apply create_Err in Hmade as ->. split; [apply upload_step_refl|done].
Qed.

Lemma write_upload file bytes chunk d :
  holding t part file bytes d ->
  upload_step d (snd (write_chunk file chunk d)) /\ fst (write_chunk file chunk d) = Ok tt /\
  holding t part file (bytes +:+ chunk) (snd (write_chunk file chunk d)).
Proof.
  intros (Hhome & Hname & node & Hnode & Hshape).
  pose proof (write_chunk_under [] file chunk d) as Hunder. pose proof (write_chunk_tree file chunk d (home_tree _ _ Hhome)) as Htree.
  unfold write_chunk in *. rewrite Hnode, Hshape in *. cbn in *. split; [split; [by left|]|split; [done|split; [|split]]].
  - intros i other Hi. cbn. destruct (decide (i = file)) as [->|Hne].
    + right. exists part. auto.
    + left. by rewrite lookup_insert_ne by congruence.
  - by eapply (home_under t d _ []).
  - done.
  - eexists. cbn. split; [apply lookup_insert_eq|done].
Qed.

(** Every part of the body is appended, or some of the one that fails. *)
Lemma write_all_upload file bytes chunk :
  spec (holding t part file bytes) (write_all file chunk) (fun stored d =>
    match stored with Ok _ => holding t part file (bytes +:+ chunk) d | Err _ => held t part file d end).
Proof.
  apply triple_call_torn; [apply considerate_refl|by apply stable_holding|..].
  - intros d Hd. destruct (write_upload file bytes chunk d Hd) as (Hstep & -> & Hheld). done.
  - intros d error count Hd _. destruct (write_upload file bytes (String.substring 0 count chunk) d Hd) as (Hstep & _ & Hheld).
    split; [done|]. by eexists.
Qed.

Lemma sync_upload (P : Disk -> Prop) : stable considerate P -> keeps P sync.
Proof. intros HP. by apply keeps_read; [apply considerate_refl|apply upload_step_refl|]. Qed.

(** The chunks not yet written, after what was. *)
Lemma collect_body_append rest before : collect_body rest before = (fun text => before +:+ text) <$> collect_body rest "".
Proof.
  revert before. induction rest as [|[chunk|] rest IH]; intros before; cbn; [by rewrite str_app_nil_r| |done].
  rewrite (IH (before +:+ chunk)), (IH ("" +:+ chunk)), str_app_nil.
  destruct (collect_body rest ""); cbn; [by rewrite str_app_assoc|done].
Qed.

Definition fits (text : string) : Prop := forall most, limit = Some most -> Z.of_nat (String.length text) <= most.

(** The bytes of the chunks that can be read. *)
Fixpoint body_length (rest : Chunks) : Z :=
  match rest with
  | [] => 0
  | Some chunk :: rest => Z.of_nat (String.length chunk) + body_length rest
  | None :: rest => body_length rest
  end.

Lemma body_length_nonneg rest : 0 <= body_length rest.
Proof. induction rest as [|[chunk|] rest IH]; cbn; lia. Qed.

Lemma written_next (bytes chunk : string) (room : Z) :
  0 <= room -> Z.of_nat (String.length bytes) + (Z.of_nat (String.length chunk) + room) <= u64_max ->
  u64 (Z.of_nat (String.length bytes) + Z.of_nat (String.length chunk)) = Z.of_nat (String.length (bytes +:+ chunk)).
Proof.
  intros Hroom Hmax. rewrite str_app_length. rewrite u64_small; [lia|]. unfold_ranges. lia.
Qed.

Lemma write_chunks_upload file rest bytes :
  Z.of_nat (String.length bytes) + body_length rest <= u64_max -> fits bytes ->
  spec (holding t part file bytes) (write_chunks file rest limit (Z.of_nat (String.length bytes))) (fun streamed d =>
    match streamed with
    | Ok _ => exists whole, collect_body rest bytes = Some whole /\ fits whole /\ holding t part file whole d
    | Err _ => held t part file d
    end).
Proof.
  revert bytes. induction rest as [|[chunk|] rest IH]; intros bytes Hroom Hfits; cbn [write_chunks].
  - assert (Hsync : spec (holding t part file bytes)
      (io_map (fun synced => match synced with Ok _ => Ok tt | Err error => Err (write_error error) end) sync)
      (fun _ => holding t part file bytes)).
    { apply triple_map. by apply sync_upload, stable_holding. }
    eapply triple_bind; [apply Hsync|]. intros [[]|error]; [|apply triple_ret; intros d Hd; by exists bytes].
    eapply triple_mono; [apply Hsync|done|]. intros [[]|error] d Hd; [|by exists bytes].
    exists bytes. cbn. auto.
  - cbn [body_length] in Hroom. pose proof (body_length_nonneg rest) as Hrest. rewrite (written_next _ _ _ Hrest Hroom).
    assert (Hnext : match limit with Some most => most <? Z.of_nat (String.length (bytes +:+ chunk)) | None => false end = false ->
      fits (bytes +:+ chunk)).
    { intros Hlimit most ->. by apply Z.ltb_ge in Hlimit. }
    destruct (match limit with Some _ => _ | None => _ end); [apply triple_ret; intros d Hd; by exists bytes|].
    eapply triple_bind; [apply write_all_upload|]. intros [[]|error]; [|by apply triple_ret].
    apply IH; [|by apply Hnext]. rewrite str_app_length. lia.
  - apply triple_ret. intros d Hd. by exists bytes.
Qed.

(** ** The part moved into place *)

Hypothesis (target_asked : last names_asked = Some (target_name t)) (target_plain : spelled (target_name t) = true).
Notation whole_body whole := (collect_body chunks "" = Some whole /\ fits whole).

(** The target's name changed to the part's file is the body delivered. *)
Lemma landed_step whole file d d' :
  whole_body whole -> holding t part file whole d ->
  (forall path, names d' !! path = names d !! path \/ part_named path \/
    path = target_path t /\ names d' !! path = Some file) ->
  inodes d' = inodes d -> upload_step d d'.
Proof.
  intros [Hwhole Hfits] (Hhome & Hname & node & Hnode & Hshape) Hpaths Hinodes.
  split; [|by intros i other Hi; left; rewrite Hinodes]. intros path.
  destruct (Hpaths path) as [Hsame|[Hpart|[-> Hfile]]]; [by left|by right; left|]. right. right.
  split; [unfold target_path; by rewrite last_snoc|]. exists file, node, whole. by rewrite Hinodes.
Qed.

Lemma holding_entries file whole d :
  holding t part file whole d -> entry d part = Ok part /\ entry d (target_path t) = Ok (target_path t) /\
  exists found, stands d part = Some found /\ ino found = file /\ is_dir found = false /\
    forall more, more <> [] -> names d !! (part ++ more) = None.
Proof.
  intros (Hhome & Hname & node & Hnode & Hshape).
  split; [by apply home_entry|]. split; [by apply home_entry|].
  exists {| ino := file; inode := node |}. split; [by apply stands_Some|]. split; [done|].
  assert (Hfile : is_dir {| ino := file; inode := node |} = false) by (unfold is_dir; cbn; by rewrite Hshape).
  split; [done|]. intros more Hmore. apply tree_not_below; [apply Hhome| |done].
  intros found [Hother Hinode]%stands_Some. rewrite Hname in Hother. injection Hother as Hother.
  rewrite <-Hother, Hnode in Hinode. injection Hinode as Hinode. unfold is_dir in *. cbn in *. by rewrite <-Hinode, Hfile.
Qed.

Lemma link_upload whole file :
  whole_body whole ->
  spec (holding t part file whole) (call (hard_link part (target_path t))) (fun _ => holding t part file whole).
Proof.
  intros Hwhole. apply triple_call; [apply considerate_refl|apply upload_step_refl|by apply stable_holding| |done].
  intros d Hd. destruct (holding_entries file whole d Hd) as (Hpart & Htarget & found & Hfound & Hino & Hdir & _).
  destruct (hard_link part (target_path t) d) as [[[]|error] d'] eqn:Hlink; cbn;
    [|apply hard_link_Err in Hlink as ->; split; [apply upload_step_refl|done]].
  pose proof (hard_link_tree part (target_path t) d (home_tree _ _ (proj1 Hd))) as Htree. rewrite Hlink in Htree.
  pose proof (hard_link_under part (target_path t) d) as (at_ & Hunder & _). rewrite Hlink in Hunder. cbn in *.
  apply hard_link_Ok in Hlink as (at__ & here & there & Hat & Hhere & Hthere & Hfree & _ & Hnames & Hinodes).
  rewrite Hpart in Hat. injection Hat as <-. rewrite Htarget in Hhere. injection Hhere as <-.
  rewrite Hfound in Hthere. injection Hthere as <-. rewrite Hino in Hnames.
  assert (Hne : target_path t <> part) by (intros Heq; rewrite Heq in Hfree; destruct Hd as (_ & Hname & _); congruence).
  split.
  - eapply landed_step; [done..| |done]. intros path. rewrite Hnames.
    destruct (decide (path = target_path t)) as [->|Hother].
    + right. right. by rewrite lookup_insert_eq.
    + left. by rewrite lookup_insert_ne by congruence.
  - destruct Hd as (Hhome & Hname & node & Hnode & Hshape). split; [|split].
    + eapply (home_under t d d' [target_path t]); [done| |done|].
      * split; [|by intros i other Hi _; rewrite Hinodes]. intros path Hpath. rewrite Hnames.
        inversion Hpath as [|?? Hself]; subst. apply lookup_insert_ne. intros <-. by rewrite starts_with_refl in Hself.
      * constructor; [apply app_longer|constructor].
    + by rewrite Hnames, lookup_insert_ne.
    + exists node. by rewrite Hinodes.
Qed.

Lemma rename_upload whole file :
  whole_body whole ->
  spec (holding t part file whole) (call (rename_call part (target_path t))) (fun _ => home t).
Proof.
  intros Hwhole. apply triple_call; [apply considerate_refl|apply upload_step_refl|by apply stable_holding| |by intros d error [? _]].
  intros d Hd. destruct (holding_entries file whole d Hd) as (Hpart & Htarget & found & Hfound & Hino & Hdir & Hnone).
  destruct (rename_call part (target_path t) d) as [[[]|error] d'] eqn:Hrename; cbn;
    [|apply rename_Err in Hrename as ->; split; [apply upload_step_refl|apply Hd]].
  pose proof (rename_tree false part (target_path t) d (home_tree _ _ (proj1 Hd))) as Htree.
  unfold rename_call in Hrename. rewrite Hrename in Htree. cbn in Htree.
  apply rename_Ok in Hrename as (at_ & here & other & Hat & Hhere & Hother & _ & [[-> _]|(-> & _ & _ & Hthere)]);
    [split; [apply upload_step_refl|apply Hd]|].
  rewrite Hpart in Hat. injection Hat as <-. rewrite Htarget in Hhere. injection Hhere as <-.
  rewrite Hfound in Hother. injection Hother as <-. rewrite Hdir in Hthere.
  assert (Hbelow : forall more, more <> [] -> names d !! (target_path t ++ more) = None).
  { intros more Hmore. apply tree_not_below; [apply Hd| |done]. intros there Hstands Htheredir.
    destruct (Hthere there Hstands). congruence. }
  split.
  - eapply landed_step; [done..| |done]. intros path. cbn. rewrite lookup_moved. unfold origin.
    destruct (strip_path (target_path t) path) as [rest|] eqn:Hstrip.
    + apply strip_path_Some in Hstrip as ->. cbn. destruct (decide (rest = [])) as [->|Hrest].
      * right. right. rewrite !app_nil_r. by destruct Hd as (_ & Hname & _).
      * left. by rewrite Hnone, Hbelow.
    + destruct (starts_with path part) eqn:Hstarts; [|by left].
      right. left. apply starts_with_iff in Hstarts as [rest ->]. apply part_below.
  - eapply (home_under t d _ [part; target_path t]); [apply Hd|apply only_names_under, only_names_moved|done|].
    constructor; [apply app_longer|constructor; [apply app_longer|constructor]].
Qed.

Lemma existing_upload (P : Disk -> Prop) : stable considerate P -> keeps P (existing t).
Proof. intros HP. by apply existing_spec; [apply considerate_refl|apply upload_step_refl|]. Qed.

Definition left_part (committed : result bool ApiError * option Path) (d : Disk) : Prop :=
  (snd committed = None \/ snd committed = Some part) /\ home t d.

Lemma commit_upload whole file conditions :
  whole_body whole -> spec (holding t part file whole) (commit part t conditions) left_part.
Proof.
  intros Hwhole.
  assert (Hback : forall (answer : result bool ApiError) (P : Disk -> Prop), (forall d, P d -> home t d) ->
    spec P (io_ret (answer, Some part)) left_part).
  { intros answer P HP. apply triple_ret. intros d Hd. split; [by right|by apply HP]. }
  eapply triple_bind; [by apply existing_upload, stable_holding|]. intros [found|error]; [|apply Hback; by intros d [? _]].
  destruct (conditions_check conditions found); [|apply Hback; by intros d [? _]].
  eapply (triple_bind _ _ _ _ _ (fun _ => holding t part file whole)).
  { destruct (create_only conditions); [by apply link_upload|by apply triple_ret]. }
  intros [[]|error]; [apply Hback; by intros d [? _]|]. destruct (_ && _); [apply Hback; by intros d [? _]|].
  eapply triple_bind; [by apply (rename_upload whole file)|].
  intros [[]|failed]; [|by apply Hback]. apply triple_ret. intros d Hd. split; [by left|done].
Qed.

Lemma upload_finish_upload file streamed conditions :
  spec (fun d => match streamed with
                 | Ok _ => exists whole, whole_body whole /\ holding t part file whole d
                 | Err _ => held t part file d
                 end) (upload_finish streamed part t conditions) (fun _ _ => True).
Proof.
  unfold upload_finish. eapply (triple_bind _ _ _ _ _ left_part).
  - destruct streamed.
    + apply triple_exists. intros whole. apply triple_pure. by apply commit_upload.
    + apply triple_ret. intros d [bytes [Hhome _]]. split; [by right|done].
  - intros committed. apply triple_pure. intros Hleft. eapply (triple_bind _ _ _ _ _ (fun _ _ => True)); [|by intros; apply triple_ret].
    eapply triple_mono; [|done|done]. destruct Hleft as [->| ->]; [by apply keeps_ret|apply remove_part_upload].
Qed.
End part.
End atomic.

(** ** Uploads *)

Section uploads.
Context `{HttpCrates} `{GlobCrate} `{FilesCrates} `{FileSystem} `{Uuids} `{!UuidLaws}.
Context (Fault : IoError -> Prop).

Context (names_asked : list string) (chunks : Chunks).
Notation spec limit := (triple considerate (upload_step names_asked chunks limit) Fault).

(** What [upload_begin] answers. *)
Definition begun_upload (begun : WriteTarget * Path * Z) (d : Disk) : Prop :=
  (last names_asked = Some (target_name begun.1.1) /\ spelled (target_name begun.1.1) = true /\
   exists count, begun.1.2 = part_path begun.1.1 (uuid count)) /\ holding begun.1.1 begun.1.2 begun.2 "" d.

Lemma upload_begin_spec limit resolved conditions :
  Forall (fun name => spelled name = true) names_asked ->
  spec limit tree (upload_begin resolved names_asked conditions) (fun answer d =>
    match answer with Ok begun => begun_upload begun d | Err _ => True end).
Proof.
  intros Hnames. assert (Hrefl : forall d, upload_step names_asked chunks limit d d) by apply upload_step_refl.
  unfold upload_begin.
  eapply (triple_try _ _ _ _ _ (fun _ => tree)).
  { eapply triple_mono; [by apply (open_mount_keeps _ _ _ considerate_refl Hrefl resolved tree), stable_calm with (1 := considerate_calm), stable_tree|done|].
    by intros [root|error]. }
  intros root.
  eapply (triple_try _ _ _ _ _ (fun t d => (last names_asked = Some (target_name t) /\ spelled (target_name t) = true) /\ home t d)).
  { eapply triple_mono; [apply (target_spec _ _ _ considerate_calm considerate_refl Hrefl root names_asked tree);
      [done|by apply stable_calm with (1 := considerate_calm), stable_tree|done]|done|].
    intros [t|error] d; [|done]. intros (Hd & (text & _ & _ & _ & Hplain) & Hdirs & Hlast). by split. }
  intros t. apply triple_pure. intros [Hlast Hplain]. destruct (is_part _); [by apply triple_ret|].
  assert (Hhome : stable considerate (home t)) by by apply stable_calm with (1 := considerate_calm), stable_home.
  eapply triple_bind; [by apply (existing_upload _ _ _ _ t (home t))|]. intros [found|error]; [|by apply triple_ret].
  destruct (conditions_check _ found); [|by apply triple_ret].
  eapply (triple_bind _ _ _ _ _ (fun part d => (exists count, part = part_path t (uuid count)) /\ home t d)).
  { eapply triple_bind; [by apply (triple_draw _ _ _ (home t) (fun id d => (exists count, id = uuid count) /\ home t d)); eauto|].
    intros id. apply triple_ret. intros d [[count ->] Hd]. eauto. }
  intros part. apply triple_pure. intros [count ->].
  pose proof (part_name_spelled (target_name t) count Hplain) as Hname. pose proof (part_is_part t count Hplain) as Hpart.
  unfold part_path.
  eapply triple_bind; [by apply create_part|]. intros [file|error].
  + apply triple_ret. intros d Hd. cbn. split; [|done]. eauto.
  + eapply (triple_bind _ _ _ _ _ (fun _ => home t)); [by apply remove_part_upload|].
    intros _. by apply triple_ret.
Qed.

(** C25: At every moment of an upload the name asked for stands for what it
    stood for before or for the whole body: each call the upload makes changes
    parts only, or puts at that name a file that holds all of the body, read to
    its end and within the limit; and it writes to no file but a part. Whatever
    fails, and whatever others do that leaves the directories and the parts
    alone. *)
Theorem upload_atomic resolved headers w :
  relies considerate Fault w -> calls w = [] -> tree (disk w) ->
  Forall (fun name => spelled name = true) names_asked -> body_length chunks <= u64_max ->
  (forall most, max_upload resolved = Some most -> 0 <= most) ->
  Forall (fun '(d, d') => upload_step names_asked chunks (max_upload resolved) d d')
    (calls (snd (upload resolved names_asked headers chunks w))).
Proof.
  intros Hrelies Hcalls Htree Hnames Hroom Hlimit.
  set (step := upload_step names_asked chunks (max_upload resolved)).
  enough (Hspec : triple considerate step Fault tree (upload resolved names_asked headers chunks) (fun _ _ => True)).
  { apply Hspec; [done|by unfold guarantees; rewrite Hcalls|done]. }
  unfold upload. destruct (match max_upload resolved with Some _ => _ | None => _ end); [by apply triple_ret|].
  eapply (triple_try _ _ _ _ _ begun_upload).
  - by eapply triple_mono; [by apply (upload_begin_spec (max_upload resolved) resolved)|done|intros [begun|error]].
  - intros [[t part] file]. unfold begun_upload. cbn [fst snd]. apply triple_pure. intros (Hlast & Hplain & count & ->).
    pose proof (part_name_spelled (target_name t) count Hplain) as Hname. pose proof (part_is_part t count Hplain) as Hpart.
    unfold part_path.
    eapply triple_bind; [apply (write_chunks_upload Fault names_asked chunks (max_upload resolved) t _ Hpart file chunks "");
      [done|intros most Hmost; by apply Hlimit]|].
    intros streamed.
    eapply (triple_try _ _ _ _ _ (fun _ _ => True)); [eapply triple_mono; [by apply (upload_finish_upload Fault names_asked chunks (max_upload resolved) t _ Hname Hpart Hlast Hplain file streamed)| |]|].
    + destruct streamed; [intros d (whole & Hwhole & Hfits & Hheld); by exists whole|by intros d Hd].
    + by intros [created|error].
    + intros created. by apply triple_ret.
Qed.
End uploads.
