(* ===== verification/FilesServed.v ===== *)
(** * A mount to run requests on

    Concrete crates for the served files and a small disk: a mount [/srv] with
    a file, a directory, an excluded name and symlinks out of it and into it.

    The parts after this one: served files at work. *)
From S2P Require Import Prelude.
From stdpp Require Import pretty.
From stdpp Require Import sorting.
From S2P Require Import Text Selector Wire Json Http Host Auth Server Disk DiskFacts Config Files FilesServer.
From S2P Require Import FileFacts FilesContained FilesAtomic.
Local Open Scope string_scope.
Local Open Scope list_scope.
Local Open Scope Z_scope.
Local Open Scope ceres_scope.

#[export] Program Instance sample_globs : GlobCrate := {|
  Glob := string; GlobSet := list string;
  glob_build pattern := if decide (pattern = "[") then Err "unclosed" else Ok pattern;
  set_build globs := Ok globs;
  set_is_empty set := bool_decide (set = []);
  is_match set text := bool_decide (text ∈ set);
  no_set := []
|}.

#[export] Program Instance sample_glob_laws : GlobLaws.
Next Obligation. by intros set [= <-]. Qed.
Next Obligation. by intros set text ->%bool_decide_eq_true. Qed.
Next Obligation. done. Qed.

#[export] Program Instance sample_order : FileSystem := {| directory_order names := names |}.
Next Obligation. done. Qed.

#[export] Instance files_http : HttpCrates := {|
  from_slice text := Err text; json_text _ := "";
  parse_uuid text := if decide (String.length text = 36)%nat then Some text else None;
  to_str := Some; header_value := Some; header_name := Some;
  form_pairs _ := []; form_text _ := "";
  http_date _ := "Thu, 30 Jul 2026 00:44:14 GMT"; rfc3339_seconds _ := "then"; rfc3339_micros _ := "then";
  datetime_min := -8334601228800000000000; datetime_max := 8210266876799999999999
|}.

#[export] Instance sample_uuids : Uuids := {| uuid _ := "00000000-0000-4000-8000-000000000000" |}.

#[export] Program Instance sample_uuid_laws : UuidLaws.
Next Obligation. done. Qed.
Next Obligation. done. Qed.
Next Obligation. done. Qed.
Next Obligation. by eexists. Qed.

#[export] Instance sample_files : FilesCrates := {|
  rfc3339_millis _ := "then";
  percent_encode text := text;
  unicode_lowercase := Schema.to_lowercase;
  read_resolved text := Err text;
  read_destination text := Some text;
  serve_dir _ _ opened := match opened with
                          | Ok (_, Ok bytes) => {| status := 200; headers := []; body := TextBody bytes |}
                          | _ => {| status := 404; headers := []; body := TextBody "" |}
                          end
|}.

#[export] Instance sample_zip : ZipCrate := {|
  zip_date _ := None; zip_takes _ _ := Ok tt; zip_finishes _ := Ok tt
|}.

#[export] Instance sample_regex : RegexCrate := {|
  regex_match _ text := is_valid_name text; debug_text text := text
|}.

Definition inode_of (shape : Shape) : Inode := {| shape := shape; modified := Some 5; created := Some 1; permissions := 420 |}.

Definition sample_disk : Disk := {|
  names := list_to_map [
    ([], 1); (["srv"], 2); (["srv"; "a"], 3); (["srv"; "sub"], 4); (["srv"; "sub"; "b"], 5);
    (["srv"; "key"], 6); (["srv"; "out"], 7); (["srv"; "in"], 8); (["etc"], 9); (["etc"; "secret"], 10)];
  inodes := list_to_map [
    (1, inode_of Directory); (2, inode_of Directory); (3, inode_of (Regular "hello")); (4, inode_of Directory);
    (5, inode_of (Regular "bytes")); (6, inode_of (Regular "private")); (7, inode_of (Symlink "../etc"));
    (8, inode_of (Symlink "sub/b")); (9, inode_of Directory); (10, inode_of (Regular "root"))];
  now := 1000; cwd := []
|}.

(** The names of a disk form a tree, decided. *)
Definition is_directory_at (d : Disk) (path : Path) : bool :=
  match stands d path with Some found => is_dir found | None => false end.
Definition tree_ok (d : Disk) : bool :=
  is_directory_at d [] &&
  forallb (fun '(path, _) => match last path with
                             | Some name => is_directory_at d (removelast path) && spelled name
                             | None => true
                             end) (map_to_list (names d)).

Lemma is_directory_at_sound d path : is_directory_at d path = true -> directory_at d path.
Proof. unfold is_directory_at, directory_at. destruct (stands d path) as [found|]; [|done]. eauto. Qed.

Lemma tree_ok_sound d : tree_ok d = true -> tree d.
Proof.
  intros [Hroot Hall]%andb_true_iff. split; [by apply is_directory_at_sound|]. intros above name i Hheld.
  rewrite forallb_forall in Hall. apply elem_of_map_to_list, list_elem_of_In, Hall in Hheld.
  rewrite last_snoc, removelast_last in Hheld.
  apply andb_true_iff in Hheld as [Habove Hname]. split; [by apply is_directory_at_sound|done].
Qed.

Lemma sample_tree : tree sample_disk.
Proof. apply tree_ok_sound. by vm_compute. Qed.

Definition sample_mount (access : MountAccess) : ResolvedMount :=
  {| resolved_path := "/srv"; access := access; exclude := ["key"]; max_upload := Some 8; reveals := true |}.

Definition resting (d : Disk) : World := {| disk := d; script := []; calls := []; drawn := 0 |}.

(** * Served files at work

    A file handed to a client is one that stood in its mount; and the theorems
    of uploads, writes and listings on a mount to run them on. *)

(** ** Reads *)

Section reads.
Context `{HttpCrates} `{GlobCrate} `{FilesCrates} `{FileSystem}.

(** What a program that answered learnt: the disks its calls saw stay. *)
Definition seen (w : World) (d : Disk) : Prop := exists d', (d, d') ∈ calls w.

Lemma call_Ok {A} (f : Disk -> Io_result A) w a :
  fst (call (reads f) w) = Ok a ->
  let d := others (next_turn w) (disk w) in
  f d = Ok a /\ seen (snd (call (reads f) w)) d /\ disk (snd (call (reads f) w)) = d /\
  script (snd (call (reads f) w)) = tail (script w).
Proof.
  unfold call, call_torn, seen. destruct (fault (next_turn w)); [done|]. cbn. intros Hf. split; [done|]. split; [|done].
  eexists. left.
Qed.

Lemma call_seen {A} (c : Call A) w d : seen w d -> seen (snd (call c w)) d.
Proof.
  unfold call, call_torn, seen. intros [d' Hin]. destruct (fault (next_turn w)); cbn; [exists d'; by right|].
  destruct (c _). exists d'. by right.
Qed.

(** A file opened is the file that was found. *)
Lemma open_verified_found canonical found w file :
  fst (open_verified canonical found w) = Some file ->
  verified_path file = canonical /\ handle file = Some (ino found) /\
  forall d, seen w d -> seen (snd (open_verified canonical found w)) d.
Proof.
  unfold open_verified, io_bind.
  destruct (call (open_nofollow canonical) w) as [[opened|error] w1] eqn:Hopened; [|done].
  destruct (call (file_metadata (ino opened)) w1) as [[metadata|error] w2] eqn:Hread; [|done].
  destruct (is_file metadata && _) eqn:Hsame; [|done]. cbn. intros [= <-]. cbn. split; [done|].
  apply andb_true_iff in Hsame as [_ Hsame]. unfold same_file in Hsame. cbn in Hsame. apply Z.eqb_eq in Hsame.
  assert (Hino : ino metadata = ino opened).
  { pose proof (call_Ok _ w1 metadata ltac:(unfold file_metadata in Hread; by rewrite Hread)) as [Hfound _].
    destruct (inodes _ !! ino opened); [by injection Hfound as <-|done]. }
  split; [congruence|]. intros d Hseen.
  apply (call_seen (open_nofollow canonical)) in Hseen. rewrite Hopened in Hseen. cbn [snd] in Hseen.
  apply (call_seen (file_metadata (ino opened))) in Hseen. by rewrite Hread in Hseen.
Qed.

End reads.

(** ** On the sample *)

(** Every failure may happen, and a call now and then does. *)
Definition any_fault (error : IoError) : Prop := True.
Definition failing (turns : nat) : World :=
  {| disk := sample_disk;
     script := replicate turns quiet ++ [{| others := fun d => d; fault := Some ENOENT; torn := 1 |}];
     calls := []; drawn := 0 |}.

Lemma failing_relies (Rely : Disk -> Disk -> Prop) turns : (forall d, Rely d d) -> relies Rely any_fault (failing turns).
Proof.
  intros Hrefl. unfold relies, failing. cbn. apply Forall_app. split.
  - apply Forall_replicate. by split.
  - by repeat constructor.
Qed.

Lemma failing_undisturbed turns : undisturbed any_fault (failing turns).
Proof. split; [by apply failing_relies, calm_refl|]. split; [done|apply sample_tree]. Qed.

Definition sample_open : OpenMount :=
  {| root := ["srv"]; exclusion := {| exclusion_names := ["key"]; anchored := [] |}; reveal_paths := true |}.
Definition sample_file : VerifiedFile :=
  {| verified_path := ["srv"; "sub"; "b"]; verified := {| ino := 5; inode := inode_of (Regular "bytes") |};
     handle := Some 5 |}.


Definition put (body : Chunks) : FileRequest := {| method := PUT; file_query := None; file_headers := []; chunks := body |}.

Lemma writes_contained_witness :
  acts_within (sample_mount EditAccess) (failing 20)
    (snd (respond_resolved (sample_mount EditAccess) "sub/new" no_query (put [Some "abc"; Some "de"]) (failing 20))) /\
  stands (disk (snd (respond_resolved (sample_mount EditAccess) "sub/new" no_query (put [Some "abc"; Some "de"]) (failing 20))))
    ["srv"; "sub"; "new"] <> None.
Proof.
  split; [|by vm_compute]. apply (writes_contained any_fault); [apply failing_undisturbed|done|done].
Defined.

(** The second chunk's write fails half way. *)
Lemma upload_atomic_witness :
  Forall (fun '(d, d') => upload_step ["a"] [Some "abc"; Some "de"] (Some 8) d d')
    (calls (snd (upload (sample_mount EditAccess) ["a"] [] [Some "abc"; Some "de"] (failing 6)))) /\
  stands (disk (snd (upload (sample_mount EditAccess) ["a"] [] [Some "abc"; Some "de"] (failing 6)))) ["srv"; "a"] =
    Some {| ino := 3; inode := inode_of (Regular "hello") |}.
Proof.
  split; [|by vm_compute].
  apply (upload_atomic any_fault ["a"] [Some "abc"; Some "de"] (sample_mount EditAccess) []).
  - by apply failing_relies, considerate_refl.
  - done.
  - apply sample_tree.
  - by repeat constructor.
  - by vm_compute.
  - by intros most [= <-].
Defined.

Definition sample_listing : list FileEntry :=
  [{| entry_name := "a"; entry_kind := FileKind; entry_size := Some 5; entry_modified := Some "then"; entry_created := Some "then" |};
   {| entry_name := "in"; entry_kind := FileKind; entry_size := Some 5; entry_modified := Some "then"; entry_created := Some "then" |};
   {| entry_name := "out"; entry_kind := OtherEntry; entry_size := None; entry_modified := Some "then"; entry_created := Some "then" |};
   {| entry_name := "sub"; entry_kind := DirectoryKind; entry_size := None; entry_modified := Some "then"; entry_created := Some "then" |}].

