(* ===== verification/ConfigValues.v ===== *)
(** * Scalars of a configuration

    [ceres-config/src/values.rs]: durations and sizes, as they are written and
    as they are read, floating point included.

    The parts after this one: durations written and read; internet addresses. *)
From S2P Require Import Prelude.
From stdpp Require Import pretty.
From S2P Require Import Text Schema Wire FilterFuel Config.
Local Open Scope string_scope.
Local Open Scope list_scope.
Local Open Scope Z_scope.
Local Open Scope ceres_scope.

(** ** Binary64, signed

    [m * 2 ^ e], an infinity, or no number; a zero's sign makes no difference
    here. *)
Inductive float := Fin (m e : Z) | Inf (negative : bool) | NaN.

Definition signed (negative : bool) (size : f64) : float :=
  match size with
  | Some (m, e) => Fin (if negative then - m else m) e
  | None => Inf negative
  end.

(** The [f64] nearest [n / d]. *)
Definition float_of_ratio (n d : Z) : float := signed (n <? 0) (f64_round (Z.abs n) d).
Definition float_of (m e : Z) : float := if 0 <=? e then float_of_ratio (m * 2 ^ e) 1 else float_of_ratio m (2 ^ (- e)).

(** [str::parse] of an [f64]. *)
Definition float_word (negative : bool) (text : string) : option float :=
  let word := to_lowercase text in
  if bool_decide (word = "inf") || bool_decide (word = "infinity") then Some (Inf negative)
  else if bool_decide (word = "nan") then Some NaN else None.

Definition float_parse (text : string) : option float :=
  let '(negative, body) :=
    match text with
    | String "-" rest => (true, rest)
    | String "+" rest => (false, rest)
    | _ => (false, text)
    end in
  match float_word negative body with
  | Some x => Some x
  | None =>
      match parse_decimal text with
      | Some (negative, value, scale) => Some (signed negative (decimal_round value scale))
      | None => None
      end
  end.

(** Sums, and products with a positive number. *)
Definition float_add (x y : float) : float :=
  match x, y with
  | NaN, _ | _, NaN => NaN
  | Inf a, Inf b => if eqb a b then Inf a else NaN
  | Inf a, Fin _ _ | Fin _ _, Inf a => Inf a
  | Fin m e, Fin n f => let low := Z.min e f in float_of (m * 2 ^ (e - low) + n * 2 ^ (f - low)) low
  end.

Definition float_times (x : float) (size : Z * Z) : float :=
  match x with
  | Fin m e => float_of (m * fst size) (e + snd size)
  | Inf negative => Inf negative
  | NaN => NaN
  end.

(** ** Durations

    A [Duration] is its nanoseconds. *)
Definition TimeDelta : Type := Z.

Definition from_secs (seconds : Z) : TimeDelta := seconds * 1000000000.

(** [Duration::from_secs_f64] of a number that is not negative: to the nearest
    nanosecond, ties to even; [None] is its panic past [u64] seconds. *)
Definition from_secs_f64 (m e : Z) : option TimeDelta :=
  let '(n, d) := if 0 <=? e then (m * 2 ^ e, 1) else (m, 2 ^ (- e)) in
  if u64_max + 1 <=? n / d then None else Some (nearest_even (n * 1000000000) d).

(** [TimeDelta::from_seconds]; [None] is a panic. *)
Definition from_seconds (seconds : float) : option (result TimeDelta string) :=
  match seconds with
  | Fin m e =>
      if m <? 0 then Some (Err "duration must be a positive number of seconds")
      else match from_secs_f64 m e with Some delta => Some (Ok delta) | None => None end
  | Inf _ | NaN => Some (Err "duration must be a positive number of seconds")
  end.

(** The scales of [parse_suffixed] as the [f64]s their literals are. *)
Definition MICRO : Z * Z := default (0, 0) (decimal_round 1 (-6)).
Definition MILLI : Z * Z := default (0, 0) (decimal_round 1 (-3)).

Section durations.
Context `{RegexCrate}.

Definition invalid_duration (text : string) : string := "invalid duration " +:+ debug_text text.

(** [TimeDelta::parse_suffixed]. *)
Definition delta_suffixes : list (string * (Z * Z)) :=
  [("us", MICRO); ("ms", MILLI); ("s", (1, 0)); ("m", (60, 0)); ("h", (3600, 0)); ("d", (86400, 0))].

Fixpoint strip_delta_suffix (suffixes : list (string * (Z * Z))) (text : string) : option (string * (Z * Z)) :=
  match suffixes with
  | [] => None
  | (suffix, scale) :: suffixes =>
      match strip_suffix suffix text with
      | Some number => Some (number, scale)
      | None => strip_delta_suffix suffixes text
      end
  end.

Definition parse_suffixed (text : string) : option (result TimeDelta string) :=
  let error := Some (Err (invalid_duration text)) in
  match strip_delta_suffix delta_suffixes (to_lowercase (replace_char " " "" text)) with
  | None => error
  | Some (number, scale) =>
      if decide (number = "") then error
      else match float_parse number with
           | None => error
           | Some value => from_seconds (float_times value scale)
           end
  end.

(** [TimeDelta::parse_iso8601]: a section's units, each at most once and in
    order, added to the seconds so far. *)
Fixpoint parse_components (section : string) (units : list (ascii * Z)) (seconds : float) : option float :=
  match units with
  | [] => if decide (section = "") then Some seconds else None
  | (unit, scale) :: units =>
      match split_once unit section with
      | Some (value, rest) =>
          x ← float_parse value; parse_components rest units (float_add seconds (float_times x (scale, 0)))
      | None => parse_components section units seconds
      end
  end.

Definition DATE_UNITS : list (ascii * Z) := [("W"%char, 604800); ("D"%char, 86400)].
Definition TIME_UNITS : list (ascii * Z) := [("H"%char, 3600); ("M"%char, 60); ("S"%char, 1)].

Definition parse_iso8601 (text : string) : option (result TimeDelta string) :=
  let error := Some (Err ("invalid ISO 8601 duration " +:+ debug_text text)) in
  if str_starts_with "-" text then Some (Err "duration must be positive")
  else match strip_prefix "P" text with
  | None => error
  | Some body =>
      let '(date, time) := default (body, "") (split_once "T" body) in
      match parse_components date DATE_UNITS (Fin 0 0) ≫= parse_components time TIME_UNITS with
      | None => error
      | Some seconds => from_seconds seconds
      end
  end.

(** [TimeDelta::parse_clock]. *)
Definition parse_clock (text : string) : option (result TimeDelta string) :=
  let error := Some (Err (invalid_duration text)) in
  match (match str_split ":" text with
         | [hours; minutes; seconds] => Some (hours, minutes, seconds)
         | [minutes; seconds] => Some ("0", minutes, seconds)
         | _ => None
         end) with
  | None => error
  | Some (hours, minutes, seconds) =>
      match (hours ← float_parse (trim hours); minutes ← float_parse minutes; seconds ← float_parse seconds;
             Some (float_add (float_add (float_times hours (3600, 0)) (float_times minutes (60, 0))) seconds)) with
      | None => error
      | Some seconds => from_seconds seconds
      end
  end.

(** [TimeDelta::parse]. *)
Definition timedelta_parse (text : string) : option (result TimeDelta string) :=
  let text := trim text in
  match float_parse text with
  | Some seconds => from_seconds seconds
  | None =>
      if str_starts_with "P" text || str_starts_with "-P" text then parse_iso8601 text
      else if contains_char ":" text then parse_clock text
      else parse_suffixed text
  end.
End durations.

(** [Display] of a duration: ISO 8601, in microseconds. *)
Fixpoint pad_zeros (count : nat) (text : string) : string :=
  match count with O => text | S count => String "0" (pad_zeros count text) end.
Definition six_digits (n : Z) : string := let text := pretty n in pad_zeros (6 - String.length text) text.

(** [trim_end_matches('0')]. *)
Fixpoint trim_zeros (text : string) : string :=
  match text with
  | EmptyString => ""
  | String c rest =>
      let rest := trim_zeros rest in
      if decide (rest = "") then if Strings.Ascii.eqb c "0" then "" else String c "" else String c rest
  end.

Definition part_unless_zero (n : Z) (unit : string) : string := if 0 <? n then pretty n +:+ unit else "".

Definition timedelta_display (self : TimeDelta) : string :=
  let total := self / 1000 in
  if total =? 0 then "PT0S"
  else
    let days := total / 86400000000 in
    let hours := total / 3600000000 mod 24 in
    let minutes := total / 60000000 mod 60 in
    let seconds := total / 1000000 mod 60 in
    let microseconds := total mod 1000000 in
    "P" +:+ part_unless_zero days "D" +:+
    if (0 <? hours) || (0 <? minutes) || (0 <? seconds) || (0 <? microseconds) then
      "T" +:+ part_unless_zero hours "H" +:+ part_unless_zero minutes "M" +:+
      (if 0 <? microseconds then pretty seconds +:+ "." +:+ trim_zeros (six_digits microseconds) +:+ "S"
       else part_unless_zero seconds "S")
    else "".

(** What a duration deserializes from. *)
Inductive DeltaInput := DeltaNumber (seconds : float) | DeltaText (text : string).
Definition timedelta_deserialize `{RegexCrate} (input : DeltaInput) : option (result TimeDelta string) :=
  match input with DeltaNumber seconds => from_seconds seconds | DeltaText text => timedelta_parse text end.

(** ** Sizes *)

Definition ByteSize : Type := Z.

(** The text up to the first character that is no digit and no point. *)
Fixpoint split_number (text : string) : string * string :=
  match text with
  | String c rest =>
      if is_ascii_digit c || Strings.Ascii.eqb c "." then let '(value, unit) := split_number rest in (String c value, unit)
      else ("", text)
  | EmptyString => ("", "")
  end.

Definition size_units : list (string * Z) :=
  [("", 1); ("b", 1); ("kb", 1000); ("kib", 2 ^ 10); ("mb", 1000000); ("mib", 2 ^ 20); ("gb", 1000000000);
   ("gib", 2 ^ 30); ("tb", 1000000000000); ("tib", 2 ^ 40); ("pb", 1000000000000000); ("pib", 2 ^ 50)].

(** [as u64] of an [f64]: towards zero, saturating. *)
Definition float_as_u64 (x : float) : Z :=
  match x with
  | Fin m e => Z.min u64_max (Z.max 0 (if 0 <=? e then m * 2 ^ e else Z.quot m (2 ^ (- e))))
  | Inf negative => if negative then 0 else u64_max
  | NaN => 0
  end.

(** [ByteSize::parse]. *)
Definition bytesize_parse `{RegexCrate} (text : string) : result ByteSize string :=
  let text := trim text in
  let '(value, unit) := split_number text in
  match float_parse value with
  | None => Err ("invalid byte size " +:+ debug_text text)
  | Some value =>
      match List.find (fun '(name, _) => bool_decide (name = to_lowercase (trim unit))) size_units with
      | None => Err ("invalid byte size unit " +:+ debug_text unit)
      | Some (_, scale) => Ok (float_as_u64 (float_times value (scale, 0)))
      end
  end.

Inductive SizeInput := SizeNumber (bytes : Z) | SizeText (text : string).
Definition bytesize_deserialize `{RegexCrate} (input : SizeInput) : result ByteSize string :=
  match input with SizeNumber bytes => Ok bytes | SizeText text => bytesize_parse text end.

(** ** Secrets and sequences

    [Secret] serializes as a mask. *)
Record Secret := { expose : string }.
Definition secret_serialize (self : Secret) : string := "**********".

Inductive MaybeSequence (A : Type) := One (value : A) | Many (values : list A).
Arguments One {A} _.
Arguments Many {A} _.

(** [MaybeSequence::as_slice] and its default. *)
Definition as_slice {A} (self : MaybeSequence A) : list A := match self with One value => [value] | Many values => values end.
Definition no_sequence {A} : MaybeSequence A := Many [].

(** * Durations written and read

    Whole numbers are held exactly by the floating point a duration is read
    with, so a duration of whole seconds is read back as it was written. *)

(** ** Whole numbers in floating point *)

Definition whole (x : float) (n : Z) : Prop := exists k, 0 <= k /\ x = Fin (n * 2 ^ k) (- k).

Lemma whole_zero : whole (Fin 0 0) 0.
Proof. by exists 0. Qed.

Lemma float_of_exact n k : 0 <= n < 2 ^ 53 -> 0 <= k -> whole (float_of (n * 2 ^ k) (- k)) n.
Proof.
  intros Hn Hk. assert (0 < 2 ^ k) as Hpow by (apply Z.pow_pos_nonneg; lia).
  unfold float_of, float_of_ratio.
  replace (if 0 <=? - k then _ else _) with (signed (n * 2 ^ k <? 0) (f64_round (Z.abs (n * 2 ^ k)) (2 ^ k))).
  2:{ destruct (0 <=? - k) eqn:Hle; to_prop; [|by rewrite Z.opp_involutive].
      assert (k = 0) as -> by lia. change (2 ^ - 0) with 1. change (2 ^ 0) with 1. by rewrite !Z.mul_1_r. }
  rewrite (proj2 (Z.ltb_ge _ _)), Z.abs_eq by nia.
  destruct (decide (n = 0)) as [->|Hne]; [by exists 0|].
  destruct (f64_round_exact n (2 ^ k)) as (j & Hj & ->); [lia|lia|]. by exists j.
Qed.

Lemma float_times_exact x n scale : whole x n -> 0 <= n * scale < 2 ^ 53 -> whole (float_times x (scale, 0)) (n * scale).
Proof.
  intros (k & Hk & ->) Hn. cbn. rewrite Z.add_0_r. replace (n * 2 ^ k * scale) with (n * scale * 2 ^ k) by lia.
  by apply float_of_exact.
Qed.

Lemma float_add_exact x y a b : whole x a -> whole y b -> 0 <= a + b < 2 ^ 53 -> whole (float_add x y) (a + b).
Proof.
  intros (k & Hk & ->) (j & Hj & ->) Hsum. unfold float_add.
  replace (Z.min (- k) (- j)) with (- Z.max k j) by lia.
  replace (a * 2 ^ k * 2 ^ (- k - - Z.max k j) + b * 2 ^ j * 2 ^ (- j - - Z.max k j)) with ((a + b) * 2 ^ Z.max k j).
  - apply float_of_exact; lia.
  - rewrite <-!Z.mul_assoc, <-!Z.pow_add_r by lia.
    replace (k + (- k - - Z.max k j)) with (Z.max k j) by lia.
    replace (j + (- j - - Z.max k j)) with (Z.max k j) by lia. lia.
Qed.

(** Whole seconds are whole nanoseconds. *)
Lemma from_seconds_exact x n : whole x n -> 0 <= n <= u64_max -> from_seconds x = Some (Ok (from_secs n)).
Proof.
  intros (k & Hk & ->) Hn. assert (0 < 2 ^ k) as Hpow by (apply Z.pow_pos_nonneg; lia).
  unfold from_seconds, from_secs_f64, from_secs. rewrite (proj2 (Z.ltb_ge _ _)) by nia.
  replace (if 0 <=? - k then _ else _) with (n * 2 ^ k, 2 ^ k).
  2:{ destruct (0 <=? - k) eqn:Hle; to_prop; [|by rewrite Z.opp_involutive].
      assert (k = 0) as -> by lia. change (2 ^ - 0) with 1. change (2 ^ 0) with 1. by rewrite !Z.mul_1_r. }
  rewrite Z.div_mul, (proj2 (Z.leb_gt _ _)) by lia.
  replace (n * 2 ^ k * 1000000000) with (n * 1000000000 * 2 ^ k) by lia. by rewrite nearest_even_exact.
Qed.

(** ** Digits *)

Lemma pretty_digits (n : Z) : 0 <= n -> all_digits (pretty n).
Proof. intros Hn. by apply digits_value_pretty in Hn as [_ Hn%digits_value_digits]. Qed.

Lemma digits_no_char text c : all_digits text -> is_ascii_digit c = false -> contains_char c text = false.
Proof. intros Htext Hc. by eapply str_forall_no_char. Qed.

Lemma float_word_digits negative text : text <> "" -> all_digits text -> float_word negative text = None.
Proof.
  intros Hne Htext. destruct text as [|c rest]; [done|]. apply andb_true_iff in Htext as [Hc _].
  assert (Hlow : lower_char c = c) by (by apply plain_lower, digit_plain).
  assert (forall word, is_ascii_digit (default c (String.get 0 word)) = false -> to_lowercase (String c rest) <> word) as Hword.
  { intros word Hfirst <-. cbn in Hfirst. rewrite Hlow in Hfirst. congruence. }
  unfold float_word. by rewrite !bool_decide_eq_false_2 by by apply Hword.
Qed.

Lemma float_parse_digits text n :
  text <> "" -> digits_value text 0 = Some n -> 0 <= n < 2 ^ 53 -> exists x, float_parse text = Some x /\ whole x n.
Proof.
  intros Hne Htext Hn. pose proof (digits_value_digits _ _ _ Htext) as Hdigits.
  pose proof (parse_decimal_digits text n Hne Htext) as Hdecimal.
  assert (Hparse : float_parse text = Some (signed false (decimal_round n 0))).
  { unfold float_parse. destruct text as [|c rest]; [done|]. pose proof Hdigits as [Hc _]%andb_true_iff.
    assert (Hplain : match String c rest with String "-" r => (true, r) | String "+" r => (false, r) | _ => (false, String c rest) end =
      (false, String c rest)).
    { clear -Hc. destruct c as [[] [] [] [] [] [] [] []]; try done; by vm_compute in Hc. }
    rewrite Hplain. by rewrite float_word_digits, Hdecimal. }
  rewrite Hparse. eexists. split; [done|]. unfold decimal_round. change (0 <=? 0) with true. cbv iota.
  change (10 ^ 0) with 1. rewrite Z.mul_1_r. destruct (decide (n = 0)) as [->|Hnz]; [by exists 0|].
  pose proof (f64_round_exact n 1 ltac:(lia) ltac:(lia)) as (k & Hk & Hround). rewrite Z.mul_1_r in Hround.
  rewrite Hround. by exists k.
Qed.

Lemma float_parse_pretty (n : Z) : 0 <= n < 2 ^ 53 -> exists x, float_parse (pretty n) = Some x /\ whole x n.
Proof. intros Hn. destruct (digits_value_pretty n) as [Hne Hdigits]; [lia|]. by apply float_parse_digits. Qed.

(** ** ISO 8601 *)

(** A unit's part is its number added, and a part left out is a zero. *)
Lemma component_step unit scale units x a n rest :
  whole x a -> 0 <= a -> 0 <= n -> 0 < scale -> a + n * scale < 2 ^ 53 -> is_ascii_digit unit = false ->
  contains_char unit rest = false ->
  exists y, whole y (a + n * scale) /\
    parse_components (part_unless_zero n (String unit "") +:+ rest) ((unit, scale) :: units) x = parse_components rest units y.
Proof.
  intros Hx Ha Hn Hscale Hlt Hunit Hrest. unfold part_unless_zero. cbn [parse_components].
  destruct (0 <? n) eqn:Hzero; to_prop.
  - assert (Hsplit : split_once unit ((pretty n +:+ String unit "") +:+ rest) = Some (pretty n, rest)).
    { apply split_once_Some. rewrite str_app_assoc. split; [done|]. by apply digits_no_char; [apply pretty_digits|]. }
    rewrite Hsplit. destruct (float_parse_pretty n) as (y & Hparse & Hy); [nia|]. rewrite Hparse. cbn.
    eexists. split; [|done]. apply float_add_exact; [done| |nia]. apply float_times_exact; [done|nia].
  - assert (n = 0) as -> by lia. rewrite str_app_nil. apply split_once_None in Hrest. rewrite Hrest.
    exists x. by rewrite Z.add_0_r.
Qed.

Lemma part_no_char n unit c : 0 <= n -> is_ascii_digit c = false -> Strings.Ascii.eqb unit c = false ->
  contains_char c (part_unless_zero n (String unit "")) = false.
Proof.
  intros Hn Hc Hunit. unfold part_unless_zero. destruct (0 <? n); [|done].
  rewrite contains_char_app, digits_no_char by (done || by apply pretty_digits). cbn. by rewrite Hunit.
Qed.

Lemma part_ink n unit : 0 <= n -> ink_char unit = true -> str_forall ink_char (part_unless_zero n (String unit "")) = true.
Proof.
  intros Hn Hunit. unfold part_unless_zero. destruct (0 <? n); [|done]. rewrite str_forall_app. apply andb_true_iff.
  split; [|cbn; by rewrite Hunit]. eapply str_forall_impl; [|by apply pretty_digits].
  intros c Hc. by apply plain_ink, digit_plain.
Qed.

Definition date_part (days : Z) : string := part_unless_zero days "D".
Definition time_part (hours minutes seconds : Z) : string :=
  part_unless_zero hours "H" +:+ part_unless_zero minutes "M" +:+ part_unless_zero seconds "S".

Lemma date_seconds days : 0 <= days -> days * 86400 < 2 ^ 53 ->
  exists x, whole x (days * 86400) /\ parse_components (date_part days) DATE_UNITS (Fin 0 0) = Some x.
Proof.
  intros Hdays Hlt. unfold date_part. rewrite <-(str_app_nil_r (part_unless_zero days "D")).
  unfold DATE_UNITS. cbn [parse_components].
  assert (Hweeks : split_once "W" (part_unless_zero days "D" +:+ "") = None).
  { apply split_once_None. rewrite str_app_nil_r. by apply part_no_char. }
  rewrite Hweeks. change (split_once "D" ?text) with (split_once "D" text).
  destruct (component_step "D" 86400 [] (Fin 0 0) 0 days "") as (y & Hy & Hparse); try done; [apply whole_zero|].
  exists y. split; [done|]. cbn [parse_components] in Hparse. by rewrite Hparse.
Qed.

Lemma time_seconds x a hours minutes seconds :
  whole x a -> 0 <= a -> 0 <= hours -> 0 <= minutes -> 0 <= seconds ->
  a + hours * 3600 + minutes * 60 + seconds < 2 ^ 53 ->
  exists y, whole y (a + hours * 3600 + minutes * 60 + seconds) /\
    parse_components (time_part hours minutes seconds) TIME_UNITS x = Some y.
Proof.
  intros Hx Ha Hhours Hminutes Hseconds Hlt. unfold time_part, TIME_UNITS.
  destruct (component_step "H" 3600 [("M"%char, 60); ("S"%char, 1)] x a hours
    (part_unless_zero minutes "M" +:+ part_unless_zero seconds "S")) as (y & Hy & ->); try done; try lia.
  { rewrite contains_char_app, !part_no_char; done. }
  destruct (component_step "M" 60 [("S"%char, 1)] y (a + hours * 3600) minutes (part_unless_zero seconds "S"))
    as (z & Hz & ->); try done; try lia.
  { by apply part_no_char. }
  rewrite <-(str_app_nil_r (part_unless_zero seconds "S")).
  destruct (component_step "S" 1 [] z (a + hours * 3600 + minutes * 60) seconds "") as (w & Hw & ->); try done; try lia.
  exists w. by rewrite Z.mul_1_r in Hw.
Qed.

(** A duration of whole seconds is written as its parts. *)
Lemma display_seconds n :
  0 < n ->
  timedelta_display (from_secs n) =
  let days := n / 86400 in let hours := n / 3600 mod 24 in let minutes := n / 60 mod 60 in let seconds := n mod 60 in
  "P" +:+ date_part days +:+
  if (0 <? hours) || (0 <? minutes) || (0 <? seconds) then "T" +:+ time_part hours minutes seconds else "".
Proof.
  intros Hn. unfold timedelta_display, from_secs.
  replace (n * 1000000000 / 1000) with (n * 1000000)
    by (replace (n * 1000000000) with (n * 1000000 * 1000) by lia; by rewrite Z.div_mul by lia).
  rewrite (proj2 (Z.eqb_neq _ _)) by lia.
  assert (Hscale : forall unit, 0 < unit -> n * 1000000 / (unit * 1000000) = n / unit)
    by (intros unit Hunit; by rewrite Z.div_mul_cancel_r by lia).
  change 86400000000 with (86400 * 1000000). change 3600000000 with (3600 * 1000000). change 60000000 with (60 * 1000000).
  rewrite !Hscale by lia. rewrite Z.div_mul, Z.mod_mul by lia. cbn zeta. change (0 <? 0) with false.
  rewrite orb_false_r. done.
Qed.

Lemma seconds_split n :
  0 <= n -> n / 86400 * 86400 + n / 3600 mod 24 * 3600 + n / 60 mod 60 * 60 + n mod 60 = n.
Proof.
  intros Hn. pose proof (Z.div_mod n 60) as H1. pose proof (Z.div_mod (n / 60) 60) as H2. pose proof (Z.div_mod (n / 3600) 24) as H3.
  rewrite Z.div_div in H2 by lia. change (60 * 60) with 3600 in H2. rewrite Z.div_div in H3 by lia.
  change (3600 * 24) with 86400 in H3. lia.
Qed.

Section roundtrip.
Context `{RegexCrate}.

Lemma iso_text_parses days hours minutes seconds :
  0 <= days -> 0 <= hours -> 0 <= minutes -> 0 <= seconds ->
  let n := days * 86400 + hours * 3600 + minutes * 60 + seconds in n < 2 ^ 53 ->
  parse_iso8601 ("P" +:+ date_part days +:+
    if (0 <? hours) || (0 <? minutes) || (0 <? seconds) then "T" +:+ time_part hours minutes seconds else "") =
  Some (Ok (from_secs n)).
Proof.
  intros Hdays Hhours Hminutes Hseconds n Hn. unfold parse_iso8601.
  set (body := date_part days +:+ _). change (str_starts_with "-" ("P" +:+ body)) with false.
  change (strip_prefix "P" ("P" +:+ body)) with (Some body). cbv iota.
  assert (Hsplit : default (body, "") (split_once "T" body) = (date_part days, time_part hours minutes seconds)).
  { subst body. destruct ((0 <? hours) || (0 <? minutes) || (0 <? seconds)) eqn:Htime.
    - rewrite (proj2 (split_once_Some "T" _ (date_part days) (time_part hours minutes seconds))); [done|].
      split; [done|by apply part_no_char].
    - rewrite str_app_nil_r, (proj2 (split_once_None "T" (date_part days))) by by apply part_no_char.
      apply orb_false_iff in Htime as [[Hh Hm]%orb_false_iff Hs]. unfold time_part, part_unless_zero. by rewrite Hh, Hm, Hs. }
  rewrite Hsplit. destruct (date_seconds days) as (x & Hx & ->); [done|lia|]. cbn [mbind option_bind].
  destruct (time_seconds x (days * 86400) hours minutes seconds) as (y & Hy & ->); [done|lia..|].
  apply from_seconds_exact; [done|]. unfold u64_max. lia.
Qed.

Lemma display_no_number text : float_parse ("P" +:+ text) = None.
Proof. by unfold float_parse, float_word, parse_decimal. Qed.

(** A duration of whole seconds below 2^53 is read back exactly from the
    ISO 8601 text it serializes as. *)
Theorem timedelta_roundtrip n : 0 <= n < 2 ^ 53 -> timedelta_parse (timedelta_display (from_secs n)) = Some (Ok (from_secs n)).
Proof.
  intros Hn. destruct (decide (n = 0)) as [->|Hne]; [by vm_compute|]. rewrite display_seconds by lia. cbn zeta.
  pose proof (Z.div_pos n 86400 ltac:(lia) ltac:(lia)). pose proof (Z.mod_pos_bound (n / 3600) 24 ltac:(lia)).
  pose proof (Z.mod_pos_bound (n / 60) 60 ltac:(lia)). pose proof (Z.mod_pos_bound n 60 ltac:(lia)).
  pose proof (seconds_split n ltac:(lia)) as Hsplit.
  set (text := date_part _ +:+ _). assert (Hink : str_forall ink_char ("P" +:+ text) = true).
  { subst text. unfold date_part, time_part. rewrite !str_forall_app. rewrite part_ink by done. cbn.
    destruct (_ || _); [|done]. rewrite !str_forall_app, !part_ink by (done || lia). done. }
  unfold timedelta_parse. rewrite ink_trim by done. rewrite display_no_number.
  change (str_starts_with "P" ("P" +:+ text)) with true. cbn [orb]. subst text.
  rewrite iso_text_parses by lia. by rewrite Hsplit.
Qed.
End roundtrip.

(** ** Sizes *)

Lemma split_number_digits number unit :
  all_digits number -> (unit = "" \/ exists c rest, unit = String c rest /\ is_ascii_digit c = false /\ c <> "."%char) ->
  split_number (number +:+ unit) = (number, unit).
Proof.
  intros Hdigits Hunit. induction number as [|c number IH].
  - rewrite str_app_nil. destruct Hunit as [->|(c & rest & -> & Hc & Hpoint)]; [done|]. cbn. rewrite Hc.
    by apply Strings.Ascii.eqb_neq in Hpoint as ->.
  - apply andb_true_iff in Hdigits as [Hc Hdigits]. rewrite str_app_cons. cbn. rewrite Hc. cbn. by rewrite IH.
Qed.

Lemma letter_shape c : is_ascii_alphabetic c = true -> is_ascii_digit c = false /\ c <> "."%char /\ ink_char c = true.
Proof. destruct c as [[] [] [] [] [] [] [] []]; vm_compute; intros [=]; done. Qed.

Lemma letters_shape unit : str_forall is_ascii_alphabetic unit = true ->
  unit = "" \/ exists c rest, unit = String c rest /\ is_ascii_digit c = false /\ c <> "."%char.
Proof.
  destruct unit as [|c rest]; [by left|]. intros [Hc _]%andb_true_iff. right. exists c, rest. by apply letter_shape in Hc as (? & ? & _).
Qed.

Lemma unit_found unit scale : (unit, scale) ∈ size_units ->
  0 < scale < 2 ^ 53 /\ List.find (fun '(name, _) => bool_decide (name = unit)) size_units = Some (unit, scale).
Proof.
  unfold size_units. intros Hunit.
  repeat (apply elem_of_cons in Hunit as [[= -> ->]|Hunit]; [by repeat split|]). by apply elem_of_nil in Hunit.
Qed.

Lemma float_as_u64_exact x n : whole x n -> 0 <= n <= u64_max -> float_as_u64 x = n.
Proof.
  intros (k & Hk & ->) Hn. assert (0 < 2 ^ k) as Hpow by (apply Z.pow_pos_nonneg; lia). unfold float_as_u64.
  replace (if 0 <=? - k then _ else _) with n; [lia|].
  destruct (0 <=? - k) eqn:Hle; to_prop.
  - assert (k = 0) as -> by lia. change (2 ^ - 0) with 1. change (2 ^ 0) with 1. lia.
  - rewrite Z.opp_involutive. by rewrite Z.quot_mul by lia.
Qed.

Section sizes.
Context `{RegexCrate}.

(** A whole number with a unit, in any case, or bare, is read as exactly
    that many bytes while they stay below 2^53. *)
Theorem bytesize_exact number unit n scale :
  number <> "" -> digits_value number 0 = Some n -> str_forall is_ascii_alphabetic unit = true ->
  (to_lowercase unit, scale) ∈ size_units -> n * scale < 2 ^ 53 ->
  bytesize_parse (number +:+ unit) = Ok (n * scale).
Proof.
  intros Hne Hn Hletters Hunit Hlt. destruct (unit_found _ _ Hunit) as (Hscale & Hfind).
  pose proof (digits_value_ge _ _ _ (Z.le_refl 0) Hn) as Hpos. pose proof (digits_value_digits _ _ _ Hn) as Hdigits.
  assert (Hink : str_forall ink_char unit = true) by (eapply str_forall_impl; [|exact Hletters]; by intros c (_ & _ & ?)%letter_shape).
  unfold bytesize_parse. rewrite ink_trim.
  2:{ rewrite str_forall_app. apply andb_true_iff. split; [|done]. eapply str_forall_impl; [|exact Hdigits].
      intros c Hc. by apply plain_ink, digit_plain. }
  rewrite split_number_digits by (done || by apply letters_shape).
  destruct (float_parse_digits number n) as (x & Hparse & Hx); [done|done|nia|].
  rewrite Hparse, ink_trim, Hfind by done. f_equal.
  apply float_as_u64_exact; [apply float_times_exact; [done|nia]|unfold u64_max; nia].
Qed.
End sizes.

(** * Internet addresses

    [str::parse] of [IpAddr], as the standard library's parser reads it. *)
Local Close Scope ceres_scope.

(** An address: four bytes, or eight groups. *)
Inductive IpAddr := V4 (octets : list Z) | V6 (groups : list Z).

#[export] Instance ip_addr_eq_dec : EqDecision IpAddr.
Proof. solve_decision. Defined.

(** [is_unspecified]. *)
Definition is_unspecified (address : IpAddr) : bool :=
  match address with V4 octets => forallb (Z.eqb 0) octets | V6 groups => forallb (Z.eqb 0) groups end.

(** [char::to_digit]. *)
Definition to_digit (radix : Z) (c : ascii) : option Z :=
  let code := byte_of c in
  let digit :=
    if is_ascii_digit c then Some (code - 48)
    else if ascii_between "a" "z" c then Some (code - 87)
    else if ascii_between "A" "Z" c then Some (code - 55) else None in
  match digit with Some digit => if digit <? radix then Some digit else None | None => None end.

Fixpoint read_digits (radix : Z) (text : string) (value : Z) (count : nat) : Z * nat * string :=
  match text with
  | String c rest =>
      match to_digit radix c with
      | Some digit => read_digits radix rest (value * radix + digit) (S count)
      | None => (value, count, text)
      end
  | EmptyString => (value, count, text)
  end.

(** [read_number]: up to so many digits, all that there are, within [max]. *)
Definition read_number (radix : Z) (most : nat) (max : Z) (zero_prefix : bool) (text : string) : option (Z * string) :=
  let '(value, count, rest) := read_digits radix text 0 0 in
  if (count =? 0)%nat || (most <? count)%nat || (max <? value) ||
     negb zero_prefix && (1 <? count)%nat && str_starts_with "0" text
  then None else Some (value, rest).

Definition read_octet : string -> option (Z * string) := read_number 10 3 255 false.
Definition read_group : string -> option (Z * string) := read_number 16 4 65535 true.

(** [read_ipv4_addr]. *)
Definition read_ipv4 (text : string) : option (list Z * string) :=
  '(a, text) ← read_octet text; text ← strip_prefix "." text;
  '(b, text) ← read_octet text; text ← strip_prefix "." text;
  '(c, text) ← read_octet text; text ← strip_prefix "." text;
  '(d, text) ← read_octet text; Some ([a; b; c; d], text).

(** [read_groups] into so many groups: those read, and whether an IPv4 address
    ended them. *)
Fixpoint read_groups (left : nat) (first : bool) (text : string) : list Z * bool * string :=
  match left with
  | O => ([], false, text)
  | S more =>
      let separated {A} (inner : string -> option (A * string)) : option (A * string) :=
        if first then inner text else strip_prefix ":" text ≫= inner in
      match (if (more =? 0)%nat then None else separated read_ipv4) with
      | Some (octets, rest) =>
          (match octets with [a; b; c; d] => [a * 256 + b; c * 256 + d] | _ => [] end, true, rest)
      | None =>
          match separated read_group with
          | Some (group, rest) =>
              let '(groups, ipv4, rest) := read_groups more false rest in (group :: groups, ipv4, rest)
          | None => ([], false, text)
          end
      end
  end.

(** [read_ipv6_addr]. *)
Definition read_ipv6 (text : string) : option (list Z * string) :=
  let '(head, ipv4, text) := read_groups 8 true text in
  if (length head =? 8)%nat then Some (head, text)
  else if ipv4 then None
  else
    text ← strip_prefix "::" text;
    let '(tail, _, text) := read_groups (8 - S (length head)) true text in
    Some (head ++ replicate (8 - length head - length tail) 0 ++ tail, text).

Definition ip_parse (text : string) : option IpAddr :=
  match read_ipv4 text with
  | Some (octets, rest) => if decide (rest = "") then Some (V4 octets) else None
  | None =>
      match read_ipv6 text with
      | Some (groups, rest) => if decide (rest = "") then Some (V6 groups) else None
      | None => None
      end
  end.

(** ** What it reads *)

Example reads_any : ip_parse "0.0.0.0" = Some (V4 [0; 0; 0; 0]) /\ ip_parse "::" = Some (V6 [0; 0; 0; 0; 0; 0; 0; 0]).
Proof. done. Qed.

Example reads_mixed : ip_parse "::ffff:10.0.0.1" = Some (V6 [0; 0; 0; 0; 0; 65535; 2560; 1]) /\ ip_parse "1.2.3" = None /\
  ip_parse "01.2.3.4" = None /\ ip_parse "1:2:3:4:5:6:7::" = Some (V6 [1; 2; 3; 4; 5; 6; 7; 0]) /\ ip_parse "1::2::3" = None.
Proof. done. Qed.
