(* ===== verification/ConfigServer.v ===== *)
(** * The server's configuration

    [ceres-config/src/server.rs]: every section as it is written and as it
    comes out validated. A validation goes on past a problem and gives them
    all, each under the sections it lies in. *)
From S2P Require Import Prelude.
From stdpp Require Import pretty.
From S2P Require Import Text Wire Schema Config ConfigValues.
Local Open Scope string_scope.
Local Open Scope list_scope.
Local Open Scope Z_scope.
Local Open Scope ceres_scope.

Definition trouble (location message : string) : Trouble := {| trouble_location := location; trouble_message := message |}.

(** A problem recorded when a check fails. *)
Definition check (passes : bool) (location message : string) (problems : Troubles) : Troubles :=
  if passes then problems else push_trouble (trouble location message) problems.

Definition DEFAULT_TLS_CERT : string := ".ceres/tls/server.crt".
Definition DEFAULT_TLS_KEY : string := ".ceres/tls/server.key".
Definition DEFAULT_TLS_CA_CERT : string := ".ceres/tls/ca.crt".
Definition DEFAULT_TLS_CA_KEY : string := ".ceres/tls/ca.key".
Definition DEFAULT_CERTIFICATE_DAYS : Z := 365.
Definition MAX_CERTIFICATE_DAYS : Z := 825.

Inductive TlsVersion := Tls12 | Tls13.
#[export] Instance tls_version_eq_dec : EqDecision TlsVersion.
Proof. solve_decision. Defined.

(** ** The certificate authority *)

Record RawServerCertificateAuthorityConfig := {
  raw_ca_path : option string; raw_ca_key : option string; raw_ca_password : option string
}.
Record ServerCertificateAuthorityConfig := { ca_path : string; ca_key : string; ca_password : option string }.

Definition authority_default : ServerCertificateAuthorityConfig :=
  {| ca_path := DEFAULT_TLS_CA_CERT; ca_key := DEFAULT_TLS_CA_KEY; ca_password := None |}.

Definition authority_try_from (raw : RawServerCertificateAuthorityConfig) : result ServerCertificateAuthorityConfig Troubles :=
  let defaults := authority_default in
  Ok {| ca_path := default (ca_path defaults) (raw_ca_path raw); ca_key := default (ca_key defaults) (raw_ca_key raw);
        ca_password := raw_ca_password raw |}.

(** ** Managed certificates *)

Record RawServerCertificateAutoConfig := {
  raw_auto_ip : option (list IpAddr); raw_auto_dns : option (list string); raw_auto_days : option Z;
  raw_auto_ca : option RawServerCertificateAuthorityConfig
}.
Record ServerCertificateAutoConfig := {
  auto_ip : list IpAddr; auto_dns : list string; auto_days : Z; auto_ca : option ServerCertificateAuthorityConfig
}.

Definition raw_auto_default : RawServerCertificateAutoConfig :=
  {| raw_auto_ip := None; raw_auto_dns := None; raw_auto_days := None; raw_auto_ca := None |}.
Definition auto_default : ServerCertificateAutoConfig :=
  {| auto_ip := []; auto_dns := []; auto_days := DEFAULT_CERTIFICATE_DAYS; auto_ca := None |}.

(** [detects_names] and [authority]. *)
Definition detects_names (self : ServerCertificateAutoConfig) : bool :=
  bool_decide (auto_ip self = []) && bool_decide (auto_dns self = []).
Definition auto_authority (self : ServerCertificateAutoConfig) : ServerCertificateAuthorityConfig :=
  default authority_default (auto_ca self).

Definition dns_name (name : string) : bool :=
  negb (bool_decide (name = "")) && str_forall (fun c => is_ascii_alphanumeric c || contains_char c "-.*") name.

Definition days_allowed (days : Z) : bool := (1 <=? days) && (days <=? MAX_CERTIFICATE_DAYS).

Fixpoint validate_dns `{RegexCrate} (names : list string) (problems : Troubles) : Troubles :=
  match names with
  | [] => problems
  | name :: names => validate_dns names (check (dns_name name) "dns" (debug_text name +:+ " is not a DNS name.") problems)
  end.

Definition auto_try_from `{RegexCrate} (raw : RawServerCertificateAutoConfig) : result ServerCertificateAutoConfig Troubles :=
  let dns := default [] (raw_auto_dns raw) in
  let problems := validate_dns dns [] in
  let days := default DEFAULT_CERTIFICATE_DAYS (raw_auto_days raw) in
  let problems := check (days_allowed days) "days" ("must be between 1 and " +:+ pretty MAX_CERTIFICATE_DAYS +:+ ".") problems in
  let '(ca, problems) := validate_nested authority_try_from (raw_auto_ca raw) "ca" problems in
  into_result {| auto_ip := default [] (raw_auto_ip raw); auto_dns := dns; auto_days := days; auto_ca := ca |} problems.

(** ** The certificate *)

Record RawServerCertificateConfig := {
  raw_cert_path : option string; raw_cert_key : option string; raw_cert_password : option string;
  raw_cert_auto : option RawServerCertificateAutoConfig
}.
Record ServerCertificateConfig := {
  cert_path : string; cert_key : string; cert_password : option string; cert_auto : option ServerCertificateAutoConfig
}.

Definition raw_certificate_default : RawServerCertificateConfig :=
  {| raw_cert_path := None; raw_cert_key := None; raw_cert_password := None; raw_cert_auto := None |}.
Definition certificate_default : ServerCertificateConfig :=
  {| cert_path := DEFAULT_TLS_CERT; cert_key := DEFAULT_TLS_KEY; cert_password := None; cert_auto := None |}.

(** [Path::components] on Unix: a [.] is kept only where a relative path
    starts with it. *)
Inductive Component := RootDir | CurDir | ParentDir | Normal (name : string).
#[export] Instance component_eq_dec : EqDecision Component.
Proof. solve_decision. Defined.

Definition component_of (name : string) : list Component :=
  if bool_decide (name = "") || bool_decide (name = ".") then []
  else if decide (name = "..") then [ParentDir] else [Normal name].

Definition path_components (text : string) : list Component :=
  let names := str_split "/" text in
  (if str_starts_with "/" text then [RootDir]
   else match names with "." :: _ => [CurDir] | _ => [] end) ++ List.flat_map component_of names.

(** [lexical]: the components so far, latest first. *)
Definition lexical_step (lexical : list Component) (component : Component) : list Component :=
  match component, lexical with
  | CurDir, _ => lexical
  | ParentDir, Normal _ :: above => above
  | _, _ => component :: lexical
  end.
Definition lexical (text : string) : list Component := rev (foldl lexical_step [] (path_components text)).

(** The files of a certificate and its managed authority. *)
Definition certificate_files (path key : string) (auto : option ServerCertificateAutoConfig) : list (string * string) :=
  [("path", path); ("key", key)] ++
  match auto with
  | Some auto => [("auto.ca.path", ca_path (auto_authority auto)); ("auto.ca.key", ca_key (auto_authority auto))]
  | None => []
  end.

Definition earlier_file (earlier : list (string * string)) (file : string) : option (string * string) :=
  List.find (fun '(_, other) => bool_decide (lexical other = lexical file)) earlier.

Fixpoint distinct_files (earlier files : list (string * string)) (problems : Troubles) : Troubles :=
  match files with
  | [] => problems
  | (location, file) :: files =>
      distinct_files (earlier ++ [(location, file)]) files
        match earlier_file earlier file with
        | Some (other, _) => push_trouble (trouble location ("is " +:+ file +:+ ", the same file as `" +:+ other +:+ "`.")) problems
        | None => problems
        end
  end.

Definition certificate_try_from `{RegexCrate} (raw : RawServerCertificateConfig) : result ServerCertificateConfig Troubles :=
  let defaults := certificate_default in
  let '(auto, problems) := validate_nested auto_try_from (raw_cert_auto raw) "auto" [] in
  let problems := check (bool_decide (raw_cert_password raw = None) || negb (bool_decide (is_Some auto))) "key_password"
                    "cannot be combined with `auto`, which writes the key unencrypted." problems in
  let path := default (cert_path defaults) (raw_cert_path raw) in
  let key := default (cert_key defaults) (raw_cert_key raw) in
  let problems := distinct_files [] (certificate_files path key auto) problems in
  into_result {| cert_path := path; cert_key := key; cert_password := raw_cert_password raw; cert_auto := auto |} problems.

(** What serde's visitors are handed: [auto_or_settings] and
    [certificate_or_auto] take some of it and refuse the rest, as what they
    expect. *)
Inductive Visited (Raw : Type) :=
  | VisitBool (enabled : bool) | VisitUnit | VisitNone | VisitStr (text : string)
  | VisitMap (read : result Raw string) | VisitOther.
Arguments VisitBool {Raw} _.
Arguments VisitUnit {Raw}.
Arguments VisitNone {Raw}.
Arguments VisitStr {Raw} _.
Arguments VisitMap {Raw} _.
Arguments VisitOther {Raw}.

Definition auto_or_settings (visited : Visited RawServerCertificateAutoConfig) :
    result (option RawServerCertificateAutoConfig) string :=
  match visited with
  | VisitBool enabled => Ok (if enabled then Some raw_auto_default else None)
  | VisitUnit | VisitNone => Ok None
  | VisitMap read => let* settings := read in Ok (Some settings)
  | VisitStr _ | VisitOther => Err "`true`, `false`, or a mapping of issuance settings"
  end.

Definition certificate_or_auto (visited : Visited RawServerCertificateConfig) :
    result (option RawServerCertificateConfig) string :=
  match visited with
  | VisitStr text =>
      if decide (text = "auto") then
        Ok (Some {| raw_cert_path := None; raw_cert_key := None; raw_cert_password := None;
                    raw_cert_auto := Some raw_auto_default |})
      else Err "`auto` or a mapping of certificate settings"
  | VisitUnit | VisitNone => Ok None
  | VisitMap read => let* settings := read in Ok (Some settings)
  | VisitBool _ | VisitOther => Err "`auto` or a mapping of certificate settings"
  end.

(** ** The listeners *)

Record RawServerHttpsConfig := {
  raw_https_port : option Z; raw_certificate : option RawServerCertificateConfig; raw_min_version : option TlsVersion
}.
Record ServerHttpsConfig := { https_port : Z; certificate : ServerCertificateConfig; min_version : TlsVersion }.

Definition https_default : ServerHttpsConfig :=
  {| https_port := 443; certificate := certificate_default; min_version := Tls12 |}.

Definition https_try_from `{RegexCrate} (raw : RawServerHttpsConfig) : result ServerHttpsConfig Troubles :=
  let defaults := https_default in
  let '(found, problems) :=
    match raw_certificate raw with
    | Some written => validate_nested certificate_try_from (Some written) "certificate" []
    | None => (Some (certificate defaults), [])
    end in
  into_result {| https_port := default (https_port defaults) (raw_https_port raw);
                 certificate := default certificate_default found;
                 min_version := default (min_version defaults) (raw_min_version raw) |} problems.

Record RawServerHttpConfig := { raw_http_port : option Z; raw_redirect : option bool }.
Record ServerHttpConfig := { http_port : Z; redirect : bool }.

Definition http_default : ServerHttpConfig := {| http_port := 80; redirect := false |}.

Definition http_try_from (raw : RawServerHttpConfig) : result ServerHttpConfig Troubles :=
  let defaults := http_default in
  Ok {| http_port := default (http_port defaults) (raw_http_port raw);
        redirect := default (redirect defaults) (raw_redirect raw) |}.

(** ** Authentication *)

Record RawServerAuthenticationConfig := {
  raw_secret : option string; raw_duration : option TimeDelta; raw_allow_impersonate : option bool
}.
Record ServerAuthenticationConfig := { auth_secret : string; auth_duration : TimeDelta; auth_allow_impersonate : bool }.

Definition is_empty (text : string) : bool := bool_decide (text = "").

Definition authentication_try_from (raw : RawServerAuthenticationConfig) : result ServerAuthenticationConfig Troubles :=
  let '(secret, problems) := require (raw_secret raw) "secret" is_empty "must not be empty." [] in
  into_result {| auth_secret := secret; auth_duration := default (from_secs (30 * 60)) (raw_duration raw);
                 auth_allow_impersonate := default false (raw_allow_impersonate raw) |} problems.

(** ** Cross-origin requests

    [fancy_regex]: whether a pattern compiles, or its error as text. *)
Class FancyRegexCrate := { fancy_new : string -> result unit string }.

Record RawServerCorsConfig := {
  raw_cors_enabled : option bool; raw_allow_origins : option (MaybeSequence string);
  raw_allow_origin_regex : option string; raw_allow_methods : option (MaybeSequence string);
  raw_allow_headers : option (MaybeSequence string); raw_allow_credentials : option bool;
  raw_expose_headers : option (MaybeSequence string); raw_max_age : option Z
}.
Record ServerCorsConfig := {
  cors_enabled : bool; allow_origins : MaybeSequence string; allow_origin_regex : option string;
  allow_methods : MaybeSequence string; allow_headers : MaybeSequence string; allow_credentials : bool;
  expose_headers : MaybeSequence string; max_age : Z
}.

Definition cors_default : ServerCorsConfig :=
  {| cors_enabled := true; allow_origins := no_sequence; allow_origin_regex := None; allow_methods := One "*";
     allow_headers := One "*"; allow_credentials := true; expose_headers := no_sequence; max_age := 600 |}.

Definition cors_try_from `{FancyRegexCrate} (raw : RawServerCorsConfig) : result ServerCorsConfig Troubles :=
  let defaults := cors_default in
  let '(regex, problems) :=
    match raw_allow_origin_regex raw with
    | None => (None, [])
    | Some pattern =>
        match fancy_new pattern with
        | Ok _ => (Some pattern, [])
        | Err error => (None, [trouble "allow_origin_regex" ("invalid pattern. " +:+ error)])
        end
    end in
  let age := default (max_age defaults) (raw_max_age raw) in
  let problems := check (negb (age =? 0)) "max_age" "must be greater than zero." problems in
  into_result
    {| cors_enabled := default (cors_enabled defaults) (raw_cors_enabled raw);
       allow_origins := default (allow_origins defaults) (raw_allow_origins raw); allow_origin_regex := regex;
       allow_methods := default (allow_methods defaults) (raw_allow_methods raw);
       allow_headers := default (allow_headers defaults) (raw_allow_headers raw);
       allow_credentials := default (allow_credentials defaults) (raw_allow_credentials raw);
       expose_headers := default (expose_headers defaults) (raw_expose_headers raw); max_age := age |} problems.

(** ** Compression *)

Record RawServerCompressionConfig := {
  raw_compression_enabled : option bool; raw_min_size : option ByteSize; raw_zstd : option bool; raw_zstd_level : option Z;
  raw_brotli : option bool; raw_brotli_quality : option Z; raw_gzip : option bool; raw_gzip_level : option Z
}.
Record ServerCompressionConfig := {
  compression_enabled : bool; min_size : ByteSize; zstd : bool; zstd_level : Z; brotli : bool; brotli_quality : Z;
  gzip : bool; gzip_level : Z
}.

Definition compression_default : ServerCompressionConfig :=
  {| compression_enabled := true; min_size := 500; zstd := true; zstd_level := 1; brotli := true; brotli_quality := 4;
     gzip := true; gzip_level := 1 |}.

Definition in_range (low high value : Z) : bool := (low <=? value) && (value <=? high).

(** [validate_level]. *)
Definition validate_level (value : option Z) (fallback : Z) (field : string) (low high : Z) (problems : Troubles) :
    Z * Troubles :=
  let value := default fallback value in
  (value, check (in_range low high value) field ("must be between " +:+ pretty low +:+ " and " +:+ pretty high +:+ ".") problems).

Definition compression_try_from (raw : RawServerCompressionConfig) : result ServerCompressionConfig Troubles :=
  let defaults := compression_default in
  let '(zstd_found, problems) := validate_level (raw_zstd_level raw) (zstd_level defaults) "zstd_level" 1 22 [] in
  let '(brotli_found, problems) :=
    validate_level (raw_brotli_quality raw) (brotli_quality defaults) "brotli_quality" 0 11 problems in
  let '(gzip_found, problems) := validate_level (raw_gzip_level raw) (gzip_level defaults) "gzip_level" 0 9 problems in
  into_result
    {| compression_enabled := default (compression_enabled defaults) (raw_compression_enabled raw);
       min_size := default (min_size defaults) (raw_min_size raw); zstd := default (zstd defaults) (raw_zstd raw);
       zstd_level := zstd_found; brotli := default (brotli defaults) (raw_brotli raw); brotli_quality := brotli_found;
       gzip := default (gzip defaults) (raw_gzip raw); gzip_level := gzip_found |} problems.

(** ** WebRTC *)

Record RawServerWebrtcConfig := {
  raw_webrtc_port : option Z; raw_hosts : option (list IpAddr); raw_max_sessions : option Z;
  raw_no_ice_timeout : option TimeDelta
}.
Record ServerWebrtcConfig := { webrtc_port : Z; hosts : list IpAddr; max_sessions : Z; no_ice_timeout : TimeDelta }.

Definition webrtc_default : ServerWebrtcConfig :=
  {| webrtc_port := 8189; hosts := []; max_sessions := 32; no_ice_timeout := from_secs 10 |}.

Definition webrtc_try_from (raw : RawServerWebrtcConfig) : result ServerWebrtcConfig Troubles :=
  let defaults := webrtc_default in
  let sessions := default (max_sessions defaults) (raw_max_sessions raw) in
  let problems := check (negb (sessions =? 0)) "max_sessions"
                    "must be greater than zero, leave out `webrtc` to turn WebRTC off." [] in
  let timeout := default (no_ice_timeout defaults) (raw_no_ice_timeout raw) in
  let problems := check (negb (timeout =? 0)) "no_ice_timeout"
                    "must be greater than zero, since no browser connects at once." problems in
  into_result {| webrtc_port := default (webrtc_port defaults) (raw_webrtc_port raw);
                 hosts := default (hosts defaults) (raw_hosts raw); max_sessions := sessions;
                 no_ice_timeout := timeout |} problems.

(** ** The server *)

Section server.
Context `{RegexCrate} `{FancyRegexCrate} `{GlobCrate}.

Record RawServerConfig := {
  raw_bind : option string; raw_https : option RawServerHttpsConfig; raw_http : option RawServerHttpConfig;
  raw_authentication : option RawServerAuthenticationConfig; raw_cors : option RawServerCorsConfig;
  raw_compression : option RawServerCompressionConfig; raw_webrtc : option RawServerWebrtcConfig;
  raw_server_files : option RawServerFilesConfig
}.
Record ServerConfig := {
  bind : string; https : option ServerHttpsConfig; http : option ServerHttpConfig;
  authentication : option ServerAuthenticationConfig; cors : option ServerCorsConfig;
  compression : option ServerCompressionConfig; webrtc : option ServerWebrtcConfig; server_files : ServerFilesConfig
}.

Definition server_default : ServerConfig :=
  {| bind := "0.0.0.0"; https := None; http := None; authentication := None; cors := None; compression := None;
     webrtc := None; server_files := files_default |}.

(** [console_listener] and [http_serves]. *)
Definition console_listener (self : ServerConfig) : option (string * Z) :=
  match https self, http self with
  | Some https, _ => Some ("https", https_port https)
  | None, Some http => Some ("http", http_port http)
  | None, None => None
  end.
Definition http_serves (self : ServerConfig) : bool :=
  match http self with Some http => negb (redirect http) | None => false end.

(** The checks across the two listeners. *)
Definition check_listeners (http : option ServerHttpConfig) (https : option ServerHttpsConfig) (problems : Troubles) : Troubles :=
  match http with
  | None => problems
  | Some http =>
      let problems := check (negb (redirect http) || bool_decide (is_Some https)) "http.redirect"
                        "needs `https`, the redirect target is the HTTPS listener." problems in
      check match https with
            | Some https => negb (http_port http =? https_port https) || (http_port http =? 0)
            | None => true
            end "http.port" "must differ from `https.port`." problems
  end.

Definition server_try_from (raw : RawServerConfig) : result ServerConfig Troubles :=
  let bind := default "0.0.0.0" (raw_bind raw) in
  let problems := check (bool_decide (is_Some (ip_parse bind))) "bind"
                    (debug_text bind +:+ " is not a valid IPv4 or IPv6 address.") [] in
  let '(https, problems) := validate_nested https_try_from (raw_https raw) "https" problems in
  let '(http, problems) := validate_nested http_try_from (raw_http raw) "http" problems in
  let '(authentication, problems) :=
    validate_nested authentication_try_from (raw_authentication raw) "authentication" problems in
  let '(cors, problems) := validate_nested cors_try_from (raw_cors raw) "cors" problems in
  let '(compression, problems) := validate_nested compression_try_from (raw_compression raw) "compression" problems in
  let '(webrtc, problems) := validate_nested webrtc_try_from (raw_webrtc raw) "webrtc" problems in
  let '(files, problems) := validate_nested files_try_from (raw_server_files raw) "files" problems in
  let problems := check_listeners http https problems in
  into_result {| bind := bind; https := https; http := http; authentication := authentication; cors := cors;
                 compression := compression; webrtc := webrtc; server_files := default files_default files |} problems.
End server.
