(* ===== verification/ConfigRules.v ===== *)
(** * Validations

    What a section's validation promises: it accepts exactly the values its
    rule allows, and otherwise gives problems located in its fields. The rules
    of the server's sections, and that their validations keep to them. *)
From S2P Require Import Prelude.
From stdpp Require Import pretty.
From S2P Require Import Text Wire Schema Config ConfigValues ConfigServer.
Local Open Scope string_scope.
Local Open Scope list_scope.
Local Open Scope Z_scope.
Local Open Scope ceres_scope.

(** ** The interface *)

(** A problem of one of some fields, or of what is below one. *)
Definition located (fields : list string) (found : Trouble) : Prop :=
  exists field, field ∈ fields /\
    (trouble_location found = field \/ exists more, trouble_location found = field +:+ "." +:+ more).

(** A validation, with the raw form that stands for a value: every value it
    gives is allowed, every allowed value is one it gives, and its refusals
    name problems in its fields. *)
Record validates {Raw A} (try_from : Raw -> result A Troubles) (write : A -> Raw) (allowed : A -> Prop)
    (fields : list string) : Prop := {
  accepts_only : forall raw a, try_from raw = Ok a -> allowed a;
  accepts_all : forall a, allowed a -> try_from (write a) = Ok a;
  refuses_located : forall raw problems, try_from raw = Err problems -> problems <> [] /\ Forall (located fields) problems
}.

Definition allowed_option {A} (allowed : A -> Prop) (section : option A) : Prop :=
  match section with Some a => allowed a | None => True end.

(** ** Problems collected *)

Lemma into_result_Ok {A} (value a : A) problems : into_result value problems = Ok a <-> problems = [] /\ value = a.
Proof. destruct problems; cbn; naive_solver. Qed.

Lemma into_result_Err {A} (value : A) found problems : into_result value found = Err problems <-> found = problems /\ problems <> [].
Proof. destruct found; cbn; naive_solver. Qed.

Lemma check_nil passes location message problems : check passes location message problems = [] <-> problems = [] /\ passes = true.
Proof. unfold check, push_trouble. destruct passes; [naive_solver|]. destruct problems; naive_solver. Qed.

Lemma check_located fields passes location message problems :
  location ∈ fields -> Forall (located fields) problems -> Forall (located fields) (check passes location message problems).
Proof.
  intros Hin Hall. unfold check, push_trouble. destruct passes; [done|]. apply Forall_app. split; [done|].
  constructor; [|done]. exists location. split; [done|by left].
Qed.

(** A field given below a field. *)
Lemma check_located_below fields passes field more message problems :
  field ∈ fields -> Forall (located fields) problems ->
  Forall (located fields) (check passes (field +:+ "." +:+ more) message problems).
Proof.
  intros Hin Hall. unfold check, push_trouble. destruct passes; [done|]. apply Forall_app. split; [done|].
  constructor; [|done]. exists field. split; [done|]. right. by exists more.
Qed.

Lemma under_located parent fields found : parent ∈ fields -> located fields (under parent found).
Proof.
  intros Hin. exists parent. split; [done|]. unfold under. cbn. case_decide; [by left|right]. by eexists.
Qed.

Section nested.
Context {Raw A : Type} (try_from : Raw -> result A Troubles) (write : A -> Raw) (allowed : A -> Prop) (fields : list string).
Context (valid : validates try_from write allowed fields).

Lemma nested_nil raw section problems found :
  validate_nested try_from raw section problems = (found, []) ->
  problems = [] /\ allowed_option allowed found /\ (found = None <-> raw = None).
Proof.
  unfold validate_nested. destruct raw as [raw|]; [|by intros [= <- ->]].
  destruct (try_from raw) as [a|nested] eqn:Hfrom.
  - intros [= <- ->]. split; [done|]. split; [|by split]. exact (accepts_only _ _ _ _ valid raw a Hfrom).
  - intros [= <- Habsorb]. apply app_eq_nil in Habsorb as [_ Habsorb]. apply fmap_nil_inv in Habsorb as ->.
    apply (refuses_located _ _ _ _ valid) in Hfrom as [? _]. done.
Qed.

Lemma nested_write section found problems :
  allowed_option allowed found -> validate_nested try_from (write <$> found) section problems = (found, problems).
Proof.
  destruct found as [a|]; [|done]. intros Ha. unfold validate_nested. cbn. by rewrite (accepts_all _ _ _ _ valid a Ha).
Qed.
End nested.

Lemma nested_located {Raw A} (try_from : Raw -> result A Troubles) raw section fields problems value found :
  validate_nested try_from raw section problems = (value, found) -> section ∈ fields ->
  Forall (located fields) problems -> Forall (located fields) found.
Proof.
  intros Hnested Hin Hall. unfold validate_nested in Hnested. destruct raw as [raw|]; [|by injection Hnested as <- <-].
  destruct (try_from raw); injection Hnested as <- <-; [done|].
  apply Forall_app. split; [done|]. apply Forall_fmap, Forall_true. intros other. by apply under_located.
Qed.

Ltac taken := repeat match goal with
  | H : into_result _ _ = Ok _ |- _ => apply into_result_Ok in H as [H <-]
  | H : check _ _ _ _ = [] |- _ => apply check_nil in H as [H ?]
  end.

Section sections.
Context `{RegexCrate} `{FancyRegexCrate} `{GlobCrate}.

(** ** The certificate *)

Definition write_authority (self : ServerCertificateAuthorityConfig) : RawServerCertificateAuthorityConfig :=
  {| raw_ca_path := Some (ca_path self); raw_ca_key := Some (ca_key self); raw_ca_password := ca_password self |}.

Lemma authority_validates : validates authority_try_from write_authority (fun _ => True) [].
Proof. split; [done| |done]. by intros [] _. Qed.

Definition auto_allowed (self : ServerCertificateAutoConfig) : Prop :=
  Forall (fun name => dns_name name = true) (auto_dns self) /\ days_allowed (auto_days self) = true.
Definition write_auto (self : ServerCertificateAutoConfig) : RawServerCertificateAutoConfig :=
  {| raw_auto_ip := Some (auto_ip self); raw_auto_dns := Some (auto_dns self); raw_auto_days := Some (auto_days self);
     raw_auto_ca := write_authority <$> auto_ca self |}.

Lemma validate_dns_nil names problems :
  validate_dns names problems = [] <-> problems = [] /\ Forall (fun name => dns_name name = true) names.
Proof.
  revert problems. induction names as [|name names IH]; intros problems; cbn; [naive_solver|].
  rewrite IH, check_nil, Forall_cons. tauto.
Qed.

Lemma validate_dns_located fields names problems :
  "dns" ∈ fields -> Forall (located fields) problems -> Forall (located fields) (validate_dns names problems).
Proof.
  intros Hin. revert problems. induction names as [|name names IH]; intros problems Hall; cbn; [done|].
  by apply IH, check_located.
Qed.

Lemma auto_validates : validates auto_try_from write_auto auto_allowed ["dns"; "days"; "ca"].
Proof.
  split.
  - intros raw a Hok. unfold auto_try_from in Hok. destruct (validate_nested _ _ _ _) as [ca problems] eqn:Hca. taken. subst.
    apply (nested_nil _ _ _ _ authority_validates) in Hca as [Hdays _]. apply check_nil in Hdays as [Hdns Hdays].
    by apply validate_dns_nil in Hdns as [_ Hdns].
  - intros a [Hdns Hdays]. unfold auto_try_from. cbn -[validate_dns days_allowed check].
    rewrite (proj2 (validate_dns_nil _ _)) by done. rewrite Hdays. cbn [check].
    rewrite (nested_write _ _ _ _ authority_validates) by by destruct (auto_ca a). by destruct a.
  - intros raw problems Herr. unfold auto_try_from in Herr.
    destruct (validate_nested _ _ _ _) as [ca found] eqn:Hca. apply into_result_Err in Herr as [<- Hne]. split; [done|].
    eapply nested_located; [done|set_solver|]. apply check_located; [set_solver|]. apply validate_dns_located; [set_solver|done].
Qed.

Definition certificate_allowed (self : ServerCertificateConfig) : Prop :=
  (cert_password self = None \/ cert_auto self = None) /\
  NoDup ((fun '(_, file) => lexical file) <$> certificate_files (cert_path self) (cert_key self) (cert_auto self)) /\
  allowed_option auto_allowed (cert_auto self).
Definition write_certificate (self : ServerCertificateConfig) : RawServerCertificateConfig :=
  {| raw_cert_path := Some (cert_path self); raw_cert_key := Some (cert_key self); raw_cert_password := cert_password self;
     raw_cert_auto := write_auto <$> cert_auto self |}.

Lemma earlier_file_None earlier file :
  earlier_file earlier file = None <-> lexical file ∉ ((fun '(_, file) => lexical file) <$> earlier).
Proof.
  unfold earlier_file. induction earlier as [|[location other] earlier IH]; cbn; [set_solver|].
  case_bool_decide as Hsame; [split; [done|]; set_solver|]. rewrite IH. set_solver.
Qed.

Lemma distinct_files_nil earlier files problems :
  NoDup ((fun '(_, file) => lexical file) <$> earlier) ->
  distinct_files earlier files problems = [] <->
  problems = [] /\ NoDup ((fun '(_, file) => lexical file) <$> (earlier ++ files)).
Proof.
  revert earlier problems. induction files as [|[location file] files IH]; intros earlier problems Hearlier; cbn.
  { rewrite app_nil_r. naive_solver. }
  pose proof (earlier_file_None earlier file) as Hnone. destruct (earlier_file earlier file) as [[other path]|] eqn:Hfound.
  - assert (Hin : lexical file ∈ ((fun '(_, file) => lexical file) <$> earlier)).
    { destruct (decide (lexical file ∈ ((fun '(_, file) => lexical file) <$> earlier))) as [|Hnot]; [done|].
      by apply Hnone in Hnot. }
    split.
    + intros Hnil. exfalso. revert Hnil. generalize (earlier ++ [(location, file)]) as others. 
      assert (Hpushed : push_trouble (trouble location ("is " +:+ file +:+ ", the same file as `" +:+ other +:+ "`.")) problems <> [])
        by (unfold push_trouble; by destruct problems).
      revert Hpushed. generalize (push_trouble (trouble location ("is " +:+ file +:+ ", the same file as `" +:+ other +:+ "`.")) problems).
      clear. induction files as [|[location file] files IH]; intros problems Hne others; cbn; [done|].
      apply IH. destruct (earlier_file others file) as [[??]|]; [unfold push_trouble; by destruct problems|done].
    + intros [_ Hdistinct]. exfalso. rewrite fmap_app in Hdistinct. apply NoDup_app in Hdistinct as (_ & Hdisjoint & _).
      apply (Hdisjoint _ Hin). cbn. by left.
  - rewrite IH.
    + by rewrite <-app_assoc.
    + rewrite fmap_app. apply NoDup_app. split_and!; [done| |repeat constructor; set_solver].
      intros other Hother Hin. apply list_elem_of_singleton in Hin as ->. by apply (proj1 Hnone eq_refl).
Qed.

Lemma push_located fields location message problems :
  located fields (trouble location message) -> Forall (located fields) problems ->
  Forall (located fields) (push_trouble (trouble location message) problems).
Proof. intros Hin Hall. apply Forall_app. split; [done|]. by constructor. Qed.

Lemma distinct_files_located fields earlier files problems :
  Forall (fun '(location, _) => forall message, located fields (trouble location message)) files ->
  Forall (located fields) problems -> Forall (located fields) (distinct_files earlier files problems).
Proof.
  intros Hfiles. revert earlier problems. induction Hfiles as [|[location file] files Hlocation Hfiles IH];
    intros earlier problems Hall; cbn; [done|].
  apply IH. destruct (earlier_file earlier file) as [[??]|]; [|done]. by apply push_located.
Qed.

Definition certificate_fields : list string := ["path"; "key"; "key_password"; "auto"].

Lemma certificate_files_located path key auto :
  Forall (fun '(location, _) => forall message, located certificate_fields (trouble location message))
    (certificate_files path key auto).
Proof.
  assert (Hhere : forall field, field ∈ certificate_fields -> forall message, located certificate_fields (trouble field message)).
  { intros field Hin message. exists field. split; [done|by left]. }
  assert (Hbelow : forall more message, located certificate_fields (trouble ("auto" +:+ "." +:+ more) message)).
  { intros more message. exists "auto". split; [unfold certificate_fields; set_solver|right]. by exists more. }
  apply Forall_app. split; [repeat constructor; apply Hhere; unfold certificate_fields; set_solver|].
  destruct auto; [|done]. constructor; [exact (Hbelow "ca.path")|]. constructor; [exact (Hbelow "ca.key")|done].
Qed.

Lemma certificate_validates : validates certificate_try_from write_certificate certificate_allowed certificate_fields.
Proof.
  split.
  - intros raw a Hok. unfold certificate_try_from in Hok. destruct (validate_nested _ _ _ _) as [auto problems] eqn:Hauto. taken.
    apply distinct_files_nil in Hok as [Hpassword Hdistinct]; [|constructor]. apply check_nil in Hpassword as [-> Hpassword].
    apply (nested_nil _ _ _ _ auto_validates) in Hauto as (_ & Hauto & _). split; [|by split]. cbn.
    apply orb_true_iff in Hpassword as [->%bool_decide_eq_true|Hnone]; [by left|right].
    apply negb_true_iff, bool_decide_eq_false in Hnone. by apply eq_None_not_Some.
  - intros a (Hpassword & Hdistinct & Hauto). unfold certificate_try_from. cbn -[check distinct_files certificate_files].
    rewrite (nested_write _ _ _ _ auto_validates) by done.
    rewrite (proj2 (distinct_files_nil [] _ _ (NoDup_nil_2))); [by destruct a|]. split; [|done].
    apply check_nil. split; [done|]. destruct Hpassword as [->| ->]; cbn; [done|]. by rewrite orb_true_r.
  - intros raw problems Herr. unfold certificate_try_from in Herr.
    destruct (validate_nested _ _ _ _) as [auto found] eqn:Hauto. apply into_result_Err in Herr as [<- Hne]. split; [done|].
    apply distinct_files_located; [apply certificate_files_located|]. apply check_located; [unfold certificate_fields; set_solver|].
    eapply nested_located; [done|unfold certificate_fields; set_solver|done].
Qed.

(** ** The listeners *)

Definition https_allowed (self : ServerHttpsConfig) : Prop := certificate_allowed (certificate self).
Definition write_https (self : ServerHttpsConfig) : RawServerHttpsConfig :=
  {| raw_https_port := Some (https_port self); raw_certificate := Some (write_certificate (certificate self));
     raw_min_version := Some (min_version self) |}.

Lemma certificate_default_allowed : certificate_allowed certificate_default.
Proof. split; [by left|]. split; [|done]. by apply (bool_decide_unpack _); vm_compute. Qed.

Lemma https_validates : validates https_try_from write_https https_allowed ["certificate"].
Proof.
  split.
  - intros raw a Hok. unfold https_try_from in Hok. destruct (raw_certificate raw) as [written|].
    + destruct (validate_nested _ _ _ _) as [found problems] eqn:Hfound. taken. subst.
      apply (nested_nil _ _ _ _ certificate_validates) in Hfound as (_ & Hfound & Hnone).
      unfold https_allowed. cbn. destruct found as [found|]; [done|]. discriminate (proj1 Hnone eq_refl).
    + taken. apply certificate_default_allowed.
  - intros a Ha. unfold https_try_from. cbn -[validate_nested].
    pose proof (nested_write _ _ _ _ certificate_validates "certificate" (Some (certificate a)) [] Ha) as Hwrite.
    cbn -[validate_nested] in Hwrite. rewrite Hwrite. by destruct a.
  - intros raw problems Herr. unfold https_try_from in Herr. destruct (raw_certificate raw) as [written|].
    + destruct (validate_nested _ _ _ _) as [found others] eqn:Hfound. apply into_result_Err in Herr as [<- Hne]. split; [done|].
      eapply nested_located; [done|set_solver|done].
    + by apply into_result_Err in Herr as [<- ?].
Qed.

Definition write_http (self : ServerHttpConfig) : RawServerHttpConfig :=
  {| raw_http_port := Some (http_port self); raw_redirect := Some (redirect self) |}.

Lemma http_validates : validates http_try_from write_http (fun _ => True) [].
Proof. split; [done| |done]. by intros [] _. Qed.

(** ** The other sections *)

Definition write_authentication (self : ServerAuthenticationConfig) : RawServerAuthenticationConfig :=
  {| raw_secret := Some (auth_secret self); raw_duration := Some (auth_duration self);
     raw_allow_impersonate := Some (auth_allow_impersonate self) |}.

Lemma require_nil value field is_blank message problems text :
  require value field is_blank message problems = (text, []) <->
  problems = [] /\ value = Some text /\ is_blank text = false.
Proof.
  unfold require, push_trouble. destruct value as [value|]; [destruct (is_blank value) eqn:Hblank|].
  - split; [intros [= _ Hnil]; by destruct problems|]. intros (_ & [= <-] & Hfull). congruence.
  - split; [by intros [= <- ->]|by intros (-> & [= <-] & _)].
  - split; [intros [= _ Hnil]; by destruct problems|by intros (_ & ? & _)].
Qed.

Lemma require_located fields value field is_blank message problems text found :
  require value field is_blank message problems = (text, found) -> field ∈ fields ->
  Forall (located fields) problems -> Forall (located fields) found.
Proof.
  intros Hrequire Hin Hall. assert (Hhere : forall message, located fields (trouble field message)).
  { intros other. exists field. split; [done|by left]. }
  unfold require in Hrequire. destruct value as [value|]; [destruct (is_blank value)|]; injection Hrequire as <- <-;
    [by apply push_located|done|by apply push_located].
Qed.

Lemma authentication_validates :
  validates authentication_try_from write_authentication (fun self => auth_secret self <> "") ["secret"].
Proof.
  split.
  - intros raw a Hok. unfold authentication_try_from in Hok. destruct (require _ _ _ _ _) as [secret problems] eqn:Hsecret. taken. subst.
    apply require_nil in Hsecret as (_ & _ & Hblank). by apply bool_decide_eq_false in Hblank.
  - intros a Ha. unfold authentication_try_from. cbn. unfold is_empty. rewrite bool_decide_eq_false_2 by done. by destruct a.
  - intros raw problems Herr. unfold authentication_try_from in Herr. destruct (require _ _ _ _ _) as [secret found] eqn:Hsecret.
    apply into_result_Err in Herr as [<- Hne]. split; [done|]. eapply require_located; [done|set_solver|done].
Qed.

Definition cors_allowed (self : ServerCorsConfig) : Prop :=
  (forall pattern, allow_origin_regex self = Some pattern -> fancy_new pattern = Ok tt) /\ max_age self <> 0.
Definition write_cors (self : ServerCorsConfig) : RawServerCorsConfig :=
  {| raw_cors_enabled := Some (cors_enabled self); raw_allow_origins := Some (allow_origins self);
     raw_allow_origin_regex := allow_origin_regex self; raw_allow_methods := Some (allow_methods self);
     raw_allow_headers := Some (allow_headers self); raw_allow_credentials := Some (allow_credentials self);
     raw_expose_headers := Some (expose_headers self); raw_max_age := Some (max_age self) |}.

Lemma nonzero_check value : negb (value =? 0) = true <-> value <> 0.
Proof. rewrite negb_true_iff. apply Z.eqb_neq. Qed.

Lemma cors_validates : validates cors_try_from write_cors cors_allowed ["allow_origin_regex"; "max_age"].
Proof.
  split.
  - intros raw a Hok. unfold cors_try_from in Hok. destruct (raw_allow_origin_regex raw) as [pattern|].
    + destruct (fancy_new pattern) as [[]|error] eqn:Hpattern; taken.
      * split; [by intros other [= <-]|by apply nonzero_check].
      * done.
    + taken. split; [done|by apply nonzero_check].
  - intros a [Hpattern Hage]. unfold cors_try_from. cbn -[check]. apply nonzero_check in Hage. rewrite Hage.
    destruct a as [? ? [pattern|]]; cbn in *; [|done]. by rewrite (Hpattern pattern).
  - intros raw problems Herr. unfold cors_try_from in Herr. destruct (match raw_allow_origin_regex raw with Some _ => _ | None => _ end)
      as [regex found] eqn:Hregex. apply into_result_Err in Herr as [<- Hne]. split; [done|].
    apply check_located; [set_solver|]. destruct (raw_allow_origin_regex raw) as [pattern|]; [|by injection Hregex as <- <-].
    destruct (fancy_new pattern); injection Hregex as <- <-; [done|]. constructor; [|done].
    exists "allow_origin_regex". split; [set_solver|by left].
Qed.

Definition compression_allowed (self : ServerCompressionConfig) : Prop :=
  1 <= zstd_level self <= 22 /\ 0 <= brotli_quality self <= 11 /\ 0 <= gzip_level self <= 9.
Definition write_compression (self : ServerCompressionConfig) : RawServerCompressionConfig :=
  {| raw_compression_enabled := Some (compression_enabled self); raw_min_size := Some (min_size self);
     raw_zstd := Some (zstd self); raw_zstd_level := Some (zstd_level self); raw_brotli := Some (brotli self);
     raw_brotli_quality := Some (brotli_quality self); raw_gzip := Some (gzip self); raw_gzip_level := Some (gzip_level self) |}.

Lemma in_range_iff low high value : in_range low high value = true <-> low <= value <= high.
Proof. unfold in_range. rewrite andb_true_iff, !Z.leb_le. done. Qed.

Lemma compression_validates : validates compression_try_from write_compression compression_allowed
  ["zstd_level"; "brotli_quality"; "gzip_level"].
Proof.
  split.
  - intros raw a Hok. unfold compression_try_from, validate_level in Hok. taken.
    by split; [|split]; apply in_range_iff.
  - intros a (Hzstd & Hbrotli & Hgzip). unfold compression_try_from, validate_level. cbn -[check in_range].
    apply in_range_iff in Hzstd as ->. apply in_range_iff in Hbrotli as ->. apply in_range_iff in Hgzip as ->. by destruct a.
  - intros raw problems Herr. unfold compression_try_from, validate_level in Herr. apply into_result_Err in Herr as [<- Hne].
    split; [done|]. repeat (apply check_located; [set_solver|]). done.
Qed.

Definition webrtc_allowed (self : ServerWebrtcConfig) : Prop := max_sessions self <> 0 /\ no_ice_timeout self <> 0.
Definition write_webrtc (self : ServerWebrtcConfig) : RawServerWebrtcConfig :=
  {| raw_webrtc_port := Some (webrtc_port self); raw_hosts := Some (hosts self); raw_max_sessions := Some (max_sessions self);
     raw_no_ice_timeout := Some (no_ice_timeout self) |}.

Lemma webrtc_validates : validates webrtc_try_from write_webrtc webrtc_allowed ["max_sessions"; "no_ice_timeout"].
Proof.
  split.
  - intros raw a Hok. unfold webrtc_try_from in Hok. taken. by split; apply nonzero_check.
  - intros a [Hsessions Htimeout]. unfold webrtc_try_from. cbn -[check].
    apply nonzero_check in Hsessions as ->. apply nonzero_check in Htimeout as ->. by destruct a.
  - intros raw problems Herr. unfold webrtc_try_from in Herr. apply into_result_Err in Herr as [<- Hne].
    split; [done|]. repeat (apply check_located; [set_solver|]). done.
Qed.

Definition files_allowed (self : ServerFilesConfig) : Prop :=
  Forall (fun '(name, _) => is_ok (name_parse name) = true) (files_mounts self) /\
  Forall (fun pattern => is_ok (exclusion_glob pattern) = true) (files_exclude self).
Definition write_files (self : ServerFilesConfig) : RawServerFilesConfig :=
  {| raw_mounts := Some ((fun '(name, mount) => (name, RawSetting mount)) <$> files_mounts self);
     raw_exclude := Some (files_exclude self); raw_max_upload := files_max_upload self;
     raw_access := Some (files_access self); raw_reveal_paths := Some (files_reveal_paths self) |}.

Lemma validate_patterns_nil patterns problems :
  validate_patterns patterns problems = [] <-> problems = [] /\ Forall (fun pattern => is_ok (exclusion_glob pattern) = true) patterns.
Proof.
  revert problems. induction patterns as [|pattern patterns IH]; intros problems; cbn; [naive_solver|].
  rewrite IH, Forall_cons. destruct (exclusion_glob pattern); cbn; [tauto|].
  unfold push_trouble. destruct problems; naive_solver.
Qed.

Lemma validate_mounts_nil raw mounts problems found :
  validate_mounts raw mounts problems = (found, []) ->
  problems = [] /\ (Forall (fun '(name, _) => is_ok (name_parse name) = true) mounts ->
    Forall (fun '(name, _) => is_ok (name_parse name) = true) found).
Proof.
  revert mounts problems. induction raw as [|[name mount] raw IH]; intros mounts problems; cbn; [by intros [= <- ->]|].
  destruct (name_parse name) eqn:Hname; intros [Hnil Hall]%IH.
  - split; [done|]. intros Hmounts. apply Hall, Forall_app. split; [done|]. constructor; [by rewrite Hname|done].
  - unfold push_trouble in Hnil. by destruct problems.
Qed.

Lemma validate_mounts_write mounts held :
  Forall (fun '(name, _) => is_ok (name_parse name) = true) mounts ->
  validate_mounts ((fun '(name, mount) => (name, RawSetting mount)) <$> mounts) held [] = (held ++ mounts, []).
Proof.
  intros Hmounts. revert held. induction Hmounts as [|[name mount] mounts Hname Hmounts IH]; intros held; cbn.
  { by rewrite app_nil_r. }
  destruct (name_parse name); [|done]. rewrite IH. by rewrite <-app_assoc.
Qed.

Lemma files_validates : validates files_try_from write_files files_allowed ["mounts"; "exclude"].
Proof.
  assert (Hhere : forall field, field ∈ ["mounts"; "exclude"] -> forall message, located ["mounts"; "exclude"] (trouble field message)).
  { intros field Hin message. exists field. split; [done|by left]. }
  split.
  - intros raw a Hok. unfold files_try_from in Hok. destruct (validate_mounts _ _ _) as [mounts problems] eqn:Hmounts. taken.
    apply validate_patterns_nil in Hok as [-> Hpatterns]. apply validate_mounts_nil in Hmounts as [_ Hmounts].
    split; [by apply Hmounts|done].
  - intros a [Hmounts Hpatterns]. unfold files_try_from. cbn -[validate_mounts validate_patterns].
    rewrite validate_mounts_write by done. rewrite (proj2 (validate_patterns_nil _ _)) by done. by destruct a.
  - intros raw problems Herr. unfold files_try_from in Herr. destruct (validate_mounts _ _ _) as [mounts others] eqn:Hmounts.
    apply into_result_Err in Herr as [<- Hne]. split; [done|].
    assert (Hothers : Forall (located ["mounts"; "exclude"]) others).
    { assert (Hall : Forall (located ["mounts"; "exclude"]) []) by constructor. revert Hmounts Hall.
      generalize (@nil Trouble) as before. generalize (@nil (string * EngineMount)) as held.
      induction (default [] (raw_mounts raw)) as [|[name mount] rest IH]; intros held before; cbn; [by intros [= <- <-]|].
      destruct (name_parse name); [by intros Hrest Hall; eapply IH|]. intros Hrest Hall. eapply IH; [done|].
      apply push_located; [|done]. apply Hhere. set_solver. }
    clear Hmounts Hne. revert others Hothers. induction (default [] (raw_exclude raw)) as [|pattern rest IH]; intros others Hothers; cbn; [done|].
    apply IH. destruct (exclusion_glob pattern); [done|]. apply push_located; [|done]. apply Hhere. set_solver.
Qed.

(** ** The server *)

Definition listeners_allowed (http : option ServerHttpConfig) (https : option ServerHttpsConfig) : Prop :=
  forall plain, http = Some plain ->
    (redirect plain = true -> https <> None) /\
    (forall secure, https = Some secure -> http_port plain = https_port secure -> http_port plain = 0).

Record server_allowed (self : ServerConfig) : Prop := {
  allowed_bind : is_Some (ip_parse (bind self));
  allowed_https : allowed_option https_allowed (https self);
  allowed_authentication : allowed_option (fun section => auth_secret section <> "") (authentication self);
  allowed_cors : allowed_option cors_allowed (cors self);
  allowed_compression : allowed_option compression_allowed (compression self);
  allowed_webrtc : allowed_option webrtc_allowed (webrtc self);
  allowed_files : files_allowed (server_files self);
  allowed_listeners : listeners_allowed (http self) (https self)
}.

Definition write_server (self : ServerConfig) : RawServerConfig :=
  {| raw_bind := Some (bind self); raw_https := write_https <$> https self; raw_http := write_http <$> http self;
     raw_authentication := write_authentication <$> authentication self; raw_cors := write_cors <$> cors self;
     raw_compression := write_compression <$> compression self; raw_webrtc := write_webrtc <$> webrtc self;
     raw_server_files := Some (write_files (server_files self)) |}.

Lemma check_listeners_nil http https problems :
  check_listeners http https problems = [] <-> problems = [] /\ listeners_allowed http https.
Proof.
  unfold check_listeners, listeners_allowed. destruct http as [plain|]; [|naive_solver].
  rewrite !check_nil, Logic.and_assoc. apply and_iff_compat_l. split.
  - intros [Hredirect Hports] other [= <-]. split.
    + intros Hset. rewrite Hset in Hredirect. apply bool_decide_eq_true in Hredirect. by destruct https; [|destruct Hredirect].
    + intros secure ->. intros Hsame. rewrite Hsame, Z.eqb_refl in Hports. cbn in Hports. apply Z.eqb_eq in Hports. lia.
  - intros Hall. destruct (Hall plain eq_refl) as [Hredirect Hports]. split.
    + destruct (redirect plain); [|done]. apply bool_decide_eq_true. destruct https; [eauto|]. by destruct (Hredirect eq_refl).
    + destruct https as [secure|]; [|done]. destruct (Z.eqb_spec (http_port plain) (https_port secure)) as [Hsame|]; [|done].
      cbn. apply Z.eqb_eq. by eapply Hports.
Qed.

Lemma files_default_allowed : files_allowed files_default.
Proof. split; constructor. Qed.

Lemma server_accepts_only raw a : server_try_from raw = Ok a -> server_allowed a.
Proof.
  unfold server_try_from. intros Hok.
  destruct (validate_nested https_try_from _ _ _) as [https p1] eqn:Hhttps.
  destruct (validate_nested http_try_from _ _ _) as [http p2] eqn:Hhttp.
  destruct (validate_nested authentication_try_from _ _ _) as [authentication p3] eqn:Hauthentication.
  destruct (validate_nested cors_try_from _ _ _) as [cors p4] eqn:Hcors.
  destruct (validate_nested compression_try_from _ _ _) as [compression p5] eqn:Hcompression.
  destruct (validate_nested webrtc_try_from _ _ _) as [webrtc p6] eqn:Hwebrtc.
  destruct (validate_nested files_try_from _ _ _) as [files p7] eqn:Hfiles.
  apply into_result_Ok in Hok as [Hok <-]. apply check_listeners_nil in Hok as [-> Hlisteners].
  apply (nested_nil _ _ _ _ files_validates) in Hfiles as (-> & Hfiles & _).
  apply (nested_nil _ _ _ _ webrtc_validates) in Hwebrtc as (-> & Hwebrtc & _).
  apply (nested_nil _ _ _ _ compression_validates) in Hcompression as (-> & Hcompression & _).
  apply (nested_nil _ _ _ _ cors_validates) in Hcors as (-> & Hcors & _).
  apply (nested_nil _ _ _ _ authentication_validates) in Hauthentication as (-> & Hauthentication & _).
  apply (nested_nil _ _ _ _ http_validates) in Hhttp as (-> & _ & _).
  apply (nested_nil _ _ _ _ https_validates) in Hhttps as (Hbind & Hhttps & _). apply check_nil in Hbind as [_ Hbind].
  split; try done; cbn; [by apply bool_decide_eq_true in Hbind|]. destruct files as [files|]; [done|apply files_default_allowed].
Qed.

Lemma server_accepts_all a : server_allowed a -> server_try_from (write_server a) = Ok a.
Proof.
  intros [Hbind Hhttps Hauthentication Hcors Hcompression Hwebrtc Hfiles Hlisteners]. unfold server_try_from.
  cbn -[validate_nested check_listeners check into_result]. rewrite bool_decide_eq_true_2 by done. cbn [check].
  rewrite (nested_write _ _ _ _ https_validates) by done.
  rewrite (nested_write _ _ _ _ http_validates) by by destruct (http a).
  rewrite (nested_write _ _ _ _ authentication_validates) by done. rewrite (nested_write _ _ _ _ cors_validates) by done.
  rewrite (nested_write _ _ _ _ compression_validates) by done. rewrite (nested_write _ _ _ _ webrtc_validates) by done.
  pose proof (nested_write _ _ _ _ files_validates "files" (Some (server_files a)) [] Hfiles) as Hwritten.
  cbn -[validate_nested] in Hwritten. rewrite Hwritten.
  rewrite (proj2 (check_listeners_nil _ _ _)) by done. by destruct a.
Qed.

Definition server_fields : list string :=
  ["bind"; "https"; "http"; "authentication"; "cors"; "compression"; "webrtc"; "files"].

Lemma server_refuses raw problems :
  server_try_from raw = Err problems -> problems <> [] /\ Forall (located server_fields) problems.
Proof.
  unfold server_try_from. intros Herr.
  destruct (validate_nested https_try_from _ _ _) as [https p1] eqn:Hhttps.
  destruct (validate_nested http_try_from _ _ _) as [http p2] eqn:Hhttp.
  destruct (validate_nested authentication_try_from _ _ _) as [authentication p3] eqn:Hauthentication.
  destruct (validate_nested cors_try_from _ _ _) as [cors p4] eqn:Hcors.
  destruct (validate_nested compression_try_from _ _ _) as [compression p5] eqn:Hcompression.
  destruct (validate_nested webrtc_try_from _ _ _) as [webrtc p6] eqn:Hwebrtc.
  destruct (validate_nested files_try_from _ _ _) as [files p7] eqn:Hfiles.
  apply into_result_Err in Herr as [<- Hne]. split; [done|].
  assert (Hall : Forall (located server_fields) p7).
  { do 7 (eapply nested_located; [eassumption|unfold server_fields; set_solver|]).
    apply check_located; [unfold server_fields; set_solver|done]. }
  unfold check_listeners. destruct http as [plain|]; [|done].
  apply (check_located_below server_fields _ "http" "port"); [unfold server_fields; set_solver|].
  by apply (check_located_below server_fields _ "http" "redirect"); [unfold server_fields; set_solver|].
Qed.
End sections.
