(* ===== verification/ConfigDatabase.v ===== *)
(** * The other sections of a configuration

    [ceres-config/src]: the database sections ([database.rs]), logging
    ([logging.rs]) and the whole configuration ([meta.rs]). What [yaml_serde]
    reads of a text, and of a section, is a parameter. *)
From S2P Require Import Prelude.
From stdpp Require Import pretty.
From S2P Require Import Text Wire Schema Json Entities Config ConfigValues ConfigServer.
Local Open Scope string_scope.
Local Open Scope list_scope.
Local Open Scope Z_scope.
Local Open Scope ceres_scope.

(** ** Paths *)

Definition MEMORY_PATH : string := ":memory:".

(** [Path::join] of texts. *)
Definition path_join (directory path : string) : string :=
  if str_starts_with "/" path then path
  else if bool_decide (directory = "") || str_ends_with "/" directory then directory +:+ path
  else directory +:+ "/" +:+ path.

Definition resolve_path (path directory : string) : string := path_join directory path.

(** Paths are equal when their components are. *)
Definition same_path (a b : string) : bool := bool_decide (path_components a = path_components b).

Definition validate_path (path : option string) (problems : Troubles) : Troubles :=
  check match path with Some path => negb (same_path path MEMORY_PATH) | None => true end "path"
    "must name a file. Omit it for a temporary on-disk database." problems.

(** ** Hooks *)

Record DatabaseConfigHooks := {
  hooks_init : option (list string); hooks_connect : option (list string); hooks_close : option (list string)
}.
Definition hooks_default : DatabaseConfigHooks := {| hooks_init := None; hooks_connect := None; hooks_close := None |}.
Definition hooks_try_from (raw : DatabaseConfigHooks) : result DatabaseConfigHooks Troubles :=
  Ok {| hooks_init := hooks_init raw; hooks_connect := hooks_connect raw; hooks_close := hooks_close raw |}.

(** ** Password hashing *)

Record RawBcryptHashingConfig := { raw_rounds : option Z }.
Record BcryptHashingConfig := { rounds : Z }.
Definition bcrypt_default : BcryptHashingConfig := {| rounds := 12 |}.
Definition bcrypt_try_from (raw : RawBcryptHashingConfig) : result BcryptHashingConfig Troubles :=
  let config := {| rounds := default (rounds bcrypt_default) (raw_rounds raw) |} in
  into_result config (check (negb (rounds config <? 4)) "rounds" "must be at least 4." []).

Record RawArgon2HashingConfig := {
  raw_time_cost : option Z; raw_memory_cost : option Z; raw_parallelism : option Z; raw_hash_length : option Z;
  raw_salt_length : option Z
}.
Record Argon2HashingConfig := { time_cost : Z; memory_cost : Z; parallelism : Z; hash_length : Z; salt_length : Z }.

Definition raw_argon2_default : RawArgon2HashingConfig :=
  {| raw_time_cost := None; raw_memory_cost := None; raw_parallelism := None; raw_hash_length := None;
     raw_salt_length := None |}.
Definition argon2_default : Argon2HashingConfig :=
  {| time_cost := 3; memory_cost := 65536; parallelism := 4; hash_length := 32; salt_length := 16 |}.

Definition argon2_try_from (raw : RawArgon2HashingConfig) : result Argon2HashingConfig Troubles :=
  let defaults := argon2_default in
  let config :=
    {| time_cost := default (time_cost defaults) (raw_time_cost raw);
       memory_cost := default (memory_cost defaults) (raw_memory_cost raw);
       parallelism := default (parallelism defaults) (raw_parallelism raw);
       hash_length := default (hash_length defaults) (raw_hash_length raw);
       salt_length := default (salt_length defaults) (raw_salt_length raw) |} in
  let problems := check (negb (time_cost config <? 1)) "time_cost" "must be positive." [] in
  let problems := check (negb (memory_cost config <? 8)) "memory_cost" "must be at least 8." problems in
  let problems :=
    if parallelism config <? 1 then check false "parallelism" "must be positive." problems
    else check (negb (Z.quot (memory_cost config) (parallelism config) <? 8)) "parallelism"
           "must be at least 8 times smaller than memory_cost." problems in
  let problems := check (in_range 4 256 (hash_length config)) "hash_length" "must be between 4 and 256." problems in
  let problems := check (in_range 8 64 (salt_length config)) "salt_length" "must be between 8 and 64." problems in
  into_result config problems.

Inductive RawHashingConfig := RawBcrypt (raw : RawBcryptHashingConfig) | RawArgon2 (raw : RawArgon2HashingConfig).
Inductive HashingConfig := Bcrypt (config : BcryptHashingConfig) | Argon2 (config : Argon2HashingConfig).

Definition raw_hashing_default : RawHashingConfig := RawArgon2 raw_argon2_default.
Definition hashing_default : HashingConfig := Argon2 argon2_default.
Definition hashing_try_from (raw : RawHashingConfig) : result HashingConfig Troubles :=
  match raw with
  | RawBcrypt raw => let* config := bcrypt_try_from raw in Ok (Bcrypt config)
  | RawArgon2 raw => let* config := argon2_try_from raw in Ok (Argon2 config)
  end.

(** ** The settings every backend has *)

Record RawSharedDatabaseConfig := {
  raw_hooks : option DatabaseConfigHooks; raw_engine : option Object; raw_hashing : option RawHashingConfig;
  raw_query : option (list (string * MaybeSequence string))
}.
Record SharedDatabaseConfig := {
  hooks : DatabaseConfigHooks; engine : Object; hashing : HashingConfig;
  shared_query : option (list (string * MaybeSequence string))
}.

Definition shared_default : SharedDatabaseConfig :=
  {| hooks := hooks_default; engine := []; hashing := hashing_default; shared_query := None |}.

(** [RawSharedDatabaseConfig::validate]. *)
Definition shared_validate (raw : RawSharedDatabaseConfig) (problems : Troubles) : SharedDatabaseConfig * Troubles :=
  let '(hashing, problems) :=
    match hashing_try_from (default raw_hashing_default (raw_hashing raw)) with
    | Ok hashing => (hashing, problems)
    | Err found => (hashing_default, absorb found "hashing" problems)
    end in
  ({| hooks := match raw_hooks raw with
               | Some written => match hooks_try_from written with Ok hooks => hooks | Err _ => hooks_default end
               | None => hooks_default
               end;
      engine := default [] (raw_engine raw); hashing := hashing; shared_query := raw_query raw |}, problems).

(** ** The backends *)

Record RawSqliteDatabaseConfig := { raw_sqlite_path : option string; raw_sqlite_shared : RawSharedDatabaseConfig }.
Record SqliteDatabaseConfig := { sqlite_path : option string; sqlite_shared : SharedDatabaseConfig }.
Definition sqlite_default : SqliteDatabaseConfig := {| sqlite_path := None; sqlite_shared := shared_default |}.

Definition sqlite_try_from (raw : RawSqliteDatabaseConfig) : result SqliteDatabaseConfig Troubles :=
  let '(shared, problems) := shared_validate (raw_sqlite_shared raw) [] in
  into_result {| sqlite_path := raw_sqlite_path raw; sqlite_shared := shared |} (validate_path (raw_sqlite_path raw) problems).

Record RawTursoDatabaseConfig := {
  raw_turso_path : option string; raw_mvcc : option bool; raw_turso_shared : RawSharedDatabaseConfig
}.
Record TursoDatabaseConfig := { turso_path : option string; mvcc : bool; turso_shared : SharedDatabaseConfig }.

Definition turso_try_from (raw : RawTursoDatabaseConfig) : result TursoDatabaseConfig Troubles :=
  let '(shared, problems) := shared_validate (raw_turso_shared raw) [] in
  into_result {| turso_path := raw_turso_path raw; mvcc := default false (raw_mvcc raw); turso_shared := shared |}
    (validate_path (raw_turso_path raw) problems).

(** A Turso configuration as SQLite's. *)
Definition sqlite_of_turso (config : TursoDatabaseConfig) : SqliteDatabaseConfig :=
  {| sqlite_path := turso_path config; sqlite_shared := turso_shared config |}.

Record RawPostgresDatabaseConfig := {
  raw_host : option string; raw_port : option Z; raw_database_name : option string; raw_user : option string;
  raw_password : option Secret; raw_postgres_shared : RawSharedDatabaseConfig
}.
Record PostgresDatabaseConfig := {
  host : string; port : option Z; database_name : string; database_user : string; database_password : option Secret;
  postgres_shared : SharedDatabaseConfig
}.

Definition blank (text : string) : bool := bool_decide (trim text = "").

Definition postgres_try_from (raw : RawPostgresDatabaseConfig) : result PostgresDatabaseConfig Troubles :=
  let '(host, problems) := require (raw_host raw) "host" blank "must not be blank." [] in
  let '(database, problems) := require (raw_database_name raw) "database" blank "must not be blank." problems in
  let '(user, problems) := require (raw_user raw) "user" blank "must not be blank." problems in
  let '(shared, problems) := shared_validate (raw_postgres_shared raw) problems in
  into_result {| host := host; port := raw_port raw; database_name := database; database_user := user;
                 database_password := raw_password raw; postgres_shared := shared |} problems.

Inductive RawDatabaseConfig :=
  | RawSqlite (raw : RawSqliteDatabaseConfig) | RawTurso (raw : RawTursoDatabaseConfig) | RawPostgres (raw : RawPostgresDatabaseConfig).
Inductive DatabaseConfig :=
  | SqliteConfig (config : SqliteDatabaseConfig) | TursoConfig (config : TursoDatabaseConfig)
  | PostgresConfig (config : PostgresDatabaseConfig).

Definition database_default : DatabaseConfig := SqliteConfig sqlite_default.

(** [DatabaseConfig::shared]. *)
Definition database_shared (self : DatabaseConfig) : SharedDatabaseConfig :=
  match self with
  | SqliteConfig config => sqlite_shared config
  | TursoConfig config => turso_shared config
  | PostgresConfig config => postgres_shared config
  end.

Definition database_try_from (raw : RawDatabaseConfig) : result DatabaseConfig Troubles :=
  match raw with
  | RawSqlite raw => let* config := sqlite_try_from raw in Ok (SqliteConfig config)
  | RawTurso raw => let* config := turso_try_from raw in Ok (TursoConfig config)
  | RawPostgres raw => let* config := postgres_try_from raw in Ok (PostgresConfig config)
  end.

(** ** Logging *)

#[export] Instance log_level_eq_dec : EqDecision LogLevel.
Proof. solve_decision. Defined.

(** [Level::parse]. *)
Definition level_parse `{RegexCrate} (text : string) : result LogLevel string :=
  if decide (text = "debug") then Ok Debug
  else if decide (text = "info") then Ok Info
  else if decide (text = "warning") then Ok Warning
  else if decide (text = "error") then Ok Error
  else if decide (text = "critical") then Ok Critical
  else Err ("invalid level " +:+ debug_text text).

Inductive LogToggle := Enabled (on : bool) | AtLevel (level : LogLevel).
#[export] Instance log_toggle_eq_dec : EqDecision LogToggle.
Proof. solve_decision. Defined.

(** [LogToggle::level]. *)
Definition toggle_level (self : LogToggle) (fallback : LogLevel) : option LogLevel :=
  match self with Enabled false => None | Enabled true => Some fallback | AtLevel level => Some level end.

(** Raw and validated, the section has one shape. *)
Record LoggingConfig := {
  log_output : option LogLevel; log_store : option LogLevel; log_events : option LogToggle;
  log_messages : option LogToggle; log_particles : option LogToggle; log_alerts : option LogToggle
}.
Definition logging_default : LoggingConfig :=
  {| log_output := None; log_store := None; log_events := None; log_messages := None; log_particles := None;
     log_alerts := None |}.
Definition logging_try_from (raw : LoggingConfig) : result LoggingConfig Troubles :=
  Ok {| log_output := log_output raw; log_store := log_store raw; log_events := log_events raw;
        log_messages := log_messages raw; log_particles := log_particles raw; log_alerts := log_alerts raw |}.

(** The accessors. *)
Definition logging_output (self : LoggingConfig) : LogLevel := default Info (log_output self).
Definition logging_store (self : LoggingConfig) : LogLevel := default Debug (log_store self).
Definition logging_events (self : LoggingConfig) : LogToggle := default (Enabled true) (log_events self).
Definition logging_messages (self : LoggingConfig) : LogToggle := default (Enabled false) (log_messages self).
Definition logging_particles (self : LoggingConfig) : LogToggle := default (Enabled false) (log_particles self).
Definition logging_alerts (self : LoggingConfig) : LogToggle := default (Enabled false) (log_alerts self).

(** [PartialEq]: by what is resolved. *)
Definition logging_eq (a b : LoggingConfig) : bool :=
  bool_decide (logging_output a = logging_output b) && bool_decide (logging_store a = logging_store b) &&
  bool_decide (logging_events a = logging_events b) && bool_decide (logging_messages a = logging_messages b) &&
  bool_decide (logging_particles a = logging_particles b) && bool_decide (logging_alerts a = logging_alerts b).

(** [Serialize]: the resolved values. *)
Definition toggle_json (self : LogToggle) : Jvalue :=
  match self with Enabled on => JBool on | AtLevel level => JText (level_as_str level) end.
Definition logging_json (self : LoggingConfig) : Jvalue :=
  JObject [("output", JText (level_as_str (logging_output self))); ("store", JText (level_as_str (logging_store self)));
           ("events", toggle_json (logging_events self)); ("messages", toggle_json (logging_messages self));
           ("particles", toggle_json (logging_particles self)); ("alerts", toggle_json (logging_alerts self))].

(** ** The whole configuration *)

Section meta.
Context `{RegexCrate} `{FancyRegexCrate} `{GlobCrate}.

(** [yaml_serde]: a text read as the sections there are, and a section read as
    its raw form. *)
Class YamlCrate := {
  YamlValue : Type;
  yaml_meta : string -> result (option YamlValue * option YamlValue * option YamlValue * option YamlValue * option YamlValue) string;
  yaml_service : YamlValue -> result ServiceConfig string;
  yaml_console : YamlValue -> result ConsoleConfig string;
  yaml_server : YamlValue -> result RawServerConfig string;
  yaml_logging : YamlValue -> result LoggingConfig string;
  yaml_database : YamlValue -> result RawDatabaseConfig string
}.
Context `{YamlCrate}.

Record ConfigMeta := {
  meta_service : ServiceConfig; meta_console : ConsoleConfig; meta_server : ServerConfig; meta_logging : LoggingConfig;
  meta_database : DatabaseConfig
}.

Definition service_default : ServiceConfig :=
  {| service_name := None; service_user := None; service_stdout := None; service_stderr := None |}.
Definition console_default : ConsoleConfig := {| console_title := None; console_favicon := None |}.
Definition meta_default : ConfigMeta :=
  {| meta_service := service_default; meta_console := console_default; meta_server := server_default;
     meta_logging := logging_default; meta_database := database_default |}.

(** [validate_section]. *)
Definition validate_section {Raw A} (from_value : YamlValue -> result Raw string) (try_from : Raw -> result A Troubles)
    (fallback : A) (value : option YamlValue) (section : string) (problems : Troubles) : A * Troubles :=
  match value with
  | None => (fallback, problems)
  | Some value =>
      match from_value value with
      | Err error => (fallback, push_trouble (trouble section error) problems)
      | Ok raw =>
          match try_from raw with
          | Ok validated => (validated, problems)
          | Err found => (fallback, absorb found section problems)
          end
      end
  end.

(** [ConfigMeta::parse] and [ConfigMeta::load], of what was read of the file at
    a path. *)
Definition meta_parse (content : string) : result ConfigMeta Troubles :=
  if blank content then Ok meta_default
  else match yaml_meta content with
  | Err error => Err [trouble "" error]
  | Ok (service, console, server, logging, database) =>
      let '(service, problems) := validate_section yaml_service service_try_from service_default service "service" [] in
      let '(console, problems) := validate_section yaml_console console_try_from console_default console "console" problems in
      let '(server, problems) := validate_section yaml_server server_try_from server_default server "server" problems in
      let '(logging, problems) := validate_section yaml_logging logging_try_from logging_default logging "logging" problems in
      let '(database, problems) :=
        validate_section yaml_database database_try_from database_default database "database" problems in
      into_result {| meta_service := service; meta_console := console; meta_server := server; meta_logging := logging;
                     meta_database := database |} problems
  end.

Definition meta_load (path : string) (content : option string) : result ConfigMeta Troubles :=
  match content with
  | None => Err [trouble "" ("Failed to read file at '" +:+ path +:+ "'.")]
  | Some content => meta_parse content
  end.
End meta.
