(* ===== verification/ConfigServed.v ===== *)
(** * A configuration that is accepted

    The rules of the database sections, what reading a whole configuration
    promises, and configurations to read. *)
From S2P Require Import Prelude.
From stdpp Require Import pretty.
From S2P Require Import Text Wire Schema Json Entities FilterFuel Config ConfigValues ConfigServer ConfigRules ConfigDatabase.
From S2P Require Import FilesServed.
Local Open Scope string_scope.
Local Open Scope list_scope.
Local Open Scope Z_scope.
Local Open Scope ceres_scope.

(** ** Password hashing *)

Definition bcrypt_allowed (self : BcryptHashingConfig) : Prop := 4 <= rounds self.
Definition write_bcrypt (self : BcryptHashingConfig) : RawBcryptHashingConfig := {| raw_rounds := Some (rounds self) |}.

Lemma at_least low value : negb (value <? low) = true <-> low <= value.
Proof. rewrite negb_true_iff, Z.ltb_ge. done. Qed.

Lemma bcrypt_validates : validates bcrypt_try_from write_bcrypt bcrypt_allowed ["rounds"].
Proof.
  split.
  - intros raw a Hok. unfold bcrypt_try_from in Hok. taken. by apply at_least.
  - intros a Ha. unfold bcrypt_try_from. cbn -[check Z.ltb]. apply at_least in Ha as ->. by destruct a.
  - intros raw problems Herr. unfold bcrypt_try_from in Herr. apply into_result_Err in Herr as [<- Hne].
    split; [done|]. apply check_located; [set_solver|done].
Qed.

(** Argon2 needs eight blocks of memory for each lane. *)
Definition argon2_allowed (self : Argon2HashingConfig) : Prop :=
  1 <= time_cost self /\ 1 <= parallelism self /\ 8 * parallelism self <= memory_cost self /\
  in_range 4 256 (hash_length self) = true /\ in_range 8 64 (salt_length self) = true.
Definition write_argon2 (self : Argon2HashingConfig) : RawArgon2HashingConfig :=
  {| raw_time_cost := Some (time_cost self); raw_memory_cost := Some (memory_cost self);
     raw_parallelism := Some (parallelism self); raw_hash_length := Some (hash_length self);
     raw_salt_length := Some (salt_length self) |}.

Definition argon2_fields : list string := ["time_cost"; "memory_cost"; "parallelism"; "hash_length"; "salt_length"].

Lemma lanes_iff memory lanes : 1 <= lanes -> 8 <= memory -> (8 <= Z.quot memory lanes <-> 8 * lanes <= memory).
Proof.
  intros Hlanes Hmemory. rewrite Z.quot_div_nonneg by lia. split; intros Hle.
  - pose proof (Z.mul_div_le memory lanes). nia.
  - apply Z.div_le_lower_bound; lia.
Qed.

Lemma argon2_validates : validates argon2_try_from write_argon2 argon2_allowed argon2_fields.
Proof.
  split.
  - intros raw a Hok. unfold argon2_try_from in Hok. taken. destruct (_ <? 1) eqn:Hlanes; taken; [done|]. apply Z.ltb_ge in Hlanes.
    repeat match goal with H : negb _ = true |- _ => apply at_least in H end. cbn in *.
    split; [done|]. split; [done|]. split; [by apply lanes_iff|by split].
  - intros a (Htime & Hlanes & Hmemory & Hhash & Hsalt). unfold argon2_try_from. cbn -[check in_range Z.ltb Z.quot].
    rewrite Hhash, Hsalt. rewrite (proj2 (Z.ltb_ge _ _) Hlanes).
    rewrite (proj2 (at_least _ _) Htime). rewrite (proj2 (at_least 8 (memory_cost a))) by lia.
    rewrite (proj2 (at_least 8 (Z.quot _ _))) by by apply lanes_iff; lia. by destruct a.
  - intros raw problems Herr. unfold argon2_try_from in Herr. apply into_result_Err in Herr as [<- Hne]. split; [done|].
    unfold argon2_fields. do 2 (apply check_located; [set_solver|]).
    destruct (_ <? 1); repeat (apply check_located; [set_solver|]); done.
Qed.

Definition hashing_allowed (self : HashingConfig) : Prop :=
  match self with Bcrypt config => bcrypt_allowed config | Argon2 config => argon2_allowed config end.
Definition write_hashing (self : HashingConfig) : RawHashingConfig :=
  match self with Bcrypt config => RawBcrypt (write_bcrypt config) | Argon2 config => RawArgon2 (write_argon2 config) end.

Lemma located_mono fields more found : fields ⊆ more -> located fields found -> located more found.
Proof. intros Hsub (field & Hin & Hfield). exists field. split; [set_solver|done]. Qed.

Lemma hashing_validates : validates hashing_try_from write_hashing hashing_allowed ("rounds" :: argon2_fields).
Proof.
  split.
  - intros [raw|raw] a; cbn; [destruct (bcrypt_try_from raw) eqn:Hok|destruct (argon2_try_from raw) eqn:Hok]; cbn; try done;
      intros [= <-]; [by apply (accepts_only _ _ _ _ bcrypt_validates) in Hok|by apply (accepts_only _ _ _ _ argon2_validates) in Hok].
  - intros [config|config] Ha; cbn -[bcrypt_try_from argon2_try_from];
      [by rewrite (accepts_all _ _ _ _ bcrypt_validates)|by rewrite (accepts_all _ _ _ _ argon2_validates)].
  - intros [raw|raw] problems; cbn; [destruct (bcrypt_try_from raw) eqn:Herr|destruct (argon2_try_from raw) eqn:Herr]; cbn; try done;
      intros [= <-]; [apply (refuses_located _ _ _ _ bcrypt_validates) in Herr as [Hne Hall]
                     |apply (refuses_located _ _ _ _ argon2_validates) in Herr as [Hne Hall]];
      (split; [done|]); (eapply Forall_impl; [exact Hall|]); intros found; apply located_mono; set_solver.
Qed.

(** ** The backends *)

Definition shared_allowed (self : SharedDatabaseConfig) : Prop := hashing_allowed (hashing self).
Definition write_shared (self : SharedDatabaseConfig) : RawSharedDatabaseConfig :=
  {| raw_hooks := Some (hooks self); raw_engine := Some (engine self); raw_hashing := Some (write_hashing (hashing self));
     raw_query := shared_query self |}.

Lemma shared_nil raw problems shared : shared_validate raw problems = (shared, []) -> problems = [] /\ shared_allowed shared.
Proof.
  unfold shared_validate. destruct (hashing_try_from _) as [config|found] eqn:Hhashing; intros [= <- Hnil].
  - split; [done|]. by apply (accepts_only _ _ _ _ hashing_validates) in Hhashing.
  - apply app_eq_nil in Hnil as [_ Hnil]. apply fmap_nil_inv in Hnil as ->.
    by apply (refuses_located _ _ _ _ hashing_validates) in Hhashing as [? _].
Qed.

Lemma shared_write shared problems : shared_allowed shared -> shared_validate (write_shared shared) problems = (shared, problems).
Proof.
  intros Hallowed. unfold shared_validate. cbn -[hashing_try_from].
  rewrite (accepts_all _ _ _ _ hashing_validates) by done. by destruct shared as [[]].
Qed.

Lemma shared_located fields raw problems shared found :
  shared_validate raw problems = (shared, found) -> "hashing" ∈ fields ->
  Forall (located fields) problems -> Forall (located fields) found.
Proof.
  unfold shared_validate. intros Hshared Hin Hall. destruct (hashing_try_from _); injection Hshared as <- <-; [done|].
  apply Forall_app. split; [done|]. apply Forall_fmap, Forall_true. intros other. by apply under_located.
Qed.

Definition path_allowed (path : option string) : Prop :=
  forall text, path = Some text -> path_components text <> path_components MEMORY_PATH.

Lemma validate_path_nil path problems : validate_path path problems = [] <-> problems = [] /\ path_allowed path.
Proof.
  unfold validate_path, path_allowed. rewrite check_nil. apply and_iff_compat_l. destruct path as [text|]; [|naive_solver].
  unfold same_path. rewrite negb_true_iff, bool_decide_eq_false. naive_solver.
Qed.

Definition database_allowed (self : DatabaseConfig) : Prop :=
  shared_allowed (database_shared self) /\
  match self with
  | SqliteConfig config => path_allowed (sqlite_path config)
  | TursoConfig config => path_allowed (turso_path config)
  | PostgresConfig config =>
      blank (host config) = false /\ blank (database_name config) = false /\ blank (database_user config) = false
  end.
Definition write_database (self : DatabaseConfig) : RawDatabaseConfig :=
  match self with
  | SqliteConfig config =>
      RawSqlite {| raw_sqlite_path := sqlite_path config; raw_sqlite_shared := write_shared (sqlite_shared config) |}
  | TursoConfig config =>
      RawTurso {| raw_turso_path := turso_path config; raw_mvcc := Some (mvcc config);
                  raw_turso_shared := write_shared (turso_shared config) |}
  | PostgresConfig config =>
      RawPostgres {| raw_host := Some (host config); raw_port := port config; raw_database_name := Some (database_name config);
                     raw_user := Some (database_user config); raw_password := database_password config;
                     raw_postgres_shared := write_shared (postgres_shared config) |}
  end.

Definition database_fields : list string := ["hashing"; "path"; "host"; "database"; "user"].

Lemma database_accepts_only raw a : database_try_from raw = Ok a -> database_allowed a.
Proof.
  destruct raw as [raw|raw|raw]; cbn.
  - unfold sqlite_try_from. destruct (shared_validate _ _) as [shared problems] eqn:Hshared.
    destruct (into_result _ _) as [config|] eqn:Hok; [|done]. cbn. intros [= <-]. taken.
    apply validate_path_nil in Hok as [-> Hpath]. by apply shared_nil in Hshared as [_ Hshared].
  - unfold turso_try_from. destruct (shared_validate _ _) as [shared problems] eqn:Hshared.
    destruct (into_result _ _) as [config|] eqn:Hok; [|done]. cbn. intros [= <-]. taken.
    apply validate_path_nil in Hok as [-> Hpath]. by apply shared_nil in Hshared as [_ Hshared].
  - unfold postgres_try_from. destruct (require (raw_host raw) _ _ _ _) as [host p1] eqn:Hhost.
    destruct (require (raw_database_name raw) _ _ _ _) as [database p2] eqn:Hdatabase.
    destruct (require (raw_user raw) _ _ _ _) as [user p3] eqn:Huser.
    destruct (shared_validate _ _) as [shared p4] eqn:Hshared.
    destruct (into_result _ _) as [config|] eqn:Hok; [|done]. cbn. intros [= <-]. taken. subst.
    apply shared_nil in Hshared as [-> Hshared]. apply require_nil in Huser as (-> & _ & Huser).
    apply require_nil in Hdatabase as (-> & _ & Hdatabase). by apply require_nil in Hhost as (_ & _ & Hhost).
Qed.

Lemma database_accepts_all a : database_allowed a -> database_try_from (write_database a) = Ok a.
Proof.
  destruct a as [config|config|config]; intros [Hshared Hallowed]; cbn in Hshared, Hallowed |- *.
  - unfold sqlite_try_from. cbn. rewrite shared_write by done. rewrite (proj2 (validate_path_nil _ _)) by done. by destruct config.
  - unfold turso_try_from. cbn. rewrite shared_write by done. rewrite (proj2 (validate_path_nil _ _)) by done. by destruct config.
  - destruct Hallowed as (Hhost & Hdatabase & Huser). unfold postgres_try_from. cbn -[shared_validate].
    rewrite Hhost, Hdatabase, Huser, shared_write by done. by destruct config.
Qed.

Lemma database_refuses raw problems :
  database_try_from raw = Err problems -> problems <> [] /\ Forall (located database_fields) problems.
Proof.
  assert (Hpath : forall path problems, Forall (located database_fields) problems -> Forall (located database_fields) (validate_path path problems)).
  { intros path others Hall. apply check_located; [unfold database_fields; set_solver|done]. }
  destruct raw as [raw|raw|raw]; cbn.
  - unfold sqlite_try_from. destruct (shared_validate _ _) as [shared found] eqn:Hshared.
    destruct (into_result _ _) as [config|others] eqn:Herr; [done|]. cbn. intros [= <-].
    apply into_result_Err in Herr as [<- Hne]. split; [done|]. apply Hpath.
    eapply shared_located; [done|unfold database_fields; set_solver|done].
  - unfold turso_try_from. destruct (shared_validate _ _) as [shared found] eqn:Hshared.
    destruct (into_result _ _) as [config|others] eqn:Herr; [done|]. cbn. intros [= <-].
    apply into_result_Err in Herr as [<- Hne]. split; [done|]. apply Hpath.
    eapply shared_located; [done|unfold database_fields; set_solver|done].
  - unfold postgres_try_from. destruct (require (raw_host raw) _ _ _ _) as [host p1] eqn:Hhost.
    destruct (require (raw_database_name raw) _ _ _ _) as [database p2] eqn:Hdatabase.
    destruct (require (raw_user raw) _ _ _ _) as [user p3] eqn:Huser.
    destruct (shared_validate _ _) as [shared p4] eqn:Hshared.
    destruct (into_result _ _) as [config|others] eqn:Herr; [done|]. cbn. intros [= <-].
    apply into_result_Err in Herr as [<- Hne]. split; [done|]. unfold database_fields in *.
    eapply shared_located; [done|set_solver|]. do 3 (eapply require_located; [eassumption|set_solver|]). done.
Qed.

Lemma database_validates : validates database_try_from write_database database_allowed database_fields.
Proof. split; [apply database_accepts_only|apply database_accepts_all|apply database_refuses]. Qed.

Section configuration.
Context `{RegexCrate} `{FancyRegexCrate} `{GlobCrate} `{!YamlCrate}.

(** A server configuration comes out of validation exactly when it keeps to
    the rules - the address to bind parses, the certificate's files are
    distinct, managed names and days are in range, a redirect has an HTTPS
    listener and another port, and every section its own - and every one that
    does comes out unchanged of its written form. A refusal names problems, all
    of them located in the server's sections. *)
Theorem server_config_exact :
  (forall raw config, server_try_from raw = Ok config -> server_allowed config) /\
  (forall config, server_allowed config -> server_try_from (write_server config) = Ok config) /\
  (forall raw problems, server_try_from raw = Err problems -> problems <> [] /\ Forall (located server_fields) problems) /\
  server_allowed server_default.
Proof.
  split; [apply server_accepts_only|]. split; [apply server_accepts_all|]. split; [apply server_refuses|].
  split; try done; first [by eexists|apply files_default_allowed].
Qed.

(** ** The whole configuration *)

Lemma server_validates : validates server_try_from write_server server_allowed server_fields.
Proof. split; [apply server_accepts_only|apply server_accepts_all|apply server_refuses]. Qed.

Definition name_allowed (name : option string) : Prop := forall text, name = Some text -> is_ok (name_parse text) = true.
Definition service_allowed (self : ServiceConfig) : Prop := name_allowed (service_name self) /\ name_allowed (service_user self).

Lemma validate_name_nil value field problems name :
  validate_name value field problems = (name, []) -> problems = [] /\ name_allowed name.
Proof.
  unfold validate_name. destruct value as [text|]; [|by intros [= <- ->]].
  destruct (name_parse text) as [found|found] eqn:Hname.
  - intros [= <- ->]. split; [done|]. intros other [= <-]. unfold name_parse in *. destruct (regex_match _ text) eqn:Hmatch; [|done].
    injection Hname as <-. by rewrite Hmatch.
  - unfold push_trouble. intros [= <- Hnil]. by destruct problems.
Qed.

Lemma validate_name_located fields value field problems name found :
  validate_name value field problems = (name, found) -> field ∈ fields ->
  Forall (located fields) problems -> Forall (located fields) found.
Proof.
  unfold validate_name. intros Hname Hin Hall. destruct value as [text|]; [|by injection Hname as <- <-].
  destruct (name_parse text); injection Hname as <- <-; [done|]. apply Forall_app. split; [done|].
  constructor; [by apply under_located|done].
Qed.

Lemma validate_name_write value field problems :
  name_allowed value -> validate_name value field problems = (value, problems).
Proof.
  intros Hname. unfold validate_name. destruct value as [text|]; [|done]. specialize (Hname text eq_refl).
  unfold name_parse in *. by destruct (regex_match _ text).
Qed.

Lemma service_validates : validates service_try_from (fun self => self) service_allowed ["name"; "user"].
Proof.
  split.
  - intros raw a Hok. unfold service_try_from in Hok. destruct (validate_name (service_name raw) _ _) as [name p1] eqn:Hname.
    destruct (validate_name (service_user raw) _ _) as [user p2] eqn:Huser. taken. subst.
    apply validate_name_nil in Huser as [-> Huser]. apply validate_name_nil in Hname as [_ Hname]. by split.
  - intros a [Hname Huser]. unfold service_try_from. rewrite !validate_name_write by done. by destruct a.
  - intros raw problems Herr. unfold service_try_from in Herr. destruct (validate_name (service_name raw) _ _) as [name p1] eqn:Hname.
    destruct (validate_name (service_user raw) _ _) as [user p2] eqn:Huser. apply into_result_Err in Herr as [<- Hne]. split; [done|].
    do 2 (eapply validate_name_located; [eassumption|set_solver|]). done.
Qed.

(** What a section comes to, and the problems it has. *)
Definition section_value {Raw A} (from_value : YamlValue -> result Raw string) (try_from : Raw -> result A Troubles)
    (fallback : A) (value : option YamlValue) : A :=
  match value with
  | Some value => match from_value value with
                  | Ok raw => match try_from raw with Ok a => a | Err _ => fallback end
                  | Err _ => fallback
                  end
  | None => fallback
  end.
Definition section_problems {Raw A} (from_value : YamlValue -> result Raw string) (try_from : Raw -> result A Troubles)
    (section : string) (value : option YamlValue) : Troubles :=
  match value with
  | Some value => match from_value value with
                  | Ok raw => match try_from raw with Ok _ => [] | Err found => under section <$> found end
                  | Err error => [trouble section error]
                  end
  | None => []
  end.

Lemma validate_section_eq {Raw A} (from_value : YamlValue -> result Raw string) (try_from : Raw -> result A Troubles)
    fallback value section problems :
  validate_section from_value try_from fallback value section problems =
  (section_value from_value try_from fallback value, problems ++ section_problems from_value try_from section value).
Proof.
  unfold validate_section, section_value, section_problems. destruct value as [value|]; [|by rewrite app_nil_r].
  destruct (from_value value) as [raw|]; [|done]. destruct (try_from raw); [by rewrite app_nil_r|done].
Qed.

(** A section without problems is an allowed one, or the default it has when
    it is left out. *)
Lemma section_allowed {Raw A} from_value (try_from : Raw -> result A Troubles) write (allowed : A -> Prop) fields fallback section value :
  validates try_from write allowed fields -> allowed fallback ->
  section_problems from_value try_from section value = [] ->
  allowed (section_value from_value try_from fallback value).
Proof.
  intros Hvalid Hfallback. unfold section_value, section_problems. destruct value as [value|]; [|done].
  destruct (from_value value) as [raw|]; [|done]. destruct (try_from raw) eqn:Hfrom; [|done].
  intros _. by apply (accepts_only _ _ _ _ Hvalid) in Hfrom.
Qed.

Lemma section_located {Raw A} from_value (try_from : Raw -> result A Troubles) sections section value :
  section ∈ sections -> Forall (located sections) (section_problems from_value try_from section value).
Proof.
  intros Hin. unfold section_problems. destruct value as [value|]; [|done]. destruct (from_value value) as [raw|error].
  - destruct (try_from raw); [done|]. apply Forall_fmap, Forall_true. intros found. by apply under_located.
  - constructor; [|done]. exists section. split; [done|by left].
Qed.

(** ** Every problem at once *)

Definition meta_sections : list string := ["service"; "console"; "server"; "logging"; "database"].

Record meta_allowed (self : ConfigMeta) : Prop := {
  service_kept : service_allowed (meta_service self);
  server_kept : server_allowed (meta_server self);
  database_kept : database_allowed (meta_database self)
}.

Lemma server_default_allowed : server_allowed server_default.
Proof. by destruct server_config_exact as (_ & _ & _ & ?). Qed.

Lemma database_default_allowed : database_allowed database_default.
Proof. split; [|done]. by split; [|split; [|split]]. Qed.

Lemma service_default_allowed : service_allowed service_default.
Proof. by split. Qed.

(** C28: Reading a configuration gives one whose every section keeps to its
    rules, or is its default for being left out or for the text being blank;
    or, when the text is no YAML, that one problem; or every problem of every
    section together, in the order of the sections, each located in its own.
    None is told twice or dropped, and one is enough to refuse. *)
Theorem configuration_problems (content : string) :
  (blank content = true -> meta_parse content = Ok meta_default) /\
  (forall error, blank content = false -> yaml_meta content = Err error -> meta_parse content = Err [trouble "" error]) /\
  (forall service console server logging database,
     blank content = false -> yaml_meta content = Ok (service, console, server, logging, database) ->
     let problems :=
       section_problems yaml_service service_try_from "service" service ++
       section_problems yaml_console console_try_from "console" console ++
       section_problems yaml_server server_try_from "server" server ++
       section_problems yaml_logging logging_try_from "logging" logging ++
       section_problems yaml_database database_try_from "database" database in
     Forall (located meta_sections) problems /\
     (problems <> [] -> meta_parse content = Err problems) /\
     (problems = [] -> exists config, meta_parse content = Ok config /\ meta_allowed config)).
Proof.
  split; [unfold meta_parse; by intros ->|]. split; [intros error Hblank Hyaml; unfold meta_parse; by rewrite Hblank, Hyaml|].
  intros service console server logging database Hblank Hyaml problems.
  assert (Hparse : exists config, meta_parse content = into_result config problems /\
    meta_service config = section_value yaml_service service_try_from service_default service /\
    meta_server config = section_value yaml_server server_try_from server_default server /\
    meta_database config = section_value yaml_database database_try_from database_default database).
  { unfold meta_parse. rewrite Hblank, Hyaml. rewrite !validate_section_eq. eexists (Build_ConfigMeta _ _ _ _ _).
    split; [|done]. unfold problems. rewrite !app_assoc. reflexivity. }
  destruct Hparse as (config & Hparse & Hservice & Hserver & Hdatabase). rewrite Hparse. split; [|split].
  - unfold problems, meta_sections. rewrite !Forall_app. split_and!; apply section_located; set_solver.
  - intros Hne. by apply into_result_Err.
  - intros Hnil. exists config. rewrite Hnil. split; [done|]. unfold problems in Hnil.
    apply app_nil in Hnil as [Hfirst Hnil]. apply app_nil in Hnil as [_ Hnil]. apply app_nil in Hnil as [Hsecond Hnil].
    apply app_nil in Hnil as [_ Hlast]. split.
    + rewrite Hservice. eapply section_allowed; [apply service_validates|apply service_default_allowed|done].
    + rewrite Hserver. eapply section_allowed; [apply server_validates|apply server_default_allowed|done].
    + rewrite Hdatabase. eapply section_allowed; [apply database_validates|apply database_default_allowed|done].
Qed.
End configuration.

(** ** Configurations to read *)

#[export] Instance sample_fancy : FancyRegexCrate := {| fancy_new pattern := if decide (pattern = "(") then Err "unclosed" else Ok tt |}.

Definition empty_server : RawServerConfig :=
  {| raw_bind := None; raw_https := None; raw_http := None; raw_authentication := None; raw_cors := None;
     raw_compression := None; raw_webrtc := None; raw_server_files := None |}.

(** A redirect without HTTPS, on a name instead of an address. *)
Definition broken_server : RawServerConfig :=
  {| raw_bind := Some "localhost"; raw_https := None; raw_http := Some {| raw_http_port := None; raw_redirect := Some true |};
     raw_authentication := Some {| raw_secret := Some ""; raw_duration := None; raw_allow_impersonate := None |};
     raw_cors := None; raw_compression := None; raw_webrtc := None; raw_server_files := None |}.

(** Both listeners, the certificate managed. *)
Definition served_server : ServerConfig :=
  {| bind := "::";
     https := Some {| https_port := 443;
       certificate := {| cert_path := "tls/site.crt"; cert_key := "tls/./site.key"; cert_password := None;
         cert_auto := Some {| auto_ip := [V4 [10; 0; 0; 1]]; auto_dns := ["*.example.org"]; auto_days := 90; auto_ca := None |} |};
       min_version := Tls13 |};
     http := Some {| http_port := 80; redirect := true |};
     authentication := Some {| auth_secret := "secret"; auth_duration := from_secs 1800; auth_allow_impersonate := false |};
     cors := Some cors_default; compression := Some compression_default; webrtc := Some webrtc_default;
     server_files := files_default |}.

#[export] Instance sample_yaml : YamlCrate := {|
  YamlValue := unit;
  yaml_meta content := if decide (content = "{") then Err "unclosed" else Ok (None, None, Some tt, None, Some tt);
  yaml_service _ := Err ""; yaml_console _ := Err ""; yaml_server _ := Ok broken_server; yaml_logging _ := Err "";
  yaml_database _ := Err "unknown variant"
|}.

Example broken_problems : meta_parse "server:" =
  Err [trouble "server.bind" "localhost is not a valid IPv4 or IPv6 address.";
       trouble "server.authentication.secret" "must not be empty.";
       trouble "server.http.redirect" "needs `https`, the redirect target is the HTTPS listener.";
       trouble "database" "unknown variant"].
Proof. by vm_compute. Qed.

Lemma server_config_exact_witness :
  server_try_from (write_server served_server) = Ok served_server /\ server_allowed served_server.
Proof.
  assert (Hok : server_try_from (write_server served_server) = Ok served_server) by (by vm_compute).
  split; [done|]. exact (proj1 server_config_exact _ _ Hok).
Defined.

Lemma configuration_problems_witness :
  exists problems, problems <> [] /\ Forall (located meta_sections) problems /\ meta_parse "server:" = Err problems.
Proof.
  destruct (configuration_problems "server:") as (_ & _ & Hread).
  destruct (Hread None None (Some tt) None (Some tt)) as (Hlocated & Hrefused & _); [by vm_compute|by vm_compute|].
  eexists. split; [|split; [exact Hlocated|apply Hrefused; by vm_compute]]. by vm_compute.
Defined.

Lemma timedelta_roundtrip_witness : timedelta_parse "P1DT2H" = Some (Ok (from_secs 93600)).
Proof. change "P1DT2H" with (timedelta_display (from_secs 93600)). apply (timedelta_roundtrip 93600). lia. Defined.

Lemma bytesize_exact_witness : bytesize_parse "2GiB" = Ok 2147483648.
Proof.
  change "2GiB" with ("2" +:+ "GiB"). apply (bytesize_exact "2" "GiB" 2 (2 ^ 30)); try done.
  unfold size_units. cbn. set_solver.
Defined.
