(* ===== verification/Migrations.v ===== *)
(** * Migrations

    [ceres-database/src/migrations.rs]: the registry assembled from script
    files, and the runner that applies what is pending, over the
    [execute_script] of each backend ([backend.rs], [turso.rs]). The driver (how
    it separates a script, what a statement does, what a query reads) is a
    parameter; which of a script's statements share a transaction is the
    backends'.

    The parts after this one: the migration registry. *)
From S2P Require Import Prelude.
From stdpp Require Import pretty sorting.
From S2P Require Import Text Sql Discovery Schema Wire Json Disk Config.
Local Open Scope string_scope.
Local Open Scope list_scope.
Local Open Scope Z_scope.
Local Open Scope ceres_scope.

(** ** Migrations and their scripts *)

(** [Scripts]: one shared script, or one per dialect. *)
Record Scripts := { shared : option string; sqlite : option string; postgres : option string }.

Definition no_scripts : Scripts := {| shared := None; sqlite := None; postgres := None |}.

Record Migration := { migration_id : Z; migration_name : string; scripts : Scripts }.

(** The script of a dialect, [None] being the shared one's. *)
Definition slot (held : Scripts) (dialect : option SqlDialect) : option string :=
  match dialect with
  | None => shared held
  | Some SqliteText => sqlite held
  | Some Postgres => postgres held
  end.

Definition fill (held : Scripts) (dialect : option SqlDialect) (script : string) : Scripts :=
  match dialect with
  | None => {| shared := Some script; sqlite := sqlite held; postgres := postgres held |}
  | Some SqliteText => {| shared := shared held; sqlite := Some script; postgres := postgres held |}
  | Some Postgres => {| shared := shared held; sqlite := sqlite held; postgres := Some script |}
  end.

Definition hold (id : Z) (held : Scripts) (entry : option SqlDialect * string) : result Scripts string :=
  match slot held entry.1 with
  | Some _ => Err ("Migration " +:+ pretty id +:+ " has two scripts for one dialect.")
  | None => Ok (fill held entry.1 entry.2)
  end.

Definition mixed (held : Scripts) : bool :=
  bool_decide (is_Some (shared held)) &&
  (bool_decide (is_Some (sqlite held)) || bool_decide (is_Some (postgres held))).

(** [Migration::new]. *)
Definition migration_new (id : Z) (name : string) (entries : list (option SqlDialect * string)) : result Migration string :=
  let* held := res_fold (hold id) no_scripts entries in
  if mixed held then Err ("Migration " +:+ pretty id +:+ " mixes a shared script with dialect-specific scripts.")
  else Ok {| migration_id := id; migration_name := name; scripts := held |}.

(** [Migration::render]. *)
Definition render (self : Migration) (dialect : option SqlDialect) : option string :=
  match shared (scripts self) with
  | Some script => Some script
  | None => match dialect with Some dialect => slot (scripts self) (Some dialect) | None => None end
  end.

(** ** File names *)

Definition name_char (c : ascii) : bool := ascii_between "a" "z" c || is_ascii_digit c || Strings.Ascii.eqb c "-".

(** [parse_filename]; the digits are all the ID may hold, so [parse] reads no
    sign. *)
Definition parse_filename (filename : string) : option (Z * string * option SqlDialect) :=
  stem ← strip_suffix ".sql" filename;
  let '(stem, dialect) :=
    match strip_suffix ".sqlite" stem with
    | Some stem => (stem, Some SqliteText)
    | None =>
        match strip_suffix ".postgres" stem with
        | Some stem => (stem, Some Postgres)
        | None => (stem, None)
        end
    end in
  parts ← split_once "-" stem;
  let '(id, name) := parts in
  if bool_decide (id = "") || negb (str_forall is_ascii_digit id) then None
  else if negb (negb (bool_decide (name = "")) && str_forall name_char name) then None
  else id ← parse_unsigned i64_max id; Some (id, name, dialect).

Arguments parse_filename : simpl never.

(** [parse_dialect]. *)
Definition parse_dialect (value : string) : option SqlDialect :=
  if bool_decide (value = "sqlite") || bool_decide (value = "turso") then Some SqliteText
  else if bool_decide (value = "postgres") || bool_decide (value = "postgresql") then Some Postgres
  else None.

(** ** The registry *)

(** The files in order of their names. *)
Definition file_le (a b : string * string) : Prop := str_le a.1 b.1 = true.

#[export] Instance file_le_dec : RelDecision file_le.
Proof. intros a b. unfold file_le. apply _. Defined.

Definition files_sorted (files : list (string * string)) : list (string * string) := merge_sort file_le files.

(** What is gathered of the files: each ID's name and scripts. *)
Record Gathered := { id_names : gmap Z string; id_scripts : gmap Z (list (option SqlDialect * string)) }.

Definition nothing_gathered : Gathered := {| id_names := ∅; id_scripts := ∅ |}.

Section assemble.
Context `{RegexCrate}.

Definition gather (held : Gathered) (file : string * string) : result Gathered string :=
  match parse_filename file.1 with
  | None =>
      Err ("Migration filename " +:+ debug_text file.1 +:+ " does not match the naming convention '<id>-<name>.sql'" +:+
           " or '<id>-<name>.<sqlite|postgres>.sql'.")
  | Some (id, name, dialect) =>
      match id_names held !! id with
      | Some existing =>
          if bool_decide (existing = name) then
            Ok {| id_names := <[id := name]> (id_names held);
                  id_scripts := <[id := default [] (id_scripts held !! id) ++ [(dialect, file.2)]]> (id_scripts held) |}
          else Err ("Migration " +:+ pretty id +:+ " has conflicting names: " +:+ debug_text existing +:+ " and " +:+
                    debug_text name +:+ ".")
      | None =>
          Ok {| id_names := <[id := name]> (id_names held);
                id_scripts := <[id := default [] (id_scripts held !! id) ++ [(dialect, file.2)]]> (id_scripts held) |}
      end
  end.

(** [assemble]; an ID with scripts always has its name, the [expect]s hold. *)
Definition ids_sorted (held : Gathered) : list Z := merge_sort Z.le (fst <$> map_to_list (id_scripts held)).

Definition build (held : Gathered) (id : Z) : result Migration string :=
  migration_new id (default "" (id_names held !! id)) (default [] (id_scripts held !! id)).

Definition assemble (files : list (string * string)) : result (list Migration) string :=
  let* held := res_fold gather nothing_gathered (files_sorted files) in
  res_map (build held) (ids_sorted held).
End assemble.

(** ** Scripts of the schema *)

Definition newline : string := String (Strings.Ascii.ascii_of_nat 10) "".

(** [table_ddl]. *)
Definition table_ddl (dialect : SqlDialect) : string :=
  match dialect with
  | SqliteText =>
      "CREATE TABLE IF NOT EXISTS migrations (" +:+ newline +:+ "    id INTEGER PRIMARY KEY," +:+ newline +:+
      "    applied_at TIMESTAMP DEFAULT CURRENT_TIMESTAMP NOT NULL" +:+ newline +:+ ")"
  | Postgres =>
      "CREATE TABLE IF NOT EXISTS migrations (" +:+ newline +:+ "    id INTEGER PRIMARY KEY," +:+ newline +:+
      "    applied_at TIMESTAMP WITH TIME ZONE DEFAULT now() NOT NULL" +:+ newline +:+ ")"
  end.

(** [ddl]. *)
Definition ddl (migrations : list Migration) (dialect : SqlDialect) : list string :=
  table_ddl dialect :: omap (fun migration => render migration (Some dialect)) migrations.

(** [owned_table_names]. *)
Definition owned_table_names : list string :=
  (record_table_name <$> RECORD_TABLES) ++ (entity_table_name <$> ENTITY_TABLES) ++ ["migrations"].

(** [trim_end_matches(';')]. *)
Fixpoint trim_semicolons (text : string) : string :=
  match text with
  | EmptyString => EmptyString
  | String c text =>
      if str_forall (fun c => Strings.Ascii.eqb c ";") (String c text) then EmptyString
      else String c (trim_semicolons text)
  end.

(** The statement that records a migration, and the script that goes over. *)
Definition record (id : Z) : string := "INSERT INTO migrations (id) VALUES (" +:+ pretty id +:+ ")".

Definition migration_script (migration : Migration) (dialect : SqlDialect) : string :=
  let record := record (migration_id migration) +:+ ";" in
  match render migration (Some dialect) with
  | Some sql => trim_semicolons (trim_end sql) +:+ ";" +:+ newline +:+ record
  | None => record
  end.

(** ** Stores

    [Cell] and [Row] of [dynamic.rs]. *)
Inductive Cell :=
  | CellNull | CellBool (value : bool) | CellInteger (value : Z) | CellFloat (value : f64) | CellText (text : string)
  | CellBytes (bytes : list Z) | CellTimestamp (micros : Z) | CellUuid (id : string) | CellJson (value : Jvalue).

Definition Row : Type := list (string * Cell).

Inductive StoreError := DriverFailed (message : string) | DecodedWrong (message : string).

(** What stopped a run. *)
Inductive MigrateError :=
  | MigrationFailed (id : Z) (name : string) (source : StoreError)
  | BookkeepingFailed (source : StoreError)
  | ReporterRefused (message : string).

(** A driver over databases [Db]: a script's statements as it separates them,
    each trimmed of the blanks around it and of its semicolon; what a statement
    makes of a database, inside a transaction or not; what a query reads. *)
Class Driver (Db : Type) := {
  separate : string -> list string;
  run : bool -> string -> Db -> result Db string;
  select : string -> Db -> result (list Row) string;
  debug_cell : Cell -> string
}.

Inductive Backend := SqliteBackend | PostgresBackend | TursoBackend.

Definition backend_dialect (self : Backend) : SqlDialect :=
  match self with PostgresBackend => Postgres | SqliteBackend | TursoBackend => SqliteText end.

(** What goes wrong between the store and its database: a call fails, or it is
    carried out and its answer lost. *)
Inductive Fault := CallFails (message : string) | AnswerLost (message : string).

Definition fault_text (fault : Fault) : string := match fault with CallFails text | AnswerLost text => text end.

(** A store: its database, every database that was committed on the way,
    latest first, and the faults to come, one turn for each call. *)
Record Store (Db : Type) := { backend : Backend; held : Db; landed : list Db; faults : list (option Fault) }.
Arguments backend {Db} s.
Arguments held {Db} s.
Arguments landed {Db} s.
Arguments faults {Db} s.

Section store.
Context {Db : Type} `{Driver Db}.

Definition next_fault (store : Store Db) : option Fault * Store Db :=
  (default None (head (faults store)),
   {| backend := backend store; held := held store; landed := landed store; faults := tail (faults store) |}).

Definition with_held (store : Store Db) (db : Db) : Store Db :=
  {| backend := backend store; held := db; landed := db :: landed store; faults := faults store |}.

(** A transaction, or a statement outside of one, taking effect. *)
Definition commit (db : Db) (store : Store Db) : result unit StoreError * Store Db :=
  let '(fault, store) := next_fault store in
  match fault with
  | None => (Ok tt, with_held store db)
  | Some (CallFails text) => (Err (DriverFailed text), store)
  | Some (AnswerLost text) => (Err (DriverFailed text), with_held store db)
  end.

(** A call that changes nothing yet. *)
Definition contact {A} (answer : result A StoreError) (store : Store Db) : result A StoreError * Store Db :=
  let '(fault, store) := next_fault store in
  match fault with
  | None => (answer, store)
  | Some fault => (Err (DriverFailed (fault_text fault)), store)
  end.

Definition statement_ran (inside : bool) (statement : string) (db : Db) : result Db StoreError :=
  match run inside statement db with Ok db => Ok db | Err text => Err (DriverFailed text) end.

(** Statements on their own, each taking effect as it ends, up to the first that
    fails. *)
Fixpoint one_by_one (statements : list string) (store : Store Db) : result unit StoreError * Store Db :=
  match statements with
  | [] => (Ok tt, store)
  | statement :: statements =>
      match statement_ran false statement (held store) with
      | Err error => (Err error, store)
      | Ok db =>
          let '(landing, store) := commit db store in
          match landing with Err error => (Err error, store) | Ok _ => one_by_one statements store end
      end
  end.

(** Statements inside a transaction, which has not taken effect. *)
Fixpoint inside (statements : list string) (db : Db) (store : Store Db) : result Db StoreError * Store Db :=
  match statements with
  | [] => (Ok db, store)
  | statement :: statements =>
      let '(ran, store) := contact (statement_ran true statement db) store in
      match ran with Err error => (Err error, store) | Ok db => inside statements db store end
  end.

Definition together (statements : list string) (store : Store Db) : result unit StoreError * Store Db :=
  let '(ran, store) := inside statements (held store) store in
  match ran with Err error => (Err error, store) | Ok db => commit db store end.

(** [TursoBackend::using]: a connection of its own, closed after, whose failing
    close only matters to work that succeeded. *)
Definition using_one {A} (work : Store Db -> result A StoreError * Store Db) (store : Store Db)
    : result A StoreError * Store Db :=
  let '(connection, store) := contact (Ok tt) store in
  match connection with
  | Err error => (Err error, store)
  | Ok _ =>
      let '(outcome, store) := work store in
      let '(closed, store) := contact (Ok tt) store in
      match outcome with
      | Ok answer => match closed with Ok _ => (Ok answer, store) | Err error => (Err error, store) end
      | Err error => (Err error, store)
      end
  end.

(** The statements of a script as Turso's backend separates them. *)
Definition turso_statements (sql : string) : list string :=
  List.filter (fun statement => negb (is_blank statement)) (str_split ";" sql).

(** [TursoBackend::execute_script] with [begin] and [settle]. *)
Definition turso_script (sql : string) : Store Db -> result unit StoreError * Store Db :=
  using_one (fun store =>
    let '(begun, store) := contact (Ok tt) store in
    match begun with
    | Err error => (Err error, store)
    | Ok _ => together (turso_statements sql) store
    end).

(** [execute_script]: SQLite takes the statements of a script one by one, while
    PostgreSQL holds those of one message in a transaction. *)
Definition execute_script (sql : string) (store : Store Db) : result unit StoreError * Store Db :=
  match backend store with
  | SqliteBackend => one_by_one (separate sql) store
  | PostgresBackend => together (separate sql) store
  | TursoBackend => turso_script sql store
  end.

(** [fetch_dynamic] of a query without parameters. *)
Definition fetch (sql : string) (store : Store Db) : result (list Row) StoreError * Store Db :=
  let rows store := contact (match select sql (held store) with Ok rows => Ok rows | Err text => Err (DriverFailed text) end) store in
  match backend store with TursoBackend => using_one rows store | _ => rows store end.

(** ** The runner *)

Definition cell_id (cell : Cell) : result Z StoreError :=
  match cell with
  | CellInteger id => Ok id
  | other => Err (DecodedWrong ("a migration id decoded as " +:+ debug_cell other +:+ " rather than an integer"))
  end.

Definition column (name : string) (rows : list Row) : list Cell :=
  snd <$> List.filter (fun cell : string * Cell => bool_decide (cell.1 = name)) (concat rows).

(** [applied_ids]. *)
Definition applied_ids (store : Store Db) : result (list Z) StoreError * Store Db :=
  let '(made, store) := execute_script (table_ddl (backend_dialect (backend store))) store in
  match made with
  | Err error => (Err error, store)
  | Ok _ =>
      let '(rows, store) := fetch "SELECT id FROM migrations ORDER BY id" store in
      match rows with
      | Err error => (Err error, store)
      | Ok rows => (res_map cell_id (column "id" rows), store)
      end
  end.

(** [initialized]. *)
Definition tables_query (dialect : SqlDialect) : string :=
  match dialect with
  | Postgres =>
      "SELECT tablename AS name FROM pg_catalog.pg_tables WHERE schemaname = ANY(current_schemas(false))"
  | SqliteText => "SELECT name FROM sqlite_master WHERE type = 'table' AND name NOT LIKE 'sqlite_%'"
  end.

Definition initialized (store : Store Db) : result bool StoreError * Store Db :=
  let '(rows, store) := fetch (tables_query (backend_dialect (backend store))) store in
  match rows with
  | Err error => (Err error, store)
  | Ok rows =>
      let present := omap (fun cell => match cell with CellText name => Some name | _ => None end) (column "name" rows) in
      (Ok (existsb (fun name => bool_decide (name ∈ present)) owned_table_names), store)
  end.

(** What a reporter is told; it answers what stops the run, if anything, of all
    it was told, the latest first. *)
Inductive Event := Starting (migration : Migration) (index total : nat) | Finished (migration : Migration).

Definition Reporter : Type := list Event -> option string.

Definition silent : Reporter := fun _ => None.

Definition tell (reporter : Reporter) (event : Event) (told : list Event) : result unit MigrateError * list Event :=
  (match reporter (event :: told) with Some text => Err (ReporterRefused text) | None => Ok tt end, event :: told).

(** The loop of [migrate]. *)
Fixpoint apply_each (reporter : Reporter) (pending : list Migration) (index total : nat) (applied : list Z)
    (store : Store Db) (told : list Event) : result (list Z) MigrateError * Store Db * list Event :=
  match pending with
  | [] => (Ok applied, store, told)
  | migration :: pending =>
      let '(go, told) := tell reporter (Starting migration index total) told in
      match go with
      | Err error => (Err error, store, told)
      | Ok _ =>
          let '(ran, store) := execute_script (migration_script migration (backend_dialect (backend store))) store in
          match ran with
          | Err source => (Err (MigrationFailed (migration_id migration) (migration_name migration) source), store, told)
          | Ok _ =>
              let '(go, told) := tell reporter (Finished migration) told in
              match go with
              | Err error => (Err error, store, told)
              | Ok _ => apply_each reporter pending (S index) total (applied ++ [migration_id migration]) store told
              end
          end
      end
  end.

Definition still_pending (recorded : list Z) (migrations : list Migration) : list Migration :=
  List.filter (fun migration => negb (bool_decide (migration_id migration ∈ recorded))) migrations.

(** [migrate]. *)
Definition migrate (migrations : list Migration) (reporter : Reporter) (store : Store Db)
    : result (list Z) MigrateError * Store Db * list Event :=
  let '(recorded, store) := applied_ids store in
  match recorded with
  | Err error => (Err (BookkeepingFailed error), store, [])
  | Ok recorded =>
      let pending := still_pending recorded migrations in
      apply_each reporter pending 0 (length pending) [] store []
  end.
End store.

(** * The migration registry

    What [assemble] accepts and what it makes of it: migrations in strictly
    ascending order of their IDs, each holding exactly the scripts its files
    hold, out of files whose names follow the convention, agree on each ID's
    name and give no dialect two scripts. *)

(** ** Mapping and folding results *)

Lemma res_map_Forall2 {A B E} (f : A -> result B E) (l : list A) (bs : list B) :
  res_map f l = Ok bs <-> Forall2 (fun a b => f a = Ok b) l bs.
Proof.
  revert bs. induction l as [|a l IH]; intros bs; cbn.
  - split; [by intros [= <-]|]. by intros ->%Forall2_nil_inv_l.
  - destruct (f a) as [b|e] eqn:Hfa.
    + destruct (res_map f l) as [bs'|e]; split.
      * intros [= <-]. constructor; [done|]. by apply IH.
      * intros (b' & bs'' & Hb & Hbs & ->)%Forall2_cons_inv_l. apply IH in Hbs. congruence.
      * done.
      * intros (b' & bs'' & Hb & Hbs & ->)%Forall2_cons_inv_l. by apply IH in Hbs.
    + split; [done|]. intros (b' & bs'' & Hb & Hbs & ->)%Forall2_cons_inv_l. congruence.
Qed.

Lemma res_map_Err {A B E} (f : A -> result B E) (l : list A) (e : E) :
  res_map f l = Err e -> exists a, a ∈ l /\ f a = Err e.
Proof.
  induction l as [|a l IH]; cbn; [done|]. destruct (f a) as [b|e'] eqn:Hfa.
  - destruct (res_map f l) eqn:Hl; [done|]. intros [= ->]. destruct IH as (a' & Ha' & He); [done|].
    exists a'. split; [by right|done].
  - intros [= ->]. exists a. split; [by left|done].
Qed.

Lemma Forall2_with_elem {A B} (P : A -> B -> Prop) (l : list A) (k : list B) :
  Forall2 P l k -> Forall2 (fun a b => a ∈ l /\ b ∈ k /\ P a b) l k.
Proof.
  induction 1 as [|a b l k Hab _ IH]; constructor; [set_solver|].
  eapply Forall2_impl; [exact IH|]. intros a' b' (? & ? & ?). set_solver.
Qed.

Lemma Forall2_elem_r {A B} (P : A -> B -> Prop) (l : list A) (k : list B) b :
  Forall2 P l k -> b ∈ k -> exists a, a ∈ l /\ P a b.
Proof.
  intros Hl. induction Hl as [|a b' l k Hab _ IH]; [by intros ?%elem_of_nil|].
  intros [->|Hb]%elem_of_cons; [exists a; split; [by left|done]|].
  destruct (IH Hb) as (a' & Ha' & HP). exists a'. split; [by right|done].
Qed.

(** A fold whose steps carry an invariant of what was read. *)
Lemma res_fold_invariant {A S E} (f : S -> A -> result S E) (inv : list A -> S -> Prop) (bad : list A -> Prop)
    (s : S) (l : list A) :
  inv [] s ->
  (forall before a s', inv before s' ->
     match f s' a with Ok s'' => inv (before ++ [a]) s'' | Err _ => bad (before ++ [a]) end) ->
  match res_fold f s l with
  | Ok s' => inv l s'
  | Err _ => exists before after, l = before ++ after /\ bad before
  end.
Proof.
  intros Hs Hstep.
  assert (Hgo : forall l before s, inv before s ->
    match res_fold f s l with
    | Ok s' => inv (before ++ l) s'
    | Err _ => exists before' after, before ++ l = before' ++ after /\ bad before'
    end).
  { clear s l Hs. induction l as [|a l IH]; intros before s Hs; cbn.
    - by rewrite app_nil_r.
    - specialize (Hstep before a s Hs). destruct (f s a) as [s'|e].
      + specialize (IH _ _ Hstep). destruct (res_fold f s' l) as [s''|e].
        * by rewrite <- app_assoc in IH.
        * destruct IH as (b & c & Heq & Hbad). exists b, c. by rewrite <- app_assoc in Heq.
      + exists (before ++ [a]), l. by rewrite <- app_assoc. }
  exact (Hgo l [] s Hs).
Qed.

(** ** One migration *)

Lemma slot_fill (held : Scripts) (dialect other : option SqlDialect) (script : string) :
  slot (fill held dialect script) other = if decide (other = dialect) then Some script else slot held other.
Proof. destruct dialect as [[]|], other as [[]|]; done. Qed.

(** The scripts of a list of entries, none of them for a dialect twice. *)
Definition holds (entries : list (option SqlDialect * string)) (held : Scripts) : Prop :=
  NoDup (fst <$> entries) /\ forall dialect script, slot held dialect = Some script <-> (dialect, script) ∈ entries.

Lemma holds_nothing : holds [] no_scripts.
Proof. split; [constructor|]. by intros [[]|] script; cbn; rewrite elem_of_nil. Qed.

Lemma holds_step id entries held entry :
  holds entries held ->
  match hold id held entry with
  | Ok held' => holds (entries ++ [entry]) held'
  | Err _ => ~ NoDup (fst <$> entries ++ [entry])
  end.
Proof.
  destruct entry as [dialect script]. intros [Hnd Hslot]. unfold hold. cbn [fst snd].
  destruct (slot held dialect) as [script'|] eqn:Hs.
  - apply Hslot in Hs. rewrite fmap_app. cbn. intros (_ & Hdisj & _)%NoDup_app.
    apply (Hdisj dialect); [|set_solver]. by apply (list_elem_of_fmap_2 fst) in Hs.
  - split.
    + rewrite fmap_app. apply NoDup_app. split; [done|]. split; [|apply NoDup_singleton].
      intros other ([d s] & -> & Hin)%list_elem_of_fmap [= Heq]%list_elem_of_singleton. cbn in Heq. subst.
      apply Hslot in Hin. congruence.
    + intros other script'. rewrite slot_fill, elem_of_app, list_elem_of_singleton, <- Hslot.
      destruct (decide (other = dialect)) as [->|Hne]; [|naive_solver].
      rewrite Hs. naive_solver.
Qed.

(** A migration's entries: one script each, and no shared one beside the
    dialects' own. *)
Definition unmixed (entries : list (option SqlDialect * string)) : Prop :=
  forall shared dialect script, (None, shared) ∈ entries -> (Some dialect, script) ∈ entries -> False.

Lemma mixed_spec entries held : holds entries held -> mixed held = true <-> ~ unmixed entries.
Proof.
  intros [_ Hslot]. unfold mixed, unmixed. rewrite andb_true_iff, orb_true_iff, !bool_decide_eq_true.
  split.
  - intros [[s Hs] Hd] Hun. apply (Hslot None) in Hs.
    destruct Hd as [[s' Hs']|[s' Hs']]; [apply (Hslot (Some SqliteText)) in Hs'|apply (Hslot (Some Postgres)) in Hs'];
      by eapply Hun.
  - intros Hmixed. destruct (shared held) as [s|] eqn:Hs.
    + split; [done|]. destruct (sqlite held) as [s'|] eqn:Hl; [by left|]. destruct (postgres held) eqn:Hp; [by right|].
      exfalso. apply Hmixed. intros sh [] script _ Hin.
      * apply (Hslot (Some SqliteText)) in Hin. cbn in Hin. congruence.
      * apply (Hslot (Some Postgres)) in Hin. cbn in Hin. congruence.
    + exfalso. apply Hmixed. intros sh d script Hin _. apply (Hslot None) in Hin. cbn in Hin. congruence.
Qed.

Lemma migration_new_spec id name entries :
  match migration_new id name entries with
  | Ok m =>
      migration_id m = id /\ migration_name m = name /\ holds entries (scripts m) /\ unmixed entries
  | Err _ => ~ (NoDup (fst <$> entries) /\ unmixed entries)
  end.
Proof.
  unfold migration_new.
  pose proof (res_fold_invariant (hold id) holds (fun entries => ~ NoDup (fst <$> entries)) no_scripts entries) as Hfold.
  destruct (res_fold (hold id) no_scripts entries) as [held|e]; cbn.
  - assert (Hheld : holds entries held) by (apply Hfold; [apply holds_nothing|intros; by apply holds_step]).
    pose proof (mixed_spec _ _ Hheld) as Hspec. destruct (mixed held).
    + intros [_ Hun]. by apply Hspec.
    + split_and!; [done|done|done|]. intros sh d script Hn Hd.
      assert (Ht : false = true); [|done]. apply Hspec. intros Hun. by eapply Hun.
  - destruct Hfold as (before & after & -> & Hbad).
    + apply holds_nothing.
    + intros. by apply holds_step.
    + intros [Hnd _]. rewrite fmap_app in Hnd. apply NoDup_app in Hnd as (? & _). done.
Qed.

(** ** The registry *)

Section registry.
Context `{RegexCrate}.
Implicit Types files : list (string * string).

Definition entry_of (id : Z) (file : string * string) : option (option SqlDialect * string) :=
  match parse_filename file.1 with
  | Some (other, _, dialect) => if decide (other = id) then Some (dialect, file.2) else None
  | None => None
  end.

Definition entries (id : Z) files : list (option SqlDialect * string) := omap (entry_of id) files.

(** What the registry asks of its files. *)
Definition names_parse files : Prop := forall file, file ∈ files -> is_Some (parse_filename file.1).
Definition names_agree files : Prop :=
  forall one other id name name' dialect dialect', one ∈ files -> other ∈ files ->
    parse_filename one.1 = Some (id, name, dialect) -> parse_filename other.1 = Some (id, name', dialect') -> name = name'.

Record conventional files : Prop := {
  conventional_names : names_parse files;
  conventional_agree : names_agree files;
  conventional_once : forall id, NoDup (fst <$> entries id files);
  conventional_unmixed : forall id, unmixed (entries id files)
}.

Lemma elem_of_entries id files dialect script :
  (dialect, script) ∈ entries id files <->
  exists filename name, (filename, script) ∈ files /\ parse_filename filename = Some (id, name, dialect).
Proof.
  unfold entries. rewrite list_elem_of_omap. unfold entry_of. split.
  - intros ([filename content] & Hin & Hentry). cbn in Hentry.
    destruct (parse_filename filename) as [[[other name] d]|] eqn:Hparse; [|done]. case_decide; [|done].
    injection Hentry as <- <-. subst. by exists filename, name.
  - intros (filename & name & Hin & Hparse). exists (filename, script). split; [done|]. cbn. rewrite Hparse.
    by rewrite decide_True.
Qed.

Record gathered files (held : Gathered) : Prop := {
  gathered_named : forall file, file ∈ files ->
    exists id name dialect, parse_filename file.1 = Some (id, name, dialect) /\ id_names held !! id = Some name;
  gathered_scripts : forall id,
    id_scripts held !! id = match entries id files with [] => None | entries => Some entries end;
  gathered_names : forall id name, id_names held !! id = Some name ->
    exists file dialect, file ∈ files /\ parse_filename file.1 = Some (id, name, dialect)
}.

Lemma gathered_nothing : gathered [] nothing_gathered.
Proof. split; [by intros file ?%elem_of_nil|done|done]. Qed.

Lemma entries_app id files file :
  entries id (files ++ [file]) = entries id files ++ match entry_of id file with Some entry => [entry] | None => [] end.
Proof. unfold entries. rewrite omap_app. cbn. by destruct (entry_of id file). Qed.

Lemma gathered_step files held file :
  gathered files held ->
  match gather held file with
  | Ok held' => gathered (files ++ [file]) held'
  | Err _ => ~ (names_parse (files ++ [file]) /\ names_agree (files ++ [file]))
  end.
Proof.
  intros Hheld. unfold gather. destruct (parse_filename file.1) as [[[id name] dialect]|] eqn:Hparse.
  2:{ intros [Hp _]. destruct (Hp file) as [? Heq]; [set_solver|congruence]. }
  assert (Hok : (forall name', id_names held !! id = Some name' -> name' = name) ->
    gathered (files ++ [file])
      {| id_names := <[id := name]> (id_names held);
         id_scripts := <[id := default [] (id_scripts held !! id) ++ [(dialect, file.2)]]> (id_scripts held) |}).
  { intros Hsame. split; cbn.
    - intros other [Hin| ->%list_elem_of_singleton]%elem_of_app; [|exists id, name, dialect; by rewrite lookup_insert_eq].
      destruct (gathered_named _ _ Hheld other Hin) as (id' & name' & d & Ho & Hn). exists id', name', d. split; [done|].
      destruct (decide (id' = id)) as [->|]; [|by rewrite lookup_insert_ne]. rewrite lookup_insert_eq. f_equal.
      symmetry. by apply Hsame.
    - intros id'. rewrite entries_app. unfold entry_of. rewrite Hparse.
      destruct (decide (id = id')) as [->|].
      + rewrite lookup_insert_eq, (gathered_scripts _ _ Hheld). by destruct (entries id' files).
      + rewrite lookup_insert_ne, app_nil_r by done. apply (gathered_scripts _ _ Hheld).
    - intros id' name'. destruct (decide (id' = id)) as [->|].
      + rewrite lookup_insert_eq. intros [= <-]. exists file, dialect. split; [set_solver|done].
      + rewrite lookup_insert_ne by done. intros (f & d & Hin & Hf)%(gathered_names _ _ Hheld).
        exists f, d. split; [set_solver|done]. }
  destruct (id_names held !! id) as [existing|] eqn:Hexisting; [|by apply Hok].
  case_bool_decide as Heq; [apply Hok; naive_solver|].
  intros [_ Hagree]. apply Heq. destruct (gathered_names _ _ Hheld _ _ Hexisting) as (f & d & Hin & Hf).
  eapply (Hagree f file); [set_solver|set_solver|done|done].
Qed.

Lemma gathered_all files :
  match res_fold gather nothing_gathered files with
  | Ok held => gathered files held
  | Err _ => ~ (names_parse files /\ names_agree files)
  end.
Proof.
  pose proof (res_fold_invariant gather gathered (fun files => ~ (names_parse files /\ names_agree files))
    nothing_gathered files gathered_nothing) as Hfold.
  specialize (Hfold ltac:(intros; by apply gathered_step)).
  destruct (res_fold gather nothing_gathered files) as [held|e]; [done|].
  destruct Hfold as (before & after & -> & Hbad). intros [Hp Ha]. apply Hbad. split.
  - intros file Hin. apply Hp. set_solver.
  - intros one other id name name' d d' H1 H2. apply Ha; set_solver.
Qed.

Lemma gathered_id files held id :
  gathered files held -> is_Some (id_scripts held !! id) ->
  exists name, id_names held !! id = Some name /\ default [] (id_scripts held !! id) = entries id files /\
  entries id files <> [].
Proof.
  intros Hheld [es Hes]. rewrite (gathered_scripts _ _ Hheld) in Hes |- *.
  destruct (entries id files) as [|[d s] rest] eqn:Hentries; [done|]. injection Hes as <-.
  assert (Hin : (d, s) ∈ entries id files) by (rewrite Hentries; by left).
  apply elem_of_entries in Hin as (filename & name & Hin & Hparse).
  destruct (gathered_named _ _ Hheld _ Hin) as (id' & name' & d' & Hp & Hn). cbn in Hp.
  rewrite Hparse in Hp. injection Hp as <- <- <-. by exists name.
Qed.

Lemma conventional_permutation files files' : files ≡ₚ files' -> conventional files -> conventional files'.
Proof.
  intros Hp [H1 H2 H3 H4]. assert (Hin : forall f, f ∈ files <-> f ∈ files') by (intros f; by rewrite Hp).
  assert (He : forall id, entries id files ≡ₚ entries id files') by (intros id; unfold entries; by rewrite Hp).
  split.
  - intros file Hfile%Hin. by apply H1.
  - intros one other id name name' d d' Ho%Hin Ho'%Hin. by apply H2.
  - intros id. by rewrite <- He.
  - intros id sh d script. rewrite <- !(He id). apply H4.
Qed.

Lemma elem_of_ids held id : id ∈ ids_sorted held <-> is_Some (id_scripts held !! id).
Proof.
  unfold ids_sorted. rewrite (merge_sort_Permutation Z.le), list_elem_of_fmap. split.
  - intros ([id' es] & -> & Hin). apply elem_of_map_to_list in Hin. by exists es.
  - intros [es Hes]. exists (id, es). split; [done|]. by apply elem_of_map_to_list.
Qed.

Lemma ids_ascend held : StronglySorted Z.lt (ids_sorted held).
Proof.
  assert (Hnd : NoDup (ids_sorted held)).
  { unfold ids_sorted. rewrite (merge_sort_Permutation Z.le). apply NoDup_fst_map_to_list. }
  assert (Hs : StronglySorted Z.le (ids_sorted held)) by (apply StronglySorted_merge_sort; apply _).
  induction Hs as [|id ids _ IH Hle]; [constructor|]. apply NoDup_cons in Hnd as [Hid Hnd].
  constructor; [by apply IH|]. rewrite Forall_forall in Hle |- *. intros id' Hin. specialize (Hle _ Hin).
  assert (id <> id') by (by intros ->). lia.
Qed.

(** A migration holds its files' scripts and no others. *)
Definition registered files (migration : Migration) : Prop :=
  forall dialect script, slot (scripts migration) dialect = Some script <->
  exists filename, (filename, script) ∈ files /\
    parse_filename filename = Some (migration_id migration, migration_name migration, dialect).

(** What [build] makes of an ID's files. *)
Definition build_of files (id : Z) (migration : Migration) : Prop :=
  (forall filename script name dialect, (filename, script) ∈ files -> parse_filename filename = Some (id, name, dialect) ->
     name = migration_name migration) /\
  holds (entries id files) (scripts migration) /\ unmixed (entries id files).

Lemma build_spec files held id m :
  gathered files held -> id ∈ ids_sorted held -> build held id = Ok m -> migration_id m = id /\ build_of files id m.
Proof.
  intros Hheld Hid%elem_of_ids Hbuild. destruct (gathered_id _ _ _ Hheld Hid) as (name & Hname & Hentries & Hne).
  unfold build in Hbuild. rewrite Hname, Hentries in Hbuild. pose proof (migration_new_spec id name (entries id files)) as Hnew.
  cbn in Hbuild. rewrite Hbuild in Hnew. destruct Hnew as (Hi & Hn & Hholds & Hun). split; [done|]. split; [|done].
  intros filename script name' dialect Hin Hparse. destruct (gathered_named _ _ Hheld _ Hin) as (id' & n & d & Hp & Hl).
  cbn in Hp. rewrite Hparse in Hp. injection Hp as <- <- <-. congruence.
Qed.

Lemma build_refused files held id e :
  gathered files held -> conventional files -> is_Some (id_scripts held !! id) -> build held id = Err e -> False.
Proof.
  intros Hheld Hconv Hid Hbuild. destruct (gathered_id _ _ _ Hheld Hid) as (name & Hname & Hentries & Hne).
  unfold build in Hbuild. rewrite Hname, Hentries in Hbuild. pose proof (migration_new_spec id name (entries id files)) as Hnew.
  cbn in Hbuild. rewrite Hbuild in Hnew. apply Hnew. split; apply Hconv.
Qed.

Lemma all_built files held :
  gathered files held -> (forall id, is_Some (id_scripts held !! id) -> exists m, build_of files id m) -> conventional files.
Proof.
  intros Hheld Hall.
  assert (Hnil : forall id, id_scripts held !! id = None -> entries id files = []).
  { intros id. rewrite (gathered_scripts _ _ Hheld). by destruct (entries id files). }
  split.
  - intros file (id & name & d & Hparse & _)%(gathered_named _ _ Hheld). by exists (id, name, d).
  - intros one other id name name' d d' Ho Ho' Hp Hp'.
    destruct (gathered_named _ _ Hheld _ Ho) as (i & n & e & H1 & H2).
    destruct (gathered_named _ _ Hheld _ Ho') as (i' & n' & e' & H1' & H2'). congruence.
  - intros id. destruct (id_scripts held !! id) as [es|] eqn:Hid.
    + destruct (Hall id) as (m & _ & [Hnd _] & _); [by exists es|done].
    + rewrite Hnil by done. constructor.
  - intros id. destruct (id_scripts held !! id) as [es|] eqn:Hid.
    + destruct (Hall id) as (m & _ & _ & Hun); [by exists es|done].
    + rewrite Hnil by done. by intros sh d s ?%elem_of_nil.
Qed.

Lemma build_registered files sorted m :
  sorted ≡ₚ files -> build_of sorted (migration_id m) m -> registered files m.
Proof.
  intros Hp (Hname & [_ Hholds] & _) dialect script. rewrite Hholds, elem_of_entries.
  split; intros (filename & Hrest).
  - destruct Hrest as (name & Hin & Hparse). exists filename. rewrite <- (Hname _ _ _ _ Hin Hparse). by rewrite <- Hp.
  - destruct Hrest as [Hin Hparse]. exists filename, (migration_name m). by rewrite Hp.
Qed.

(** The registry is refused exactly when the files break the convention;
    otherwise every file's script is held by a migration of its ID and name, no
    migration holds anything else, and the migrations strictly ascend. *)
Theorem assemble_exact files :
  match assemble files with
  | Err _ => ~ conventional files
  | Ok migrations =>
      conventional files /\ StronglySorted Z.lt (migration_id <$> migrations) /\
      Forall (registered files) migrations /\
      forall filename script, (filename, script) ∈ files ->
      exists migration dialect, migration ∈ migrations /\
        parse_filename filename = Some (migration_id migration, migration_name migration, dialect) /\
        slot (scripts migration) dialect = Some script
  end.
Proof.
  unfold assemble. set (sorted := files_sorted files).
  assert (Hp : sorted ≡ₚ files) by apply merge_sort_Permutation.
  pose proof (gathered_all sorted) as Hheld.
  destruct (res_fold gather nothing_gathered sorted) as [held|e]; cbn.
  2:{ intros [Hn Ha _ _]%(conventional_permutation _ sorted); [by apply Hheld|done]. }
  destruct (res_map (build held) (ids_sorted held)) as [migrations|e] eqn:Hbuilt.
  - apply res_map_Forall2 in Hbuilt.
    assert (Hbuild : Forall2 (fun id m => migration_id m = id /\ build_of sorted id m) (ids_sorted held) migrations).
    { eapply Forall2_impl; [by apply Forall2_with_elem|]. intros id m (Hid & _ & Hm). by eapply build_spec. }
    assert (Hids : migration_id <$> migrations = ids_sorted held).
    { clear -Hbuild. induction Hbuild as [|id m ids ms [Hm _] _ IH]; cbn; [done|by rewrite Hm, IH]. }
    assert (Hall : forall m, m ∈ migrations -> build_of sorted (migration_id m) m).
    { intros m Hm. by destruct (Forall2_elem_r _ _ _ _ Hbuild Hm) as (id & Hid & <- & Hof). }
    split; [|split; [|split]].
    + apply (conventional_permutation sorted); [done|]. eapply all_built; [done|]. intros id Hid.
      apply elem_of_ids in Hid. rewrite <- Hids in Hid. apply list_elem_of_fmap in Hid as (m & -> & Hm). exists m. by apply Hall.
    + rewrite Hids. apply ids_ascend.
    + apply Forall_forall. intros m Hm%Hall. by apply build_registered with sorted.
    + intros filename script Hin. rewrite <- Hp in Hin.
      destruct (gathered_named _ _ Hheld _ Hin) as (id & name & dialect & Hparse & _). cbn in Hparse.
      assert (Hid : id ∈ ids_sorted held).
      { apply elem_of_ids. rewrite (gathered_scripts _ _ Hheld).
        assert (Hentry : (dialect, script) ∈ entries id sorted) by (apply elem_of_entries; by exists filename, name).
        by destruct (entries id sorted); [apply elem_of_nil in Hentry|]. }
      rewrite <- Hids in Hid. apply list_elem_of_fmap in Hid as (m & -> & Hm).
      exists m, dialect. split; [done|]. apply Hall in Hm as Hof. destruct Hof as (Hname & Hholds & _).
      rewrite <- (Hname _ _ _ _ Hin Hparse). split; [done|]. apply Hholds, elem_of_entries. by exists filename, name.
  - apply res_map_Err in Hbuilt as (id & Hid & Herr). intros Hconv%(conventional_permutation _ sorted); [|done].
    eapply build_refused; [done|done|by apply elem_of_ids|]. done.
Qed.
End registry.
