(* ===== verification/MigrationRuns.v ===== *)
(** * Runs of the migrations

    Where a backend takes a script as one transaction, whatever stops a run
    (a failing script, a fault of the driver, a reporter) leaves the database
    some of the pending migrations on, in order and recorded; a later run takes
    it where an undisturbed first run would have. SQLite takes the statements
    of a script one by one, and a failing one keeps those before it.

    The parts after this one: the migrations over a concrete driver. *)
From S2P Require Import Prelude.
From stdpp Require Import pretty sorting.
From S2P Require Import Text Sql Wire FilterFuel Config ConfigValues Migrations.
Local Open Scope string_scope.
Local Open Scope list_scope.
Local Open Scope Z_scope.
Local Open Scope ceres_scope.

(** What the runner relies on of a driver: its statements of the bookkeeping
    table do what they say, and a script that leaves nothing open is separated
    from the statement after it. *)
Class Bookkeeping (Db : Type) `{Driver Db} := {
  recorded : Db -> option (gset Z);
  closed : string -> Prop;
  newline_ignored : forall inside statement db, run inside (newline +:+ statement) db = run inside statement db;
  separate_ddl : forall dialect, separate (table_ddl dialect) = [table_ddl dialect];
  separate_record : forall id, separate (record id +:+ ";") = [record id];
  separate_script : forall sql id, closed sql ->
    separate (trim_semicolons (trim_end sql) +:+ ";" +:+ newline +:+ record id +:+ ";") = separate sql ++ [record id];
  run_ddl : forall inside dialect db, exists db',
    run inside (table_ddl dialect) db = Ok db' /\ recorded db' = Some (default ∅ (recorded db)) /\
    (is_Some (recorded db) -> db' = db);
  run_record : forall inside id db ids, recorded db = Some ids -> id ∉ ids ->
    exists db', run inside (record id) db = Ok db' /\ recorded db' = Some ({[id]} ∪ ids);
  run_record_once : forall inside id db ids db', recorded db = Some ids ->
    run inside (record id) db = Ok db' -> recorded db' = Some ({[id]} ∪ ids);
  select_ids : forall db ids, recorded db = Some ids ->
    select "SELECT id FROM migrations ORDER BY id" db =
    Ok ((fun id => [("id", CellInteger id)]) <$> merge_sort Z.le (elements ids))
}.

(** ** Scripts in a transaction *)

Section atomic.
Context {Db : Type} `{Bookkeeping Db}.
Implicit Types (store : Store Db) (db : Db) (m : Migration).

Definition run_all (db : Db) (statements : list string) : result Db string :=
  res_fold (fun db statement => run true statement db) db statements.

Definition statements (self : Backend) (sql : string) : list string :=
  match self with TursoBackend => turso_statements sql | _ => separate sql end.

Definition undisturbed store : Prop := Forall (eq None) (faults store).

(** A call that changed nothing, or that landed the database it was to land. *)
Record lands {A} (whole : result Db string) (store store' : Store Db) (answer : result A StoreError) : Prop := {
  lands_backend : backend store' = backend store;
  lands_quiet : undisturbed store -> undisturbed store';
  lands_held : held store' = held store /\ landed store' = landed store /\ is_ok answer = false \/
               exists db, whole = Ok db /\ held store' = db /\ landed store' = db :: landed store;
  lands_answer : undisturbed store -> forall db, whole = Ok db -> is_ok answer = true
}.

(** A call that changes nothing. *)
Record touches {A} (store store' : Store Db) (full answer : result A StoreError) : Prop := {
  touches_backend : backend store' = backend store;
  touches_quiet : undisturbed store -> undisturbed store' /\ answer = full;
  touches_held : held store' = held store /\ landed store' = landed store;
  touches_answer : answer = full \/ is_ok answer = false
}.

Lemma next_fault_spec store :
  let '(fault, store') := next_fault store in
  backend store' = backend store /\ held store' = held store /\ landed store' = landed store /\
  (undisturbed store -> undisturbed store' /\ fault = None).
Proof.
  cbn. split_and!; [done..|]. unfold undisturbed. cbn. destruct (faults store) as [|f fs]; cbn; [done|].
  by intros [<- Hfs]%Forall_cons.
Qed.

Lemma contact_spec {A} (full : result A StoreError) store :
  let '(answer, store') := contact full store in touches store store' full answer.
Proof.
  unfold contact. pose proof (next_fault_spec store) as Hf. destruct (next_fault store) as [fault store'].
  destruct Hf as (Hb & Hh & Hl & Hq). destruct fault as [f|]; split; try done; try tauto.
  intros Hu. by destruct (Hq Hu).
Qed.

Lemma inside_spec (sts : list string) db store :
  let '(answer, store') := inside sts db store in
  touches store store' (match run_all db sts with Ok db => Ok db | Err e => Err (DriverFailed e) end) answer.
Proof.
  revert db store. induction sts as [|st sts IH]; intros db store; cbn [inside]; [by split; try tauto|].
  pose proof (contact_spec (statement_ran true st db) store) as Hc.
  destruct (contact _ store) as [ran store1]. destruct Hc as [Hb Hq Hh Ha].
  unfold run_all. cbn [res_fold]. unfold statement_ran in *.
  destruct ran as [db'|e].
  - specialize (IH db' store1). destruct (inside sts db' store1) as [answer store2].
    destruct IH as [Hb' Hq' Hh' Ha']. destruct (run true st db) as [db1|e]; [|by destruct Ha].
    destruct Ha as [[= ->]|]; [|done]. destruct Hh, Hh'.
    split; [congruence| |split; congruence|done]. intros Hu. apply Hq'. by apply Hq.
  - split; [done| |done|by right]. intros Hu. destruct (Hq Hu) as [? Heq]. split; [done|].
    by destruct (run true st db) as [db1|e1]; [|destruct Heq].
Qed.

Lemma commit_spec db store :
  let '(answer, store') := commit db store in lands (Ok db) store store' answer.
Proof.
  unfold commit. pose proof (next_fault_spec store) as Hf. destruct (next_fault store) as [fault store'].
  destruct Hf as (Hb & Hh & Hl & Hq). destruct fault as [[e|e]|].
  - split; [done|intros Hu; exact (proj1 (Hq Hu))|by left|intros Hu; by destruct (Hq Hu)].
  - split; [done|intros Hu; exact (proj1 (Hq Hu))|right; exists db; cbn; by rewrite Hl|intros Hu; by destruct (Hq Hu)].
  - split; [done|intros Hu; exact (proj1 (Hq Hu))|right; exists db; cbn; by rewrite Hl|done].
Qed.

Lemma together_spec (sts : list string) store :
  let '(answer, store') := together sts store in lands (run_all (held store) sts) store store' answer.
Proof.
  unfold together. pose proof (inside_spec sts (held store) store) as Hi.
  destruct (inside sts (held store) store) as [ran store1]. destruct Hi as [Hb Hq Hh Ha].
  destruct ran as [db|e].
  - pose proof (commit_spec db store1) as Hc. destruct (commit db store1) as [answer store2].
    destruct Hc as [Hb' Hq' Hh' Ha'].
    assert (Hrun : run_all (held store) sts = Ok db).
    { destruct Ha as [Ha|]; [|done]. by destruct (run_all (held store) sts); [injection Ha as ->|]. }
    rewrite Hrun. destruct Hh as [Hh Hl]. split; [congruence|intros Hu; by apply Hq', Hq| |].
    + rewrite <- Hh, <- Hl. exact Hh'.
    + intros Hu db' _. eapply Ha'; [by apply Hq|done].
  - split; [done|intros Hu; by apply Hq|by destruct Hh; left|].
    intros Hu db Hrun. destruct (Hq Hu) as [_ Heq]. by rewrite Hrun in Heq.
Qed.

(** Work on a connection of its own lands what it landed. *)
Lemma using_lands {A} (work : Store Db -> result A StoreError * Store Db) (whole : Db -> result Db string) store :
  (forall store, let '(answer, store') := work store in lands (whole (held store)) store store' answer) ->
  let '(answer, store') := using_one work store in lands (whole (held store)) store store' answer.
Proof.
  intros Hwork. unfold using_one. pose proof (contact_spec (Ok tt) store) as Hc.
  destruct (contact (Ok tt) store) as [[[]|e] store1]; destruct Hc as [Hb Hq [Hh Hl] Ha].
  2:{ split; [done|intros Hu; by apply Hq|by left|intros Hu; by destruct (Hq Hu)]. }
  specialize (Hwork store1). destruct (work store1) as [outcome store2]. destruct Hwork as [Hb' Hq' Hh' Ha'].
  pose proof (contact_spec (Ok tt) store2) as Hc2.
  destruct (contact (Ok tt) store2) as [closed store3]. destruct Hc2 as [Hb2 Hq2 [Hh2 Hl2] Ha2].
  rewrite Hh in *.
  assert (Hcommon : forall answer : result A StoreError, (is_ok outcome = false -> is_ok answer = false) ->
    (is_ok outcome = true -> undisturbed store -> is_ok answer = true) ->
    lands (whole (held store)) store store3 answer).
  { intros answer Hno Hyes. split; [congruence|intros Hu; by apply Hq2, Hq', Hq| |].
    - rewrite Hh2, Hl2, <- Hl. destruct Hh' as [(? & ? & ?)|?]; [left|by right]. split_and!; [done|done|by apply Hno].
    - intros Hu db Hdb. apply Hyes; [|done]. eapply Ha'; [by apply Hq|done]. }
  destruct outcome as [answer|e]; [destruct closed as [[]|e]|]; apply Hcommon; try done.
  intros _ Hu. destruct (Hq2 (Hq' (proj1 (Hq Hu)))) as [_ [=]].
Qed.

Definition atomic (self : Backend) : Prop := self <> SqliteBackend.

Lemma script_lands (sql : string) store :
  atomic (backend store) ->
  let '(answer, store') := execute_script sql store in
  lands (run_all (held store) (statements (backend store) sql)) store store' answer.
Proof.
  intros Hat. unfold execute_script. destruct (backend store) eqn:Hb; [done| |].
  - apply together_spec.
  - unfold turso_script. apply (using_lands _ (fun db => run_all db (turso_statements sql))).
    clear store Hat Hb. intros store. pose proof (contact_spec (Ok tt) store) as Hc.
    destruct (contact (Ok tt) store) as [[[]|e] store1]; destruct Hc as [Hb Hq [Hh Hl] Ha].
    + pose proof (together_spec (turso_statements sql) store1) as Ht.
      destruct (together _ store1) as [answer store2]. rewrite Hh in Ht. destruct Ht as [Hb' Hq' Hh' Ha'].
      split; [congruence|intros Hu; by apply Hq', Hq|by rewrite Hh, Hl in Hh'|intros Hu; by apply Ha', Hq].
    + split; [done|intros Hu; by apply Hq|by left|intros Hu; by destruct (Hq Hu)].
Qed.

(** ** What a migration does *)

Definition body (self : Backend) m : list string :=
  match render m (Some (backend_dialect self)) with
  | None => []
  | Some sql =>
      match self with TursoBackend => turso_statements (trim_semicolons (trim_end sql)) | _ => separate sql end
  end.

(** The scripts a driver separates from the statement after them. *)
Definition well_ended (self : Backend) m : Prop :=
  self <> TursoBackend -> forall sql, render m (Some (backend_dialect self)) = Some sql -> closed sql.

(** Scripts that leave the bookkeeping alone. *)
Definition apart (self : Backend) m : Prop :=
  forall statement db db', statement ∈ body self m -> run true statement db = Ok db' -> recorded db' = recorded db.

(** A migration and its record, and migrations one after the other. *)
Definition landing (self : Backend) (db : Db) m : result Db string := run_all db (body self m ++ [record (migration_id m)]).
Definition replay (self : Backend) (db : Db) (migrations : list Migration) : result Db string :=
  res_fold (landing self) db migrations.

Lemma run_all_app db (a b : list string) :
  run_all db (a ++ b) = match run_all db a with Ok db => run_all db b | Err e => Err e end.
Proof.
  revert db. unfold run_all. induction a as [|st a IH]; intros db; cbn; [done|].
  by destruct (run true st db).
Qed.

Lemma record_no_semicolon id : contains_char ";" (record id) = false.
Proof.
  unfold record. rewrite !contains_char_app. cbn.
  assert (Hp : contains_char ";" (pretty id) = false); [|by rewrite Hp].
  destruct id as [|p|p]; [done| |].
  - apply digits_no_char; [by apply (pretty_digits (Z.pos p))|done].
  - change (pretty (Z.neg p)) with ("-" +:+ pretty (Z.pos p)). rewrite contains_char_app. cbn.
    apply digits_no_char; [by apply (pretty_digits (Z.pos p))|done].
Qed.

Lemma turso_statements_app (a b : string) :
  turso_statements (a +:+ String ";" b) = turso_statements a ++ turso_statements b.
Proof. unfold turso_statements. by rewrite str_split_concat, List.filter_app. Qed.

Lemma turso_statements_record (blank : string) id :
  blank = "" \/ blank = newline -> turso_statements (blank +:+ record id +:+ ";") = [blank +:+ record id].
Proof.
  intros Hblank. assert (Hno : contains_char ";" (blank +:+ record id) = false).
  { rewrite contains_char_app, record_no_semicolon. by destruct Hblank as [->| ->]. }
  change ";" with (String ";" ""). rewrite <- str_app_assoc, turso_statements_app.
  unfold turso_statements. rewrite str_split_single by done. cbn [List.filter].
  replace (is_blank (blank +:+ record id)) with false; [done|]. symmetry. unfold is_blank, record.
  by destruct Hblank as [->| ->].
Qed.

Lemma script_run (self : Backend) m db :
  well_ended self m -> run_all db (statements self (migration_script m (backend_dialect self))) = landing self db m.
Proof.
  intros Hended. unfold landing, body, migration_script. unfold well_ended in Hended.
  destruct (render m (Some (backend_dialect self))) as [sql|]; destruct self; cbn [statements].
  - by rewrite separate_script by (by apply Hended).
  - by rewrite separate_script by (by apply Hended).
  - change (";" +:+ ?rest) with (String ";" rest). rewrite turso_statements_app, turso_statements_record by (by right).
    rewrite !run_all_app. destruct (run_all db _); [|done]. unfold run_all. cbn. by rewrite newline_ignored.
  - by rewrite separate_record.
  - by rewrite separate_record.
  - change (record (migration_id m) +:+ ";") with ("" +:+ record (migration_id m) +:+ ";").
    by rewrite turso_statements_record by (by left).
Qed.

Lemma ddl_run (self : Backend) db :
  run_all db (statements self (table_ddl (backend_dialect self))) = run true (table_ddl (backend_dialect self)) db.
Proof.
  assert (Hone : forall st, run_all db [st] = run true st db).
  { intros st. unfold run_all. cbn. by destruct (run true st db). }
  destruct self; cbn [statements]; [by rewrite separate_ddl|by rewrite separate_ddl|].
  by change (turso_statements (table_ddl (backend_dialect TursoBackend))) with [table_ddl SqliteText].
Qed.

Lemma replay_app (self : Backend) db (a b : list Migration) :
  replay self db (a ++ b) = match replay self db a with Ok db => replay self db b | Err e => Err e end.
Proof.
  revert db. unfold replay. induction a as [|m a IH]; intros db; cbn; [done|]. by destruct (landing self db m).
Qed.

Lemma body_recorded (self : Backend) m db db' :
  apart self m -> run_all db (body self m) = Ok db' -> recorded db' = recorded db.
Proof.
  unfold apart. revert db. generalize (body self m). intros sts. induction sts as [|st sts IH]; intros db Hapart; cbn.
  - by intros [= ->].
  - destruct (run true st db) as [db1|] eqn:Hrun; [|done]. intros Hdb'. rewrite (IH db1); [|set_solver|done].
    eapply Hapart; [by left|done].
Qed.

Lemma replay_recorded (self : Backend) (migrations : list Migration) db db' (ids : gset Z) :
  Forall (apart self) migrations -> recorded db = Some ids -> replay self db migrations = Ok db' ->
  recorded db' = Some (list_to_set (migration_id <$> migrations) ∪ ids).
Proof.
  intros Hapart. revert db ids. induction Hapart as [|m migrations Hm _ IH]; intros db ids Hids; cbn.
  - intros [= <-]. rewrite Hids. f_equal. set_solver.
  - unfold landing at 1. rewrite run_all_app. destruct (run_all db (body self m)) as [db1|] eqn:Hbody; [|done].
    unfold run_all. cbn. destruct (run true (record (migration_id m)) db1) as [db2|] eqn:Hrec; [|done]. intros Hdb'.
    apply body_recorded in Hbody; [|done]. rewrite Hids in Hbody.
    eapply run_record_once in Hrec; [|done]. rewrite (IH _ _ Hrec Hdb'). f_equal. set_solver.
Qed.

(** ** Runs *)

(** The databases a store was ever seen with. *)
Definition durable store : list Db := held store :: landed store.

Lemma lands_durable {A} (whole : result Db string) store store' (answer : result A StoreError) :
  lands whole store store' answer ->
  forall db, db ∈ durable store' -> db ∈ durable store \/ whole = Ok db.
Proof.
  intros [_ _ Hheld _] db. unfold durable. rewrite !elem_of_cons.
  destruct Hheld as [(-> & -> & _)|(db' & -> & -> & ->)]; [tauto|]. rewrite elem_of_cons.
  intros [->|[->|?]]; tauto.
Qed.

Lemma applied_lands {A} (whole : result Db string) store store' (answer : A) :
  lands whole store store' (Ok answer) -> whole = Ok (held store').
Proof. by intros [_ _ [(_ & _ & ?)|(db & Hw & -> & _)] _]. Qed.

Lemma using_touches {A} (work : Store Db -> result A StoreError * Store Db) (full : result A StoreError) store :
  (forall store', held store' = held store -> let '(answer, store'') := work store' in touches store' store'' full answer) ->
  let '(answer, store') := using_one work store in touches store store' full answer.
Proof.
  intros Hwork. unfold using_one. pose proof (contact_spec (Ok tt) store) as Hc.
  destruct (contact (Ok tt) store) as [[[]|e] store1]; destruct Hc as [Hb Hq [Hh Hl] Ha].
  2:{ split; [done|intros Hu; by destruct (Hq Hu)|done|by right]. }
  specialize (Hwork store1 Hh). destruct (work store1) as [outcome store2]. destruct Hwork as [Hb' Hq' [Hh' Hl'] Ha'].
  pose proof (contact_spec (Ok tt) store2) as Hc2.
  destruct (contact (Ok tt) store2) as [closed store3]. destruct Hc2 as [Hb2 Hq2 [Hh2 Hl2] Ha2].
  destruct outcome as [answer|e]; [destruct closed as [[]|e]|]; (split; [congruence| |split; congruence|tauto]);
    intros Hu; destruct (Hq Hu) as [Hu1 _]; destruct (Hq' Hu1) as [Hu2 Heq]; by destruct (Hq2 Hu2).
Qed.

Lemma fetch_touches (sql : string) store :
  let '(answer, store') := fetch sql store in
  touches store store' (match select sql (held store) with Ok rows => Ok rows | Err e => Err (DriverFailed e) end) answer.
Proof.
  unfold fetch. destruct (backend store); [apply contact_spec|apply contact_spec|].
  apply using_touches. intros store' <-. apply contact_spec.
Qed.

Lemma ids_read (ids : list Z) :
  res_map cell_id (column "id" ((fun id => [("id", CellInteger id)]) <$> ids)) = Ok ids.
Proof.
  induction ids as [|id ids IH]; [done|]. change (match res_map cell_id (column "id" ((fun id => [("id", CellInteger id)]) <$> ids)) with
    Err e => Err e | Ok ids => Ok (id :: ids) end = @Ok (list Z) StoreError (id :: ids)). by rewrite IH.
Qed.

(** What the bookkeeping is made of, and what is recorded in it. *)
Definition noted db : gset Z := default ∅ (recorded db).
Definition missing db (migrations : list Migration) : list Migration := still_pending (elements (noted db)) migrations.

Lemma still_pending_elements (ids : gset Z) (migrations : list Migration) :
  still_pending (merge_sort Z.le (elements ids)) migrations = still_pending (elements ids) migrations.
Proof.
  unfold still_pending. apply List.filter_ext. intros m. f_equal. apply bool_decide_ext.
  by rewrite (merge_sort_Permutation Z.le).
Qed.

Lemma missing_elem db (migrations : list Migration) m :
  m ∈ missing db migrations <-> m ∈ migrations /\ migration_id m ∉ noted db.
Proof.
  unfold missing, still_pending. rewrite list_elem_of_In, filter_In, <- list_elem_of_In, negb_true_iff, bool_decide_eq_false.
  by rewrite elem_of_elements.
Qed.

Lemma applied_spec store base :
  atomic (backend store) -> run true (table_ddl (backend_dialect (backend store))) (held store) = Ok base ->
  let '(answer, store') := applied_ids store in
  backend store' = backend store /\
  (forall db, db ∈ durable store' -> db ∈ durable store \/ db = base) /\
  (undisturbed store -> undisturbed store' /\ is_ok answer = true) /\
  (forall ids, answer = Ok ids -> held store' = base /\ ids = merge_sort Z.le (elements (noted base))).
Proof.
  intros Hat Hbase. unfold applied_ids.
  pose proof (script_lands (table_ddl (backend_dialect (backend store))) store Hat) as Hs.
  destruct (execute_script _ store) as [made store1]. rewrite ddl_run, Hbase in Hs.
  pose proof (lands_durable _ _ _ _ Hs) as Hdurable.
  destruct made as [[]|e].
  2:{ split_and!; [apply Hs| |intros Hu; split; [by apply Hs|]|done].
      - intros db [?|[= ->]]%Hdurable; tauto.
      - by pose proof (lands_answer _ _ _ _ Hs Hu base eq_refl). }
  pose proof (applied_lands _ _ _ _ Hs) as [= ->].
  pose proof (fetch_touches "SELECT id FROM migrations ORDER BY id" store1) as Hf.
  destruct (fetch _ store1) as [rows store2]. destruct Hf as [Hb Hq [Hh Hl] Ha].
  destruct (run_ddl true (backend_dialect (backend store)) (held store)) as (base' & Hrun & Hrec & _).
  rewrite Hbase in Hrun. injection Hrun as <-.
  erewrite select_ids in Hq, Ha by exact Hrec.
  assert (Hmap : forall rows, @Ok _ StoreError rows = Ok ((fun id => [("id", CellInteger id)]) <$> merge_sort Z.le (elements (default ∅ (recorded (held store))))) ->
    res_map cell_id (column "id" rows) = Ok (merge_sort Z.le (elements (noted (held store1))))).
  { intros rows' [= ->]. unfold noted. rewrite Hrec. apply ids_read. }
  assert (Hd : forall db, db ∈ durable store2 -> db ∈ durable store \/ db = held store1).
  { unfold durable in *. rewrite Hh, Hl. intros db [?|[= ->]]%Hdurable; tauto. }
  destruct rows as [rows|e].
  - destruct Ha as [Ha|]; [|done]. rewrite (Hmap _ Ha). split_and!; [by rewrite Hb; apply Hs|done| |].
    + intros Hu. split; [by apply Hq, Hs|done].
    + intros ids [= <-]. done.
  - split_and!; [by rewrite Hb; apply Hs|done| |done].
    intros Hu. destruct (Hq (lands_quiet _ _ _ _ Hs Hu)) as [_ [=]].
Qed.

(** Whatever stops the loop, the database is some of the pending migrations
    on. *)
Lemma apply_each_durable (self : Backend) reporter (pending : list Migration) index total applied store told :
  atomic self -> backend store = self -> Forall (well_ended self) pending ->
  let '(_, store', _) := apply_each reporter pending index total applied store told in
  backend store' = self /\
  forall db, db ∈ durable store' -> db ∈ durable store \/ exists k, replay self (held store) (take k pending) = Ok db.
Proof.
  intros Hat. revert index applied store told.
  induction pending as [|m pending IH]; intros index applied store told Hb Hended; cbn [apply_each]; [by split; [|left]|].
  apply Forall_cons in Hended as [Hm Hended].
  unfold tell at 1. destruct (reporter _); [by split; [|left]|].
  pose proof (script_lands (migration_script m (backend_dialect (backend store))) store) as Hs.
  destruct (execute_script _ store) as [ran store1]. rewrite Hb in Hs. rewrite script_run in Hs by done.
  specialize (Hs Hat). pose proof (lands_durable _ _ _ _ Hs) as Hdurable. pose proof (lands_backend _ _ _ _ Hs) as Hb1.
  rewrite Hb in Hb1.
  assert (Hone : forall db, db ∈ durable store1 -> db ∈ durable store \/ exists k, replay self (held store) (take k (m :: pending)) = Ok db).
  { intros db [?|Hland]%Hdurable; [by left|]. right. exists 1%nat. cbn. by rewrite Hland. }
  destruct ran as [[]|e]; [|by split].
  unfold tell at 1. destruct (reporter _); [by split|].
  specialize (IH (S index) (applied ++ [migration_id m]) store1 (Finished m :: Starting m index total :: told) Hb1 Hended).
  destruct (apply_each _ pending _ _ _ store1 _) as [[outcome store2] told2]. destruct IH as [Hb2 IH]. split; [done|].
  intros db [?|(k & Hk)]%IH; [by apply Hone|]. right. exists (S k). cbn.
  by rewrite (applied_lands _ _ _ _ Hs).
Qed.

(** Undisturbed, the loop applies all of them. *)
Lemma apply_each_silent (self : Backend) (pending : list Migration) index total applied store told goal :
  atomic self -> backend store = self -> Forall (well_ended self) pending -> undisturbed store ->
  replay self (held store) pending = Ok goal ->
  let '(outcome, store', _) := apply_each silent pending index total applied store told in
  outcome = Ok (applied ++ (migration_id <$> pending)) /\ held store' = goal.
Proof.
  intros Hat. revert index applied store told.
  induction pending as [|m pending IH]; intros index applied store told Hb Hended Hu; cbn [apply_each].
  { intros [= <-]. by rewrite app_nil_r. }
  apply Forall_cons in Hended as [Hm Hended]. cbn. intros Hgoal.
  destruct (landing self (held store) m) as [db|] eqn:Hland; [|done].
  pose proof (script_lands (migration_script m (backend_dialect (backend store))) store) as Hs.
  destruct (execute_script _ store) as [ran store1]. rewrite Hb in Hs. rewrite script_run, Hland in Hs by done.
  specialize (Hs Hat). destruct ran as [[]|e].
  2:{ by pose proof (lands_answer _ _ _ _ Hs Hu db eq_refl). }
  pose proof (applied_lands _ _ _ _ Hs) as [= ->].
  assert (Hb1 : backend store1 = self) by (by rewrite (lands_backend _ _ _ _ Hs)).
  specialize (IH (S index) (applied ++ [migration_id m]) store1 (Finished m :: Starting m index total :: told) Hb1 Hended
    (lands_quiet _ _ _ _ Hs Hu) Hgoal).
  destruct (apply_each _ pending _ _ _ store1 _) as [[outcome store2] told2]. destruct IH as [-> ->].
  by rewrite <- app_assoc.
Qed.

(** Once the first of the pending are recorded, the others are what is
    pending. *)
Lemma still_pending_drop (ids noted : gset Z) (migrations : list Migration) k :
  NoDup (migration_id <$> migrations) ->
  (forall m, m ∈ migrations -> migration_id m ∈ noted <->
     migration_id m ∈ ids \/ migration_id m ∈ migration_id <$> take k (still_pending (elements ids) migrations)) ->
  still_pending (elements noted) migrations = drop k (still_pending (elements ids) migrations).
Proof.
  revert k. unfold still_pending. induction migrations as [|m ms IH]; intros k; [by destruct k|].
  intros [Hm Hnd]%NoDup_cons Hall. cbn [List.filter] in *. pose proof (Hall m ltac:(by left)) as Hhead.
  destruct (bool_decide (migration_id m ∈ elements ids)) eqn:Hin;
    [apply bool_decide_eq_true in Hin|apply bool_decide_eq_false in Hin]; rewrite elem_of_elements in Hin; cbn [negb] in *.
  - rewrite bool_decide_eq_true_2 by (apply elem_of_elements, Hhead; by left). cbn [negb].
    apply IH; [done|]. intros m' Hm'. apply Hall. by right.
  - destruct k as [|k].
    + rewrite bool_decide_eq_false_2. 2:{ rewrite elem_of_elements, Hhead. intros [?|?%elem_of_nil]; done. }
      cbn [negb]. rewrite (IH 0%nat), !drop_0; [done|done|]. intros m' Hm'. apply Hall. by right.
    + rewrite bool_decide_eq_true_2. 2:{ apply elem_of_elements, Hhead. right. cbn. by left. }
      cbn [negb]. apply IH; [done|]. intros m' Hm'. rewrite Hall by (by right). cbn.
      rewrite elem_of_cons. split; [|tauto]. intros [?|[Heq|?]]; [by left| |by right].
      exfalso. apply Hm. rewrite <- Heq. by apply list_elem_of_fmap_2.
Qed.

Lemma still_pending_after (self : Backend) (migrations : list Migration) db db' k :
  NoDup (migration_id <$> migrations) -> Forall (apart self) migrations -> is_Some (recorded db) ->
  replay self db (take k (missing db migrations)) = Ok db' ->
  missing db' migrations = drop k (missing db migrations) /\
  noted db' = list_to_set (migration_id <$> take k (missing db migrations)) ∪ noted db.
Proof.
  intros Hnd Hapart [ids Hids] Hreplay.
  assert (Hnoted : noted db' = list_to_set (migration_id <$> take k (missing db migrations)) ∪ noted db).
  { unfold noted. erewrite replay_recorded; [by rewrite Hids| |exact Hids|exact Hreplay].
    apply Forall_take, Forall_forall. intros m Hm%missing_elem. rewrite Forall_forall in Hapart. by apply Hapart, Hm. }
  split; [|done]. apply still_pending_drop; [done|]. intros m _. rewrite Hnoted. fold (missing db migrations). set_solver.
Qed.

Lemma migrate_spec (self : Backend) (migrations : list Migration) reporter store base :
  atomic self -> backend store = self -> Forall (well_ended self) migrations ->
  run true (table_ddl (backend_dialect self)) (held store) = Ok base ->
  let '(_, store', _) := migrate migrations reporter store in
  backend store' = self /\
  forall db, db ∈ durable store' ->
    db ∈ durable store \/ exists k, replay self base (take k (missing base migrations)) = Ok db.
Proof.
  intros Hat Hb Hended Hbase. unfold migrate. pose proof (applied_spec store base) as Happ.
  destruct (applied_ids store) as [ids store1]. rewrite Hb in Happ. destruct (Happ Hat Hbase) as (Hb1 & Hd1 & _ & Hids).
  assert (Hd : forall db, db ∈ durable store1 ->
    db ∈ durable store \/ exists k, replay self base (take k (missing base migrations)) = Ok db).
  { intros db [?|Hland]%Hd1; [by left|]. right. exists 0%nat. by rewrite take_0, Hland. }
  destruct ids as [ids|e]; [|by split]. destruct (Hids ids eq_refl) as [Hheld ->].
  rewrite still_pending_elements. fold (missing base migrations).
  pose proof (apply_each_durable self reporter (missing base migrations) 0 (length (missing base migrations)) [] store1 []
    Hat Hb1) as Heach.
  destruct (apply_each _ _ _ _ _ store1 _) as [[outcome store2] told]. rewrite Hheld in Heach. destruct Heach as [Hb2 Heach].
  - apply Forall_forall. intros m Hm%missing_elem. rewrite Forall_forall in Hended. by apply Hended, Hm.
  - split; [done|]. intros db [?|?]%Heach; [by apply Hd|by right].
Qed.

Lemma migrate_silent (self : Backend) (migrations : list Migration) store base goal :
  atomic self -> backend store = self -> Forall (well_ended self) migrations -> undisturbed store ->
  run true (table_ddl (backend_dialect self)) (held store) = Ok base ->
  replay self base (missing base migrations) = Ok goal ->
  let '(outcome, store', _) := migrate migrations silent store in
  outcome = Ok (migration_id <$> missing base migrations) /\ held store' = goal.
Proof.
  intros Hat Hb Hended Hu Hbase Hgoal. unfold migrate. pose proof (applied_spec store base) as Happ.
  destruct (applied_ids store) as [ids store1]. rewrite Hb in Happ. destruct (Happ Hat Hbase) as (Hb1 & _ & Hq & Hids).
  destruct (Hq Hu) as [Hu1 Hok]. destruct ids as [ids|e]; [|done]. destruct (Hids ids eq_refl) as [Hheld ->].
  rewrite still_pending_elements. fold (missing base migrations).
  apply (apply_each_silent self); [done|done| |done|by rewrite Hheld].
  apply Forall_forall. intros m Hm%missing_elem. rewrite Forall_forall in Hended. by apply Hended, Hm.
Qed.

(** C29: Where scripts are transactions, however a run of the migrations stops (a
    script or a call of the driver that fails, an answer that is lost, a
    reporter that refuses), every database it leaves behind is one an
    undisturbed run takes to the very end of an undisturbed first run, applying
    exactly what is not recorded in it; then nothing is left pending. *)
Theorem migrate_resumes (self : Backend) (migrations : list Migration) (reporter : Reporter)
    (store later : Store Db) (base goal : Db) :
  atomic self -> backend store = self -> landed store = [] ->
  NoDup (migration_id <$> migrations) -> Forall (well_ended self) migrations -> Forall (apart self) migrations ->
  run true (table_ddl (backend_dialect self)) (held store) = Ok base ->
  replay self base (missing base migrations) = Ok goal ->
  let '(_, stopped, _) := migrate migrations reporter store in
  backend later = self -> undisturbed later -> held later ∈ durable stopped ->
  let '(outcome, resumed, _) := migrate migrations silent later in
  held resumed = goal /\ outcome = Ok (migration_id <$> missing (held later) migrations) /\
  missing goal migrations = [].
Proof.
  intros Hat Hb Hlanded Hnd Hended Hapart Hbase Hgoal.
  pose proof (migrate_spec self migrations reporter store base Hat Hb Hended Hbase) as Hrun.
  destruct (migrate migrations reporter store) as [[outcome stopped] told]. destruct Hrun as [_ Hdurable].
  intros Hlb Hlu Hlater%Hdurable.
  destruct (run_ddl true (backend_dialect self) (held store)) as (base' & Hrun & Hrec & _).
  rewrite Hbase in Hrun. injection Hrun as <-.
  assert (Hdone : missing goal migrations = []).
  { destruct (still_pending_after self migrations base goal (length (missing base migrations))) as [-> _]; [done..| |].
    - by rewrite firstn_all.
    - by rewrite drop_all. }
  destruct Hlater as [Hfirst|(k & Hk)].
  - unfold durable in Hfirst. rewrite Hlanded, list_elem_of_singleton in Hfirst. rewrite <- Hfirst in Hbase.
    pose proof (migrate_silent self migrations later base goal Hat Hlb Hended Hlu Hbase Hgoal) as Hsilent.
    destruct (migrate migrations silent later) as [[out resumed] told']. destruct Hsilent as [-> ->].
    split_and!; [done| |done]. unfold missing, noted. by rewrite Hfirst, Hrec.
  - destruct (still_pending_after self migrations base (held later) k) as [Hmissing _]; [done|done|by rewrite Hrec|done|].
    assert (Hlater : run true (table_ddl (backend_dialect self)) (held later) = Ok (held later)).
    { destruct (run_ddl true (backend_dialect self) (held later)) as (d & Hrun & _ & Hsame). rewrite Hrun, Hsame; [done|].
      erewrite replay_recorded; [by eexists| |exact Hrec|exact Hk].
      apply Forall_take, Forall_forall. intros m Hm%missing_elem. rewrite Forall_forall in Hapart. by apply Hapart, Hm. }
    assert (Hrest : replay self (held later) (missing (held later) migrations) = Ok goal).
    { rewrite Hmissing. rewrite <- (take_drop k (missing base migrations)), replay_app, Hk in Hgoal. done. }
    pose proof (migrate_silent self migrations later _ goal Hat Hlb Hended Hlu Hlater Hrest) as Hsilent.
    destruct (migrate migrations silent later) as [[out resumed] told']. by destruct Hsilent as [-> ->].
Qed.

(** ** SQLite *)

Lemma one_by_one_app store (before rest : list string) part :
  undisturbed store -> res_fold (fun db statement => run false statement db) (held store) before = Ok part ->
  exists store', one_by_one (before ++ rest) store = one_by_one rest store' /\
    held store' = part /\ backend store' = backend store /\ undisturbed store'.
Proof.
  revert store. induction before as [|st before IH]; intros store Hu; cbn [res_fold app].
  { intros [= <-]. by exists store. }
  destruct (run false st (held store)) as [db|] eqn:Hrun; [|done]. intros Hpart.
  pose proof (commit_spec db store) as Hc. cbn [one_by_one]. unfold statement_ran. rewrite Hrun.
  destruct (commit db store) as [[[]|e] store1].
  2:{ by pose proof (lands_answer _ _ _ _ Hc Hu db eq_refl). }
  pose proof (applied_lands _ _ _ _ Hc) as [= ->].
  destruct (IH store1 (lands_quiet _ _ _ _ Hc Hu) Hpart) as (store' & Heq & Hh & Hb & Hu').
  exists store'. split_and!; [done|done|by rewrite Hb; apply Hc|done].
Qed.

Lemma sqlite_applied store (ids : gset Z) :
  backend store = SqliteBackend -> undisturbed store -> recorded (held store) = Some ids ->
  exists store', applied_ids store = (Ok (merge_sort Z.le (elements ids)), store') /\
    held store' = held store /\ backend store' = SqliteBackend /\ undisturbed store'.
Proof.
  intros Hb Hu Hids. unfold applied_ids. rewrite Hb. cbn [backend_dialect]. unfold execute_script. rewrite Hb, separate_ddl.
  destruct (run_ddl false SqliteText (held store)) as (db & Hrun & _ & Hsame). rewrite Hsame in Hrun by (by rewrite Hids).
  destruct (one_by_one_app store [table_ddl SqliteText] [] (held store)) as (store1 & Heq & Hh & Hb1 & Hu1); [done| |].
  { cbn [res_fold]. by rewrite Hrun. }
  cbn [app] in Heq. rewrite Heq. cbn [one_by_one].
  pose proof (fetch_touches "SELECT id FROM migrations ORDER BY id" store1) as Hf.
  destruct (fetch _ store1) as [rows store2]. destruct Hf as [Hb2 Hq [Hh2 _] _].
  erewrite select_ids in Hq by (by rewrite Hh). destruct (Hq Hu1) as [Hu2 ->].
  exists store2. rewrite ids_read. split_and!; [done|congruence|congruence|done].
Qed.

(** SQLite takes the statements of a script one by one: one that fails ends the
    run with the migration named, and leaves the statements before it in the
    database, the migration unrecorded. *)
Theorem sqlite_keeps_part (m : Migration) (migrations : list Migration) (reporter : Reporter)
    (store : Store Db) (before : list string) (failing : string) (after : list string) (part : Db) (text : string) :
  backend store = SqliteBackend -> undisturbed store -> is_Some (recorded (held store)) ->
  missing (held store) migrations = m :: tail (missing (held store) migrations) ->
  reporter [Starting m 0 (length (missing (held store) migrations))] = None ->
  separate (migration_script m SqliteText) = before ++ failing :: after ->
  res_fold (fun db statement => run false statement db) (held store) before = Ok part ->
  run false failing part = Err text ->
  let '(outcome, stopped, _) := migrate migrations reporter store in
  outcome = Err (MigrationFailed (migration_id m) (migration_name m) (DriverFailed text)) /\ held stopped = part.
Proof.
  intros Hb Hu [ids Hids] Hmissing Hrep Hsep Hpart Hfail.
  unfold migrate. destruct (sqlite_applied store ids Hb Hu Hids) as (store1 & -> & Hh & Hb1 & Hu1).
  rewrite still_pending_elements. unfold missing, noted in *. rewrite Hids in *. change (default ∅ (Some ids)) with ids in *.
  destruct (still_pending (elements ids) migrations) as [|m' pending] eqn:Hp; [done|]. injection Hmissing as ->.
  cbn [apply_each]. unfold tell at 1. rewrite Hrep. unfold execute_script. rewrite Hb1. cbn [backend_dialect].
  rewrite Hsep. rewrite <- Hh in Hpart.
  destruct (one_by_one_app store1 before (failing :: after) part Hu1 Hpart) as (store2 & -> & Hh2 & _ & _).
  cbn [one_by_one]. unfold statement_ran. rewrite Hh2, Hfail. done.
Qed.
End atomic.

(** * The migrations over a concrete driver

    A database as the statements it was given, with its bookkeeping table, and
    the theorems of [MigrationFacts] and [MigrationRuns] at concrete files and
    runs. *)

(** ** A driver *)

Record LogDb := { noted_ids : option (gset Z); ran : list string }.

Fixpoint unlead (text : string) : string :=
  match text with
  | String c rest => if Strings.Ascii.eqb c (Strings.Ascii.ascii_of_nat 10) then unlead rest else text
  | EmptyString => EmptyString
  end.

Definition read_integer (text : string) : option Z :=
  match text with
  | String "-" digits => Z.opp <$> digits_value digits 0
  | digits => digits_value digits 0
  end.

Definition read_record (statement : string) : option Z :=
  rest ← strip_prefix "INSERT INTO migrations (id) VALUES (" statement;
  number ← strip_suffix ")" rest;
  read_integer number.

Definition log_run (statement : string) (db : LogDb) : result LogDb string :=
  let statement := unlead statement in
  if bool_decide (statement = table_ddl SqliteText) || bool_decide (statement = table_ddl Postgres) then
    Ok {| noted_ids := Some (default ∅ (noted_ids db)); ran := ran db |}
  else match read_record statement with
  | Some id =>
      match noted_ids db with
      | Some ids => if bool_decide (id ∈ ids) then Err "UNIQUE constraint failed"
                    else Ok {| noted_ids := Some ({[id]} ∪ ids); ran := ran db |}
      | None => Err "no such table: migrations"
      end
  | None => if str_starts_with "BROKEN" statement then Err "syntax error"
            else Ok {| noted_ids := noted_ids db; ran := ran db ++ [statement] |}
  end.

#[export] Instance log_driver : Driver LogDb := {|
  separate sql := unlead <$> turso_statements sql;
  run _ := log_run;
  select query db :=
    if bool_decide (query = "SELECT id FROM migrations ORDER BY id") then
      match noted_ids db with
      | Some ids => Ok ((fun id => [("id", CellInteger id)]) <$> merge_sort Z.le (elements ids))
      | None => Err "no such table: migrations"
      end
    else Err "syntax error";
  debug_cell _ := ""
|}.

Lemma read_integer_pretty id : read_integer (pretty id) = Some id.
Proof.
  destruct (decide (0 <= id)) as [Hid|Hid].
  - destruct (digits_value_pretty id Hid) as [_ Hvalue]. pose proof (pretty_digits id Hid) as Hdigits.
    unfold read_integer. destruct (pretty id) as [|c rest]; [done|].
    destruct (decide (c = "-"%char)) as [->|Hc]; [done|]. destruct c as [[] [] [] [] [] [] [] []]; done.
  - destruct id as [|p|p]; [lia|lia|]. change (pretty (Z.neg p)) with ("-" +:+ pretty (Z.pos p)).
    change (Z.opp <$> digits_value (pretty (Z.pos p)) 0 = Some (Z.neg p)).
    by destruct (digits_value_pretty (Z.pos p)) as [_ ->].
Qed.

Lemma read_record_record id : read_record (record id) = Some id.
Proof.
  unfold read_record, record.
  assert (Hp : strip_prefix "INSERT INTO migrations (id) VALUES (" ("INSERT INTO migrations (id) VALUES (" +:+ pretty id +:+ ")")
    = Some (pretty id +:+ ")")) by (by apply strip_prefix_Some).
  rewrite Hp. cbn. rewrite strip_suffix_app. cbn. apply read_integer_pretty.
Qed.

Lemma log_run_ddl dialect db :
  log_run (table_ddl dialect) db = Ok {| noted_ids := Some (default ∅ (noted_ids db)); ran := ran db |}.
Proof. by destruct dialect. Qed.

Lemma log_run_record id db ids :
  noted_ids db = Some ids ->
  log_run (record id) db = if bool_decide (id ∈ ids) then Err "UNIQUE constraint failed"
                           else Ok {| noted_ids := Some ({[id]} ∪ ids); ran := ran db |}.
Proof.
  intros Hids. unfold log_run. change (unlead (record id)) with (record id).
  rewrite !bool_decide_eq_false_2 by (unfold record; discriminate). cbn [orb]. rewrite read_record_record. by rewrite Hids.
Qed.

#[export] Program Instance log_bookkeeping : Bookkeeping LogDb := {|
  recorded := noted_ids;
  closed sql := turso_statements (trim_semicolons (trim_end sql)) = turso_statements sql
|}.
Next Obligation. done. Qed.
Next Obligation. by intros []. Qed.
Next Obligation.
  intros id. cbn [separate log_driver]. change (record id +:+ ";") with ("" +:+ record id +:+ ";").
  by rewrite (turso_statements_record) by (by left).
Qed.
Next Obligation.
  intros sql id Hclosed. cbn [separate log_driver]. change (";" +:+ newline +:+ record id +:+ ";") with
    (String ";" (newline +:+ record id +:+ ";")).
  rewrite (turso_statements_app), Hclosed, (turso_statements_record) by (by right).
  rewrite fmap_app. done.
Qed.
Next Obligation. intros inside dialect db. eexists. cbn. rewrite log_run_ddl. split_and!; [done|done|]. by destruct db as [[]]; intros []. Qed.
Next Obligation. intros inside id db ids Hids Hid. cbn in *. rewrite (log_run_record _ _ _ Hids), bool_decide_eq_false_2 by done. by eexists. Qed.
Next Obligation.
  intros inside id db ids db' Hids. cbn in *. rewrite (log_run_record _ _ _ Hids). case_bool_decide; [done|]. by intros [= <-].
Qed.
Next Obligation. intros db ids Hids. cbn in *. by rewrite Hids. Qed.

(** ** Concrete runs *)

Definition sample_migration (id : Z) (name sql : string) : Migration :=
  {| migration_id := id; migration_name := name; scripts := {| shared := Some sql; sqlite := None; postgres := None |} |}.

Definition sample_migrations : list Migration :=
  [sample_migration 1 "first" "CREATE TABLE first (id); CREATE TABLE spare (id);"; sample_migration 2 "second" "CREATE TABLE second (id);"].

Definition sample_store (backend : Backend) (db : LogDb) : Store LogDb :=
  {| backend := backend; held := db; landed := []; faults := [] |}.

Definition empty_db : LogDb := {| noted_ids := None; ran := [] |}.

(** Stops the run once the first migration is on. *)
Definition refusing : Reporter :=
  fun told => match told with Finished m :: _ => if migration_id m =? 1 then Some "interrupted" else None | _ => None end.

Definition first_db : LogDb :=
  {| noted_ids := Some {[1]}; ran := ["CREATE TABLE first (id)"; " CREATE TABLE spare (id)"] |}.
Definition both_db : LogDb :=
  {| noted_ids := Some {[1; 2]}; ran := ["CREATE TABLE first (id)"; " CREATE TABLE spare (id)"; "CREATE TABLE second (id)"] |}.

Lemma sample_apart self : Forall (apart self) sample_migrations.
Proof.
  repeat constructor; intros statement db db' Hin Hrun; destruct self; vm_compute in Hin;
    repeat (apply elem_of_cons in Hin as [->|Hin]; [cbn in Hrun; by injection Hrun as <-|]); by apply elem_of_nil in Hin.
Qed.

Lemma migrate_resumes_witness :
  exists later, later ∈ durable (migrate sample_migrations refusing (sample_store TursoBackend empty_db)).1.2 /\
    held (migrate sample_migrations silent (sample_store TursoBackend later)).1.2 = both_db.
Proof.
  exists first_db.
  assert (Hin : first_db ∈ durable (migrate sample_migrations refusing (sample_store TursoBackend empty_db)).1.2)
    by (vm_compute; by left).
  split; [exact Hin|].
  pose proof (migrate_resumes TursoBackend sample_migrations refusing (sample_store TursoBackend empty_db)
    (sample_store TursoBackend first_db) {| noted_ids := Some ∅; ran := [] |} both_db) as Hresumes.
  destruct (migrate sample_migrations refusing (sample_store TursoBackend empty_db)) as [[outcome stopped] told].
  destruct (migrate sample_migrations silent (sample_store TursoBackend first_db)) as [[outcome' resumed] told'].
  cbn [fst snd] in *. apply Hresumes; try done.
  - repeat constructor; set_solver.
  - repeat constructor; by intros [].
  - apply sample_apart.
  - constructor.
Defined.

(** The third statement of this script fails. *)
Definition broken_migration : Migration := sample_migration 1 "broken" "ALTER a;ALTER b;BROKEN;ALTER c;".

Lemma sqlite_keeps_part_witness :
  (migrate [broken_migration] silent (sample_store SqliteBackend {| noted_ids := Some ∅; ran := [] |})).1.1 =
    Err (MigrationFailed 1 "broken" (DriverFailed "syntax error")) /\
  held (migrate [broken_migration] silent (sample_store SqliteBackend {| noted_ids := Some ∅; ran := [] |})).1.2 =
    {| noted_ids := Some ∅; ran := ["ALTER a"; "ALTER b"] |}.
Proof.
  pose proof (sqlite_keeps_part broken_migration [broken_migration] silent
    (sample_store SqliteBackend {| noted_ids := Some ∅; ran := [] |}) ["ALTER a"; "ALTER b"] "BROKEN"
    (drop 3 (separate (migration_script broken_migration SqliteText)))
    {| noted_ids := Some ∅; ran := ["ALTER a"; "ALTER b"] |} "syntax error") as Hpart.
  destruct (migrate [broken_migration] silent _) as [[outcome stopped] told]. cbn [fst snd].
  apply Hpart; (done || constructor || by eexists).
Defined.
