(* ===== verification/Turso.v ===== *)
(** * The Turso backend

    [ceres-database/src/turso.rs]: the values it binds and reads, the life of
    a connection, and the operations each runs on one of its own, over an
    engine whose calls may fail. What a statement does to a database is a
    parameter; the transaction a connection holds and what becomes of it are
    modelled. The last part is what the [sqlx] backends of
    [ceres-database/src/backend.rs] do in a transaction of a pool's. *)
From S2P Require Import Prelude.
From stdpp Require Import gmap pretty.
From S2P Require Import Text Sql Schema FilterCompile Wire Json Surface Decode Migrations.
Local Open Scope string_scope.
Local Open Scope list_scope.

(** ** Values *)

(** [turso::Value], and [Parameter] of [store.rs]. *)
Inductive Value :=
  | NullValue | IntegerValue (value : Z) | RealValue (value : f64) | TextValue (text : string) | BlobValue (bytes : list Z).

Inductive StatementParameter :=
  | NullParameter | BoolParameter (value : bool) | IntegerParameter (value : Z) | FloatParameter (value : f64)
  | TextParameter (text : string) | BytesParameter (bytes : list Z) | TimestampParameter (stamp : Z)
  | UuidParameter (id : string) | JsonParameter (value : Jvalue).

(** How values print, and what a stored JSON document is read as; UUIDs print
    as they are held. *)
Class ValueTexts := {
  value_debug : Value -> string;
  stamp_text : Z -> string;
  json_text : Jvalue -> string;
  json_reads : string -> result Jvalue string;
  real_json : f64 -> option Jvalue
}.

Inductive BackendError := EngineFailed (message : string) | ConnectFailed (message : string)
  | DecodeFailed (message : string) | RefusedWrite (message : string).

(** A row of a result set with its column names. *)
Definition TursoRow : Type := list string * list Value.

Section values.
Context `{ValueTexts} `{RowReaders}.

(** [parameter_value]. *)
Definition parameter_value (parameter : StatementParameter) : Value :=
  match parameter with
  | NullParameter => NullValue
  | BoolParameter value => IntegerValue (if value then 1 else 0)
  | IntegerParameter value => IntegerValue value
  | FloatParameter value => RealValue value
  | TextParameter text => TextValue text
  | BytesParameter bytes => BlobValue bytes
  | TimestampParameter stamp => TextValue (stamp_text stamp)
  | UuidParameter id => TextValue id
  | JsonParameter value => TextValue (json_text value)
  end.

(** [Columns::index] and [Fields::value]. *)
Fixpoint value_named (column : string) (names : list string) (values : list Value) : option Value :=
  match names, values with
  | name :: names, value :: values => if decide (name = column) then Some value else value_named column names values
  | _, _ => None
  end.

Definition field_value (row : TursoRow) (column : string) : result Value RowError :=
  match value_named column row.1 row.2 with
  | Some value => Ok value
  | None => Err (DecodeError ("no column named " +:+ row_debug column))
  end.

Local Open Scope ceres_scope.

Definition field_text (row : TursoRow) (column : string) : result string RowError :=
  let* value := field_value row column in
  match value with
  | TextValue text => Ok text
  | other => Err (DecodeError ("expected text, found " +:+ value_debug other))
  end.

Definition field_optional_text (row : TursoRow) (column : string) : result (option string) RowError :=
  let* value := field_value row column in
  match value with
  | NullValue => Ok None
  | TextValue text => Ok (Some text)
  | other => Err (DecodeError ("expected text, found " +:+ value_debug other))
  end.

Definition field_json (row : TursoRow) (column : string) : result Jvalue RowError :=
  let* value := field_value row column in
  match value with
  | NullValue => Ok JNull
  | TextValue held =>
      match json_reads held with
      | Ok value => Ok value
      | Err error => Err (DecodeError (row_debug held +:+ " is not JSON. " +:+ error))
      end
  | IntegerValue held => Ok (JNumber (pretty held))
  | RealValue held => Ok (default JNull (real_json held))
  | other => Err (DecodeError ("expected JSON, found " +:+ value_debug other))
  end.

(** [FieldRead for Fields]; documents are held as their texts. *)
#[export] Instance turso_read : FieldRead TursoRow := {|
  read_text := field_text;
  read_optional_text := field_optional_text;
  read_uuid := fun row column => let* held := field_text row column in parsed_uuid held;
  read_optional_uuid := fun row column =>
    let* held := field_optional_text row column in
    match held with None => Ok None | Some held => let* id := parsed_uuid held in Ok (Some id) end;
  read_timestamp := fun row column =>
    let* text := field_text row column in
    match naive_datetime text with
    | Some stamp => Ok stamp
    | None => Err (DecodeError (row_debug text +:+ " is not a timestamp"))
    end;
  read_boolean := fun row column =>
    let* value := field_value row column in
    match value with
    | IntegerValue held => Ok (negb (held =? 0)%Z)
    | other => Err (DecodeError ("expected a boolean, found " +:+ value_debug other))
    end;
  read_blob := fun row column =>
    let* value := field_value row column in
    match value with
    | BlobValue bytes => Ok bytes
    | other => Err (DecodeError ("expected a blob, found " +:+ value_debug other))
    end;
  read_json := fun row column => let* value := field_json row column in Ok (json_text value);
  read_json_object := fun row column => let* text := field_text row column in object_of_text text
|}.

(** [turso_row] of [dynamic.rs]: one cell by the family its column declares. *)
Definition uuid_cell (text : string) : result Cell BackendError :=
  match row_uuid text with
  | Some id => Ok (CellUuid id)
  | None => Err (DecodeFailed (row_debug text +:+ " is not a UUID"))
  end.

Definition timestamp_cell (text : string) : result Cell BackendError :=
  match naive_datetime text with
  | Some stamp => Ok (CellTimestamp stamp)
  | None => Err (DecodeFailed (row_debug text +:+ " is not a timestamp"))
  end.

Definition turso_cell (held : Value) (family : option FieldFamily) : result Cell BackendError :=
  match held, family with
  | NullValue, _ => Ok CellNull
  | TextValue text, Some Uuid => uuid_cell text
  | TextValue text, Some Timestamp => timestamp_cell text
  | TextValue text, Some (Json | JsonValue) =>
      match json_reads text with
      | Ok value => Ok (CellJson value)
      | Err error => Err (DecodeFailed (row_debug text +:+ " is not JSON. " +:+ error))
      end
  | IntegerValue held, Some (Json | JsonValue) => Ok (CellJson (JNumber (pretty held)))
  | IntegerValue held, Some Boolean => Ok (CellBool (negb (held =? 0)%Z))
  | IntegerValue held, _ => Ok (CellInteger held)
  | RealValue held, _ => Ok (CellFloat held)
  | TextValue text, _ => Ok (CellText text)
  | BlobValue bytes, _ => Ok (CellBytes bytes)
  end.

Fixpoint turso_row (names : list string) (values : list Value) (table : option Group) : result Row BackendError :=
  match names, values with
  | name :: names, held :: values =>
      let* cell := turso_cell held (table ≫= fun table => group_family table name) in
      let* cells := turso_row names values table in
      Ok ((name, cell) :: cells)
  | _, _ => Ok []
  end.
End values.

(** ** Connections *)

(** [TursoBackend], and [Writing] of [backend.rs]. *)
Record TursoBackend := {
  turso_mvcc : bool;
  on_init : list string;
  on_connect : list string;
  on_close : list string
}.

Inductive Writing := DefaultWriting | ConcurrentWriting.

(** What the engine makes of a statement with its values: the rows affected,
    the rows returned with their columns' names, and the database after. *)
Record Answer (V : Type) := { affected : Z; answer_names : list string; answer_rows : list (list V) }.
Arguments affected {V} a.
Arguments answer_names {V} a.
Arguments answer_rows {V} a.

(** [V] is what the driver binds and reads. *)
Class StatementEngine (V Db : Type) := statement_effect : string -> list V -> Db -> result (Answer V * Db) string.

(** What is asked of the engine. *)
Inductive Call (V : Type) := Builds | Connects | Runs (sql : string) (parameters : list V).
Arguments Builds {V}.
Arguments Connects {V}.
Arguments Runs {V} sql parameters.

(** An engine over one file: its committed database, the transaction the
    connection at work holds, whether the engine is built and its [init]
    statements have run, the calls made, and the faults to come, one turn for
    each call. *)
Record Engine (V Db : Type) := {
  committed : Db;
  transaction : option Db;
  built : bool;
  started : bool;
  calls : list (Call V);
  mishaps : list (option Fault)
}.
Arguments committed {V Db} e.
Arguments transaction {V Db} e.
Arguments built {V Db} e.
Arguments started {V Db} e.
Arguments calls {V Db} e.
Arguments mishaps {V Db} e.

(** How a statement moves a transaction, if it does. *)
Inductive Control := Begins | BeginsConcurrently | Commits | RollsBack.

Definition control_of (sql : string) : option Control :=
  if decide (sql = "BEGIN") then Some Begins
  else if decide (sql = "BEGIN CONCURRENT") then Some BeginsConcurrently
  else if decide (sql = "COMMIT") then Some Commits
  else if decide (sql = "ROLLBACK") then Some RollsBack
  else None.

Declare Scope engine_scope.

Section connections.
Context {V Db : Type} `{!StatementEngine V Db}.

Definition Use (A : Type) : Type := Engine V Db -> result A BackendError * Engine V Db.

Definition done_ {A} (a : A) : Use A := fun engine => (Ok a, engine).
Definition fails {A} (error : BackendError) : Use A := fun engine => (Err error, engine).

(** [?]. *)
Definition use_then {A B} (m : Use A) (k : A -> Use B) : Use B :=
  fun engine =>
    match m engine with
    | (Ok a, engine) => k a engine
    | (Err error, engine) => (Err error, engine)
    end.

Definition with_transaction (held : option Db) (engine : Engine V Db) : Engine V Db :=
  {| committed := committed engine; transaction := held; built := built engine; started := started engine;
     calls := calls engine; mishaps := mishaps engine |}.

(** A transaction's own database, and the committed one outside of any. *)
Definition seen (engine : Engine V Db) : Db := default (committed engine) (transaction engine).

Definition put (db : Db) (engine : Engine V Db) : Engine V Db :=
  match transaction engine with
  | Some _ => with_transaction (Some db) engine
  | None =>
      {| committed := db; transaction := None; built := built engine; started := started engine;
         calls := calls engine; mishaps := mishaps engine |}
  end.

Definition committing (db : Db) (engine : Engine V Db) : Engine V Db :=
  {| committed := db; transaction := None; built := built engine; started := started engine;
     calls := calls engine; mishaps := mishaps engine |}.

(** What a call makes of the engine, before anything goes wrong with it. *)
Definition call_effect (call : Call V) (engine : Engine V Db) : result (Answer V * Engine V Db) string :=
  let nothing := {| affected := 0; answer_names := []; answer_rows := [] |} in
  match call with
  | Builds =>
      Ok (nothing, {| committed := committed engine; transaction := transaction engine; built := true;
                      started := started engine; calls := calls engine; mishaps := mishaps engine |})
  | Connects => Ok (nothing, with_transaction None engine)
  | Runs sql parameters =>
      match control_of sql, transaction engine with
      | Some (Begins | BeginsConcurrently), None => Ok (nothing, with_transaction (Some (committed engine)) engine)
      | Some (Begins | BeginsConcurrently), Some _ => Err "cannot start a transaction within a transaction"
      | Some Commits, Some db => Ok (nothing, committing db engine)
      | Some RollsBack, Some _ => Ok (nothing, with_transaction None engine)
      | Some (Commits | RollsBack), None => Err "no transaction is active"
      | None, _ =>
          match statement_effect sql parameters (seen engine) with
          | Ok (answer, db) => Ok (answer, put db engine)
          | Err text => Err text
          end
      end
  end.

(** A call, its turn of the faults taken: it fails, or its answer is lost. *)
Definition asked (call : Call V) (engine : Engine V Db) : Engine V Db :=
  {| committed := committed engine; transaction := transaction engine; built := built engine; started := started engine;
     calls := calls engine ++ [call]; mishaps := tail (mishaps engine) |}.

Definition call_engine (call : Call V) : Use (Answer V) := fun engine =>
  let mishap := default None (head (mishaps engine)) in
  let engine := asked call engine in
  match mishap with
  | Some (CallFails text) => (Err (EngineFailed text), engine)
  | _ =>
      match call_effect call engine with
      | Err text => (Err (EngineFailed text), engine)
      | Ok (answer, engine) =>
          match mishap with
          | Some (AnswerLost text) => (Err (EngineFailed text), engine)
          | _ => (Ok answer, engine)
          end
      end
  end.

Definition run_sql (sql : string) (parameters : list V) : Use (Answer V) := call_engine (Runs sql parameters).
End connections.

Notation "'use!' x ':=' m 'in' k" := (use_then m (fun x => k))
  (at level 200, x pattern, m at level 100, k at level 200, right associativity) : engine_scope.
Local Open Scope engine_scope.

Section reading.
Context {V Db : Type} `{!StatementEngine V Db}.

Notation Use := (Use (V := V) (Db := Db)).

(** [decode] of a result set to its rows. *)
Fixpoint decode_rows {T} (from_row : list string * list V -> result T BackendError) (names : list string) (rows : list (list V)) :
    result (list T) BackendError :=
  match rows with
  | [] => Ok []
  | row :: rows =>
      match from_row (names, row) with
      | Err error => Err error
      | Ok held => match decode_rows from_row names rows with Ok rest => Ok (held :: rest) | Err error => Err error end
      end
  end.

Definition fetch_rows {T} (from_row : list string * list V -> result T BackendError) (sql : string) (parameters : list V) :
    Use (list T) :=
  use! answer := run_sql sql parameters in
  fun engine => (decode_rows from_row (answer_names answer) (answer_rows answer), engine).

(** Statements one after another. *)
Fixpoint run_each (statements : list (string * list V)) : Use unit :=
  match statements with
  | [] => done_ tt
  | (sql, parameters) :: statements => use! _ := run_sql sql parameters in run_each statements
  end.
(** A connection dropped, a transaction it holds with it. *)
Definition dropped {A} (ended : result A BackendError * Engine V Db) : result A BackendError * Engine V Db :=
  (ended.1, with_transaction None ended.2).
End reading.

Section turso.
Context {Db : Type} `{!StatementEngine Value Db} `{ValueTexts} (self : TursoBackend).
(** [str::to_lowercase] of what a pragma reports. *)
Context (to_lowercase : string -> string).

Notation Use := (Use (V := Value) (Db := Db)).

(** [pragma]: the first value of the rows. *)
Definition pragma (sql : string) : Use (option Value) :=
  use! answer := run_sql sql [] in
  done_ (head (omap head (answer_rows answer))).

Fixpoint pragmas (statements : list string) : Use unit :=
  match statements with
  | [] => done_ tt
  | statement :: statements => use! _ := pragma statement in pragmas statements
  end.

(** The engine and the [init] statements, each cell set once what fills it
    succeeds. *)
Definition build : Use unit := fun engine =>
  if built engine then (Ok tt, engine) else (use! _ := call_engine Builds in done_ tt) engine.

Definition start : Use unit := fun engine =>
  if started engine then (Ok tt, engine)
  else (use! _ := pragmas (on_init self) in
        fun engine => (Ok tt, {| committed := committed engine; transaction := transaction engine; built := built engine;
                                 started := true; calls := calls engine; mishaps := mishaps engine |})) engine.

Definition BUSY : string := "PRAGMA busy_timeout = 30000".
Definition FOREIGN_KEYS : string := "PRAGMA foreign_keys = ON".
Definition JOURNAL : string := "PRAGMA journal_mode = 'mvcc'".

(** The journaling a connection asks for. *)
Definition enable_mvcc : Use unit :=
  use! mode := pragma JOURNAL in
  let reported := match mode with Some (TextValue text) => to_lowercase text | _ => "" end in
  if decide (reported = "mvcc") then done_ tt
  else fails (ConnectFailed ("Turso would not enable MVCC, 'PRAGMA journal_mode' reported " +:+
    match mode with Some value => value_debug value | None => "nothing" end)).

(** [connection]. *)
Definition connection : Use unit :=
  use! _ := build in
  use! _ := call_engine Connects in
  use! _ := start in
  use! _ := pragma BUSY in
  use! _ := pragma FOREIGN_KEYS in
  use! _ := (if turso_mvcc self then enable_mvcc else done_ tt) in
  pragmas (on_connect self).

(** [close]. *)
Definition let_go : Use unit := pragmas (on_close self).


(** [using]. *)
Definition own_connection {A} (work : Use A) : Use A := fun engine =>
  match connection engine with
  | (Err error, engine) => dropped (Err error, engine)
  | (Ok _, engine) =>
      let (outcome, engine) := work engine in
      let (closed, engine) := let_go engine in
      dropped (match outcome with
               | Ok held => match closed with Ok _ => Ok held | Err error => Err error end
               | Err error => Err error
               end, engine)
  end.

(** [begin]: concurrently only under MVCC. *)
Definition begin_sql (writing : Writing) : string :=
  match writing with
  | ConcurrentWriting => if turso_mvcc self then "BEGIN CONCURRENT" else "BEGIN"
  | DefaultWriting => "BEGIN"
  end.

Definition begin_ (writing : Writing) : Use unit :=
  use! _ := run_sql (begin_sql writing) [] in done_ tt.

(** [settle]. *)
Definition settle {A} (outcome : result A BackendError) : Use A := fun engine =>
  match outcome with
  | Err error => (Err error, (run_sql "ROLLBACK" [] engine).2)
  | Ok held =>
      match run_sql "COMMIT" [] engine with
      | (Ok _, engine) => (Ok held, engine)
      | (Err error, engine) => (Err error, (run_sql "ROLLBACK" [] engine).2)
      end
  end.

(** The work of a transaction, settled by how it ended. *)
Definition transacted {A} (writing : Writing) (work : Use A) : Use A :=
  use! _ := begin_ writing in
  fun engine => let (outcome, engine) := work engine in settle outcome engine.

(** ** Operations

    [query], [query_dynamic], [scalar_count] and [exists] of the trait. *)
Definition query {T} (from_row : TursoRow -> result T BackendError) (sql : string) (parameters : list Value) :
    Use (list T) := own_connection (fetch_rows from_row sql parameters).

Definition query_dynamic `{RowReaders} (table : option Group) (sql : string) (parameters : list Value) : Use (list Row) :=
  own_connection (fetch_rows (fun row => turso_row row.1 row.2 table) sql parameters).

Definition count_of (rows : list (list Value)) : result Z BackendError :=
  match rows with
  | [] => Ok 0%Z
  | row :: _ =>
      match head row with
      | Some (IntegerValue count) => Ok (count `max` 0)%Z
      | Some other => Err (DecodeFailed (value_debug other +:+ " is not a count"))
      | None => Err (EngineFailed "Index out of range")
      end
  end.

Definition scalar_count (sql : string) (parameters : list Value) : Use Z :=
  own_connection (use! answer := run_sql sql parameters in fun engine => (count_of (answer_rows answer), engine)).

Definition turso_exists (sql : string) (parameters : list Value) : Use bool :=
  use! count := scalar_count sql parameters in done_ (0 <? count)%Z.

(** [gate_user]. *)
Record GateUser := { gate_id : string; gate_admin : bool; gate_disabled : bool }.

Definition named (column : string) : string := quote +:+ column +:+ quote.
Definition GATE_SQL : string :=
  "SELECT " +:+ named "admin" +:+ ", " +:+ named "disabled" +:+ " FROM " +:+ named "users" +:+ " WHERE " +:+
  named "id" +:+ " = ".

Definition flag_of (value : option Value) : result bool BackendError :=
  match value with
  | Some (IntegerValue value) => Ok (negb (value =? 0)%Z)
  | Some other => Err (DecodeFailed (value_debug other +:+ " is not a flag"))
  | None => Err (EngineFailed "Index out of range")
  end.

Definition gate_from (id : string) (rows : list (list Value)) : result (option GateUser) BackendError :=
  match rows with
  | [] => Ok None
  | row :: _ =>
      match flag_of (row !! 0) with
      | Err error => Err error
      | Ok admin =>
          match flag_of (row !! 1) with
          | Err error => Err error
          | Ok disabled => Ok (Some {| gate_id := id; gate_admin := admin; gate_disabled := disabled |})
          end
      end
  end.

Definition turso_gate_user (id : string) : Use (option GateUser) :=
  own_connection (use! answer := run_sql (GATE_SQL +:+ "?") [TextValue id] in fun engine => (gate_from id (answer_rows answer), engine)).

(** [execute_script], [execute_write],
    [query_write], [execute_transaction] and [insert_all]. *)
Definition execute_transaction (writing : Writing) (statements : list (string * list Value)) : Use unit :=
  own_connection (transacted writing (run_each statements)).

Definition turso_execute_script (sql : string) : Use unit :=
  own_connection (transacted DefaultWriting (run_each ((fun statement => (statement, [])) <$> turso_statements sql))).

Definition execute_write (sql : string) (parameters : list Value) : Use Z :=
  own_connection (transacted DefaultWriting (use! answer := run_sql sql parameters in done_ (affected answer))).

Definition query_write {T} (from_row : TursoRow -> result T BackendError) (sql : string) (parameters : list Value) :
    Use (list T) := own_connection (transacted DefaultWriting (fetch_rows from_row sql parameters)).

Fixpoint rendered_batches {S} (render : S -> result (string * list Value) BackendError)
    (batches : list (result (S * Z) string)) : result (list (string * list Value) * Z) BackendError :=
  match batches with
  | [] => Ok ([], 0%Z)
  | Err message :: _ => Err (RefusedWrite message)
  | Ok (statement, rows) :: batches =>
      match render statement with
      | Err error => Err error
      | Ok sql =>
          match rendered_batches render batches with
          | Ok (statements, written) => Ok (sql :: statements, (rows + written)%Z)
          | Err error => Err error
          end
      end
  end.

Definition turso_insert_all {S} (render : S -> result (string * list Value) BackendError) (writing : Writing)
    (batches : list (result (S * Z) string)) : Use Z :=
  match rendered_batches render batches with
  | Err error => fails error
  | Ok (statements, written) => use! _ := execute_transaction writing statements in done_ written
  end.
End turso.

(** ** The [sqlx] backends

    A transaction of a pool's connection, which rolls back where it is dropped
    before its commit, and operations on a connection outside of any. *)
Section sqlx.
Context {V Db : Type} `{!StatementEngine V Db}.

Notation Use := (Use (V := V) (Db := Db)).

Definition pooled {A} (work : Use A) : Use A := fun engine =>
  dropped ((use! _ := call_engine Connects in work) engine).

Definition sqlx_transaction {A} (work : Use A) : Use A :=
  pooled (use! _ := run_sql "BEGIN" [] in
          use! held := work in
          use! _ := run_sql "COMMIT" [] in
          done_ held).

(** [write], [write_records] and [write_entities], whose rows decode once the
    write is committed, and [insert_all]. *)
Definition sqlx_write (sql : string) (parameters : list V) : Use Z :=
  sqlx_transaction (use! answer := run_sql sql parameters in done_ (affected answer)).

Definition sqlx_write_rows {T} (from_row : list string * list V -> result T BackendError) (sql : string) (parameters : list V) :
    Use (list T) :=
  use! answer := sqlx_transaction (run_sql sql parameters) in
  fun engine => (decode_rows from_row (answer_names answer) (answer_rows answer), engine).

Fixpoint insert_batches {S} (render : S -> string * list V) (batches : list (result (S * Z) string)) (written : Z) :
    Use Z :=
  match batches with
  | [] => done_ written
  | Err message :: _ => fails (RefusedWrite message)
  | Ok (statement, rows) :: batches =>
      use! _ := run_sql (render statement).1 (render statement).2 in
      insert_batches render batches (written + rows)%Z
  end.

Definition sqlx_insert_all {S} (render : S -> string * list V) (batches : list (result (S * Z) string)) : Use Z :=
  sqlx_transaction (insert_batches render batches 0).

(** [execute], and reading rows. *)
Definition sqlx_execute (sql : string) (parameters : list V) : Use Z :=
  pooled (use! answer := run_sql sql parameters in done_ (affected answer)).

Definition sqlx_select {T} (from_row : list string * list V -> result T BackendError) (sql : string) (parameters : list V) :
    Use (list T) := pooled (fetch_rows from_row sql parameters).

(** [count] and [exists], of the one row fetched. *)
Definition one_value {A} (read : V -> option A) (rows : list (list V)) : result A BackendError :=
  match rows with
  | [] => Err (EngineFailed "no rows returned by a query that expected to return at least one row")
  | row :: _ =>
      match head row ≫= read with
      | Some held => Ok held
      | None => Err (EngineFailed "error occurred while decoding column 0")
      end
  end.

(** [try_get] of a column as an [i64] and as a [bool]. *)
Context (integer_of : V -> option Z) (boolean_of : V -> option bool).

Definition sqlx_count (sql : string) (parameters : list V) : Use Z :=
  pooled (use! answer := run_sql sql parameters in fun engine =>
    (match one_value integer_of (answer_rows answer) with Ok count => Ok (count `max` 0)%Z | Err error => Err error end, engine)).

Definition sqlx_exists (sql : string) (parameters : list V) : Use bool :=
  pooled (use! answer := run_sql sql parameters in fun engine => (one_value boolean_of (answer_rows answer), engine)).
End sqlx.

(** ** [DatabaseBackend]

    What the store asks of a backend, of its state [E], with statements [S] and
    rows read into [T]; and its implementations. *)
Class DatabaseBackend (E S T : Type) := {
  backend_dialect : SqlDialect;
  overlaps_writers : bool;
  backend_select : S -> E -> result (list T) BackendError * E;
  backend_count : S -> E -> result Z BackendError * E;
  backend_exists : S -> E -> result bool BackendError * E;
  backend_write : S -> E -> result Z BackendError * E;
  backend_write_rows : S -> E -> result (list T) BackendError * E;
  backend_insert_all : Writing -> list (result (S * Z) string) -> E -> result Z BackendError * E
}.

Section backends.
Context {Db S T : Type}.

(** [turso_sql]: a statement rendered, or a value of it the driver does not
    bind. *)
Definition with_sql {A} (turso_sql : S -> result (string * list Value) BackendError) (statement : S)
    (run : string -> list Value -> Use (V := Value) (Db := Db) A) : Use (V := Value) (Db := Db) A :=
  match turso_sql statement with Ok (sql, parameters) => run sql parameters | Err error => fails error end.

Definition turso_backend `{!StatementEngine Value Db} `{ValueTexts} (self : TursoBackend) (to_lowercase : string -> string)
    (turso_sql : S -> result (string * list Value) BackendError) (from_row : TursoRow -> result T BackendError) :
    DatabaseBackend (Engine Value Db) S T := {|
  backend_dialect := SqliteText;
  overlaps_writers := turso_mvcc self;
  backend_select statement := with_sql turso_sql statement (query self to_lowercase from_row);
  backend_count statement := with_sql turso_sql statement (scalar_count self to_lowercase);
  backend_exists statement := with_sql turso_sql statement (turso_exists self to_lowercase);
  backend_write statement := with_sql turso_sql statement (execute_write self to_lowercase);
  backend_write_rows statement := with_sql turso_sql statement (query_write self to_lowercase from_row);
  backend_insert_all := turso_insert_all self to_lowercase turso_sql
|}.

(** The macro's two: SQLite admits one writer at a time, PostgreSQL overlaps
    them. *)
Definition sqlx_backend {V} `{!StatementEngine V Db} (dialect : SqlDialect) (build_sqlx : S -> string * list V)
    (integer_of : V -> option Z) (boolean_of : V -> option bool)
    (from_row : list string * list V -> result T BackendError) : DatabaseBackend (Engine V Db) S T := {|
  backend_dialect := dialect;
  overlaps_writers := match dialect with Postgres => true | SqliteText => false end;
  backend_select statement := sqlx_select from_row (build_sqlx statement).1 (build_sqlx statement).2;
  backend_count statement := sqlx_count integer_of (build_sqlx statement).1 (build_sqlx statement).2;
  backend_exists statement := sqlx_exists boolean_of (build_sqlx statement).1 (build_sqlx statement).2;
  backend_write statement := sqlx_write (build_sqlx statement).1 (build_sqlx statement).2;
  backend_write_rows statement := sqlx_write_rows from_row (build_sqlx statement).1 (build_sqlx statement).2;
  backend_insert_all _ := sqlx_insert_all build_sqlx
|}.
End backends.
