(* ===== verification/TursoFacts.v ===== *)
(** * What a backend's writes leave

    Over the connections of [Turso]: whatever fails, a write lands whole or
    not at all; the statements configured for a connection run before the work
    and after it; and those of the database run once. *)
From S2P Require Import Prelude.
From stdpp Require Import gmap.
From S2P Require Import Text Sql Schema Wire Json Surface Decode Migrations.
From S2P Require Import Turso.
Local Open Scope string_scope.
Local Open Scope list_scope.
Local Open Scope engine_scope.

(** ** Statements on their own *)

Section facts.
Context {V Db : Type} `{!StatementEngine V Db}.
Implicit Types engine : Engine V Db.
Notation Use := (Use (V := V) (Db := Db)).

(** Statements one after another, by the engine alone. *)
Fixpoint run_all (statements : list (string * list V)) (db : Db) : option Db :=
  match statements with
  | [] => Some db
  | (sql, parameters) :: statements =>
      match statement_effect sql parameters db with Ok (_, db) => run_all statements db | Err _ => None end
  end.

(** A statement that is no transaction control. *)
Definition plain_sql (sql : string) : Prop := control_of sql = None.

(** A configured statement that leaves the tables as they are. *)
Definition harmless (sql : string) : Prop :=
  plain_sql sql /\ forall db answer db', statement_effect sql [] db = Ok (answer, db') -> db' = db.

(** No answer to come is lost. *)
Definition faithful engine : Prop := Forall (fun mishap => forall text, mishap <> Some (AnswerLost text)) (mishaps engine).

(** *** What may be said of any computation *)

(** It changes no table and moves no transaction. *)
Definition steady {A} (m : Use A) : Prop :=
  forall engine, committed (m engine).2 = committed engine /\ transaction (m engine).2 = transaction engine /\
    (faithful engine -> faithful (m engine).2) /\ (mishaps engine = [] -> mishaps (m engine).2 = []).

Lemma faithful_tail (mishaps : list (option Fault)) (P : option Fault -> Prop) : Forall P mishaps -> Forall P (tail mishaps).
Proof. by destruct 1. Qed.

Lemma steady_done {A} (a : A) : steady (done_ a).
Proof. by intros engine. Qed.

Lemma steady_fails {A} error : steady (fails (A := A) error).
Proof. by intros engine. Qed.

Lemma steady_then {A B} (m : Use A) (k : A -> Use B) : steady m -> (forall a, steady (k a)) -> steady (use_then m k).
Proof.
  intros Hm Hk engine. specialize (Hm engine). unfold use_then.
  destruct (m engine) as [[a|error] engine1]; [|done]. specialize (Hk a engine1). cbn in *. intuition congruence.
Qed.

Lemma steady_run sql : harmless sql -> steady (run_sql sql []).
Proof.
  intros [Hplain Hquiet] engine. unfold run_sql, call_engine, call_effect. rewrite Hplain.
  pose proof (faithful_tail (mishaps engine)) as Htail.
  assert (mishaps engine = [] -> tail (mishaps engine) = []) as Hnil by (by intros ->).
  destruct (default None (head (mishaps engine))) as [[text|text]|].
  1: { split_and!; [done|done|apply Htail|exact Hnil]. }
  all: unfold seen; cbn [asked transaction committed];
    destruct (statement_effect sql [] _) as [[answer db]|text'] eqn:Heffect;
    [apply Hquiet in Heffect as ->|split_and!; [done|done|apply Htail|exact Hnil]].
  all: unfold put, asked; cbn; destruct (transaction engine) eqn:Htransaction; cbn;
    (split_and!; [done|done|apply Htail|exact Hnil]).
Qed.

(** ** The work of a transaction *)

(** Work that finds a transaction open, and leaves it as [whole] makes of it
    where it succeeds. *)
Definition inside_does {A} (whole : Db -> option Db) (work : Use A) : Prop :=
  forall engine db, transaction engine = Some db ->
    committed (work engine).2 = committed engine /\ (faithful engine -> faithful (work engine).2) /\
    (mishaps engine = [] -> mishaps (work engine).2 = []) /\
    (is_ok (work engine).1 = true -> exists db', whole db = Some db' /\ transaction (work engine).2 = Some db') /\
    (mishaps engine = [] -> is_Some (whole db) -> is_ok (work engine).1 = true).

(** What a computation that finds no transaction open comes to: whole or not
    at all; whole where it succeeds; not at all where it fails, if it is [clean]
    and no answer is lost on the way; and without faults, if it [works], it
    succeeds where the whole does. *)
Definition lands {A} (clean works : Prop) (whole : Db -> option Db) (m : Use A) : Prop :=
  forall engine, transaction engine = None ->
    (committed (m engine).2 = committed engine \/ whole (committed engine) = Some (committed (m engine).2)) /\
    (is_ok (m engine).1 = true -> whole (committed engine) = Some (committed (m engine).2)) /\
    (is_ok (m engine).1 = false -> clean -> faithful engine -> committed (m engine).2 = committed engine) /\
    (mishaps engine = [] -> works -> mishaps (m engine).2 = [] /\
      (is_ok (m engine).1 = true <-> is_Some (whole (committed engine)))).

Lemma rollback_steady engine : committed (run_sql "ROLLBACK" [] engine).2 = committed engine /\
  (mishaps engine = [] -> mishaps (run_sql "ROLLBACK" [] engine).2 = []).
Proof.
  unfold run_sql, call_engine, call_effect. cbn.
  assert (mishaps engine = [] -> tail (mishaps engine) = []) as Hnil by (by intros ->).
  destruct (default None (head (mishaps engine))) as [[text|text]|]; destruct (transaction engine); cbn; done.
Qed.

Lemma commit_cases engine db :
  transaction engine = Some db ->
  let ended := run_sql "COMMIT" [] engine in
  is_ok ended.1 = true /\ committed ended.2 = db /\ (mishaps engine = [] -> mishaps ended.2 = []) \/
  is_ok ended.1 = false /\ mishaps engine <> [] /\
    (committed ended.2 = committed engine \/ committed ended.2 = db /\ ~ faithful engine).
Proof.
  intros Hdb. unfold run_sql, call_engine, call_effect, faithful. change (control_of "COMMIT") with (Some Commits).
  cbn [asked transaction]. rewrite Hdb.
  destruct (mishaps engine) as [|[[text|text]|] rest] eqn:Hmishaps; cbn.
  - left. by rewrite Hmishaps.
  - right. split_and!; [done|done|by left].
  - right. split_and!; [done|done|]. right. split; [done|]. intros [Hlost _]%Forall_cons. by destruct (Hlost text).
  - left. by rewrite Hmishaps.
Qed.

Lemma begin_cases sql engine :
  control_of sql = Some Begins \/ control_of sql = Some BeginsConcurrently -> transaction engine = None ->
  let ended := run_sql sql [] engine in
  committed ended.2 = committed engine /\ (faithful engine -> faithful ended.2) /\
  (mishaps engine = [] -> mishaps ended.2 = [] /\ is_ok ended.1 = true) /\
  (is_ok ended.1 = true -> transaction ended.2 = Some (committed engine)).
Proof.
  intros Hbegin Hnone. unfold run_sql, call_engine, call_effect, faithful. cbn [asked transaction]. rewrite Hnone.
  pose proof (faithful_tail (mishaps engine)) as Htail.
  assert (mishaps engine = [] -> tail (mishaps engine) = []) as Hnil by (by intros ->).
  destruct Hbegin as [-> | ->]; destruct (mishaps engine) as [|[[text|text]|] rest] eqn:Hmishaps; cbn;
    rewrite ?Hmishaps; split_and!; try done; try (by intros []%Forall_cons).
Qed.

(** ** A connection of its own *)

(** What sets a connection up: it finds no transaction open and leaves none,
    and the tables as they are; without faults it succeeds, if it [works]. *)
Definition prepares {A} (works : Prop) (m : Use A) : Prop :=
  forall engine, transaction engine = None ->
    committed (m engine).2 = committed engine /\ transaction (m engine).2 = None /\
    (faithful engine -> faithful (m engine).2) /\
    (mishaps engine = [] -> mishaps (m engine).2 = [] /\ (works -> is_ok (m engine).1 = true)).

Lemma prepares_then {A B} works (m : Use A) (k : A -> Use B) :
  prepares works m -> (forall a, prepares works (k a)) -> prepares works (use_then m k).
Proof.
  intros Hm Hk engine Hnone. destruct (Hm engine Hnone) as (Hcommitted & Hidle & Hfaithful & Hnil). unfold use_then.
  destruct (m engine) as [[a|error] engine1]; cbn [fst snd is_ok] in *; [|by split_and!].
  destruct (Hk a engine1 Hidle) as (Hcommitted2 & Hidle2 & Hfaithful2 & Hnil2).
  split_and!; [congruence|done|by auto|]. intros Hmishaps. by apply Hnil2, Hnil.
Qed.

Lemma prepares_done {A} works (a : A) : prepares works (done_ a).
Proof. by intros engine. Qed.

Lemma prepares_steady {A} (works : Prop) (m : Use A) :
  steady m -> (works -> forall engine, mishaps engine = [] -> is_ok (m engine).1 = true) -> prepares works m.
Proof.
  intros Hm Hok engine Hnone. destruct (Hm engine) as (Hcommitted & Hsame & Hfaithful & Hnil).
  split_and!; [done|congruence|done|]. intros Hmishaps. split; [by apply Hnil|]. intros Hworks. by apply Hok.
Qed.

Lemma prepares_call works call :
  call = Builds \/ call = Connects -> prepares works (call_engine call).
Proof.
  intros Hcall engine Hnone. unfold call_engine.
  pose proof (faithful_tail (mishaps engine)) as Htail. unfold faithful.
  destruct (mishaps engine) as [|[[text|text]|] rest] eqn:Hmishaps; destruct Hcall as [-> | ->]; cbn; rewrite ?Hmishaps;
    split_and!; try done; intros Hall; by apply Htail.
Qed.

(** The engine answers a configured statement. *)
Definition answers (sql : string) : Prop := forall db, exists answer, statement_effect sql [] db = Ok (answer, db).

End facts.

Section backend.
Context {Db : Type} `{!StatementEngine Value Db} `{ValueTexts} (self : TursoBackend) (to_lowercase : string -> string).
Implicit Types engine : Engine Value Db.
Notation Use := (Use (V := Value) (Db := Db)).

(** [settle] of work in its transaction. *)
Lemma settle_spec {A} (outcome : result A BackendError) engine :
  (is_ok outcome = true -> is_Some (transaction engine)) ->
  let ended := settle outcome engine in
  (committed ended.2 = committed engine \/ is_ok outcome = true /\ transaction engine = Some (committed ended.2)) /\
  (is_ok ended.1 = true -> is_ok outcome = true /\ transaction engine = Some (committed ended.2)) /\
  (is_ok ended.1 = false -> faithful engine -> committed ended.2 = committed engine) /\
  (mishaps engine = [] -> mishaps ended.2 = [] /\ is_ok ended.1 = is_ok outcome).
Proof.
  intros Hopen. unfold settle. destruct outcome as [held|error].
  2: { destruct (rollback_steady engine) as [Hrolled Hnil]. cbn. split_and!; [by left|done|done|].
       intros Hmishaps. by split; [apply Hnil|]. }
  destruct (Hopen eq_refl) as [db Hdb]. pose proof (commit_cases engine db Hdb) as Hcommit. cbn zeta in *.
  destruct (run_sql "COMMIT" [] engine) as [[answer|error] engine1]; cbn [fst snd is_ok] in *.
  - destruct Hcommit as [(_ & <- & Hnil)|(? & _)]; [|done]. rewrite Hdb. split_and!; [by right|done|done|].
    intros Hmishaps. by split; [apply Hnil|].
  - destruct Hcommit as [(? & _)|(_ & Hmishaps & Hleft)]; [done|].
    destruct (rollback_steady engine1) as [Hrolled _]. rewrite Hrolled, Hdb. split_and!; [|done| |done].
    + destruct Hleft as [->|[-> _]]; [by left|by right].
    + intros _ Hfaithful. by destruct Hleft as [->|[_ ?]].
Qed.

Lemma begins writing :
  control_of (begin_sql self writing) = Some Begins \/ control_of (begin_sql self writing) = Some BeginsConcurrently.
Proof. destruct writing; cbn; [by left|]. destruct (turso_mvcc self); [by right|by left]. Qed.

Lemma transacted_lands {A} writing whole (work : Use A) :
  inside_does whole work -> lands True True whole (transacted self writing work).
Proof.
  intros Hwork engine Hnone. unfold transacted, begin_, use_then.
  pose proof (begin_cases _ engine (begins writing) Hnone) as (Hkept & Hfaithful & Hnil & Hopen). cbn zeta in *.
  destruct (run_sql (begin_sql self writing) [] engine) as [[answer|error] engine1]; cbn [fst snd is_ok done_] in *.
  2: { split_and!; [by left|done|done|]. intros Hmishaps _. by destruct (Hnil Hmishaps). }
  specialize (Hopen eq_refl). destruct (Hwork engine1 (committed engine) Hopen) as (Hcommitted & Hlossless & Hspent & Hdone & Hsucceeds).
  destruct (work engine1) as [outcome engine2]; cbn [fst snd] in *.
  pose proof (settle_spec outcome engine2 ltac:(intros Hok; destruct (Hdone Hok) as (db' & _ & ->); by eexists))
    as (Hwhole & Hok & Herr & Hclean). cbn zeta in *.
  rewrite Hcommitted, Hkept in *. split_and!.
  - destruct Hwhole as [Hwhole|[Hdid Hwhole]]; [by left|]. right. destruct (Hdone Hdid) as (db' & Hdb' & Hheld). congruence.
  - intros [Hdid Hwhole']%Hok. destruct (Hdone Hdid) as (db' & Hdb' & Hheld). congruence.
  - intros Hbad _ Hgood. rewrite (Herr Hbad); [done|]. by apply Hlossless, Hfaithful.
  - intros Hmishaps _. destruct (Hnil Hmishaps) as [Hmishaps1 _]. destruct (Hclean (Hspent Hmishaps1)) as [Hmishaps2 Hsame].
    split; [done|]. rewrite Hsame. split; [intros (db' & -> & _)%Hdone; by eexists|by apply Hsucceeds].
Qed.

Lemma steady_pragma sql : harmless sql -> steady (pragma sql).
Proof. intros Hsql. apply steady_then; [by apply steady_run|intros; apply steady_done]. Qed.

Lemma steady_pragmas statements : Forall harmless statements -> steady (pragmas statements).
Proof.
  induction 1 as [|sql statements Hsql Hall IH]; [apply steady_done|].
  by apply steady_then; [apply steady_pragma|].
Qed.

Lemma pragma_answers sql engine :
  plain_sql sql -> answers sql -> mishaps engine = [] ->
  exists answer, statement_effect sql [] (seen engine) = Ok (answer, seen engine) /\
    (pragma sql engine).1 = Ok (head (omap head (answer_rows answer))).
Proof.
  intros Hplain Hanswers Hmishaps. destruct (Hanswers (seen engine)) as [answer Hanswer]. exists answer.
  split; [done|]. unfold pragma, use_then, run_sql, call_engine, call_effect. rewrite Hplain, Hmishaps. cbn [head default asked].
  change (seen _) with (seen engine). by rewrite Hanswer.
Qed.

Lemma pragmas_answer statements engine :
  Forall harmless statements -> Forall answers statements -> mishaps engine = [] ->
  is_ok (pragmas statements engine).1 = true.
Proof.
  intros Hall. revert engine. induction Hall as [|sql statements Hsql Hall IH]; intros engine Hanswers Hmishaps; [done|].
  apply Forall_cons in Hanswers as [Hanswer Hanswers].
  destruct (pragma_answers sql engine (proj1 Hsql) Hanswer Hmishaps) as (answer & _ & Hfirst).
  destruct (steady_pragma sql Hsql engine) as (_ & _ & _ & Hspent).
  cbn [pragmas]. unfold use_then at 1. destruct (pragma sql engine) as [[first|] engine1]; [|done]. by apply IH; [|apply Hspent].
Qed.

Lemma prepares_pragma (works : Prop) sql :
  harmless sql -> (works -> answers sql) -> prepares works (pragma sql).
Proof.
  intros Hsql Hanswers. apply prepares_steady; [by apply steady_pragma|]. intros Hworks engine Hmishaps.
  destruct (pragma_answers sql engine (proj1 Hsql) (Hanswers Hworks) Hmishaps) as (answer & _ & ->). done.
Qed.

Lemma prepares_pragmas (works : Prop) statements :
  Forall harmless statements -> (works -> Forall answers statements) -> prepares works (pragmas statements).
Proof.
  intros Hall Hanswers. apply prepares_steady; [by apply steady_pragmas|]. intros Hworks engine Hmishaps.
  by apply pragmas_answer; [|apply Hanswers|].
Qed.

(** Every statement configured or sent to set a connection up. *)
Definition setup_statements : list string := on_init self ++ [BUSY; FOREIGN_KEYS; JOURNAL] ++ on_connect self ++ on_close self.

(** An engine that answers each, and takes the journaling asked of it. *)
Definition reported (answer : Answer Value) : string :=
  match head (omap head (answer_rows answer)) with Some (TextValue text) => to_lowercase text | _ => "" end.
Definition well_configured : Prop :=
  Forall answers setup_statements /\
  (turso_mvcc self = true -> forall db answer, statement_effect JOURNAL [] db = Ok (answer, db) -> reported answer = "mvcc").

Context (Hsetup : Forall harmless setup_statements).

Lemma setup_parts (P : string -> Prop) :
  Forall P setup_statements -> Forall P (on_init self) /\ P BUSY /\ P FOREIGN_KEYS /\ P JOURNAL /\
    Forall P (on_connect self) /\ Forall P (on_close self).
Proof. unfold setup_statements. rewrite !Forall_app, !Forall_cons. tauto. Qed.

Lemma prepares_build works : prepares (V := Value) (Db := Db) works build.
Proof.
  intros engine Hnone. unfold build. destruct (built engine); [by split_and!|].
  revert engine Hnone. apply prepares_then; [apply prepares_call; by left|]. intros _. apply prepares_done.
Qed.

Lemma prepares_start : prepares (V := Value) (Db := Db) well_configured (start self).
Proof.
  destruct (setup_parts _ Hsetup) as (Hinit & _). intros engine Hnone. unfold start. destruct (started engine); [by split_and!|].
  assert (prepares (V := Value) (Db := Db) well_configured (pragmas (on_init self))) as Hpragmas.
  { apply prepares_pragmas; [done|]. intros [Hall _]. by apply setup_parts in Hall as [? _]. }
  revert engine Hnone. apply prepares_then; [done|]. intros _ engine Hnone. by split_and!.
Qed.

Lemma prepares_mvcc : turso_mvcc self = true -> prepares (V := Value) (Db := Db) well_configured (enable_mvcc to_lowercase).
Proof.
  intros Hmvcc. destruct (setup_parts _ Hsetup) as (_ & _ & _ & Hjournal & _). unfold enable_mvcc. apply prepares_steady.
  - apply steady_then; [by apply steady_pragma|]. intros mode. case_decide; [apply steady_done|apply steady_fails].
  - intros [Hall Hmode] engine Hmishaps. apply setup_parts in Hall as (_ & _ & _ & Hanswers & _).
    destruct (pragma_answers JOURNAL engine (proj1 Hjournal) Hanswers Hmishaps) as (answer & Heffect & Hfirst).
    apply Hmode in Heffect; [|done]. unfold use_then.
    destruct (pragma JOURNAL engine) as [[mode|] engine1]; cbn [fst] in Hfirst; [|done]. injection Hfirst as ->.
    unfold reported in Heffect. by rewrite decide_True.
Qed.

Lemma prepares_connection : prepares (V := Value) (Db := Db) well_configured (connection self to_lowercase).
Proof.
  destruct (setup_parts _ Hsetup) as (_ & Hbusy & Hforeign & _ & Hconnect & _).
  assert (well_configured -> Forall answers (on_connect self) /\ answers BUSY /\ answers FOREIGN_KEYS) as Hworks.
  { intros [Hall _]. apply setup_parts in Hall. tauto. }
  unfold connection. apply prepares_then; [apply prepares_build|intros _].
  apply prepares_then; [apply prepares_call; by right|intros _]. apply prepares_then; [apply prepares_start|intros _].
  apply prepares_then; [apply prepares_pragma; tauto|intros _]. apply prepares_then; [apply prepares_pragma; tauto|intros _].
  apply prepares_then; [|intros _; apply prepares_pragmas; tauto].
  destruct (turso_mvcc self) eqn:Hmvcc; [by apply prepares_mvcc|apply prepares_done].
Qed.

Lemma own_connection_idle {A} (work : Use A) engine :
  transaction (own_connection self to_lowercase work engine).2 = None.
Proof.
  unfold own_connection. destruct (connection self to_lowercase engine) as [[?|?] engine1]; [|done].
  destruct (work engine1) as [outcome engine2]. by destruct (let_go self engine2).
Qed.

(** [using]: what the work comes to, but for a [close] statement that fails
    once the work has landed. *)
Lemma own_connection_lands {A} (clean works : Prop) whole (work : Use A) :
  lands clean works whole work ->
  lands (clean /\ on_close self = []) (works /\ well_configured) whole (own_connection self to_lowercase work).
Proof.
  intros Hwork engine Hnone. unfold own_connection.
  destruct (prepares_connection engine Hnone) as (Hkept & Hidle & Hfaithful & Hnil).
  destruct (connection self to_lowercase engine) as [[[]|error] engine1]; cbn [fst snd is_ok dropped] in *.
  2: { cbn. split_and!; [by left|done|done|]. intros Hmishaps [_ Hworks]. destruct (Hnil Hmishaps) as [_ Hok].
       by specialize (Hok Hworks). }
  destruct (Hwork engine1 Hidle) as (Hwhole & Hok & Herr & Hclean).
  destruct (work engine1) as [outcome engine2]; cbn [fst snd] in *.
  destruct (setup_parts _ Hsetup) as (_ & _ & _ & _ & _ & Hclosing).
  pose proof (steady_pragmas _ Hclosing engine2) as (Hkept2 & _ & _ & Hnil2). unfold let_go.
  assert (well_configured -> mishaps engine2 = [] -> is_ok (pragmas (on_close self) engine2).1 = true) as Hcloses.
  { intros [Hall _] Hmishaps. apply setup_parts in Hall as (_ & _ & _ & _ & _ & Hanswers). by apply pragmas_answer. }
  assert (on_close self = [] -> is_ok (pragmas (on_close self) engine2).1 = true) as Hnone2 by (by intros ->).
  destruct (pragmas (on_close self) engine2) as [closed engine3]; cbn [fst snd dropped with_transaction committed mishaps] in *.
  rewrite Hkept2, Hkept in *. split_and!.
  - exact Hwhole.
  - destruct outcome; [|done]. by destruct closed; [apply Hok|].
  - intros Hbad [Hpure Hno] Hgood. apply Herr; [|done|by apply Hfaithful].
    destruct outcome; [|done]. destruct closed; [done|]. by specialize (Hnone2 Hno).
  - intros Hmishaps [Hworks Hconfigured]. destruct (Hnil Hmishaps) as [Hmishaps1 _].
    destruct (Hclean Hmishaps1 Hworks) as [Hmishaps2 Hiff]. split; [by apply Hnil2|]. rewrite <- Hiff.
    specialize (Hcloses Hconfigured Hmishaps2). by destruct outcome, closed.
Qed.
End backend.

(** ** Work inside a transaction *)

Section work.
Context {V Db : Type} `{!StatementEngine V Db}.
Implicit Types engine : Engine V Db.
Notation Use := (Use (V := V) (Db := Db)).

Lemma inside_then {A B} (first : Db -> option Db) (rest : Db -> option Db) (m : Use A) (k : A -> Use B) :
  inside_does first m -> (forall a, inside_does rest (k a)) -> inside_does (fun db => first db ≫= rest) (use_then m k).
Proof.
  intros Hm Hk engine db Hdb. destruct (Hm engine db Hdb) as (Hkept & Hfaithful & Hnil & Hdone & Hsucceeds). unfold use_then.
  destruct (m engine) as [[a|error] engine1]; cbn [fst snd is_ok] in *.
  - destruct (Hdone eq_refl) as (db1 & Hdb1 & Hheld).
    destruct (Hk a engine1 db1 Hheld) as (Hkept2 & Hfaithful2 & Hnil2 & Hdone2 & Hsucceeds2). rewrite Hdb1. cbn [mbind option_bind].
    split_and!; [congruence|by auto|by auto|done|by auto].
  - split_and!; [done|done|done|done|]. intros Hmishaps [db2 Hdb2]. apply Hsucceeds; [done|].
    destruct (first db); [by eexists|done].
Qed.

Lemma inside_done {A} (a : A) : inside_does Some (done_ (V := V) (Db := Db) a).
Proof. intros engine db Hdb. split_and!; try done. intros _. by exists db. Qed.

Definition effect_of (sql : string) (parameters : list V) (db : Db) : option Db :=
  match statement_effect sql parameters db with Ok (_, db) => Some db | Err _ => None end.

Lemma inside_run sql parameters : plain_sql sql -> inside_does (effect_of sql parameters) (run_sql sql parameters).
Proof.
  intros Hplain engine db Hdb. unfold run_sql, call_engine, call_effect, faithful, effect_of. rewrite Hplain.
  assert (seen (asked (Runs sql parameters) engine) = db) as -> by (unfold seen; cbn; by rewrite Hdb).
  pose proof (faithful_tail (mishaps engine)) as Htail.
  destruct (statement_effect sql parameters db) as [[answer db1]|text'];
    destruct (mishaps engine) as [|[[text|text]|] rest] eqn:Hmishaps; cbn in *; unfold put; cbn; rewrite ?Hdb; cbn; rewrite ?Hmishaps.
  all: split_and!; try done; try (by apply Htail); try (by intros _; exists db1); try (by intros ? []).
Qed.

Lemma inside_ext {A} (whole whole' : Db -> option Db) (m : Use A) :
  (forall db, whole db = whole' db) -> inside_does whole m -> inside_does whole' m.
Proof.
  intros Hsame Hm engine db Hdb. destruct (Hm engine db Hdb) as (Hkept & Hfaithful & Hnil & Hdone & Hsucceeds).
  split_and!; [done|done|done| |by rewrite <- Hsame]. intros (db' & Hdb' & Hheld)%Hdone. exists db'. by rewrite <- Hsame.
Qed.

Lemma inside_each statements :
  Forall (fun statement => plain_sql statement.1) statements -> inside_does (run_all statements) (run_each statements).
Proof.
  induction 1 as [|[sql parameters] statements Hsql Hall IH]; [apply inside_done|]. cbn [run_each run_all].
  eapply inside_ext; [|by apply inside_then; [apply inside_run|]].
  intros db. unfold effect_of. by destruct (statement_effect sql parameters db) as [[? ?]|].
Qed.

Lemma inside_write sql parameters :
  plain_sql sql -> inside_does (effect_of sql parameters) (use! answer := run_sql sql parameters in done_ (affected answer)).
Proof.
  intros Hsql. eapply inside_ext; [|by apply inside_then; [apply inside_run|intros ?; apply inside_done]].
  intros db. cbn. by destruct (effect_of sql parameters db).
Qed.

(** A write whose rows all decode. *)
Definition read_effect {T} (from_row : list string * list V -> result T BackendError) (sql : string) (parameters : list V)
    (db : Db) : option Db :=
  match statement_effect sql parameters db with
  | Ok (answer, db) => if is_ok (decode_rows from_row (answer_names answer) (answer_rows answer)) then Some db else None
  | Err _ => None
  end.

Lemma run_sql_answer sql parameters engine db answer engine' :
  plain_sql sql -> transaction engine = Some db -> run_sql sql parameters engine = (Ok answer, engine') ->
  exists db', statement_effect sql parameters db = Ok (answer, db').
Proof.
  intros Hplain Hdb. unfold run_sql, call_engine, call_effect. rewrite Hplain.
  assert (seen (asked (Runs sql parameters) engine) = db) as -> by (unfold seen; cbn; by rewrite Hdb).
  destruct (statement_effect sql parameters db) as [[answer' db']|text];
    destruct (default None (head (mishaps engine))) as [[?|?]|]; cbn; intros [=]; subst; by eexists.
Qed.

Lemma inside_read {T} (from_row : list string * list V -> result T BackendError) sql parameters :
  plain_sql sql -> inside_does (read_effect from_row sql parameters) (fetch_rows from_row sql parameters).
Proof.
  intros Hsql engine db Hdb. destruct (inside_run sql parameters Hsql engine db Hdb) as (Hkept & Hfaithful & Hnil & Hdone & Hsucceeds).
  pose proof (run_sql_answer sql parameters engine db) as Hanswer. unfold fetch_rows, use_then, read_effect, effect_of in *.
  destruct (run_sql sql parameters engine) as [[answer|error] engine1]; cbn [fst snd is_ok] in *.
  - destruct (Hanswer answer engine1 Hsql Hdb eq_refl) as [db1 Heffect]. rewrite Heffect in *.
    destruct (Hdone eq_refl) as (db2 & [= <-] & Hheld).
    cbn [fst snd]. split_and!; [done|done|done| |].
    + intros ->. by exists db1.
    + intros _ [db' Hdb']. by destruct (is_ok _).
  - split_and!; [done|done|done|done|]. intros Hmishaps [db' Hdb']. apply Hsucceeds; [done|].
    by destruct (statement_effect sql parameters db) as [[? ?]|]; [eexists|].
Qed.

(** [insert_all] over what a pool runs: a refused batch leaves nothing. *)
Fixpoint batches_effect {S} (render : S -> string * list V) (batches : list (result (S * Z) string)) (db : Db) : option Db :=
  match batches with
  | [] => Some db
  | Err _ :: _ => None
  | Ok (statement, _) :: batches =>
      effect_of (render statement).1 (render statement).2 db ≫= batches_effect render batches
  end.

Definition plain_batch {S} (render : S -> string * list V) (batch : result (S * Z) string) : Prop :=
  match batch with Ok (statement, _) => plain_sql (render statement).1 | Err _ => True end.

Lemma inside_fails {A} error : inside_does (fun _ => None) (fails (V := V) (Db := Db) (A := A) error).
Proof. intros engine db Hdb. split_and!; try done. Qed.

Lemma inside_batches {S} (render : S -> string * list V) batches written :
  Forall (plain_batch render) batches -> inside_does (batches_effect render batches) (insert_batches render batches written).
Proof.
  intros Hall. revert written. induction Hall as [|[[statement rows]|message] batches Hsql Hall IH]; intros written.
  - apply inside_done.
  - cbn [batches_effect insert_batches]. by apply inside_then; [apply inside_run|].
  - apply inside_fails.
Qed.

(** ** Pools *)

Lemma sqlx_lands {A} whole (work : Use A) : inside_does whole work -> lands True True whole (sqlx_transaction work).
Proof.
  intros Hwork engine Hnone. unfold sqlx_transaction, pooled, dropped.
  assert (forall work : Use A, (use! _ := call_engine Connects in work) engine =
    match call_engine Connects engine with (Ok _, engine) => work engine | (Err error, engine) => (Err error, engine) end)
    as Hconnect by done.
  rewrite Hconnect. clear Hconnect.
  pose proof (prepares_call True Connects ltac:(by right) engine Hnone) as (Hkept & Hidle & Hfaithful & Hnil).
  destruct (call_engine Connects engine) as [[?|error] engine1]; cbn [fst snd is_ok with_transaction committed mishaps] in *.
  2: { split_and!; [by left|done|done|]. intros Hmishaps _. by destruct (Hnil Hmishaps) as [_ Hok]; specialize (Hok I). }
  unfold use_then.
  pose proof (begin_cases "BEGIN" engine1 ltac:(by left) Hidle) as (Hkept1 & Hfaithful1 & Hnil1 & Hopen). cbn zeta in *.
  destruct (run_sql "BEGIN" [] engine1) as [[?|error] engine2]; cbn [fst snd is_ok with_transaction committed mishaps] in *.
  2: { rewrite Hkept1, Hkept. split_and!; [by left|done|done|]. intros Hmishaps _. by destruct (Hnil1 (proj1 (Hnil Hmishaps))). }
  destruct (Hwork engine2 _ (Hopen eq_refl)) as (Hkept2 & Hfaithful2 & Hnil2 & Hdone & Hsucceeds).
  rewrite Hkept1, Hkept in *.
  destruct (work engine2) as [[held|error] engine3]; cbn [fst snd is_ok with_transaction committed mishaps] in *.
  2: { rewrite Hkept2. split_and!; [by left|done|done|]. intros Hmishaps _.
       pose proof (proj1 (Hnil1 (proj1 (Hnil Hmishaps)))) as Hmishaps2. split; [by apply Hnil2|].
       split; [done|]. intros Hsome. by specialize (Hsucceeds Hmishaps2 Hsome). }
  destruct (Hdone eq_refl) as (db & Hdb & Hheld).
  pose proof (commit_cases engine3 db Hheld) as Hcommit. cbn zeta in *.
  destruct (run_sql "COMMIT" [] engine3) as [[?|error] engine4]; cbn [fst snd is_ok done_ with_transaction committed mishaps] in *.
  - destruct Hcommit as [(_ & -> & Hspent)|(? & _)]; [|done]. split_and!; [by right|done|done|].
    intros Hmishaps _. split; [by apply Hspent, Hnil2, Hnil1, Hnil|]. split; [by eexists|done].
  - destruct Hcommit as [(? & _)|(_ & Hmishaps & Hleft)]; [done|]. rewrite Hkept2 in *. split_and!.
    + destruct Hleft as [->|[-> _]]; [by left|by right].
    + done.
    + intros _ _ Hgood. destruct Hleft as [?|[_ Hlost]]; [done|]. by destruct Hlost; apply Hfaithful2, Hfaithful1, Hfaithful.
    + intros Hmishaps0 _. by destruct Hmishaps; apply Hnil2, Hnil1, Hnil.
Qed.
End work.

(** ** What a backend promises of its writes *)

(** A computation over a backend's state: its tables as they were or as
    [whole] makes them, and as [whole] makes them where it succeeds. *)
Definition lands_on {E A Db} (contents : E -> Db) (quiescent : E -> Prop) (whole : Db -> option Db)
    (m : E -> result A BackendError * E) : Prop :=
  forall e, quiescent e -> quiescent (m e).2 /\
    (contents (m e).2 = contents e \/ whole (contents e) = Some (contents (m e).2)) /\
    (is_ok (m e).1 = true -> whole (contents e) = Some (contents (m e).2)).

Class LawfulBackend (E S T Db : Type) `{!DatabaseBackend E S T} := {
  contents : E -> Db;
  quiescent : E -> Prop;
  statement_lands : S -> Db -> option Db;
  write_law statement : lands_on contents quiescent (statement_lands statement) (backend_write statement);
  write_rows_law statement e : quiescent e -> quiescent (backend_write_rows statement e).2 /\
    (contents (backend_write_rows statement e).2 = contents e \/
     statement_lands statement (contents e) = Some (contents (backend_write_rows statement e).2)) /\
    (is_ok (backend_write_rows statement e).1 = true ->
     statement_lands statement (contents e) = Some (contents (backend_write_rows statement e).2))
}.

Section turso.
Context {Db S T : Type} `{!StatementEngine Value Db} `{ValueTexts} (self : TursoBackend) (to_lowercase : string -> string).
Context (turso_sql : S -> result (string * list Value) BackendError) (from_row : TursoRow -> result T BackendError).
Context (Hsetup : Forall (harmless (V := Value) (Db := Db)) (setup_statements self)).
(** No statement rendered is transaction control. *)
Context (Hplain : forall statement sql parameters, turso_sql statement = Ok (sql, parameters) -> plain_sql sql).
Implicit Types engine : Engine Value Db.

(** What a statement makes of the tables, and a load's batches. *)
Definition turso_lands (statement : S) (db : Db) : option Db :=
  match turso_sql statement with Ok (sql, parameters) => effect_of sql parameters db | Err _ => None end.

Definition turso_load_lands (batches : list (result (S * Z) string)) (db : Db) : option Db :=
  match rendered_batches turso_sql batches with Ok (statements, _) => run_all statements db | Err _ => None end.

Lemma rendered_plain batches statements written :
  rendered_batches turso_sql batches = Ok (statements, written) ->
  Forall (fun statement : string * list Value => plain_sql statement.1) statements.
Proof.
  revert statements written. induction batches as [|[[statement rows]|message] batches IH]; intros statements written; cbn [rendered_batches].
  - by intros [= <- _].
  - destruct (turso_sql statement) as [[sql parameters]|] eqn:Hsql; [|done].
    destruct (rendered_batches turso_sql batches) as [[rest count]|]; [|done]. intros [= <- _].
    constructor; [by eapply Hplain|by eapply IH].
  - done.
Qed.


Lemma own_lands_on {A} clean works whole (work : Use (V := Value) (Db := Db) A) :
  lands clean works whole work ->
  lands_on committed (fun engine => transaction engine = None) whole (own_connection self to_lowercase work).
Proof.
  intros Hwork engine Hnone. split; [apply own_connection_idle|].
  destruct (own_connection_lands self to_lowercase Hsetup clean works whole work Hwork engine Hnone) as (? & ? & _).
  by split.
Qed.

(** Its writes keep the backend's promise: a write whose rows do not decode
    rolls back. *)
#[export] Instance turso_lawful : LawfulBackend (Engine Value Db) S T Db
    (DatabaseBackend0 := turso_backend self to_lowercase turso_sql from_row).
Proof.
  refine {| contents := committed; quiescent engine := transaction engine = None; statement_lands := turso_lands |}.
  - intros statement engine Hnone. cbn. unfold turso_lands, with_sql.
    destruct (turso_sql statement) as [[sql parameters]|error] eqn:Hsql; [|by split_and!; [|left|]].
    eapply own_lands_on; [|done]. apply transacted_lands, inside_write. by eapply Hplain.
  - intros statement engine Hnone. cbn. unfold turso_lands, with_sql.
    destruct (turso_sql statement) as [[sql parameters]|error] eqn:Hsql; [|by split_and!; [|left|]].
    assert (forall db db', read_effect from_row sql parameters db = Some db' -> effect_of sql parameters db = Some db') as Hread.
    { intros db db'. unfold read_effect, effect_of. destruct (statement_effect sql parameters db) as [[? ?]|]; [|done].
      by destruct (is_ok _). }
    edestruct (own_lands_on True True (read_effect from_row sql parameters)
      (transacted self DefaultWriting (fetch_rows from_row sql parameters))) as (Hidle & Hwhole & Hok).
    + apply transacted_lands, inside_read. by eapply Hplain.
    + exact Hnone.
    + unfold query_write. split_and!; [exact Hidle| |by intros ?%Hok%Hread]. destruct Hwhole as [?|?%Hread]; [by left|by right].
Defined.
End turso.

(** ** The order of a connection's statements *)

Section order.
Context {Db : Type} `{!StatementEngine Value Db} `{ValueTexts} (self : TursoBackend) (to_lowercase : string -> string).
Implicit Types engine : Engine Value Db.
Notation Use := (Use (V := Value) (Db := Db)).
Notation Call := (Call Value).

(** It asks a sequence of calls, or the start of it where it fails. *)
Definition asks_at {A} engine (sequence : list Call) (m : Use A) : Prop :=
  exists ran, ran `prefix_of` sequence /\ calls (m engine).2 = calls engine ++ ran /\
    (is_ok (m engine).1 = true -> ran = sequence).

(** It leaves the cells of the backend as they are. *)
Definition keeps_cells {A} (m : Use A) : Prop := forall engine, started (m engine).2 = started engine.

Lemma asks_then {A B} engine first rest (m : Use A) (k : A -> Use B) :
  asks_at engine first m -> (forall a engine1, m engine = (Ok a, engine1) -> asks_at engine1 rest (k a)) ->
  asks_at engine (first ++ rest) (use_then m k).
Proof.
  intros (ran & Hprefix & Hcalls & Hok) Hk. unfold asks_at, use_then.
  destruct (m engine) as [[a|error] engine1] eqn:Hm; cbn [fst snd is_ok] in *.
  - rewrite (Hok eq_refl) in *. destruct (Hk a engine1 eq_refl) as (ran2 & Hprefix2 & Hcalls2 & Hok2).
    exists (first ++ ran2). rewrite Hcalls2, Hcalls. split_and!; [by apply prefix_app|by rewrite app_assoc|].
    by intros ->%Hok2.
  - exists ran. split_and!; [by apply prefix_app_r|done|done].
Qed.

Lemma asks_done {A} engine (a : A) : asks_at engine [] (done_ a).
Proof. exists []. by rewrite app_nil_r. Qed.

Lemma asks_call engine call : asks_at engine [call] (call_engine call) /\ started (call_engine call engine).2 = started engine.
Proof.
  assert (calls (call_engine call engine).2 = calls engine ++ [call] /\ started (call_engine call engine).2 = started engine) as [Hcalls Hstarted].
  { assert (forall answer ended, call_effect call (asked call engine) = Ok (answer, ended) ->
      calls ended = calls engine ++ [call] /\ started ended = started engine) as Heffect.
    { intros answer ended. unfold call_effect, put. destruct call as [| |sql parameters]; [by intros [= _ <-]..|].
      destruct (control_of sql) as [[]|]; cbn [asked transaction]; destruct (transaction engine); try done; try (by intros [= _ <-]);
        (destruct (statement_effect sql parameters _) as [[? ?]|]; [by intros [= _ <-]|done]). }
    unfold call_engine. destruct (default None (head (mishaps engine))) as [[text|text]|]; [done|..];
      (destruct (call_effect call (asked call engine)) as [[answer ended]|text']; [by apply (Heffect answer)|done]). }
  split; [|done]. exists [call]. by split_and!; [|rewrite Hcalls|].
Qed.

Lemma asks_pragma engine sql : asks_at engine [Runs sql []] (pragma sql).
Proof.
  change [Runs sql (V := Value) []] with ([Runs sql (V := Value) []] ++ []).
  apply asks_then; [apply asks_call|]. intros answer engine1 _. apply asks_done.
Qed.

Definition configured (statements : list string) : list Call := (fun sql => Runs sql []) <$> statements.

Lemma asks_pragmas engine statements : asks_at engine (configured statements) (pragmas statements).
Proof.
  revert engine. induction statements as [|sql statements IH]; intros engine; [apply asks_done|].
  change (configured (sql :: statements)) with ([Runs sql (V := Value) []] ++ configured statements).
  apply asks_then; [apply asks_pragma|]. by intros _ engine1 _.
Qed.

Lemma cells_call call : keeps_cells (call_engine call).
Proof. intros engine. apply asks_call. Qed.

Lemma cells_then {A B} (m : Use A) (k : A -> Use B) : keeps_cells m -> (forall a, keeps_cells (k a)) -> keeps_cells (use_then m k).
Proof.
  intros Hm Hk engine. specialize (Hm engine). unfold use_then. destruct (m engine) as [[a|error] engine1]; [|done].
  by rewrite Hk.
Qed.

Lemma cells_pragmas statements : keeps_cells (pragmas statements).
Proof.
  induction statements as [|sql statements IH]; [done|]. apply cells_then; [|done].
  by apply cells_then; [apply cells_call|].
Qed.

(** What a connection asks as it opens, and what it leaves of the cells. *)
Definition opening engine : list Call :=
  (if built engine then [] else [Builds]) ++ [Connects] ++ configured (if started engine then [] else on_init self) ++
  configured [BUSY] ++ configured [FOREIGN_KEYS] ++ configured (if turso_mvcc self then [JOURNAL] else []) ++
  configured (on_connect self).

Lemma asks_connection engine : asks_at engine (opening engine) (connection self to_lowercase).
Proof.
  unfold opening, connection. apply asks_then.
  { unfold build, asks_at. destruct (built engine); [exists []; by rewrite app_nil_r|].
    apply (asks_then engine [Builds] [] (call_engine Builds) (fun _ => done_ tt)); [apply asks_call|].
    intros answer engine1 _. apply asks_done. }
  intros made engine1 Hbuilt. assert (started engine1 = started engine) as Hstarted1.
  { transitivity (started (build engine).2); [by rewrite Hbuilt|]. unfold build. destruct (built engine); [done|].
    by apply (cells_then (call_engine Builds)); [apply cells_call|]. }
  apply asks_then; [apply asks_call|]. intros answer engine2 Hconnected.
  assert (started engine2 = started engine) as Hstarted2.
  { rewrite <- Hstarted1, <- (cells_call Connects engine1). by rewrite Hconnected. }
  apply asks_then.
  { unfold start, asks_at. rewrite Hstarted2. destruct (started engine); [exists []; by rewrite app_nil_r|].
    rewrite <- (app_nil_r (configured (on_init self))). apply asks_then; [apply asks_pragmas|]. intros _ engine3 _.
    exists []. by rewrite app_nil_r. }
  intros _ engine3 _. apply asks_then; [apply asks_pragma|intros _ engine4 _]. apply asks_then; [apply asks_pragma|intros _ engine5 _].
  apply asks_then; [|intros _ engine6 _; apply asks_pragmas].
  destruct (turso_mvcc self); [|apply asks_done]. unfold enable_mvcc.
  change (configured [JOURNAL]) with ([Runs JOURNAL (V := Value) []] ++ []).
  apply asks_then; [apply asks_pragma|]. intros mode engine7 _. case_decide; [apply asks_done|].
  exists []. by rewrite app_nil_r.
Qed.

(** A connection open has the [init] statements behind it, its own or an
    earlier one's. *)
Lemma connection_started engine engine1 : connection self to_lowercase engine = (Ok tt, engine1) -> started engine1 = true.
Proof.
  unfold connection. unfold use_then at 1. destruct (build engine) as [[?|?] e1]; [|done].
  unfold use_then at 1. destruct (call_engine Connects e1) as [[?|?] e2]; [|done].
  unfold use_then at 1. assert (is_ok (start self e2).1 = true -> started (start self e2).2 = true) as Hstart.
  { unfold start. destruct (started e2) eqn:Hstarted; [done|]. unfold use_then. by destruct (pragmas (on_init self) e2) as [[?|?] e3]. }
  destruct (start self e2) as [[?|?] e3]; [|done]. specialize (Hstart eq_refl). cbn [snd] in Hstart.
  assert (keeps_cells (use! _ := pragma BUSY in use! _ := pragma FOREIGN_KEYS in
    use! _ := (if turso_mvcc self then enable_mvcc to_lowercase else done_ tt) in pragmas (on_connect self))) as Hrest.
  { assert (forall sql, keeps_cells (pragma sql)) as Hpragma by (intros sql; by apply cells_then; [apply cells_call|]).
    apply cells_then; [done|intros ?]. apply cells_then; [done|intros ?]. apply cells_then; [|intros ?; apply cells_pragmas].
    destruct (turso_mvcc self); [|done].
    unfold enable_mvcc. apply cells_then; [done|]. intros mode. by case_decide. }
  intros Hopen. specialize (Hrest e3). unfold use_then in Hrest, Hopen |-. by rewrite Hopen, Hstart in Hrest.
Qed.

End order.

Section sqlx.
Context {V Db S T : Type} `{!StatementEngine V Db} (dialect : SqlDialect) (build_sqlx : S -> string * list V).
Context (integer_of : V -> option Z) (boolean_of : V -> option bool) (from_row : list string * list V -> result T BackendError).
Context (Hplain : forall statement, plain_sql (build_sqlx statement).1).
Implicit Types engine : Engine V Db.

Lemma use_then_eq {A B} (m : Use (V := V) (Db := Db) A) (k : A -> Use B) engine :
  use_then m k engine = match m engine with (Ok a, engine) => k a engine | (Err error, engine) => (Err error, engine) end.
Proof. done. Qed.

Lemma sqlx_idle {A} (work : Use (V := V) (Db := Db) A) engine : transaction (sqlx_transaction work engine).2 = None.
Proof. done. Qed.

(** A load on a pool, whichever the backend: whole or not at all, and not at
    all where it fails and the answer to its commit is not lost. *)
Theorem sqlx_load_whole batches engine :
  transaction engine = None ->
  let ended := sqlx_insert_all build_sqlx batches engine in
  (committed ended.2 = committed engine \/ batches_effect build_sqlx batches (committed engine) = Some (committed ended.2)) /\
  (is_ok ended.1 = true -> batches_effect build_sqlx batches (committed engine) = Some (committed ended.2)) /\
  (is_ok ended.1 = false -> faithful engine -> committed ended.2 = committed engine) /\
  (mishaps engine = [] -> (is_ok ended.1 = true <-> is_Some (batches_effect build_sqlx batches (committed engine)))).
Proof.
  intros Hnone. edestruct (sqlx_lands (batches_effect build_sqlx batches) (insert_batches build_sqlx batches 0))
    as (Hwhole & Hok & Herr & Hclean); [|exact Hnone|].
  - apply inside_batches. apply Forall_forall. intros [[statement rows]|message] _; [apply Hplain|done].
  - split_and!; [exact Hwhole|exact Hok|by intros ? ?; apply Herr|]. intros Hmishaps. by apply Hclean.
Qed.

(** Its writes keep the promise too, though one whose rows do not decode has
    landed. *)
#[export] Instance sqlx_lawful : LawfulBackend (Engine V Db) S T Db
    (DatabaseBackend0 := sqlx_backend dialect build_sqlx integer_of boolean_of from_row).
Proof.
  refine {| contents := committed; quiescent engine := transaction engine = None;
            statement_lands statement := effect_of (build_sqlx statement).1 (build_sqlx statement).2 |}.
  - intros statement engine Hnone. cbn. split; [done|].
    destruct (sqlx_lands _ _ (inside_write _ (build_sqlx statement).2 (Hplain statement)) engine Hnone) as (Hwhole & Hok & _).
    by split.
  - intros statement engine Hnone. cbn [backend_write_rows sqlx_backend]. unfold sqlx_write_rows. rewrite use_then_eq.
    destruct (sqlx_lands _ _ (inside_run _ (build_sqlx statement).2 (Hplain statement)) engine Hnone) as (Hwhole & Hok & _).
    pose proof (sqlx_idle (run_sql (build_sqlx statement).1 (build_sqlx statement).2) engine) as Hidle.
    destruct (sqlx_transaction _ engine) as [[answer|error] engine1]; cbn [fst snd is_ok] in *;
      [|exact (conj Hidle (conj Hwhole Hok))].
    split_and!; [done|by right; apply Hok|by intros _; apply Hok].
Defined.
End sqlx.

(** ** A concrete engine *)

Module Files.

(** A database that holds the statements run on it; pragmas only answer, and
    one statement is refused. *)
#[local] Instance log_engine : StatementEngine Value (list string) := fun sql _ db =>
  if decide (sql = "bad") then Err "near bad: syntax error"
  else if decide (String.substring 0 6 sql = "PRAGMA") then Ok ({| affected := 0; answer_names := []; answer_rows := [[TextValue "mvcc"]] |}, db)
  else Ok ({| affected := 1; answer_names := ["id"]; answer_rows := [[IntegerValue 1]] |}, db ++ [sql]).

#[local] Instance plain_texts : ValueTexts := {|
  value_debug _ := "value"; stamp_text _ := ""; json_text _ := ""; json_reads _ := Err ""; real_json _ := None
|}.

Definition file (closing : list string) : TursoBackend :=
  {| turso_mvcc := true; on_init := ["PRAGMA page_size = 4096"]; on_connect := ["PRAGMA cache_size = 10"]; on_close := closing |}.
Definition fresh : Engine Value (list string) :=
  {| committed := []; transaction := None; built := false; started := false; calls := []; mishaps := [] |}.
Definition as_sql (statement : string) : result (string * list Value) BackendError := Ok ("INSERT " +:+ statement, []).

Lemma pragma_harmless sql : String.substring 0 6 sql = "PRAGMA" -> control_of sql = None ->
  harmless (V := Value) (Db := list string) sql.
Proof.
  intros Hpragma Hcontrol. split; [done|]. intros db answer db'. unfold statement_effect, log_engine.
  case_decide; [done|]. rewrite decide_True by done. by intros [= _ ->].
Qed.

Lemma file_setup : Forall (harmless (V := Value) (Db := list string)) (setup_statements (file [])).
Proof. repeat constructor; by apply pragma_harmless. Qed.

Lemma as_sql_plain statement sql parameters : as_sql statement = Ok (sql, parameters) -> plain_sql sql.
Proof. by intros [= <- <-]. Qed.



(** A [close] statement that fails reports a write that has landed as failed. *)
Example close_fails_after_landing :
  let ended := execute_write (file ["bad"]) (fun text => text) "INSERT a" [] fresh in
  is_ok ended.1 = false /\ committed ended.2 = ["INSERT a"].
Proof. by vm_compute. Qed.

(** A returned row that does not decode fails a write: on a pool it has landed
    by then, and on Turso it rolls back. *)
Definition no_row (row : list string * list Value) : result unit BackendError := Err (DecodeFailed "not a row").

Example undecoded_rows_diverge :
  committed (sqlx_write_rows no_row "INSERT a" [] fresh).2 = ["INSERT a"] /\
  committed (query_write (file []) (fun text => text) no_row "INSERT a" [] fresh).2 = [] /\
  is_ok (sqlx_write_rows no_row "INSERT a" [] fresh).1 = false.
Proof. by vm_compute. Qed.

(** An [init] statement that fails leaves those before it run, and the next
    connection runs them again. *)
Example init_runs_again :
  let backend := {| turso_mvcc := false; on_init := ["INSERT a"; "bad"]; on_connect := []; on_close := [] |} in
  let once := execute_write backend (fun text => text) "INSERT b" [] fresh in
  let twice := execute_write backend (fun text => text) "INSERT b" [] once.2 in
  committed once.2 = ["INSERT a"] /\ committed twice.2 = ["INSERT a"; "INSERT a"] /\ started twice.2 = false.
Proof. by vm_compute. Qed.
End Files.
