(* ===== verification/Store.v ===== *)
(** * The record store

    [ceres-database/src/store.rs]: the operations on what a filter matches,
    over any backend that keeps the promise [TursoFacts] states and proves of
    the three there are; and what they leave in the tables. *)
From S2P Require Import Prelude.
From stdpp Require Import gmap.
From S2P Require Import Text Sql Selector Schema Wire Json Credentials FilterParse FilterFacts FilterMatch FilterCompile.
From S2P Require Import FilterPatterns FilterAgree FilterServed Discovery Listing Entities Load SetValues.
From S2P Require Import Turso TursoFacts.
Local Open Scope string_scope.
Local Open Scope list_scope.

(** ** Statements and operations *)

(** A statement built, a select or a [Write], and whether it returns its rows. *)
Inductive Statement :=
  | SelectStatement (select : Select)
  | ExistsStatement (query : Expr)
  | DeleteRows (statement : DeleteStatement) (returning : bool)
  | UpdateRows (statement : UpdateStatement) (returning : bool).

Section store.
Context {E T : Type} `{!DatabaseBackend E Statement T} `{Crates} `{Codecs} `{JsonWriter} `{TextReaders} `{HashCrates} `{EmailCrates}.
(** The instant filters are resolved at. *)
Context (now : Z).

Notation dialect := (backend_dialect (E := E) (S := Statement) (T := T)).

(** An operation on the backend's state; [None] is a panic. *)
Definition Stored (A : Type) : Type := E -> option (result A BackendError * E).

Definition over {S A} (statement : option S) (run : S -> E -> result A BackendError * E) : Stored A :=
  fun backend => statement ← statement; Some (run statement backend).

Definition stored {A} (answer : result A BackendError) : Stored A := fun backend => Some (answer, backend).

Definition nothing_asked (filter : FilterCore) : bool := bool_decide (core_limit filter = Some 0%Z).

(** [listing_statement] over the branches discovered, and [fetch_filter]. *)
Context (discover : option Scope -> E -> result Discovery.Listing BackendError * E).

Definition listing (filter : FilterCore) : Stored Select := fun backend =>
  scope ← expansion_scope filter;
  match discover scope backend with
  | (Err error, backend) => Some (Err error, backend)
  | (Ok Plain, backend) => select ← statement filter dialect now; Some (Ok select, backend)
  | (Ok (Over branches), backend) => select ← statement_over filter branches dialect now; Some (Ok select, backend)
  end.

Definition fetch_filter (filter : FilterCore) : Stored (list T) :=
  if nothing_asked filter then stored (Ok [])
  else fun backend =>
    match listing filter backend with
    | None => None
    | Some (Err error, backend) => Some (Err error, backend)
    | Some (Ok select, backend) => Some (backend_select (SelectStatement select) backend)
    end.

(** [count_matches], [any_matches], [delete_matches] and
    [delete_matches_returning]. *)
Definition count_matches (filter : FilterCore) : Stored Z :=
  if nothing_asked filter then stored (Ok 0%Z)
  else over (count_statement filter dialect now) (fun select => backend_count (SelectStatement select)).

Definition any_matches (filter : FilterCore) : Stored bool :=
  if nothing_asked filter then stored (Ok false)
  else over (exists_statement filter dialect now) (fun query => backend_exists (ExistsStatement query)).

Definition delete_matches (filter : FilterCore) : Stored Z :=
  if nothing_asked filter then stored (Ok 0%Z)
  else over (delete_statement filter dialect now) (fun statement => backend_write (DeleteRows statement false)).

Definition delete_matches_returning (filter : FilterCore) : Stored (list T) :=
  if nothing_asked filter then stored (Ok [])
  else over (delete_statement filter dialect now) (fun statement => backend_write_rows (DeleteRows statement true)).

(** [Stored::prepare]: the rules of the users' table, over what the random
    source has drawn; records have none. *)
Definition store_prepare (table : option EntityTable) (values : Object) (credentials : option Hashing) (drawn : nat) :
    result Object BackendError :=
  match table with
  | Some Users =>
      match credentials with
      | None => Err (RefusedWrite "This database hashes passwords in a way this command cannot reproduce, so it will not write a user.")
      | Some credentials =>
          match (apply_credentials credentials Users values drawn).1 with
          | Ok values => Ok values
          | Err reason => Err (RefusedWrite (reason +:+ " It will not be written."))
          end
      end
  | _ => Ok values
  end.

(** [RecordStore::set_clauses]. *)
Definition store_set_clauses (table : option EntityTable) (filter : FilterCore) (set : string) (credentials : option Hashing)
    (drawn : nat) : result (list SetClause) BackendError :=
  match yaml_value set with
  | Ok (JObject values) =>
      match store_prepare table values credentials drawn with
      | Err error => Err error
      | Ok values =>
          match set_clauses (schema filter) values dialect with
          | Ok clauses => Ok clauses
          | Err message => Err (RefusedWrite message)
          end
      end
  | Ok _ => Err (RefusedWrite ("--set takes an object of column names and values, like `{" +:+ quote +:+ "name" +:+ quote +:+
                               ": " +:+ quote +:+ "rate" +:+ quote +:+ "}`."))
  | Err error => Err (RefusedWrite ("--set is not readable as JSON or YAML. " +:+ error))
  end.

(** [update_matches] and [update_matches_returning]: the set is read before
    anything is asked. *)
Definition update_matches (table : option EntityTable) (filter : FilterCore) (set : string) (credentials : option Hashing)
    (drawn : nat) : Stored Z :=
  match store_set_clauses table filter set credentials drawn with
  | Err error => stored (Err error)
  | Ok clauses =>
      if nothing_asked filter then stored (Ok 0%Z)
      else over (update_statement filter dialect clauses now) (fun statement => backend_write (UpdateRows statement false))
  end.

Definition update_matches_returning (table : option EntityTable) (filter : FilterCore) (set : string)
    (credentials : option Hashing) (drawn : nat) : Stored (list T) :=
  match store_set_clauses table filter set credentials drawn with
  | Err error => stored (Err error)
  | Ok clauses =>
      if nothing_asked filter then stored (Ok [])
      else over (update_statement filter dialect clauses now) (fun statement => backend_write_rows (UpdateRows statement true))
  end.
End store.

(** ** Compiled queries *)

(** [starts_with_keyword] of an ASCII keyword, and [assert_readonly]. *)
Fixpoint starts_with_keyword (text keyword : string) : bool :=
  match keyword, text with
  | EmptyString, _ => true
  | String k keyword, String c text => Strings.Ascii.eqb (lower_ascii c) (lower_ascii k) && starts_with_keyword text keyword
  | String _ _, EmptyString => false
  end.

Definition assert_readonly (sql : string) : result unit BackendError :=
  let head := trim_start sql in
  if starts_with_keyword head "select" || starts_with_keyword head "with" then Ok tt
  else Err (DecodeFailed "only SELECT statements execute here").

(** [fetch_sql], over [query_records] of the backend. *)
Definition fetch_sql {E T} (query_records : string -> list StatementParameter -> E -> result (list T) BackendError * E)
    (sql : string) (parameters : list StatementParameter) (backend : E) : result (list T) BackendError * E :=
  match assert_readonly sql with
  | Err error => (Err error, backend)
  | Ok _ => query_records sql parameters backend
  end.

(** A statement that writes passes the check, where it begins with [WITH]. *)
Example readonly_admits_writes :
  assert_readonly "WITH gone AS (DELETE FROM logs RETURNING id) SELECT id FROM gone" = Ok tt /\
  assert_readonly "with old AS (SELECT id FROM logs) DELETE FROM logs" = Ok tt /\
  assert_readonly "DELETE FROM logs" = Err (DecodeFailed "only SELECT statements execute here").
Proof. by vm_compute. Qed.

(** * What the store's writes leave

    Over a backend that keeps its promise, with tables as the rows they hold. *)
Definition TableRows : Type := string -> list SimpleRow.

(** What a delete and an update make of the tables. *)
Definition deleted_rows (dialect : SqlDialect) `{!SqlSemantics dialect SimpleRow} (statement : DeleteStatement)
    (before after : TableRows) : Prop :=
  forall name, after name =
    if decide (name = delete_table statement)
    then filter (fun row => ~ passes (dialect := dialect) (delete_where statement) row) (before name) else before name.

Definition updated_rows (dialect : SqlDialect) `{!SqlSemantics dialect SimpleRow} (table : Schema) (statement : UpdateStatement)
    (before after : TableRows) : Prop :=
  forall name, if decide (name = update_table statement)
    then Forall2 (fun row row' =>
           if decide (passes (dialect := dialect) (update_where statement) row)
           then updated dialect table (update_values statement) row row' else row' = row) (before name) (after name)
    else after name = before name.

Section served.
Context {E T : Type} {dialect : SqlDialect} `{Codecs} `{!SqlSemantics dialect SimpleRow} `{!SqlFunctions dialect SimpleRow}.
Context `{!DatabaseBackend E Statement T} `{!LawfulBackend E Statement T TableRows}.
Context `{!Crates} `{JsonWriter} `{TextReaders} `{HashCrates} `{EmailCrates}.
(** The backend speaks the dialect, and its engine runs a delete and an update
    as SQL has them. *)
Context (speaks : backend_dialect (E := E) (S := Statement) (T := T) = dialect).
Context (deletes : forall statement returning before after,
  statement_lands (DeleteRows statement returning) before = Some after -> deleted_rows dialect statement before after).
Context (updates : forall table statement returning before after,
  update_table statement = schema_name table ->
  statement_lands (UpdateRows statement returning) before = Some after -> updated_rows dialect table statement before after).

(** A filter without a page on a table whose rows each store a record. *)
Record filters (self : FilterCore) (now : Z) (record : SimpleRow -> Record_) (rows : list SimpleRow)
    (conditions : list Expr) : Prop := {
  filters_table : schema self ∈ SCHEMAS;
  filters_not_users : schema_name (schema self) <> "users";
  filters_ok : node_ok (schema self) (node self);
  filters_unpaged : core_limit self = None /\ core_offset self = None;
  filters_compile : combined_conditions (schema self) dialect now (node self) = Some conditions;
  filters_stored : Forall (fun row => row_stores (dialect := dialect) (schema self) row (record row) /\
    tree_served (dialect := dialect) (schema self) (record row) now (node self)) rows
}.

(** The rows whose record the filter's matching in memory accepts. *)
Definition accepted_by (self : FilterCore) (now : Z) (record : SimpleRow -> Record_) (row : SimpleRow) : bool :=
  default false (node_matches (schema self) (record row) now (node self)).

Lemma accepted_passes self now record rows conditions row :
  filters self now record rows conditions -> row ∈ rows ->
  passes (dialect := dialect) conditions row <-> accepted_by self now record row = true.
Proof.
  intros [Htable Hname Hok _ Hcompile Hstored] Hrow. rewrite Forall_forall in Hstored.
  destruct (Hstored row Hrow) as [Hstores Hserved].
  destruct (tree_agrees (schema self) row (record row) now (node self) conditions (schemas_ok _ Htable Hname) Hstores Hok Hserved Hcompile)
    as (matched & Hmatched & Hiff). unfold accepted_by, passes, admits. rewrite Hmatched. exact Hiff.
Qed.

Lemma filter_ext_in {A} (P Q : A -> Prop) `{!forall a, Decision (P a), !forall a, Decision (Q a)} (l : list A) :
  (forall a, a ∈ l -> P a <-> Q a) -> filter P l = filter Q l.
Proof.
  induction l as [|a l IH]; intros Hsame; [done|]. rewrite !filter_cons, IH by (intros; apply Hsame; by right).
  destruct (decide (P a)) as [HP|HP], (decide (Q a)) as [HQ|HQ]; try done; by apply Hsame in HP || apply Hsame in HQ; try left.
Qed.

(** A delete of what a filter without a page matches, on any backend that
    keeps its promise and whose engine runs SQL as the semantics has it, leaves
    every table as it was, or the filter's own without exactly the rows whose
    records the filter's matching in memory accepts; and the latter where it
    succeeds. *)
Theorem delete_matches_exact (self : FilterCore) (now : Z) (record : SimpleRow -> Record_) (conditions : list Expr) (backend : E) :
  quiescent backend -> filters self now record (contents backend (schema_name (schema self))) conditions ->
  exists answer backend', delete_matches now self backend = Some (answer, backend') /\ quiescent backend' /\
    let exactly := forall name, contents backend' name =
      if decide (name = schema_name (schema self))
      then filter (fun row => accepted_by self now record row = false) (contents backend name)
      else contents backend name in
    (contents backend' = contents backend \/ exactly) /\ (is_ok answer = true -> exactly).
Proof.
  intros Hquiet Hfilters. pose proof Hfilters as [_ _ _ [Hlimit Hoffset] Hcompile _].
  unfold delete_matches, nothing_asked, over, delete_statement, write_conditions, paged_keys. rewrite Hlimit, Hoffset, speaks.
  rewrite bool_decide_eq_false_2 by done. cbn [mbind option_bind]. rewrite Hcompile. cbn [mbind option_bind].
  set (statement := {| delete_table := _; delete_where := conditions |}).
  destruct (write_law (DeleteRows statement false) backend Hquiet) as (Hquiet' & Hwhole & Hok).
  destruct (backend_write (DeleteRows statement false) backend) as [answer backend'] eqn:Hwrite. cbn [fst snd] in *.
  exists answer, backend'. split; [done|]. split; [done|]. cbn zeta.
  assert (statement_lands (DeleteRows statement false) (contents backend) = Some (contents backend') ->
    forall name, contents backend' name = if decide (name = schema_name (schema self))
      then filter (fun row => accepted_by self now record row = false) (contents backend name) else contents backend name) as Hexact.
  { intros Hlands%deletes name. etransitivity; [exact (Hlands name)|]. cbn [delete_table delete_where statement].
    destruct (decide (name = schema_name (schema self))) as [->|]; [|done].
    apply filter_ext_in. intros row Hrow. rewrite (accepted_passes _ _ _ _ _ _ Hfilters Hrow).
    by rewrite not_true_iff_false. }
  split; [|intros Hdone; exact (Hexact (Hok Hdone))]. destruct Hwhole as [?|Hlands]; [by left|right; exact (Hexact Hlands)].
Qed.

End served.

(** ** Witnesses *)

Module Tables.

(** Tables held as their rows, which refuse an update that names a column
    twice and run everything else at once. *)
#[local] Instance here : DatabaseBackend TableRows Statement SimpleRow := {|
  backend_dialect := Postgres;
  overlaps_writers := true;
  backend_select _ rows := (Ok [], rows);
  backend_count _ rows := (Ok 0%Z, rows);
  backend_exists _ rows := (Ok false, rows);
  backend_write statement rows :=
    match statement with
    | DeleteRows deleting _ =>
        (Ok 0%Z, fun name =>
           if decide (name = delete_table deleting)
           then filter (fun row => ~ passes (dialect := Postgres) (delete_where deleting) row) (rows name) else rows name)
    | UpdateRows updating _ =>
        if decide (NoDup (fst <$> update_values updating)) then
          (Ok 0%Z, fun name =>
             if decide (name = update_table updating)
             then (fun row => if decide (passes (dialect := Postgres) (update_where updating) row)
                              then set_columns row (update_values updating) else row) <$> rows name else rows name)
        else (Err (EngineFailed "a column set twice"), rows)
    | _ => (Ok 0%Z, rows)
    end;
  backend_write_rows _ rows := (Err (EngineFailed "no rows returned"), rows);
  backend_insert_all _ _ rows := (Ok 0%Z, rows)
|}.

#[local] Program Instance here_lawful : LawfulBackend TableRows Statement SimpleRow TableRows := {|
  contents rows := rows;
  quiescent _ := True;
  statement_lands statement rows :=
    match backend_write statement rows with (Ok _, rows) => Some rows | (Err _, _) => None end
|}.
Next Obligation.
  intros [| |deleting returning|updating returning] rows _; cbn; try case_decide; cbn;
    (split_and!; [done|first [by left|by right]|done]).
Qed.
Next Obligation. intros statement rows _. cbn. split_and!; [done|by left|done]. Qed.

Lemma here_deletes (statement : DeleteStatement) (returning : bool) (before after : TableRows) :
  statement_lands (DeleteRows statement returning) before = Some after -> deleted_rows Postgres statement before after.
Proof. by intros [= <-] name. Qed.

Lemma here_updates (table : Schema) (statement : UpdateStatement) (returning : bool) (before after : TableRows) :
  update_table statement = schema_name table ->
  statement_lands (UpdateRows statement returning) before = Some after -> updated_rows Postgres table statement before after.
Proof.
  intros _. cbn. case_decide as Hnodup; [|done]. intros [= <-] name. case_decide; [|done].
  apply Forall2_fmap_r, Forall_Forall2_diag, Forall_forall. intros row _.
  cbn. case_decide; [by apply set_columns_updated|done].
Qed.

#[local] Instance sample_writer : JsonWriter := fun value =>
  match value with JText text => quoted text | JNumber text => text | JNull => "null" | _ => "{}" end.
#[local] Instance the_crates : Crates := sample_crates.
#[local] Instance sample_texts : TextReaders := {|
  json_from_str _ := None; yaml_value _ := Ok (JObject [("level", JText "critical")])
|}.
#[local] Instance no_hashes : HashCrates := {|
  argon2_configured _ := false; salt_string _ _ := None; argon2_hashed _ _ _ := None; bcrypt_hashed _ _ _ := None;
  bcrypt_verify _ _ := None; argon2_verify _ _ := None
|}.
#[local] Instance no_emails : EmailCrates := {|
  nfc text := text; parse_email _ := None; domain_to_unicode text := (text, true); alphabetic _ := true; lowercase text := text
|}.

Definition sample_filter : FilterCore :=
  {| schema := record_schema Logs; node := sample_node; core_order := []; core_limit := None; core_offset := None |}.
Definition sample_tables : TableRows := fun name => if decide (name = "logs") then [sample_row] else [].

Lemma sample_filters conditions :
  sample_compiled = Some conditions ->
  filters (dialect := Postgres) sample_filter 5000000000 (fun _ => sample_record)
    (sample_tables (schema_name (schema sample_filter))) conditions.
Proof.
  intros Hconditions. split; [exact logs_schema_in|exact logs_not_users|exact sample_node_ok|done|exact Hconditions|].
  apply Forall_singleton. split; [exact sample_stores|exact sample_node_served].
Qed.

Notation the_update := (update_matches (E := TableRows) (T := SimpleRow) 5000000000 None sample_filter "{level: critical}" None 0).

Lemma the_clauses :
  exists clauses, store_set_clauses (E := TableRows) (T := SimpleRow) None sample_filter "{level: critical}" None 0 = Ok clauses /\
    clauses.*1 = ["level"].
Proof. eexists. split; [vm_compute; reflexivity|done]. Qed.

Lemma the_answer :
  match the_update sample_tables with Some (answer, _) => is_ok answer | None => false end = true.
Proof. vm_compute. reflexivity. Qed.

Lemma sample_accepted : accepted_by sample_filter 5000000000 (fun _ => sample_record) sample_row = true.
Proof. unfold accepted_by. cbn [schema node sample_filter]. by rewrite sample_matches. Qed.

End Tables.
