(* ===== verification/Paths.v ===== *)
(** * Paths as configured, and the state directory

    A [PathBuf] of the configuration, absolute or relative to the process's
    directory, and the calls of [std::fs] on one: [ceres-config/src/state.rs],
    and the files [tempfile] makes beside a path. *)
From S2P Require Import Prelude.
From S2P Require Import Text Wire Http Disk.
Local Open Scope string_scope.
Local Open Scope list_scope.
Local Open Scope Z_scope.
Local Open Scope ceres_scope.

(** ** Paths *)

(** A path's components; a leading [.] falls away with the others. *)
Record PathBuf := { absolute : bool; parts : list string }.

#[export] Instance path_buf_eq_dec : EqDecision PathBuf.
Proof. solve_decision. Defined.

Definition path_buf (text : string) : PathBuf := {| absolute := is_absolute text; parts := components text |}.

(** [Path::new("")], and [as_os_str().is_empty()]. *)
Definition no_path : PathBuf := {| absolute := false; parts := [] |}.

(** [Path::parent], [Path::file_name], [Path::join] and [Path::ancestors]. *)
Definition path_parent (path : PathBuf) : option PathBuf :=
  match parts path with
  | [] => None
  | _ => Some {| absolute := absolute path; parts := removelast (parts path) |}
  end.

Definition path_file_name (path : PathBuf) : option string :=
  match last (parts path) with Some name => if decide (name = "..") then None else Some name | None => None end.

Definition path_join (path : PathBuf) (name : string) : PathBuf :=
  if is_absolute name then path_buf name else {| absolute := absolute path; parts := parts path ++ components name |}.

Fixpoint path_ancestors (absolute : bool) (count : nat) (names : list string) : list PathBuf :=
  {| absolute := absolute; parts := names |} ::
  match count, names with
  | S count, _ :: _ => path_ancestors absolute count (removelast names)
  | _, _ => []
  end.
Definition ancestors (path : PathBuf) : list PathBuf := path_ancestors (absolute path) (length (parts path)) (parts path).

(** [PathBuf::join] of texts. *)
Definition text_join (base path : string) : string :=
  if is_absolute path || bool_decide (base = "") then path
  else if str_ends_with "/" base then base +:+ path else base +:+ "/" +:+ path.

(** ** Calls *)

Definition located (d : Disk) (path : PathBuf) : Path := if absolute path then parts path else cwd d ++ parts path.

(** A call on a path; the empty one names nothing. *)
Definition on {A} (c : Path -> Call A) (path : PathBuf) : Call A := fun d =>
  if decide (path = no_path) then fails d ENOENT else c (located d path) d.

(** [Path::exists] and [Path::is_dir]: what cannot be looked up is not there. *)
Definition exists_ (path : PathBuf) : Io bool := io_map is_ok (call (on stat path)).
Definition is_dir_ (path : PathBuf) : Io bool :=
  io_map (fun found => match found with Ok found => is_dir found | Err _ => false end) (call (on stat path)).

(** [fs::read]. *)
Definition open_read (path : Path) : Call Z :=
  reads (fun d => let* at_ := canonical d path in match stands d at_ with Some found => Ok (ino found) | None => Err ENOENT end).

Definition fs_read (path : PathBuf) : Io (Io_result string) :=
  let~? handle := call (on open_read path) in
  call (read_handle handle).

(** [File::create]: what stands there emptied, symlinks followed, or a new
    file. *)
Definition create_file (path : Path) : Call Z := fun d =>
  match canonical d path with
  | Ok at_ =>
      match stands d at_ with
      | Some there =>
          match shape (inode there) with
          | Regular _ =>
              (Ok (ino there), set_inodes <[ino there := {| shape := Regular ""; modified := Some (now d);
                 created := created (inode there); permissions := permissions (inode there) |}]> d)
          | _ => fails d EISDIR
          end
      | None => fails d ENOENT
      end
  | Err _ => create path (Regular "") d
  end.

(** [fs::write]. *)
Definition fs_write (path : PathBuf) (text : string) : Io (Io_result unit) :=
  let~? handle := call (on create_file path) in
  write_all handle text.

(** [fs::create_dir_all]: the directory, or first the ones above it. *)
Fixpoint create_dir_all_fuel (fuel : nat) (path : PathBuf) : Io (Io_result unit) :=
  if decide (parts path = []) then io_ret (Ok tt)
  else
    let~ made := call (on create_dir path) in
    match made with
    | Ok _ => io_ret (Ok tt)
    | Err error =>
        if decide (kind error = NotFound) then
          match fuel, path_parent path with
          | S fuel, Some above =>
              let~? _ := create_dir_all_fuel fuel above in
              let~ made := call (on create_dir path) in
              match made with
              | Ok _ => io_ret (Ok tt)
              | Err error => let~ there := is_dir_ path in io_ret (if there then Ok tt else Err error)
              end
          | _, _ => io_ret (Err (plain_error OtherKind))
          end
        else let~ there := is_dir_ path in io_ret (if there then Ok tt else Err error)
    end.

Definition create_dir_all (path : PathBuf) : Io (Io_result unit) := create_dir_all_fuel (length (parts path)) path.

(** ** The state directory *)

Definition STATE_DIRECTORY : string := ".ceres".

Definition ignore_text : string := String "*" (String (Strings.Ascii.ascii_of_nat 10) "").

(** [create_state_directory]. *)
Definition create_state_directory (project : PathBuf) : Io (Io_result PathBuf) :=
  let directory := path_join project STATE_DIRECTORY in
  let~? _ := create_dir_all directory in
  let ignore := path_join directory ".gitignore" in
  let~ there := exists_ ignore in
  if there then io_ret (Ok directory)
  else let~? _ := fs_write ignore ignore_text in io_ret (Ok directory).

(** [create_parent_directory]. *)
Definition state_above (file : PathBuf) : option PathBuf :=
  List.find (fun ancestor => bool_decide (path_file_name ancestor = Some STATE_DIRECTORY)) (tail (ancestors file)).

Definition create_parent_directory (file : PathBuf) : Io (Io_result unit) :=
  let~? _ :=
    match state_above file with
    | Some state => io_map (fun made => match made with Ok _ => Ok tt | Err error => Err error end)
        (create_state_directory (default no_path (path_parent state)))
    | None => io_ret (Ok tt)
    end in
  match path_parent file with
  | Some parent => if decide (parent = no_path) then io_ret (Ok tt) else create_dir_all parent
  | None => io_ret (Ok tt)
  end.

(** ** Temporary files

    [tempfile]: a name drawn until it is free, the file readable by those its
    mode names. *)
Class TempNames := { temp_name : nat -> string }.

Definition draw_name `{TempNames} : Io string := fun w =>
  (temp_name (drawn w), {| disk := disk w; script := script w; calls := calls w; drawn := S (drawn w) |}).

Definition create_mode (mode : Z) (path : Path) : Call Z := fun d =>
  let '(made, d) := create_new path d in
  match made with
  | Ok i =>
      (Ok i, set_inodes (alter (fun node => {| shape := shape node; modified := modified node; created := created node;
                                               permissions := mode |}) i) d)
  | Err error => (Err error, d)
  end.

(** An open temporary file, removed again when it is dropped. *)
Record NamedTempFile := { temp_path : PathBuf; temp_file : Z }.

Fixpoint tempfile_tries `{TempNames} (tries : nat) (directory : PathBuf) (prefix : string) (mode : Z)
    : Io (Io_result NamedTempFile) :=
  match tries with
  | O => io_ret (Err (plain_error AlreadyExists))
  | S tries =>
      let~ name := draw_name in
      let path := path_join directory (prefix +:+ name) in
      let~ made := call (on (create_mode mode) path) in
      match made with
      | Ok file => io_ret (Ok {| temp_path := path; temp_file := file |})
      | Err error =>
          if decide (kind error = AlreadyExists) then tempfile_tries tries directory prefix mode else io_ret (Err error)
      end
  end.

Definition NUM_RETRIES : Z := 65536.

Definition tempfile_in `{TempNames} (directory : PathBuf) (prefix : string) (mode : Z) : Io (Io_result NamedTempFile) :=
  tempfile_tries (Z.to_nat NUM_RETRIES) directory prefix mode.

Arguments tempfile_in : simpl never.

Definition drop_temp (file : NamedTempFile) : Io unit := io_map (fun _ => tt) (call (on remove_file (temp_path file))).

(** [NamedTempFile::persist]; a file that cannot be moved is dropped. *)
Definition rename_on (from to : PathBuf) : Call unit := fun d =>
  if decide (to = no_path) then fails d ENOENT else rename_call (located d from) (located d to) d.

Definition persist (file : NamedTempFile) (path : PathBuf) : Io (Io_result unit) :=
  let~ moved := call (rename_on (temp_path file) path) in
  match moved with
  | Ok _ => io_ret (Ok tt)
  | Err error => let~ _ := drop_temp file in io_ret (Err error)
  end.
