(* ===== verification/Certificates.v ===== *)
(** * Managed certificates

    [ceres-server/src/tls.rs] and [tls/managed.rs]: the names a certificate has
    to carry, the authority found on disk, why a certificate is due, issuing one
    and writing it beside its key, what startup would do, and renewing while
    serving. Parsing and signing certificates (x509_parser, rustls, rcgen, pem,
    pkcs8, sha2) are parameters; instants are nanoseconds of the Unix epoch. *)
From S2P Require Import Prelude.
From S2P Require Import Text Wire Schema FilterMatch Http Disk ConfigValues Config ConfigServer Paths.
Local Open Scope string_scope.
Local Open Scope list_scope.
Local Open Scope Z_scope.
Local Open Scope ceres_scope.

(** ** Time *)

Definition second : Z := 1000000000.
Definition hours (count : Z) : Z := count * 3600 * second.
Definition days (count : Z) : Z := count * 86400 * second.

(** [renewal_window], [AUTHORITY_WARNING], [AUTHORITY_LIFETIME], [BACKDATE] and
    [RENEWAL_INTERVAL]. *)
Definition renewal_window (count : Z) : Z := Z.min (Z.quot (days count) 3) (days 30).
Definition AUTHORITY_WARNING : Z := days 30.
Definition AUTHORITY_LIFETIME : Z := days 3650.
Definition BACKDATE : Z := hours 1.
Definition RENEWAL_INTERVAL : Z := 24 * 60 * 60 * second.

(** [OffsetDateTime::unix_timestamp] and [replace_nanosecond(0)]. *)
Definition unix_timestamp (instant : Z) : Z := instant / second.
Definition whole_second (instant : Z) : Z := instant - instant mod second.

(** ** The crates *)

(** [rustls::Error], as far as it is told apart. *)
Inductive RustlsError := InconsistentKeys (text : string) | OtherRustls (text : string).

Definition rustls_text (error : RustlsError) : string := match error with InconsistentKeys text | OtherRustls text => text end.

(** A general name of a certificate. *)
Inductive GeneralName := DnsGeneral (name : string) | IpGeneral (bytes : list Z) | OtherGeneral.

(** [X509Certificate], as far as it is read; validity in seconds. *)
Record X509Certificate := {
  is_ca : bool;
  key_cert_sign : result (option bool) string;
  not_before : Z;
  not_after : Z;
  issuer : string;
  subject : string;
  public_key : string;
  subject_alternative_name : result (option (list GeneralName)) string
}.

(** A name a certificate vouches for. *)
Inductive SubjectName := Dns (name : string) | Ip (address : IpAddr).

#[export] Instance subject_name_eq_dec : EqDecision SubjectName.
Proof. solve_decision. Defined.

(** [rcgen::CertificateParams]; validity in nanoseconds. *)
Record CertificateParams := {
  common_name : string;
  subject_alt_names : list SubjectName;
  ca_path_length : option Z;
  key_usages : list string;
  extended_key_usages : list string;
  use_authority_key_identifier : bool;
  params_not_before : Z;
  params_not_after : Z
}.

Class CertificateCrates := {
  PrivateKey : Type;
  KeyPair : Type;
  Issuer : Type;
  (** rustls_pemfile *)
  pem_certs : string -> result (list string) IoError;
  pem_private_key : string -> result (option PrivateKey) IoError;
  (** rustls::sign::CertifiedKey::from_der *)
  certified : list string -> PrivateKey -> result unit RustlsError;
  (** x509_parser *)
  parse_x509 : string -> result X509Certificate string;
  verify_signature : X509Certificate -> string -> bool;
  (** pkcs8 *)
  document_from_pem : string -> result (string * string) string;
  decrypt_key : string -> string -> result PrivateKey string;
  (** rcgen, key pairs drawn from a supply *)
  generate_key : nat -> result KeyPair string;
  key_pair_of : PrivateKey -> result KeyPair string;
  private_key_of : KeyPair -> result PrivateKey string;
  key_pem : KeyPair -> string;
  issuer_of : string -> KeyPair -> result Issuer string;
  ia5_string : string -> result unit string;
  self_signed : CertificateParams -> KeyPair -> result string string;
  signed_by_issuer : CertificateParams -> KeyPair -> Issuer -> result string string;
  (** pem, sha2, and the text of a date and an error *)
  encode_certificate : string -> string;
  sha256 : string -> list Z;
  date_text : Z -> string;
  ip_text : IpAddr -> string;
  io_error_text : IoError -> string
}.

(** The machine: its hostname's buffer when [gethostname] answers one, and the
    addresses of its interfaces. *)
Class Machine := { gethostname : option string; interface_addresses : list IpAddr }.

(** ** Errors *)

Inductive TlsError :=
  | Missing (path certificate key : string)
  | Unreadable (path : string) (source : IoError)
  | Malformed (path reason : string)
  | EmptyPem (path expected : string)
  | NotPem (path expected : string)
  | Decrypt (reason : string)
  | Rustls (error : RustlsError)
  | AuthorityMissing (path : string)
  | AuthorityIncomplete (present missing : string)
  | AuthorityUnusable (path reason : string)
  | Issue (reason : string)
  | WriteFailed (path : string) (source : IoError).

Inductive Notice := InfoNotice (text : string) | WarningNotice (text : string).

Section certificates.
Context `{CertificateCrates} `{Machine} `{TempNames} `{RegexCrate}.

(** ** Names *)

Definition name_text (name : SubjectName) : string := match name with Dns name => name | Ip address => ip_text address end.

(** [SubjectName::unique]. *)
Definition lowered (name : SubjectName) : SubjectName := match name with Dns name => Dns (to_lowercase name) | name => name end.

Definition unique (names : list SubjectName) : list SubjectName :=
  fold_left (fun unique name => let name := lowered name in
    if bool_decide (name ∈ unique) then unique else unique ++ [name]) names [].

Definition is_loopback (address : IpAddr) : bool :=
  match address with
  | V4 octets => bool_decide (head octets = Some 127)
  | V6 groups => bool_decide (groups = [0; 0; 0; 0; 0; 0; 0; 1])
  end.

(** [is_link_local]. *)
Definition is_link_local (address : IpAddr) : bool :=
  match address with
  | V4 octets => bool_decide (take 2 octets = [169; 254])
  | V6 groups => Z.land (default 0 (head groups)) 65472 =? 65152
  end.

(** [SubjectName::local], [hostname] and [SubjectName::detected]; a name of
    ASCII letters, digits, hyphens and dots is text. *)
Definition local_names (hostname : option string) (interfaces : list IpAddr) : list SubjectName :=
  unique ([Dns "localhost"; Ip (V4 [127; 0; 0; 1]); Ip (V6 [0; 0; 0; 0; 0; 0; 0; 1])] ++
          match hostname with Some name => [Dns name] | None => [] end ++
          (Ip <$> List.filter (fun address => negb (is_loopback address) && negb (is_link_local address)) interfaces)).

Definition host_char (c : ascii) : bool := is_ascii_alphanumeric c || contains_char c "-.".

Definition hostname : option string :=
  buffer ← gethostname;
  parts ← split_once (Strings.Ascii.ascii_of_nat 0) buffer;
  let name : string := fst parts in
  if negb (bool_decide (name = "")) && str_forall host_char name then Some name else None.

Definition detected : list SubjectName := local_names hostname interface_addresses.

(** [SubjectName::required], of what was detected. *)
Definition required (auto : ServerCertificateAutoConfig) (detect : list SubjectName) : list SubjectName :=
  if detects_names auto then unique detect else unique ((Ip <$> auto_ip auto) ++ (Dns <$> auto_dns auto)).

(** [SubjectName::san]. *)
Definition san (name : SubjectName) : result SubjectName TlsError :=
  match name with
  | Dns text =>
      match ia5_string text with
      | Ok _ => Ok name
      | Err error => Err (Issue (debug_text text +:+ " cannot be a DNS name. " +:+ error))
      end
  | Ip _ => Ok name
  end.

(** [carried_names]. *)
Definition groups_of (bytes : list Z) : list Z :=
  imap (fun i _ => default 0 (bytes !! (2 * i)%nat) * 256 + default 0 (bytes !! (2 * i + 1)%nat)) (replicate 8 tt).

Definition general_name (name : GeneralName) : option SubjectName :=
  match name with
  | DnsGeneral name => Some (Dns name)
  | IpGeneral bytes =>
      if (length bytes =? 4)%nat then Some (Ip (V4 bytes))
      else if (length bytes =? 16)%nat then Some (Ip (V6 (groups_of bytes))) else None
  | OtherGeneral => None
  end.

Definition carried_names (certificate : X509Certificate) : list SubjectName :=
  match subject_alternative_name certificate with
  | Ok (Some names) => unique (omap general_name names)
  | _ => []
  end.

(** ** Reading files *)

Definition io_result_ok {A} (path : string) (answer : Io_result A) : result A TlsError :=
  match answer with Ok a => Ok a | Err source => Err (Unreadable path source) end.

(** [read], [read_existing], [read_certificates] and [read_private_key]. *)
Definition read_file (path : string) : Io (result (option string) TlsError) :=
  io_map (fun read =>
    match read with
    | Ok bytes => Ok (Some bytes)
    | Err source => if decide (kind source = NotFound) then Ok None else Err (Unreadable path source)
    end) (fs_read (path_buf path)).

Definition read_existing (path : string) : Io (result string TlsError) :=
  let~? read := read_file path in
  io_ret (match read with Some bytes => Ok bytes | None => Err (Unreadable path (plain_error NotFound)) end).

Definition certificates_in (path text : string) : result (list string) TlsError :=
  match pem_certs text with
  | Err source => Err (Unreadable path source)
  | Ok [] => Err (EmptyPem path "certificate")
  | Ok certificates => Ok certificates
  end.

Definition read_certificates (path : string) : Io (result (list string) TlsError) :=
  let~? text := read_existing path in io_ret (certificates_in path text).

Definition private_key_in (path : string) (password : option string) (text : string) : result PrivateKey TlsError :=
  if negb (is_utf8 text) then Err (NotPem path "private key")
  else if str_contains "ENCRYPTED PRIVATE KEY" text then
    match password with
    | None => Err (Decrypt "the key is encrypted and no key_password is configured")
    | Some password =>
        match document_from_pem text with
        | Err error => Err (Decrypt error)
        | Ok (label, document) =>
            if negb (bool_decide (label = "ENCRYPTED PRIVATE KEY")) then
              Err (Decrypt ("unexpected PEM label " +:+ debug_text label))
            else match decrypt_key document password with Ok key => Ok key | Err error => Err (Decrypt error) end
        end
    end
  else match pem_private_key text with Ok (Some key) => Ok key | _ => Err (EmptyPem path "private key") end.

Definition read_private_key (path : string) (password : option string) : Io (result PrivateKey TlsError) :=
  let~? text := read_existing path in io_ret (private_key_in path password text).

(** [CertifiedKey]: a chain and the key that belongs to it. *)
Record CertifiedKey := { chain : list string; key : PrivateKey }.

(** [certified_key]. *)
Definition certified_key (certificate : ServerCertificateConfig) : Io (result CertifiedKey TlsError) :=
  let missing path := Err (Missing path (cert_path certificate) (cert_key certificate)) in
  let~ there := exists_ (path_buf (cert_path certificate)) in
  if negb there then io_ret (missing (cert_path certificate))
  else
    let~ there := exists_ (path_buf (cert_key certificate)) in
    if negb there then io_ret (missing (cert_key certificate))
    else
      let~? chain := read_certificates (cert_path certificate) in
      let~? key := read_private_key (cert_key certificate) (cert_password certificate) in
      io_ret (match certified chain key with
              | Ok _ => Ok {| chain := chain; key := key |}
              | Err error => Err (Rustls error)
              end).

(** ** The authority *)

(** [Authority]; [expires] in nanoseconds. *)
Inductive Authority :=
  | Present (chain : list string) (key : PrivateKey) (expires : Z)
  | Absent.

(** [Authority::validate]. *)
Definition validate_authority (config : ServerCertificateAuthorityConfig) (chain : list string) (key : PrivateKey)
    : result Z TlsError :=
  let unusable reason := Err (AuthorityUnusable (ca_path config) reason) in
  match parse_x509 (default "" (head chain)) with
  | Err error => Err (Malformed (ca_path config) error)
  | Ok certificate =>
      if negb (is_ca certificate) then unusable "It is not a certificate authority."
      else match key_cert_sign certificate with
      | Ok (Some false) => unusable "Its key usage does not include signing certificates."
      | Err error => Err (Malformed (ca_path config) error)
      | Ok _ =>
          match certified chain key with
          | Ok _ => Ok (not_after certificate * second)
          | Err (InconsistentKeys _) => unusable ("The key " +:+ ca_key config +:+ " does not belong to it.")
          | Err error => unusable ("The key " +:+ ca_key config +:+ " cannot be used. " +:+ rustls_text error)
          end
      end
  end.

Definition read_present (config : ServerCertificateAuthorityConfig) : Io (result Authority TlsError) :=
  let~? chain := read_certificates (ca_path config) in
  let~? key := read_private_key (ca_key config) (ca_password config) in
  io_ret (match validate_authority config chain key with
          | Ok expires => Ok (Present chain key expires)
          | Err error => Err error
          end).

(** [Authority::read]. *)
Definition read_authority (config : ServerCertificateAuthorityConfig) (supplied : bool) : Io (result Authority TlsError) :=
  let~ certificate_exists := exists_ (path_buf (ca_path config)) in
  let~ key_exists := exists_ (path_buf (ca_key config)) in
  if supplied then
    if negb certificate_exists then io_ret (Err (AuthorityMissing (ca_path config)))
    else if negb key_exists then io_ret (Err (AuthorityMissing (ca_key config)))
    else read_present config
  else if negb certificate_exists && negb key_exists then io_ret (Ok Absent)
  else if negb (Bool.eqb certificate_exists key_exists) then
    io_ret (Err (if certificate_exists then AuthorityIncomplete (ca_path config) (ca_key config)
                 else AuthorityIncomplete (ca_key config) (ca_path config)))
  else read_present config.

(** [Authority::warning]. *)
Definition authority_warning (authority : Authority) (config : ServerCertificateAuthorityConfig) (supplied : bool) (now : Z)
    : option string :=
  match authority with
  | Absent => None
  | Present _ _ expires =>
      if AUTHORITY_WARNING <? expires - now then None
      else
        let path := ca_path config in
        let state :=
          if expires <=? now then
            "The certificate authority " +:+ path +:+ " expired on " +:+ date_text expires +:+
            ", so clients no longer trust the certificates it signs."
          else "The certificate authority " +:+ path +:+ " expires on " +:+ date_text expires +:+ "." in
        let remedy :=
          if supplied then "Replace it at the paths `auto.ca` names"
          else "Remove " +:+ path +:+ " and " +:+ ca_key config +:+ " for Ceres to create a new one" in
        Some (state +:+ " Ceres never renews an authority. " +:+ remedy +:+ ", and trust the new one on each client.")
  end.

(** ** Why a certificate is due *)

(** [Renewal]; [Expiring] in nanoseconds. *)
Inductive Renewal :=
  | NoCertificate
  | Unparsable (reason : string)
  | ForeignIssuer
  | NotYetValid
  | Expiring (expires : Z)
  | MissingNames (names : list SubjectName)
  | Forced.

Fixpoint join_text (separator : string) (texts : list string) : string :=
  match texts with
  | [] => ""
  | [text] => text
  | text :: texts => text +:+ separator +:+ join_text separator texts
  end.

Definition renewal_text (self : Renewal) : string :=
  match self with
  | NoCertificate => "there is no certificate yet"
  | Unparsable reason => "the certificate cannot be read. " +:+ reason
  | ForeignIssuer => "another authority signed the certificate"
  | NotYetValid => "the certificate is not valid yet"
  | Expiring expires => "the certificate expires on " +:+ date_text expires
  | MissingNames names => "the certificate does not name " +:+ join_text ", " (name_text <$> names)
  | Forced => "a new certificate was asked for"
  end.

(** [Leaf]. *)
Inductive Leaf := Current (certificate : string) (expires : Z) | Due (renewal : Renewal).

(** [signed_by]. *)
Definition signed_by (leaf : X509Certificate) (authority : string) : bool :=
  match parse_x509 authority with
  | Err _ => false
  | Ok authority => bool_decide (issuer leaf = subject authority) && verify_signature leaf (public_key authority)
  end.

(** The rest of [Leaf::judge], once the certificate is parsed. *)
Definition judge_leaf (authority : Authority) (names : list SubjectName) (window now : Z) (presented : string)
    (leaf : X509Certificate) : Leaf :=
  match authority with
  | Absent => Due ForeignIssuer
  | Present chain _ _ =>
      if negb (signed_by leaf (default "" (head chain))) then Due ForeignIssuer
      else if unix_timestamp now <? not_before leaf then Due NotYetValid
      else
        let not_after := not_after leaf * second in
        if not_after - now <? window then Due (Expiring not_after)
        else match List.filter (fun name => negb (bool_decide (name ∈ carried_names leaf))) names with
        | [] => Current presented not_after
        | missing => Due (MissingNames missing)
        end
  end.

(** [Leaf::judge], of the bytes of the two files. *)
Definition judge_files (chain key : string) (authority : Authority) (names : list SubjectName) (window now : Z) : Leaf :=
  match pem_certs chain with
  | Err error => Due (Unparsable (io_error_text error))
  | Ok [] => Due (Unparsable "it holds no PEM certificate")
  | Ok ((presented :: _) as chain) =>
      match pem_private_key key with
      | Err error => Due (Unparsable (io_error_text error))
      | Ok None => Due (Unparsable "its key file holds no PEM private key")
      | Ok (Some key) =>
          match certified chain key with
          | Err error => Due (Unparsable (rustls_text error))
          | Ok _ =>
              match parse_x509 presented with
              | Err error => Due (Unparsable error)
              | Ok leaf => judge_leaf authority names window now presented leaf
              end
          end
      end
  end.

Definition judge (certificate : ServerCertificateConfig) (authority : Authority) (names : list SubjectName)
    (window now : Z) : Io (result Leaf TlsError) :=
  let~? chain := read_file (cert_path certificate) in
  let~? key := read_file (cert_key certificate) in
  io_ret (Ok (match chain, key with
              | Some chain, Some key => judge_files chain key authority names window now
              | _, _ => Due NoCertificate
              end)).

(** ** Issuing *)

(** [fingerprint]. *)
Definition hex_upper (digit : Z) : ascii :=
  Strings.Ascii.ascii_of_nat (Z.to_nat (if digit <? 10 then digit + 48 else digit + 55)).

Definition fingerprint (der : string) : string :=
  join_text ":" ((fun byte => String (hex_upper (byte / 16)) (String (hex_upper (byte mod 16)) "")) <$> sha256 der).

(** [stage]. *)
Definition stage (path : PathBuf) (contents : string) (mode : Z) : Io (Io_result NamedTempFile) :=
  let~? file := tempfile_in (default no_path (path_parent path)) ".ceres-certificate-" mode in
  let~ written := write_all (temp_file file) contents in
  match written with
  | Err error => let~ _ := drop_temp file in io_ret (Err error)
  | Ok _ =>
      let~ synced := sync in
      match synced with
      | Err error => let~ _ := drop_temp file in io_ret (Err error)
      | Ok _ => io_ret (Ok file)
      end
  end.

Definition failed {A} (path : string) (answer : Io_result A) : result A TlsError :=
  match answer with Ok a => Ok a | Err source => Err (WriteFailed path source) end.

(** [write_pair]: the key is moved into place before the certificate. *)
Definition write_pair (certificate_path certificate key_path key : string) : Io (result unit TlsError) :=
  let~? _ := io_map (failed certificate_path) (create_parent_directory (path_buf certificate_path)) in
  let~? _ := io_map (failed key_path) (create_parent_directory (path_buf key_path)) in
  let~? staged_certificate := io_map (failed certificate_path) (stage (path_buf certificate_path) certificate 420) in
  let~ staged_key := stage (path_buf key_path) key 384 in
  match staged_key with
  | Err source => let~ _ := drop_temp staged_certificate in io_ret (Err (WriteFailed key_path source))
  | Ok staged_key =>
      let~ moved := persist staged_key (path_buf key_path) in
      match moved with
      | Err source => let~ _ := drop_temp staged_certificate in io_ret (Err (WriteFailed key_path source))
      | Ok _ => io_map (failed certificate_path) (persist staged_certificate (path_buf certificate_path))
      end
  end.

(** [KeyPair::generate_for]: the next of a supply. *)
Definition generate : Io (result KeyPair string) := fun w =>
  (generate_key (drawn w), {| disk := disk w; script := script w; calls := calls w; drawn := S (drawn w) |}).

Definition issue {A} (answer : result A string) : result A TlsError :=
  match answer with Ok a => Ok a | Err error => Err (Issue error) end.

(** [create_authority]. *)
Definition authority_params (now : Z) : CertificateParams :=
  {| common_name := match hostname with Some host => "Ceres authority for " +:+ host | None => "Ceres authority" end;
     subject_alt_names := [];
     ca_path_length := Some 0;
     key_usages := ["KeyCertSign"];
     extended_key_usages := [];
     use_authority_key_identifier := false;
     params_not_before := now - BACKDATE;
     params_not_after := now - BACKDATE + AUTHORITY_LIFETIME - second |}.

Definition create_authority (path key : string) (now : Z) : Io (result Authority TlsError) :=
  let~ generated := generate in
  match generated with
  | Err error => io_ret (Err (Issue ("cannot generate a key. " +:+ error)))
  | Ok signing_key =>
      let params := authority_params now in
      match self_signed params signing_key with
      | Err error => io_ret (Err (Issue ("cannot sign the authority. " +:+ error)))
      | Ok der =>
          let~? _ := write_pair path (encode_certificate der) key (key_pem signing_key) in
          io_ret (match private_key_of signing_key with
                  | Ok key => Ok (Present [der] key (params_not_after params))
                  | Err error => Err (Issue error)
                  end)
      end
  end.

(** [sign]. *)
Definition leaf_params (alt_names : list SubjectName) (not_before not_after : Z) : CertificateParams :=
  {| common_name := "Ceres";
     subject_alt_names := alt_names;
     ca_path_length := None;
     key_usages := ["DigitalSignature"];
     extended_key_usages := ["ServerAuth"];
     use_authority_key_identifier := true;
     params_not_before := not_before;
     params_not_after := not_after |}.

Definition sign (names : list SubjectName) (authority_chain : list string) (authority_key : PrivateKey)
    (not_before not_after : Z) : Io (result (string * string * string) TlsError) :=
  let~? authority_key := io_ret (issue (key_pair_of authority_key)) in
  let~? issuer := io_ret (issue (issuer_of (default "" (head authority_chain)) authority_key)) in
  let~? key := io_map issue generate in
  let~? alt_names := io_ret (res_map san names) in
  let~? der := io_ret (issue (signed_by_issuer (leaf_params alt_names not_before not_after) key issuer)) in
  io_ret (Ok (foldr (fun certificate rest => certificate +:+ rest) "" (encode_certificate <$> der :: authority_chain),
              key_pem key, der)).

(** ** What startup would do *)

(** [Inspection::of]. *)
Record Inspection := {
  inspected_expires : option Z;
  inspected_renewal : option Renewal;
  creates_authority : bool;
  inspected_warning : option string
}.

Definition is_absent (authority : Authority) : bool := match authority with Absent => true | Present _ _ _ => false end.

Definition inspect (certificate : ServerCertificateConfig) (auto : ServerCertificateAutoConfig) (names : list SubjectName)
    (now : Z) : Io (result Inspection TlsError) :=
  let config := auto_authority auto in
  let supplied := bool_decide (is_Some (auto_ca auto)) in
  let~? authority := read_authority config supplied in
  let~? leaf := judge certificate authority names (renewal_window (auto_days auto)) now in
  io_ret (Ok {| inspected_expires := match leaf with Current _ expires => Some expires | Due _ => None end;
                inspected_renewal := match leaf with Current _ _ => None | Due renewal => Some renewal end;
                creates_authority := is_absent authority;
                inspected_warning := authority_warning authority config supplied now |}).

(** ** Issuing when due *)

(** [Managed]. *)
Record Managed := {
  managed_authority : string;
  created_authority : bool;
  issued : option Renewal;
  managed_names : list SubjectName;
  expires : Z;
  managed_fingerprint : string;
  managed_warning : option string
}.

(** [Issuance]. *)
Record Issuance := { issue_days : Z; issue_authority : ServerCertificateAuthorityConfig; issue_supplied : bool }.

(** Issuing a certificate and writing it, the authority present. *)
Definition issue_leaf (self : Issuance) (certificate : ServerCertificateConfig) (names : list SubjectName) (now : Z)
    (created : bool) (authority : Authority) (renewal : Renewal) : Io (result Managed TlsError) :=
  match authority with
  | Absent => io_ret (Err (Issue "the authority exists once created"))
  | Present authority_chain authority_key _ =>
      let not_before := now - BACKDATE in
      let not_after := not_before + days (issue_days self) - second in
      let~? signed := sign names authority_chain authority_key not_before not_after in
      let '(chain, key, der) := signed in
      let~? _ := write_pair (cert_path certificate) chain (cert_key certificate) key in
      io_ret (Ok {| managed_authority := ca_path (issue_authority self);
                    created_authority := created;
                    issued := Some renewal;
                    managed_names := names;
                    expires := not_after;
                    managed_fingerprint := fingerprint der;
                    managed_warning := authority_warning authority (issue_authority self) (issue_supplied self) now |})
  end.

(** [Issuance::ensure]. *)
Definition ensure_issued (self : Issuance) (certificate : ServerCertificateConfig) (names : list SubjectName) (now : Z)
    (force : bool) : Io (result Managed TlsError) :=
  let config := issue_authority self in
  let~? authority := read_authority config (issue_supplied self) in
  let~? leaf := judge certificate authority names (renewal_window (issue_days self)) now in
  match force, leaf with
  | false, Current presented not_after =>
      io_ret (match parse_x509 presented with
              | Err error => Err (Malformed (cert_path certificate) error)
              | Ok parsed => Ok {| managed_authority := ca_path config;
                                   created_authority := false;
                                   issued := None;
                                   managed_names := carried_names parsed;
                                   expires := not_after;
                                   managed_fingerprint := fingerprint presented;
                                   managed_warning := authority_warning authority config (issue_supplied self) now |}
              end)
  | _, _ =>
      let renewal := match leaf with Due renewal => renewal | Current _ _ => Forced end in
      let now := whole_second now in
      if is_absent authority then
        let~? authority := create_authority (ca_path config) (ca_key config) now in
        issue_leaf self certificate names now true authority renewal
      else issue_leaf self certificate names now false authority renewal
  end.

(** [Managed::ensure]. *)
Definition ensure (base : string) (certificate : ServerCertificateConfig) (auto : ServerCertificateAutoConfig)
    (names : list SubjectName) (now : Z) (force : bool) : Io (result Managed TlsError) :=
  let authority := auto_authority auto in
  ensure_issued
    {| issue_days := auto_days auto;
       issue_authority := {| ca_path := text_join base (ca_path authority); ca_key := text_join base (ca_key authority);
                             ca_password := ca_password authority |};
       issue_supplied := bool_decide (is_Some (auto_ca auto)) |}
    {| cert_path := text_join base (cert_path certificate); cert_key := text_join base (cert_key certificate);
       cert_password := cert_password certificate; cert_auto := cert_auto certificate |} names now force.

(** [Managed::notices]. *)
Definition notices (self : Managed) (certificate : string) : list Notice :=
  match managed_warning self with Some text => [WarningNotice text] | None => [] end ++
  match issued self with
  | None => []
  | Some renewal =>
      (if created_authority self then
         [InfoNotice ("Created the certificate authority " +:+ managed_authority self +:+
            ". Trust it on each client to trust the HTTPS certificate it signs.")]
       else []) ++
      [InfoNotice ("Issued the HTTPS certificate " +:+ certificate +:+ " for " +:+
         join_text ", " (name_text <$> managed_names self) +:+ ", expiring " +:+ date_text (expires self) +:+ ", because " +:+
         renewal_text renewal +:+ ".")]
  end.

(** [Status::of]. *)
Record Status := { status_expires : option Z; status_plan : option string; status_warning : option string }.

Definition status (https : ServerHttpsConfig) (detect : list SubjectName) (now : Z) : Io (result Status TlsError) :=
  let certificate := certificate https in
  match cert_auto certificate with
  | None =>
      let~? presented := certified_key certificate in
      io_ret (match parse_x509 (default "" (head (chain presented))) with
              | Err error => Err (Malformed (cert_path certificate) error)
              | Ok parsed => Ok {| status_expires := Some (not_after parsed); status_plan := None; status_warning := None |}
              end)
  | Some auto =>
      let~? inspection := inspect certificate auto (required auto detect) now in
      let path := cert_path certificate in
      io_ret (Ok {|
        status_expires := unix_timestamp <$> inspected_expires inspection;
        status_plan := (fun renewal =>
          if creates_authority inspection then
            "Startup creates the certificate authority " +:+ ca_path (auto_authority auto) +:+
            " and issues the HTTPS certificate " +:+ path +:+ " with it."
          else "Startup issues a new HTTPS certificate " +:+ path +:+ ", because " +:+ renewal_text renewal +:+ ".")
          <$> inspected_renewal inspection;
        status_warning := inspected_warning inspection |})
  end.

(** ** Serving *)

(** A listener: the certificate it presents, what renews it, and what was
    reported so far. *)
Record Listener := { presented : CertifiedKey; renews : ServerCertificateConfig; reported : list Notice }.

(** [Renewer::ensure], with what was reported. *)
Definition renewer_ensure (certificate : ServerCertificateConfig) (auto : ServerCertificateAutoConfig)
    (detect : list SubjectName) (now : Z) : Io (result (option Managed) TlsError * list Notice) :=
  let~ ensured := ensure "" certificate auto (required auto detect) now false in
  io_ret (match ensured with
          | Err error => (Err error, [])
          | Ok managed =>
              (Ok (match issued managed with Some _ => Some managed | None => None end), notices managed (cert_path certificate))
          end).

(** [Renewer::renew], a failure told as a text. *)
Definition renew (error_text : TlsError -> string) (auto : ServerCertificateAutoConfig) (detect : list SubjectName) (now : Z)
    (self : Listener) : Io Listener :=
  let certificate := renews self in
  let warning error := WarningNotice ("Cannot renew the HTTPS certificate " +:+ cert_path certificate +:+
    ", serving the current one. " +:+ error_text error) in
  let with_reported presented more := {| presented := presented; renews := certificate; reported := reported self ++ more |} in
  let~ ensured := renewer_ensure certificate auto detect now in
  match ensured with
  | (Err error, told) => io_ret (with_reported (presented self) (told ++ [warning error]))
  | (Ok None, told) => io_ret (with_reported (presented self) told)
  | (Ok (Some _), told) =>
      let~ read := certified_key certificate in
      io_ret (match read with
              | Ok key => with_reported key told
              | Err error => with_reported (presented self) (told ++ [warning error])
              end)
  end.

(** [Tls::load_detecting]: what the listener starts with. *)
Definition load (https : ServerHttpsConfig) (detect : list SubjectName) (now : Z) : Io (result Listener TlsError) :=
  let certificate := certificate https in
  let~ ensured :=
    match cert_auto certificate with
    | None => io_ret (Ok None, [])
    | Some auto => renewer_ensure certificate auto detect now
    end in
  match ensured with
  | (Err error, _) => io_ret (Err error)
  | (Ok _, told) =>
      let~? key := certified_key certificate in
      io_ret (Ok {| presented := key; renews := certificate; reported := told |})
  end.

(** [authority_certificate]. *)
Definition authority_certificate (path : string) : Io (result (string * string) TlsError) :=
  let~? chain := read_certificates path in
  io_ret (Ok (encode_certificate (default "" (head chain)), fingerprint (default "" (head chain)))).

(** [trust::Authority]. *)
Definition trust_filename : string :=
  match hostname with Some host => "ceres-" +:+ to_lowercase host +:+ "-ca.crt" | None => "ceres-ca.crt" end.

Definition trust_of (https : ServerHttpsConfig) : option (string * string) :=
  (fun auto => (ca_path (auto_authority auto), trust_filename)) <$> cert_auto (certificate https).
End certificates.
