(* ===== verification/CertificateFacts.v ===== *)
(** * Managed certificates: what is kept, issued and presented

    When a certificate on disk is kept, that what is issued would be, that
    startup's report tells what startup does, that a renewed certificate
    outlasts the next check, and what a listener presents whatever renewing
    comes to.

    The parts after this one: what is issued is kept. *)
From S2P Require Import Prelude.
From S2P Require Import Text Schema Wire Http Disk Config ConfigValues ConfigServer Paths Certificates.
Local Open Scope string_scope.
Local Open Scope list_scope.
Local Open Scope Z_scope.
Local Open Scope ceres_scope.

(** ** Names *)

Section names.
Context `{CertificateCrates} `{Machine}.

Definition unique_step (unique : list SubjectName) (name : SubjectName) : list SubjectName :=
  if bool_decide (lowered name ∈ unique) then unique else unique ++ [lowered name].

Lemma unique_fold names held :
  NoDup held -> NoDup (fold_left unique_step names held) /\
  forall name, name ∈ fold_left unique_step names held <-> name ∈ held \/ name ∈ lowered <$> names.
Proof.
  revert held. induction names as [|name names IH]; intros held Hnd; cbn; [by split; [|set_solver]|].
  assert (Hstep : NoDup (unique_step held name) /\ forall other, other ∈ unique_step held name <-> other ∈ held \/ other = lowered name).
  { unfold unique_step. case_bool_decide as Hin; [by split; [|set_solver]|]. split; [|set_solver].
    apply NoDup_app. split; [done|]. split; [|apply NoDup_singleton]. set_solver. }
  destruct Hstep as [Hnd' Hin]. destruct (IH _ Hnd') as [Hnd'' Hin']. split; [done|]. intros other. rewrite Hin', Hin. set_solver.
Qed.

Lemma unique_spec names : NoDup (unique names) /\ forall name, name ∈ unique names <-> name ∈ lowered <$> names.
Proof. destruct (unique_fold names [] NoDup_nil_2) as [Hnd Hin]. split; [done|]. intros name. rewrite Hin. set_solver. Qed.

Lemma lower_char_twice c : lower_char (lower_char c) = lower_char c.
Proof. by destruct c as [[] [] [] [] [] [] [] []]. Qed.

Lemma lowered_twice name : lowered (lowered name) = lowered name.
Proof.
  destruct name as [name|]; [|done]. cbn. f_equal. induction name as [|c name IH]; [done|]. cbn. by rewrite lower_char_twice, IH.
Qed.
End names.

(** ** What is kept *)

Section kept.
Context `{CertificateCrates} `{Machine} `{TempNames} `{RegexCrate}.

Lemma signed_timestamp now instant : unix_timestamp now <? instant = false <-> instant * second <= now.
Proof.
  unfold unix_timestamp, second. rewrite Z.ltb_ge. split; intros Hle.
  - pose proof (Z.mul_div_le now 1000000000). lia.
  - apply Z.div_le_lower_bound; lia.
Qed.

(** A certificate on disk is kept exactly when it parses with its key, the
    authority signed it, it is valid already, it lasts its renewal window, and
    it names every name asked for. *)
Theorem kept_exactly (chain_text key_text : string) (authority : Authority) (names : list SubjectName)
    (window now : Z) (certificate : string) (expires : Z) :
  judge_files chain_text key_text authority names window now = Current certificate expires <->
  exists rest key leaf authority_chain authority_key authority_expires,
    pem_certs chain_text = Ok (certificate :: rest) /\ pem_private_key key_text = Ok (Some key) /\
    certified (certificate :: rest) key = Ok tt /\ parse_x509 certificate = Ok leaf /\
    authority = Present authority_chain authority_key authority_expires /\
    signed_by leaf (default "" (head authority_chain)) = true /\
    not_before leaf * second <= now /\ expires = not_after leaf * second /\ now + window <= expires /\
    (forall name, name ∈ names -> name ∈ carried_names leaf).
Proof.
  unfold judge_files, judge_leaf. split.
  - destruct (pem_certs chain_text) as [[|presented rest]|]; [done| |done].
    destruct (pem_private_key key_text) as [[key|]|]; [|done|done].
    destruct (certified (presented :: rest) key) as [[]|] eqn:Hcert; [|done].
    destruct (parse_x509 presented) as [leaf|] eqn:Hleaf; [|done].
    destruct authority as [achain akey aexpires|]; [|done].
    destruct (signed_by leaf _) eqn:Hsigned; [|done]. cbn [negb].
    destruct (unix_timestamp now <? not_before leaf) eqn:Hbefore; [done|]. apply signed_timestamp in Hbefore.
    destruct (not_after leaf * second - now <? window) eqn:Hwindow; [done|]. apply Z.ltb_ge in Hwindow.
    destruct (List.filter _ names) as [|missing more] eqn:Hmissing; [|done]. intros [= <- <-].
    exists rest, key, leaf, achain, akey, aexpires. split_and!; try done; [lia|].
    intros name Hname. destruct (decide (name ∈ carried_names leaf)) as [|Hnot]; [done|].
    assert (Hin : name ∈ List.filter (fun name => negb (bool_decide (name ∈ carried_names leaf))) names).
    { apply list_elem_of_In, filter_In. split; [by apply list_elem_of_In|]. by rewrite bool_decide_eq_false_2. }
    rewrite Hmissing in Hin. by apply elem_of_nil in Hin.
  - intros (rest & key & leaf & achain & akey & aexpires & -> & -> & -> & -> & -> & -> & Hbefore & -> & Hwindow & Hnames).
    cbn [negb]. rewrite (proj2 (signed_timestamp _ _) Hbefore).
    rewrite (proj2 (Z.ltb_ge _ _)) by lia.
    replace (List.filter _ names) with (@nil SubjectName); [done|]. symmetry.
    induction names as [|name names IH]; [done|]. cbn. rewrite bool_decide_eq_true_2 by (apply Hnames; by left). cbn.
    apply IH. intros other Hother. apply Hnames. by right.
Qed.

(** ** Lifetimes *)

Lemma whole_second_bounds now : now - second < whole_second now <= now.
Proof. unfold whole_second, second. pose proof (Z.mod_pos_bound now 1000000000). lia. Qed.

Lemma renewal_window_days count : 0 <= count -> renewal_window count = Z.min (count * 8 * 3600 * second) (days 30).
Proof.
  intros Hcount. unfold renewal_window. f_equal. unfold days, second.
  replace (count * 86400 * 1000000000) with (count * 8 * 3600 * 1000000000 * 3) by lia. by rewrite Z.quot_mul.
Qed.

Lemma io_bind_run {A B} (p : Io A) (k : A -> Io B) w : io_bind p k w = k (fst (p w)) (snd (p w)).
Proof. unfold io_bind. by destruct (p w). Qed.

(** A [?] that came through. *)
Lemma try_Ok {A B E} (p : Io (result A E)) (k : A -> Io (result B E)) w b :
  fst ((let~? a := p in k a) w) = Ok b ->
  exists a, fst (p w) = Ok a /\ (let~? a := p in k a) w = k a (snd (p w)).
Proof. rewrite io_bind_run. destruct (p w) as [[a|e] w']; cbn; [|done]. intros _. by exists a. Qed.

Lemma issue_leaf_expires self certificate names now created authority renewal w managed :
  fst (issue_leaf self certificate names now created authority renewal w) = Ok managed ->
  expires managed = now - BACKDATE + days (issue_days self) - second /\ issued managed = Some renewal /\
  managed_names managed = names /\ created_authority managed = created.
Proof.
  unfold issue_leaf. destruct authority as [chain key authority_expires|]; [|done]. intros Hok.
  pose proof Hok as ([[chain_text key_text] der] & _ & Heq)%try_Ok. rewrite Heq in Hok. cbn [fst snd] in Hok.
  pose proof Hok as ([] & _ & Heq')%try_Ok. rewrite Heq' in Hok. cbn in Hok. by injection Hok as <-.
Qed.

(** What an answered run kept or issued. *)
Lemma ensure_issued_cases self certificate names now force w managed :
  fst (ensure_issued self certificate names now force w) = Ok managed ->
  exists authority leaf,
    fst (read_authority (issue_authority self) (issue_supplied self) w) = Ok authority /\
    fst (judge certificate authority names (renewal_window (issue_days self)) now
      (snd (read_authority (issue_authority self) (issue_supplied self) w))) = Ok leaf /\
    ((exists presented parsed not_after, force = false /\ leaf = Current presented not_after /\ parse_x509 presented = Ok parsed /\
        issued managed = None /\ expires managed = not_after /\ created_authority managed = false /\
        managed_warning managed = authority_warning authority (issue_authority self) (issue_supplied self) now) \/
     (issued managed = Some (match leaf with Due renewal => renewal | Current _ _ => Forced end) /\
        (force = true \/ exists renewal, leaf = Due renewal) /\
        expires managed = whole_second now - BACKDATE + days (issue_days self) - second /\
        created_authority managed = is_absent authority)).
Proof.
  unfold ensure_issued. intros Hok.
  pose proof Hok as (authority & Hauthority & Heq)%try_Ok. rewrite Heq in Hok.
  pose proof Hok as (leaf & Hleaf & Heq')%try_Ok. rewrite Heq' in Hok. exists authority, leaf. split; [done|]. split; [done|].
  assert (Hissue : forall w', fst ((if is_absent authority then
      let~? authority := create_authority (ca_path (issue_authority self)) (ca_key (issue_authority self)) (whole_second now) in
      issue_leaf self certificate names (whole_second now) true authority (match leaf with Due renewal => renewal | Current _ _ => Forced end)
    else issue_leaf self certificate names (whole_second now) false authority (match leaf with Due renewal => renewal | Current _ _ => Forced end)) w')
    = Ok managed ->
    issued managed = Some (match leaf with Due renewal => renewal | Current _ _ => Forced end) /\
    expires managed = whole_second now - BACKDATE + days (issue_days self) - second /\ created_authority managed = is_absent authority).
  { intros w' Hrun. destruct (is_absent authority).
    - pose proof Hrun as (made & _ & Heq'')%try_Ok. rewrite Heq'' in Hrun. by apply issue_leaf_expires in Hrun as (? & ? & _ & ?).
    - by apply issue_leaf_expires in Hrun as (? & ? & _ & ?). }
  destruct force; [|destruct leaf as [presented not_after|renewal]].
  - right. apply Hissue in Hok as (? & ? & ?). split_and!; [done|by left|done|done].
  - left. cbn in Hok. destruct (parse_x509 presented) as [parsed|] eqn:Hparsed; [|done]. injection Hok as <-.
    exists presented, parsed, not_after. done.
  - right. apply Hissue in Hok as (? & ? & ?). split_and!; [done|right; by exists renewal|done|done].
Qed.


(** One issued for one day or two is kept by every check up to the last before
    it expires. *)
Theorem short_certificates_lapse (count now : Z) :
  1 <= count <= 2 ->
  let expires := whole_second now - BACKDATE + days count - second in
  renewal_window count <= expires - (now + (count - 1) * RENEWAL_INTERVAL) /\ expires < now + count * RENEWAL_INTERVAL.
Proof.
  intros Hcount expires. pose proof (whole_second_bounds now). rewrite renewal_window_days by lia.
  unfold expires, RENEWAL_INTERVAL, BACKDATE, hours, days, second in *. lia.
Qed.

(** ** What startup would do *)

Lemma text_join_nil path : text_join "" path = path.
Proof. unfold text_join. by destruct (is_absolute path). Qed.

(** From one state of the world, faults and others included, startup's report
    and startup itself read the same: startup keeps the certificate, reported
    with its expiry, or issues one for the reason reported, creating the
    authority when that was reported. *)
Theorem inspection_agrees (certificate : ServerCertificateConfig) (auto : ServerCertificateAutoConfig)
    (names : list SubjectName) (now : Z) (w : World) (managed : Managed) :
  fst (ensure "" certificate auto names now false w) = Ok managed ->
  exists inspection, fst (inspect certificate auto names now w) = Ok inspection /\
    issued managed = inspected_renewal inspection /\
    created_authority managed = (creates_authority inspection && bool_decide (is_Some (issued managed))) /\
    (forall instant, inspected_expires inspection = Some instant -> expires managed = instant /\ issued managed = None).
Proof.
  unfold ensure. rewrite !text_join_nil. destruct certificate as [path key password auto']. cbn [cert_path cert_key cert_password cert_auto].
  set (self := {| issue_days := _; issue_authority := _; issue_supplied := _ |}). intros Hok.
  assert (Hauthority : issue_authority self = auto_authority auto).
  { unfold self. cbn. by destruct (auto_authority auto). }
  apply ensure_issued_cases in Hok as (authority & leaf & Hread & Hjudge & Hcases).
  rewrite Hauthority in *. unfold inspect.
  set (config := auto_authority auto) in *. cbn [issue_supplied issue_days self] in *.
  rewrite io_bind_run, Hread. rewrite io_bind_run, Hjudge. cbn [fst].
  eexists. split; [reflexivity|]. cbn [inspected_renewal inspected_expires creates_authority].
  destruct Hcases as [(presented & parsed & not_after & _ & -> & _ & -> & -> & -> & _)|(-> & Hdue & -> & ->)].
  - split; [done|]. split; [by rewrite andb_comm|]. by intros instant [= <-].
  - destruct Hdue as [[=]|[renewal ->]]. split; [done|]. split; [|done]. cbn. by rewrite andb_comm.
Qed.

(** ** What a listener presents *)

Definition belongs (held : CertifiedKey) : Prop := certified (chain held) (key held) = Ok tt.

Lemma certified_key_belongs certificate w held : fst (certified_key certificate w) = Ok held -> belongs held.
Proof.
  unfold certified_key. rewrite io_bind_run. destruct (negb _); [done|]. rewrite io_bind_run. destruct (negb _); [done|].
  intros Hok. pose proof Hok as (chain & _ & Heq)%try_Ok. rewrite Heq in Hok.
  pose proof Hok as (key & _ & Heq')%try_Ok. rewrite Heq' in Hok. cbn in Hok.
  destruct (certified chain key) as [[]|] eqn:Hcertified; [|done]. by injection Hok as <-.
Qed.

(** A listener starts with a chain and its key, and whatever a renewal comes to
    it presents one: the one it presented, or a new one's once it is issued; it
    keeps all it reported, and reports a warning last when renewing fails. *)
Theorem listener_presents (error_text : TlsError -> string) (auto : ServerCertificateAutoConfig)
    (detect : list SubjectName) (now : Z) (self : Listener) (w : World) :
  belongs (presented self) ->
  let '(renewed, _) := renew error_text auto detect now self w in
  belongs (presented renewed) /\ renews renewed = renews self /\
  exists told, reported renewed = reported self ++ told /\
    match fst (ensure "" (renews self) auto (required auto detect) now false w) with
    | Err error =>
        presented renewed = presented self /\
        told = [WarningNotice ("Cannot renew the HTTPS certificate " +:+ cert_path (renews self) +:+
                               ", serving the current one. " +:+ error_text error)]
    | Ok managed =>
        match issued managed, fst (certified_key (renews self)
                (snd (ensure "" (renews self) auto (required auto detect) now false w))) with
        | None, _ => presented renewed = presented self /\ told = notices managed (cert_path (renews self))
        | Some _, Ok key => presented renewed = key /\ told = notices managed (cert_path (renews self))
        | Some _, Err error =>
            presented renewed = presented self /\
            told = notices managed (cert_path (renews self)) ++
                   [WarningNotice ("Cannot renew the HTTPS certificate " +:+ cert_path (renews self) +:+
                                   ", serving the current one. " +:+ error_text error)]
        end
    end.
Proof.
  intros Hbelongs. unfold renew, renewer_ensure. rewrite io_bind_run, io_bind_run.
  set (run := ensure "" (renews self) auto (required auto detect) now false w).
  destruct (fst run) as [managed|error]; cbn [fst snd io_ret].
  2:{ split_and!; [done|done|]. cbn. by eexists. }
  destruct (issued managed) as [renewal|]; cbn [fst snd io_ret].
  2:{ split_and!; [done|done|]. cbn. by eexists. }
  rewrite io_bind_run. destruct (fst (certified_key (renews self) (snd run))) as [held|error] eqn:Hheld; cbn [fst snd io_ret].
  - split_and!; [by eapply certified_key_belongs|done|]. cbn. by eexists.
  - split_and!; [done|done|]. cbn. by eexists.
Qed.

Theorem listener_starts (https : ServerHttpsConfig) (detect : list SubjectName) (now : Z) (w : World) (self : Listener) :
  fst (load https detect now w) = Ok self -> belongs (presented self) /\ renews self = certificate https.
Proof.
  unfold load. rewrite io_bind_run. destruct (fst (_ w)) as [[outcome|error] told]; [|done]. intros Hok.
  pose proof Hok as (held & Hheld & Heq)%try_Ok. rewrite Heq in Hok. cbn in Hok. injection Hok as <-. cbn.
  split; [by eapply certified_key_belongs|done].
Qed.
End kept.

(** * What is issued is kept

    A certificate Ceres issues is, from then on and until its renewal window,
    one it keeps: what was written parses, belongs together, is signed by the
    authority, and names what was asked for. *)

(** An address as [std::net] has it. *)
Definition ip_ok (address : IpAddr) : Prop :=
  match address with
  | V4 octets => length octets = 4%nat /\ Forall (fun octet => 0 <= octet < 256) octets
  | V6 groups => length groups = 8%nat /\ Forall (fun group => 0 <= group < 65536) groups
  end.
Definition name_ok (name : SubjectName) : Prop := match name with Dns _ => True | Ip address => ip_ok address end.

(** What is relied on of the crates: PEM reads back, a signed certificate
    parses to what it was signed with and belongs to its key, and verifies
    against the authority whose key signed it. *)
Class CertificateLaws `{CertificateCrates} := {
  pem_certs_encoded : forall ders, pem_certs (foldr (fun certificate rest => certificate +:+ rest) "" (encode_certificate <$> ders)) = Ok ders;
  leaf_belongs : forall params pair issuer der, signed_by_issuer params pair issuer = Ok der ->
    exists key, pem_private_key (key_pem pair) = Ok (Some key) /\ forall rest, certified (der :: rest) key = Ok tt;
  leaf_parses : forall params pair issuer der, Forall name_ok (subject_alt_names params) -> signed_by_issuer params pair issuer = Ok der ->
    exists leaf, parse_x509 der = Ok leaf /\
      not_before leaf = unix_timestamp (params_not_before params) /\ not_after leaf = unix_timestamp (params_not_after params) /\
      match subject_alternative_name leaf with
      | Ok (Some general) => omap general_name general = subject_alt_names params
      | Ok None => subject_alt_names params = []
      | Err _ => False
      end;
  signed_verifies : forall authority_der rest authority_key pair issuer_ params leaf_pair der leaf authority,
    certified (authority_der :: rest) authority_key = Ok tt -> key_pair_of authority_key = Ok pair ->
    issuer_of authority_der pair = Ok issuer_ -> signed_by_issuer params leaf_pair issuer_ = Ok der ->
    parse_x509 der = Ok leaf -> parse_x509 authority_der = Ok authority ->
    issuer leaf = subject authority /\ verify_signature leaf (public_key authority) = true;
  authority_parses : forall params pair der, self_signed params pair = Ok der -> exists authority, parse_x509 der = Ok authority;
  authority_belongs : forall params pair der key, self_signed params pair = Ok der -> private_key_of pair = Ok key ->
    certified [der] key = Ok tt
}.

Section issued.
Context `{CertificateLaws} `{Machine} `{TempNames} `{RegexCrate}.

(** An authority whose key belongs to the certificate its chain starts with. *)
Definition sound_authority (authority : Authority) : Prop :=
  match authority with
  | Absent => False
  | Present chain key _ =>
      exists der rest parsed, chain = der :: rest /\ certified chain key = Ok tt /\ parse_x509 der = Ok parsed
  end.

Lemma certificates_in_cons path text ders : certificates_in path text = Ok ders -> ders <> [].
Proof. unfold certificates_in. destruct (pem_certs text) as [[|der rest]|]; [done| |done]. by intros [= <-]. Qed.

Lemma read_present_sound config w authority : fst (read_present config w) = Ok authority -> sound_authority authority.
Proof.
  unfold read_present. intros Hok. pose proof Hok as (chain & Hchain & Heq)%try_Ok. rewrite Heq in Hok.
  pose proof Hok as (key & _ & Heq')%try_Ok. rewrite Heq' in Hok. cbn in Hok.
  destruct (validate_authority config chain key) as [expires|] eqn:Hvalid; [|done]. injection Hok as <-.
  unfold read_certificates in Hchain. pose proof Hchain as (text & _ & Heq'')%try_Ok. rewrite Heq'' in Hchain. cbn in Hchain.
  apply certificates_in_cons in Hchain as Hne. destruct chain as [|der rest]; [done|].
  unfold validate_authority in Hvalid. cbv zeta in Hvalid. change (default "" (head (der :: rest))) with der in Hvalid.
  destruct (parse_x509 der) as [parsed|] eqn:Hparsed; [|done]. destruct (is_ca parsed); [|done]. cbn [negb] in Hvalid.
  exists der, rest, parsed. split; [done|]. split; [|done].
  destruct (key_cert_sign parsed) as [[[]|]|]; try done; destruct (certified (der :: rest) key) as [[]|[]]; done.
Qed.

Lemma read_authority_sound config supplied w authority :
  fst (read_authority config supplied w) = Ok authority -> authority = Absent \/ sound_authority authority.
Proof.
  unfold read_authority. rewrite io_bind_run, io_bind_run.
  destruct (fst (exists_ _ w)), (fst (exists_ _ _)), supplied; cbn [negb andb Bool.eqb];
    first [by intros [=] | by intros [= <-]; left | intros Hok; right; by eapply read_present_sound].
Qed.

Lemma create_authority_sound path key now w authority :
  fst (create_authority path key now w) = Ok authority -> sound_authority authority.
Proof.
  unfold create_authority. rewrite io_bind_run. destruct (fst (generate w)) as [pair|]; [|done].
  destruct (self_signed (authority_params now) pair) as [der|] eqn:Hsigned; [|done]. intros Hok.
  pose proof Hok as ([] & _ & Heq)%try_Ok. rewrite Heq in Hok. cbn in Hok.
  destruct (private_key_of pair) as [private|] eqn:Hprivate; [|done]. injection Hok as <-.
  destruct (authority_parses _ _ _ Hsigned) as [parsed Hparsed]. exists der, [], parsed. split; [done|].
  split; [by eapply authority_belongs|done].
Qed.

Lemma sans_kept names alt_names : res_map san names = Ok alt_names -> alt_names = names.
Proof.
  revert alt_names. induction names as [|name names IH]; intros alt_names; cbn; [by intros [= <-]|].
  destruct (san name) as [alt|] eqn:Hsan; [|done]. destruct (res_map san names) as [rest|]; [|done]. intros [= <-].
  f_equal; [|by apply IH]. unfold san in Hsan. destruct name as [text|address]; [|congruence].
  by destruct (ia5_string text); [injection Hsan as <-|].
Qed.

Lemma whole_second_plus now count : whole_second (whole_second now + count * second) = whole_second now + count * second.
Proof.
  assert (Hwhole : whole_second now = now / second * second).
  { unfold whole_second, second. pose proof (Z.div_mod now 1000000000). lia. }
  rewrite Hwhole, <- Z.mul_add_distr_r. unfold whole_second. rewrite Z.mod_mul by done. lia.
Qed.

(** The names asked for, as [required] gives them. *)
Definition asked (names : list SubjectName) : Prop := Forall (fun name => name_ok name /\ lowered name = name) names.

(** What signing came through with. *)
Lemma sign_Ok names chain key not_before_ not_after_ w chain_text key_text der :
  fst (sign names chain key not_before_ not_after_ w) = Ok (chain_text, key_text, der) ->
  exists pair issuer_ leaf_pair,
    key_pair_of key = Ok pair /\ issuer_of (default "" (head chain)) pair = Ok issuer_ /\
    signed_by_issuer (leaf_params names not_before_ not_after_) leaf_pair issuer_ = Ok der /\
    chain_text = foldr (fun certificate rest => certificate +:+ rest) "" (encode_certificate <$> der :: chain) /\
    key_text = key_pem leaf_pair.
Proof.
  unfold sign, issue. intros Hok.
  pose proof Hok as (pair & Hpair & Heq)%try_Ok. rewrite Heq in Hok. clear Heq. cbn [fst io_ret] in Hpair.
  pose proof Hok as (issuer_ & Hissuer & Heq)%try_Ok. rewrite Heq in Hok. clear Heq. cbn [fst io_ret] in Hissuer.
  pose proof Hok as (leaf_pair & _ & Heq)%try_Ok. rewrite Heq in Hok. clear Heq.
  pose proof Hok as (alt_names & Halt & Heq)%try_Ok. rewrite Heq in Hok. clear Heq. cbn [fst io_ret] in Halt. apply sans_kept in Halt as ->.
  pose proof Hok as (der_ & Hder & Heq)%try_Ok. rewrite Heq in Hok. clear Heq. cbn [fst io_ret] in Hok, Hder. injection Hok as <- <- <-.
  destruct (key_pair_of key) as [pair'|]; [|done]. injection Hpair as ->.
  destruct (issuer_of _ pair) as [issuer'|] eqn:Hissuer_of; [|done]. injection Hissuer as ->.
  destruct (signed_by_issuer _ _ _) as [der'|] eqn:Hsigned; [|done]. injection Hder as ->.
  by exists pair, issuer_, leaf_pair.
Qed.

Lemma signed_kept names chain key expires_ not_before_ not_after_ w chain_text key_text der window now :
  sound_authority (Present chain key expires_) -> asked names ->
  fst (sign names chain key not_before_ not_after_ w) = Ok (chain_text, key_text, der) ->
  not_before_ <= now -> now + window <= whole_second not_after_ ->
  judge_files chain_text key_text (Present chain key expires_) names window now = Current der (whole_second not_after_).
Proof.
  intros (head_ & tail_ & parsed & -> & Hcertified & Hparsed) Hasked
    (pair & issuer_ & leaf_pair & Hkeypair & Hissuer_of & Hsigned & -> & ->)%sign_Ok Hbefore Hwindow.
  change (default "" (head (head_ :: tail_))) with head_ in Hissuer_of.
  destruct (leaf_belongs _ _ _ _ Hsigned) as (private & Hprivate & Hbelongs).
  assert (Hnames : Forall name_ok names) by (eapply Forall_impl; [exact Hasked|]; by intros ? [? _]).
  destruct (leaf_parses (leaf_params names not_before_ not_after_) _ _ _ Hnames Hsigned) as (leaf & Hleaf & Hnb & Hna & Hsan).
  cbn [params_not_before params_not_after leaf_params subject_alt_names] in *.
  destruct (signed_verifies _ _ _ _ _ _ _ _ _ _ Hcertified Hkeypair Hissuer_of Hsigned Hleaf Hparsed) as [Hissuer Hverify].
  assert (Hwhole : not_after leaf * second = whole_second not_after_).
  { rewrite Hna. unfold unix_timestamp, whole_second, second. pose proof (Z.div_mod not_after_ 1000000000). lia. }
  apply kept_exactly. exists (head_ :: tail_), private, leaf, (head_ :: tail_), key, expires_.
  split_and!; try done.
  - apply (pem_certs_encoded (der :: head_ :: tail_)).
  - unfold signed_by. change (default "" (head (head_ :: tail_))) with head_. rewrite Hparsed, Hverify.
    by rewrite bool_decide_eq_true_2.
  - rewrite Hnb. unfold unix_timestamp, second. pose proof (Z.mul_div_le not_before_ 1000000000). lia.
  - intros name Hname. unfold carried_names.
    destruct (subject_alternative_name leaf) as [[general|]|]; [|rewrite Hsan in Hname; by apply elem_of_nil in Hname|done].
    rewrite Hsan. apply unique_spec, list_elem_of_fmap. exists name. split; [|done].
    unfold asked in Hasked. rewrite Forall_forall in Hasked. by destruct (Hasked name Hname).
Qed.

(** The texts handed to the disk are ones a later check keeps. *)
Definition kept_texts (self : Issuance) (certificate : ServerCertificateConfig) (names : list SubjectName) (now : Z)
    (managed : Managed) : Prop :=
  exists authority chain key before,
    sound_authority authority /\
    fst (write_pair (cert_path certificate) chain (cert_key certificate) key before) = Ok tt /\
    forall later, now <= later -> later + renewal_window (issue_days self) <= expires managed ->
    exists der, judge_files chain key authority names (renewal_window (issue_days self)) later = Current der (expires managed) /\
      managed_fingerprint managed = fingerprint der.

Lemma issue_leaf_kept self certificate names now created authority renewal w managed :
  asked names -> sound_authority authority ->
  fst (issue_leaf self certificate names (whole_second now) created authority renewal w) = Ok managed ->
  kept_texts self certificate names now managed.
Proof.
  intros Hasked Hsound Hrun. unfold issue_leaf in Hrun. destruct authority as [chain key authority_expires|]; [|done].
  pose proof Hrun as ([[chain_text key_text] der] & Hsign & Heq)%try_Ok. rewrite Heq in Hrun. cbn [fst snd] in Hrun.
  pose proof Hrun as ([] & Hwrite & Heq')%try_Ok. rewrite Heq' in Hrun. cbn in Hrun. injection Hrun as <-.
  exists (Present chain key authority_expires), chain_text, key_text. eexists. split; [done|]. split; [exact Hwrite|].
  cbn [expires managed_fingerprint]. intros later Hlater Hwindow. exists der. split; [|done].
  set (last_ := whole_second now - BACKDATE + days (issue_days self) - second) in *.
  assert (Hlast : whole_second last_ = last_).
  { replace last_ with (whole_second now + (issue_days self * 86400 - 3601) * second)
      by (unfold last_, BACKDATE, hours, days, second; lia). apply whole_second_plus. }
  rewrite <- Hlast. apply signed_kept with (not_before_ := whole_second now - BACKDATE) (w := w); [done|done|exact Hsign| |by rewrite Hlast].
  pose proof (whole_second_bounds now). unfold BACKDATE, hours, second in *. lia.
Qed.

Lemma ensure_issued_kept self certificate names now force w managed :
  asked names -> fst (ensure_issued self certificate names now force w) = Ok managed -> is_Some (issued managed) ->
  kept_texts self certificate names now managed.
Proof.
  intros Hasked Hok Hissued. unfold ensure_issued in Hok.
  pose proof Hok as (authority & Hauthority & Heq)%try_Ok. rewrite Heq in Hok.
  pose proof Hok as (leaf & _ & Heq')%try_Ok. rewrite Heq' in Hok.
  assert (Hdue : forall renewal w', fst ((if is_absent authority then
      let~? authority := create_authority (ca_path (issue_authority self)) (ca_key (issue_authority self)) (whole_second now) in
      issue_leaf self certificate names (whole_second now) true authority renewal
    else issue_leaf self certificate names (whole_second now) false authority renewal) w') = Ok managed ->
    kept_texts self certificate names now managed).
  { intros renewal w' Hrun. apply read_authority_sound in Hauthority as [->|Hsound].
    - cbn in Hrun. pose proof Hrun as (made & Hmade & Heq'')%try_Ok. rewrite Heq'' in Hrun.
      apply create_authority_sound in Hmade. by eapply issue_leaf_kept.
    - destruct authority; [|done]. eapply issue_leaf_kept; [exact Hasked|exact Hsound|exact Hrun]. }
  destruct force; [|destruct leaf as [presented not_after|renewal]]; [by eapply Hdue| |by eapply Hdue].
  cbn in Hok. destruct (parse_x509 presented); [|done]. injection Hok as <-. by destruct Hissued.
Qed.

End issued.

(** * Managed certificates over concrete crates

    Certificates as texts that spell what they were signed with, satisfying the
    laws of [CertificateKept], and the theorems at concrete runs. *)
From stdpp Require Import pretty countable.
From S2P Require Import Text Wire Schema Http Disk ConfigValues Config ConfigServer Paths Certificates.
Local Open Scope string_scope.
Local Open Scope list_scope.
Local Open Scope Z_scope.
Local Open Scope ceres_scope.

(** ** Texts *)

Fixpoint bits (p : positive) : string :=
  match p with xH => "" | xO p => String "0" (bits p) | xI p => String "1" (bits p) end.
Fixpoint unbits (text : string) : positive :=
  match text with
  | EmptyString => xH
  | String c text => if Strings.Ascii.eqb c "1" then xI (unbits text) else xO (unbits text)
  end.

Lemma unbits_bits p : unbits (bits p) = p.
Proof. induction p as [p IH|p IH|]; cbn; [by rewrite IH..|done]. Qed.

Definition nl : ascii := Strings.Ascii.ascii_of_nat 10.

(** A line of any text: newlines escaped. *)
Fixpoint escape (text : string) : string :=
  match text with
  | EmptyString => ""
  | String c text =>
      if Strings.Ascii.eqb c nl then String "%" (String "n" (escape text))
      else if Strings.Ascii.eqb c "%" then String "%" (String "p" (escape text))
      else String c (escape text)
  end.
Fixpoint unescape (text : string) : string :=
  match text with
  | String "%" (String "n" text) => String nl (unescape text)
  | String "%" (String _ text) => String "%" (unescape text)
  | String c text => String c (unescape text)
  | EmptyString => ""
  end.

Lemma unescape_escape text : unescape (escape text) = text.
Proof.
  induction text as [|c text IH]; [done|]. cbn [escape].
  destruct (Strings.Ascii.eqb_spec c nl) as [->|Hnl]; [cbn; by rewrite IH|].
  destruct (Strings.Ascii.eqb_spec c "%") as [->|Hpercent]; [cbn; by rewrite IH|].
  destruct c as [[] [] [] [] [] [] [] []]; by cbn; rewrite IH.
Qed.

Lemma escape_line text : contains_char nl (escape text) = false.
Proof.
  induction text as [|c text IH]; [done|]. cbn [escape].
  destruct (Strings.Ascii.eqb_spec c nl) as [->|Hnl]; [by cbn; rewrite IH|].
  destruct (Strings.Ascii.eqb_spec c "%") as [->|Hpercent]; [by cbn; rewrite IH|]. cbn [contains_char]. rewrite IH.
  by destruct (Strings.Ascii.eqb_spec c nl).
Qed.

Definition sample_encode (der : string) : string := String "C" (escape der) +:+ String nl "".
Definition sample_certs (text : string) : list string :=
  omap (fun line => match line with String "C" line => Some (unescape line) | _ => None end) (str_split nl text).

Lemma sample_certs_encode ders : sample_certs (foldr (fun certificate rest => certificate +:+ rest) "" (sample_encode <$> ders)) = ders.
Proof.
  unfold sample_certs. induction ders as [|der ders IH]; [done|]. cbn [fmap list_fmap foldr]. unfold sample_encode at 1.
  rewrite str_app_assoc. change (String nl "" +:+ ?rest) with (String nl rest).
  rewrite str_split_concat, str_split_single. 2:{ cbn. apply escape_line. }
  cbn [app omap list_omap]. rewrite unescape_escape. f_equal. exact IH.
Qed.

(** ** Certificates *)

(** Whether it is an authority, its validity, whose key signed it, its own, and
    its names. *)
Definition Flat : Type := (bool * (Z * Z)) * ((positive * positive) * list (string + (list Z + list Z))).

Definition flat_name (name : SubjectName) : string + (list Z + list Z) :=
  match name with Dns name => inl name | Ip (V4 octets) => inr (inl octets) | Ip (V6 groups) => inr (inr groups) end.
Definition flat_general (name : string + (list Z + list Z)) : GeneralName :=
  match name with
  | inl name => DnsGeneral name
  | inr (inl octets) => IpGeneral octets
  | inr (inr groups) => IpGeneral (flat_map (fun group => [group / 256; group mod 256]) groups)
  end.

Definition der_of (flat : Flat) : string := bits (encode flat).
Definition flat_of (der : string) : option Flat := decode (unbits der).

Lemma flat_of_der flat : flat_of (der_of flat) = Some flat.
Proof. unfold flat_of, der_of. by rewrite unbits_bits, decode_encode. Qed.

Definition sample_parse (der : string) : result X509Certificate string :=
  match flat_of der with
  | Some ((ca, (nb, na)), ((signer, own), alts)) =>
      Ok {| is_ca := ca; key_cert_sign := Ok None; not_before := nb; not_after := na; issuer := bits signer;
            subject := bits own; public_key := bits own; subject_alternative_name := Ok (Some (flat_general <$> alts)) |}
  | None => Err "not a certificate"
  end.

Definition sample_signed (ca : bool) (params : CertificateParams) (signer own : positive) : string :=
  der_of ((ca, (unix_timestamp (params_not_before params), unix_timestamp (params_not_after params))),
          ((signer, own), flat_name <$> subject_alt_names params)).

Definition sample_certified (ders : list string) (key : positive) : result unit RustlsError :=
  match flat_of (default "" (head ders)) with
  | Some (_, ((_, own), _)) => if decide (own = key) then Ok tt else Err (InconsistentKeys "keys may not be consistent")
  | None => Err (OtherRustls "invalid certificate")
  end.

#[export] Instance sample_crates : CertificateCrates := {|
  PrivateKey := positive;
  KeyPair := positive;
  Issuer := positive;
  pem_certs text := Ok (sample_certs text);
  pem_private_key text := Ok (Some (unbits text));
  certified := sample_certified;
  parse_x509 := sample_parse;
  verify_signature leaf key := bool_decide (issuer leaf = key);
  document_from_pem _ := Err "not encrypted";
  decrypt_key _ _ := Err "not encrypted";
  generate_key seed := Ok (Pos.of_succ_nat seed);
  key_pair_of key := Ok key;
  private_key_of pair := Ok pair;
  key_pem := bits;
  issuer_of _ pair := Ok pair;
  ia5_string _ := Ok tt;
  self_signed params pair := Ok (sample_signed true params pair pair);
  signed_by_issuer params pair issuer := Ok (sample_signed false params issuer pair);
  encode_certificate := sample_encode;
  sha256 der := [Z.of_nat (String.length der) mod 256];
  date_text instant := pretty instant;
  ip_text _ := "address";
  io_error_text := io_text
|}.

Lemma groups_of_flat groups :
  length groups = 8%nat -> Forall (fun group => 0 <= group < 65536) groups ->
  groups_of (flat_map (fun group => [group / 256; group mod 256]) groups) = groups.
Proof.
  intros Hlength _. do 9 (destruct groups as [|? groups]; try done).
  unfold groups_of. cbn. by rewrite !(Z.mul_comm (_ / 256)), <- !Z.div_mod.
Qed.

Lemma flat_name_kept name : name_ok name -> general_name (flat_general (flat_name name)) = Some name.
Proof.
  destruct name as [name|[octets|groups]]; [done| |]; intros [Hlength Hrange].
  - unfold flat_name, flat_general, general_name. by rewrite Hlength.
  - unfold flat_name, flat_general, general_name. rewrite groups_of_flat by done.
    assert (Hsixteen : length (flat_map (fun group => [group / 256; group mod 256]) groups) = 16%nat).
    { by do 9 (destruct groups as [|? groups]; try done). }
    by rewrite Hsixteen.
Qed.

Lemma flat_names_kept names : Forall name_ok names -> omap general_name (flat_general <$> (flat_name <$> names)) = names.
Proof.
  induction 1 as [|name names Hname _ IH]; [done|]. cbn [fmap list_fmap omap list_omap].
  rewrite flat_name_kept by done. by f_equal.
Qed.

#[export] Program Instance sample_laws : CertificateLaws := {| pem_certs_encoded := _ |}.
Next Obligation. intros ders. cbn. f_equal. apply sample_certs_encode. Qed.
Next Obligation.
  intros params pair issuer der [= <-]. exists pair. cbn. rewrite unbits_bits. split; [done|]. intros rest.
  unfold sample_certified. cbn. unfold sample_signed. rewrite flat_of_der. by rewrite decide_True.
Qed.
Next Obligation.
  intros params pair issuer der Hnames [= <-]. cbn. unfold sample_parse, sample_signed. rewrite flat_of_der.
  eexists. split; [done|]. cbn. split_and!; [done|done|]. by apply flat_names_kept.
Qed.
Next Obligation.
  intros authority_der rest key pair issuer_ params leaf_pair der leaf authority Hcertified [= <-] [= <-] [= <-] Hleaf Hauthority.
  cbn in *. unfold sample_parse, sample_signed in Hleaf. rewrite flat_of_der in Hleaf. injection Hleaf as <-. cbn.
  unfold sample_certified in Hcertified. unfold sample_parse in Hauthority. cbn in Hcertified.
  destruct (flat_of authority_der) as [[[ca [nb na]] [[signer own] alts]]|]; [|done]. case_decide as Hown; [|done]. subst.
  injection Hauthority as <-. cbn. by rewrite bool_decide_eq_true_2.
Qed.
Next Obligation. intros params pair der [= <-]. cbn. unfold sample_parse, sample_signed. rewrite flat_of_der. by eexists. Qed.
Next Obligation.
  intros params pair der key [= <-] [= <-]. cbn. unfold sample_certified, sample_signed. cbn. rewrite flat_of_der.
  by rewrite decide_True.
Qed.

(** ** Runs *)

#[export] Instance sample_machine : Machine := {| gethostname := None; interface_addresses := [] |}.
#[export] Instance sample_temp_names : TempNames := {| temp_name := fun n => pretty n |}.
#[export] Instance sample_regex : RegexCrate := {| regex_match _ _ := true; debug_text text := text |}.

Definition directory_inode : Inode := {| shape := Directory; modified := None; created := None; permissions := 493 |}.

(** A project directory, empty. *)
Definition project_disk : Disk :=
  {| names := {[ [] := 0; ["srv"] := 1 ]}; inodes := {[ 0 := directory_inode; 1 := directory_inode ]}; Disk.now := 7; cwd := ["srv"] |}.

Definition resting (d : Disk) : World := {| disk := d; script := []; calls := []; drawn := 0 |}.

Definition sample_auto : ServerCertificateAutoConfig :=
  {| auto_ip := []; auto_dns := []; auto_days := 365; auto_ca := None |}.
Definition sample_certificate : ServerCertificateConfig :=
  {| cert_path := DEFAULT_TLS_CERT; cert_key := DEFAULT_TLS_KEY; cert_password := None; cert_auto := Some sample_auto |}.

Definition sample_names : list SubjectName := required sample_auto detected.
Definition sample_now : Z := 1700000000 * second + 5.

Definition sample_run (now : Z) (w : World) : result Managed TlsError * World :=
  ensure "" sample_certificate sample_auto sample_names now false w.

Definition issued_run := sample_run sample_now (resting project_disk).

Example issued_at_first :
  exists managed, fst issued_run = Ok managed /\ issued managed = Some NoCertificate /\ created_authority managed = true.
Proof. eexists. vm_compute. done. Qed.

(** Run again a day later, the certificate is kept and nothing is written. *)
Example kept_later :
  let later := sample_run (sample_now + RENEWAL_INTERVAL) (resting (disk (snd issued_run))) in
  (exists managed, fst later = Ok managed /\ issued managed = None) /\ disk (snd later) = disk (snd issued_run).
Proof. split; [eexists; vm_compute; done|by vm_compute]. Qed.

(** The files are private as they should be, and the state ignores itself. *)
Example issued_files :
  exists key chain, fst (fs_read (path_buf DEFAULT_TLS_KEY) (snd issued_run)) = Ok key /\
    fst (fs_read (path_buf DEFAULT_TLS_CERT) (snd issued_run)) = Ok chain /\
    fst (fs_read (path_buf ".ceres/.gitignore") (snd issued_run)) = Ok ignore_text /\
    (permissions ∘ inode) <$> stands (disk (snd issued_run)) ["srv"; ".ceres"; "tls"; "server.key"] = Some 384.
Proof. do 2 eexists. by vm_compute. Qed.

Definition sample_managed : Managed :=
  match fst issued_run with
  | Ok managed => managed
  | Err _ => {| managed_authority := ""; created_authority := false; issued := None; managed_names := []; expires := 0;
                managed_fingerprint := ""; managed_warning := None |}
  end.

Lemma issued_run_ok : fst issued_run = Ok sample_managed.
Proof. by vm_compute. Qed.


Lemma inspection_agrees_witness :
  exists inspection, fst (inspect sample_certificate sample_auto sample_names sample_now (resting project_disk)) = Ok inspection /\
    inspected_renewal inspection = Some NoCertificate /\ creates_authority inspection = true.
Proof.
  destruct (inspection_agrees sample_certificate sample_auto sample_names sample_now (resting project_disk) sample_managed issued_run_ok)
    as (inspection & Hrun & Hrenewal & Hcreated & _).
  exists inspection. split; [exact Hrun|]. split; [by rewrite <- Hrenewal; vm_compute|].
  assert (H : created_authority sample_managed = true) by (by vm_compute). rewrite Hcreated in H. by apply andb_true_iff in H as [? _].
Defined.

Lemma sample_asked : asked sample_names.
Proof. repeat constructor; done || (cbn; repeat constructor; lia). Qed.


(** A listener over what was issued, its certificate then removed. *)
Definition sample_listener : Listener := {| presented := {| chain := [der_of ((false, (0, 0)), ((1%positive, 1%positive), []))]; key := 1%positive |};
  renews := sample_certificate; reported := [] |}.

Lemma listener_presents_witness :
  let renewed := fst (renew (fun _ => "error") sample_auto detected sample_now sample_listener (resting project_disk)) in
  belongs (presented renewed) /\ Pos.eqb (key (presented renewed)) 1 = false.
Proof.
  assert (Hbelongs : belongs (presented sample_listener)) by (by vm_compute).
  pose proof (listener_presents (fun _ => "error") sample_auto detected sample_now sample_listener (resting project_disk) Hbelongs) as Hrenewed.
  cbv zeta. split.
  - destruct (renew _ _ _ _ _ _) as [renewed w]. by destruct Hrenewed.
  - vm_compute. reflexivity.
Defined.
