(* ===== verification/Service.v ===== *)
(** * The background service

    [ceres-cli/src/service.rs], with the project it is for ([project.rs]), the
    executables it names ([runtime.rs]) and the commands that manage it
    ([commands/service.rs]). The machine answers each question and each command
    as it will; a run is the steps taken on it, with their answers. *)
From S2P Require Import Prelude.
From stdpp Require Import pretty.
From S2P Require Import Text Wire Json Http Rows Screen Dump Client Disk Paths Config ConfigServer ConfigDatabase.
Local Open Scope string_scope.
Local Open Scope list_scope.

(** ** The machine *)

(** What a command that ran leaves: its exit code, none where a signal ended
    it, and its standard error. *)
Record Finished := { exit_code : option Z; stderr_text : string }.

Inductive Did :=
  | ReadFile (path : string) (answer : option string)
  | LookedFor (path : string) (there : bool)
  | LookedForFile (path : string) (there : bool)
  | Resolved (path : string) (answer : option string)
  | MadeDirectories (path : string) (answer : result unit string)
  | WroteFile (path contents : string) (answer : result unit string)
  | RemovedFile (path : string) (answer : result unit string)
  | RanCommand (program : string) (arguments : list string) (environment : list (string * string))
      (answer : result Finished string)
  | SleptFor (millis : Z)
  | Told (message : string)
  | ToldTable (table : Table)
  | Output_ (bytes : string).

Definition History : Type := list Did.

(** The process's surroundings, which stay as they are while it runs, and the
    answers the machine gives after what was done so far. *)
Class Computer := {
  variable : string -> option string;
  user_id : Z;
  argument_zero : option string;
  working_directory : option string;
  current_executable : result string string;
  target_os : string;
  on_read : History -> string -> option string;
  on_look : History -> string -> bool;
  on_look_file : History -> string -> bool;
  on_resolve : History -> string -> option string;
  on_directories : History -> string -> result unit string;
  on_write : History -> string -> string -> result unit string;
  on_remove : History -> string -> result unit string;
  on_command : History -> string -> list string -> list (string * string) -> result Finished string
}.

Definition Act (A : Type) : Type := History -> A * History.

Definition give {A} (a : A) : Act A := fun history => (a, history).
Definition after_act {A B} (m : Act A) (k : A -> Act B) : Act B :=
  fun history => let (a, history) := m history in k a history.

(** [?]. *)
Definition next_ok {A B E} (m : Act (result A E)) (k : A -> Act (result B E)) : Act (result B E) :=
  after_act m (fun answer => match answer with Ok a => k a | Err error => give (Err error) end).

Declare Scope act_scope.
Notation "'act!' x ':=' m 'in' k" := (after_act m (fun x => k))
  (at level 200, x pattern, m at level 100, k at level 200, right associativity) : act_scope.
Notation "'act?' x ':=' m 'in' k" := (next_ok m (fun x => k))
  (at level 200, x pattern, m at level 100, k at level 200, right associativity) : act_scope.
Local Open Scope act_scope.

(** One step: the machine's answer, and the step with it. *)
Definition take_step {A} (answer : History -> A) (did : A -> Did) : Act A :=
  fun history => let a := answer history in (a, history ++ [did a]).

Section machine.
Context `{Computer}.

(** [std::fs], [std::process] and the terminal. *)
Definition read_at (path : string) : Act (option string) := take_step (fun h => on_read h path) (ReadFile path).
Definition path_exists (path : string) : Act bool := take_step (fun h => on_look h path) (LookedFor path).
Definition path_is_file (path : string) : Act bool := take_step (fun h => on_look_file h path) (LookedForFile path).
Definition canonicalize (path : string) : Act (option string) := take_step (fun h => on_resolve h path) (Resolved path).
Definition make_directories (path : string) : Act (result unit string) :=
  take_step (fun h => on_directories h path) (MadeDirectories path).
Definition write_file (path contents : string) : Act (result unit string) :=
  take_step (fun h => on_write h path contents) (WroteFile path contents).
Definition remove_path (path : string) : Act (result unit string) := take_step (fun h => on_remove h path) (RemovedFile path).
Definition run_command (program : string) (arguments : list string) (environment : list (string * string)) :
    Act (result Finished string) :=
  take_step (fun h => on_command h program arguments environment) (RanCommand program arguments environment).
Definition sleep_for (millis : Z) : Act unit := take_step (fun _ => tt) (fun _ => SleptFor millis).
Definition tell_user (message : string) : Act unit := take_step (fun _ => tt) (fun _ => Told message).
Definition tell_table (table : Table) : Act unit := take_step (fun _ => tt) (fun _ => ToldTable table).
Definition print_bytes (bytes : string) : Act unit := take_step (fun _ => tt) (fun _ => Output_ bytes).

(** ** Paths as texts *)

(** [Path::parent]: the text without its last component and the separators and
    single dots left at its end; a dot that begins a relative path is a
    component of it. The segments come last first. *)
Fixpoint trim_back (rooted : bool) (segments : list string) : list string :=
  match segments with
  | [] => []
  | [first] => if bool_decide (first = "") || (rooted && bool_decide (first = ".")) then [] else segments
  | segment :: before => if bool_decide (segment = "") || bool_decide (segment = ".") then trim_back rooted before else segments
  end.

Definition text_parent (path : string) : option string :=
  let rooted := is_absolute path in
  let segments := str_split "/" path in
  match trim_back rooted (rev (if rooted then tail segments else segments)) with
  | [] => None
  | _ :: before => Some ((if rooted then "/" else "") +:+ str_join "/" (rev (trim_back rooted before)))
  end.

(** [Path::components], counted. *)
Definition component_count (path : string) : nat :=
  length (components path) +
  (if is_absolute path || bool_decide (head (str_split "/" path) = Some ".") then 1 else 0).

(** ** Executables *)

(** [which], over the directories [split_paths] gives. *)
Fixpoint which_in (directories : list string) (name : string) : Act (option string) :=
  match directories with
  | [] => give None
  | directory :: directories =>
      let candidate := text_join directory name in
      act! there := path_is_file candidate in
      if (there : bool) then give (Some candidate) else which_in directories name
  end.

Definition which (name : string) : Act (option string) :=
  match variable "PATH" with
  | None => give None
  | Some path => which_in (str_split ":" path) name
  end.

(** [invoked_executable]. *)
Definition invoked_executable : Act (option string) :=
  match argument_zero with
  | None => give None
  | Some argument =>
      act! path :=
        (if (1 <? component_count argument)%nat
         then give ((fun directory => text_join directory argument) <$> working_directory)
         else which argument) in
      match path with
      | None => give None
      | Some path =>
          act! there := path_is_file path in
          give (if (there : bool) then Some path else None)
      end
  end.

Section failures.
Context `{Painters} (to_string_pretty : Jvalue -> option string).
Notation failed := (exit_failed to_string_pretty).

(** [find_python]: beside an executable, in the active environment, on [PATH]. *)
Definition PYTHON : string := "CERES_PYTHON".

Fixpoint python_beside (candidates : list (option string)) : Act (option string) :=
  match candidates with
  | [] => give None
  | None :: candidates => python_beside candidates
  | Some candidate :: candidates =>
      match text_parent candidate with
      | None => python_beside candidates
      | Some directory =>
          let sibling := text_join directory "python" in
          act! there := path_is_file sibling in
          if (there : bool) then give (Some sibling) else python_beside candidates
      end
  end.

Definition active_python : Act (option string) :=
  match variable "VIRTUAL_ENV" with
  | None => give None
  | Some environment =>
      let python := text_join (text_join environment "bin") "python" in
      act! there := path_is_file python in
      give (if (there : bool) then Some python else None)
  end.

Fixpoint python_on_path (names : list string) : Act (option string) :=
  match names with
  | [] => give None
  | name :: names =>
      act! found := which name in
      match found with Some python => give (Some python) | None => python_on_path names end
  end.

Definition find_python : Act (result string Exit) :=
  match variable PYTHON with
  | Some python => give (Ok python)
  | None =>
      act! invoked := invoked_executable in
      let current := match current_executable with Ok path => Some path | Err _ => None end in
      act! beside := python_beside [invoked; current] in
      match beside with
      | Some python => give (Ok python)
      | None =>
          act! active := active_python in
          match active with
          | Some python => give (Ok python)
          | None =>
              act! found := python_on_path ["python3"; "python"] in
              give match found with
                   | Some python => Ok python
                   | None => Err (failed ("No Python interpreter found for the Ceres runtime. Set CERES_PYTHON to the " +:+
                                          "interpreter of the environment Ceres is installed in."))
                   end
          end
      end
  end.

(** [host]: the program and its arguments. *)
Definition host_command (payload : string) : Act (result (string * list string) Exit) :=
  act? python := find_python in
  give (Ok (python, ["-m"; "ceres.__internal__.host"; payload])).

(** ** Projects *)

Definition CONFIG_NAMES : list string := ["ceres.yaml"; "ceres.yml"; "ceres.json"].

(** [Project]: the path of its configuration. *)
Definition Project : Type := string.

Fixpoint first_file (names : list string) : Act (option string) :=
  match names with
  | [] => give None
  | name :: names =>
      act! there := path_is_file name in
      if (there : bool) then give (Some name) else first_file names
  end.

(** [Project::discover]; the names quote as they are. *)
Definition discover `{RegexCrate} (explicit : option string) : Act (result Project Exit) :=
  act? path :=
    (match explicit with
     | Some path => give (Ok path)
     | None =>
         act! found := first_file CONFIG_NAMES in
         give match found with
              | Some name => Ok name
              | None => Err (failed ("Must be in a directory containing one of: [" +:+
                                     join_with ", " (debug_text <$> CONFIG_NAMES) +:+ "]"))
              end
     end) in
  act! resolved := canonicalize path in
  give match resolved with
       | Some config_path => Ok config_path
       | None => Err (failed ("Failed to load configuration. Configuration file " +:+ debug_text path +:+ " does not exist."))
       end.

(** [directory]: what was canonicalized and read is a file, so has a parent. *)
Definition directory (project : Project) : string := default "" (text_parent project).

Context (sha1 : string -> list Z).

Definition hex_byte (byte : Z) : string := String (hex_low (byte / 16)) (String (hex_low (byte mod 16)) "").
Definition directory_hash (project : Project) : string :=
  join_with "" (hex_byte <$> take 3 (sha1 (directory project))).

Definition state_directory (project : Project) : string := text_join (directory project) STATE_DIRECTORY.
Definition server_info_path (project : Project) : string := text_join (state_directory project) "server.json".

(** [load_meta]. *)
Definition load_meta `{RegexCrate} `{FancyRegexCrate} `{GlobCrate} `{YamlCrate} (project : Project) :
    Act (result ConfigMeta Exit) :=
  act! content := read_at project in
  give match meta_load project content with
       | Ok meta => Ok meta
       | Err problems => Err (failed ("Failed to load configuration." +:+ line_end +:+ troubles_display problems))
       end.

(** ** Shared by the platforms *)

Inductive ServiceState := RunningService | StoppedService.

Definition state_title (self : ServiceState) : string :=
  match self with RunningService => "Running" | StoppedService => "Stopped" end.

(** A manager of a platform ([Service]): what the commands call. *)
Record ServiceManager := {
  manager_state : Act ServiceState;
  manager_location : string;
  manager_generate : Act (result string Exit);
  manager_start : Act (result unit Exit);
  manager_stop : Act (result unit Exit);
  manager_name : string;
  manager_user : string
}.

(** [ServiceContext], without the terminal. *)
Record ServiceContext := { context_project : Project; context_config : ServiceConfig }.

Definition current_user : string :=
  default "unknown" (match variable "USER" with Some user => Some user | None => variable "LOGNAME" end).

Definition context_name (self : ServiceContext) : string :=
  default ("ceres-" +:+ directory_hash (context_project self)) (service_name (context_config self)).
Definition context_user (self : ServiceContext) : string := default current_user (service_user (context_config self)).

(** [resolve]; joining an absolute path gives it as it is. *)
Definition context_resolve (self : ServiceContext) (path : option string) : option string :=
  path ← path; Some (if is_absolute path then path else text_join (directory (context_project self)) path).

Definition context_stdout (self : ServiceContext) : option string :=
  context_resolve self (service_stdout (context_config self)).
Definition context_stderr (self : ServiceContext) : option string :=
  context_resolve self (service_stderr (context_config self)).

(** A call that failed, as [map_err] tells it. *)
Definition told_failing {A} (what path : string) (answer : result A string) : result A Exit :=
  match answer with Ok a => Ok a | Err error => Err (failed (what +:+ " " +:+ path +:+ ". " +:+ error)) end.

Definition make_parent (path : string) : Act (result unit Exit) :=
  match text_parent path with
  | None => give (Ok tt)
  | Some parent =>
      act! made := make_directories parent in
      give (told_failing "Failed to create" parent made)
  end.

Fixpoint make_parents (paths : list string) : Act (result unit Exit) :=
  match paths with
  | [] => give (Ok tt)
  | path :: paths => act? _ := make_parent path in make_parents paths
  end.

Definition create_log_directories (self : ServiceContext) : Act (result unit Exit) :=
  make_parents (omap id [context_stdout self; context_stderr self]).

(** [ServiceContext::command]. *)
Definition context_command : Act (result (list string) Exit) :=
  act! invoked := invoked_executable in
  give match invoked with
       | Some path => Ok [path; "run"]
       | None =>
           match current_executable with
           | Ok path => Ok [path; "run"]
           | Err error => Err (failed ("Failed to resolve the CLI path. " +:+ error))
           end
       end.

(** [output_of], [execute_code] and [execute]. *)
Definition output_of (program : string) (arguments : list string) (environment : list (string * string)) :
    Act (result Finished Exit) :=
  act! answer := run_command program arguments environment in
  give match answer with
       | Ok finished => Ok finished
       | Err error => Err (failed ("Failed to execute " +:+ program +:+ ". " +:+ error))
       end.

Definition execute_code (program : string) (arguments : list string) (environment : list (string * string)) :
    Act (result Z Exit) :=
  act? finished := output_of program arguments environment in
  give (Ok (default 1%Z (exit_code finished))).

Definition success (finished : Finished) : bool := bool_decide (exit_code finished = Some 0%Z).

Definition command_failure (program : string) (arguments : list string) (finished : Finished) : string :=
  let detail := trim (stderr_text finished) in
  "`" +:+ program +:+ " " +:+ join_with " " arguments +:+ "` failed with status " +:+
  pretty (default 1%Z (exit_code finished)) +:+ "." +:+ (if decide (detail = "") then "" else " ") +:+ detail.

Definition execute (program : string) (arguments : list string) (environment : list (string * string)) :
    Act (result unit Exit) :=
  act? finished := output_of program arguments environment in
  give (if success finished then Ok tt else Err (failed (command_failure program arguments finished))).

(** [write_if_changed]: whether a write happened. *)
Definition write_if_changed (path data : string) : Act (result bool Exit) :=
  act! current := read_at path in
  if decide (current = Some data) then give (Ok false)
  else
    act? _ := make_parent path in
    act! written := write_file path data in
    give (match told_failing "Failed to write" path written with Ok _ => Ok true | Err error => Err error end).

(** [remove_if_exists]. *)
Definition remove_if_exists (path : string) : Act (result unit Exit) :=
  act! there := path_exists path in
  if (there : bool) then
    act! removed := remove_path path in
    give (told_failing "Failed to remove" path removed)
  else give (Ok tt).

Definition home_directory : string := default "/" (variable "HOME").

(** ** systemd *)

Section systemd.
Variable self : ServiceContext.

Definition systemd_label : string := context_name self +:+ ".service".
Definition systemd_path : string := text_join (text_join home_directory ".config/systemd/user") systemd_label.

(** [user_bus_environment]. *)
Definition user_bus_environment : list (string * string) :=
  match variable "XDG_RUNTIME_DIR" with
  | Some _ => []
  | None => [("XDG_RUNTIME_DIR", "/run/user/" +:+ pretty user_id)]
  end.

Definition systemctl (arguments : list string) : Act (result unit Exit) :=
  execute "systemctl" arguments user_bus_environment.
Definition systemctl_code (arguments : list string) : Act (result Z Exit) :=
  execute_code "systemctl" arguments user_bus_environment.

Definition enable_linger : Act unit :=
  let user := context_user self in
  act! _ := tell_user ("Enabling loginctl linger for user '" +:+ user +:+ "'...") in
  act! code := execute_code "loginctl" ["enable-linger"; user] [] in
  if decide (match code with Ok code => code | Err _ => 1%Z end = 0%Z) then give tt
  else tell_user ("WARNING: Failed to enable loginctl linger. Execute 'loginctl enable-linger " +:+ user +:+
             "' to persist the service after logout.").

(** [await_user_bus]: at most so many looks, 100 milliseconds apart. *)
Fixpoint await_bus (looks : nat) (directory : string) : Act unit :=
  match looks with
  | O => give tt
  | S looks =>
      act! there := path_exists (text_join directory "bus") in
      if (there : bool) then give tt
      else act! _ := sleep_for 100 in await_bus looks directory
  end.

Definition await_user_bus : Act unit :=
  match user_bus_environment with
  | [] => give tt
  | (_, directory) :: _ => await_bus 50 directory
  end.

Definition append_line (key : string) (path : option string) : string :=
  match path with Some path => key +:+ "=append:" +:+ path +:+ line_end | None => "" end.

(** [generate]. *)
Definition unit_text (command : list string) : string :=
  "[Unit]" +:+ line_end +:+ "Description=" +:+ String mark systemd_label +:+ String mark "" +:+ line_end +:+ line_end +:+
  "[Service]" +:+ line_end +:+ "ExecStart=" +:+ join_with " " command +:+ line_end +:+
  "WorkingDirectory=" +:+ directory (context_project self) +:+ line_end +:+ "Restart=always" +:+ line_end +:+
  append_line "StandardOutput" (context_stdout self) +:+ append_line "StandardError" (context_stderr self) +:+
  line_end +:+ "[Install]" +:+ line_end +:+ "WantedBy=default.target" +:+ line_end.

Definition systemd_generate : Act (result string Exit) :=
  act? command := context_command in
  give (Ok (unit_text command)).

Definition systemd_create : Act (result unit Exit) :=
  act? _ := create_log_directories self in
  act? definition := systemd_generate in
  act? written := write_if_changed systemd_path definition in
  act? _ := (if (written : bool) then systemctl ["daemon-reload"; "--user"] else give (Ok tt)) in
  systemctl ["enable"; "--user"; systemd_label].

Definition systemd_state : Act ServiceState :=
  act! code := systemctl_code ["is-active"; "--user"; systemd_label] in
  give (match code with Ok 0%Z => RunningService | _ => StoppedService end).

Definition systemd_start : Act (result unit Exit) :=
  act! _ := enable_linger in
  act! _ := await_user_bus in
  act! state := systemd_state in
  match state with
  | RunningService => act! _ := tell_user "The service is already running." in give (Ok tt)
  | StoppedService =>
      act? _ := systemd_create in
      act? _ := systemctl ["daemon-reload"; "--user"] in
      act? _ := systemctl ["start"; "--user"; systemd_label] in
      systemctl ["enable"; "--user"; systemd_label]
  end.

Definition systemd_stop : Act (result unit Exit) :=
  act! state := systemd_state in
  match state with
  | StoppedService => give (Ok tt)
  | RunningService =>
      act? _ := systemctl ["stop"; "--user"; systemd_label] in
      act? _ := systemctl ["disable"; "--user"; systemd_label] in
      remove_if_exists systemd_path
  end.

Definition systemd_service : ServiceManager :=
  {| manager_state := systemd_state; manager_location := systemd_path; manager_generate := systemd_generate;
     manager_start := systemd_start; manager_stop := systemd_stop; manager_name := context_name self;
     manager_user := context_user self |}.
End systemd.

(** ** launchd *)

Inductive PlistValue := PlistText (text : string) | PlistTexts (texts : list string) | PlistBool (value : bool).

(** The [plist] crate's writer. *)
Class PlistCrate := to_writer_xml : list (string * PlistValue) -> result string string.

Section launchd.
Context `{PlistCrate}.
Variable self : ServiceContext.

Definition launchd_label : string := context_name self.
Definition launchd_path : string :=
  text_join (text_join home_directory "Library/LaunchAgents") (launchd_label +:+ ".plist").
Definition launchd_target : string := "user/" +:+ pretty user_id +:+ "/" +:+ launchd_label.

Definition launchctl (arguments : list string) : Act (result unit Exit) := execute "launchctl" arguments [].
Definition launchctl_code (arguments : list string) : Act (result Z Exit) := execute_code "launchctl" arguments [].

Definition path_entry (key : string) (path : option string) : list (string * PlistValue) :=
  match path with Some path => [(key, PlistText path)] | None => [] end.

(** [plist], whose dictionary keeps the order of its insertions. *)
Definition plist_entries (command : list string) : list (string * PlistValue) :=
  [("Label", PlistText launchd_label); ("UserName", PlistText (context_user self)); ("ProgramArguments", PlistTexts command);
   ("WorkingDirectory", PlistText (directory (context_project self))); ("RunAtLoad", PlistBool true)] ++
  path_entry "StandardOutPath" (context_stdout self) ++ path_entry "StandardErrorPath" (context_stderr self).

Definition launchd_generate : Act (result string Exit) :=
  act? command := context_command in
  give match to_writer_xml (plist_entries command) with
       | Ok buffer => Ok buffer
       | Err error => Err (failed ("Failed to serialize the plist. " +:+ error))
       end.

Definition launchd_create : Act (result unit Exit) :=
  act? _ := create_log_directories self in
  act? definition := launchd_generate in
  act? _ := write_if_changed launchd_path definition in
  launchctl ["enable"; launchd_target].

Definition launchd_state : Act ServiceState :=
  act! there := path_exists launchd_path in
  if negb there then give StoppedService
  else
    act! code := launchctl_code ["list"; launchd_label] in
    give (match code with Ok 0%Z => RunningService | _ => StoppedService end).

Definition launchd_start : Act (result unit Exit) :=
  act! state := launchd_state in
  match state with
  | RunningService => give (Ok tt)
  | StoppedService =>
      act? _ := launchd_create in
      act? _ := launchctl ["load"; "-w"; launchd_path] in
      act? _ := launchctl ["enable"; launchd_target] in
      act! _ := launchctl_code ["start"; launchd_target] in
      give (Ok tt)
  end.

Definition launchd_stop : Act (result unit Exit) :=
  act! state := launchd_state in
  match state with
  | StoppedService => give (Ok tt)
  | RunningService =>
      act? _ := launchctl ["unload"; "-w"; launchd_path] in
      remove_if_exists launchd_path
  end.

Definition launchd_service : ServiceManager :=
  {| manager_state := launchd_state; manager_location := launchd_path; manager_generate := launchd_generate;
     manager_start := launchd_start; manager_stop := launchd_stop; manager_name := context_name self;
     manager_user := context_user self |}.
End launchd.

(** ** Commands *)

Section commands.
Context `{PlistCrate} `{RegexCrate} `{FancyRegexCrate} `{GlobCrate} `{YamlCrate}.

Definition service_for (project : Project) : Act (result ServiceManager Exit) :=
  act? meta := load_meta project in
  let context := {| context_project := project; context_config := meta_service meta |} in
  give (if decide (target_os = "linux") then Ok (systemd_service context)
        else if decide (target_os = "macos") then Ok (launchd_service context)
        else Err (failed ("Services are not supported on this platform: " +:+ target_os +:+ "."))).

Definition service_generate (project : Project) (path : option string) : Act (result unit Exit) :=
  act? service := service_for project in
  act? definition := manager_generate service in
  match path with
  | Some path =>
      act! written := write_file path definition in
      give (told_failing "Failed to write" path written)
  | None => act! _ := print_bytes definition in give (Ok tt)
  end.

Definition service_start (project : Project) : Act (result unit Exit) :=
  act? service := service_for project in
  act! _ := tell_user ("Starting service '" +:+ manager_name service +:+ "' at '" +:+ manager_location service +:+ "'...") in
  act? _ := manager_start service in
  act! _ := tell_user "Service started successfully." in
  give (Ok tt).

Definition service_stop (project : Project) : Act (result unit Exit) :=
  act? service := service_for project in
  act! _ := tell_user ("Stopping service '" +:+ manager_name service +:+ "' at '" +:+ manager_location service +:+ "'...") in
  act? _ := manager_stop service in
  act! _ := tell_user "Service stopped successfully." in
  give (Ok tt).

Definition service_status (project : Project) : Act (result unit Exit) :=
  act? service := service_for project in
  act! state := manager_state service in
  act! _ := tell_table {| title := None; table_columns := ["Name"; "User"; "State"; "Location"];
    table_rows := [(fun text => {| cell_text := text; cell_style := None |}) <$>
                     [manager_name service; manager_user service; state_title state; manager_location service]] |} in
  give (Ok tt).
End commands.
End failures.
End machine.

(** ** What a program does *)

(** A program adds steps to what was done, and they and its value satisfy a
    predicate, whatever the machine answers and whatever came before. *)
Definition does {A} (m : Act A) (P : History -> A -> Prop) : Prop :=
  forall history, exists log, (m history).2 = history ++ log /\ P log (m history).1.

Lemma does_impl {A} (m : Act A) (P Q : History -> A -> Prop) :
  does m P -> (forall log a, P log a -> Q log a) -> does m Q.
Proof. intros Hm Himpl history. destruct (Hm history) as (log & ? & ?). eauto. Qed.

Lemma does_give {A} (a : A) (P : History -> A -> Prop) : P [] a -> does (give a) P.
Proof. intros HP history. exists []. by rewrite app_nil_r. Qed.

Lemma does_step {A} (answer : History -> A) did (P : History -> A -> Prop) :
  (forall a, P [did a] a) -> does (take_step answer did) P.
Proof. intros HP history. by exists [did (answer history)]. Qed.

Lemma does_next {A B} (m : Act A) (k : A -> Act B) (P : History -> A -> Prop) (Q : History -> B -> Prop) :
  does m P -> (forall log a, P log a -> does (k a) (fun more b => Q (log ++ more) b)) -> does (after_act m k) Q.
Proof.
  intros Hm Hk history. unfold after_act. destruct (Hm history) as (log & Hlog & HP).
  destruct (m history) as [a after]; simpl in *. subst after.
  destruct (Hk log a HP (history ++ log)) as (more & Hmore & HQ).
  exists (log ++ more). by rewrite Hmore, app_assoc.
Qed.

Lemma does_next_ok {A B E} (m : Act (result A E)) (k : A -> Act (result B E)) (P : History -> result A E -> Prop)
    (Q : History -> result B E -> Prop) :
  does m P ->
  (forall log a, P log (Ok a) -> does (k a) (fun more b => Q (log ++ more) b)) ->
  (forall log error, P log (Err error) -> Q log (Err error)) ->
  does (next_ok m k) Q.
Proof.
  intros Hm Hk Herr. apply (does_next _ _ _ _ Hm). intros log [a|error] HP; [by apply Hk|].
  apply does_give. rewrite app_nil_r. by apply Herr.
Qed.

Create HintDb service.

(** A program whose every step satisfies a predicate. *)
Definition only (P : Did -> Prop) {A} (m : Act A) : Prop := does m (fun log _ => Forall P log).

Section only.
Context (P : Did -> Prop).

Lemma only_give {A} (a : A) : only P (give a).
Proof. by apply does_give. Qed.

Lemma only_step {A} (answer : History -> A) did : (forall a, P (did a)) -> only P (take_step answer did).
Proof. intros Hdid. apply does_step. intros a. by constructor. Qed.

Lemma only_next {A B} (m : Act A) (k : A -> Act B) : only P m -> (forall a, only P (k a)) -> only P (after_act m k).
Proof.
  intros Hm Hk. apply (does_next _ _ _ _ Hm). intros log a Hlog. apply (does_impl _ _ _ (Hk a)).
  intros. by apply Forall_app.
Qed.

Lemma only_next_ok {A B E} (m : Act (result A E)) (k : A -> Act (result B E)) :
  only P m -> (forall a, only P (k a)) -> only P (next_ok m k).
Proof. intros Hm Hk. apply only_next; [done|]. intros [a|error]; [apply Hk|apply only_give]. Qed.
End only.

(** Takes a program apart into its steps. *)
Ltac only_steps :=
  repeat first
    [ apply only_give | apply only_next_ok; [|intros ?] | apply only_next; [|intros ?]
    | progress unfold path_is_file, path_exists, read_at, make_directories, write_file, remove_path, run_command,
        sleep_for, tell_user
    | apply only_step; intros ? | case_match ].

(** ** Failures *)

Section failing.
Context `{Computer} `{Painters} (to_string_pretty : Jvalue -> option string).
Notation failed := (exit_failed to_string_pretty).

(** What is told of a step that did not go through. *)
Definition complaint (did : Did) : option string :=
  match did with
  | MadeDirectories path (Err error) => Some ("Failed to create " +:+ path +:+ ". " +:+ error)
  | WroteFile path _ (Err error) => Some ("Failed to write " +:+ path +:+ ". " +:+ error)
  | RemovedFile path (Err error) => Some ("Failed to remove " +:+ path +:+ ". " +:+ error)
  | RanCommand program _ _ (Err error) => Some ("Failed to execute " +:+ program +:+ ". " +:+ error)
  | RanCommand program arguments _ (Ok finished) =>
      if success finished then None else Some (command_failure program arguments finished)
  | _ => None
  end.

(** The commands whose failing is an answer, or is passed over. *)
Definition excused (did : Did) : bool :=
  match did with
  | RanCommand program (verb :: _) _ _ =>
      bool_decide ((program, verb) ∈ [("loginctl", "enable-linger"); ("systemctl", "is-active"); ("launchctl", "list");
                                      ("launchctl", "start")])
  | _ => false
  end.

Definition passed (did : Did) : Prop := excused did = true \/ complaint did = None.

(** A failure is the last step's, in its words, or one no step tells of. *)
Definition orderly {A} (unstepped : string -> Prop) (log : History) (outcome : result A Exit) : Prop :=
  match outcome with
  | Ok _ => Forall passed log
  | Err error => exists message, error = failed message /\
      ((unstepped message /\ Forall passed log) \/
       exists before last, log = before ++ [last] /\ Forall passed before /\ complaint last = Some message)
  end.

Definition heeds {A} (unstepped : string -> Prop) (m : Act (result A Exit)) : Prop := does m (orderly unstepped).
Notation quiet := (only passed).

Context (unstepped : string -> Prop).

Lemma orderly_after {A} before log (outcome : result A Exit) :
  Forall passed before -> orderly unstepped log outcome -> orderly unstepped (before ++ log) outcome.
Proof.
  intros Hbefore. destruct outcome as [a|error]; simpl; [by rewrite Forall_app|].
  intros (message & -> & [[Hun Hlog]|(front & last & -> & Hfront & Hlast)]); exists message; split; [done| |done|].
  - left. by rewrite Forall_app.
  - right. exists (before ++ front), last. by rewrite app_assoc, Forall_app.
Qed.

Lemma heeds_give {A} (a : A) : heeds unstepped (give (Ok a)).
Proof. apply does_give. constructor. Qed.

Lemma heeds_next {A B} (m : Act A) (k : A -> Act (result B Exit)) :
  quiet m -> (forall a, heeds unstepped (k a)) -> heeds unstepped (after_act m k).
Proof.
  intros Hm Hk. apply (does_next _ _ _ _ Hm). intros log a Hlog. apply (does_impl _ _ _ (Hk a)).
  intros. by apply orderly_after.
Qed.

Lemma heeds_next_ok {A B} (m : Act (result A Exit)) (k : A -> Act (result B Exit)) :
  heeds unstepped m -> (forall a, heeds unstepped (k a)) -> heeds unstepped (next_ok m k).
Proof.
  intros Hm Hk. apply (does_next_ok _ _ _ _ Hm); [|done].
  intros log a Hlog. apply (does_impl _ _ _ (Hk a)). intros. by apply orderly_after.
Qed.

(** A step that matters: its failure is told in the words of [complaint]. *)
Lemma heeds_step {A B} (answer : History -> A) did (told : A -> result B Exit) :
  (forall a, match told a with
             | Ok _ => passed (did a)
             | Err error => exists message, error = failed message /\ complaint (did a) = Some message
             end) ->
  heeds unstepped (after_act (take_step answer did) (fun a => give (told a))).
Proof.
  intros Htell. apply (does_next _ _ (fun log a => log = [did a])); [by apply does_step|].
  intros log a ->. apply does_give. simpl. specialize (Htell a). unfold orderly.
  destruct (told a) as [b|error]; [by constructor|].
  destruct Htell as (message & -> & Hrefusal). exists message. split; [done|]. right. exists [], (did a). eauto.
Qed.
End failing.

Section steps.
Context `{Computer} `{Painters} (to_string_pretty : Jvalue -> option string) (unstepped : string -> Prop).
Notation failed := (exit_failed to_string_pretty).
Notation quiet := (only passed).
Notation heeded := (heeds to_string_pretty unstepped).

Lemma heeds_make_parent path : heeded (make_parent to_string_pretty path).
Proof.
  unfold make_parent. destruct (text_parent path) as [parent|]; [|apply heeds_give].
  apply heeds_step. intros [[]|error]; simpl; [by right|]. eauto.
Qed.

Lemma heeds_make_parents paths : heeded (make_parents to_string_pretty paths).
Proof.
  induction paths as [|path paths IH]; simpl; [apply heeds_give|].
  apply heeds_next_ok; [apply heeds_make_parent|done].
Qed.

(** What [output_of] answers, and the step it takes. *)
Lemma output_of_does program arguments environment :
  does (output_of to_string_pretty program arguments environment) (fun log outcome =>
    exists answer, log = [RanCommand program arguments environment answer] /\
      outcome = match answer with
                | Ok finished => Ok finished
                | Err error => Err (failed ("Failed to execute " +:+ program +:+ ". " +:+ error))
                end).
Proof.
  apply (does_next _ _ (fun log answer => log = [RanCommand program arguments environment answer])); [by apply does_step|].
  intros log answer ->. apply does_give. eauto.
Qed.

Lemma execute_does program arguments environment :
  does (execute to_string_pretty program arguments environment) (fun log outcome =>
    exists answer, log = [RanCommand program arguments environment answer] /\
      outcome = match complaint (RanCommand program arguments environment answer) with
                | None => Ok tt
                | Some message => Err (failed message)
                end).
Proof.
  apply (does_next_ok _ _ _ _ (output_of_does program arguments environment)).
  - intros log finished ([found|error] & -> & Hfound); simplify_eq. apply does_give. eexists. split; [done|].
    simpl. by destruct (success found).
  - intros log error ([found|text] & -> & Hfound); simplify_eq. by eexists.
Qed.

Lemma heeds_execute program arguments environment : heeded (execute to_string_pretty program arguments environment).
Proof.
  apply (does_impl _ _ _ (execute_does program arguments environment)). intros log outcome (answer & -> & ->).
  destruct (complaint _) as [message|] eqn:Hrefusal.
  - exists message. split; [done|]. right. by eexists [], _.
  - constructor; [by right|constructor].
Qed.

Lemma execute_code_does program arguments environment :
  does (execute_code to_string_pretty program arguments environment) (fun log outcome =>
    exists answer, log = [RanCommand program arguments environment answer] /\
      (outcome = Ok 0%Z <-> exists finished, answer = Ok finished /\ success finished = true)).
Proof.
  apply (does_next_ok _ _ _ _ (output_of_does program arguments environment)).
  - intros log finished ([found|error] & -> & Hfound); simplify_eq. apply does_give. eexists. split; [done|].
    unfold success. split.
    + intros Hcode. exists found. split; [done|]. apply bool_decide_eq_true.
      destruct (exit_code found) as [code|]; simpl in Hcode; [congruence|done].
    + intros (? & ? & Hcode). simplify_eq. apply bool_decide_eq_true in Hcode. by rewrite Hcode.
  - intros log error ([found|text] & -> & Hfound); simplify_eq. eexists. split; [done|]. split; [done|].
    by intros (? & ? & ?).
Qed.

Lemma quiet_execute_code program verb arguments environment :
  excused (RanCommand program (verb :: arguments) environment (Err "")) = true ->
  quiet (execute_code to_string_pretty program (verb :: arguments) environment).
Proof.
  intros Hexcused. apply (does_impl _ _ _ (execute_code_does program (verb :: arguments) environment)).
  intros log outcome (answer & -> & _). constructor; [by left|constructor].
Qed.

Lemma heeds_write_if_changed path data : heeded (write_if_changed to_string_pretty path data).
Proof.
  apply heeds_next; [only_steps; by right|]. intros current. destruct (decide _); [apply heeds_give|].
  apply heeds_next_ok; [apply heeds_make_parent|]. intros _.
  apply heeds_step. intros [[]|error]; simpl; [by right|]. eauto.
Qed.

Lemma heeds_remove_if_exists path : heeded (remove_if_exists to_string_pretty path).
Proof.
  apply heeds_next; [only_steps; by right|]. intros [|]; [|apply heeds_give].
  apply heeds_step. intros [[]|error]; simpl; [by right|]. eauto.
Qed.

Lemma only_which (P : Did -> Prop) name : (forall path there, P (LookedForFile path there)) -> only P (which name).
Proof.
  intros HP. unfold which. destruct (variable "PATH") as [path|]; [|apply only_give].
  induction (str_split ":" path); simpl; only_steps; by try apply HP.
Qed.

Lemma only_invoked (P : Did -> Prop) : (forall path there, P (LookedForFile path there)) -> only P invoked_executable.
Proof. intros HP. unfold invoked_executable. only_steps; by first [apply HP|apply only_which]. Qed.

(** What no step tells of: the executable's own path. *)
Definition unresolved (message : string) : Prop :=
  exists error, current_executable = Err error /\ message = "Failed to resolve the CLI path. " +:+ error.

Lemma heeds_command : (forall message, unresolved message -> unstepped message) -> heeded (context_command to_string_pretty).
Proof.
  intros Hun. apply (does_next _ _ _ _ (only_invoked passed ltac:(by right))). intros log invoked Hlog. apply does_give. rewrite app_nil_r.
  destruct invoked as [path|]; [done|]. destruct current_executable as [path|error] eqn:Hcurrent; [done|].
  eexists. split; [done|]. left. split; [|done]. apply Hun. by exists error.
Qed.
End steps.

#[export] Hint Resolve heeds_give heeds_next heeds_next_ok heeds_execute heeds_make_parents heeds_write_if_changed
  heeds_remove_if_exists : service.

(** ** What the managers promise *)

(** What a path is known to hold after steps: what was last read of it, or
    written to it. *)
Definition learns (path : string) (known : option string) (did : Did) : option string :=
  match did with
  | ReadFile there answer => if decide (there = path) then answer else known
  | WroteFile there contents (Ok _) => if decide (there = path) then Some contents else known
  | WroteFile there _ (Err _) | RemovedFile there _ => if decide (there = path) then None else known
  | _ => known
  end.
Definition leaves (path : string) (log : History) (contents : string) : Prop :=
  forall known, foldl (learns path) known log = Some contents.

(** A step that neither reads nor changes a path's file. *)
Definition aside (path : string) (did : Did) : Prop := forall known, learns path known did = known.

(** A step that changes no file but one. *)
Definition stays (path : string) (did : Did) : Prop :=
  match did with WroteFile there _ _ | RemovedFile there _ => there = path | _ => True end.

Lemma foldl_aside path known log : Forall (aside path) log -> foldl (learns path) known log = known.
Proof. intros Hlog. revert known. induction Hlog as [|did log Hdid _ IH]; intros known; simpl; [done|]. by rewrite Hdid, IH. Qed.

Lemma leaves_app path before after contents : leaves path after contents -> leaves path (before ++ after) contents.
Proof. intros Hafter known. by rewrite foldl_app. Qed.

Lemma leaves_aside path before after contents :
  leaves path before contents -> Forall (aside path) after -> leaves path (before ++ after) contents.
Proof. intros Hbefore Hafter known. rewrite foldl_app, Hbefore. by apply foldl_aside. Qed.

Section managers.
Context `{Computer} `{Painters} (to_string_pretty : Jvalue -> option string) (sha1 : string -> list Z).
Context (self : ServiceContext).
Notation execute := (execute to_string_pretty).

Lemma only_execute (P : Did -> Prop) program arguments environment :
  (forall answer, P (RanCommand program arguments environment answer)) -> only P (execute program arguments environment).
Proof.
  intros HP. apply (does_impl _ _ _ (execute_does to_string_pretty program arguments environment)).
  intros log outcome (answer & -> & _). by constructor.
Qed.

Lemma only_execute_code (P : Did -> Prop) program arguments environment :
  (forall answer, P (RanCommand program arguments environment answer)) ->
  only P (execute_code to_string_pretty program arguments environment).
Proof.
  intros HP. apply (does_impl _ _ _ (execute_code_does to_string_pretty program arguments environment)).
  intros log outcome (answer & -> & _). by constructor.
Qed.

Lemma only_make_parent (P : Did -> Prop) path :
  (forall path answer, P (MadeDirectories path answer)) -> only P (make_parent to_string_pretty path).
Proof. intros HP. unfold make_parent. only_steps. apply HP. Qed.

Lemma only_make_parents (P : Did -> Prop) paths :
  (forall path answer, P (MadeDirectories path answer)) -> only P (make_parents to_string_pretty paths).
Proof.
  intros HP. induction paths; simpl; [apply only_give|]. apply only_next_ok; [by apply only_make_parent|done].
Qed.

Lemma write_if_changed_leaves path data :
  does (write_if_changed to_string_pretty path data) (fun log outcome => is_ok outcome = true -> leaves path log data).
Proof.
  apply (does_next _ _ (fun log current => log = [ReadFile path current])); [by apply does_step|].
  intros log current ->. destruct (decide (current = Some data)) as [->|Hcurrent].
  - apply does_give. intros _ known. simpl. by rewrite decide_True.
  - eapply does_next_ok.
    + by apply (only_make_parent (aside path)).
    + intros made _ _. apply (does_next _ _ (fun log written => log = [WroteFile path data written])); [by apply does_step|].
      intros log written ->. apply does_give. destruct written as [[]|error]; simpl; [|done]. intros _.
      intros known. simpl. rewrite foldl_app. simpl. by rewrite decide_True.
    + done.
Qed.

(** [run] as what was executed. *)
Definition executed (program : string) (arguments : list string) (environment : list (string * string)) (did : Did) : Prop :=
  exists finished, did = RanCommand program arguments environment (Ok finished) /\ success finished = true.

Lemma executes program arguments environment :
  does (execute program arguments environment) (fun log outcome =>
    is_ok outcome = true -> exists did, log = [did] /\ executed program arguments environment did).
Proof.
  apply (does_impl _ _ _ (execute_does to_string_pretty program arguments environment)).
  intros log outcome ([finished|error] & -> & ->); simpl; [|done].
  destruct (success finished) eqn:Hsuccess; [|done]. intros _. eexists. split; [done|]. by exists finished.
Qed.

(** The executable a definition starts, found at where the process was
    invoked or as the system knows it. *)
Definition own_executable (log : History) (exe : string) : Prop :=
  LookedForFile exe true ∈ log \/ current_executable = Ok exe.

Lemma own_executable_app before log after exe : own_executable log exe -> own_executable (before ++ log ++ after) exe.
Proof. intros [Hin|Hcurrent]; [left|by right]. set_solver. Qed.

Lemma command_does :
  does (context_command to_string_pretty) (fun log outcome => forall command, outcome = Ok command ->
    exists exe, command = [exe; "run"] /\ own_executable log exe).
Proof.
  apply (does_next _ _ (fun log invoked => forall path, invoked = Some path -> LookedForFile path true ∈ log)).
  - unfold invoked_executable. destruct argument_zero as [argument|]; [|by apply does_give].
    apply (does_next _ _ (fun _ _ => True)).
    + apply (does_impl _ (fun log _ => Forall (fun _ => True) log)); [|done].
      destruct (1 <? _)%nat; [apply only_give|by apply only_which].
    + intros log [path|] _; [|by apply does_give].
      apply (does_next _ _ (fun more there => more = [LookedForFile path there])); [by apply does_step|].
      intros more there ->. apply does_give. destruct there; intros found ?; simplify_eq. set_solver.
  - intros log invoked Hinvoked. apply does_give. intros command Hcommand.
    destruct invoked as [path|].
    + simplify_eq. exists path. split; [done|]. left. rewrite app_nil_r. auto.
    + destruct current_executable as [path|error] eqn:Hcurrent; simplify_eq. exists path. split; [done|]. by right.
Qed.

(** *** systemd *)

Notation generated command := (unit_text sha1 self command).
Notation label := (systemd_label sha1 self).
Notation location := (systemd_path sha1 self).
Definition systemctl_ran (arguments : list string) (did : Did) : Prop :=
  executed "systemctl" arguments user_bus_environment did.

(** The definition a run leaves: one that starts this very executable. *)
Definition defined (log : History) : Prop :=
  exists exe, own_executable log exe /\ leaves location log (generated [exe; "run"]).

Lemma defined_app before log after : defined log -> Forall (aside location) after -> defined (before ++ log ++ after).
Proof.
  intros (exe & Hown & Hleaves) Hafter. exists exe. split; [by apply own_executable_app|].
  apply leaves_app. by apply leaves_aside.
Qed.

Lemma aside_executed path program arguments environment did : executed program arguments environment did -> aside path did.
Proof. by intros (finished & -> & _). Qed.
Hint Resolve aside_executed : core.

Lemma systemd_generate_does :
  does (systemd_generate to_string_pretty sha1 self) (fun log outcome => forall definition, outcome = Ok definition ->
    exists exe, definition = generated [exe; "run"] /\ own_executable log exe).
Proof.
  eapply does_next_ok; [apply command_does| |by intros].
  intros log command Hcommand. apply does_give. rewrite app_nil_r. intros definition [= <-].
  destruct (Hcommand command) as (exe & -> & Hown); eauto.
Qed.

Lemma systemd_create_does :
  does (systemd_create to_string_pretty sha1 self) (fun log outcome => is_ok outcome = true -> defined log).
Proof.
  eapply does_next_ok; [by apply (only_make_parents (aside location))| |done]. intros before _ _.
  eapply does_next_ok; [apply systemd_generate_does| |done]. intros log definition Hdefinition. destruct (Hdefinition definition) as (exe & -> & Hown); [done|].
  eapply does_next_ok; [apply write_if_changed_leaves| |done]. intros written_log written Hleaves.
  eapply does_next_ok; [instantiate (1 := fun log outcome => Forall (aside location) log)| |done].
  { destruct written; [by apply only_execute|apply only_give]. }
  intros reloaded [] Hreloaded. apply (does_impl _ _ _ (only_execute (aside location) _ _ _ ltac:(done))).
  intros enabled outcome Henabled _. exists exe. split.
  - destruct Hown as [Hin|Hcurrent]; [left; set_solver|by right].
  - apply leaves_app, leaves_app, leaves_aside; [by apply Hleaves|]. by apply Forall_app.
Qed.

(** The manager's word on whether the service runs. *)
Definition is_active (did : Did) (running : bool) : Prop :=
  exists answer, did = RanCommand "systemctl" ["is-active"; "--user"; label] user_bus_environment answer /\
    (running = true <-> exists finished, answer = Ok finished /\ success finished = true).

Lemma systemd_state_does :
  does (systemd_state to_string_pretty sha1 self) (fun log state =>
    exists did, log = [did] /\ is_active did (match state with RunningService => true | StoppedService => false end)).
Proof.
  eapply does_next; [apply execute_code_does|]. intros log code (answer & -> & Hcode). apply does_give.
  eexists. split; [done|]. exists answer. split; [done|]. rewrite <- Hcode.
  destruct code as [[| |]|]; by split.
Qed.

Lemma only_linger (P : Did -> Prop) :
  (forall message, P (Told message)) -> (forall user answer, P (RanCommand "loginctl" ["enable-linger"; user] [] answer)) ->
  only P (enable_linger to_string_pretty self).
Proof.
  intros Htold Hran. unfold enable_linger. apply only_next; [apply only_step; intros; apply Htold|]. intros _.
  apply only_next; [by apply only_execute_code|]. intros code. only_steps; apply Htold.
Qed.

Lemma only_await (P : Did -> Prop) :
  (forall path there, P (LookedFor path there)) -> (forall millis, P (SleptFor millis)) -> only P await_user_bus.
Proof.
  intros Hlooked Hslept. unfold await_user_bus. destruct user_bus_environment as [|[_ directory] _]; [apply only_give|].
  generalize 50%nat as looks. induction looks; simpl; only_steps; by first [apply Hlooked|apply Hslept|done].
Qed.

(** A start that succeeds finds the service running, or leaves its definition,
    has the manager read its definitions after that, and starts and enables
    it. *)
Theorem systemd_start_runs :
  does (systemd_start to_string_pretty sha1 self) (fun log outcome => is_ok outcome = true ->
    (exists before asked, log = before ++ [asked; Told "The service is already running."] /\ is_active asked true /\
       Forall (aside location) before) \/
    (exists before reloaded started enabled, log = before ++ [reloaded; started; enabled] /\ defined before /\
       systemctl_ran ["daemon-reload"; "--user"] reloaded /\
       systemctl_ran ["start"; "--user"; label] started /\
       systemctl_ran ["enable"; "--user"; label] enabled)).
Proof.
  eapply does_next; [by apply (only_linger (aside location))|]. intros lingered [] Hlingered; simpl in Hlingered.
  eapply does_next; [by apply (only_await (aside location))|]. intros awaited [] Hawaited; simpl in Hawaited.
  eapply does_next; [apply systemd_state_does|]. intros asked state (did & -> & Hactive). destruct state.
  - apply (does_next _ _ (fun log _ => log = [Told "The service is already running."])); [by apply does_step|].
    intros log _ ->. apply does_give. intros _. left. exists (lingered ++ awaited), did.
    rewrite Forall_app. by rewrite <- app_assoc.
  - eapply does_next_ok; [apply systemd_create_does| |done]. intros created [] Hdefined.
    eapply does_next_ok; [apply executes| |done]. intros reloaded [] Hreloaded.
    eapply does_next_ok; [apply executes| |done]. intros started [] Hstarted.
    eapply does_impl; [apply executes|]. intros enabled outcome Henabled Hok. right.
    destruct (Hreloaded eq_refl) as (reload & -> & ?), (Hstarted eq_refl) as (start & -> & ?), (Henabled Hok) as (enable & -> & ?).
    exists (lingered ++ awaited ++ [did] ++ created), reload, start, enable. split_and!; try done.
    + by rewrite <- !app_assoc.
    + specialize (Hdefined eq_refl). rewrite !app_assoc, <- (app_nil_r created). by apply defined_app.
Qed.

(** A stop that succeeds finds the service not running, and then does nothing;
    or stops it, disables it, and removes the definition that is there. *)
Theorem systemd_stop_stops :
  does (systemd_stop to_string_pretty sha1 self) (fun log outcome => is_ok outcome = true ->
    (exists asked, log = [asked] /\ is_active asked false) \/
    (exists asked stopped disabled, is_active asked true /\ systemctl_ran ["stop"; "--user"; label] stopped /\
       systemctl_ran ["disable"; "--user"; label] disabled /\
       (log = [asked; stopped; disabled; LookedFor location false] \/
        log = [asked; stopped; disabled; LookedFor location true; RemovedFile location (Ok tt)]))).
Proof.
  eapply does_next; [apply systemd_state_does|]. intros asked state (did & -> & Hactive). destruct state.
  2: { apply does_give. intros _. left. by exists did. }
  eapply does_next_ok; [apply executes| |done]. intros stopped [] Hstopped.
  eapply does_next_ok; [apply executes| |done]. intros disabled [] Hdisabled.
  destruct (Hstopped eq_refl) as (stop & -> & ?), (Hdisabled eq_refl) as (disable & -> & ?).
  apply (does_next _ _ (fun log there => log = [LookedFor location there])); [by apply does_step|].
  intros looked there ->. destruct there.
  - apply (does_next _ _ (fun log answer => log = [RemovedFile location answer])); [by apply does_step|].
    intros removed [[]|error] ->; apply does_give; [|done]. intros _. right. exists did, stop, disable. eauto.
  - apply does_give. intros _. right. exists did, stop, disable. eauto.
Qed.

(** The user a unit names is nobody's: it is the same for every one. *)
Theorem systemd_user_unused name user user' stdout stderr project command :
  let unit_of user :=
    unit_text sha1 {| context_project := project;
                      context_config := {| service_name := name; service_user := user; service_stdout := stdout;
                                           service_stderr := stderr |} |} command in
  unit_of user = unit_of user'.
Proof. done. Qed.

(** *** launchd, and what both promise *)

Context `{PlistCrate}.

Notation agent := (launchd_path sha1 self).

(** The agent's definition, of some command. *)
Definition agent_defined (log : History) : Prop :=
  exists command definition, to_writer_xml (plist_entries sha1 self command) = Ok definition /\ leaves agent log definition.

Lemma launchd_state_does :
  does (launchd_state to_string_pretty sha1 self) (fun log state => state = RunningService ->
    exists listed, log = [LookedFor agent true; listed] /\ executed "launchctl" ["list"; launchd_label sha1 self] [] listed).
Proof.
  apply (does_next _ _ (fun log there => log = [LookedFor agent there])); [by apply does_step|].
  intros log there ->. destruct there; [|by apply does_give]. simpl.
  eapply does_next; [apply execute_code_does|]. intros log code (answer & -> & Hcode). apply does_give.
  intros Hrunning. eexists. split; [done|].
  destruct (proj1 Hcode) as (finished & -> & Hsuccess); [by destruct code as [[| |]|]|]. by exists finished.
Qed.

Lemma launchd_create_does :
  does (launchd_create to_string_pretty sha1 self) (fun log outcome => is_ok outcome = true -> agent_defined log).
Proof.
  eapply does_next_ok; [by apply (only_make_parents (aside agent))| |done]. intros before _ _.
  eapply (does_next_ok _ _ (fun _ outcome => forall definition, outcome = Ok definition ->
    exists command, to_writer_xml (plist_entries sha1 self command) = Ok definition)); [| |done].
  { eapply does_next_ok; [apply command_does| |by intros]. intros log command _. apply does_give.
    intros definition Hdefinition. exists command. simpl in Hdefinition. destruct (to_writer_xml _); [|done]. by simplify_eq. }
  intros generated_log definition Hdefinition. destruct (Hdefinition definition) as (command & Hwriter); [done|].
  eapply does_next_ok; [apply write_if_changed_leaves| |done]. intros written_log written Hleaves.
  apply (does_impl _ _ _ (only_execute (aside agent) _ _ _ ltac:(done))). intros enabled outcome Henabled _.
  exists command, definition. split; [done|]. apply leaves_app, leaves_app, leaves_aside; [by apply Hleaves|done].
Qed.

(** A start of the agent that succeeds finds it loaded, or leaves its
    definition, then loads and enables it; whether it starts is not asked. *)
Theorem launchd_start_loads :
  does (launchd_start to_string_pretty sha1 self) (fun log outcome => is_ok outcome = true ->
    (exists listed, log = [LookedFor agent true; listed] /\
       executed "launchctl" ["list"; launchd_label sha1 self] [] listed) \/
    (exists before loaded enabled answer,
       log = before ++ [loaded; enabled; RanCommand "launchctl" ["start"; launchd_target sha1 self] [] answer] /\
       agent_defined before /\
       executed "launchctl" ["load"; "-w"; agent] [] loaded /\
       executed "launchctl" ["enable"; launchd_target sha1 self] [] enabled)).
Proof.
  eapply does_next; [apply launchd_state_does|]. intros asked state Hstate. destruct state.
  { apply does_give. intros _. left. rewrite app_nil_r. by apply Hstate. }
  eapply does_next_ok; [apply launchd_create_does| |done]. intros created [] Hdefined.
  eapply does_next_ok; [apply executes| |done]. intros loaded [] Hloaded.
  eapply does_next_ok; [apply executes| |done]. intros enabled [] Henabled.
  eapply does_next; [apply execute_code_does|]. intros started code (answer & -> & _). apply does_give. intros _. right.
  destruct (Hloaded eq_refl) as (load & -> & ?), (Henabled eq_refl) as (enable & -> & ?).
  exists (asked ++ created), load, enable, answer. split_and!; try done.
  - by rewrite <- !app_assoc.
  - destruct (Hdefined eq_refl) as (command & definition & ? & ?). exists command, definition. split; [done|]. by apply leaves_app.
Qed.

(** What no step tells of a failing manager. *)
Definition unvoiced (message : string) : Prop :=
  unresolved message \/
  exists command error, to_writer_xml (plist_entries sha1 self command) = Err error /\
    message = "Failed to serialize the plist. " +:+ error.

Lemma heeds_systemd_create : heeds to_string_pretty unvoiced (systemd_create to_string_pretty sha1 self).
Proof.
  apply heeds_next_ok; [apply heeds_make_parents|]. intros _.
  apply heeds_next_ok; [apply heeds_next_ok; [apply heeds_command; by left|intros; apply heeds_give]|]. intros definition.
  apply heeds_next_ok; [apply heeds_write_if_changed|]. intros written.
  apply heeds_next_ok; [destruct written; [apply heeds_execute|apply heeds_give]|]. intros _. apply heeds_execute.
Qed.

Lemma heeds_launchd_generate : heeds to_string_pretty unvoiced (launchd_generate to_string_pretty sha1 self).
Proof.
  eapply does_next_ok; [apply (heeds_command _ unvoiced); by left| |done].
  intros log command Hlog. apply does_give. rewrite app_nil_r.
  destruct (to_writer_xml _) as [buffer|error] eqn:Hwriter; [done|]. eexists. split; [done|]. left. split; [|done].
  right. eauto.
Qed.

Lemma heeds_launchd_create : heeds to_string_pretty unvoiced (launchd_create to_string_pretty sha1 self).
Proof.
  apply heeds_next_ok; [apply heeds_make_parents|]. intros _.
  apply heeds_next_ok; [apply heeds_launchd_generate|]. intros definition.
  apply heeds_next_ok; [apply heeds_write_if_changed|]. intros written. apply heeds_execute.
Qed.


Lemma only_write_if_changed path data : only (stays path) (write_if_changed to_string_pretty path data).
Proof.
  apply only_next; [by apply only_step|]. intros current. destruct (decide _); [apply only_give|].
  apply only_next_ok; [by apply only_make_parent|]. intros _. apply only_next; [by apply only_step|].
  intros written. apply only_give.
Qed.

Lemma only_remove_if_exists path : only (stays path) (remove_if_exists to_string_pretty path).
Proof.
  apply only_next; [by apply only_step|]. intros [|]; [|apply only_give]. apply only_next; [by apply only_step|].
  intros removed. apply only_give.
Qed.

(** Programs made of the steps above. *)
Hint Resolve only_give only_execute only_execute_code only_make_parents only_write_if_changed only_remove_if_exists
  only_linger only_await only_invoked : service.
Hint Extern 1 (stays _ _) => exact I : service.
Ltac only_parts :=
  repeat first
    [ solve [auto with service] | apply only_next_ok; [|intros ?] | apply only_next; [|intros ?] | case_match
    | by apply only_step ].

(** Neither platform writes or removes a file but its own definition. *)
Theorem definition_alone :
  let contained (service : ServiceManager) :=
    only (stays (manager_location service)) (manager_start service) /\
    only (stays (manager_location service)) (manager_stop service) in
  contained (systemd_service to_string_pretty sha1 self) /\ contained (launchd_service to_string_pretty sha1 self).
Proof.
  simpl. unfold systemd_start, systemd_stop, systemd_state, systemd_create, systemd_generate, create_log_directories.
  unfold launchd_start, launchd_stop, launchd_state, launchd_create, launchd_generate, create_log_directories.
  split_and!; only_parts.
Qed.
End managers.

(** ** A machine *)

Module Linux.
(** A machine whose files hold what was written to them, on which every
    command succeeds, and the manager answers that the service runs once it
    was started and until it was stopped; or a manager whose service starts
    over and over, which it never calls active. *)
Definition started (history : History) : bool :=
  foldl (fun running did =>
    match did with
    | RanCommand _ ("start" :: _) _ _ => true
    | RanCommand _ ("stop" :: _) _ _ => false
    | _ => running
    end) false history.

Definition machine (restarting : bool) : Computer := {|
  variable := fun name => if decide (name = "HOME") then Some "/home/worker" else
                          if decide (name = "USER") then Some "worker" else None;
  user_id := 1000;
  argument_zero := Some "/opt/venv/bin/ceres";
  working_directory := Some "/opt/project";
  current_executable := Ok "/opt/ceres/target/ceres";
  target_os := "linux";
  on_read := fun history path => foldl (learns path) None history;
  on_look := fun history path => bool_decide (is_Some (foldl (learns path) None history)) || str_ends_with "/bus" path;
  on_look_file := fun _ _ => true;
  on_resolve := fun _ path => Some path;
  on_directories := fun _ _ => Ok tt;
  on_write := fun _ _ _ => Ok tt;
  on_remove := fun _ _ => Ok tt;
  on_command := fun history program arguments _ =>
    Ok {| exit_code := Some (match arguments with
                             | "is-active" :: _ => if started history && negb restarting then 0 else 3
                             | _ => 0
                             end)%Z;
          stderr_text := "" |}
|}.

#[local] Instance plain_painters : Painters :=
  {| from_str := fun _ => None; quoted := id; is_uuid := fun _ => false; is_instant := fun _ => false |}.

Definition probe : ServiceContext :=
  {| context_project := "/opt/project/ceres.yaml";
     context_config := {| service_name := Some "probe"; service_user := None; service_stdout := Some "logs/out.log";
                          service_stderr := Some "/var/log/err.log" |} |}.
Definition to_pretty (value : Jvalue) : option string := None.
Definition no_sha1 (text : string) : list Z := [].

Definition unit_path : string := "/home/worker/.config/systemd/user/probe.service".
Definition start_ (restarting : bool) := @systemd_start (machine restarting) _ to_pretty no_sha1 probe.
Definition stop_ (restarting : bool) := @systemd_stop (machine restarting) _ to_pretty no_sha1 probe.
Definition standing (path : string) (history : History) : option string := foldl (learns path) None history.

(** A start writes the unit, its log lines in the service section. *)
Example probe_starts :
  let (outcome, history) := start_ false [] in
  outcome = Ok tt /\
  standing unit_path history = Some (
    "[Unit]" +:+ line_end +:+ "Description=" +:+ String mark "probe.service" +:+ String mark "" +:+ line_end +:+ line_end +:+
    "[Service]" +:+ line_end +:+ "ExecStart=/opt/venv/bin/ceres run" +:+ line_end +:+
    "WorkingDirectory=/opt/project" +:+ line_end +:+ "Restart=always" +:+ line_end +:+
    "StandardOutput=append:/opt/project/logs/out.log" +:+ line_end +:+
    "StandardError=append:/var/log/err.log" +:+ line_end +:+ line_end +:+
    "[Install]" +:+ line_end +:+ "WantedBy=default.target" +:+ line_end).
Proof. vm_compute. by split. Qed.

(** A service stopped leaves no unit. *)
Example probe_stops :
  let (outcome, history) := after_act (start_ false) (fun _ => stop_ false) [] in
  outcome = Ok tt /\ standing unit_path history = None.
Proof. vm_compute. by split. Qed.

(** One that fails and is restarted over and over is not active when asked:
    stopping it succeeds, and leaves it to go on, enabled and with its unit. *)
Example restarting_not_stopped :
  let (outcome, history) := after_act (start_ true) (fun _ => stop_ true) [] in
  outcome = Ok tt /\ is_Some (standing unit_path history) /\ started history = true.
Proof. vm_compute. split_and!; by eauto. Qed.
End Linux.
