(* ===== verification/Operate.v ===== *)
(** * Operating a running engine

    The selectors of [ceres-cli/src/selector.rs], with the regular expression
    that admits them, the commands of [commands/engine.rs] and
    [commands/console.rs], and what [commands/offline.rs] shows of an engine
    that is stopped. The selectors admitted are those [Selector] parses. *)
From S2P Require Import Prelude.
From stdpp Require Import pretty.
From S2P Require Import Text Sql Selector Wire Json Http FilterParse Rows Screen Dump Client Config ConfigValues.
From S2P Require Import ConfigServer ConfigDatabase.
Local Open Scope string_scope.
Local Open Scope list_scope.

(** ** Regular expressions

    The language of a pattern of the operators the selectors' uses, and the
    texts in it by derivatives: what is left to match after a character. *)

Inductive Pattern :=
  | Never
  | Nothing
  | One (test : ascii -> bool)
  | Then (first second : Pattern)
  | Either (this that : Pattern)
  | Many (repeated : Pattern).

Fixpoint empties (self : Pattern) : bool :=
  match self with
  | Never | One _ => false
  | Nothing | Many _ => true
  | Then first second => empties first && empties second
  | Either this that => empties this || empties that
  end.

Fixpoint after_char (c : ascii) (self : Pattern) : Pattern :=
  match self with
  | Never | Nothing => Never
  | One test => if test c then Nothing else Never
  | Then first second =>
      let goes_on := Then (after_char c first) second in
      if empties first then Either goes_on (after_char c second) else goes_on
  | Either this that => Either (after_char c this) (after_char c that)
  | Many repeated => Then (after_char c repeated) (Many repeated)
  end.

Fixpoint whole_match (self : Pattern) (text : string) : bool :=
  match text with
  | EmptyString => empties self
  | String c text => whole_match (after_char c self) text
  end.

Definition char_ (c : ascii) : Pattern := One (Strings.Ascii.eqb c).
Fixpoint word (text : string) : Pattern :=
  match text with EmptyString => Nothing | String c text => Then (char_ c) (word text) end.
Definition optional (self : Pattern) : Pattern := Either Nothing self.

(** ** Selectors *)

(** [SEGMENT_REGEX], its parts named as its code names them. *)
Definition modifier_text : string := ":(all|children|descendants)".
Definition path_text : string := "@?" +:+ NAME_PATTERN +:+ "(\." +:+ NAME_PATTERN +:+ ")*".
Definition segment_text : string :=
  "\~(:(all|descendants))?|" +:+ path_text +:+ "(" +:+ modifier_text +:+ ")?|@" +:+ modifier_text +:+ "|" +:+ modifier_text.
Definition SEGMENT_REGEX : string := "^(?:" +:+ segment_text +:+ ")(\|(?:" +:+ segment_text +:+ "))*$".

(** The same pattern as a tree. *)
Definition name_pattern : Pattern := Then (One name_start) (Many (One name_char)).
Definition separated (c : ascii) (part : Pattern) : Pattern := Then part (Many (Then (char_ c) part)).
Definition modifier_pattern : Pattern :=
  Then (char_ ":") (Either (word "all") (Either (word "children") (word "descendants"))).
Definition path_pattern : Pattern := Then (optional (char_ "@")) (separated "." name_pattern).
Definition segment_pattern : Pattern :=
  Either (Then (char_ "~") (optional (Then (char_ ":") (Either (word "all") (word "descendants")))))
    (Either (Then path_pattern (optional modifier_pattern))
       (Either (Then (char_ "@") modifier_pattern) modifier_pattern)).
Definition selector_pattern : Pattern := separated "|" segment_pattern.

Section selectors.
Context `{Painters} `{RegexCrate} (to_string_pretty : Jvalue -> option string).

(** [Selector::parse], a selector being its text, and [Selector::join]. *)
Definition cli_selector_parse (text : string) : result string Exit :=
  if regex_match SEGMENT_REGEX text then Ok text
  else Err (exit_failed to_string_pretty
              ("Invalid address selector " +:+ debug_text text +:+ ". If your shell expanded a wildcard, quote the selector.")).

Definition selector_join (selectors : list string) : string :=
  match selectors with [] => "all" | _ => str_join "|" selectors end.

(** [parse_selectors]. *)
Definition parse_selectors (addresses : list string) : result string Exit :=
  match res_map cli_selector_parse addresses with
  | Ok selectors => Ok (selector_join selectors)
  | Err error => Err error
  end.
End selectors.

(** ** Commands over a running engine *)

(** [Status], and [serde_json]'s reading of a list of them. *)
Record ComponentStatus := { status_address : string; status_running : bool; status_enabled : option bool }.
Class StatusReader := read_statuses : string -> result (list ComponentStatus) string.

Inductive Operation := StartOperation | StopOperation | EnableOperation | DisableOperation | UpOperation | DownOperation.

Definition operation_path (self : Operation) : string :=
  match self with
  | StartOperation => "start" | StopOperation => "stop" | EnableOperation => "enable"
  | DisableOperation => "disable" | UpOperation => "up" | DownOperation => "down"
  end.

Section engine.
Context `{Painters} `{JsonText} `{RegexCrate} `{StatusReader} (to_string_pretty : Jvalue -> option string) (output : Output).
Local Open Scope talk_scope.

Notation failed := (exit_failed to_string_pretty).

(** [Client::connect] of a project: what its server info file gives. *)
Context (info_path : string) (server_info : option ServerInfo).

Definition engine_reload : Talk (result unit Exit) :=
  do? client := say (connect to_string_pretty info_path server_info) in
  do? _ := client_post to_string_pretty client "reload" [] None in
  say (Ok tt).

Definition get_statuses (client : ServerInfo) (selector : string) : Talk (result (list ComponentStatus) Exit) :=
  do? body := client_get to_string_pretty client "statuses" [("address", selector)] in
  say match read_statuses body with
      | Ok statuses => Ok statuses
      | Err error => Err (failed ("Received an invalid status response. " +:+ error))
      end.

Definition assert_matches (client : ServerInfo) (selector : string) : Talk (result unit Exit) :=
  do? statuses := get_statuses client selector in
  say match statuses with
      | [] => Err (failed ("No components match '" +:+ selector +:+
                           "'. If your shell expanded a wildcard, quote the selector."))
      | _ => Ok tt
      end.

Definition operate (operation : Operation) (addresses : list string) : Talk (result unit Exit) :=
  do? selector := say (parse_selectors to_string_pretty addresses) in
  do? client := say (connect to_string_pretty info_path server_info) in
  do? _ := assert_matches client selector in
  do? answer := client_post to_string_pretty client (operation_path operation) []
                  (Some (JObject [("address", JText selector)])) in
  do% _ := put_line output answer in
  say (Ok tt).

(** [write_status]: the engine's table and the components', of a configuration
    that loads. *)
Context (config_path : string) (meta_server : result ServerConfig Exit).

Definition strbool (value : bool) : string := if value then "Yes" else "No".
Definition bare_cell (text : string) : Cell := {| cell_text := text; cell_style := None |}.

Definition engine_table (running : bool) (server : ServerConfig) : Table :=
  {| title := Some "Engine"; table_columns := ["Configuration"; "Running"; "Web Server Port"; "CLI Server Port"];
     table_rows := [[bare_cell config_path; bare_cell (strbool running);
       bare_cell (match console_listener server with Some (_, port) => pretty port | None => "(Disabled)" end);
       bare_cell (match server_info with Some info => pretty (info_port info) | None => "(Stopped)" end)]] |}.

Definition component_table (statuses : list ComponentStatus) : Table :=
  {| title := Some "Components"; table_columns := ["Address"; "Enabled"; "Running"];
     table_rows := (fun current => [bare_cell (status_address current); bare_cell (strbool (default false (status_enabled current)));
                                    bare_cell (strbool (status_running current))]) <$> statuses |}.

Definition write_status (running : bool) (statuses : list ComponentStatus) : Talk (result unit Exit) :=
  do? server := say meta_server in
  do% _ := write_table output (engine_table running server) in
  do% _ := (match statuses with [] => say tt | _ => write_table output (component_table statuses) end) in
  say (Ok tt).

(** [engine::status]. *)
Definition engine_status (client : ServerInfo) (addresses : list string) : Talk (result unit Exit) :=
  do? selector := say (parse_selectors to_string_pretty addresses) in
  do? statuses := get_statuses client selector in
  write_status true statuses.

(** ** A stopped engine *)

(** [component_addresses] of a configuration read as YAML: a list of
    components, or one with those below it. A tag is looked through where a
    field is got, and not where a list is expected. *)
Fixpoint untag (value : Yaml) : Yaml := match value with YTagged _ value => untag value | value => value end.

Fixpoint yaml_field (key : string) (entries : list (Yaml * Yaml)) : option Yaml :=
  match entries with
  | [] => None
  | (YString name, value) :: entries => if Strings.String.eqb name key then Some value else yaml_field key entries
  | _ :: entries => yaml_field key entries
  end.

Definition name_of (entries : list (Yaml * Yaml)) : option string :=
  match untag <$> yaml_field "name" entries with Some (YString name) => Some name | _ => None end.

Definition child_address (parent name : string) : string :=
  if Strings.String.eqb parent "" then "@" +:+ name else parent +:+ "." +:+ name.

Fixpoint walk_components (listed : bool) (parent : string) (value : Yaml) : list string :=
  match value with
  | YSequence entries =>
      if listed then
        (fix each (entries : list Yaml) : list string :=
           match entries with [] => [] | entry :: entries => walk_components false parent entry ++ each entries end) entries
      else []
  | YTagged _ value => if listed then [] else walk_components false parent value
  | YMapping entries =>
      if listed then []
      else match name_of entries with
      | None => []
      | Some name =>
          child_address parent name ::
          (fix components (fields : list (Yaml * Yaml)) : list string :=
             match fields with
             | [] => []
             | (YString key, value) :: fields =>
                 if Strings.String.eqb key "components" then walk_components true (child_address parent name) value
                 else components fields
             | _ :: fields => components fields
             end) entries
      end
  | _ => []
  end.

Definition component_addresses (root : Yaml) : list string :=
  match untag root with
  | YMapping entries => match yaml_field "components" entries with Some value => walk_components true "" value | None => [] end
  | _ => []
  end.

(** [offline::status]: the enablement read from the database, if it could be. *)
Definition offline_statuses (root : Yaml) (enabled : result (list string) string) : list ComponentStatus :=
  match enabled with
  | Ok enabled =>
      (fun address => {| status_address := address; status_running := false;
                         status_enabled := Some (bool_decide (address ∈ enabled)) |}) <$> component_addresses root
  | Err _ => []
  end.

Definition offline_status (root : result Yaml Exit) (enabled : result (list string) string) (addresses : list string) :
    Talk (result unit Exit) :=
  do? _ := say (parse_selectors to_string_pretty addresses) in
  do? _ := say meta_server in
  do? root := say root in
  write_status false (offline_statuses root enabled).

(** ** The console *)

(** [console_url], [ip_text] being [Display] of an address. *)
Context (ip_text : IpAddr -> string).

Definition console_url (server : ServerConfig) : result string Exit :=
  match console_listener server with
  | None => Err (failed ("Server is not configured. Add a `server.https` or `server.http` listener to `ceres.yaml`."))
  | Some (scheme, port) =>
      let host :=
        match ip_parse (bind server) with
        | Some address =>
            if is_unspecified address then "localhost"
            else match address with V6 _ => "[" +:+ ip_text address +:+ "]" | V4 _ => bind server end
        | None => bind server
        end in
      Ok (scheme +:+ "://" +:+ host +:+ ":" +:+ pretty port)
  end.

Definition console_url_command : Talk (result unit Exit) :=
  do? server := say meta_server in
  do? url := say (console_url server) in
  do% _ := put_line output url in
  say (Ok tt).
End engine.

(** ** What the pattern matches *)

Inductive repeats (P : string -> Prop) : string -> Prop :=
  | repeats_none : repeats P ""
  | repeats_more first rest : P first -> repeats P rest -> repeats P (first +:+ rest).

Fixpoint language (self : Pattern) (text : string) : Prop :=
  match self with
  | Never => False
  | Nothing => text = ""
  | One test => exists c, text = String c "" /\ test c = true
  | Then first second => exists a b, text = a +:+ b /\ language first a /\ language second b
  | Either this that => language this text \/ language that text
  | Many repeated => repeats (language repeated) text
  end.

Lemma nullable_language self : empties self = true <-> language self "".
Proof.
  induction self as [| |test|first IH1 second IH2|this IH1 that IH2|repeated IH]; simpl.
  - done.
  - done.
  - split; [done|]. by intros (c & [=] & _).
  - rewrite andb_true_iff, IH1, IH2. split.
    + intros [H1 H2]. by exists "", "".
    + intros ([|] & [|] & [=] & H1 & H2). by split.
  - by rewrite orb_true_iff, IH1, IH2.
  - split; [constructor|done].
Qed.

Lemma repeats_cons P c text :
  repeats P (String c text) -> exists a b, text = a +:+ b /\ P (String c a) /\ repeats P b.
Proof.
  remember (String c text) as whole eqn:Hwhole. intros Hrepeats. induction Hrepeats as [|[|c' first] rest HP Hrest IH]; [done| |].
  - by apply IH.
  - injection Hwhole as -> <-. by exists first, rest.
Qed.

Lemma after_char_language self c text : language (after_char c self) text <-> language self (String c text).
Proof.
  revert text. induction self as [| |test|first IH1 second IH2|this IH1 that IH2|repeated IH]; intros text; simpl.
  - done.
  - by split.
  - destruct (test c) eqn:Htest; simpl.
    + split; [intros ->; by exists c|]. intros (? & [= -> ->] & _). done.
    + split; [done|]. intros (? & [= -> ->] & ?). congruence.
  - assert (Hgoes : language (Then (after_char c first) second) text <->
                    exists a b, text = a +:+ b /\ language first (String c a) /\ language second b).
    { simpl. by setoid_rewrite IH1. }
    assert (Hsplit : (exists a b, String c text = a +:+ b /\ language first a /\ language second b) <->
                     (exists a b, text = a +:+ b /\ language first (String c a) /\ language second b) \/
                     (language first "" /\ language second (String c text))).
    { split.
      - intros ([|c' a] & b & Heq & Ha & Hb); simpl in Heq.
        + right. by rewrite Heq.
        + injection Heq as <- ->. left. by exists a, b.
      - intros [(a & b & -> & Ha & Hb)|[Ha Hb]]; [by exists (String c a), b|by exists "", (String c text)]. }
    rewrite Hsplit, <- Hgoes, <- nullable_language, <- IH2.
    destruct (empties first); simpl; naive_solver.
  - by rewrite IH1, IH2.
  - split.
    + intros (a & b & -> & Ha & Hb). apply IH in Ha. by apply (repeats_more _ (String c a)).
    + intros (a & b & -> & Ha & Hb)%repeats_cons. exists a, b. by rewrite IH.
Qed.

Lemma whole_match_language self text : whole_match self text = true <-> language self text.
Proof.
  revert self. induction text as [|c text IH]; intros self; simpl; [apply nullable_language|].
  by rewrite IH, after_char_language.
Qed.

(** ** What the selectors' pattern says *)

Lemma word_language w text : language (word w) text <-> text = w.
Proof.
  revert text. induction w as [|c w IH]; intros text; simpl; [done|]. split.
  - intros (a & b & -> & (c' & -> & Hc) & ->%IH). apply Strings.Ascii.eqb_eq in Hc as ->. by rewrite str_app_cons, str_app_nil.
  - intros ->. exists (String c ""), w. rewrite IH. split_and!; try done. exists c. by rewrite Strings.Ascii.eqb_refl.
Qed.

Lemma char_language c text : language (char_ c) text <-> text = String c "".
Proof.
  simpl. split; [|intros ->; exists c; by rewrite Strings.Ascii.eqb_refl].
  by intros (c' & -> & ->%Strings.Ascii.eqb_eq).
Qed.

Lemma many_language test text : language (Many (One test)) text <-> str_forall test text = true.
Proof.
  simpl. split.
  - induction 1 as [|first rest (c & -> & Hc) _ IH]; simpl; [done|]. by rewrite Hc.
  - induction text as [|c text IH]; simpl; [constructor|]. intros [Hc Htext]%andb_true_iff.
    apply (repeats_more _ (String c "")); [eauto|by apply IH].
Qed.

Lemma name_language text : language name_pattern text <-> is_valid_name text = true.
Proof.
  unfold name_pattern. split.
  - intros (a & b & -> & (c & -> & Hc) & Hb). apply many_language in Hb. rewrite str_app_cons, str_app_nil. simpl. by rewrite Hc, Hb.
  - destruct text as [|c text]; [done|]. simpl is_valid_name. intros [Hc Htext]%andb_true_iff.
    exists (String c ""), text. split_and!; [done|by exists c|by apply many_language].
Qed.

(** Parts with separators between them are the parts the text splits into. *)
Lemma separated_language c part text :
  (forall text, language part text -> contains_char c text = false) ->
  language (separated c part) text <-> Forall (language part) (str_split c text).
Proof.
  intros Hfree. unfold separated. split.
  - intros (a & b & -> & Ha & Hb). simpl in Hb. revert a Ha.
    induction Hb as [|first rest (sep & p & -> & Hsep%char_language & Hp) _ IH]; intros a Ha.
    + rewrite str_app_nil_r, str_split_single by auto. by constructor.
    + subst sep. change ((String c "" +:+ p) +:+ rest) with (String c (p +:+ rest)).
      rewrite str_split_app by auto. constructor; auto.
  - intros Hparts. rewrite <- (str_join_split c text). revert Hparts. pose proof (str_split_nonempty c text).
    destruct (str_split c text) as [|first parts]; [done|]. clear text. intros [Hfirst Hparts]%Forall_cons.
    enough (exists rest, str_join c (first :: parts) = first +:+ rest /\ language (Many (Then (char_ c) part)) rest)
      as (rest & -> & Hrest) by (by exists first, rest).
    clear Hfirst H. revert first. induction Hparts as [|next parts Hnext _ IH]; intros first.
    + exists "". rewrite str_app_nil_r. split; [done|constructor].
    + destruct (IH next) as (rest & Heq & Hrest). exists (String c next +:+ rest). split.
      * cbn [str_join] in *. by rewrite Heq.
      * simpl. apply repeats_more; [|done]. exists (String c ""), next. split_and!; [done|by apply char_language|done].
Qed.

Lemma dotted_language text :
  language (separated "." name_pattern) text <-> valid_path text = true.
Proof.
  rewrite separated_language.
  - unfold valid_path. destruct (bool_decide_reflect (text = "")) as [->|Hne]; simpl.
    + split; [|done]. intros [Hname _]%Forall_cons. by apply name_language in Hname.
    + rewrite forallb_forall, Forall_forall. setoid_rewrite name_language. by setoid_rewrite list_elem_of_In.
  - intros name Hname%name_language%is_valid_name_chars. by apply (str_forall_no_char name_char).
Qed.

Lemma path_language text : language path_pattern text <-> valid_optionally_absolute_path text = true.
Proof.
  unfold path_pattern, valid_optionally_absolute_path. split.
  - intros (a & b & -> & Ha & Hb). apply dotted_language in Hb. destruct Ha as [->| ->%char_language].
    + rewrite str_app_nil. destruct (valid_path_start b Hb) as (c & rest & -> & Hc).
      destruct (strip_prefix "@" (String c rest)) eqn:Hstrip; [|done]. apply strip_prefix_Some in Hstrip.
      rewrite str_app_cons in Hstrip. by simplify_eq.
    + by rewrite str_app_cons.
  - destruct (strip_prefix "@" text) as [path|] eqn:Hstrip; simpl.
    + apply strip_prefix_Some in Hstrip as ->. intros Hpath. exists "@", path.
      split_and!; [done|by right; exists "@"%char|by apply dotted_language].
    + intros Hpath. exists "", text. split_and!; [done|by left|by apply dotted_language].
Qed.

Lemma modifier_language text :
  language modifier_pattern text <-> exists modifier, text = String ":" modifier /\ is_Some (modifier_parse modifier).
Proof.
  unfold modifier_pattern. split.
  - intros (a & b & -> & ->%char_language & Hb). exists b. split; [done|].
    destruct Hb as [->%word_language|[->%word_language| ->%word_language]]; by eexists.
  - intros (modifier & -> & Hparse). exists ":", modifier. split_and!; [done|by apply char_language|].
    unfold modifier_parse in Hparse. repeat case_decide; simplify_eq; try by apply whole_match_language.
Qed.

Lemma engine_language text :
  language (Then (char_ "~") (optional (Then (char_ ":") (Either (word "all") (word "descendants"))))) text <->
  text = "~" \/ text = "~:all" \/ text = "~:descendants".
Proof.
  split.
  - intros (a & b & -> & ->%char_language & [->|(c & d & -> & ->%char_language & [->%word_language| ->%word_language])]); auto.
  - intros Htext. apply whole_match_language. by destruct Htext as [->|[->| ->]].
Qed.

Lemma optional_language pattern text : language (optional pattern) text <-> text = "" \/ language pattern text.
Proof. done. Qed.

Lemma valid_base_no_char c base :
  path_char c = false -> Strings.Ascii.eqb "@" c = false ->
  valid_optionally_absolute_path base = true -> contains_char c base = false.
Proof.
  intros Hc Hat. unfold valid_optionally_absolute_path. destruct (strip_prefix "@" base) as [path|] eqn:Hstrip; simpl.
  - apply strip_prefix_Some in Hstrip as ->. rewrite contains_char_app. cbn [contains_char]. rewrite Hat.
    by apply path_no_char.
  - by apply path_no_char.
Qed.

Lemma either_language this that text : language (Either this that) text <-> language this text \/ language that text.
Proof. done. Qed.

(** Splitting at the first colon leaves the base and its modifier. *)
Lemma held_language text :
  language (Then path_pattern (optional modifier_pattern)) text <->
  match split_once ":" text with
  | Some (base, modifier) => valid_optionally_absolute_path base = true /\ is_Some (modifier_parse modifier)
  | None => valid_optionally_absolute_path text = true
  end.
Proof.
  split.
  - intros (a & b & -> & Ha%path_language & [->|(modifier & -> & Hmodifier)%modifier_language]).
    + rewrite str_app_nil_r. by rewrite (proj2 (split_once_None _ _) (valid_base_no_char ":" _ eq_refl eq_refl Ha)).
    + rewrite (proj2 (split_once_Some ":" _ a modifier)); [done|]. split; [done|by apply valid_base_no_char].
  - destruct (split_once ":" text) as [[base modifier]|] eqn:Hsplit.
    + apply split_once_Some in Hsplit as [-> _]. intros [Hbase Hmodifier].
      exists base, (String ":" modifier). split_and!; [done|by apply path_language|right].
      apply modifier_language. eauto.
    + intros Htext. exists text, "". split_and!; [by rewrite str_app_nil_r|by apply path_language|by left].
Qed.

Lemma absolute_modifier_language text :
  language (Then (char_ "@") modifier_pattern) text <->
  exists modifier, text = "@:" +:+ modifier /\ is_Some (modifier_parse modifier).
Proof.
  split.
  - intros (a & b & -> & ->%char_language & (modifier & -> & Hmodifier)%modifier_language). by exists modifier.
  - intros (modifier & -> & Hmodifier). exists "@", (String ":" modifier).
    split_and!; [done|by exists "@"%char|]. apply modifier_language. eauto.
Qed.

Lemma segment_language text : language segment_pattern text <-> valid_segment text = true.
Proof.
  unfold segment_pattern.
  rewrite !either_language, engine_language, held_language, absolute_modifier_language, modifier_language.
  unfold valid_segment. destruct (decide _) as [Hengine|Hengine]; [tauto|].
  assert (Hbase : forall base,
    contains_char ":" base = false ->
    (exists modifier, text = base +:+ String ":" modifier /\ is_Some (modifier_parse modifier)) <->
    exists modifier, split_once ":" text = Some (base, modifier) /\ is_Some (modifier_parse modifier)).
  { intros base Hfree. setoid_rewrite split_once_Some. naive_solver. }
  pose proof (Hbase "@" eq_refl) as Habsolute. pose proof (Hbase "" eq_refl) as Hrelative. clear Hbase.
  setoid_rewrite Habsolute. setoid_rewrite Hrelative.
  destruct (split_once ":" text) as [[base modifier]|].
  - destruct (modifier_parse modifier) as [parsed|] eqn:Hparse.
    + destruct (decide _) as [Hends|Hends]; split; intros Hside.
      * done.
      * right; right. destruct Hends as [->| ->]; [right|left]; exists modifier; by rewrite Hparse.
      * destruct Hside as [?|[[Hheld _]|[(? & [= -> ->] & _)|(? & [= -> ->] & _)]]]; [tauto|done|tauto|tauto].
      * right; left. by eauto.
    + split; [|done].
      intros [?|[[_ Hsome]|[(? & [= -> ->] & Hsome)|(? & [= -> ->] & Hsome)]]]; [tauto|by destruct Hsome| |];
        rewrite Hparse in Hsome; by destruct Hsome.
  - split; intros Hside.
    + by destruct Hside as [?|[?|[(? & [=] & _)|(? & [=] & _)]]].
    + by right; left.
Qed.

Lemma modifier_no_bar modifier : is_Some (modifier_parse modifier) -> contains_char "|" modifier = false.
Proof. unfold modifier_parse. intros Hsome. by repeat case_decide; subst; try destruct Hsome as [? [=]]. Qed.

Lemma valid_segment_no_bar text : valid_segment text = true -> contains_char "|" text = false.
Proof.
  unfold valid_segment. destruct (decide _) as [[->|[->| ->]]|_]; [done..|].
  destruct (split_once ":" text) as [[base modifier]|] eqn:Hsplit; [|by apply valid_base_no_char].
  apply split_once_Some in Hsplit as [-> _]. destruct (modifier_parse modifier) as [parsed|] eqn:Hparse; [|done].
  intros Hbase. rewrite contains_char_app. cbn [contains_char].
  rewrite (modifier_no_bar modifier) by by eexists.
  destruct (decide _) as [[->| ->]|]; [done|done|]. by rewrite (valid_base_no_char "|" _ eq_refl eq_refl Hbase).
Qed.

Lemma push_valid debug text :
  is_ok (push debug text selector_default) = true <-> Forall (fun segment => valid_segment segment = true) (str_split "|" text).
Proof.
  unfold push. generalize selector_default. generalize (str_split "|" text) as parts.
  intros parts. induction parts as [|segment parts IH]; intros self; simpl; [by split; [constructor|]|].
  rewrite Forall_cons. destruct (valid_segment segment) eqn:Hvalid; simpl; [|naive_solver].
  rewrite IH. naive_solver.
Qed.

Lemma cli_matches_push debug text :
  whole_match selector_pattern text = true <-> is_ok (push debug text selector_default) = true.
Proof.
  rewrite whole_match_language. unfold selector_pattern. rewrite separated_language.
  - rewrite push_valid. apply Forall_iff. intros segment. apply segment_language.
  - intros segment Hsegment%segment_language. by apply valid_segment_no_bar.
Qed.

Lemma str_split_join c first parts :
  str_split c (str_join c (first :: parts)) = (first :: parts) ≫= str_split c.
Proof.
  revert first. induction parts as [|next parts IH]; intros first.
  - simpl. by rewrite app_nil_r.
  - change (str_join c (first :: next :: parts)) with (first +:+ String c (str_join c (next :: parts))).
    rewrite str_split_concat, IH. done.
Qed.

Lemma push_segments debug text self :
  Forall (fun segment => valid_segment segment = true) (str_split "|" text) ->
  push debug text self = Ok {| segments := segments self ++ str_split "|" text |}.
Proof.
  unfold push. generalize (str_split "|" text) as parts. intros parts Hparts. revert self.
  induction Hparts as [|segment parts Hvalid _ IH]; intros self; simpl.
  - rewrite app_nil_r. by destruct self.
  - rewrite Hvalid. simpl. rewrite IH. simpl. by rewrite <- app_assoc.
Qed.

Section admitted.
Context `{Painters} `{RegexCrate} (to_string_pretty : Jvalue -> option string).
(** The crate matches the pattern as regular expressions are read. *)
Context (language_matched : forall text, regex_match SEGMENT_REGEX text = whole_match selector_pattern text).

Lemma cli_parse_map addresses selectors :
  res_map (cli_selector_parse to_string_pretty) addresses = Ok selectors ->
  selectors = addresses /\ Forall (fun text => whole_match selector_pattern text = true) addresses.
Proof.
  revert selectors. induction addresses as [|address addresses IH]; intros selectors; simpl; [by intros [= <-]|].
  unfold cli_selector_parse at 1. rewrite language_matched. destruct (whole_match selector_pattern address) eqn:Hmatch; [|done].
  destruct (res_map _ addresses) as [rest|]; [|done]. intros [= <-]. destruct (IH rest) as [-> Hall]; [done|]. auto.
Qed.

(** C39: The command line admits exactly the selectors the store parses, neither
    grammar taking a text the other refuses; and the selectors of several
    addresses, joined, parse into the segments of each, in order. *)
Theorem cli_selectors_parse debug addresses :
  match parse_selectors to_string_pretty addresses with
  | Ok selector =>
      Forall (fun text => is_ok (push debug text selector_default) = true) addresses /\
      push debug selector selector_default =
        Ok {| segments := match addresses with [] => ["all"] | _ => addresses ≫= str_split "|" end |}
  | Err _ => List.Exists (fun text => is_ok (push debug text selector_default) = false) addresses
  end.
Proof.
  unfold parse_selectors. destruct (res_map _ addresses) as [selectors|error] eqn:Hmap.
  - apply cli_parse_map in Hmap as [-> Hall].
    assert (Hpushed : Forall (fun text => is_ok (push debug text selector_default) = true) addresses)
      by (eapply Forall_impl; [exact Hall|]; intros text; apply cli_matches_push).
    split; [done|]. destruct addresses as [|first rest]; [done|]. change (selector_join (first :: rest)) with (str_join "|" (first :: rest)).
    rewrite push_segments, str_split_join; [done|]. rewrite str_split_join. apply Forall_bind.
    eapply Forall_impl; [exact Hpushed|]. intros text. apply push_valid.
  - revert error Hmap. induction addresses as [|address addresses IH]; intros error; simpl; [done|].
    unfold cli_selector_parse at 1. rewrite language_matched. destruct (whole_match selector_pattern address) eqn:Hmatch.
    + destruct (res_map _ addresses) as [rest|other]; [done|]. intros _. right. by apply (IH other).
    + intros _. left. apply not_true_iff_false. rewrite <- (cli_matches_push debug), Hmatch. done.
Qed.
End admitted.

(** ** What a command asks of the engine *)

Section asking.
Context `{Painters} `{JsonText} `{RegexCrate} `{StatusReader} (to_string_pretty : Jvalue -> option string) (output : Output).
Context (info_path : string) (server_info : option ServerInfo).
Local Open Scope talk_scope.

Definition statuses_request (client : ServerInfo) (selector : string) : Request :=
  GetRequest (url client "statuses" [("address", selector)]) (info_token client).
Definition operation_request (client : ServerInfo) (operation : Operation) (selector : string) : Request :=
  PostRequest (url client (operation_path operation) []) (info_token client) (Some (JObject [("address", JText selector)])).

(** The engine's answer to a request that succeeds. *)
Definition answered_ok (response : option Response) (body : string) : Prop :=
  exists status, response = Some (Responded status (Ok body)) /\ (status < 400)%Z.

(** An answer taken as [client_body] takes it. *)
Lemma ask_does request session :
  ask request session =
    (default (Unreached "") (head (answers session)),
     {| answers := tail (answers session); requests := requests session ++ [request]; printed := printed session;
        shown_lines := shown_lines session |}).
Proof. unfold ask. by destruct (answers session). Qed.

Lemma head_tail_second {A} (l : list A) : head (tail l) = l !! 1%nat.
Proof. by destruct l as [|? [|]]. Qed.

Lemma client_body_accepted response body :
  client_body to_string_pretty (default (Unreached "") response) = Ok body -> answered_ok response body.
Proof.
  destruct response as [[error|status [text|error]]|]; simpl; try done.
  destruct (400 <=? status)%Z eqn:Hstatus; [done|]. intros [= ->]. exists status. split; [done|]. lia.
Qed.

(** An operation is posted only once the engine has listed a component its
    selector matches; one that succeeds prints what the engine answered. *)
Theorem operate_matched operation addresses session :
  let '(outcome, after) := operate to_string_pretty output info_path server_info operation addresses session in
  exists asked, requests after = requests session ++ asked /\
    (asked = [] \/
     exists client selector, server_info = Some client /\ parse_selectors to_string_pretty addresses = Ok selector /\
       (asked = [statuses_request client selector] \/
        asked = [statuses_request client selector; operation_request client operation selector] /\
        exists body status statuses, answered_ok (head (answers session)) body /\
          read_statuses body = Ok (status :: statuses))) /\
    (outcome = Ok tt -> length asked = 2%nat /\
       exists body, answered_ok (answers session !! 1%nat) body /\ printed after = printed (put_line output body session).2).
Proof.
  unfold operate, try_, then_, say.
  destruct (parse_selectors to_string_pretty addresses) as [selector|exit] eqn:Hselector.
  2: { exists []. rewrite app_nil_r. split_and!; [done|by left|done]. }
  destruct server_info as [client|]; simpl.
  2: { exists []. rewrite app_nil_r. split_and!; [done|by left|done]. }
  unfold assert_matches, get_statuses, client_get, client_post, try_, then_, say. rewrite !ask_does. simpl.
  destruct (client_body to_string_pretty _) as [body|exit] eqn:Hbody.
  2: { eexists. split; [done|]. split; [right; exists client, selector; auto|done]. }
  apply client_body_accepted in Hbody.
  destruct (read_statuses body) as [[|status statuses]|error] eqn:Hread.
  1, 3: eexists; (split; [done|]); split; [right; exists client, selector; auto|done].
  rewrite ask_does. simpl. rewrite <- app_assoc. rewrite head_tail_second.
  assert (Hasked : exists client' selector', Some client = Some client' /\ Ok (E := Exit) selector = Ok selector' /\
    ([statuses_request client selector; operation_request client operation selector] = [statuses_request client' selector'] \/
     [statuses_request client selector; operation_request client operation selector] =
       [statuses_request client' selector'; operation_request client' operation selector'] /\
     exists body status statuses, answered_ok (head (answers session)) body /\ read_statuses body = Ok (status :: statuses)))
    by (exists client, selector; eauto 10).
  destruct (client_body to_string_pretty _) as [answer|exit] eqn:Hanswer; simpl.
  - apply client_body_accepted in Hanswer. eexists. split; [done|]. split; [by right|]. eauto.
  - eexists. split; [done|]. split; [by right|done].
Qed.
End asking.

(** ** The components of a stopped engine *)

(** Every address is a component's, right below one told before it. *)
Fixpoint told_below (known : list string) (addresses : list string) : Prop :=
  match addresses with
  | [] => True
  | address :: addresses =>
      (exists above name, above ∈ known /\ address = child_address above name) /\ told_below (address :: known) addresses
  end.

Lemma told_below_more known more addresses : known ⊆ more -> told_below known addresses -> told_below more addresses.
Proof.
  revert known more. induction addresses as [|address addresses IH]; intros known more Hsub; simpl; [done|].
  intros [(above & name & Habove & ->) Hrest]. split; [exists above, name; by auto|].
  apply (IH (child_address above name :: known)); [set_solver|done].
Qed.

Lemma told_below_app known before after :
  told_below known before -> told_below known after -> told_below known (before ++ after).
Proof.
  revert known. induction before as [|address before IH]; intros known; simpl; [done|].
  intros [Habove Hbefore] Hafter. split; [done|]. apply IH; [done|]. apply (told_below_more known); [set_solver|done].
Qed.

Lemma walk_told value listed parent known : parent ∈ known -> told_below known (walk_components listed parent value).
Proof.
  revert value listed parent known. fix IH 1. intros value listed parent known Hparent.
  destruct value as [| | | |entries|entries|tag value]; cbn [walk_components]; try done.
  - destruct listed; [|done]. induction entries as [|entry entries IHentries]; [done|].
    apply told_below_app; [by apply IH|done].
  - destruct listed; [done|]. destruct (name_of entries) as [name|]; [|done].
    split; [by exists parent, name|].
    induction entries as [|[[| | |key| | |] value] entries IHentries]; try done.
    destruct (Strings.String.eqb key "components"); [|done]. apply IH. set_solver.
  - destruct listed; [done|]. by apply IH.
Qed.

(** Parents come before their children. *)
Theorem component_parents_first root : told_below [""] (component_addresses root).
Proof.
  unfold component_addresses. destruct (untag root) as [| | | | |entries|]; try done.
  destruct (yaml_field "components" entries); [|done]. apply walk_told. set_solver.
Qed.

(** ** Samples *)

Module Plain.
#[local] Instance painters : Painters :=
  {| from_str := fun _ => None; quoted := id; is_uuid := fun _ => false; is_instant := fun _ => false |}.
#[local] Instance texts : JsonText := fun _ => "".
#[local] Instance regexes : RegexCrate := {| regex_match := fun _ => whole_match selector_pattern; debug_text := id |}.
#[local] Instance reader : StatusReader := fun body =>
  if decide (body = "one") then Ok [{| status_address := "@sensor"; status_running := true; status_enabled := None |}] else Ok [].

Example selectors_admitted :
  forallb (whole_match selector_pattern)
    ["all"; ":all"; "sensor"; "sensor.child"; "@sensor"; "@sensor.child:descendants"; "~"; "~:all"; "@:children";
     "a|b.c|~:descendants"] = true /\
  existsb (whole_match selector_pattern)
    [""; "sensor..child"; "sensor.*"; "1sensor"; "a||b"; "~:children"] = false.
Proof. by vm_compute. Qed.

Lemma cli_selectors_parse_witness :
  push id "sensor|@rig:all" selector_default = Ok {| segments := ["sensor"; "@rig:all"] |}.
Proof. exact (proj2 (cli_selectors_parse (fun _ => None) ltac:(done) id ["sensor"; "@rig:all"])). Defined.

Definition to_pretty (value : Jvalue) : option string := None.
Definition quiet_output : Output := {| out_color := false; result_color := false; live := false |}.
Definition engine_ (answers : list Response) : Session :=
  {| answers := answers; requests := []; printed := ""; shown_lines := "" |}.
Definition start_sensors (answers : list Response) : result unit Exit * Session :=
  operate to_pretty quiet_output "server.json" (Some {| info_port := 7000; info_token := "t" |}) StartOperation
    ["sensor"; "~"] (engine_ answers).

(** An operation that is posted, and one whose selector matches nothing. *)
Example start_posted :
  let (outcome, after) := start_sensors [Responded 200 (Ok "one"); Responded 200 (Ok "started")] in
  outcome = Ok tt /\ printed after = "started" +:+ line_end /\ length (requests after) = 2%nat.
Proof. by vm_compute. Qed.

Example start_unmatched :
  let (outcome, after) := start_sensors [Responded 200 (Ok "none"); Responded 200 (Ok "started")] in
  is_ok outcome = false /\ printed after = "" /\ length (requests after) = 1%nat.
Proof. by vm_compute. Qed.

Definition named (name : string) (children : list Yaml) : Yaml :=
  YMapping [(YString "name", YString name); (YString "components", YSequence children)].

Example addresses_walked :
  component_addresses (YMapping [(YString "components",
    YSequence [named "rig" [named "sensor" []; YMapping [(YString "kind", YString "x")]]; named "log" []])]) =
  ["@rig"; "@rig.sensor"; "@log"].
Proof. by vm_compute. Qed.
End Plain.
