(* ===== verification/Webrtc.v ===== *)
(** * What a WebRTC session keeps and tells

    The parts of [ceres-webrtc/src] that are not sockets: the frames a browser
    starts from ([picture.rs]), how well a session's media reaches it
    ([delivery.rs]), and the addresses it is told to reach the media port at
    ([candidates.rs]). *)
From S2P Require Import Prelude.
From stdpp Require Import pretty.
From S2P Require Import Text Timeline Packet Reader ReaderPicture ConfigValues Certificates.
Local Open Scope string_scope.
Local Open Scope list_scope.
Local Open Scope Z_scope.
Local Open Scope ceres_scope.

(** ** The frames a browser starts from *)

(** [Picture], whose [usize]s are 64 bits. *)
Record SessionPicture := { held_frames : list MediaPacket; held_bytes : Z; held_limit : Z }.

Definition picture_new (limit : Z) : SessionPicture := {| held_frames := []; held_bytes := 0; held_limit := limit |}.

Definition picture_clear (self : SessionPicture) : SessionPicture :=
  {| held_frames := []; held_bytes := 0; held_limit := held_limit self |}.

(** [hold]. *)
Definition picture_hold (self : SessionPicture) (frame : MediaPacket) : SessionPicture :=
  let push (self : SessionPicture) :=
    let bytes := held_bytes self +u size frame in
    if held_limit self <? bytes then picture_clear self
    else {| held_frames := held_frames self ++ [frame]; held_bytes := bytes; held_limit := held_limit self |} in
  if is_key frame then push (picture_clear self)
  else match held_frames self with [] => self | _ => push self end.

(** [take]. *)
Definition picture_take (self : SessionPicture) : list MediaPacket * SessionPicture :=
  (held_frames self, picture_clear self).

(** ** Delivery *)

(** The counts of str0m's report of what left, and of what the browser told. *)
Record EgressStats := { stats_packets : Z; stats_bytes : Z; stats_nacks : Z; stats_lost : option Z }.

Record Delivery := {
  delivery_dropped : Z; delivery_sent : Z; delivery_bytes : Z; delivery_lost : Z; delivery_nacks : Z
}.

Record DeliveryReport := { report_sent : Z; report_lost : Z; report_nacks : Z }.

Definition delivery_new : Delivery :=
  {| delivery_dropped := 0; delivery_sent := 0; delivery_bytes := 0; delivery_lost := 0; delivery_nacks := 0 |}.

(** [drop_datagram]. *)
Definition drop_datagram (self : Delivery) : bool * Delivery :=
  let dropped := delivery_dropped self +u 1 in
  (dropped =? 1,
   {| delivery_dropped := dropped; delivery_sent := delivery_sent self; delivery_bytes := delivery_bytes self;
      delivery_lost := delivery_lost self; delivery_nacks := delivery_nacks self |}).

(** [report]. *)
Definition delivery_report (self : Delivery) (stats : EgressStats) : DeliveryReport * Delivery :=
  let lost := default (delivery_lost self) (stats_lost stats) in
  ({| report_sent := u64_saturating_sub (stats_packets stats) (delivery_sent self);
      report_lost := u64_saturating_sub lost (delivery_lost self);
      report_nacks := u64_saturating_sub (stats_nacks stats) (delivery_nacks self) |},
   {| delivery_dropped := delivery_dropped self; delivery_sent := stats_packets stats; delivery_bytes := stats_bytes stats;
      delivery_lost := lost; delivery_nacks := stats_nacks stats |}).

(** [summary], of the seconds elapsed and the rate as [f64] prints it. *)
Definition delivery_summary (megabits : Z -> string) (self : Delivery) (elapsed : Z) : string :=
  "sent " +:+ pretty (delivery_sent self) +:+ " packets in " +:+ pretty elapsed +:+ " s at " +:+
  megabits (delivery_bytes self) +:+ " Mbit/s, the browser lost " +:+ pretty (delivery_lost self) +:+ " and asked for " +:+
  pretty (delivery_nacks self) +:+ " again, " +:+ pretty (delivery_dropped self) +:+ " never left this host".

(** ** Candidates *)

Record SocketAddr := { socket_ip : IpAddr; socket_port : Z }.

(** str0m's candidates: a host's, and a server reflexive one over a base. *)
Class CandidateCrate := {
  Candidate : Type;
  host_candidate : SocketAddr -> option Candidate;
  reflexive_candidate : SocketAddr -> SocketAddr -> option Candidate;
  candidate_addr : Candidate -> SocketAddr
}.

Definition is_ipv4 (ip : IpAddr) : bool := match ip with V4 _ => true | V6 _ => false end.
Definition same_family (a b : IpAddr) : bool := Bool.eqb (is_ipv4 a) (is_ipv4 b).

Section candidates.
Context `{CandidateCrate} (port : Z) (local hosts receiving : list IpAddr).

Definition receives (ip : IpAddr) : bool :=
  existsb (fun socket => same_family socket ip && (is_unspecified socket || bool_decide (socket = ip))) receiving.
Definition family_served (ip : IpAddr) : bool := existsb (fun socket => same_family socket ip) receiving.

(** A local address offered. *)
Definition offered_local : list IpAddr := List.filter (fun ip => negb (is_link_local ip)) (List.filter receives local).

Definition host_candidates : list Candidate :=
  omap (fun ip => host_candidate {| socket_ip := ip; socket_port := port |}) offered_local.

(** The base a host is offered over, among what is offered so far. *)
Definition base_for (host : IpAddr) (offered : list Candidate) : option SocketAddr :=
  List.find (fun base => same_family (socket_ip base) host && negb (is_loopback (socket_ip base)))
    (candidate_addr <$> offered).

(** A configured host: offered where it has a base, told otherwise. *)
Definition offer_host (so_far : list Candidate * list IpAddr) (host : IpAddr) : list Candidate * list IpAddr :=
  let '(offered, told) := so_far in
  match base_for host offered with
  | None => (offered, told ++ [host])
  | Some base =>
      match reflexive_candidate {| socket_ip := host; socket_port := port |} base with
      | Some reflexive => (offered ++ [reflexive], told)
      | None => (offered, told)
      end
  end.

Definition remote_hosts : list IpAddr :=
  List.filter (fun host => negb (bool_decide (host ∈ local))) (List.filter family_served hosts).

(** [candidates], with the hosts it warns of. *)
Definition candidates : list Candidate * list IpAddr := foldl offer_host (host_candidates, []) remote_hosts.
End candidates.

(** ** What the picture is *)

(** The frames from the latest keyframe on, none before the first. *)
Definition from_key (fed : list MediaPacket) : list MediaPacket :=
  foldl (fun kept frame => if is_key frame then [frame] else match kept with [] => [] | _ => kept ++ [frame] end) [] fed.

(** What fits the limit is held, and otherwise nothing. *)
Definition fitting (limit : Z) (frames : list MediaPacket) : list MediaPacket :=
  if total_size frames <=? limit then frames else [].

Lemma fitting_fits limit frames : total_size frames <= limit -> fitting limit frames = frames.
Proof. unfold fitting. by intros ->%Z.leb_le. Qed.

Lemma fitting_not limit frames : limit < total_size frames -> fitting limit frames = [].
Proof. unfold fitting. by intros ->%Z.leb_gt. Qed.

Lemma from_key_snoc fed frame :
  from_key (fed ++ [frame]) =
    if is_key frame then [frame] else match from_key fed with [] => [] | kept => kept ++ [frame] end.
Proof. unfold from_key. rewrite foldl_app. simpl. by destruct (foldl _ _ _). Qed.

Lemma from_key_head fed first rest : from_key fed = first :: rest -> is_key first = true.
Proof.
  revert first rest. induction fed as [|frame fed IH] using rev_ind; intros first rest; [done|].
  rewrite from_key_snoc. destruct (is_key frame) eqn:Hkey; [by intros [= <- _]|].
  destruct (from_key fed) as [|kept others]; [done|]. intros [= <- _]. by eapply IH.
Qed.

Lemma total_size_bounded frames limit : total_size frames <= limit -> limit <= i64_max -> in_u64 (total_size frames).
Proof. intros. pose proof (total_size_nonneg frames). unfold_ranges. lia. Qed.

Lemma size_nonneg frame : 0 <= size frame.
Proof. unfold size. lia. Qed.

(** A frame pushed after those held, which it may not fit with. *)
Lemma push_fits limit held frame :
  0 <= limit <= i64_max -> sized frame -> total_size held <= limit ->
  (if limit <? total_size held +u size frame
   then picture_clear {| held_frames := held; held_bytes := total_size held; held_limit := limit |}
   else {| held_frames := held ++ [frame]; held_bytes := total_size held +u size frame; held_limit := limit |}) =
    {| held_frames := fitting limit (held ++ [frame]); held_bytes := total_size (fitting limit (held ++ [frame]));
       held_limit := limit |}.
Proof.
  intros Hlimit Hsized Hheld. pose proof (size_nonneg frame). pose proof (total_size_nonneg held). unfold sized in Hsized.
  assert (Hbytes : total_size held +u size frame = total_size (held ++ [frame])).
  { rewrite total_size_app, total_size_single. no_wrap. done. }
  rewrite Hbytes. unfold fitting, picture_clear. simpl.
  destruct (Z.ltb_spec limit (total_size (held ++ [frame]))), (Z.leb_spec (total_size (held ++ [frame])) limit); try lia; done.
Qed.

Lemma picture_folds limit fed :
  0 <= limit <= i64_max -> Forall sized fed ->
  foldl picture_hold (picture_new limit) fed =
    {| held_frames := fitting limit (from_key fed); held_bytes := total_size (fitting limit (from_key fed));
       held_limit := limit |}.
Proof.
  intros Hlimit. induction fed as [|frame fed IH] using rev_ind.
  { intros _. unfold fitting. simpl. by destruct (Z.leb_spec 0 limit); [|lia]. }
  intros [Hfed [Hframe _]%Forall_cons]%Forall_app. rewrite foldl_app, IH by done. simpl.
  rewrite from_key_snoc. unfold picture_hold. simpl. destruct (is_key frame).
  { apply (push_fits limit [] frame); [done|done|]. simpl. lia. }
  destruct (from_key fed) as [|first rest] eqn:Hkept.
  { unfold fitting. simpl. by destruct (Z.leb_spec 0 limit); [|lia]. }
  destruct (Z.le_gt_cases (total_size (first :: rest)) limit) as [Hfits|Hlarge].
  - rewrite (fitting_fits limit (first :: rest)) by done. by apply (push_fits limit (first :: rest) frame).
  - assert (Hboth : limit < total_size ((first :: rest) ++ [frame])).
    { rewrite total_size_app, total_size_single. pose proof (size_nonneg frame). lia. }
    rewrite (fitting_not limit (first :: rest)) by done. by rewrite (fitting_not limit (first :: rest ++ [frame])).
Qed.

(** What a browser starts from is the frames since the latest keyframe, which
    is the first of them, where they fit the limit together, and none where
    they do not. *)
Theorem picture_since_key limit fed :
  0 <= limit <= i64_max -> Forall sized fed ->
  let (frames, left_) := picture_take (foldl picture_hold (picture_new limit) fed) in
  frames = fitting limit (from_key fed) /\ total_size frames <= limit /\
  (forall first rest, frames = first :: rest -> is_key first = true) /\
  left_ = picture_new limit.
Proof.
  intros Hlimit Hfed. rewrite picture_folds by done. unfold picture_take. simpl. split_and!; [done| | |done].
  - unfold fitting. destruct (Z.leb_spec (total_size (from_key fed)) limit); [done|]. simpl. lia.
  - intros first rest. unfold fitting. destruct (_ <=? _); [|done]. apply from_key_head.
Qed.

(** ** What the reports add up to *)

Fixpoint delivery_reports (self : Delivery) (reports : list EgressStats) : list DeliveryReport * Delivery :=
  match reports with
  | [] => ([], self)
  | stats :: reports =>
      let (report, self) := delivery_report self stats in
      let (rest, self) := delivery_reports self reports in (report :: rest, self)
  end.

(** Counts of a whole session do not go back. *)
Fixpoint counting (self : Delivery) (reports : list EgressStats) : Prop :=
  match reports with
  | [] => True
  | stats :: reports =>
      delivery_sent self <= stats_packets stats /\ delivery_nacks self <= stats_nacks stats /\
      delivery_lost self <= default (delivery_lost self) (stats_lost stats) /\
      counting (delivery_report self stats).2 reports
  end.

Definition sum_of (count : DeliveryReport -> Z) (reports : list DeliveryReport) : Z :=
  foldr (fun report total => count report + total) 0 reports.

Lemma reports_sum self reports :
  counting self reports ->
  let (told, after) := delivery_reports self reports in
  delivery_sent self + sum_of report_sent told = delivery_sent after /\
  delivery_lost self + sum_of report_lost told = delivery_lost after /\
  delivery_nacks self + sum_of report_nacks told = delivery_nacks after.
Proof.
  revert self. induction reports as [|stats reports IH]; intros self; cbn [delivery_reports counting]; [simpl; lia|].
  intros (Hsent & Hnacks & Hlost & Hrest). specialize (IH _ Hrest).
  destruct (delivery_report self stats) as [report self'] eqn:Hreport. cbn [snd] in IH.
  destruct (delivery_reports self' reports) as [rest after]. injection Hreport as <- <-. cbn in IH |- *.
  unfold u64_saturating_sub. fold (sum_of report_sent rest) (sum_of report_lost rest) (sum_of report_nacks rest). lia.
Qed.

(** ** What is offered *)

(** A candidate is at the address it was made of. *)
Class CandidateLaws `{CandidateCrate} := {
  host_addr address made : host_candidate address = Some made -> candidate_addr made = address;
  reflexive_addr address base made : reflexive_candidate address base = Some made -> candidate_addr made = address
}.

Section offering.
Context `{CandidateLaws} (port : Z) (local hosts receiving : list IpAddr).

Notation reached := (receives receiving).
Notation at_port ip := {| socket_ip := ip; socket_port := port |}.

(** A base a host may be offered over: a local address, not the loopback, that
    a socket receives at and a host candidate was made of. *)
Definition base_of (host base : IpAddr) : Prop :=
  base ∈ local /\ reached base = true /\ is_link_local base = false /\ is_loopback base = false /\
  same_family base host = true /\ is_Some (host_candidate (at_port base)).

(** A host offered: over such a base, and not a local address. *)
Definition offered_over (reflexive : Candidate) : Prop :=
  exists host base, host ∈ hosts /\ host ∉ local /\ base_of host base /\
    reflexive_candidate (at_port host) (at_port base) = Some reflexive.

Lemma in_offered_local ip :
  In ip (offered_local local receiving) <-> In ip local /\ reached ip = true /\ is_link_local ip = false.
Proof. unfold offered_local. rewrite !List.filter_In, negb_true_iff. tauto. Qed.

Lemma host_candidates_at made :
  made ∈ host_candidates port local receiving <->
  exists ip, In ip (offered_local local receiving) /\ host_candidate (at_port ip) = Some made.
Proof. unfold host_candidates. rewrite list_elem_of_omap. by setoid_rewrite list_elem_of_In. Qed.

Lemma same_family_trans a b c : same_family a b = true -> same_family b c = true -> same_family a c = true.
Proof. unfold same_family. by intros ->%eqb_prop ->%eqb_prop; rewrite eqb_reflx. Qed.

Lemma find_app {A} (test : A -> bool) (a b : list A) :
  List.find test (a ++ b) = match List.find test a with Some found => Some found | None => List.find test b end.
Proof. induction a as [|x a IH]; simpl; [done|]. by destruct (test x). Qed.

(** A base's host candidate is offered, at an address that will do. *)
Lemma base_offered host base :
  base_of host base ->
  In (at_port base) (candidate_addr <$> host_candidates port local receiving) /\
  same_family base host && negb (is_loopback base) = true.
Proof.
  intros (Hlocal & Hreached & Hlink & Hloop & Hfamily & [made Hmade]). rewrite Hfamily, Hloop. split; [|done].
  apply list_elem_of_In, list_elem_of_fmap. exists made. split; [by rewrite (host_addr _ _ Hmade)|].
  apply host_candidates_at. exists base. split; [|done]. apply in_offered_local. by rewrite <- list_elem_of_In.
Qed.

(** Whoever is found to stand in for a host is a local address: what was
    offered of another host comes after the local address it is over. *)
Lemma base_for_local host reflexives :
  Forall offered_over reflexives ->
  match base_for host (host_candidates port local receiving ++ reflexives) with
  | Some base => exists ip, base = at_port ip /\ base_of host ip
  | None => forall base, ~ base_of host base
  end.
Proof.
  intros Hreflexives. unfold base_for. rewrite fmap_app, find_app.
  destruct (List.find _ (candidate_addr <$> host_candidates port local receiving)) as [base|] eqn:Hfound.
  - apply List.find_some in Hfound as [Hin [Hfamily Hloop%negb_true_iff]%andb_true_iff].
    apply list_elem_of_In, list_elem_of_fmap in Hin as (made & -> & (ip & Hip & Hmade)%host_candidates_at).
    rewrite (host_addr _ _ Hmade) in Hfamily, Hloop |- *. exists ip. split; [done|].
    apply in_offered_local in Hip as (Hlocal%list_elem_of_In & Hreached & Hlink). by split_and!; try eexists.
  - assert (Hnone : forall base, ~ base_of host base).
    { intros base Hbase. destruct (base_offered host base Hbase) as [Hin Htest].
      apply (List.find_none _ _ Hfound) in Hin. simpl in Hin. congruence. }
    destruct (List.find _ (candidate_addr <$> reflexives)) as [base|] eqn:Hother; [|done]. exfalso.
    apply List.find_some in Hother as [Hin [Hfamily _]%andb_true_iff].
    apply list_elem_of_In, list_elem_of_fmap in Hin as (made & -> & Hmade).
    rewrite Forall_forall in Hreflexives. destruct (Hreflexives made Hmade) as (other & ip & _ & _ & Hbase & Hmake).
    rewrite (reflexive_addr _ _ _ Hmake) in Hfamily. apply (Hnone ip).
    destruct Hbase as (? & ? & ? & ? & Hsame & ?). split_and!; try done. by eapply same_family_trans.
Qed.

(** What is offered is the local addresses a socket receives at, bar the
    link-local, and after them hosts that are not local, each over such an
    address of its family that is not the loopback; the hosts told are those
    that have none. *)
Theorem candidates_offered :
  let '(offered, told) := candidates port local hosts receiving in
  (exists reflexives, offered = host_candidates port local receiving ++ reflexives /\ Forall offered_over reflexives) /\
  (forall host, host ∈ told <-> host ∈ remote_hosts local hosts receiving /\ forall base, ~ base_of host base).
Proof.
  unfold candidates.
  assert (Hremote : Forall (fun host => host ∈ hosts /\ host ∉ local) (remote_hosts local hosts receiving)).
  { apply Forall_forall. intros host Hin%list_elem_of_In. unfold remote_hosts in Hin.
    rewrite !List.filter_In, negb_true_iff, bool_decide_eq_false in Hin. rewrite (list_elem_of_In hosts). tauto. }
  set (remote := remote_hosts local hosts receiving) in *. clearbody remote.
  induction remote as [|host remote IH] using rev_ind; simpl.
  { split; [exists []; by rewrite app_nil_r|]. intros host. set_solver. }
  apply Forall_app in Hremote as [Hremote [[Hhost Hnot] _]%Forall_cons]. specialize (IH Hremote).
  rewrite foldl_app. destruct (foldl _ _ remote) as [offered told]. destruct IH as [(reflexives & -> & Hover) Htold].
  simpl. pose proof (base_for_local host reflexives Hover) as Hbase.
  destruct (base_for host _) as [base|].
  - destruct Hbase as (ip & -> & Hip).
    assert (Hsame : forall other, other ∈ told <-> other ∈ remote ++ [host] /\ forall base, ~ base_of other base).
    { intros other. rewrite Htold, elem_of_app, list_elem_of_singleton. split; [tauto|].
      intros [[?| ->] Hnone]; [done|]. by destruct (Hnone ip). }
    destruct (reflexive_candidate _ _) as [made|] eqn:Hmade; (split; [|done]).
    + exists (reflexives ++ [made]). rewrite app_assoc. split; [done|]. apply Forall_app. split; [done|].
      constructor; [|done]. by exists host, ip.
    + by exists reflexives.
  - split; [by exists reflexives|]. intros other. rewrite elem_of_app, Htold, elem_of_app, !list_elem_of_singleton.
    split; [intros [?| ->]; tauto|]. tauto.
Qed.
End offering.

(** ** Samples *)

Module Sample.
(** Candidates that are what they were made of; a host's is refused at a port
    of none. *)
#[local] Instance crate : CandidateCrate := {|
  Candidate := SocketAddr * option SocketAddr;
  host_candidate := fun address => if socket_port address =? 0 then None else Some (address, None);
  reflexive_candidate := fun address base => Some (address, Some base);
  candidate_addr := fst
|}.

#[local] Instance laws : CandidateLaws.
Proof.
  split.
  - intros address made. simpl. destruct (_ =? 0); [done|]. by intros [= <-].
  - by intros address base made [= <-].
Qed.

Definition any4 : IpAddr := V4 [0; 0; 0; 0].
Definition lan : IpAddr := V4 [10; 0; 0; 2].
Definition public : IpAddr := V4 [203; 0; 113; 5].
Definition public6 : IpAddr := V6 [8193; 3512; 0; 0; 0; 0; 0; 5].

(** Without a socket of a family nothing of it is offered; a host behind NAT
    is, over the local address. *)
Example only_ipv4_offered :
  candidates 8189 [lan; V6 [64768; 0; 0; 0; 0; 0; 0; 2]] [public; public6; lan] [any4] =
    ([({| socket_ip := lan; socket_port := 8189 |}, None);
      ({| socket_ip := public; socket_port := 8189 |}, Some {| socket_ip := lan; socket_port := 8189 |})], []).
Proof. by vm_compute. Qed.

Example host_without_base :
  candidates 8189 [V4 [127; 0; 0; 1]] [public] [any4] =
    ([({| socket_ip := V4 [127; 0; 0; 1]; socket_port := 8189 |}, None)], [public]).
Proof. by vm_compute. Qed.
End Sample.
