(* ===== verification/Layers.v ===== *)
(** * Layers over every route, and the redirecting listener

    [ceres-server/src/layers.rs]: what the configured CORS and compression
    sections make of the layers of [tower_http]; and [redirect.rs]: the answer
    of the plain HTTP listener. The layers themselves are [tower_http]'s. *)
From S2P Require Import Prelude.
From stdpp Require Import pretty.
From S2P Require Import Text Wire Schema Http ConfigValues ConfigServer.
Local Open Scope string_scope.
Local Open Scope list_scope.
Local Open Scope Z_scope.

(** ** CORS *)

Definition ALL_METHODS : list string := ["DELETE"; "GET"; "HEAD"; "OPTIONS"; "PATCH"; "POST"; "PUT"].

(** [wildcard_or_list]. *)
Definition wildcard_or_list (values : MaybeSequence string) : bool * list string :=
  if existsb (String.eqb "*") (as_slice values) then (true, []) else (false, as_slice values).

(** The [http] crate's parsers of names, and [fancy_regex]'s matching, which
    may fail. *)
Class HeaderParsers := {
  parse_method : string -> option string;
  parse_header_name : string -> option string;
  fancy_compiles : string -> bool;
  fancy_is_match : string -> string -> result bool string
}.

(** What a list admits, or a mirror of the request. *)
Inductive Allowed := MirrorRequest | Listed (names : list string).
Inductive AllowOrigin := MirrorOrigin | OriginPredicate (admits : string -> bool).

(** [CorsLayer], as it is built. *)
Record CorsLayer := {
  layer_credentials : bool; layer_max_age : Z; layer_methods : list string; layer_headers : Allowed;
  layer_origin : AllowOrigin; layer_exposed : option (list string)
}.

Section cors.
Context `{HeaderParsers}.

(** The predicate on an origin; a header that is no text has none. *)
Definition origin_admitted (origins : list string) (pattern : option string) (origin : string) : bool :=
  existsb (String.eqb origin) origins ||
  match pattern with
  | Some pattern => match fancy_is_match pattern origin with Ok found => found | Err _ => false end
  | None => false
  end.

(** [apply_cors]: no layer where the section is absent or disabled. *)
Definition apply_cors (config : option ServerCorsConfig) : option CorsLayer :=
  match config with
  | None => None
  | Some config =>
      if negb (cors_enabled config) then None
      else
        let '(any_method, methods) := wildcard_or_list (allow_methods config) in
        let '(any_header, headers) := wildcard_or_list (allow_headers config) in
        let '(any_origin, origins) := wildcard_or_list (allow_origins config) in
        let pattern := pattern ← allow_origin_regex config; if fancy_compiles pattern then Some pattern else None in
        let '(_, exposed) := wildcard_or_list (expose_headers config) in
        Some {| layer_credentials := allow_credentials config;
                layer_max_age := max_age config;
                layer_methods := if any_method then ALL_METHODS else omap parse_method methods;
                layer_headers := if any_header then MirrorRequest else Listed (omap parse_header_name headers);
                layer_origin := if any_origin then MirrorOrigin else OriginPredicate (origin_admitted origins pattern);
                layer_exposed := match exposed with [] => None | _ => Some (omap parse_header_name exposed) end |}
  end.

(** Whether a layer lets an origin through. *)
Definition origin_passes (layer : CorsLayer) (origin : string) : bool :=
  match layer_origin layer with MirrorOrigin => true | OriginPredicate admits => admits origin end.
End cors.

(** ** Compression *)

Definition COMPRESSED_ALREADY : list string :=
  ["video/"; "audio/"; "application/octet-stream"; "font/woff"; "application/zip"; "application/gzip"; "application/x-gzip";
   "application/zstd"; "application/x-xz"; "application/x-bzip2"; "application/x-7z-compressed"; "application/vnd.rar";
   "application/x-rar-compressed"].

(** [NotCompressedAlready], of the media type a response names, if it names one
    that is text. *)
Definition not_compressed_already (media : option string) : bool :=
  match media with
  | None => true
  | Some media =>
      let media := to_lowercase (trim_start media) in
      negb (existsb (fun prefix => str_starts_with prefix media) COMPRESSED_ALREADY)
  end.

Inductive Codec := Zstd | Brotli | Gzip.

#[export] Instance codec_eq_dec : EqDecision Codec.
Proof. solve_decision. Defined.

(** A layer of one codec, at a level. *)
Record CompressionLayer := { layer_codec : Codec; layer_level : Z }.

(** [i32::try_from(level).unwrap_or(1)]. *)
Definition precise (level : Z) : Z := if (-2147483648 <=? level) && (level <=? 2147483647) then level else 1.

(** [apply_compression]: the layers in the order they are put on, the first
    innermost. *)
Definition apply_compression (config : option ServerCompressionConfig) : list CompressionLayer :=
  let config := default compression_default config in
  if negb (compression_enabled config) then []
  else
    (if zstd config then [{| layer_codec := Zstd; layer_level := precise (zstd_level config) |}] else []) ++
    (if brotli config then [{| layer_codec := Brotli; layer_level := precise (brotli_quality config) |}] else []) ++
    (if gzip config then [{| layer_codec := Gzip; layer_level := precise (gzip_level config) |}] else []).

Section compressing.
(** A response, the coding it has, and [tower_http]'s own predicates. *)
Context {R : Type} (coding : R -> option Codec) (media : R -> option string).
Context (size_above : Z -> R -> bool) (not_image not_events : R -> bool).

(** [minimum]: what every layer compresses, and nothing else. *)
Definition compressible (minimum : Z) (response : R) : bool :=
  size_above minimum response && not_image response && not_events response && not_compressed_already (media response).

(** [tower_http]'s layer over a response, to a client that accepts codecs. *)
Context (layer_apply : CompressionLayer -> (R -> bool) -> (Codec -> bool) -> R -> R).

(** A response through the layers, innermost first. *)
Definition compressed (config : option ServerCompressionConfig) (accepts : Codec -> bool) (response : R) : R :=
  foldl (fun response layer => layer_apply layer (compressible (min_size (default compression_default config))) accepts response)
    response (apply_compression config).
End compressing.

(** ** The redirecting listener *)

(** What the listener answers: a temporary redirect, the authority's
    certificate, or a refusal; [MethodNotAllowed] is axum's. *)
Inductive Redirected := TemporaryRedirect (location : string) | AuthorityDownload | BadHost | MethodNotAllowed.

Section redirect.
(** [Authority]'s parser, giving the host it names. *)
Context (parse_authority : string -> option string).

Definition redirect_target (https_port : Z) (host : string) (path_and_query : option string) : string :=
  "https://" +:+ host +:+ (if https_port =? 443 then "" else ":" +:+ pretty https_port) +:+ default "/" path_and_query.

(** [redirect], of the [Host] header where it is text. *)
Definition redirect_answer (https_port : Z) (host : option string) (path_and_query : option string) : Redirected :=
  match host ≫= parse_authority with
  | None => BadHost
  | Some host => TemporaryRedirect (redirect_target https_port host path_and_query)
  end.

(** [redirect_router]: the authority's own route, a [get], and every other. *)
Definition redirect_router (https_port : Z) (authority : bool) (method path : string) (host path_and_query : option string) :
    Redirected :=
  if authority && bool_decide (path = "/ca.crt") then
    if bool_decide (method = "GET") || bool_decide (method = "HEAD") then AuthorityDownload else MethodNotAllowed
  else redirect_answer https_port host path_and_query.
End redirect.

(** ** What passes *)

Section passing.
Context `{HeaderParsers}.

(** The pattern a section is given, which its validation has compiled. *)
Definition pattern_admits (config : ServerCorsConfig) (origin : string) : Prop :=
  exists pattern, allow_origin_regex config = Some pattern /\ fancy_compiles pattern = true /\
    fancy_is_match pattern origin = Ok true.

Lemma wildcard_spec values :
  wildcard_or_list values = if decide ("*" ∈ as_slice values) then (true, []) else (false, as_slice values).
Proof.
  unfold wildcard_or_list. destruct (existsb _ _) eqn:Hexists, (decide _) as [Hin|Hnot]; try done; exfalso.
  - apply existsb_exists in Hexists as (value & Hvalue & <-%String.eqb_eq). by apply Hnot, list_elem_of_In.
  - apply not_true_iff_false in Hexists. apply Hexists, existsb_exists. exists "*". by rewrite <- list_elem_of_In.
Qed.

(** An origin passes where the list holds a star or the origin itself, or the
    pattern matches it, and no other does. *)
Theorem cors_origins config layer origin :
  apply_cors (Some config) = Some layer ->
  origin_passes layer origin = true <->
    "*" ∈ as_slice (allow_origins config) \/ origin ∈ as_slice (allow_origins config) \/ pattern_admits config origin.
Proof.
  unfold apply_cors. destruct (negb (cors_enabled config)); [done|].
  destruct (wildcard_or_list (allow_methods config)) as [any_method methods].
  destruct (wildcard_or_list (allow_headers config)) as [any_header headers].
  destruct (wildcard_or_list (expose_headers config)) as [any_exposed exposed].
  rewrite wildcard_spec. destruct (decide _) as [Hstar|Hstar]; intros [= <-]; simpl; [tauto|].
  unfold origin_passes, origin_admitted. simpl. rewrite orb_true_iff, existsb_exists.
  assert (Hlisted : (exists x, In x (as_slice (allow_origins config)) /\ (origin =? x)%string = true) <->
                    origin ∈ as_slice (allow_origins config)).
  { rewrite list_elem_of_In. split; [by intros (x & ? & ->%String.eqb_eq)|]. intros ?. exists origin.
    by rewrite String.eqb_refl. }
  rewrite Hlisted.
  assert (Hpattern : match (pattern ← allow_origin_regex config; if fancy_compiles pattern then Some pattern else None) with
                     | Some pattern => match fancy_is_match pattern origin with Ok found => found | Err _ => false end
                     | None => false
                     end = true <-> pattern_admits config origin).
  { unfold pattern_admits. destruct (allow_origin_regex config) as [pattern|]; simpl; [|by split; [|intros (? & [=] & _)]].
    destruct (fancy_compiles pattern) eqn:Hcompiles; [|by split; [|intros (? & [= <-] & ? & _); congruence]].
    split.
    - intros Hfound. exists pattern. split_and!; [done..|]. destruct (fancy_is_match pattern origin) as [[|]|]; done.
    - intros (? & [= <-] & _ & ->). done. }
  rewrite <- Hpattern. tauto.
Qed.

(** A star among the exposed headers exposes none of them. *)
Theorem star_exposes_nothing config layer :
  apply_cors (Some config) = Some layer -> "*" ∈ as_slice (expose_headers config) -> layer_exposed layer = None.
Proof.
  unfold apply_cors. intros Happly Hstar. destruct (negb (cors_enabled config)); [done|].
  rewrite (wildcard_spec (expose_headers config)), decide_True in Happly by done.
  destruct (wildcard_or_list (allow_methods config)), (wildcard_or_list (allow_headers config)),
    (wildcard_or_list (allow_origins config)). by injection Happly as <-.
Qed.
End passing.

(** ** Which codec is used *)

Section choosing.
Context {R : Type} (coding : R -> option Codec) (media : R -> option string).
Context (size_above : Z -> R -> bool) (not_image not_events : R -> bool).
Context (layer_apply : CompressionLayer -> (R -> bool) -> (Codec -> bool) -> R -> R).
(** A layer codes what its predicate lets it and nothing has coded yet, for a
    client that accepts its codec, and passes the rest on as it is. *)
Context (layer_codes : forall layer test accepts response,
  coding response = None -> test response = true -> accepts (layer_codec layer) = true ->
  coding (layer_apply layer test accepts response) = Some (layer_codec layer)).
Context (layer_passes : forall layer test accepts response,
  coding response <> None \/ test response = false \/ accepts (layer_codec layer) = false ->
  layer_apply layer test accepts response = response).

Notation through config accepts response :=
  (compressed media size_above not_image not_events layer_apply config accepts response).

Lemma fold_passes test accepts layers response :
  coding response <> None \/ test response = false ->
  foldl (fun response layer => layer_apply layer test accepts response) response layers = response.
Proof.
  intros Hpass. induction layers as [|layer layers IH]; simpl; [done|]. rewrite layer_passes by tauto. exact IH.
Qed.

Lemma fold_codes test accepts layers response :
  coding response = None -> test response = true ->
  coding (foldl (fun response layer => layer_apply layer test accepts response) response layers) =
    List.find accepts (layer_codec <$> layers).
Proof.
  intros Hnone Htest. induction layers as [|layer layers IH]; simpl; [done|].
  destruct (accepts (layer_codec layer)) eqn:Haccepts.
  - rewrite fold_passes; [by apply layer_codes|]. left. by rewrite layer_codes.
  - by rewrite layer_passes by tauto.
Qed.

(** The codecs a section enables, the preferred first. *)
Definition enabled_codecs (config : ServerCompressionConfig) : list Codec :=
  if compression_enabled config
  then (if zstd config then [Zstd] else []) ++ (if brotli config then [Brotli] else []) ++ (if gzip config then [Gzip] else [])
  else [].

(** A response leaves coded with the first codec enabled that the client
    accepts, zstd before brotli before gzip, where it is one to compress; any
    other, or one coded already, leaves as it came. *)
Theorem codec_chosen config accepts response :
  let section := default compression_default config in
  if decide (coding response = None) then
    if compressible media size_above not_image not_events (min_size section) response
    then coding (through config accepts response) = List.find accepts (enabled_codecs section)
    else through config accepts response = response
  else through config accepts response = response.
Proof.
  intros section. unfold compressed. fold section.
  destruct (decide (coding response = None)) as [Hnone|Hcoded]; [|apply fold_passes; auto].
  destruct (compressible _ _ _ _ _ _) eqn:Htest; [|apply fold_passes; auto].
  rewrite fold_codes by done. unfold apply_compression, enabled_codecs. fold section.
  by destruct (compression_enabled section), (zstd section), (brotli section), (gzip section).
Qed.
End choosing.

(** ** Samples *)

Example media_compressed_already :
  forallb (fun media => negb (not_compressed_already (Some media)))
    ["video/mp4"; "Video/MP4"; "audio/ogg"; "font/woff2"; "application/zip"; "application/gzip"; "application/zstd"] = true /\
  forallb (fun media => not_compressed_already (Some media))
    ["text/csv"; "application/json"; "application/x-ndjson"; "font/ttf"; "image/svg+xml"] = true.
Proof. by vm_compute. Qed.

(** A host without its port, as the parser of this sample reads it. *)
Definition before_port (text : string) : option string :=
  match split_once ":" text with Some (host, _) => Some host | None => Some text end.

Example redirects_keep_host_and_path :
  redirect_answer before_port 8443 (Some "10.0.0.5:8080") (Some "/console/a?b=c") =
    TemporaryRedirect "https://10.0.0.5:8443/console/a?b=c" /\
  redirect_answer before_port 443 (Some "example.test") (Some "/") = TemporaryRedirect "https://example.test/" /\
  redirect_answer before_port 8443 None (Some "/") = BadHost.
Proof. by vm_compute. Qed.
